(* ===== verification/_CoqProject ===== *)
-Q . S2P
Prelude.v
Key.v
Trie.v
TrieImpl.v
TrieSet.v
Allocate.v
Regions.v
Deque.v
PrefixQueue.v
ProvideQueue.v
DiversityFilter.v
QPeerset.v
Query.v
GoTime.v
Datastore.v
Varint.v
DsKey.v
Records.v
Message.v
Handlers.v
Values.v
Network.v
Providing.v
Optimistic.v
ProviderOptions.v
DualOptions.v
Dual.v
FullRT.v
Crawler.v
MessageManager.v
Refresh.v
Node.v
Shutdown.v
Config.v
Filters.v
DualNew.v
FullRTValues.v
NetSize.v
QueuePersist.v
Base64.v
Keystore.v
KeystoreReset.v
Connectivity.v
Buffered.v
TimeSeries.v
GoMonad.v
Provider.v
Schedule.v
ProviderInv.v
ProviderSafe.v
ProviderGroup.v
ProviderSteps.v
ProviderFacts.v
ProviderDemo.v
ProviderStats.v
FullRTNew.v
OptimisticProvide.v
RefreshManager.v
CrawlerQuery.v
