(* ===== verification/Prelude.v ===== *)
(** * A verification library for go-libp2p-kad-dht

    The repository is a Kademlia distributed hash table in Go, with a provider
    system that advertises keys to the peers closest to them by sweeping over
    the keyspace.  This library models its own logic as executable definitions
    and proves the properties that make it correct.

    ** Parts of the program and where they are modelled

    - [provider/internal/keyspace] (keys, prefixes and binary tries):
      [Key], [Trie] (the trie library as the class [TrieLib], with the
      functions that iterate, search and prune), [TrieImpl] (an implementation
      of [TrieLib] that satisfies its laws), [TrieSet] (coverage, subtraction,
      gaps), [Allocate] (allocation of items to their closest destinations),
      [Regions] (regions of peers).
    - [provider/internal/queue]: [Deque] (the deque library as a class with an
      instance), [PrefixQueue] ([prefix.go], [reprovide.go]), [ProvideQueue]
      ([provide.go] in memory), [QueuePersist] ([Persist], [DrainDatastore]).
    - [provider/keystore]: [Base64] (the encoding of [encoding/base64]),
      [Keystore] ([keystore.go]), [KeystoreReset] ([resettable_keystore.go]).
    - [provider/provider.go], the sweeping provider: [GoTime] (times and
      timestamps), [GoMonad] (the monad), [Provider] (the state
      [SweepingProvider] and all its operations), [Schedule] (the times of
      regions), [ProviderInv], [ProviderSafe], [ProviderGroup] (invariant and
      specifications of the operations), [ProviderSteps] (operations and
      goroutines as steps), [ProviderFacts] (properties of single operations),
      [ProviderDemo] (a concrete network, the witnesses and the findings),
      [Shutdown] ([Close] and the goroutines that it waits for), [ProviderStats]
      ([provider/stats.go], [provider/stats/types.go]).
    - [provider/internal/connectivity]: [Connectivity], the goroutines of the
      checker as steps and the documented machine that they refine.
    - [provider/buffered]: [Buffered], against the interface [ProviderIface]
      ([internal/interface.go]) and the persistent queue [QueueLib].
    - [provider/internal/timeseries]: [TimeSeries], the series on [int64] and
      the statistics of a reprovide cycle.
    - [query.go], [qpeerset] (lookups): [QPeerset], [Query].
    - [rt_diversity_filter.go]: [DiversityFilter].
    - [pb]: [Message] (messages, the conversions between peers and messages,
      the requests of the protocol messenger against the interface
      [MessageSender]).
    - [records]: [Varint], [DsKey] (the formats of its entries), [Records] (the
      run loop of the provider manager and its garbage collection).
    - [handlers.go], [dht_net.go] and the functions of [dht.go] they use:
      [Handlers].
    - [routing.go], [records.go], [lookup.go]: [Values] (values), [Network] (a
      network of such nodes, in which [PutValue] is followed to the handlers),
      [Providing] (provider records and peers); [lookup_optim.go]:
      [Optimistic] (its goroutines), [OptimisticProvide] (the whole function);
      [netsize]: [NetSize].
    - [dht_options.go], [internal/config], the constructors of [dht.go]:
      [Config]; [dht_filters.go]: [Filters]; the constructor of [dual/dual.go]:
      [DualNew].
    - [provider/options.go], [provider/dual/options.go]: [ProviderOptions],
      [DualOptions]; [dual/dual.go], [provider/dual/provider.go]: [Dual].
    - [fullrt]: [FullRT] (closest peers and bulk operations), [FullRTValues]
      (values, providers and peers), [FullRTNew] (options, constructor and the
      loop of crawls).  [crawler]: [Crawler] (the crawl), [CrawlerQuery] (its
      queries and messages).
    - [internal/net/message_manager.go]: [MessageManager].
      [rtrefresh/rt_refresh_manager.go]: [Refresh] (the refreshes),
      [RefreshManager] (its goroutines and requests).
    - [dht.go], [subscriber_notifee.go]: [Node], the goroutines that add peers
      to the routing table, switch the mode and bootstrap.
    - [Datastore]: the package [go-datastore] as the class [DsLib], its laws
      and an in-memory instance with faults.  [Prelude]: notations, integers,
      tactics and lemmas that the other files share.

    ** How code is modelled

    Every function is one definition with the name of the source, loops are
    fixpoints with the variables of the loop as arguments.  Code that panics
    returns [None]; errors are values.  Loops that are not structural have
    fuel; every theorem about them shows that the fuel at hand is enough, so
    that a result is always produced (the number of keys for the prefix
    queues, the number of scheduled regions for the reprovide cursor, three
    steps per peer for a lookup).  Integers are [Z]; wrap-around is written
    ([wrap64]) where the source can overflow, as in the schedule.

    Code of other repositories is an argument: tries, deques, datastores and
    the encoding of multihashes are classes of operations with classes of
    laws, which state what these packages document, and each class has an
    instance.  Hashes are functions with fixed length; they are injective only
    where the theorem says so.  The network, the clock and random choices are
    answers of an oracle: theorems hold for all of them.

    Options are functions on configurations; the maps of validators that
    configurations share live in a heap.  Floating-point numbers are a class of
    the operations that the code uses, with IEEE 754 as an instance, because Go
    does not fix their rounding; what is proved of them is which numbers are
    combined, not how they are rounded.

    Goroutines are steps.  A lookup is a transition system of its loop and its
    queries.  The provider runs an operation under its locks as one step and
    puts the goroutines it starts in a list of tasks, which run in any order;
    the network calls of a task see the state that other steps left.  The
    keystore worker serves one request per step, and a step of [ResetCids]
    writes one batch.  The buffered provider has a step for each put, each
    signal and each batch; the connectivity checker one for each check and
    each timer.  The provider manager has a step for each request and for each
    result of a garbage collection; the senders of messages one for each
    critical section of a lock; optimistic provides, bulk operations, crawls,
    refreshes and the shutdown of the provider one for each event of a
    goroutine.

    ** What is proved

    - Keyspace: the algorithms on tries agree with their meaning on sets of
      identifiers (coverage, gaps, the k closest destinations, regions).
    - Queues: every sequence of operations runs without a panic and behaves
      like a list of disjoint prefixes with their keys; persistence is a round
      trip.
    - Keystore: it is a set of multihashes, also when the datastore fails;
      it survives restarts; a reset replaces the set and is invisible until it
      ends.
    - Provider: every sequence of calls, callbacks and goroutines runs without
      a panic and keeps the invariant; no region is skipped when the cursor
      advances; keys are grouped, claimed and sent as documented; refreshing
      leaves no key unscheduled.  A shutdown adds no goroutine to those that it
      waits for, and it returns.  The counters of operations in progress return
      to zero, and the snapshot of the statistics is that of the state.
    - Connectivity checker: its callbacks follow the documented machine, and
      [Close] stops it.
    - Buffered provider: a batch has the effect of its operations one by one,
      no wake-up of the worker is lost, and the worker empties the queue.
    - Time series: the operations see exactly the retention window; [Add] and
      [Cleanup] of the cycle statistics keep disjoint prefixes and change the
      covered keyspace and the entries exactly as stated.
    - Lookups: safety of the event loop, termination, the reasons of
      termination, the result, the follow-up.
    - Diversity filter: counters are exact and bounded.
    - Values: whatever messages arrive, stored records stay valid and are
      replaced only by better ones; a value that is put is returned by the
      reachable closest peers; a search returns the best value it receives.
    - Provider records: a peer can only announce itself; the manager returns
      the providers that were added and are not expired; a provide reaches the
      reachable closest peers; a search returns named providers, each once or
      again with addresses; optimistic provides end and wait for enough
      requests.
    - Options: accepted configurations are in range, and those of the dual
      provider are accepted by the two providers it creates; the settings of a
      node are those of its last options, and a node that is accepted with the
      prefix of the Amino DHT has its settings; so for the two nodes of the dual
      DHT and the full routing table client.
    - Network size: an estimate is that of exactly the recent measurements.
    - Full routing table: the closest peers with the limit per IP group; bulk
      operations send each key once to each of its closest peers and count
      every call; its values are searched like those of a node, and its search
      for providers returns as many as asked for; a crawl queries every peer it
      hears of once and ends, and the tables are those of the last crawl.
    - Streams: requests leak no stream, and no interleaving forgets one if the
      locks are obtained.
    - Node: only peers that answered enter the routing table, checks stay
      within their capacity, and mode, handlers and streams agree.
    - Refresh: which lengths are refreshed, which peers are evicted, and that
      every request is answered once, also when the manager is closed.

    Some theorems exhibit behaviour that differs from what the comments of the
    source promise; their comments say so.

    ** Not modelled

    The generated encoding of messages and the reading of streams
    ([pb/dht.pb.go], [internal/net] beyond the senders); [providers], a
    deprecated copy of [records] that differs in how it is closed and in the
    test of two errors; the constructors that only pass arguments on
    ([NewRtRefreshManager] in [dht.go], the dual provider); the options of the
    buffered provider; the options of [keystore]; the loop that refreshes
    addresses in the peerstore; metrics, tracing events and logging.  Networks and
    third-party packages appear only as parameters. *)

From stdpp Require Export base tactics list numbers option gmap sorting.
From stdpp Require Export strings.
From Stdlib Require Import Ascii.
From Stdlib Require Export ZArith Lia.

#[global] Set Default Goal Selector "!".

(** ** Notations *)

Declare Scope kad_scope.
Delimit Scope kad_scope with kad.

(** A Kademlia identifier or a keyspace prefix: the sequence of its bits,
    most significant bit first ([false] is the character '0' of a
    [bitstr.Key], [true] is '1').  A [bit256.Key] is a key of length 256. *)
Abbreviation key := (list bool).

Notation "p ≼ k" := (prefix p k) (at level 70, no associativity) : kad_scope.

#[global] Open Scope kad_scope.

(** The prefix written as a string of '0' and '1', [bitstr.Key("...")]. *)
Fixpoint bitstr (s : string) : key :=
  match s with
  | EmptyString => []
  | String c s => Ascii.eqb c "1"%char :: bitstr s
  end.

(** Two prefixes overlap when one of them is a prefix of the other: the
    sets of full keys they stand for are then nested; otherwise they are
    disjoint. *)
Definition overlap (a b : key) : Prop := a ≼ b ∨ b ≼ a.

#[export] Instance overlap_dec a b : Decision (overlap a b).
Proof. unfold overlap. apply _. Defined.

(** No two prefixes of the list overlap, unless they are equal. *)
Definition antichain (l : list key) : Prop :=
  ∀ k1 k2, k1 ∈ l → k2 ∈ l → overlap k1 k2 → k1 = k2.

(** Decides a proposition through an equivalent one. *)
Definition decide_by_iff {P Q : Prop} (H : P ↔ Q) {D : Decision Q} : Decision P :=
  match D with left q => left (proj2 H q) | right n => right (λ p, n (proj1 H p)) end.

Lemma antichain_alt l :
  antichain l ↔ Forall (λ k1, Forall (λ k2, overlap k1 k2 → k1 = k2) l) l.
Proof. unfold antichain. rewrite Forall_forall. setoid_rewrite Forall_forall. naive_solver. Qed.

#[export] Instance antichain_dec l : Decision (antichain l).
Proof. exact (decide_by_iff (antichain_alt l)). Defined.

(** ** Go integers

    [int] and [int64] are two's complement 64-bit integers; arithmetic wraps. *)
Definition wrap64 (z : Z) : Z := (z + 2 ^ 63) `mod` 2 ^ 64 - 2 ^ 63.

Definition in_int64 (z : Z) : Prop := (- 2 ^ 63 ≤ z < 2 ^ 63)%Z.

(** ** Tactics *)

(** Case analysis on the scrutinee of a match of the goal or a hypothesis,
    keeping the equation. *)
Ltac case_match_in H :=
  match type of H with
  | context [ match ?x with _ => _ end ] => destruct x eqn:?
  end.

(** Splits every conjunction and opens every existential of the context. *)
Ltac break :=
  repeat match goal with
  | H : _ ∧ _ |- _ => destruct H
  | H : ∃ _, _ |- _ => destruct H
  end.

(** Proves a decidable proposition by evaluating its decision procedure. *)
Ltac by_compute := apply (bool_decide_unpack _); vm_compute; exact I.

Create HintDb kad.

(** ** Lemmas on prefixes *)

Lemma prefix_snoc (p k : key) b :
  p ++ [b] ≼ k ↔ p ≼ k ∧ k !! length p = Some b.
Proof.
  split.
  - intros [s ->]. split; [exists ([b] ++ s); by rewrite app_assoc |].
    rewrite <-app_assoc, lookup_app_r by lia. by rewrite Nat.sub_diag.
  - intros [[s ->] Hb]. rewrite lookup_app_r, Nat.sub_diag in Hb by lia.
    destruct s as [|x s]; simplify_eq/=. exists s. by rewrite <-app_assoc.
Qed.

Lemma prefix_strict_lookup (p k : key) :
  p ≼ k → length p < length k → ∃ b, k !! length p = Some b ∧ p ++ [b] ≼ k.
Proof.
  intros Hp Hl. destruct (lookup_lt_is_Some_2 k (length p) Hl) as [b Hb].
  exists b. split; [done|]. by apply prefix_snoc.
Qed.

Lemma prefix_take_eq (p k : key) : p ≼ k ↔ length p ≤ length k ∧ p = take (length p) k.
Proof.
  split.
  - intros [s ->]. rewrite length_app, take_app_length. split; [lia|done].
  - intros [Hl ->]. apply prefix_take.
Qed.

Lemma prefix_same_length (p q k : key) : p ≼ k → q ≼ k → length p = length q → p = q.
Proof.
  intros Hp Hq Hl. apply prefix_take_eq in Hp as [_ ->].
  apply prefix_take_eq in Hq as [_ ->]. by rewrite Hl.
Qed.

Lemma prefix_shorter (p q k : key) : p ≼ k → q ≼ k → length p ≤ length q → p ≼ q.
Proof.
  intros Hp Hq Hl. destruct (prefix_weak_total p q k Hp Hq) as [?|Hqp]; [done|].
  apply prefix_length in Hqp as Hl'.
  rewrite (prefix_same_length p q k) by (done || lia). done.
Qed.

Lemma prefix_diverge (p k x : key) b :
  p ++ [b] ≼ k → p ++ [negb b] ≼ x → ¬ overlap k x.
Proof.
  intros Hk Hx Ho.
  assert (Hlk := prefix_length _ _ Hk). assert (Hlx := prefix_length _ _ Hx).
  assert (∀ l, p ++ [b] ≼ l → p ++ [negb b] ≼ l → False) as Hno.
  { intros l [_ H1]%prefix_snoc [_ H2]%prefix_snoc. rewrite H1 in H2.
    destruct b; simplify_eq/=. }
  destruct Ho as [H|H]; [apply (Hno x)|apply (Hno k)]; by etrans.
Qed.

Lemma overlap_refl k : overlap k k.
Proof. by left. Qed.

Lemma overlap_sym a b : overlap a b → overlap b a.
Proof. unfold overlap. tauto. Qed.

Lemma overlap_prefix_l a b c : a ≼ b → overlap b c → overlap a c.
Proof.
  intros Hab [Hbc|Hcb]; [left; by etrans|]. by apply (prefix_weak_total a c b).
Qed.

Lemma overlap_same_length a b : overlap a b → length a = length b → a = b.
Proof.
  intros [H|H] Hl; apply prefix_length_eq in H; auto with lia.
Qed.

#[export] Hint Resolve overlap_refl overlap_sym : kad.
#[export] Hint Resolve prefix_take prefix_nil prefix_cons prefix_app_r : kad.

(** ** Lemmas on lists *)

Section list_filter.
Context {A : Type} (P : A → Prop) `{∀ x, Decision (P x)}.

Lemma list_filter_all (l : list A) : (∀ x, x ∈ l → P x) → filter P l = l.
Proof.
  induction l as [|x l IH]; intros Hl; [done|].
  rewrite filter_cons_True by (apply Hl, elem_of_cons; by left).
  f_equal. apply IH. intros y Hy. apply Hl, elem_of_cons. by right.
Qed.

Lemma list_filter_none (l : list A) : (∀ x, x ∈ l → ¬ P x) → filter P l = [].
Proof.
  induction l as [|x l IH]; intros Hl; [done|].
  rewrite filter_cons_False by (apply Hl, elem_of_cons; by left).
  apply IH. intros y Hy. apply Hl, elem_of_cons. by right.
Qed.
End list_filter.

Lemma list_filter_ext {A} (P Q : A → Prop) `{∀ x, Decision (P x)} `{∀ x, Decision (Q x)} (l : list A) :
  (∀ x, x ∈ l → P x ↔ Q x) → filter P l = filter Q l.
Proof.
  induction l as [|x l IH]; intros Hl; [done|]. rewrite !filter_cons, IH by set_solver.
  specialize (Hl x ltac:(set_solver)). repeat case_decide; tauto.
Qed.

Lemma NoDup_fmap_filter {A B} (f : A → B) (P : A → Prop) `{∀ x, Decision (P x)} (l : list A) :
  NoDup (f <$> l) → NoDup (f <$> filter P l).
Proof.
  induction l as [|x l IH]; intros Hl; [constructor|]. rewrite fmap_cons in Hl.
  apply NoDup_cons in Hl as [Hx Hl]. rewrite filter_cons. case_decide; [|by apply IH].
  rewrite fmap_cons. apply NoDup_cons. split; [|by apply IH].
  intros (y & Hy & [_ Hin]%list_elem_of_filter)%list_elem_of_fmap. apply Hx. rewrite Hy.
  by apply list_elem_of_fmap_2.
Qed.

Lemma elem_of_concat {A} (x : A) ls : x ∈ concat ls ↔ ∃ l, l ∈ ls ∧ x ∈ l.
Proof.
  induction ls as [|l ls IH]; simpl; [set_solver|]. rewrite elem_of_app, IH. set_solver.
Qed.

(** Elements of a sorted list are related in the order of their positions. *)
Lemma StronglySorted_lookup_lt {A} (R : A → A → Prop) l i j x y :
  StronglySorted R l → l !! i = Some x → l !! j = Some y → i < j → R x y.
Proof.
  intros Hs. revert i j. induction Hs as [|z l Hs IH Hz]; intros [|i] [|j] Hi Hj Hlt;
    simplify_eq/=; try lia; [|eapply IH; eauto with lia].
  rewrite Forall_forall in Hz. apply Hz. by apply list_elem_of_lookup_2 in Hj.
Qed.

(** Altering an element without changing the projection [g], resp. its
    relation to the others. *)
Lemma list_fmap_alter_same {A B} (g : A → B) (f : A → A) (i : nat) (l : list A) :
  (∀ x, g (f x) = g x) → g <$> alter f i l = g <$> l.
Proof.
  intros Hf. revert i. induction l as [|x l IH]; intros [|i]; try done.
  - change (g (f x) :: (g <$> l) = g x :: (g <$> l)). by rewrite Hf.
  - change (g x :: (g <$> alter f i l) = g x :: (g <$> l)). by rewrite IH.
Qed.

Lemma Forall_alter_same {A} (P : A → Prop) (f : A → A) (i : nat) (l : list A) :
  (∀ x, P x → P (f x)) → Forall P l → Forall P (alter f i l).
Proof. intros Hf Hl. apply Forall_alter; [done|]. auto. Qed.

Lemma StronglySorted_alter {A} (R : A → A → Prop) (f : A → A) (i : nat) (l : list A) :
  (∀ x y, R x y → R (f x) y ∧ R x (f y)) → StronglySorted R l → StronglySorted R (alter f i l).
Proof.
  intros HR Hl. revert i. induction Hl as [|x l Hl IH Hx]; intros [|i]; try constructor; auto.
  - eapply Forall_impl; [exact Hx|]. intros z Hz. by apply HR.
  - apply Forall_alter_same; [|done]. intros y Hy. by apply HR.
Qed.

(** ** Monadic folds: the effect of a Go loop in the panic monad [option] *)

Fixpoint foldM {A S} (f : S → A → option S) (s : S) (l : list A) : option S :=
  match l with
  | [] => Some s
  | x :: l => s' ← f s x; foldM f s' l
  end.

Lemma foldM_app {A S} (f : S → A → option S) s l1 l2 :
  foldM f s (l1 ++ l2) = (s' ← foldM f s l1; foldM f s' l2).
Proof.
  revert s. induction l1 as [|x l1 IH]; intros s; simpl; [done|].
  destruct (f s x); simpl; auto.
Qed.

(** A loop invariant indexed by what was processed and what remains. *)
Lemma foldM_ind {A S} (f : S → A → option S) (I : S → list A → Prop) s l :
  I s l →
  (∀ s x l, I s (x :: l) → ∃ s', f s x = Some s' ∧ I s' l) →
  ∃ s', foldM f s l = Some s' ∧ I s' [].
Proof.
  intros H0 Hstep. revert s H0. induction l as [|x l IH]; intros s H0; simpl; [eauto|].
  destruct (Hstep _ _ _ H0) as (s' & -> & H'). simpl. by apply IH.
Qed.
