(* ===== verification/Key.v ===== *)
(** * Keys and prefixes of the Kademlia keyspace

    Models [provider/internal/keyspace/key.go].  A [bitstr.Key] and a
    [bit256.Key] are the list of their bits (see [Prelude.key]).  The value
    [None] of the [option] results is a Go run-time panic (an index or slice
    bound out of range). *)

From S2P Require Import Prelude.

Local Open Scope Z_scope.

(** [keyspace.KeyLen]: the length of a Kademlia identifier in bits. *)
Definition KeyLen : nat := 256.

(** [Bit(i)] of a key: panics out of range. *)
Definition Bit (k : key) (i : nat) : option bool := k !! i.

(** ** Flipping, extending, comparing *)

(** [FlipLastBit]: flips the last character, the empty key is unchanged. *)
Definition FlipLastBit (k : key) : key :=
  match last k with
  | None => k
  | Some b => take (length k - 1) k ++ [negb b]
  end.

(** [FirstFullKeyWithPrefix]: completes [k] with the trailing bits of
    [order]; slicing [order] past its end panics. *)
Definition FirstFullKeyWithPrefix (k order : key) : option key :=
  let kLen := length k in
  if decide (KeyLen < kLen)%nat then Some (take KeyLen k)
  else if decide (kLen ≤ length order)%nat then Some (k ++ drop kLen order)
  else None.

(** [IsBitstrPrefix]: slice comparison of two bit strings. *)
Definition IsBitstrPrefix (k0 k1 : key) : bool :=
  bool_decide (length k0 ≤ length k1)%nat && bool_decide (k0 = take (length k0) k1).

(** [IsPrefix]: the bit by bit comparison used for mixed key types. *)
Definition IsPrefix (k0 k1 : key) : bool :=
  if decide (length k1 < length k0)%nat then false
  else forallb (λ i, bool_decide (k0 !! i = k1 !! i)) (seq 0 (length k0)).

(** [key.CommonPrefixLength]: number of leading bits two keys share. *)
Fixpoint CommonPrefixLength (a b : key) : nat :=
  match a, b with
  | x :: a, y :: b => if eqb x y then S (CommonPrefixLength a b) else 0
  | _, _ => 0
  end.

(** ** Bytes *)

(** The byte [1 << 7]. *)
Definition initMask : Z := 128.

(** The variables of the loop of [KeyToBytes]. *)
Record packState := PackState {
  pk_b : list Z;          (* b *)
  pk_byteIndex : nat;     (* byteIndex *)
  pk_mask : Z;            (* mask *)
  pk_by : Z;              (* by *)
}.

(** [b[byteIndex] = by], which panics out of range. *)
Definition setByte (b : list Z) (i : nat) (by_ : Z) : option (list Z) :=
  if decide (i < length b)%nat then Some (<[i:=by_]> b) else None.

(** One iteration of the loop of [KeyToBytes] on the bit [bit]. *)
Definition KeyToBytes_step (st : packState) (bit : bool) : option packState :=
  let by1 := if bit then Z.lor st.(pk_by) st.(pk_mask) else st.(pk_by) in
  let mask1 := Z.shiftr st.(pk_mask) 1 in
  if decide (mask1 = 0) then
    b1 ← setByte st.(pk_b) st.(pk_byteIndex) by1;
    Some (PackState b1 (S st.(pk_byteIndex)) initMask 0)
  else Some (PackState st.(pk_b) st.(pk_byteIndex) mask1 by1).

(** [KeyToBytes]: packs the bits into bytes, padding the last byte with 0s. *)
Definition KeyToBytes (k : key) : option (list Z) :=
  let byteLen := Nat.div (length k + 7) 8 in
  st ← foldM KeyToBytes_step (PackState (replicate byteLen 0) 0 initMask 0) k;
  if decide (st.(pk_mask) = initMask) then Some st.(pk_b)
  else setByte st.(pk_b) st.(pk_byteIndex) st.(pk_by).

(** ** Prefix families *)

(** The loop body of [ExtendBinaryPrefix]: appends a 0 and a 1 to every
    bit string read from [rd]. *)
Definition extendStep (rd : list key) : list key :=
  rd ≫= λ s, [s ++ [false]; s ++ [true]].

(** [ExtendBinaryPrefix]: all bit strings of length [n] with the prefix. *)
Definition ExtendBinaryPrefix (prefix : key) (n : Z) : list key :=
  let extraBits := n - Z.of_nat (length prefix) in
  if decide (n < 0 ∨ extraBits < 0) then []
  else Nat.iter (Z.to_nat extraBits) extendStep [prefix].

(** [SiblingPrefixes]: the siblings of the nodes on the path to [k]. *)
Definition SiblingPrefixes (k : key) : list key :=
  (λ i, FlipLastBit (take (S i) k)) <$> seq 0 (length k).

(** [PrefixAndKeys] *)
Record PrefixAndKeys (mh : Type) := mkPrefixAndKeys {
  Prefix : key;
  Keys : list mh;
}.
Arguments mkPrefixAndKeys {_} _ _.
Arguments Prefix {_} _.
Arguments Keys {_} _.

(** The comparison of [SortPrefixesBySize]: larger key lists first. *)
Definition bySize {mh} (a b : PrefixAndKeys mh) : Prop :=
  (length b.(Keys) ≤ length a.(Keys))%nat.

#[export] Instance bySize_dec {mh} (a b : PrefixAndKeys mh) : Decision (bySize a b).
Proof. unfold bySize. apply _. Defined.

(** [SortPrefixesBySize].  A Go map from prefixes to slices; [None] is the
    nil slice.  [slices.SortFunc] returns a permutation sorted by the
    comparison function, here the one merge sort computes. *)
Definition SortPrefixesBySize {mh} (prefixes : gmap key (option (list mh)))
    : list (PrefixAndKeys mh) :=
  merge_sort bySize
    (omap (λ '(p, ks), mkPrefixAndKeys p <$> ks) (map_to_list prefixes)).

(** ** The XOR metric *)

(** [before o a b]: at the first bit where [a] and [b] differ, [a] agrees
    with [o].  For keys of the same length this is: [a] is strictly closer
    to [o] than [b] in XOR distance (see [before_xorDist]). *)
Fixpoint before (o a b : key) : bool :=
  match a, b with
  | x :: a, y :: b =>
      if eqb x y then before (tail o) a b
      else match o with c :: _ => eqb x c | [] => false end
  | _, _ => false
  end.

(** The integer a bit string denotes, most significant bit first. *)
Definition bitsZ (k : key) : Z := foldl (λ n b, 2 * n + Z.b2z b) 0 k.

(** XOR distance between two identifiers of the same length. *)
Definition xorDist (a b : key) : Z := bitsZ (zip_with xorb a b).

(** ** Shortest covered prefix *)

Section ShortestCoveredPrefix.
Context {peerID : Type}.

(** SHA-256 of a peer identifier. *)
Variable PeerIDToBit256 : peerID → key.

(** [kb.SortClosestPeers] of go-libp2p-kbucket. *)
Variable SortClosestPeers : list peerID → list Z → list peerID.

(** The loop of [ShortestCoveredPrefix] over the sorted peers: [i] is the
    index of the first peer of [peers], the result is the final
    [(coveredCpl, lastCoveredPeerIndex)]. *)
Fixpoint coveredLoop (target : key) (peers : list peerID)
    (i minCpl coveredCpl lastCovered : nat) : nat * nat :=
  match peers with
  | [] => (coveredCpl, lastCovered)
  | p :: peers =>
      let cpl := CommonPrefixLength target (PeerIDToBit256 p) in
      if decide (cpl < minCpl)%nat
      then coveredLoop target peers (S i) cpl (S cpl) i
      else coveredLoop target peers (S i) minCpl coveredCpl lastCovered
  end.

(** [ShortestCoveredPrefix] *)
Definition ShortestCoveredPrefix (target : key) (peers : list peerID)
    : option (key * list peerID) :=
  match peers with
  | [] => Some (target, peers)
  | _ =>
      bs ← KeyToBytes target;
      let sorted := SortClosestPeers peers bs in
      let '(coveredCpl, lastCovered) := coveredLoop target sorted 0 (length target) 0 0 in
      Some (take coveredCpl target, take lastCovered sorted)
  end.
End ShortestCoveredPrefix.

(** ** Lemmas *)

Lemma FlipLastBit_snoc p b : FlipLastBit (p ++ [b]) = p ++ [negb b].
Proof.
  unfold FlipLastBit. rewrite last_snoc, length_app. simpl.
  replace (length p + 1 - 1)%nat with (length p) by lia. by rewrite take_app_length.
Qed.

Lemma length_FlipLastBit k : length (FlipLastBit k) = length k.
Proof.
  destruct k as [|b p] using rev_ind; [done|].
  rewrite FlipLastBit_snoc, !length_app. done.
Qed.

Lemma FlipLastBit_involutive k : FlipLastBit (FlipLastBit k) = k.
Proof.
  destruct k as [|b p] using rev_ind; [done|].
  by rewrite !FlipLastBit_snoc, negb_involutive.
Qed.

Lemma IsBitstrPrefix_spec a b : IsBitstrPrefix a b = true ↔ a ≼ b.
Proof.
  unfold IsBitstrPrefix. rewrite andb_true_iff, !bool_decide_eq_true.
  by rewrite prefix_take_eq.
Qed.

Lemma IsPrefix_spec a b : IsPrefix a b = true ↔ a ≼ b.
Proof.
  unfold IsPrefix. case_decide as Hl.
  { split; [done|]. intros H%prefix_length. lia. }
  rewrite forallb_forall. split.
  - intros H. apply prefix_take_eq. split; [lia|]. apply list_eq. intros i.
    destruct (decide (i < length a)%nat) as [Hi|Hi].
    + rewrite lookup_take_lt by done.
      specialize (H i). rewrite bool_decide_eq_true in H. apply H.
      apply in_seq. lia.
    + rewrite lookup_take_ge by lia. by apply lookup_ge_None_2; lia.
  - intros [s ->] i Hi. apply in_seq in Hi. apply bool_decide_eq_true.
    by rewrite lookup_app_l by lia.
Qed.

Lemma IsPrefix_decide a b : IsPrefix a b = bool_decide (a ≼ b).
Proof. apply Bool.eq_iff_eq_true. by rewrite IsPrefix_spec, bool_decide_eq_true. Qed.

Lemma IsBitstrPrefix_decide a b : IsBitstrPrefix a b = bool_decide (a ≼ b).
Proof. apply Bool.eq_iff_eq_true. by rewrite IsBitstrPrefix_spec, bool_decide_eq_true. Qed.

(** *** Common prefix length *)

Lemma CommonPrefixLength_sym a b : CommonPrefixLength a b = CommonPrefixLength b a.
Proof.
  revert b. induction a as [|x a IH]; intros [|y b]; simpl; try done.
  rewrite IH. by destruct x, y.
Qed.

Lemma CommonPrefixLength_le a b : (CommonPrefixLength a b ≤ length a)%nat.
Proof.
  revert b. induction a as [|x a IH]; intros [|y b]; simpl; try lia.
  destruct (eqb x y); [specialize (IH b)|]; lia.
Qed.

Lemma CommonPrefixLength_spec a b n :
  (n ≤ length a)%nat → (n ≤ CommonPrefixLength a b ↔ take n a ≼ b)%nat.
Proof.
  revert a b. induction n as [|n IH]; intros [|x a] b Hn; simpl in *;
    try lia; try (split; [intros _; apply prefix_nil | lia]).
  destruct b as [|y b]; simpl.
  { split; [lia|]. intros H%prefix_nil_not. done. }
  destruct (eqb_spec x y) as [->|Hne].
  - rewrite <-Nat.succ_le_mono, IH by lia. split; [apply prefix_cons|apply prefix_cons_inv_2].
  - split; [lia|]. intros H%prefix_cons_inv_1. done.
Qed.

Lemma CommonPrefixLength_full a b : CommonPrefixLength a b = length a ↔ a ≼ b.
Proof.
  pose proof (CommonPrefixLength_le a b).
  pose proof (CommonPrefixLength_spec a b (length a) ltac:(lia)) as Hs.
  rewrite firstn_all in Hs. rewrite <-Hs. lia.
Qed.

(** *** XOR distance *)

Lemma foldl_bitsZ n k : foldl (λ n b, 2 * n + Z.b2z b) n k = n * 2 ^ Z.of_nat (length k) + bitsZ k.
Proof.
  unfold bitsZ. revert n. induction k as [|b k IH]; intros n; cbn [foldl length]; [lia|].
  rewrite IH, (IH (2 * 0 + Z.b2z b)), Nat2Z.inj_succ, Z.pow_succ_r by lia. ring.
Qed.

Lemma bitsZ_cons b k : bitsZ (b :: k) = Z.b2z b * 2 ^ Z.of_nat (length k) + bitsZ k.
Proof. unfold bitsZ. cbn [foldl]. rewrite foldl_bitsZ. unfold bitsZ. lia. Qed.

Lemma bitsZ_bound k : 0 ≤ bitsZ k < 2 ^ Z.of_nat (length k).
Proof.
  induction k as [|b k IH]; [done|].
  rewrite bitsZ_cons. cbn [length]. rewrite Nat2Z.inj_succ, Z.pow_succ_r by lia.
  destruct b; cbn [Z.b2z]; lia.
Qed.

Lemma bitsZ_inj a b : length a = length b → bitsZ a = bitsZ b → a = b.
Proof.
  revert b. induction a as [|x a IH]; intros [|y b] Hl He; simplify_eq/=; [done|].
  rewrite !bitsZ_cons, Hl in He.
  pose proof (bitsZ_bound a). pose proof (bitsZ_bound b). rewrite Hl in *.
  destruct x, y; cbn [Z.b2z] in He; try lia; f_equal; apply IH; lia.
Qed.

(** The recursive comparison is the comparison of XOR distances. *)
Lemma before_xorDist o a b :
  length a = length o → length b = length o →
  before o a b = true ↔ xorDist o a < xorDist o b.
Proof.
  unfold xorDist. revert a b.
  induction o as [|c o IH]; intros [|x a] [|y b] Ha Hb; simplify_eq/=; [lia|].
  pose proof (bitsZ_bound (zip_with xorb o a)) as Ba.
  pose proof (bitsZ_bound (zip_with xorb o b)) as Bb.
  rewrite !bitsZ_cons. rewrite !length_zip_with in *. rewrite Ha, Hb in *.
  rewrite !Nat.min_id in *.
  destruct (eqb_spec x y) as [->|Hne].
  - rewrite (IH a b) by done. lia.
  - destruct c, x, y; cbn [Z.b2z xorb eqb]; simplify_eq; split; intros; try done; lia.
Qed.

Lemma xorDist_inj o a b :
  length a = length o → length b = length o → xorDist o a = xorDist o b → a = b.
Proof.
  intros Ha Hb He. apply bitsZ_inj in He; [|by rewrite !length_zip_with, Ha, Hb].
  revert a b Ha Hb He.
  induction o as [|c o IH]; intros [|x a] [|y b] Ha Hb He; simplify_eq/=; [done|].
  f_equal; [by destruct c, x, y|by apply IH].
Qed.

Lemma before_irrefl o a : before o a a = false.
Proof. revert o. induction a as [|x a IH]; intros o; simpl; [done|]. by rewrite eqb_reflx. Qed.

Lemma before_asym o a b : before o a b = true → before o b a = false.
Proof.
  revert o b. induction a as [|x a IH]; intros o [|y b]; simpl; try done.
  destruct (eqb_spec x y) as [->|Hne]; [rewrite eqb_reflx; apply IH|].
  destruct o as [|c o]; [done|]. by destruct x, y, c.
Qed.

Lemma before_overlap o a b : before o a b = true → ¬ overlap a b.
Proof.
  revert o b. induction a as [|x a IH]; intros o [|y b]; simpl; try done.
  destruct (eqb_spec x y) as [->|Hne].
  - intros Hb [H|H]; apply prefix_cons_inv_2 in H; apply (IH _ _ Hb); [by left|by right].
  - intros _ [H|H]; by apply prefix_cons_inv_1 in H.
Qed.

Lemma before_total o a b :
  ¬ overlap a b → (length a ≤ length o)%nat → before o a b = true ∨ before o b a = true.
Proof.
  revert o b. induction a as [|x a IH]; intros o b; simpl.
  { intros H. destruct H. left. apply prefix_nil. }
  destruct b as [|y b]; intros Ho Hl; simpl.
  { destruct Ho. right. apply prefix_nil. }
  destruct o as [|c o]; simpl in *; [lia|].
  destruct (eqb_spec x y) as [->|Hne].
  - rewrite eqb_reflx. apply IH; [|lia]. intros [H|H]; apply Ho; [left|right]; by apply prefix_cons.
  - destruct x, y, c; simpl; auto.
Qed.

Lemma before_trans o a b c :
  before o a b = true → before o b c = true → before o a c = true.
Proof.
  revert o b c. induction a as [|x a IH]; intros o [|y b] [|z c]; simpl; try done.
  intros H1 H2.
  destruct (eqb_spec x y), (eqb_spec y z), (eqb_spec x z); simplify_eq; try done; eauto.
  destruct o as [|d o]; [done|]. by destruct d, y, z.
Qed.

(** Diverging below a common prefix: the bit of [o] decides. *)
Lemma before_diverge o p a b x :
  o !! length p = Some x → p ++ [x] ≼ a → p ++ [negb x] ≼ b → before o a b = true.
Proof.
  revert o a b. induction p as [|c p IH]; intros o a b Ho Ha Hb; simpl in *.
  - destruct Ha as [a' ->], Hb as [b' ->], o as [|d o]; simplify_eq/=. by destruct x.
  - destruct Ha as [a' ->], Hb as [b' ->], o as [|d o]; simplify_eq/=.
    rewrite eqb_reflx. by apply IH; [|apply prefix_app_r|apply prefix_app_r].
Qed.

(** A longer common prefix with [o] means closer to [o]. *)
Lemma before_cpl o a b :
  (CommonPrefixLength o b < CommonPrefixLength o a)%nat →
  (CommonPrefixLength o b < length b)%nat →
  before o a b = true.
Proof.
  revert a b. induction o as [|c o IH]; intros a b; simpl; [lia|].
  destruct a as [|x a], b as [|y b]; simpl; try lia.
  intros H1 H2.
  destruct (eqb_spec c x) as [->|]; [|lia].
  destruct (eqb_spec x y) as [->|].
  - apply IH; lia.
  - by destruct x, y.
Qed.

(** *** Packing bits into bytes *)

(** The bits of a byte, most significant first. *)
Definition byteBits (z : Z) : key := Z.testbit z <$> [7; 6; 5; 4; 3; 2; 1; 0].

(** The bits of a byte string. *)
Definition unpack (b : list Z) : key := b ≫= byteBits.

Lemma unpack_app b c : unpack (b ++ c) = unpack b ++ unpack c.
Proof. unfold unpack. by rewrite bind_app. Qed.

Lemma setByte_app bs x m by_ : setByte (bs ++ x :: m) (length bs) by_ = Some (bs ++ by_ :: m).
Proof.
  unfold setByte. rewrite length_app. cbn [length].
  rewrite decide_True by lia. f_equal.
  rewrite insert_app_r_alt by lia. by rewrite Nat.sub_diag.
Qed.

(** Eight iterations from a byte boundary store one byte. *)
Lemma KeyToBytes_chunk bs x m c rest :
  length c = 8%nat →
  ∃ z, 0 ≤ z < 256 ∧ byteBits z = c ∧
    foldM KeyToBytes_step (PackState (bs ++ x :: m) (length bs) initMask 0) (c ++ rest) =
    foldM KeyToBytes_step (PackState (bs ++ z :: m) (S (length bs)) initMask 0) rest.
Proof.
  intros Hc. destruct c as [|b7 [|b6 [|b5 [|b4 [|b3 [|b2 [|b1 [|b0 [|]]]]]]]]]; simplify_eq/=.
  pose (z := bitsZ [b7; b6; b5; b4; b3; b2; b1; b0]).
  exists z. split; [|split].
  - apply (bitsZ_bound [b7; b6; b5; b4; b3; b2; b1; b0]).
  - subst z. by destruct b7, b6, b5, b4, b3, b2, b1, b0.
  - assert (∀ z', z' = z → setByte (bs ++ x :: m) (length bs) z' = Some (bs ++ z :: m)) as Hset
      by (intros ? ->; apply setByte_app).
    unfold KeyToBytes_step, initMask.
    cbn -[setByte foldM Z.lor].
    destruct b7, b6, b5, b4, b3, b2, b1, b0; cbn -[setByte]; rewrite Hset; done.
Qed.

(** The code after the loop of [KeyToBytes]. *)
Definition packFinish (st : packState) : option (list Z) :=
  if decide (st.(pk_mask) = initMask) then Some st.(pk_b)
  else setByte st.(pk_b) st.(pk_byteIndex) st.(pk_by).

(** A last incomplete byte is padded with zero bits. *)
Lemma KeyToBytes_last bs x m c :
  (0 < length c < 8)%nat →
  ∃ z, 0 ≤ z < 256 ∧ byteBits z = c ++ replicate (8 - length c) false ∧
    (foldM KeyToBytes_step (PackState (bs ++ x :: m) (length bs) initMask 0) c ≫= packFinish)
      = Some (bs ++ z :: m).
Proof.
  intros Hc. pose (z := bitsZ (c ++ replicate (8 - length c) false)). exists z.
  assert (length (c ++ replicate (8 - length c) false) = 8%nat) as Hl
    by (rewrite length_app, length_replicate; lia).
  pose proof (bitsZ_bound (c ++ replicate (8 - length c) false)) as Hb. rewrite Hl in Hb.
  assert (∀ z', z' = z → setByte (bs ++ x :: m) (length bs) z' = Some (bs ++ z :: m)) as Hset
    by (intros ? ->; apply setByte_app).
  split; [done|].
  destruct c as [|b7 [|b6 [|b5 [|b4 [|b3 [|b2 [|b1 [|b0 c]]]]]]]]; cbn [length] in Hc; try lia;
    (split; [subst z; repeat match goal with b : bool |- _ => destruct b end; reflexivity|]);
    clear Hl Hb; transitivity (setByte (bs ++ x :: m) (length bs) z); try by apply Hset.
  all: subst z; repeat match goal with b : bool |- _ => destruct b end; reflexivity.
Qed.

Lemma KeyToBytes_loop n k bs :
  (length k ≤ n)%nat →
  ∃ b, (foldM KeyToBytes_step
          (PackState (bs ++ replicate (Nat.div (length k + 7) 8) 0) (length bs) initMask 0) k
        ≫= packFinish) = Some (bs ++ b) ∧
    length b = Nat.div (length k + 7) 8 ∧ Forall (λ z, 0 ≤ z < 256) b ∧
    unpack b = k ++ replicate (8 * Nat.div (length k + 7) 8 - length k) false.
Proof.
  revert k bs. induction n as [|n IH]; intros k bs Hn.
  { destruct k; simpl in Hn; [|lia]. exists []. simpl. rewrite app_nil_r.
    unfold packFinish. rewrite decide_True by done. done. }
  destruct (decide (length k = 0)%nat) as [H0|H0].
  { destruct k; [|done]. apply IH. simpl. lia. }
  destruct (decide (length k < 8)%nat) as [H8|H8].
  - replace (Nat.div (length k + 7) 8) with 1%nat
      by (apply (Nat.div_unique _ _ _ (length k - 1)); lia).
    destruct (KeyToBytes_last bs 0 [] k) as (z & Hz & Hbits & Heq); [lia|].
    exists [z]. cbn [replicate]. rewrite Heq. split; [done|]. split; [done|].
    split; [by apply Forall_singleton|]. unfold unpack. cbn [mbind list_bind]. rewrite app_nil_r, Hbits. done.
  - assert (∃ c r, k = c ++ r ∧ length c = 8%nat) as (c & r & -> & Hc).
    { exists (take 8 k), (drop 8 k). rewrite take_drop, length_take. split; [done|lia]. }
    rewrite length_app, Hc in *.
    replace (Nat.div (8 + length r + 7) 8) with (S (Nat.div (length r + 7) 8))
      by (replace (8 + length r + 7)%nat with (length r + 7 + 1 * 8)%nat by lia;
          rewrite Nat.div_add by lia; lia).
    cbn [replicate].
    destruct (KeyToBytes_chunk bs 0 (replicate (Nat.div (length r + 7) 8) 0) c r Hc)
      as (z & Hz & Hbits & ->).
    destruct (IH r (bs ++ [z])) as (b & Heq & Hl & HF & Hu); [lia|].
    rewrite <-!app_assoc, length_app, Nat.add_1_r in Heq. cbn [app length] in Heq.
    exists (z :: b). rewrite Heq. split; [done|]. split; [cbn [length]; lia|].
    split; [by constructor|].
    change (z :: b) with ([z] ++ b). rewrite unpack_app, Hu. unfold unpack at 1.
    cbn [mbind list_bind]. rewrite app_nil_r, Hbits, app_assoc. f_equal. f_equal. lia.
Qed.

(** [KeyToBytes] never writes out of range and its bytes are the bits of
    the key, most significant bit first, padded with zero bits to a whole
    number of bytes. *)
Theorem KeyToBytes_correct k :
  ∃ b, KeyToBytes k = Some b ∧ length b = Nat.div (length k + 7) 8 ∧
    Forall (λ z, 0 ≤ z < 256) b ∧
    unpack b = k ++ replicate (8 * Nat.div (length k + 7) 8 - length k) false.
Proof. apply (KeyToBytes_loop (length k) k []). lia. Qed.

(** *** Prefix families *)

Lemma elem_of_extendStep l x :
  x ∈ extendStep l ↔ ∃ s b, s ∈ l ∧ x = s ++ [b].
Proof.
  unfold extendStep. rewrite list_elem_of_bind. split.
  - intros (s & Hx & Hs). exists s. rewrite !elem_of_cons in Hx.
    destruct Hx as [->|[->|[]%not_elem_of_nil]]; eauto.
  - intros (s & b & Hs & ->). exists s. split; [|done]. rewrite !elem_of_cons.
    destruct b; auto.
Qed.

Lemma NoDup_extendStep l : NoDup l → NoDup (extendStep l).
Proof.
  induction 1 as [|s l Hs Hl IH]; [constructor|].
  change (extendStep (s :: l)) with ([s ++ [false]; s ++ [true]] ++ extendStep l).
  apply NoDup_app. split; [|split; [|done]].
  - apply NoDup_cons. split; [|apply NoDup_singleton].
    rewrite list_elem_of_singleton. by intros [_ [=]]%app_inj_2.
  - intros x Hx Hx'. apply elem_of_extendStep in Hx' as (s' & b & Hs' & ->).
    assert (s' = s) as -> by
      (rewrite !elem_of_cons in Hx; destruct Hx as [H|[H|H]]; try (by apply app_inj_2 in H as [??]);
       by apply not_elem_of_nil in H).
    done.
Qed.

Lemma extendStep_iter n p x :
  x ∈ Nat.iter n extendStep [p] ↔ p ≼ x ∧ length x = (length p + n)%nat.
Proof.
  revert x. induction n as [|n IH]; intros x; simpl.
  - rewrite list_elem_of_singleton, Nat.add_0_r. split; [intros ->; by split|].
    intros [Hp Hl]. symmetry. apply prefix_length_eq; [done|lia].
  - rewrite elem_of_extendStep. setoid_rewrite IH. split.
    + intros (s & b & [Hp Hl] & ->). rewrite length_app. split; [by apply prefix_app_r|simpl; lia].
    + intros [Hp Hl]. destruct x as [|b s] using rev_ind; [simpl in Hl; lia|].
      clear IHs. rewrite length_app in Hl. simpl in Hl. exists s, b. split; [|done].
      split; [|lia]. apply (prefix_shorter p s (s ++ [b])); [done|by apply prefix_app_r|lia].
Qed.

(** [ExtendBinaryPrefix] lists, without repetition, exactly the bit
    strings of length [n] that start with the prefix; there is none when [n]
    is negative or shorter than the prefix. *)
Theorem ExtendBinaryPrefix_correct p n :
  NoDup (ExtendBinaryPrefix p n) ∧
  ∀ x, x ∈ ExtendBinaryPrefix p n ↔ p ≼ x ∧ Z.of_nat (length x) = n.
Proof.
  unfold ExtendBinaryPrefix. case_decide as Hn.
  - split; [constructor|]. intros x. split; [by intros ?%not_elem_of_nil|].
    intros [Hp%prefix_length <-]. lia.
  - split.
    + induction (Z.to_nat _) as [|m IH]; simpl; [apply NoDup_singleton|by apply NoDup_extendStep].
    + intros x. rewrite extendStep_iter. apply and_iff_compat_l. lia.
Qed.

Lemma SiblingPrefixes_snoc p b :
  SiblingPrefixes (p ++ [b]) = SiblingPrefixes p ++ [p ++ [negb b]].
Proof.
  unfold SiblingPrefixes. rewrite length_app, Nat.add_1_r, seq_S, fmap_app. f_equal.
  - apply list_fmap_ext. intros i x Hx. apply lookup_seq in Hx as [-> Hi].
    by rewrite take_app_le by lia.
  - simpl. rewrite take_ge by (rewrite length_app; simpl; lia). by rewrite FlipLastBit_snoc.
Qed.

Lemma elem_of_SiblingPrefixes k q :
  q ∈ SiblingPrefixes k ↔ ∃ p b, p ++ [b] ≼ k ∧ q = p ++ [negb b].
Proof.
  induction k as [|b k IH] using rev_ind.
  { split; [by intros ?%not_elem_of_nil|]. intros (p & b & H%prefix_length & _).
    rewrite length_app in H. simpl in H. lia. }
  rewrite SiblingPrefixes_snoc, elem_of_app, list_elem_of_singleton, IH. split.
  - intros [(p & c & Hp & ->)| ->]; eauto using prefix_app_r.
  - intros (p & c & Hp & ->).
    destruct (decide (length p < length k)%nat) as [Hl|Hl].
    + left. exists p, c. split; [|done].
      apply (prefix_shorter _ _ (k ++ [b])); [done|by apply prefix_app_r|].
      rewrite length_app. simpl. lia.
    + right. apply prefix_length_eq in Hp as Heq.
      { by apply app_inj_2 in Heq as [-> [= ->]]. }
      rewrite !length_app. simpl. lia.
Qed.

(** Together with the key itself, the sibling prefixes partition the
    keyspace: they are pairwise disjoint prefixes, none longer than the key,
    and every identifier at least as long as the key matches one of them. *)
Theorem SiblingPrefixes_partition k :
  (∀ p q, p ∈ k :: SiblingPrefixes k → q ∈ k :: SiblingPrefixes k → overlap p q → p = q) ∧
  (∀ x, (length k ≤ length x)%nat → ∃ p, p ∈ k :: SiblingPrefixes k ∧ p ≼ x).
Proof.
  split.
  - assert (∀ p q c d, p ++ [c] ≼ k → q ++ [d] ≼ k → p ++ [negb c] ≼ q ++ [negb d] →
      p ++ [negb c] = q ++ [negb d]) as Hpq.
    { intros p q c d Hp Hq H. apply prefix_length in H as Hl. rewrite !length_app in Hl. simpl in Hl.
      destruct (decide (length p = length q)) as [He|He].
      { apply prefix_length_eq; [done|]. rewrite !length_app. simpl. lia. }
      assert (p ++ [negb c] ≼ k) as Hpk.
      { etrans; [apply (prefix_shorter _ q (q ++ [negb d]))|].
        - done.
        - by apply prefix_app_r.
        - rewrite length_app. simpl. lia.
        - etrans; [by apply prefix_app_r|done]. }
      destruct (prefix_diverge p k k c Hp Hpk). apply overlap_refl. }
    assert (∀ p c, p ++ [c] ≼ k → ¬ overlap (p ++ [negb c]) k) as Hk.
    { intros p c Hp Ho%overlap_sym. by apply (prefix_diverge p k (p ++ [negb c]) c). }
    intros p q. rewrite !elem_of_cons, !elem_of_SiblingPrefixes.
    intros [->|(p' & c & Hp & ->)] [->|(q' & d & Hq & ->)] Ho; try done.
    + by destruct (Hk q' d Hq (overlap_sym _ _ Ho)).
    + by destruct (Hk p' c Hp Ho).
    + destruct Ho as [Ho|Ho]; [|symmetry]; eauto.
  - induction k as [|b k IH] using rev_ind; intros x Hx.
    { exists []. split; [apply elem_of_cons; by left|apply prefix_nil]. }
    rewrite length_app in Hx. simpl in Hx. destruct (IH x) as (p & Hp & Hpx); [lia|].
    rewrite SiblingPrefixes_snoc. setoid_rewrite elem_of_cons. setoid_rewrite elem_of_app.
    setoid_rewrite list_elem_of_singleton. apply elem_of_cons in Hp as [->|Hp]; [|by eauto].
    destruct (prefix_strict_lookup k x Hpx) as (c & Hc & Hcx); [lia|].
    destruct (eqb_spec c b) as [->|Hne]; [by eauto|].
    exists (k ++ [c]). split; [|done]. assert (c = negb b) as -> by (by destruct c, b). by auto.
Qed.

(** *** The covered prefix *)

Section ShortestCoveredPrefix_correct.
Context `{EqDecision peerID} (PeerIDToBit256 : peerID → key).

Local Abbreviation cplOf target p := (CommonPrefixLength target (PeerIDToBit256 p)).

(** What the loop computes on peers whose common prefix length with the
    target never increases. *)
Lemma coveredLoop_sorted target peers i minCpl cov lst :
  StronglySorted (λ p q, cplOf target q ≤ cplOf target p)%nat peers →
  (∀ p, p ∈ peers → cplOf target p ≤ minCpl)%nat →
  let '(cov', lst') := coveredLoop PeerIDToBit256 target peers i minCpl cov lst in
  (cov' = cov ∧ lst' = lst ∧ ∀ p, p ∈ peers → cplOf target p = minCpl) ∨
  (∃ n p, peers !! n = Some p ∧ lst' = (i + n)%nat ∧ cov' = S (cplOf target p) ∧
     (cplOf target p < minCpl)%nat ∧
     (∀ q, q ∈ take n peers → cplOf target p < cplOf target q)%nat ∧
     (∀ q, q ∈ drop n peers → cplOf target q = cplOf target p)).
Proof.
  revert i minCpl cov lst.
  induction peers as [|p peers IH]; intros i minCpl cov lst Hs Hmin; simpl.
  { left. split_and!; try done. by intros ? ?%not_elem_of_nil. }
  apply StronglySorted_inv in Hs as [Hs Hp]. rewrite Forall_forall in Hp.
  assert (cplOf target p ≤ minCpl)%nat as Hpm by (apply Hmin, elem_of_cons; by left).
  case_decide as Hlt.
  - specialize (IH (S i) (cplOf target p) (S (cplOf target p)) i Hs Hp).
    destruct (coveredLoop _ _ _ _ _ _ _) as [cov' lst'].
    right. destruct IH as [(-> & -> & Hall)|(n & q & Hq & -> & -> & Hlt' & Htake & Hdrop)].
    + exists 0%nat, p. split_and!; try done; try lia; [by intros ? ?%not_elem_of_nil|].
      intros q [->|Hq]%elem_of_cons; [done|by apply Hall].
    + exists (S n), q. split_and!; try done; [lia|lia|].
      intros r [->|Hr]%elem_of_cons; [done|by apply Htake].
  - assert (cplOf target p = minCpl) as He by lia.
    assert (∀ q, q ∈ peers → cplOf target q ≤ minCpl)%nat as Hmin'
      by (intros; apply Hmin, elem_of_cons; by right).
    specialize (IH (S i) minCpl cov lst Hs Hmin').
    destruct (coveredLoop _ _ _ _ _ _ _) as [cov' lst'].
    destruct IH as [(-> & -> & Hall)|(n & q & Hq & -> & -> & Hlt' & Htake & Hdrop)].
    + left. split_and!; try done. intros q [->|Hq]%elem_of_cons; [done|by apply Hall].
    + right. exists (S n), q. split_and!; try done; [lia|].
      intros r [->|Hr]%elem_of_cons; [lia|by apply Htake].
Qed.

(** The documented behaviour of [kb.SortClosestPeers]: it returns its
    argument sorted by ascending XOR distance to the target. *)
Context (SortClosestPeers : list peerID → list Z → list peerID).
Hypothesis PeerIDToBit256_length : ∀ p, length (PeerIDToBit256 p) = KeyLen.
Hypothesis SortClosestPeers_Permutation : ∀ ps bs, SortClosestPeers ps bs ≡ₚ ps.
Hypothesis SortClosestPeers_sorted : ∀ ps target bs,
  length target = KeyLen → KeyToBytes target = Some bs →
  StronglySorted
    (λ p q, xorDist target (PeerIDToBit256 p) ≤ xorDist target (PeerIDToBit256 q))
    (SortClosestPeers ps bs).

Lemma xorDist_cpl target p q :
  length target = KeyLen →
  xorDist target (PeerIDToBit256 p) ≤ xorDist target (PeerIDToBit256 q) →
  (cplOf target q ≤ cplOf target p)%nat.
Proof.
  intros Ht Hd. destruct (decide (cplOf target p < cplOf target q)%nat) as [Hlt|]; [|lia].
  pose proof (CommonPrefixLength_le target (PeerIDToBit256 q)).
  assert (before target (PeerIDToBit256 q) (PeerIDToBit256 p) = true) as Hb.
  { apply before_cpl; [lia|]. rewrite PeerIDToBit256_length. lia. }
  apply before_xorDist in Hb; [lia|by rewrite PeerIDToBit256_length, Ht..].
Qed.

Lemma covered_match target p n :
  length target = KeyLen → (n ≤ KeyLen)%nat →
  take n target ≼ PeerIDToBit256 p ↔ (n ≤ cplOf target p)%nat.
Proof. intros Ht Hn. rewrite CommonPrefixLength_spec by lia. done. Qed.

(** When [peers] are peers of the network [net] closest to a full
    length [target] (no other peer of the network is closer), the call does
    not panic, the returned prefix is a prefix of the target, and the
    returned peers are exactly the peers of the network whose identifier
    starts with it: the prefix is fully covered. *)
Theorem ShortestCoveredPrefix_covers (net : peerID → Prop) target peers :
  length target = KeyLen →
  (∀ p, p ∈ peers → net p) →
  (∀ q, net q → q ∉ peers → ∀ p, p ∈ peers →
     xorDist target (PeerIDToBit256 p) ≤ xorDist target (PeerIDToBit256 q)) →
  (∃ p, p ∈ peers ∧ PeerIDToBit256 p ≠ target) →
  ∃ cp covered,
    ShortestCoveredPrefix PeerIDToBit256 SortClosestPeers target peers = Some (cp, covered) ∧
    cp ≼ target ∧ ∀ q, net q → (q ∈ covered ↔ cp ≼ PeerIDToBit256 q).
Proof.
  intros Ht Hnet Hclose (p0 & Hp0 & Hne).
  destruct (KeyToBytes_correct target) as (bs & Hbs & _).
  unfold ShortestCoveredPrefix. destruct peers as [|p1 ps]; [by apply not_elem_of_nil in Hp0|].
  set (peers := p1 :: ps) in *. rewrite Hbs. cbn [mbind option_bind].
  pose proof (SortClosestPeers_Permutation peers bs) as Hperm.
  pose proof (SortClosestPeers_sorted peers target bs Ht Hbs) as Hsorted.
  set (sorted := SortClosestPeers peers bs) in *.
  assert (StronglySorted (λ p q, cplOf target q ≤ cplOf target p)%nat sorted) as Hcpl.
  { clear Hperm. induction Hsorted as [|x l Hl IH Hx]; constructor; [done|].
    eapply Forall_impl; [done|]. intros q. by apply xorDist_cpl. }
  pose proof (coveredLoop_sorted target sorted 0 (length target) 0 0 Hcpl
    (λ p _, CommonPrefixLength_le target (PeerIDToBit256 p))) as Hloop.
  destruct (coveredLoop _ target sorted 0 (length target) 0 0) as [cov lst].
  eexists _, _. split; [reflexivity|]. split; [apply prefix_take|]. intros q Hq.
  destruct Hloop as [(-> & -> & Hall)|(n & p & Hp & -> & -> & Hlt & Htake & Hdrop)].
  { destruct Hne. rewrite <-Hperm in Hp0. apply Hall, CommonPrefixLength_full in Hp0.
    symmetry. apply prefix_length_eq; [done|]. by rewrite PeerIDToBit256_length, Ht. }
  rewrite Nat.add_0_l, covered_match by (done || lia). split; [by intros ?%Htake|].
  intros Hcov. destruct (decide (q ∈ peers)) as [Hin|Hin].
  - rewrite <-Hperm, <-(take_drop n sorted), elem_of_app in Hin.
    destruct Hin as [?|Hd%Hdrop]; [done|lia].
  - apply list_elem_of_lookup_2 in Hp. rewrite Hperm in Hp.
    pose proof (xorDist_cpl target p q Ht (Hclose q Hq Hin p Hp)). lia.
Qed.
End ShortestCoveredPrefix_correct.

(** Instances that satisfy the hypotheses on the hash and on the sorting. *)
Definition demoHash (n : key) : key := resize KeyLen false n.

Definition demoLe (target p q : key) : Prop :=
  xorDist target (demoHash p) ≤ xorDist target (demoHash q).

#[export] Instance demoLe_dec target p q : Decision (demoLe target p q).
Proof. unfold demoLe. apply _. Defined.

Definition demoSort (ps : list key) (bs : list Z) : list key :=
  merge_sort (demoLe (unpack bs)) ps.

Lemma demoHash_length p : length (demoHash p) = KeyLen.
Proof. apply length_resize. Qed.

Lemma demoSort_sorted ps target bs :
  length target = KeyLen → KeyToBytes target = Some bs →
  StronglySorted (demoLe target) (demoSort ps bs).
Proof.
  intros Hl Hb. destruct (KeyToBytes_correct target) as (b & Hb' & _ & _ & Hu).
  rewrite Hb in Hb'. injection Hb' as <-. rewrite Hl in Hu. change (unpack bs = target ++ []) in Hu.
  rewrite app_nil_r in Hu. unfold demoSort. rewrite Hu.
  apply StronglySorted_merge_sort; unfold demoLe; [intros ???; lia|intros ??; lia].
Qed.

(** The swarm {1000.., 0100.., 0010.., 0001..}, looked up at 0000.. with a
    lookup that returns the three closest peers: the prefix "0" is covered by
    the two peers below it. *)
Lemma ShortestCoveredPrefix_covers_witness :
  ∃ cp covered,
    ShortestCoveredPrefix demoHash demoSort (replicate KeyLen false)
      [[true]; [false; true]; [false; false; true]] = Some (cp, covered) ∧
    cp ≼ replicate KeyLen false ∧
    ∀ q, q ∈ [[true]; [false; true]; [false; false; true]] → (q ∈ covered ↔ cp ≼ demoHash q).
Proof.
  apply (ShortestCoveredPrefix_covers demoHash demoSort demoHash_length
    (λ ps bs, merge_sort_Permutation _ ps) demoSort_sorted
    (λ q, q ∈ [[true]; [false; true]; [false; false; true]])).
  - reflexivity.
  - intros p H. exact H.
  - intros q H1 H2. destruct (H2 H1).
  - exists [true]. split; [apply elem_of_cons; left; reflexivity|].
    intros H. apply (f_equal head) in H. vm_compute in H. discriminate H.
Defined.

(** *** Sorting prefixes by size *)

(** [SortPrefixesBySize] returns each prefix that has a non-nil key list
    exactly once, with its keys, ordered by decreasing number of keys. *)
Theorem SortPrefixesBySize_correct {mh} (prefixes : gmap key (option (list mh))) :
  StronglySorted bySize (SortPrefixesBySize prefixes) ∧
  NoDup (Prefix <$> SortPrefixesBySize prefixes) ∧
  ∀ p ks, mkPrefixAndKeys p ks ∈ SortPrefixesBySize prefixes ↔ prefixes !! p = Some (Some ks).
Proof.
  unfold SortPrefixesBySize.
  pose proof (merge_sort_Permutation bySize
    (omap (λ '(p, ks), mkPrefixAndKeys p <$> ks) (map_to_list prefixes))) as Hp.
  split; [|split].
  - apply StronglySorted_merge_sort; [intros ???; unfold bySize; lia|].
    intros ??; unfold bySize; lia.
  - rewrite Hp. pose proof (NoDup_fst_map_to_list prefixes) as Hnd. clear Hp.
    induction (map_to_list prefixes) as [|[p [ks|]] l IH]; simpl in *; [constructor| |];
      apply NoDup_cons in Hnd as [Hp Hnd]; [|by apply IH].
    apply NoDup_cons. split; [|by apply IH].
    intros Hin. apply Hp. apply list_elem_of_fmap in Hin as ([p' ks'] & He & Hin). simpl in He. subst p'.
    apply list_elem_of_omap in Hin as ([p' o] & Hin & Hp'). apply list_elem_of_fmap.
    destruct o; simplify_eq/=. eexists. split; [|exact Hin]. done.
  - intros p ks. rewrite Hp, list_elem_of_omap. split.
    + intros ([p' o] & Hin & He). apply elem_of_map_to_list in Hin. by destruct o; simplify_eq/=.
    + intros H. exists (p, Some ks). by rewrite elem_of_map_to_list.
Qed.
