(* ===== verification/Trie.v ===== *)
(** * Binary tries: traversal, search and pruning

    Models the first half of [provider/internal/keyspace/trie.go]: iteration
    in the order of a key, prefix and subtrie search, the successor of a key,
    pruning.  The trie type and its mutators come from the package
    [go-libdht/kad/trie], which is not part of the repository: its shape is
    the one the accessors [IsLeaf], [HasKey], [Key], [Data] and [Branch]
    reveal, and its mutators are the fields of the class [TrieLib], with
    their documented behaviour in [TrieLaws].

    [None] in an [option] result is a Go panic ([Bit] out of range). *)

From S2P Require Import Prelude Key.

(** ** The trie type *)

(** An empty leaf, a leaf holding a key and its data, or an inner node with
    its two branches. *)
Inductive trie (D : Type) : Type :=
  | Empty
  | Leaf (k : key) (d : D)
  | Node (t0 t1 : trie D).
Arguments Empty {D}.
Arguments Leaf {D} k d.
Arguments Node {D} t0 t1.

(** [t.Branch(b)] of an inner node with branches [t0] and [t1]. *)
Abbreviation pick b t0 t1 := (if (b : bool) then t1 else t0).

Definition IsEmptyLeaf {D} (t : trie D) : bool :=
  match t with Empty => true | _ => false end.

Definition IsNonEmptyLeaf {D} (t : trie D) : bool :=
  match t with Leaf _ _ => true | _ => false end.

(** The entries of a trie, branch 0 first. *)
Fixpoint entries {D} (t : trie D) : list (key * D) :=
  match t with
  | Empty => []
  | Leaf k d => [(k, d)]
  | Node t0 t1 => entries t0 ++ entries t1
  end.

Abbreviation keys t := ((entries t).*1).

(** ** Iteration *)

(** [trieIterAtDepth]: the values an iterator yields to a consumer that
    does not stop, in the order of [order]. *)
Fixpoint trieIterAtDepth {D T} (t : trie D) (order : key) (depth : nat)
    (extract : key * D → T) : option (list T) :=
  match t with
  | Empty => Some []
  | Leaf k d => Some [extract (k, d)]
  | Node t0 t1 =>
      b ← Bit order depth;
      l0 ← trieIterAtDepth (pick b t0 t1) order (S depth) extract;
      l1 ← trieIterAtDepth (pick b t1 t0) order (S depth) extract;
      Some (l0 ++ l1)
  end.

(** [trieIter] *)
Definition trieIter {D T} (t : trie D) (order : key) (extract : key * D → T) :=
  trieIterAtDepth t order 0 extract.

(** [EntriesIter], [ValuesIter], [KeysIter] *)
Definition EntriesIter {D} (t : trie D) (order : key) : option (list (key * D)) :=
  trieIter t order (λ e, e).
Definition ValuesIter {D} (t : trie D) (order : key) : option (list D) :=
  trieIter t order snd.
Definition KeysIter {D} (t : trie D) (order : key) : option (list key) :=
  trieIter t order fst.

(** [AllEntries], [AllValues], [AllKeys]: the early return on an empty trie,
    then the collected iterator. *)
Definition AllEntries {D} (t : trie D) (order : key) : option (list (key * D)) :=
  if IsEmptyLeaf t then Some [] else EntriesIter t order.
Definition AllValues {D} (t : trie D) (order : key) : option (list D) :=
  if IsEmptyLeaf t then Some [] else ValuesIter t order.
Definition AllKeys {D} (t : trie D) (order : key) : option (list key) :=
  if IsEmptyLeaf t then Some [] else KeysIter t order.

(** The key of 256 zero bits, [bit256.ZeroKey()]. *)
Definition zeroKey : key := replicate KeyLen false.

(** ** Search *)

(** [findPrefixOfKeyAtDepth] *)
Fixpoint findPrefixOfKeyAtDepth {D} (t : trie D) (k : key) (depth : nat)
    : option (key * bool) :=
  match t with
  | Empty => Some ([], false)
  | Leaf tk _ => Some (tk, bool_decide (CommonPrefixLength tk k = length tk))
  | Node t0 t1 =>
      if decide (depth = length k) then Some ([], false)
      else b ← Bit k depth; findPrefixOfKeyAtDepth (pick b t0 t1) k (S depth)
  end.

(** [FindPrefixOfKey]: the key of the trie that is a prefix of [k]. *)
Definition FindPrefixOfKey {D} (t : trie D) (k : key) : option (key * bool) :=
  findPrefixOfKeyAtDepth t k 0.

(** The loop of [FindSubtrie] over the remaining bits of [k]. *)
Fixpoint findSubtrieLoop {D} (t : trie D) (k bits : key) (branch : trie D)
    : trie D * bool :=
  match bits with
  | [] => (branch, negb (IsEmptyLeaf branch))
  | b :: bits =>
      match branch with
      | Empty => (t, false)
      | Leaf tk _ => (branch, bool_decide (CommonPrefixLength tk k = length k))
      | Node t0 t1 => findSubtrieLoop t k bits (pick b t0 t1)
      end
  end.

(** [FindSubtrie]: the subtrie of the keys that start with [k]. *)
Definition FindSubtrie {D} (t : trie D) (k : key) : trie D * bool :=
  if IsEmptyLeaf t then (t, false) else findSubtrieLoop t k k t.

(** [nextNonEmptyLeafAtDepth] *)
Fixpoint nextNonEmptyLeafAtDepth {D} (t : trie D) (k order : key) (depth : nat)
    (hitBottom : bool) {struct t} : option (option (key * D)) :=
  if hitBottom then
    match t with
    | Leaf tk d => Some (Some (tk, d))
    | Empty => Some None
    | Node t0 t1 =>
        orderBit ← Bit order depth;
        nextLeaf ← nextNonEmptyLeafAtDepth (pick orderBit t0 t1) k order (S depth) true;
        match nextLeaf with
        | Some _ => Some nextLeaf
        | None => nextNonEmptyLeafAtDepth (pick orderBit t1 t0) k order (S depth) true
        end
    end
  else
    match t with
    | Empty => Some None
    | Leaf tk d =>
        if decide (depth = 0) then Some (Some (tk, d))
        else
          let cpl := CommonPrefixLength k tk in
          if decide (cpl < length k ∧ cpl < length order ∧ order !! cpl = k !! cpl)
          then Some (Some (tk, d)) else Some None
    | Node t0 t1 =>
        kBit ← Bit k depth;
        nextLeaf ← nextNonEmptyLeafAtDepth (pick kBit t0 t1) k order (S depth) false;
        match nextLeaf with
        | Some _ => Some nextLeaf
        | None =>
            orderBit ← Bit order depth;
            if eqb kBit orderBit || bool_decide (depth = 0) then
              nextLeaf ← nextNonEmptyLeafAtDepth (pick kBit t1 t0) k order (S depth) true;
              match nextLeaf with
              | Some _ => Some nextLeaf
              | None =>
                  if decide (depth = 0)
                  then nextNonEmptyLeafAtDepth (pick kBit t0 t1) k order (S depth) true
                  else Some None
              end
            else Some None
        end
    end.

(** [NextNonEmptyLeaf]: the leaf that follows [k] in the order of [order],
    starting again from the first leaf at the end. *)
Definition NextNonEmptyLeaf {D} (t : trie D) (k order : key) : option (option (key * D)) :=
  nextNonEmptyLeafAtDepth t k order 0 false.

(** ** Pruning *)

(** [pruneSubtrieAtDepth]: the updated trie and the returned flag. *)
Fixpoint pruneSubtrieAtDepth {D} (t : trie D) (k : key) (depth : nat)
    : option (trie D * bool) :=
  match t with
  | Empty => Some (t, false)
  | Leaf tk _ => Some (if IsPrefix k tk then (Empty, true) else (t, false))
  | Node t0 t1 =>
      if decide (depth = length k) then Some (Empty, true)
      else
        b ← Bit k depth;
        '(t', pruned) ← pruneSubtrieAtDepth (pick b t0 t1) k (S depth);
        Some (if pruned && IsEmptyLeaf (pick b t1 t0) then (Empty, true)
              else (pick b (Node t' t1) (Node t0 t'), false))
  end.

(** [PruneSubtrie]: removes all keys that start with [k]. *)
Definition PruneSubtrie {D} (t : trie D) (k : key) : option (trie D) :=
  fst <$> pruneSubtrieAtDepth t k 0.

(** ** Well-formed tries *)

(** [wf_at p t]: [t] is a subtrie at path [p]: every key of a leaf starts
    with the path to the leaf, and an inner node holds at least one key. *)
Fixpoint wf_at {D} (p : key) (t : trie D) : Prop :=
  match t with
  | Empty => True
  | Leaf k _ => p ≼ k
  | Node t0 t1 =>
      wf_at (p ++ [false]) t0 ∧ wf_at (p ++ [true]) t1 ∧ ¬ (t0 = Empty ∧ t1 = Empty)
  end.

#[export] Instance Empty_dec {D} (t : trie D) : Decision (t = Empty).
Proof. destruct t; [by left|by right|by right]. Defined.

#[export] Instance wf_at_dec {D} p (t : trie D) : Decision (wf_at p t).
Proof. revert p. induction t as [|k d|t0 IH0 t1 IH1]; intros p; simpl; apply _. Defined.

Abbreviation wf t := (wf_at [] t).

(** All keys have at most [n] bits. *)
Definition bounded {D} (n : nat) (t : trie D) : Prop :=
  Forall (λ k, length k ≤ n) (keys t).

#[export] Instance bounded_dec {D} n (t : trie D) : Decision (bounded n t).
Proof. unfold bounded. apply _. Defined.

(** The trie library's precondition to store [k]: it overlaps no other key. *)
Definition admissible {D} (t : trie D) (k : key) : Prop :=
  ∀ k', k' ∈ keys t → overlap k k' → k' = k.

(** ** The trie library *)

(** [Add], [AddMany], [Remove], [Find], [Size] of [go-libdht/kad/trie]. *)
Class TrieLib := {
  trie_Add : ∀ {D}, trie D → key → D → trie D;
  trie_AddMany : ∀ {D}, trie D → list (key * D) → trie D;
  trie_Remove : ∀ {D}, trie D → key → trie D;
  trie_Find : ∀ {D}, trie D → key → option D;
  trie_Size : ∀ {D}, trie D → nat;
}.

(** What the callers rely on.  The keys of a trie never overlap; on such
    keys [Add] stores a new key, keeps a present one, [AddMany] adds every
    key, [Remove] removes one, [Find] looks one up, [Size] counts them. *)
Class TrieLaws `{TrieLib} : Prop := {
  Add_empty : ∀ D (k : key) (d : D), trie_Add Empty k d = Leaf k d;
  Add_wf : ∀ D (t : trie D) k d, wf t → admissible t k → wf (trie_Add t k d);
  Add_new : ∀ D (t : trie D) k d, wf t → admissible t k → k ∉ keys t →
    entries (trie_Add t k d) ≡ₚ (k, d) :: entries t;
  Add_old : ∀ D (t : trie D) k d, wf t → admissible t k → k ∈ keys t →
    entries (trie_Add t k d) ≡ₚ entries t;
  AddMany_wf : ∀ D (t : trie D) l, wf t →
    antichain (l.*1 ++ keys t) →
    wf (trie_AddMany t l);
  AddMany_keys : ∀ D (t : trie D) l, wf t →
    antichain (l.*1 ++ keys t) →
    ∀ k, k ∈ keys (trie_AddMany t l) ↔ k ∈ l.*1 ∨ k ∈ keys t;
  AddMany_entries : ∀ D (t : trie D) l, wf t →
    antichain (l.*1 ++ keys t) →
    (∀ e, e ∈ entries t → e ∈ entries (trie_AddMany t l)) ∧
    (∀ e, e ∈ entries (trie_AddMany t l) → e ∈ l ∨ e ∈ entries t);
  Remove_wf : ∀ D (t : trie D) k, wf t → admissible t k → wf (trie_Remove t k);
  Remove_entries : ∀ D (t : trie D) k, wf t → admissible t k →
    entries (trie_Remove t k) ≡ₚ filter (λ e, e.1 ≠ k) (entries t);
  Find_spec : ∀ D (t : trie D) k d, wf t → admissible t k →
    trie_Find t k = Some d ↔ (k, d) ∈ entries t;
  Size_spec : ∀ D (t : trie D), trie_Size t = length (entries t);
}.

(** ** Lemmas: structure *)

Section structure.
Context {D : Type}.
Implicit Types (t : trie D) (p k o : key).

Lemma wf_at_prefix p t k : wf_at p t → k ∈ keys t → p ≼ k.
Proof.
  revert p. induction t as [|k' d|t0 IH0 t1 IH1]; intros p; simpl.
  - by intros _ ?%not_elem_of_nil.
  - by intros ? ->%list_elem_of_singleton.
  - rewrite fmap_app, elem_of_app. intros (H0 & H1 & _) [Hk|Hk].
    + etrans; [|by apply IH0]. by apply prefix_app_r.
    + etrans; [|by apply IH1]. by apply prefix_app_r.
Qed.

(** The keys of a trie do not overlap. *)
Lemma wf_at_antichain p t k1 k2 :
  wf_at p t → k1 ∈ keys t → k2 ∈ keys t → overlap k1 k2 → k1 = k2.
Proof.
  revert p. induction t as [|k' d|t0 IH0 t1 IH1]; intros p; simpl.
  - by intros _ ?%not_elem_of_nil.
  - by intros _ ->%list_elem_of_singleton ->%list_elem_of_singleton.
  - rewrite fmap_app, !elem_of_app. intros (H0 & H1 & _) [Hk1|Hk1] [Hk2|Hk2] Ho; eauto.
    + destruct (prefix_diverge p k1 k2 false); eauto using wf_at_prefix.
    + destruct (prefix_diverge p k1 k2 true); eauto using wf_at_prefix.
Qed.

Lemma wf_at_NoDup p t : wf_at p t → NoDup (keys t).
Proof.
  revert p. induction t as [|k' d|t0 IH0 t1 IH1]; intros p; simpl.
  - intros _. constructor.
  - intros _. apply NoDup_singleton.
  - rewrite fmap_app. intros (H0 & H1 & _). apply NoDup_app. split_and!; eauto.
    intros k Hk0 Hk1. apply (prefix_diverge p k k false); eauto using wf_at_prefix, overlap_refl.
Qed.

Lemma wf_at_nonempty p t : wf_at p t → t ≠ Empty → ∃ k, k ∈ keys t.
Proof.
  revert p. induction t as [|k' d|t0 IH0 t1 IH1]; intros p; simpl; [done| |].
  - intros _ _. exists k'. by apply list_elem_of_singleton.
  - intros (H0 & H1 & Hne) _. setoid_rewrite fmap_app. setoid_rewrite elem_of_app.
    destruct (decide (IsEmptyLeaf t0 = true)) as [He|He].
    + destruct (IH1 _ H1) as [k Hk]; [|by eauto]. intros ->. destruct Hne. by destruct t0.
    + destruct (IH0 _ H0) as [k Hk]; [|by eauto]. by intros ->.
Qed.

Lemma wf_at_empty p t : wf_at p t → entries t = [] → t = Empty.
Proof.
  intros Hw He. destruct t as [|k d|t0 t1] eqn:Ht; [done|done|].
  destruct (wf_at_nonempty p t) as [k Hk]; subst; [done|done|].
  rewrite He in Hk. by apply not_elem_of_nil in Hk.
Qed.

Lemma IsEmptyLeaf_true t : IsEmptyLeaf t = true ↔ t = Empty.
Proof. by destruct t. Qed.

Lemma IsEmptyLeaf_false t : IsEmptyLeaf t = false ↔ t ≠ Empty.
Proof. by destruct t. Qed.

Lemma admissible_present p t k : wf_at p t → k ∈ keys t → admissible t k.
Proof. intros Hw Hk k' Hk' Ho. symmetry. by apply (wf_at_antichain p t k k'). Qed.

Lemma bounded_Permutation n t (t' : trie D) :
  entries t ≡ₚ entries t' → bounded n t → bounded n t'.
Proof. unfold bounded. by intros ->. Qed.

Lemma bounded_elem n t k : bounded n t → k ∈ keys t → length k ≤ n.
Proof. unfold bounded. rewrite Forall_forall. auto. Qed.

(** Number of inner nodes on the longest path. *)
Fixpoint height (t : trie D) : nat :=
  match t with
  | Node t0 t1 => S (Nat.max (height t0) (height t1))
  | _ => 0
  end.

Lemma wf_at_height n p t :
  wf_at p t → bounded n t → t ≠ Empty → length p + height t ≤ n.
Proof.
  revert p. induction t as [|k' d|t0 IH0 t1 IH1]; intros p; simpl; [done| |].
  - intros Hp Hb _. apply Forall_inv in Hb. simpl in Hb. apply prefix_length in Hp. lia.
  - intros (H0 & H1 & Hne) Hb _. unfold bounded in Hb. simpl in Hb.
    rewrite fmap_app in Hb. apply Forall_app in Hb as [Hb0 Hb1].
    destruct (decide (IsEmptyLeaf t0 = true)) as [He0|He0];
      destruct (decide (IsEmptyLeaf t1 = true)) as [He1|He1].
    + destruct Hne. by destruct t0, t1.
    + specialize (IH1 _ H1 Hb1). rewrite length_app in IH1. simpl in IH1.
      destruct t0; try done. simpl. destruct IH1; [by intros ->| |]; lia.
    + specialize (IH0 _ H0 Hb0). rewrite length_app in IH0. simpl in IH0.
      destruct t1; try done. simpl. destruct IH0; [by intros ->| |]; lia.
    + specialize (IH0 _ H0 Hb0). specialize (IH1 _ H1 Hb1).
      rewrite length_app in IH0, IH1. simpl in IH0, IH1.
      assert (t0 ≠ Empty) by (by intros ->). assert (t1 ≠ Empty) by (by intros ->).
      specialize (IH0 ltac:(done)). specialize (IH1 ltac:(done)). lia.
Qed.

(** An inner node at path [p] holds a key strictly longer than [p]. *)
Lemma wf_at_node_key p t0 t1 :
  wf_at p (Node t0 t1 : trie D) →
  ∃ k, k ∈ keys (Node t0 t1) ∧ p ≼ k ∧ length p < length k.
Proof.
  intros Hw. destruct (wf_at_nonempty p (Node t0 t1)) as [k Hk]; [done|done|].
  exists k. split; [done|]. split; [by eapply wf_at_prefix|].
  simpl in Hk. rewrite fmap_app, elem_of_app in Hk. destruct Hw as (H0 & H1 & _).
  destruct Hk as [Hk|Hk].
  - pose proof (prefix_length _ _ (wf_at_prefix _ _ _ H0 Hk)) as Hl.
    rewrite length_app in Hl. simpl in Hl. lia.
  - pose proof (prefix_length _ _ (wf_at_prefix _ _ _ H1 Hk)) as Hl.
    rewrite length_app in Hl. simpl in Hl. lia.
Qed.
End structure.

(** ** Lemmas: iteration *)

Section iteration.
Context {D : Type}.
Implicit Types (t : trie D) (p k o : key).

(** The entries in the order of [o], as a total function. *)
Fixpoint ordered (o : key) (d : nat) (t : trie D) : list (key * D) :=
  match t with
  | Empty => []
  | Leaf k x => [(k, x)]
  | Node t0 t1 =>
      let b := default false (o !! d) in
      ordered o (S d) (pick b t0 t1) ++ ordered o (S d) (pick b t1 t0)
  end.

Lemma ordered_Permutation o d t : ordered o d t ≡ₚ entries t.
Proof.
  revert d. induction t as [|k x|t0 IH0 t1 IH1]; intros d; simpl; [done..|].
  destruct (default false (o !! d)); rewrite IH0, IH1; [apply Permutation_app_comm|done].
Qed.

Lemma elem_of_ordered o d t e : e ∈ ordered o d t ↔ e ∈ entries t.
Proof. by rewrite ordered_Permutation. Qed.

Lemma trieIterAtDepth_ordered {T} o d t (f : key * D → T) :
  d + height t ≤ length o → trieIterAtDepth t o d f = Some (f <$> ordered o d t).
Proof.
  revert d. induction t as [|k x|t0 IH0 t1 IH1]; intros d Hd; simpl in *; [done..|].
  unfold Bit. destruct (lookup_lt_is_Some_2 o d) as [b Hb]; [lia|].
  rewrite Hb. simpl. destruct b; rewrite IH0, IH1 by lia; simpl; by rewrite fmap_app.
Qed.

Lemma ordered_zeros n d t : ordered (replicate n false) d t = entries t.
Proof.
  revert d. induction t as [|k x|t0 IH0 t1 IH1]; intros d; simpl; [done..|].
  assert (default false (replicate n false !! d) = false) as ->.
  { destruct (replicate n false !! d) eqn:E; [|done]. by apply lookup_replicate in E as [-> _]. }
  by rewrite IH0, IH1.
Qed.

(** Iteration visits the keys by increasing distance to [o]. *)
Lemma ordered_sorted o p t :
  wf_at p t → bounded (length o) t →
  StronglySorted (λ a b, before o a.1 b.1 = true) (ordered o (length p) t).
Proof.
  revert p. induction t as [|k x|t0 IH0 t1 IH1]; intros p Hw Hb; simpl.
  - constructor.
  - repeat constructor.
  - pose proof (wf_at_height _ _ _ Hw Hb ltac:(done)) as Hh. simpl in Hh.
    destruct Hw as (H0 & H1 & _). unfold bounded in Hb. simpl in Hb.
    rewrite fmap_app in Hb. apply Forall_app in Hb as [Hb0 Hb1].
    destruct (lookup_lt_is_Some_2 o (length p)) as [b Hob]; [lia|]. rewrite Hob. simpl.
    specialize (IH0 _ H0 Hb0). specialize (IH1 _ H1 Hb1).
    rewrite length_app in IH0, IH1. simpl in IH0, IH1. rewrite Nat.add_1_r in IH0, IH1.
    assert (∀ e, e ∈ entries t0 → p ++ [false] ≼ e.1) as Hp0.
    { intros e He. eapply wf_at_prefix; [done|]. by apply list_elem_of_fmap_2. }
    assert (∀ e, e ∈ entries t1 → p ++ [true] ≼ e.1) as Hp1.
    { intros e He. eapply wf_at_prefix; [done|]. by apply list_elem_of_fmap_2. }
    destruct b; apply StronglySorted_app_2; try done; intros e1 e2 He1 He2;
      apply elem_of_ordered in He1, He2; eapply before_diverge; eauto.
Qed.

Lemma trieIter_ordered {T} o t (f : key * D → T) :
  wf t → bounded (length o) t → trieIter t o f = Some (f <$> ordered o 0 t).
Proof.
  intros Hw Hb. apply trieIterAtDepth_ordered.
  destruct (decide (IsEmptyLeaf t = true)) as [He|He].
  - apply IsEmptyLeaf_true in He as ->. simpl. lia.
  - pose proof (wf_at_height (length o) [] t Hw Hb) as H. simpl in H. apply H. by intros ->.
Qed.

(** Iteration of a subtrie in the order of the zero key. *)
Lemma trieIter_zeroKey {T} p t (f : key * D → T) :
  wf_at p t → bounded KeyLen t → trieIter t zeroKey f = Some (f <$> entries t).
Proof.
  intros Hw Hb. unfold trieIter. rewrite trieIterAtDepth_ordered.
  - unfold zeroKey. by rewrite ordered_zeros.
  - unfold zeroKey. rewrite length_replicate.
    destruct (decide (IsEmptyLeaf t = true)) as [He|He].
    + apply IsEmptyLeaf_true in He as ->. simpl. lia.
    + pose proof (wf_at_height _ _ _ Hw Hb) as H. cut (length p + height t ≤ KeyLen); [lia|].
      apply H. by intros ->.
Qed.

Lemma AllEntries_zeroKey p t :
  wf_at p t → bounded KeyLen t → AllEntries t zeroKey = Some (entries t).
Proof.
  intros Hw Hb. unfold AllEntries, EntriesIter. case_match eqn:E.
  - apply IsEmptyLeaf_true in E as ->. done.
  - rewrite (trieIter_zeroKey p) by done. by rewrite list_fmap_id.
Qed.

Lemma AllKeys_zeroKey p t :
  wf_at p t → bounded KeyLen t → AllKeys t zeroKey = Some (keys t).
Proof.
  intros Hw Hb. unfold AllKeys, KeysIter. case_match eqn:E.
  - apply IsEmptyLeaf_true in E as ->. done.
  - by rewrite (trieIter_zeroKey p) by done.
Qed.

Lemma AllValues_zeroKey p t :
  wf_at p t → bounded KeyLen t → AllValues t zeroKey = Some ((entries t).*2).
Proof.
  intros Hw Hb. unfold AllValues, ValuesIter. case_match eqn:E.
  - apply IsEmptyLeaf_true in E as ->. done.
  - by rewrite (trieIter_zeroKey p) by done.
Qed.

Lemma AllEntries_ordered o t :
  wf t → bounded (length o) t → AllEntries t o = Some (ordered o 0 t).
Proof.
  intros Hw Hb. unfold AllEntries, EntriesIter. case_match eqn:E.
  - apply IsEmptyLeaf_true in E as ->. done.
  - rewrite trieIter_ordered by done. by rewrite list_fmap_id.
Qed.

Lemma AllKeys_ordered o t :
  wf t → bounded (length o) t → AllKeys t o = Some ((ordered o 0 t).*1).
Proof.
  intros Hw Hb. unfold AllKeys, KeysIter. case_match eqn:E.
  - apply IsEmptyLeaf_true in E as ->. done.
  - by rewrite trieIter_ordered by done.
Qed.

(** [AllEntries] of a well-formed trie whose keys are no longer than
    the order key does not panic; it lists every entry exactly once, by
    increasing XOR distance of the keys to the order key. *)
Theorem AllEntries_correct o t :
  wf t → bounded (length o) t →
  ∃ l, AllEntries t o = Some l ∧ l ≡ₚ entries t ∧
    StronglySorted (λ a b, before o a.1 b.1 = true) l.
Proof.
  intros Hw Hb. exists (ordered o 0 t). split; [by apply AllEntries_ordered|].
  split; [apply ordered_Permutation|]. by apply (ordered_sorted o []).
Qed.
End iteration.

(** A trie of three prefixes, enumerated from the key 10. *)
Lemma AllEntries_correct_witness :
  let t := Node (Leaf (bitstr "0") 1) (Node (Leaf (bitstr "10") 2) (Leaf (bitstr "11") 3)) in
  ∃ l, AllEntries t (bitstr "10") = Some l ∧ l ≡ₚ entries t ∧
    StronglySorted (λ a b, before (bitstr "10") a.1 b.1 = true) l.
Proof. apply AllEntries_correct; by_compute. Defined.

(** ** Lemmas: search *)

Section search.
Context {D : Type}.
Implicit Types (t : trie D) (p k o : key).

Lemma findPrefixOfKeyAtDepth_spec p t k :
  wf_at p t → p ≼ k →
  ∃ r ok, findPrefixOfKeyAtDepth t k (length p) = Some (r, ok) ∧
    (if ok : bool then r ∈ keys t ∧ r ≼ k else ∀ k', k' ∈ keys t → ¬ k' ≼ k).
Proof.
  revert p. induction t as [|tk d|t0 IH0 t1 IH1]; intros p Hw Hp; simpl.
  - eexists _, _. split; [done|]. simpl. by intros ? ?%not_elem_of_nil.
  - eexists _, _. split; [done|]. simpl. case_bool_decide as Hc; rewrite CommonPrefixLength_full in Hc.
    + split; [by apply list_elem_of_singleton|done].
    + by intros ? ->%list_elem_of_singleton.
  - destruct (wf_at_node_key p t0 t1 Hw) as (x & Hx & Hpx & Hlx).
    destruct Hw as (H0 & H1 & _). case_decide as Hl.
    + eexists _, _. split; [done|]. simpl. intros k' Hk' Hkk'.
      apply prefix_length in Hkk'. rewrite fmap_app, elem_of_app in Hk'.
      destruct Hk' as [Hk'|Hk'].
      * pose proof (prefix_length _ _ (wf_at_prefix _ _ _ H0 Hk')) as HL.
        rewrite length_app in HL. simpl in HL. lia.
      * pose proof (prefix_length _ _ (wf_at_prefix _ _ _ H1 Hk')) as HL.
        rewrite length_app in HL. simpl in HL. lia.
    + destruct (prefix_strict_lookup p k Hp) as (b & Hb & Hpb).
      { apply prefix_length in Hp. lia. }
      unfold Bit. rewrite Hb. simpl.
      destruct b.
      * destruct (IH1 (p ++ [true])) as (r & ok & Hr & Hok); [done..|].
        rewrite length_app, Nat.add_1_r in Hr. exists r, ok. split; [done|].
        destruct ok; [rewrite fmap_app, elem_of_app; naive_solver|].
        intros k'. rewrite fmap_app, elem_of_app. intros [Hk'|Hk']; [|by apply Hok].
        intros Hkk'. apply (prefix_diverge p k' k false); [by eapply wf_at_prefix|done|by left].
      * destruct (IH0 (p ++ [false])) as (r & ok & Hr & Hok); [done..|].
        rewrite length_app, Nat.add_1_r in Hr. exists r, ok. split; [done|].
        destruct ok; [rewrite fmap_app, elem_of_app; naive_solver|].
        intros k'. rewrite fmap_app, elem_of_app. intros [Hk'|Hk']; [by apply Hok|].
        intros Hkk'. apply (prefix_diverge p k' k true); [by eapply wf_at_prefix|done|by left].
Qed.

(** [FindPrefixOfKey] never panics and finds the prefix of [k] in the trie
    whenever there is one. *)
Lemma FindPrefixOfKey_spec t k :
  wf t →
  (∃ r, FindPrefixOfKey t k = Some (r, true) ∧ r ∈ keys t ∧ r ≼ k) ∨
  (∃ r, FindPrefixOfKey t k = Some (r, false) ∧ ∀ k', k' ∈ keys t → ¬ k' ≼ k).
Proof.
  intros Hw. destruct (findPrefixOfKeyAtDepth_spec [] t k Hw (prefix_nil _)) as (r & [] & Hr & Hok);
    [left|right]; by exists r.
Qed.

(** The entries whose key starts with [k]. *)
Definition below (k : key) (l : list (key * D)) : list (key * D) :=
  filter (λ e, k ≼ e.1) l.

Lemma below_all k l : (∀ e, e ∈ l → k ≼ e.1) → below k l = l.
Proof. apply list_filter_all. Qed.

Lemma below_none k l : (∀ e, e ∈ l → ¬ k ≼ e.1) → below k l = [].
Proof. apply list_filter_none. Qed.

Lemma below_app k l1 l2 : below k (l1 ++ l2) = below k l1 ++ below k l2.
Proof. apply filter_app. Qed.

Lemma elem_of_below k l e : e ∈ below k l ↔ k ≼ e.1 ∧ e ∈ l.
Proof. unfold below. by rewrite list_elem_of_filter. Qed.

(** Off the path of [k] nothing starts with [k]. *)
Lemma below_off_path p t k b :
  wf_at (p ++ [negb b]) t → p ++ [b] ≼ k → below k (entries t) = [].
Proof.
  intros Hw Hp. apply below_none. intros e He Hk.
  apply (prefix_diverge p k e.1 b); [done| |by left].
  eapply wf_at_prefix; [done|]. by apply list_elem_of_fmap_2.
Qed.

Lemma below_branch p t0 t1 k b :
  wf_at p (Node t0 t1 : trie D) → p ++ [b] ≼ k →
  below k (entries (Node t0 t1)) = below k (entries (pick b t0 t1)).
Proof.
  intros (H0 & H1 & _) Hp. simpl. rewrite below_app. destruct b.
  - by rewrite (below_off_path p t0 k true).
  - by rewrite (below_off_path p t1 k false), app_nil_r.
Qed.

Lemma findSubtrieLoop_spec root p bits t k :
  wf_at p t → k = p ++ bits →
  let '(s, ok) := findSubtrieLoop root k bits t in
  if ok : bool then entries s = below k (entries t) ∧ s ≠ Empty ∧ ∃ q, wf_at q s
  else below k (entries t) = [].
Proof.
  revert p t. induction bits as [|b bits IH]; intros p t Hw ->; simpl.
  - rewrite app_nil_r. assert (∀ e, e ∈ entries t → p ≼ e.1) as Hall.
    { intros e He. eapply wf_at_prefix; [done|]. by apply list_elem_of_fmap_2. }
    rewrite below_all by done. destruct t; simpl; try done; eauto.
  - destruct t as [|tk d|t0 t1]; simpl; [done| |].
    + case_bool_decide as Hc; rewrite CommonPrefixLength_sym, CommonPrefixLength_full in Hc.
      * rewrite below_all by (by intros ? ->%list_elem_of_singleton). eauto.
      * apply below_none. by intros ? ->%list_elem_of_singleton.
    + assert (p ++ [b] ≼ p ++ b :: bits) as Hpb.
      { exists bits. by rewrite <-app_assoc. }
      pose proof (below_branch p t0 t1 (p ++ b :: bits) b Hw Hpb) as Hbr. simpl in Hbr. rewrite Hbr.
      destruct Hw as (H0 & H1 & _).
      specialize (IH (p ++ [b]) (pick b t0 t1)). rewrite <-app_assoc in IH. simpl in IH.
      apply IH; [by destruct b|done].
Qed.

(** [FindSubtrie] succeeds exactly when some key starts with [k], and then
    its entries are those of the trie below [k]. *)
Lemma FindSubtrie_spec t k s ok :
  wf t → FindSubtrie t k = (s, ok) →
  if ok : bool then entries s = below k (entries t) ∧ s ≠ Empty ∧ ∃ q, wf_at q s
  else below k (entries t) = [].
Proof.
  intros Hw. unfold FindSubtrie. destruct (IsEmptyLeaf t) eqn:E.
  - apply IsEmptyLeaf_true in E as ->. by intros [= <- <-].
  - intros He. pose proof (findSubtrieLoop_spec t [] k t k Hw eq_refl) as H. by rewrite He in H.
Qed.

Lemma FindSubtrie_true t k s :
  wf t → FindSubtrie t k = (s, true) →
  entries s = below k (entries t) ∧ entries s ≠ [] ∧ ∃ q, wf_at q s.
Proof.
  intros Hw He. apply FindSubtrie_spec in He as (H1 & H2 & q & H3); [|done].
  split; [done|]. split; [|by exists q]. intros H. by apply (wf_at_empty q s) in H.
Qed.

Lemma FindSubtrie_false t k s :
  wf t → FindSubtrie t k = (s, false) → ∀ k', k' ∈ keys t → ¬ k ≼ k'.
Proof.
  intros Hw He k' Hk' Hk. apply FindSubtrie_spec in He; [|done].
  apply list_elem_of_fmap in Hk' as ([k'' d] & -> & Hin).
  assert ((k'', d) ∈ below k (entries t)) as H by (by apply elem_of_below).
  rewrite He in H. by apply not_elem_of_nil in H.
Qed.

(** The result is a subtrie at the path [k]. *)
Lemma findSubtrieLoop_at root p bits t k s :
  wf_at p t → k = p ++ bits → findSubtrieLoop root k bits t = (s, true) → wf_at k s.
Proof.
  revert p t. induction bits as [|b bits IH]; intros p t Hw -> He; simpl in He.
  - injection He as <- _. by rewrite app_nil_r.
  - destruct t as [|tk d|t0 t1]; simpl in He; [done| |].
    + injection He as <- Hc. apply bool_decide_eq_true in Hc.
      by rewrite CommonPrefixLength_sym, CommonPrefixLength_full in Hc.
    + destruct Hw as (H0 & H1 & _). eapply (IH (p ++ [b]) (pick b t0 t1)); [by destruct b|by rewrite <-app_assoc|done].
Qed.

Lemma FindSubtrie_at t k s : wf t → FindSubtrie t k = (s, true) → wf_at k s.
Proof.
  intros Hw. unfold FindSubtrie. destruct (IsEmptyLeaf t); [done|]. by apply (findSubtrieLoop_at t [] k).
Qed.

Lemma bounded_below n t s k :
  entries s = below k (entries t) → bounded n t → bounded n s.
Proof.
  unfold bounded. intros -> H. rewrite Forall_forall in *. intros x Hx.
  apply H. apply list_elem_of_fmap in Hx as (e & -> & He).
  apply elem_of_below in He as [_ He]. by apply list_elem_of_fmap_2.
Qed.
End search.

(** ** Lemmas: pruning *)

Section pruning.
Context {D : Type}.
Implicit Types (t : trie D) (p k o : key).

(** The entries whose key does not start with [k]. *)
Definition notBelow (k : key) (l : list (key * D)) : list (key * D) :=
  filter (λ e, ¬ k ≼ e.1) l.

Lemma elem_of_notBelow k l e : e ∈ notBelow k l ↔ ¬ k ≼ e.1 ∧ e ∈ l.
Proof. unfold notBelow. by rewrite list_elem_of_filter. Qed.

Lemma notBelow_all k l : (∀ e, e ∈ l → ¬ k ≼ e.1) → notBelow k l = l.
Proof. apply list_filter_all. Qed.

Lemma notBelow_none k l : (∀ e, e ∈ l → k ≼ e.1) → notBelow k l = [].
Proof. intros H. apply list_filter_none. naive_solver. Qed.

Lemma pruneSubtrieAtDepth_spec p t k :
  wf_at p t → p ≼ k →
  ∃ t' b, pruneSubtrieAtDepth t k (length p) = Some (t', b) ∧
    entries t' = notBelow k (entries t) ∧ wf_at p t' ∧
    (t' = Empty → b = true ∨ t = Empty) ∧ (b = true → t' = Empty).
Proof.
  revert p.
  induction t as [|tk d|t0 IH0 t1 IH1]; intros p Hw Hp; cbn [pruneSubtrieAtDepth entries].
  - eexists _, _. split_and!; eauto.
  - rewrite IsPrefix_decide. case_bool_decide as Hk.
    + exists Empty, true. split_and!; [done| |done|by left|done].
      by rewrite notBelow_none by (by intros ? ->%list_elem_of_singleton).
    + exists (Leaf tk d), false. split_and!; [done| |done|done|done].
      by rewrite notBelow_all by (by intros ? ->%list_elem_of_singleton).
  - case_decide as Hl.
    + exists Empty, true. split_and!; [done| |done|by left|done].
      rewrite notBelow_none; [done|].
      intros e He. rewrite <-(prefix_length_eq p k) by (done || lia).
      apply (wf_at_prefix p (Node t0 t1)); [done|]. by apply list_elem_of_fmap_2.
    + destruct (prefix_strict_lookup p k Hp) as (b & Hb & Hpb).
      { apply prefix_length in Hp. lia. }
      unfold Bit. rewrite Hb. simpl. destruct Hw as (H0 & H1 & Hne).
      assert (∀ u : trie D, wf_at (p ++ [negb b]) u → notBelow k (entries u) = entries u) as Hoff.
      { intros u Hu. apply notBelow_all. intros e He Hke.
        apply (prefix_diverge p k e.1 b); [done| |by left].
        eapply wf_at_prefix; [done|]. by apply list_elem_of_fmap_2. }
      assert (∃ t' pr, pruneSubtrieAtDepth (pick b t0 t1) k (S (length p)) = Some (t', pr) ∧
        entries t' = notBelow k (entries (pick b t0 t1)) ∧ wf_at (p ++ [b]) t' ∧
        (t' = Empty → pr = true ∨ (pick b t0 t1) = Empty) ∧ (pr = true → t' = Empty)) as IH.
      { specialize (IH0 (p ++ [false])). specialize (IH1 (p ++ [true])).
        rewrite length_app, Nat.add_1_r in IH0, IH1. destruct b; auto. }
      destruct IH as (t' & pr & -> & He & Hw' & Hpr & Hpr'). simpl.
      unfold notBelow in *. rewrite filter_app.
      destruct (pr && IsEmptyLeaf (pick b t1 t0)) eqn:Hc.
      * apply andb_true_iff in Hc as [-> Hemp]. apply IsEmptyLeaf_true in Hemp.
        rewrite (Hpr' eq_refl) in He. simpl in He.
        exists Empty, true. split_and!; [done| |done|by left|done].
        destruct b; subst; simpl; rewrite <-He; done.
      * eexists _, _. split_and!; [done| | | |].
        -- destruct b; simpl; rewrite He; [by rewrite (Hoff t0)|by rewrite (Hoff t1)].
        -- destruct b; simpl; split_and!; try done; intros [Ha Hb']; subst; simpl in *.
           ++ destruct (Hpr eq_refl); subst; [done|]. by apply Hne.
           ++ destruct (Hpr eq_refl); subst; [done|]. by apply Hne.
        -- by destruct b.
        -- by intros [=].
Qed.

(** [PruneSubtrie] never panics, removes exactly the keys that start with
    [k] and keeps the trie well-formed. *)
Lemma PruneSubtrie_spec t k :
  wf t →
  ∃ t', PruneSubtrie t k = Some t' ∧ wf t' ∧ entries t' = notBelow k (entries t).
Proof.
  intros Hw. destruct (pruneSubtrieAtDepth_spec [] t k Hw (prefix_nil _))
    as (t' & b & Hp & He & Hw' & _). exists t'. unfold PruneSubtrie.
  simpl in Hp. by rewrite Hp.
Qed.

Lemma bounded_notBelow n t t' k :
  entries t' = notBelow k (entries t) → bounded n t → bounded n t'.
Proof.
  unfold bounded. intros -> H. rewrite Forall_forall in *. intros x Hx.
  apply H. apply list_elem_of_fmap in Hx as (e & -> & He).
  apply elem_of_notBelow in He as [_ He]. by apply list_elem_of_fmap_2.
Qed.
End pruning.

(** ** Lemmas: the following leaf *)

Section next.
Context {D : Type}.
Implicit Types (t : trie D) (p k o : key).

Lemma nextNonEmptyLeafAtDepth_first t k o d :
  d + height t ≤ length o →
  nextNonEmptyLeafAtDepth t k o d true = Some (head (ordered o d t)).
Proof.
  revert d. induction t as [|tk x|t0 IH0 t1 IH1]; intros d Hd; simpl in *; [done..|].
  unfold Bit. destruct (lookup_lt_is_Some_2 o d) as [b Hb]; [lia|]. rewrite Hb. simpl.
  assert (∀ l1 l2 : list (key * D), head (l1 ++ l2) =
    match head l1 with Some e => Some e | None => head l2 end) as Hh by (by intros []).
  rewrite Hh. destruct b; rewrite IH1, IH0 by lia; simpl; by destruct (head _).
Qed.

(** The entries after [k]. *)
Definition after (o k : key) (l : list (key * D)) : list (key * D) :=
  filter (λ e, before o k e.1 = true) l.

Lemma after_all o k l : (∀ e, e ∈ l → before o k e.1 = true) → after o k l = l.
Proof. apply list_filter_all. Qed.

Lemma after_none o k l : (∀ e, e ∈ l → before o k e.1 = false) → after o k l = [].
Proof. intros H. apply list_filter_none. intros e He. by rewrite H. Qed.

Lemma leaf_after o k tk :
  ¬ overlap k tk ∨ k = tk →
  (CommonPrefixLength k tk < length k ∧ CommonPrefixLength k tk < length o ∧
    o !! CommonPrefixLength k tk = k !! CommonPrefixLength k tk) ↔ before o k tk = true.
Proof.
  revert o tk. induction k as [|x k IH]; intros o tk Ho; simpl.
  { split; [lia|done]. }
  destruct tk as [|y tk]; simpl.
  { destruct Ho as [Ho|]; [|done]. destruct Ho. right. apply prefix_nil. }
  destruct (eqb_spec x y) as [->|Hne].
  - destruct o as [|c o]; simpl.
    { split; [lia|]. intros H. exfalso. revert H. clear.
      assert (∀ a b, before [] a b ≠ true) as H.
      { induction a as [|u a IHa]; intros [|v b]; simpl; try done. destruct (eqb u v); [apply IHa|done]. }
      apply H. }
    rewrite <-IH.
    + split; intros (?&?&?); split_and!; try done; lia.
    + destruct Ho as [Ho|Ho]; [left|right; by injection Ho].
      intros [H|H]; apply Ho; [left|right]; by apply prefix_cons.
  - destruct o as [|c o]; simpl; [split; [lia|done]|].
    split.
    + intros (_ & _ & [= ->]). by destruct x.
    + intros ->%eqb_prop. split_and!; try done; lia.
Qed.

(** The two branches relative to [k], in the order of [o]. *)
Lemma after_node o p t0 t1 k b c :
  wf_at p (Node t0 t1 : trie D) → p ++ [b] ≼ k → o !! length p = Some c →
  after o k (ordered o (length p) (Node t0 t1)) =
    after o k (ordered o (S (length p)) (pick b t0 t1)) ++
    (if eqb b c then ordered o (S (length p)) (pick b t1 t0) else []).
Proof.
  intros (H0 & H1 & _) Hp Hc. simpl. rewrite Hc. simpl. unfold after. rewrite filter_app.
  assert (∀ e, e ∈ ordered o (S (length p)) (pick b t1 t0) → p ++ [negb b] ≼ e.1) as Hoff.
  { intros e He. apply elem_of_ordered in He.
    destruct b; eapply wf_at_prefix; try done; by apply list_elem_of_fmap_2. }
  assert (∀ e, e ∈ ordered o (S (length p)) (pick b t1 t0) →
    before o k e.1 = eqb b c) as Hbef.
  { intros e He. specialize (Hoff e He). destruct (eqb_spec b c) as [->|Hne].
    - by eapply before_diverge.
    - assert (negb b = c) as Hbc by (by destruct b, c).
      apply before_asym. eapply (before_diverge _ p _ _ c); [done|by rewrite <-Hbc|].
      by rewrite <-Hbc, negb_involutive. }
  destruct (eqb_spec b c) as [->|Hne].
  - f_equal. pose proof (after_all o k _ Hbef) as H. unfold after in H. by destruct c.
  - pose proof (after_none o k _ Hbef) as H. unfold after in H. rewrite app_nil_r.
    by destruct b, c; try done; rewrite H.
Qed.

Lemma head_app_None (l1 l2 : list (key * D)) :
  head (l1 ++ l2) = match head l1 with Some e => Some e | None => head l2 end.
Proof. by destruct l1. Qed.

(** Bounds on the two branches of a node that fits in [o]. *)
Lemma node_bounds o p t0 t1 :
  wf_at p (Node t0 t1 : trie D) → bounded (length o) (Node t0 t1) →
  (∃ c, o !! length p = Some c) ∧
  S (length p) + height t0 ≤ length o ∧ S (length p) + height t1 ≤ length o.
Proof.
  intros Hw Hb. pose proof (wf_at_height _ _ _ Hw Hb ltac:(done)) as Hh. simpl in Hh.
  split; [apply lookup_lt_is_Some_2|]; lia.
Qed.

(** Below the root the search returns the first entry after [k]. *)
Lemma nextNonEmptyLeafAtDepth_after o p t k :
  wf_at p t → bounded (length o) t → p ≼ k → admissible t k → 0 < length p →
  nextNonEmptyLeafAtDepth t k o (length p) false =
    Some (head (after o k (ordered o (length p) t))).
Proof.
  revert p. induction t as [|tk d|t0 IH0 t1 IH1]; intros p Hw Hb Hp Hadm Hpos.
  - done.
  - cbn [nextNonEmptyLeafAtDepth ordered]. cbv zeta. rewrite decide_False by lia.
    assert (¬ overlap k tk ∨ k = tk) as Hov.
    { destruct (decide (overlap k tk)) as [Ho|Ho]; [right|by left].
      symmetry. apply Hadm; [by apply list_elem_of_singleton|done]. }
    pose proof (leaf_after o k tk Hov) as Hl. unfold after. rewrite filter_cons. cbn [fst].
    case_decide as H1; case_decide as H2; naive_solver.
  - destruct (wf_at_node_key p t0 t1 Hw) as (x & Hx & Hpx & Hlx).
    destruct (prefix_strict_lookup p k Hp) as (b & Hkb & Hpb).
    { apply prefix_length in Hp as Hl. destruct (decide (length p = length k)); [|lia].
      rewrite <-(prefix_length_eq p k) in Hadm by (done || lia).
      rewrite (Hadm x Hx (or_introl Hpx)) in Hlx. lia. }
    destruct (node_bounds o p t0 t1 Hw Hb) as ([c Hc] & Hh0 & Hh1).
    rewrite (after_node o p t0 t1 k b c Hw Hpb Hc).
    cbn [nextNonEmptyLeafAtDepth]. unfold Bit. rewrite Hkb, Hc. cbn [mbind option_bind].
    assert (nextNonEmptyLeafAtDepth (pick b t0 t1) k o (S (length p)) false =
      Some (head (after o k (ordered o (S (length p)) (pick b t0 t1))))) as ->.
    { unfold bounded in Hb. simpl in Hb. rewrite fmap_app in Hb. apply Forall_app in Hb as [Hb0 Hb1].
      destruct Hw as (H0 & H1 & _). unfold admissible in Hadm. simpl in Hadm.
      setoid_rewrite fmap_app in Hadm. setoid_rewrite elem_of_app in Hadm.
      specialize (IH0 (p ++ [false])). specialize (IH1 (p ++ [true])).
      rewrite length_app, Nat.add_1_r in IH0, IH1.
      destruct b; [apply IH1|apply IH0]; unfold admissible; auto with lia. }
    cbn [mbind option_bind]. rewrite head_app_None.
    destruct (head (after _ _ _)); [done|]. rewrite bool_decide_eq_false_2, orb_false_r by lia.
    destruct (eqb b c); [|done].
    destruct b; rewrite !nextNonEmptyLeafAtDepth_first by lia; cbn [mbind option_bind];
      repeat case_match; congruence || lia.
Qed.

(** [NextNonEmptyLeaf] does not panic and returns the first entry after [k]
    in the order of [o], or else the first entry of the trie. *)
Lemma NextNonEmptyLeaf_spec o t k :
  wf t → bounded (length o) t → admissible t k →
  NextNonEmptyLeaf t k o =
    Some (head (after o k (ordered o 0 t) ++ ordered o 0 t)).
Proof.
  intros Hw Hb Hadm. unfold NextNonEmptyLeaf.
  destruct t as [|tk d|t0 t1]; [done| |].
  - cbn [nextNonEmptyLeafAtDepth ordered]. unfold after. rewrite filter_cons.
    rewrite decide_True by done. by case_decide.
  - destruct (wf_at_node_key [] t0 t1 Hw) as (x & Hx & Hpx & Hlx).
    destruct (prefix_strict_lookup [] k (prefix_nil k)) as (b & Hkb & Hpb).
    { destruct (decide (length (@nil bool) = length k)) as [He|He]; [|simpl in *; lia].
      destruct k; [|done]. rewrite (Hadm x Hx (or_introl (prefix_nil _))) in Hlx. simpl in Hlx. lia. }
    destruct (node_bounds o [] t0 t1 Hw Hb) as ([c Hc] & Hh0 & Hh1).
    pose proof (after_node o [] t0 t1 k b c Hw Hpb Hc) as Hafter. cbn [length] in *.
    rewrite Hafter. clear Hafter.
    cbn [nextNonEmptyLeafAtDepth]. unfold Bit. rewrite Hkb, Hc. cbn [mbind option_bind].
    assert (nextNonEmptyLeafAtDepth (pick b t0 t1) k o 1 false =
      Some (head (after o k (ordered o 1 (pick b t0 t1))))) as ->.
    { unfold bounded in Hb. simpl in Hb. rewrite fmap_app in Hb. apply Forall_app in Hb as [Hb0 Hb1].
      destruct Hw as (H0 & H1 & _). unfold admissible in Hadm. simpl in Hadm.
      setoid_rewrite fmap_app in Hadm. setoid_rewrite elem_of_app in Hadm.
      apply (nextNonEmptyLeafAtDepth_after o ([] ++ [b]));
        destruct b; unfold admissible; auto. }
    cbn [mbind option_bind ordered]. rewrite Hc. cbn [default]. rewrite !head_app_None.
    destruct (head (after _ _ _)); [done|].
    rewrite (bool_decide_eq_true_2 (0 = 0)), orb_true_r by done.
    destruct b, c; simpl eqb; cbv iota; rewrite !nextNonEmptyLeafAtDepth_first by lia;
      cbn [mbind option_bind]; repeat case_match; simplify_eq/=; congruence.
Qed.

(** From a key of the trie, [NextNonEmptyLeaf] does not panic and
    returns its successor in the cyclic enumeration of the entries by
    distance to [o]. *)
Theorem NextNonEmptyLeaf_cyclic o t k :
  wf t → bounded (length o) t → k ∈ keys t →
  ∃ l1 d l2, AllEntries t o = Some (l1 ++ (k, d) :: l2) ∧
    NextNonEmptyLeaf t k o = Some (head (l2 ++ l1 ++ [(k, d)])).
Proof.
  intros Hw Hb Hk. apply list_elem_of_fmap in Hk as ([k' d] & -> & Hin). simpl.
  rewrite <-(ordered_Permutation o 0) in Hin. apply list_elem_of_split in Hin as (l1 & l2 & Hsplit).
  exists l1, d, l2. rewrite AllEntries_ordered, Hsplit by done. split; [done|].
  rewrite NextNonEmptyLeaf_spec; [|done|done|].
  2: { eapply admissible_present; [done|]. apply list_elem_of_fmap. exists (k', d). split; [done|].
       rewrite <-(ordered_Permutation o 0), Hsplit. apply elem_of_app. right. apply elem_of_cons. by left. }
  pose proof (ordered_sorted o [] t Hw Hb) as Hs. cbn [length] in Hs. rewrite Hsplit in *.
  apply StronglySorted_app in Hs as (H12 & _ & H2). apply StronglySorted_inv in H2 as [_ H2].
  rewrite Forall_forall in H2.
  assert (after o k' (l1 ++ (k', d) :: l2) = l2) as ->.
  { unfold after. rewrite filter_app. change (after o k' l1 ++ after o k' ((k', d) :: l2) = l2).
    rewrite (after_none o k' l1), app_nil_l.
    - unfold after. rewrite filter_cons_False by (simpl; by rewrite before_irrefl).
      by apply after_all.
    - intros e He. apply before_asym. apply (H12 e (k', d)); [done|]. apply elem_of_cons. by left. }
  f_equal. rewrite !head_app_None. destruct (head l2); [done|]. by destruct (head l1).
Qed.
End next.

(** The successor of the last leaf is the first one. *)
Lemma NextNonEmptyLeaf_cyclic_witness :
  let t := Node (Leaf (bitstr "0") 1) (Node (Leaf (bitstr "10") 2) (Leaf (bitstr "11") 3)) in
  NextNonEmptyLeaf t (bitstr "11") (bitstr "00") = Some (Some (bitstr "0", 1)) ∧
  ∃ l1 d l2,
    AllEntries t (bitstr "00") = Some (l1 ++ (bitstr "11", d) :: l2) ∧
    NextNonEmptyLeaf t (bitstr "11") (bitstr "00") = Some (head (l2 ++ l1 ++ [(bitstr "11", d)])).
Proof. split; [reflexivity|]. apply NextNonEmptyLeaf_cyclic; by_compute. Defined.

(** ** Lemmas: the mutators, at the level of keys *)

Section lib.
Context `{TrieLaws} {D : Type}.
Implicit Types (t : trie D) (k : key).

Lemma Add_keys t k d x :
  wf t → admissible t k → x ∈ keys (trie_Add t k d) ↔ x = k ∨ x ∈ keys t.
Proof.
  intros Hw Ha. destruct (decide (k ∈ keys t)) as [Hk|Hk].
  - rewrite Add_old by done. split; [auto|]. by intros [->|].
  - rewrite Add_new by done. by rewrite fmap_cons, elem_of_cons.
Qed.

Lemma Remove_keys t k x :
  wf t → admissible t k → x ∈ keys (trie_Remove t k) ↔ x ≠ k ∧ x ∈ keys t.
Proof.
  intros Hw Ha. rewrite Remove_entries by done. rewrite !list_elem_of_fmap.
  setoid_rewrite list_elem_of_filter. naive_solver.
Qed.

Lemma bounded_Add n t k d :
  wf t → admissible t k → bounded n t → length k ≤ n → bounded n (trie_Add t k d).
Proof.
  unfold bounded. rewrite !Forall_forall. intros Hw Ha Hb Hk x Hx.
  apply Add_keys in Hx as [->|]; auto.
Qed.

Lemma bounded_Remove n t k :
  wf t → admissible t k → bounded n t → bounded n (trie_Remove t k).
Proof.
  unfold bounded. rewrite !Forall_forall. intros Hw Ha Hb x Hx.
  apply Remove_keys in Hx as [_ ?]; auto.
Qed.

(** [AddMany] of entries with distinct new keys stores all of them. *)
Lemma AddMany_new t l e :
  wf t → antichain (l.*1 ++ keys t) → NoDup l.*1 → (∀ k, k ∈ l.*1 → k ∉ keys t) →
  e ∈ entries (trie_AddMany t l) ↔ e ∈ l ∨ e ∈ entries t.
Proof.
  intros Hw Ha Hnd Hdis. destruct (AddMany_entries D t l Hw Ha) as [Hold Hin].
  split; [apply Hin|]. intros [He|He]; [|by apply Hold].
  assert (e.1 ∈ keys (trie_AddMany t l)) as Hk.
  { rewrite AddMany_keys by done. left. by apply list_elem_of_fmap_2. }
  apply list_elem_of_fmap in Hk as (e' & Heq & He').
  destruct (Hin e' He') as [Hl|Ht].
  - assert (e' = e) as <-; [|done].
    apply list_elem_of_lookup in He as [i Hi]. apply list_elem_of_lookup in Hl as [j Hj].
    assert (i = j) as <-; [|congruence].
    apply (NoDup_lookup l.*1 i j e.1); [done|by rewrite list_lookup_fmap, Hi|].
    by rewrite list_lookup_fmap, Hj, Heq.
  - destruct (Hdis e.1); [by apply list_elem_of_fmap_2|]. rewrite Heq.
    by apply list_elem_of_fmap_2.
Qed.

Lemma bounded_AddMany n t l :
  wf t → antichain (l.*1 ++ keys t) → bounded n t →
  Forall (λ k, length k ≤ n) l.*1 → bounded n (trie_AddMany t l).
Proof.
  unfold bounded. rewrite !Forall_forall. intros Hw Ha Hb Hl x Hx.
  apply AddMany_keys in Hx as [?|?]; auto.
Qed.
End lib.
