(* ===== verification/TrieImpl.v ===== *)
(** * A reference implementation of the trie library

    An instance of [TrieLib] that satisfies [TrieLaws]: the hypotheses under
    which the clients of [go-libdht/kad/trie] are verified are consistent, and
    the examples of the other files compute with it.  It models no code of
    the repository. *)

From S2P Require Import Prelude Key Trie.

Section impl.
Context {D : Type}.
Implicit Types (t : trie D) (p k s : key).

(** Separates two leaves below a common path; [s1] and [s2] are the bits of
    the keys below that path. *)
Fixpoint splitLeaves (k1 : key) (d1 : D) (s1 : key) (k2 : key) (d2 : D) (s2 : key) : trie D :=
  match s1, s2 with
  | b1 :: s1, b2 :: s2 =>
      if eqb b1 b2 then
        let sub := splitLeaves k1 d1 s1 k2 d2 s2 in
        if b1 then Node Empty sub else Node sub Empty
      else if b1 then Node (Leaf k2 d2) (Leaf k1 d1) else Node (Leaf k1 d1) (Leaf k2 d2)
  | _, _ => Leaf k1 d1
  end.

Fixpoint addAt (t : trie D) (k : key) (d : D) (s : key) : trie D :=
  match t with
  | Empty => Leaf k d
  | Leaf k' d' =>
      if decide (k = k') then t
      else splitLeaves k d s k' d' (drop (length k - length s) k')
  | Node t0 t1 =>
      match s with
      | [] => t
      | b :: s => if b then Node t0 (addAt t1 k d s) else Node (addAt t0 k d s) t1
      end
  end.

(** Replaces a node with at most one leaf below it by this leaf. *)
Definition shrink (t : trie D) : trie D :=
  match t with
  | Node Empty Empty => Empty
  | Node Empty (Leaf k d) => Leaf k d
  | Node (Leaf k d) Empty => Leaf k d
  | _ => t
  end.

Fixpoint removeAt (t : trie D) (k s : key) : trie D :=
  match t with
  | Empty => Empty
  | Leaf k' _ => if decide (k = k') then Empty else t
  | Node t0 t1 =>
      match s with
      | [] => t
      | b :: s => shrink (if b then Node t0 (removeAt t1 k s) else Node (removeAt t0 k s) t1)
      end
  end.

Fixpoint findAt (t : trie D) (k s : key) : option D :=
  match t with
  | Empty => None
  | Leaf k' d => if decide (k = k') then Some d else None
  | Node t0 t1 =>
      match s with
      | [] => None
      | b :: s => if b then findAt t1 k s else findAt t0 k s
      end
  end.

Lemma splitLeaves_spec p k1 d1 s1 k2 d2 s2 :
  k1 = p ++ s1 → k2 = p ++ s2 → ¬ overlap k1 k2 →
  wf_at p (splitLeaves k1 d1 s1 k2 d2 s2) ∧
  splitLeaves k1 d1 s1 k2 d2 s2 ≠ Empty ∧
  entries (splitLeaves k1 d1 s1 k2 d2 s2) ≡ₚ [(k1, d1); (k2, d2)].
Proof.
  revert p s2. induction s1 as [|b1 s1 IH]; intros p s2 H1 H2 Ho.
  { destruct Ho. left. rewrite H1, H2. apply prefix_app, prefix_nil. }
  destruct s2 as [|b2 s2].
  { destruct Ho. right. rewrite H1, H2. apply prefix_app, prefix_nil. }
  simpl. destruct (eqb_spec b1 b2) as [->|Hne].
  - destruct (IH (p ++ [b2]) s2) as (Hw & Hn & He).
    { by rewrite <-app_assoc. } { by rewrite <-app_assoc. } { done. }
    destruct b2; simpl; rewrite ?app_nil_r; split_and!; try done; by intros [??].
  - assert (p ++ [b1] ≼ k1) by (exists s1; by rewrite <-app_assoc).
    assert (p ++ [b2] ≼ k2) by (exists s2; by rewrite <-app_assoc).
    destruct b1, b2; try done; simpl; split_and!; try done; try (by intros [??]).
    apply Permutation_swap.
Qed.

Lemma addAt_spec p t k d s :
  wf_at p t → k = p ++ s → admissible t k →
  wf_at p (addAt t k d s) ∧ addAt t k d s ≠ Empty ∧
  entries (addAt t k d s) ≡ₚ (if decide (k ∈ keys t) then entries t else (k, d) :: entries t).
Proof.
  revert p s. induction t as [|k' d'|t0 IH0 t1 IH1]; intros p s Hw Hk Hadm.
  - rewrite decide_False by apply not_elem_of_nil. split_and!; try done.
    simpl. rewrite Hk. by apply prefix_app_r.
  - cbn [addAt wf_at entries] in *. destruct (decide (k = k')) as [<-|Hne].
    { rewrite decide_True by (by apply list_elem_of_singleton). done. }
    rewrite decide_False by (by intros ?%list_elem_of_singleton).
    destruct Hw as [s' Hs']. subst k'.
    replace (drop (length k - length s) (p ++ s')) with s'.
    + apply (splitLeaves_spec p k d s); try done.
      intros Ho. apply Hne. symmetry. apply Hadm; [by apply list_elem_of_singleton|done].
    + rewrite Hk, length_app. replace (length p + length s - length s) with (length p) by lia.
      by rewrite drop_app_length.
  - destruct (wf_at_node_key p t0 t1 Hw) as (x & Hx & Hpx & Hlx).
    destruct s as [|b s].
    { rewrite app_nil_r in Hk. subst. rewrite (Hadm x Hx (or_introl Hpx)) in Hlx. lia. }
    assert (∀ (u : trie D) c, wf_at (p ++ [c]) u → c ≠ b → k ∉ keys u) as Hoff.
    { intros u c Hu Hcb Hin. apply (wf_at_prefix _ _ _ Hu) in Hin as HA.
      apply (prefix_diverge p k k b); [rewrite Hk; exists s; by rewrite <-app_assoc| |by left].
      assert (negb b = c) as -> by (by destruct b, c). done. }
    destruct Hw as (H0 & H1 & Hne). unfold admissible in Hadm. simpl in Hadm.
    setoid_rewrite fmap_app in Hadm. setoid_rewrite elem_of_app in Hadm.
    assert (k = (p ++ [b]) ++ s) as Hk' by (by rewrite <-app_assoc).
    cbn [addAt entries]. rewrite fmap_app. destruct b.
    + destruct (IH1 (p ++ [true]) s) as (Hw' & Hn & He); [done|done|unfold admissible; auto|].
      cbn [entries wf_at]. rewrite He. split_and!; try done; [by intros [??]|].
      specialize (Hoff t0 false H0 ltac:(done)).
      destruct (decide (k ∈ keys t1)), (decide (k ∈ keys t0 ++ keys t1)) as [Hd|Hd];
        rewrite ?elem_of_app in *; try tauto; try done. by rewrite Permutation_middle.
    + destruct (IH0 (p ++ [false]) s) as (Hw' & Hn & He); [done|done|unfold admissible; auto|].
      cbn [entries wf_at]. rewrite He. split_and!; try done; [by intros [??]|].
      specialize (Hoff t1 true H1 ltac:(done)).
      destruct (decide (k ∈ keys t0)), (decide (k ∈ keys t0 ++ keys t1)) as [Hd|Hd];
        rewrite ?elem_of_app in *; try tauto; done.
Qed.

Lemma shrink_spec p t0 t1 :
  wf_at (p ++ [false]) t0 → wf_at (p ++ [true]) t1 →
  wf_at p (shrink (Node t0 t1)) ∧ entries (shrink (Node t0 t1)) = entries (Node t0 t1).
Proof.
  destruct t0, t1; simpl; intros H0 H1; rewrite ?app_nil_r; split_and!; try done;
    try tauto; try (by intros [??]); by eapply prefix_app_l.
Qed.

Lemma removeAt_spec p t k s :
  wf_at p t → k = p ++ s → admissible t k →
  wf_at p (removeAt t k s) ∧
  entries (removeAt t k s) = filter (λ e, e.1 ≠ k) (entries t).
Proof.
  revert p s. induction t as [|k' d'|t0 IH0 t1 IH1]; intros p s Hw Hk Hadm.
  - done.
  - cbn [removeAt entries]. rewrite filter_cons. cbn [fst].
    destruct (decide (k = k')) as [<-|Hne].
    + by rewrite decide_False by (intros H; by apply H).
    + by rewrite decide_True.
  - destruct (wf_at_node_key p t0 t1 Hw) as (x & Hx & Hpx & Hlx).
    destruct s as [|b s].
    { rewrite app_nil_r in Hk. subst. rewrite (Hadm x Hx (or_introl Hpx)) in Hlx. lia. }
    assert (∀ (u : trie D) c, wf_at (p ++ [c]) u → c ≠ b →
      filter (λ e : key * D, e.1 ≠ k) (entries u) = entries u) as Hoff.
    { intros u c Hu Hcb. apply list_filter_all. intros e He <-.
      assert (e.1 ∈ keys u) as Hin by (by apply list_elem_of_fmap_2).
      apply (wf_at_prefix _ _ _ Hu) in Hin as HA.
      apply (prefix_diverge p e.1 e.1 b); [rewrite Hk; exists s; by rewrite <-app_assoc| |by left].
      assert (negb b = c) as -> by (by destruct b, c). done. }
    destruct Hw as (H0 & H1 & Hne). unfold admissible in Hadm. simpl in Hadm.
    setoid_rewrite fmap_app in Hadm. setoid_rewrite elem_of_app in Hadm.
    assert (k = (p ++ [b]) ++ s) as Hk' by (by rewrite <-app_assoc).
    cbn [removeAt]. destruct b.
    + destruct (IH1 (p ++ [true]) s) as (Hw' & He); [done|done|unfold admissible; auto|].
      destruct (shrink_spec p t0 (removeAt t1 k s)) as [? ->]; [done|done|].
      split; [done|]. cbn [entries]. by rewrite He, filter_app, (Hoff t0 false).
    + destruct (IH0 (p ++ [false]) s) as (Hw' & He); [done|done|unfold admissible; auto|].
      destruct (shrink_spec p (removeAt t0 k s) t1) as [? ->]; [done|done|].
      split; [done|]. cbn [entries]. by rewrite He, filter_app, (Hoff t1 true).
Qed.

Lemma findAt_spec p t k s d :
  wf_at p t → k = p ++ s → findAt t k s = Some d ↔ (k, d) ∈ entries t.
Proof.
  revert p s. induction t as [|k' d'|t0 IH0 t1 IH1]; intros p s Hw Hk.
  - simpl. split; [done|]. by intros ?%not_elem_of_nil.
  - simpl. rewrite list_elem_of_singleton. case_decide; naive_solver.
  - destruct Hw as (H0 & H1 & Hne). cbn [findAt entries]. rewrite elem_of_app.
    assert (∀ (u : trie D) c, wf_at (p ++ [c]) u → (k, d) ∈ entries u → p ++ [c] ≼ k) as Hin.
    { intros u c Hu He. eapply wf_at_prefix; [done|]. by apply (list_elem_of_fmap_2 fst) in He. }
    destruct s as [|b s].
    { split; [done|]. rewrite app_nil_r in Hk. subst.
      intros [He|He]; [apply (Hin t0 false) in He|apply (Hin t1 true) in He]; try done;
        apply prefix_length in He; rewrite length_app in He; simpl in He; lia. }
    assert (k = (p ++ [b]) ++ s) as Hk' by (by rewrite <-app_assoc).
    assert (p ++ [b] ≼ k) as Hb by (by exists s).
    destruct b.
    + rewrite (IH1 (p ++ [true])) by done. split; [auto|]. intros [He|?]; [|done].
      apply (Hin t0 false) in He; [|done]. by destruct (prefix_diverge p k k true Hb He (overlap_refl _)).
    + rewrite (IH0 (p ++ [false])) by done. split; [auto|]. intros [?|He]; [done|].
      apply (Hin t1 true) in He; [|done]. by destruct (prefix_diverge p k k false Hb He (overlap_refl _)).
Qed.
End impl.

(** The instance. *)
#[export] Instance refTrieLib : TrieLib := {
  trie_Add D t k d := addAt t k d k;
  trie_AddMany D t l := foldl (λ t e, addAt t e.1 e.2 e.1) t l;
  trie_Remove D t k := removeAt t k k;
  trie_Find D t k := findAt t k k;
  trie_Size D t := length (entries t);
}.

Section AddMany.
Context {D : Type}.

Lemma foldl_addAt (t : trie D) (l : list (key * D)) :
  wf t → antichain (l.*1 ++ keys t) →
  let t' := foldl (λ t e, addAt t e.1 e.2 e.1) t l in
  wf t' ∧ (∀ k, k ∈ keys t' ↔ k ∈ l.*1 ∨ k ∈ keys t) ∧
  (∀ e, e ∈ entries t → e ∈ entries t') ∧
  (∀ e, e ∈ entries t' → e ∈ l ∨ e ∈ entries t).
Proof.
  revert t. induction l as [|[k d] l IH]; intros t Hw Ha; cbn [foldl fmap list_fmap fst snd].
  { split_and!; auto. intros k. split; [auto|]. by intros [?%not_elem_of_nil|]. }
  destruct (addAt_spec [] t k d k) as (Hw' & _ & He); [done|done| |].
  { intros k' Hk' Ho. symmetry. apply (Ha k k'); [apply elem_of_cons; by left| |done].
    apply elem_of_cons. right. apply elem_of_app. by right. }
  assert (∀ x, x ∈ keys (addAt t k d k) ↔ x = k ∨ x ∈ keys t) as Hkeys.
  { intros x. rewrite He. case_decide; [|by rewrite fmap_cons, elem_of_cons].
    split; [auto|]. by intros [->|]. }
  assert (∀ e, e ∈ entries (addAt t k d k) ↔ e ∈ entries t ∨ ((k ∉ keys t) ∧ e = (k, d))) as Hent.
  { intros e. rewrite He. case_decide; [|rewrite elem_of_cons]; naive_solver. }
  destruct (IH (addAt t k d k)) as (H1 & H2 & H3 & H4); [done| |].
  { intros k1 k2. rewrite !elem_of_app, !Hkeys. intros Hk1 Hk2.
    apply Ha; apply elem_of_cons; rewrite elem_of_app; tauto. }
  split_and!; [done| | |].
  - intros x. rewrite H2, Hkeys, elem_of_cons. tauto.
  - intros e Hin. apply H3, Hent. by left.
  - intros e Hin. rewrite elem_of_cons. apply H4 in Hin as [?|Hin]; [auto|].
    apply Hent in Hin as [?|[_ ->]]; auto.
Qed.
End AddMany.

#[export] Instance refTrieLaws : TrieLaws.
Proof.
  split; simpl.
  - done.
  - intros D t k d Hw Ha. by apply (addAt_spec [] t k d k).
  - intros D t k d Hw Ha Hk. destruct (addAt_spec [] t k d k) as (_ & _ & ->); [done..|].
    by rewrite decide_False.
  - intros D t k d Hw Ha Hk. destruct (addAt_spec [] t k d k) as (_ & _ & ->); [done..|].
    by rewrite decide_True.
  - intros D t l Hw Ha. by apply foldl_addAt.
  - intros D t l Hw Ha. by apply foldl_addAt.
  - intros D t l Hw Ha. by apply foldl_addAt.
  - intros D t k Hw Ha. by apply (removeAt_spec [] t k k).
  - intros D t k Hw Ha. by rewrite (proj2 (removeAt_spec [] t k k Hw eq_refl Ha)).
  - intros D t k d Hw Ha. by apply (findAt_spec [] t k k d).
  - done.
Qed.

(** A trie from the list of its entries. *)
Abbreviation mkTrie l := (trie_AddMany Empty l).

(** The identifier of [KeyLen] bits that starts with [s] and goes on with zeros. *)
Definition idOf (s : string) : key := take KeyLen (bitstr s ++ zeroKey).

Lemma idOf_length s : length (idOf s) = KeyLen.
Proof. unfold idOf, zeroKey. rewrite length_take, length_app, length_replicate. lia. Qed.
