(* ===== verification/TrieSet.v ===== *)
(** * Tries as sets of prefixes

    Models the functions of [provider/internal/keyspace/trie.go] that read a
    trie of [bitstr.Key] as the union of the keyspace regions its keys cover:
    [CoalesceTrie], [SubtractTrie], [TrieGaps], [KeyspaceCovered].  [None] is a
    Go panic. *)

From S2P Require Import Prelude Key Trie TrieImpl.

(** ** Definitions *)

Section definitions.
Context `{TrieLib}.

(** [CoalesceTrie]: replaces two sibling leaves by their parent prefix, from
    the leaves up.  [inhabitant] is the zero value of the data. *)
Fixpoint CoalesceTrie {D} `{Inhabited D} (t : trie D) : trie D :=
  match t with
  | Node t0 t1 =>
      let b0 := CoalesceTrie t0 in
      let b1 := CoalesceTrie t1 in
      match b0, b1 with
      | Leaf k0 _, Leaf k1 _ =>
          let l := (Z.of_nat (length k0) - 1)%Z in
          if decide (length k0 = length k1 ∧ Z.of_nat (CommonPrefixLength k0 k1) = l)
          then trie_Add Empty (take (Z.to_nat l) k0) inhabitant
          else Node b0 b1
      | _, _ => Node b0 b1
      end
  | _ => t
  end.

(** [subtractTrieAtDepth] when [t0] is the leaf [(k0, d0)]. *)
Fixpoint subtractLeafAtDepth {D0 D1} (k0 : key) (d0 : D0) (t1 : trie D1)
    (res : trie D0) (depth : nat) : option (trie D0) :=
  match t1 with
  | Empty =>
      es ← AllEntries (Leaf k0 d0) zeroKey;
      Some (trie_AddMany res es)
  | Leaf k1 _ => Some (if IsBitstrPrefix k1 k0 then res else trie_Add res k0 d0)
  | Node b0 b1 =>
      if decide (length k0 ≤ depth) then Some (trie_Add res k0 d0)
      else
        b ← Bit k0 depth;
        subtractLeafAtDepth k0 d0 (pick b b0 b1) res (S depth)
  end.

(** [subtractTrieAtDepth] *)
Fixpoint subtractTrieAtDepth {D0 D1} (t0 : trie D0) (t1 : trie D1)
    (res : trie D0) (depth : nat) : option (trie D0) :=
  match t0 with
  | Empty => Some res
  | Leaf k0 d0 => subtractLeafAtDepth k0 d0 t1 res depth
  | Node a0 a1 =>
      match t1 with
      | Empty =>
          es ← AllEntries t0 zeroKey;
          Some (trie_AddMany res es)
      | Leaf k1 _ =>
          if decide (length k1 ≤ depth) then Some res
          else
            b ← Bit k1 depth;
            es ← AllEntries (pick b a1 a0) zeroKey;
            subtractTrieAtDepth (pick b a0 a1) t1 (trie_AddMany res es) (S depth)
      | Node b0 b1 =>
          res' ← subtractTrieAtDepth a0 b0 res (S depth);
          subtractTrieAtDepth a1 b1 res' (S depth)
      end
  end.

(** [SubtractTrie]: the entries of [t0] no key of [t1] is a prefix of. *)
Definition SubtractTrie {D0 D1} (t0 : trie D0) (t1 : trie D1) : option (trie D0) :=
  subtractTrieAtDepth t0 t1 Empty 0.
End definitions.

(** The comparison function of [sortBitstrKeysByOrder] on the first
    [maxLen] bits: [Some c] when it returns from the loop. *)
Definition orderCompareLoop (a b order : key) (maxLen : nat) : option comparison :=
  let fix loop (idx : list nat) : option comparison :=
    match idx with
    | [] => None
    | i :: idx =>
        if decide (a !! i = b !! i) then loop idx
        else Some (if decide (a !! i = order !! i) then Lt else Gt)
    end in
  loop (seq 0 maxLen).

(** The comparison function of [sortBitstrKeysByOrder]. *)
Definition orderCompare (order a b : key) : comparison :=
  let maxLen := Nat.min (Nat.min (length a) (length b)) (length order) in
  match orderCompareLoop a b order maxLen with
  | Some c => c
  | None =>
      if decide (length a = length b ∨ maxLen = length order) then Eq
      else if decide (length a < length b) then Gt else Lt
  end.

Definition orderLe (order a b : key) : Prop := orderCompare order a b ≠ Gt.

#[export] Instance orderLe_dec order a b : Decision (orderLe order a b).
Proof. unfold orderLe. destruct (orderCompare order a b); [left|left|right]; auto. Defined.

(** [sortBitstrKeysByOrder] *)
Definition sortBitstrKeysByOrder (ks : list key) (order : key) : list key :=
  merge_sort (orderLe order) ks.

(** One branch [b], at bit [i], of the loop of [trieGapsAtDepth]; [sub] is the
    result of the recursive call on it, used when it is an inner node. *)
Definition gapsOfBranch {D} (sub : option (list key)) (b : trie D) (i : bool)
    (depth : nat) (order : key) : option (list key) :=
  match b with
  | Empty => Some [[i]]
  | Leaf k _ =>
      if decide (S depth < length k)
      then Some (fmap (M:=list) (drop depth)
                  (sortBitstrKeysByOrder (drop (S depth) (SiblingPrefixes k)) order))
      else Some []
  | Node _ _ => gs ← sub; Some (fmap (M:=list) (cons i) gs)
  end.

(** [trieGapsAtDepth]: gaps as suffixes below the path of the node. *)
Fixpoint trieGapsAtDepth {D} (t : trie D) (depth : nat) (target order : key)
    : option (list key) :=
  match t with
  | Node t0 t1 =>
      let insideTarget := bool_decide (length target ≤ depth) in
      b ← Bit order depth;
      let visit (i : bool) : option (list key) :=
        if negb insideTarget && bool_decide (target !! depth ≠ Some i) then Some []
        else if i
             then gapsOfBranch (trieGapsAtDepth t1 (S depth) target order) t1 i depth order
             else gapsOfBranch (trieGapsAtDepth t0 (S depth) target order) t0 i depth order in
      g1 ← visit b;
      g2 ← visit (negb b);
      Some (g1 ++ g2)
  | _ => Some []
  end.

(** [TrieGaps]: prefixes that complete the coverage of [target]. *)
Definition TrieGaps {D} (t : trie D) (target order : key) : option (list key) :=
  match t with
  | Empty => Some [target]
  | Leaf k _ =>
      if IsBitstrPrefix target k
      then Some (sortBitstrKeysByOrder (drop (length target) (SiblingPrefixes k)) order)
      else if IsBitstrPrefix k target then Some []
      else Some [target]
  | Node _ _ => trieGapsAtDepth t 0 target order
  end.

(** The inner loop of [KeyspaceCovered], on a stack whose top is the head of
    the list: pops while the lengths agree, then pushes the sibling of [p]. *)
Fixpoint popLoop (p : key) (stack : list key) : option (list key) :=
  match stack with
  | [] => None
  | top :: rest =>
      if decide (length p = length top) then
        if decide (length top = 1 ∧ top = p) then Some rest
        else if decide (length top = 0) then None
        else popLoop (take (length top - 1) p) rest
      else Some (FlipLastBit p :: stack)
  end.

(** The loop of [KeyspaceCovered] over the keys. *)
Fixpoint stackLoop (ps : list key) (stack : list key) : option bool :=
  match ps with
  | [] => Some (bool_decide (stack = []))
  | p :: ps =>
      match stack with
      | [] => None
      | top :: _ =>
          if decide (length p < length top) then Some false
          else stack' ← popLoop p stack; stackLoop ps stack'
      end
  end.

(** [KeyspaceCovered]: does the trie cover the whole keyspace? *)
Definition KeyspaceCovered {D} (t : trie D) : option bool :=
  match t with
  | Empty => Some false
  | Leaf k _ => Some (bool_decide (k = []))
  | Node _ _ => ks ← KeysIter t zeroKey; stackLoop ks [[false]; [true]]
  end.

(** ** The region a trie covers *)

(** The identifier [x] is covered: some key of the trie is a prefix of it. *)
Definition covered {D} (x : key) (t : trie D) : Prop := ∃ k, k ∈ keys t ∧ k ≼ x.

#[export] Instance covered_dec {D} x (t : trie D) : Decision (covered x t).
Proof.
  refine (decide_by_iff (Q := Exists (λ k, k ≼ x) (keys t)) _). symmetry. apply Exists_exists.
Defined.

Lemma covered_node {D} x (t0 t1 : trie D) :
  covered x (Node t0 t1) ↔ covered x t0 ∨ covered x t1.
Proof.
  unfold covered. simpl. setoid_rewrite fmap_app. setoid_rewrite elem_of_app. naive_solver.
Qed.

Lemma covered_leaf {D} x k (d : D) : covered x (Leaf k d) ↔ k ≼ x.
Proof. unfold covered. simpl. setoid_rewrite list_elem_of_singleton. naive_solver. Qed.

Lemma covered_path {D} x p (t : trie D) :
  wf_at p t → length p ≤ length x → covered x t → p ≼ x.
Proof.
  intros Hw Hl (k & Hk & Hkx). eapply wf_at_prefix in Hk; [|done]. by etrans.
Qed.

Lemma bounded_node {D} n (t0 t1 : trie D) :
  bounded n (Node t0 t1) ↔ bounded n t0 ∧ bounded n t1.
Proof. unfold bounded. simpl. rewrite fmap_app. apply Forall_app. Qed.

(** ** Coalescing *)

Section coalesce.
Context {TL : TrieLib} {TLW : TrieLaws} {D : Type} {DI : Inhabited D}.
Implicit Types (t : trie D) (p k x : key).

(** A subtrie that holds its own path is the leaf of this path. *)
Lemma wf_at_path_leaf p t : wf_at p t → p ∈ keys t → ∃ d, t = Leaf p d.
Proof.
  destruct t as [|tk d|t0 t1]; simpl.
  - by intros _ ?%not_elem_of_nil.
  - intros _ ->%list_elem_of_singleton. by exists d.
  - rewrite fmap_app, elem_of_app. intros (Hw0 & Hw1 & _) [Hk|Hk];
      eapply wf_at_prefix, prefix_length in Hk; try done;
      rewrite length_app in Hk; simpl in Hk; lia.
Qed.

Lemma CommonPrefixLength_fork p s0 s1 :
  CommonPrefixLength (p ++ false :: s0) (p ++ true :: s1) = length p.
Proof. induction p as [|b p IH]; simpl; [done|]. by rewrite eqb_reflx, IH. Qed.

(** The test of [CoalesceTrie] on the leaves of a node at path [p]: the two
    keys are the two children of [p]. *)
Lemma sibling_test p k0 k1 :
  p ++ [false] ≼ k0 → p ++ [true] ≼ k1 →
  (length k0 = length k1 ∧ Z.of_nat (CommonPrefixLength k0 k1) = (Z.of_nat (length k0) - 1)%Z)
    ↔ k0 = p ++ [false] ∧ k1 = p ++ [true].
Proof.
  intros H0 H1. assert (CommonPrefixLength k0 k1 = length p) as ->.
  { destruct H0 as [s0 ->], H1 as [s1 ->]. rewrite <-!app_assoc. apply CommonPrefixLength_fork. }
  apply prefix_length in H0 as L0. apply prefix_length in H1 as L1.
  rewrite length_app in L0, L1. simpl in L0, L1. split.
  - intros [He Hc]. split; symmetry; apply prefix_length_eq; rewrite ?length_app; simpl; auto; lia.
  - intros [-> ->]. rewrite !length_app. simpl. lia.
Qed.

(** Two siblings in different branches of a node at [p] are its children. *)
Lemma sibling_branches p q b c :
  p ++ [c] ≼ q ++ [b] → p ++ [negb c] ≼ q ++ [negb b] → q = p ∧ b = c.
Proof.
  intros H0 H1. apply prefix_length in H0 as Hl. rewrite !length_app in Hl. simpl in Hl.
  destruct (decide (length q = length p)) as [He|He].
  - apply prefix_length_eq in H0; [|rewrite !length_app; simpl; lia].
    by apply app_inj_2 in H0 as [-> [= ->]].
  - assert (∀ d, q ≼ q ++ [d]) as Hq by (intros d; by apply prefix_app_r).
    destruct (prefix_diverge p q q c); [| |by left];
      (eapply prefix_shorter; [done|apply Hq|rewrite length_app; simpl; lia]).
Qed.

(** No two siblings. *)
Definition noSiblings t : Prop := ∀ q b, q ++ [b] ∈ keys t → q ++ [negb b] ∉ keys t.

Lemma noSiblings_leaf k d : noSiblings (Leaf k d).
Proof.
  intros q b Hk Hin. apply list_elem_of_singleton in Hk, Hin. cbn [fst] in *.
  rewrite <-Hk in Hin. apply app_inj_2 in Hin as [_ [= Hb]]; [|done]. by destruct b.
Qed.

(** Covering the two children is covering the parent. *)
Lemma covered_children p x :
  length p < length x → (p ++ [false] ≼ x ∨ p ++ [true] ≼ x) ↔ p ≼ x.
Proof.
  intros Hl. split.
  - intros [Hx|Hx]; (etrans; [by apply prefix_app_r|exact Hx]).
  - intros Hp. destruct (prefix_strict_lookup p x Hp Hl) as ([] & _ & Hb); auto.
Qed.

Lemma CoalesceTrie_spec p t :
  wf_at p t →
  wf_at p (CoalesceTrie t) ∧ (CoalesceTrie t = Empty → t = Empty) ∧
  noSiblings (CoalesceTrie t) ∧
  (∀ x, bounded (length x) t → covered x (CoalesceTrie t) ↔ covered x t).
Proof.
  revert p. induction t as [|tk d|t0 IH0 t1 IH1]; intros p Hw.
  - split_and!; auto. by intros ? ? ?%not_elem_of_nil.
  - split_and!; [done..|apply noSiblings_leaf|done].
  - destruct Hw as (Hw0 & Hw1 & Hne).
    destruct (IH0 _ Hw0) as (Hc0 & He0 & Hs0 & Hx0). destruct (IH1 _ Hw1) as (Hc1 & He1 & Hs1 & Hx1).
    cbn [CoalesceTrie]. cbv zeta.
    assert (Hnode : wf_at p (Node (CoalesceTrie t0) (CoalesceTrie t1))).
    { simpl. split_and!; [done..|]. intros [??]. apply Hne. auto. }
    assert (Hcov : ∀ x, bounded (length x) (Node t0 t1) →
      covered x (Node (CoalesceTrie t0) (CoalesceTrie t1)) ↔ covered x (Node t0 t1)).
    { intros x [Hb0 Hb1]%bounded_node. rewrite !covered_node, Hx0, Hx1 by done. done. }
    assert (Hsib : (∀ d0 d1, CoalesceTrie t0 = Leaf (p ++ [false]) d0 →
        CoalesceTrie t1 = Leaf (p ++ [true]) d1 → False) →
      noSiblings (Node (CoalesceTrie t0) (CoalesceTrie t1))).
    { intros Hno q b. simpl. rewrite fmap_app, !elem_of_app.
      intros [Hq|Hq] [Hq'|Hq'].
      - by apply (Hs0 q b).
      - pose proof (wf_at_prefix _ _ _ Hc0 Hq) as P0. pose proof (wf_at_prefix _ _ _ Hc1 Hq') as P1.
        destruct (sibling_branches p q b false P0 P1) as [-> ->].
        apply wf_at_path_leaf in Hq as [d0 Hq], Hq' as [d1 Hq']; eauto.
      - pose proof (wf_at_prefix _ _ _ Hc1 Hq) as P1. pose proof (wf_at_prefix _ _ _ Hc0 Hq') as P0.
        destruct (sibling_branches p q b true P1 P0) as [-> ->].
        apply wf_at_path_leaf in Hq as [d1 Hq], Hq' as [d0 Hq']; eauto.
      - by apply (Hs1 q b). }
    destruct (CoalesceTrie t0) as [|k0 d0|] eqn:E0, (CoalesceTrie t1) as [|k1 d1|] eqn:E1;
      try (split_and!; [done|done|apply Hsib; intros ? ? [=] [=]|done]).
    case_decide as Ht; rewrite (sibling_test p k0 k1 Hc0 Hc1) in Ht.
    + destruct Ht as [-> ->]. rewrite Add_empty.
      assert (take (Z.to_nat (Z.of_nat (length (p ++ [false])) - 1)) (p ++ [false]) = p) as ->.
      { rewrite length_app. simpl. replace (Z.to_nat _) with (length p) by lia.
        apply take_app_length. }
      split_and!; [by simpl|done|apply noSiblings_leaf|].
      intros x Hb. rewrite <-Hcov by done. apply bounded_node in Hb as [Hb0 _].
      assert (length p < length x) as Hl.
      { destruct (wf_at_nonempty _ _ Hw0) as [k Hk].
        - intros ->. by simpl in E0.
        - pose proof (bounded_elem _ _ _ Hb0 Hk). pose proof (wf_at_prefix _ _ _ Hw0 Hk) as P.
          apply prefix_length in P. rewrite length_app in P. simpl in P. lia. }
      rewrite covered_node, !covered_leaf. symmetry. by apply covered_children.
    + split_and!; [done|done| |done]. apply Hsib.
      intros ? ? [= -> _] [= -> _]. by apply Ht.
Qed.

(** [CoalesceTrie] keeps the trie well-formed and its coverage of the
    keyspace, and leaves no two sibling prefixes to merge. *)
Theorem CoalesceTrie_correct t :
  wf t →
  wf (CoalesceTrie t) ∧ noSiblings (CoalesceTrie t) ∧
  ∀ x, bounded (length x) t → covered x (CoalesceTrie t) ↔ covered x t.
Proof. intros Hw. by destruct (CoalesceTrie_spec [] t Hw) as (? & _ & ? & ?). Qed.
End coalesce.

(** "00", "01" and "1" merge into the whole keyspace. *)
Lemma CoalesceTrie_correct_witness :
  let t := mkTrie [(bitstr "00", 1); (bitstr "01", 2); (bitstr "1", 3)] in
  CoalesceTrie t = Leaf [] inhabitant ∧
  wf (CoalesceTrie t) ∧ noSiblings (CoalesceTrie t) ∧
  ∀ x, bounded (length x) t → covered x (CoalesceTrie t) ↔ covered x t.
Proof. split; [reflexivity|]. apply CoalesceTrie_correct. by_compute. Defined.

(** ** Subtraction *)

Section subtract.
Context {TL : TrieLib} {TLW : TrieLaws} {D0 D1 : Type}.
Implicit Types (t res r : trie D0) (u : trie D1) (p k x : key) (e : key * D0).

(** No key of [l] overlaps a key of [res]. *)
Definition separate (l : list key) res : Prop :=
  ∀ k x, k ∈ l → x ∈ keys res → ¬ overlap k x.

(** [r] is [res] with the entries of [P] added. *)
Definition extends res (P : key * D0 → Prop) r : Prop :=
  wf r ∧ ∀ e, e ∈ entries r ↔ e ∈ entries res ∨ P e.

(** No key of [u] is a prefix of the key of [e]. *)
Definition survives u e : Prop := ∀ k, k ∈ keys u → ¬ k ≼ e.1.

Lemma survives_node u0 u1 e :
  survives (Node u0 u1) e ↔ survives u0 e ∧ survives u1 e.
Proof.
  unfold survives. simpl. setoid_rewrite fmap_app. setoid_rewrite elem_of_app. naive_solver.
Qed.

Lemma survives_off p b u e : wf_at (p ++ [b]) u → p ++ [negb b] ≼ e.1 → survives u e.
Proof.
  intros Hw He k Hk Hp. eapply wf_at_prefix in Hk; [|done].
  eapply prefix_diverge; [exact Hk|exact He|by left].
Qed.

Lemma extends_id res (P : key * D0 → Prop) : wf res → (∀ e, ¬ P e) → extends res P res.
Proof. intros Hw HP. split; [done|]. intros e. specialize (HP e). tauto. Qed.

Lemma extends_iff res (P Q : key * D0 → Prop) r :
  (∀ e, P e ↔ Q e) → extends res P r → extends res Q r.
Proof. intros HPQ [Hw He]. split; [done|]. intros e. by rewrite He, HPQ. Qed.

Lemma extends_trans res (P Q : key * D0 → Prop) r r' :
  extends res P r → extends r Q r' → extends res (λ e, P e ∨ Q e) r'.
Proof. intros [_ H1] [Hw H2]. split; [done|]. intros e. rewrite H2, H1. tauto. Qed.

(** Entries added below one branch stay separate from the other one. *)
Lemma separate_extends l res (P : key * D0 → Prop) r p b :
  extends res P r → separate l res → (∀ k, k ∈ l → p ++ [b] ≼ k) →
  (∀ e, P e → p ++ [negb b] ≼ e.1) → separate l r.
Proof.
  intros [_ He] Hs Hl HP k x Hk Hx. apply list_elem_of_fmap in Hx as (e & -> & Hx).
  apply He in Hx as [Hx|Hx].
  - apply Hs; [done|]. by apply list_elem_of_fmap_2.
  - eapply prefix_diverge; eauto.
Qed.

Lemma Add_extends res k d :
  wf res → separate [k] res → extends res (λ e, e = (k, d)) (trie_Add res k d).
Proof.
  intros Hw Hs. assert (∀ x, x ∈ keys res → ¬ overlap k x) as Hk.
  { intros x. apply Hs. by apply list_elem_of_singleton. }
  assert (admissible res k) as Ha by (intros x Hx Ho; by destruct (Hk x)).
  split; [by apply Add_wf|]. intros e. rewrite Add_new; [|done..|].
  - rewrite elem_of_cons. tauto.
  - intros Hin. apply (Hk k); auto with kad.
Qed.

Lemma AddMany_extends p t res :
  wf_at p t → bounded KeyLen t → wf res → separate (keys t) res →
  ∃ es, AllEntries t zeroKey = Some es ∧
    extends res (λ e, e ∈ entries t) (trie_AddMany res es).
Proof.
  intros Hw Hb Hr Hs. exists (entries t). split; [by eapply AllEntries_zeroKey|].
  assert (antichain (keys t ++ keys res)) as Ha.
  { intros k1 k2. rewrite !elem_of_app. intros [H1|H1] [H2|H2] Ho.
    - by apply (wf_at_antichain p t).
    - by destruct (Hs k1 k2).
    - destruct (Hs k2 k1); auto with kad.
    - by apply (wf_at_antichain [] res). }
  split; [by apply AddMany_wf|]. intros e. rewrite AddMany_new; [tauto|done|done| |].
  - by eapply wf_at_NoDup.
  - intros k Hk Hk'. apply (Hs k k); auto with kad.
Qed.

Lemma subtractLeafAtDepth_spec p k0 d0 u res :
  wf_at p u → p ≼ k0 → length k0 ≤ KeyLen → wf res → separate [k0] res →
  ∃ r, subtractLeafAtDepth k0 d0 u res (length p) = Some r ∧
    extends res (λ e, e = (k0, d0) ∧ survives u e) r.
Proof.
  intros Hw Hp Hl Hr Hs. pose proof (Add_extends res k0 d0 Hr Hs) as Hadd.
  revert p Hw Hp. induction u as [|k1 d1|u0 IH0 u1 IH1]; intros p Hw Hp.
  - cbn [subtractLeafAtDepth].
    destruct (AddMany_extends [] (Leaf k0 d0) res) as (es & -> & He); [apply prefix_nil| |done|done|].
    { by apply Forall_singleton. }
    eexists. split; [done|]. eapply extends_iff, He. intros e. simpl.
    rewrite list_elem_of_singleton. split; [|by intros [? _]].
    intros ->. split; [done|]. by intros ? ?%not_elem_of_nil.
  - cbn [subtractLeafAtDepth]. eexists. split; [done|]. rewrite IsBitstrPrefix_decide.
    assert (∀ e, survives (Leaf k1 d1) e ↔ ¬ k1 ≼ e.1) as Hsv.
    { intros e. unfold survives. simpl. setoid_rewrite list_elem_of_singleton. naive_solver. }
    case_bool_decide as Hk.
    + apply extends_id; [done|]. intros e [-> Hsu]. by destruct (proj1 (Hsv _) Hsu).
    + eapply extends_iff, Hadd. intros e. rewrite Hsv. naive_solver.
  - cbn [subtractLeafAtDepth]. apply prefix_length in Hp as Hpl.
    assert (Hwn := Hw). destruct Hw as (Hw0 & Hw1 & Hne). case_decide as Hd.
    + eexists. split; [done|]. eapply extends_iff, Hadd. intros e. split; [|by intros [? _]].
      intros ->. split; [done|]. intros k Hk Hk0. cbn [fst] in Hk0. apply prefix_length in Hk0.
      assert (∃ b, p ++ [b] ≼ k) as [b Hpb].
      { simpl in Hk. rewrite fmap_app, elem_of_app in Hk.
        destruct Hk as [Hk|Hk]; eauto using wf_at_prefix. }
      apply prefix_length in Hpb. rewrite length_app in Hpb. simpl in Hpb. lia.
    + destruct (prefix_strict_lookup p k0 Hp) as (b & Hb & Hpb); [lia|].
      unfold Bit. rewrite Hb. cbn [mbind option_bind].
      assert (∃ r, subtractLeafAtDepth k0 d0 (pick b u0 u1) res (S (length p)) = Some r ∧
        extends res (λ e, e = (k0, d0) ∧ survives (pick b u0 u1) e) r) as (r & -> & He).
      { specialize (IH0 (p ++ [false])). specialize (IH1 (p ++ [true])).
        rewrite length_app, Nat.add_1_r in IH0, IH1. destruct b; auto. }
      eexists. split; [done|]. eapply extends_iff, He. intros e. rewrite survives_node.
      split; [|by destruct b; intros (? & ? & ?)]. intros [-> Hsu]. split; [done|].
      destruct b; split; try done; eapply survives_off; done.
Qed.

Lemma separate_app l1 l2 res : separate (l1 ++ l2) res ↔ separate l1 res ∧ separate l2 res.
Proof. unfold separate. setoid_rewrite elem_of_app. naive_solver. Qed.

Lemma subtractTrieAtDepth_spec p t u res :
  wf_at p t → wf_at p u → bounded KeyLen t → wf res → separate (keys t) res →
  ∃ r, subtractTrieAtDepth t u res (length p) = Some r ∧
    extends res (λ e, e ∈ entries t ∧ survives u e) r.
Proof.
  revert p u res. induction t as [|k0 d0|t0 IH0 t1 IH1]; intros p u res Hw Hu Hb Hr Hs.
  - exists res. split; [done|]. apply extends_id; [done|]. by intros e [?%not_elem_of_nil _].
  - cbn [subtractTrieAtDepth]. destruct (subtractLeafAtDepth_spec p k0 d0 u res) as (r & -> & He);
      [done|done|by inversion Hb|done|done|].
    exists r. split; [done|]. eapply extends_iff, He. intros e. simpl.
    by rewrite list_elem_of_singleton.
  - pose proof Hw as Hwn. pose proof Hb as Hbn. pose proof Hs as Hsn.
    destruct Hw as (Hw0 & Hw1 & _). apply bounded_node in Hb as [Hb0 Hb1].
    simpl in Hs. rewrite fmap_app, separate_app in Hs. destruct Hs as [Hs0 Hs1].
    assert (∀ b (t' : trie D0), wf_at (p ++ [b]) t' → ∀ e, e ∈ entries t' → p ++ [b] ≼ e.1) as Hpre.
    { intros b t' Hw' e He. eapply wf_at_prefix; [done|]. by apply list_elem_of_fmap_2. }
    specialize (IH0 (p ++ [false])). specialize (IH1 (p ++ [true])).
    rewrite length_app, Nat.add_1_r in IH0, IH1.
    destruct u as [|k1 d1|u0 u1]; cbn [subtractTrieAtDepth].
    + destruct (AddMany_extends p (Node t0 t1) res) as (es & -> & He); [done..|].
      eexists. split; [done|]. eapply extends_iff, He. intros e. split; [|by intros [? _]].
      intros Hin. split; [done|]. by intros ? ?%not_elem_of_nil.
    + case_decide as Hd.
      * exists res. split; [done|]. apply extends_id; [done|]. intros e [Hin Hsu].
        apply (Hsu k1); [by apply list_elem_of_singleton|].
        rewrite <-(prefix_length_eq p k1) by done.
        eapply wf_at_prefix; [exact Hwn|]. by apply list_elem_of_fmap_2.
      * destruct (prefix_strict_lookup p k1 Hu) as (b & Hbit & Hpb); [lia|].
        unfold Bit. rewrite Hbit. cbn [mbind option_bind].
        destruct (AddMany_extends (p ++ [negb b]) (pick b t1 t0) res) as (es & -> & He);
          [by destruct b|by destruct b|done|by destruct b|]. cbn [mbind option_bind].
        assert (∃ r, subtractTrieAtDepth (pick b t0 t1) (Leaf k1 d1) (trie_AddMany res es)
          (S (length p)) = Some r ∧ extends (trie_AddMany res es)
            (λ e, e ∈ entries (pick b t0 t1) ∧ survives (Leaf k1 d1) e) r) as (r & -> & He').
        { assert (separate (keys (pick b t0 t1)) (trie_AddMany res es)).
          { eapply (separate_extends _ res _ _ p b); [exact He|by destruct b| |].
            - intros k Hk. by apply (wf_at_prefix _ (pick b t0 t1)); destruct b.
            - intros e Hin. by apply (Hpre (negb b) (pick b t1 t0)); destruct b. }
          pose proof (proj1 He). destruct b; auto. }
        exists r. split; [done|]. eapply extends_iff, extends_trans; [|done|done]. intros e.
        cbn [entries]. rewrite elem_of_app.
        assert (e ∈ entries (pick b t1 t0) → survives (Leaf k1 d1) e) as Hoff.
        { intros Hin. apply (survives_off p b); [done|].
          by apply (Hpre (negb b) (pick b t1 t0)); destruct b. }
        destruct b; naive_solver.
    + destruct Hu as (Hu0 & Hu1 & _).
      destruct (IH0 u0 res) as (r0 & -> & He0); [done..|]. cbn [mbind option_bind].
      destruct (IH1 u1 r0) as (r1 & -> & He1); [done|done|done|apply He0| |].
      { eapply (separate_extends _ res _ _ p true); [exact He0|done| |].
        - intros k Hk. by apply (wf_at_prefix _ t1).
        - intros e [Hin _]. by apply (Hpre false t0). }
      exists r1. split; [done|]. eapply extends_iff, extends_trans; [|done|done]. intros e.
      cbn [entries]. rewrite elem_of_app, survives_node.
      assert (e ∈ entries t0 → survives u1 e).
      { intros Hin. apply (survives_off p true); [done|]. by apply (Hpre false t0). }
      assert (e ∈ entries t1 → survives u0 e).
      { intros Hin. apply (survives_off p false); [done|]. by apply (Hpre true t1). }
      tauto.
Qed.

Lemma SubtractTrie_spec t u :
  wf t → wf u → bounded KeyLen t →
  ∃ r, SubtractTrie t u = Some r ∧ wf r ∧
    ∀ e, e ∈ entries r ↔ e ∈ entries t ∧ ∀ k, k ∈ keys u → ¬ k ≼ e.1.
Proof.
  intros Ht Hu Hb. destruct (subtractTrieAtDepth_spec [] t u Empty) as (r & Hr & Hw & He);
    [done|done|done|done|by intros ? ? _ ?%not_elem_of_nil|].
  exists r. split_and!; [done|done|]. intros e. rewrite He. simpl.
  rewrite elem_of_nil. unfold survives. tauto.
Qed.

(** [SubtractTrie] does not panic and returns a well-formed trie that
    holds exactly the entries of [t] that no key of [u] is a prefix of. *)
Theorem SubtractTrie_correct t u :
  wf t → wf u → bounded KeyLen t →
  ∃ r, SubtractTrie t u = Some r ∧ wf r ∧
    ∀ e, e ∈ entries r ↔ e ∈ entries t ∧ ∀ k, k ∈ keys u → ¬ k ≼ e.1.
Proof. exact (SubtractTrie_spec t u). Qed.
End subtract.

(** {"00", "01", "10"} minus {"0"}. *)
Lemma SubtractTrie_correct_witness :
  let t := mkTrie [(bitstr "00", 1); (bitstr "01", 2); (bitstr "10", 3)] in
  let u := mkTrie [(bitstr "0", ())] in
  ∃ r, SubtractTrie t u = Some r ∧ wf r ∧
    ∀ e, e ∈ entries r ↔ e ∈ entries t ∧ ∀ k, k ∈ keys u → ¬ k ≼ e.1.
Proof. apply SubtractTrie_correct; by_compute. Defined.

(** ** Coverage of the keyspace *)

Section coverage.
Context {D : Type} (n : nat).
Implicit Types (t : trie D) (p k x : key) (S gs : list key).

(** The keys of the subtrie at path [p] cover all identifiers below [p]. *)
Fixpoint full p t : Prop :=
  match t with
  | Empty => False
  | Leaf k _ => k = p
  | Node t0 t1 => full (p ++ [false]) t0 ∧ full (p ++ [true]) t1
  end.

#[export] Instance full_dec p t : Decision (full p t).
Proof. revert p. induction t; intros p; simpl; apply _. Defined.

(** An identifier below [p] of the given length. *)
Lemma pad_prefix p : length p ≤ n → ∃ x, p ≼ x ∧ length x = n.
Proof.
  intros Hl. exists (p ++ replicate (n - length p) false). split.
  - by apply prefix_app_r.
  - rewrite length_app, length_replicate. lia.
Qed.

Lemma full_covered p t :
  wf_at p t → bounded n t → length p ≤ n →
  full p t ↔ ∀ x, p ≼ x → length x = n → covered x t.
Proof.
  revert p. induction t as [|k d|t0 IH0 t1 IH1]; intros p Hw Hb Hl; simpl.
  - split; [done|]. intros Hx. destruct (pad_prefix p Hl) as (x & Hp & Hn).
    destruct (Hx x Hp Hn) as (k & ?%not_elem_of_nil & _). done.
  - split; [intros -> x Hp _; by apply covered_leaf|]. intros Hx. simpl in Hw.
    destruct (decide (length p = length k)) as [He|He]; [by rewrite (prefix_length_eq p k) by (done || lia)|].
    exfalso. apply prefix_length in Hw as Hlk. pose proof (bounded_elem _ _ k Hb).
    destruct (prefix_strict_lookup p k Hw) as (b & _ & Hpb); [lia|].
    destruct (pad_prefix (p ++ [negb b])) as (x & Hp & Hn).
    { rewrite length_app. simpl. assert (length k ≤ n); [|lia].
      apply (bounded_elem _ _ _ Hb). by apply list_elem_of_singleton. }
    apply (prefix_diverge p k x b Hpb Hp). left. apply (covered_leaf x k d). apply Hx; [|done].
    etrans; [|exact Hp]. by apply prefix_app_r.
  - destruct Hw as (Hw0 & Hw1 & Hne) eqn:HE. clear HE.
    pose proof (wf_at_height n p (Node t0 t1) (conj Hw0 (conj Hw1 Hne)) Hb ltac:(done)) as Hh. simpl in Hh.
    apply bounded_node in Hb as [Hb0 Hb1].
    assert (∀ b, length (p ++ [b]) ≤ n) as Hlb by (intros b; rewrite length_app; simpl; lia).
    rewrite IH0, IH1 by auto. split.
    + intros [H0 H1] x Hp Hn. apply covered_node.
      apply (covered_children p x) in Hp as [Hp|Hp]; [left|right|lia]; auto.
    + intros Hx. split; intros x Hp Hn; (destruct (proj1 (covered_node x t0 t1)) as [Hc|Hc];
        [apply Hx; [etrans; [|exact Hp]; by apply prefix_app_r|done]| |]); try done.
      * apply (covered_path x (p ++ [true])) in Hc; [|done|rewrite Hn; auto].
        destruct (prefix_diverge p x x false); auto with kad.
      * apply (covered_path x (p ++ [false])) in Hc; [|done|rewrite Hn; auto].
        destruct (prefix_diverge p x x true); auto with kad.
Qed.

(** The loop on the keys of a full subtrie acts as on its path. *)
Lemma stackLoop_full p t ps top S :
  full p t → length top ≤ length p → 1 ≤ length p →
  stackLoop (keys t ++ ps) (top :: S) = stackLoop (p :: ps) (top :: S).
Proof.
  revert p ps top S. induction t as [|k d|t0 IH0 t1 IH1]; intros p ps top S Hf Hl H1.
  - done.
  - simpl in Hf. by subst.
  - destruct Hf as [Hf0 Hf1]. cbn [entries]. rewrite fmap_app, <-app_assoc.
    assert (∀ b, length (p ++ [b]) = Datatypes.S (length p)) as Hlen by (intros b; rewrite length_app; simpl; lia).
    rewrite (IH0 (p ++ [false])) by (done || rewrite Hlen; lia).
    cbn [stackLoop popLoop].
    rewrite (decide_False (P := length (p ++ [false]) < length top)) by (rewrite Hlen; lia).
    rewrite (decide_False (P := length (p ++ [false]) = length top)) by (rewrite Hlen; lia).
    cbn [mbind option_bind]. rewrite FlipLastBit_snoc. change (negb false) with true.
    rewrite (IH1 (p ++ [true])) by (done || rewrite ?Hlen; lia).
    cbn [stackLoop popLoop].
    rewrite (decide_False (P := length (p ++ [true]) < length (p ++ [true]))) by lia.
    rewrite (decide_True (P := length (p ++ [true]) = length (p ++ [true]))) by done.
    rewrite (decide_False (P := length (p ++ [true]) = 1 ∧ _)) by (rewrite Hlen; lia).
    rewrite (decide_False (P := length (p ++ [true]) = 0)) by (rewrite Hlen; lia).
    replace (take (length (p ++ [true]) - 1) (p ++ [true])) with p.
    2: { rewrite Hlen, Nat.sub_succ, Nat.sub_0_r. by rewrite take_app_length. }
    by rewrite (decide_False (P := length p < length top)) by lia.
Qed.

(** The weight of a prefix: how many identifiers of [n] bits it covers. *)
Definition weight (k : key) : nat := 2 ^ (n - length k).
Definition weights (l : list key) : nat := sum_list_with weight l.

Lemma weight_double (p q : key) :
  length q = Datatypes.S (length p) → length q ≤ n → weight p = weight q + weight q.
Proof.
  intros Hq Hn. unfold weight. rewrite Hq.
  replace (n - length p) with (Datatypes.S (n - Datatypes.S (length p))) by lia. simpl. lia.
Qed.

Lemma weight_length (p q : key) : length p = length q → weight p = weight q.
Proof. unfold weight. by intros ->. Qed.

Lemma weight_pos p : 0 < weight p.
Proof. unfold weight. pose proof (Nat.pow_nonzero 2 (n - length p)). lia. Qed.

Lemma weight_strict (p q : key) : length p < length q → length q ≤ n → weight q < weight p.
Proof. intros H1 H2. unfold weight. apply Nat.pow_lt_mono_r; lia. Qed.

(** The keys of a subtrie cover at most its path, and less if not full. *)
Lemma weights_le p t :
  wf_at p t → bounded n t → length p ≤ n →
  weights (keys t) ≤ weight p ∧ (¬ full p t → weights (keys t) < weight p).
Proof.
  revert p. induction t as [|k d|t0 IH0 t1 IH1]; intros p Hw Hb Hl; simpl.
  - pose proof (weight_pos p). split; simpl; lia.
  - simpl in Hw. apply prefix_length in Hw as Hlk. inversion_clear Hb as [|?? Hk _]. simpl in *.
    destruct (decide (length p = length k)) as [He|He].
    + rewrite (weight_length p k He). split; [lia|]. intros []. symmetry.
      apply prefix_length_eq; [done|lia].
    + pose proof (weight_strict p k). lia.
  - pose proof (wf_at_height n p (Node t0 t1) Hw Hb ltac:(done)) as Hh. simpl in Hh.
    destruct Hw as (Hw0 & Hw1 & _). apply bounded_node in Hb as [Hb0 Hb1].
    assert (∀ b, length (p ++ [b]) = Datatypes.S (length p)) as Hlen by (intros b; rewrite length_app; simpl; lia).
    destruct (IH0 (p ++ [false])) as [L0 F0]; [done|done|rewrite Hlen; lia|].
    destruct (IH1 (p ++ [true])) as [L1 F1]; [done|done|rewrite Hlen; lia|].
    unfold weights in *. rewrite fmap_app, sum_list_with_app.
    rewrite (weight_double p (p ++ [false])) by (rewrite Hlen; lia).
    rewrite (weight_length (p ++ [true]) (p ++ [false])) in L1, F1 by (rewrite !Hlen; done).
    split; [lia|]. intros Hf. destruct (decide (full (p ++ [false]) t0)) as [?|?%F0]; [|lia].
    destruct (decide (full (p ++ [true]) t1)) as [?|?%F1]; [tauto|lia].
Qed.

(** The bottom of the stack, with the weight already accounted for. *)
Definition stackBase (base : list key) (c : nat) : Prop :=
  (base = [[false]; [true]] ∧ c = 0) ∨ ((base = [[true]] ∨ base = [[]; [true]]) ∧ c = weight [true]).

(** The stack is a binary counter of the weight [w] of the processed keys. *)
Definition counter S w : Prop :=
  ∃ gs base c, S = gs ++ base ∧ stackBase base c ∧
    StronglySorted (λ a b, length b < length a) gs ∧
    Forall (λ g, 2 ≤ length g ≤ n) gs ∧ w = c + weights gs.

Lemma popLoop_base base c p :
  stackBase base c → 1 ≤ length p ≤ n → c + weight p < weight [] →
  ∃ gs base' c', popLoop p base = Some (gs ++ base') ∧ stackBase base' c' ∧
    (gs = [] ∨ ∃ g, gs = [g] ∧ length g = length p ∧ 2 ≤ length p) ∧
    c + weight p = c' + weights gs.
Proof.
  intros Hbase Hp Hw.
  assert (length p = 1 → weight [] = weight p + weight p) as Hdouble.
  { intros H1. apply weight_double; simpl; lia. }
  assert (length p = 1 → weight p = weight [true]) as H1w by (intros H1; by apply weight_length).
  destruct Hbase as [[-> ->]|[[->| ->] ->]]; cbn [popLoop length].
  - case_decide as H1.
    + destruct (decide (1 = 1 ∧ _)) as [_|_].
      * exists [], [[true]], (weight [true]). split_and!; [done|by right; auto|by left|].
        simpl. rewrite H1w by done. lia.
      * rewrite decide_False by lia. rewrite Nat.sub_diag, take_0.
        rewrite decide_False by done.
        exists [], [[]; [true]], (weight [true]). split_and!; [done|by right; auto|by left|].
        simpl. rewrite H1w by done. lia.
    + exists [FlipLastBit p], [[false]; [true]], 0. split_and!; [done|by left| |].
      * right. eexists. split_and!; [done|by rewrite length_FlipLastBit|lia].
      * simpl. rewrite (weight_length (FlipLastBit p) p) by apply length_FlipLastBit. lia.
  - case_decide as H1; [specialize (Hdouble H1); specialize (H1w H1); lia|].
    exists [FlipLastBit p], [[true]], (weight [true]). split_and!; [done|by right; auto| |].
    + right. eexists. split_and!; [done|by rewrite length_FlipLastBit|lia].
    + simpl. rewrite (weight_length (FlipLastBit p) p) by apply length_FlipLastBit. lia.
  - case_decide as H0; [lia|].
    destruct (decide (length p = 1)) as [H1|H1]; [specialize (Hdouble H1); specialize (H1w H1); lia|].
    exists [FlipLastBit p], [[]; [true]], (weight [true]). split_and!; [done|by right; auto| |].
    + right. eexists. split_and!; [done|by rewrite length_FlipLastBit|lia].
    + simpl. rewrite (weight_length (FlipLastBit p) p) by apply length_FlipLastBit. lia.
Qed.

Lemma popLoop_counter gs base c p :
  stackBase base c → StronglySorted (λ a b, length b < length a) gs →
  Forall (λ g, 2 ≤ length g ≤ n) gs → 1 ≤ length p ≤ n →
  (∀ g, head gs = Some g → length g ≤ length p) →
  c + weights gs + weight p < weight [] →
  ∃ S, popLoop p (gs ++ base) = Some S ∧ counter S (c + weights gs + weight p).
Proof.
  intros Hbase. revert p. induction gs as [|g gs IH]; intros p Hs Hf Hp Htop Hw.
  - destruct (popLoop_base base c p) as (gs & base' & c' & He & Hb' & Hgs & Hwt);
      [done|done|simpl in Hw; lia|].
    exists (gs ++ base'). split; [done|]. exists gs, base', c'. split_and!; [done|done| | |simpl; lia].
    + destruct Hgs as [->|(g & -> & _)]; repeat constructor.
    + destruct Hgs as [->|(g & -> & ? & ?)]; repeat constructor; lia.
  - cbn [app popLoop]. apply StronglySorted_inv in Hs as [Hs Hgs].
    apply Forall_cons in Hf as [Hg Hf]. specialize (Htop g eq_refl) as Hgp. case_decide as Hl.
    + rewrite decide_False by lia. rewrite decide_False by lia.
      destruct (IH (take (length g - 1) p)) as (S & -> & HS); [done|done| | | |].
      * rewrite length_take. lia.
      * intros g' Hg'. destruct gs as [|g'' gs]; [done|]. injection Hg' as <-.
        apply Forall_cons in Hgs as [? _]. rewrite length_take. lia.
      * rewrite (weight_double (take (length g - 1) p) p) by (rewrite ?length_take; lia).
        unfold weights in *. cbn [sum_list_with] in Hw. rewrite (weight_length g p) in Hw by done. lia.
      * exists S. split; [done|].
        rewrite (weight_double (take (length g - 1) p) p) in HS by (rewrite ?length_take; lia).
        unfold weights in *. cbn [sum_list_with]. rewrite (weight_length g p) by done.
        by replace (c + (weight p + sum_list_with weight gs) + weight p)
          with (c + sum_list_with weight gs + (weight p + weight p)) by lia.
    + eexists. split; [done|]. exists (FlipLastBit p :: g :: gs), base, c. split_and!; [done|done| | |].
      * constructor; [by constructor|]. rewrite length_FlipLastBit. constructor; [lia|].
        eapply Forall_impl; [exact Hgs|]. simpl. lia.
      * constructor; [rewrite length_FlipLastBit; lia|]. by constructor.
      * unfold weights. cbn [sum_list_with].
        rewrite (weight_length (FlipLastBit p) p) by apply length_FlipLastBit. lia.
Qed.

(** Keys of total weight below that of the keyspace leave the stack busy. *)
Lemma stackLoop_counter ps S w :
  counter S w → Forall (λ p, 1 ≤ length p ≤ n) ps → w + weights ps < weight [] →
  stackLoop ps S = Some false.
Proof.
  revert S w. induction ps as [|p ps IH]; intros S w HS Hps Hw.
  - cbn [stackLoop]. destruct HS as (gs & base & c & -> & Hb & _).
    rewrite bool_decide_eq_false_2; [done|]. intros [_ ->]%app_nil.
    destruct Hb as [[[=] _]|[[[=]|[=]] _]].
  - apply Forall_cons in Hps as [Hp Hps]. destruct HS as (gs & base & c & -> & Hb & Hs & Hf & ->).
    unfold weights in Hw. cbn [sum_list_with] in Hw.
    assert (∃ top S', gs ++ base = top :: S') as (top & S' & He).
    { destruct gs; [|by eauto]. destruct Hb as [[-> _]|[[->| ->] _]]; simpl; eauto. }
    rewrite He. cbn [stackLoop]. case_decide as Hd; [done|]. rewrite <-He.
    destruct (popLoop_counter gs base c p) as (S & -> & HS); [done|done|done|done| | |].
    + intros g Hg. destruct gs as [|g' gs]; [done|]. injection Hg as ->. injection He as -> _. lia.
    + unfold weights. lia.
    + cbn [mbind option_bind]. eapply IH; [exact HS|done|]. unfold weights. lia.
Qed.
End coverage.

Lemma KeyspaceCovered_spec {D} (t : trie D) :
  wf t → bounded KeyLen t →
  ∃ b, KeyspaceCovered t = Some b ∧
    (b = true ↔ ∀ x, length x = KeyLen → covered x t).
Proof.
  intros Hw Hb.
  assert (full [] t ↔ ∀ x, length x = KeyLen → covered x t) as Hfc.
  { rewrite (full_covered KeyLen) by (done || simpl; lia). split; auto using prefix_nil. }
  setoid_rewrite <-Hfc. clear Hfc.
  destruct t as [|k d|t0 t1].
  - by exists false.
  - eexists. split; [done|]. simpl. apply bool_decide_eq_true.
  - cbn [KeyspaceCovered]. unfold KeysIter. rewrite (trieIter_zeroKey []) by done.
    cbn [mbind option_bind]. change (fst <$> entries (Node t0 t1)) with (keys (Node t0 t1)).
    destruct (decide (full [] (Node t0 t1))) as [Hf|Hf].
    + exists true. split; [|done]. destruct Hf as [Hf0 Hf1]. cbn [entries].
      rewrite fmap_app, (stackLoop_full [false]) by (done || simpl; lia).
      change (stackLoop (keys t1) [[true]] = Some true).
      rewrite <-(app_nil_r (keys t1)), (stackLoop_full [true]) by (done || simpl; lia). done.
    + exists false. split; [|done]. eapply (stackLoop_counter KeyLen _ _ 0).
      * exists [], [[false]; [true]], 0. split_and!; [done|by left|constructor|constructor|done].
      * apply Forall_forall. intros k Hk. split.
        -- simpl in Hk. rewrite fmap_app, elem_of_app in Hk. destruct Hw as (Hw0 & Hw1 & _).
           destruct Hk as [Hk|Hk]; [apply (wf_at_prefix _ _ _ Hw0), prefix_length in Hk
             |apply (wf_at_prefix _ _ _ Hw1), prefix_length in Hk]; exact Hk.
        -- by apply (bounded_elem _ _ _ Hb).
      * destruct (weights_le KeyLen [] (Node t0 t1) Hw Hb) as [_ Hlt]; [simpl; lia|].
        specialize (Hlt Hf). lia.
Qed.

(** C12: [KeyspaceCovered] does not panic, and returns true exactly when the
    keys of the trie cover every identifier. *)
Theorem KeyspaceCovered_correct {D} (t : trie D) :
  wf t → bounded KeyLen t →
  ∃ b, KeyspaceCovered t = Some b ∧
    (b = true ↔ ∀ x, length x = KeyLen → covered x t).
Proof. apply KeyspaceCovered_spec. Qed.

(** On a proper subtrie, whose keys it takes from the root, it always returns
    false: also when the keys cover the whole of the subtrie. *)
Lemma KeyspaceCovered_subtrie {D} p (t : trie D) :
  p ≠ [] → wf_at p t → bounded KeyLen t → KeyspaceCovered t = Some false.
Proof.
  intros Hp Hw Hb. destruct t as [|k d|t0 t1]; [done| |].
  { cbn. rewrite bool_decide_eq_false_2; [done|]. intros ->. cbn in Hw. by apply prefix_nil_inv in Hw. }
  cbn [KeyspaceCovered]. unfold KeysIter. rewrite (trieIter_zeroKey p) by done. cbn [mbind option_bind].
  change (fst <$> entries (Node t0 t1)) with (keys (Node t0 t1)).
  assert (∀ k, k ∈ keys (Node t0 t1) → 1 ≤ length p ≤ length k ∧ length k ≤ KeyLen) as Hk.
  { intros k Hin. pose proof (bounded_elem _ _ _ Hb Hin). apply (wf_at_prefix p) in Hin; [|done].
    apply prefix_length in Hin. destruct p; [done|]. cbn in *. lia. }
  destruct (wf_at_nonempty p _ Hw ltac:(done)) as [k0 Hk0]. specialize (Hk k0 Hk0) as Hl.
  eapply (stackLoop_counter KeyLen _ _ 0).
  - exists [], [[false]; [true]], 0. split_and!; [done|by left|constructor|constructor|done].
  - apply Forall_forall. intros k Hin. specialize (Hk k Hin). lia.
  - destruct (weights_le KeyLen p (Node t0 t1) Hw Hb) as [Hle _]; [lia|].
    pose proof (weight_strict KeyLen [] p). cbn [length] in *. lia.
Qed.

Lemma KeyspaceCovered_correct_witness :
  let t := mkTrie [(bitstr "00", 1); (bitstr "01", 2); (bitstr "1", 3)] in
  ∃ b, KeyspaceCovered t = Some b ∧ (b = true ↔ ∀ x, length x = KeyLen → covered x t).
Proof. apply KeyspaceCovered_correct; by_compute. Defined.

(** ** Gaps *)

Section gaps.
Context {D : Type} (n : nat).
Implicit Types (t : trie D) (p k x g target order : key) (G : list key).

(** [G] completes the coverage of [target] by the keys [ks] in the region
    [r]: its prefixes are in [r], overlap neither each other nor a key, and
    with the keys they cover every identifier of [r] and [target]. *)
Definition fills r target (ks : list key) G : Prop :=
  NoDup G ∧ antichain G ∧ Forall (λ g, r ≼ g) G ∧
  (∀ g k, g ∈ G → k ∈ ks → ¬ overlap g k) ∧
  (∀ x, length x = n → r ≼ x → target ≼ x → ∃ q, q ∈ ks ++ G ∧ q ≼ x).

#[export] Instance fills_Permutation r target ks :
  Proper ((≡ₚ) ==> iff) (fills r target ks).
Proof.
  assert (∀ G G', G ≡ₚ G' → fills r target ks G → fills r target ks G') as Hp.
  { intros G G' HG. unfold fills, antichain. rewrite !Forall_forall. setoid_rewrite elem_of_app.
    setoid_rewrite HG. done. }
  intros G G' HG. split; by apply Hp.
Qed.

(** A region without an identifier of [target] needs no gap. *)
Lemma fills_outside r target ks :
  (∀ x, r ≼ x → target ≼ x → False) → fills r target ks [].
Proof.
  intros Hno. split_and!; [constructor| |constructor| |].
  - by intros ? ? ?%not_elem_of_nil.
  - by intros ? ? ?%not_elem_of_nil.
  - intros x _ Hr Ht. by destruct (Hno x).
Qed.

Lemma fills_siblings p s target :
  length (p ++ s) ≤ n → fills p target [p ++ s] (drop (length p) (SiblingPrefixes (p ++ s))).
Proof.
  induction s as [|b s IH] using rev_ind; intros Hl.
  - assert (length p ≤ n) by (rewrite app_nil_r in Hl; done).
    rewrite app_nil_r, drop_ge by (unfold SiblingPrefixes; by rewrite length_fmap, length_seq).
    split_and!; [constructor| |constructor| |]; try by intros ? ? ?%not_elem_of_nil.
    intros x _ Hp _. exists p. split; [by apply list_elem_of_singleton|done].
  - rewrite app_assoc, length_app in Hl. simpl in Hl.
    destruct IH as (Hnd & Hac & Hin & Hov & Hcov); [lia|].
    rewrite app_assoc, SiblingPrefixes_snoc.
    rewrite drop_app_le by (unfold SiblingPrefixes; rewrite length_fmap, length_seq, length_app; lia).
    remember (drop (length p) (SiblingPrefixes (p ++ s))) as G eqn:HG. clear HG.
    remember (p ++ s) as k eqn:Hk. setoid_rewrite list_elem_of_singleton in Hov.
    assert (∀ g c, g ∈ G → ¬ overlap g (k ++ [c])) as Hov'.
    { intros g c Hg Ho. apply (Hov g k Hg eq_refl), overlap_sym.
      eapply overlap_prefix_l, overlap_sym, Ho. by apply prefix_app_r. }
    split_and!.
    + apply NoDup_app. split_and!; [done| |apply NoDup_singleton].
      intros g Hg ->%list_elem_of_singleton. apply (Hov' _ (negb b) Hg), overlap_refl.
    + intros g1 g2. rewrite !elem_of_app, !list_elem_of_singleton.
      intros [H1| ->] [H2| ->] Ho; [by auto| | |done].
      * by destruct (Hov' _ _ H1 Ho).
      * by destruct (Hov' _ _ H2 (overlap_sym _ _ Ho)).
    + apply Forall_app. split; [done|]. apply Forall_singleton. rewrite Hk.
      rewrite <-app_assoc. by apply prefix_app_r.
    + intros g k'. rewrite elem_of_app, !list_elem_of_singleton. intros [Hg| ->] -> Ho; [by eapply Hov'|].
      by apply (prefix_diverge k (k ++ [b]) (k ++ [negb b]) b), overlap_sym.
    + intros x Hx Hp Ht. setoid_rewrite elem_of_app. setoid_rewrite elem_of_app.
      setoid_rewrite list_elem_of_singleton.
      destruct (Hcov x Hx Hp Ht) as (q & Hq & Hqx). apply elem_of_app in Hq as [Hq|Hq]; [|by eauto].
      apply list_elem_of_singleton in Hq as ->.
      destruct (prefix_strict_lookup k x Hqx) as (c & _ & Hc); [lia|].
      destruct (decide (c = b)) as [->|Hne]; [by eauto|].
      assert (c = negb b) as -> by (by destruct b, c). eauto.
Qed.

(** The two branches of a node. *)
Lemma fills_node p target ks0 ks1 G0 G1 :
  length p < n → Forall (λ k, p ++ [false] ≼ k) ks0 → Forall (λ k, p ++ [true] ≼ k) ks1 →
  fills (p ++ [false]) target ks0 G0 → fills (p ++ [true]) target ks1 G1 →
  fills p target (ks0 ++ ks1) (G0 ++ G1).
Proof.
  rewrite !Forall_forall. intros Hn Hk0 Hk1 (N0 & A0 & I0 & O0 & C0) (N1 & A1 & I1 & O1 & C1).
  rewrite Forall_forall in I0, I1.
  assert (∀ a b, p ++ [false] ≼ a → p ++ [true] ≼ b → ¬ overlap a b ∧ ¬ overlap b a) as Hdiv.
  { intros a b Ha Hb. assert (¬ overlap a b) by by apply (prefix_diverge p a b false).
    split; [done|]. by intros ?%overlap_sym. }
  split_and!.
  - apply NoDup_app. split_and!; [done| |done]. intros g H0 H1.
    apply (Hdiv g g); auto with kad.
  - intros g1 g2. rewrite !elem_of_app. intros [H1|H1] [H2|H2] Ho; auto.
    + by destruct (proj1 (Hdiv g1 g2 (I0 _ H1) (I1 _ H2))).
    + by destruct (proj2 (Hdiv g2 g1 (I0 _ H2) (I1 _ H1))).
  - apply Forall_forall. intros g. rewrite elem_of_app. intros [Hg|Hg].
    + etrans; [|by apply I0]. by apply prefix_app_r.
    + etrans; [|by apply I1]. by apply prefix_app_r.
  - intros g k. rewrite !elem_of_app. intros [Hg|Hg] [Hk|Hk]; auto.
    + by apply (Hdiv g k); auto.
    + by apply (Hdiv k g); auto.
  - intros x Hx Hp Ht. setoid_rewrite elem_of_app. setoid_rewrite elem_of_app.
    apply (covered_children p x) in Hp as [Hp|Hp]; [| |lia].
    + destruct (C0 x Hx Hp Ht) as (q & Hq & ?). apply elem_of_app in Hq as [?|?]; eauto 6.
    + destruct (C1 x Hx Hp Ht) as (q & Hq & ?). apply elem_of_app in Hq as [?|?]; eauto 6.
Qed.

Lemma sortBitstrKeysByOrder_Permutation ks order : sortBitstrKeysByOrder ks order ≡ₚ ks.
Proof. apply merge_sort_Permutation. Qed.

(** One branch of a node at path [p]; the result is relative to [p]. *)
Lemma gapsOfBranch_spec sub t p i target order :
  wf_at (p ++ [i]) t → bounded n t →
  (∀ t0 t1, t = Node t0 t1 → ∃ gs, sub = Some gs ∧
    fills (p ++ [i]) target (keys t) (app (p ++ [i]) <$> gs)) →
  ∃ gs, gapsOfBranch sub t i (length p) order = Some gs ∧
    fills (p ++ [i]) target (keys t) (app p <$> gs).
Proof.
  intros Hw Hb Hsub. destruct t as [|k d|t0 t1]; cbn [gapsOfBranch].
  - eexists. split; [done|]. cbn [entries fmap list_fmap app]. split_and!.
    + apply NoDup_singleton.
    + by intros g1 g2 ->%list_elem_of_singleton ->%list_elem_of_singleton.
    + by apply Forall_singleton.
    + by intros g k _ ?%not_elem_of_nil.
    + intros x _ Hp _. exists (p ++ [i]). split; [by apply list_elem_of_singleton|done].
  - simpl in Hw. destruct Hw as [s ->]. inversion_clear Hb as [|?? Hl _]. cbn [fst] in Hl.
    pose proof (fills_siblings (p ++ [i]) s target Hl) as Hf.
    cbn [entries fmap list_fmap fst].
    assert (length (p ++ [i]) = S (length p)) as Hpi by (rewrite length_app; simpl; lia).
    rewrite Hpi in Hf. case_decide as Hd.
    + eexists. split; [done|]. rewrite <-list_fmap_compose.
      rewrite sortBitstrKeysByOrder_Permutation.
      match goal with |- fills _ _ _ (?f <$> ?l) => assert (f <$> l = l) as -> end; [|done].
      rewrite <-list_fmap_id. apply list_fmap_ext. intros j g Hg. simpl.
      destruct Hf as (_ & _ & Hin & _). eapply Forall_lookup_1 in Hin; [|exact Hg].
      destruct Hin as [s' ->]. rewrite <-app_assoc. by rewrite drop_app_length.
    + exists []. split; [done|]. rewrite length_app in Hd.
      assert (s = []) as -> by (destruct s; simpl in *; [done|lia]).
      rewrite drop_ge in Hf; [done|].
      unfold SiblingPrefixes. rewrite app_nil_r, length_fmap, length_seq. lia.
  - destruct (Hsub t0 t1 eq_refl) as (gs & -> & Hf). eexists. split; [done|].
    rewrite <-list_fmap_compose. rewrite (list_fmap_ext (app p ∘ cons i) (app (p ++ [i])) gs); [exact Hf|].
    intros j g _. simpl. by rewrite <-app_assoc.
Qed.

(** A branch that does not contain the target is skipped. *)
Lemma branch_outside p i target x :
  length p < length target → target !! length p ≠ Some i →
  p ++ [i] ≼ x → target ≼ x → False.
Proof.
  intros Hl Hi Hp Ht. apply prefix_snoc in Hp as [_ Hx]. apply Hi.
  destruct Ht as [s ->]. by rewrite lookup_app_l in Hx by done.
Qed.

Lemma trieGapsAtDepth_spec t p target order :
  wf_at p t → bounded n t → length order = n → (∃ t0 t1, t = Node t0 t1) →
  ∃ gs, trieGapsAtDepth t (length p) target order = Some gs ∧
    fills p target (keys t) (app p <$> gs).
Proof.
  revert p. induction t as [|k d|t0 IH0 t1 IH1]; intros p Hw Hb Ho Hn.
  { by destruct Hn as (? & ? & [=]). }
  { by destruct Hn as (? & ? & [=]). }
  assert (Hh := wf_at_height n p _ Hw Hb ltac:(done)). simpl in Hh.
  destruct Hw as (Hw0 & Hw1 & _). apply bounded_node in Hb as [Hb0 Hb1].
  specialize (IH0 (p ++ [false])). specialize (IH1 (p ++ [true])).
  rewrite length_app, Nat.add_1_r in IH0, IH1.
  cbn [trieGapsAtDepth]. cbv zeta. unfold Bit.
  destruct (lookup_lt_is_Some_2 order (length p)) as [b Hbit]; [lia|]. rewrite Hbit.
  cbn [mbind option_bind].
  set (visit (i : bool) := if negb (bool_decide (length target ≤ length p)) &&
      bool_decide (target !! length p ≠ Some i) then Some []
    else if i then gapsOfBranch (trieGapsAtDepth t1 (S (length p)) target order) t1 i (length p) order
    else gapsOfBranch (trieGapsAtDepth t0 (S (length p)) target order) t0 i (length p) order).
  assert (∀ i, ∃ gs, visit i = Some gs ∧
    fills (p ++ [i]) target (keys (pick i t0 t1)) (app p <$> gs)) as Hv.
  { intros i. unfold visit. destruct (negb _ && _) eqn:E.
    - exists []. split; [done|]. apply andb_true_iff in E as [E1 E2].
      apply negb_true_iff, bool_decide_eq_false in E1. apply bool_decide_eq_true in E2.
      apply fills_outside. intros x. by apply branch_outside; [lia|].
    - destruct i; apply gapsOfBranch_spec; try done; eauto. }
  destruct (Hv false) as (g0 & Hg0 & F0). destruct (Hv true) as (g1 & Hg1 & F1).
  assert (fills p target (keys (Node t0 t1)) (app p <$> g0 ++ g1)) as Hf.
  { cbn [entries]. rewrite !fmap_app. apply fills_node; [lia| | |done|done];
      apply Forall_forall; intros k Hk; by eapply wf_at_prefix. }
  change (∃ gs, (l1 ← visit b; l2 ← visit (negb b); Some (l1 ++ l2)) = Some gs ∧
    fills p target (keys (Node t0 t1)) (app p <$> gs)).
  destruct b; cbn [negb]; rewrite Hg0, Hg1; cbn [mbind option_bind]; eexists; (split; [done|]).
  - by rewrite (Permutation_app_comm g1 g0).
  - done.
Qed.
End gaps.

Lemma TrieGaps_spec {D} (t : trie D) target order :
  wf t → bounded (length order) t →
  ∃ gs, TrieGaps t target order = Some gs ∧
    NoDup gs ∧ antichain gs ∧
    (∀ g k, g ∈ gs → k ∈ keys t → ¬ overlap g k) ∧
    (∀ x, length x = length order → target ≼ x → ∃ q, q ∈ keys t ++ gs ∧ q ≼ x).
Proof.
  intros Hw Hb. destruct t as [|k d|t0 t1]; cbn [TrieGaps].
  - exists [target]. split_and!; [done|apply NoDup_singleton| | |].
    + by intros ? ? ->%list_elem_of_singleton ->%list_elem_of_singleton.
    + by intros ? ? _ ?%not_elem_of_nil.
    + intros x _ Hx. exists target. split; [by apply list_elem_of_singleton|done].
  - inversion_clear Hb as [|?? Hl _]. cbn [fst] in Hl. rewrite !IsBitstrPrefix_decide.
    cbn [entries fmap list_fmap fst]. case_bool_decide as Htk; [|case_bool_decide as Hkt].
    + destruct Htk as [s ->]. eexists. split; [done|].
      pose proof (fills_siblings (length order) target s target Hl) as Hf.
      rewrite <-(sortBitstrKeysByOrder_Permutation (drop _ _) order) in Hf.
      destruct Hf as (? & ? & _ & ? & Hcov). auto.
    + exists []. split_and!; [done|constructor| | |]; try by intros ? ? ?%not_elem_of_nil.
      intros x _ Hx. exists k. split; [set_solver|by etrans].
    + exists [target]. split_and!; [done|apply NoDup_singleton| | |].
      * by intros ? ? ->%list_elem_of_singleton ->%list_elem_of_singleton.
      * by intros ? ? ->%list_elem_of_singleton ->%list_elem_of_singleton [?|?].
      * intros x _ Hx. exists target. split; [set_solver|done].
  - destruct (trieGapsAtDepth_spec (length order) (Node t0 t1) [] target order)
      as (gs & Hg & Hnd & Hac & _ & Hov & Hcov); [done|done|done|eauto|].
    rewrite list_fmap_id in *. exists gs. split_and!; auto using prefix_nil.
Qed.

(** The gaps are no longer than the keys of the trie and the target. *)
Lemma SiblingPrefixes_length k g : g ∈ SiblingPrefixes k → length g ≤ length k.
Proof.
  unfold SiblingPrefixes. intros (i & -> & Hi%elem_of_seq)%list_elem_of_fmap.
  rewrite length_FlipLastBit, length_take. lia.
Qed.

Lemma trieGapsAtDepth_length {D} (t : trie D) n p target order gs g :
  wf_at p t → bounded n t → trieGapsAtDepth t (length p) target order = Some gs → g ∈ gs →
  length p + length g ≤ n.
Proof.
  revert p gs g. induction t as [|k d|t0 IH0 t1 IH1]; intros p gs g Hw Hb; cbn [trieGapsAtDepth];
    [by intros [= <-] ?%not_elem_of_nil..|].
  assert (Hh := wf_at_height n p _ Hw Hb ltac:(done)). simpl in Hh.
  destruct Hw as (Hw0 & Hw1 & _).
  assert (bounded n t0 ∧ bounded n t1) as [Hb0 Hb1].
  { unfold bounded in *. cbn [entries] in Hb. rewrite fmap_app in Hb. by apply Forall_app in Hb. }
  assert (∀ (b : trie D) i l, wf_at (p ++ [i]) b → bounded n b →
    (∀ gs g, trieGapsAtDepth b (S (length p)) target order = Some gs → g ∈ gs → S (length p) + length g ≤ n) →
    gapsOfBranch (trieGapsAtDepth b (S (length p)) target order) b i (length p) order = Some l →
    ∀ g, g ∈ l → length p + length g ≤ n) as Hbranch.
  { clear g gs. intros b i l Hwb Hbb Hrec Hg g Hin. destruct b as [|k d|b0 b1]; cbn [gapsOfBranch] in Hg.
    - injection Hg as <-. apply list_elem_of_singleton in Hin as ->. simpl. lia.
    - apply Forall_inv in Hbb. simpl in Hbb. case_decide; injection Hg as <-; [|by apply not_elem_of_nil in Hin].
      apply list_elem_of_fmap in Hin as (x & -> & Hx). unfold sortBitstrKeysByOrder in Hx.
      rewrite merge_sort_Permutation in Hx. apply subseteq_drop, SiblingPrefixes_length in Hx.
      rewrite length_drop. lia.
    - destruct (trieGapsAtDepth _ _ _ _) as [gs|] eqn:E; [|done]. cbn in Hg. injection Hg as <-.
      apply list_elem_of_fmap in Hin as (x & -> & Hx). pose proof (Hrec gs x eq_refl Hx). simpl. lia. }
  assert (∀ i, ∀ gs g, trieGapsAtDepth (pick i t0 t1) (S (length p)) target order = Some gs → g ∈ gs →
    S (length p) + length g ≤ n) as Hrec.
  { intros i gs' g' Hg Hin. replace (S (length p)) with (length (p ++ [i])) in Hg |- * by (rewrite length_app; simpl; lia).
    destruct i; [by eapply IH1|by eapply IH0]. }
  destruct (Bit order (length p)) as [b|]; [|done]. cbn [mbind option_bind].
  set (visit := λ i : bool,
    if negb (bool_decide (length target ≤ length p)) && bool_decide (target !! length p ≠ Some i) then Some []
    else if i then gapsOfBranch (trieGapsAtDepth t1 (S (length p)) target order) t1 i (length p) order
         else gapsOfBranch (trieGapsAtDepth t0 (S (length p)) target order) t0 i (length p) order).
  assert (∀ i l, visit i = Some l → ∀ g, g ∈ l → length p + length g ≤ n) as Hvisit.
  { intros i l. unfold visit. destruct (_ && _); [by intros [= <-] ? ?%not_elem_of_nil|].
    destruct i; intros Hv.
    - exact (Hbranch t1 true l Hw1 Hb1 (Hrec true) Hv).
    - exact (Hbranch t0 false l Hw0 Hb0 (Hrec false) Hv). }
  change (match visit b with Some g1 => match visit (negb b) with Some g2 => Some (g1 ++ g2) | None => None end | None => None end = Some gs → g ∈ gs → length p + length g ≤ n).
  intros Hg Hin. destruct (visit b) as [g1|] eqn:E1; [|done]. 
  destruct (visit (negb b)) as [g2|] eqn:E2; [|done]. injection Hg as <-.
  apply elem_of_app in Hin as [Hin|Hin]; [by eapply (Hvisit b)|by eapply (Hvisit (negb b))].
Qed.

Lemma TrieGaps_length {D} (t : trie D) n target order gs g :
  wf t → bounded n t → length target ≤ n → TrieGaps t target order = Some gs → g ∈ gs → length g ≤ n.
Proof.
  intros Hw Hb Ht. destruct t as [|k d|t0 t1]; cbn [TrieGaps].
  - intros [= <-] ->%list_elem_of_singleton. done.
  - apply Forall_inv in Hb. simpl in Hb. destruct (IsBitstrPrefix target k).
    + intros [= <-] Hg. unfold sortBitstrKeysByOrder in Hg. rewrite merge_sort_Permutation in Hg.
      apply subseteq_drop, SiblingPrefixes_length in Hg. lia.
    + destruct (IsBitstrPrefix k target); intros [= <-]; [by intros ?%not_elem_of_nil|].
      by intros ->%list_elem_of_singleton.
  - apply (trieGapsAtDepth_length (Node t0 t1) n []); done.
Qed.

(** [TrieGaps] does not panic; the prefixes it returns overlap neither each
    other nor a key of the trie, and together with the keys of the trie they
    cover every identifier of [target]. *)
Theorem TrieGaps_correct {D} (t : trie D) target order :
  wf t → bounded (length order) t →
  ∃ gs, TrieGaps t target order = Some gs ∧
    NoDup gs ∧ antichain gs ∧
    (∀ g k, g ∈ gs → k ∈ keys t → ¬ overlap g k) ∧
    (∀ x, length x = length order → target ≼ x → ∃ q, q ∈ keys t ++ gs ∧ q ≼ x).
Proof. exact (TrieGaps_spec t target order). Qed.

(** The gap of {"00", "1"} is "01". *)
Lemma TrieGaps_correct_witness :
  let t := mkTrie [(bitstr "00", 1); (bitstr "1", 3)] in
  ∃ gs, TrieGaps t [] zeroKey = Some gs ∧
    NoDup gs ∧ antichain gs ∧
    (∀ g k, g ∈ gs → k ∈ keys t → ¬ overlap g k) ∧
    (∀ x, length x = length zeroKey → [] ≼ x → ∃ q, q ∈ keys t ++ gs ∧ q ≼ x).
Proof. apply TrieGaps_correct; by_compute. Defined.

(** The gaps are not confined to the target: the leaf "01" is the target, so
    the target is covered, yet its sibling "00" is returned. *)
Theorem TrieGaps_outside_target :
  TrieGaps (mkTrie [(bitstr "01", ()); (bitstr "1", ())]) (bitstr "01") zeroKey
    = Some [bitstr "00"].
Proof. vm_compute. reflexivity. Qed.
