(* ===== verification/Allocate.v ===== *)
(** * Allocation of items to their closest destinations

    Models [AllocateToKClosest] of [provider/internal/keyspace/trie.go]: the
    trie of the items (multihashes to provide) and the trie of the
    destinations (peers) are walked together, and every item is given to its
    [k] closest destinations.  Batches are Go slices shared between
    destinations and never written after they are built, so they are lists.
    [None] is a Go panic. *)

From S2P Require Import Prelude Key Trie TrieImpl.

(** ** Definitions *)

Section definitions.
Context `{TrieLib} {V0 V1 : Type} `{Countable V1}.

(** [map[V1][][]V0] *)
Abbreviation allocation := (gmap V1 (list (list V0))).

(** [result[dest] = append(result[dest], batch)] for every destination. *)
Definition appendBatch (batch : list V0) (result : allocation) (dests : list V1) : allocation :=
  foldl (λ result dest, <[dest := default [] (result !! dest) ++ [batch]]> result) result dests.

(** [matchingItemsBranch] of branch [i], or nothing when the loop continues
    with the next branch. *)
Definition matchingItems (items : trie V0) (i : bool) (depth : nat)
    : option (option (trie V0)) :=
  match items with
  | Empty => Some None
  | Leaf ik _ => b ← Bit ik depth; Some (if eqb b i then Some items else None)
  | Node i0 i1 =>
      Some (if IsEmptyLeaf (pick i i0 i1) then None else Some (pick i i0 i1))
  end.

(** The fallback for an empty batch, [[]V0{items.Data()}]. *)
Definition itemsData (items : trie V0) : option (list V0) :=
  match items with Leaf _ d => Some [d] | _ => None end.

(** The body of the loop of [allocateToKClosestAtDepth] for one branch of an
    inner node: [same] and [other] are the branches of the destinations,
    [recSame] and [recOther] the recursive calls on them. *)
Definition allocateBranch (items : trie V0) (same other : trie V1)
    (recSame recOther : trie V0 → Z → allocation → option allocation)
    (i : bool) (k : Z) (depth : nat) (result : allocation) : option allocation :=
  let sameCount := Z.of_nat (trie_Size same) in
  let otherCount := Z.of_nat (trie_Size other) in
  matching ← matchingItems items i depth;
  match matching with
  | None => Some result
  | Some matchingItemsBranch =>
      if decide (sameCount ≤ k)%Z then
        batch ← AllValues matchingItemsBranch zeroKey;
        batch ← (if decide (length batch = 0) then itemsData items else Some batch);
        sameValues ← AllValues same zeroKey;
        let result := appendBatch batch result sameValues in
        if decide (sameCount = k ∨ otherCount = 0%Z) then Some result
        else
          let nMissingDests := (k - sameCount)%Z in
          if decide (otherCount ≤ nMissingDests)%Z then
            otherValues ← AllValues other zeroKey;
            Some (appendBatch batch result otherValues)
          else recOther matchingItemsBranch nMissingDests result
      else recSame matchingItemsBranch k result
  end.

(** [allocateToKClosestAtDepth] *)
Fixpoint allocateToKClosestAtDepth (items : trie V0) (dests : trie V1) (k : Z)
    (depth : nat) (result : allocation) : option allocation :=
  if decide (k = 0%Z) then Some result
  else
    match dests with
    | Empty => Some result
    | Leaf _ dest =>
        batch ← AllValues items zeroKey;
        batch ← (if bool_decide (length batch = 0) && IsNonEmptyLeaf items
                 then itemsData items else Some batch);
        Some (appendBatch batch result [dest])
    | Node d0 d1 =>
        let rec0 items k := allocateToKClosestAtDepth items d0 k (S depth) in
        let rec1 items k := allocateToKClosestAtDepth items d1 k (S depth) in
        result ← allocateBranch items d0 d1 rec0 rec1 false k depth result;
        allocateBranch items d1 d0 rec1 rec0 true k depth result
    end.

(** [AllocateToKClosest] *)
Definition AllocateToKClosest (items : trie V0) (dests : trie V1) (k : Z)
    : option allocation :=
  if IsEmptyLeaf dests || IsEmptyLeaf items || bool_decide (k = 0%Z) then Some ∅
  else allocateToKClosestAtDepth items dests k 0 ∅.
End definitions.

(** ** What a destination receives *)

Section rank.
Context {V1 : Type}.
Implicit Types (ds : list (key * V1)).

(** How many destinations are strictly closer to [ik] than [dk]. *)
Definition rank ds (ik dk : key) : nat := length (filter (λ d, before ik d.1 dk = true) ds).

(** [dv] is the value of one of the [k] destinations closest to [ik]. *)
Definition amongClosest ds (k : Z) (dv : V1) (ik : key) : Prop :=
  Exists (λ d, d.2 = dv ∧ (Z.of_nat (rank ds ik d.1) < k)%Z) ds.

#[export] Instance amongClosest_dec `{EqDecision V1} ds k dv ik : Decision (amongClosest ds k dv ik).
Proof. unfold amongClosest. apply _. Defined.

Lemma rank_app ds1 ds2 ik dk : rank (ds1 ++ ds2) ik dk = rank ds1 ik dk + rank ds2 ik dk.
Proof. unfold rank. by rewrite filter_app, length_app. Qed.

Lemma rank_bound ds ik d : d ∈ ds → rank ds ik d.1 < length ds.
Proof.
  intros (l1 & l2 & ->)%list_elem_of_split. unfold rank.
  rewrite filter_app, filter_cons_False by (by rewrite before_irrefl).
  rewrite !length_app. simpl.
  pose proof (length_filter (λ d0 : key * V1, before ik d0.1 d.1 = true) l1).
  pose proof (length_filter (λ d0 : key * V1, before ik d0.1 d.1 = true) l2). lia.
Qed.

Lemma amongClosest_Permutation ds ds' k dv ik :
  ds ≡ₚ ds' → amongClosest ds k dv ik ↔ amongClosest ds' k dv ik.
Proof.
  intros Hp. unfold amongClosest. rewrite !Exists_exists.
  assert (∀ dk, rank ds ik dk = rank ds' ik dk) as Hr.
  { intros dk. unfold rank. by rewrite Hp. }
  by setoid_rewrite Hr; setoid_rewrite Hp.
Qed.

(** With at least as many places as destinations, all of them are taken. *)
Lemma amongClosest_all ds k dv ik :
  (Z.of_nat (length ds) ≤ k)%Z → amongClosest ds k dv ik ↔ dv ∈ ds.*2.
Proof.
  intros Hk. unfold amongClosest. rewrite Exists_exists, list_elem_of_fmap. split.
  - intros (d & Hd & <- & _). eauto.
  - intros (d & -> & Hd). exists d. split_and!; [done|done|].
    pose proof (rank_bound ds ik d Hd). lia.
Qed.

Lemma amongClosest_none ds k dv ik : (k ≤ 0)%Z → ¬ amongClosest ds k dv ik.
Proof. intros Hk. unfold amongClosest. rewrite Exists_exists. intros (d & _ & _ & Hr). lia. Qed.

Lemma amongClosest_value ds k dv ik : amongClosest ds k dv ik → dv ∈ ds.*2.
Proof.
  unfold amongClosest. rewrite Exists_exists. intros (d & Hd & <- & _). by apply list_elem_of_fmap_2.
Qed.

(** The destinations on the side of the item come first. *)
Lemma amongClosest_split p i same other k dv ik :
  ik !! length p = Some i →
  (∀ d, d ∈ same → p ++ [i] ≼ d.1) → (∀ d, d ∈ other → p ++ [negb i] ≼ d.1) →
  amongClosest (same ++ other) k dv ik ↔
    amongClosest same k dv ik ∨ amongClosest other (k - Z.of_nat (length same)) dv ik.
Proof.
  intros Hi Hs Ho.
  assert (∀ d, d ∈ same → rank (same ++ other) ik d.1 = rank same ik d.1) as R1.
  { intros d Hd. rewrite rank_app. unfold rank at 2. rewrite list_filter_none; [simpl; lia|].
    intros d' Hd'. rewrite (before_asym ik d.1 d'.1); [done|].
    by apply (before_diverge ik p _ _ i); auto. }
  assert (∀ d, d ∈ other → rank (same ++ other) ik d.1 = length same + rank other ik d.1) as R2.
  { intros d Hd. rewrite rank_app. unfold rank at 1. rewrite list_filter_all; [done|].
    intros d' Hd'. by apply (before_diverge ik p _ _ i); auto. }
  unfold amongClosest. rewrite Exists_app, !Exists_exists. apply Morphisms_Prop.or_iff_morphism.
  - split; intros (d & Hd & He & Hr); exists d; specialize (R1 d Hd); split_and!; try done; lia.
  - split; intros (d & Hd & He & Hr); exists d; specialize (R2 d Hd); split_and!; try done; lia.
Qed.
End rank.

(** ** Correctness *)

Section correct.
Context {TL : TrieLib} {TLW : TrieLaws} {V0 V1 : Type} {EV : EqDecision V1} {CV : Countable V1}.
Implicit Types (items : trie V0) (dests : trie V1) (res : gmap V1 (list (list V0))).

(** All keys are full identifiers. *)
Definition fullKeys {D} (t : trie D) : Prop := Forall (λ k, length k = KeyLen) (keys t).

#[export] Instance fullKeys_dec {D} (t : trie D) : Decision (fullKeys t).
Proof. unfold fullKeys. apply _. Defined.

(** All items of all batches given to [dv]. *)
Definition received res (dv : V1) : list V0 := concat (default [] (res !! dv)).

(** The items that have [dv] among their closest destinations. *)
Definition share (its : list (key * V0)) (ds : list (key * V1)) (k : Z) (dv : V1) : list V0 :=
  (filter (λ e, amongClosest ds k dv e.1) its).*2.

(** [res'] is [res] with the shares of the items [its] added. *)
Definition allocated its (ds : list (key * V1)) k res res' : Prop :=
  ∀ dv, received res' dv ≡ₚ received res dv ++ share its ds k dv.

Lemma fullKeys_bounded {D} (t : trie D) : fullKeys t → bounded KeyLen t.
Proof. intros H. eapply Forall_impl; [exact H|]. intros k ->. lia. Qed.

Lemma fullKeys_node {D} (t0 t1 : trie D) : fullKeys (Node t0 t1) ↔ fullKeys t0 ∧ fullKeys t1.
Proof. unfold fullKeys. simpl. rewrite fmap_app. apply Forall_app. Qed.

Lemma share_app its1 its2 ds k dv : share (its1 ++ its2) ds k dv = share its1 ds k dv ++ share its2 ds k dv.
Proof. unfold share. by rewrite filter_app, fmap_app. Qed.

Lemma share_none its ds k dv : (∀ e, e ∈ its → ¬ amongClosest ds k dv e.1) → share its ds k dv = [].
Proof. intros Hn. unfold share. by rewrite list_filter_none. Qed.

Lemma share_all its ds k dv : (∀ e, e ∈ its → amongClosest ds k dv e.1) → share its ds k dv = its.*2.
Proof. intros Hn. unfold share. by rewrite list_filter_all. Qed.

Lemma share_ext its ds ds' k k' dv :
  (∀ e, e ∈ its → amongClosest ds k dv e.1 ↔ amongClosest ds' k' dv e.1) →
  share its ds k dv = share its ds' k' dv.
Proof. intros He. unfold share. f_equal. by apply list_filter_ext. Qed.

Lemma allocated_refl its ds k res : (k ≤ 0)%Z → allocated its ds k res res.
Proof. intros Hk dv. rewrite share_none, app_nil_r; [done|]. intros. by apply amongClosest_none. Qed.

Lemma received_appendBatch batch res ds dv :
  NoDup ds →
  received (appendBatch batch res ds) dv = received res dv ++ (if decide (dv ∈ ds) then batch else []).
Proof.
  intros Hnd. revert res. induction Hnd as [|d ds Hd Hnd IH]; intros res.
  - cbn. by rewrite app_nil_r.
  - unfold appendBatch in *. cbn [foldl]. rewrite IH. unfold received at 1.
    destruct (decide (d = dv)) as [->|Hne].
    + rewrite lookup_insert_eq. cbn [from_option id]. rewrite concat_app. cbn [concat].
      rewrite decide_False, (decide_True (P := dv ∈ _ :: _)) by (done || set_solver).
      by rewrite !app_nil_r.
    + rewrite lookup_insert_ne by done. f_equal.
      destruct (decide (dv ∈ ds)); [rewrite decide_True by set_solver|rewrite decide_False by set_solver]; done.
Qed.

(** The items whose key has bit [i] at [depth]. *)
Definition side (i : bool) (depth : nat) (its : list (key * V0)) : list (key * V0) :=
  filter (λ e, e.1 !! depth = Some i) its.

Lemma side_split depth its :
  (∀ e, e ∈ its → depth < length e.1) → its ≡ₚ side false depth its ++ side true depth its.
Proof.
  unfold side. induction its as [|e its IH]; intros Hl; [done|].
  destruct (lookup_lt_is_Some_2 e.1 depth) as [b Hb]; [apply Hl; set_solver|].
  rewrite IH at 1 by set_solver. rewrite !filter_cons.
  destruct b; [rewrite decide_False, decide_True by congruence; apply Permutation_middle|].
  by rewrite decide_True, decide_False by congruence.
Qed.

Lemma side_branch q items i b :
  wf_at (q ++ [b]) items →
  side i (length q) (entries items) = if decide (b = i) then entries items else [].
Proof.
  intros Hw.
  assert (∀ e, e ∈ entries items → e.1 !! length q = Some b) as Hb.
  { intros e He. eapply prefix_snoc, wf_at_prefix; [done|]. by apply list_elem_of_fmap_2. }
  unfold side. case_decide as H.
  - subst. by apply list_filter_all.
  - apply list_filter_none. intros e He. rewrite Hb by done. congruence.
Qed.

Lemma matchingItems_spec q items i :
  wf_at q items → fullKeys items → length q < KeyLen →
  ∃ m, matchingItems items i (length q) = Some m ∧
    match m with
    | None => side i (length q) (entries items) = []
    | Some M => wf_at (q ++ [i]) M ∧ fullKeys M ∧ M ≠ Empty ∧
        entries M = side i (length q) (entries items)
    end.
Proof.
  intros Hw Hf Hq. destruct items as [|ik d|i0 i1]; cbn [matchingItems].
  - by eexists.
  - inversion_clear Hf as [|?? Hk _]. cbn [fst] in Hk.
    destruct (prefix_strict_lookup q ik Hw) as (b & Hb & Hp); [lia|].
    unfold Bit. rewrite Hb. cbn [mbind option_bind]. eexists. split; [done|].
    rewrite (side_branch q (Leaf ik d) i b Hp). destruct (eqb_spec b i) as [->|Hne].
    + rewrite decide_True by done. split_and!; [done| |done|done]. by apply Forall_singleton.
    + by rewrite decide_False.
  - destruct Hw as (H0 & H1 & _). apply fullKeys_node in Hf as [F0 F1]. eexists. split; [done|].
    assert (side i (length q) (entries (Node i0 i1)) = entries (pick i i0 i1)) as Hs.
    { cbn [entries]. unfold side. rewrite filter_app.
      change (side i (length q) (entries i0) ++ side i (length q) (entries i1) = entries (pick i i0 i1)).
      rewrite (side_branch q i0 i false H0), (side_branch q i1 i true H1).
      by destruct i; simpl; rewrite ?app_nil_r. }
    rewrite Hs. destruct (IsEmptyLeaf _) eqn:E.
    + by apply IsEmptyLeaf_true in E as ->.
    + apply IsEmptyLeaf_false in E. by destruct i.
Qed.

(** A batch given to all destinations of [ds]. *)
Lemma allocated_all (its : list (key * V0)) (ds : list (key * V1)) k res :
  NoDup ds.*2 → (Z.of_nat (length ds) ≤ k)%Z →
  allocated its ds k res (appendBatch its.*2 res ds.*2).
Proof.
  intros Hnd Hk dv. rewrite received_appendBatch by done. apply Permutation_app_head.
  case_decide as Hd.
  - rewrite share_all; [done|]. intros. by apply amongClosest_all.
  - rewrite share_none; [done|]. intros e _ Ha. by apply amongClosest_value in Ha.
Qed.

(** First the destinations on the side of the items, then the others. *)
Lemma allocated_split p i its same other k res res1 res2 :
  (∀ e, e ∈ its → e.1 !! length p = Some i) →
  (∀ d, d ∈ same → p ++ [i] ≼ d.1) → (∀ d, d ∈ other → p ++ [negb i] ≼ d.1) →
  NoDup (same.*2 ++ other.*2) →
  allocated its same k res res1 →
  allocated its other (k - Z.of_nat (length same)) res1 res2 →
  allocated its (same ++ other) k res res2.
Proof.
  intros Hi Hs Ho Hnd H1 H2 dv. rewrite (H2 dv), (H1 dv), <-app_assoc. apply Permutation_app_head.
  apply NoDup_app in Hnd as (_ & Hdis & _).
  assert (∀ e, e ∈ its → amongClosest (same ++ other) k dv e.1 ↔ amongClosest same k dv e.1 ∨
    amongClosest other (k - Z.of_nat (length same)) dv e.1) as Hac.
  { intros e He. by apply (amongClosest_split p i); auto. }
  destruct (decide (dv ∈ same.*2)) as [Hd|Hd].
  - rewrite (share_none _ other).
    + rewrite app_nil_r. erewrite share_ext; [done|]. intros e He. rewrite Hac by done.
      split; [by left|]. intros [?|Ha]; [done|]. by apply amongClosest_value, Hdis in Ha.
    + intros e _ Ha. by apply amongClosest_value, Hdis in Ha.
  - rewrite (share_none _ same).
    + rewrite app_nil_l. erewrite share_ext; [done|]. intros e He. rewrite Hac by done.
      split; [by right|]. intros [Ha|?]; [|done]. by apply amongClosest_value in Ha.
    + intros e _ Ha. by apply amongClosest_value in Ha.
Qed.

Lemma allocateBranch_spec p q items same other recSame recOther i k res :
  length p = length q → length q < KeyLen →
  wf_at q items → fullKeys items →
  wf_at (p ++ [i]) same → fullKeys same → wf_at (p ++ [negb i]) other → fullKeys other →
  NoDup ((entries same).*2 ++ (entries other).*2) → (0 ≤ k)%Z →
  (∀ M k res, wf_at (q ++ [i]) M → fullKeys M → (0 ≤ k)%Z →
    ∃ res', recSame M k res = Some res' ∧ allocated (entries M) (entries same) k res res') →
  (∀ M k res, wf_at (q ++ [i]) M → fullKeys M → (0 ≤ k)%Z →
    ∃ res', recOther M k res = Some res' ∧ allocated (entries M) (entries other) k res res') →
  ∃ res', allocateBranch items same other recSame recOther i k (length q) res = Some res' ∧
    allocated (side i (length q) (entries items)) (entries same ++ entries other) k res res'.
Proof.
  intros Hpq Hq Hwi Hfi Hws Hfs Hwo Hfo Hnd Hk HrecS HrecO. unfold allocateBranch.
  destruct (matchingItems_spec q items i) as (m & -> & Hm); [done..|]. cbn [mbind option_bind].
  destruct m as [M|]; last first.
  { exists res. split; [done|]. intros dv. rewrite Hm. unfold share. simpl. by rewrite app_nil_r. }
  destruct Hm as (HwM & HfM & HneM & HeM). rewrite <-HeM.
  assert (Hsplit : ∀ res1 res2, allocated (entries M) (entries same) k res res1 →
    allocated (entries M) (entries other) (k - Z.of_nat (length (entries same))) res1 res2 →
    allocated (entries M) (entries same ++ entries other) k res res2).
  { intros res1 res2. apply (allocated_split p i); [| | |done].
    - intros e He. rewrite HeM in He. apply list_elem_of_filter in He as [? _]. by rewrite Hpq.
    - intros d Hd. eapply wf_at_prefix; [done|]. by apply list_elem_of_fmap_2.
    - intros d Hd. eapply wf_at_prefix; [done|]. by apply list_elem_of_fmap_2. }
  apply NoDup_app in Hnd as (Hns & _ & Hno).
  rewrite !Size_spec. case_decide as Hsk; last first.
  { destruct (HrecS M k res) as (res' & -> & Hall); [done..|]. exists res'. split; [done|].
    eapply Hsplit; [exact Hall|]. apply allocated_refl. lia. }
  rewrite (AllValues_zeroKey (q ++ [i]) M) by (done || by apply fullKeys_bounded). cbn [mbind option_bind].
  rewrite decide_False; last first.
  { destruct (wf_at_nonempty _ _ HwM HneM) as [x Hx]. rewrite length_fmap.
    apply list_elem_of_fmap in Hx as (e & _ & He). by destruct (entries M); [apply not_elem_of_nil in He|]. }
  cbn [mbind option_bind].
  rewrite (AllValues_zeroKey (p ++ [i]) same) by (done || by apply fullKeys_bounded). cbn [mbind option_bind].
  pose proof (allocated_all (entries M) (entries same) k res Hns Hsk) as Hall.
  case_decide as Hdone.
  { eexists. split; [done|]. eapply Hsplit; [exact Hall|]. destruct Hdone as [Hd|Hd].
    - apply allocated_refl. lia.
    - intros dv. destruct (entries other); [|simpl in Hd; lia]. rewrite share_none, app_nil_r; [done|].
      intros e _ [? []]%amongClosest_value%list_elem_of_fmap. set_solver. }
  case_decide as Hom.
  - rewrite (AllValues_zeroKey (p ++ [negb i]) other) by (done || by apply fullKeys_bounded).
    eexists. split; [done|]. eapply Hsplit; [exact Hall|]. by apply allocated_all.
  - destruct (HrecO M (k - Z.of_nat (length (entries same)))%Z
      (appendBatch (entries M).*2 res (entries same).*2)) as (res' & Hr & Ha); [done|done|lia|].
    exists res'. split; [exact Hr|]. by eapply Hsplit.
Qed.

Lemma allocateToKClosestAtDepth_spec p q items dests k res :
  length p = length q → wf_at q items → fullKeys items → wf_at p dests → fullKeys dests →
  NoDup (entries dests).*2 → (0 ≤ k)%Z →
  ∃ res', allocateToKClosestAtDepth items dests k (length q) res = Some res' ∧
    allocated (entries items) (entries dests) k res res'.
Proof.
  revert p q items k res. induction dests as [|dk dest|d0 IH0 d1 IH1];
    intros p q items k res Hpq Hwi Hfi Hwd Hfd Hnd Hk; cbn [allocateToKClosestAtDepth].
  1,2,3: case_decide as H0; [exists res; split; [done|]; apply allocated_refl; lia|].
  - exists res. split; [done|]. intros dv. rewrite share_none, app_nil_r; [done|].
    intros e _ Ha%amongClosest_value. by apply not_elem_of_nil in Ha.
  - rewrite (AllValues_zeroKey q items) by (done || by apply fullKeys_bounded). cbn [mbind option_bind].
    assert ((if bool_decide (length (entries items).*2 = 0) && IsNonEmptyLeaf items
      then itemsData items else Some (entries items).*2) = Some (entries items).*2) as ->.
    { destruct items as [|ik d|]; [done|done|]. by rewrite andb_false_r. }
    eexists. split; [done|]. apply (allocated_all (entries items) [(dk, dest)]); [done|simpl; lia].
  - assert (Hh := wf_at_height KeyLen p _ Hwd (fullKeys_bounded _ Hfd) ltac:(done)). simpl in Hh.
    destruct Hwd as (Hw0 & Hw1 & _). apply fullKeys_node in Hfd as [Hf0 Hf1].
    cbn [entries] in Hnd. rewrite fmap_app in Hnd.
    pose proof Hnd as (Hn0 & _ & Hn1)%NoDup_app.
    assert (∀ b M k res, wf_at (q ++ [b]) M → fullKeys M → (0 ≤ k)%Z → ∃ res',
      allocateToKClosestAtDepth M d0 k (S (length q)) res = Some res' ∧
      allocated (entries M) (entries d0) k res res') as R0.
    { intros b M k' res' ? ? ?. replace (S (length q)) with (length (q ++ [b])) by (rewrite length_app; simpl; lia).
      apply (IH0 (p ++ [false])); rewrite ?length_app; auto. }
    assert (∀ b M k res, wf_at (q ++ [b]) M → fullKeys M → (0 ≤ k)%Z → ∃ res',
      allocateToKClosestAtDepth M d1 k (S (length q)) res = Some res' ∧
      allocated (entries M) (entries d1) k res res') as R1.
    { intros b M k' res' ? ? ?. replace (S (length q)) with (length (q ++ [b])) by (rewrite length_app; simpl; lia).
      apply (IH1 (p ++ [true])); rewrite ?length_app; auto. }
    destruct (allocateBranch_spec p q items d0 d1
      (λ items k, allocateToKClosestAtDepth items d0 k (S (length q)))
      (λ items k, allocateToKClosestAtDepth items d1 k (S (length q))) false k res)
      as (res1 & -> & A0); [done|lia|done|done|done|done|done|done|done|done|apply R0|apply R1|].
    cbn [mbind option_bind].
    destruct (allocateBranch_spec p q items d1 d0
      (λ items k, allocateToKClosestAtDepth items d1 k (S (length q)))
      (λ items k, allocateToKClosestAtDepth items d0 k (S (length q))) true k res1)
      as (res2 & -> & A1);
      [done|lia|done|done|done|done|done|done|by rewrite (Permutation_app_comm (entries d1).*2)|done|apply R1|apply R0|].
    exists res2. split; [done|]. intros dv. rewrite (A1 dv), (A0 dv), <-app_assoc.
    apply Permutation_app_head. cbn [entries].
    rewrite (share_ext _ (entries d1 ++ entries d0) (entries d0 ++ entries d1) k k dv), <-share_app.
    2: { intros e _. apply amongClosest_Permutation, Permutation_app_comm. }
    unfold share. rewrite <-(side_split (length q) (entries items)); [done|].
    intros e He. eapply Forall_forall in Hfi; [|by apply list_elem_of_fmap_2]. simpl in Hfi. lia.
Qed.

(** The allocation does not panic on destinations at a deeper path either. *)
Lemma allocateBranch_total p q items same other recSame recOther i k res :
  length q < KeyLen → wf_at q items → fullKeys items →
  wf_at (p ++ [i]) same → fullKeys same → wf_at (p ++ [negb i]) other → fullKeys other →
  (∀ M k res, wf_at (q ++ [i]) M → fullKeys M → is_Some (recSame M k res)) →
  (∀ M k res, wf_at (q ++ [i]) M → fullKeys M → is_Some (recOther M k res)) →
  is_Some (allocateBranch items same other recSame recOther i k (length q) res).
Proof.
  intros Hq Hwi Hfi Hws Hfs Hwo Hfo HrecS HrecO. unfold allocateBranch.
  destruct (matchingItems_spec q items i) as (m & -> & Hm); [done..|]. cbn [mbind option_bind].
  destruct m as [M|]; [|done]. destruct Hm as (HwM & HfM & HneM & _).
  case_decide; [|by apply HrecS].
  rewrite (AllValues_zeroKey (q ++ [i]) M) by (done || by apply fullKeys_bounded). cbn [mbind option_bind].
  rewrite decide_False; last first.
  { destruct (wf_at_nonempty _ _ HwM HneM) as [x Hx]. rewrite length_fmap.
    apply list_elem_of_fmap in Hx as (e & _ & He). by destruct (entries M); [apply not_elem_of_nil in He|]. }
  cbn [mbind option_bind].
  rewrite (AllValues_zeroKey (p ++ [i]) same) by (done || by apply fullKeys_bounded). cbn [mbind option_bind].
  case_decide; [done|]. case_decide; [|by apply HrecO].
  by rewrite (AllValues_zeroKey (p ++ [negb i]) other) by (done || by apply fullKeys_bounded).
Qed.

Lemma allocateToKClosestAtDepth_total p q items dests k res :
  length q ≤ length p → wf_at q items → fullKeys items → wf_at p dests → fullKeys dests →
  is_Some (allocateToKClosestAtDepth items dests k (length q) res).
Proof.
  revert p q items k res. induction dests as [|dk dest|d0 IH0 d1 IH1];
    intros p q items k res Hpq Hwi Hfi Hwd Hfd; cbn [allocateToKClosestAtDepth]; (case_decide; [done|]).
  - done.
  - rewrite (AllValues_zeroKey q items) by (done || by apply fullKeys_bounded). cbn [mbind option_bind].
    destruct items as [|ik d|]; [done|done|]. by rewrite andb_false_r.
  - assert (Hh := wf_at_height KeyLen p _ Hwd (fullKeys_bounded _ Hfd) ltac:(done)). simpl in Hh.
    destruct Hwd as (Hw0 & Hw1 & _). apply fullKeys_node in Hfd as [Hf0 Hf1].
    assert (∀ b M k res, wf_at (q ++ [b]) M → fullKeys M →
      is_Some (allocateToKClosestAtDepth M d0 k (S (length q)) res)) as R0.
    { intros b M k' res' ? ?. replace (S (length q)) with (length (q ++ [b])) by (rewrite length_app; simpl; lia).
      apply (IH0 (p ++ [false])); rewrite ?length_app; simpl; auto; lia. }
    assert (∀ b M k res, wf_at (q ++ [b]) M → fullKeys M →
      is_Some (allocateToKClosestAtDepth M d1 k (S (length q)) res)) as R1.
    { intros b M k' res' ? ?. replace (S (length q)) with (length (q ++ [b])) by (rewrite length_app; simpl; lia).
      apply (IH1 (p ++ [true])); rewrite ?length_app; simpl; auto; lia. }
    destruct (allocateBranch_total p q items d0 d1
      (λ items k, allocateToKClosestAtDepth items d0 k (S (length q)))
      (λ items k, allocateToKClosestAtDepth items d1 k (S (length q))) false k res)
      as [res1 ->]; [lia|done|done|done|done|done|done|apply R0|apply R1|].
    cbn [mbind option_bind]. apply (allocateBranch_total p); [lia|done|done|done|done|done|done|apply R1|apply R0].
Qed.

Lemma AllocateToKClosest_total p items dests k :
  wf items → fullKeys items → wf_at p dests → fullKeys dests →
  is_Some (AllocateToKClosest items dests k).
Proof.
  intros Hwi Hfi Hwd Hfd. unfold AllocateToKClosest. destruct (_ || _); [done|].
  apply (allocateToKClosestAtDepth_total p []); [simpl; lia|done..].
Qed.

Lemma AllocateToKClosest_spec items dests k :
  wf items → fullKeys items → wf dests → fullKeys dests →
  NoDup (entries dests).*2 → (0 ≤ k)%Z →
  ∃ res, AllocateToKClosest items dests k = Some res ∧
    ∀ dv, concat (default [] (res !! dv)) ≡ₚ
      (filter (λ e, amongClosest (entries dests) k dv e.1) (entries items)).*2.
Proof.
  intros Hwi Hfi Hwd Hfd Hnd Hk. unfold AllocateToKClosest.
  destruct (IsEmptyLeaf dests || IsEmptyLeaf items || bool_decide (k = 0%Z)) eqn:E.
  - exists ∅. split; [done|]. intros dv. rewrite lookup_empty. simpl.
    change ([] ≡ₚ share (entries items) (entries dests) k dv).
    apply orb_true_iff in E as [[E|E]%orb_true_iff|E%bool_decide_eq_true].
    + apply IsEmptyLeaf_true in E as ->. rewrite share_none; [done|].
      intros e _ Ha%amongClosest_value. by apply not_elem_of_nil in Ha.
    + by apply IsEmptyLeaf_true in E as ->.
    + rewrite share_none; [done|]. intros. apply amongClosest_none. lia.
  - destruct (allocateToKClosestAtDepth_spec [] [] items dests k ∅) as (res & Hr & Ha); [done..|].
    exists res. split; [done|]. intros dv. specialize (Ha dv).
    unfold received at 2 in Ha. by rewrite lookup_empty in Ha.
Qed.

(** C11: [AllocateToKClosest] does not panic, and gives every destination
    exactly the items that have it among their [k] closest destinations by
    XOR distance, each of them once; other values receive nothing. *)
Theorem AllocateToKClosest_correct items dests k :
  wf items → fullKeys items → wf dests → fullKeys dests →
  NoDup (entries dests).*2 → (0 ≤ k)%Z →
  ∃ res, AllocateToKClosest items dests k = Some res ∧
    ∀ dv, concat (default [] (res !! dv)) ≡ₚ
      (filter (λ e, amongClosest (entries dests) k dv e.1) (entries items)).*2.
Proof. exact (AllocateToKClosest_spec items dests k). Qed.
End correct.

(** Two items, three peers, replication 2: the item 00.. goes to the peers
    00.. and 01.., the item 11.. to the peers 10.. and then 01.. *)
Lemma AllocateToKClosest_correct_witness :
  let items := mkTrie [(idOf "001", 1); (idOf "110", 2)] in
  let dests := mkTrie [(idOf "000", 10); (idOf "010", 11); (idOf "100", 12)] in
  ∃ res, AllocateToKClosest items dests 2 = Some res ∧
    ∀ dv, concat (default [] (res !! dv)) ≡ₚ
      (filter (λ e, amongClosest (entries dests) 2 dv e.1) (entries items)).*2.
Proof. apply AllocateToKClosest_correct; by_compute. Defined.
