(* ===== verification/Regions.v ===== *)
(** * Keyspace regions

    Models [Region], [RegionsFromPeers], [extractMinimalRegions] and
    [AssignKeysToRegions] of [provider/internal/keyspace/trie.go].  The hash
    functions behind [PeerIDToBit256] and [MhToBit256] are not part of the
    repository: the two conversions are parameters. *)

From S2P Require Import Prelude Key Trie TrieImpl.

(** ** Definitions *)

(** [Region]; [Keys] is a nil pointer until [AssignKeysToRegions]. *)
Record Region (peerID mh : Type) := mkRegion {
  Prefix : key;
  Peers : trie peerID;
  Keys : option (trie mh);
}.
Arguments mkRegion {peerID mh}.
Arguments Prefix {peerID mh}.
Arguments Peers {peerID mh}.
Arguments Keys {peerID mh}.

Section definitions.
Context `{TrieLib} {peerID mh : Type} (PeerIDToBit256 : peerID → key) (MhToBit256 : mh → key).

(** [extractMinimalRegions] *)
Fixpoint extractMinimalRegions (t : trie peerID) (path : key) (size : Z) (order : key)
    : option (list (Region peerID mh)) :=
  match t with
  | Empty => Some []
  | Leaf _ _ => Some [mkRegion path t None]
  | Node branch0 branch1 =>
      if decide (size ≤ Z.of_nat (trie_Size branch0) ∧ size ≤ Z.of_nat (trie_Size branch1))%Z then
        b ← Bit order (length path);
        r0 ← extractMinimalRegions (pick b branch0 branch1) (path ++ [b]) size order;
        r1 ← extractMinimalRegions (pick b branch1 branch0) (path ++ [negb b]) size order;
        Some (r0 ++ r1)
      else Some [mkRegion path t None]
  end.

(** The loop of [RegionsFromPeers] that walks down to the subtrie at the
    common prefix; [None] when it returns without regions. *)
Fixpoint navigate (subtrie : trie peerID) (commonPrefix : key) {struct commonPrefix}
    : option (trie peerID) :=
  match commonPrefix with
  | [] => Some subtrie
  | b :: commonPrefix =>
      match subtrie with
      | Node t0 t1 =>
          if IsEmptyLeaf (pick b t0 t1) then None else navigate (pick b t0 t1) commonPrefix
      | _ => Some subtrie
      end
  end.

(** [RegionsFromPeers]: the regions and the prefix common to all peers. *)
Definition RegionsFromPeers (peers : list peerID) (regionSize : Z) (order : key)
    : option (list (Region peerID mh) * key) :=
  match peers with
  | [] => Some ([], [])
  | p0 :: _ =>
      let firstPeerKey := PeerIDToBit256 p0 in
      let peerEntries := (λ p, (PeerIDToBit256 p, p)) <$> peers in
      let minCpl := foldl (λ m p, Nat.min m (CommonPrefixLength firstPeerKey (PeerIDToBit256 p)))
                      KeyLen peers in
      let peersTrie := trie_AddMany Empty peerEntries in
      let commonPrefix := take minCpl firstPeerKey in
      match navigate peersTrie commonPrefix with
      | None => Some ([], commonPrefix)
      | Some subtrie =>
          regions ← extractMinimalRegions subtrie commonPrefix regionSize order;
          Some (regions, commonPrefix)
      end
  end.

(** One iteration of the loop over the keys of [AssignKeysToRegions]. *)
Definition assignKey (regions : list (Region peerID mh))
    (m : gmap key (list (key * mh))) (k : mh) : gmap key (list (key * mh)) :=
  let h := MhToBit256 k in
  match list_find (λ r, IsPrefix (Prefix r) h = true) regions with
  | Some (_, r) => <[Prefix r := default [] (m !! Prefix r) ++ [(h, k)]]> m
  | None => m
  end.

(** [AssignKeysToRegions] *)
Definition AssignKeysToRegions (regions : list (Region peerID mh)) (ks : list mh)
    : list (Region peerID mh) :=
  let keyEntriesByRegion := foldl (assignKey regions) ∅ ks in
  (λ r, mkRegion (Prefix r) (Peers r)
          (Some (trie_AddMany Empty (default [] (keyEntriesByRegion !! Prefix r))))) <$> regions.
End definitions.

(** ** Minimal regions *)

Section regions.
Context {TL : TrieLib} {TLW : TrieLaws} {peerID mh : Type}.
Implicit Types (t : trie peerID) (p order : key) (r : Region peerID mh).

(** A region at its prefix: non-empty, and impossible to split into two
    regions of the given size. *)
Definition regionOk (size : Z) r : Prop :=
  wf_at (Prefix r) (Peers r) ∧ Peers r ≠ Empty ∧ Keys r = None ∧
  match Peers r with
  | Node t0 t1 => (Z.of_nat (length (entries t0)) < size ∨ Z.of_nat (length (entries t1)) < size)%Z
  | _ => True
  end.

(** The regions [rs] of the subtrie [t] at path [p]. *)
Definition regionsOf size order p t (rs : list (Region peerID mh)) : Prop :=
  Forall (regionOk size) rs ∧ Forall (λ r, p ≼ Prefix r) rs ∧
  StronglySorted (λ r1 r2, before order (Prefix r1) (Prefix r2) = true) rs ∧
  concat ((λ r, entries (Peers r)) <$> rs) ≡ₚ entries t ∧
  ((size ≤ Z.of_nat (length (entries t)))%Z →
    Forall (λ r, size ≤ Z.of_nat (length (entries (Peers r))))%Z rs).

Lemma regionsOf_single size order p t :
  wf_at p t → t ≠ Empty → regionOk size (mkRegion p t None) →
  regionsOf size order p t [mkRegion p t None].
Proof.
  intros Hw Hne Hok. split_and!.
  - by apply Forall_singleton.
  - by apply Forall_singleton.
  - repeat constructor.
  - simpl. by rewrite app_nil_r.
  - intros Hs. by apply Forall_singleton.
Qed.

Lemma regionsOf_node size order p b t0 t1 rs0 rs1 :
  order !! length p = Some b →
  (size ≤ Z.of_nat (length (entries t0)))%Z → (size ≤ Z.of_nat (length (entries t1)))%Z →
  regionsOf size order (p ++ [b]) t0 rs0 → regionsOf size order (p ++ [negb b]) t1 rs1 →
  regionsOf size order p (pick b (Node t0 t1) (Node t1 t0)) (rs0 ++ rs1).
Proof.
  intros Hb Hs0 Hs1 (O0 & P0 & S0 & C0 & Z0) (O1 & P1 & S1 & C1 & Z1).
  rewrite Forall_forall in P0, P1. split_and!.
  - by apply Forall_app.
  - apply Forall_app. rewrite !Forall_forall. split; intros r Hr;
      (etrans; [by apply (prefix_app_r p p)|]); auto.
  - apply StronglySorted_app_2; [|done|done]. intros r0 r1 H0 H1.
    apply (before_diverge order p _ _ b); auto.
  - rewrite fmap_app, concat_app, C0, C1.
    destruct b; simpl; [apply Permutation_app_comm|done].
  - intros _. apply Forall_app. auto.
Qed.

Lemma extractMinimalRegions_spec size order p t :
  wf_at p t → bounded (length order) t →
  ∃ rs, extractMinimalRegions t p size order = Some rs ∧ regionsOf size order p t rs.
Proof.
  revert p. induction t as [|k d|t0 IH0 t1 IH1]; intros p Hw Hb; cbn [extractMinimalRegions].
  - exists []. split; [done|]. split_and!; try done; constructor.
  - eexists. split; [done|]. apply regionsOf_single; [done|done|]. by split_and!.
  - rewrite !Size_spec. case_decide as Hs.
    + pose proof (node_bounds order p t0 t1 Hw Hb) as ([b Hbit] & _).
      destruct Hw as (Hw0 & Hw1 & _). unfold bounded in Hb. simpl in Hb.
      rewrite fmap_app in Hb. apply Forall_app in Hb as [Hb0 Hb1].
      destruct (IH0 (p ++ [false])) as (r0 & E0 & R0); [done..|].
      destruct (IH1 (p ++ [true])) as (r1 & E1 & R1); [done..|].
      unfold Bit. rewrite Hbit. cbn [mbind option_bind].
      destruct b; cbn [negb]; rewrite E0, E1; cbn [mbind option_bind]; eexists; (split; [done|]).
      * apply (regionsOf_node size order p true t1 t0); tauto.
      * apply (regionsOf_node size order p false t0 t1); tauto.
    + eexists. split; [done|]. apply regionsOf_single; [done|done|].
      split_and!; [done|done|done|]. simpl. lia.
Qed.
End regions.

(** ** Regions of a swarm *)

Section swarm.
Context {TL : TrieLib} {TLW : TrieLaws} {peerID mh : Type} (PeerIDToBit256 : peerID → key).
Hypothesis PeerIDToBit256_length : ∀ p, length (PeerIDToBit256 p) = KeyLen.
Implicit Types (t : trie peerID) (p c k order : key) (r : Region peerID mh).

Lemma foldl_min {A} (f : A → nat) m l n :
  n ≤ foldl (λ m x, Nat.min m (f x)) m l ↔ n ≤ m ∧ ∀ x, x ∈ l → n ≤ f x.
Proof.
  revert m. induction l as [|a l IH]; intros m; simpl.
  - split; [|tauto]. intros Hn. split; [done|]. by intros ? ?%not_elem_of_nil.
  - rewrite IH. setoid_rewrite elem_of_cons. split.
    + intros [Hm Hl]. split; [lia|]. intros x [->|Hx]; [lia|auto].
    + intros [Hm Hl]. split; [|auto]. pose proof (Hl a (or_introl eq_refl)). lia.
Qed.

(** The computed prefix is the longest one common to all peers. *)
Lemma commonPrefix_spec (p0 : peerID) peers c :
  p0 ∈ peers →
  c ≼ take (foldl (λ m (p : peerID), Nat.min m (CommonPrefixLength (PeerIDToBit256 p0) (PeerIDToBit256 p)))
        KeyLen peers) (PeerIDToBit256 p0) ↔
    ∀ q, q ∈ peers → c ≼ PeerIDToBit256 q.
Proof.
  intros Hp0. set (n := foldl _ _ _). assert (∀ m, m ≤ n ↔ _) as Hn by apply foldl_min.
  assert (n ≤ KeyLen) as Hle by (by apply Hn). split.
  - intros Hc q Hq. etrans; [exact Hc|].
    assert (n ≤ CommonPrefixLength (PeerIDToBit256 p0) (PeerIDToBit256 q)) as Hnq by (by apply Hn).
    apply CommonPrefixLength_spec in Hnq; [done|]. by rewrite PeerIDToBit256_length.
  - intros Hc. apply prefix_take_eq. assert (length c ≤ n) as Hl.
    { apply Hn. split.
      - rewrite <-(PeerIDToBit256_length p0). by apply prefix_length, Hc.
      - intros q Hq. pose proof (Hc p0 Hp0) as [L0 E0]%prefix_take_eq.
        apply CommonPrefixLength_spec; [done|]. rewrite <-E0. by apply Hc. }
    rewrite length_take, PeerIDToBit256_length, take_take. split; [lia|].
    rewrite Nat.min_l by lia. by apply prefix_take_eq, Hc.
Qed.

Lemma navigate_spec t p bits :
  wf_at p t → t ≠ Empty → (∀ k, k ∈ keys t → p ++ bits ≼ k) →
  ∃ s, navigate t bits = Some s ∧ wf_at (p ++ bits) s ∧ s ≠ Empty ∧ entries s = entries t.
Proof.
  revert t p. induction bits as [|b bits IH]; intros t p Hw Hne Hk.
  { exists t. rewrite app_nil_r. by split_and!. }
  destruct t as [|k d|t0 t1]; [done| |].
  { exists (Leaf k d). split_and!; [done| |done|done]. apply Hk. by apply list_elem_of_singleton. }
  destruct Hw as (Hw0 & Hw1 & Hne'). cbn [navigate].
  assert (∀ s : trie peerID, wf_at (p ++ [negb b]) s → (∀ k, k ∈ keys s → p ++ b :: bits ≼ k) → s = Empty) as Hoff.
  { intros s Hs Hks. destruct (decide (s = Empty)) as [|Hs']; [done|].
    destruct (wf_at_nonempty _ _ Hs Hs') as [k Hin]. exfalso.
    apply (prefix_diverge p k k b); [|by eapply wf_at_prefix|apply overlap_refl].
    etrans; [|by apply Hks]. rewrite (app_assoc p [b] bits : p ++ b :: bits = _). by apply prefix_app_r. }
  simpl in Hk. setoid_rewrite fmap_app in Hk. setoid_rewrite elem_of_app in Hk.
  assert (pick b t1 t0 = Empty) as He by (destruct b; auto).
  assert (pick b t0 t1 ≠ Empty) as Hne2 by (destruct b; intros ->; tauto).
  rewrite (proj2 (IsEmptyLeaf_false _)) by done.
  destruct (IH (pick b t0 t1) (p ++ [b])) as (s & -> & Hs & Hsn & Hse).
  - by destruct b.
  - done.
  - intros k Hin. rewrite <-app_assoc. apply Hk. by destruct b; auto.
  - exists s. rewrite <-app_assoc in Hs. split_and!; [done|done|done|].
    rewrite Hse. destruct b; simpl in *; subst; simpl; by rewrite ?app_nil_r.
Qed.

(** The regions of a trie partition its entries by prefix. *)
Lemma regionsOf_partition size order p t rs r e :
  regionsOf size order p t rs → r ∈ rs →
  e ∈ entries (Peers r) ↔ e ∈ entries t ∧ Prefix r ≼ e.1.
Proof.
  intros (Hok & _ & Hs & Hc & _) Hr. rewrite Forall_forall in Hok.
  assert (∀ r e, r ∈ rs → e ∈ entries (Peers r) → Prefix r ≼ e.1) as Hpre.
  { intros r' e' Hr' He'. destruct (Hok r' Hr') as (Hw & _).
    eapply wf_at_prefix; [done|]. by apply list_elem_of_fmap_2. }
  assert (∀ e, e ∈ entries t ↔ ∃ r, r ∈ rs ∧ e ∈ entries (Peers r)) as Hin.
  { intros e'. rewrite <-Hc, elem_of_concat. setoid_rewrite list_elem_of_fmap. naive_solver. }
  split.
  - intros He. split; [apply Hin; eauto|by eapply Hpre].
  - intros [(r' & Hr' & He')%Hin Hp]. assert (r = r') as ->; [|done].
    assert (¬ before order (Prefix r) (Prefix r') = true ∧ ¬ before order (Prefix r') (Prefix r) = true) as Hno.
    { pose proof (Hpre _ _ Hr' He') as Hp'. pose proof (prefix_weak_total _ _ _ Hp Hp') as Ho.
      split; intros Hb%before_overlap; [done|]. by apply Hb, overlap_sym. }
    apply list_elem_of_lookup in Hr as [i Hi], Hr' as [j Hj].
    destruct (lt_eq_lt_dec i j) as [[Hlt| ->]|Hlt]; [|congruence|]; exfalso.
    + apply (proj1 Hno). by apply (StronglySorted_lookup_lt _ rs _ _ _ _ Hs Hi Hj).
    + apply (proj2 Hno). by apply (StronglySorted_lookup_lt _ rs _ _ _ _ Hs Hj Hi).
Qed.

Lemma peersTrie_spec (peers : list peerID) :
  NoDup (PeerIDToBit256 <$> peers) →
  let t := trie_AddMany Empty ((λ q, (PeerIDToBit256 q, q)) <$> peers) in
  wf t ∧ bounded KeyLen t ∧
  ∀ e, e ∈ entries t ↔ ∃ q, q ∈ peers ∧ e = (PeerIDToBit256 q, q).
Proof.
  intros Hnd. set (l := _ <$> peers). assert (l.*1 = PeerIDToBit256 <$> peers) as Hl.
  { unfold l. rewrite <-list_fmap_compose. done. }
  assert (antichain (l.*1 ++ keys (@Empty peerID))) as Ha.
  { intros k1 k2. simpl. rewrite app_nil_r, Hl. intros (q1 & -> & _)%list_elem_of_fmap.
    intros (q2 & -> & _)%list_elem_of_fmap Ho. apply overlap_same_length; [done|].
    by rewrite !PeerIDToBit256_length. }
  split_and!.
  - by apply AddMany_wf.
  - apply bounded_AddMany; [done|done|constructor|]. rewrite Hl. apply Forall_fmap, Forall_true.
    intros q. simpl. by rewrite PeerIDToBit256_length.
  - intros e. rewrite AddMany_new; [|done|done|by rewrite Hl|by intros ? _ ?%not_elem_of_nil].
    unfold l. rewrite list_elem_of_fmap. simpl. rewrite elem_of_nil. naive_solver.
Qed.

Lemma RegionsFromPeers_spec (peers : list peerID) size order :
  length order = KeyLen → peers ≠ [] → NoDup (PeerIDToBit256 <$> peers) →
  ∃ rs cp, RegionsFromPeers (mh := mh) PeerIDToBit256 peers size order = Some (rs, cp) ∧
    (∀ c, c ≼ cp ↔ ∀ q, q ∈ peers → c ≼ PeerIDToBit256 q) ∧
    StronglySorted (λ r1 r2, before order (Prefix r1) (Prefix r2) = true) rs ∧
    Forall (regionOk size) rs ∧
    (∀ r e, r ∈ rs → e ∈ entries (Peers r) ↔
      ∃ q, q ∈ peers ∧ e = (PeerIDToBit256 q, q) ∧ Prefix r ≼ PeerIDToBit256 q) ∧
    (∀ q, q ∈ peers → ∃ r, r ∈ rs ∧ Prefix r ≼ PeerIDToBit256 q) ∧
    ((size ≤ Z.of_nat (length peers))%Z → ∀ r, r ∈ rs →
      (size ≤ Z.of_nat (length (entries (Peers r))))%Z).
Proof.
  intros Ho Hne Hnd. destruct peers as [|p0 peers']; [done|].
  unfold RegionsFromPeers. cbv zeta. remember (p0 :: peers') as peers eqn:Hpeers.
  assert (p0 ∈ peers) as Hp0 by (rewrite Hpeers; set_solver). clear Hpeers.
  destruct (peersTrie_spec peers Hnd) as (Hw & Hb & He). cbv zeta in *.
  pose proof (λ c, commonPrefix_spec p0 peers c Hp0) as Hcp.
  set (t := trie_AddMany _ _) in *. set (cp := take _ _) in *.
  assert (∀ q, q ∈ peers → cp ≼ PeerIDToBit256 q) as Hcpq by by apply Hcp.
  assert (t ≠ Empty) as Htne.
  { intros Ht. assert ((PeerIDToBit256 p0, p0) ∈ entries t) as Hin by (apply He; eauto).
    rewrite Ht in Hin. by apply not_elem_of_nil in Hin. }
  destruct (navigate_spec t [] cp) as (s & -> & Hs & Hsn & Hse); [done|done| |].
  { intros k (e & -> & (q & Hq & ->)%He)%list_elem_of_fmap. by apply Hcpq. }
  simpl in Hs. assert (bounded (length order) s) as Hbs by (unfold bounded; rewrite Hse, Ho; exact Hb).
  destruct (extractMinimalRegions_spec (mh := mh) size order cp s Hs Hbs) as (rs & -> & Hrs).
  cbn [mbind option_bind]. exists rs, cp.
  pose proof (regionsOf_partition size order cp s rs) as Hpart.
  pose proof Hrs as (Hok & _ & Hsort & Hconc & Hsize).
  assert (∀ r e, r ∈ rs → e ∈ entries (Peers r) ↔
    ∃ q, q ∈ peers ∧ e = (PeerIDToBit256 q, q) ∧ Prefix r ≼ PeerIDToBit256 q) as Hreg.
  { intros r e Hr. rewrite (Hpart r e Hrs Hr), Hse, He. naive_solver. }
  split_and!; [done|exact Hcp|done|done|done| |].
  - intros q Hq. assert ((PeerIDToBit256 q, q) ∈ entries s) as Hin by (rewrite Hse; apply He; eauto).
    rewrite <-Hconc in Hin. apply elem_of_concat in Hin as (l & (r & -> & Hr)%list_elem_of_fmap & Hin).
    exists r. split; [done|]. apply (Hreg r) in Hin as (q' & _ & [= -> ->] & ?); done.
  - intros Hle r Hr. assert (length (entries s) = length peers) as Hlen.
    { rewrite Hse, <-(length_fmap fst). rewrite <-(length_fmap PeerIDToBit256 peers).
      apply Permutation_length, NoDup_Permutation; [by eapply wf_at_NoDup|done|].
      intros k. rewrite !list_elem_of_fmap. setoid_rewrite He. naive_solver. }
    rewrite Hlen in Hsize. specialize (Hsize Hle). rewrite Forall_forall in Hsize. auto.
Qed.

(** [RegionsFromPeers] does not panic; it returns the longest prefix
    common to all peers, and regions sorted by [order] with disjoint
    prefixes, such that each region holds exactly the peers below its
    prefix, every peer is in a region, no region can be split into two of
    the requested size, and every region has the requested size if the
    swarm has it. *)
Theorem RegionsFromPeers_correct (peers : list peerID) size order :
  length order = KeyLen → peers ≠ [] → NoDup (PeerIDToBit256 <$> peers) →
  ∃ rs cp, RegionsFromPeers (mh := mh) PeerIDToBit256 peers size order = Some (rs, cp) ∧
    (∀ c, c ≼ cp ↔ ∀ q, q ∈ peers → c ≼ PeerIDToBit256 q) ∧
    StronglySorted (λ r1 r2, before order (Prefix r1) (Prefix r2) = true) rs ∧
    Forall (regionOk size) rs ∧
    (∀ r e, r ∈ rs → e ∈ entries (Peers r) ↔
      ∃ q, q ∈ peers ∧ e = (PeerIDToBit256 q, q) ∧ Prefix r ≼ PeerIDToBit256 q) ∧
    (∀ q, q ∈ peers → ∃ r, r ∈ rs ∧ Prefix r ≼ PeerIDToBit256 q) ∧
    ((size ≤ Z.of_nat (length peers))%Z → ∀ r, r ∈ rs →
      (size ≤ Z.of_nat (length (entries (Peers r))))%Z).
Proof. exact (RegionsFromPeers_spec peers size order). Qed.
End swarm.

(** ** Keys of the regions *)

Section assign.
Context {TL : TrieLib} {TLW : TrieLaws} {peerID mh : Type} (MhToBit256 : mh → key).
Hypothesis MhToBit256_length : ∀ k, length (MhToBit256 k) = KeyLen.
Implicit Types (r : Region peerID mh) (regions : list (Region peerID mh)) (ks : list mh).

(** The keys of a region are those below its prefix, in input order. *)
Lemma assignKey_spec regions r ks m :
  antichain (Prefix <$> regions) → r ∈ regions →
  default [] (foldl (assignKey MhToBit256 regions) m ks !! Prefix r) =
    default [] (m !! Prefix r) ++
    ((λ k, (MhToBit256 k, k)) <$> filter (λ k, Prefix r ≼ MhToBit256 k) ks).
Proof.
  intros Ha Hr. revert m. induction ks as [|k ks IH]; intros m; [by rewrite app_nil_r|].
  cbn [foldl]. rewrite IH. clear IH. rewrite filter_cons.
  unfold assignKey. cbv zeta. destruct (list_find _ regions) as [[i r']|] eqn:Hf.
  - apply list_find_Some in Hf as (Hi & Hp%IsPrefix_spec & _). apply list_elem_of_lookup_2 in Hi.
    case_decide as Hd.
    + assert (Prefix r' = Prefix r) as ->.
      { apply Ha; [by apply list_elem_of_fmap_2..|]. by eapply prefix_weak_total. }
      rewrite lookup_insert_eq. simpl. by rewrite <-app_assoc.
    + rewrite lookup_insert_ne; [done|]. intros He. apply Hd. by rewrite <-He.
  - apply list_find_None in Hf. rewrite Forall_forall in Hf. rewrite decide_False; [done|].
    rewrite <-IsPrefix_spec. by apply Hf.
Qed.

Lemma AssignKeysToRegions_spec regions ks :
  antichain (Prefix <$> regions) →
  (∀ k k', k ∈ ks → k' ∈ ks → MhToBit256 k = MhToBit256 k' → k = k') →
  Forall2 (λ r r', Prefix r' = Prefix r ∧ Peers r' = Peers r ∧
    ∃ kt, Keys r' = Some kt ∧ wf kt ∧
      ∀ e, e ∈ entries kt ↔ ∃ k, k ∈ ks ∧ e = (MhToBit256 k, k) ∧ Prefix r ≼ MhToBit256 k)
    regions (AssignKeysToRegions MhToBit256 regions ks).
Proof.
  intros Ha Hinj. unfold AssignKeysToRegions. cbv zeta. apply Forall2_fmap_r, Forall_Forall2_diag.
  apply Forall_forall. intros r Hr. cbn [Prefix Peers Keys]. split_and!; [done|done|].
  eexists. split; [done|]. rewrite (assignKey_spec regions r ks ∅ Ha Hr).
  rewrite lookup_empty. cbn [from_option id app].
  set (l := _ <$> filter _ _).
  assert (∀ e, e ∈ l ↔ ∃ k, k ∈ ks ∧ e = (MhToBit256 k, k) ∧ Prefix r ≼ MhToBit256 k) as Hl.
  { intros e. unfold l. rewrite list_elem_of_fmap. setoid_rewrite list_elem_of_filter. naive_solver. }
  assert (antichain (l.*1 ++ keys (@Empty mh))) as Hal.
  { intros k1 k2. simpl. rewrite app_nil_r. intros (e1 & -> & (q1 & _ & -> & _)%Hl)%list_elem_of_fmap.
    intros (e2 & -> & (q2 & _ & -> & _)%Hl)%list_elem_of_fmap Ho. apply overlap_same_length; [done|].
    cbn [fst]. by rewrite !MhToBit256_length. }
  split; [by apply AddMany_wf|]. intros e. rewrite <-Hl.
  destruct (AddMany_entries mh Empty l I Hal) as [_ Hin]. split.
  - intros [He|He]%Hin; [done|by apply not_elem_of_nil in He].
  - intros He. assert (e.1 ∈ keys (trie_AddMany Empty l)) as Hk.
    { rewrite AddMany_keys by done. left. by apply list_elem_of_fmap_2. }
    apply list_elem_of_fmap in Hk as (e' & Heq & He').
    assert (e' ∈ l) as Hl' by (apply Hin in He' as [?|Hn]; [done|by apply not_elem_of_nil in Hn]).
    apply Hl in He as (k & Hk & -> & _). apply Hl in Hl' as (k' & Hk' & -> & _). cbn in Heq.
    by rewrite (Hinj k k' Hk Hk' Heq).
Qed.

(** [AssignKeysToRegions] keeps the prefix and the peers of the regions,
    and stores in each region exactly the keys below its prefix. *)
Theorem AssignKeysToRegions_correct regions ks :
  antichain (Prefix <$> regions) → NoDup (MhToBit256 <$> ks) →
  Forall2 (λ r r', Prefix r' = Prefix r ∧ Peers r' = Peers r ∧
    ∃ kt, Keys r' = Some kt ∧ wf kt ∧
      ∀ e, e ∈ entries kt ↔ ∃ k, k ∈ ks ∧ e = (MhToBit256 k, k) ∧ Prefix r ≼ MhToBit256 k)
    regions (AssignKeysToRegions MhToBit256 regions ks).
Proof.
  intros Ha Hnd. apply AssignKeysToRegions_spec; [done|]. intros k k' Hk Hk' He.
  apply list_elem_of_lookup in Hk as [i Hi], Hk' as [j Hj].
  assert (i = j) as <-; [|congruence]. apply (NoDup_lookup _ i j (MhToBit256 k) Hnd).
  - by rewrite list_lookup_fmap, Hi.
  - by rewrite list_lookup_fmap, Hj, He.
Qed.
End assign.

(** ** Witnesses *)

(** Five peers and regions of two peers: {00, 01} below "0", {10, 110, 111}
    below "1". *)
Lemma RegionsFromPeers_correct_witness :
  let peers := ["00"; "01"; "10"; "110"; "111"] in
  ∃ (rs : list (Region string string)) cp, RegionsFromPeers idOf peers 2 zeroKey = Some (rs, cp) ∧
    (∀ c, c ≼ cp ↔ ∀ q, q ∈ peers → c ≼ idOf q) ∧
    StronglySorted (λ r1 r2, before zeroKey (Prefix r1) (Prefix r2) = true) rs ∧
    Forall (regionOk 2) rs ∧
    (∀ r e, r ∈ rs → e ∈ entries (Peers r) ↔
      ∃ q, q ∈ peers ∧ e = (idOf q, q) ∧ Prefix r ≼ idOf q) ∧
    (∀ q, q ∈ peers → ∃ r, r ∈ rs ∧ Prefix r ≼ idOf q) ∧
    ((2 ≤ Z.of_nat (length peers))%Z → ∀ r, r ∈ rs →
      (2 ≤ Z.of_nat (length (entries (Peers r))))%Z).
Proof.
  apply (RegionsFromPeers_correct idOf idOf_length); [by_compute|discriminate|by_compute].
Defined.

Lemma AssignKeysToRegions_correct_witness :
  let regions := [mkRegion (peerID := string) (bitstr "0") Empty None; mkRegion (bitstr "1") Empty None] in
  let ks := ["001"; "110"; "01"] in
  Forall2 (λ r r', Prefix r' = Prefix r ∧ Peers r' = Peers r ∧
      ∃ kt, Keys r' = Some kt ∧ wf kt ∧
        ∀ e, e ∈ entries kt ↔ ∃ k, k ∈ ks ∧ e = (idOf k, k) ∧ Prefix r ≼ idOf k)
    regions (AssignKeysToRegions idOf regions ks).
Proof.
  apply (AssignKeysToRegions_correct idOf idOf_length); by_compute.
Defined.
