(* ===== verification/Deque.v ===== *)
(** * Double-ended queues

    The package [gammazero/deque] is not part of the repository.  The class
    [DequeLib] holds the operations the repository calls, [DequeLaws] their
    documented behaviour on the sequence of elements that [Iter] enumerates,
    front first.  [None] is a Go panic; the list instance shows the laws can
    be satisfied. *)

From S2P Require Import Prelude.

(** ** The operations and their laws *)

Class DequeLib := {
  Deque : Type → Type;
  (** the zero value *)
  dq_zero : ∀ {A}, Deque A;
  dq_Iter : ∀ {A}, Deque A → list A;
  dq_Len : ∀ {A}, Deque A → nat;
  dq_PushBack : ∀ {A}, Deque A → A → Deque A;
  dq_PopFront : ∀ {A}, Deque A → option (A * Deque A);
  (** [Insert(at, item)] puts the item in front of the element at [at] *)
  dq_Insert : ∀ {A}, Deque A → nat → A → Deque A;
  (** [Remove(at)] panics if [at] is out of range *)
  dq_Remove : ∀ {A}, Deque A → nat → option (Deque A);
  (** the first index that satisfies the predicate, [None] for -1 *)
  dq_Index : ∀ {A}, Deque A → (A → bool) → option nat;
  dq_Clear : ∀ {A}, Deque A → Deque A;
}.

(** [Remove(at)] on the sequence of elements. *)
Definition dropAt {A} (l : list A) (i : nat) : option (list A) :=
  if decide (i < length l) then Some (delete i l) else None.

Class DequeLaws `{DequeLib} : Prop := {
  Iter_zero : ∀ A, dq_Iter (@dq_zero _ A) = [];
  Len_Iter : ∀ A (d : Deque A), dq_Len d = length (dq_Iter d);
  Iter_PushBack : ∀ A (d : Deque A) x, dq_Iter (dq_PushBack d x) = dq_Iter d ++ [x];
  PopFront_Iter : ∀ A (d : Deque A),
    match dq_Iter d with
    | [] => dq_PopFront d = None
    | x :: l => ∃ d', dq_PopFront d = Some (x, d') ∧ dq_Iter d' = l
    end;
  Iter_Insert : ∀ A (d : Deque A) i x, i ≤ length (dq_Iter d) →
    dq_Iter (dq_Insert d i x) = take i (dq_Iter d) ++ x :: drop i (dq_Iter d);
  Remove_Iter : ∀ A (d : Deque A) i,
    fmap dq_Iter (dq_Remove d i) = dropAt (dq_Iter d) i;
  Index_Iter : ∀ A (d : Deque A) (f : A → bool),
    dq_Index d f = fst <$> list_find (λ x, f x = true) (dq_Iter d);
  Iter_Clear : ∀ A (d : Deque A), dq_Iter (dq_Clear d) = [];
}.

(** ** The list instance *)

#[export] Instance listDeque : DequeLib := {
  Deque := list;
  dq_zero A := [];
  dq_Iter A d := d;
  dq_Len A d := length d;
  dq_PushBack A d x := d ++ [x];
  dq_PopFront A d := match d with [] => None | x :: d => Some (x, d) end;
  dq_Insert A d i x := take i d ++ x :: drop i d;
  dq_Remove A d i := dropAt d i;
  dq_Index A d f := fst <$> list_find (λ x, f x = true) d;
  dq_Clear A d := [];
}.

#[export] Instance listDequeLaws : DequeLaws.
Proof.
  split; intros; try done.
  - simpl. destruct d as [|x d]; eauto.
  - simpl. by destruct (dropAt d i).
Qed.

(** ** Removing a set of elements by index *)

Section removal.
Context {A : Type}.
Implicit Types (l : list A) (idx : list nat).

Lemma dropAt_Some l i : i < length l → dropAt l i = Some (delete i l).
Proof. intros Hi. unfold dropAt. by rewrite decide_True. Qed.

Lemma dropAt_app l x idx :
  Forall (λ i, i < length l) idx → StronglySorted (λ i j, j < i) idx →
  foldM dropAt (l ++ [x]) idx = (λ l', l' ++ [x]) <$> foldM dropAt l idx.
Proof.
  revert l. induction idx as [|i idx IH]; intros l Hb Hs; [done|].
  apply Forall_cons in Hb as [Hi Hb]. apply StronglySorted_inv in Hs as [Hs Hlt].
  cbn [foldM]. rewrite !dropAt_Some by (rewrite ?length_app; lia).
  cbn [mbind option_bind].
  rewrite <-IH; [f_equal|apply Forall_forall|done].
  - rewrite !delete_take_drop, take_app_le, drop_app_le by lia. by rewrite app_assoc.
  - intros j Hj. rewrite length_delete by (by apply lookup_lt_is_Some_2).
    rewrite Forall_forall in Hlt, Hb. specialize (Hlt j Hj). lia.
Qed.

(** Removing, from the last to the first, the positions of the elements
    that satisfy [P] leaves the other elements. *)
Lemma dropAt_all (P : A → Prop) `{∀ x, Decision (P x)} l idx :
  StronglySorted (λ i j, j < i) idx →
  (∀ i, i ∈ idx ↔ ∃ x, l !! i = Some x ∧ P x) →
  foldM dropAt l idx = Some (filter (λ x, ¬ P x) l).
Proof.
  revert idx. induction l as [|x l IH] using rev_ind; intros idx Hs Hidx.
  { destruct idx as [|i idx]; [done|]. destruct (proj1 (Hidx i)) as (x & Hx & _); [set_solver|].
    done. }
  assert (∀ i, i ∈ idx → i ≤ length l) as Hle.
  { intros i (y & Hy%lookup_lt_Some & _)%Hidx. rewrite length_app in Hy. simpl in Hy. lia. }
  assert (length l ∈ idx ↔ P x) as Hlast.
  { rewrite Hidx, lookup_app_r, Nat.sub_diag by lia. simpl. naive_solver. }
  assert (∀ i, i < length l → i ∈ idx ↔ ∃ y, l !! i = Some y ∧ P y) as Hidx'.
  { intros i Hi. rewrite Hidx. by rewrite lookup_app_l. }
  rewrite filter_app. destruct (decide (P x)) as [Hx|Hx].
  - assert (∃ idx', idx = length l :: idx' ∧ Forall (λ j, j < length l) idx') as (idx' & -> & Hlt).
    { destruct idx as [|i idx']; [set_solver|]. exists idx'.
      apply StronglySorted_inv in Hs as [_ Hlt]. rewrite Forall_forall in *.
      assert (i = length l) as ->; [|done].
      apply Hlast, elem_of_cons in Hx as [->|Hx]; [done|]. apply Hlt in Hx.
      specialize (Hle i ltac:(set_solver)). lia. }
    apply StronglySorted_inv in Hs as [Hs _]. cbn [foldM].
    rewrite dropAt_Some by (rewrite length_app; simpl; lia). cbn [mbind option_bind].
    rewrite delete_take_drop, take_app_length, drop_ge by (rewrite length_app; simpl; lia).
    rewrite app_nil_r. rewrite (IH idx' Hs).
    + rewrite filter_cons_False by tauto. by rewrite app_nil_r.
    + intros i. rewrite Forall_forall in Hlt. split.
      * intros Hi. apply Hidx'; [auto|set_solver].
      * intros Hi. pose proof Hi as (y & Hy%lookup_lt_Some & _).
        apply Hidx' in Hi; [|done]. apply elem_of_cons in Hi as [->|Hi]; [lia|done].
  - assert (Forall (λ i, i < length l) idx) as Hlt.
    { apply Forall_forall. intros i Hi. pose proof (Hle i Hi).
      destruct (decide (i = length l)) as [->|]; [tauto|lia]. }
    rewrite dropAt_app by done. rewrite (IH idx Hs).
    + simpl. by rewrite filter_cons_True.
    + intros i. rewrite Forall_forall in Hlt. split.
      * intros Hi. by apply Hidx'; auto.
      * intros Hi. pose proof Hi as (y & Hy%lookup_lt_Some & _). by apply Hidx'.
Qed.
End removal.

(** The same on a deque. *)
Lemma dq_Remove_all `{DequeLaws} {A} (d : Deque A) idx l :
  foldM dropAt (dq_Iter d) idx = Some l →
  ∃ d', foldM dq_Remove d idx = Some d' ∧ dq_Iter d' = l.
Proof.
  revert d. induction idx as [|i idx IH]; intros d; cbn [foldM]; [intros [= <-]; eauto|].
  rewrite <-Remove_Iter. destruct (dq_Remove d i) as [d'|]; simpl; [apply IH|done].
Qed.
