(* ===== verification/PrefixQueue.v ===== *)
(** * Queues of keyspace prefixes

    Models [provider/internal/queue/prefix.go] (the queue of non-overlapping
    prefixes shared by the two queues of the provider) and
    [provider/internal/queue/reprovide.go], which wraps it.  The mutex of
    [ReprovideQueue] makes its methods atomic: each one is a function on the
    state.  [None] is a Go panic. *)

From S2P Require Import Prelude Key Trie TrieImpl Deque.

(** ** Definitions *)

Section definitions.
Context {TL : TrieLib} {DL : DequeLib}.

(** [prefixQueue] *)
Record prefixQueue := mkPrefixQueue {
  queue : Deque key;
  prefixes : trie ();
}.

(** [removePrefixesFromQueue]: the queue and the position of the first
    removed prefix. *)
Definition removePrefixesFromQueue (q : prefixQueue) (ps : list key)
    : option (prefixQueue * nat) :=
  let prefixes' := foldl trie_Remove (prefixes q) ps in
  let indexes := omap (λ p, dq_Index (queue q) (λ element, bool_decide (element = p))) ps in
  let indexes := reverse (merge_sort le indexes) in
  queue' ← foldM dq_Remove (queue q) indexes;
  first ← last indexes;
  Some (mkPrefixQueue queue' prefixes', first).

(** [removeSuperstrings] *)
Definition removeSuperstrings (q : prefixQueue) (prefix : key) : option (prefixQueue * Z) :=
  let '(subtrie, ok) := FindSubtrie (prefixes q) prefix in
  if negb ok then Some (q, (-1)%Z)
  else
    ks ← AllKeys subtrie zeroKey;
    '(q', i) ← removePrefixesFromQueue q ks;
    Some (q', Z.of_nat i).

(** One iteration of the loop of [Push]. *)
Definition pushPrefix (q : prefixQueue) (prefix : key) : option prefixQueue :=
  '(q', firstRemovedIndex) ← removeSuperstrings q prefix;
  if decide (0 ≤ firstRemovedIndex)%Z then
    Some (mkPrefixQueue (dq_Insert (queue q') (Z.to_nat firstRemovedIndex) prefix)
            (trie_Add (prefixes q') prefix ()))
  else
    '(_, ok) ← FindPrefixOfKey (prefixes q') prefix;
    Some (if ok : bool then q'
          else mkPrefixQueue (dq_PushBack (queue q') prefix) (trie_Add (prefixes q') prefix ())).

(** [Push] *)
Definition Push (q : prefixQueue) (ps : list key) : option prefixQueue := foldM pushPrefix q ps.

(** [Pop] *)
Definition Pop (q : prefixQueue) : option (prefixQueue * (key * bool)) :=
  if decide (dq_Len (queue q) = 0) then Some (q, ([], false))
  else
    '(prefix, queue') ← dq_PopFront (queue q);
    Some (mkPrefixQueue queue' (trie_Remove (prefixes q) prefix), (prefix, true)).

(** [Remove] *)
Definition Remove (q : prefixQueue) (prefix : key) : option (prefixQueue * bool) :=
  '(q', i) ← removeSuperstrings q prefix;
  Some (q', bool_decide (0 ≤ i)%Z).

(** [Size] *)
Definition Size (q : prefixQueue) : nat := dq_Len (queue q).

(** [Clear] *)
Definition Clear (q : prefixQueue) : prefixQueue * nat :=
  (mkPrefixQueue (dq_Clear (queue q)) Empty, Size q).

(** [ReprovideQueue] *)
Record ReprovideQueue := mkReprovideQueue { rq_queue : prefixQueue }.

(** [NewReprovideQueue] *)
Definition NewReprovideQueue : ReprovideQueue :=
  mkReprovideQueue (mkPrefixQueue dq_zero Empty).

(** [Enqueue], [Dequeue], [Remove], [IsEmpty], [Size] and [Clear] of
    [ReprovideQueue]. *)
Definition RQ_Enqueue (q : ReprovideQueue) (ps : list key) : option ReprovideQueue :=
  mkReprovideQueue <$> Push (rq_queue q) ps.
Definition RQ_Dequeue (q : ReprovideQueue) : option (ReprovideQueue * (key * bool)) :=
  '(q', r) ← Pop (rq_queue q); Some (mkReprovideQueue q', r).
Definition RQ_Remove (q : ReprovideQueue) (prefix : key) : option (ReprovideQueue * bool) :=
  '(q', r) ← Remove (rq_queue q) prefix; Some (mkReprovideQueue q', r).
Definition RQ_IsEmpty (q : ReprovideQueue) : bool := bool_decide (Size (rq_queue q) = 0).
Definition RQ_Size (q : ReprovideQueue) : nat := Size (rq_queue q).
Definition RQ_Clear (q : ReprovideQueue) : ReprovideQueue * nat :=
  let '(q', n) := Clear (rq_queue q) in (mkReprovideQueue q', n).
End definitions.

(** ** The abstract queue

    A list of distinct, pairwise non-overlapping prefixes, in queue order. *)

(** Consolidates the prefixes below [p] at the position of the first one. *)
Definition pushSpec (l : list key) (p : key) : list key :=
  match list_find (λ x, p ≼ x) l with
  | Some (i, _) => take i l ++ p :: filter (λ x, ¬ p ≼ x) (drop i l)
  | None => if decide (Exists (λ x, x ≼ p) l) then l else l ++ [p]
  end.

Definition removeSpec (l : list key) (p : key) : list key := filter (λ x, ¬ p ≼ x) l.

(** ** Invariant *)

Section invariant.
Context {TL : TrieLib} {TLW : TrieLaws} {DL : DequeLib} {DLW : DequeLaws}.
Implicit Types (q : prefixQueue) (p k : key) (l ps : list key).

(** The prefixes in queue order. *)
Definition contents q : list key := dq_Iter (queue q).

(** The trie holds exactly the queued prefixes; none is queued twice. *)
Definition pqInv q : Prop :=
  wf (prefixes q) ∧ bounded KeyLen (prefixes q) ∧ NoDup (contents q) ∧
  ∀ k, k ∈ keys (prefixes q) ↔ k ∈ contents q.

Lemma pqInv_alt q :
  pqInv q ↔ wf (prefixes q) ∧ bounded KeyLen (prefixes q) ∧ NoDup (contents q) ∧
    Forall (λ k, k ∈ contents q) (keys (prefixes q)) ∧
    Forall (λ k, k ∈ keys (prefixes q)) (contents q).
Proof. unfold pqInv. rewrite !Forall_forall. naive_solver. Qed.

#[export] Instance pqInv_dec q : Decision (pqInv q).
Proof. exact (decide_by_iff (pqInv_alt q)). Defined.

Lemma pqInv_antichain q : pqInv q → antichain (contents q).
Proof.
  intros (Hw & _ & _ & Hk) k1 k2 H1 H2 Ho. apply Hk in H1, H2. by eapply (wf_at_antichain []).
Qed.

Lemma pqInv_length q k : pqInv q → k ∈ contents q → length k ≤ KeyLen.
Proof. intros (_ & Hb & _ & Hk) Hin. apply (bounded_elem _ _ _ Hb). by apply Hk. Qed.

(** Removing several stored keys. *)
Lemma Remove_many (t : trie ()) ps :
  wf t → NoDup ps → (∀ p, p ∈ ps → p ∈ keys t) →
  wf (foldl trie_Remove t ps) ∧
  ∀ x, x ∈ keys (foldl trie_Remove t ps) ↔ (x ∉ ps) ∧ x ∈ keys t.
Proof.
  revert t. induction ps as [|p ps IH]; intros t Hw Hnd Hps; cbn [foldl].
  { split; [done|]. intros x. set_solver. }
  apply NoDup_cons in Hnd as [Hp Hnd].
  assert (admissible t p) as Ha by (eapply admissible_present; [done|apply Hps; set_solver]).
  destruct (IH (trie_Remove t p)) as [Hw' Hk].
  - by apply Remove_wf.
  - done.
  - intros x Hx. apply Remove_keys; [done..|]. split; [by intros ->|apply Hps; set_solver].
  - split; [done|]. intros x. rewrite Hk, Remove_keys by done. set_solver.
Qed.

Lemma reverse_strict (l : list nat) :
  StronglySorted le l → NoDup l → StronglySorted (λ i j, j < i) (reverse l).
Proof.
  induction 1 as [|i l Hs IH Hi]; intros Hnd; [constructor|]. rewrite reverse_cons.
  apply NoDup_cons in Hnd as [Hni Hnd]. apply StronglySorted_app_2; [|auto|repeat constructor].
  intros j1 j2 Hj1 ->%list_elem_of_singleton. rewrite elem_of_reverse in Hj1.
  rewrite Forall_forall in Hi. specialize (Hi j1 Hj1).
  destruct (decide (i = j1)) as [->|]; [done|lia].
Qed.

(** The indexes that [removePrefixesFromQueue] removes. *)
Lemma indexes_spec (d : Deque key) ps :
  NoDup (dq_Iter d) → NoDup ps → (∀ p, p ∈ ps → p ∈ dq_Iter d) →
  let idx := reverse (merge_sort le (omap (λ p, dq_Index d (λ e, bool_decide (e = p))) ps)) in
  StronglySorted (λ i j, j < i) idx ∧
  (∀ i, i ∈ idx ↔ ∃ x, dq_Iter d !! i = Some x ∧ x ∈ ps).
Proof.
  intros Hnd Hps Hin idx. set (raw := omap _ ps) in *.
  assert (∀ p i, dq_Index d (λ e, bool_decide (e = p)) = Some i ↔ dq_Iter d !! i = Some p) as Hidx.
  { intros p i. rewrite Index_Iter. split.
    - intros ([j x] & Hf & ->)%fmap_Some. cbn [fst]. apply list_find_Some in Hf as (Hl & Hx & _).
      apply bool_decide_eq_true in Hx as ->. done.
    - intros Hl. apply fmap_Some. exists (i, p). split; [|done]. apply list_find_Some.
      split_and!; [done|by apply bool_decide_eq_true|]. intros j y Hj Hlt Hy.
      apply bool_decide_eq_true in Hy as ->. pose proof (NoDup_lookup _ _ _ _ Hnd Hl Hj). lia. }
  assert (∀ i, i ∈ raw ↔ ∃ x, dq_Iter d !! i = Some x ∧ x ∈ ps) as Hraw.
  { intros i. unfold raw. rewrite list_elem_of_omap. setoid_rewrite Hidx. naive_solver. }
  assert (NoDup raw) as Hndr.
  { unfold raw. clear Hraw idx Hin. induction ps as [|p ps IH]; simpl; [constructor|].
    apply NoDup_cons in Hps as [Hp Hps]. destruct (dq_Index _ _) as [i|] eqn:Hi; [|auto].
    apply NoDup_cons. split; [|auto]. rewrite list_elem_of_omap. intros (x & Hx & Hxi).
    apply Hidx in Hi, Hxi. rewrite Hi in Hxi. by simplify_eq. }
  assert (idx ≡ₚ raw) as Hperm.
  { unfold idx. by rewrite reverse_Permutation, merge_sort_Permutation. }
  split; [|intros i; by rewrite Hperm].
  assert (StronglySorted le (merge_sort le raw)) as Hs by (apply StronglySorted_merge_sort; apply _).
  rewrite <-(merge_sort_Permutation le raw) in Hndr. by apply reverse_strict.
Qed.

Lemma removePrefixesFromQueue_spec q ps :
  pqInv q → NoDup ps → ps ≠ [] → (∀ p, p ∈ ps → p ∈ contents q) →
  ∃ q' i x, removePrefixesFromQueue q ps = Some (q', i) ∧ pqInv q' ∧
    contents q' = filter (λ k, k ∉ ps) (contents q) ∧
    list_find (λ k, k ∈ ps) (contents q) = Some (i, x).
Proof.
  intros (Hw & Hb & Hnd & Hk) Hps Hne Hin. unfold removePrefixesFromQueue. cbv zeta.
  destruct (indexes_spec (queue q) ps) as [Hs Hidx]; [done|done|done|]. cbv zeta in *.
  set (idx := reverse _) in *.
  pose proof (dropAt_all (λ k, k ∈ ps) (dq_Iter (queue q)) idx Hs Hidx) as Hrem.
  apply dq_Remove_all in Hrem as (queue' & -> & Hq'). cbn [mbind option_bind].
  destruct (last idx) as [i|] eqn:Hlast; last first.
  { apply last_None in Hlast. exfalso. destruct ps as [|p ps]; [done|].
    destruct (proj1 (list_elem_of_lookup (contents q) p)) as [j Hj]; [apply Hin; set_solver|].
    assert (j ∈ idx) as Hj' by (apply Hidx; set_solver). rewrite Hlast in Hj'. set_solver. }
  cbn [mbind option_bind]. apply last_Some in Hlast as (idx' & Hidx').
  destruct (proj1 (Hidx i)) as (x & Hx & Hxp); [rewrite Hidx'; set_solver|].
  assert (∀ p, p ∈ ps → p ∈ keys (prefixes q)) as Hps' by (intros p Hp; by apply Hk, Hin).
  destruct (Remove_many (prefixes q) ps) as [Hw' Hk']; [done..|].
  eexists _, i, x. split_and!; [done| |done|].
  - unfold pqInv, contents. cbn [prefixes queue]. rewrite Hq'. split_and!.
    + done.
    + apply Forall_forall. intros k Hkk. apply Hk' in Hkk as [_ Hkk]. by apply (bounded_elem _ _ _ Hb).
    + by apply NoDup_filter.
    + intros k. rewrite Hk', list_elem_of_filter, Hk. done.
  - apply list_find_Some. split_and!; [done|done|]. intros j y Hj Hlt Hy.
    assert (j ∈ idx) as Hji by (apply Hidx; eauto). rewrite Hidx' in Hji, Hs.
    apply StronglySorted_app in Hs as (Hlt' & _ & _).
    apply elem_of_app in Hji as [Hji|Hji%list_elem_of_singleton]; [|lia].
    specialize (Hlt' j i Hji ltac:(set_solver)). simpl in Hlt'. lia.
Qed.

Lemma removeSuperstrings_spec q p :
  pqInv q →
  ∃ q' i, removeSuperstrings q p = Some (q', i) ∧ pqInv q' ∧
    contents q' = removeSpec (contents q) p ∧
    match list_find (λ x, p ≼ x) (contents q) with
    | Some (j, _) => i = Z.of_nat j
    | None => i = (-1)%Z ∧ q' = q
    end.
Proof.
  intros Hinv. pose proof Hinv as (Hw & Hb & Hnd & Hk). unfold removeSuperstrings.
  destruct (FindSubtrie (prefixes q) p) as [s ok] eqn:Hf. destruct ok; cbn [negb].
  - apply FindSubtrie_true in Hf as (He & Hne & r & Hws); [|done].
    rewrite (AllKeys_zeroKey r) by (eauto using bounded_below). cbn [mbind option_bind].
    assert (∀ k, k ∈ keys s ↔ p ≼ k ∧ k ∈ contents q) as Hks.
    { intros k. rewrite <-Hk, He, !list_elem_of_fmap. setoid_rewrite elem_of_below. naive_solver. }
    destruct (removePrefixesFromQueue_spec q (keys s)) as (q' & i & x & -> & Hinv' & Hc & Hfind).
    + done.
    + by eapply wf_at_NoDup.
    + intros Hn%fmap_nil_inv. by apply Hne.
    + intros k ?%Hks. tauto.
    + cbn [mbind option_bind]. eexists _, _. split_and!; [done|done| |].
      * rewrite Hc. apply list_filter_ext. intros k Hin. rewrite Hks. tauto.
      * apply list_find_Some in Hfind as (Hi & Hx & Hmin).
        assert (list_find (λ x, p ≼ x) (contents q) = Some (i, x)) as ->; [|done].
        apply list_find_Some. split_and!; [done|by apply Hks|].
        intros j y Hj Hlt Hy. apply (Hmin j y Hj Hlt), Hks. split; [done|].
        by apply list_elem_of_lookup_2 in Hj.
  - pose proof (FindSubtrie_false _ _ _ Hw Hf) as Hno. eexists _, _. split_and!; [done|done| |].
    + unfold removeSpec. rewrite list_filter_all; [done|]. intros x Hx. by apply Hno, Hk.
    + assert (list_find (λ x, p ≼ x) (contents q) = None) as ->; [|done].
      apply list_find_None, Forall_forall. intros x Hx. by apply Hno, Hk.
Qed.

(** Before the first element that satisfies [P] nothing is filtered out. *)
Lemma filter_find_split l p i x :
  list_find (λ x, p ≼ x) l = Some (i, x) →
  removeSpec l p = take i l ++ filter (λ x, ¬ p ≼ x) (drop i l) ∧ i ≤ length l.
Proof.
  intros (Hi & _ & Hmin)%list_find_Some. apply lookup_lt_Some in Hi. split; [|lia].
  unfold removeSpec. rewrite <-(take_drop i l) at 1. rewrite filter_app. f_equal.
  apply list_filter_all. intros y Hy. apply list_elem_of_lookup in Hy as [j Hj].
  apply lookup_take_Some in Hj as [Hj Hlt]. by eapply Hmin.
Qed.

(** Storing a prefix that overlaps no other one. *)
Lemma pqInv_insert q p d :
  pqInv q → length p ≤ KeyLen → (∀ k, k ∈ contents q → ¬ overlap p k) →
  dq_Iter d ≡ₚ p :: contents q → pqInv (mkPrefixQueue d (trie_Add (prefixes q) p ())).
Proof.
  intros (Hw & Hb & Hnd & Hk) Hl Hno Hd.
  assert (p ∉ contents q) as Hp by (intros Hp; apply (Hno p Hp), overlap_refl).
  assert (admissible (prefixes q) p) as Ha by (intros k Hin Ho; apply Hk in Hin; by destruct (Hno k)).
  unfold pqInv, contents. cbn [queue prefixes]. rewrite Hd. split_and!.
  - by apply Add_wf.
  - by apply bounded_Add.
  - by apply NoDup_cons.
  - intros k. rewrite Hd, Add_keys, elem_of_cons, Hk by done. done.
Qed.

Lemma pushPrefix_spec q p :
  pqInv q → length p ≤ KeyLen →
  ∃ q', pushPrefix q p = Some q' ∧ pqInv q' ∧ contents q' = pushSpec (contents q) p.
Proof.
  intros Hinv Hl. unfold pushPrefix, pushSpec.
  destruct (removeSuperstrings_spec q p Hinv) as (q' & i & -> & Hinv' & Hc & Hi).
  cbn [mbind option_bind]. destruct (list_find _ (contents q)) as [[j x]|] eqn:Hf.
  - subst i. rewrite decide_True by lia. rewrite Nat2Z.id. eexists. split; [done|].
    pose proof Hf as Hsplit. apply filter_find_split in Hsplit as [Hsplit Hj].
    apply list_find_Some in Hf as (Hjx & Hpx & _). apply list_elem_of_lookup_2 in Hjx.
    assert (length (take j (contents q)) = j) as Htl by (rewrite length_take; lia).
    assert (dq_Iter (dq_Insert (queue q') j p) =
      take j (contents q) ++ p :: filter (λ x, ¬ p ≼ x) (drop j (contents q))) as Hit.
    { rewrite Iter_Insert; fold (contents q'); rewrite Hc, Hsplit.
      - by rewrite take_app_length', drop_app_length' by done.
      - rewrite length_app. lia. }
    split; [|done]. apply pqInv_insert; [done|done| |].
    + intros k Hk Ho. rewrite Hc in Hk. apply list_elem_of_filter in Hk as [Hnp Hk].
      destruct Ho as [Ho|Ho]; [done|]. apply Hnp.
      rewrite (pqInv_antichain q Hinv k x Hk Hjx); [done|]. left. by etrans.
    + rewrite Hit, Hc, Hsplit. by rewrite Permutation_middle.
  - destruct Hi as [-> ->]. rewrite decide_False by lia. pose proof Hinv as (Hw & _ & _ & Hk).
    apply list_find_None in Hf. rewrite Forall_forall in Hf.
    destruct (FindPrefixOfKey_spec (prefixes q) p Hw) as [(r & -> & Hr & Hrp)|(r & -> & Hno)];
      cbn [mbind option_bind]; eexists; (split; [done|]).
    + split; [done|]. rewrite decide_True; [done|]. apply Exists_exists. exists r. by rewrite <-Hk.
    + rewrite decide_False.
      2: { rewrite Exists_exists. intros (k & Hin & Hkp). apply Hk in Hin. by apply (Hno k). }
      split; [|apply Iter_PushBack]. apply pqInv_insert; [done|done| |].
      * intros k Hin [Ho|Ho]; [by apply (Hf k)|]. apply Hk in Hin. by apply (Hno k).
      * rewrite Iter_PushBack. symmetry. apply Permutation_cons_append.
Qed.
End invariant.

(** ** Refinement *)

(** The operations of [ReprovideQueue] that change it, and what they return. *)
Inductive queueOp := EnqueueOp (ps : list key) | DequeueOp | RemoveOp (p : key) | ClearOp.
Inductive queueRes := Enqueued | Dequeued (p : key) (ok : bool) | Removed (b : bool) | Cleared (n : nat).

(** Enqueued prefixes fit in an identifier. *)
Definition queueOpOk (op : queueOp) : Prop :=
  match op with EnqueueOp ps => Forall (λ p, length p ≤ KeyLen) ps | _ => True end.

#[export] Instance queueOpOk_dec op : Decision (queueOpOk op).
Proof. destruct op; simpl; apply _. Defined.

(** The abstract queue. *)
Definition specExec (l : list key) (op : queueOp) : list key * queueRes :=
  match op with
  | EnqueueOp ps => (foldl pushSpec l ps, Enqueued)
  | DequeueOp => match l with [] => ([], Dequeued [] false) | p :: l => (l, Dequeued p true) end
  | RemoveOp p => (removeSpec l p, Removed (bool_decide (Exists (λ x, p ≼ x) l)))
  | ClearOp => ([], Cleared (length l))
  end.

Fixpoint specRun (l : list key) (ops : list queueOp) : list key * list queueRes :=
  match ops with
  | [] => (l, [])
  | op :: ops =>
      let '(l, r) := specExec l op in
      let '(l, rs) := specRun l ops in (l, r :: rs)
  end.

Section refinement.
Context {TL : TrieLib} {TLW : TrieLaws} {DL : DequeLib} {DLW : DequeLaws}.
Implicit Types (q : prefixQueue) (p k : key) (l ps : list key).

Definition RQ_exec (q : ReprovideQueue) (op : queueOp) : option (ReprovideQueue * queueRes) :=
  match op with
  | EnqueueOp ps => q' ← RQ_Enqueue q ps; Some (q', Enqueued)
  | DequeueOp => '(q', (p, ok)) ← RQ_Dequeue q; Some (q', Dequeued p ok)
  | RemoveOp p => '(q', b) ← RQ_Remove q p; Some (q', Removed b)
  | ClearOp => let '(q', n) := RQ_Clear q in Some (q', Cleared n)
  end.

Fixpoint RQ_run (q : ReprovideQueue) (ops : list queueOp)
    : option (ReprovideQueue * list queueRes) :=
  match ops with
  | [] => Some (q, [])
  | op :: ops =>
      '(q, r) ← RQ_exec q op;
      '(q, rs) ← RQ_run q ops;
      Some (q, r :: rs)
  end.

Lemma Push_spec q ps :
  pqInv q → Forall (λ p, length p ≤ KeyLen) ps →
  ∃ q', Push q ps = Some q' ∧ pqInv q' ∧ contents q' = foldl pushSpec (contents q) ps.
Proof.
  unfold Push. revert q. induction ps as [|p ps IH]; intros q Hinv Hps; cbn [foldM foldl]; [by eauto|].
  apply Forall_cons in Hps as [Hp Hps].
  destruct (pushPrefix_spec q p Hinv Hp) as (q' & -> & Hinv' & Hc).
  cbn [mbind option_bind]. rewrite <-Hc. by apply IH.
Qed.

Lemma Pop_spec q :
  pqInv q →
  match contents q with
  | [] => Pop q = Some (q, ([], false))
  | p :: l => ∃ q', Pop q = Some (q', (p, true)) ∧ pqInv q' ∧ contents q' = l
  end.
Proof.
  intros (Hw & Hb & Hnd & Hk). unfold Pop. rewrite Len_Iter. fold (contents q).
  pose proof (PopFront_Iter _ (queue q)) as Hpop. fold (contents q) in Hpop.
  destruct (contents q) as [|p l] eqn:Hc; [done|]. rewrite decide_False by done.
  destruct Hpop as (d & -> & Hd). cbn [mbind option_bind]. eexists. split; [done|].
  apply NoDup_cons in Hnd as [Hp Hnd].
  assert (admissible (prefixes q) p) as Ha.
  { eapply admissible_present; [done|]. apply Hk. set_solver. }
  split; [|done]. unfold pqInv, contents. cbn [queue prefixes]. rewrite Hd. split_and!.
  - by apply Remove_wf.
  - by apply bounded_Remove.
  - done.
  - intros k. rewrite Remove_keys, Hk by done. set_solver.
Qed.

Lemma Remove_spec q p :
  pqInv q →
  ∃ q', Remove q p = Some (q', bool_decide (Exists (λ x, p ≼ x) (contents q))) ∧
    pqInv q' ∧ contents q' = removeSpec (contents q) p.
Proof.
  intros Hinv. unfold Remove.
  destruct (removeSuperstrings_spec q p Hinv) as (q' & i & -> & Hinv' & Hc & Hi).
  cbn [mbind option_bind]. eexists. split_and!; [|done|done]. do 2 f_equal.
  apply bool_decide_ext. destruct (list_find _ _) as [[j x]|] eqn:Hf.
  - apply list_find_Some in Hf as (Hj & Hx & _). apply list_elem_of_lookup_2 in Hj.
    rewrite Exists_exists. split; [eauto|lia].
  - destruct Hi as [-> _]. apply list_find_None in Hf. split; [lia|].
    intros (x & Hx & Hp)%Exists_exists. rewrite Forall_forall in Hf. by apply Hf in Hx.
Qed.

Lemma Clear_spec q :
  let '(q', n) := Clear q in pqInv q' ∧ contents q' = [] ∧ n = length (contents q).
Proof.
  unfold Clear, Size, pqInv, contents. cbn [queue prefixes]. rewrite Iter_Clear, Len_Iter.
  split_and!; try done; constructor.
Qed.

Lemma RQ_exec_spec (q : ReprovideQueue) op :
  pqInv (rq_queue q) → queueOpOk op →
  ∃ q' : ReprovideQueue, RQ_exec q op = Some (q', (specExec (contents (rq_queue q)) op).2) ∧
    pqInv (rq_queue q') ∧ contents (rq_queue q') = (specExec (contents (rq_queue q)) op).1.
Proof.
  destruct q as [q]. intros Hinv Hop. cbn [rq_queue] in *. destruct op as [ps| |p|];
    cbn [RQ_exec specExec fst snd].
  - unfold RQ_Enqueue. cbn [rq_queue]. destruct (Push_spec q ps Hinv Hop) as (q' & -> & ? & ?).
    by exists (mkReprovideQueue q').
  - unfold RQ_Dequeue. pose proof (Pop_spec q Hinv) as Hpop. cbn [rq_queue].
    destruct (contents q) as [|p l] eqn:Hc; cbn [fst snd].
    + rewrite Hpop. by exists (mkReprovideQueue q).
    + destruct Hpop as (q' & -> & ? & ?). by exists (mkReprovideQueue q').
  - unfold RQ_Remove. destruct (Remove_spec q p Hinv) as (q' & Hr & ? & ?). cbn [rq_queue].
    rewrite Hr. by exists (mkReprovideQueue q').
  - pose proof (Clear_spec q) as Hcl. unfold RQ_Clear. cbn [rq_queue].
    destruct (Clear q) as [q' n]. destruct Hcl as (? & ? & ->). by exists (mkReprovideQueue q').
Qed.

Lemma NewReprovideQueue_inv :
  pqInv (rq_queue NewReprovideQueue) ∧ contents (rq_queue NewReprovideQueue) = [].
Proof.
  unfold pqInv, contents. cbn [rq_queue NewReprovideQueue queue prefixes]. rewrite Iter_zero.
  split_and!; try done; constructor.
Qed.

Lemma RQ_run_spec (q : ReprovideQueue) ops :
  pqInv (rq_queue q) → Forall queueOpOk ops →
  ∃ q' : ReprovideQueue, RQ_run q ops = Some (q', (specRun (contents (rq_queue q)) ops).2) ∧
    pqInv (rq_queue q') ∧ contents (rq_queue q') = (specRun (contents (rq_queue q)) ops).1.
Proof.
  revert q. induction ops as [|op ops IH]; intros q Hinv Hops; cbn [RQ_run specRun]; [by eauto|].
  apply Forall_cons in Hops as [Hop Hops].
  destruct (RQ_exec_spec q op Hinv Hop) as (q1 & -> & Hinv1 & Hc1). cbn [mbind option_bind].
  destruct (IH q1 Hinv1 Hops) as (q2 & -> & Hinv2 & Hc2). cbn [mbind option_bind].
  rewrite Hc1 in *. destruct (specExec _ op) as [l1 r]. cbn [fst snd] in *.
  destruct (specRun l1 ops) as [l2 rs]. cbn [fst snd] in *. eauto.
Qed.

(** C13: No sequence of operations on a new [ReprovideQueue] panics, and every
    operation returns what the abstract queue of prefixes returns: the
    queue order, the consolidation of superstrings at the position of the
    first one, and the results of the operations are those documented. *)
Theorem ReprovideQueue_refines ops :
  Forall queueOpOk ops →
  ∃ q : ReprovideQueue, RQ_run NewReprovideQueue ops = Some (q, (specRun [] ops).2) ∧
    pqInv (rq_queue q) ∧ contents (rq_queue q) = (specRun [] ops).1.
Proof.
  intros Hops. destruct NewReprovideQueue_inv as [Hinv Hc].
  rewrite <-Hc. by apply RQ_run_spec.
Qed.

Lemma pushSpec_covers l p k :
  (∃ x, x ∈ pushSpec l p ∧ x ≼ k) ↔ p ≼ k ∨ ∃ x, x ∈ l ∧ x ≼ k.
Proof.
  unfold pushSpec. destruct (list_find _ l) as [[i x]|] eqn:Hf.
  - setoid_rewrite elem_of_app. setoid_rewrite elem_of_cons. setoid_rewrite list_elem_of_filter.
    split.
    + intros (y & [Hy|[->|[_ Hy]]] & Hk); [right|by left|right]; exists y; split; try done.
      * by eapply subseteq_take.
      * by eapply subseteq_drop.
    + intros [Hp|(y & Hy & Hk)]; [eauto|]. destruct (decide (p ≼ y)) as [Hpy|Hpy].
      * exists p. split; [auto|by etrans].
      * exists y. split; [|done]. rewrite <-(take_drop i l), elem_of_app in Hy. tauto.
  - case_decide as Hex.
    + split; [auto|]. intros [Hp|?]; [|done]. apply Exists_exists in Hex as (x & Hx & Hxp).
      exists x. split; [done|by etrans].
    + setoid_rewrite elem_of_app. setoid_rewrite list_elem_of_singleton. naive_solver.
Qed.

(** Enqueuing a prefix on a queue whose trie and order agree does not
    panic, keeps the prefixes distinct and non-overlapping, and adds to the
    covered keyspace exactly the region of the prefix. *)
Theorem Push_covers q p :
  pqInv q → length p ≤ KeyLen →
  ∃ q', Push q [p] = Some q' ∧ pqInv q' ∧ antichain (contents q') ∧ NoDup (contents q') ∧
    ∀ k, (∃ x, x ∈ contents q' ∧ x ≼ k) ↔ p ≼ k ∨ ∃ x, x ∈ contents q ∧ x ≼ k.
Proof.
  intros Hinv Hp. destruct (Push_spec q [p] Hinv) as (q' & Hq & Hinv' & Hc);
    [by apply Forall_singleton|].
  exists q'. split_and!; [done|done|by apply pqInv_antichain|apply Hinv'|].
  intros k. rewrite Hc. apply pushSpec_covers.
Qed.
End refinement.

(** ** Witnesses *)

(** "000" and "001" are consolidated at the position of "000". *)
Lemma ReprovideQueue_refines_witness :
  let ops := [EnqueueOp [bitstr "000"; bitstr "1"; bitstr "001"]; EnqueueOp [bitstr "00"]; DequeueOp] in
  (specRun [] ops).2 = [Enqueued; Enqueued; Dequeued (bitstr "00") true] ∧
  ∃ q, RQ_run NewReprovideQueue ops = Some (q, (specRun [] ops).2) ∧
    pqInv (rq_queue q) ∧ contents (rq_queue q) = (specRun [] ops).1.
Proof. split; [reflexivity|]. apply ReprovideQueue_refines. by_compute. Defined.

Lemma Push_covers_witness :
  let q := mkPrefixQueue (DL := listDeque) [bitstr "01"; bitstr "1"]
             (mkTrie [(bitstr "01", ()); (bitstr "1", ())]) in
  ∃ q', Push q [bitstr "0"] = Some q' ∧ pqInv q' ∧ antichain (contents q') ∧ NoDup (contents q') ∧
    ∀ k, (∃ x, x ∈ contents q' ∧ x ≼ k) ↔ bitstr "0" ≼ k ∨ ∃ x, x ∈ contents q ∧ x ≼ k.
Proof.
  apply Push_covers; by_compute.
Defined.
