(* ===== verification/ProvideQueue.v ===== *)
(** * The provide queue

    Models [provider/internal/queue/provide.go]: the multihashes waiting to be
    provided, grouped by keyspace prefix.  The mutex makes every method
    atomic.  [MhToBit256] (a hash of the multihash) is a parameter.  [None] is
    a Go panic. *)

From S2P Require Import Prelude Key Trie TrieImpl Allocate Deque PrefixQueue.

(** ** Definitions *)

Section definitions.
Context {TL : TrieLib} {DL : DequeLib} {mh : Type} (MhToBit256 : mh → key).

(** [ProvideQueue] *)
Record ProvideQueue := mkProvideQueue {
  pvq_queue : prefixQueue;
  pvq_keys : trie mh;
}.

(** [NewProvideQueue] *)
Definition NewProvideQueue : ProvideQueue :=
  mkProvideQueue (mkPrefixQueue dq_zero Empty) Empty.

(** [enqueueNoLock] *)
Definition enqueueNoLock (q : ProvideQueue) (prefix : key) (ks : list mh) : option ProvideQueue :=
  queue' ← Push (pvq_queue q) [prefix];
  Some (mkProvideQueue queue' (trie_AddMany (pvq_keys q) ((λ h, (MhToBit256 h, h)) <$> ks))).

(** [Enqueue] *)
Definition Enqueue (q : ProvideQueue) (prefix : key) (ks : list mh) : option ProvideQueue :=
  if decide (length ks = 0) then Some q else enqueueNoLock q prefix ks.

(** [Dequeue] *)
Definition Dequeue (q : ProvideQueue) : option (ProvideQueue * (key * list mh * bool)) :=
  '(queue', (prefix, ok)) ← Pop (pvq_queue q);
  if negb ok then Some (mkProvideQueue queue' (pvq_keys q), (prefix, [], false))
  else
    let '(subtrie, _) := FindSubtrie (pvq_keys q) prefix in
    ks ← AllValues subtrie zeroKey;
    keys' ← PruneSubtrie (pvq_keys q) prefix;
    Some (mkProvideQueue queue' keys', (prefix, ks, true)).

(** [DequeueMatching] *)
Definition DequeueMatching (q : ProvideQueue) (prefix : key)
    : option (ProvideQueue * list mh) :=
  let '(subtrie, ok) := FindSubtrie (pvq_keys q) prefix in
  if negb ok then Some (q, [])
  else
    ks ← AllValues subtrie zeroKey;
    keys' ← PruneSubtrie (pvq_keys q) prefix;
    '(queue', removed) ← Remove (pvq_queue q) prefix;
    if negb removed then
      '(shorterPrefix, ok) ← FindPrefixOfKey (prefixes queue') prefix;
      if (ok : bool) && negb (FindSubtrie keys' shorterPrefix).2 then
        '(queue'', _) ← Remove queue' shorterPrefix;
        Some (mkProvideQueue queue'' keys', ks)
      else Some (mkProvideQueue queue' keys', ks)
    else Some (mkProvideQueue queue' keys', ks).

(** One iteration of the first loop of [Remove]: the keys left and the
    prefixes to look at. *)
Definition removeKey (ps : trie ()) (s : trie mh * gset key) (h : mh)
    : option (trie mh * gset key) :=
  let '(ks, matchingPrefixes) := s in
  let k := MhToBit256 h in
  '(prefix, ok) ← FindPrefixOfKey ps k;
  Some (trie_Remove ks k,
        if ok : bool then matchingPrefixes ∪ {[prefix]} else matchingPrefixes).

(** [Remove] *)
Definition PVQ_Remove (q : ProvideQueue) (hs : list mh) : option ProvideQueue :=
  '(keys', matchingPrefixes) ← foldM (removeKey (prefixes (pvq_queue q))) (pvq_keys q, ∅) hs;
  let prefixesToRemove :=
    filter (λ prefix, (FindSubtrie keys' prefix).2 = false) (elements matchingPrefixes) in
  if decide (0 < length prefixesToRemove) then
    '(queue', _) ← removePrefixesFromQueue (pvq_queue q) prefixesToRemove;
    Some (mkProvideQueue queue' keys')
  else Some (mkProvideQueue (pvq_queue q) keys').

(** [IsEmpty], [Size], [NumRegions], [Clear] *)
Definition PVQ_IsEmpty (q : ProvideQueue) : bool := IsEmptyLeaf (pvq_keys q).
Definition PVQ_Size (q : ProvideQueue) : nat := trie_Size (pvq_keys q).
Definition NumRegions (q : ProvideQueue) : nat := Size (pvq_queue q).
Definition PVQ_Clear (q : ProvideQueue) : ProvideQueue * nat :=
  (mkProvideQueue (Clear (pvq_queue q)).1 Empty, trie_Size (pvq_keys q)).
End definitions.

(** ** Invariant *)

Section correct.
Context {TL : TrieLib} {TLW : TrieLaws} {DL : DequeLib} {DLW : DequeLaws}.
Context {mh : Type} (MhToBit256 : mh → key).
Hypothesis MhToBit256_length : ∀ h, length (MhToBit256 h) = KeyLen.
Hypothesis MhToBit256_inj : ∀ h h', MhToBit256 h = MhToBit256 h' → h = h'.
Implicit Types (q : @ProvideQueue DL mh) (p k : key) (h : mh) (ks : trie mh).

(** The trie of keys: full identifiers, each with its multihash. *)
Definition keysOk ks : Prop :=
  wf ks ∧ Forall (λ e, e.1 = MhToBit256 e.2) (entries ks).

(** The multihash is stored. *)
Definition stored ks h : Prop := MhToBit256 h ∈ keys ks.

(** Some key is below the prefix. *)
Definition hasKey ks p : Prop := Exists (λ k, p ≼ k) (keys ks).

(** Every queued prefix has a key, and every key has a queued prefix. *)
Definition pvqInv q : Prop :=
  pqInv (pvq_queue q) ∧ keysOk (pvq_keys q) ∧
  (∀ p, p ∈ contents (pvq_queue q) → hasKey (pvq_keys q) p) ∧
  (∀ k, k ∈ keys (pvq_keys q) → ∃ p, p ∈ contents (pvq_queue q) ∧ p ≼ k).

#[export] Instance hasKey_dec ks p : Decision (hasKey ks p).
Proof. unfold hasKey. apply _. Defined.

#[export] Instance keysOk_dec ks : Decision (keysOk ks).
Proof. unfold keysOk. apply _. Defined.

Lemma pvqInv_alt q :
  pvqInv q ↔ pqInv (pvq_queue q) ∧ keysOk (pvq_keys q) ∧
    Forall (hasKey (pvq_keys q)) (contents (pvq_queue q)) ∧
    Forall (λ k, Exists (λ p, p ≼ k) (contents (pvq_queue q))) (keys (pvq_keys q)).
Proof. unfold pvqInv. rewrite !Forall_forall. by setoid_rewrite Exists_exists. Qed.

#[export] Instance pvqInv_dec q : Decision (pvqInv q).
Proof. exact (decide_by_iff (pvqInv_alt q)). Defined.

Lemma keysOk_full ks : keysOk ks → fullKeys ks.
Proof.
  intros [_ He]. apply Forall_fmap. eapply Forall_impl; [exact He|].
  intros e Hh. simpl. by rewrite Hh.
Qed.

Lemma keysOk_bounded ks : keysOk ks → bounded KeyLen ks.
Proof. intros H. by apply fullKeys_bounded, keysOk_full. Qed.

Lemma keysOk_entry ks e : keysOk ks → e ∈ entries ks ↔ e.1 = MhToBit256 e.2 ∧ stored ks e.2.
Proof.
  intros [_ He]. rewrite Forall_forall in He. unfold stored. split.
  - intros Hin. rewrite <-(He e Hin). split; [done|by apply list_elem_of_fmap_2].
  - intros [Hh (e' & Heq & Hin)%list_elem_of_fmap].
    assert (e = e') as ->; [|done]. pose proof (He e' Hin) as Hh'.
    rewrite Hh' in Heq. apply MhToBit256_inj in Heq. destruct e, e'. simpl in *. congruence.
Qed.

Lemma keysOk_key ks k : keysOk ks → k ∈ keys ks → ∃ h, k = MhToBit256 h ∧ stored ks h.
Proof.
  intros Hok (e & -> & He)%list_elem_of_fmap. apply keysOk_entry in He as [? ?]; [|done]. eauto.
Qed.

(** Full identifiers only overlap when they are equal. *)
Lemma keysOk_admissible ks h : keysOk ks → admissible ks (MhToBit256 h).
Proof.
  intros Hok k Hk Ho. apply keysOk_key in Hk as (h' & -> & _); [|done].
  symmetry. apply overlap_same_length; [done|]. by rewrite !MhToBit256_length.
Qed.

Lemma keysOk_AddMany ks hs :
  keysOk ks → let ks' := trie_AddMany ks ((λ h, (MhToBit256 h, h)) <$> hs) in
  keysOk ks' ∧ ∀ h, stored ks' h ↔ h ∈ hs ∨ stored ks h.
Proof.
  intros Hok. set (l := _ <$> hs). cbv zeta.
  assert (∀ k, k ∈ l.*1 ↔ ∃ h, k = MhToBit256 h ∧ h ∈ hs) as Hl.
  { intros k. unfold l. rewrite <-list_fmap_compose, list_elem_of_fmap. done. }
  assert (antichain (l.*1 ++ keys ks)) as Ha.
  { intros k1 k2 H1 H2 Ho. apply overlap_same_length; [done|].
    assert (∀ k, k ∈ l.*1 ++ keys ks → length k = KeyLen) as Hlen.
    { intros k [(h & -> & _)%Hl|Hk]%elem_of_app; [done|].
      by apply keysOk_key in Hk as (h & -> & _). }
    by rewrite !Hlen. }
  pose proof Hok as [Hw He]. split; [split|].
  - by apply AddMany_wf.
  - apply Forall_forall. intros e Hin.
    apply (proj2 (AddMany_entries _ ks l Hw Ha)) in Hin as [Hin|Hin].
    + apply list_elem_of_fmap in Hin as (h & -> & _). done.
    + rewrite Forall_forall in He. auto.
  - intros h. unfold stored. rewrite AddMany_keys, Hl by done.
    split; [intros [(h' & ->%MhToBit256_inj & ?)|?]; auto|]. intros [?|?]; eauto.
Qed.

Lemma keysOk_notBelow ks ks' p :
  keysOk ks → wf ks' → entries ks' = notBelow p (entries ks) →
  keysOk ks' ∧ ∀ h, stored ks' h ↔ stored ks h ∧ ¬ p ≼ MhToBit256 h.
Proof.
  intros Hok Hw He. pose proof Hok as [_ Hh]. split; [split; [done|]|].
  - rewrite He. rewrite Forall_forall in *. intros e [_ Hin]%elem_of_notBelow. auto.
  - intros h. unfold stored. rewrite He, !list_elem_of_fmap. setoid_rewrite elem_of_notBelow. split.
    + intros (e & -> & Hn & Hin). eauto.
    + intros [(e & -> & Hin) Hn]. eauto.
Qed.

(** Reading the keys below a prefix. *)
Lemma subtrie_values ks s p :
  keysOk ks → FindSubtrie ks p = (s, true) →
  ∃ hs, AllValues s zeroKey = Some hs ∧ NoDup hs ∧ hs ≠ [] ∧
    ∀ h, h ∈ hs ↔ stored ks h ∧ p ≼ MhToBit256 h.
Proof.
  intros Hok Hf. pose proof (keysOk_bounded _ Hok) as Hb. pose proof Hok as [Hw He].
  apply FindSubtrie_true in Hf as (Hs & Hne & r & Hws); [|done].
  exists (entries s).*2. split; [by eapply AllValues_zeroKey; eauto using bounded_below|].
  assert (∀ e, e ∈ entries s → e.1 = MhToBit256 e.2) as Hh.
  { intros e. rewrite Hs. intros [_ Hin]%elem_of_below. rewrite Forall_forall in He. auto. }
  split_and!.
  - apply (NoDup_fmap_1 MhToBit256). assert (MhToBit256 <$> (entries s).*2 = keys s) as ->.
    { rewrite <-list_fmap_compose. apply list_fmap_ext. intros i e Hi. simpl. symmetry.
      apply Hh. by apply list_elem_of_lookup_2 in Hi. }
    by eapply wf_at_NoDup.
  - by intros Hn%fmap_nil_inv.
  - intros h. rewrite list_elem_of_fmap, Hs. setoid_rewrite elem_of_below. split.
    + intros (e & -> & Hp & Hin). apply keysOk_entry in Hin as [Heq Hst]; [|done]. by rewrite <-Heq.
    + intros [Hst Hp]. exists (MhToBit256 h, h). split_and!; [done|done|]. by apply keysOk_entry.
Qed.

Lemma hasKey_stored ks p : keysOk ks → hasKey ks p ↔ ∃ h, stored ks h ∧ p ≼ MhToBit256 h.
Proof.
  intros Hok. unfold hasKey. rewrite Exists_exists. split.
  - intros (k & Hk & Hp). apply keysOk_key in Hk as (h & -> & ?); eauto.
  - intros (h & Hh & Hp). eauto.
Qed.

Lemma FindSubtrie_hasKey ks p : keysOk ks → (FindSubtrie ks p).2 = true ↔ hasKey ks p.
Proof.
  intros [Hw _]. destruct (FindSubtrie ks p) as [s []] eqn:Hf; cbn [snd].
  - split; [|done]. intros _. apply FindSubtrie_true in Hf as (Hs & Hne & _); [|done].
    destruct (entries s) as [|e l] eqn:Hes; [done|]. unfold hasKey. apply Exists_exists.
    assert (e ∈ below p (entries ks)) as [Hp Hin]%elem_of_below by (rewrite <-Hs; set_solver).
    exists e.1. split; [by apply list_elem_of_fmap_2|done].
  - split; [done|]. intros (k & Hk & Hp)%Exists_exists. by destruct (FindSubtrie_false _ _ _ Hw Hf k Hk).
Qed.

(** [q'] is [q] after the removal of the keys that do not satisfy [keep]:
    the prefixes that still have a key stay, in the same order. *)
Definition keepsOnly q (keep : mh → Prop) q' : Prop :=
  pvqInv q' ∧
  (∀ h, stored (pvq_keys q') h ↔ stored (pvq_keys q) h ∧ keep h) ∧
  contents (pvq_queue q') = filter (λ p, hasKey (pvq_keys q') p) (contents (pvq_queue q)).

Lemma keepsOnly_intro q (keep : mh → Prop) q' :
  pvqInv q → pqInv (pvq_queue q') → keysOk (pvq_keys q') →
  (∀ h, stored (pvq_keys q') h ↔ stored (pvq_keys q) h ∧ keep h) →
  contents (pvq_queue q') = filter (λ p, hasKey (pvq_keys q') p) (contents (pvq_queue q)) →
  keepsOnly q keep q'.
Proof.
  intros (_ & Hok & _ & HB) Hpq Hok' Hst Hc. split_and!; [split_and!|done|done]; [done|done| |].
  - intros p. rewrite Hc. by intros [? _]%list_elem_of_filter.
  - intros k Hk. apply keysOk_key in Hk as (h & -> & Hh); [|done]. pose proof Hh as [Hh0 _]%Hst.
    destruct (HB _ Hh0) as (p & Hp & Hpk). exists p. split; [|done]. rewrite Hc.
    apply list_elem_of_filter. split; [|done]. apply hasKey_stored; [done|]. eauto.
Qed.

Lemma enqueueNoLock_spec q p hs :
  pvqInv q → hs ≠ [] → Forall (λ h, p ≼ MhToBit256 h) hs →
  ∃ q', enqueueNoLock MhToBit256 q p hs = Some q' ∧ pvqInv q' ∧
    contents (pvq_queue q') = pushSpec (contents (pvq_queue q)) p ∧
    ∀ h, stored (pvq_keys q') h ↔ h ∈ hs ∨ stored (pvq_keys q) h.
Proof.
  intros (Hpq & Hok & HA & HB) Hne Hhs. rewrite Forall_forall in Hhs.
  destruct hs as [|h0 hs'] eqn:Ehs; [done|]. rewrite <-Ehs in *. clear Hne.
  assert (h0 ∈ hs) as Hh0 by (rewrite Ehs; set_solver). clear Ehs.
  assert (length p ≤ KeyLen) as Hl.
  { rewrite <-(MhToBit256_length h0). by apply prefix_length, Hhs. }
  unfold enqueueNoLock. destruct (Push_spec (pvq_queue q) [p]) as (pq' & -> & Hpq' & Hc);
    [done|by apply Forall_singleton|]. cbn [mbind option_bind foldl] in *.
  destruct (keysOk_AddMany (pvq_keys q) hs Hok) as [Hok' Hst]. cbv zeta in *.
  eexists. split; [done|]. split_and!; [split_and!|done|done]; cbn [pvq_queue pvq_keys]; [done|done| |].
  - intros x Hx. apply hasKey_stored; [done|]. rewrite Hc in Hx.
    assert (x = p ∨ x ∈ contents (pvq_queue q)) as [->|Hx'].
    { revert Hx. unfold pushSpec. destruct (list_find _ _) as [[i y]|].
      - rewrite elem_of_app, elem_of_cons, list_elem_of_filter.
        intros [Hx|[->|[_ Hx]]]; [right|by left|right].
        + by eapply subseteq_take.
        + by eapply subseteq_drop.
      - case_decide; [auto|]. rewrite elem_of_app, list_elem_of_singleton. tauto. }
    + exists h0. split; [apply Hst; auto|auto].
    + apply HA, hasKey_stored in Hx' as (h & Hh & Hp); [|done]. exists h. split; [apply Hst; auto|done].
  - intros k Hk. apply keysOk_key in Hk as (h & -> & Hh); [|done]. rewrite Hc.
    apply pushSpec_covers. apply Hst in Hh as [Hh|Hh]; [left; auto|right; auto].
Qed.

Lemma Dequeue_spec q :
  pvqInv q →
  match contents (pvq_queue q) with
  | [] => Dequeue q = Some (q, ([], [], false))
  | p :: l => ∃ q' hs, Dequeue q = Some (q', (p, hs, true)) ∧
      NoDup hs ∧ hs ≠ [] ∧ (∀ h, h ∈ hs ↔ stored (pvq_keys q) h ∧ p ≼ MhToBit256 h) ∧
      keepsOnly q (λ h, ¬ p ≼ MhToBit256 h) q' ∧ contents (pvq_queue q') = l
  end.
Proof.
  intros Hinv. pose proof Hinv as (Hpq & Hok & HA & HB). unfold Dequeue.
  pose proof (Pop_spec (pvq_queue q) Hpq) as Hpop. pose proof (pqInv_antichain _ Hpq) as Hac.
  destruct (contents (pvq_queue q)) as [|p l] eqn:Hc.
  { rewrite Hpop. cbn. by destruct q. }
  destruct Hpop as (pq' & -> & Hpq' & Hc'). cbn [mbind option_bind negb].
  destruct (FindSubtrie (pvq_keys q) p) as [s ok] eqn:Hf.
  assert (ok = true) as ->.
  { replace ok with (FindSubtrie (pvq_keys q) p).2 by (by rewrite Hf).
    apply FindSubtrie_hasKey; [done|]. apply HA. set_solver. }
  destruct (subtrie_values _ _ _ Hok Hf) as (hs & -> & Hnd & Hne & Hhs). cbn [mbind option_bind].
  destruct (PruneSubtrie_spec (pvq_keys q) p (proj1 Hok)) as (ks' & -> & Hw' & He').
  cbn [mbind option_bind]. destruct (keysOk_notBelow _ _ _ Hok Hw' He') as [Hok' Hst].
  eexists _, hs. split_and!; [done|done|done|done| |done].
  apply keepsOnly_intro; [done|done|done|done|]. cbn [pvq_queue pvq_keys]. rewrite Hc', Hc.
  pose proof (proj1 (proj2 (proj2 Hpq))) as Hnd'. rewrite Hc in Hnd'. apply NoDup_cons in Hnd' as [Hpl _].
  rewrite filter_cons_False.
  - rewrite list_filter_all; [done|]. intros x Hx. apply hasKey_stored; [done|].
    destruct (proj1 (hasKey_stored _ x Hok)) as (h & Hh & Hxh); [apply HA; set_solver|].
    exists h. split; [|done]. apply Hst. split; [done|]. intros Hph. apply Hpl.
    rewrite (Hac p x); [done|set_solver|set_solver|]. by eapply prefix_weak_total.
  - rewrite hasKey_stored by done. intros (h & [_ Hh]%Hst & Hp). done.
Qed.

(** The queue loses the prefixes [gone], none of which has a key left. *)
Lemma filter_keepsOnly q ks' (gone : key → Prop) `{∀ x, Decision (gone x)} :
  (∀ x, x ∈ contents (pvq_queue q) → gone x → ¬ hasKey ks' x) →
  (∀ x, x ∈ contents (pvq_queue q) → ¬ gone x → hasKey ks' x) →
  filter (λ x, ¬ gone x) (contents (pvq_queue q)) =
    filter (λ x, hasKey ks' x) (contents (pvq_queue q)).
Proof.
  intros H1 H2. apply list_filter_ext. intros x Hx. split; [by apply H2|].
  intros Hk Hg. by apply (H1 x).
Qed.

(** A prefix that does not overlap [p] keeps its keys. *)
Lemma hasKey_disjoint ks ks' p x :
  keysOk ks → keysOk ks' →
  (∀ h, stored ks' h ↔ stored ks h ∧ ¬ p ≼ MhToBit256 h) →
  ¬ overlap p x → hasKey ks x → hasKey ks' x.
Proof.
  intros Hok Hok' Hst Ho. rewrite !hasKey_stored by done. intros (h & Hh & Hx). exists h.
  split; [|done]. apply Hst. split; [done|]. intros Hp. apply Ho. by eapply prefix_weak_total.
Qed.

Lemma DequeueMatching_spec q p :
  pvqInv q →
  ∃ q' hs, DequeueMatching q p = Some (q', hs) ∧ NoDup hs ∧
    (∀ h, h ∈ hs ↔ stored (pvq_keys q) h ∧ p ≼ MhToBit256 h) ∧
    keepsOnly q (λ h, ¬ p ≼ MhToBit256 h) q'.
Proof.
  intros Hinv. pose proof Hinv as (Hpq & Hok & HA & HB). unfold DequeueMatching.
  pose proof (pqInv_antichain _ Hpq) as Hac.
  destruct (FindSubtrie (pvq_keys q) p) as [s ok] eqn:Hf.
  pose proof (FindSubtrie_hasKey _ p Hok) as Hhas. rewrite Hf in Hhas. cbn [snd] in Hhas.
  destruct ok; cbn [negb]; last first.
  { assert (∀ h, stored (pvq_keys q) h → ¬ p ≼ MhToBit256 h) as Hno.
    { intros h Hh Hp. assert (false = true); [|done]. apply Hhas, hasKey_stored; eauto. }
    eexists _, []. split_and!; [done|constructor| |].
    - intros h. rewrite elem_of_nil. split; [done|]. intros [Hh Hp]. by apply (Hno h).
    - apply keepsOnly_intro; [done|done|done| |].
      + intros h. split; [|by intros [? _]]. intros Hh. split; [done|by apply Hno].
      + symmetry. by apply list_filter_all. }
  destruct (subtrie_values _ _ _ Hok Hf) as (hs & -> & Hnd & Hne & Hhs). cbn [mbind option_bind].
  destruct (PruneSubtrie_spec (pvq_keys q) p (proj1 Hok)) as (ks' & -> & Hw' & He').
  cbn [mbind option_bind]. destruct (keysOk_notBelow _ _ _ Hok Hw' He') as [Hok' Hst].
  destruct (Remove_spec (pvq_queue q) p Hpq) as (pq1 & -> & Hpq1 & Hc1).
  cbn [mbind option_bind]. case_bool_decide as Hex; cbn [negb].
  - (* superstrings of [p] were queued and are removed *)
    eexists _, hs. split_and!; [done|done|done|].
    apply keepsOnly_intro; [done|done|done|done|]. cbn [pvq_queue pvq_keys]. rewrite Hc1.
    apply filter_keepsOnly; intros x Hx Hpx.
    + rewrite hasKey_stored by done. intros (h & [_ Hh]%Hst & Hxh). apply Hh. by etrans.
    + eapply hasKey_disjoint; [exact Hok|done|done| |by apply HA]. intros [Ho|Ho]; [done|].
      apply Exists_exists in Hex as (y & Hy & Hpy). apply Hpx.
      rewrite (Hac x y); [done|done|done|left; by etrans].
  - assert (Hc1' : contents pq1 = contents (pvq_queue q)).
    { rewrite Hc1. apply list_filter_all. intros x Hx Hp. apply Hex, Exists_exists. eauto. }
    assert (∀ x, x ∈ contents (pvq_queue q) → ¬ x ≼ p → hasKey ks' x) as Hother.
    { intros x Hx Hxp. eapply hasKey_disjoint; [exact Hok|done|done| |by apply HA].
      intros [Ho|Ho]; [|done]. apply Hex, Exists_exists. eauto. }
    pose proof Hpq1 as (Hwp & _ & _ & Hkp).
    destruct (FindPrefixOfKey_spec (prefixes pq1) p Hwp) as [(r & -> & Hr & Hrp)|(r & -> & Hno)];
      cbn [mbind option_bind andb].
    + apply Hkp in Hr. rewrite Hc1' in Hr.
      assert (∀ x, x ∈ contents (pvq_queue q) → x ≼ p → x = r) as Huniq.
      { intros x Hx Hxp. apply Hac; [done|done|]. by eapply prefix_weak_total. }
      destruct ((FindSubtrie ks' r).2) eqn:Hleft; cbn [negb].
      * apply FindSubtrie_hasKey in Hleft; [|done]. eexists _, hs. split_and!; [done|done|done|].
        apply keepsOnly_intro; [done|done|done|done|]. cbn [pvq_queue pvq_keys]. rewrite Hc1'.
        symmetry. apply list_filter_all. intros x Hx. destruct (decide (x ≼ p)) as [Hxp|Hxp]; [|auto].
        by rewrite (Huniq x).
      * assert (¬ hasKey ks' r) as Hnk.
        { rewrite <-FindSubtrie_hasKey by done. by rewrite Hleft. }
        destruct (Remove_spec pq1 r Hpq1) as (pq2 & -> & Hpq2 & Hc2). cbn [mbind option_bind].
        eexists _, hs. split_and!; [done|done|done|].
        apply keepsOnly_intro; [done|done|done|done|]. cbn [pvq_queue pvq_keys].
        rewrite Hc2, Hc1'. apply filter_keepsOnly; intros x Hx Hrx.
        -- by rewrite <-(Hac r x) by (done || by left).
        -- apply Hother; [done|]. intros Hxp. apply Hrx. by rewrite (Huniq x).
    + eexists _, hs. split_and!; [done|done|done|].
      apply keepsOnly_intro; [done|done|done|done|]. cbn [pvq_queue pvq_keys]. rewrite Hc1'.
      symmetry. apply list_filter_all. intros x Hx. apply Hother; [done|].
      apply Hno, Hkp. by rewrite Hc1'.
Qed.

(** The first loop of [Remove]. *)
Lemma removeKey_loop (ps : trie ()) ks m hs :
  wf ps → keysOk ks →
  ∃ ks' m', foldM (removeKey MhToBit256 ps) (ks, m) hs = Some (ks', m') ∧ keysOk ks' ∧
    (∀ h, stored ks' h ↔ stored ks h ∧ h ∉ hs) ∧
    (∀ x, x ∈ m' ↔ x ∈ m ∨ x ∈ keys ps ∧ ∃ h, h ∈ hs ∧ x ≼ MhToBit256 h).
Proof.
  intros Hps. revert ks m. induction hs as [|h hs IH]; intros ks m Hok; cbn [foldM].
  { eexists _, _. split_and!; [done|done| |]; set_solver. }
  pose proof (keysOk_admissible ks h Hok) as Hadm. pose proof Hok as [Hw He].
  assert (keysOk (trie_Remove ks (MhToBit256 h))) as Hok'.
  { split; [by apply Remove_wf|]. rewrite Forall_forall in *. intros e.
    rewrite Remove_entries by done. intros [_ Hin]%list_elem_of_filter. auto. }
  assert (∀ h', stored (trie_Remove ks (MhToBit256 h)) h' ↔ stored ks h' ∧ h' ≠ h) as Hst.
  { intros h'. unfold stored. rewrite Remove_keys by done. split.
    - intros [Hne Hin]. split; [done|]. by intros ->.
    - intros [Hin Hne]. split; [|done]. by intros ->%MhToBit256_inj. }
  assert (removeKey MhToBit256 ps (ks, m) h = '(r, ok) ← FindPrefixOfKey ps (MhToBit256 h);
    Some (trie_Remove ks (MhToBit256 h), if ok : bool then m ∪ {[r]} else m)) as -> by done.
  destruct (FindPrefixOfKey_spec ps (MhToBit256 h) Hps) as [(r & -> & Hr & Hrp)|(r & -> & Hno)];
    cbn [mbind option_bind].
  - destruct (IH (trie_Remove ks (MhToBit256 h)) (m ∪ {[r]}) Hok') as (ks' & m' & -> & Hok'' & Hst' & Hm).
    eexists _, _. split_and!; [done|done| |].
    + intros h'. rewrite Hst', Hst, not_elem_of_cons. tauto.
    + intros x. rewrite Hm, elem_of_union, elem_of_singleton. setoid_rewrite elem_of_cons. split.
      * intros [[?| ->]|(? & h' & ? & ?)]; [auto|right; eauto|right; eauto].
      * intros [?|(Hx & h' & [->|?] & Hxh)]; [auto| |right; eauto].
        left. right. eapply (wf_at_antichain [] ps); [done|done|done|]. by eapply prefix_weak_total.
  - destruct (IH (trie_Remove ks (MhToBit256 h)) m Hok') as (ks' & m' & -> & Hok'' & Hst' & Hm).
    eexists _, _. split_and!; [done|done| |].
    + intros h'. rewrite Hst', Hst, not_elem_of_cons. tauto.
    + intros x. rewrite Hm. setoid_rewrite elem_of_cons. split.
      * intros [?|(? & h' & ? & ?)]; [auto|right; eauto].
      * intros [?|(Hx & h' & [->|?] & Hxh)]; [auto| |right; eauto]. by destruct (Hno x).
Qed.

Lemma PVQ_Remove_spec q hs :
  pvqInv q → ∃ q', PVQ_Remove MhToBit256 q hs = Some q' ∧ keepsOnly q (λ h, h ∉ hs) q'.
Proof.
  intros Hinv. pose proof Hinv as (Hpq & Hok & HA & HB). pose proof Hpq as (Hwp & _ & _ & Hkp).
  unfold PVQ_Remove.
  destruct (removeKey_loop (prefixes (pvq_queue q)) (pvq_keys q) ∅ hs Hwp Hok)
    as (ks' & m & -> & Hok' & Hst & Hm). cbn [mbind option_bind]. cbv zeta.
  set (gone := filter _ _).
  assert (∀ x, x ∈ gone ↔ x ∈ contents (pvq_queue q) ∧ ¬ hasKey ks' x) as Hgone.
  { intros x. unfold gone. rewrite list_elem_of_filter, elem_of_elements, Hm, <-Hkp.
    rewrite <-(FindSubtrie_hasKey ks' x Hok'), not_true_iff_false. split; [set_solver|].
    intros [Hx Hno]. split; [done|]. right. split; [done|].
    apply not_true_iff_false in Hno. rewrite FindSubtrie_hasKey, hasKey_stored in Hno by done.
    destruct (proj1 (hasKey_stored _ x Hok)) as (h & Hh & Hxh); [by apply HA, Hkp|].
    exists h. split; [|done]. destruct (decide (hasKey ks' x)) as [Hk|Hk].
    - exfalso. by apply Hno, hasKey_stored.
    - destruct (decide (MhToBit256 h ∈ MhToBit256 <$> hs))
        as [(h' & ->%MhToBit256_inj & ?)%list_elem_of_fmap|Hn]; [done|].
      exfalso. apply Hno. exists h. split; [|done]. apply Hst. split; [done|].
      intros Hin. apply Hn. by apply list_elem_of_fmap_2. }
  case_decide as Hlen.
  - destruct (removePrefixesFromQueue_spec (pvq_queue q) gone) as (pq' & i & x & -> & Hpq' & Hc & _).
    + done.
    + apply NoDup_filter, NoDup_elements.
    + intros Hg. rewrite Hg in Hlen. simpl in Hlen. lia.
    + intros x ?%Hgone. tauto.
    + cbn [mbind option_bind]. eexists. split; [done|].
      apply keepsOnly_intro; [done|done|done|done|]. cbn [pvq_queue pvq_keys]. rewrite Hc.
      apply filter_keepsOnly; intros x' Hx' Hg.
      * by apply Hgone.
      * destruct (decide (hasKey ks' x')) as [?|Hno]; [done|]. destruct Hg. by apply Hgone.
  - eexists. split; [done|]. apply keepsOnly_intro; [done|done|done|done|]. cbn [pvq_queue pvq_keys].
    symmetry. apply list_filter_all. intros x Hx. destruct (decide (hasKey ks' x)) as [?|Hno]; [done|].
    destruct gone as [|y gone'] eqn:Hg; [|simpl in Hlen; lia].
    assert (x ∈ @nil key) as Hin by (apply Hgone; done). by apply not_elem_of_nil in Hin.
Qed.

(** *** Sequences of operations *)

Inductive pvqOp := PEnqueue (p : key) (hs : list mh) | PDequeue | PDequeueMatching (p : key)
  | PRemove (hs : list mh) | PClear.

(** "Supplied keys MUST match the supplied prefix." *)
Definition pvqOpOk (op : pvqOp) : Prop :=
  match op with PEnqueue p hs => Forall (λ h, p ≼ MhToBit256 h) hs | _ => True end.

(** The effect of an operation and the keys it returns. *)
Definition PVQ_exec q (op : pvqOp) : option (@ProvideQueue DL mh * list mh) :=
  match op with
  | PEnqueue p hs => q' ← Enqueue MhToBit256 q p hs; Some (q', [])
  | PDequeue => '(q', (_, hs, _)) ← Dequeue q; Some (q', hs)
  | PDequeueMatching p => DequeueMatching q p
  | PRemove hs => q' ← PVQ_Remove MhToBit256 q hs; Some (q', [])
  | PClear => Some ((PVQ_Clear q).1, [])
  end.

Fixpoint PVQ_run q (ops : list pvqOp) : option (@ProvideQueue DL mh * list mh) :=
  match ops with
  | [] => Some (q, [])
  | op :: ops =>
      '(q, hs) ← PVQ_exec q op;
      '(q, hs') ← PVQ_run q ops;
      Some (q, hs ++ hs')
  end.

Lemma NewProvideQueue_inv : pvqInv (NewProvideQueue : @ProvideQueue DL mh).
Proof.
  destruct NewReprovideQueue_inv as [Hpq Hc]. split_and!; [done|split; [done|constructor]| |].
  - intros p. unfold NewProvideQueue. cbn [pvq_queue]. simpl in Hc. rewrite Hc.
    by intros ?%not_elem_of_nil.
  - by intros k ?%not_elem_of_nil.
Qed.

Lemma Enqueue_spec q p hs :
  pvqInv q → Forall (λ h, p ≼ MhToBit256 h) hs →
  ∃ q', Enqueue MhToBit256 q p hs = Some q' ∧ pvqInv q' ∧
    contents (pvq_queue q') = (if decide (hs = []) then contents (pvq_queue q)
                               else pushSpec (contents (pvq_queue q)) p) ∧
    ∀ h, stored (pvq_keys q') h ↔ h ∈ hs ∨ stored (pvq_keys q) h.
Proof.
  intros Hinv Hhs. unfold Enqueue. destruct hs as [|h hs].
  - exists q. split_and!; [done|done|done|]. intros h. rewrite elem_of_nil. tauto.
  - rewrite decide_False by done. rewrite decide_False by done. by apply enqueueNoLock_spec.
Qed.

Lemma PVQ_exec_inv q op :
  pvqInv q → pvqOpOk op → ∃ q' hs, PVQ_exec q op = Some (q', hs) ∧ pvqInv q'.
Proof.
  intros Hinv Hop. destruct op as [p hs| |p|hs|]; cbn [PVQ_exec pvqOpOk] in *.
  - destruct (Enqueue_spec q p hs Hinv Hop) as (q' & -> & ? & _). cbn. eauto.
  - pose proof (Dequeue_spec q Hinv) as Hd. destruct (contents (pvq_queue q)).
    + rewrite Hd. cbn. eauto.
    + destruct Hd as (q' & hs & -> & _ & _ & _ & [? _] & _). cbn. eauto.
  - destruct (DequeueMatching_spec q p Hinv) as (q' & hs & -> & _ & _ & [? _]). eauto.
  - destruct (PVQ_Remove_spec q hs Hinv) as (q' & -> & [? _]). cbn. eauto.
  - eexists _, _. split; [done|]. cbn [fst PVQ_Clear].
    pose proof (Clear_spec (pvq_queue q)) as Hcl. destruct (Clear (pvq_queue q)) as [pq n].
    destruct Hcl as (Hpq & Hc & _). split_and!; cbn [pvq_queue pvq_keys fst]; [done| | |].
    + split; [done|constructor].
    + intros p. rewrite Hc. by intros ?%not_elem_of_nil.
    + by intros k ?%not_elem_of_nil.
Qed.

(** C14: No sequence of operations on a new [ProvideQueue] panics, and it
    keeps the invariant: the queued prefixes are distinct and do not
    overlap, each has at least one key, and each key has its prefix in the
    queue (so that every key is eventually dequeued). *)
Theorem ProvideQueue_safe ops :
  Forall pvqOpOk ops →
  ∃ q hs, PVQ_run NewProvideQueue ops = Some (q, hs) ∧ pvqInv q.
Proof.
  generalize NewProvideQueue_inv. generalize (NewProvideQueue : @ProvideQueue DL mh).
  intros q. revert q. induction ops as [|op ops IH]; intros q Hinv Hops; cbn [PVQ_run]; [by eauto|].
  apply Forall_cons in Hops as [Hop Hops].
  destruct (PVQ_exec_inv q op Hinv Hop) as (q1 & hs1 & -> & Hinv1). cbn [mbind option_bind].
  destruct (IH q1 Hinv1 Hops) as (q2 & hs2 & -> & Hinv2). cbn. eauto.
Qed.

(** [Enqueue] does not panic, adds exactly the given keys, and places
    the prefix in the queue as the prefix queue does. *)
Theorem Enqueue_correct q p hs :
  pvqInv q → Forall (λ h, p ≼ MhToBit256 h) hs →
  ∃ q', Enqueue MhToBit256 q p hs = Some q' ∧ pvqInv q' ∧
    contents (pvq_queue q') = (if decide (hs = []) then contents (pvq_queue q)
                               else pushSpec (contents (pvq_queue q)) p) ∧
    ∀ h, stored (pvq_keys q') h ↔ h ∈ hs ∨ stored (pvq_keys q) h.
Proof. apply Enqueue_spec. Qed.

(** [Dequeue] does not panic; on an empty queue it returns nothing;
    otherwise it returns the first prefix with all its keys (at least one,
    each once) and leaves the other keys and prefixes. *)
Theorem Dequeue_correct q :
  pvqInv q →
  match contents (pvq_queue q) with
  | [] => Dequeue q = Some (q, ([], [], false))
  | p :: l => ∃ q' hs, Dequeue q = Some (q', (p, hs, true)) ∧
      NoDup hs ∧ hs ≠ [] ∧ (∀ h, h ∈ hs ↔ stored (pvq_keys q) h ∧ p ≼ MhToBit256 h) ∧
      keepsOnly q (λ h, ¬ p ≼ MhToBit256 h) q' ∧ contents (pvq_queue q') = l
  end.
Proof. apply Dequeue_spec. Qed.

(** [DequeueMatching] does not panic, returns exactly the keys below the
    prefix, each once, and removes them; the prefixes that stay queued are
    those that still have keys, in the same order. *)
Theorem DequeueMatching_correct q p :
  pvqInv q →
  ∃ q' hs, DequeueMatching q p = Some (q', hs) ∧ NoDup hs ∧
    (∀ h, h ∈ hs ↔ stored (pvq_keys q) h ∧ p ≼ MhToBit256 h) ∧
    keepsOnly q (λ h, ¬ p ≼ MhToBit256 h) q'.
Proof. apply DequeueMatching_spec. Qed.

(** [Remove] does not panic and removes exactly the given keys; the
    prefixes that stay queued are those that still have keys, in the same
    order. *)
Theorem PVQ_Remove_correct q hs :
  pvqInv q → ∃ q', PVQ_Remove MhToBit256 q hs = Some q' ∧ keepsOnly q (λ h, h ∉ hs) q'.
Proof. apply PVQ_Remove_spec. Qed.
End correct.

(** ** Witnesses *)

(** Four multihashes, whose identifiers start with two given bits. *)
Definition demoMh (h : bool * bool) : key := h.1 :: h.2 :: replicate (KeyLen - 2) false.

Lemma demoMh_length h : length (demoMh h) = KeyLen.
Proof. by destruct h as [[] []]. Qed.

Lemma demoMh_inj h h' : demoMh h = demoMh h' → h = h'.
Proof. destruct h, h'. intros H. apply (f_equal (take 2)) in H. simpl in H. congruence. Qed.

(** "0" with two keys, "11" with one. *)
Definition demoQueue : @ProvideQueue listDeque (bool * bool) :=
  mkProvideQueue
    (mkPrefixQueue (DL := listDeque) [bitstr "0"; bitstr "11"]
      (mkTrie [(bitstr "0", ()); (bitstr "11", ())]))
    (mkTrie ((λ h, (demoMh h, h)) <$> [(false, false); (false, true); (true, true)])).

Lemma ProvideQueue_safe_witness :
  ∃ q hs, PVQ_run demoMh NewProvideQueue
    [PEnqueue (bitstr "0") [(false, true)]; PEnqueue [] [(true, true)]; PDequeue] = Some (q, hs) ∧
    pvqInv demoMh q.
Proof.
  apply (ProvideQueue_safe demoMh demoMh_length demoMh_inj).
  repeat apply Forall_cons_2; try by_compute. apply Forall_nil_2.
Defined.

Lemma Enqueue_correct_witness :
  ∃ q', Enqueue demoMh demoQueue (bitstr "1") [(true, false)] = Some q' ∧ pvqInv demoMh q' ∧
    contents (pvq_queue q') = (if decide ([(true, false)] = []) then contents (pvq_queue demoQueue)
                               else pushSpec (contents (pvq_queue demoQueue)) (bitstr "1")) ∧
    ∀ h, stored demoMh (pvq_keys q') h ↔ h ∈ [(true, false)] ∨ stored demoMh (pvq_keys demoQueue) h.
Proof. apply (Enqueue_correct demoMh demoMh_length demoMh_inj); by_compute. Defined.

Lemma Dequeue_correct_witness :
  ∃ q' hs, Dequeue demoQueue = Some (q', (bitstr "0", hs, true)) ∧
    NoDup hs ∧ hs ≠ [] ∧
    (∀ h, h ∈ hs ↔ stored demoMh (pvq_keys demoQueue) h ∧ bitstr "0" ≼ demoMh h) ∧
    keepsOnly demoMh demoQueue (λ h, ¬ bitstr "0" ≼ demoMh h) q' ∧
    contents (pvq_queue q') = [bitstr "11"].
Proof. apply (Dequeue_correct demoMh demoMh_length demoMh_inj demoQueue). by_compute. Defined.

(** The last key below "11" goes, and "11" with it. *)
Lemma DequeueMatching_correct_witness :
  ∃ q' hs, DequeueMatching demoQueue (bitstr "111") = Some (q', hs) ∧ NoDup hs ∧
    (∀ h, h ∈ hs ↔ stored demoMh (pvq_keys demoQueue) h ∧ bitstr "111" ≼ demoMh h) ∧
    keepsOnly demoMh demoQueue (λ h, ¬ bitstr "111" ≼ demoMh h) q'.
Proof. apply (DequeueMatching_correct demoMh demoMh_length demoMh_inj). by_compute. Defined.

Lemma PVQ_Remove_correct_witness :
  ∃ q', PVQ_Remove demoMh demoQueue [(true, true); (false, true)] = Some q' ∧
    keepsOnly demoMh demoQueue (λ h, h ∉ [(true, true); (false, true)]) q'.
Proof. apply (PVQ_Remove_correct demoMh demoMh_length demoMh_inj). by_compute. Defined.
