(* ===== verification/DiversityFilter.v ===== *)
(** * IP diversity

    Models [rt_diversity_filter.go]: the counters that bound how many peers of
    one IP group enter the routing table, and the filter on the peers of a
    response.  IP groups come from [go-libp2p-kbucket/peerdiversity] and
    [manet]: the group of an address is the parameter [groupOf] ([None] when
    the address has no IP or no group).  [None] in a result is a Go panic (an
    assignment in a nil map). *)

From S2P Require Import Prelude.

(** ** Definitions *)

Section definitions.
Context {G : Type} {EG : EqDecision G} {CG : Countable G}.

(** [rtPeerIPGroupFilter]; a missing entry of a map reads as 0. *)
Record rtPeerIPGroupFilter := mkFilter {
  maxPerCpl : Z;
  maxForTable : Z;
  cplIpGroupCount : gmap Z (gmap G Z);
  tableIpGroupCount : gmap G Z;
}.

(** [NewRTPeerDiversityFilter] *)
Definition NewRTPeerDiversityFilter (maxPerCpl maxForTable : Z) : rtPeerIPGroupFilter :=
  mkFilter maxPerCpl maxForTable ∅ ∅.

(** [Allow] *)
Definition Allow (r : rtPeerIPGroupFilter) (cpl : Z) (key : G) : bool :=
  if decide (maxForTable r ≤ default 0 (tableIpGroupCount r !! key))%Z then false
  else
    match cplIpGroupCount r !! cpl with
    | None => true
    | Some c => bool_decide (default 0 (c !! key) < maxPerCpl r)%Z
    end.

(** [Increment] *)
Definition Increment (r : rtPeerIPGroupFilter) (cpl : Z) (key : G) : rtPeerIPGroupFilter :=
  let table := <[key := (default 0 (tableIpGroupCount r !! key) + 1)%Z]> (tableIpGroupCount r) in
  let c := default ∅ (cplIpGroupCount r !! cpl) in
  let c := <[key := (default 0 (c !! key) + 1)%Z]> c in
  mkFilter (maxPerCpl r) (maxForTable r) (<[cpl := c]> (cplIpGroupCount r)) table.

(** [Decrement] *)
Definition Decrement (r : rtPeerIPGroupFilter) (cpl : Z) (key : G) : option rtPeerIPGroupFilter :=
  let n := (default 0 (tableIpGroupCount r !! key) - 1)%Z in
  let table := <[key := n]> (tableIpGroupCount r) in
  let table := if decide (n = 0%Z) then delete key table else table in
  c ← cplIpGroupCount r !! cpl;
  let n := (default 0 (c !! key) - 1)%Z in
  let c := <[key := n]> c in
  let c := if decide (n = 0%Z) then delete key c else c in
  let cpls := <[cpl := c]> (cplIpGroupCount r) in
  let cpls := if decide (size c = 0) then delete cpl cpls else cpls in
  Some (mkFilter (maxPerCpl r) (maxForTable r) cpls table).
End definitions.

Section response.
Context {peerID addr G : Type} {EP : EqDecision peerID} {CP : Countable peerID}.
Context {EG : EqDecision G} {CG : Countable G} (groupOf : addr → option G).

(** [peer.AddrInfo] *)
Record AddrInfo := mkAddrInfo { aiID : peerID; aiAddrs : list addr }.

(** One address of a peer: the inner loop over the addresses. *)
Definition addAddr (p : AddrInfo) (m : gmap G (gset peerID)) (a : addr) : gmap G (gset peerID) :=
  match groupOf a with
  | None => m
  | Some group => <[group := default ∅ (m !! group) ∪ {[aiID p]}]> m
  end.

(** [ipGroupPeers]: the peers of each group. *)
Definition countGroups (newPeers : list AddrInfo) : gmap G (gset peerID) :=
  foldl (λ m p, foldl (addAddr p) m (aiAddrs p)) ∅ newPeers.

(** [peersToRemove] *)
Definition overrepresented (m : gmap G (gset peerID)) (limit : Z) : gset peerID :=
  foldl (λ s e, if decide (limit < Z.of_nat (size e.2))%Z then s ∪ e.2 else s) ∅ (map_to_list m).

(** [filterPeersByIPDiversity] *)
Definition filterPeersByIPDiversity (newPeers : list AddrInfo) (limit : Z) : list AddrInfo :=
  if decide (limit = 0%Z) then newPeers
  else
    let peersToRemove := overrepresented (countGroups newPeers) limit in
    if decide (size peersToRemove = 0) then newPeers
    else filter (λ p, aiID p ∉ peersToRemove) newPeers.
End response.

(** ** The counters *)

Section counters.
Context {G : Type} {EG : EqDecision G} {CG : Countable G}.
Implicit Types (r : @rtPeerIPGroupFilter G EG CG) (l : list (Z * G)).

(** How many peers of group [g] are in the table, resp. in bucket [c]. *)
Definition inTable l (g : G) : Z := Z.of_nat (length (filter (λ e, e.2 = g) l)).
Definition inBucket l (c : Z) (g : G) : Z := Z.of_nat (length (filter (λ e, e = (c, g)) l)).

Definition positive (n : Z) : option Z := if decide (n = 0%Z) then None else Some n.

(** The counters of [r] are those of the peers [l], without zero entries. *)
Definition counts r l : Prop :=
  (∀ g, tableIpGroupCount r !! g = positive (inTable l g)) ∧
  (∀ c g, cplIpGroupCount r !! c ≫= (.!! g) = positive (inBucket l c g)) ∧
  (∀ c m, cplIpGroupCount r !! c = Some m → m ≠ ∅).

Lemma default_positive n : default 0%Z (positive n) = n.
Proof. unfold positive. by case_decide. Qed.

Lemma inTable_cons l c g g' : inTable ((c, g) :: l) g' = (inTable l g' + if decide (g = g') then 1 else 0)%Z.
Proof. unfold inTable. rewrite filter_cons. simpl. case_decide; simpl; lia. Qed.

Lemma inBucket_cons l c g c' g' :
  inBucket ((c, g) :: l) c' g' = (inBucket l c' g' + if decide ((c, g) = (c', g')) then 1 else 0)%Z.
Proof. unfold inBucket. rewrite filter_cons. repeat case_decide; simpl; try lia; congruence. Qed.

Lemma inTable_nonneg l g : (0 ≤ inTable l g)%Z.
Proof. unfold inTable. lia. Qed.

Lemma inBucket_nonneg l c g : (0 ≤ inBucket l c g)%Z.
Proof. unfold inBucket. lia. Qed.

Lemma counts_Permutation r l l' : l ≡ₚ l' → counts r l → counts r l'.
Proof.
  intros Hp. unfold counts, inTable, inBucket. intros (H1 & H2 & H3). split_and!; [| |done].
  - intros g. by rewrite <-Hp.
  - intros c g. by rewrite <-Hp.
Qed.

Lemma bucket_count r l c g :
  counts r l → default 0%Z (default ∅ (cplIpGroupCount r !! c) !! g) = inBucket l c g.
Proof.
  intros (_ & Hc & _). specialize (Hc c g). rewrite <-(default_positive (inBucket l c g)), <-Hc.
  by destruct (cplIpGroupCount r !! c).
Qed.

Lemma Increment_counts r l c g : counts r l → counts (Increment r c g) ((c, g) :: l).
Proof.
  intros Hcnt. pose proof Hcnt as (Ht & Hc & Hne). unfold Increment. cbv zeta.
  rewrite (bucket_count r l c g Hcnt). rewrite Ht, default_positive.
  split_and!; cbn [tableIpGroupCount cplIpGroupCount].
  - intros g'. rewrite inTable_cons. case_decide as Hg.
    + subst. rewrite lookup_insert_eq. unfold positive. pose proof (inTable_nonneg l g').
      by rewrite decide_False by lia.
    + rewrite lookup_insert_ne by done. by rewrite Z.add_0_r.
  - intros c' g'. rewrite inBucket_cons. destruct (decide (c = c')) as [->|Hcc].
    + rewrite lookup_insert_eq. cbn [mbind option_bind]. destruct (decide (g = g')) as [->|Hgg].
      * rewrite lookup_insert_eq, decide_True by done. unfold positive.
        pose proof (inBucket_nonneg l c' g'). by rewrite decide_False by lia.
      * rewrite lookup_insert_ne, decide_False by congruence. rewrite Z.add_0_r, <-Hc.
        by destruct (cplIpGroupCount r !! c').
    + rewrite lookup_insert_ne by done. rewrite decide_False by congruence. by rewrite Z.add_0_r.
  - intros c' m. destruct (decide (c = c')) as [->|Hcc].
    + rewrite lookup_insert_eq. intros [= <-]. apply insert_non_empty.
    + rewrite lookup_insert_ne by done. apply Hne.
Qed.

Lemma Decrement_counts r l c g :
  counts r ((c, g) :: l) → ∃ r', Decrement r c g = Some r' ∧ counts r' l ∧
    maxPerCpl r' = maxPerCpl r ∧ maxForTable r' = maxForTable r.
Proof.
  intros (Ht & Hc & Hne). unfold Decrement. cbv zeta.
  pose proof (inTable_nonneg l g) as Hpt. pose proof (inBucket_nonneg l c g) as Hpb.
  rewrite Ht, default_positive, inTable_cons, (decide_True (P := g = g)) by done.
  pose proof (Hc c g) as Hcg. rewrite inBucket_cons, decide_True in Hcg by done.
  unfold positive in Hcg. rewrite decide_False in Hcg by lia.
  destruct (cplIpGroupCount r !! c) as [m|] eqn:Hm; [|by simpl in Hcg]. cbn [mbind option_bind] in *.
  rewrite Hcg. cbn [from_option Datatypes.id]. eexists. split; [done|]. split; [|done].
  replace (inTable l g + 1 - 1)%Z with (inTable l g) by lia.
  replace (inBucket l c g + 1 - 1)%Z with (inBucket l c g) by lia.
  set (m' := if decide (inBucket l c g = 0%Z) then delete g (<[g := inBucket l c g]> m)
             else <[g := inBucket l c g]> m).
  assert (∀ g', m' !! g' = positive (inBucket l c g')) as Hm'.
  { intros g'. destruct (decide (g = g')) as [->|Hgg].
    - unfold m', positive. case_decide; [by rewrite lookup_delete_eq|by rewrite lookup_insert_eq].
    - pose proof (Hc c g') as Hcg'. rewrite Hm, inBucket_cons, decide_False in Hcg' by congruence.
      rewrite Z.add_0_r in Hcg'. cbn [mbind option_bind] in Hcg'. rewrite <-Hcg'. unfold m'.
      case_decide; [rewrite lookup_delete_ne by done|]; by rewrite lookup_insert_ne. }
  split_and!; cbn [tableIpGroupCount cplIpGroupCount].
  - intros g'. destruct (decide (g = g')) as [->|Hgg].
    + unfold positive. case_decide; [by rewrite lookup_delete_eq|by rewrite lookup_insert_eq].
    + pose proof (Ht g') as Hg'. rewrite inTable_cons, decide_False, Z.add_0_r in Hg' by done.
      rewrite <-Hg'. case_decide; [rewrite lookup_delete_ne by done|]; by rewrite lookup_insert_ne.
  - intros c' g'. destruct (decide (c = c')) as [->|Hcc].
    + rewrite <-Hm'. case_decide as Hs.
      * rewrite lookup_delete_eq. apply map_size_empty_inv in Hs. by rewrite Hs, lookup_empty.
      * by rewrite lookup_insert_eq.
    + pose proof (Hc c' g') as Hcg'. rewrite inBucket_cons, decide_False, Z.add_0_r in Hcg' by congruence.
      rewrite <-Hcg'. case_decide; [rewrite lookup_delete_ne by done|]; by rewrite lookup_insert_ne.
  - intros c' m0. destruct (decide (c = c')) as [->|Hcc].
    + case_decide as Hs; [by rewrite lookup_delete_eq|]. rewrite lookup_insert_eq. intros [= <-] He.
      rewrite He, map_size_empty in Hs. done.
    + case_decide; [rewrite lookup_delete_ne by done|]; rewrite lookup_insert_ne by done; apply Hne.
Qed.

Lemma Allow_spec r l c g :
  counts r l → (0 < maxPerCpl r)%Z →
  Allow r c g = true ↔ (inTable l g < maxForTable r)%Z ∧ (inBucket l c g < maxPerCpl r)%Z.
Proof.
  intros Hcnt Hmax. pose proof (bucket_count r l c g Hcnt) as Hb. pose proof Hcnt as (Ht & _ & _).
  unfold Allow. rewrite Ht, default_positive. case_decide as Hd; [split; [done|lia]|].
  destruct (cplIpGroupCount r !! c) as [m|]; cbn [from_option Datatypes.id] in Hb.
  - rewrite Hb, bool_decide_eq_true. split; [|tauto]. intros. split; [lia|done].
  - rewrite lookup_empty in Hb. simpl in Hb. split; [|done]. intros _. split; lia.
Qed.

(** *** The routing table as a client

    Peers enter after [Allow], and only peers of the table leave it. *)
Inductive tableStep : rtPeerIPGroupFilter * list (Z * G) → rtPeerIPGroupFilter * list (Z * G) → Prop :=
  | step_add r l c g : Allow r c g = true → tableStep (r, l) (Increment r c g, (c, g) :: l)
  | step_remove r r' l l' c g :
      l ≡ₚ (c, g) :: l' → Decrement r c g = Some r' → tableStep (r, l) (r', l').

Definition tableInv (maxCpl maxTable : Z) (s : rtPeerIPGroupFilter * list (Z * G)) : Prop :=
  counts s.1 s.2 ∧ maxPerCpl s.1 = maxCpl ∧ maxForTable s.1 = maxTable ∧
  (∀ g, inTable s.2 g ≤ maxTable)%Z ∧ (∀ c g, inBucket s.2 c g ≤ maxCpl)%Z.

Lemma tableStep_inv maxCpl maxTable s s' :
  (0 < maxCpl)%Z → tableInv maxCpl maxTable s → tableStep s s' → tableInv maxCpl maxTable s'.
Proof.
  intros Hmax (Hcnt & Hm1 & Hm2 & Ht & Hb) Hstep. destruct Hstep as [r l c g Ha|r r' l l' c g Hp Hd];
    cbn [fst snd] in *.
  - apply (Allow_spec r l c g) in Ha as [Ha1 Ha2]; [|done|lia].
    split_and!; cbn [fst snd]; [by apply Increment_counts|done|done| |].
    + intros g'. rewrite inTable_cons. case_decide as Hg; [subst g'|specialize (Ht g')]; lia.
    + intros c' g'. rewrite inBucket_cons. case_decide as Hg; [simplify_eq|specialize (Hb c' g')]; lia.
  - apply (counts_Permutation _ _ _ Hp) in Hcnt.
    destruct (Decrement_counts r l' c g Hcnt) as (r'' & Hd' & Hcnt' & Hm1' & Hm2').
    rewrite Hd in Hd'. simplify_eq. split_and!; cbn [fst snd]; [done|congruence|congruence| |].
    + intros g'. pose proof (Ht g') as Hg. unfold inTable in Hg. rewrite Hp in Hg.
      change (inTable ((c, g) :: l') g' ≤ maxForTable r)%Z in Hg. rewrite inTable_cons in Hg.
      case_decide; lia.
    + intros c' g'. pose proof (Hb c' g') as Hg. unfold inBucket in Hg. rewrite Hp in Hg.
      change (inBucket ((c, g) :: l') c' g' ≤ maxPerCpl r)%Z in Hg. rewrite inBucket_cons in Hg.
      case_decide; lia.
Qed.
End counters.

Section reachable.
Context {G : Type} {EG : EqDecision G} {CG : Countable G}.
Implicit Types (s : @rtPeerIPGroupFilter G EG CG * list (Z * G)).

End reachable.

(** ** The response filter *)

Section response_correct.
Context {peerID addr G : Type} {EP : EqDecision peerID} {CP : Countable peerID}.
Context {EG : EqDecision G} {CG : Countable G} (groupOf : addr → option G).
Implicit Types (ps : list (@AddrInfo peerID addr)) (p : @AddrInfo peerID addr).

(** Peer [i] has an address in group [g]. *)
Definition inGroup ps (i : peerID) (g : G) : Prop :=
  ∃ p a, p ∈ ps ∧ aiID p = i ∧ a ∈ aiAddrs p ∧ groupOf a = Some g.

Lemma countGroups_spec ps i g :
  i ∈ default ∅ (countGroups groupOf ps !! g) ↔ inGroup ps i g.
Proof.
  unfold countGroups, inGroup.
  assert (∀ p addrs m j g', j ∈ default ∅ (foldl (addAddr groupOf p) m addrs !! g') ↔
    j ∈ default ∅ (m !! g') ∨ j = aiID p ∧ ∃ a, a ∈ addrs ∧ groupOf a = Some g') as Haddr.
  { intros p addrs. induction addrs as [|a addrs IH]; intros m j g'; cbn [foldl].
    - set_solver.
    - rewrite IH. setoid_rewrite elem_of_cons. unfold addAddr at 1.
      destruct (groupOf a) as [g0|] eqn:Ha; [|naive_solver].
      destruct (decide (g0 = g')) as [->|Hne].
      + rewrite lookup_insert_eq. cbn [from_option Datatypes.id]. rewrite elem_of_union, elem_of_singleton.
        naive_solver.
      + rewrite lookup_insert_ne by done. naive_solver. }
  assert (∀ m, i ∈ default ∅ (foldl (λ m p, foldl (addAddr groupOf p) m (aiAddrs p)) m ps !! g) ↔
    i ∈ default ∅ (m !! g) ∨ ∃ p a, p ∈ ps ∧ aiID p = i ∧ a ∈ aiAddrs p ∧ groupOf a = Some g) as Hall.
  { induction ps as [|p ps IH]; intros m; cbn [foldl]; [set_solver|].
    rewrite IH, Haddr. setoid_rewrite elem_of_cons. naive_solver. }
  rewrite Hall, lookup_empty. simpl. set_solver.
Qed.

Lemma overrepresented_spec (m : gmap G (gset peerID)) limit i :
  i ∈ overrepresented m limit ↔
    ∃ g s, m !! g = Some s ∧ (limit < Z.of_nat (size s))%Z ∧ i ∈ s.
Proof.
  unfold overrepresented.
  assert (∀ (l : list (G * gset peerID)) s0,
    i ∈ foldl (λ s e, if decide (limit < Z.of_nat (size e.2))%Z then s ∪ e.2 else s) s0 l ↔
    i ∈ s0 ∨ ∃ e, e ∈ l ∧ (limit < Z.of_nat (size e.2))%Z ∧ i ∈ e.2) as Hl.
  { induction l as [|e l IH]; intros s0; cbn [foldl]; [set_solver|].
    rewrite IH. setoid_rewrite elem_of_cons. case_decide; [rewrite elem_of_union|]; naive_solver. }
  rewrite Hl. split.
  - intros [?%elem_of_empty|([g s] & He & Hs & Hi)]; [done|].
    apply elem_of_map_to_list in He. eauto.
  - intros (g & s & Hg & Hs & Hi). right. exists (g, s). split; [by apply elem_of_map_to_list|done].
Qed.

Lemma filterPeersByIPDiversity_sub ps limit p :
  p ∈ filterPeersByIPDiversity groupOf ps limit → p ∈ ps.
Proof.
  unfold filterPeersByIPDiversity. case_decide; [done|]. cbv zeta. case_decide; [done|].
  by intros [_ ?]%list_elem_of_filter.
Qed.

(** With a limit, [filterPeersByIPDiversity] keeps the order of the peers
    and drops exactly those that have an address in an IP group with more
    peers than the limit; without a limit (0) it keeps all peers. *)
Theorem filterPeersByIPDiversity_correct ps limit :
  ∃ over : gset peerID,
    (∀ i, i ∈ over ↔ limit ≠ 0%Z ∧ ∃ g, inGroup ps i g ∧
      ∃ s : gset peerID, (∀ j, j ∈ s ↔ inGroup ps j g) ∧ (limit < Z.of_nat (size s))%Z) ∧
    filterPeersByIPDiversity groupOf ps limit = filter (λ p, aiID p ∉ over) ps.
Proof.
  unfold filterPeersByIPDiversity. destruct (decide (limit = 0%Z)) as [Hl|Hl].
  { exists ∅. split; [set_solver|]. symmetry. apply list_filter_all. set_solver. }
  exists (overrepresented (countGroups groupOf ps) limit). split.
  - intros i. rewrite overrepresented_spec. split.
    + intros (g & s & Hg & Hs & Hi). split; [done|]. exists g.
      assert (∀ j, j ∈ s ↔ inGroup ps j g) as Hj.
      { intros j. rewrite <-countGroups_spec, Hg. done. }
      split; [by apply Hj|]. eauto.
    + intros (_ & g & Hi & s & Hs & Hlim). rewrite <-countGroups_spec in Hi.
      destruct (countGroups groupOf ps !! g) as [s'|] eqn:Hg; [|by apply elem_of_empty in Hi].
      assert (s' = s) as ->; [|eauto 6]. apply set_eq. intros j. rewrite Hs, <-countGroups_spec, Hg. done.
  - cbv zeta. case_decide as Hs; [|done]. apply size_empty_inv in Hs. symmetry. apply list_filter_all.
    set_solver.
Qed.
End response_correct.

(** ** Witnesses *)

