(* ===== verification/QPeerset.v ===== *)
(** * The peer set of a lookup

    Models [qpeerset/qpeerset.go]: the peers known by a lookup, with their
    distance to the target and their state.  The distance function
    ([go-keyspace]) is a parameter, [distanceToKey].  [None] is a Go panic (an
    index out of range). *)

From S2P Require Import Prelude.

(** ** Definitions *)

(** [PeerState] *)
Inductive PeerState := PeerHeard | PeerWaiting | PeerQueried | PeerUnreachable.

#[export] Instance PeerState_eq_dec : EqDecision PeerState.
Proof. solve_decision. Defined.

(** [queryPeerState] *)
Record queryPeerState (peerID : Type) := mkQPS {
  id : peerID;
  distance : Z;
  state : PeerState;
  referredBy : peerID;
}.
Arguments mkQPS {peerID}.
Arguments id {peerID}.
Arguments distance {peerID}.
Arguments state {peerID}.
Arguments referredBy {peerID}.

(** [QueryPeerset], without the key that [distanceToKey] stands for. *)
Record QueryPeerset (peerID : Type) := mkQP {
  all : list (queryPeerState peerID);
  sorted : bool;
}.
Arguments mkQP {peerID}.
Arguments all {peerID}.
Arguments sorted {peerID}.

Section definitions.
Context {peerID : Type} {EP : EqDecision peerID} (distanceToKey : peerID → Z).
Implicit Types (qp : QueryPeerset peerID) (p : peerID).

(** [NewQueryPeerset] *)
Definition NewQueryPeerset : QueryPeerset peerID := mkQP [] false.

(** [find]; [None] is the index -1. *)
Definition find qp p : option nat := fst <$> list_find (λ x, id x = p) (all qp).

(** [TryAdd] *)
Definition TryAdd qp p (referrer : peerID) : QueryPeerset peerID * bool :=
  match find qp p with
  | Some _ => (qp, false)
  | None => (mkQP (all qp ++ [mkQPS p (distanceToKey p) PeerHeard referrer]) false, true)
  end.

(** [sortedQueryPeerset.Less], as the order of the sort. *)
Definition closer (x y : queryPeerState peerID) : Prop := (distance x ≤ distance y)%Z.

#[export] Instance closer_dec x y : Decision (closer x y).
Proof. unfold closer. apply _. Defined.

(** [sort] *)
Definition sort qp : QueryPeerset peerID :=
  if sorted qp then qp else mkQP (merge_sort closer (all qp)) true.

(** [SetState] *)
Definition SetState qp p (s : PeerState) : option (QueryPeerset peerID) :=
  i ← find qp p;
  Some (mkQP (alter (λ x, mkQPS (id x) (distance x) s (referredBy x)) i (all qp)) (sorted qp)).

(** [GetState] *)
Definition GetState qp p : option PeerState := i ← find qp p; state <$> all qp !! i.

(** [GetReferrer] *)
Definition GetReferrer qp p : option peerID := i ← find qp p; referredBy <$> all qp !! i.

(** [GetClosestNInStates]: it sorts the set as a side effect. *)
Definition GetClosestNInStates qp (n : Z) (states : list PeerState)
    : option (QueryPeerset peerID * list peerID) :=
  let qp := sort qp in
  let result := id <$> filter (λ x, state x ∈ states) (all qp) in
  if decide (n ≤ Z.of_nat (length result))%Z then
    if decide (n < 0)%Z then None else Some (qp, take (Z.to_nat n) result)
  else Some (qp, result).

(** [GetClosestInStates] *)
Definition GetClosestInStates qp (states : list PeerState)
    : option (QueryPeerset peerID * list peerID) :=
  GetClosestNInStates qp (Z.of_nat (length (all qp))) states.

(** [NumHeard], [NumWaiting] *)
Definition NumHeard qp : option (QueryPeerset peerID * Z) :=
  '(qp, l) ← GetClosestInStates qp [PeerHeard]; Some (qp, Z.of_nat (length l)).
Definition NumWaiting qp : option (QueryPeerset peerID * Z) :=
  '(qp, l) ← GetClosestInStates qp [PeerWaiting]; Some (qp, Z.of_nat (length l)).
End definitions.

(** ** Invariant and abstract view *)

Abbreviation ids qp := (id <$> all qp).

Section view.
Context {peerID : Type} {EP : EqDecision peerID}.
Implicit Types (qp : QueryPeerset peerID) (p : peerID).

(** The peers in one of the given states. *)
Definition inStates (states : list PeerState) qp : list peerID :=
  id <$> filter (λ x, state x ∈ states) (all qp).

(** The abstract view: the state of a peer, if it is known. *)
Definition stateOf qp p : option PeerState :=
  state <$> (snd <$> list_find (λ x, id x = p) (all qp)).

Lemma find_spec qp p i :
  NoDup (ids qp) → find qp p = Some i ↔ ∃ x, all qp !! i = Some x ∧ id x = p.
Proof.
  intros Hnd. unfold find. split.
  - intros ([j x] & Hf & ->)%fmap_Some. apply list_find_Some in Hf as (? & ? & _). eauto.
  - intros (x & Hi & Hx). apply fmap_Some. exists (i, x). split; [|done].
    apply list_find_Some. split_and!; [done|done|]. intros j y Hj Hlt Hy.
    assert (i = j); [|lia]. apply (NoDup_lookup (ids qp) i j p); [done| |];
      rewrite list_lookup_fmap; [by rewrite Hi, <-Hx|by rewrite Hj, <-Hy].
Qed.

Lemma find_None qp p : find qp p = None ↔ p ∉ ids qp.
Proof.
  unfold find. rewrite fmap_None, list_find_None, Forall_forall, list_elem_of_fmap. naive_solver.
Qed.

Lemma stateOf_Some qp p s :
  NoDup (ids qp) → stateOf qp p = Some s ↔ ∃ x, x ∈ all qp ∧ id x = p ∧ state x = s.
Proof.
  intros Hnd. unfold stateOf. split.
  - intros (x & ([j y] & Hf & ->)%fmap_Some & ->)%fmap_Some.
    apply list_find_Some in Hf as (Hj & ? & _). apply list_elem_of_lookup_2 in Hj. eauto.
  - intros (x & Hx & <- & <-). apply list_elem_of_lookup in Hx as [i Hi].
    assert (find qp (id x) = Some i) as Hfi by (apply find_spec; eauto).
    unfold find in Hfi. destruct (list_find _ _) as [[j y]|] eqn:Hf; simplify_eq/=.
    apply list_find_Some in Hf as (Hj & _ & _). congruence.
Qed.

Lemma stateOf_None qp p : stateOf qp p = None ↔ p ∉ ids qp.
Proof. rewrite <-find_None. unfold stateOf, find. by rewrite !fmap_None. Qed.

Lemma elem_of_inStates states qp p :
  NoDup (ids qp) → p ∈ inStates states qp ↔ ∃ s, stateOf qp p = Some s ∧ s ∈ states.
Proof.
  intros Hnd. unfold inStates. rewrite list_elem_of_fmap. setoid_rewrite stateOf_Some; [|done].
  setoid_rewrite list_elem_of_filter. naive_solver.
Qed.

Lemma NoDup_inStates states qp : NoDup (ids qp) → NoDup (inStates states qp).
Proof. apply NoDup_fmap_filter. Qed.

Lemma GetState_stateOf qp p : NoDup (ids qp) → GetState qp p = stateOf qp p.
Proof.
  intros Hnd. unfold GetState, stateOf, find. destruct (list_find _ _) as [[i x]|] eqn:Hf; [|done].
  apply list_find_Some in Hf as (Hi & _ & _). simpl. by rewrite Hi.
Qed.

Lemma GetReferrer_Some qp p : p ∈ ids qp → ∃ r, GetReferrer qp p = Some r.
Proof.
  intros Hp. unfold GetReferrer. destruct (find qp p) as [i|] eqn:Hf.
  - unfold find in Hf. apply fmap_Some in Hf as ([j x] & Hf & ->).
    apply list_find_Some in Hf as (Hi & _ & _). cbn [mbind option_bind fst]. rewrite Hi. simpl. eauto.
  - by apply find_None in Hf.
Qed.

End view.

Section correct.
Context {peerID : Type} {EP : EqDecision peerID} (distanceToKey : peerID → Z).
Implicit Types (qp : QueryPeerset peerID) (p : peerID).

(** No peer is stored twice, the distances are right, and the flag [sorted]
    tells the truth. *)
Definition qpInv qp : Prop :=
  NoDup (ids qp) ∧ Forall (λ x, distance x = distanceToKey (id x)) (all qp) ∧
  (sorted qp = true → StronglySorted closer (all qp)).

#[export] Instance qpInv_dec qp : Decision (qpInv qp).
Proof. unfold qpInv. apply _. Defined.

(** *** Sorting *)

Lemma sort_all qp : all (sort qp) ≡ₚ all qp.
Proof. unfold sort. destruct (sorted qp); [done|]. apply merge_sort_Permutation. Qed.

#[local] Instance closer_total : Total (@closer peerID).
Proof. intros x y. unfold closer. lia. Qed.

#[local] Instance closer_trans : Transitive (@closer peerID).
Proof. intros x y z. unfold closer. lia. Qed.

Lemma sort_inv qp : qpInv qp → qpInv (sort qp).
Proof.
  intros (Hnd & Hd & Hs). split_and!; [by rewrite (sort_all qp)|by rewrite (sort_all qp)|].
  intros _. unfold sort. destruct (sorted qp); [by apply Hs|]. cbn [all].
  apply StronglySorted_merge_sort; apply _.
Qed.

Lemma sort_sorted qp : qpInv qp → StronglySorted closer (all (sort qp)).
Proof.
  intros Hinv. destruct (sort_inv qp Hinv) as (_ & _ & Hs). apply Hs.
  unfold sort. by destruct (sorted qp) eqn:E.
Qed.

(** Sorting does not change the view. *)
Lemma stateOf_sort qp p : NoDup (ids qp) → stateOf (sort qp) p = stateOf qp p.
Proof.
  intros Hnd. assert (NoDup (ids (sort qp))) as Hnd' by (by rewrite (sort_all qp)).
  apply option_eq. intros s. rewrite !stateOf_Some by done. by setoid_rewrite (sort_all qp).
Qed.

(** Two sets with the same content. *)
Definition sameView qp qp' : Prop := all qp' ≡ₚ all qp ∧ qpInv qp'.

Lemma sameView_stateOf qp qp' p : sameView qp qp' → stateOf qp' p = stateOf qp p.
Proof.
  intros [Hp (Hnd & _)]. assert (NoDup (ids qp)) as Hnd' by (by rewrite <-Hp).
  apply option_eq. intros s. rewrite !stateOf_Some by done. by setoid_rewrite Hp.
Qed.

Lemma sameView_inStates qp qp' states : sameView qp qp' → inStates states qp' ≡ₚ inStates states qp.
Proof. intros [Hp _]. unfold inStates. by rewrite Hp. Qed.

(** [GetClosestNInStates]: with a count that is not negative it returns the
    closest [n] peers in the given states, sorted by distance. *)
Lemma GetClosestNInStates_spec qp n states :
  qpInv qp → (0 ≤ n)%Z →
  ∃ qp' r rest, GetClosestNInStates qp n states = Some (qp', r) ∧ sameView qp qp' ∧
    r ++ rest ≡ₚ inStates states qp ∧
    StronglySorted (λ x y, (distanceToKey x ≤ distanceToKey y)%Z) (r ++ rest) ∧
    length r = Nat.min (Z.to_nat n) (length (inStates states qp)).
Proof.
  intros Hinv Hn. unfold GetClosestNInStates. cbv zeta.
  assert (sameView qp (sort qp)) as Hv by (split; [apply sort_all|by apply sort_inv]).
  change (id <$> filter (λ x, state x ∈ states) (all (sort qp))) with (inStates states (sort qp)).
  pose proof (sameView_inStates qp (sort qp) states Hv) as Hp.
  assert (StronglySorted (λ x y, (distanceToKey x ≤ distanceToKey y)%Z) (inStates states (sort qp))) as Hs.
  { pose proof (sort_sorted qp Hinv) as Hs. destruct (sort_inv qp Hinv) as (_ & Hd & _).
    unfold inStates. induction Hs as [|x l Hs IH Hx]; [constructor|].
    apply Forall_cons in Hd as [Hdx Hd]. rewrite filter_cons. case_decide; [|by apply IH].
    rewrite fmap_cons. constructor; [by apply IH|].
    rewrite Forall_forall in Hx, Hd. apply Forall_forall. intros y (z & -> & [_ Hz]%list_elem_of_filter)%list_elem_of_fmap.
    specialize (Hx z Hz). unfold closer in Hx. rewrite Hdx, (Hd z Hz) in Hx. done. }
  rewrite <-(Permutation_length Hp). case_decide as Hc.
  - rewrite decide_False by lia.
    eexists _, _, (drop (Z.to_nat n) (inStates states (sort qp))). rewrite take_drop.
    split_and!; [done|done|done|done|]. by rewrite length_take.
  - eexists _, _, []. rewrite app_nil_r. split_and!; [done|done|done|done|]. lia.
Qed.

(** *** Updates *)

Lemma TryAdd_spec qp p r :
  qpInv qp →
  let '(qp', added) := TryAdd distanceToKey qp p r in
  qpInv qp' ∧ added = bool_decide (p ∉ ids qp) ∧
  ∀ x, stateOf qp' x = (if decide (x = p ∧ p ∉ ids qp) then Some PeerHeard else stateOf qp x).
Proof.
  intros Hinv. pose proof Hinv as (Hnd & Hd & _). unfold TryAdd.
  destruct (find qp p) as [i|] eqn:Hf.
  - assert (p ∈ ids qp) as Hp.
    { destruct (decide (p ∈ ids qp)) as [?|?%find_None]; [done|congruence]. }
    split_and!; [done|by rewrite bool_decide_eq_false_2 by tauto|].
    intros x. by rewrite decide_False by tauto.
  - apply find_None in Hf. assert (NoDup (ids qp ++ [p])) as Hnd'.
    { apply NoDup_app. split_and!; [done| |apply NoDup_singleton]. set_solver. }
    split_and!.
    + split_and!; [cbn [all]; by rewrite fmap_app| |done]. apply Forall_app. by split; [|apply Forall_singleton].
    + by rewrite bool_decide_eq_true_2.
    + intros x. apply option_eq. intros s. rewrite stateOf_Some by (cbn [all]; by rewrite fmap_app).
      cbn [all]. setoid_rewrite elem_of_app. setoid_rewrite list_elem_of_singleton.
      case_decide as Hx.
      * destruct Hx as [-> _]. split; [|naive_solver]. intros (y & [Hy| ->] & Hid & <-); [|done].
        destruct Hf. rewrite <-Hid. by apply list_elem_of_fmap_2.
      * rewrite stateOf_Some by done. split; [|naive_solver]. intros (y & [Hy| ->] & Hid & <-); [eauto|].
        destruct Hx. simpl in Hid. by subst.
Qed.

Lemma SetState_spec qp p s :
  qpInv qp → p ∈ ids qp →
  ∃ qp', SetState qp p s = Some qp' ∧ qpInv qp' ∧
    ∀ x, stateOf qp' x = (if decide (x = p) then Some s else stateOf qp x).
Proof.
  intros (Hnd & Hd & Hs) Hp. unfold SetState.
  destruct (find qp p) as [i|] eqn:Hf; [|by apply find_None in Hf].
  pose proof Hf as (y & Hi & Hy)%find_spec; [|done]. cbn [mbind option_bind]. eexists. split; [done|].
  set (f := λ x : queryPeerState peerID, mkQPS (id x) (distance x) s (referredBy x)).
  assert (ids (mkQP (alter f i (all qp)) (sorted qp)) = ids qp) as Hids.
  { cbn [all]. by apply list_fmap_alter_same. }
  assert (NoDup (ids (mkQP (alter f i (all qp)) (sorted qp)))) as Hnd' by (by rewrite Hids).
  split.
  - split_and!; [done|cbn [all]; by apply Forall_alter_same|].
    cbn [sorted all]. intros E. apply StronglySorted_alter; [done|auto].
  - intros x. apply option_eq. intros s'. rewrite stateOf_Some by done. cbn [all]. split.
    + intros (z & Hz & Hid & Hst). apply list_elem_of_lookup in Hz as [j Hj].
      destruct (decide (i = j)) as [->|Hne].
      * rewrite list_lookup_alter_eq, Hi in Hj. simplify_eq/=. by rewrite decide_True.
      * rewrite list_lookup_alter_ne in Hj by done. rewrite decide_False.
        -- apply stateOf_Some; [done|]. apply list_elem_of_lookup_2 in Hj. eauto.
        -- intros ->. apply Hne. apply (NoDup_lookup (ids qp) i j p); [done| |];
             rewrite list_lookup_fmap; [by rewrite Hi; simpl; rewrite Hy|by rewrite Hj; simpl; rewrite Hid].
    + case_decide as Hx.
      * intros [= <-]. exists (f y). split_and!; [|by subst|done].
        eapply list_elem_of_lookup_2. by rewrite list_lookup_alter_eq, Hi.
      * intros (z & Hz & Hid & Hst)%stateOf_Some; [|done]. exists z. split_and!; [|done|done].
        apply list_elem_of_lookup in Hz as [j Hj]. eapply list_elem_of_lookup_2.
        rewrite list_lookup_alter_ne; [exact Hj|]. intros ->. congruence.
Qed.
End correct.
