(* ===== verification/Query.v ===== *)
(** * The lookup

    Models [query.go]: one iterative lookup.  The loop of [run] owns the peer
    set; each spawned query is a goroutine that ends by sending one update on
    a channel of capacity [alpha].  [loopBody] is one iteration of the loop,
    [step] interleaves it with the goroutines and with cancellation.  The stop
    function, the outcome of a dial or of an RPC and the query filter are
    arbitrary.  Events published for tracing are not modelled.  [None] is a
    Go panic. *)

From S2P Require Import Prelude DiversityFilter QPeerset.
From stdpp Require Import relations.

(** ** Definitions *)

(** [LookupTerminationReason] *)
Inductive LookupTerminationReason :=
  | LookupStopped | LookupCancelled | LookupStarvation | LookupCompleted.

#[export] Instance reason_eq_dec : EqDecision LookupTerminationReason.
Proof. solve_decision. Defined.

(** [queryUpdate] *)
Record queryUpdate (peerID : Type) := mkUpdate {
  cause : peerID;
  queried : list peerID;
  heard : list peerID;
  unreachable : list peerID;
  queryDuration : Z;
}.
Arguments mkUpdate {peerID}.
Arguments cause {peerID}.
Arguments queried {peerID}.
Arguments heard {peerID}.
Arguments unreachable {peerID}.
Arguments queryDuration {peerID}.

Section definitions.
Context {peerID addr G : Type} {EP : EqDecision peerID} {CP : Countable peerID}.
Context {EG : EqDecision G} {CG : Countable G} (groupOf : addr → option G).
Context (distanceToKey : peerID → Z).
(** [dht.self], [dht.alpha], [dht.beta], [dht.bucketSize] *)
Context (self : peerID) (alpha beta bucketSize : Z).
Implicit Types (qp : QueryPeerset peerID) (p : peerID).

(** The fields of [query] that change. *)
Record query := mkQuery {
  queryPeers : QueryPeerset peerID;
  peerTimes : gmap peerID Z;
  terminated : bool;
}.

(** *** Updates of the state *)

(** The loop of [updateState] over the peers heard of. *)
Definition addHeard (c : peerID) qp p : QueryPeerset peerID :=
  if decide (p = self) then qp else (TryAdd distanceToKey qp p c).1.

(** The loop of [updateState] over the queried peers. *)
Definition markQueried (d : Z) (s : QueryPeerset peerID * gmap peerID Z) p
    : option (QueryPeerset peerID * gmap peerID Z) :=
  if decide (p = self) then Some s
  else
    st ← GetState s.1 p;
    if decide (st = PeerWaiting) then
      qp ← SetState s.1 p PeerQueried;
      Some (qp, <[p := d]> s.2)
    else None.

(** The loop of [updateState] over the unreachable peers. *)
Definition markUnreachable qp p : option (QueryPeerset peerID) :=
  if decide (p = self) then Some qp
  else
    st ← GetState qp p;
    if decide (st = PeerWaiting) then SetState qp p PeerUnreachable else None.

(** [updateState] *)
Definition updateState (q : query) (up : queryUpdate peerID) : option query :=
  if terminated q then None
  else
    let qp := foldl (addHeard (cause up)) (queryPeers q) (heard up) in
    '(qp, times) ← foldM (markQueried (queryDuration up)) (qp, peerTimes q) (queried up);
    qp ← foldM markUnreachable qp (unreachable up);
    Some (mkQuery qp times (terminated q)).

(** *** Termination conditions *)

(** [isStarvationTermination] *)
Definition isStarvationTermination qp : option (QueryPeerset peerID * bool) :=
  '(qp, nHeard) ← NumHeard qp;
  if decide (nHeard = 0%Z) then
    '(qp, nWaiting) ← NumWaiting qp;
    Some (qp, bool_decide (nWaiting = 0%Z))
  else Some (qp, false).

(** The loop of [isLookupTermination]. *)
Fixpoint allQueried qp (peers : list peerID) : option bool :=
  match peers with
  | [] => Some true
  | p :: peers =>
      st ← GetState qp p;
      if decide (st = PeerQueried) then allQueried qp peers else Some false
  end.

(** [isLookupTermination] *)
Definition isLookupTermination qp : option (QueryPeerset peerID * bool) :=
  '(qp, peers) ← GetClosestNInStates qp beta [PeerHeard; PeerWaiting; PeerQueried];
  b ← allQueried qp peers;
  Some (qp, b).

(** [isReadyToTerminate]: the reason to terminate, or the peers to query
    next; [stop] is the answer of the stop function. *)
Definition isReadyToTerminate (stop : bool) qp (nPeersToQuery : Z)
    : option (QueryPeerset peerID * option LookupTerminationReason * list peerID) :=
  if stop then Some (qp, Some LookupStopped, [])
  else
    '(qp, starved) ← isStarvationTermination qp;
    if starved : bool then Some (qp, Some LookupStarvation, [])
    else
      '(qp, completed) ← isLookupTermination qp;
      if completed : bool then Some (qp, Some LookupCompleted, [])
      else
        '(qp, peersToQuery) ← GetClosestNInStates qp nPeersToQuery [PeerHeard];
        Some (qp, None, peersToQuery).

(** *** The loop *)

(** [spawnQuery]: the state change; the goroutine is [queryPeer]. *)
Definition spawnQuery qp p : option (QueryPeerset peerID) :=
  _ ← GetReferrer qp p;
  SetState qp p PeerWaiting.

(** What the [select] of [run] receives. *)
Inductive loopEvent := Received (up : queryUpdate peerID) | CtxDone.

(** One iteration of the loop of [run]: the new state, the spawned queries,
    and the reason if the loop returns. *)
Definition loopBody (stop : bool) (ev : loopEvent) (q : query)
    : option (query * list peerID * option LookupTerminationReason) :=
  q ← match ev with
      | Received up => updateState q up
      | CtxDone => Some (mkQuery (queryPeers q) (peerTimes q) true)
      end;
  '(qp, nWaiting) ← NumWaiting (queryPeers q);
  let maxNumQueriesToSpawn := (alpha - nWaiting)%Z in
  '(qp, ready, qPeers) ← isReadyToTerminate stop qp maxNumQueriesToSpawn;
  if terminated q then Some (mkQuery qp (peerTimes q) true, [], Some LookupCancelled)
  else
    match ready with
    | Some reason => Some (mkQuery qp (peerTimes q) true, [], Some reason)
    | None =>
        qp ← foldM spawnQuery qp qPeers;
        Some (mkQuery qp (peerTimes q) false, qPeers, None)
    end.

(** *** One query *)

(** The outcome of the dial and of the RPC. *)
Inductive queryOutcome :=
  | DialFailed
  | QueryFailed
  | Answered (newPeers : list (@AddrInfo peerID addr)) (d : Z).

(** What a query does to the routing table and to the peerstore. *)
Inductive dhtAction :=
  | PeerStoppedDHT (p : peerID)
  | ValidPeerFound (p : peerID)
  | AddAddrs (p : peerID) (addrs : list addr).

(** [maybeAddAddrs]: no addresses for the node itself or a connected peer. *)
Definition maybeAddAddrs (connected : peerID → bool) (filterAddrs : list addr → list addr) p
    (addrs : list addr) : option dhtAction :=
  if decide (p = self) then None
  else if connected p then None
  else Some (AddAddrs p (filterAddrs addrs)).

(** The loop of [queryPeer] over the peers of a response, which returns the
    peers seen with their addresses: [known i] is the answer of the peerstore
    in iteration [i], [isTarget] tells whether the peer is the target,
    [queryPeerFilter] is the configured filter. *)
Definition sawPeers (known : nat → peerID → list addr) (isTarget : peerID → bool)
    (queryPeerFilter : @AddrInfo peerID addr → bool) (newPeers : list (@AddrInfo peerID addr))
    : list (@AddrInfo peerID addr) :=
  omap (λ '(i, next),
    if decide (aiID next = self) then None
    else
      let next := mkAddrInfo (aiID next) (aiAddrs next ++ known i (aiID next)) in
      if isTarget (aiID next) || queryPeerFilter next then Some next else None)
    (imap pair newPeers).

(** [queryPeer]: the effects on the node and the update sent; [ctxErr] tells
    whether the context was cancelled. *)
Definition queryPeer (known : nat → peerID → list addr) (isTarget : peerID → bool)
    (queryPeerFilter : @AddrInfo peerID addr → bool) (connected : peerID → bool)
    (filterAddrs : list addr → list addr) (maxPeersPerIPGroup : Z)
    (ctxErr : bool) (o : queryOutcome) p : list dhtAction * queryUpdate peerID :=
  match o with
  | DialFailed | QueryFailed =>
      (if ctxErr then [] else [PeerStoppedDHT p], mkUpdate p [] [] [p] 0%Z)
  | Answered newPeers d =>
      let newPeers := if decide (maxPeersPerIPGroup ≠ 0%Z)
                      then filterPeersByIPDiversity groupOf newPeers maxPeersPerIPGroup
                      else newPeers in
      let saw := sawPeers known isTarget queryPeerFilter newPeers in
      (ValidPeerFound p ::
         omap (λ a, maybeAddAddrs connected filterAddrs (aiID a) (aiAddrs a)) saw,
       mkUpdate p [p] (aiID <$> saw) [] d)
  end.

(** *** Result *)

(** [lookupWithFollowupResult] *)
Record lookupResult := mkLookupResult {
  lr_peers : list peerID;
  lr_state : list PeerState;
  lr_closest : list peerID;
  lr_completed : bool;
}.

(** [constructLookupResult] *)
Definition constructLookupResult qp : option (QueryPeerset peerID * lookupResult) :=
  '(qp, term) ← isLookupTermination qp;
  '(qp, completed) ← (if term : bool then Some (qp, true) else isStarvationTermination qp);
  '(qp, peers) ← GetClosestNInStates qp bucketSize [PeerHeard; PeerWaiting; PeerQueried];
  '(qp, closest) ← GetClosestNInStates qp bucketSize
                     [PeerHeard; PeerWaiting; PeerQueried; PeerUnreachable];
  states ← mapM (GetState qp) peers;
  Some (qp, mkLookupResult peers states closest completed).

(** The first loop of [recordValuablePeers]: the shortest query to a seed. *)
Definition mvpDuration (times : gmap peerID Z) (seedPeers : list peerID) : Z :=
  foldl (λ m p,
    match times !! p with
    | Some queryTime => if decide (queryTime < m)%Z then queryTime else m
    | None => m
    end) (2 ^ 63 - 1)%Z seedPeers.

(** [recordValuablePeers]: the seed peers marked as useful. *)
Definition recordValuablePeers (seedPeers : list peerID) (times : gmap peerID Z) : list peerID :=
  let mvp := mvpDuration times seedPeers in
  filter (λ p, match times !! p with
               | Some queryTime => bool_decide (queryTime < wrap64 (mvp * 2))%Z
               | None => false
               end = true) seedPeers.

(** *** The follow-up queries of [runLookupWithFollowup] *)

(** The peers to query after the lookup. *)
Definition followupPeers (r : lookupResult) : list peerID :=
  omap (λ '(p, st), if decide (st = PeerHeard ∨ st = PeerWaiting) then Some p else None)
    (zip (lr_peers r) (lr_state r)).

(** What the [select] of the follow-up loop receives: a query that ended, with
    the answer of the stop function, or the end of the context. *)
Inductive followupEvent := FollowupDone (stop : bool) | FollowupCtxDone.

(** The loop [processFollowUp] from index [i] of [n]: the events of the
    channel, the queries completed so far, the flag [completed]. *)
Fixpoint processFollowUp (n i : nat) (evs : list followupEvent) (done : nat) (completed : bool)
    : nat * bool :=
  match evs with
  | [] => (done, completed)
  | ev :: evs =>
      if decide (i < n) then
        match ev with
        | FollowupDone stop =>
            if stop then (S done, if decide (i < n - 1) then false else completed)
            else processFollowUp n (S i) evs (S done) completed
        | FollowupCtxDone => (done, false)
        end
      else (done, completed)
  end.

(** The number of queries waited for when [runLookupWithFollowup] returns,
    and the flag [completed]. *)
Definition followup (n : nat) (evs : list followupEvent) (completed : bool) : nat * bool :=
  let '(done, completed) := processFollowUp n 0 evs 0 completed in
  (if completed then done else done + (n - done), completed).

(** [runLookupWithFollowup] from the result of [runQuery]: [stopped] tells
    whether the context has ended or the stop function asks to stop.  The
    result, the follow-up queries spawned, and how many of them have ended
    when it returns. *)
Definition runLookupWithFollowup (r : lookupResult) (stopped : bool) (evs : list followupEvent)
    : lookupResult * list peerID * nat :=
  let queryPeers := followupPeers r in
  if decide (queryPeers = []) then (r, [], 0)
  else if stopped then (mkLookupResult (lr_peers r) (lr_state r) (lr_closest r) false, [], 0)
  else
    let '(done, completed) := followup (length queryPeers) evs (lr_completed r) in
    (mkLookupResult (lr_peers r) (lr_state r) (lr_closest r) completed, queryPeers, done).

(** [runQuery] before and after the loop of [run]: the error of a lookup
    without seed peers ([None]), the bound on the peers of an address group
    taken from the diversity filter, the peers marked as useful. *)
Definition runQueryBefore (nearest : list peerID) (maxForTable : option Z) : option (query * Z) :=
  if decide (nearest = []) then None
  else Some (mkQuery NewQueryPeerset ∅ false, default 0%Z maxForTable).

Definition runQueryAfter (ctxErr : bool) (seedPeers : list peerID) (q : query)
    : option (lookupResult * list peerID) :=
  let valuable := if ctxErr then [] else recordValuablePeers seedPeers (peerTimes q) in
  '(_, r) ← constructLookupResult (queryPeers q);
  Some (r, valuable).
End definitions.

(** ** The operations of the loop *)

(** The peers with an outstanding query. *)
Abbreviation waiting qp := (inStates [PeerWaiting] qp).

Section operations.
Context {peerID addr G : Type} {EP : EqDecision peerID} {CP : Countable peerID}.
Context (distanceToKey : peerID → Z) (self : peerID) (alpha beta bucketSize : Z).
Implicit Types (qp : QueryPeerset peerID) (p x : peerID) (q : @query peerID EP CP).

Abbreviation qpOk := (qpInv distanceToKey).

(** A well-formed peer set that does not hold the node itself. *)
Definition peersOk qp : Prop := qpOk qp ∧ stateOf qp self = None.

Lemma peersOk_NoDup qp : peersOk qp → NoDup (id <$> all qp).
Proof. by intros [(? & _) _]. Qed.

Lemma sameView_peersOk qp qp' : peersOk qp → sameView distanceToKey qp qp' → peersOk qp'.
Proof. intros [_ Hs] Hv. split; [apply Hv|]. by rewrite (sameView_stateOf _ _ _ _ Hv). Qed.

Lemma sameView_trans qp1 qp2 qp3 :
  sameView distanceToKey qp1 qp2 → sameView distanceToKey qp2 qp3 → sameView distanceToKey qp1 qp3.
Proof. intros [H1 _] [H2 Hi]. split; [by rewrite H2|done]. Qed.

Lemma known_stateOf qp p s : stateOf qp p = Some s → p ∈ id <$> all qp.
Proof.
  intros Hs. destruct (decide (p ∈ id <$> all qp)) as [|Hn]; [done|].
  rewrite <-stateOf_None in Hn. congruence.
Qed.

Lemma elem_of_waiting qp p : peersOk qp → p ∈ waiting qp ↔ stateOf qp p = Some PeerWaiting.
Proof. intros Hok. rewrite elem_of_inStates by (by apply peersOk_NoDup). set_solver. Qed.

(** Counting the peers in given states. *)
Lemma GetClosestInStates_all qp states :
  peersOk qp →
  ∃ qp' r, GetClosestInStates qp states = Some (qp', r) ∧ sameView distanceToKey qp qp' ∧
    r ≡ₚ inStates states qp.
Proof.
  intros [Hinv _]. unfold GetClosestInStates.
  destruct (GetClosestNInStates_spec distanceToKey qp (Z.of_nat (length (all qp))) states)
    as (qp' & r & rest & Hr & Hv & Hp & _ & Hl); [done|lia|].
  exists qp', r. split_and!; [done|done|]. rewrite <-Hp.
  assert (length (inStates states qp) ≤ length (all qp)) as Hle.
  { unfold inStates. rewrite length_fmap. apply length_filter. }
  apply Permutation_length in Hp. rewrite length_app in Hp.
  destruct rest; [by rewrite app_nil_r|simpl in Hp; lia].
Qed.

Lemma NumWaiting_spec qp :
  peersOk qp → ∃ qp', NumWaiting qp = Some (qp', Z.of_nat (length (waiting qp))) ∧
    sameView distanceToKey qp qp'.
Proof.
  intros Hok. unfold NumWaiting. destruct (GetClosestInStates_all qp [PeerWaiting] Hok)
    as (qp' & r & -> & Hv & Hr). exists qp'. cbn. by rewrite (Permutation_length Hr).
Qed.

Lemma isStarvationTermination_spec qp :
  peersOk qp →
  ∃ qp', isStarvationTermination qp =
      Some (qp', bool_decide (inStates [PeerHeard] qp = [] ∧ waiting qp = [])) ∧
    sameView distanceToKey qp qp'.
Proof.
  intros Hok. unfold isStarvationTermination, NumHeard.
  destruct (GetClosestInStates_all qp [PeerHeard] Hok) as (qp1 & r & -> & Hv & Hr).
  cbn [mbind option_bind]. rewrite (Permutation_length Hr). case_decide as Hh.
  - destruct (NumWaiting_spec qp1) as (qp2 & -> & Hv2); [by eapply sameView_peersOk|].
    cbn [mbind option_bind]. exists qp2. split; [|by eapply sameView_trans]. do 2 f_equal.
    rewrite (Permutation_length (sameView_inStates _ _ _ _ Hv)). apply bool_decide_ext.
    rewrite <-!length_zero_iff_nil. lia.
  - exists qp1. split; [|done]. rewrite bool_decide_eq_false_2; [done|].
    intros [He _]. rewrite He in Hh. done.
Qed.

(** The [n] closest of the peers that are not unreachable have all been
    queried. *)
Definition closestQueried (n : Z) qp : Prop :=
  ∃ r rest, r ++ rest ≡ₚ inStates [PeerHeard; PeerWaiting; PeerQueried] qp ∧
    StronglySorted (λ x y, (distanceToKey x ≤ distanceToKey y)%Z) (r ++ rest) ∧
    length r = Nat.min (Z.to_nat n) (length (inStates [PeerHeard; PeerWaiting; PeerQueried] qp)) ∧
    ∀ p, p ∈ r → stateOf qp p = Some PeerQueried.

Lemma allQueried_spec qp r :
  peersOk qp → (∀ p, p ∈ r → ∃ s, stateOf qp p = Some s) →
  ∃ b, allQueried qp r = Some b ∧ (b = true ↔ ∀ p, p ∈ r → stateOf qp p = Some PeerQueried).
Proof.
  intros Hok. induction r as [|p r IH]; intros Hk; cbn [allQueried].
  - exists true. split; [done|]. split; [|done]. by intros _ ? ?%not_elem_of_nil.
  - rewrite GetState_stateOf by (by apply peersOk_NoDup).
    destruct (Hk p) as [s Hs]; [set_solver|]. rewrite Hs. cbn [mbind option_bind]. case_decide as Hq.
    + destruct IH as (b & -> & Hb); [set_solver|]. exists b. split; [done|]. rewrite Hb. subst. set_solver.
    + exists false. split; [done|]. split; [done|]. intros Ha. specialize (Ha p). set_solver.
Qed.

Lemma isLookupTermination_spec qp :
  (0 ≤ beta)%Z → peersOk qp →
  ∃ qp' b, isLookupTermination beta qp = Some (qp', b) ∧ sameView distanceToKey qp qp' ∧
    (b = true → closestQueried beta qp).
Proof.
  intros Hbeta Hok. unfold isLookupTermination. pose proof Hok as [Hinv _].
  destruct (GetClosestNInStates_spec distanceToKey qp beta [PeerHeard; PeerWaiting; PeerQueried])
    as (qp1 & r & rest & -> & Hv & Hp & Hs & Hl); [done|done|]. cbn [mbind option_bind].
  destruct (allQueried_spec qp1 r) as (b & -> & Hb); [by eapply sameView_peersOk| |].
  - intros p Hin. assert (p ∈ inStates [PeerHeard; PeerWaiting; PeerQueried] qp) as Hi.
    { rewrite <-Hp. set_solver. }
    rewrite elem_of_inStates in Hi by (by apply peersOk_NoDup). destruct Hi as (s & Hst & _).
    exists s. by rewrite (sameView_stateOf _ _ _ _ Hv).
  - cbn [mbind option_bind]. exists qp1, b. split_and!; [done|done|]. intros Hbt. exists r, rest.
    split_and!; [done|done|done|]. intros p Hin. rewrite <-(sameView_stateOf _ _ _ _ Hv).
    by apply Hb.
Qed.

(** *** [updateState] *)

Lemma addHeard_loop c qp l :
  peersOk qp →
  let qp' := foldl (addHeard distanceToKey self c) qp l in
  peersOk qp' ∧ ∀ x, stateOf qp' x =
    match stateOf qp x with
    | Some s => Some s
    | None => if decide (x ∈ l ∧ x ≠ self) then Some PeerHeard else None
    end.
Proof.
  revert qp. induction l as [|p l IH]; intros qp Hok; cbn [foldl]; cbv zeta.
  { split; [done|]. intros x. destruct (stateOf qp x); [done|]. rewrite decide_False; [done|]. set_solver. }
  change (addHeard distanceToKey self c qp p)
    with (if decide (p = self) then qp else (TryAdd distanceToKey qp p c).1).
  destruct (decide (p = self)) as [->|Hp].
  - destruct (IH qp Hok) as [Hok' Hst]. split; [done|]. intros x. rewrite Hst.
    destruct (stateOf qp x); [done|]. repeat case_decide; set_solver.
  - pose proof (TryAdd_spec distanceToKey qp p c (proj1 Hok)) as Ht.
    destruct (TryAdd distanceToKey qp p c) as [qp1 added]. cbn [fst].
    destruct Ht as (Hinv1 & _ & Hst1).
    assert (peersOk qp1) as Hok1.
    { split; [done|]. rewrite Hst1. rewrite decide_False by naive_solver. apply Hok. }
    destruct (IH qp1 Hok1) as [Hok' Hst]. split; [done|]. intros x. rewrite Hst, Hst1.
    destruct (decide (x = p ∧ p ∉ ids qp)) as [[-> Hn]|Hx].
    + rewrite <-stateOf_None in Hn. rewrite Hn, decide_True by set_solver. done.
    + destruct (stateOf qp x) eqn:E; [done|]. apply stateOf_None in E.
      repeat case_decide; try done; set_solver.
Qed.

Lemma peersOk_SetState qp p s :
  peersOk qp → p ≠ self → p ∈ ids qp →
  ∃ qp', SetState qp p s = Some qp' ∧ peersOk qp' ∧
    ∀ x, stateOf qp' x = (if decide (x = p) then Some s else stateOf qp x).
Proof.
  intros [Hinv Hself] Hp Hin. destruct (SetState_spec distanceToKey qp p s) as (qp' & Hq & Hi & Hst);
    [done|done|]. exists qp'. split_and!; [done| |done]. split; [done|]. by rewrite Hst, decide_False.
Qed.

Lemma markQueried_loop d qp times l :
  peersOk qp → NoDup l → self ∉ l → (∀ p, p ∈ l → stateOf qp p = Some PeerWaiting) →
  ∃ qp' times', foldM (markQueried self d) (qp, times) l = Some (qp', times') ∧ peersOk qp' ∧
    (∀ x, stateOf qp' x = if decide (x ∈ l) then Some PeerQueried else stateOf qp x) ∧
    (∀ x, times' !! x = if decide (x ∈ l) then Some d else times !! x).
Proof.
  revert qp times. induction l as [|p l IH]; intros qp times Hok Hnd Hself Hw; cbn [foldM].
  { eexists _, _. split_and!; [done|done| |]; intros x; rewrite decide_False; set_solver. }
  apply NoDup_cons in Hnd as [Hpl Hnd]. apply not_elem_of_cons in Hself as [Hps Hself].
  assert (stateOf qp p = Some PeerWaiting) as Hpw by (apply Hw; set_solver).
  destruct (peersOk_SetState qp p PeerQueried) as (qp1 & Hset & Hok1 & Hst1);
    [done|done|by eapply known_stateOf|].
  assert (markQueried self d (qp, times) p = Some (qp1, <[p := d]> times)) as ->.
  { unfold markQueried. cbn [fst snd]. rewrite decide_False by done.
    rewrite GetState_stateOf, Hpw by (by apply peersOk_NoDup). cbn [mbind option_bind].
    by rewrite decide_True, Hset. }
  cbn [mbind option_bind].
  destruct (IH qp1 (<[p := d]> times)) as (qp' & times' & -> & Hok' & Hst & Hti); [done|done|done| |].
  { intros x Hx. rewrite Hst1, decide_False by set_solver. apply Hw. set_solver. }
  eexists _, _. split_and!; [done|done| |].
  - intros x. rewrite Hst, Hst1. destruct (decide (x = p)) as [->|Hne].
    + rewrite decide_False, decide_True by set_solver. done.
    + destruct (decide (x ∈ l)); [rewrite decide_True by set_solver|rewrite decide_False by set_solver]; done.
  - intros x. rewrite Hti. destruct (decide (x = p)) as [->|Hne].
    + rewrite decide_False, decide_True by set_solver. by rewrite lookup_insert_eq.
    + rewrite lookup_insert_ne by done.
      destruct (decide (x ∈ l)); [rewrite decide_True by set_solver|rewrite decide_False by set_solver]; done.
Qed.

Lemma markUnreachable_loop qp l :
  peersOk qp → NoDup l → self ∉ l → (∀ p, p ∈ l → stateOf qp p = Some PeerWaiting) →
  ∃ qp', foldM (markUnreachable self) qp l = Some qp' ∧ peersOk qp' ∧
    (∀ x, stateOf qp' x = if decide (x ∈ l) then Some PeerUnreachable else stateOf qp x).
Proof.
  revert qp. induction l as [|p l IH]; intros qp Hok Hnd Hself Hw; cbn [foldM].
  { eexists. split_and!; [done|done|]. intros x. rewrite decide_False; set_solver. }
  apply NoDup_cons in Hnd as [Hpl Hnd]. apply not_elem_of_cons in Hself as [Hps Hself].
  assert (stateOf qp p = Some PeerWaiting) as Hpw by (apply Hw; set_solver).
  destruct (peersOk_SetState qp p PeerUnreachable) as (qp1 & Hset & Hok1 & Hst1);
    [done|done|by eapply known_stateOf|].
  assert (markUnreachable self qp p = Some qp1) as ->.
  { unfold markUnreachable. rewrite decide_False by done.
    rewrite GetState_stateOf, Hpw by (by apply peersOk_NoDup). cbn [mbind option_bind].
    by rewrite decide_True. }
  cbn [mbind option_bind]. destruct (IH qp1) as (qp' & -> & Hok' & Hst); [done|done|done| |].
  { intros x Hx. rewrite Hst1, decide_False by set_solver. apply Hw. set_solver. }
  eexists. split_and!; [done|done|]. intros x. rewrite Hst, Hst1. destruct (decide (x = p)) as [->|Hne].
  - rewrite decide_False, decide_True by set_solver. done.
  - destruct (decide (x ∈ l)); [rewrite decide_True by set_solver|rewrite decide_False by set_solver]; done.
Qed.

(** The state of [x] after the update [u]. *)
Definition updatedState (u : queryUpdate peerID) (st : option PeerState) x : option PeerState :=
  if decide (x ∈ unreachable u) then Some PeerUnreachable
  else if decide (x ∈ queried u) then Some PeerQueried
  else match st with
       | Some s => Some s
       | None => if decide (x ∈ heard u ∧ x ≠ self) then Some PeerHeard else None
       end.

(** The peers an update is about are distinct and waiting for it. *)
Definition updateOk qp (u : queryUpdate peerID) : Prop :=
  NoDup (queried u ++ unreachable u) ∧ self ∉ queried u ++ unreachable u ∧
  ∀ p, p ∈ queried u ++ unreachable u → stateOf qp p = Some PeerWaiting.

Lemma updateState_spec q u :
  peersOk (queryPeers q) → terminated q = false → updateOk (queryPeers q) u →
  ∃ q', updateState distanceToKey self q u = Some q' ∧ peersOk (queryPeers q') ∧
    terminated q' = false ∧
    ∀ x, stateOf (queryPeers q') x = updatedState u (stateOf (queryPeers q) x) x.
Proof.
  intros Hok Ht (Hnd & Hself & Hw). unfold updateState. rewrite Ht. cbv zeta.
  destruct (addHeard_loop (cause u) (queryPeers q) (heard u) Hok) as [Hok1 Hst1]. cbv zeta in *.
  set (qp1 := foldl _ _ _) in *.
  apply NoDup_app in Hnd as (Hndq & Hdis & Hndu). apply not_elem_of_app in Hself as [Hsq Hsu].
  assert (∀ p, p ∈ queried u ++ unreachable u → stateOf qp1 p = Some PeerWaiting) as Hw1.
  { intros p Hp. by rewrite Hst1, Hw. }
  destruct (markQueried_loop (queryDuration u) qp1 (peerTimes q) (queried u))
    as (qp2 & times & -> & Hok2 & Hst2 & _); [done|done|done| |].
  { intros p Hp. apply Hw1. set_solver. }
  cbn [mbind option_bind].
  destruct (markUnreachable_loop qp2 (unreachable u)) as (qp3 & -> & Hok3 & Hst3); [done|done|done| |].
  { intros p Hp. rewrite Hst2, decide_False by (intros ?; by eapply Hdis). apply Hw1. set_solver. }
  cbn [mbind option_bind]. eexists. split; [done|]. cbn [queryPeers terminated].
  split_and!; [done|done|]. intros x. unfold updatedState. by rewrite Hst3, Hst2, Hst1.
Qed.

(** *** Spawning queries *)

Lemma spawnQuery_loop qp l :
  peersOk qp → self ∉ l → (∀ p, p ∈ l → p ∈ ids qp) →
  ∃ qp', foldM spawnQuery qp l = Some qp' ∧ peersOk qp' ∧
    ∀ x, stateOf qp' x = if decide (x ∈ l) then Some PeerWaiting else stateOf qp x.
Proof.
  revert qp. induction l as [|p l IH]; intros qp Hok Hself Hin; cbn [foldM].
  { exists qp. split_and!; [done|done|]. intros x. rewrite decide_False; set_solver. }
  apply not_elem_of_cons in Hself as [Hps Hself].
  destruct (peersOk_SetState qp p PeerWaiting) as (qp1 & Hset & Hok1 & Hst1); [done|done|set_solver|].
  assert (spawnQuery qp p = Some qp1) as ->.
  { unfold spawnQuery. destruct (GetReferrer_Some qp p) as [r ->]; [set_solver|]. done. }
  cbn [mbind option_bind]. destruct (IH qp1) as (qp' & -> & Hok' & Hst); [done|done| |].
  { intros x Hx. destruct (decide (x ∈ ids qp1)) as [|Hn]; [done|]. rewrite <-stateOf_None, Hst1 in Hn.
    case_decide; [done|]. apply stateOf_None in Hn. destruct Hn. apply Hin. set_solver. }
  exists qp'. split_and!; [done|done|]. intros x. rewrite Hst, Hst1.
  destruct (decide (x = p)) as [->|Hne]; [rewrite (decide_True (P := p ∈ p :: l)) by set_solver; by case_decide|].
  destruct (decide (x ∈ l)); [rewrite decide_True by set_solver|rewrite decide_False by set_solver]; done.
Qed.

(** *** One iteration of the loop *)

(** What the reason to return says about the peer set. *)
Definition reasonOk (r : LookupTerminationReason) qp : Prop :=
  match r with
  | LookupStarvation => inStates [PeerHeard] qp = [] ∧ waiting qp = []
  | LookupCompleted => closestQueried beta qp
  | _ => True
  end.

Lemma sameView_closestQueried n qp qp' :
  sameView distanceToKey qp qp' → closestQueried n qp → closestQueried n qp'.
Proof.
  intros Hv (r & rest & Hp & Hs & Hl & Hq). exists r, rest.
  pose proof (sameView_inStates _ _ _ [PeerHeard; PeerWaiting; PeerQueried] Hv) as Hi.
  split_and!; [by rewrite Hi|done|by rewrite (Permutation_length Hi)|].
  intros p Hin. rewrite (sameView_stateOf _ _ _ _ Hv). auto.
Qed.

Lemma isReadyToTerminate_spec stop qp n :
  (0 ≤ beta)%Z → peersOk qp → (0 ≤ n)%Z →
  ∃ qp' ready peers, isReadyToTerminate beta stop qp n = Some (qp', ready, peers) ∧
    sameView distanceToKey qp qp' ∧
    match ready with
    | Some r => reasonOk r qp'
    | None => NoDup peers ∧ (∀ p, p ∈ peers → stateOf qp p = Some PeerHeard) ∧
        length peers ≤ Z.to_nat n ∧
        (waiting qp = [] → (0 < n)%Z → peers ≠ [])
    end.
Proof.
  intros Hbeta Hok Hn. unfold isReadyToTerminate. destruct stop.
  { eexists _, _, _. split_and!; [done| |done]. split; [done|apply Hok]. }
  destruct (isStarvationTermination_spec qp Hok) as (qp1 & -> & Hv1). cbn [mbind option_bind].
  case_bool_decide as Hs.
  { eexists _, _, _. split_and!; [done|done|]. simpl.
    pose proof (sameView_inStates _ _ _ [PeerHeard] Hv1) as Hh.
    pose proof (sameView_inStates _ _ _ [PeerWaiting] Hv1) as Hw. destruct Hs as [Hs1 Hs2].
    rewrite Hs1 in Hh. rewrite Hs2 in Hw. by apply Permutation_nil_r in Hh, Hw. }
  assert (peersOk qp1) as Hok1 by (by eapply sameView_peersOk).
  destruct (isLookupTermination_spec qp1 Hbeta Hok1) as (qp2 & b & -> & Hv2 & Hb). cbn [mbind option_bind].
  destruct b.
  { eexists _, _, _. split_and!; [done|by eapply sameView_trans|]. simpl.
    eapply sameView_closestQueried; [exact Hv2|by apply Hb]. }
  assert (peersOk qp2) as Hok2 by (by eapply sameView_peersOk).
  destruct (GetClosestNInStates_spec distanceToKey qp2 n [PeerHeard])
    as (qp3 & r & rest & -> & Hv3 & Hp & _ & Hl); [apply Hok2|done|]. cbn [mbind option_bind].
  assert (sameView distanceToKey qp qp2) as Hv02 by (by eapply sameView_trans).
  rewrite (sameView_inStates _ _ _ _ Hv02) in Hp.
  rewrite (Permutation_length (sameView_inStates _ _ _ [PeerHeard] Hv02)) in Hl.
  eexists _, _, _. split_and!; [done|by eapply sameView_trans|].
  assert (NoDup (r ++ rest)) as Hnd by (rewrite Hp; by apply NoDup_inStates, peersOk_NoDup).
  split_and!.
  - by apply NoDup_app in Hnd as [? _].
  - intros p Hin. assert (p ∈ inStates [PeerHeard] qp) as Hi by (rewrite <-Hp; set_solver).
    rewrite elem_of_inStates in Hi by (by apply peersOk_NoDup). destruct Hi as (s & Hs' & Hin'). set_solver.
  - lia.
  - intros Hw Hpos ->. simpl in Hl. destruct (inStates [PeerHeard] qp) eqn:Hh; [by apply Hs|].
    simpl in Hl. lia.
Qed.

Lemma waiting_le qp qp' :
  peersOk qp → peersOk qp' →
  (∀ x, stateOf qp' x = Some PeerWaiting → stateOf qp x = Some PeerWaiting) →
  length (waiting qp') ≤ length (waiting qp).
Proof.
  intros Hok Hok' Hsub. apply submseteq_length, NoDup_submseteq; [by apply NoDup_inStates, peersOk_NoDup|].
  intros x. rewrite !elem_of_waiting by done. apply Hsub.
Qed.

(** The state of the peers after the event, before new queries are spawned. *)
Definition eventState (ev : loopEvent) qp x : option PeerState :=
  match ev with
  | Received u => updatedState u (stateOf qp x) x
  | CtxDone => stateOf qp x
  end.

Definition eventOk (ev : loopEvent) qp : Prop :=
  match ev with Received u => updateOk qp u | CtxDone => True end.

Lemma updatedState_waiting qp u x :
  updatedState u (stateOf qp x) x = Some PeerWaiting →
  stateOf qp x = Some PeerWaiting ∧ x ∉ queried u ++ unreachable u.
Proof.
  unfold updatedState. do 2 (case_decide; [done|]). destruct (stateOf qp x); [|by case_decide].
  intros ->. split; [done|]. rewrite elem_of_app. tauto.
Qed.

Lemma loopBody_spec stop ev q :
  (0 ≤ beta)%Z → (0 < alpha)%Z → peersOk (queryPeers q) → terminated q = false → eventOk ev (queryPeers q) →
  (Z.of_nat (length (waiting (queryPeers q))) ≤ alpha)%Z →
  ∃ q' spawned ret, loopBody distanceToKey self alpha beta stop ev q = Some (q', spawned, ret) ∧
    peersOk (queryPeers q') ∧ NoDup spawned ∧
    (∀ p, p ∈ spawned → eventState ev (queryPeers q) p = Some PeerHeard) ∧
    (∀ x, stateOf (queryPeers q') x =
      if decide (x ∈ spawned) then Some PeerWaiting else eventState ev (queryPeers q) x) ∧
    (Z.of_nat (length (waiting (queryPeers q'))) ≤ alpha)%Z ∧
    match ret with
    | None => terminated q' = false ∧ waiting (queryPeers q') ≠ []
    | Some r => reasonOk r (queryPeers q') ∧ spawned = []
    end.
Proof.
  intros Hbeta Halpha Hok Ht Hev Hw. unfold loopBody.
  assert (∃ q1, match ev with
      | Received up => updateState distanceToKey self q up
      | CtxDone => Some (mkQuery (queryPeers q) (peerTimes q) true)
      end = Some q1 ∧ peersOk (queryPeers q1) ∧
      (∀ x, stateOf (queryPeers q1) x = eventState ev (queryPeers q) x)) as (q1 & -> & Hok1 & Hst1).
  { destruct ev as [u|]; [|by eexists].
    destruct (updateState_spec q u Hok Ht Hev) as (q1 & Hq & Hok1 & _ & Hst). eauto. }
  cbn [mbind option_bind].
  assert (length (waiting (queryPeers q1)) ≤ length (waiting (queryPeers q))) as Hle.
  { apply waiting_le; [done|done|]. intros x. rewrite Hst1. destruct ev as [u|]; [|done].
    simpl. intros Hx. by apply updatedState_waiting in Hx as [? _]. }
  destruct (NumWaiting_spec (queryPeers q1) Hok1) as (qp2 & -> & Hv2). cbn [mbind option_bind].
  assert (peersOk qp2) as Hok2 by (by eapply sameView_peersOk).
  destruct (isReadyToTerminate_spec stop qp2 (alpha - Z.of_nat (length (waiting (queryPeers q1)))))
    as (qp3 & ready & peers & -> & Hv3 & Hready); [done|done|lia|]. cbn [mbind option_bind].
  assert (sameView distanceToKey (queryPeers q1) qp3) as Hv13 by (by eapply sameView_trans).
  assert (peersOk qp3) as Hok3 by (by eapply sameView_peersOk).
  assert (∀ x, stateOf qp3 x = eventState ev (queryPeers q) x) as Hst3.
  { intros x. by rewrite (sameView_stateOf _ _ _ _ Hv13). }
  pose proof (Permutation_length (sameView_inStates _ _ _ [PeerWaiting] Hv13)) as Hlen3.
  assert (∀ r, reasonOk r qp3 → ∃ q' spawned ret,
    Some (mkQuery qp3 (peerTimes q1) true, [], Some r) = Some (q', spawned, ret) ∧
    peersOk (queryPeers q') ∧ NoDup spawned ∧
    (∀ p, p ∈ spawned → eventState ev (queryPeers q) p = Some PeerHeard) ∧
    (∀ x, stateOf (queryPeers q') x =
      if decide (x ∈ spawned) then Some PeerWaiting else eventState ev (queryPeers q) x) ∧
    (Z.of_nat (length (waiting (queryPeers q'))) ≤ alpha)%Z ∧
    match ret with
    | None => terminated q' = false ∧ waiting (queryPeers q') ≠ []
    | Some r => reasonOk r (queryPeers q') ∧ spawned = []
    end) as Hret.
  { intros r Hr. eexists _, _, _. split; [done|]. cbn [queryPeers].
    split_and!; [done|constructor|set_solver| |lia|done|done].
    intros x. by rewrite decide_False by set_solver. }
  destruct (terminated q1); [by apply Hret|]. destruct ready as [r|]; [by apply Hret|].
  destruct Hready as (Hnd & Hh & Hl & Hne).
  assert (∀ p, p ∈ peers → stateOf qp3 p = Some PeerHeard) as Hh3.
  { intros p Hp. rewrite (sameView_stateOf _ _ _ _ Hv3). auto. }
  destruct (spawnQuery_loop qp3 peers) as (qp4 & -> & Hok4 & Hst4); [done| | |].
  { intros Hin. apply Hh3 in Hin. by rewrite (proj2 Hok3) in Hin. }
  { intros p Hp. by eapply known_stateOf, Hh3. }
  cbn [mbind option_bind]. eexists _, _, _. split; [done|]. cbn [queryPeers terminated].
  assert (waiting qp4 ≡ₚ peers ++ waiting qp3) as Hw4.
  { apply NoDup_Permutation.
    - by apply NoDup_inStates, peersOk_NoDup.
    - apply NoDup_app. split_and!; [done| |by apply NoDup_inStates, peersOk_NoDup].
      intros p Hp. rewrite elem_of_waiting, Hh3 by done. done.
    - intros x. rewrite elem_of_app, !elem_of_waiting, Hst4 by done. case_decide; [tauto|]. naive_solver. }
  split_and!; [done|done| | | |done|].
  - intros p Hp. rewrite <-Hst3. auto.
  - intros x. by rewrite Hst4, Hst3.
  - rewrite Hw4, length_app. lia.
  - intros He. rewrite He in Hw4. apply Permutation_nil_l in Hw4; symmetry in Hw4; apply app_nil in Hw4 as [Hp Hw3].
    apply Hne; [| |done].
    + pose proof (sameView_inStates _ _ _ [PeerWaiting] Hv3) as Hp3. rewrite Hw3 in Hp3.
      by apply Permutation_nil_l in Hp3.
    + rewrite <-Hlen3, Hw3. simpl. lia.
Qed.
End operations.

(** ** The lookup as a transition system *)

Section system.
Context {peerID addr G : Type} {EP : EqDecision peerID} {CP : Countable peerID}.
Context {EG : EqDecision G} {CG : Countable G} (groupOf : addr → option G).
Context (distanceToKey : peerID → Z) (self : peerID) (alpha beta bucketSize : Z).
(** All peers that may ever be heard of. *)
Context (network : gset peerID).

(** The state of [run]: the state of the loop, the channel, the goroutines in
    flight, and the reason once the loop has returned. *)
Record sys := mkSys {
  sq : @query peerID EP CP;
  ch : list (queryUpdate peerID);
  running : list peerID;
  returned : option LookupTerminationReason;
}.

(** The state of [run] before its loop. *)
Definition initial (seedPeers : list peerID) : sys :=
  mkSys (mkQuery NewQueryPeerset ∅ false) [mkUpdate self [] seedPeers [] 0%Z] [] None.

(** The peers of an answer are peers of the network. *)
Definition outcomeIn (o : @queryOutcome peerID addr) : Prop :=
  match o with
  | Answered newPeers _ => ∀ a, a ∈ newPeers → aiID a ∈ network
  | _ => True
  end.

(** A query ends and sends its update (when the channel has room), or the
    loop runs once on an update or on the end of its context. *)
Inductive step : sys → sys → Prop :=
  | step_query s l1 l2 p known isTarget queryPeerFilter connected filterAddrs maxPeersPerIPGroup
      ctxErr o :
      running s = l1 ++ p :: l2 → outcomeIn o → (Z.of_nat (length (ch s)) < alpha)%Z →
      step s (mkSys (sq s)
        (ch s ++ [(queryPeer groupOf self known isTarget queryPeerFilter connected filterAddrs
                     maxPeersPerIPGroup ctxErr o p).2])
        (l1 ++ l2) (returned s))
  | step_receive s stop u rest q' spawned ret :
      returned s = None → ch s = u :: rest →
      loopBody distanceToKey self alpha beta stop (Received u) (sq s) = Some (q', spawned, ret) →
      step s (mkSys q' rest (running s ++ spawned) ret)
  | step_cancel s stop q' spawned ret :
      returned s = None →
      loopBody distanceToKey self alpha beta stop CtxDone (sq s) = Some (q', spawned, ret) →
      step s (mkSys q' (ch s) (running s ++ spawned) ret).

Abbreviation peersOk := (peersOk distanceToKey self).
Abbreviation qps s := (queryPeers (sq s)).

(** The peers an update is about. *)
Definition target (u : queryUpdate peerID) : list peerID := queried u ++ unreachable u.

(** The waiting peers are those with a query in flight or an update in the
    channel; there are at most [alpha]; while the loop runs there is one. *)
Definition sysInv (s : sys) : Prop :=
  peersOk (qps s) ∧
  (Z.of_nat (length (waiting (qps s))) ≤ alpha)%Z ∧
  waiting (qps s) ≡ₚ running s ++ concat (target <$> ch s) ∧
  (returned s = None → terminated (sq s) = false) ∧
  (∀ r, returned s = Some r → reasonOk distanceToKey beta r (qps s)) ∧
  ((∃ u, ch s = [u] ∧ target u = []) ∧ running s = [] ∨
   Forall (λ u, length (target u) = 1) (ch s) ∧ (returned s = None → waiting (qps s) ≠ [])).

(** Only peers of the network are known or about to be. *)
Definition netInv (s : sys) : Prop :=
  (∀ p st, stateOf (qps s) p = Some st → p ∈ network) ∧
  Forall (λ u, ∀ p, p ∈ heard u → p ∈ network) (ch s).

Lemma sawPeers_sub known isTarget flt (ps : list (@AddrInfo peerID addr)) x :
  x ∈ aiID <$> sawPeers self known isTarget flt ps → ∃ a, a ∈ ps ∧ aiID a = x.
Proof.
  unfold sawPeers. intros (y & -> & Hy)%list_elem_of_fmap.
  apply list_elem_of_omap in Hy as ([i a] & Ha & Hx).
  apply elem_of_lookup_imap in Ha as (j & b & [= -> ->] & Hj%list_elem_of_lookup_2).
  exists b. split; [done|].
  case_decide; [done|]. cbv zeta in Hx. cbn [aiID] in Hx. destruct (_ || _); by simplify_eq.
Qed.

Lemma queryPeer_update known isTarget flt cn fa maxIP ctxErr o p :
  outcomeIn o →
  let u := (queryPeer groupOf self known isTarget flt cn fa maxIP ctxErr o p).2 in
  target u = [p] ∧ ∀ x, x ∈ heard u → x ∈ network.
Proof.
  intros Ho. destruct o as [| |newPeers d]; cbn -[sawPeers]; [set_solver|set_solver|].
  split; [done|]. intros x (a & Ha & <-)%sawPeers_sub. apply Ho.
  case_decide; [by eapply filterPeersByIPDiversity_sub|done].
Qed.

Hypothesis alpha_pos : (0 < alpha)%Z.
Hypothesis beta_nonneg : (0 ≤ beta)%Z.

Lemma sysInv_initial seeds : sysInv (initial seeds).
Proof.
  split_and!.
  - split; [|done]. split_and!; [constructor|constructor|done].
  - simpl. lia.
  - done.
  - done.
  - by intros r.
  - left. split; [|done]. eexists. done.
Qed.

(** The updates of the channel are about waiting peers. *)
Lemma sysInv_updateOk s u rest :
  sysInv s → ch s = u :: rest → updateOk self (qps s) u.
Proof.
  intros (Hok & _ & Hp & _ & _ & Hsh) Hch.
  assert (∀ p, p ∈ target u → stateOf (qps s) p = Some PeerWaiting) as Hw.
  { intros p Hin. apply (elem_of_waiting _ _ _ _ Hok). rewrite Hp, Hch. cbn. set_solver. }
  assert (length (target u) ≤ 1) as Hl.
  { destruct Hsh as [[(u' & Hu & Ht) _]|[Hall _]].
    - rewrite Hch in Hu. simplify_eq. rewrite Ht. simpl. lia.
    - rewrite Hch in Hall. apply Forall_cons in Hall as [-> _]. done. }
  split_and!; [| |done].
  - change (NoDup (target u)). destruct (target u) as [|p [|]]; [constructor|apply NoDup_singleton|simpl in Hl; lia].
  - intros Hin. apply Hw in Hin. by rewrite (proj2 Hok) in Hin.
Qed.

(** Effect of one iteration of the loop on the invariant; [us] are the updates
    it consumes. *)
Lemma loopBody_sysInv s stop ev us rest :
  sysInv s → returned s = None → us ++ rest = ch s →
  ev = match us with [u] => Received u | _ => CtxDone end → length us ≤ 1 →
  ∃ q' spawned ret, loopBody distanceToKey self alpha beta stop ev (sq s) = Some (q', spawned, ret) ∧
    (∀ p, p ∈ spawned → eventState self ev (qps s) p = Some PeerHeard) ∧ NoDup spawned ∧
    (∀ x, stateOf (queryPeers q') x =
      if decide (x ∈ spawned) then Some PeerWaiting else eventState self ev (qps s) x) ∧
    (us = [] → ret ≠ None) ∧
    sysInv (mkSys q' rest (running s ++ spawned) ret).
Proof.
  intros Hinv Hret Hus Hev Hlen. pose proof Hinv as (Hok & Hal & Hp & Ht & _ & Hsh).
  assert (eventOk self ev (qps s)) as Hevok.
  { destruct us as [|u [|]]; [by subst| |simpl in Hlen; lia]. subst ev. by eapply sysInv_updateOk. }
  destruct (loopBody_spec distanceToKey self alpha beta stop ev (sq s))
    as (q' & spawned & ret & Hbody & Hok' & Hnd & Hh & Hst & Hal' & Hr); [done|done|done|auto|done|done|].
  exists q', spawned, ret. split_and!; [done|done|done|done| |].
  { intros ->. subst ev. unfold loopBody in Hbody. cbn [mbind option_bind] in Hbody.
    intros ->. destruct (NumWaiting _) as [[qp1 n]|]; [|done]. cbn [mbind option_bind] in Hbody.
    destruct (isReadyToTerminate _ _ _ _) as [[[qp2 r] l]|]; done. }
  assert (∀ x, eventState self ev (qps s) x = Some PeerWaiting ↔
    stateOf (qps s) x = Some PeerWaiting ∧ x ∉ concat (target <$> us)) as Hevw.
  { intros x. destruct us as [|u [|]]; [|subst ev|simpl in Hlen; lia].
    - subst ev. simpl. set_solver.
    - simpl. rewrite app_nil_r. split; [apply (updatedState_waiting distanceToKey)|]. intros [Hw Hn].
      unfold updatedState. unfold target in Hn. rewrite !decide_False by set_solver. by rewrite Hw. }
  assert (NoDup (running s ++ concat (target <$> ch s))) as Hnd0.
  { rewrite <-Hp. by apply NoDup_inStates, (peersOk_NoDup _ _ _ Hok). }
  assert (waiting (queryPeers q') ≡ₚ (running s ++ spawned) ++ concat (target <$> rest)) as Hw'.
  { rewrite <-Hus, fmap_app, concat_app in Hnd0.
    assert (∀ x, x ∈ spawned → x ∉ running s ++ concat (target <$> us) ++ concat (target <$> rest)) as Hsep.
    { intros x Hx Hin. rewrite <-concat_app, <-fmap_app, Hus, <-Hp in Hin.
      apply (elem_of_waiting _ _ _ _ Hok) in Hin. specialize (Hh x Hx).
      destruct us as [|u [|]]; [subst ev; simpl in Hh; congruence| |simpl in Hlen; lia].
      subst ev. simpl in Hh. unfold updatedState in Hh. rewrite Hin in Hh. by repeat case_decide. }
    apply NoDup_Permutation.
    - by apply NoDup_inStates, (peersOk_NoDup _ _ _ Hok').
    - rewrite <-app_assoc. apply NoDup_app in Hnd0 as (N1 & D1 & N2).
      apply NoDup_app in N2 as (N3 & D2 & N4). apply NoDup_app. split_and!; [done|set_solver|].
      apply NoDup_app. split_and!; [done|set_solver|done].
    - intros x. rewrite (elem_of_waiting _ _ _ _ Hok'), Hst. rewrite !elem_of_app.
      case_decide as Hx; [tauto|]. rewrite Hevw, <-(elem_of_waiting _ _ _ _ Hok), Hp, <-Hus, fmap_app, concat_app.
      rewrite !elem_of_app. split; [tauto|].
      apply NoDup_app in Hnd0 as (_ & D1 & N2). apply NoDup_app in N2 as (_ & D2 & _).
      intros [[?|?]|?]; [|done|]; (split; [tauto|]); set_solver. }
  split_and!; cbn [sq ch running returned]; [done|done|done| | |].
  - intros ->. tauto.
  - intros r ->. tauto.
  - destruct Hsh as [[(u & Hu & Htu) Hrun]|[Hall Hne]].
    + destruct us as [|u' [|]]; [| |simpl in Hlen; lia].
      * left. split; [by eexists; rewrite <-Hu, <-Hus|]. rewrite Hrun. subst ev.
        destruct ret as [r|]; [by rewrite (proj2 Hr)|].
        destruct spawned as [|p l]; [done|]. exfalso.
        assert (stateOf (qps s) p = Some PeerHeard) as Hph by (apply Hh; set_solver).
        unfold loopBody in Hbody. cbn [mbind option_bind] in Hbody.
        destruct (NumWaiting _) as [[qp1 n]|]; [|done]. cbn [mbind option_bind] in Hbody.
        destruct (isReadyToTerminate _ _ _ _) as [[[qp2 r] l']|]; done.
      * right. rewrite Hu in Hus. simplify_eq/=. split; [constructor|]. intros ->. tauto.
    + right. rewrite <-Hus in Hall. apply Forall_app in Hall as [_ Hall]. split; [done|]. intros ->. tauto.
Qed.

Lemma step_sysInv s s' : sysInv s → step s s' → sysInv s'.
Proof.
  intros Hinv Hstep. destruct Hstep as [s l1 l2 p known isTarget flt cn fa maxIP ctxErr o Hrun Ho Hroom
    |s stop u rest q' spawned ret Hret Hch Hbody|s stop q' spawned ret Hret Hbody].
  - pose proof Hinv as (Hok & Hal & Hp & Ht & Hr & Hsh).
    destruct (queryPeer_update known isTarget flt cn fa maxIP ctxErr o p Ho) as [Htg _].
    split_and!; cbn [sq ch running returned]; [done|done| |done|done|].
    + rewrite Hp, Hrun, fmap_app, concat_app. cbn [fmap list_fmap concat]. rewrite Htg.
      rewrite <-!app_assoc. apply Permutation_app_head. simpl.
      rewrite (app_assoc l2). apply Permutation_cons_append.
    + right. destruct Hsh as [[_ Hrun']|[Hall Hne]].
      * rewrite Hrun' in Hrun. by destruct l1.
      * split; [|done]. apply Forall_app. split; [done|]. apply Forall_singleton. by rewrite Htg.
  - destruct (loopBody_sysInv s stop (Received u) [u] rest)
      as (q'' & sp' & ret' & Hb & _ & _ & _ & _ & Hi); [done|done|by rewrite Hch|done|simpl; lia|].
    rewrite Hbody in Hb. by simplify_eq.
  - destruct (loopBody_sysInv s stop CtxDone [] (ch s))
      as (q'' & sp' & ret' & Hb & _ & _ & _ & _ & Hi); [done|done|done|done|simpl; lia|].
    rewrite Hbody in Hb. by simplify_eq.
Qed.

Lemma reachable_sysInv seeds s : rtc step (initial seeds) s → sysInv s.
Proof.
  revert s. apply (rtc_ind_r sysInv); [apply sysInv_initial|]. intros s s' _ Hstep Hinv.
  by eapply step_sysInv.
Qed.

Lemma sysInv_lengths s :
  sysInv s → running s ≠ [] →
  (Z.of_nat (length (running s) + length (ch s)) ≤ alpha)%Z.
Proof.
  intros (_ & Hal & Hp & _ & _ & Hsh) Hne. destruct Hsh as [[_ Hr]|[Hall _]]; [done|].
  assert (length (concat (target <$> ch s)) = length (ch s)) as Hc.
  { clear -Hall. induction Hall as [|u l Hu Hl IH]; [done|]. cbn. rewrite length_app, IH, Hu. done. }
  apply Permutation_length in Hp. rewrite length_app, Hc in Hp. lia.
Qed.

(** C15: In every execution of a lookup, with any answers, failures,
    cancellations and interleaving: an iteration of the loop never panics (no
    update after termination, no illegal transition of a peer, no access to
    an unknown peer); at most [alpha] queries are in flight and each finds
    room in the channel, so that no goroutine blocks on its send; and as
    long as the loop has not returned or a query is in flight, something can
    happen (no deadlock). *)
Theorem lookup_safe seeds s :
  rtc step (initial seeds) s →
  (returned s = None → ∀ stop ev, (∀ u, ev = Received u → ∃ rest, ch s = u :: rest) →
    is_Some (loopBody distanceToKey self alpha beta stop ev (sq s))) ∧
  (Z.of_nat (length (running s)) ≤ alpha)%Z ∧
  (running s ≠ [] → (Z.of_nat (length (ch s)) < alpha)%Z) ∧
  ((∃ s', step s s') ∨ returned s ≠ None ∧ running s = []).
Proof.
  intros Hrtc. apply reachable_sysInv in Hrtc as Hinv. pose proof (sysInv_lengths s Hinv) as Hlen.
  assert (returned s = None → ∀ stop ev, (∀ u, ev = Received u → ∃ rest, ch s = u :: rest) →
    is_Some (loopBody distanceToKey self alpha beta stop ev (sq s))) as Hsafe.
  { intros Hret stop ev Hev. destruct ev as [u|].
    - destruct (Hev u eq_refl) as [rest Hch].
      destruct (loopBody_sysInv s stop (Received u) [u] rest) as (q' & sp & ret & -> & _);
        [done|done|by rewrite Hch|done|simpl; lia|eauto].
    - destruct (loopBody_sysInv s stop CtxDone [] (ch s)) as (q' & sp & ret & -> & _);
        [done|done|done|done|simpl; lia|eauto]. }
  assert (running s ≠ [] → (Z.of_nat (length (ch s)) < alpha)%Z) as Hroom.
  { intros Hne. specialize (Hlen Hne). destruct (running s); [done|simpl in Hlen; lia]. }
  split_and!; [done| |done|].
  - destruct (running s) as [|p l] eqn:Hr; [simpl; lia|]. specialize (Hlen ltac:(done)). lia.
  - destruct (running s) as [|p l] eqn:Hr.
    + destruct (returned s) as [r|] eqn:Hret; [by right|]. left.
      destruct (ch s) as [|u rest] eqn:Hch.
      * destruct Hinv as (_ & _ & Hp & _ & _ & [[(u & Hu & _) _]|[_ Hne]]); [by rewrite Hch in Hu|].
        rewrite Hr, Hch in Hp. apply Permutation_nil_r in Hp. by destruct (Hne Hret).
      * destruct (Hsafe eq_refl false (Received u)) as [[[q' sp] ret] Hb]; [naive_solver|].
        eexists. by eapply step_receive.
    + left. eexists. eapply (step_query s [] l p (λ _ _, []) (λ _, false) (λ _, false) (λ _, false) (λ l, l) 0 false DialFailed);
        [done|done|]. by apply Hroom.
Qed.

(** When the loop returns, its reason is right: on completion the [beta]
    closest peers that are not unreachable have all been queried, and on
    starvation no known peer is left to query or to wait for. *)
Theorem lookup_reason seeds s r :
  rtc step (initial seeds) s → returned s = Some r →
  match r with
  | LookupStarvation => inStates [PeerHeard] (qps s) = [] ∧ waiting (qps s) = []
  | LookupCompleted => closestQueried distanceToKey beta (qps s)
  | _ => True
  end.
Proof.
  intros Hrtc Hret. apply reachable_sysInv in Hrtc as (_ & _ & _ & _ & Hr & _). exact (Hr r Hret).
Qed.

(** The order of the states of a peer during a lookup. *)
Definition stateLe (a b : option PeerState) : Prop :=
  match a, b with
  | None, _ => True
  | Some PeerHeard, Some _ => True
  | Some PeerWaiting, Some PeerHeard => False
  | Some PeerWaiting, Some _ => True
  | Some a, Some b => a = b
  | Some _, None => False
  end.

Lemma stateLe_refl a : stateLe a a.
Proof. by destruct a as [[]|]. Qed.

Lemma eventState_le ev s us rest p :
  sysInv s → us ++ rest = ch s → length us ≤ 1 →
  ev = match us with [u] => Received u | _ => CtxDone end →
  stateLe (stateOf (qps s) p) (eventState self ev (qps s) p).
Proof.
  intros Hinv Hus Hlen ->. destruct us as [|u [|]]; [apply stateLe_refl| |simpl in Hlen; lia].
  simpl. unfold updatedState. destruct (sysInv_updateOk s u rest Hinv) as (_ & _ & Hw); [done|].
  case_decide as Hu; [by rewrite (Hw p) by set_solver|].
  case_decide as Hq; [by rewrite (Hw p) by set_solver|].
  destruct (stateOf (qps s) p); [apply stateLe_refl|done].
Qed.

(** During a lookup a peer only moves from unknown to heard, waiting, and
    then queried or unreachable for good: it is never forgotten and never
    queried twice. *)
Theorem lookup_states seeds s s' p :
  rtc step (initial seeds) s → step s s' → stateLe (stateOf (qps s) p) (stateOf (qps s') p).
Proof.
  intros Hrtc Hstep. apply reachable_sysInv in Hrtc as Hinv.
  assert (∀ ev us rest q' spawned ret, us ++ rest = ch s → length us ≤ 1 →
    ev = match us with [u] => Received u | _ => CtxDone end → returned s = None →
    ∀ stop, loopBody distanceToKey self alpha beta stop ev (sq s) = Some (q', spawned, ret) →
    stateLe (stateOf (qps s) p) (stateOf (queryPeers q') p)) as Hloop.
  { intros ev us rest q' sp ret Hus Hlen Hev Hret stop Hb.
    destruct (loopBody_sysInv s stop ev us rest) as (q'' & sp' & ret' & Hb' & Hh & _ & Hst & _);
      [done..|].
    pose proof (eventState_le ev s us rest p Hinv Hus Hlen Hev) as Hle.
    rewrite Hb in Hb'. injection Hb' as -> -> ->. rewrite Hst.
    case_decide as Hp; [|done]. rewrite Hh in Hle by done.
    by destruct (stateOf (qps s) p) as [[]|]. }
  destruct Hstep as [| s stop u rest q' spawned ret Hret Hch Hbody|s stop q' spawned ret Hret Hbody].
  - apply stateLe_refl.
  - by eapply (Hloop (Received u) [u] rest); eauto.
  - by eapply (Hloop CtxDone [] (ch s)); eauto with lia.
Qed.

(** *** Termination *)

Abbreviation final qp := (inStates [PeerQueried; PeerUnreachable] qp).

(** What is left to do. *)
Definition measure (s : sys) : Z :=
  3 * (Z.of_nat (size network) - Z.of_nat (length (final (qps s))) - Z.of_nat (length (waiting (qps s)))) +
  2 * Z.of_nat (length (running s)) + Z.of_nat (length (ch s)) +
  (if decide (returned s = None) then 1 else 0).

Lemma elem_of_final qp p :
  peersOk qp → p ∈ final qp ↔ stateOf qp p = Some PeerQueried ∨ stateOf qp p = Some PeerUnreachable.
Proof.
  intros Hok. rewrite elem_of_inStates by (by eapply peersOk_NoDup). setoid_rewrite elem_of_cons.
  setoid_rewrite list_elem_of_singleton. naive_solver.
Qed.

Lemma measure_nonneg s : sysInv s → netInv s → (0 ≤ measure s)%Z.
Proof.
  intros (Hok & _) [Hn _]. unfold measure.
  assert (length (final (qps s) ++ waiting (qps s)) ≤ size network) as Hle.
  { change (size network) with (length (elements network)). apply submseteq_length, NoDup_submseteq.
    - apply NoDup_app. split_and!; [by eapply NoDup_inStates, peersOk_NoDup| |by eapply NoDup_inStates, peersOk_NoDup].
      intros p. rewrite elem_of_final, (elem_of_waiting _ _ _ _ Hok) by done. naive_solver.
    - intros p. rewrite elem_of_app, elem_of_final, (elem_of_waiting _ _ _ _ Hok), elem_of_elements by done.
      intros [[?|?]|?]; eauto. }
  rewrite length_app in Hle. case_decide; lia.
Qed.

(** One iteration of the loop decreases the measure. *)
Lemma loopBody_measure s stop ev us rest q' spawned ret :
  sysInv s → netInv s → returned s = None → us ++ rest = ch s →
  ev = match us with [u] => Received u | _ => CtxDone end → length us ≤ 1 →
  loopBody distanceToKey self alpha beta stop ev (sq s) = Some (q', spawned, ret) →
  let s' := mkSys q' rest (running s ++ spawned) ret in
  netInv s' ∧ (measure s' + 1 ≤ measure s)%Z.
Proof.
  intros Hinv [Hn1 Hn2] Hret Hus Hev Hlen Hb. cbv zeta.
  destruct (loopBody_sysInv s stop ev us rest) as (q'' & sp' & ret' & Hb' & Hh & Hnd & Hst & Hc & Hinv');
    [done..|]. rewrite Hb in Hb'. injection Hb' as <- <- <-.
  assert (∀ x, x ∈ spawned → x ∉ concat (target <$> us) ∧ stateOf (qps s) x ≠ Some PeerQueried ∧
    stateOf (qps s) x ≠ Some PeerUnreachable) as Hsp.
  { intros x Hx. specialize (Hh x Hx). destruct us as [|u [|]]; [subst ev| |simpl in Hlen; lia].
    - simpl in *. split; [set_solver|]. rewrite Hh. done.
    - subst ev. simpl in *. rewrite app_nil_r. unfold updatedState in Hh. unfold target.
      rewrite elem_of_app. do 2 (case_decide; [done|]).
      split; [tauto|]. clear -Hh. destruct (stateOf (qps s) x) as [[]|]; naive_solver. }
  assert (∀ x, eventState self ev (qps s) x = Some PeerQueried ∨
    eventState self ev (qps s) x = Some PeerUnreachable ↔
    x ∈ concat (target <$> us) ∨ stateOf (qps s) x = Some PeerQueried ∨
      stateOf (qps s) x = Some PeerUnreachable) as Hevf.
  { intros x. destruct us as [|u [|]]; [subst ev; simpl; set_solver| |simpl in Hlen; lia].
    subst ev. simpl. rewrite app_nil_r. unfold updatedState, target. rewrite elem_of_app.
    do 2 (case_decide; [tauto|]). destruct (stateOf (qps s) x); [tauto|]. case_decide; naive_solver. }
  pose proof Hinv as (Hok & _ & Hp & _). pose proof Hinv' as (Hok' & _ & Hp' & _).
  cbn [sq ch running returned] in *.
  assert (length (final (queryPeers q')) = length (concat (target <$> us)) + length (final (qps s))) as Hf.
  { rewrite <-length_app. apply Permutation_length, NoDup_Permutation.
    - by eapply NoDup_inStates, peersOk_NoDup.
    - assert (NoDup (waiting (qps s))) as Hndw by (by eapply NoDup_inStates, peersOk_NoDup).
      rewrite Hp, <-Hus, fmap_app, concat_app in Hndw. apply NoDup_app in Hndw as (_ & _ & Hndw).
      apply NoDup_app in Hndw as (Hndw & _ & _).
      apply NoDup_app. split_and!; [done| |by eapply NoDup_inStates, peersOk_NoDup].
      intros x Hx. rewrite elem_of_final by done.
      assert (x ∈ waiting (qps s)) as Hw.
      { rewrite Hp, <-Hus, fmap_app, concat_app. set_solver. }
      apply (elem_of_waiting _ _ _ _ Hok) in Hw. rewrite Hw. naive_solver.
    - intros x. rewrite elem_of_app, !elem_of_final by done. rewrite Hst, <-Hevf.
      case_decide as Hx; [|done]. split; [naive_solver|]. rewrite Hevf. specialize (Hsp x Hx). tauto. }
  split.
  - split; cbn [sq ch]; [|rewrite <-Hus in Hn2; by apply Forall_app in Hn2 as [_ ?]].
    intros p st. rewrite Hst.
    assert (∀ st', eventState self ev (qps s) p = Some st' → p ∈ network) as Hev'.
    { intros st'. destruct us as [|u [|]]; [subst ev; simpl; eauto| |simpl in Hlen; lia].
      subst ev. simpl. unfold updatedState.
      destruct (sysInv_updateOk s u rest Hinv) as (_ & _ & Hw); [done|].
      case_decide; [intros _; eapply Hn1, Hw; set_solver|].
      case_decide; [intros _; eapply Hn1, Hw; set_solver|].
      destruct (stateOf (qps s) p) eqn:E; [eauto|]. case_decide as Hhd; [|done]. intros _.
      rewrite <-Hus in Hn2. apply Forall_cons in Hn2 as [Hn2 _]. by apply Hn2, Hhd. }
    case_decide as Hx; [|eauto]. intros _. by eapply Hev', Hh.
  - unfold measure. cbn [sq ch running returned]. rewrite (decide_True (P := returned s = None)) by done.
    apply Permutation_length in Hp, Hp'. rewrite <-Hus, fmap_app, concat_app in Hp.
    rewrite <-Hus. rewrite !length_app in *.
    destruct us as [|u us']; [|cbn [length] in *; case_decide; lia].
    rewrite decide_False by auto. simpl in *. lia.
Qed.

Lemma step_measure s s' :
  sysInv s → netInv s → step s s' → netInv s' ∧ (measure s' + 1 ≤ measure s)%Z.
Proof.
  intros Hinv Hnet Hstep. destruct Hstep as [s l1 l2 p known isTarget flt cn fa maxIP ctxErr o Hrun Ho Hroom
    |s stop u rest q' spawned ret Hret Hch Hbody|s stop q' spawned ret Hret Hbody].
  - destruct (queryPeer_update known isTarget flt cn fa maxIP ctxErr o p Ho) as [_ Hhd]. split.
    + split; [apply Hnet|]. cbn [ch]. apply Forall_app. split; [apply Hnet|]. by apply Forall_singleton.
    + unfold measure. cbn [sq ch running returned]. rewrite Hrun, !length_app. simpl. lia.
  - by eapply (loopBody_measure s stop (Received u) [u] rest); eauto.
  - eapply (loopBody_measure s stop CtxDone [] (ch s)); eauto.
Qed.

(** C16: Every lookup ends: whatever the answers, when all peers ever heard of
    are among [N] peers, no execution has more than [3 N + 2] steps. *)
Theorem lookup_terminates seeds n s :
  (∀ p, p ∈ seeds → p ∈ network) → nsteps step n (initial seeds) s →
  n ≤ 3 * size network + 2.
Proof.
  intros Hseeds Hsteps.
  assert (netInv (initial seeds)) as Hnet.
  { split; [done|]. apply Forall_singleton. exact Hseeds. }
  assert (∀ x y, nsteps step n x y → sysInv x → netInv x →
    (Z.of_nat n + measure y ≤ measure x)%Z ∧ sysInv y ∧ netInv y) as Hall.
  { clear Hsteps Hnet Hseeds s. intros x y Hn. induction Hn as [x|n x y z Hstep Hn IH]; intros Hinv Hnet.
    - split_and!; [lia|done|done].
    - destruct (step_measure x y Hinv Hnet Hstep) as [Hnet' Hm].
      destruct (IH (step_sysInv x y Hinv Hstep) Hnet') as (Hm' & Hi & Hn').
      split_and!; [lia|done|done]. }
  destruct (Hall _ _ Hsteps) as (Hm & Hi & Hn); [apply sysInv_initial|done|].
  pose proof (measure_nonneg s Hi Hn) as Hpos. unfold measure at 2 in Hm. simpl in Hm. lia.
Qed.
End system.

(** ** The result *)

Section result.
Context {peerID : Type} {EP : EqDecision peerID} {CP : Countable peerID}.
Context (distanceToKey : peerID → Z) (self : peerID) (beta bucketSize : Z).
Implicit Types (qp : QueryPeerset peerID).

(** The [n] closest peers in the given states, by increasing distance. *)
Definition closestInStates qp (n : Z) (states : list PeerState) (r : list peerID) : Prop :=
  ∃ rest, r ++ rest ≡ₚ inStates states qp ∧
    StronglySorted (λ x y, (distanceToKey x ≤ distanceToKey y)%Z) (r ++ rest) ∧
    length r = Nat.min (Z.to_nat n) (length (inStates states qp)).

Lemma GetClosest_view qp qp1 n states :
  peersOk distanceToKey self qp → sameView distanceToKey qp qp1 → (0 ≤ n)%Z →
  ∃ qp2 r, GetClosestNInStates qp1 n states = Some (qp2, r) ∧ sameView distanceToKey qp qp2 ∧
    closestInStates qp n states r.
Proof.
  intros Hok Hv Hn. destruct (GetClosestNInStates_spec distanceToKey qp1 n states)
    as (qp2 & r & rest & Hr & Hv2 & Hp & Hs & Hl); [apply Hv|done|].
  exists qp2, r. split_and!; [done|by eapply sameView_trans|]. exists rest.
  pose proof (sameView_inStates _ _ _ states Hv) as Hi.
  split_and!; [by rewrite Hp|done|by rewrite Hl, (Permutation_length Hi)].
Qed.

Lemma mapM_GetState qp l :
  peersOk distanceToKey self qp → (∀ p, p ∈ l → ∃ s, stateOf qp p = Some s) →
  ∃ sts, mapM (GetState qp) l = Some sts ∧ Some <$> sts = stateOf qp <$> l.
Proof.
  intros Hok. induction l as [|p l IH]; intros Hl; [by exists []|].
  destruct IH as (sts & Hm & He); [set_solver|]. destruct (Hl p) as [s Hs]; [set_solver|].
  exists (s :: sts). cbn [mapM]. rewrite GetState_stateOf, Hs by (by eapply peersOk_NoDup).
  cbn [mbind option_bind]. rewrite Hm. cbn. by rewrite He, Hs.
Qed.

(** [constructLookupResult] does not panic; it returns the [bucketSize]
    closest reachable peers with their states, the [bucketSize] closest of all
    known peers, both by increasing distance, and reports completion only if
    the [beta] closest reachable peers were queried or no peer is left to
    query, and always in the latter case. *)
Theorem constructLookupResult_correct qp :
  (0 ≤ beta)%Z → (0 ≤ bucketSize)%Z → peersOk distanceToKey self qp →
  ∃ qp' r, constructLookupResult beta bucketSize qp = Some (qp', r) ∧
    sameView distanceToKey qp qp' ∧
    closestInStates qp bucketSize [PeerHeard; PeerWaiting; PeerQueried] (lr_peers r) ∧
    closestInStates qp bucketSize [PeerHeard; PeerWaiting; PeerQueried; PeerUnreachable] (lr_closest r) ∧
    Some <$> lr_state r = stateOf qp <$> lr_peers r ∧
    (lr_completed r = true → closestQueried distanceToKey beta qp ∨
      inStates [PeerHeard] qp = [] ∧ waiting qp = []) ∧
    (inStates [PeerHeard] qp = [] ∧ waiting qp = [] → lr_completed r = true).
Proof.
  intros Hbeta Hk Hok. unfold constructLookupResult.
  destruct (isLookupTermination_spec distanceToKey self beta qp Hbeta Hok)
    as (qp1 & b & -> & Hv1 & Hb). cbn [mbind option_bind].
  assert (peersOk distanceToKey self qp1) as Hok1 by (by eapply sameView_peersOk).
  assert (∃ qp2 c, (if b then Some (qp1, true) else isStarvationTermination qp1) = Some (qp2, c) ∧
    sameView distanceToKey qp qp2 ∧
    (c = true → closestQueried distanceToKey beta qp ∨ inStates [PeerHeard] qp = [] ∧ waiting qp = []) ∧
    (inStates [PeerHeard] qp = [] ∧ waiting qp = [] → c = true)) as (qp2 & c & -> & Hv2 & Hc & Hc').
  { destruct b; [eexists _, _; split_and!; [done|done|by left; apply Hb|done]|].
    destruct (isStarvationTermination_spec distanceToKey self qp1 Hok1) as (qp2 & -> & Hv2).
    eexists _, _. split_and!; [done|by eapply sameView_trans| |].
    - intros [H1 H2]%bool_decide_eq_true. right.
      pose proof (sameView_inStates _ _ _ [PeerHeard] Hv1) as P1. rewrite H1 in P1.
      pose proof (sameView_inStates _ _ _ [PeerWaiting] Hv1) as P2. rewrite H2 in P2.
      by apply Permutation_nil_l in P1, P2.
    - intros [H1 H2]. apply bool_decide_eq_true.
      pose proof (sameView_inStates _ _ _ [PeerHeard] Hv1) as P1. rewrite H1 in P1.
      pose proof (sameView_inStates _ _ _ [PeerWaiting] Hv1) as P2. rewrite H2 in P2.
      by apply Permutation_nil_r in P1, P2. }
  cbn [mbind option_bind].
  destruct (GetClosest_view qp qp2 bucketSize [PeerHeard; PeerWaiting; PeerQueried] Hok Hv2 Hk)
    as (qp3 & peers & -> & Hv3 & Hpeers). cbn [mbind option_bind].
  destruct (GetClosest_view qp qp3 bucketSize
    [PeerHeard; PeerWaiting; PeerQueried; PeerUnreachable] Hok Hv3 Hk)
    as (qp4 & closest & -> & Hv4 & Hclosest). cbn [mbind option_bind].
  destruct (mapM_GetState qp4 peers) as (sts & -> & Hsts).
  { exact (sameView_peersOk _ _ _ _ Hok Hv4). }
  { intros p Hp. destruct Hpeers as (rest & Hperm & _).
    assert (p ∈ inStates [PeerHeard; PeerWaiting; PeerQueried] qp) as Hin by (rewrite <-Hperm; set_solver).
    rewrite elem_of_inStates in Hin by (by eapply peersOk_NoDup). destruct Hin as (s & Hs & _).
    exists s. by rewrite (sameView_stateOf _ _ _ _ Hv4). }
  cbn [mbind option_bind]. eexists _, _. split; [done|]. cbn [lr_peers lr_state lr_closest lr_completed].
  split_and!; [done|done|done| |done|done]. rewrite Hsts. apply list_fmap_ext.
  intros i p _. by rewrite (sameView_stateOf _ _ _ _ Hv4).
Qed.

End result.

(** *** Valuable peers *)

Section valuable.
Context {peerID : Type} {EP : EqDecision peerID} {CP : Countable peerID}.

Lemma mvpDuration_spec (times : gmap peerID Z) seeds t :
  (t ≤ mvpDuration times seeds)%Z ↔
    (t ≤ 2 ^ 63 - 1)%Z ∧ ∀ q t', q ∈ seeds → times !! q = Some t' → (t ≤ t')%Z.
Proof.
  unfold mvpDuration. generalize (2 ^ 63 - 1)%Z as m.
  induction seeds as [|p seeds IH]; intros m; cbn [foldl].
  - split; [|tauto]. intros Ht. split; [done|]. by intros ? ? ?%not_elem_of_nil.
  - rewrite IH. setoid_rewrite elem_of_cons. destruct (times !! p) as [t'|] eqn:E; [case_decide|]; split.
    + intros [H1 H2]. split; [lia|]. intros q t'' [->|Hq] Hqt; [naive_solver lia|eauto].
    + intros [H1 H2]. split; [eauto|]. eauto.
    + intros [H1 H2]. split; [lia|]. intros q t'' [->|Hq] Hqt; [naive_solver lia|eauto].
    + intros [H1 H2]. split; [lia|]. eauto.
    + intros [H1 H2]. split; [lia|]. intros q t'' [->|Hq] Hqt; [congruence|eauto].
    + intros [H1 H2]. split; [lia|]. eauto.
Qed.

(** When no query takes 2^62 ns or more, [recordValuablePeers] marks
    exactly the seed peers that answered in less than twice the time of every
    seed peer that answered. *)
Theorem recordValuablePeers_correct (seeds : list peerID) (times : gmap peerID Z) p :
  (∀ q t, times !! q = Some t → (0 ≤ t < 2 ^ 62)%Z) →
  p ∈ recordValuablePeers seeds times ↔
    p ∈ seeds ∧ ∃ t, times !! p = Some t ∧
      ∀ q t', q ∈ seeds → times !! q = Some t' → (t < 2 * t')%Z.
Proof.
  intros Hb. unfold recordValuablePeers. cbv zeta. rewrite list_elem_of_filter.
  pose proof (mvpDuration_spec times seeds) as Hm. set (m := mvpDuration times seeds) in *.
  destruct (proj1 (Hm m) ltac:(lia)) as [_ Hle].
  assert (0 ≤ m)%Z as Hm0 by (apply Hm; split; [done|]; intros; by eapply Hb).
  destruct (times !! p) as [t|] eqn:E; [|naive_solver].
  rewrite bool_decide_eq_true. split.
  - intros [Ht Hp]. split; [done|]. exists t. split; [done|]. intros q t' Hq Hqt.
    pose proof (Hle q t' Hq Hqt).
    pose proof (Hb q t' Hqt). unfold wrap64 in Ht. rewrite Z.mod_small in Ht by lia. lia.
  - intros (Hp & t' & [= <-] & Hall). split; [|done].
    pose proof (Hle p t Hp E).
    pose proof (Hb p t E). unfold wrap64. rewrite Z.mod_small by lia.
    assert ((t / 2 + 1) ≤ m)%Z as Hhalf; [|pose proof (Z.div_mod t 2 ltac:(lia)); pose proof (Z.mod_pos_bound t 2); lia].
    pose proof (Z.div_lt_upper_bound t 2 (2 ^ 62) ltac:(lia) ltac:(lia)).
    apply Hm. split; [lia|]. intros q t' Hq Hqt. specialize (Hall q t' Hq Hqt).
    pose proof (Z.div_lt_upper_bound t 2 t' ltac:(lia) Hall). lia.
Qed.
End valuable.

(** A seed peer that answered within the resolution of the clock (0 ns) is
    the most valuable peer, and it is not marked. *)
Theorem recordValuablePeers_zero :
  recordValuablePeers [1; 2] {[1 := 0%Z; 2 := 10%Z]} = [].
Proof. vm_compute. reflexivity. Qed.

(** ** The follow-up *)

Lemma processFollowUp_spec n i evs done completed :
  i = done → i ≤ n → n - i ≤ length evs →
  let '(d, c) := processFollowUp n i evs done completed in
  d ≤ n ∧ (c = true → d = n ∧ completed = true) ∧ (c = false → completed = true → d < n).
Proof.
  revert i done. induction evs as [|ev evs IH]; intros i done Hd Hi Hl; cbn [processFollowUp length] in *.
  - split_and!; [lia|intros; split; [lia|done]|]. intros ->. done.
  - case_decide as Hin; [|split_and!; [lia|intros; split; [lia|done]|by intros ->]].
    destruct ev as [[]|].
    + case_decide; [split_and!; [lia|done|intros; lia]|].
      split_and!; [lia|intros ->; split; [lia|done]|by intros ->].
    + apply IH; lia.
    + split_and!; [lia|done|intros; lia].
Qed.

Lemma followup_spec n evs completed :
  n ≤ length evs →
  (followup n evs completed).1 = n ∧ ((followup n evs completed).2 = true → completed = true).
Proof.
  intros Hl. unfold followup.
  pose proof (processFollowUp_spec n 0 evs 0 completed eq_refl ltac:(lia) ltac:(lia)) as Hp.
  destruct (processFollowUp n 0 evs 0 completed) as [d c]. destruct Hp as (Hd & Hc & _).
  destruct c; cbn [fst snd]; [naive_solver|]. split; [lia|done].
Qed.

(** [runLookupWithFollowup] queries nobody when it was stopped, and
    otherwise every peer of the result that was not queried by the lookup;
    all its follow-up queries have ended when it returns (no goroutine is left
    behind); the peers of the result are those of the lookup, and completion
    is reported only if the lookup was complete. *)
Theorem followup_waits {peerID : Type} {EP : EqDecision peerID}
    (r : @lookupResult peerID) stopped evs :
  length (followupPeers r) ≤ length evs →
  let '(r', spawned, ended) := runLookupWithFollowup r stopped evs in
  spawned = (if stopped then [] else followupPeers r) ∧ ended = length spawned ∧
  lr_peers r' = lr_peers r ∧ lr_closest r' = lr_closest r ∧
  (lr_completed r' = true → lr_completed r = true) ∧
  (followupPeers r ≠ [] → stopped = true → lr_completed r' = false).
Proof.
  intros Hl. unfold runLookupWithFollowup. cbv zeta. case_decide as Hn.
  { rewrite Hn. by destruct stopped. }
  destruct stopped; [done|].
  pose proof (followup_spec (length (followupPeers r)) evs (lr_completed r) Hl) as Hf.
  destruct (followup _ _ _) as [d c]. cbn in Hf |- *. naive_solver.
Qed.

(** ** Witnesses *)

Module LookupWitness.
Definition addrGroup (a : nat) : option nat := Some a.
Abbreviation wStep := (step (peerID := nat) (addr := nat) addrGroup Z.of_nat 0 1 1 {[1; 2]}).

Definition s0 : @sys nat _ _ := initial 0 [1].
(** The seed is being queried. *)
Definition s1 : @sys nat _ _ :=
  mkSys (mkQuery (mkQP [mkQPS 1 1%Z PeerWaiting 0] true) ∅ false) [] [1] None.
(** The seed answered with a farther peer. *)
Definition s2 : @sys nat _ _ := mkSys (sq s1) [mkUpdate 1 [1] [2] [] 7%Z] [] None.
(** The lookup is complete. *)
Definition s3 : @sys nat _ _ :=
  mkSys (mkQuery (mkQP [mkQPS 1 1%Z PeerQueried 0; mkQPS 2 2%Z PeerHeard 1] true) {[1 := 7%Z]} true) [] []
    (Some LookupCompleted).

Lemma step01 : wStep s0 s1.
Proof. by apply (step_receive addrGroup Z.of_nat 0 1 1 {[1; 2]} s0 false (mkUpdate 0 [] [1] [] 0%Z) []). Qed.

Lemma step12 : wStep s1 s2.
Proof.
  apply (step_query addrGroup Z.of_nat 0 1 1 {[1; 2]} s1 [] [] 1 (λ _ _, []) (λ _, false) (λ _, true) (λ _, false)
    (λ l, l) 0 false
    (Answered [mkAddrInfo 2 [5]] 7)); [done| |done].
  intros a Ha. apply list_elem_of_singleton in Ha as ->. simpl. set_solver.
Qed.

Lemma step23 : wStep s2 s3.
Proof. by apply (step_receive addrGroup Z.of_nat 0 1 1 {[1; 2]} s2 false (mkUpdate 1 [1] [2] [] 7%Z) []). Qed.

Lemma steps03 : nsteps wStep 3 s0 s3.
Proof. econstructor; [apply step01|]. econstructor; [apply step12|]. econstructor; [apply step23|constructor]. Qed.

Lemma reach1 : rtc wStep s0 s1.
Proof. apply rtc_once, step01. Qed.

Lemma reach3 : rtc wStep s0 s3.
Proof. apply rtc_nsteps. exists 3. apply steps03. Qed.
End LookupWitness.
Import LookupWitness.

Lemma lookup_safe_witness :
  (Z.of_nat (length (running s1)) ≤ 1)%Z ∧ ∃ s', wStep s1 s'.
Proof.
  destruct (lookup_safe addrGroup Z.of_nat 0 1 1 {[1; 2]} eq_refl ltac:(done) [1] s1 reach1)
    as (_ & Hr & _ & [Hs|[Hs _]]); [done|by destruct Hs].
Defined.

Lemma lookup_reason_witness : closestQueried Z.of_nat 1 (queryPeers (sq s3)).
Proof.
  exact (lookup_reason addrGroup Z.of_nat 0 1 1 {[1; 2]} eq_refl ltac:(done) [1] s3 LookupCompleted reach3 eq_refl).
Defined.

Lemma lookup_states_witness :
  stateLe (stateOf (queryPeers (sq s1)) 1) (stateOf (queryPeers (sq s2)) 1).
Proof.
  exact (lookup_states addrGroup Z.of_nat 0 1 1 {[1; 2]} eq_refl ltac:(done) [1] s1 s2 1 reach1 step12).
Defined.

Lemma lookup_terminates_witness : 3 ≤ 8.
Proof.
  refine (lookup_terminates addrGroup Z.of_nat 0 1 1 {[1; 2]} eq_refl ltac:(done) [1] 3 s3 _ steps03).
  intros p Hp. apply list_elem_of_singleton in Hp as ->. set_solver.
Defined.

Lemma constructLookupResult_correct_witness :
  ∃ qp' r, constructLookupResult 1 2 (queryPeers (sq s3)) = Some (qp', r) ∧
    Some <$> lr_state r = stateOf (queryPeers (sq s3)) <$> lr_peers r.
Proof.
  destruct (constructLookupResult_correct Z.of_nat 0 1 2 (queryPeers (sq s3)))
    as (qp' & r & Hr & _ & _ & _ & Hst & _); [done|done| |by exists qp', r].
  apply (reachable_sysInv addrGroup Z.of_nat 0 1 1 {[1; 2]} eq_refl ltac:(done) [1] s3 reach3).
Defined.

Lemma recordValuablePeers_correct_witness :
  3 ∈ recordValuablePeers [2; 3] {[2 := 6%Z; 3 := 10%Z]}.
Proof.
  apply (recordValuablePeers_correct (peerID := nat) [2; 3] {[2 := 6%Z; 3 := 10%Z]} 3).
  - intros q t Hq. assert (t = 6%Z ∨ t = 10%Z) as [->| ->]; [|done..].
    apply lookup_insert_Some in Hq as [[_ <-]|[_ Hq]]; [by left|].
    apply lookup_singleton_Some in Hq as [_ <-]. by right.
  - split; [set_solver|]. exists 10%Z. split; [done|]. intros q t' Hq.
    repeat (apply elem_of_cons in Hq as [->|Hq]); [..|by apply not_elem_of_nil in Hq];
      intros [= <-]; done.
Defined.

Lemma followup_waits_witness :
  (runLookupWithFollowup (mkLookupResult [1; 2] [PeerHeard; PeerWaiting] [1; 2] true) false
    [FollowupDone true; FollowupDone false]).2 = 2.
Proof.
  pose proof (followup_waits (mkLookupResult [1; 2] [PeerHeard; PeerWaiting] [1; 2] true) false
    [FollowupDone true; FollowupDone false] ltac:(simpl; lia)) as H.
  destruct (runLookupWithFollowup _ _ _) as [[r' sp] e]. destruct H as (-> & -> & _). reflexivity.
Defined.
