(* ===== verification/GoTime.v ===== *)
(** * Times and timestamps

    What the provider uses of the package [time], and the hexadecimal
    timestamps of [provider/provider.go] ([formatTimestampHex],
    [parseTimestampHex]) with the keys of the reprovide history
    ([parseReprovideHistoryKey]).

    A [time.Time] is a number of nanoseconds since the year 1, a
    [time.Duration] a signed 64-bit number of nanoseconds. *)

From S2P Require Import Prelude.
From Stdlib Require Import Ascii.

Local Open Scope Z_scope.

(** ** The package time *)

Definition Nanosecond : Z := 1.
Definition Second : Z := 1000000000.
Definition Minute : Z := 60 * Second.
Definition Hour : Z := 60 * Minute.

(** Seconds from the year 1 to the Unix epoch. *)
Definition unixToInternal : Z := 62135596800.

(** [time.Unix]: the seconds are kept in an [int64] that counts from year 1. *)
Definition time_Unix (sec nsec : Z) : Z := wrap64 (sec + unixToInternal) * Second + nsec.

(** [t.Unix()] *)
Definition unixSeconds (t : Z) : Z := wrap64 (t / Second - unixToInternal).

(** The zero [time.Time], which [IsZero] recognises. *)
Definition zeroTime : Z := 0.

(** [t.Sub(u)], which saturates. *)
Definition time_Sub (t u : Z) : Z := Z.max (- 2 ^ 63) (Z.min (2 ^ 63 - 1) (t - u)).

(** [t.Add(d)] *)
Definition time_Add (t d : Z) : Z := t + d.

(** ** Hexadecimal numbers *)

Definition hexDigit (d : Z) : ascii := ascii_of_nat (Z.to_nat (if d <? 10 then 48 + d else 87 + d)).

(** The value of a hexadecimal digit of either case. *)
Definition hexValue (c : ascii) : option Z :=
  let n := Z.of_nat (nat_of_ascii c) in
  if (48 <=? n) && (n <=? 57) then Some (n - 48)
  else if (97 <=? n) && (n <=? 102) then Some (n - 87)
  else if (65 <=? n) && (n <=? 70) then Some (n - 55)
  else None.

(** The [n] low hexadecimal digits of [z], most significant first. *)
Fixpoint hexDigits (n : nat) (z : Z) : string :=
  match n with
  | O => EmptyString
  | S n => String (hexDigit ((z / 16 ^ Z.of_nat n) mod 16)) (hexDigits n z)
  end.

(** The number of hexadecimal digits of a non-negative number. *)
Definition hexLength (z : Z) : nat := if z =? 0 then 1%nat else S (Z.to_nat (Z.log2 z / 4)).

(** [fmt.Sprintf("%08x", n)]: at least eight characters, the sign included. *)
Definition sprintf08x (n : Z) : string :=
  if n <? 0 then String "-" (hexDigits (Nat.max 7 (hexLength (- n))) (- n))
  else hexDigits (Nat.max 8 (hexLength n)) n.

(** The digits read by the verb [%x], up to the first other character. *)
Fixpoint scanHex (acc : Z) (seen : bool) (s : string) : option Z :=
  match s with
  | EmptyString => if seen then Some acc else None
  | String c s' =>
      match hexValue c with
      | Some d => scanHex (acc * 16 + d) true s'
      | None => if seen then Some acc else None
      end
  end.

(** [fmt.Sscanf(s, "%x", &ts)] on a string without leading white space. *)
Definition sscanfX (s : string) : option Z :=
  let '(neg, digits) := match s with
                        | String "-" s => (true, s)
                        | String "+" s => (false, s)
                        | _ => (false, s)
                        end in
  v ← scanHex 0 false digits;
  let v := if neg : bool then - v else v in
  if (- 2 ^ 63 <=? v) && (v <? 2 ^ 63) then Some v else None.

(** ** Timestamps and history keys *)

(** [formatTimestampHex] *)
Definition formatTimestampHex (t : Z) : string := sprintf08x (unixSeconds t).

(** [parseTimestampHex] *)
Definition parseTimestampHex (s : string) : option Z :=
  ts ← sscanfX s;
  Some (time_Unix ts 0).

(** [strings.Split(s, "/")], never empty. *)
Fixpoint splitSlash (s : string) : list string :=
  match s with
  | EmptyString => [""%string]
  | String c s =>
      let parts := splitSlash s in
      if ascii_dec c "/" then ""%string :: parts
      else match parts with
           | p :: parts => String c p :: parts
           | [] => [String c ""]
           end
  end.

(** A prefix as the characters '0' and '1' of its [bitstr.Key], and back. *)
Fixpoint bitString (k : key) : string :=
  match k with
  | [] => ""
  | b :: k => String (if b : bool then "1" else "0") (bitString k)
  end.

(** The datastore key of [persistSuccessfulReprovide]:
    [NewKey(path.Join("history", timestamp, prefix))]; [path.Join] drops an
    empty last element. *)
Definition historyKey (now : Z) (prefix : key) : string :=
  "/history/" +:+ formatTimestampHex now +:+
    match prefix with [] => "" | _ => "/" +:+ bitString prefix end.

(** [parseReprovideHistoryKey]; the prefix is the string itself, which is not
    checked to be a bit string. *)
Definition parseReprovideHistoryKey (k : string) : option (Z * string) :=
  let parts := splitSlash k in
  let lenParts := length parts in
  if decide (lenParts < 3 ∨ 4 < lenParts)%nat then None
  else
    p2 ← parts !! 2%nat;
    t ← parseTimestampHex p2;
    Some (t, if decide (lenParts = 4)%nat then default ""%string (parts !! 3%nat) else ""%string).

(** ** Lemmas *)

Lemma wrap64_id z : in_int64 z → wrap64 z = z.
Proof. unfold wrap64, in_int64. intros ?. rewrite Z.mod_small by lia. lia. Qed.

Lemma time_Sub_id t u : in_int64 (t - u) → time_Sub t u = t - u.
Proof. unfold time_Sub, in_int64. lia. Qed.

Lemma unixSeconds_Unix sec nsec :
  in_int64 sec → in_int64 (sec + unixToInternal) → 0 ≤ nsec < Second →
  unixSeconds (time_Unix sec nsec) = sec.
Proof.
  intros Hs Hu Hn. unfold unixSeconds, time_Unix. rewrite (wrap64_id _ Hu).
  rewrite Z.div_add_l by done. rewrite (Z.div_small nsec) by done.
  rewrite wrap64_id; [lia|]. by replace (_ + 0 - _) with sec by lia.
Qed.

(** *** Hexadecimal digits *)

Lemma hexValue_hexDigit d : 0 ≤ d < 16 → hexValue (hexDigit d) = Some d.
Proof.
  intros Hd. assert (d ∈ seqZ 0 16) as Hin by (apply elem_of_seqZ; lia).
  clear Hd. revert d Hin. apply Forall_forall. vm_compute. repeat constructor.
Qed.

Lemma hexDigit_slash d : 0 ≤ d < 16 → hexDigit d ≠ "/"%char.
Proof.
  intros Hd He. pose proof (hexValue_hexDigit d Hd) as Hv. rewrite He in Hv. discriminate.
Qed.

Lemma mod_16_bound z : 0 ≤ z mod 16 < 16.
Proof. apply Z.mod_pos_bound. lia. Qed.

Lemma hexDigits_mod n z : hexDigits n (z mod 16 ^ Z.of_nat n) = hexDigits n z.
Proof.
  assert (∀ m, (m ≤ n)%nat → hexDigits m (z mod 16 ^ Z.of_nat n) = hexDigits m z) as H.
  { induction m as [|m IH]; intros Hm; simpl; [done|]. rewrite IH by lia. f_equal. f_equal.
    replace (16 ^ Z.of_nat n) with (16 ^ Z.of_nat m * 16 ^ (Z.of_nat n - Z.of_nat m))
      by (rewrite <-Z.pow_add_r by lia; f_equal; lia).
    rewrite Z.rem_mul_r by (try apply Z.pow_nonzero; try apply Z.pow_pos_nonneg; lia).
    rewrite (Z.mul_comm (16 ^ Z.of_nat m)), Z.div_add by (apply Z.pow_nonzero; lia).
    rewrite Z.div_small by (apply Z.mod_pos_bound, Z.pow_pos_nonneg; lia). rewrite Z.add_0_l.
    replace (16 ^ (Z.of_nat n - Z.of_nat m)) with (16 * 16 ^ (Z.of_nat n - Z.of_nat m - 1))
      by (rewrite <-Z.pow_succ_r by lia; f_equal; lia).
    rewrite Z.rem_mul_r by (try apply Z.pow_pos_nonneg; lia).
    rewrite Z.mul_comm, Z.mod_add by lia. by rewrite Z.mod_mod by lia. }
  by apply H.
Qed.

(** The value of the digits of a number followed by something else. *)
Definition noHex (s : string) : Prop :=
  match s with EmptyString => True | String c _ => hexValue c = None end.

Lemma scanHex_stop acc s : noHex s → scanHex acc true s = Some acc.
Proof. destruct s as [|c s]; simpl; [done|]. by intros ->. Qed.

Lemma scanHex_digits n acc seen z s :
  noHex s → (n = 0%nat → seen = true) → 0 ≤ z < 16 ^ Z.of_nat n →
  scanHex acc seen (hexDigits n z +:+ s) = Some (acc * 16 ^ Z.of_nat n + z).
Proof.
  intros Hs. revert acc seen z. induction n as [|n IH]; intros acc seen z Hseen Hz.
  - rewrite Hseen by done. change (16 ^ Z.of_nat 0) with 1 in *. simpl.
    rewrite scanHex_stop by done. f_equal. lia.
  - cbn [hexDigits]. change (scanHex acc seen (String ?c ?l +:+ s)) with (scanHex acc seen (String c (l +:+ s))).
    cbn [scanHex]. rewrite hexValue_hexDigit by apply mod_16_bound.
    assert (0 < 16 ^ Z.of_nat n) as Hp by (apply Z.pow_pos_nonneg; lia).
    rewrite Nat2Z.inj_succ, Z.pow_succ_r in * by lia.
    rewrite <-(hexDigits_mod n z), IH by (done || apply Z.mod_pos_bound; lia).
    f_equal. rewrite (Z.mod_small (z / _)).
    + pose proof (Z.div_mod z (16 ^ Z.of_nat n)). lia.
    + split; [apply Z.div_pos; lia|]. apply Z.div_lt_upper_bound; lia.
Qed.

Lemma hexLength_spec z : 0 ≤ z → z < 16 ^ Z.of_nat (hexLength z).
Proof.
  intros Hz. unfold hexLength. destruct (Z.eqb_spec z 0) as [->|Hn]; [done|].
  assert (0 ≤ Z.log2 z / 4) by (apply Z.div_pos; [apply Z.log2_nonneg|lia]).
  rewrite Nat2Z.inj_succ, Z2Nat.id by done.
  replace 16 with (2 ^ 4) by done. rewrite <-Z.pow_mul_r by lia.
  destruct (Z.log2_spec z) as [_ Hlt]; [lia|]. eapply Z.lt_le_trans; [exact Hlt|].
  apply Z.pow_le_mono_r; [lia|]. pose proof (Z.div_mod (Z.log2 z) 4). pose proof (Z.mod_pos_bound (Z.log2 z) 4). lia.
Qed.

Lemma hexDigits_range n m z : (n ≤ m)%nat → 0 ≤ z < 16 ^ Z.of_nat n → 0 ≤ z < 16 ^ Z.of_nat m.
Proof.
  intros Hm Hz. split; [lia|]. eapply Z.lt_le_trans; [apply Hz|]. apply Z.pow_le_mono_r; lia.
Qed.

(** The first character of a number is not a sign. *)
Lemma hexDigits_head n z s : (0 < n)%nat →
  ∃ d l, hexDigits n z +:+ s = String (hexDigit d) l ∧ 0 ≤ d < 16.
Proof.
  destruct n as [|n]; [lia|]. intros _. eexists _, _. split; [reflexivity|apply mod_16_bound].
Qed.

Lemma hexDigit_sign d : 0 ≤ d < 16 → hexDigit d ≠ "-"%char ∧ hexDigit d ≠ "+"%char.
Proof. intros Hd. pose proof (hexValue_hexDigit d Hd) as H. by split; intros He; rewrite He in H. Qed.

Lemma sscanfX_sprintf n s : in_int64 n → noHex s → sscanfX (sprintf08x n +:+ s) = Some n.
Proof.
  intros Hn Hs. unfold in_int64 in Hn. unfold sprintf08x. destruct (Z.ltb_spec n 0) as [Hneg|Hpos].
  - change (sscanfX (String "-" ?l +:+ s)) with (sscanfX (String "-" (l +:+ s))). unfold sscanfX.
    rewrite scanHex_digits; [|done|lia|eapply hexDigits_range; [apply Nat.le_max_r|split; [lia|apply hexLength_spec; lia]]].
    cbn [mbind option_bind]. rewrite Z.mul_0_l, Z.add_0_l, Z.opp_involutive.
    rewrite (proj2 (Z.leb_le _ _)), (proj2 (Z.ltb_lt _ _)) by lia. done.
  - assert (0 ≤ n < 16 ^ Z.of_nat (Nat.max 8 (hexLength n))) as Hr.
    { eapply hexDigits_range; [apply Nat.le_max_r|split; [lia|apply hexLength_spec; lia]]. }
    destruct (hexDigits_head (Nat.max 8 (hexLength n)) n s) as (d & l & Hl & Hd); [lia|].
    assert (sscanfX (String (hexDigit d) l) =
      (v ← scanHex 0 false (String (hexDigit d) l);
       if (- 2 ^ 63 <=? v) && (v <? 2 ^ 63) then Some v else None)) as Heq.
    { destruct (hexDigit_sign d Hd) as [H1 H2]. unfold sscanfX.
      destruct (hexDigit d) as [[] [] [] [] [] [] [] []]; done. }
    rewrite Hl, Heq, <-Hl. rewrite scanHex_digits; [|done|lia|done].
    cbn [mbind option_bind]. rewrite Z.mul_0_l, Z.add_0_l.
    rewrite (proj2 (Z.leb_le _ _)), (proj2 (Z.ltb_lt _ _)) by lia. done.
Qed.

(** *** Splitting keys *)

Fixpoint noSlash (s : string) : Prop :=
  match s with EmptyString => True | String c s => c ≠ "/"%char ∧ noSlash s end.

Lemma splitSlash_whole s : noSlash s → splitSlash s = [s].
Proof.
  induction s as [|c s IH]; simpl; [done|]. intros [Hc Hs]. rewrite (IH Hs).
  by destruct (ascii_dec c "/").
Qed.

Lemma splitSlash_app s r : noSlash s → splitSlash (s +:+ String "/" r) = s :: splitSlash r.
Proof.
  induction s as [|c s IH]; simpl; [done|]. intros [Hc Hs].
  rewrite (IH Hs). by destruct (ascii_dec c "/").
Qed.

Lemma noSlash_hexDigits n z : noSlash (hexDigits n z).
Proof. induction n as [|n IH]; simpl; [done|]. split; [apply hexDigit_slash, mod_16_bound|done]. Qed.

Lemma noSlash_sprintf n : noSlash (sprintf08x n).
Proof. unfold sprintf08x. case_match; [split; [done|]|]; apply noSlash_hexDigits. Qed.

Lemma noSlash_bitString k : noSlash (bitString k).
Proof. by induction k as [|[] k IH]; simpl. Qed.

Lemma append_cons c a b : String c a +:+ b = String c (a +:+ b).
Proof. done. Qed.

Lemma string_app_assoc (a b c : string) : (a +:+ b) +:+ c = a +:+ (b +:+ c).
Proof. induction a as [|x a IH]; [done|]. by rewrite !append_cons, IH. Qed.

Lemma string_app_nil_r s : s +:+ "" = s.
Proof. induction s as [|c s IH]; [done|]. change (String c (s +:+ "") = String c s). by rewrite IH. Qed.

Lemma parseTimestampHex_format t :
  in_int64 (unixSeconds t) → parseTimestampHex (formatTimestampHex t) = Some (time_Unix (unixSeconds t) 0).
Proof.
  intros Ht. unfold parseTimestampHex, formatTimestampHex.
  rewrite <-(string_app_nil_r (sprintf08x _)), sscanfX_sprintf by done. done.
Qed.

Lemma unixSeconds_int64 t : in_int64 (unixSeconds t).
Proof. unfold unixSeconds, wrap64, in_int64. pose proof (Z.mod_pos_bound (t / Second - unixToInternal + 2 ^ 63) (2 ^ 64)). lia. Qed.

Lemma parseReprovideHistoryKey_spec now prefix :
  parseReprovideHistoryKey (historyKey now prefix) =
    Some (time_Unix (unixSeconds now) 0, bitString prefix).
Proof.
  assert (splitSlash (historyKey now prefix) =
    "" :: "history" :: formatTimestampHex now ::
      match prefix with [] => [] | _ => [bitString prefix] end)%string as Hs.
  { unfold historyKey.
    assert (∀ r, splitSlash ("/history/" +:+ r) = "" :: "history" :: splitSlash r)%string as Hh.
    { intros r. change ("/history/" +:+ r) with ("" +:+ String "/" ("history" +:+ String "/" r)).
      rewrite !splitSlash_app by (by repeat split). done. }
    rewrite Hh. do 2 f_equal. destruct prefix as [|b prefix].
    - rewrite string_app_nil_r. apply splitSlash_whole, noSlash_sprintf.
    - change (formatTimestampHex now +:+ "/" +:+ ?s) with (formatTimestampHex now +:+ String "/" s).
      rewrite splitSlash_app by apply noSlash_sprintf.
      by rewrite splitSlash_whole by apply noSlash_bitString. }
  unfold parseReprovideHistoryKey. rewrite Hs. cbv zeta.
  destruct prefix as [|b prefix]; cbn [length];
    rewrite decide_False by lia; cbn [lookup list_lookup mbind option_bind];
    rewrite parseTimestampHex_format by apply unixSeconds_int64; done.
Qed.

Lemma bitstr_bitString k : bitstr (bitString k) = k.
Proof. induction k as [|[] k IH]; simpl; by rewrite ?IH. Qed.

(** *** Order of the timestamps *)

Lemma compare_app_digits c c' s s' :
  (nat_of_ascii c < nat_of_ascii c')%nat → String.compare (String c s) (String c' s') = Lt.
Proof.
  intros Hlt. simpl. unfold Ascii.compare. rewrite (proj2 (N.compare_lt_iff _ _)); [done|].
  unfold nat_of_ascii in Hlt. lia.
Qed.

Lemma hexDigit_mono d e : 0 ≤ d < e → e < 16 → (nat_of_ascii (hexDigit d) < nat_of_ascii (hexDigit e))%nat.
Proof.
  intros Hd He. assert (d ∈ seqZ 0 16) as Hi by (apply elem_of_seqZ; lia).
  assert (e ∈ seqZ 0 16) as Hj by (apply elem_of_seqZ; lia).
  assert (Forall (λ d, Forall (λ e, d < e → (nat_of_ascii (hexDigit d) < nat_of_ascii (hexDigit e))%nat)
    (seqZ 0 16)) (seqZ 0 16)) as H by by_compute.
  rewrite Forall_forall in H. specialize (H d Hi). rewrite Forall_forall in H. apply H; [done|lia].
Qed.

Lemma compare_hexDigits n a b s s' :
  0 ≤ a < b → b < 16 ^ Z.of_nat n →
  String.compare (hexDigits n a +:+ s) (hexDigits n b +:+ s') = Lt.
Proof.
  revert a b. induction n as [|n IH]; intros a b Ha Hb.
  - change (16 ^ Z.of_nat 0) with 1 in Hb. lia.
  - assert (0 < 16 ^ Z.of_nat n) as Hp by (apply Z.pow_pos_nonneg; lia).
    rewrite Nat2Z.inj_succ, Z.pow_succ_r in Hb by lia.
    assert (∀ z, 0 ≤ z < 16 * 16 ^ Z.of_nat n → (z / 16 ^ Z.of_nat n) mod 16 = z / 16 ^ Z.of_nat n) as Hm.
    { intros z Hz. apply Z.mod_small. split; [apply Z.div_pos; lia|]. apply Z.div_lt_upper_bound; lia. }
    cbn [hexDigits]. change (String ?c ?l +:+ ?r) with (String c (l +:+ r)). rewrite !Hm by lia.
    pose proof (Z.div_le_mono a b (16 ^ Z.of_nat n) Hp ltac:(lia)) as Hle.
    destruct (decide (a / 16 ^ Z.of_nat n = b / 16 ^ Z.of_nat n)) as [He|Hne].
    + rewrite He. cbn [String.compare]. unfold Ascii.compare. rewrite N.compare_refl.
      rewrite <-(hexDigits_mod n a), <-(hexDigits_mod n b). apply IH; [|by apply Z.mod_pos_bound].
      pose proof (Z.div_mod a (16 ^ Z.of_nat n)). pose proof (Z.div_mod b (16 ^ Z.of_nat n)).
      pose proof (Z.mod_pos_bound a (16 ^ Z.of_nat n) Hp). nia.
    + apply compare_app_digits, hexDigit_mono; [split; [apply Z.div_pos; lia|lia]|].
      apply Z.div_lt_upper_bound; lia.
Qed.
