(* ===== verification/Datastore.v ===== *)
(** * Datastores

    The package [go-datastore] is not part of the repository: a datastore is
    a value of an abstract type, its operations are the fields of the class
    [DsLib], and what the callers rely on are the laws of [DsLaws], stated on
    the map [ds_view] a datastore stands for.  Every operation may fail; a
    batch collects its operations in memory, so that adding one does not fail
    and [ds_Commit] does.

    Keys are the strings of cleaned [ds.Key]s ("/a/b"), values are byte
    strings.  [memDs] is an instance: an in-memory map whose operations fail
    as a list of booleans says. *)

From S2P Require Import Prelude.
From Stdlib Require Import Ascii.

Abbreviation bytes := (list Z).

(** One operation of a batch. *)
Inductive batchOp := BPut (k : string) (v : bytes) | BDelete (k : string).

Definition applyOp (m : gmap string bytes) (op : batchOp) : gmap string bytes :=
  match op with BPut k v => <[k := v]> m | BDelete k => delete k m end.

Definition applyOps (m : gmap string bytes) (ops : list batchOp) : gmap string bytes :=
  foldl applyOp m ops.

Lemma applyOps_cons m op ops : applyOps m (op :: ops) = applyOps (applyOp m op) ops.
Proof. done. Qed.

Lemma applyOps_app m b1 b2 : applyOps m (b1 ++ b2) = applyOps (applyOps m b1) b2.
Proof. apply foldl_app. Qed.

(** The keys below a query prefix: all for the root, otherwise those that
    extend the prefix by a path component. *)
Definition belowKey (p k : string) : bool :=
  bool_decide (p = "/"%string) || String.prefix (p +:+ "/") k.

(** Each operation returns the datastore after the call.  [None], [false] and
    the flag of [ds_Query] stand for an error; [ds_Get] distinguishes a
    missing key ([Some None]).  A query yields some entries and then ends or
    fails. *)
Class DsLib := {
  DS : Type;
  ds_Get : DS → string → DS * option (option bytes);
  ds_Has : DS → string → DS * option bool;
  ds_Put : DS → string → bytes → DS * bool;
  ds_Delete : DS → string → DS * bool;
  ds_Query : DS → string → DS * option (list (string * bytes) * bool);
  ds_QueryByKey : DS → string → DS * option (list (string * bytes) * bool);
  ds_Batch : DS → DS * bool;
  ds_Commit : DS → list batchOp → DS * bool;
  ds_Sync : DS → DS * bool;
  ds_view : DS → gmap string bytes;
}.

(** The entries a query for [p] has to return. *)
Definition queryEntries (m : gmap string bytes) (p : string) : list (string * bytes) :=
  map_to_list (filter (λ e, belowKey p e.1 = true) m).

(** [a] is at most [b] in the order of [query.OrderByKey]. *)
Definition keyLe (a b : string * bytes) : Prop := String.compare a.1 b.1 ≠ Gt.

Class DsLaws `{DsLib} : Prop := {
  Get_view : ∀ d k, ds_view (ds_Get d k).1 = ds_view d;
  Get_result : ∀ d k r, (ds_Get d k).2 = Some r → r = ds_view d !! k;
  Has_view : ∀ d k, ds_view (ds_Has d k).1 = ds_view d;
  Has_result : ∀ d k b, (ds_Has d k).2 = Some b → b = bool_decide (is_Some (ds_view d !! k));
  Put_view : ∀ d k v, (ds_Put d k v).2 = true → ds_view (ds_Put d k v).1 = <[k := v]> (ds_view d);
  Put_view_failed : ∀ d k v, (ds_Put d k v).2 = false →
    ds_view (ds_Put d k v).1 = ds_view d ∨ ds_view (ds_Put d k v).1 = <[k := v]> (ds_view d);
  Delete_view : ∀ d k, (ds_Delete d k).2 = true → ds_view (ds_Delete d k).1 = delete k (ds_view d);
  Delete_view_failed : ∀ d k, (ds_Delete d k).2 = false →
    ds_view (ds_Delete d k).1 = ds_view d ∨ ds_view (ds_Delete d k).1 = delete k (ds_view d);
  Query_view : ∀ d p, ds_view (ds_Query d p).1 = ds_view d;
  Query_result : ∀ d p l failed, (ds_Query d p).2 = Some (l, failed) →
    if failed : bool then l ⊆+ queryEntries (ds_view d) p else l ≡ₚ queryEntries (ds_view d) p;
  QueryByKey_view : ∀ d p, ds_view (ds_QueryByKey d p).1 = ds_view d;
  QueryByKey_result : ∀ d p l failed, (ds_QueryByKey d p).2 = Some (l, failed) →
    StronglySorted keyLe l ∧
    if failed : bool then l ⊆+ queryEntries (ds_view d) p else l ≡ₚ queryEntries (ds_view d) p;
  Batch_view : ∀ d, ds_view (ds_Batch d).1 = ds_view d;
  Commit_view : ∀ d ops, (ds_Commit d ops).2 = true →
    ds_view (ds_Commit d ops).1 = applyOps (ds_view d) ops;
  Commit_view_failed : ∀ d ops, (ds_Commit d ops).2 = false →
    ∃ ops', sublist ops' ops ∧ ds_view (ds_Commit d ops).1 = applyOps (ds_view d) ops';
  Sync_view : ∀ d, ds_view (ds_Sync d).1 = ds_view d;
}.

(** ** An in-memory datastore *)

Record memStore := mkMemStore { ms_map : gmap string bytes; ms_faults : list bool }.

(** The next operation fails if the first boolean is [true]. *)
Definition ms_next (d : memStore) : memStore * bool :=
  match ms_faults d with
  | [] => (d, false)
  | b :: l => (mkMemStore (ms_map d) l, b)
  end.

Definition ms_set (d : memStore) (m : gmap string bytes) : memStore := mkMemStore m (ms_faults d).

#[export] Instance keyLe_dec a b : Decision (keyLe a b).
Proof. unfold keyLe. apply _. Defined.

#[export] Instance memDs : DsLib := {
  DS := memStore;
  ds_Get d k := let '(d, f) := ms_next d in (d, if f then None else Some (ms_map d !! k));
  ds_Has d k := let '(d, f) := ms_next d in
    (d, if f then None else Some (bool_decide (is_Some (ms_map d !! k))));
  ds_Put d k v := let '(d, f) := ms_next d in
    if f then (d, false) else (ms_set d (<[k := v]> (ms_map d)), true);
  ds_Delete d k := let '(d, f) := ms_next d in
    if f then (d, false) else (ms_set d (delete k (ms_map d)), true);
  ds_Query d p := let '(d, f) := ms_next d in
    (d, if f then None else Some (queryEntries (ms_map d) p, false));
  ds_QueryByKey d p := let '(d, f) := ms_next d in
    (d, if f then None else Some (merge_sort keyLe (queryEntries (ms_map d) p), false));
  ds_Batch d := let '(d, f) := ms_next d in (d, negb f);
  ds_Commit d ops := let '(d, f) := ms_next d in
    if f then (d, false) else (ms_set d (applyOps (ms_map d) ops), true);
  ds_Sync d := let '(d, f) := ms_next d in (d, negb f);
  ds_view := ms_map;
}.

Lemma ms_next_map d : ms_map (ms_next d).1 = ms_map d.
Proof. unfold ms_next. by destruct (ms_faults d). Qed.

Lemma keyLe_total a b : keyLe a b ∨ keyLe b a.
Proof.
  unfold keyLe. rewrite (String.compare_antisym b.1 a.1).
  destruct (String.compare a.1 b.1); simpl; [left|left|right]; done.
Qed.

Lemma keyLe_trans a b c : keyLe a b → keyLe b c → keyLe a c.
Proof.
  unfold keyLe. destruct a as [x ?], b as [y ?], c as [z ?]; simpl. clear.
  revert y z. induction x as [|c x IH]; intros [|d y] [|e z]; simpl; try done.
  unfold Ascii.compare.
  destruct (N.compare_spec (N_of_ascii c) (N_of_ascii d)) as [E1|E1|E1];
    destruct (N.compare_spec (N_of_ascii d) (N_of_ascii e)) as [E2|E2|E2];
    destruct (N.compare_spec (N_of_ascii c) (N_of_ascii e)) as [E3|E3|E3]; try done; try lia; eauto.
Qed.

#[export] Instance keyLe_total_inst : Total keyLe := keyLe_total.
#[export] Instance keyLe_trans_inst : Transitive keyLe.
Proof. intros a b c. apply keyLe_trans. Qed.

#[export] Instance memDs_laws : DsLaws (H := memDs).
Proof.
  split; simpl; intros d *; pose proof (ms_next_map d) as Hm;
    destruct (ms_next d) as [d' f]; simpl in *; rewrite <-?Hm; try done; destruct f; simpl; try done;
    try (by intros [= <-]); try (by left).
  - intros [= <- <-]. done.
  - intros [= <- <-]. split; [apply StronglySorted_merge_sort; apply _|apply merge_sort_Permutation].
  - intros _. exists []. split; [apply sublist_nil_l|done].
Qed.

(** ** A datastore that does not fail *)

#[local] Instance okDs : DsLib := {
  DS := gmap string bytes;
  ds_Get d k := (d, Some (d !! k));
  ds_Has d k := (d, Some (bool_decide (is_Some (d !! k))));
  ds_Put d k v := (<[k := v]> d, true);
  ds_Delete d k := (delete k d, true);
  ds_Query d q := (d, Some (queryEntries d q, false));
  ds_QueryByKey d q := (d, Some (merge_sort keyLe (queryEntries d q), false));
  ds_Batch d := (d, true);
  ds_Commit d ops := (applyOps d ops, true);
  ds_Sync d := (d, true);
  ds_view d := d;
}.

Lemma okDs_laws : DsLaws (H := okDs).
Proof.
  split; cbn; intros d *; try done; try (by intros [= <-]).
  - by intros [= <- <-].
  - intros [= <- <-]. split; [apply StronglySorted_merge_sort; apply _|apply merge_sort_Permutation].
Qed.
