(* ===== verification/Varint.v ===== *)
(** * Variable-length integers

    [PutVarint] and [Varint] of the package [encoding/binary], which the
    provider records use for their times ([records/providers_manager.go]),
    and their round trip on [int64].  A byte is a [Z] in [0, 256). *)

From S2P Require Import Prelude GoTime.

Local Open Scope Z_scope.

(** [PutUvarint] in a buffer of [n] bytes; [None] is the panic when it is too
    short. *)
Fixpoint PutUvarint (n : nat) (x : Z) : option (list Z) :=
  match n with
  | O => None
  | S n =>
      if decide (128 ≤ x) then
        bs ← PutUvarint n (Z.shiftr x 7);
        Some (Z.lor (x mod 256) 128 :: bs)
      else Some [x]
  end.

(** [PutVarint]: the sign goes to the lowest bit. *)
Definition PutVarint (n : nat) (x : Z) : option (list Z) :=
  let ux := Z.shiftl x 1 mod 2 ^ 64 in
  PutUvarint n (if decide (x < 0) then 2 ^ 64 - 1 - ux else ux).

Definition MaxVarintLen64 : nat := 10.

(** The loop of [Uvarint] at the byte [i]: the value and the number of bytes
    read, which is not positive on an error. *)
Fixpoint uvarintLoop (buf : list Z) (i : nat) (x s : Z) : Z * Z :=
  match buf with
  | [] => (0, 0)
  | b :: buf =>
      if decide (i = MaxVarintLen64) then (0, - Z.of_nat (S i))
      else if decide (b < 128) then
        if decide (i = pred MaxVarintLen64 ∧ 1 < b) then (0, - Z.of_nat (S i))
        else (Z.lor x (Z.shiftl b s mod 2 ^ 64), Z.of_nat (S i))
      else uvarintLoop buf (S i) (Z.lor x (Z.shiftl (Z.land b 127) s mod 2 ^ 64)) (s + 7)
  end.

Definition Uvarint (buf : list Z) : Z * Z := uvarintLoop buf 0 0 0.

(** [Varint] *)
Definition Varint (buf : list Z) : Z * Z :=
  let '(ux, n) := Uvarint buf in
  let x := wrap64 (Z.shiftr ux 1) in
  (if decide (Z.land ux 1 ≠ 0) then - x - 1 else x, n).

(** ** Round trip *)

(** Bits above the first [s] ones are added. *)
Lemma lor_append x b s : 0 ≤ s → 0 ≤ x < 2 ^ s → Z.lor x (Z.shiftl b s) = x + b * 2 ^ s.
Proof.
  intros Hs Hx. rewrite <-Z.add_nocarry_lor, Z.shiftl_mul_pow2 by done || (
    apply Z.bits_inj'; intros n Hn; rewrite Z.land_spec, Z.bits_0;
    destruct (decide (n < s)); [rewrite Z.shiftl_spec_low by lia; apply andb_false_r|];
    replace x with (x mod 2 ^ s) by (apply Z.mod_small; lia);
    rewrite Z.mod_pow2_bits_high by lia; done).
  done.
Qed.

(** The byte with the flag of a continuation gives back seven bits. *)
Lemma flag_byte x : 0 ≤ x → Z.land (Z.lor (x mod 256) 128) 127 = x mod 128 ∧ 128 ≤ Z.lor (x mod 256) 128.
Proof.
  intros Hx. split.
  - rewrite Z.land_lor_distr_l. change (Z.land 128 127) with 0. rewrite Z.lor_0_r.
    change 127 with (Z.ones 7). rewrite Z.land_ones by lia. change (2 ^ 7) with 128.
    symmetry. apply Znumtheory.Zmod_div_mod; [lia|lia|by exists 2].
  - pose proof (Z.mod_pos_bound x 256). change 128 with (2 ^ 7) at 1.
    apply Z.log2_le_pow2; [|rewrite Z.log2_lor by lia; change (Z.log2 128) with 7; lia].
    assert (Z.lor (x mod 256) 128 ≠ 0) by (rewrite Z.lor_eq_0_iff; lia).
    assert (0 ≤ Z.lor (x mod 256) 128) by (apply Z.lor_nonneg; lia). lia.
Qed.

Lemma PutUvarint_nonempty n x : PutUvarint n x ≠ Some [].
Proof. destruct n as [|n]; cbn [PutUvarint]; [done|]. case_decide; [by destruct (PutUvarint n _)|done]. Qed.

Lemma PutUvarint_total n x : 0 ≤ x < 2 ^ (7 * Z.of_nat n) → (0 < n)%nat → is_Some (PutUvarint n x).
Proof.
  revert x. induction n as [|n IH]; intros x Hx Hn; [lia|]. cbn [PutUvarint]. case_decide as Hc; [|done].
  destruct (IH (Z.shiftr x 7)) as [bs ->]; [|destruct n; [cbn in Hx; lia|lia]|done].
  rewrite Z.shiftr_div_pow2 by lia. split; [apply Z.div_pos; lia|]. apply Z.div_lt_upper_bound; [lia|].
  rewrite <-Z.pow_add_r by lia. replace (7 + 7 * Z.of_nat n) with (7 * Z.of_nat (S n)) by lia. lia.
Qed.

Lemma uvarintLoop_spec n y bs i acc :
  PutUvarint n y = Some bs → 0 ≤ y → 0 ≤ acc < 2 ^ (7 * Z.of_nat i) → acc + y * 2 ^ (7 * Z.of_nat i) < 2 ^ 64 →
  (i < MaxVarintLen64)%nat →
  uvarintLoop bs i acc (7 * Z.of_nat i) = (acc + y * 2 ^ (7 * Z.of_nat i), Z.of_nat (i + length bs)).
Proof.
  revert y bs i acc. induction n as [|n IH]; intros y bs i acc Hp Hy Ha Hlt Hi; [done|].
  cbn [PutUvarint] in Hp. unfold MaxVarintLen64 in *. set (s := 7 * Z.of_nat i) in *.
  assert (0 < 2 ^ s) as Hpos by (apply Z.pow_pos_nonneg; lia).
  case_decide as Hc.
  - destruct (PutUvarint n (Z.shiftr y 7)) as [bs'|] eqn:Hp'; [|done]. injection Hp as <-.
    destruct (flag_byte y Hy) as [Hland Hge]. cbn [uvarintLoop]. unfold MaxVarintLen64.
    rewrite decide_False, decide_False, Hland by lia.
    assert (i < 9)%nat as Hi9.
    { destruct (decide (i < 9)%nat); [done|]. assert (i = 9)%nat as -> by lia. cbn in s. subst s. lia. }
    pose proof (Z.mod_pos_bound y 128). pose proof (Z.div_mod y 128).
    rewrite Z.mod_small by (rewrite Z.shiftl_mul_pow2 by lia; nia).
    rewrite lor_append by lia. replace (s + 7) with (7 * Z.of_nat (S i)) by lia.
    assert (2 ^ (7 * Z.of_nat (S i)) = 128 * 2 ^ s) as Hs.
    { replace (7 * Z.of_nat (S i)) with (7 + s) by lia. rewrite Z.pow_add_r by lia. done. }
    rewrite Z.shiftr_div_pow2 in Hp' by lia. change (2 ^ 7) with 128 in Hp'.
    erewrite IH; [|exact Hp'|apply Z.div_pos; lia|rewrite Hs; nia|rewrite Hs; nia|lia].
    rewrite Hs. f_equal; [nia|cbn; lia].
  - injection Hp as <-. cbn [uvarintLoop]. unfold MaxVarintLen64. rewrite decide_False, decide_True by lia.
    rewrite decide_False.
    2:{ intros [-> Hb]. cbn in s. subst s. lia. }
    rewrite Z.mod_small by (rewrite Z.shiftl_mul_pow2 by lia; nia). rewrite lor_append by lia. f_equal. cbn. lia.
Qed.

Lemma Uvarint_Put n x bs : PutUvarint n x = Some bs → 0 ≤ x < 2 ^ 64 → Uvarint bs = (x, Z.of_nat (length bs)).
Proof.
  intros Hp Hx. unfold Uvarint. change 0 with (7 * Z.of_nat 0) at 2.
  rewrite (uvarintLoop_spec n x bs 0 0 Hp); [f_equal; lia|lia|cbn; lia|cbn; lia|unfold MaxVarintLen64; lia].
Qed.

(** The unsigned number of [PutVarint]. *)
Lemma zigzag x : in_int64 x →
  (if decide (x < 0) then 2 ^ 64 - 1 - Z.shiftl x 1 mod 2 ^ 64 else Z.shiftl x 1 mod 2 ^ 64) =
  if decide (x < 0) then - (2 * x) - 1 else 2 * x.
Proof.
  unfold in_int64. intros Hx. rewrite Z.shiftl_mul_pow2 by lia. change (2 ^ 1) with 2. case_decide.
  - rewrite <-(Z.mod_add _ 1) by lia. rewrite Z.mod_small by lia. lia.
  - rewrite Z.mod_small by lia. lia.
Qed.

Lemma Varint_Put x :
  in_int64 x → ∃ bs, PutVarint 16 x = Some bs ∧ Varint bs = (x, Z.of_nat (length bs)) ∧ (0 < length bs)%nat.
Proof.
  intros Hx. pose proof (zigzag x Hx) as Hz. unfold PutVarint. rewrite Hz. clear Hz. unfold in_int64 in Hx.
  set (ux := if decide (x < 0) then - (2 * x) - 1 else 2 * x).
  assert (0 ≤ ux < 2 ^ 64) as Hux by (unfold ux; case_decide; lia).
  destruct (PutUvarint_total 16 ux) as [bs Hbs]; [cbn; lia|lia|]. exists bs. split; [done|].
  split; [|destruct bs; [|cbn; lia]].
  - unfold Varint. rewrite (Uvarint_Put 16 ux bs Hbs Hux). f_equal.
    assert (Z.shiftr ux 1 = if decide (x < 0) then - x - 1 else x) as ->.
    { rewrite Z.shiftr_div_pow2 by lia. change (2 ^ 1) with 2. unfold ux. case_decide.
      - replace (- (2 * x) - 1) with (1 + (- x - 1) * 2) by lia. rewrite Z.div_add by lia. done.
      - rewrite Z.mul_comm, Z.div_mul by lia. done. }
    rewrite wrap64_id by (unfold in_int64; case_decide; lia).
    change 1 with (Z.ones 1). rewrite Z.land_ones by lia. change (2 ^ 1) with 2.
    unfold ux. destruct (decide (x < 0)).
    + rewrite decide_True; [lia|]. replace (- (2 * x) - 1) with (1 + (- x - 1) * 2) by lia. by rewrite Z.mod_add by lia.
    + rewrite decide_False; [done|]. rewrite Z.mul_comm, Z.mod_mul by lia. lia.
  - by apply PutUvarint_nonempty in Hbs.
Qed.
