(* ===== verification/DsKey.v ===== *)
(** * Datastore keys

    [ds.NewKey] of [go-datastore], which cleans a path as [path.Clean] does:
    keys that are made of path components are kept as they are, and a query
    for a component returns the keys below it. *)

From S2P Require Import Prelude GoTime Datastore.
From Stdlib Require Import Ascii.

(** One component of [path.Clean] on a rooted path. *)
Definition cleanStep (acc : list string) (c : string) : list string :=
  if decide (c = "" ∨ c = ".")%string then acc
  else if decide (c = "..")%string then removelast acc
  else acc ++ [c].

(** "/a/b" from its components. *)
Fixpoint rootJoin (cs : list string) : string :=
  match cs with [] => "" | c :: cs => String "/" (c +:+ rootJoin cs) end.

Definition NewKey (s : string) : string :=
  match foldl cleanStep [] (splitSlash s) with [] => "/" | cs => rootJoin cs end.

(** ** Keys made of components *)

Definition component (s : string) : Prop := noSlash s ∧ s ≠ ""%string ∧ s ≠ "."%string ∧ s ≠ ".."%string.

#[export] Instance noSlash_dec s : Decision (noSlash s).
Proof. induction s as [|c s IH]; simpl; apply _. Defined.

#[export] Instance component_dec s : Decision (component s).
Proof. unfold component. apply _. Defined.

Lemma splitSlash_rootJoin c cs : component c → Forall component cs → splitSlash (c +:+ rootJoin cs) = c :: cs.
Proof.
  intros Hc Hcs. revert c Hc. induction Hcs as [|c' cs Hc' _ IH]; intros c Hc; cbn [rootJoin].
  - rewrite string_app_nil_r. apply splitSlash_whole, Hc.
  - rewrite splitSlash_app by apply Hc. by rewrite IH.
Qed.

Lemma foldl_cleanStep acc cs : Forall component cs → foldl cleanStep acc cs = acc ++ cs.
Proof.
  intros Hcs. revert acc. induction Hcs as [|c cs (_ & H1 & H2 & H3) _ IH]; intros acc; cbn [foldl]; [by rewrite app_nil_r|].
  unfold cleanStep at 2. rewrite decide_False by naive_solver. rewrite decide_False by done. by rewrite IH, <-app_assoc.
Qed.

Lemma splitSlash_rooted cs : cs ≠ [] → Forall component cs → splitSlash (rootJoin cs) = ""%string :: cs.
Proof.
  intros Hne Hcs. destruct cs as [|c cs]; [done|]. apply Forall_cons in Hcs as [Hc Hcs]. cbn [rootJoin splitSlash].
  rewrite splitSlash_rootJoin by done. done.
Qed.

Lemma NewKey_rootJoin cs : cs ≠ [] → Forall component cs → NewKey (rootJoin cs) = rootJoin cs.
Proof.
  intros Hne Hcs. unfold NewKey. rewrite splitSlash_rooted by done. cbn [foldl].
  change (cleanStep [] "") with (@nil string). rewrite foldl_cleanStep by done. by destruct cs.
Qed.

Lemma NewKey_component c : component c → NewKey c = rootJoin [c].
Proof.
  intros Hc. unfold NewKey. rewrite splitSlash_whole by apply Hc. rewrite foldl_cleanStep by (by constructor). done.
Qed.

Lemma last_rootJoin cs c : Forall component cs → component c → last (splitSlash (rootJoin (cs ++ [c]))) = Some c.
Proof.
  intros Hcs Hc. rewrite splitSlash_rooted; [|by destruct cs|apply Forall_app; split; [done|by constructor]].
  change (""%string :: cs ++ [c]) with ((""%string :: cs) ++ [c]). apply last_snoc.
Qed.

Lemma rootJoin_inj cs cs' :
  Forall component cs → Forall component cs' → cs ≠ [] → cs' ≠ [] → rootJoin cs = rootJoin cs' → cs = cs'.
Proof.
  intros H1 H2 N1 N2 He. apply (f_equal splitSlash) in He. rewrite !splitSlash_rooted in He by done. by injection He.
Qed.

(** ** Queries *)

Lemma prefix_component c c' r r' :
  noSlash c → noSlash c' → String.prefix (c +:+ String "/" r) (c' +:+ String "/" r') = true →
  c = c' ∧ String.prefix r r' = true.
Proof.
  revert c'. induction c as [|x c IH]; intros [|x' c'] Hc Hc'; rewrite ?append_cons.
  - change ("" +:+ String "/" r) with (String "/" r). change ("" +:+ String "/" r') with (String "/" r').
    cbn [String.prefix]. destruct (ascii_dec "/" "/"); done.
  - change ("" +:+ String "/" r) with (String "/" r). cbn [String.prefix].
    destruct (ascii_dec "/" x') as [<-|]; [by destruct Hc'|done].
  - change ("" +:+ String "/" r') with (String "/" r'). cbn [String.prefix].
    destruct (ascii_dec x "/") as [->|]; [by destruct Hc|done].
  - cbn [String.prefix]. destruct (ascii_dec x x') as [<-|]; [|done]. intros Hp.
    destruct (IH c' (proj2 Hc) (proj2 Hc') Hp) as [-> ?]. done.
Qed.

Lemma prefix_refl_app a b : String.prefix a (a +:+ b) = true.
Proof.
  induction a as [|x a IH]; [by destruct b|]. rewrite append_cons. cbn [String.prefix].
  destruct (ascii_dec x x); done.
Qed.

Lemma prefix_app_l a b c : String.prefix (a +:+ b) c = true → String.prefix a c = true.
Proof.
  revert c. induction a as [|x a IH]; intros [|y c]; try done. rewrite append_cons. cbn [String.prefix].
  destruct (ascii_dec x y); [apply IH|done].
Qed.

Lemma prefix_noSlash c r c' : noSlash c' → String.prefix (c +:+ String "/" r) c' = true → False.
Proof.
  revert c'. induction c as [|x c IH]; intros [|x' c'] Hc' Hp; rewrite ?append_cons in Hp; try done.
  - change ("" +:+ String "/" r) with (String "/" r) in Hp. cbn [String.prefix] in Hp.
    destruct (ascii_dec "/" x') as [<-|]; [by destruct Hc'|done].
  - cbn [String.prefix] in Hp. destruct (ascii_dec x x'); [|done]. by apply (IH c'); [apply Hc'|].
Qed.

Lemma rootJoin_slash cs : ∃ r, rootJoin cs +:+ "/" = String "/" r.
Proof. destruct cs as [|c cs]; cbn [rootJoin]; [by eexists|]. rewrite append_cons. by eexists. Qed.

Lemma prefix_rootJoin cs cs' :
  Forall component cs → Forall component cs' → String.prefix (rootJoin cs +:+ "/") (rootJoin cs') = true →
  ∃ r, r ≠ [] ∧ cs' = cs ++ r.
Proof.
  intros Hcs. revert cs'. induction Hcs as [|c cs Hc _ IH]; intros cs' Hcs' Hp.
  { exists cs'. split; [|done]. by intros ->. }
  destruct cs' as [|c' cs']; [done|]. apply Forall_cons in Hcs' as [Hc' Hcs']. cbn [rootJoin] in Hp.
  rewrite append_cons, string_app_assoc in Hp. cbn [String.prefix] in Hp. destruct (ascii_dec "/" "/"); [|done].
  destruct (rootJoin_slash cs) as [r Hr]. rewrite Hr in Hp. destruct cs' as [|c'' cs'].
  { cbn [rootJoin] in Hp. rewrite string_app_nil_r in Hp. destruct (prefix_noSlash c r c'); [apply Hc'|done]. }
  cbn [rootJoin] in Hp. apply prefix_component in Hp as [-> Hp]; [|apply Hc|apply Hc'].
  destruct (IH (c'' :: cs')) as (r0 & Hr0 & ->); [done| |by exists r0].
  rewrite Hr. cbn [rootJoin String.prefix]. by destruct (ascii_dec "/" "/").
Qed.

(** A query for a path returns the keys that extend it by components. *)
Lemma belowKey_rootJoin cs cs' :
  Forall component cs → Forall component cs' → cs ≠ [] →
  belowKey (rootJoin cs) (rootJoin cs') = true ↔ ∃ r, r ≠ [] ∧ cs' = cs ++ r.
Proof.
  intros Hcs Hcs' Hne. unfold belowKey. split.
  - intros [Hb%bool_decide_eq_true|Hp]%orb_prop; [|by apply prefix_rootJoin].
    exfalso. destruct cs as [|c cs]; [done|]. apply Forall_cons in Hcs as [(_ & Hc & _) _]. cbn [rootJoin] in Hb.
    injection Hb as Hb. by destruct c.
  - intros (r & Hr & ->). apply orb_true_intro. right. destruct r as [|c r]; [done|].
    assert (rootJoin (cs ++ c :: r) = (rootJoin cs +:+ "/") +:+ (c +:+ rootJoin r)) as ->; [|apply prefix_refl_app].
    clear. induction cs as [|x cs IH]; [done|]. cbn [app rootJoin]. by rewrite !append_cons, IH, !string_app_assoc.
Qed.
