(* ===== verification/Records.v ===== *)
(** * The store of provider records

    [records/providers_manager.go] and [records/provider_set.go]: the manager
    of the provider records of other peers, a cache over a datastore with a
    garbage collection that runs between requests.

    [pmStep] is one step: a caller that asks for a record to be added, or one
    iteration of the loop of [run].  The provider sets of the cache are shared
    with the loop, which changes them in place: they live in the heap [pm_heap]
    and the cache holds pointers.  The results of the query of a collection are
    those of the moment it starts.  The outer [None] is a panic, the inner one a
    step that is not possible.

    The LRU cache, the peerstore, the datastore and the base32 encoding of keys
    and peers are parameters. *)

From S2P Require Import Prelude GoTime Datastore Varint DsKey.

Definition ProvideValidity : Z := 48 * Hour.
Definition ProvidersKeyPrefix : string := "/providers/".

(** ** Parameters *)

(** [lru.LRUCache]: [Get] may change the order of eviction, [Add] may evict. *)
Class LruLib (K : Type) `{Countable K} := {
  LRU : Type;
  lru_New : LRU;
  lru_Get : LRU → K → LRU * option nat;
  lru_Add : LRU → K → nat → LRU;
  lru_Purge : LRU → LRU;
  lru_view : LRU → gmap K nat;
}.

Class LruLaws (K : Type) `{LruLib K} : Prop := {
  lru_New_view : lru_view lru_New = ∅;
  lru_Get_view : ∀ c k, lru_view (lru_Get c k).1 = lru_view c;
  lru_Get_result : ∀ c k, (lru_Get c k).2 = lru_view c !! k;
  lru_Add_view : ∀ c k v, lru_view (lru_Add c k v) ⊆ <[k := v]> (lru_view c);
  lru_Purge_view : ∀ c, lru_view (lru_Purge c) = ∅;
}.

(** [peerstore.Peerstore], as far as the manager uses it. *)
Class PeerstoreLib (P : Type) := {
  PSTORE : Type;
  ADDR : Type;
  pst_AddAddrs : PSTORE → P → list ADDR → PSTORE;
  pst_PeerInfos : PSTORE → list P → list (P * list ADDR);
}.

(** ** Provider sets *)

Section providerSet.
Context {P : Type} `{Countable P}.

Record providerSet := mkProviderSet { ps_providers : list P; ps_set : gmap P Z }.

Definition newProviderSet : providerSet := mkProviderSet [] ∅.

(** [setVal] *)
Definition setVal (p : P) (t : Z) (ps : providerSet) : providerSet :=
  mkProviderSet
    (match ps_set ps !! p with None => ps_providers ps ++ [p] | Some _ => ps_providers ps end)
    (<[p := t]> (ps_set ps)).
End providerSet.
Arguments providerSet P {_ _}.

(** [t.UnixNano()] *)
Definition UnixNano (t : Z) : Z := wrap64 (t - unixToInternal * Second).

(** [readTimeValue] *)
Definition readTimeValue (data : bytes) : option Z :=
  let '(nsec, n) := Varint data in
  if decide (n <= 0)%Z then None else Some (time_Unix 0 nsec).

(** ** The manager *)

Section manager.
Context {K P : Type} `{Countable K, Countable P}.
Context {LL : LruLib K} {PSL : PeerstoreLib P} {DL : DsLib}.
Variables (encK : K → string) (encP : P → string) (decP : string → option P) (self : P).

Definition mkProvKey (k : K) : string := ProvidersKeyPrefix +:+ encK k.
Definition mkProvKeyFor (k : K) (p : P) : string := mkProvKey k +:+ "/" +:+ encP p.

(** A collection: its time, the keys to skip, the results still to come. *)
Record gcRound := mkGc { gcTime : Z; gcSkip : gset string; gcQueryRes : list (string * bytes) }.

Record ProviderManager := mkPM {
  pm_cache : LRU;
  pm_heap : list (providerSet P);
  pm_pstore : PSTORE;
  pm_dstore : DS;
  pm_newprovs : list (K * P);        (* callers of AddProvider that wait *)
  pm_gc : option gcRound;
  pm_gcTimer : bool;                 (* the timer is running *)
  pm_done : bool;                    (* run has returned *)
}.

(** [NewProviderManager] *)
Definition NewProviderManager (ps : PSTORE) (d : DS) : ProviderManager :=
  mkPM lru_New [] ps d [] None true false.

(** [writeProviderEntry] *)
Definition writeProviderEntry (d : DS) (k : K) (p : P) (t : Z) : option (DS * bool) :=
  buf ← PutVarint 16 (UnixNano t);
  Some (ds_Put d (NewKey (mkProvKeyFor k p)) buf).

(** [addProv] *)
Definition addProv (s : ProviderManager) (k : K) (p : P) (now : Z) : option (ProviderManager * bool) :=
  let '(c, r) := lru_Get (pm_cache s) k in
  let heap := match r with Some ptr => alter (setVal p now) ptr (pm_heap s) | None => pm_heap s end in
  '(d, ok) ← writeProviderEntry (pm_dstore s) k p now;
  Some (mkPM c heap (pm_pstore s) d (pm_newprovs s) (pm_gc s) (pm_gcTimer s) (pm_done s), ok).

(** The loop of [loadProviderSet] over the entries of the query. *)
Fixpoint loadLoop (now : Z) (es : list (string * bytes)) (d : DS) (out : providerSet P) : DS * providerSet P :=
  match es with
  | [] => (d, out)
  | (key, value) :: es =>
      match readTimeValue value with
      | None => loadLoop now es (ds_Delete d key).1 out
      | Some t =>
          if decide (time_Sub now t > ProvideValidity)%Z then loadLoop now es (ds_Delete d key).1 out
          else
            match decP (default key (last (splitSlash key))) with
            | None => loadLoop now es (ds_Delete d key).1 out
            | Some pid => loadLoop now es d (setVal pid t out)
            end
      end
  end.

(** [loadProviderSet] *)
Definition loadProviderSet (d : DS) (k : K) (now : Z) : DS * option (providerSet P) :=
  let '(d, r) := ds_Query d (NewKey (mkProvKey k)) in
  match r with
  | None => (d, None)
  | Some (es, _) => let '(d, out) := loadLoop now es d newProviderSet in (d, Some out)
  end.

(** [getProviderSetForKey] and [getProvidersForKey]: [None] is an error. *)
Definition getProvidersForKey (s : ProviderManager) (k : K) (now : Z) : ProviderManager * option (list P) :=
  let '(c, r) := lru_Get (pm_cache s) k in
  let set_store c heap d :=
    mkPM c heap (pm_pstore s) d (pm_newprovs s) (pm_gc s) (pm_gcTimer s) (pm_done s) in
  match r with
  | Some ptr => (set_store c (pm_heap s) (pm_dstore s), Some (default [] (ps_providers <$> pm_heap s !! ptr)))
  | None =>
      let '(d, r) := loadProviderSet (pm_dstore s) k now in
      match r with
      | None => (set_store c (pm_heap s) d, None)
      | Some pset =>
          match ps_providers pset with
          | [] => (set_store c (pm_heap s) d, Some [])
          | _ => (set_store (lru_Add c k (length (pm_heap s))) (pm_heap s ++ [pset]) d, Some (ps_providers pset))
          end
      end
  end.

(** One result of the query of a collection. *)
Definition gcResult (s : ProviderManager) (g : gcRound) : ProviderManager :=
  match gcQueryRes g with
  | [] => mkPM (pm_cache s) (pm_heap s) (pm_pstore s) (pm_dstore s) (pm_newprovs s) None true (pm_done s)
  | (key, value) :: rest =>
      let d :=
        if decide (key ∈ gcSkip g) then pm_dstore s
        else
          match readTimeValue value with
          | None => (ds_Delete (pm_dstore s) key).1
          | Some t =>
              if decide (time_Sub (gcTime g) t > ProvideValidity)%Z then (ds_Delete (pm_dstore s) key).1
              else pm_dstore s
          end in
      mkPM (pm_cache s) (pm_heap s) (pm_pstore s) d (pm_newprovs s)
        (Some (mkGc (gcTime g) (gcSkip g) rest)) (pm_gcTimer s) (pm_done s)
  end.

(** The timer of the collection fires. *)
Definition gcStart (s : ProviderManager) (now : Z) : ProviderManager :=
  let '(d, r) := ds_Query (pm_dstore s) (NewKey ProvidersKeyPrefix) in
  mkPM (lru_Purge (pm_cache s)) (pm_heap s) (pm_pstore s) d (pm_newprovs s)
    (match r with None => None | Some (es, _) => Some (mkGc now ∅ es) end) false (pm_done s).

Inductive pmEvent :=
| PmAddProvider (k : K) (p : P) (addrs : list ADDR)   (* AddProvider is called *)
| PmCtxDone (i : nat)                                 (* its context is done before run receives it *)
| PmNewProv (i : nat) (now : Z)                       (* run receives it *)
| PmGetProv (k : K) (now : Z)                         (* run receives a request of GetProviders *)
| PmGcResult                                          (* run receives a result of the query *)
| PmGcTimer (now : Z)                                 (* the timer fires *)
| PmClose.                                            (* run sees that its context is done *)

(** The answer of [PmGetProv] is the second component; on an error [run] sends
    an empty list. *)
Definition pmStep (s : ProviderManager) (ev : pmEvent) : option (option (ProviderManager * list P)) :=
  let set_wait ps w :=
    mkPM (pm_cache s) (pm_heap s) ps (pm_dstore s) w (pm_gc s) (pm_gcTimer s) (pm_done s) in
  match ev with
  | PmAddProvider k p addrs =>
      let ps := if decide (p ≠ self) then pst_AddAddrs (pm_pstore s) p addrs else pm_pstore s in
      Some (Some (set_wait ps (pm_newprovs s ++ [(k, p)]), []))
  | PmCtxDone i =>
      Some (if decide (i < length (pm_newprovs s)) then Some (set_wait (pm_pstore s) (delete i (pm_newprovs s)), []) else None)
  | PmNewProv i now =>
      match pm_newprovs s !! i, pm_done s with
      | Some (k, p), false =>
          '(s', ok) ← addProv (set_wait (pm_pstore s) (delete i (pm_newprovs s))) k p now;
          let gc :=
            if ok : bool then
              (λ g, mkGc (gcTime g) ({[mkProvKeyFor k p]} ∪ gcSkip g) (gcQueryRes g)) <$> pm_gc s'
            else pm_gc s' in
          Some (Some (mkPM (pm_cache s') (pm_heap s') (pm_pstore s') (pm_dstore s') (pm_newprovs s') gc
            (pm_gcTimer s') (pm_done s'), []))
      | _, _ => Some None
      end
  | PmGetProv k now =>
      Some (if pm_done s then None else
        let '(s', r) := getProvidersForKey s k now in Some (s', default [] r))
  | PmGcResult => Some (if pm_done s then None else (λ g, (gcResult s g, [])) <$> pm_gc s)
  | PmGcTimer now => Some (if pm_gcTimer s && negb (pm_done s) then Some (gcStart s now, []) else None)
  | PmClose =>
      Some (Some (mkPM (pm_cache s) (pm_heap s) (pm_pstore s) (pm_dstore s) (pm_newprovs s) None false true, []))
  end.

(** [GetProviders]: the answer of [run] with the addresses of the peers. *)
Definition GetProviders (s : ProviderManager) (peers : list P) : list (P * list ADDR) :=
  pst_PeerInfos (pm_pstore s) peers.
End manager.

(** ** Records *)

Section laws.
Context {K P : Type} `{Countable K, Countable P}.
Context {LL : LruLib K} {LW : LruLaws K} {PSL : PeerstoreLib P} {DL : DsLib} {DW : DsLaws}.
Variables (encK : K → string) (encP : P → string) (decP : string → option P) (self : P).
Hypothesis encK_component : ∀ k, component (encK k).
Hypothesis encP_component : ∀ p, component (encP p).
Hypothesis encK_inj : Inj (=) (=) encK.
Hypothesis decP_encP : ∀ p, decP (encP p) = Some p.
Local Open Scope Z_scope.
Implicit Types (s : ProviderManager (K := K) (P := P)) (d : DS) (k : K) (p : P).

(** The datastore key of a record. *)
Definition provKey k p : string := rootJoin ["providers"; encK k; encP p]%string.

(** The time of a record, if it can be read. *)
Definition record d k p : option Z := ds_view d !! provKey k p ≫= readTimeValue.

(** Only records are stored below "/providers". *)
Definition dsClean d : Prop :=
  ∀ key v, ds_view d !! key = Some v → belowKey "/providers" key = true → ∃ k p, key = provKey k p.

Lemma providers_component : component "providers".
Proof. by_compute. Qed.

Lemma provKey_components k p : Forall component ["providers"; encK k; encP p]%string.
Proof. repeat constructor; apply providers_component || apply encK_component || apply encP_component. Qed.

Lemma mkProvKeyFor_eq k p : mkProvKeyFor encK encP k p = provKey k p.
Proof. unfold mkProvKeyFor, mkProvKey, provKey. cbn [rootJoin]. rewrite string_app_nil_r, !string_app_assoc. done. Qed.

Lemma NewKey_mkProvKeyFor k p : NewKey (mkProvKeyFor encK encP k p) = provKey k p.
Proof. rewrite mkProvKeyFor_eq. apply NewKey_rootJoin; [done|apply provKey_components]. Qed.

Lemma NewKey_mkProvKey k : NewKey (mkProvKey encK k) = rootJoin ["providers"; encK k]%string.
Proof.
  assert (mkProvKey encK k = rootJoin ["providers"; encK k]%string) as ->.
  { unfold mkProvKey. cbn [rootJoin]. by rewrite string_app_nil_r. }
  apply NewKey_rootJoin; [done|]. repeat constructor; apply providers_component || apply encK_component.
Qed.

Lemma provKey_inj k p k' p' : provKey k p = provKey k' p' → k = k' ∧ p = p'.
Proof.
  intros He. apply rootJoin_inj in He; [|apply provKey_components..|done|done]. injection He as Hk Hp.
  split; [by apply encK_inj|]. apply (inj Some). by rewrite <-!decP_encP, Hp.
Qed.

Lemma provKey_below k k' p : belowKey (rootJoin ["providers"; encK k]%string) (provKey k' p) = true ↔ k' = k.
Proof.
  unfold provKey. rewrite belowKey_rootJoin; [| |apply provKey_components|done].
  2:{ repeat constructor; apply providers_component || apply encK_component. }
  split; [|intros ->; by eexists [_]]. intros (r & _ & Hr). injection Hr as Hr _. by apply encK_inj.
Qed.

Lemma provKey_providers k p : belowKey "/providers" (provKey k p) = true.
Proof.
  change "/providers"%string with (rootJoin ["providers"]%string). unfold provKey.
  rewrite belowKey_rootJoin; [by eexists [_; _]| |apply provKey_components|done]. repeat constructor; apply providers_component.
Qed.

Lemma below_providers k key : belowKey (rootJoin ["providers"; encK k]%string) key = true → belowKey "/providers" key = true.
Proof.
  unfold belowKey. rewrite bool_decide_eq_false_2; [|by intros [=]]. rewrite bool_decide_eq_false_2 by done. cbn [orb].
  intros Hp. apply (prefix_app_l _ (encK k +:+ "/")). cbn [rootJoin] in Hp.
  rewrite string_app_nil_r in Hp. etrans; [|exact Hp]. f_equal.
Qed.

(** *** Times *)

(** The years 1678 to 2262, whose nanoseconds fit [int64]. *)
Definition validTime (t : Z) : Prop := in_int64 (t - unixToInternal * Second).

Lemma readTimeValue_Put t :
  validTime t → ∃ buf, PutVarint 16 (UnixNano t) = Some buf ∧ readTimeValue buf = Some t.
Proof.
  intros Ht. unfold UnixNano. rewrite wrap64_id by done. destruct (Varint_Put _ Ht) as (buf & Hbuf & Hv & Hl).
  exists buf. split; [done|]. unfold readTimeValue. rewrite Hv, decide_False by lia. f_equal. unfold time_Unix.
  rewrite wrap64_id by done. lia.
Qed.

Definition expired (now t : Z) : Prop := ProvideValidity < now - t.

#[export] Instance expired_dec now t : Decision (expired now t).
Proof. unfold expired. apply _. Defined.

Lemma time_Sub_expired now t : time_Sub now t > ProvideValidity ↔ expired now t.
Proof. unfold time_Sub, expired, ProvideValidity, Hour, Minute, Second. lia. Qed.

(** *** Provider sets *)

Definition psOk (ps : providerSet P) : Prop :=
  NoDup (ps_providers ps) ∧ ∀ p, p ∈ ps_providers ps ↔ is_Some (ps_set ps !! p).

Lemma psOk_new : psOk newProviderSet.
Proof. split; [constructor|]. intros p. cbn. rewrite lookup_empty, elem_of_nil. by split; [|intros []]. Qed.

Lemma setVal_ok p t ps : psOk ps → psOk (setVal p t ps).
Proof.
  intros [Hn Hd]. unfold setVal. split; cbn.
  - destruct (ps_set ps !! p) eqn:E; [done|]. apply NoDup_app. split_and!; [done| |apply NoDup_singleton].
    intros x Hx ->%list_elem_of_singleton. apply Hd in Hx as [? ?]. congruence.
  - intros q. destruct (decide (q = p)) as [->|Hne].
    + rewrite lookup_insert_eq. split; [done|]. intros _. destruct (ps_set ps !! p) eqn:E; [by apply Hd; rewrite E|set_solver].
    + rewrite lookup_insert_ne by done. rewrite <-Hd. destruct (ps_set ps !! p); [done|set_solver].
Qed.

(** *** Loading *)

(** The value of a record that is returned, and one that is removed. *)
Definition live (now : Z) (v : bytes) (t : Z) : Prop := readTimeValue v = Some t ∧ ¬ expired now t.
Definition dead (now : Z) (v : bytes) : Prop := ∀ t, ¬ live now v t.

Lemma live_or_dead now v : (∃ t, live now v t) ∨ dead now v.
Proof.
  unfold dead, live. destruct (readTimeValue v) as [t|]; [|right; by intros t [? _]].
  destruct (decide (expired now t)) as [Hx|Hx]; [right|left; by exists t]. intros t' [[= <-] ?]. done.
Qed.

(** A datastore whose changes are removals of keys in [R]. *)
Definition removed (R : string → Prop) d d' : Prop :=
  ∀ key, ds_view d' !! key = ds_view d !! key ∨ (ds_view d' !! key = None ∧ R key).

Lemma removed_refl (R : string → Prop) d : removed R d d.
Proof. intros key. by left. Qed.

Lemma removed_trans (R : string → Prop) d1 d2 d3 : removed R d1 d2 → removed R d2 d3 → removed R d1 d3.
Proof.
  intros H1 H2 key. specialize (H1 key). specialize (H2 key).
  destruct H1 as [H1|[H1 ?]], H2 as [H2|[H2 ?]]; rewrite ?H2, ?H1; auto.
Qed.

Lemma removed_mono (R R' : string → Prop) d d' : (∀ key, R key → R' key) → removed R d d' → removed R' d d'.
Proof. intros HR Hd key. destruct (Hd key) as [|[]]; auto. Qed.

Lemma removed_Delete (R : string → Prop) d key : R key → removed R d (ds_Delete d key).1.
Proof.
  intros HR key'. assert (ds_view (ds_Delete d key).1 = ds_view d ∨ ds_view (ds_Delete d key).1 = delete key (ds_view d)) as Hd.
  { destruct ((ds_Delete d key).2) eqn:E; [right; by apply Delete_view|by apply Delete_view_failed]. }
  destruct Hd as [->| ->]; [by left|]. destruct (decide (key' = key)) as [->|].
  - right. by rewrite lookup_delete_eq.
  - left. by rewrite lookup_delete_ne.
Qed.

Lemma loadLoop_spec now k es d out :
  psOk out → NoDup es.*1 → (∀ key v, (key, v) ∈ es → ∃ p, key = provKey k p) →
  (∀ p, is_Some (ps_set out !! p) → provKey k p ∉ es.*1) →
  let '(d', out') := loadLoop decP now es d out in
  psOk out' ∧ removed (λ key, ∃ v, (key, v) ∈ es ∧ dead now v) d d' ∧
  ∀ p t, ps_set out' !! p = Some t ↔ ps_set out !! p = Some t ∨ ∃ v, (provKey k p, v) ∈ es ∧ live now v t.
Proof.
  revert d out. induction es as [|[key v] es IH]; intros d out Hok Hnd Hes Hout; cbn [loadLoop].
  { split; [done|]. split; [apply removed_refl|]. intros p t. set_solver. }
  cbn [fmap list_fmap fst] in Hnd. apply NoDup_cons in Hnd as [Hni Hnd].
  destruct (Hes key v) as [p0 ->]; [left|].
  assert (∀ key v, (key, v) ∈ es → ∃ p, key = provKey k p) as Hes' by (intros; eapply Hes; by right).
  destruct (live_or_dead now v) as [[t0 Hl]|Hdead].
  - destruct Hl as [Hr Hx]. rewrite Hr. rewrite decide_False by (by rewrite time_Sub_expired).
    assert (last (splitSlash (provKey k p0)) = Some (encP p0)) as ->.
    { unfold provKey. apply (last_rootJoin ["providers"; encK k]%string); [|apply encP_component].
      repeat constructor; apply providers_component || apply encK_component. }
    cbn [from_option id]. rewrite decP_encP.
    specialize (IH d (setVal p0 t0 out) (setVal_ok p0 t0 out Hok) Hnd Hes').
    destruct (loadLoop decP now es d (setVal p0 t0 out)) as [d' out']. destruct IH as (H1 & H2 & H3).
    { intros p Hp Hin. cbn in Hp. destruct (decide (p = p0)) as [->|Hne]; [done|]. rewrite lookup_insert_ne in Hp by done.
      apply (Hout p Hp). cbn. by right. }
    split; [done|]. split; [eapply removed_mono; [|exact H2]; set_solver|].
    assert (ps_set out !! p0 = None) as Hnone.
    { apply eq_None_not_Some. intros Hs. apply (Hout p0 Hs). left. }
    intros p t. rewrite H3. cbn [setVal ps_set]. destruct (decide (p = p0)) as [->|Hne].
    + rewrite lookup_insert_eq, Hnone. split.
      * intros [[= <-]|(v' & Hv' & _)]; [right; exists v; split; [left|done]|].
        exfalso. apply Hni. by apply (list_elem_of_fmap_2 fst) in Hv'.
      * intros [?|(v' & Hv' & Hl')]; [done|]. apply elem_of_cons in Hv' as [[= ->]|Hv']; [left; destruct Hl'; congruence|].
        exfalso. apply Hni. by apply (list_elem_of_fmap_2 fst) in Hv'.
    + rewrite lookup_insert_ne by done.
      assert (∀ v', (provKey k p, v') ≠ (provKey k p0, v)) as Hkne by (intros v' Heq; apply Hne; apply (f_equal fst) in Heq; by apply provKey_inj in Heq as [_ ?]).
      split; (intros [?|(v' & Hv' & Hl')]; [by left|right; exists v'; split; [|done]]); [by right|].
      apply elem_of_cons in Hv' as [Heq|?]; [by destruct (Hkne v')|done].
  - assert (loadLoop decP now ((provKey k p0, v) :: es) d out = loadLoop decP now es (ds_Delete d (provKey k p0)).1 out) as Heq.
    { cbn [loadLoop]. destruct (readTimeValue v) as [t0|] eqn:Hr; [|done].
      rewrite decide_True; [done|]. rewrite time_Sub_expired. destruct (decide (expired now t0)); [done|]. by destruct (Hdead t0). }
    cbn [loadLoop] in Heq. rewrite Heq. clear Heq.
    specialize (IH (ds_Delete d (provKey k p0)).1 out Hok Hnd Hes'). destruct (loadLoop _ _ _ _ _) as [d' out'].
    destruct IH as (H1 & H2 & H3). { intros p Hp Hin. apply (Hout p Hp). cbn. by right. }
    split; [done|]. split.
    + eapply removed_trans; [apply removed_Delete; exists v; split; [left|done]|eapply removed_mono; [|exact H2]; set_solver].
    + intros p t. rewrite H3. split.
      * intros [?|(v' & Hv' & Hl')]; [by left|right; exists v'; split; [by right|done]].
      * intros [?|(v' & Hv' & Hl')]; [by left|]. apply elem_of_cons in Hv' as [Heq|Hv']; [|right; by exists v'].
        apply (f_equal snd) in Heq. cbn in Heq. subst v'. by destruct (Hdead t).
Qed.

(** *** The invariant *)

Lemma elem_of_queryEntries m q key (v : bytes) :
  (key, v) ∈ queryEntries m q ↔ m !! key = Some v ∧ belowKey q key = true.
Proof. unfold queryEntries. rewrite elem_of_map_to_list, map_lookup_filter_Some. done. Qed.

Lemma record_value d k p v : ds_view d !! provKey k p = Some v → record d k p = readTimeValue v.
Proof. intros Hv. unfold record. by rewrite Hv. Qed.

(** Records that can be removed at the time [now]. *)
Definition stale now d (key : string) : Prop := ∀ k p t, key = provKey k p → record d k p = Some t → expired now t.

Lemma removed_record (R : string → Prop) d d' k p t : removed R d d' → record d' k p = Some t → record d k p = Some t.
Proof. intros Hr. unfold record. destruct (Hr (provKey k p)) as [->|[-> _]]; done. Qed.

Lemma removed_kept (R : string → Prop) d d' k p t :
  removed R d d' → record d k p = Some t → ¬ R (provKey k p) → record d' k p = Some t.
Proof. intros Hr. unfold record. destruct (Hr (provKey k p)) as [->|[-> ?]]; done. Qed.

Lemma removed_clean (R : string → Prop) d d' : removed R d d' → dsClean d → dsClean d'.
Proof. intros Hr Hd key v Hv Hb. destruct (Hr key) as [He|[He _]]; [|congruence]. rewrite He in Hv. by eapply Hd. Qed.

(** The times in a cached set. *)
Definition cachedAt (c : LRU) (heap : list (providerSet P)) k p t : Prop :=
  ∃ ptr ps, lru_view c !! k = Some ptr ∧ heap !! ptr = Some ps ∧ ps_set ps !! p = Some t.

(** A cached set holds the records of its key; those it lacks are expired. *)
Definition cacheOk now (c : LRU) (heap : list (providerSet P)) d : Prop :=
  ∀ k ptr, lru_view c !! k = Some ptr →
    ∃ ps, heap !! ptr = Some ps ∧ (∀ p t, ps_set ps !! p = Some t → record d k p = Some t) ∧
      ∀ p t, record d k p = Some t → ps_set ps !! p = Some t ∨ expired now t.

Definition gcOk now (c : LRU) (heap : list (providerSet P)) d (g : gcRound) : Prop :=
  gcTime g ≤ now ∧
  (∀ key v, (key, v) ∈ gcQueryRes g → key ∉ gcSkip g → ds_view d !! key = Some v ∨ ds_view d !! key = None) ∧
  ∀ k p t, cachedAt c heap k p t → ¬ expired (gcTime g) t.

(** [last] are the times of the last additions. *)
Record storeInv now (last : K → P → option Z) (c : LRU) (heap : list (providerSet P)) d (gc : option gcRound) : Prop := {
  si_heap : Forall psOk heap;
  si_ptrs : ∀ k k' ptr, lru_view c !! k = Some ptr → lru_view c !! k' = Some ptr → k = k';
  si_cache : cacheOk now c heap d;
  si_clean : dsClean d;
  si_added : ∀ k p t, record d k p = Some t → last k p = Some t;
  si_kept : ∀ k p t, last k p = Some t → ¬ expired now t → record d k p = Some t;
  si_gc : ∀ g, gc = Some g → gcOk now c heap d g;
}.

Definition pmInv now last s : Prop := storeInv now last (pm_cache s) (pm_heap s) (pm_dstore s) (pm_gc s).

Lemma expired_mono now now' t : now ≤ now' → expired now t → expired now' t.
Proof. unfold expired. lia. Qed.

Lemma storeInv_time now now' last c heap d gc : now ≤ now' → storeInv now last c heap d gc → storeInv now' last c heap d gc.
Proof.
  intros Hle [H1 H2 H3 H4 H5 H6 H7]. split; try done.
  - intros k ptr Hk. destruct (H3 k ptr Hk) as (ps & Hps & Ha & Hb). exists ps. split_and!; [done..|].
    intros p t Hr. destruct (Hb p t Hr); [by left|right; by eapply expired_mono].
  - intros k p t Hl Hx. apply H6; [done|]. intros Hx'. apply Hx. by eapply expired_mono.
  - intros g Hg. destruct (H7 g Hg) as (? & ? & ?). split_and!; [lia|done|done].
Qed.

(** Datastores with the same records, and caches with the same view. *)
Lemma storeInv_view now last c c' heap d d' gc :
  lru_view c' = lru_view c → ds_view d' = ds_view d → storeInv now last c heap d gc → storeInv now last c' heap d' gc.
Proof.
  intros Hc Hd [H1 H2 H3 H4 H5 H6 H7].
  split; unfold cacheOk, dsClean, gcOk, cachedAt, record in *; rewrite ?Hc, ?Hd; done.
Qed.

(** Removals that spare the cached records. *)
Lemma storeInv_removed (R : string → Prop) now last c heap d d' gc :
  removed R d d' → (∀ key, R key → stale now d key) → (∀ k p t, cachedAt c heap k p t → ¬ R (provKey k p)) →
  storeInv now last c heap d gc → storeInv now last c heap d' gc.
Proof.
  intros Hr Hst Hc [H1 H2 H3 H4 H5 H6 H7]. split; try done.
  - intros k ptr Hk. destruct (H3 k ptr Hk) as (ps & Hps & Ha & Hb). exists ps. split_and!; [done| |].
    + intros p t Hp. eapply removed_kept; [done|by apply Ha|]. eapply Hc. by exists ptr, ps.
    + intros p t Hp. apply Hb. by eapply removed_record.
  - by eapply removed_clean.
  - intros k p t Hp. apply H5. by eapply removed_record.
  - intros k p t Hl Hx. specialize (H6 k p t Hl Hx). eapply removed_kept; [done..|]. intros HR. apply Hx.
    by eapply (Hst _ HR k p).
  - intros g Hg. destruct (H7 g Hg) as (Ht & Hq & Hca). split_and!; [done| |done]. intros key v Hv Hs.
    destruct (Hr key) as [->|[-> _]]; [by apply Hq|by right].
Qed.

(** *** Adding *)

Definition addLast (last : K → P → option Z) k p (t : Z) : K → P → option Z :=
  λ k' p', if decide (k' = k ∧ p' = p) then Some t else last k' p'.

Lemma addLast_eq last k p t : addLast last k p t k p = Some t.
Proof. unfold addLast. by rewrite decide_True. Qed.

Lemma addLast_ne last k p t k' p' : ¬ (k' = k ∧ p' = p) → addLast last k p t k' p' = last k' p'.
Proof. intros Hne. unfold addLast. by rewrite decide_False. Qed.

Lemma record_Put d d' k p now buf :
  ds_view d' = <[provKey k p := buf]> (ds_view d) → readTimeValue buf = Some now →
  ∀ k' p', record d' k' p' = addLast (record d) k p now k' p'.
Proof.
  intros Hd Hb k' p'. unfold record. rewrite Hd. unfold addLast. case_decide as Hc.
  - destruct Hc as [-> ->]. by rewrite lookup_insert_eq.
  - rewrite lookup_insert_ne; [done|]. intros Heq. apply Hc. by apply provKey_inj in Heq as [-> ->].
Qed.

Lemma addProv_inv now last s k p :
  (∀ d key v, (ds_Put d key v).2 = true) → validTime now → pmInv now last s →
  ∃ s', addProv encK encP s k p now = Some (s', true) ∧ pm_gc s' = pm_gc s ∧ pm_done s' = pm_done s ∧
    (∃ buf, readTimeValue buf = Some now ∧ ds_view (pm_dstore s') = <[provKey k p := buf]> (ds_view (pm_dstore s))) ∧
    storeInv now (addLast last k p now) (pm_cache s') (pm_heap s') (pm_dstore s')
      ((λ g, mkGc (gcTime g) ({[mkProvKeyFor encK encP k p]} ∪ gcSkip g) (gcQueryRes g)) <$> pm_gc s).
Proof.
  intros Hput Hnow [H1 H2 H3 H4 H5 H6 H7]. unfold addProv, writeProviderEntry.
  pose proof (lru_Get_view (pm_cache s) k) as Hcv. pose proof (lru_Get_result (pm_cache s) k) as Hcr.
  destruct (lru_Get (pm_cache s) k) as [c r]. cbn in Hcv, Hcr. subst r.
  destruct (readTimeValue_Put now Hnow) as (buf & -> & Hbuf). cbn [mbind option_bind]. rewrite NewKey_mkProvKeyFor.
  pose proof (Put_view (pm_dstore s) (provKey k p) buf (Hput _ _ _)) as Hv. specialize (Hput (pm_dstore s) (provKey k p) buf).
  destruct (ds_Put _ _ _) as [d' ok]. cbn in Hv, Hput. subst ok. eexists. split; [done|]. cbn [pm_gc pm_done pm_dstore pm_cache pm_heap].
  pose proof (record_Put _ d' k p now buf Hv Hbuf) as Hrec. split_and!; [done|done|by exists buf|].
  assert (∀ k' p' t, cachedAt c (match lru_view (pm_cache s) !! k with
      Some ptr => alter (setVal p now) ptr (pm_heap s) | None => pm_heap s end) k' p' t →
      (k' = k ∧ p' = p ∧ t = now) ∨ cachedAt (pm_cache s) (pm_heap s) k' p' t) as Hcached.
  { intros k' p' t (ptr' & ps & Hk' & Hps & Hp'). rewrite Hcv in Hk'.
    destruct (lru_view (pm_cache s) !! k) as [ptr|] eqn:Hk; [|right; by exists ptr', ps].
    destruct (decide (ptr' = ptr)) as [->|Hne]; [|rewrite list_lookup_alter_ne in Hps by done; right; by exists ptr', ps].
    assert (k' = k) as -> by (by eapply H2). rewrite list_lookup_alter_eq in Hps.
    destruct (pm_heap s !! ptr) as [ps0|] eqn:Hps0; [|done]. injection Hps as <-. cbn in Hp'.
    destruct (decide (p' = p)) as [->|Hpne]; [rewrite lookup_insert_eq in Hp'; injection Hp' as <-; by left|].
    rewrite lookup_insert_ne in Hp' by done. right. by exists ptr, ps0. }
  split.
  - destruct (lru_view (pm_cache s) !! k); [|done]. apply Forall_alter_same; [|done]. intros ps. apply setVal_ok.
  - rewrite Hcv. exact H2.
  - intros k' ptr' Hk'. rewrite Hcv in Hk'. destruct (H3 k' ptr' Hk') as (ps & Hps & Ha & Hb). setoid_rewrite Hrec.
    destruct (decide (k' = k)) as [->|Hkne].
    + rewrite Hk', list_lookup_alter_eq, Hps. cbn. eexists. split; [done|]. cbn. split; intros p' t.
      * destruct (decide (p' = p)) as [->|Hne]; [by rewrite lookup_insert_eq, addLast_eq|].
        rewrite lookup_insert_ne, addLast_ne by naive_solver. apply Ha.
      * destruct (decide (p' = p)) as [->|Hne]; [rewrite lookup_insert_eq, addLast_eq; by left|].
        rewrite lookup_insert_ne, addLast_ne by naive_solver. apply Hb.
    + exists ps. split.
      { destruct (lru_view (pm_cache s) !! k) as [ptr|] eqn:Hk; [|done]. rewrite list_lookup_alter_ne; [done|].
        intros ->. apply Hkne. by eapply H2. }
      split; intros p' t; rewrite addLast_ne by naive_solver; [apply Ha|apply Hb].
  - intros key v. rewrite Hv. destruct (decide (key = provKey k p)) as [->|]; [by eexists _, _|].
    rewrite lookup_insert_ne by done. apply H4.
  - intros k' p' t. rewrite Hrec. unfold addLast. case_decide; [done|]. apply H5.
  - intros k' p' t. rewrite Hrec. unfold addLast. case_decide; [done|]. apply H6.
  - intros g' Hg'. destruct (pm_gc s) as [g|] eqn:Hg; [|done]. injection Hg' as <-.
    destruct (H7 g eq_refl) as (Ht & Hq & Hc). split_and!; [done| |].
    + cbn. intros key v Hin Hs. rewrite mkProvKeyFor_eq in Hs. rewrite Hv, lookup_insert_ne by set_solver.
      apply Hq; [done|set_solver].
    + cbn. intros k' p' t Hca. destruct (Hcached _ _ _ Hca) as [(-> & -> & ->)|Hca']; [|by eapply Hc].
      unfold expired, ProvideValidity, Hour, Minute, Second. lia.
Qed.

(** *** Reading *)

(** Queries do not end with an error after some results. *)
Definition readsComplete : Prop := ∀ d q es, (ds_Query d q).2 ≠ Some (es, true).

Lemma loadProviderSet_spec now d k d' r :
  readsComplete → dsClean d → loadProviderSet encK decP d k now = (d', r) →
  match r with
  | None => ds_view d' = ds_view d
  | Some out =>
      psOk out ∧
      removed (λ key, ∃ p, key = provKey k p ∧ ∀ t, record d k p = Some t → expired now t) d d' ∧
      ∀ p t, ps_set out !! p = Some t ↔ record d k p = Some t ∧ ¬ expired now t
  end.
Proof.
  intros Hread Hclean. unfold loadProviderSet. rewrite NewKey_mkProvKey. set (q := rootJoin _).
  pose proof (Query_view d q) as Hv. pose proof (Query_result d q) as Hq. specialize (Hread d q).
  destruct (ds_Query d q) as [d1 [[es [|]]|]]; cbn in *; [by destruct (Hread es)| |by intros [= <- <-]].
  specialize (Hq es false eq_refl). cbn in Hq.
  assert (∀ key v, (key, v) ∈ es ↔ ds_view d !! key = Some v ∧ belowKey q key = true) as Hes.
  { intros key v. by rewrite Hq, elem_of_queryEntries. }
  assert (∀ key v, (key, v) ∈ es → ∃ p, key = provKey k p) as Hkeys.
  { intros key v [Hkey Hb]%Hes. destruct (Hclean key v Hkey (below_providers k key Hb)) as (k' & p & ->).
    apply provKey_below in Hb as ->. by exists p. }
  pose proof (loadLoop_spec now k es d1 newProviderSet psOk_new) as Hl.
  destruct (loadLoop decP now es d1 newProviderSet) as [d2 out]. intros [= <- <-]. destruct Hl as (Hok & Hrem & Hset).
  { rewrite Hq. apply NoDup_fst_map_to_list. }
  { done. }
  { intros p [t Ht]. cbn in Ht. by rewrite lookup_empty in Ht. }
  assert (∀ p v, (provKey k p, v) ∈ es → record d k p = readTimeValue v) as Hval.
  { intros p v [Hv' _]%Hes. by apply record_value. }
  split; [done|]. split.
  - intros key. rewrite <-Hv. destruct (Hrem key) as [?|(Hn & v & Hin & Hdead)]; [by left|right]. split; [done|].
    destruct (Hkeys key v Hin) as [p ->]. exists p. split; [done|]. intros t Hr. rewrite (Hval p v Hin) in Hr.
    destruct (decide (expired now t)); [done|]. by destruct (Hdead t).
  - intros p t. rewrite Hset. cbn. rewrite lookup_empty. split.
    + intros [?|(v & Hin & Hl & Hx)]; [done|]. by rewrite (Hval p v Hin).
    + intros [Hr Hx]. right. unfold record in Hr. destruct (ds_view d !! provKey k p) as [v|] eqn:Hkey; [|done].
      exists v. split; [|done]. apply Hes. split; [done|]. by apply provKey_below.
Qed.

(** The providers that a set returns. *)
Lemma psOk_elem ps p : psOk ps → p ∈ ps_providers ps ↔ ∃ t, ps_set ps !! p = Some t.
Proof. intros [_ Hd]. by rewrite Hd. Qed.

(** The set of a key that was loaded goes to the cache. *)
Lemma storeInv_cache now last c heap d d' gc k pset :
  removed (λ key, ∃ p, key = provKey k p ∧ ∀ t, record d k p = Some t → expired now t) d d' →
  psOk pset → (∀ p t, ps_set pset !! p = Some t ↔ record d k p = Some t ∧ ¬ expired now t) →
  storeInv now last c heap d' gc →
  storeInv now last (lru_Add c k (length heap)) (heap ++ [pset]) d' gc.
Proof.
  intros Hrem Hok Hset Hinv'.
  assert (∀ k' ptr', lru_view (lru_Add c k (length heap)) !! k' = Some ptr' →
    (k' = k ∧ ptr' = length heap) ∨ (lru_view c !! k' = Some ptr' ∧ (ptr' < length heap)%nat)) as Hadd.
  { intros k' ptr' Hk'. pose proof (lookup_weaken _ _ _ _ Hk' (lru_Add_view _ _ _)) as Hw.
    destruct (decide (k' = k)) as [->|Hne]; [rewrite lookup_insert_eq in Hw; injection Hw as <-; by left|].
    rewrite lookup_insert_ne in Hw by done. right. split; [done|].
    destruct (si_cache _ _ _ _ _ _ Hinv' k' ptr' Hw) as (ps & Hps & _). by eapply lookup_lt_Some. }
  destruct Hinv' as [I1 I2 I3 I4 I5 I6 I7]. split; cbn; try done.
  + apply Forall_app. split; [done|by constructor].
  + intros k1 k2 ptr' [[-> ->]|[? ?]]%Hadd [[-> ?]|[? ?]]%Hadd; try done; try lia. by eapply I2.
  + intros k' ptr' [[-> ->]|[Hk' Hlt]]%Hadd.
    * exists pset. rewrite lookup_app_r, Nat.sub_diag by lia. split; [done|]. split.
      -- intros p t [Hr Hx]%Hset. eapply removed_kept; [exact Hrem|done|]. intros (p' & [_ <-]%provKey_inj & Hx').
         by apply Hx, Hx'.
      -- intros p t Hr. apply (removed_record _ _ _ _ _ _ Hrem) in Hr.
         destruct (decide (expired now t)); [by right|left]. by apply Hset.
    * destruct (I3 k' ptr' Hk') as (ps & Hps & Hab). exists ps. by rewrite lookup_app_l.
  + intros g Hg. destruct (I7 g Hg) as (Ht & Hq & Hc). split_and!; [done..|].
    intros k' p t (ptr' & ps & [[-> ->]|[Hk' Hlt]]%Hadd & Hps & Hp).
    * rewrite lookup_app_r, Nat.sub_diag in Hps by lia. injection Hps as <-. apply Hset in Hp as [_ Hx].
      intros Hx'. apply Hx. by eapply expired_mono.
    * rewrite lookup_app_l in Hps by done. eapply Hc. by exists ptr', ps.
Qed.

Lemma getProvidersForKey_inv now last s k s' r :
  readsComplete → pmInv now last s → getProvidersForKey encK decP s k now = (s', r) →
  pmInv now last s' ∧ pm_gc s' = pm_gc s ∧ pm_gcTimer s' = pm_gcTimer s ∧ pm_done s' = pm_done s ∧
  ∀ l, r = Some l → NoDup l ∧ (∀ p t, last k p = Some t → ¬ expired now t → p ∈ l) ∧
    (∀ p, p ∈ l → is_Some (last k p)) ∧
    (lru_view (pm_cache s) !! k = None → ∀ p, p ∈ l ↔ ∃ t, last k p = Some t ∧ ¬ expired now t).
Proof.
  intros Hread Hinv. pose proof Hinv as [H1 H2 H3 H4 H5 H6 H7]. unfold getProvidersForKey.
  pose proof (lru_Get_view (pm_cache s) k) as Hcv. pose proof (lru_Get_result (pm_cache s) k) as Hcr.
  destruct (lru_Get (pm_cache s) k) as [c r0]. cbn in Hcv, Hcr. subst r0.
  destruct (lru_view (pm_cache s) !! k) as [ptr|] eqn:Hk.
  - intros [= <- <-]. split_and!; [by apply (storeInv_view _ _ (pm_cache s) c _ (pm_dstore s) (pm_dstore s))|done..|].
    intros l [= <-]. destruct (H3 k ptr Hk) as (ps & Hps & Ha & Hb). rewrite Hps. cbn.
    rewrite Forall_lookup in H1. specialize (H1 ptr ps Hps). split_and!; [apply H1| | |done].
    + intros p t Hl Hx. apply psOk_elem; [done|]. destruct (Hb p t (H6 _ _ _ Hl Hx)); [by exists t|done].
    + intros p (t & Ht)%psOk_elem; [|done]. exists t. by apply H5, Ha.
  - destruct (loadProviderSet encK decP (pm_dstore s) k now) as [d' r0] eqn:Hload.
    apply loadProviderSet_spec in Hload; [|done|done]. destruct r0 as [pset|].
    2:{ intros [= <- <-]. split_and!; [by apply (storeInv_view _ _ (pm_cache s) c _ (pm_dstore s) d')|done..]. }
    destruct Hload as (Hok & Hrem & Hset).
    assert (storeInv now last c (pm_heap s) d' (pm_gc s)) as Hinv'.
    { apply (storeInv_view _ _ (pm_cache s) c _ d' d'); [done..|]. eapply storeInv_removed; [exact Hrem| | |exact Hinv].
      - intros key (p & -> & Hx) k' p' t [-> ->]%provKey_inj Hr. by apply Hx.
      - intros k' p t (ptr & ps & Hk' & _) (p' & [-> _]%provKey_inj & _). congruence. }
    assert (∀ p, p ∈ ps_providers pset ↔ ∃ t, last k p = Some t ∧ ¬ expired now t) as Hres.
    { intros p. rewrite psOk_elem by done. setoid_rewrite Hset. split; intros (t & Hr & Hx); exists t; auto. }
    assert (∀ l, l = ps_providers pset → NoDup l ∧ (∀ p t, last k p = Some t → ¬ expired now t → p ∈ l) ∧
      (∀ p, p ∈ l → is_Some (last k p)) ∧
      (None = @None nat → ∀ p, p ∈ l ↔ ∃ t, last k p = Some t ∧ ¬ expired now t)) as Hans.
    { intros l ->. split_and!; [apply Hok|intros p t ? ?; apply Hres; by exists t|intros p (t & ? & _)%Hres; by exists t|done]. }
    destruct (ps_providers pset) as [|x l] eqn:El.
    { intros [= <- <-]. split_and!; [done..|]. intros l [= <-]. by apply Hans. }
    intros [= <- <-]. split_and!; [|done..|intros l' [= <-]; by apply Hans]. clear Hans Hres.
    by apply (storeInv_cache now last c (pm_heap s) (pm_dstore s) d' (pm_gc s) k pset).
Qed.

(** *** Garbage collection *)

Lemma gcResult_inv now last s g :
  pmInv now last s → pm_gc s = Some g → pmInv now last (gcResult s g).
Proof.
  intros Hinv Hg. pose proof Hinv as [H1 H2 H3 H4 H5 H6 H7]. destruct (H7 g Hg) as (Ht & Hq & Hc). unfold gcResult.
  destruct (gcQueryRes g) as [|[key v] rest] eqn:Eq.
  { split; cbn; try done. }
  assert (∀ d, storeInv now last (pm_cache s) (pm_heap s) d (pm_gc s) →
    storeInv now last (pm_cache s) (pm_heap s) d (Some (mkGc (gcTime g) (gcSkip g) rest))) as Hnext.
  { intros d [I1 I2 I3 I4 I5 I6 I7]. split; try done. intros g' [= <-]. destruct (I7 g Hg) as (? & Hq' & ?).
    split_and!; [done| |done]. cbn. intros key' v' Hin. apply Hq'. rewrite Eq. by right. }
  apply Hnext. case_decide as Hs; [done|].
  assert (ds_view (pm_dstore s) !! key = Some v ∨ ds_view (pm_dstore s) !! key = None) as Hv by (apply Hq; [left|done]).
  assert (dead (gcTime g) v → storeInv now last (pm_cache s) (pm_heap s) (ds_Delete (pm_dstore s) key).1 (pm_gc s)) as Hdel.
  { intros Hd. apply (storeInv_removed (eq key) _ _ _ _ (pm_dstore s)); [by apply removed_Delete| | |done].
    - intros ? <- k p t -> Hr. unfold record in Hr. destruct Hv as [Hv|Hv]; rewrite Hv in Hr; [|done]. cbn in Hr.
      apply (expired_mono (gcTime g)); [done|]. destruct (decide (expired (gcTime g) t)); [done|]. by destruct (Hd t).
    - intros k p t Hca ->. specialize (Hc _ _ _ Hca). destruct Hca as (ptr & ps & Hk & Hps & Hp).
      destruct (H3 k ptr Hk) as (ps' & Hps' & Ha & _). rewrite Hps in Hps'. injection Hps' as <-. specialize (Ha p t Hp).
      unfold record in Ha. destruct Hv as [Hv|Hv]; rewrite Hv in Ha; [|done]. by destruct (Hd t). }
  destruct (readTimeValue v) as [t|] eqn:Hr.
  - case_decide as Hx; [|done]. apply Hdel. apply time_Sub_expired in Hx. intros t' [Hr' Hx']. congruence.
  - apply Hdel. intros t' [Hr' _]. congruence.
Qed.

Lemma gcStart_inv now last s : pmInv now last s → pmInv now last (gcStart s now).
Proof.
  intros [H1 H2 H3 H4 H5 H6 H7]. unfold gcStart. set (q := NewKey _).
  pose proof (Query_view (pm_dstore s) q) as Hv. pose proof (Query_result (pm_dstore s) q) as Hq.
  destruct (ds_Query (pm_dstore s) q) as [d r]. cbn in Hv, Hq.
  assert (∀ k ptr, lru_view (lru_Purge (pm_cache s)) !! k = Some ptr → False) as Hp.
  { intros k ptr. by rewrite lru_Purge_view, lookup_empty. }
  split; cbn; [done|naive_solver|intros k ptr Hk; by destruct (Hp k ptr)| | | |].
  - intros key v. rewrite Hv. apply H4.
  - intros k p t. unfold record. rewrite Hv. apply H5.
  - intros k p t Hl Hx. unfold record. rewrite Hv. by apply H6.
  - intros g Hg. destruct r as [[es f]|]; [|done]. injection Hg as <-. split_and!; cbn; [done| |].
    + intros key v Hin _. left. rewrite Hv. specialize (Hq es f eq_refl).
      apply (elem_of_queryEntries (ds_view (pm_dstore s)) q key v).
      destruct f; [by eapply elem_of_submseteq|by rewrite <-Hq].
    + intros k p t (ptr & ps & Hk & _). by destruct (Hp k ptr).
Qed.

(** ** Reachable states *)

(** The time of an event of the loop of [run]. *)
Definition evTime (ev : pmEvent (K := K) (P := P)) : option Z :=
  match ev with PmNewProv _ t | PmGetProv _ t | PmGcTimer t => Some t | _ => None end.

(** The last additions after an event. *)
Definition lastAfter (last : K → P → option Z) s (ev : pmEvent (K := K) (P := P)) : K → P → option Z :=
  match ev with
  | PmNewProv i t => match pm_newprovs s !! i with Some (k, p) => addLast last k p t | None => last end
  | _ => last
  end.

(** The states at a time, with the last additions of each record; the records
    of an earlier run count as additions. *)
Inductive pmReach : Z → (K → P → option Z) → ProviderManager → Prop :=
| pmReach_new now ps d : validTime now → dsClean d → pmReach now (record d) (NewProviderManager ps d)
| pmReach_step now last s now' ev s' r :
    pmReach now last s → now ≤ now' → validTime now' → (∀ t, evTime ev = Some t → t = now') →
    pmStep encK encP decP self s ev = Some (Some (s', r)) → pmReach now' (lastAfter last s ev) s'.

Hypothesis put_ok : ∀ d key v, (ds_Put d key v).2 = true.
Hypothesis reads_ok : readsComplete.

Lemma pmStep_inv now last s ev :
  validTime now → pmInv now last s → (∀ t, evTime ev = Some t → t = now) →
  ∃ o, pmStep encK encP decP self s ev = Some o ∧ ∀ s' r, o = Some (s', r) → pmInv now (lastAfter last s ev) s'.
Proof.
  intros Hnow Hinv Hev. destruct ev as [k p addrs|i|i t|k t| |t|]; cbn [pmStep lastAfter].
  - eexists. split; [done|]. intros s' r [= <- _]. exact Hinv.
  - eexists. split; [done|]. intros s' r. case_decide; [|done]. intros [= <- _]. exact Hinv.
  - rewrite (Hev t eq_refl) in *. destruct (pm_newprovs s !! i) as [[k p]|]; [|by eexists]. destruct (pm_done s) eqn:Hd; [by eexists|].
    set (s1 := mkPM _ _ _ _ _ _ _ _). destruct (addProv_inv now last s1 k p put_ok Hnow Hinv) as (s2 & -> & Hg & Hd2 & _ & Hinv2).
    cbn [mbind option_bind]. eexists. split; [done|]. intros s' r [= <- _]. unfold pmInv. cbn. by rewrite Hg.
  - rewrite (Hev t eq_refl) in *. eexists. split; [done|]. intros s' r. destruct (pm_done s); [done|].
    destruct (getProvidersForKey encK decP s k now) as [s1 r1] eqn:Eg. intros [= <- _].
    by apply (getProvidersForKey_inv now last s k s1 r1).
  - eexists. split; [done|]. intros s' r. destruct (pm_done s); [done|]. destruct (pm_gc s) as [g|] eqn:Eg; [|done].
    intros [= <- _]. by apply gcResult_inv.
  - rewrite (Hev t eq_refl) in *. eexists. split; [done|]. intros s' r. destruct (_ && _); [|done].
    intros [= <- _]. by apply gcStart_inv.
  - eexists. split; [done|]. intros s' r [= <- _]. destruct Hinv. by split.
Qed.

Lemma pmReach_inv now last s : pmReach now last s → pmInv now last s ∧ validTime now.
Proof.
  induction 1 as [now ps d Hnow Hd|now last s now' ev s' r _ [IH Hv] Hle Hnow Hev Hs].
  - split; [|done]. unfold pmInv, NewProviderManager. cbn.
    split; [constructor| | |done|done|done|done]; intros k *; rewrite lru_New_view, lookup_empty; done.
  - split; [|done]. destruct (pmStep_inv now' last s ev Hnow) as (o & Ho & Hinv); [by eapply storeInv_time|done|].
    rewrite Hs in Ho. injection Ho as <-. by eapply Hinv.
Qed.

(** C23: [GetProviders] returns the providers.  With a datastore that accepts
    all writes, whatever requests and collections run before, a request of
    [GetProviders] does not panic, and if the datastore can be read its answer
    has no duplicates, every provider that was added for the key less than
    [ProvideValidity] ago, and only providers that were added for the key; if
    the key is not cached, no provider that is expired. *)
Theorem GetProviders_correct now last s k now' s' r :
  pmReach now last s → now ≤ now' → validTime now' → getProvidersForKey encK decP s k now' = (s', Some r) →
  is_Some (pmStep encK encP decP self s (PmGetProv k now')) ∧ NoDup r ∧ (∀ p t, last k p = Some t → ¬ expired now' t → p ∈ r) ∧ (∀ p, p ∈ r → is_Some (last k p)) ∧
  (lru_view (pm_cache s) !! k = None → ∀ p, p ∈ r ↔ ∃ t, last k p = Some t ∧ ¬ expired now' t).
Proof.
  intros Hr Hle Hv Hg. apply pmReach_inv in Hr as [Hinv _]. apply (storeInv_time _ now') in Hinv; [|done].
  split.
  { destruct (pmStep_inv now' last s (PmGetProv k now') Hv Hinv) as (o & -> & _); [by intros ? [= <-]|done]. }
  by destruct (getProvidersForKey_inv now' last s k s' (Some r) reads_ok Hinv Hg) as (_ & _ & _ & _ & Hl); apply Hl.
Qed.

(** *** Complete collections *)

(** The records that a collection will leave. *)
Definition collecting s : Prop :=
  ∀ g, pm_gc s = Some g → ∀ k p v, ds_view (pm_dstore s) !! provKey k p = Some v →
    (∃ t, live (gcTime g) v t) ∨ ((provKey k p, v) ∈ gcQueryRes g ∧ provKey k p ∉ gcSkip g).

Lemma getProvidersForKey_shrinks now last s k s' r key v :
  pmInv now last s → getProvidersForKey encK decP s k now = (s', r) →
  ds_view (pm_dstore s') !! key = Some v → ds_view (pm_dstore s) !! key = Some v.
Proof.
  intros Hinv. unfold getProvidersForKey. destruct (lru_Get (pm_cache s) k) as [c [ptr|]]; [by intros [= <- <-]|].
  destruct (loadProviderSet encK decP (pm_dstore s) k now) as [d' r0] eqn:Hload.
  apply loadProviderSet_spec in Hload; [|done|apply Hinv]. destruct r0 as [pset|]; [|intros [= <- <-]; cbn; by rewrite Hload].
  destruct Hload as (_ & Hrem & _). assert (ds_view d' !! key = Some v → ds_view (pm_dstore s) !! key = Some v) as Hd.
  { destruct (Hrem key) as [->|[-> _]]; done. }
  destruct (ps_providers pset); intros [= <- <-]; exact Hd.
Qed.

Hypothesis delete_ok : ∀ d key, (ds_Delete d key).2 = true.

Lemma gcResult_collecting s g : collecting s → pm_gc s = Some g → collecting (gcResult s g).
Proof.
  intros Hc Hg. unfold gcResult. destruct (gcQueryRes g) as [|[key v] rest] eqn:Eq; [done|].
  intros g' [= <-] k p v'. cbn [gcTime gcSkip gcQueryRes pm_dstore]. specialize (Hc g Hg k p v'). rewrite Eq in Hc.
  assert (∀ d, (∀ x, ds_view d !! provKey k p = Some x → ds_view (pm_dstore s) !! provKey k p = Some x) →
    (key = provKey k p → v = v' → key ∉ gcSkip g → ds_view d !! provKey k p = Some v' → ∃ t, live (gcTime g) v t) →
    ds_view d !! provKey k p = Some v' →
    (∃ t, live (gcTime g) v' t) ∨ (provKey k p, v') ∈ rest ∧ provKey k p ∉ gcSkip g) as Hrest.
  { intros d Hsub Hhead Hd. destruct (Hc (Hsub _ Hd)) as [?|[Hin Hs]]; [by left|].
    apply elem_of_cons in Hin as [Heq|Hin]; [|by right]. injection Heq as Hk Hv. fold (provKey k p) in Hk. left. subst v'.
    apply Hhead; [|done| |done]; rewrite <-Hk; done. }
  case_decide as Hs; [apply Hrest; [done|by intros]|].
  assert (ds_view (ds_Delete (pm_dstore s) key).1 = delete key (ds_view (pm_dstore s))) as Hdel by (by apply Delete_view).
  assert (∀ x, ds_view (ds_Delete (pm_dstore s) key).1 !! provKey k p = Some x →
    ds_view (pm_dstore s) !! provKey k p = Some x) as Hsub.
  { intros x. rewrite Hdel, lookup_delete_Some. by intros [_ ?]. }
  assert (key = provKey k p → v = v' → key ∉ gcSkip g → ds_view (ds_Delete (pm_dstore s) key).1 !! provKey k p = Some v' →
    ∃ t, live (gcTime g) v t) as Hgone.
  { intros -> _ _. by rewrite Hdel, lookup_delete_eq. }
  destruct (readTimeValue v) as [t|] eqn:Hr; [|by apply Hrest].
  case_decide as Hx; [by apply Hrest|]. apply Hrest; [done|]. intros _ _ _ _. exists t. split; [done|].
  by rewrite <-time_Sub_expired.
Qed.

Lemma gcStart_collecting now s : collecting (gcStart s now).
Proof.
  intros g. unfold gcStart. set (q := NewKey _). pose proof (Query_view (pm_dstore s) q) as Hv.
  pose proof (Query_result (pm_dstore s) q) as Hq. pose proof (reads_ok (pm_dstore s) q) as Hread.
  destruct (ds_Query (pm_dstore s) q) as [d [[es [|]]|]]; cbn in *; [by destruct (Hread es)| |done].
  intros [= <-] k p v Hk. right. cbn. split; [|set_solver]. rewrite (Hq es false eq_refl), elem_of_queryEntries.
  rewrite <-Hv. split; [done|]. apply provKey_providers.
Qed.

Lemma pmReach_collecting now last s : pmReach now last s → collecting s.
Proof.
  induction 1 as [|now last s now' ev s' r Hr IH Hle Hnow Hev Hs]; [done|].
  apply pmReach_inv in Hr as [Hinv _]. apply (storeInv_time _ now') in Hinv; [|done].
  destruct ev as [k p addrs|i|i t|k t| |t|]; cbn [pmStep] in Hs.
  - by injection Hs as <- _.
  - case_decide; [|done]. by injection Hs as <- _.
  - rewrite (Hev t eq_refl) in Hs. destruct (pm_newprovs s !! i) as [[k p]|]; [|done]. destruct (pm_done s); [done|].
    revert Hs. set (s1 := mkPM _ _ _ _ _ _ _ _).
    destruct (addProv_inv now' last s1 k p put_ok Hnow Hinv) as (s2 & -> & Hg & _ & Hput & _).
    cbn [mbind option_bind]. intros [= <- _]. intros g'. cbn [pm_gc pm_dstore]. rewrite Hg. change (pm_gc s1) with (pm_gc s). destruct (pm_gc s) as [g|] eqn:Eg; [|done].
    intros [= <-] k' p' v Hv. cbn [gcTime gcSkip gcQueryRes pm_dstore] in *. destruct Hput as (buf & Hbuf & Hd). rewrite Hd in Hv. change (pm_dstore s1) with (pm_dstore s) in Hv.
    rewrite mkProvKeyFor_eq. destruct (decide (provKey k' p' = provKey k p)) as [He|Hne].
    + rewrite He, lookup_insert_eq in Hv. injection Hv as <-. left. exists now'. split; [done|].
      pose proof (si_gc _ _ _ _ _ _ Hinv g eq_refl) as (Ht & _ & _).
      unfold expired, ProvideValidity, Hour, Minute, Second. lia.
    + rewrite lookup_insert_ne in Hv by done. destruct (IH g Eg k' p' v Hv) as [?|[Hin Hsk]]; [by left|].
      right. split; [done|set_solver].
  - rewrite (Hev t eq_refl) in Hs. destruct (pm_done s); [done|].
    destruct (getProvidersForKey encK decP s k now') as [s1 r1] eqn:Eg. injection Hs as <- _.
    destruct (getProvidersForKey_inv now' last s k s1 r1 reads_ok Hinv Eg) as (_ & Hgc & _).
    intros g Hg k' p' v Hv. rewrite Hgc in Hg. apply (IH g Hg k' p' v).
    by apply (getProvidersForKey_shrinks now' last s k s1 r1).
  - destruct (pm_done s); [done|]. destruct (pm_gc s) as [g|] eqn:Eg; [|done]. injection Hs as <- _.
    by apply gcResult_collecting.
  - destruct (_ && _); [|done]. injection Hs as <- _. apply gcStart_collecting.
  - by injection Hs as <- _.
Qed.

(** A sequence of steps. *)
Definition pmRun s (evs : list pmEvent) : option ProviderManager :=
  foldM (λ s ev, match pmStep encK encP decP self s ev with Some (Some (s', _)) => Some s' | _ => None end) s evs.

(** C24: A collection ends and is complete.  If the datastore fails no
    operation, a collection that was started ends after one step of the loop
    for each result of its query and one more, the timer runs again, and then
    every record that is left was valid when the collection started; records
    that are still valid are kept. *)
Theorem gc_complete now last s g :
  pmReach now last s → pm_gc s = Some g → pm_done s = false →
  ∃ s', pmRun s (replicate (S (length (gcQueryRes g))) PmGcResult) = Some s' ∧
    pm_gc s' = None ∧ pm_gcTimer s' = true ∧
    (∀ k p t, record (pm_dstore s') k p = Some t → ¬ expired (gcTime g) t) ∧
    (∀ k p t, last k p = Some t → ¬ expired now t → record (pm_dstore s') k p = Some t).
Proof.
  intros Hr Hg Hd. pose proof (pmReach_collecting now last s Hr) as Hc. apply pmReach_inv in Hr as [Hinv _].
  remember (gcQueryRes g) as res eqn:Hres. revert s g Hg Hres Hd Hc Hinv.
  induction res as [|[key v] res IH]; intros s g Hg Hres Hd Hc Hinv; unfold pmRun; cbn [replicate length foldM pmStep];
    rewrite Hd, Hg; cbn [fmap option_fmap option_map mbind option_bind].
  - unfold gcResult at 1. rewrite <-Hres. eexists. split; [done|]. split; [done|]. split; [done|]. split.
    + intros k p t Ht. change (record (pm_dstore s) k p = Some t) in Ht. unfold record in Ht.
      destruct (ds_view (pm_dstore s) !! provKey k p) as [v|] eqn:Hv; [|done].
      destruct (Hc g Hg k p v Hv) as [(t' & Ht' & Hx)|[Hin _]]; [cbn in Ht; congruence|]. rewrite <-Hres in Hin.
      by apply elem_of_nil in Hin.
    + intros k p t. apply (si_kept _ _ _ _ _ _ Hinv).
  - assert (pm_gc (gcResult s g) = Some (mkGc (gcTime g) (gcSkip g) res)) as Hg' by (unfold gcResult; by rewrite <-Hres).
    destruct (IH (gcResult s g) _ Hg') as (s' & Hs'); [done|unfold gcResult; by rewrite <-Hres| | |].
    + by apply gcResult_collecting.
    + by apply gcResult_inv.
    + by exists s'.
Qed.
End laws.

(** After a failed query nothing is collected any more.  When the query of
    a collection fails, the timer is not started again: in all later states, no
    collection runs and none can start. *)
Theorem gc_query_failed_stops {K P : Type} `{Countable K, Countable P} {LL : LruLib K} {PSL : PeerstoreLib P} {DL : DsLib}
    (encK : K → string) (encP : P → string) (decP : string → option P) (self : P)
    (s s1 s2 : ProviderManager (K := K) (P := P)) now r evs :
  (ds_Query (pm_dstore s) (NewKey ProvidersKeyPrefix)).2 = None →
  pmStep encK encP decP self s (PmGcTimer now) = Some (Some (s1, r)) →
  pmRun encK encP decP self s1 evs = Some s2 →
  pm_gc s2 = None ∧ pm_gcTimer s2 = false.
Proof.
  intros Hq Hs Hrun. assert (pm_gc s1 = None ∧ pm_gcTimer s1 = false) as Hoff.
  { cbn [pmStep] in Hs. destruct (_ && _); [|done]. injection Hs as <- _. unfold gcStart.
    destruct (ds_Query _ _) as [d [x|]]; done. }
  clear Hs Hq. revert s1 Hoff Hrun. induction evs as [|ev evs IH]; intros s1 [Hg Ht] Hrun; [by injection Hrun as <-|].
  unfold pmRun in Hrun. cbn [foldM] in Hrun. destruct (pmStep _ _ _ _ s1 ev) as [[[s3 r3]|]|] eqn:Hs; try done.
  apply (IH s3); [|exact Hrun]. clear Hrun IH. destruct ev as [k p addrs|i|i t|k t| |t|]; cbn [pmStep] in Hs.
  - by injection Hs as <- _.
  - case_decide; [|done]. by injection Hs as <- _.
  - destruct (pm_newprovs s1 !! i) as [[k p]|], (pm_done s1); try done. unfold addProv in Hs.
    destruct (lru_Get _ _) as [c r0]. destruct (writeProviderEntry _ _ _ _ _ _) as [[d ok]|]; [|done].
    cbn [mbind option_bind pm_gc] in Hs.
    injection Hs as <- _. cbn. rewrite Hg. by destruct ok.
  - destruct (pm_done s1); [done|]. unfold getProvidersForKey in Hs. destruct (lru_Get _ _) as [c [ptr|]]; [by injection Hs as <- _|].
    destruct (loadProviderSet _ _ _ _ _) as [d [pset|]]; [|by injection Hs as <- _].
    destruct (ps_providers pset); by injection Hs as <- _.
  - destruct (pm_done s1); [done|]. by rewrite Hg in Hs.
  - by rewrite Ht in Hs.
  - by injection Hs as <- _.
Qed.

(** ** Concrete runs *)

(** A cache of one key, and a peerstore that forgets. *)
#[local] Instance oneLru : LruLib bool := {
  LRU := option (bool * nat);
  lru_New := None;
  lru_Get c k := (c, match c with Some (k', v) => if decide (k = k') then Some v else None | None => None end);
  lru_Add _ k v := Some (k, v);
  lru_Purge _ := None;
  lru_view c := match c with Some (k, v) => {[k := v]} | None => ∅ end;
}.

#[local] Instance oneLru_laws : LruLaws bool.
Proof.
  split; cbn; try done.
  - intros [[k' v]|] k; [|by rewrite lookup_empty]. destruct (decide (k = k')) as [->|]; [by rewrite lookup_singleton_eq|].
    by rewrite lookup_singleton_ne.
  - intros [[k' v']|] k v; apply map_singleton_subseteq_l; by rewrite lookup_insert_eq.
Qed.

#[local] Instance noPeerstore : PeerstoreLib bool := {
  PSTORE := unit; ADDR := unit;
  pst_AddAddrs s _ _ := s;
  pst_PeerInfos _ l := (λ p, (p, [])) <$> l;
}.

Definition demoEnc (b : bool) : string := if b then "B" else "A".
Definition demoDec (s : string) : option bool :=
  if decide (s = "A")%string then Some false else if decide (s = "B")%string then Some true else None.

Lemma demoEnc_component b : component (demoEnc b).
Proof. destruct b; by_compute. Qed.

Lemma demoEnc_inj : Inj (=) (=) demoEnc.
Proof. by intros [] []. Qed.

Lemma demoDec_enc b : demoDec (demoEnc b) = Some b.
Proof. by destruct b. Qed.

(** The in-memory datastore without faults. *)
#[local] Existing Instances okDs okDs_laws.

(** Two days and an hour after the epoch, then a minute. *)
Definition demoNow : Z := unixToInternal * Second + 49 * Hour.

(** Provider [true] of key [false] of an earlier run is just expired, then
    provider [false] is added for it. *)
Definition demoStore : gmap string bytes :=
  <["/providers/A/B"%string := default [] (PutVarint 16 (UnixNano (demoNow - 48 * Hour - 1)))]> ∅.

Definition demoPM : ProviderManager (K := bool) (P := bool) := NewProviderManager () demoStore.

Definition demoStep (s : ProviderManager (K := bool) (P := bool)) (ev : pmEvent (K := bool) (P := bool)) :
    ProviderManager (K := bool) (P := bool) :=
  match pmStep demoEnc demoEnc demoDec true s ev with Some (Some (s', _)) => s' | _ => s end.

Definition demoEv1 : pmEvent (K := bool) (P := bool) := PmAddProvider false false [].
Definition demoEv2 : pmEvent (K := bool) (P := bool) := PmNewProv 0 demoNow.
Definition demoEv3 : pmEvent (K := bool) (P := bool) := PmGcTimer demoNow.
Definition demoPM1 := demoStep demoPM demoEv1.
Definition demoPM2 := demoStep demoPM1 demoEv2.
Definition demoPM3 := demoStep demoPM2 demoEv3.
Definition demoLast : bool → bool → option Z :=
  lastAfter (lastAfter (record (DL := okDs) demoEnc demoEnc demoStore) demoPM demoEv1) demoPM1 demoEv2.

Lemma demo_clean : dsClean demoEnc demoEnc demoStore.
Proof.
  intros key v. change (@ds_view okDs demoStore) with demoStore. unfold demoStore. destruct (decide (key = "/providers/A/B"%string)) as [->|Hne].
  - intros _ _. by exists false, true.
  - by rewrite lookup_insert_ne, lookup_empty by done.
Qed.

Lemma demoStep_ok s ev :
  match pmStep demoEnc demoEnc demoDec true s ev with Some (Some (_, [])) => True | _ => False end →
  pmStep demoEnc demoEnc demoDec true s ev = Some (Some (demoStep s ev, [])).
Proof. unfold demoStep. by destruct (pmStep _ _ _ _ s ev) as [[[s' []]|]|]. Qed.

Lemma demo_reach2 : pmReach demoEnc demoEnc demoDec true demoNow demoLast demoPM2.
Proof.
  apply (pmReach_step _ _ _ _ demoNow (lastAfter (record (DL := okDs) demoEnc demoEnc demoStore) demoPM demoEv1) demoPM1 demoNow demoEv2 demoPM2 []);
    [|lia|by_compute|by intros ? [= <-]|apply demoStep_ok; vm_compute; exact I].
  apply (pmReach_step _ _ _ _ demoNow (record (DL := okDs) demoEnc demoEnc demoStore) demoPM demoNow demoEv1 demoPM1 []);
    [|lia|by_compute|done|apply demoStep_ok; vm_compute; exact I].
  apply pmReach_new; [by_compute|apply demo_clean].
Defined.

Lemma demo_reach3 : pmReach demoEnc demoEnc demoDec true demoNow demoLast demoPM3.
Proof.
  apply (pmReach_step _ _ _ _ demoNow demoLast demoPM2 demoNow demoEv3 demoPM3 []);
    [apply demo_reach2|lia|by_compute|by intros ? [= <-]|apply demoStep_ok; vm_compute; exact I].
Defined.

(** The expired provider is not returned. *)
Lemma GetProviders_correct_witness :
  is_Some (pmStep demoEnc demoEnc demoDec true demoPM2 (PmGetProv false demoNow)) ∧ NoDup [false] ∧
  (∀ p t, demoLast false p = Some t → ¬ expired demoNow t → p ∈ [false]) ∧ (∀ p, p ∈ [false] → is_Some (demoLast false p)) ∧
  (lru_view (pm_cache demoPM2) !! false = None → ∀ p, p ∈ [false] ↔ ∃ t, demoLast false p = Some t ∧ ¬ expired demoNow t).
Proof.
  apply (GetProviders_correct (DL := okDs) demoEnc demoEnc demoDec true demoEnc_component demoEnc_component demoEnc_inj demoDec_enc
    (λ _ _ _, eq_refl) (λ _ _ _, ltac:(discriminate)) demoNow demoLast demoPM2 false demoNow
    (getProvidersForKey demoEnc demoDec demoPM2 false demoNow).1 [false]); [apply demo_reach2|lia|by_compute|].
  apply injective_projections; [reflexivity|vm_compute; reflexivity].
Defined.

(** The collection removes the expired record. *)
Lemma gc_complete_witness :
  ∃ s', pmRun demoEnc demoEnc demoDec true demoPM3 (replicate 3 PmGcResult) = Some s' ∧
    pm_gc s' = None ∧ pm_gcTimer s' = true ∧
    (∀ k p t, record demoEnc demoEnc (pm_dstore s') k p = Some t → ¬ expired demoNow t) ∧
    (∀ k p t, demoLast k p = Some t → ¬ expired demoNow t → record demoEnc demoEnc (pm_dstore s') k p = Some t).
Proof.
  apply (gc_complete (DL := okDs) demoEnc demoEnc demoDec true demoEnc_component demoEnc_component demoEnc_inj demoDec_enc
    (λ _ _ _, eq_refl) (λ _ _ _, ltac:(discriminate)) (λ _ _, eq_refl) demoNow demoLast demoPM3
    (default (mkGc 0 ∅ []) (pm_gc demoPM3))); [apply demo_reach3|vm_compute; reflexivity|vm_compute; reflexivity].
Defined.

(** A datastore whose first operation fails. *)
Definition demoFaulty : ProviderManager (K := bool) (P := bool) (DL := memDs) :=
  NewProviderManager (DL := memDs) () (mkMemStore ∅ [true]).

Lemma gc_query_failed_stops_witness :
  let s2 := mkPM (DL := memDs) (None : LRU (K := bool)) [] () (mkMemStore ∅ []) [(true, false)] None false false in
  pm_gc s2 = None ∧ pm_gcTimer s2 = false.
Proof.
  apply (gc_query_failed_stops (DL := memDs) demoEnc demoEnc demoDec true demoFaulty
    (gcStart (DL := memDs) demoFaulty demoNow) _ demoNow [] [PmAddProvider true false []]); [reflexivity|reflexivity|reflexivity].
Defined.
