(* ===== verification/Message.v ===== *)
(** * Messages

    [pb/message.go]: messages and the conversions between peers and their form
    on the wire; [pb/protocol_messenger.go]: the requests of the protocol.

    A [peer.ID] is a byte string.  In a byte field, [nil] is the empty string.
    A record carries the time of its field [TimeReceived], [None] if the field
    is not a time; the text format of times is left out.  Multiaddresses and
    the sender of messages are parameters; [None] is a panic. *)

From S2P Require Import Prelude GoTime Datastore.

Abbreviation peerID := (list Z).

(** [multiaddr.Multiaddr] *)
Class MaLib := {
  MA : Type;
  ma_Bytes : MA → bytes;
  NewMultiaddrBytes : bytes → option MA;
}.

Class MaLaws `{MaLib} : Prop := {
  ma_roundtrip : ∀ a, NewMultiaddrBytes (ma_Bytes a) = Some a;
}.

(** [recpb.Record] *)
Record Record_ := mkRecord { rec_Key : bytes; rec_Value : bytes; rec_TimeReceived : option Z }.

(** [network.Connectedness], and the connection type of a message. *)
Inductive Connectedness_ := NotConnected | Connected | CanConnect | CannotConnect | Limited.
Inductive ConnectionType_ := NOT_CONNECTED | CONNECTED | CAN_CONNECT | CANNOT_CONNECT.

Inductive MessageType := PUT_VALUE | GET_VALUE | ADD_PROVIDER | GET_PROVIDERS | FIND_NODE | PING.

#[export] Instance Record_eq_dec : EqDecision Record_.
Proof. solve_decision. Defined.
#[export] Instance ConnectionType_eq_dec : EqDecision ConnectionType_.
Proof. solve_decision. Defined.
#[export] Instance MessageType_eq_dec : EqDecision MessageType.
Proof. solve_decision. Defined.

Record Message_Peer := mkPBPeer { pbp_Id : bytes; pbp_Addrs : list bytes; pbp_Connection : ConnectionType_ }.

Record Message := mkMessage {
  m_Type : MessageType;
  m_ClusterLevelRaw : Z;
  m_Key : bytes;
  m_Record : option Record_;
  m_CloserPeers : list Message_Peer;
  m_ProviderPeers : list Message_Peer;
}.

(** [int32] *)
Definition wrap32 (z : Z) : Z := ((z + 2 ^ 31) `mod` 2 ^ 32 - 2 ^ 31)%Z.

(** [GetClusterLevel] and [SetClusterLevel] *)
Definition GetClusterLevel (m : Message) : Z :=
  let level := wrap32 (m_ClusterLevelRaw m - 1) in
  if decide (level < 0)%Z then 0%Z else level.

Definition SetClusterLevel (m : Message) (level : Z) : Message :=
  let lvl := wrap32 level in
  mkMessage (m_Type m) (wrap32 (lvl + 1)) (m_Key m) (m_Record m) (m_CloserPeers m) (m_ProviderPeers m).

(** [NewMessage] *)
Definition NewMessage (typ : MessageType) (key : bytes) (level : Z) : Message :=
  SetClusterLevel (mkMessage typ 0 key None [] []) level.

(** [ConnectionType] and [Connectedness] *)
Definition ConnectionType (c : Connectedness_) : ConnectionType_ :=
  match c with NotConnected => NOT_CONNECTED | Connected => CONNECTED | _ => NOT_CONNECTED end.

Definition Connectedness (c : ConnectionType_) : Connectedness_ :=
  match c with NOT_CONNECTED => NotConnected | CONNECTED => Connected | _ => NotConnected end.

Section peers.
Context {ML : MaLib}.

(** [peer.AddrInfo] *)
Record AddrInfo := mkAddrInfo { ai_ID : peerID; ai_Addrs : list MA }.

(** [PeerRoutingInfo] *)
Record PeerRoutingInfo := mkPRI { pri_AddrInfo : AddrInfo; pri_Connectedness : Connectedness_ }.

Definition peerRoutingInfoToPBPeer (p : PeerRoutingInfo) : Message_Peer :=
  mkPBPeer (ai_ID (pri_AddrInfo p)) (ma_Bytes <$> ai_Addrs (pri_AddrInfo p)) (ConnectionType (pri_Connectedness p)).

Definition peerInfoToPBPeer (p : AddrInfo) : Message_Peer :=
  mkPBPeer (ai_ID p) (ma_Bytes <$> ai_Addrs p) NOT_CONNECTED.

(** [Addresses] *)
Definition Addresses (m : Message_Peer) : list MA := omap NewMultiaddrBytes (pbp_Addrs m).

Definition PBPeerToPeerInfo (pbp : Message_Peer) : AddrInfo := mkAddrInfo (pbp_Id pbp) (Addresses pbp).

Definition RawPeerInfosToPBPeers (peers : list AddrInfo) : list Message_Peer := peerInfoToPBPeer <$> peers.

(** [PeerInfosToPBPeers], with the connectedness of the network. *)
Definition PeerInfosToPBPeers (n : peerID → Connectedness_) (peers : list AddrInfo) : list Message_Peer :=
  zip_with (λ pbp p, mkPBPeer (pbp_Id pbp) (pbp_Addrs pbp) (ConnectionType (n (ai_ID p))))
    (RawPeerInfosToPBPeers peers) peers.

Definition PeerRoutingInfosToPBPeers (peers : list PeerRoutingInfo) : list Message_Peer :=
  peerRoutingInfoToPBPeer <$> peers.

Definition PBPeersToPeerInfos (pbps : list Message_Peer) : list AddrInfo := PBPeerToPeerInfo <$> pbps.

(** ** Requests *)

(** [MessageSender], over the state of the network. *)
Class MessageSender := {
  NET : Type;
  SendRequest : NET → peerID → Message → NET * option Message;
  SendMessage : NET → peerID → Message → NET * bool;
}.

Context {MS : MessageSender}.

Inductive pmError := PmSend | PmNotPut | PmIncorrectRecord | PmNoAddrs | PmUnexpectedType.

(** [ProtocolMessenger.PutValue]: a response without a record is a nil pointer
    whose field is read. *)
Definition pm_PutValue (n : NET) (p : peerID) (rec : Record_) : option (NET * option pmError) :=
  let pmes0 := NewMessage PUT_VALUE (rec_Key rec) 0 in
  let pmes := mkMessage (m_Type pmes0) (m_ClusterLevelRaw pmes0) (m_Key pmes0) (Some rec) (m_CloserPeers pmes0) (m_ProviderPeers pmes0) in
  let '(n, r) := SendRequest n p pmes in
  match r with
  | None => Some (n, Some PmSend)
  | Some rpmes =>
      rrec ← m_Record rpmes;
      Some (n, if decide (rec_Value rrec = rec_Value rec) then None else Some PmNotPut)
  end.

(** [GetValue] *)
Definition pm_GetValue (n : NET) (p : peerID) (key : bytes) : NET * (pmError + option Record_ * list AddrInfo) :=
  let '(n, r) := SendRequest n p (NewMessage GET_VALUE key 0) in
  match r with
  | None => (n, inl PmSend)
  | Some respMsg =>
      let peers := PBPeersToPeerInfos (m_CloserPeers respMsg) in
      match m_Record respMsg with
      | Some rec => (n, if decide (key = rec_Key rec) then inr (Some rec, peers) else inl PmIncorrectRecord)
      | None => (n, inr (None, peers))
      end
  end.

(** [GetClosestPeers] *)
Definition pm_GetClosestPeers (n : NET) (p id : peerID) : NET * (pmError + list AddrInfo) :=
  let '(n, r) := SendRequest n p (NewMessage FIND_NODE id 0) in
  match r with
  | None => (n, inl PmSend)
  | Some respMsg => (n, inr (PBPeersToPeerInfos (m_CloserPeers respMsg)))
  end.

(** [PutProviderAddrs] *)
Definition pm_PutProviderAddrs (n : NET) (p : peerID) (key : bytes) (self : AddrInfo) : NET * option pmError :=
  if decide (length (ai_Addrs self) < 1) then (n, Some PmNoAddrs)
  else
    let pmes0 := NewMessage ADD_PROVIDER key 0 in
    let pmes := mkMessage (m_Type pmes0) (m_ClusterLevelRaw pmes0) (m_Key pmes0) (m_Record pmes0) (m_CloserPeers pmes0)
      (RawPeerInfosToPBPeers [self]) in
    let '(n, ok) := SendMessage n p pmes in
    (n, if ok : bool then None else Some PmSend).

(** [GetProviders] *)
Definition pm_GetProviders (n : NET) (p : peerID) (key : bytes) : NET * (pmError + list AddrInfo * list AddrInfo) :=
  let '(n, r) := SendRequest n p (NewMessage GET_PROVIDERS key 0) in
  match r with
  | None => (n, inl PmSend)
  | Some respMsg => (n, inr (PBPeersToPeerInfos (m_ProviderPeers respMsg), PBPeersToPeerInfos (m_CloserPeers respMsg)))
  end.

(** [Ping] *)
Definition pm_Ping (n : NET) (p : peerID) : NET * option pmError :=
  let '(n, r) := SendRequest n p (NewMessage PING [] 0) in
  match r with
  | None => (n, Some PmSend)
  | Some resp => (n, if decide (m_Type resp = PING) then None else Some PmUnexpectedType)
  end.
End peers.
Arguments MessageSender : clear implicits.

(** ** Round trips *)

Lemma wrap32_id z : (- 2 ^ 31 ≤ z < 2 ^ 31)%Z → wrap32 z = z.
Proof. unfold wrap32. intros ?. rewrite Z.mod_small by lia. lia. Qed.

Lemma wrap32_wrap z : wrap32 (wrap32 (z + 1) - 1) = wrap32 z.
Proof.
  unfold wrap32. f_equal. replace ((z + 1 + 2 ^ 31) `mod` 2 ^ 32 - 2 ^ 31 - 1 + 2 ^ 31)%Z
    with ((z + 1 + 2 ^ 31) `mod` 2 ^ 32 - 1)%Z by lia.
  rewrite Zminus_mod_idemp_l. f_equal. lia.
Qed.

(** The level that is read is the one that was set, or 0 for negative ones; the
    largest one wraps around twice. *)
Lemma ClusterLevel_roundtrip m level :
  (- 2 ^ 31 ≤ level < 2 ^ 31)%Z → GetClusterLevel (SetClusterLevel m level) = Z.max 0 level.
Proof.
  intros Hl. unfold GetClusterLevel, SetClusterLevel. cbn. rewrite wrap32_wrap, !wrap32_id by (done || by rewrite wrap32_id).
  case_decide; lia.
Qed.

Lemma NewMessage_level typ key level :
  (0 ≤ level < 2 ^ 31)%Z → GetClusterLevel (NewMessage typ key level) = level.
Proof. intros Hl. unfold NewMessage. rewrite ClusterLevel_roundtrip; lia. Qed.

Section roundtrip.
Context {ML : MaLib} {MW : MaLaws}.

Lemma Addresses_bytes id addrs c : Addresses (mkPBPeer id (ma_Bytes <$> addrs) c) = addrs.
Proof.
  unfold Addresses. cbn. induction addrs as [|a addrs IH]; [done|]. cbn. rewrite ma_roundtrip. cbn. by f_equal.
Qed.

Lemma PBPeer_info p c : PBPeerToPeerInfo (mkPBPeer (ai_ID p) (ma_Bytes <$> ai_Addrs p) c) = p.
Proof. destruct p as [id addrs]. unfold PBPeerToPeerInfo. by rewrite Addresses_bytes. Qed.

Lemma PBPeers_raw peers : PBPeersToPeerInfos (RawPeerInfosToPBPeers peers) = peers.
Proof.
  unfold PBPeersToPeerInfos, RawPeerInfosToPBPeers. rewrite <-list_fmap_compose. rewrite <-(list_fmap_id peers) at 2.
  apply list_fmap_ext. intros i p _. apply PBPeer_info.
Qed.

Lemma PBPeers_infos n peers : PBPeersToPeerInfos (PeerInfosToPBPeers n peers) = peers.
Proof.
  unfold PBPeersToPeerInfos, PeerInfosToPBPeers, RawPeerInfosToPBPeers.
  induction peers as [|p peers IH]; [done|]. apply (f_equal2 cons); [apply PBPeer_info|exact IH].
Qed.
End roundtrip.
