(* ===== verification/Handlers.v ===== *)
(** * Message handlers

    [handlers.go], with the local record store of [dht.go] ([getLocal],
    [putLocal], [closestPeersToQuery], [filterAddrs]): the answers of a node to
    the requests of other peers.

    A handler is a function from the state of the node (its datastore and its
    provider store) and the request to the new state and an error or a
    response.  The validator of records, the routing table, the peerstore, the
    provider store, the datastore and the encodings are parameters; the class
    [ProviderStore] is the interface to the store of provider records. *)

From S2P Require Import Prelude GoTime Datastore DsKey Message.
From Stdlib Require Import Ascii.

(** ** The provider store *)

Class ProviderStore {ML : MaLib} := {
  PST : Type;
  store_AddProvider : PST → bytes → AddrInfo → PST * bool;
  store_GetProviders : PST → bytes → PST * option (list AddrInfo);
  store_provs : PST → bytes → peerID → Prop;   (* who has been added *)
}.

Class ProviderStoreLaws `{ProviderStore} : Prop := {
  AddProvider_added : ∀ s k ai, (store_AddProvider s k ai).2 = true → store_provs (store_AddProvider s k ai).1 k (ai_ID ai);
  AddProvider_only : ∀ s k ai k' p, store_provs (store_AddProvider s k ai).1 k' p →
    store_provs s k' p ∨ (k' = k ∧ p = ai_ID ai);
  AddProvider_keeps : ∀ s k ai k' p, store_provs s k' p → store_provs (store_AddProvider s k ai).1 k' p;
  GetProviders_view : ∀ s k k' p, store_provs (store_GetProviders s k).1 k' p ↔ store_provs s k' p;
  GetProviders_only : ∀ s k l ai, (store_GetProviders s k).2 = Some l → ai ∈ l → store_provs s k (ai_ID ai);
}.

Inductive hError :=
| ErrNoKey | ErrNilRecord | ErrKeyMismatch | ErrInvalidRecord | ErrSelect | ErrOldRecord
| ErrMarshal | ErrUnmarshal | ErrDatastore | ErrKeyTooLarge | ErrProviderStore | ErrNoValidProvider.

Section handlers.
Context {ML : MaLib} {DL : DsLib} {PS : ProviderStore}.
Variables (self : peerID) (bucketSize : nat) (maxRecordAge : Z) (enableValues enableProviders : bool).
Variable enc32 : bytes → string.
Variables (Marshal : Record_ → option bytes) (Unmarshal : bytes → option Record_).
Variables (Validate : bytes → bytes → bool) (Select : bytes → list bytes → option nat).
Variable NearestPeers : bytes → nat → list peerID.
Variable peerAddrs : peerID → list MA.
Variable addrFilter : option (list MA → list MA).
Variable connectedness : peerID → Connectedness_.

Record dhtState := mkDht { dh_ds : DS; dh_prov : PST }.

(** [convertToDsKey] and [mkDsKey] *)
Definition convertToDsKey (s : bytes) : string := NewKey (enc32 s).

(** [peerstore.AddrInfos] *)
Definition AddrInfos (l : list peerID) : list AddrInfo := (λ p, mkAddrInfo p (peerAddrs p)) <$> l.

(** [filterAddrs] *)
Definition filterAddrs (addrs : list MA) : list MA :=
  match addrFilter with Some f => f addrs | None => addrs end.

(** The loop of [closestPeersToQuery]. *)
Fixpoint closestLoop (from : peerID) (count : nat) (closestPeers filtered : list peerID) : list peerID :=
  match closestPeers with
  | [] => filtered
  | p :: closestPeers =>
      if decide (p = self) then closestLoop from count closestPeers filtered
      else if decide (p = from) then closestLoop from count closestPeers filtered
      else
        let filtered := filtered ++ [p] in
        if decide (count ≤ length filtered) then filtered else closestLoop from count closestPeers filtered
  end.

(** [closestPeersToQuery] *)
Definition closestPeersToQuery (pmes : Message) (from : peerID) (count : nat) : list peerID :=
  let closestPeers := NearestPeers (m_Key pmes) (count + 1) in
  if decide (length closestPeers = 0) then [] else closestLoop from count closestPeers [].

(** ** Values *)

(** [checkLocalDatastore] up to its decision: an error, or the record and
    whether it is bad. *)
Definition checkRead (d : DS) (k : bytes) (now : Z) : DS * (hError + option (Record_ * bool)) :=
  let '(d, r) := ds_Get d (convertToDsKey k) in
  match r with
  | None => (d, inl ErrDatastore)
  | Some None => (d, inr None)
  | Some (Some buf) =>
      match Unmarshal buf with
      | None => (d, inl ErrUnmarshal)
      | Some rec =>
          let recordIsBad :=
            match rec_TimeReceived rec with
            | None => true
            | Some recvtime => bool_decide (time_Sub now recvtime > maxRecordAge)%Z
            end in
          (d, inr (Some (rec, recordIsBad)))
      end
  end.

(** [checkLocalDatastore]; an error of [Delete] is only logged. *)
Definition checkLocalDatastore (d : DS) (k : bytes) (now : Z) : DS * (hError + option Record_) :=
  let '(d, r) := checkRead d k now in
  match r with
  | inl err => (d, inl err)
  | inr None => (d, inr None)
  | inr (Some (rec, true)) => ((ds_Delete d (convertToDsKey k)).1, inr None)
  | inr (Some (rec, false)) => (d, inr (Some rec))
  end.

(** [handleGetValue] *)
Definition handleGetValue (s : dhtState) (p : peerID) (pmes : Message) (now : Z) : dhtState * (hError + option Message) :=
  let k := m_Key pmes in
  if decide (length k = 0) then (s, inl ErrNoKey)
  else
    let '(d, r) := checkLocalDatastore (dh_ds s) k now in
    let s := mkDht d (dh_prov s) in
    match r with
    | inl err => (s, inl err)
    | inr rec =>
        let resp := NewMessage (m_Type pmes) (m_Key pmes) (GetClusterLevel pmes) in
        let closestPeers := closestPeersToQuery pmes p bucketSize in
        let closer := if decide (0 < length closestPeers) then PeerInfosToPBPeers connectedness (AddrInfos closestPeers) else [] in
        (s, inr (Some (mkMessage (m_Type resp) (m_ClusterLevelRaw resp) (m_Key resp) rec closer (m_ProviderPeers resp))))
    end.

(** [getRecordFromDatastore]: a record that is not valid counts as absent. *)
Definition getRecordFromDatastore (d : DS) (dskey : string) : DS * (hError + option Record_) :=
  let '(d, r) := ds_Get d dskey in
  match r with
  | None => (d, inl ErrDatastore)
  | Some None => (d, inr None)
  | Some (Some buf) =>
      match Unmarshal buf with
      | None => (d, inr None)
      | Some rec => (d, inr (if Validate (rec_Key rec) (rec_Value rec) then Some rec else None))
      end
  end.

(** [cleanRecord] *)
Definition cleanRecord (rec : Record_) : Record_ := mkRecord (rec_Key rec) (rec_Value rec) None.

(** The part of [handlePutValue] under the lock of the last byte of the key. *)
Definition putLocked (d : DS) (rec : Record_) (now : Z) : DS * option hError :=
  let dskey := convertToDsKey (rec_Key rec) in
  let '(d, r) := getRecordFromDatastore d dskey in
  let put d :=
    match Marshal (mkRecord (rec_Key rec) (rec_Value rec) (Some now)) with
    | None => (d, Some ErrMarshal)
    | Some data => let '(d, ok) := ds_Put d dskey data in (d, if ok : bool then None else Some ErrDatastore)
    end in
  match r with
  | inl err => (d, Some err)
  | inr None => put d
  | inr (Some existing) =>
      match Select (rec_Key rec) [rec_Value rec; rec_Value existing] with
      | None => (d, Some ErrSelect)
      | Some i => if decide (i ≠ 0) then (d, Some ErrOldRecord) else put d
      end
  end.

(** [handlePutValue]: the response is the request, whose record has the time. *)
Definition handlePutValue (s : dhtState) (p : peerID) (pmes : Message) (now : Z) : dhtState * (hError + option Message) :=
  if decide (length (m_Key pmes) = 0) then (s, inl ErrNoKey)
  else
    match m_Record pmes with
    | None => (s, inl ErrNilRecord)
    | Some rec =>
        if decide (m_Key pmes ≠ rec_Key rec) then (s, inl ErrKeyMismatch)
        else
          let rec := cleanRecord rec in
          if negb (Validate (rec_Key rec) (rec_Value rec)) then (s, inl ErrInvalidRecord)
          else
            let '(d, err) := putLocked (dh_ds s) rec now in
            let s := mkDht d (dh_prov s) in
            match err with
            | Some err => (s, inl err)
            | None =>
                (s, inr (Some (mkMessage (m_Type pmes) (m_ClusterLevelRaw pmes) (m_Key pmes)
                  (Some (mkRecord (rec_Key rec) (rec_Value rec) (Some now))) (m_CloserPeers pmes) (m_ProviderPeers pmes))))
            end
    end.

(** [getLocal] and [putLocal] *)
Definition getLocal (d : DS) (key : bytes) : DS * (hError + option Record_) :=
  let '(d, r) := getRecordFromDatastore d (convertToDsKey key) in
  match r with
  | inr (Some rec) => (d, inr (if decide (rec_Key rec ≠ key) then None else Some rec))
  | _ => (d, r)
  end.

Definition putLocal (d : DS) (key : bytes) (rec : Record_) : DS * option hError :=
  match Marshal rec with
  | None => (d, Some ErrMarshal)
  | Some data => let '(d, ok) := ds_Put d (convertToDsKey key) data in (d, if ok : bool then None else Some ErrDatastore)
  end.

(** ** Peers and providers *)

(** [handlePing] *)
Definition handlePing (s : dhtState) (p : peerID) (pmes : Message) (now : Z) : dhtState * (hError + option Message) :=
  (s, inr (Some pmes)).

(** [handleFindPeer] *)
Definition handleFindPeer (s : dhtState) (from : peerID) (pmes : Message) (now : Z) : dhtState * (hError + option Message) :=
  let resp := NewMessage (m_Type pmes) [] (GetClusterLevel pmes) in
  if decide (length (m_Key pmes) = 0) then (s, inl ErrNoKey)
  else
    let targetPid := m_Key pmes in
    let closest := closestPeersToQuery pmes from bucketSize in
    let closest := if decide (head closest = Some targetPid) then closest else targetPid :: closest in
    let withAddresses := filter (λ pi, 0 < length (ai_Addrs pi)) (AddrInfos closest) in
    (s, inr (Some (mkMessage (m_Type resp) (m_ClusterLevelRaw resp) (m_Key resp) (m_Record resp)
      (PeerInfosToPBPeers connectedness withAddresses) (m_ProviderPeers resp)))).

Definition maxProviderKey : nat := 80.

(** [handleGetProviders] *)
Definition handleGetProviders (s : dhtState) (p : peerID) (pmes : Message) (now : Z) : dhtState * (hError + option Message) :=
  let key := m_Key pmes in
  if decide (maxProviderKey < length key) then (s, inl ErrKeyTooLarge)
  else if decide (length key = 0) then (s, inl ErrNoKey)
  else
    let resp := NewMessage (m_Type pmes) (m_Key pmes) (GetClusterLevel pmes) in
    let '(st, r) := store_GetProviders (dh_prov s) key in
    let s := mkDht (dh_ds s) st in
    match r with
    | None => (s, inl ErrProviderStore)
    | Some providers =>
        let filtered := (λ pi, mkAddrInfo (ai_ID pi) (filterAddrs (ai_Addrs pi))) <$> providers in
        let closestPeers := closestPeersToQuery pmes p bucketSize in
        (s, inr (Some (mkMessage (m_Type resp) (m_ClusterLevelRaw resp) (m_Key resp) (m_Record resp)
          (PeerInfosToPBPeers connectedness (AddrInfos closestPeers)) (PeerInfosToPBPeers connectedness filtered))))
    end.

(** The loop of [handleAddProvider]. *)
Fixpoint addProviderLoop (st : PST) (p : peerID) (key : bytes) (pinfos : list AddrInfo) (success : bool) : PST * bool :=
  match pinfos with
  | [] => (st, success)
  | pi :: pinfos =>
      if decide (ai_ID pi ≠ p) then addProviderLoop st p key pinfos success
      else if decide (length (ai_Addrs pi) < 1) then addProviderLoop st p key pinfos success
      else
        let '(st, _) := store_AddProvider st key (mkAddrInfo (ai_ID pi) (filterAddrs (ai_Addrs pi))) in
        addProviderLoop st p key pinfos true
  end.

(** [handleAddProvider] has no response. *)
Definition handleAddProvider (s : dhtState) (p : peerID) (pmes : Message) (now : Z) : dhtState * (hError + option Message) :=
  let key := m_Key pmes in
  if decide (maxProviderKey < length key) then (s, inl ErrKeyTooLarge)
  else if decide (length key = 0) then (s, inl ErrNoKey)
  else
    let pinfos := PBPeersToPeerInfos (m_ProviderPeers pmes) in
    let '(st, success) := addProviderLoop (dh_prov s) p key pinfos false in
    let s := mkDht (dh_ds s) st in
    if success : bool then (s, inr None) else (s, inl ErrNoValidProvider).

(** [handlerForMsgType] *)
Definition handlerForMsgType (t : MessageType) :
    option (dhtState → peerID → Message → Z → dhtState * (hError + option Message)) :=
  match t with
  | FIND_NODE => Some handleFindPeer
  | PING => Some handlePing
  | GET_VALUE => if enableValues then Some handleGetValue else None
  | PUT_VALUE => if enableValues then Some handlePutValue else None
  | ADD_PROVIDER => if enableProviders then Some handleAddProvider else None
  | GET_PROVIDERS => if enableProviders then Some handleGetProviders else None
  end.

(** ** Streams *)

(** What happens to a stream in an iteration of [handleNewMessage]: the mode
    of the node, what is read, the time, and whether the response can be
    written. *)
Inductive streamRead := ReadMsg (m : Message) | ReadEOF | ReadError | ReadBad.
Record streamInput := mkInput { si_server : bool; si_read : streamRead; si_now : Z; si_written : bool }.

(** [handleNewMessage]: the state, the responses and the result; at the end of
    the inputs the stream is idle until it is reset. *)
Fixpoint handleNewMessage (s : dhtState) (mPeer : peerID) (ins : list streamInput) : dhtState * list Message * bool :=
  match ins with
  | [] => (s, [], false)
  | i :: ins =>
      if negb (si_server i) then (s, [], false)
      else
        match si_read i with
        | ReadEOF => (s, [], true)
        | ReadError | ReadBad => (s, [], false)
        | ReadMsg req =>
            match handlerForMsgType (m_Type req) with
            | None => (s, [], false)
            | Some handler =>
                let '(s, r) := handler s mPeer req (si_now i) in
                match r with
                | inl _ => (s, [], false)
                | inr None => handleNewMessage s mPeer ins
                | inr (Some resp) =>
                    if si_written i then
                      let '(s, resps, ok) := handleNewMessage s mPeer ins in (s, resp :: resps, ok)
                    else (s, [], false)
                end
            end
        end
  end.
End handlers.

(** ** Closest peers *)

Section closest.
Context {ML : MaLib}.
Variables (self : peerID) (NearestPeers : bytes → nat → list peerID).

Lemma closestLoop_spec from count l acc :
  length acc < count →
  closestLoop self from count l acc = take count (acc ++ filter (λ p, p ≠ self ∧ p ≠ from) l).
Proof.
  revert acc. induction l as [|p l IH]; intros acc Hl; cbn [closestLoop].
  { rewrite filter_nil, app_nil_r, take_ge by lia. done. }
  rewrite filter_cons. destruct (decide (p = self)) as [->|Hs]; [rewrite decide_False by tauto; by apply IH|].
  destruct (decide (p = from)) as [->|Hf]; [rewrite decide_False by tauto; by apply IH|].
  rewrite (decide_True (P := p ≠ self ∧ p ≠ from)) by done.
  replace (acc ++ p :: filter (λ p, p ≠ self ∧ p ≠ from) l) with ((acc ++ [p]) ++ filter (λ p, p ≠ self ∧ p ≠ from) l)
    by (by rewrite <-app_assoc).
  case_decide as Hc; rewrite length_app in Hc; cbn in Hc.
  - rewrite take_app_le by (rewrite length_app; cbn; lia). rewrite take_ge by (rewrite length_app; cbn; lia). done.
  - apply IH. rewrite length_app. cbn. lia.
Qed.

Lemma closestPeersToQuery_spec pmes from count :
  0 < count →
  closestPeersToQuery self NearestPeers pmes from count =
    take count (filter (λ p, p ≠ self ∧ p ≠ from) (NearestPeers (m_Key pmes) (count + 1))).
Proof.
  intros Hc. unfold closestPeersToQuery. case_decide as Hl; [|by apply closestLoop_spec].
  apply nil_length_inv in Hl as ->. by destruct count.
Qed.
End closest.

(** ** Records *)

Section records.
Context {ML : MaLib} {DL : DsLib} {DW : DsLaws} {PS : ProviderStore}.
Variables (self : peerID) (bucketSize : nat) (maxRecordAge : Z).
Variable enc32 : bytes → string.
Variables (Marshal : Record_ → option bytes) (Unmarshal : bytes → option Record_).
Variables (Validate : bytes → bytes → bool) (Select : bytes → list bytes → option nat).
Variable NearestPeers : bytes → nat → list peerID.
Variable peerAddrs : peerID → list MA.
Variable addrFilter : option (list MA → list MA).
Variable connectedness : peerID → Connectedness_.
Hypothesis Unmarshal_Marshal : ∀ r b, Marshal r = Some b → Unmarshal b = Some r.
Hypothesis enc32_component : ∀ k, k ≠ [] → component (enc32 k).
Hypothesis enc32_inj : Inj (=) (=) enc32.
Implicit Types (d : DS) (k : bytes) (r : Record_).

Notation dskey := (convertToDsKey enc32).

Lemma dskey_inj k k' : k ≠ [] → k' ≠ [] → dskey k = dskey k' → k = k'.
Proof.
  intros Hk Hk'. unfold convertToDsKey. rewrite !NewKey_component by auto. cbn. intros [= He].
  rewrite !string_app_nil_r in He. by apply enc32_inj.
Qed.

(** The record stored for a key. *)
Definition stored d k : option Record_ := ds_view d !! dskey k ≫= Unmarshal.

(** What is stored for a key is a valid record of this key. *)
Definition recordsOk d : Prop :=
  ∀ k b, k ≠ [] → ds_view d !! dskey k = Some b →
    ∃ r, Unmarshal b = Some r ∧ rec_Key r = k ∧ Validate k (rec_Value r) = true.

(** The record is older than [maxRecordAge], or has no time. *)
Definition tooOld (now : Z) r : Prop :=
  match rec_TimeReceived r with None => True | Some t => (time_Sub now t > maxRecordAge)%Z end.

Lemma checkRead_spec d k now :
  let '(d', res) := checkRead maxRecordAge enc32 Unmarshal d k now in
  ds_view d' = ds_view d ∧
  match res with
  | inl _ => True
  | inr None => ds_view d !! dskey k = None
  | inr (Some (r, bad)) => stored d k = Some r ∧ (bad = true ↔ tooOld now r)
  end.
Proof.
  unfold checkRead. pose proof (Get_view d (dskey k)) as Hv. pose proof (Get_result d (dskey k)) as Hr.
  destruct (ds_Get d (dskey k)) as [d' [[buf|]|]]; cbn in *; [|split; [done|by rewrite <-(Hr None eq_refl)]|done].
  destruct (Unmarshal buf) as [r|] eqn:Hu; [|done]. split; [done|]. split.
  - unfold stored. rewrite <-(Hr (Some buf) eq_refl). done.
  - unfold tooOld. destruct (rec_TimeReceived r); [apply bool_decide_eq_true|done].
Qed.

Lemma getRecord_spec d key :
  let '(d', res) := getRecordFromDatastore Unmarshal Validate d key in
  ds_view d' = ds_view d ∧
  match res with
  | inl e => e = ErrDatastore
  | inr o => o = (ds_view d !! key ≫= Unmarshal) ≫= λ r, if Validate (rec_Key r) (rec_Value r) then Some r else None
  end.
Proof.
  unfold getRecordFromDatastore. pose proof (Get_view d key) as Hv. pose proof (Get_result d key) as Hr.
  destruct (ds_Get d key) as [d' [[buf|]|]]; cbn in *; [|split; [done|by rewrite <-(Hr None eq_refl)]|done].
  rewrite <-(Hr (Some buf) eq_refl). cbn. destruct (Unmarshal buf) as [r|]; [|done]. cbn. by destruct (Validate _ _).
Qed.

(** [getLocal] returns a valid record of the key, the one that is stored. *)
Lemma getLocal_spec d k :
  let '(d', res) := getLocal enc32 Unmarshal Validate d k in
  ds_view d' = ds_view d ∧
  ∀ r, res = inr (Some r) → stored d k = Some r ∧ rec_Key r = k ∧ Validate k (rec_Value r) = true.
Proof using DW.
  unfold getLocal. pose proof (getRecord_spec d (dskey k)) as Hg. destruct (getRecordFromDatastore _ _ _ _) as [d' res].
  destruct Hg as [Hv Ho]. destruct res as [e|[r0|]]; [done| |done]. split; [done|]. intros r.
  destruct (decide (rec_Key r0 = k)) as [Hk|Hk]; [rewrite decide_False by (intros Hn; by apply Hn)|by rewrite decide_True by done].
  intros [= <-]. unfold stored. destruct (ds_view d !! dskey k ≫= Unmarshal) as [r1|]; [|done]. cbn in Ho.
  destruct (Validate (rec_Key r1) (rec_Value r1)) eqn:E; [|done]. injection Ho as <-. by rewrite <-Hk.
Qed.

(** The value replaces the one that is stored: it is the one that [Select]
    chooses, if the stored one is valid. *)
Definition supersedes d k (v : bytes) : Prop :=
  ∀ r, stored d k = Some r → Validate (rec_Key r) (rec_Value r) = true → Select k [v; rec_Value r] = Some 0.

(** The record is written: it supersedes the one that is stored. *)
Definition recordPut d k (v : bytes) (now : Z) d' : Prop :=
  supersedes d k v ∧ ∃ b, Marshal (mkRecord k v (Some now)) = Some b ∧ ds_view d' = <[dskey k := b]> (ds_view d).

Lemma putLocked_spec d r now :
  let '(d', err) := putLocked enc32 Marshal Unmarshal Validate Select d r now in
  (err ≠ None ∧ ds_view d' = ds_view d) ∨ recordPut d (rec_Key r) (rec_Value r) now d'.
Proof.
  unfold putLocked. pose proof (getRecord_spec d (dskey (rec_Key r))) as Hg.
  destruct (getRecordFromDatastore Unmarshal Validate d (dskey (rec_Key r))) as [d1 [e|o]]; destruct Hg as [Hv Ho]; [by left|].
  set (put := λ d : DS, match Marshal (mkRecord (rec_Key r) (rec_Value r) (Some now)) with
    | None => (d, Some ErrMarshal)
    | Some data => let '(d, ok) := ds_Put d (dskey (rec_Key r)) data in (d, if ok : bool then None else Some ErrDatastore)
    end).
  assert (supersedes d (rec_Key r) (rec_Value r) → let '(d', err) := put d1 in
    (err ≠ None ∧ ds_view d' = ds_view d) ∨ recordPut d (rec_Key r) (rec_Value r) now d') as Hput.
  { intros Hs. unfold put. destruct (Marshal _) as [b|] eqn:Hm; [|by left].
    pose proof (Put_view d1 (dskey (rec_Key r)) b) as Hok. pose proof (Put_view_failed d1 (dskey (rec_Key r)) b) as Hf.
    destruct (ds_Put _ _ _) as [d2 []]; cbn in *.
    - right. split; [done|]. exists b. by rewrite Hok, Hv.
    - destruct (Hf eq_refl) as [H1|H1]; [left; split; [done|]; by rewrite H1|].
      right. split; [done|]. exists b. by rewrite H1, Hv. }
  unfold supersedes, stored in *. destruct o as [ex|].
  - destruct (ds_view d !! dskey (rec_Key r) ≫= Unmarshal) as [r0|]; [|done]. cbn in Ho.
    destruct (Validate (rec_Key r0) (rec_Value r0)) eqn:Hval; [|done]. injection Ho as ->.
    destruct (Select (rec_Key r) _) as [i|] eqn:Hsel; [|by left]. case_decide as Hi; [by left|]. apply Hput.
    intros r' [= <-] _. rewrite Hsel. f_equal. destruct i; [done|]. by destruct Hi.
  - apply Hput. intros r' Hr' Hval. rewrite Hr' in Ho. cbn in Ho. by rewrite Hval in Ho.
Qed.

(** *** The handlers of values *)

Notation handleGetValue := (handleGetValue self bucketSize maxRecordAge enc32 Unmarshal NearestPeers peerAddrs connectedness).
Notation handlePutValue := (handlePutValue enc32 Marshal Unmarshal Validate Select).

(** How a datastore of records may change: nothing, a record of a key is
    replaced by one that supersedes it, or one that is too old is removed. *)
Definition recordStep (now : Z) d d' : Prop :=
  ds_view d' = ds_view d ∨
  (∃ k v, k ≠ [] ∧ Validate k v = true ∧ recordPut d k v now d') ∨
  (∃ k r, stored d k = Some r ∧ tooOld now r ∧ ds_view d' = delete (dskey k) (ds_view d)).

Lemma recordStep_ok now d d' : recordStep now d d' → recordsOk d → recordsOk d'.
Proof.
  intros [Hv|[(k & v & Hk & Hval & _ & b & Hm & Hv)|(k & r & _ & _ & Hv)]] Hd k' b' Hk' Hb'; rewrite Hv in Hb'.
  - by apply Hd.
  - destruct (decide (dskey k' = dskey k)) as [He|Hne].
    + apply dskey_inj in He as ->; [|done..]. rewrite lookup_insert_eq in Hb'. injection Hb' as <-. eexists. split; [by apply Unmarshal_Marshal|done].
    + rewrite lookup_insert_ne in Hb' by done. by apply Hd.
  - apply lookup_delete_Some in Hb' as [_ Hb']. by apply Hd.
Qed.

Lemma handleGetValue_step s p pmes now : recordStep now (dh_ds s) (dh_ds (handleGetValue s p pmes now).1).
Proof.
  unfold handleGetValue. case_decide; [by left|]. unfold checkLocalDatastore.
  pose proof (checkRead_spec (dh_ds s) (m_Key pmes) now) as Hc. destruct (checkRead _ _ _ _ _ _) as [d res].
  destruct Hc as [Hv Hc]. destruct res as [e|[[r bad]|]]; [by left| |by left].
  destruct Hc as [Hst Hbad]. destruct bad; [|by left]. cbn.
  assert (ds_view (ds_Delete d (dskey (m_Key pmes))).1 = ds_view d ∨
    ds_view (ds_Delete d (dskey (m_Key pmes))).1 = delete (dskey (m_Key pmes)) (ds_view d)) as [Hd|Hd].
  { destruct ((ds_Delete d (dskey (m_Key pmes))).2) eqn:E; [right; by apply Delete_view|by apply Delete_view_failed]. }
  - left. by rewrite Hd.
  - right. right. exists (m_Key pmes), r. split; [done|]. split; [by apply Hbad|]. by rewrite Hd, Hv.
Qed.

(** What [handlePutValue] does: an error and no change, or the record of the
    request is written; then an error can only be one of the datastore. *)
Lemma handlePutValue_spec s p pmes now :
  let '(s', r) := handlePutValue s p pmes now in
  dh_prov s' = dh_prov s ∧
  ((∃ e, r = inl e) ∧ ds_view (dh_ds s') = ds_view (dh_ds s) ∨
   ∃ rec, m_Record pmes = Some rec ∧ rec_Key rec = m_Key pmes ∧ m_Key pmes ≠ [] ∧
     Validate (m_Key pmes) (rec_Value rec) = true ∧ recordPut (dh_ds s) (m_Key pmes) (rec_Value rec) now (dh_ds s') ∧
     ∀ resp, r = inr resp → m_Record <$> resp = Some (Some (mkRecord (m_Key pmes) (rec_Value rec) (Some now)))).
Proof.
  assert (∀ e : hError, (∃ e', inl (B := option Message) e = inl e')) as Hinl by eauto.
  unfold handlePutValue. case_decide as Hl; [auto|]. destruct (m_Record pmes) as [rec|] eqn:Hrec; [|auto].
  case_decide as Hk; [auto|]. assert (rec_Key rec = m_Key pmes) as Hkey by (destruct (decide (m_Key pmes = rec_Key rec)); [done|by destruct Hk]).
  cbn [cleanRecord rec_Key rec_Value]. destruct (Validate (rec_Key rec) (rec_Value rec)) eqn:Hval; cbn [negb]; [|auto].
  pose proof (putLocked_spec (dh_ds s) (cleanRecord rec) now) as Hp. destruct (putLocked _ _ _ _ _ _ _ _) as [d err].
  assert (m_Key pmes ≠ []) as Hne by (intros Hn; rewrite Hn in Hl; by destruct Hl).
  destruct Hp as [[He Hv]|Hput].
  - destruct err; [|done]. split; [done|]. left. auto.
  - cbn in Hput. rewrite Hkey in *. destruct err; (split; [done|]); right; exists rec; split_and!; try done.
    intros resp Hr. by injection Hr as <-.
Qed.

Lemma handlePutValue_step s p pmes now : recordStep now (dh_ds s) (dh_ds (handlePutValue s p pmes now).1).
Proof.
  pose proof (handlePutValue_spec s p pmes now) as Hp. destruct (handlePutValue s p pmes now) as [s' r].
  destruct Hp as [_ [[_ Hv]|(rec & _ & _ & Hk & Hval & Hput & _)]]; [by left|].
  right. left. by exists (m_Key pmes), (rec_Value rec).
Qed.


(** What is put can be read.  After a [PUT_VALUE] request that is answered,
    a [GET_VALUE] request for the key within [maxRecordAge] is answered with
    the record that was put, unless the datastore fails. *)
Theorem handlePutValue_handleGetValue s p pmes now s' resp q gmes now' :
  handlePutValue s p pmes now = (s', inr (Some resp)) → m_Key gmes = m_Key pmes →
  (time_Sub now' now ≤ maxRecordAge)%Z →
  (handleGetValue s' q gmes now').2 = inl ErrDatastore ∨
  ∃ resp' rec, (handleGetValue s' q gmes now').2 = inr (Some resp') ∧ m_Record pmes = Some rec ∧
    m_Record resp' = Some (mkRecord (m_Key pmes) (rec_Value rec) (Some now)) ∧ m_Record resp = m_Record resp'.
Proof.
  intros Hp Hk Hage. pose proof (handlePutValue_spec s p pmes now) as Hs. rewrite Hp in Hs.
  destruct Hs as [_ [[[e ?] _]|(rec & Hrec & Hkey & Hne & _ & [_ (b & Hm & Hv)] & Hresp)]]; [done|].
  specialize (Hresp _ eq_refl).
  unfold handleGetValue. rewrite Hk, decide_False by (intros Hl; by apply nil_length_inv in Hl).
  unfold checkLocalDatastore, checkRead. pose proof (Get_result (dh_ds s') (dskey (m_Key pmes))) as Hg.
  destruct (ds_Get (dh_ds s') (dskey (m_Key pmes))) as [d [r|]]; [|by left]. right. cbn in Hg.
  rewrite (Hg r eq_refl), Hv, lookup_insert_eq. rewrite (Unmarshal_Marshal _ _ Hm). cbn [rec_TimeReceived].
  rewrite bool_decide_eq_false_2 by lia. eexists _, rec. split; [done|]. split; [done|]. split; [done|].
  cbn in Hresp. by injection Hresp as ->.
Qed.
End records.

(** ** Peers and providers *)

Section peers.
Context {ML : MaLib} {MW : MaLaws} {DL : DsLib} {PS : ProviderStore} {PSW : ProviderStoreLaws}.
Variables (self : peerID) (bucketSize : nat).
Variable NearestPeers : bytes → nat → list peerID.
Variable peerAddrs : peerID → list MA.
Variable addrFilter : option (list MA → list MA).
Variable connectedness : peerID → Connectedness_.

(** The routing table returns distinct peers, the closest first. *)
Hypothesis Nearest_NoDup : ∀ k n, NoDup (NearestPeers k n).
Hypothesis Nearest_self : ∀ k n, k ∈ NearestPeers k n → head (NearestPeers k n) = Some k.

Lemma head_filter (P : peerID → Prop) `{∀ x, Decision (P x)} l x :
  head l = Some x → P x → head (filter P l) = Some x.
Proof. destruct l as [|y l]; [done|]. intros [= ->] Hx. by rewrite filter_cons_True. Qed.

Lemma PBPeers_ids (n : peerID → Connectedness_) (l : list AddrInfo) : pbp_Id <$> PeerInfosToPBPeers n l = ai_ID <$> l.
Proof.
  unfold PeerInfosToPBPeers, RawPeerInfosToPBPeers. induction l as [|[id addrs] l IH]; [done|].
  apply (f_equal2 cons); [done|exact IH].
Qed.

Lemma filter_AddrInfos (l : list peerID) :
  ai_ID <$> filter (λ pi, 0 < length (ai_Addrs pi)) (AddrInfos peerAddrs l) = filter (λ p, peerAddrs p ≠ []) l.
Proof.
  induction l as [|p l IH]; [done|]. unfold AddrInfos in *. rewrite fmap_cons, !filter_cons. cbn [ai_Addrs].
  destruct (peerAddrs p) as [|a as'] eqn:E; cbn [length].
  - rewrite decide_False by lia. rewrite decide_False by tauto. exact IH.
  - rewrite decide_True by lia. rewrite decide_True by done. rewrite fmap_cons. by rewrite IH.
Qed.

(** The answer to [FIND_NODE].  It has no duplicates and at most one more
    peer than a bucket; the target is in it exactly if its addresses are known,
    even if it is the node itself or the requester, and is then the first one;
    all others are peers of the routing table close to the target with known
    addresses, and neither the node nor the requester. *)
Theorem handleFindPeer_correct s from pmes now :
  m_Key pmes ≠ [] → 0 < bucketSize →
  ∃ resp, handleFindPeer self bucketSize NearestPeers peerAddrs connectedness s from pmes now = (s, inr (Some resp)) ∧
    let ids := pbp_Id <$> m_CloserPeers resp in
    NoDup ids ∧ length ids ≤ bucketSize + 1 ∧
    (m_Key pmes ∈ ids ↔ peerAddrs (m_Key pmes) ≠ []) ∧ (m_Key pmes ∈ ids → head ids = Some (m_Key pmes)) ∧
    (∀ p, p ∈ ids → p ≠ m_Key pmes →
       p ≠ self ∧ p ≠ from ∧ p ∈ NearestPeers (m_Key pmes) (bucketSize + 1) ∧ peerAddrs p ≠ []).
Proof.
  intros Hk Hb. unfold handleFindPeer. rewrite decide_False by (intros Hl; by apply nil_length_inv in Hl).
  eexists. split; [done|]. cbn [m_CloserPeers]. cbv zeta. rewrite PBPeers_ids, filter_AddrInfos.
  rewrite closestPeersToQuery_spec by done. set (t := m_Key pmes).
  set (C := take bucketSize (filter (λ p, p ≠ self ∧ p ≠ from) (NearestPeers t (bucketSize + 1)))).
  assert (∀ p, p ∈ C → p ≠ self ∧ p ≠ from ∧ p ∈ NearestPeers t (bucketSize + 1)) as HC.
  { intros p Hp%subseteq_take. apply list_elem_of_filter in Hp. tauto. }
  assert (NoDup C) as HnC by (eapply sublist_NoDup, sublist_take; by apply NoDup_filter).
  assert (t ∈ C → head C = Some t) as Hhead.
  { intros Ht. destruct (HC t Ht) as (H1 & H2 & H3). unfold C. destruct bucketSize as [|b]; [lia|].
    pose proof (head_filter (λ p, p ≠ self ∧ p ≠ from) _ t (Nearest_self t _ H3) (conj H1 H2)) as Hh.
    destruct (filter _ _); [done|]. by injection Hh as ->. }
  set (L := if decide (head C = Some t) then C else t :: C).
  assert (head L = Some t) as HhL by (unfold L; by case_decide).
  assert (NoDup L ∧ length L ≤ bucketSize + 1 ∧ ∀ p, p ∈ L → p = t ∨ p ∈ C) as (HnL & HlL & HL).
  { assert (length C ≤ bucketSize) by (unfold C; rewrite length_take; lia). unfold L. case_decide.
    - split_and!; [done|lia|by right].
    - split_and!; [|cbn; lia|intros p Hp; apply elem_of_cons in Hp; tauto]. apply NoDup_cons. split; [|done].
      intros Ht. auto. }
  split_and!.
  - by apply NoDup_filter.
  - etrans; [apply length_filter|done].
  - rewrite list_elem_of_filter. split; [by intros []|]. intros Ha. split; [done|]. destruct L; [done|]. injection HhL as ->. left.
  - rewrite list_elem_of_filter. intros [Ha _]. by apply head_filter.
  - intros p [Ha Hp]%list_elem_of_filter Hne. destruct (HL p Hp) as [->|HpC]; [done|]. destruct (HC p HpC) as (? & ? & ?). done.
Qed.

Lemma addProviderLoop_spec st p key pinfos success :
  let '(st', ok) := addProviderLoop addrFilter st p key pinfos success in
  (ok = true ↔ success = true ∨ ∃ pi, pi ∈ pinfos ∧ ai_ID pi = p ∧ ai_Addrs pi ≠ []) ∧
  (∀ k q, store_provs st' k q → store_provs st k q ∨ (k = key ∧ q = p)) ∧
  (∀ k q, store_provs st k q → store_provs st' k q) ∧
  ((∀ s k ai, (store_AddProvider s k ai).2 = true) → ok = true → success = true ∨ store_provs st' key p).
Proof.
  revert st success. induction pinfos as [|pi pinfos IH]; intros st success; cbn [addProviderLoop].
  { split_and!; [|auto|auto|auto]. split; [auto|]. intros [?|(pi & Hpi & _)]; [done|]. by apply elem_of_nil in Hpi. }
  case_decide as Hid.
  { specialize (IH st success). destruct (addProviderLoop _ _ _ _ _ _) as [st' ok]. destruct IH as (H1 & H2 & H3 & H4).
    split_and!; [|done..]. rewrite H1. split; intros [?|(pi' & Hpi & Hr)]; auto; right; exists pi'; split; auto; [by right|].
    apply elem_of_cons in Hpi as [->|?]; [|done]. by destruct Hr. }
  case_decide as Hl.
  { specialize (IH st success). destruct (addProviderLoop _ _ _ _ _ _) as [st' ok]. destruct IH as (H1 & H2 & H3 & H4).
    split_and!; [|done..]. rewrite H1. split; intros [?|(pi' & Hpi & Hr)]; auto; right; exists pi'; split; auto; [by right|].
    apply elem_of_cons in Hpi as [->|?]; [|done]. destruct Hr as [_ Hr]. destruct (ai_Addrs pi); [done|cbn in Hl; lia]. }
  assert (ai_ID pi = p) as Hp by (destruct (decide (ai_ID pi = p)); [done|by destruct Hid]).
  set (ai := mkAddrInfo (ai_ID pi) (filterAddrs addrFilter (ai_Addrs pi))).
  pose proof (AddProvider_added st key ai) as Ha. pose proof (AddProvider_only st key ai) as Ho. pose proof (AddProvider_keeps st key ai) as Hk.
  destruct (store_AddProvider st key ai) as [st1 ok1] eqn:Est. cbn in Ha, Ho, Hk.
  specialize (IH st1 true). destruct (addProviderLoop _ _ _ _ _ _) as [st' ok]. destruct IH as (H1 & H2 & H3 & H4). split_and!.
  - rewrite H1. split; [|auto]. intros _. right. exists pi. split; [left|]. split; [done|]. intros Hn. rewrite Hn in Hl. cbn in Hl. lia.
  - intros k q [Hq|?]%H2; [|by right]. apply Ho in Hq as [?|[? ->]]; [by left|right]. by rewrite Hp.
  - intros k q Hq. by apply H3, Hk.
  - intros Hok _. right. apply H3. rewrite <-Hp. apply Ha. specialize (Hok st key ai). by rewrite Est in Hok.
Qed.

(** C22: Only a peer itself becomes a provider.  [ADD_PROVIDER] is accepted
    exactly if its key has 1 to 80 bytes and the message names the sender with
    an address; no one but the sender becomes a provider, and of nothing but
    the key; if the store works, the sender does when it is accepted. *)
Theorem handleAddProvider_correct s p pmes now :
  let '(s', r) := handleAddProvider addrFilter s p pmes now in
  dh_ds s' = dh_ds s ∧
  (r = inr None ↔ 1 ≤ length (m_Key pmes) ≤ maxProviderKey ∧
     ∃ pi, pi ∈ PBPeersToPeerInfos (m_ProviderPeers pmes) ∧ ai_ID pi = p ∧ ai_Addrs pi ≠ []) ∧
  (∀ k q, store_provs (dh_prov s') k q → store_provs (dh_prov s) k q ∨ (k = m_Key pmes ∧ q = p)) ∧
  ((∀ st k ai, (store_AddProvider st k ai).2 = true) → r = inr None → store_provs (dh_prov s') (m_Key pmes) p).
Proof.
  unfold handleAddProvider. case_decide as H80; [split_and!; [done|split; [done|lia]|auto|done]|].
  case_decide as H0; [split_and!; [done|split; [done|lia]|auto|done]|].
  pose proof (addProviderLoop_spec (dh_prov s) p (m_Key pmes) (PBPeersToPeerInfos (m_ProviderPeers pmes)) false) as Hl.
  destruct (addProviderLoop _ _ _ _ _ _) as [st ok]. destruct Hl as (H1 & H2 & H3 & H4). destruct ok; split_and!; try done.
  - split; [|done]. intros _. split; [lia|]. by destruct (proj1 H1 eq_refl).
  - intros Hok _. by destruct (H4 Hok eq_refl).
  - split; [done|]. intros [_ Hex]. by assert (false = true) by (apply H1; by right).
Qed.
End peers.

(** ** An example node

    Multiaddresses are integers, a record is encoded by its fields and their
    lengths, a value is valid if it is not empty. *)

#[local] Existing Instances okDs okDs_laws.
Local Open Scope Z_scope.

#[local] Instance demoMa : MaLib := {
  MA := Z; ma_Bytes z := [z]; NewMultiaddrBytes b := match b with [z] => Some z | _ => None end;
}.

#[local] Instance demoMa_laws : MaLaws.
Proof. by split. Qed.

#[local] Instance demoProviders : ProviderStore := {
  PST := list (bytes * AddrInfo);
  store_AddProvider st k ai := ((k, ai) :: st, true);
  store_GetProviders st k := (st, Some (snd <$> filter (λ e, e.1 = k) st));
  store_provs st k p := (k, p) ∈ (λ e, (e.1, ai_ID e.2)) <$> st;
}.

#[local] Instance demoProviders_laws : ProviderStoreLaws.
Proof.
  split; cbn; try done.
  - left.
  - intros s k ai k' p [[= -> ->]|H]%elem_of_cons; [by right|by left].
  - by right.
  - intros s k l ai [= <-] ([k' ai'] & -> & [Hk He]%list_elem_of_filter)%list_elem_of_fmap. cbn in *. subst k'.
    apply list_elem_of_fmap. by exists (k, ai').
Qed.

Fixpoint demoDigits (p : positive) : string :=
  match p with xH => "1" | xO p => String "0"%char (demoDigits p) | xI p => String "1"%char (demoDigits p) end.

Definition demoEnc32 (k : bytes) : string := demoDigits (encode k).

Lemma demoDigits_last p : demoDigits p ≠ ""%string.
Proof. by destruct p. Qed.

Lemma demoDigits_inj p q : demoDigits p = demoDigits q → p = q.
Proof.
  revert q. induction p as [p IH|p IH|]; intros [q|q|]; cbn; intros He; simplify_eq; try done; try (f_equal; auto);
    exfalso; by eapply demoDigits_last.
Qed.

Lemma demoEnc32_inj : Inj (=) (=) demoEnc32.
Proof. intros k k' He%demoDigits_inj. by apply (inj encode). Qed.

Lemma demoEnc32_component k : component (demoEnc32 k).
Proof.
  unfold demoEnc32. generalize (encode k). intros p. split; [induction p; by repeat split|]. by destruct p.
Qed.

Definition demoMarshal (r : Record_) : option bytes :=
  let 'mkRecord k v t := r in
  Some (Z.of_nat (length k) :: k ++ Z.of_nat (length v) :: v ++ match t with Some t => [t] | None => [] end).

Definition demoUnmarshal (b : bytes) : option Record_ :=
  match b with
  | [] => None
  | n :: b =>
      match drop (Z.to_nat n) b with
      | [] => None
      | m :: b' =>
          match drop (Z.to_nat m) b' with
          | [] => Some (mkRecord (take (Z.to_nat n) b) (take (Z.to_nat m) b') None)
          | [t] => Some (mkRecord (take (Z.to_nat n) b) (take (Z.to_nat m) b') (Some t))
          | _ => None
          end
      end
  end.

Lemma demoUnmarshal_Marshal r b : demoMarshal r = Some b → demoUnmarshal b = Some r.
Proof.
  destruct r as [k v t]. intros [= <-]. cbn [demoUnmarshal]. rewrite !Nat2Z.id, drop_app_length, take_app_length. cbn.
  rewrite !Nat2Z.id, drop_app_length, take_app_length. by destruct t.
Qed.

Definition demoValidate (k v : bytes) : bool := bool_decide (v ≠ []).
(** The larger sum is better. *)
Definition list_sum_Z (l : bytes) : Z := foldr Z.add 0 l.
Definition demoSelect (k : bytes) (l : list bytes) : option nat :=
  match l with [a; b] => Some (if decide (list_sum_Z a < list_sum_Z b) then 1%nat else 0%nat) | _ => None end.
Definition demoNearest (k : bytes) (n : nat) : list peerID :=
  let all := [[1]; [2]; [3]; [5]] in
  take n (if decide (k ∈ all) then k :: filter (λ p, p ≠ k) all else all).
Definition demoAddrs (p : peerID) : list MA := if decide (p = [2]) then [] else [7].
Definition demoState : dhtState := mkDht (∅ : gmap string bytes) ([] : list (bytes * AddrInfo)).
Definition demoPut (v : Z) : Message := mkMessage PUT_VALUE 1 [9] (Some (mkRecord [9] [v] None)) [] [].
Definition demoGet : Message := mkMessage GET_VALUE 1 [9] None [] [].

Notation demoStream := (handleNewMessage [0] 2 10 true true demoEnc32 demoMarshal demoUnmarshal
  demoValidate demoSelect demoNearest demoAddrs None (λ _, Connected)).


Definition demoPutState : dhtState :=
  (handlePutValue demoEnc32 demoMarshal demoUnmarshal demoValidate demoSelect demoState [3] (demoPut 1) 4).1.

Lemma handlePutValue_handleGetValue_witness :
  let r := (handleGetValue [0] 2 10 demoEnc32 demoUnmarshal demoNearest demoAddrs (λ _, Connected) demoPutState [4] demoGet 9).2 in
  r = inl ErrDatastore ∨
  ∃ resp' rec, r = inr (Some resp') ∧ m_Record (demoPut 1) = Some rec ∧
    m_Record resp' = Some (mkRecord [9] (rec_Value rec) (Some 4)) ∧ Some (mkRecord [9] [1] (Some 4)) = m_Record resp'.
Proof.
  apply (handlePutValue_handleGetValue [0] 2 10 demoEnc32 demoMarshal demoUnmarshal demoValidate demoSelect demoNearest demoAddrs
    (λ _, Connected) demoUnmarshal_Marshal demoState [3] (demoPut 1) 4 demoPutState
    (mkMessage PUT_VALUE 1 [9] (Some (mkRecord [9] [1] (Some 4))) [] []) [4] demoGet 9); [|done|by_compute].
  apply injective_projections; [reflexivity|vm_compute; reflexivity].
Defined.

(** A request of peer 3 for peer 5. *)
Lemma handleFindPeer_correct_witness :
  ∃ resp, handleFindPeer [0] 2 demoNearest demoAddrs (λ _, Connected) demoState [3]
      (mkMessage FIND_NODE 1 [5] None [] []) 0 = (demoState, inr (Some resp)) ∧
    let ids := pbp_Id <$> m_CloserPeers resp in
    NoDup ids ∧ (length ids ≤ 3)%nat ∧ ([5] ∈ ids ↔ demoAddrs [5] ≠ []) ∧ ([5] ∈ ids → head ids = Some [5]) ∧
    (∀ p, p ∈ ids → p ≠ [5] → p ≠ [0] ∧ p ≠ [3] ∧ p ∈ demoNearest [5] 3 ∧ demoAddrs p ≠ []).
Proof.
  apply (handleFindPeer_correct [0] 2 demoNearest demoAddrs (λ _, Connected)); [| |by_compute|lia].
  - intros k n. unfold demoNearest. cbv zeta. eapply sublist_NoDup, sublist_take. case_decide; [|by_compute]. apply NoDup_cons.
    split; [|apply NoDup_filter; by_compute]. rewrite list_elem_of_filter. tauto.
  - intros k n. unfold demoNearest. cbv zeta. case_decide as Hk; [destruct n; [intros Hn; by apply not_elem_of_nil in Hn|done]|]. by intros Hin%subseteq_take.
Defined.

(** Peer 3 names itself, without and with an address, and peer 4. *)
Definition demoAdd : Message :=
  mkMessage ADD_PROVIDER 1 [9] None [] [mkPBPeer [3] [] CONNECTED; mkPBPeer [4] [[7]] CONNECTED; mkPBPeer [3] [[1; 2]; [8]] CONNECTED].

Lemma handleAddProvider_correct_witness :
  let '(s, r) := handleAddProvider None demoState [3] demoAdd 0 in
  r = inr None ∧ store_provs (dh_prov s) [9] [3] ∧ (∀ k q, store_provs (dh_prov s) k q → k = [9] ∧ q = [3]).
Proof.
  pose proof (handleAddProvider_correct None demoState [3] demoAdd 0) as H.
  assert ((handleAddProvider None demoState [3] demoAdd 0).2 = inr None) as Hr by reflexivity.
  destruct (handleAddProvider None demoState [3] demoAdd 0) as [s r]. cbn in Hr. destruct H as (_ & _ & H1 & H2).
  split; [done|]. split; [by apply H2|]. intros k q [Hn|?]%H1; [|done]. by apply not_elem_of_nil in Hn.
Defined.

(** [checkLocalDatastore] removes a bad record outside the lock of its key: a
    record that is put between its read and its removal is lost, although the
    sender got its answer. *)
Example checkLocalDatastore_race :
  let old := dh_ds demoPutState in
  let '(d, r) := checkRead 10 demoEnc32 demoUnmarshal old [9] 20 in
  let '(s, resp) := handlePutValue demoEnc32 demoMarshal demoUnmarshal demoValidate demoSelect
    (mkDht d []) [3] (demoPut 2) 20 in
  let d' := (ds_Delete (dh_ds s) (convertToDsKey demoEnc32 [9])).1 in
  (∃ m, resp = inr (Some m)) ∧ r = inr (Some (mkRecord [9] [1] (Some 4), true)) ∧
  (checkLocalDatastore 10 demoEnc32 demoUnmarshal d' [9] 21).2 = inr None.
Proof. vm_compute. split; [by eexists|done]. Qed.
