(* ===== verification/Values.v ===== *)
(** * Putting and getting values

    The value operations of [routing.go]: [PutValue], [GetValue],
    [SearchValue], the selection of the best value and the correction of the
    peers that have an older one.

    The closest peers that a lookup returns, the replies it gets and the times
    are arguments.  A value channel is the list of the values that are sent on
    it; the position at which the context is done is an argument too.  The
    messages that are sent concurrently are sent one after the other, each to
    another peer. *)

From S2P Require Import Prelude GoTime Datastore DsKey Message Handlers.

(** [recvdVal] *)
Record recvdVal := mkRecvd { Val : bytes; From : peerID }.

(** What the loop of [processValues] receives: a value, with the choice between
    sending it on and the end of the context, or the end of the context. *)
Inductive pvEvent := PvVal (v : recvdVal) (sent : bool) | PvDone.

Inductive rError :=
| NotSupported | NotFound | CtxErr | OlderValue | Invalid | LookupErr
| HandlerErr (e : hError).

Section values.
Context {ML : MaLib} {DL : DsLib} {MS : MessageSender}.
Variables (self : peerID) (enableValues : bool).
Variable enc32 : bytes → string.
Variables (Marshal : Record_ → option bytes) (Unmarshal : bytes → option Record_).
Variables (Validate : bytes → bytes → bool) (Select : bytes → list bytes → option nat).

(** [processValues]; the value [nil] is the empty one, an error of [Select]
    skips the value. *)
Fixpoint processValues {S} (newVal : S → recvdVal → bool → bool → S * bool) (key : bytes) (st : S)
    (best : bytes) (peersWithBest : gset peerID) (evs : list pvEvent) : S * bytes * gset peerID * bool :=
  match evs with
  | [] => (st, best, peersWithBest, false)
  | PvDone :: _ => (st, best, peersWithBest, false)
  | PvVal v sent :: evs =>
      let continue (better : bool) best peersWithBest :=
        let '(st, aborted) := newVal st v better sent in
        if aborted : bool then (st, best, peersWithBest, true) else processValues newVal key st best peersWithBest evs in
      if decide (best ≠ []) then
        if decide (best = Val v) then continue false best ({[From v]} ∪ peersWithBest)
        else
          match Select key [best; Val v] with
          | None => processValues newVal key st best peersWithBest evs
          | Some sel =>
              if decide (sel ≠ 1) then continue false best peersWithBest
              else continue true (Val v) {[From v]}
          end
      else continue true (Val v) {[From v]}
  end.

(** The state of the closure of [searchValueQuorum]: [numResponses], what was
    sent on [out], and whether [stopCh] is closed. *)
Record quorumState := mkQuorum { numResponses : Z; out : list bytes; stopCh : bool }.

Definition quorumNewVal (nvals : Z) (st : quorumState) (v : recvdVal) (better sent : bool) : quorumState * bool :=
  let n := (numResponses st + 1)%Z in
  if better && negb sent then (mkQuorum n (out st) (stopCh st), false)
  else
    let o := if better then out st ++ [Val v] else out st in
    if decide (0 < nvals ∧ nvals < n)%Z then (mkQuorum n o true, true) else (mkQuorum n o (stopCh st), false).

(** [searchValueQuorum] *)
Definition searchValueQuorum (key : bytes) (nvals : Z) (evs : list pvEvent) : quorumState * bytes * gset peerID * bool :=
  processValues (quorumNewVal nvals) key (mkQuorum 0 [] false) [] ∅ evs.

(** The query function of [getValues]: what it sends on the channel, and what
    it returns. *)
Definition getValuesQuery (key : bytes) (p : peerID) (reply : pmError + option Record_ * list AddrInfo) :
    option recvdVal * (pmError + list AddrInfo) :=
  match reply with
  | inl err => (None, inl err)
  | inr (None, peers) => (None, inr peers)
  | inr (Some rec, peers) =>
      let val := rec_Value rec in
      if decide (val = []) then (None, inr peers)
      else if Validate key val then (Some (mkRecvd val p), inr peers) else (None, inr peers)
  end.

(** [getValues]: the values that are sent, for the replies to the lookup. *)
Definition getValues (d : DS) (key : bytes) (replies : list (peerID * (pmError + option Record_ * list AddrInfo))) :
    DS * list recvdVal :=
  let '(d, r) := getLocal enc32 Unmarshal Validate d key in
  let loc := match r with inr (Some rec) => [mkRecvd (rec_Value rec) self] | _ => [] end in
  (d, loc ++ omap (λ '(p, reply), (getValuesQuery key p reply).1) replies).

(** The values that are received if the context is done after [cut] of them. *)
Definition valEvents (vals : list recvdVal) (cut : option nat) : list pvEvent :=
  match cut with
  | None => (λ v, PvVal v true) <$> vals
  | Some n => ((λ v, PvVal v true) <$> take n vals) ++ [PvDone]
  end.

(** The end of the goroutine of [SearchValue]: the peers to correct, for the
    result of the lookup. *)
Definition searchUpdatePeers (best : bytes) (peersWithBest : gset peerID) (aborted : bool)
    (lookup : option (list peerID)) : list peerID :=
  if decide (best = []) then []
  else if aborted then []
  else
    match lookup with
    | None => []
    | Some peers => filter (λ p, p ∉ peersWithBest) peers
    end.

(** [SearchValue]: what is sent on the channel, and the value and the peers for
    [updatePeerValues]. *)
Definition SearchValue (d : DS) (key : bytes) (offline : bool) (quorum : Z)
    (replies : list (peerID * (pmError + option Record_ * list AddrInfo))) (cut : option nat) (lookup : option (list peerID)) :
    DS * (rError + list bytes * bytes * list peerID) :=
  if negb enableValues then (d, inl NotSupported)
  else
    let responsesNeeded := if offline then 0%Z else quorum in
    let '(d, vals) := getValues d key replies in
    let '(st, best, peersWithBest, aborted) := searchValueQuorum key responsesNeeded (valEvents vals cut) in
    (d, inr (out st, best, searchUpdatePeers best peersWithBest aborted lookup)).

(** [GetValue]: the last value of the channel. *)
Definition GetValue (d : DS) (key : bytes) (offline : bool) (quorum : Z)
    (replies : list (peerID * (pmError + option Record_ * list AddrInfo))) (cut : option nat) (lookup : option (list peerID))
    (ctxErr : bool) : DS * (bytes * option rError) :=
  if negb enableValues then (d, ([], Some NotSupported))
  else
    let '(d, r) := SearchValue d key offline quorum replies cut lookup in
    match r with
    | inl err => (d, ([], Some err))
    | inr (responses, _, _) =>
        let best := default [] (last responses) in
        (d, if ctxErr then (best, Some CtxErr) else if decide (best = []) then ([], Some NotFound) else (best, None))
    end.

(** [updatePeerValues]; errors are only logged.  [None]: a panic. *)
Fixpoint updatePeerValues (d : DS) (n : NET) (key val : bytes) (peers : list peerID) : option (DS * NET) :=
  match peers with
  | [] => Some (d, n)
  | p :: peers =>
      let fixupRec := mkRecord key val None in
      if decide (p = self) then updatePeerValues (putLocal enc32 Marshal d key fixupRec).1 n key val peers
      else '(n, _) ← pm_PutValue n p fixupRec; updatePeerValues d n key val peers
  end.

(** The goroutines of [PutValue]. *)
Fixpoint putToPeers (n : NET) (rec : Record_) (peers : list peerID) : option NET :=
  match peers with
  | [] => Some n
  | p :: peers => '(n, _) ← pm_PutValue n p rec; putToPeers n rec peers
  end.

(** [PutValue] up to the lookup: an error, or the record to send. *)
Definition PutValue_local (d : DS) (key value : bytes) (now : Z) : DS * (rError + Record_) :=
  if negb enableValues then (d, inl NotSupported)
  else if negb (Validate key value) then (d, inl Invalid)
  else
    let '(d, r) := getLocal enc32 Unmarshal Validate d key in
    match r with
    | inl err => (d, inl (HandlerErr err))
    | inr old =>
        let put :=
          let rec := mkRecord key value (Some now) in
          let '(d, err) := putLocal enc32 Marshal d key rec in
          (d, match err with Some err => inl (HandlerErr err) | None => inr rec end) in
        match old with
        | Some old =>
            if decide (rec_Value old ≠ value) then
              match Select key [value; rec_Value old] with
              | None => (d, inl (HandlerErr ErrSelect))
              | Some i => if decide (i ≠ 0) then (d, inl OlderValue) else put
              end
            else put
        | None => put
        end
    end.

(** [PutValue], with the result of [GetClosestPeers]. *)
Definition PutValue (d : DS) (n : NET) (key value : bytes) (now : Z) (closest : option (list peerID)) :
    option (DS * NET * option rError) :=
  let '(d, r) := PutValue_local d key value now in
  match r with
  | inl err => Some (d, n, Some err)
  | inr rec =>
      match closest with
      | None => Some (d, n, Some LookupErr)
      | Some peers => n ← putToPeers n rec peers; Some (d, n, None)
      end
  end.
End values.

(** ** The best value *)

Section best.
Variables (Validate : bytes → bytes → bool) (Select : bytes → list bytes → option nat).
Variables (key : bytes) (nvals : Z) (rank : bytes → Z).

(** No empty value is valid, and of two valid ones the validator selects the
    second one only if it is better. *)
Hypothesis Validate_nil : Validate key [] = false.
Hypothesis Select_rank : ∀ a b, Validate key a = true → Validate key b = true →
  Select key [a; b] = Some (if decide (rank a < rank b)%Z then 1 else 0).
Implicit Types (v : recvdVal) (vs : list recvdVal).

Abbreviation okVal := (λ v : recvdVal, Validate key (Val v) = true).
Abbreviation evsOf vs := ((λ v, PvVal v true) <$> vs).

(** The best value of a list of values: the first one with the largest rank. *)
Definition better (b : bytes) v : bytes := if decide (b = [] ∨ (rank b < rank (Val v))%Z) then Val v else b.
Definition bestOf vs : bytes := foldl better [] vs.
Definition holders (b : bytes) vs : gset peerID := list_to_set (From <$> filter (λ v, Val v = b) vs).

(** The values that are better than all before them. *)
Fixpoint improvements (b : bytes) vs : list bytes :=
  match vs with
  | [] => []
  | v :: vs => if decide (better b v = b) then improvements b vs else Val v :: improvements (better b v) vs
  end.

(** The values that are processed: [nvals + 1], if there is a limit. *)
Definition processed (done : nat) vs : list recvdVal :=
  if decide (0 < nvals)%Z then take (Z.to_nat (nvals + 1) - done) vs else vs.

Lemma okVal_nonempty b : Validate key b = true → b ≠ [].
Proof. intros Hb ->. by rewrite Validate_nil in Hb. Qed.

Lemma better_rank b v : okVal v → better b v ≠ [] ∧ (b ≠ [] → (rank b ≤ rank (better b v))%Z) ∧ (rank (Val v) ≤ rank (better b v))%Z.
Proof. intros Hv%okVal_nonempty. unfold better. case_decide as Hb; [naive_solver lia|]. split_and!; [tauto|lia|lia]. Qed.

Lemma bestOf_snoc vs v : bestOf (vs ++ [v]) = better (bestOf vs) v.
Proof. unfold bestOf. by rewrite foldl_app. Qed.

Lemma bestOf_spec vs :
  Forall okVal vs →
  (bestOf vs = [] ↔ vs = []) ∧ (vs ≠ [] → ∃ v, v ∈ vs ∧ Val v = bestOf vs) ∧
  ∀ v, v ∈ vs → (rank (Val v) ≤ rank (bestOf vs))%Z.
Proof.
  induction vs as [|v vs IH] using rev_ind; intros Hvs; [split_and!; [done|done|intros ? Hv; by apply not_elem_of_nil in Hv]|].
  apply Forall_app in Hvs as [Hvs Hv]. rewrite Forall_singleton in Hv. destruct (IH Hvs) as (H1 & H2 & H3).
  rewrite bestOf_snoc. destruct (better_rank (bestOf vs) v Hv) as (B1 & B2 & B3). split_and!.
  - split; [done|]. by destruct vs.
  - intros _. unfold better. case_decide as Hb; [exists v; rewrite elem_of_app, list_elem_of_singleton; auto|].
    destruct H2 as (w & Hw & He); [intros ->; apply Hb; by left|]. exists w. rewrite elem_of_app. auto.
  - intros w [Hw| ->%list_elem_of_singleton]%elem_of_app; [|done]. etrans; [by apply H3|]. apply B2.
    intros Hn. apply H1 in Hn as ->. by apply not_elem_of_nil in Hw.
Qed.

Lemma elem_of_holders b vs p : p ∈ holders b vs ↔ ∃ v, v ∈ vs ∧ Val v = b ∧ From v = p.
Proof.
  unfold holders. rewrite elem_of_list_to_set, list_elem_of_fmap. setoid_rewrite list_elem_of_filter. naive_solver.
Qed.

Lemma holders_snoc b vs v :
  holders b (vs ++ [v]) = (if decide (Val v = b) then {[From v]} else ∅) ∪ holders b vs.
Proof.
  apply set_eq. intros p. rewrite elem_of_union, !elem_of_holders. setoid_rewrite elem_of_app.
  setoid_rewrite list_elem_of_singleton. case_decide; set_solver.
Qed.

(** A value that is better than all others was not seen before. *)
Lemma holders_new vs v :
  Forall okVal vs → bestOf vs = [] ∨ (rank (bestOf vs) < rank (Val v))%Z → holders (Val v) vs = ∅.
Proof.
  intros Hvs Hb. destruct (bestOf_spec vs Hvs) as (H1 & _ & H3). apply set_eq. intros p.
  rewrite elem_of_holders. split; [|set_solver]. intros (w & Hw & He & _). exfalso. specialize (H3 w Hw). rewrite He in H3.
  destruct Hb as [Hb|Hb]; [|lia]. apply H1 in Hb as ->. by apply not_elem_of_nil in Hw.
Qed.

Lemma improvements_app b vs vs' : improvements b (vs ++ vs') = improvements b vs ++ improvements (foldl better b vs) vs'.
Proof.
  revert b. induction vs as [|v vs IH]; intros b; [done|]. cbn [app improvements foldl]. case_decide as Hb; [by rewrite Hb, IH|].
  by rewrite IH.
Qed.

(** What the closure and the loop hold after the values [vs]. *)
Definition quorumAfter vs (stop : bool) : quorumState := mkQuorum (Z.of_nat (length vs)) (improvements [] vs) stop.

Lemma quorumNewVal_after vs v :
  let b := bool_decide (better (bestOf vs) v ≠ bestOf vs) in
  let full := bool_decide (0 < nvals ∧ nvals < Z.of_nat (length vs) + 1)%Z in
  quorumNewVal nvals (quorumAfter vs false) v b true = (quorumAfter (vs ++ [v]) full, full).
Proof.
  cbv zeta. unfold quorumNewVal, quorumAfter. cbn [numResponses out stopCh]. rewrite andb_false_r.
  rewrite improvements_app, length_app, Nat2Z.inj_add. cbn [length improvements]. fold (bestOf vs).
  replace (if bool_decide (better (bestOf vs) v ≠ bestOf vs) then improvements [] vs ++ [Val v] else improvements [] vs)
    with (improvements [] vs ++ (if decide (better (bestOf vs) v = bestOf vs) then [] else [Val v])).
  2:{ case_decide; [rewrite bool_decide_eq_false_2 by tauto; by rewrite app_nil_r|by rewrite bool_decide_eq_true_2]. }
  case_decide as Hf; [by rewrite bool_decide_eq_true_2|by rewrite bool_decide_eq_false_2].
Qed.

(** One value. *)
Lemma processValues_step vs v evs :
  Forall okVal vs → okVal v →
  let full := bool_decide (0 < nvals ∧ nvals < Z.of_nat (length vs) + 1)%Z in
  let vs' := vs ++ [v] in
  processValues Select (quorumNewVal nvals) key (quorumAfter vs false) (bestOf vs) (holders (bestOf vs) vs) (PvVal v true :: evs) =
  if full then (quorumAfter vs' true, bestOf vs', holders (bestOf vs') vs', true)
  else processValues Select (quorumNewVal nvals) key (quorumAfter vs' false) (bestOf vs') (holders (bestOf vs') vs') evs.
Proof.
  intros Hvs Hv. pose proof (quorumNewVal_after vs v) as Hq. cbv zeta in *. cbn [processValues].
  set (full := bool_decide (0 < nvals ∧ _)%Z) in *. clearbody full. rewrite bestOf_snoc, holders_snoc.
  assert (bestOf vs = [] ∨ (rank (bestOf vs) < rank (Val v))%Z → better (bestOf vs) v = Val v) as Hnew.
  { intros ?. unfold better. by rewrite decide_True. }
  assert (¬ (bestOf vs = [] ∨ (rank (bestOf vs) < rank (Val v))%Z) → better (bestOf vs) v = bestOf vs) as Hold.
  { intros ?. unfold better. by rewrite decide_False. }
  assert (bestOf vs = [] ∨ (rank (bestOf vs) < rank (Val v))%Z → Val v ≠ bestOf vs) as Hne.
  { apply okVal_nonempty in Hv. intros [->|?] He; [done|]. rewrite He in *. lia. }
  assert (bestOf vs ≠ [] → Validate key (bestOf vs) = true) as Hbest.
  { destruct (bestOf_spec vs Hvs) as (H1 & H2 & _). intros Hb. destruct H2 as (w & Hw & <-); [by intros Hn%H1|].
    rewrite Forall_forall in Hvs. by apply Hvs. }
  destruct (decide (bestOf vs ≠ [])) as [Hb|Hb];
    [destruct (decide (bestOf vs = Val v)) as [He|He]; [|rewrite Select_rank by auto; destruct (decide (_ < _)%Z) as [Hr|Hr]]|].
  - rewrite Hold in * by (rewrite <-He; intros [?|?]; [done|lia]). rewrite bool_decide_eq_false_2 in Hq by tauto. rewrite Hq.
    rewrite decide_True by done. by destruct full.
  - rewrite (decide_False (P := 1 ≠ 1)) by lia. rewrite Hnew in * by auto. rewrite bool_decide_eq_true_2 in Hq by auto. rewrite Hq.
    rewrite decide_True by done. rewrite holders_new, (right_id_L ∅ (∪)) by auto. by destruct full.
  - rewrite (decide_True (P := 0 ≠ 1)) by lia. rewrite Hold in * by tauto. rewrite bool_decide_eq_false_2 in Hq by tauto. rewrite Hq.
    rewrite decide_False by done. rewrite (left_id_L ∅ (∪)). by destruct full.
  - assert (bestOf vs = []) as Hn by (destruct (bestOf vs); [done|by destruct Hb]).
    rewrite Hnew in * by auto. rewrite bool_decide_eq_true_2 in Hq by auto. rewrite Hq.
    rewrite decide_True by done. rewrite holders_new, (right_id_L ∅ (∪)) by auto. by destruct full.
Qed.

Lemma processValues_loop vs vs' (end_ : list pvEvent) :
  Forall okVal vs → Forall okVal vs' → end_ = [] ∨ end_ = [PvDone] →
  (0 < nvals → Z.of_nat (length vs) ≤ nvals)%Z →
  let full := bool_decide (0 < nvals ∧ nvals < Z.of_nat (length vs + length vs'))%Z in
  let all := vs ++ processed (length vs) vs' in
  processValues Select (quorumNewVal nvals) key (quorumAfter vs false) (bestOf vs) (holders (bestOf vs) vs) (evsOf vs' ++ end_) =
  (quorumAfter all full, bestOf all, holders (bestOf all) all, full).
Proof.
  revert vs. induction vs' as [|v vs' IH]; intros vs Hvs Hvs' Hend Hn; cbv zeta.
  { cbn [length fmap list_fmap app]. rewrite bool_decide_eq_false_2 by lia.
    replace (vs ++ processed (length vs) []) with vs by (unfold processed; case_decide; by rewrite ?take_nil, app_nil_r).
    by destruct Hend as [-> | ->]. }
  apply Forall_cons in Hvs' as [Hv Hvs']. rewrite fmap_cons, <-app_comm_cons, processValues_step by done. cbv zeta.
  assert (Forall okVal (vs ++ [v])) as Hvs1 by (apply Forall_app; by rewrite Forall_singleton).
  case_bool_decide as Hf.
  - rewrite bool_decide_eq_true_2 by (cbn; lia). replace (vs ++ processed (length vs) (v :: vs')) with (vs ++ [v]); [done|].
    unfold processed. rewrite decide_True by lia. replace (Z.to_nat (nvals + 1) - length vs) with 1 by lia. done.
  - rewrite IH; [|done|done|done|rewrite length_app; cbn; lia]. cbv zeta. rewrite length_app. cbn [length].
    rewrite <-app_assoc. cbn [app]. replace (length vs + 1 + length vs') with (length vs + S (length vs')) by lia.
    replace (v :: processed (length vs + 1) vs') with (processed (length vs) (v :: vs')); [done|].
    unfold processed. case_decide; [|done]. replace (Z.to_nat (nvals + 1) - length vs) with (S (Z.to_nat (nvals + 1) - (length vs + 1))) by lia.
    done.
Qed.

Lemma searchValueQuorum_spec vs (cut : option nat) :
  Forall okVal vs →
  let all := from_option (λ n, take n vs) vs cut in
  let full := bool_decide (0 < nvals ∧ nvals < Z.of_nat (length all))%Z in
  let vs' := processed 0 all in
  searchValueQuorum Select key nvals (valEvents vs cut) =
  (quorumAfter vs' full, bestOf vs', holders (bestOf vs') vs', full).
Proof.
  intros Hvs. cbv zeta. unfold searchValueQuorum.
  destruct cut as [n|]; cbn [valEvents from_option].
  - apply (processValues_loop [] (take n vs) [PvDone]); [done|by apply Forall_take|auto|cbn; lia].
  - pose proof (processValues_loop [] vs []) as Hl. rewrite app_nil_r in Hl. apply Hl; [done|done|auto|cbn; lia].
Qed.

Lemma improvements_sorted b vs :
  Forall okVal vs →
  StronglySorted (λ x y, rank x < rank y)%Z (improvements b vs) ∧
  (b ≠ [] → Forall (λ x, rank b < rank x)%Z (improvements b vs)) ∧
  default b (last (improvements b vs)) = foldl better b vs.
Proof.
  revert b. induction vs as [|v vs IH]; intros b Hvs; [split_and!; [constructor|constructor|done]|].
  apply Forall_cons in Hvs as [Hv Hvs]. cbn [improvements foldl]. case_decide as Hb; [rewrite Hb; by apply IH|].
  assert (better b v = Val v) as Hbv by (unfold better in *; case_decide; [done|by destruct Hb]).
  rewrite Hbv in *. destruct (IH (Val v) Hvs) as (H1 & H2 & H3).
  specialize (H2 (okVal_nonempty _ Hv)). split_and!.
  - constructor; [done|auto].
  - intros Hne. assert (rank b < rank (Val v))%Z.
    { unfold better in Hbv. case_decide as Hd; [destruct Hd; [done|done]|by rewrite Hbv in Hb]. }
    constructor; [done|]. eapply Forall_impl; [exact H2|]. cbn. lia.
  - rewrite <-H3. rewrite last_cons. by destruct (last _).
Qed.
End best.

(** ** The values that are returned *)

Section get.
Context {ML : MaLib} {DL : DsLib} {DW : DsLaws}.
Variables (self : peerID) (enc32 : bytes → string) (Unmarshal : bytes → option Record_).
Variables (Validate : bytes → bytes → bool) (Select : bytes → list bytes → option nat).
Variables (key : bytes) (rank : bytes → Z).
Hypothesis Validate_nil : Validate key [] = false.
Hypothesis Select_rank : ∀ a b, Validate key a = true → Validate key b = true →
  Select key [a; b] = Some (if decide (rank a < rank b)%Z then 1 else 0).
Abbreviation reply := (pmError + option Record_ * list AddrInfo)%type.

Notation getValues := (getValues self enc32 Unmarshal Validate).

(** The values that are sent are valid: the local one and those of the replies. *)
Lemma getValues_spec d (replies : list (peerID * reply)) :
  let '(d', vals) := getValues d key replies in
  ds_view d' = ds_view d ∧ Forall (λ v, Validate key (Val v) = true) vals ∧
  ∀ p rec peers, (p, inr (Some rec, peers)) ∈ replies → Validate key (rec_Value rec) = true → mkRecvd (rec_Value rec) p ∈ vals.
Proof.
  unfold Values.getValues. pose proof (getLocal_spec enc32 Unmarshal Validate d key) as Hg.
  destruct (getLocal _ _ _ _ _) as [d' r]. destruct Hg as [Hv Hr]. split; [done|]. split.
  - apply Forall_app. split.
    + destruct r as [e|[rec|]]; [constructor| |constructor]. rewrite Forall_singleton. by destruct (Hr rec eq_refl) as (_ & _ & ?).
    + apply Forall_forall. intros v ([p [e|[[rec|] peers]]] & Hin & Hq)%list_elem_of_omap; try done. cbn in Hq.
      case_decide; [done|]. destruct (Validate key (rec_Value rec)) eqn:E; [|done]. by injection Hq as <-.
  - intros p rec peers Hin Hval. apply elem_of_app. right. apply list_elem_of_omap. eexists. split; [exact Hin|]. cbn.
    rewrite decide_False by (by eapply okVal_nonempty). by rewrite Hval.
Qed.

(** The values that are received before the context is done. *)
Definition received (vals : list recvdVal) (cut : option nat) : list recvdVal := from_option (λ n, take n vals) vals cut.

Lemma Forall_processed (P : recvdVal → Prop) n vals cut :
  Forall P vals → Forall P (processed n 0 (received vals cut)).
Proof.
  intros Hvals. assert (Forall P (received vals cut)) by (destruct cut; [by apply Forall_take|done]).
  unfold processed. case_decide; [by apply Forall_take|done].
Qed.

Lemma last_improvements vs :
  Forall (λ v, Validate key (Val v) = true) vs → last (improvements rank [] vs) = if decide (vs = []) then None else Some (bestOf rank vs).
Proof.
  intros Hvs. destruct (improvements_sorted _ key rank Validate_nil [] vs Hvs) as (_ & _ & Hl). fold (bestOf rank vs) in Hl.
  destruct (bestOf_spec _ key rank Validate_nil vs Hvs) as (Hb & _). case_decide as Hn; [by subst|].
  destruct (last (improvements rank [] vs)); cbn in Hl; [by f_equal|]. destruct Hn. apply Hb. done.
Qed.


(** The best value is returned.  Without a quorum and with a context that
    is not done, the value that [GetValue] returns is valid and at least as
    good as every valid value of a reply and the valid local record; there is
    an error only if there is no such value. *)
Theorem GetValue_best d (offline : bool) (replies : list (peerID * reply)) lookup :
  let '(d', (best, err)) := GetValue self true enc32 Unmarshal Validate Select d key offline 0 replies None lookup false in
  let loc := (getLocal enc32 Unmarshal Validate d key).2 in
  ds_view d' = ds_view d ∧
  match err with
  | None =>
      Validate key best = true ∧ (∀ rec, loc = inr (Some rec) → rank (rec_Value rec) ≤ rank best)%Z ∧
      ∀ p rec peers, (p, inr (Some rec, peers)) ∈ replies → Validate key (rec_Value rec) = true → (rank (rec_Value rec) ≤ rank best)%Z
  | Some e =>
      e = NotFound ∧ (∀ rec, loc ≠ inr (Some rec)) ∧
      ∀ p rec peers, (p, inr (Some rec, peers)) ∈ replies → Validate key (rec_Value rec) = false
  end.
Proof.
  unfold GetValue, SearchValue. cbn [negb]. pose proof (getValues_spec d replies) as Hg.
  assert (∀ rec, (getLocal enc32 Unmarshal Validate d key).2 = inr (Some rec) → mkRecvd (rec_Value rec) self ∈ (getValues d key replies).2) as Hl.
  { intros rec Hrec. unfold Values.getValues. destruct (getLocal _ _ _ _ _) as [d0 r]. cbn in *. subst r. left. }
  destruct (getValues d key replies) as [d' vals]. destruct Hg as (Hv & Hvals & Hin).
  replace (if offline then 0%Z else 0%Z) with 0%Z by (by destruct offline).
  rewrite (searchValueQuorum_spec Validate Select key 0 rank Validate_nil Select_rank vals None Hvals). cbv zeta. cbn [from_option].
  change (processed 0 0 vals) with vals. cbn [out quorumAfter]. rewrite (last_improvements vals Hvals).
  destruct (bestOf_spec _ key rank Validate_nil vals Hvals) as (H1 & H2 & H3). destruct (decide (vals = [])) as [Hn|Hn]; cbn [default].
  - rewrite decide_True by done. subst vals. split_and!; [done|done|intros rec Hrec; specialize (Hl _ Hrec); by apply not_elem_of_nil in Hl|].
    intros p rec peers Hp. apply not_true_iff_false. intros Hval. specialize (Hin p rec peers Hp Hval). by apply not_elem_of_nil in Hin.
  - rewrite decide_False by (by intros ?%H1). destruct (H2 Hn) as (v & Hvv & He). split_and!.
    + done.
    + rewrite Forall_forall in Hvals. rewrite <-He. by apply Hvals.
    + intros rec Hrec. by apply (H3 (mkRecvd (rec_Value rec) self)), Hl.
    + intros p rec peers Hp Hval. by apply (H3 (mkRecvd (rec_Value rec) p)), (Hin p rec peers).
Qed.
End get.

(** ** Examples *)

#[local] Existing Instances okDs okDs_laws demoMa.
Local Open Scope Z_scope.

(** Peer 1 has an old value, peer 2 an invalid one, peers 3 and 4 the best. *)
Definition demoReply (v : bytes) : pmError + option Record_ * list AddrInfo := inr (Some (mkRecord [9] v None), []).
Definition demoReplies : list (peerID * (pmError + option Record_ * list AddrInfo)) :=
  [([1], demoReply [1]); ([2], demoReply []); ([3], demoReply [4]); ([5], inl PmSend); ([4], demoReply [4])].
Definition demoLocal : DS := dh_ds demoPutState.

Lemma demoSelect_rank (a b : bytes) : demoSelect [9] [a; b] = Some (if decide (list_sum_Z a < list_sum_Z b) then 1%nat else 0%nat).
Proof. done. Qed.


Lemma GetValue_best_witness :
  let '(d', (best, err)) := GetValue [0] true demoEnc32 demoUnmarshal demoValidate demoSelect demoLocal [9] false 0 demoReplies None None false in
  err = None ∧ best = [4] ∧ (list_sum_Z [4] ≤ list_sum_Z best).
Proof.
  pose proof (GetValue_best [0] demoEnc32 demoUnmarshal demoValidate demoSelect [9] list_sum_Z eq_refl (λ a b _ _, demoSelect_rank a b)
    demoLocal false demoReplies None) as H.
  assert ((GetValue [0] true demoEnc32 demoUnmarshal demoValidate demoSelect demoLocal [9] false 0 demoReplies None None false).2 =
    ([4], None)) as Hv by (vm_compute; reflexivity).
  destruct (GetValue _ _ _ _ _ _ _ _ _ _ _ _ _ _) as [d' [best err]]. cbn in Hv. injection Hv as -> ->. cbv zeta in H.
  destruct H as (_ & _ & _ & H). split; [done|]. split; [done|]. apply (H [3] (mkRecord [9] [4] None) []); [|done].
  right. right. left.
Defined.

(** With [Quorum(1)] a single response does not end the search: one more is
    needed. *)
Example searchValueQuorum_one_more :
  (searchValueQuorum demoSelect [9] 1 [PvVal (mkRecvd [1] [1]) true]).2 = false ∧
  (searchValueQuorum demoSelect [9] 1 [PvVal (mkRecvd [1] [1]) true; PvVal (mkRecvd [1] [2]) true]).2 = true.
Proof. by vm_compute. Qed.
