(* ===== verification/Network.v ===== *)
(** * A network of nodes

    The requests of [pb/protocol_messenger.go] and the operations of
    [routing.go] against nodes that answer them with the handlers of
    [handlers.go]: an instance of [MessageSender] whose network is a map from
    peers to the states of their nodes.  A node that is not in the map cannot
    be reached. *)

From S2P Require Import Prelude GoTime Datastore DsKey Message Handlers Values.

Section network.
Context {ML : MaLib} {DL : DsLib} {DW : DsLaws} {PS : ProviderStore}.
Variables (bucketSize : nat) (maxRecordAge : Z) (enableProviders : bool).
Variable enc32 : bytes → string.
Variables (Marshal : Record_ → option bytes) (Unmarshal : bytes → option Record_).
Variables (Validate : bytes → bytes → bool) (Select : bytes → list bytes → option nat).
Variable NearestPeers : peerID → bytes → nat → list peerID.
Variable peerAddrs : peerID → peerID → list MA.
Variable addrFilter : option (list MA → list MA).
Variable connectedness : peerID → peerID → Connectedness_.
Implicit Types (n : gmap peerID dhtState) (p : peerID).

(** A message from [from] is read from a new stream by node [p]. *)
Definition deliver (now : Z) (from : peerID) n p (m : Message) : gmap peerID dhtState * option Message :=
  match n !! p with
  | None => (n, None)
  | Some s =>
      let '(s, resps, _) := handleNewMessage p bucketSize maxRecordAge true enableProviders enc32 Marshal Unmarshal Validate Select
        (NearestPeers p) (peerAddrs p) addrFilter (connectedness p) s from [mkInput true (ReadMsg m) now true] in
      (<[p := s]> n, head resps)
  end.

#[local] Instance nodeSender (now : Z) (from : peerID) : MessageSender := {
  NET := gmap peerID dhtState;
  SendRequest := deliver now from;
  SendMessage n p m := ((deliver now from n p m).1, bool_decide (is_Some (n !! p)));
}.

Hypothesis Unmarshal_Marshal : ∀ r b, Marshal r = Some b → Unmarshal b = Some r.
Hypothesis Marshal_total : ∀ k v t, is_Some (Marshal (mkRecord k v (Some t))).
Hypothesis get_ok : ∀ d key, is_Some (ds_Get d key).2.
Hypothesis put_ok : ∀ d key v, (ds_Put d key v).2 = true.

Notation supersedes := (supersedes enc32 Unmarshal Validate Select).
Notation holds d k v t := (stored enc32 Unmarshal d k = Some (mkRecord k v (Some t))).
Notation handlePutValue := (handlePutValue enc32 Marshal Unmarshal Validate Select).

(** A record that supersedes the one that is stored is accepted. *)
Lemma putLocked_accepts d k v now :
  supersedes d k v →
  ∃ d', putLocked enc32 Marshal Unmarshal Validate Select d (mkRecord k v None) now = (d', None) ∧ holds d' k v now.
Proof.
  intros Hs. unfold putLocked. cbn [rec_Key rec_Value]. pose proof (getRecord_spec Unmarshal Validate d (convertToDsKey enc32 k)) as Hg.
  assert (∃ d1 o, getRecordFromDatastore Unmarshal Validate d (convertToDsKey enc32 k) = (d1, inr o)) as (d1 & o & Hget).
  { unfold getRecordFromDatastore. destruct (get_ok d (convertToDsKey enc32 k)) as [r Hr]. destruct (ds_Get _ _) as [d1 r'].
    cbn in Hr. subst r'. destruct r as [buf|]; [|by eexists _, _]. by destruct (Unmarshal buf); eexists _, _. }
  rewrite Hget in *. destruct Hg as [Hv Ho]. destruct (Marshal_total k v now) as [b Hb]. rewrite Hb.
  pose proof (Put_view d1 (convertToDsKey enc32 k) b (put_ok _ _ _)) as Hp. pose proof (put_ok d1 (convertToDsKey enc32 k) b) as Hok.
  destruct (ds_Put d1 _ b) as [d2 ok]. cbn in Hp, Hok. subst ok.
  assert (holds d2 k v now) by (unfold stored; rewrite Hp, lookup_insert_eq; cbn; by apply Unmarshal_Marshal).
  destruct o as [ex|]; [|by eexists]. unfold Handlers.supersedes, stored in Hs.
  destruct (ds_view d !! _ ≫= Unmarshal) as [r0|] eqn:E; [|done]. cbn in Ho.
  destruct (Validate (rec_Key r0) (rec_Value r0)) eqn:Hval; [|done]. injection Ho as ->.
  rewrite (Hs r0) by done. rewrite decide_False by (intros Hn; by apply Hn). by eexists.
Qed.

Definition putMsg (rec : Record_) : Message := mkMessage PUT_VALUE 1 (rec_Key rec) (Some rec) [] [].

Lemma handlePutValue_accepts s p k v t now :
  k ≠ [] → Validate k v = true → supersedes (dh_ds s) k v →
  ∃ s', handlePutValue s p (putMsg (mkRecord k v t)) now = (s', inr (Some (putMsg (mkRecord k v (Some now))))) ∧ holds (dh_ds s') k v now.
Proof.
  intros Hk Hv Hs. unfold Handlers.handlePutValue. cbn [m_Key putMsg m_Record rec_Key rec_Value cleanRecord].
  rewrite decide_False by (intros Hl; by apply nil_length_inv in Hl). rewrite decide_False by (intros Hn; by apply Hn). rewrite Hv. cbn [negb].
  unfold cleanRecord. cbn [rec_Key rec_Value]. destruct (putLocked_accepts (dh_ds s) k v now Hs) as (d' & -> & Hd). eexists. split; [done|]. done.
Qed.

(** Whatever a node stores, a request to put a record does not crash the
    sender, and changes no other node. *)
Lemma pm_PutValue_node now from n p rec :
  ∃ n' e, pm_PutValue (MS := nodeSender now from) n p rec = Some (n', e) ∧ (∀ q, q ≠ p → (n' : gmap peerID dhtState) !! q = n !! q) ∧
    (n !! p = None → (n' : gmap peerID dhtState) !! p = None) ∧
    ∀ s, n !! p = Some s → ∃ s', (n' : gmap peerID dhtState) !! p = Some s' ∧
      (rec_Key rec ≠ [] → Validate (rec_Key rec) (rec_Value rec) = true → supersedes (dh_ds s) (rec_Key rec) (rec_Value rec) →
         e = None ∧ holds (dh_ds s') (rec_Key rec) (rec_Value rec) now).
Proof.
  unfold pm_PutValue. cbn [SendRequest nodeSender]. unfold deliver. change (mkMessage _ _ _ (Some rec) _ _) with (putMsg rec).
  destruct (n !! p) as [s|] eqn:Hn; [|by eexists _, _]. cbn [handleNewMessage si_server negb si_read m_Type putMsg handlerForMsgType].
  pose proof (handlePutValue_spec enc32 Marshal Unmarshal Validate Select s from (putMsg rec) now) as Hsp.
  pose proof (handlePutValue_accepts s from (rec_Key rec) (rec_Value rec) (rec_TimeReceived rec) now) as Hacc.
  replace (mkRecord (rec_Key rec) (rec_Value rec) (rec_TimeReceived rec)) with rec in Hacc by (by destruct rec).
  cbn [si_now]. destruct (handlePutValue s from (putMsg rec) now) as [s' r].
  assert (∀ q, q ≠ p → <[p := s']> n !! q = n !! q) as Hq by (intros q Hne; by rewrite lookup_insert_ne).
  destruct r as [e|[resp|]]; cbn [si_written head].
  - exists (<[p := s']> n), (Some PmSend). split_and!; [done|done|done|]. intros s0 [= <-]. exists s'. rewrite lookup_insert_eq. split; [done|].
    intros H1 H2 H3. by destruct (Hacc H1 H2 H3) as (? & [=] & _).
  - destruct Hsp as [_ [[[? ?] _]|(rec' & Hrec & _ & _ & _ & _ & Hresp)]]; [done|]. specialize (Hresp _ eq_refl). cbn in Hresp.
    injection Hresp as Hresp. cbn in Hrec. injection Hrec as <-. rewrite Hresp. cbn. rewrite decide_True by done.
    exists (<[p := s']> n), None. split_and!; [done|done|done|]. intros s0 [= <-]. exists s'. rewrite lookup_insert_eq. split; [done|].
    intros H1 H2 H3. by destruct (Hacc H1 H2 H3) as (s'' & [= <- _] & ?).
  - destruct Hsp as [_ [[[? ?] _]|(rec' & _ & _ & _ & _ & _ & Hresp)]]; [done|]. by specialize (Hresp _ eq_refl).
Qed.

(** The goroutines of [PutValue] reach every node. *)
Lemma putToPeers_node now from n k v t peers :
  k ≠ [] → Validate k v = true → NoDup peers →
  ∃ n', putToPeers (MS := nodeSender now from) n (mkRecord k v t) peers = Some n' ∧
    (∀ p, p ∉ peers → (n' : gmap peerID dhtState) !! p = n !! p) ∧
    ∀ p s, p ∈ peers → n !! p = Some s → supersedes (dh_ds s) k v →
      ∃ s', (n' : gmap peerID dhtState) !! p = Some s' ∧ holds (dh_ds s') k v now.
Proof.
  intros Hk Hv. revert n. induction peers as [|p peers IH]; intros n Hnd.
  { exists n. split_and!; [done|done|]. intros p s Hp. by apply not_elem_of_nil in Hp. }
  apply NoDup_cons in Hnd as [Hp Hnd]. cbn [putToPeers].
  destruct (pm_PutValue_node now from n p (mkRecord k v t)) as (n1 & e & -> & Ho & _ & Hs). cbn [mbind option_bind].
  destruct (IH n1 Hnd) as (n' & -> & Ho' & Hs'). exists n'. split_and!; [done| |].
  - intros q Hq. apply not_elem_of_cons in Hq as [? ?]. by rewrite Ho', Ho.
  - intros q s [->|Hq]%elem_of_cons Hn Hsup.
    + destruct (Hs s Hn) as (s' & Hs1 & Hacc). destruct (Hacc Hk Hv Hsup) as [_ ?]. exists s'. by rewrite Ho'.
    + apply (Hs' q s); [done| |done]. rewrite Ho; [done|]. intros ->. done.
Qed.

(** A node that stores a record answers with it. *)
Lemma pm_GetValue_node now from n p s k v t :
  n !! p = Some s → k ≠ [] → holds (dh_ds s) k v t → (time_Sub now t ≤ maxRecordAge)%Z →
  ∃ n' peers, pm_GetValue (MS := nodeSender now from) n p k = (n', inr (Some (mkRecord k v (Some t)), peers)).
Proof.
  intros Hn Hk Hst Hage. unfold pm_GetValue. cbn [SendRequest nodeSender]. unfold deliver. rewrite Hn.
  cbn [handleNewMessage si_server negb si_read m_Type NewMessage SetClusterLevel handlerForMsgType]. unfold handleGetValue.
  cbn [m_Key NewMessage SetClusterLevel]. rewrite decide_False by (intros Hl; by apply nil_length_inv in Hl).
  unfold checkLocalDatastore, checkRead. cbn [si_now].
  pose proof (Get_result (dh_ds s) (convertToDsKey enc32 k)) as Hr. destruct (get_ok (dh_ds s) (convertToDsKey enc32 k)) as [r Hget].
  destruct (ds_Get (dh_ds s) (convertToDsKey enc32 k)) as [d r']. cbn in Hget, Hr. subst r'. specialize (Hr r eq_refl). unfold stored in Hst.
  rewrite <-Hr in Hst. destruct r as [buf|]; [|done]. cbn in Hst. rewrite Hst. cbn [rec_TimeReceived].
  rewrite bool_decide_eq_false_2 by lia. cbn [si_written head]. eexists _, _. cbn [m_Record]. cbn [rec_Key]. by rewrite decide_True.
Qed.

(** The new value may replace the local one. *)
Definition mayReplace (d : DS) (k v : bytes) : Prop :=
  ∀ r, (getLocal enc32 Unmarshal Validate d k).2 = inr (Some r) → rec_Value r = v ∨ Select k [v; rec_Value r] = Some 0.

Lemma PutValue_local_spec d k v now :
  match PutValue_local true enc32 Marshal Unmarshal Validate Select d k v now with
  | (d', inl _) => ds_view d' = ds_view d ∧ ¬ (Validate k v = true ∧ mayReplace d k v)
  | (d', inr rec) =>
      rec = mkRecord k v (Some now) ∧ Validate k v = true ∧ mayReplace d k v ∧ holds d' k v now
  end.
Proof.
  unfold PutValue_local, mayReplace. cbn [negb]. destruct (Validate k v) eqn:Hval; cbn [negb]; [|split; [done|by intros [? _]]].
  pose proof (getLocal_spec enc32 Unmarshal Validate d k) as Hg.
  assert (∀ e, (getLocal enc32 Unmarshal Validate d k).2 ≠ inl e) as Hne.
  { intros e. unfold getLocal, getRecordFromDatastore. destruct (get_ok d (convertToDsKey enc32 k)) as [r Hr].
    destruct (ds_Get _ _) as [d1 r']. cbn in Hr. subst r'. destruct r as [buf|]; [|done]. destruct (Unmarshal buf) as [r|]; [|done].
    destruct (Validate (rec_Key r) (rec_Value r)); cbn; [by case_decide|done]. }
  destruct (getLocal enc32 Unmarshal Validate d k) as [d1 r]. destruct Hg as [Hv Hr]. cbn [snd] in *.
  destruct (Marshal_total k v now) as [b Hb]. unfold putLocal. rewrite Hb.
  pose proof (Put_view d1 (convertToDsKey enc32 k) b (put_ok _ _ _)) as Hp. pose proof (put_ok d1 (convertToDsKey enc32 k) b) as Hok.
  destruct (ds_Put d1 _ b) as [d2 ok]. cbn in Hp, Hok. subst ok.
  assert (holds d2 k v now) as Hh by (unfold stored; rewrite Hp, lookup_insert_eq; cbn; by apply Unmarshal_Marshal).
  destruct r as [e|[old|]]; [by destruct (Hne e)| |by split_and!].
  destruct (decide (rec_Value old = v)) as [He|He].
  { rewrite decide_False by (intros Hn; by apply Hn). split_and!; [done|done| |done]. intros r [= <-]. by left. }
  rewrite decide_True by done. destruct (Select k [v; rec_Value old]) as [i|] eqn:Hsel.
  - destruct (decide (i = 0)) as [->|Hi].
    + rewrite decide_False by (intros Hn; by apply Hn). split_and!; [done|done| |done]. intros r [= <-]. by right.
    + rewrite decide_True by done. split; [done|]. intros [_ Hm]. destruct (Hm old eq_refl) as [?|Hs]; [done|]. congruence.
  - split; [done|]. intros [_ Hm]. destruct (Hm old eq_refl) as [?|Hs]; [done|]. congruence.
Qed.

End network.

(** A peer can crash a node that puts a value: the answer to [PUT_VALUE]
    is used without a check that it has a record. *)
Theorem PutValue_panics {ML : MaLib} {DL : DsLib} {MS : MessageSender} enc32 Marshal Unmarshal Validate Select
    d (n : NET) key value now p peers rec d' n' resp :
  PutValue_local true enc32 Marshal Unmarshal Validate Select d key value now = (d', inr rec) →
  SendRequest n p (putMsg rec) = (n', Some resp) → m_Record resp = None →
  PutValue true enc32 Marshal Unmarshal Validate Select d n key value now (Some (p :: peers)) = None.
Proof.
  intros Hl Hs Hr. unfold PutValue. rewrite Hl. cbn [putToPeers]. unfold pm_PutValue.
  change (mkMessage _ _ _ (Some rec) _ _) with (putMsg rec). rewrite Hs. by rewrite Hr.
Qed.

(** ** Examples *)

#[local] Existing Instances okDs okDs_laws demoMa demoProviders.
Local Open Scope Z_scope.

(** Peer 1 has no record, peer 2 has an older one. *)
Definition demoNet : gmap peerID dhtState := <[[1] := demoState]> (<[[2] := demoPutState]> ∅).

Notation demoSender := (nodeSender 2 10 true demoEnc32 demoMarshal demoUnmarshal demoValidate demoSelect
  (λ _, demoNearest) (λ _, demoAddrs) None (λ _ _, Connected)).


(** A peer that answers requests without a record. *)
#[local] Instance emptySender : MessageSender := {
  NET := unit;
  SendRequest n p m := (n, Some (NewMessage (m_Type m) (m_Key m) 0));
  SendMessage n p m := (n, true);
}.

Lemma PutValue_panics_witness :
  PutValue (MS := emptySender) true demoEnc32 demoMarshal demoUnmarshal demoValidate demoSelect
    (∅ : gmap string bytes) tt [9] [3] 5 (Some [[1]]) = None.
Proof.
  apply (PutValue_panics (DL := okDs) (MS := emptySender) demoEnc32 demoMarshal demoUnmarshal demoValidate demoSelect (∅ : gmap string bytes) tt [9] [3] 5 [1] []
    (mkRecord [9] [3] (Some 5)) (PutValue_local (DL := okDs) true demoEnc32 demoMarshal demoUnmarshal demoValidate demoSelect (∅ : gmap string bytes) [9] [3] 5).1
    tt (NewMessage PUT_VALUE [9] 0)); [|reflexivity|reflexivity].
  apply injective_projections; [reflexivity|vm_compute; reflexivity].
Defined.
