(* ===== verification/Providing.v ===== *)
(** * Providing and finding

    The provider operations of [routing.go], [GetClosestPeers] of [lookup.go],
    [FindPeer] and [GetPublicKey] of [records.go].

    The result of a lookup, the replies to its queries and the state of the
    contexts are arguments.  The queries of [findProvidersAsyncRoutine] run
    concurrently: each is a thread that handles the providers of its reply one
    by one. *)

From S2P Require Import Prelude GoTime Datastore DsKey Message Handlers Values Network QPeerset.

(** ** Providing *)

(** The errors of [Provide] and of the contexts. *)
Inductive ctxError := DeadlineExceeded | Canceled.
Inductive provError := ProvNotSupported | ProvUndefined | ProvCtx (e : ctxError) | ProvLookup | ProvOptimistic.

(** The inner deadline of [classicProvide]: the end of the lookup. *)
Definition closerDeadline (deadline now : Z) : option Z :=
  let timeout := time_Sub deadline now in
  if decide (timeout < 0)%Z then None
  else if decide (timeout < 10 * Second)%Z then Some (time_Add deadline (Z.quot (- timeout) 10))
  else Some (time_Add deadline (- Second)).

Section providing.
Context {ML : MaLib} {MS : MessageSender} {PS : ProviderStore}.
Variables (self : peerID) (filteredAddrs : list MA) (enableProviders enableOptProv : bool).

(** The goroutines of [classicProvide]; errors are only logged. *)
Fixpoint putProviders (n : NET) (key : bytes) (peers : list peerID) : NET :=
  match peers with
  | [] => n
  | p :: peers => putProviders (pm_PutProviderAddrs n p key (mkAddrInfo self filteredAddrs)).1 key peers
  end.

(** [classicProvide], with the result of [GetClosestPeers] and the errors of the
    outer context when it returns and at the end. *)
Definition classicProvide (n : NET) (keyMH : bytes) (deadline : option Z) (now : Z)
    (closest : list peerID * option provError) (ctxErr1 ctxErr2 : option ctxError) : NET * option provError :=
  let send peers exceededDeadline :=
    let n := putProviders n keyMH peers in
    (n, if exceededDeadline : bool then Some (ProvCtx DeadlineExceeded) else ProvCtx <$> ctxErr2) in
  if decide (deadline ≫= (λ d, closerDeadline d now) = None ∧ is_Some deadline) then (n, Some (ProvCtx DeadlineExceeded))
  else
    match closest with
    | (peers, Some (ProvCtx DeadlineExceeded)) =>
        match ctxErr1 with
        | Some e => (n, Some (ProvCtx e))
        | None => send peers true
        end
    | (peers, None) => send peers false
    | (_, Some err) => (n, Some err)
    end.

(** [Provide]: the provider store, the network and the error.  [optimistic] is
    the result of [optimisticProvide], [None] if there is not enough data. *)
Definition Provide (st : PST) (n : NET) (key : option bytes) (brdcst : bool) (optimistic : option (option provError))
    (deadline : option Z) (now : Z) (closest : list peerID * option provError) (ctxErr1 ctxErr2 : option ctxError) :
    PST * NET * option provError :=
  if negb enableProviders then (st, n, Some ProvNotSupported)
  else
    match key with
    | None => (st, n, Some ProvUndefined)
    | Some keyMH =>
        let st := (store_AddProvider st keyMH (mkAddrInfo self [])).1 in
        if negb brdcst then (st, n, None)
        else
          let '(n, err) :=
            match enableOptProv, optimistic with
            | true, Some err => (n, err)
            | _, _ => classicProvide n keyMH deadline now closest ctxErr1 ctxErr2
            end in
          (st, n, err)
    end.
End providing.

(** The deadline of the lookup of [classicProvide] leaves a tenth of the
    time for the records, or a second if this is less; there is none exactly if
    the time is over. *)
Theorem closerDeadline_correct deadline now :
  in_int64 (deadline - now) →
  match closerDeadline deadline now with
  | None => (deadline < now)%Z
  | Some inner =>
      (now ≤ inner ≤ deadline)%Z ∧ (deadline - inner)%Z = Z.min Second ((deadline - now) / 10)
  end.
Proof.
  unfold in_int64, closerDeadline, time_Sub, time_Add. intros Hi. rewrite Z.min_r, Z.max_r by lia.
  pose proof (eq_refl : Second = 1000000000%Z) as Hs. case_decide; [lia|]. rewrite Z.quot_opp_l by lia.
  pose proof (Z.div_mod (deadline - now) 10). pose proof (Z.mod_pos_bound (deadline - now) 10).
  case_decide; [rewrite Z.quot_div_nonneg by lia|]; lia.
Qed.

(** *** Records in the network *)

Section provide_network.
Context {ML : MaLib} {MW : MaLaws} {DL : DsLib} {PS : ProviderStore} {PSW : ProviderStoreLaws}.
Variables (bucketSize : nat) (maxRecordAge : Z) (enc32 : bytes → string).
Variables (Marshal : Record_ → option bytes) (Unmarshal : bytes → option Record_).
Variables (Validate : bytes → bytes → bool) (Select : bytes → list bytes → option nat).
Variable NearestPeers : peerID → bytes → nat → list peerID.
Variable peerAddrs : peerID → peerID → list MA.
Variable addrFilter : option (list MA → list MA).
Variable connectedness : peerID → peerID → Connectedness_.
Hypothesis store_ok : ∀ st k ai, (store_AddProvider st k ai).2 = true.
Implicit Types (n : gmap peerID dhtState) (p : peerID).

Notation sender := (nodeSender bucketSize maxRecordAge true enc32 Marshal Unmarshal Validate Select NearestPeers peerAddrs
  addrFilter connectedness).
Notation provides n p key q := (from_option (λ s, store_provs (dh_prov s) key q) False ((n : gmap peerID dhtState) !! p)).

Lemma pm_PutProviderAddrs_node now self addrs n p key :
  addrs ≠ [] → 1 ≤ length key ≤ maxProviderKey →
  let n' := (pm_PutProviderAddrs (MS := sender now self) n p key (mkAddrInfo self addrs)).1 : gmap peerID dhtState in
  (is_Some (n !! p) → provides n' p key self) ∧ (∀ q k r, provides n q k r → provides n' q k r) ∧
  (∀ q k r, provides n' q k r → provides n q k r ∨ (q = p ∧ k = key ∧ r = self)) ∧ ∀ q, is_Some (n' !! q) ↔ is_Some (n !! q).
Proof.
  intros Ha Hk. unfold pm_PutProviderAddrs. cbn [ai_Addrs]. rewrite decide_False by (destruct addrs; [done|cbn; lia]).
  cbn [SendMessage nodeSender fst]. unfold deliver. destruct (n !! p) as [s|] eqn:Hn.
  2:{ cbn. split_and!; [by intros []|done|auto|done]. }
  cbn [handleNewMessage si_server negb si_read m_Type NewMessage SetClusterLevel handlerForMsgType]. unfold handleAddProvider.
  cbn [m_Key m_ProviderPeers NewMessage SetClusterLevel]. rewrite !decide_False by (unfold maxProviderKey in *; lia).
  rewrite PBPeers_raw.
  pose proof (addProviderLoop_spec addrFilter (dh_prov s) self key [mkAddrInfo self addrs] false) as Hl.
  destruct (addProviderLoop _ _ _ _ _ _) as [st ok]. destruct Hl as (H1 & H2 & H3 & H4).
  assert (ok = true) as -> by (apply H1; right; eexists; split; [left|done]). destruct (H4 store_ok eq_refl) as [?|Hp]; [done|].
  cbn [si_written fst]. split_and!.
  - intros _. by rewrite lookup_insert_eq.
  - intros q k r. destruct (decide (q = p)) as [->|Hq]; [rewrite lookup_insert_eq, Hn; cbn; apply H3|by rewrite lookup_insert_ne].
  - intros q k r. destruct (decide (q = p)) as [->|Hq]; [rewrite lookup_insert_eq, Hn; cbn|rewrite lookup_insert_ne by done; auto].
    intros [?|[-> ->]]%H2; auto.
  - intros q. destruct (decide (q = p)) as [->|Hq]; [rewrite lookup_insert_eq, Hn; by split|by rewrite lookup_insert_ne].
Qed.

Lemma putProviders_node now self addrs n key peers :
  addrs ≠ [] → 1 ≤ length key ≤ maxProviderKey →
  let n' := putProviders (MS := sender now self) self addrs n key peers : gmap peerID dhtState in
  (∀ p, p ∈ peers → is_Some (n !! p) → provides n' p key self) ∧ (∀ q k r, provides n q k r → provides n' q k r) ∧
  (∀ q k r, provides n' q k r → provides n q k r ∨ (q ∈ peers ∧ k = key ∧ r = self)) ∧ ∀ q, is_Some (n' !! q) ↔ is_Some (n !! q).
Proof.
  intros Ha Hk. revert n. induction peers as [|p peers IH]; intros n; cbn [putProviders].
  { split_and!; [intros p Hp; by apply not_elem_of_nil in Hp|done|auto|done]. }
  destruct (pm_PutProviderAddrs_node now self addrs n p key Ha Hk) as (H1 & H2 & H3 & H4).
  destruct (IH (pm_PutProviderAddrs (MS := sender now self) n p key (mkAddrInfo self addrs)).1) as (I1 & I2 & I3 & I4). split_and!.
  - intros q [->|Hq]%elem_of_cons Hs; [by apply I2, H1|]. apply I1; [done|]. by apply H4.
  - intros q k r Hq. by apply I2, H2.
  - intros q k r [[?|(-> & -> & ->)]%H3|(? & -> & ->)]%I3; [by left|right; split; [left|done]|right; split; [by right|done]].
  - intros q. by rewrite I4.
Qed.

End provide_network.

(** ** Finding providers *)

Section find.
Context {ML : MaLib}.
Variable count : nat.
Implicit Types (ai : AddrInfo) (p : peerID).

Definition findAll : bool := bool_decide (count = 0).

(** The map [ps] and what was sent on the channel, the last one first. *)
Record findState := mkFind { ps : gmap peerID AddrInfo; peerOut : list AddrInfo }.
Implicit Types s : findState.

(** [psTryAdd] *)
Definition psTryAdd s ai : findState * bool :=
  let pi := ps s !! ai_ID ai in
  if decide ((pi = None ∨ (from_option (λ pi, length (ai_Addrs pi)) 1 pi = 0 ∧ 0 < length (ai_Addrs ai))) ∧
             (size (ps s) < count ∨ findAll = true))
  then (mkFind (<[ai_ID ai := ai]> (ps s)) (peerOut s), true)
  else (s, false).

Definition enough s : bool := negb findAll && bool_decide (count ≤ size (ps s)).

(** One iteration of a loop over providers: the provider is sent if it is new,
    unless the context is done ([sent] is false); [None] ends the loop by the
    context, otherwise the result says whether it goes on. *)
Definition findOne s ai (sent : bool) : findState * option bool :=
  let '(s, ok) := psTryAdd s ai in
  if ok && negb sent then (s, None)
  else
    let s := if ok then mkFind (ps s) (ai :: peerOut s) else s in
    (s, Some (negb (enough s))).

(** The loop over the providers of the store: whether the lookup is run. *)
Fixpoint findLocal s (provs : list AddrInfo) (sent : nat → bool) : findState * bool :=
  match provs with
  | [] => (s, true)
  | p :: provs =>
      match findOne s p (sent (length provs)) with
      | (s, Some true) => findLocal s provs sent
      | (s, _) => (s, false)
      end
  end.

(** The lookup: the state, the threads of the queries with the providers they
    still have to handle, and all providers that were received. *)
Record findSys := mkSysF { f_state : findState; f_threads : list (list AddrInfo); f_seen : list AddrInfo }.

(** A query gets a reply, or a thread handles a provider; the context is done
    only if it is not [live]. *)
Inductive findStep (live : bool) : findSys → findSys → Prop :=
| find_reply s ts provs seen :
    findStep live (mkSysF s ts seen) (mkSysF s (provs :: ts) (provs ++ seen))
| find_one s s' ts1 ai provs ts2 seen sent r :
    (live = true → sent = true) → findOne s ai sent = (s', r) →
    findStep live (mkSysF s (ts1 ++ (ai :: provs) :: ts2) seen)
      (mkSysF s' (ts1 ++ (if decide (r = Some true) then provs else []) :: ts2) seen).

(** [findProvidersAsyncRoutine] starts with the providers of the store. *)
Definition findStart (provs : list AddrInfo) (sent : nat → bool) : findSys :=
  mkSysF (findLocal (mkFind ∅ []) provs sent).1 [] provs.

(** *** What is sent *)

Definition sends s p : nat := length (filter (λ ai, ai_ID ai = p) (peerOut s)).

(** At most one entry per new provider and one for its addresses; the map has
    the last one sent or being sent. *)
Definition findOk s : Prop :=
  (findAll = false → size (ps s) ≤ count) ∧
  (∀ p, sends s p ≤ 2 ∧ (ps s !! p = None → sends s p = 0)) ∧
  (∀ p ai, ps s !! p = Some ai → ai_ID ai = p ∧ (ai_Addrs ai = [] → sends s p ≤ 1)).

Lemma findOne_ok s ai sent : findOk s → findOk (findOne s ai sent).1.
Proof.
  intros (H1 & H2 & H3). unfold findOne, psTryAdd. case_decide as Hc; cbn [andb].
  - destruct Hc as [Hnew Hroom].
    assert (findAll = false → size (<[ai_ID ai := ai]> (ps s)) ≤ count) as H1'.
    { intros Hf. specialize (H1 Hf). destruct (ps s !! ai_ID ai) eqn:E.
      - rewrite map_size_insert_Some by (by eexists). done.
      - rewrite map_size_insert_None by done. destruct Hroom; [lia|congruence]. }
    assert (sends s (ai_ID ai) ≤ 1 ∧ (ai_Addrs ai = [] → sends s (ai_ID ai) = 0)) as [Hs1 Hs0].
    { destruct (ps s !! ai_ID ai) as [pi|] eqn:E; cbn in Hnew.
      - destruct Hnew as [?|[Hp Ha]]; [done|]. destruct (H3 _ _ E) as [_ H3']. apply nil_length_inv in Hp.
        split; [by apply H3'|]. intros Hn. rewrite Hn in Ha. cbn in Ha. lia.
      - destruct (H2 (ai_ID ai)) as [_ ->]; [|done]. split; [lia|done]. }
    destruct sent; cbn [negb fst]; split_and!; cbn [ps peerOut]; try done.
    + intros p. specialize (H2 p). unfold sends in *. cbn [peerOut]. rewrite filter_cons. case_decide as Hp.
      * subst p. cbn [length]. split; [lia|]. by rewrite lookup_insert_eq.
      * split; [apply H2|]. rewrite lookup_insert_ne by done. apply H2.
    + intros p a. unfold sends in *. cbn [peerOut]. rewrite filter_cons. case_decide as Hp.
      * subst p. rewrite lookup_insert_eq. intros [= <-]. split; [done|]. intros Hn. cbn [length]. specialize (Hs0 Hn). lia.
      * rewrite lookup_insert_ne by done. apply H3.
    + intros p. specialize (H2 p). split; [apply H2|]. destruct (decide (p = ai_ID ai)) as [->|Hp].
      * by rewrite lookup_insert_eq.
      * rewrite lookup_insert_ne by done. apply H2.
    + intros p a. destruct (decide (p = ai_ID ai)) as [->|Hp].
      * rewrite lookup_insert_eq. intros [= <-]. split; [done|]. intros Hn. specialize (Hs0 Hn). unfold sends in *. cbn. lia.
      * rewrite lookup_insert_ne by done. apply H3.
  - done.
Qed.

Lemma findOne_out s ai sent a : a ∈ peerOut (findOne s ai sent).1 → a = ai ∨ a ∈ peerOut s.
Proof.
  unfold findOne, psTryAdd. case_decide; cbn [andb]; [|by right]. destruct sent; cbn; [|by right]. intros Ha%elem_of_cons. done.
Qed.

Lemma findLocal_ok s provs sent :
  findOk s → findOk (findLocal s provs sent).1 ∧ ∀ a, a ∈ peerOut (findLocal s provs sent).1 → a ∈ provs ∨ a ∈ peerOut s.
Proof.
  revert s. induction provs as [|ai provs IH]; intros s Hs; cbn [findLocal]; [auto|].
  pose proof (findOne_ok s ai (sent (length provs)) Hs) as Ho. pose proof (findOne_out s ai (sent (length provs))) as Hout.
  destruct (findOne s ai _) as [s' [[]|]]; cbn [fst] in *.
  - destruct (IH s' Ho) as [? Hi]. split; [done|]. intros a [?|[->|?]%Hout]%Hi; [left; by right|left; by left|by right].
  - split; [done|]. intros a [->|?]%Hout; [left; by left|by right].
  - split; [done|]. intros a [->|?]%Hout; [left; by left|by right].
Qed.

Definition findInv (f : findSys) : Prop :=
  findOk (f_state f) ∧ (∀ a, a ∈ peerOut (f_state f) → a ∈ f_seen f) ∧ (∀ t a, t ∈ f_threads f → a ∈ t → a ∈ f_seen f).

Lemma findStep_inv live f f' : findStep live f f' → findInv f → findInv f'.
Proof.
  intros [s ts provs seen|s s' ts1 ai provs ts2 seen sent r _ Hone] (H1 & H2 & H3); cbn in *.
  - split_and!; [done|intros a Ha; apply elem_of_app; auto|]. intros t a [->|Ht]%elem_of_cons Ha; apply elem_of_app; eauto.
  - assert (∀ a, a ∈ ai :: provs → a ∈ seen) as Ht by (intros a; apply H3, elem_of_app; right; left).
    pose proof (findOne_ok s ai sent H1) as Ho. pose proof (findOne_out s ai sent) as Hout. rewrite Hone in *. cbn in *. split_and!; cbn.
    + done.
    + intros a [->|?]%Hout; [apply Ht; left|auto].
    + intros t a [Hin|[->|Hin]%elem_of_cons]%elem_of_app Ha.
      * apply (H3 t); [apply elem_of_app; by left|done].
      * case_decide; [|by apply not_elem_of_nil in Ha]. apply Ht. by right.
      * apply (H3 t); [apply elem_of_app; right; by right|done].
Qed.

Lemma reachable_findInv live provs sent f : rtc (findStep live) (findStart provs sent) f → findInv f.
Proof.
  intros Hr. assert (findInv (findStart provs sent)) as H0.
  { assert (findOk (mkFind ∅ [])) as Hok.
    { split_and!; cbn; [intros _; rewrite map_size_empty; lia|intros p; split; [lia|done]|intros p a Hp; cbn in Hp; by rewrite lookup_empty in Hp]. }
    destruct (findLocal_ok (mkFind ∅ []) provs sent Hok) as [? Hout]. split_and!; [done| |intros t a Ht; by apply not_elem_of_nil in Ht].
    intros a [?|Ha]%Hout; [done|]. by apply not_elem_of_nil in Ha. }
  remember (findStart provs sent) as f0 eqn:E. clear E. induction Hr; [done|]. apply IHHr. by eapply findStep_inv.
Qed.

(** What [FindProviders] returns.  However the replies to the queries are
    interleaved and whenever the context ends, only providers that the store
    or a peer named are returned, at most [count] different ones (unless
    [count] is 0), and each at most twice: again only when its addresses were
    not known the first time. *)
Theorem findProviders_safe live provs sent f :
  rtc (findStep live) (findStart provs sent) f →
  (∀ a, a ∈ peerOut (f_state f) → a ∈ f_seen f) ∧
  (count ≠ 0 → length (remove_dups (ai_ID <$> peerOut (f_state f))) ≤ count) ∧
  (∀ p, sends (f_state f) p ≤ 2 ∧
     (sends (f_state f) p = 2 → ∃ a, ps (f_state f) !! p = Some a ∧ ai_Addrs a ≠ [])).
Proof.
  intros Hr%reachable_findInv. destruct Hr as ((H1 & H2 & H3) & Hout & _). split; [done|]. split.
  - intros Hc. etrans; [|apply H1; by apply bool_decide_eq_false_2]. rewrite <-size_dom.
    rewrite <-(size_list_to_set (C := gset peerID)) by apply NoDup_remove_dups. apply subseteq_size. intros p.
    rewrite elem_of_list_to_set, elem_of_remove_dups, list_elem_of_fmap. intros (a & -> & Ha). apply elem_of_dom.
    destruct (ps (f_state f) !! ai_ID a) eqn:E; [by eexists|]. exfalso. destruct (H2 (ai_ID a)) as [_ H0]. specialize (H0 E).
    apply nil_length_inv in H0. assert (a ∈ filter (λ ai, ai_ID ai = ai_ID a) (peerOut (f_state f))) as Hin.
    { by apply list_elem_of_filter. } rewrite H0 in Hin. by apply not_elem_of_nil in Hin.
  - intros p. split; [apply H2|]. intros Hs. destruct (ps (f_state f) !! p) as [a|] eqn:E.
    + exists a. split; [done|]. intros Hn. destruct (H3 p a E) as [_ H3']. specialize (H3' Hn). lia.
    + destruct (H2 p) as [_ H0]. specialize (H0 E). lia.
Qed.

(** The provider, or one with the same identity and with addresses if it has
    some, has been sent. *)
Definition handled s ai : Prop :=
  ∃ a, ps s !! ai_ID ai = Some a ∧ ai_ID a = ai_ID ai ∧ a ∈ peerOut s ∧ (ai_Addrs ai ≠ [] → ai_Addrs a ≠ []).

(** Every provider in the map has been sent. *)
Definition allSent s : Prop := ∀ p a, ps s !! p = Some a → ai_ID a = p ∧ a ∈ peerOut s.

Lemma findOne_all s ai :
  count = 0 → allSent s →
  ∃ s', findOne s ai true = (s', Some true) ∧ allSent s' ∧ handled s' ai ∧ ∀ b, handled s b → handled s' b.
Proof.
  intros Hc Hs. assert (findAll = true) as Hf by (unfold findAll; by apply bool_decide_eq_true_2).
  unfold findOne, psTryAdd, enough. rewrite Hf. case_decide as Hd; cbn [andb negb]; eexists; (split; [done|]).
  - destruct Hd as [Hnew _].
    assert (allSent (mkFind (<[ai_ID ai := ai]> (ps s)) (ai :: peerOut s))) as Hs'.
    { intros p a. cbn. destruct (decide (p = ai_ID ai)) as [->|Hp].
      - rewrite lookup_insert_eq. intros [= <-]. split; [done|left].
      - rewrite lookup_insert_ne by done. intros Ha. destruct (Hs p a Ha). split; [done|by right]. }
    split; [done|]. split; [exists ai; cbn; rewrite lookup_insert_eq; split_and!; [done|done|left|done]|].
    intros b (a & Ha & Hid & Hin & Had). destruct (decide (ai_ID b = ai_ID ai)) as [He|Hne].
    + exists ai. cbn. rewrite He, lookup_insert_eq. split_and!; [done|done|left|]. intros Hb. rewrite <-He, Ha in Hnew. cbn in Hnew.
      destruct Hnew as [?|[_ Hl]]; [done|]. intros Hn. rewrite Hn in Hl. cbn in Hl. lia.
    + exists a. cbn. rewrite lookup_insert_ne by done. split_and!; [done|done|by right|done].
  - split; [done|]. split; [|done]. destruct (ps s !! ai_ID ai) as [a|] eqn:E; [|exfalso; apply Hd; auto].
    destruct (Hs _ _ E). exists a. split_and!; [done|done|done|]. intros Ha Hn. apply Hd. split; [|by right]. right. cbn. rewrite Hn. split; [done|].
    destruct (ai_Addrs ai); [done|cbn; lia].
Qed.

Lemma findLocal_all s provs :
  count = 0 → allSent s →
  let s' := (findLocal s provs (λ _, true)).1 in
  allSent s' ∧ (∀ b, handled s b → handled s' b) ∧ ∀ b, b ∈ provs → handled s' b.
Proof.
  intros Hc. revert s. induction provs as [|ai provs IH]; intros s Hs; cbn [findLocal].
  { split_and!; [done|done|intros b Hb; by apply not_elem_of_nil in Hb]. }
  destruct (findOne_all s ai Hc Hs) as (s' & -> & Hs' & Hai & Hb). destruct (IH s' Hs') as (I1 & I2 & I3).
  split_and!; [done|auto|]. intros b [->|?]%elem_of_cons; auto.
Qed.

Definition allInv (f : findSys) : Prop :=
  allSent (f_state f) ∧ ∀ a, a ∈ f_seen f → handled (f_state f) a ∨ ∃ t, t ∈ f_threads f ∧ a ∈ t.

Lemma findStep_all f f' : count = 0 → findStep true f f' → allInv f → allInv f'.
Proof.
  intros Hc [s ts provs seen|s s' ts1 ai provs ts2 seen sent r Hlive Hone] [H1 H2]; cbn in *.
  - split; [done|]. intros a [Ha|Ha]%elem_of_app; cbn; [right; exists provs; split; [left|done]|].
    destruct (H2 a Ha) as [?|(t & ? & ?)]; [by left|right; exists t; split; [by right|done]].
  - rewrite (Hlive eq_refl) in Hone. destruct (findOne_all s ai Hc H1) as (s1 & Ho & Hs1 & Hai & Hb). rewrite Ho in Hone.
    injection Hone as <- <-. rewrite decide_True by done. split; [done|]. cbn. intros a Ha.
    destruct (H2 a Ha) as [?|(t & [Hin|[->|Hin]%elem_of_cons]%elem_of_app & Hat)]; [auto| | |].
    + right. exists t. split; [apply elem_of_app; by left|done].
    + apply elem_of_cons in Hat as [->|?]; [by left|]. right. exists provs. split; [apply elem_of_app; right; by left|done].
    + right. exists t. split; [apply elem_of_app; right; by right|done].
Qed.

(** Finding all providers.  With [count] 0 and a context that is not done,
    once the replies are handled every provider that the store or a peer named
    has been returned, and with addresses if anyone knew some. *)
Theorem findProviders_all provs f :
  count = 0 → rtc (findStep true) (findStart provs (λ _, true)) f → (∀ t, t ∈ f_threads f → t = []) →
  ∀ ai, ai ∈ f_seen f → ∃ a, a ∈ peerOut (f_state f) ∧ ai_ID a = ai_ID ai ∧ (ai_Addrs ai ≠ [] → ai_Addrs a ≠ []).
Proof.
  intros Hc Hr Hend ai Hai. assert (allInv (findStart provs (λ _, true))) as H0.
  { assert (allSent (mkFind ∅ [])) as Hs by (intros p a Hp; cbn in Hp; by rewrite lookup_empty in Hp).
    destruct (findLocal_all (mkFind ∅ []) provs Hc Hs) as (I1 & _ & I3). split; [done|]. intros a Ha. left. by apply I3. }
  assert (allInv f) as [_ Hinv].
  { remember (findStart provs (λ _, true)) as f0 eqn:E. clear E Hend Hai. induction Hr; [done|]. apply IHHr. by eapply findStep_all. }
  destruct (Hinv ai Hai) as [(a & _ & Hid & Hin & Had)|(t & Ht & Ha)]; [by exists a|].
  rewrite (Hend t Ht) in Ha. by apply not_elem_of_nil in Ha.
Qed.
End find.

(** ** Finding peers *)

Section peers.
Context {ML : MaLib}.

(** The results of a lookup: the peers, their states, and whether it was
    completed. *)
Variable enableValues : bool.
Variable hasValidConnectedness : peerID → bool.
Variable PeerInfo : peerID → AddrInfo.

Inductive findError := BadId | EmptyKey | LookupFailed | PeerNotFound | PubkNotSupported | PubkError.

(** [FindLocal]; the empty identity is the result of a failure. *)
Definition FindLocal (id : peerID) : AddrInfo :=
  if hasValidConnectedness id then PeerInfo id else mkAddrInfo [] [].

(** Whether the query of [FindPeer] has tried to dial the peer. *)
Fixpoint dialedPeerDuringQuery (id : peerID) (peers : list peerID) (state : list PeerState) : bool :=
  match peers, state with
  | p :: peers, st :: state =>
      if decide (p = id) then bool_decide (st = PeerQueried ∨ st = PeerUnreachable ∨ st = PeerWaiting)
      else dialedPeerDuringQuery id peers state
  | _, _ => false
  end.

(** [FindPeer], with the result of the lookup; [connectedAfter] is the
    connectedness after it. *)
Definition FindPeer (id : peerID) (lookup : option (list peerID * list PeerState)) (connectedAfter : bool) : findError + AddrInfo :=
  if decide (length id = 0) then inl BadId
  else
    let pi := FindLocal id in
    if decide (ai_ID pi ≠ []) then inr pi
    else
      match lookup with
      | None => inl LookupFailed
      | Some (peers, state) =>
          if dialedPeerDuringQuery id peers state || connectedAfter then inr (PeerInfo id) else inl PeerNotFound
      end.

(** [GetClosestPeers], with the result of the lookup and the error of the
    context: the peers, the error, and whether the result is tracked by the
    estimator and refreshes the bucket. *)
Definition GetClosestPeers (key : bytes) (lookup : option (list peerID * bool)) (ctxErr : option ctxError) :
    list peerID * option (findError + ctxError) * bool :=
  if decide (length key = 0) then ([], Some (inl EmptyKey), false)
  else
    match lookup with
    | None => ([], Some (inl LookupFailed), false)
    | Some (peers, completed) =>
        if decide (is_Some ctxErr ∨ completed = false) then (peers, inr <$> ctxErr, false) else (peers, None, true)
    end.

(** [GetPublicKey]: the results of [getPublicKeyFromNode] and
    [getPublicKeyFromDHT] in the order of their arrival. *)
Context {PubKey : Type}.
Variables (localPubKey : peerID → option PubKey) (UnmarshalPublicKey : bytes → option PubKey) (IDFromPublicKey : PubKey → option peerID).

Definition getPublicKeyFromNode (p : peerID) (reply : pmError + option Record_ * list AddrInfo) : option PubKey :=
  match localPubKey p with
  | Some pk => Some pk
  | None =>
      match reply with
      | inr (Some record, _) =>
          pubk ← UnmarshalPublicKey (rec_Value record);
          id ← IDFromPublicKey pubk;
          if decide (id ≠ p) then None else Some pubk
      | _ => None
      end
  end.

(** [val] is the result of [GetValue] with [Quorum(1)]. *)
Definition getPublicKeyFromDHT (val : bytes * option rError) : option PubKey :=
  match val with
  | (_, Some _) => None
  | (val, None) => UnmarshalPublicKey val
  end.

Definition GetPublicKey (p : peerID) (reply : pmError + option Record_ * list AddrInfo) (val : bytes * option rError) (nodeFirst : bool) :
    findError + PubKey :=
  if negb enableValues then inl PubkNotSupported
  else
    match localPubKey p with
    | Some pk => inr pk
    | None =>
        let r1 := getPublicKeyFromNode p reply in
        let r2 := getPublicKeyFromDHT val in
        let '(fst_, snd_) := if nodeFirst then (r1, r2) else (r2, r1) in
        match fst_ with
        | Some pk => inr pk
        | None => match snd_ with Some pk => inr pk | None => inl PubkError end
        end
    end.

(** The keys that the peerstore has belong to their peers, and so do the values
    that the validator of public keys accepts. *)
Hypothesis local_ok : ∀ p pk, localPubKey p = Some pk → IDFromPublicKey pk = Some p.

(** A public key belongs to its peer, whichever source answers first: the
    peer itself, or the value of its record, if the validator only accepts
    values that are the key of the peer. *)
Theorem GetPublicKey_correct p reply val nodeFirst pk :
  (∀ v, val = (v, None) → ∀ pk, UnmarshalPublicKey v = Some pk → IDFromPublicKey pk = Some p) →
  GetPublicKey p reply val nodeFirst = inr pk → IDFromPublicKey pk = Some p.
Proof.
  intros Hval. unfold GetPublicKey. destruct enableValues; [|done]. cbn [negb].
  destruct (localPubKey p) as [pk'|] eqn:Hl; [intros [= <-]; by apply local_ok|].
  assert (∀ pk, getPublicKeyFromNode p reply = Some pk → IDFromPublicKey pk = Some p) as Hn.
  { intros pk'. unfold getPublicKeyFromNode. rewrite Hl. destruct reply as [|[[record|] ?]]; try done.
    destruct (UnmarshalPublicKey _) as [pubk|]; [|done]. cbn. destruct (IDFromPublicKey pubk) as [id|] eqn:Hid; [|done]. cbn.
    destruct (decide (id = p)) as [->|Hne]; [rewrite decide_False by (intros H; by apply H)|by rewrite decide_True].
    by intros [= <-]. }
  assert (∀ pk, getPublicKeyFromDHT val = Some pk → IDFromPublicKey pk = Some p) as Hd.
  { intros pk'. unfold getPublicKeyFromDHT. destruct val as [v [e|]]; [done|]. by apply Hval. }
  destruct nodeFirst, (getPublicKeyFromNode p reply) eqn:E1, (getPublicKeyFromDHT val) eqn:E2; intros [= <-]; auto.
Qed.
End peers.

(** ** Examples *)

#[local] Existing Instances okDs demoMa demoMa_laws demoProviders demoProviders_laws.

Lemma closerDeadline_correct_witness : closerDeadline (5 * Second) 0 = Some (45 * Second / 10)%Z ∧
  (5 * Second - 45 * Second / 10)%Z = Z.min Second ((5 * Second - 0) / 10).
Proof.
  assert (in_int64 (5 * Second - 0)) as Hi by by_compute. pose proof (closerDeadline_correct (5 * Second) 0 Hi) as H.
  split; [reflexivity|]. change (closerDeadline (5 * Second) 0) with (Some (45 * Second / 10)%Z) in H. apply H.
Defined.

Definition demoSelfAddrs : list MA := [4%Z].

(** A node provides a key to peers 1 and 3, of which only peer 1 is reachable. *)
Definition demoProvide : PST * NET * option provError :=
  Provide (MS := demoSender 5 [0%Z]) [0%Z] demoSelfAddrs true false [] demoNet (Some [9%Z]) true None None 5 ([[1]; [3]]%Z, None) None None.


(** Peer 1 is in the store without addresses, a reply names it with one, and
    peer 2. *)
Definition demoProv1 : AddrInfo := mkAddrInfo [1%Z] [].
Definition demoProv1' : AddrInfo := mkAddrInfo [1%Z] [7%Z].
Definition demoProv2 : AddrInfo := mkAddrInfo [2%Z] [].
Definition demoF1 (count : nat) : findState := (findLocal count (mkFind ∅ []) [demoProv1] (λ _, true)).1.
Definition demoF2 (count : nat) : findState := (findOne count (demoF1 count) demoProv1' true).1.
Definition demoF3 (count : nat) : findState := (findOne count (demoF2 count) demoProv2 true).1.
Definition demoFind (count : nat) : findSys := mkSysF (demoF3 count) [[]] [demoProv1'; demoProv2; demoProv1].

Lemma demoFind_reach count : count = 0 ∨ count = 3 → rtc (findStep count true) (findStart count [demoProv1] (λ _, true)) (demoFind count).
Proof.
  intros Hc. change (findStart count [demoProv1] (λ _, true)) with (mkSysF (demoF1 count) [] [demoProv1]).
  assert (findOne count (demoF1 count) demoProv1' true = (demoF2 count, Some true)) as H1.
  { apply injective_projections; [reflexivity|]. destruct Hc as [-> | ->]; vm_compute; reflexivity. }
  assert (findOne count (demoF2 count) demoProv2 true = (demoF3 count, Some true)) as H2.
  { apply injective_projections; [unfold demoF3; generalize (demoF2 count); reflexivity|]. destruct Hc as [-> | ->]; vm_compute; reflexivity. }
  eapply rtc_l; [apply (find_reply _ _ _ _ [demoProv1'; demoProv2])|].
  eapply rtc_l; [apply (find_one count true _ _ [] demoProv1' [demoProv2] [] _ true (Some true) (λ _, eq_refl) H1)|].
  eapply rtc_l; [apply (find_one count true _ _ [] demoProv2 [] [] _ true (Some true) (λ _, eq_refl) H2)|].
  apply rtc_refl.
Qed.

Lemma findProviders_safe_witness :
  length (remove_dups (ai_ID <$> peerOut (f_state (demoFind 3)))) ≤ 3 ∧ sends (f_state (demoFind 3)) [1%Z] ≤ 2.
Proof.
  destruct (findProviders_safe 3 true [demoProv1] (λ _, true) (demoFind 3)) as (_ & H1 & H2); [apply demoFind_reach; auto|].
  split; [by apply H1|]. apply H2.
Defined.

Lemma findProviders_all_witness :
  ∃ a, a ∈ peerOut (f_state (demoFind 0)) ∧ ai_ID a = [1%Z] ∧ (ai_Addrs demoProv1' ≠ [] → ai_Addrs a ≠ []).
Proof.
  apply (findProviders_all 0 [demoProv1] (demoFind 0) eq_refl) with (ai := demoProv1'); [apply demoFind_reach; auto| |left].
  intros t Ht. by apply list_elem_of_singleton in Ht.
Defined.
