(* ===== verification/Optimistic.v ===== *)
(** * Optimistic provide

    [lookup_optim.go]: a provide that stores records during the lookup with
    peers that are close enough, and returns when some of the requests are
    done.  The distances and thresholds are floating-point numbers in the
    code; here the two comparisons with the thresholds are parameters.

    [waitForRPCs] runs concurrently with the goroutines of the requests and
    with those that free the leases of the pool of jobs; each event is a step
    of one of them.  [None] is an event that cannot happen, [Some None] a
    panic: a send on, or a second close of, the closed channel. *)

From S2P Require Import Prelude Message.

(** [addProviderRPCState] *)
Inductive addProviderRPCState := scheduled | success | failure.

#[export] Instance addProviderRPCState_eq_dec : EqDecision addProviderRPCState.
Proof. solve_decision. Defined.

Section stop.
Variables (bucketSize : nat) (closeEnough : peerID → bool) (avgBelowThreshold : list peerID → bool).
Abbreviation peerStates := (gmap peerID addProviderRPCState).
Implicit Types (ps : peerStates) (p : peerID).

(** The loops of [stopFn] and of [optimisticProvide] over the closest peers:
    the peers for which a goroutine is started. *)
Fixpoint schedule_ (want : peerID → bool) ps (closest : list peerID) : peerStates * list peerID :=
  match closest with
  | [] => (ps, [])
  | p :: closest =>
      match ps !! p with
      | Some _ => schedule_ want ps closest
      | None =>
          if want p then let '(ps, started) := schedule_ want (<[p := scheduled]> ps) closest in (ps, p :: started)
          else schedule_ want ps closest
      end
  end.

Definition scheduledAndSuccessCount ps : nat :=
  size (filter (λ e, e.2 = scheduled ∨ e.2 = success) ps).

(** [stopFn] *)
Definition stopFn ps (closest : list peerID) : peerStates * list peerID * bool :=
  let '(ps, started) := schedule_ closeEnough ps closest in
  (ps, started, if decide (bucketSize ≤ scheduledAndSuccessCount ps) then true else avgBelowThreshold closest).

(** The part of [optimisticProvide] after the lookup. *)
Definition scheduleRemaining ps (peers : list peerID) : peerStates * list peerID := schedule_ (λ _, true) ps peers.

(** [putProviderRecord] at its end. *)
Definition putDone ps p (ok : bool) : peerStates := <[p := if ok then success else failure]> ps.

(** The lookup of one provide: it calls [stopFn], requests end, and then the
    rest is scheduled. *)
Inductive optEvent := OeStopFn (closest : list peerID) | OeDone (p : peerID) (ok : bool) | OeLookupDone (peers : list peerID).

Definition lookupStep (s : peerStates * list peerID) (ev : optEvent) : option (peerStates * list peerID) :=
  let '(ps, started) := s in
  match ev with
  | OeStopFn closest => let '(ps, new, _) := stopFn ps closest in Some (ps, started ++ new)
  | OeDone p ok => if decide (p ∈ started) then Some (putDone ps p ok, started) else None
  | OeLookupDone peers => let '(ps, new) := scheduleRemaining ps peers in Some (ps, started ++ new)
  end.

Fixpoint lookupRun (s : peerStates * list peerID) (evs : list optEvent) : option (peerStates * list peerID) :=
  match evs with
  | [] => Some s
  | ev :: evs => s ← lookupStep s ev; lookupRun s evs
  end.

Definition startedOk (s : peerStates * list peerID) : Prop := NoDup s.2 ∧ ∀ p, p ∈ s.2 ↔ is_Some (s.1 !! p).

Lemma schedule_spec want ps closest started :
  startedOk (ps, started) →
  let '(ps', new) := schedule_ want ps closest in
  startedOk (ps', started ++ new) ∧ ∀ p, p ∈ closest → want p = true → p ∈ started ++ new.
Proof.
  revert ps started. induction closest as [|p closest IH]; intros ps started Hok; cbn [schedule_].
  { rewrite app_nil_r. split; [done|]. intros p Hp. by apply not_elem_of_nil in Hp. }
  destruct Hok as [Hnd Hdom]. destruct (ps !! p) as [st|] eqn:E.
  - specialize (IH ps started (conj Hnd Hdom)). destruct (schedule_ want ps closest) as [ps' new]. destruct IH as [I1 I2]. split; [done|].
    intros q [->|Hq]%elem_of_cons Hw; [|auto]. apply elem_of_app. left. apply Hdom. by eexists.
  - assert (p ∉ started) as Hp by (intros [? Hin]%Hdom; cbn in Hin; congruence). destruct (want p) eqn:Hw.
    + assert (startedOk (<[p := scheduled]> ps, started ++ [p])) as Hok'.
      { split; cbn.
        - apply NoDup_app. split_and!; [done| |apply NoDup_singleton]. intros x Hx ->%list_elem_of_singleton. done.
        - intros q. rewrite elem_of_app, list_elem_of_singleton. destruct (decide (q = p)) as [->|Hq].
          + rewrite lookup_insert_eq. split; [by eexists|auto].
          + rewrite lookup_insert_ne by done. rewrite Hdom. cbn. split; [by intros [?|?]|by left]. }
      specialize (IH _ _ Hok'). destruct (schedule_ want _ closest) as [ps' new]. rewrite <-app_assoc in IH. cbn in IH. destruct IH as [I1 I2].
      split; [done|]. intros q [->|Hq]%elem_of_cons Hw'; [apply elem_of_app; right; left|auto].
    + specialize (IH ps started (conj Hnd Hdom)). destruct (schedule_ want ps closest) as [ps' new]. destruct IH as [I1 I2]. split; [done|].
      intros q [->|Hq]%elem_of_cons Hw'; [congruence|auto].
Qed.

Lemma lookupStep_ok s ev s' : startedOk s → lookupStep s ev = Some s' → startedOk s' ∧ ∀ p, p ∈ s.2 → p ∈ s'.2.
Proof.
  destruct s as [ps started]. intros Hok. destruct ev as [closest|p ok|peers]; cbn.
  - unfold stopFn. pose proof (schedule_spec closeEnough ps closest started Hok) as Hs. destruct (schedule_ _ _ _) as [ps' new].
    intros [= <-]. split; [apply Hs|]. intros q Hq. cbn in *. apply elem_of_app. by left.
  - case_decide as Hp; [|done]. intros [= <-]. split; [|done]. destruct Hok as [Hnd Hdom]. split; [done|]. intros q. cbn in *. unfold putDone.
    destruct (decide (q = p)) as [->|Hq]; [rewrite lookup_insert_eq; by split|]. by rewrite lookup_insert_ne.
  - unfold scheduleRemaining. pose proof (schedule_spec (λ _, true) ps peers started Hok) as Hs. destruct (schedule_ _ _ _) as [ps' new].
    intros [= <-]. split; [apply Hs|]. intros q Hq. cbn in *. apply elem_of_app. by left.
Qed.

(** No peer gets the record twice.  Whatever the lookup passes to [stopFn]
    and whenever requests end, every peer is sent at most one request, the map
    of states has exactly the peers with one, and at the end all closest peers
    of the lookup have one. *)
Theorem optimisticProvide_once evs peers ps started :
  lookupRun (∅, []) (evs ++ [OeLookupDone peers]) = Some (ps, started) →
  NoDup started ∧ (∀ p, p ∈ started ↔ is_Some (ps !! p)) ∧ ∀ p, p ∈ peers → p ∈ started.
Proof.
  intros Hrun. assert (∀ s s', startedOk s → lookupRun s (evs ++ [OeLookupDone peers]) = Some s' →
    startedOk s' ∧ ∀ p, p ∈ peers → p ∈ s'.2) as Hgen.
  { clear Hrun. induction evs as [|ev evs IH]; intros s s' Hok; cbn [app lookupRun].
    - destruct (lookupStep s (OeLookupDone peers)) as [s1|] eqn:Hs; [|done]. cbn. intros [= <-].
      split; [by eapply lookupStep_ok|]. destruct s as [ps0 st0]. cbn in Hs. unfold scheduleRemaining in Hs.
      pose proof (schedule_spec (λ _, true) ps0 peers st0 Hok) as Hsp. destruct (schedule_ _ _ _) as [ps' new]. injection Hs as <-.
      intros p Hp. by apply Hsp.
    - destruct (lookupStep s ev) as [s1|] eqn:Hs; [|done]. cbn. apply IH. by eapply lookupStep_ok. }
  destruct (Hgen (∅, []) (ps, started)) as [[H1 H2] H3]; [|exact Hrun|done].
  split; [apply NoDup_nil_2|]. intros p. cbn. rewrite lookup_empty. split; [intros Hp; by apply not_elem_of_nil in Hp|by intros []].
Qed.
End stop.

(** ** Waiting for the requests *)

(** Where [waitForRPCs] is: in its first loop, in the second one with the
    number of iterations left, or returned. *)
Inductive waitPhase := WaitFirst | WaitRest (remaining : nat) | WaitReturned.

Record waitState := mkWait {
  w_running : nat;      (* requests that have not sent on the channel *)
  w_chan : nat;         (* what is in [doneChan] *)
  w_closed : bool;      (* whether it is closed *)
  w_done : nat;         (* [putProvDone] *)
  w_phase : waitPhase;
  w_consumers : nat;    (* goroutines of [consumeDoneChan] that wait for the channel, *)
  w_releasing : nat;    (* that have to release their lease, *)
  w_counting : nat;     (* and that have to count the request *)
  w_pool : nat;         (* leases in [optProvJobsPool] *)
}.

Section wait.
Variables (rpcCount returnThreshold poolSize : nat).

(** The threshold that [waitForRPCs] uses. *)
Definition threshold : nat := if decide (rpcCount < returnThreshold) then rpcCount else returnThreshold.

(** The state when [waitForRPCs] is called: [buffered] requests are done, other
    provides hold [pool] leases. *)
Definition waitStart (buffered pool : nat) : waitState :=
  mkWait (rpcCount - buffered) buffered false 0 WaitFirst 0 0 0 pool.

Inductive waitEvent :=
| WeSend      (* a request ends: [doneChan <- struct{}{}] *)
| WeReceive   (* [waitForRPCs] receives *)
| WeLease     (* [waitForRPCs] gets a lease *)
| WeReturn
| WeConsume   (* [consumeDoneChan] receives, *)
| WeRelease   (* releases its lease *)
| WeCount     (* and counts the request *)
| WePool (n : nat).  (* other provides change the pool *)

(** [putProvDone.Add(1)]; the channel is closed by the last request. *)
Definition countDone (s : waitState) (last : nat) (k : nat → bool → waitState) : option waitState :=
  let done := w_done s + 1 in
  if decide (done = last) then (if w_closed s then None else Some (k done true)) else Some (k done (w_closed s)).

Definition waitStep (s : waitState) (ev : waitEvent) : option (option waitState) :=
  let 'mkWait running chan closed done phase consumers releasing counting pool := s in
  match ev with
  | WeSend =>
      if decide (0 < running) then
        if closed then Some None
        else if decide (chan < returnThreshold)
        then Some (Some (mkWait (running - 1) (chan + 1) closed done phase consumers releasing counting pool)) else None
      else None
  | WeReceive =>
      match phase with
      | WaitFirst =>
          if decide (0 < chan) then
            let done := done + 1 in
            let phase := if decide (done = threshold) then WaitRest (rpcCount - done) else WaitFirst in
            Some (Some (mkWait running (chan - 1) closed done phase consumers releasing counting pool))
          else if closed then Some (Some (mkWait running chan closed done (WaitRest (rpcCount - done)) consumers releasing counting pool))
          else None
      | WaitRest (S remaining) =>
          if decide (0 < chan ∨ closed = true) then
            Some (countDone s rpcCount (λ done closed,
              mkWait running (chan - 1) closed done (WaitRest remaining) consumers releasing counting pool))
          else None
      | _ => None
      end
  | WeLease =>
      match phase with
      | WaitRest (S remaining) =>
          if decide (pool < poolSize)
          then Some (Some (mkWait running chan closed done (WaitRest remaining) (consumers + 1) releasing counting (pool + 1))) else None
      | _ => None
      end
  | WeReturn =>
      match phase with
      | WaitRest 0 => Some (Some (mkWait running chan closed done WaitReturned consumers releasing counting pool))
      | _ => None
      end
  | WeConsume =>
      if decide (0 < consumers ∧ (0 < chan ∨ closed = true))
      then Some (Some (mkWait running (chan - 1) closed done phase (consumers - 1) (releasing + 1) counting pool)) else None
  | WeRelease =>
      if decide (0 < releasing ∧ 0 < pool)
      then Some (Some (mkWait running chan closed done phase consumers (releasing - 1) (counting + 1) (pool - 1))) else None
  | WeCount =>
      if decide (0 < counting)
      then Some (countDone s rpcCount (λ done closed, mkWait running chan closed done phase consumers releasing (counting - 1) pool)) else None
  | WePool n =>
      if decide (consumers + releasing ≤ n ≤ poolSize)
      then Some (Some (mkWait running chan closed done phase consumers releasing counting n)) else None
  end.

(** Every request is running, in the channel, received or counted. *)
Definition waitInv (s : waitState) : Prop :=
  w_running s + w_chan s + w_releasing s + w_counting s + w_done s = rpcCount ∧ w_chan s ≤ returnThreshold ∧
  w_consumers s + w_releasing s ≤ w_pool s ≤ poolSize ∧
  match w_phase s with
  | WaitFirst => w_consumers s = 0 ∧ w_releasing s = 0 ∧ w_counting s = 0 ∧ w_closed s = false ∧ (w_done s < threshold ∨ rpcCount = 0)
  | WaitRest n => w_running s + w_chan s = n + w_consumers s ∧ threshold ≤ w_done s ∧ (w_closed s = true → w_done s = rpcCount)
  | WaitReturned => w_running s + w_chan s = w_consumers s ∧ threshold ≤ w_done s ∧ (w_closed s = true → w_done s = rpcCount)
  end.

Lemma threshold_le : threshold ≤ rpcCount ∧ threshold ≤ returnThreshold.
Proof. unfold threshold. case_decide; lia. Qed.

Lemma countDone_spec s k r :
  countDone s rpcCount k = r → w_done s < rpcCount → (w_closed s = true → w_done s = rpcCount) →
  ∃ c, r = Some (k (w_done s + 1) c) ∧ (c = true → w_done s + 1 = rpcCount).
Proof.
  intros <- Hd Hc. unfold countDone. destruct (w_closed s) eqn:E; [specialize (Hc eq_refl); lia|].
  case_decide; by eexists.
Qed.

Lemma waitStep_inv s ev r :
  waitInv s → waitStep s ev = Some r → ∃ s', r = Some s' ∧ waitInv s'.
Proof.
  destruct s as [running chan closed done phase consumers releasing counting pool].
  intros (H1 & H2 & H3 & H4). cbn in H1, H2, H3, H4. pose proof threshold_le as [T1 T2].
  destruct ev as [ | | | | | | |n]; cbn [waitStep].
  - case_decide as Hr; [|done]. destruct closed.
    { destruct phase; naive_solver lia. }
    case_decide; [|done]. intros [= <-]. eexists. split; [done|]. unfold waitInv. cbn.
    destruct phase; naive_solver lia.
  - destruct phase as [|[|remaining]|]; [|done| |done].
    + destruct H4 as (-> & -> & -> & -> & H4). case_decide; [|done]. intros [= <-]. eexists. split; [done|]. unfold waitInv. cbn.
      split_and!; [lia..|]. case_decide; [split_and!; [lia|lia|done]|split_and!; [done..|lia]].
    + case_decide as Hc; [|done]. intros [= <-]. destruct H4 as (H4 & H5 & H6).
      destruct (countDone_spec (mkWait running chan closed done (WaitRest (S remaining)) consumers releasing counting pool)
        (λ done closed, mkWait running (chan - 1) closed done (WaitRest remaining) consumers releasing counting pool) _ eq_refl)
        as (c & -> & Hcl); cbn [w_done w_closed] in *; [lia|done|]. eexists. split; [done|]. unfold waitInv. cbn. naive_solver lia.
  - destruct phase as [|[|remaining]|]; try done. case_decide; [|done]. intros [= <-]. eexists. split; [done|]. unfold waitInv. cbn. naive_solver lia.
  - destruct phase as [|[|remaining]|]; try done. intros [= <-]. eexists. split; [done|]. unfold waitInv. cbn. naive_solver lia.
  - case_decide as Hc; [|done]. intros [= <-]. eexists. split; [done|]. unfold waitInv. cbn.
    assert (0 < chan) by (destruct phase; naive_solver lia). destruct phase; naive_solver lia.
  - case_decide as Hc; [|done]. intros [= <-]. eexists. split; [done|]. unfold waitInv. cbn. destruct phase; naive_solver lia.
  - case_decide as Hc; [|done]. intros [= <-].
    destruct (countDone_spec (mkWait running chan closed done phase consumers releasing counting pool)
      (λ done closed, mkWait running chan closed done phase consumers releasing (counting - 1) pool) _ eq_refl)
      as (c & -> & Hcl); cbn [w_done w_closed] in *; [lia|destruct phase; naive_solver lia|]. eexists. split; [done|]. unfold waitInv. cbn.
    destruct phase; naive_solver lia.
  - case_decide as Hc; [|done]. intros [= <-]. eexists. split; [done|]. unfold waitInv. cbn. destruct phase; naive_solver lia.
Qed.

(** The steps of one provide, with those of the others on the pool. *)
Definition waitRel (s s' : waitState) : Prop := ∃ ev, waitStep s ev = Some (Some s').

Lemma waitStart_inv b pool : b ≤ rpcCount → b ≤ returnThreshold → pool ≤ poolSize → 0 < returnThreshold → waitInv (waitStart b pool).
Proof. intros. unfold waitInv, waitStart, threshold. cbn. case_decide; lia. Qed.

Lemma waitRel_inv s s' : rtc waitRel s s' → waitInv s → waitInv s'.
Proof.
  induction 1 as [|s1 s2 s3 [ev Hs] _ IH]; [done|]. intros Hi. destruct (waitStep_inv _ _ _ Hi Hs) as (s' & [= <-] & ?). auto.
Qed.

(** The goroutines of an optimistic provide are safe.  In every
    interleaving none of them sends on the closed channel or closes it twice,
    [waitForRPCs] returns only after [returnThreshold] requests (or all of
    them) are done, and the leases of the pool are those of the goroutines that
    still wait: none is left when all requests are counted. *)
Theorem waitForRPCs_safe b pool s ev :
  b ≤ rpcCount → b ≤ returnThreshold → pool ≤ poolSize → 0 < returnThreshold → rtc waitRel (waitStart b pool) s →
  waitStep s ev ≠ Some None ∧ (w_phase s ≠ WaitFirst → Nat.min returnThreshold rpcCount ≤ w_done s) ∧
  (w_done s = rpcCount → w_consumers s + w_releasing s = 0).
Proof.
  intros Hb Hb' Hp Ht Hr. pose proof (waitRel_inv _ _ Hr (waitStart_inv b pool Hb Hb' Hp Ht)) as Hi. split_and!.
  - intros Hs. by destruct (waitStep_inv _ _ _ Hi Hs) as (? & ? & _).
  - destruct Hi as (H1 & _ & _ & H4). unfold threshold in H4. intros Hph. destruct (w_phase s); [done| |]; case_decide; lia.
  - destruct Hi as (H1 & _ & _ & H4). intros Hd. destruct (w_phase s); lia.
Qed.

(** *** Progress *)

(** The steps that are left. *)
Definition waitMeasure (s : waitState) : nat :=
  6 * w_running s + 5 * w_chan s + 2 * w_releasing s + w_counting s + 2 * w_consumers s +
  match w_phase s with WaitFirst => 3 * rpcCount + 2 | WaitRest n => 3 * n + 1 | WaitReturned => 0 end.

Lemma waitStep_measure s ev s' :
  waitInv s → (∀ n, ev ≠ WePool n) → waitStep s ev = Some (Some s') → waitMeasure s' < waitMeasure s.
Proof.
  destruct s as [running chan closed done phase consumers releasing counting pool].
  intros (H1 & H2 & H3 & H4) Hev. cbn in H1, H2, H3, H4. pose proof threshold_le as [T1 T2].
  assert (∀ s k, countDone s rpcCount k = Some s' → ∃ c, s' = k (w_done s + 1) c) as Hcount.
  { intros s0 k. unfold countDone. case_decide; [destruct (w_closed s0); [done|]|]; intros [= <-]; by eexists. }
  destruct ev as [ | | | | | | |n]; cbn [waitStep].
  - case_decide; [|done]. destruct closed; [done|]. case_decide; [|done]. intros [= <-]. unfold waitMeasure. cbn. lia.
  - destruct phase as [|[|remaining]|]; [|done| |done].
    + case_decide; [|destruct H4 as (_ & _ & _ & -> & _); done]. intros [= <-]. unfold waitMeasure. cbn [w_phase w_running w_chan w_releasing w_counting w_consumers].
      case_decide; lia.
    + case_decide as Hc; [|done]. intros [= Hk]. apply Hcount in Hk as [c ->]. unfold waitMeasure. cbn. lia.
  - destruct phase as [|[|remaining]|]; try done. case_decide; [|done]. intros [= <-]. unfold waitMeasure. cbn. lia.
  - destruct phase as [|[|remaining]|]; try done. intros [= <-]. unfold waitMeasure. cbn. lia.
  - case_decide as Hc; [|done]. intros [= <-]. assert (0 < chan) by (destruct phase; naive_solver lia). unfold waitMeasure. cbn. lia.
  - case_decide as Hc; [|done]. intros [= <-]. unfold waitMeasure. cbn. lia.
  - case_decide as Hc; [|done]. intros [= Hk]. apply Hcount in Hk as [c ->]. unfold waitMeasure. cbn. lia.
  - by destruct (Hev n).
Qed.

(** The steps of the goroutines of one provide. *)
Definition ownStep (s s' : waitState) : Prop := ∃ ev, (∀ n, ev ≠ WePool n) ∧ waitStep s ev = Some (Some s').

Lemma ownStep_intro s ev : waitInv s → (∀ n, ev ≠ WePool n) → waitStep s ev ≠ None → ∃ s', ownStep s s'.
Proof.
  intros Hi Hev Hs. destruct (waitStep s ev) as [r|] eqn:E; [|done]. destruct (waitStep_inv _ _ _ Hi E) as (s' & -> & _).
  exists s'. by exists ev.
Qed.

(** A provide that is not finished can make a step. *)
Lemma waitStep_progress s :
  waitInv s → 0 < rpcCount → 0 < returnThreshold → (w_phase s = WaitReturned ∧ w_done s = rpcCount) ∨ ∃ s', ownStep s s'.
Proof.
  intros Hi Hr Ht. pose proof (ownStep_intro s) as Hown. pose proof Hi as Hi'. pose proof threshold_le as [T1 T2].
  destruct s as [running chan closed done phase consumers releasing counting pool].
  destruct Hi' as (H1 & H2 & H3 & H4). cbn in H1, H2, H3, H4.
  destruct (decide (0 < counting)) as [Hc|Hc]; [right; apply (Hown WeCount); [done|done|cbn; by rewrite decide_True]|].
  destruct (decide (0 < releasing)) as [Hl|Hl]; [right; apply (Hown WeRelease); [done|done|cbn; rewrite decide_True by lia; done]|].
  assert (0 < running → chan = 0 → ∃ s', ownStep (mkWait running chan closed done phase consumers releasing counting pool) s') as Hsend.
  { intros Hrun ->. apply (Hown WeSend); [done|done|]. cbn. rewrite decide_True by done. destruct closed; [done|]. by rewrite decide_True by lia. }
  destruct phase as [|[|remaining]|].
  - right. destruct (decide (0 < chan)) as [Hch|Hch]; [apply (Hown WeReceive); [done|done|cbn; by rewrite decide_True]|].
    apply Hsend; lia.
  - right. by apply (Hown WeReturn).
  - right. destruct (decide (0 < chan)) as [Hch|Hch]; [apply (Hown WeReceive); [done|done|cbn; rewrite decide_True by lia; done]|].
    apply Hsend; lia.
  - destruct (decide (done = rpcCount)) as [->|Hd]; [by left|]. right.
    destruct (decide (0 < chan)) as [Hch|Hch]; [apply (Hown WeConsume); [done|done|cbn; rewrite decide_True by lia; done]|].
    apply Hsend; lia.
Qed.

(** An optimistic provide ends.  If at least one request was sent, then
    from every state its goroutines make a bounded number of steps, and when
    they cannot make one any more, [waitForRPCs] has returned, all requests are
    counted and all leases are released. *)
Theorem waitForRPCs_ends b pool s :
  0 < rpcCount → b ≤ rpcCount → b ≤ returnThreshold → pool ≤ poolSize → 0 < returnThreshold → rtc waitRel (waitStart b pool) s →
  (∀ n s', nsteps ownStep n s s' → n ≤ waitMeasure s) ∧
  ((∀ s', ¬ ownStep s s') → w_phase s = WaitReturned ∧ w_done s = rpcCount ∧ w_running s = 0 ∧ w_consumers s + w_releasing s + w_counting s = 0).
Proof.
  intros Hr Hb Hb' Hp Ht Hs. pose proof (waitRel_inv _ _ Hs (waitStart_inv b pool Hb Hb' Hp Ht)) as Hi. split.
  - clear Hs. intros n s' Hn. revert Hi. induction Hn as [s|n s1 s2 s3 [ev [Hev Hst]] _ IH]; intros Hi; [lia|].
    pose proof (waitStep_measure _ _ _ Hi Hev Hst). destruct (waitStep_inv _ _ _ Hi Hst) as (? & [= <-] & Hi2). specialize (IH Hi2). lia.
  - intros Hstuck. destruct (waitStep_progress s Hi Hr Ht) as [[Hph Hd]|[s' Hs']]; [|by destruct (Hstuck s')].
    destruct Hi as (H1 & _ & _ & H4). rewrite Hph in *. split_and!; [done|done|lia|lia].
Qed.
End wait.

(** Without any request [waitForRPCs] never returns.  If every peer of the
    lookup failed, there is none to store the record with, and [Provide] waits
    for a message that nobody sends, even after its context has ended. *)
Theorem waitForRPCs_blocks returnThreshold poolSize pool s :
  0 < returnThreshold → rtc (waitRel 0 returnThreshold poolSize) (waitStart 0 0 pool) s → w_phase s = WaitFirst.
Proof.
  intros Ht Hr. assert (w_phase s = WaitFirst ∧ w_running s = 0 ∧ w_chan s = 0 ∧ w_closed s = false ∧ w_consumers s = 0 ∧
    w_releasing s = 0 ∧ w_counting s = 0) as [? _]; [|done].
  remember (waitStart 0 0 pool) as s0 eqn:E.
  assert (w_phase s0 = WaitFirst ∧ w_running s0 = 0 ∧ w_chan s0 = 0 ∧ w_closed s0 = false ∧ w_consumers s0 = 0 ∧
    w_releasing s0 = 0 ∧ w_counting s0 = 0) as H0 by (by subst). clear E. induction Hr as [|s1 s2 s3 [ev Hs] _ IH]; [done|]. apply IH.
  destruct s1 as [running chan closed done phase consumers releasing counting p]. cbn in H0. destruct H0 as (-> & -> & -> & -> & -> & -> & ->).
  destruct ev; cbn in Hs; try done; repeat case_decide; try done; try lia. by injection Hs as <-.
Qed.

(** ** Examples *)

(** Peer 1 is close enough for [stopFn], peer 2 is not; peer 1 fails. *)
Lemma optimisticProvide_once_witness :
  ∃ ps started, lookupRun 20 (λ p, bool_decide (p = [1%Z])) (λ _, false) (∅, [])
      ([OeStopFn [[1]; [2]]; OeDone [1] false; OeStopFn [[2]; [1]]]%Z ++ [OeLookupDone [[1]; [2]]%Z]) = Some (ps, started) ∧
    NoDup started ∧ [2%Z] ∈ started.
Proof.
  destruct (lookupRun 20 (λ p, bool_decide (p = [1%Z])) (λ _, false) (∅, [])
    ([OeStopFn [[1]; [2]]; OeDone [1] false; OeStopFn [[2]; [1]]]%Z ++ [OeLookupDone [[1]; [2]]%Z])) as [[ps started]|] eqn:E;
    [|by vm_compute in E].
  destruct (optimisticProvide_once _ _ _ _ _ _ _ E) as (H1 & _ & H3). exists ps, started. split; [done|]. split; [done|].
  apply H3. right. left.
Defined.

(** Three requests, of which two have to be done. *)
Lemma waitForRPCs_safe_witness :
  waitStep 3 2 1 (waitStart 3 1 0) WeReceive ≠ Some None ∧ (3 = 0 → 0 + 0 = 0).
Proof.
  destruct (waitForRPCs_safe 3 2 1 1 0 (waitStart 3 1 0) WeReceive) as (H1 & _ & _); [lia..|apply rtc_refl|]. split; [exact H1|done].
Defined.

Lemma waitForRPCs_ends_witness :
  0 < 3 ∧ ∀ n s', nsteps (ownStep 3 2 1) n (waitStart 3 1 0) s' → n ≤ 28.
Proof. split; [lia|]. apply (waitForRPCs_ends 3 2 1 1 0 (waitStart 3 1 0)); [lia..|apply rtc_refl]. Defined.

Lemma waitForRPCs_blocks_witness : w_phase (waitStart 0 0 0) = WaitFirst.
Proof. apply (waitForRPCs_blocks 20 60 0); [lia|apply rtc_refl]. Defined.
