(* ===== verification/ProviderOptions.v ===== *)
(** * Options of the sweeping provider

    [provider/options.go]: the configuration of a provider and the options that
    set it.  An option is a function on configurations that can fail; durations
    and [int]s are integers, and objects that the options only store (hosts,
    routers, datastores, functions) are of an abstract type, [None] for [nil]. *)

From S2P Require Import Prelude GoTime Message.

Section options.
Context {Obj : Type}.
Variables (HostID : Obj → peerID) (noLocalRecord : Obj).

Record config := mkConfig {
  pc_replicationFactor : Z;
  pc_reprovideInterval : Z;
  pc_maxReprovideDelay : Z;
  pc_offlineDelay : Z;
  pc_connectivityCheckOnlineInterval : Z;
  pc_connectivityCallbacks : option Obj * option Obj * option Obj;
  pc_peerid : peerID;
  pc_host : option Obj;
  pc_router : option Obj;
  pc_keystore : option Obj;
  pc_datastore : option Obj;
  pc_msgSender : option Obj;
  pc_selfAddrs : option Obj;
  pc_addLocalRecord : option Obj;
  pc_maxWorkers : Z;
  pc_dedicatedPeriodicWorkers : Z;
  pc_dedicatedBurstWorkers : Z;
  pc_maxProvideConnsPerWorker : Z;
  pc_resumeCycle : bool;
  pc_skipBootstrapReprovide : bool;
  pc_loggerName : string;
  pc_metricsDhtType : string;
}.

Definition Option := config → option config.

Definition WithReplicationFactor (n : Z) : Option := λ cfg,
  if decide (n ≤ 0)%Z then None else Some (mkConfig n (pc_reprovideInterval cfg) (pc_maxReprovideDelay cfg) (pc_offlineDelay cfg) (pc_connectivityCheckOnlineInterval cfg) (pc_connectivityCallbacks cfg) (pc_peerid cfg) (pc_host cfg) (pc_router cfg) (pc_keystore cfg) (pc_datastore cfg) (pc_msgSender cfg) (pc_selfAddrs cfg) (pc_addLocalRecord cfg) (pc_maxWorkers cfg) (pc_dedicatedPeriodicWorkers cfg) (pc_dedicatedBurstWorkers cfg) (pc_maxProvideConnsPerWorker cfg) (pc_resumeCycle cfg) (pc_skipBootstrapReprovide cfg) (pc_loggerName cfg) (pc_metricsDhtType cfg)).

Definition WithReprovideInterval (d : Z) : Option := λ cfg,
  if decide (d ≤ 0)%Z then None else Some (mkConfig (pc_replicationFactor cfg) d (pc_maxReprovideDelay cfg) (pc_offlineDelay cfg) (pc_connectivityCheckOnlineInterval cfg) (pc_connectivityCallbacks cfg) (pc_peerid cfg) (pc_host cfg) (pc_router cfg) (pc_keystore cfg) (pc_datastore cfg) (pc_msgSender cfg) (pc_selfAddrs cfg) (pc_addLocalRecord cfg) (pc_maxWorkers cfg) (pc_dedicatedPeriodicWorkers cfg) (pc_dedicatedBurstWorkers cfg) (pc_maxProvideConnsPerWorker cfg) (pc_resumeCycle cfg) (pc_skipBootstrapReprovide cfg) (pc_loggerName cfg) (pc_metricsDhtType cfg)).

Definition WithMaxReprovideDelay (d : Z) : Option := λ cfg,
  if decide (d ≤ 0)%Z then None else Some (mkConfig (pc_replicationFactor cfg) (pc_reprovideInterval cfg) d (pc_offlineDelay cfg) (pc_connectivityCheckOnlineInterval cfg) (pc_connectivityCallbacks cfg) (pc_peerid cfg) (pc_host cfg) (pc_router cfg) (pc_keystore cfg) (pc_datastore cfg) (pc_msgSender cfg) (pc_selfAddrs cfg) (pc_addLocalRecord cfg) (pc_maxWorkers cfg) (pc_dedicatedPeriodicWorkers cfg) (pc_dedicatedBurstWorkers cfg) (pc_maxProvideConnsPerWorker cfg) (pc_resumeCycle cfg) (pc_skipBootstrapReprovide cfg) (pc_loggerName cfg) (pc_metricsDhtType cfg)).

Definition WithOfflineDelay (d : Z) : Option := λ cfg,
  if decide (d < 0)%Z then None else Some (mkConfig (pc_replicationFactor cfg) (pc_reprovideInterval cfg) (pc_maxReprovideDelay cfg) d (pc_connectivityCheckOnlineInterval cfg) (pc_connectivityCallbacks cfg) (pc_peerid cfg) (pc_host cfg) (pc_router cfg) (pc_keystore cfg) (pc_datastore cfg) (pc_msgSender cfg) (pc_selfAddrs cfg) (pc_addLocalRecord cfg) (pc_maxWorkers cfg) (pc_dedicatedPeriodicWorkers cfg) (pc_dedicatedBurstWorkers cfg) (pc_maxProvideConnsPerWorker cfg) (pc_resumeCycle cfg) (pc_skipBootstrapReprovide cfg) (pc_loggerName cfg) (pc_metricsDhtType cfg)).

Definition WithConnectivityCheckOnlineInterval (d : Z) : Option := λ cfg,
  Some (mkConfig (pc_replicationFactor cfg) (pc_reprovideInterval cfg) (pc_maxReprovideDelay cfg) (pc_offlineDelay cfg) d (pc_connectivityCallbacks cfg) (pc_peerid cfg) (pc_host cfg) (pc_router cfg) (pc_keystore cfg) (pc_datastore cfg) (pc_msgSender cfg) (pc_selfAddrs cfg) (pc_addLocalRecord cfg) (pc_maxWorkers cfg) (pc_dedicatedPeriodicWorkers cfg) (pc_dedicatedBurstWorkers cfg) (pc_maxProvideConnsPerWorker cfg) (pc_resumeCycle cfg) (pc_skipBootstrapReprovide cfg) (pc_loggerName cfg) (pc_metricsDhtType cfg)).

Definition WithHost (o : option Obj) : Option := λ cfg,
  match o with None => None | Some _ => Some (mkConfig (pc_replicationFactor cfg) (pc_reprovideInterval cfg) (pc_maxReprovideDelay cfg) (pc_offlineDelay cfg) (pc_connectivityCheckOnlineInterval cfg) (pc_connectivityCallbacks cfg) (pc_peerid cfg) o (pc_router cfg) (pc_keystore cfg) (pc_datastore cfg) (pc_msgSender cfg) (pc_selfAddrs cfg) (pc_addLocalRecord cfg) (pc_maxWorkers cfg) (pc_dedicatedPeriodicWorkers cfg) (pc_dedicatedBurstWorkers cfg) (pc_maxProvideConnsPerWorker cfg) (pc_resumeCycle cfg) (pc_skipBootstrapReprovide cfg) (pc_loggerName cfg) (pc_metricsDhtType cfg)) end.

Definition WithPeerID (p : peerID) : Option := λ cfg,
  Some (mkConfig (pc_replicationFactor cfg) (pc_reprovideInterval cfg) (pc_maxReprovideDelay cfg) (pc_offlineDelay cfg) (pc_connectivityCheckOnlineInterval cfg) (pc_connectivityCallbacks cfg) p (pc_host cfg) (pc_router cfg) (pc_keystore cfg) (pc_datastore cfg) (pc_msgSender cfg) (pc_selfAddrs cfg) (pc_addLocalRecord cfg) (pc_maxWorkers cfg) (pc_dedicatedPeriodicWorkers cfg) (pc_dedicatedBurstWorkers cfg) (pc_maxProvideConnsPerWorker cfg) (pc_resumeCycle cfg) (pc_skipBootstrapReprovide cfg) (pc_loggerName cfg) (pc_metricsDhtType cfg)).

Definition WithRouter (o : option Obj) : Option := λ cfg,
  Some (mkConfig (pc_replicationFactor cfg) (pc_reprovideInterval cfg) (pc_maxReprovideDelay cfg) (pc_offlineDelay cfg) (pc_connectivityCheckOnlineInterval cfg) (pc_connectivityCallbacks cfg) (pc_peerid cfg) (pc_host cfg) o (pc_keystore cfg) (pc_datastore cfg) (pc_msgSender cfg) (pc_selfAddrs cfg) (pc_addLocalRecord cfg) (pc_maxWorkers cfg) (pc_dedicatedPeriodicWorkers cfg) (pc_dedicatedBurstWorkers cfg) (pc_maxProvideConnsPerWorker cfg) (pc_resumeCycle cfg) (pc_skipBootstrapReprovide cfg) (pc_loggerName cfg) (pc_metricsDhtType cfg)).

Definition WithMessageSender (o : option Obj) : Option := λ cfg,
  Some (mkConfig (pc_replicationFactor cfg) (pc_reprovideInterval cfg) (pc_maxReprovideDelay cfg) (pc_offlineDelay cfg) (pc_connectivityCheckOnlineInterval cfg) (pc_connectivityCallbacks cfg) (pc_peerid cfg) (pc_host cfg) (pc_router cfg) (pc_keystore cfg) (pc_datastore cfg) o (pc_selfAddrs cfg) (pc_addLocalRecord cfg) (pc_maxWorkers cfg) (pc_dedicatedPeriodicWorkers cfg) (pc_dedicatedBurstWorkers cfg) (pc_maxProvideConnsPerWorker cfg) (pc_resumeCycle cfg) (pc_skipBootstrapReprovide cfg) (pc_loggerName cfg) (pc_metricsDhtType cfg)).

Definition WithSelfAddrs (o : option Obj) : Option := λ cfg,
  Some (mkConfig (pc_replicationFactor cfg) (pc_reprovideInterval cfg) (pc_maxReprovideDelay cfg) (pc_offlineDelay cfg) (pc_connectivityCheckOnlineInterval cfg) (pc_connectivityCallbacks cfg) (pc_peerid cfg) (pc_host cfg) (pc_router cfg) (pc_keystore cfg) (pc_datastore cfg) (pc_msgSender cfg) o (pc_addLocalRecord cfg) (pc_maxWorkers cfg) (pc_dedicatedPeriodicWorkers cfg) (pc_dedicatedBurstWorkers cfg) (pc_maxProvideConnsPerWorker cfg) (pc_resumeCycle cfg) (pc_skipBootstrapReprovide cfg) (pc_loggerName cfg) (pc_metricsDhtType cfg)).

Definition WithAddLocalRecord (o : option Obj) : Option := λ cfg,
  match o with None => None | Some _ => Some (mkConfig (pc_replicationFactor cfg) (pc_reprovideInterval cfg) (pc_maxReprovideDelay cfg) (pc_offlineDelay cfg) (pc_connectivityCheckOnlineInterval cfg) (pc_connectivityCallbacks cfg) (pc_peerid cfg) (pc_host cfg) (pc_router cfg) (pc_keystore cfg) (pc_datastore cfg) (pc_msgSender cfg) (pc_selfAddrs cfg) o (pc_maxWorkers cfg) (pc_dedicatedPeriodicWorkers cfg) (pc_dedicatedBurstWorkers cfg) (pc_maxProvideConnsPerWorker cfg) (pc_resumeCycle cfg) (pc_skipBootstrapReprovide cfg) (pc_loggerName cfg) (pc_metricsDhtType cfg)) end.

Definition WithMaxWorkers (n : Z) : Option := λ cfg,
  if decide (n < 0)%Z then None else Some (mkConfig (pc_replicationFactor cfg) (pc_reprovideInterval cfg) (pc_maxReprovideDelay cfg) (pc_offlineDelay cfg) (pc_connectivityCheckOnlineInterval cfg) (pc_connectivityCallbacks cfg) (pc_peerid cfg) (pc_host cfg) (pc_router cfg) (pc_keystore cfg) (pc_datastore cfg) (pc_msgSender cfg) (pc_selfAddrs cfg) (pc_addLocalRecord cfg) n (pc_dedicatedPeriodicWorkers cfg) (pc_dedicatedBurstWorkers cfg) (pc_maxProvideConnsPerWorker cfg) (pc_resumeCycle cfg) (pc_skipBootstrapReprovide cfg) (pc_loggerName cfg) (pc_metricsDhtType cfg)).

Definition WithDedicatedPeriodicWorkers (n : Z) : Option := λ cfg,
  if decide (n < 0)%Z then None else Some (mkConfig (pc_replicationFactor cfg) (pc_reprovideInterval cfg) (pc_maxReprovideDelay cfg) (pc_offlineDelay cfg) (pc_connectivityCheckOnlineInterval cfg) (pc_connectivityCallbacks cfg) (pc_peerid cfg) (pc_host cfg) (pc_router cfg) (pc_keystore cfg) (pc_datastore cfg) (pc_msgSender cfg) (pc_selfAddrs cfg) (pc_addLocalRecord cfg) (pc_maxWorkers cfg) n (pc_dedicatedBurstWorkers cfg) (pc_maxProvideConnsPerWorker cfg) (pc_resumeCycle cfg) (pc_skipBootstrapReprovide cfg) (pc_loggerName cfg) (pc_metricsDhtType cfg)).

Definition WithDedicatedBurstWorkers (n : Z) : Option := λ cfg,
  if decide (n < 0)%Z then None else Some (mkConfig (pc_replicationFactor cfg) (pc_reprovideInterval cfg) (pc_maxReprovideDelay cfg) (pc_offlineDelay cfg) (pc_connectivityCheckOnlineInterval cfg) (pc_connectivityCallbacks cfg) (pc_peerid cfg) (pc_host cfg) (pc_router cfg) (pc_keystore cfg) (pc_datastore cfg) (pc_msgSender cfg) (pc_selfAddrs cfg) (pc_addLocalRecord cfg) (pc_maxWorkers cfg) (pc_dedicatedPeriodicWorkers cfg) n (pc_maxProvideConnsPerWorker cfg) (pc_resumeCycle cfg) (pc_skipBootstrapReprovide cfg) (pc_loggerName cfg) (pc_metricsDhtType cfg)).

Definition WithMaxProvideConnsPerWorker (n : Z) : Option := λ cfg,
  if decide (n ≤ 0)%Z then None else Some (mkConfig (pc_replicationFactor cfg) (pc_reprovideInterval cfg) (pc_maxReprovideDelay cfg) (pc_offlineDelay cfg) (pc_connectivityCheckOnlineInterval cfg) (pc_connectivityCallbacks cfg) (pc_peerid cfg) (pc_host cfg) (pc_router cfg) (pc_keystore cfg) (pc_datastore cfg) (pc_msgSender cfg) (pc_selfAddrs cfg) (pc_addLocalRecord cfg) (pc_maxWorkers cfg) (pc_dedicatedPeriodicWorkers cfg) (pc_dedicatedBurstWorkers cfg) n (pc_resumeCycle cfg) (pc_skipBootstrapReprovide cfg) (pc_loggerName cfg) (pc_metricsDhtType cfg)).

Definition WithKeystore (o : option Obj) : Option := λ cfg,
  match o with None => None | Some _ => Some (mkConfig (pc_replicationFactor cfg) (pc_reprovideInterval cfg) (pc_maxReprovideDelay cfg) (pc_offlineDelay cfg) (pc_connectivityCheckOnlineInterval cfg) (pc_connectivityCallbacks cfg) (pc_peerid cfg) (pc_host cfg) (pc_router cfg) o (pc_datastore cfg) (pc_msgSender cfg) (pc_selfAddrs cfg) (pc_addLocalRecord cfg) (pc_maxWorkers cfg) (pc_dedicatedPeriodicWorkers cfg) (pc_dedicatedBurstWorkers cfg) (pc_maxProvideConnsPerWorker cfg) (pc_resumeCycle cfg) (pc_skipBootstrapReprovide cfg) (pc_loggerName cfg) (pc_metricsDhtType cfg)) end.

Definition WithDatastore (o : option Obj) : Option := λ cfg,
  match o with None => None | Some _ => Some (mkConfig (pc_replicationFactor cfg) (pc_reprovideInterval cfg) (pc_maxReprovideDelay cfg) (pc_offlineDelay cfg) (pc_connectivityCheckOnlineInterval cfg) (pc_connectivityCallbacks cfg) (pc_peerid cfg) (pc_host cfg) (pc_router cfg) (pc_keystore cfg) o (pc_msgSender cfg) (pc_selfAddrs cfg) (pc_addLocalRecord cfg) (pc_maxWorkers cfg) (pc_dedicatedPeriodicWorkers cfg) (pc_dedicatedBurstWorkers cfg) (pc_maxProvideConnsPerWorker cfg) (pc_resumeCycle cfg) (pc_skipBootstrapReprovide cfg) (pc_loggerName cfg) (pc_metricsDhtType cfg)) end.

Definition WithResumeCycle (resume : bool) : Option := λ cfg,
  Some (mkConfig (pc_replicationFactor cfg) (pc_reprovideInterval cfg) (pc_maxReprovideDelay cfg) (pc_offlineDelay cfg) (pc_connectivityCheckOnlineInterval cfg) (pc_connectivityCallbacks cfg) (pc_peerid cfg) (pc_host cfg) (pc_router cfg) (pc_keystore cfg) (pc_datastore cfg) (pc_msgSender cfg) (pc_selfAddrs cfg) (pc_addLocalRecord cfg) (pc_maxWorkers cfg) (pc_dedicatedPeriodicWorkers cfg) (pc_dedicatedBurstWorkers cfg) (pc_maxProvideConnsPerWorker cfg) resume (pc_skipBootstrapReprovide cfg) (pc_loggerName cfg) (pc_metricsDhtType cfg)).

Definition WithLoggerName (name : string) : Option := λ cfg,
  if decide (name = EmptyString) then Some cfg else Some (mkConfig (pc_replicationFactor cfg) (pc_reprovideInterval cfg) (pc_maxReprovideDelay cfg) (pc_offlineDelay cfg) (pc_connectivityCheckOnlineInterval cfg) (pc_connectivityCallbacks cfg) (pc_peerid cfg) (pc_host cfg) (pc_router cfg) (pc_keystore cfg) (pc_datastore cfg) (pc_msgSender cfg) (pc_selfAddrs cfg) (pc_addLocalRecord cfg) (pc_maxWorkers cfg) (pc_dedicatedPeriodicWorkers cfg) (pc_dedicatedBurstWorkers cfg) (pc_maxProvideConnsPerWorker cfg) (pc_resumeCycle cfg) (pc_skipBootstrapReprovide cfg) name (pc_metricsDhtType cfg)).

Definition WithDhtType (dhtType : string) : Option := λ cfg,
  if decide (dhtType = EmptyString) then Some cfg else Some (mkConfig (pc_replicationFactor cfg) (pc_reprovideInterval cfg) (pc_maxReprovideDelay cfg) (pc_offlineDelay cfg) (pc_connectivityCheckOnlineInterval cfg) (pc_connectivityCallbacks cfg) (pc_peerid cfg) (pc_host cfg) (pc_router cfg) (pc_keystore cfg) (pc_datastore cfg) (pc_msgSender cfg) (pc_selfAddrs cfg) (pc_addLocalRecord cfg) (pc_maxWorkers cfg) (pc_dedicatedPeriodicWorkers cfg) (pc_dedicatedBurstWorkers cfg) (pc_maxProvideConnsPerWorker cfg) (pc_resumeCycle cfg) (pc_skipBootstrapReprovide cfg) (pc_loggerName cfg) dhtType).

Definition WithSkipBootstrapReprovide (skip : bool) : Option := λ cfg,
  Some (mkConfig (pc_replicationFactor cfg) (pc_reprovideInterval cfg) (pc_maxReprovideDelay cfg) (pc_offlineDelay cfg) (pc_connectivityCheckOnlineInterval cfg) (pc_connectivityCallbacks cfg) (pc_peerid cfg) (pc_host cfg) (pc_router cfg) (pc_keystore cfg) (pc_datastore cfg) (pc_msgSender cfg) (pc_selfAddrs cfg) (pc_addLocalRecord cfg) (pc_maxWorkers cfg) (pc_dedicatedPeriodicWorkers cfg) (pc_dedicatedBurstWorkers cfg) (pc_maxProvideConnsPerWorker cfg) (pc_resumeCycle cfg) skip (pc_loggerName cfg) (pc_metricsDhtType cfg)).

Definition WithConnectivityCallbacks (onOnline onDisconnected onOffline : option Obj) : Option := λ cfg,
  Some (mkConfig (pc_replicationFactor cfg) (pc_reprovideInterval cfg) (pc_maxReprovideDelay cfg) (pc_offlineDelay cfg) (pc_connectivityCheckOnlineInterval cfg) (onOnline, onDisconnected, onOffline) (pc_peerid cfg) (pc_host cfg) (pc_router cfg) (pc_keystore cfg) (pc_datastore cfg) (pc_msgSender cfg) (pc_selfAddrs cfg) (pc_addLocalRecord cfg) (pc_maxWorkers cfg) (pc_dedicatedPeriodicWorkers cfg) (pc_dedicatedBurstWorkers cfg) (pc_maxProvideConnsPerWorker cfg) (pc_resumeCycle cfg) (pc_skipBootstrapReprovide cfg) (pc_loggerName cfg) (pc_metricsDhtType cfg)).

Definition DefaultLoggerName : string := "dht/provider".

(** The configuration [getOpts] starts with. *)
Definition defaultConfig : config :=
  mkConfig 20 (22 * Hour) (1 * Hour) (2 * Hour) (1 * Minute) (None, None, None) [] None None None None None None (Some noLocalRecord) 4 2 1 20 true false DefaultLoggerName EmptyString.

(** The loop of [getOpts]. *)
Fixpoint applyOpts (opts : list Option) (cfg : config) : option config :=
  match opts with
  | [] => Some cfg
  | opt :: opts => cfg ← opt cfg; applyOpts opts cfg
  end.

(** The checks of [getOpts] after the options. *)
Definition validate (cfg : config) : option config :=
  cfg ← (if decide (pc_peerid cfg = []) then
           match pc_host cfg with
           | None => None
           | Some h => Some (mkConfig (pc_replicationFactor cfg) (pc_reprovideInterval cfg) (pc_maxReprovideDelay cfg) (pc_offlineDelay cfg) (pc_connectivityCheckOnlineInterval cfg) (pc_connectivityCallbacks cfg) (HostID h) (pc_host cfg) (pc_router cfg) (pc_keystore cfg) (pc_datastore cfg) (pc_msgSender cfg) (pc_selfAddrs cfg) (pc_addLocalRecord cfg) (pc_maxWorkers cfg) (pc_dedicatedPeriodicWorkers cfg) (pc_dedicatedBurstWorkers cfg) (pc_maxProvideConnsPerWorker cfg) (pc_resumeCycle cfg) (pc_skipBootstrapReprovide cfg) (pc_loggerName cfg) (pc_metricsDhtType cfg))
           end
         else Some cfg);
  if decide (pc_router cfg = None) then None
  else if decide (pc_msgSender cfg = None) then None
  else if decide (pc_selfAddrs cfg = None) then None
  else if decide (wrap64 (pc_dedicatedPeriodicWorkers cfg + pc_dedicatedBurstWorkers cfg) > pc_maxWorkers cfg)%Z then None
  else Some cfg.

(** [getOpts] *)
Definition getOpts (opts : list Option) : option config := cfg ← applyOpts opts defaultConfig; validate cfg.

(** ** What is accepted *)

(** The options of the package. *)
Inductive isOption : Option → Prop :=
| isReplicationFactor n : isOption (WithReplicationFactor n)
| isReprovideInterval d : isOption (WithReprovideInterval d)
| isMaxReprovideDelay d : isOption (WithMaxReprovideDelay d)
| isOfflineDelay d : isOption (WithOfflineDelay d)
| isOnlineInterval d : isOption (WithConnectivityCheckOnlineInterval d)
| isHost o : isOption (WithHost o)
| isPeerID p : isOption (WithPeerID p)
| isRouter o : isOption (WithRouter o)
| isMessageSender o : isOption (WithMessageSender o)
| isSelfAddrs o : isOption (WithSelfAddrs o)
| isAddLocalRecord o : isOption (WithAddLocalRecord o)
| isMaxWorkers n : isOption (WithMaxWorkers n)
| isPeriodicWorkers n : isOption (WithDedicatedPeriodicWorkers n)
| isBurstWorkers n : isOption (WithDedicatedBurstWorkers n)
| isConns n : isOption (WithMaxProvideConnsPerWorker n)
| isKeystore o : isOption (WithKeystore o)
| isDatastore o : isOption (WithDatastore o)
| isResumeCycle b : isOption (WithResumeCycle b)
| isLoggerName s : isOption (WithLoggerName s)
| isDhtType s : isOption (WithDhtType s)
| isSkip b : isOption (WithSkipBootstrapReprovide b)
| isCallbacks a b c : isOption (WithConnectivityCallbacks a b c).

(** The ranges of the fields. *)
Definition inRange (cfg : config) : Prop :=
  (0 < pc_replicationFactor cfg ∧ 0 < pc_reprovideInterval cfg ∧ 0 < pc_maxReprovideDelay cfg ∧ 0 ≤ pc_offlineDelay cfg ∧
  0 ≤ pc_maxWorkers cfg ∧ 0 ≤ pc_dedicatedPeriodicWorkers cfg ∧ 0 ≤ pc_dedicatedBurstWorkers cfg ∧ 0 < pc_maxProvideConnsPerWorker cfg)%Z ∧
  is_Some (pc_addLocalRecord cfg) ∧ pc_loggerName cfg ≠ EmptyString.

Lemma option_inRange opt cfg cfg' : isOption opt → opt cfg = Some cfg' → inRange cfg → inRange cfg'.
Proof.
  intros Hopt Heq Hr. unfold inRange in *.
  destruct Hopt; cbv beta delta [WithReplicationFactor WithReprovideInterval WithMaxReprovideDelay WithOfflineDelay WithConnectivityCheckOnlineInterval
    WithHost WithPeerID WithRouter WithMessageSender WithSelfAddrs WithAddLocalRecord WithMaxWorkers WithDedicatedPeriodicWorkers
    WithDedicatedBurstWorkers WithMaxProvideConnsPerWorker WithKeystore WithDatastore WithResumeCycle WithLoggerName WithDhtType
    WithSkipBootstrapReprovide WithConnectivityCallbacks] in Heq;
    repeat case_decide; repeat case_match; simplify_eq; try done; cbn [pc_replicationFactor pc_reprovideInterval pc_maxReprovideDelay pc_offlineDelay
      pc_maxWorkers pc_dedicatedPeriodicWorkers pc_dedicatedBurstWorkers pc_maxProvideConnsPerWorker pc_addLocalRecord pc_loggerName];
    destruct Hr as [? [? ?]]; (split; [lia|]); (split; [by eauto|done]).
Qed.

Lemma applyOpts_inRange opts cfg cfg' : Forall isOption opts → applyOpts opts cfg = Some cfg' → inRange cfg → inRange cfg'.
Proof.
  intros Hopts. revert cfg. induction Hopts as [|opt opts Ho _ IH]; intros cfg; cbn [applyOpts]; [by intros [= <-]|].
  destruct (opt cfg) as [cfg1|] eqn:E; [|done]. cbn. intros Ha Hr. apply (IH cfg1 Ha). by apply (option_inRange opt cfg).
Qed.

Lemma validate_spec cfg cfg' :
  validate cfg = Some cfg' →
  (inRange cfg → inRange cfg') ∧
  (pc_peerid cfg' = pc_peerid cfg ∧ pc_peerid cfg ≠ [] ∨ ∃ h, pc_host cfg = Some h ∧ pc_peerid cfg' = HostID h) ∧
  is_Some (pc_router cfg') ∧ is_Some (pc_msgSender cfg') ∧ is_Some (pc_selfAddrs cfg') ∧
  (wrap64 (pc_dedicatedPeriodicWorkers cfg' + pc_dedicatedBurstWorkers cfg') ≤ pc_maxWorkers cfg')%Z.
Proof.
  unfold validate. intros Hv.
  assert (∀ o : option Obj, o ≠ None → is_Some o) as Hs by (intros [x|]; [by eexists|done]).
  destruct (decide (pc_peerid cfg = [])) as [He|Hne].
  - destruct (pc_host cfg) as [h|] eqn:Hh; [|done]. cbn in Hv. repeat case_decide; simplify_eq. cbn in *.
    split_and!; [done| |by apply Hs|by apply Hs|by apply Hs|lia]. right. by exists h.
  - cbn in Hv. repeat case_decide; simplify_eq. split_and!; [done|by left|by apply Hs|by apply Hs|by apply Hs|lia].
Qed.

(** A provider is created only with a valid configuration.  Whatever
    options of the package are given, in any order and repeated, if [getOpts]
    accepts them, all numbers are in their ranges, the required objects are set,
    there is an identity of the node, and the dedicated workers are no more
    than the workers unless their sum overflows. *)
Theorem getOpts_valid opts cfg :
  Forall isOption opts → (∀ h, HostID h ≠ []) → getOpts opts = Some cfg →
  inRange cfg ∧ pc_peerid cfg ≠ [] ∧ is_Some (pc_router cfg) ∧ is_Some (pc_msgSender cfg) ∧ is_Some (pc_selfAddrs cfg) ∧
  (in_int64 (pc_dedicatedPeriodicWorkers cfg + pc_dedicatedBurstWorkers cfg) →
   pc_dedicatedPeriodicWorkers cfg + pc_dedicatedBurstWorkers cfg ≤ pc_maxWorkers cfg)%Z.
Proof.
  intros Hopts Hid. unfold getOpts. destruct (applyOpts opts defaultConfig) as [cfg1|] eqn:Ha; [|done]. cbn. intros Hv.
  assert (inRange cfg1) as Hr.
  { apply (applyOpts_inRange opts defaultConfig); [done|done|]. unfold inRange. cbn. split_and!; try done; by eexists. }
  destruct (validate_spec cfg1 cfg Hv) as (H1 & H2 & H3 & H4 & H5 & H6). split_and!; [auto| |done|done|done|].
  - destruct H2 as [[-> ?]|(h & _ & ->)]; [done|apply Hid].
  - intros Hi. by rewrite wrap64_id in H6.
Qed.
End options.

(** The numbers of dedicated workers are added before they are compared, so that
    a sum that overflows is accepted. *)
Example getOpts_overflow :
  let opts : list (@Option unit) := [WithPeerID [1%Z]; WithRouter (Some tt); WithMessageSender (Some tt); WithSelfAddrs (Some tt);
    WithDedicatedPeriodicWorkers (2 ^ 63 - 1); WithDedicatedBurstWorkers 1] in
  pc_maxWorkers <$> getOpts (λ _, [1%Z]) tt opts = Some 4%Z.
Proof. by vm_compute. Qed.

Definition demoOpts : list (@Option unit) :=
  [WithHost (Some tt); WithRouter (Some tt); WithMessageSender (Some tt); WithSelfAddrs (Some tt); WithMaxWorkers 8].

Lemma getOpts_valid_witness :
  ∃ cfg, getOpts (λ _, [1%Z]) tt demoOpts = Some cfg ∧ inRange cfg ∧ pc_peerid cfg ≠ [].
Proof.
  destruct (getOpts (λ _, [1%Z]) tt demoOpts) as [cfg|] eqn:E; [|by vm_compute in E].
  exists cfg. split; [reflexivity|]. destruct (getOpts_valid (λ _, [1%Z]) tt demoOpts cfg) as (H1 & H2 & _);
    [|intros h; discriminate|exact E|exact (conj H1 H2)].
  unfold demoOpts. clear E. repeat constructor.
Defined.
