(* ===== verification/DualOptions.v ===== *)
(** * Options of the dual provider

    [provider/dual/options.go]: the configuration of the providers of the LAN
    and the WAN DHT, and [New] of [provider/dual/provider.go], which creates the
    two providers.  An array of two values is a pair, the LAN first; objects
    that the options only store are of an abstract type, as in the options of a
    provider. *)

From S2P Require Import Prelude GoTime Message ProviderOptions.

Inductive dhtID := lanID | wanID.

(** [a[i]], and the assignment of [v] to the entries of [dhts] *)
Definition at_ {A} (a : A * A) (i : dhtID) : A := match i with lanID => a.1 | wanID => a.2 end.

Definition setAt {A} (a : A * A) (dhts : list dhtID) (v : A) : A * A :=
  foldl (λ a i, match i with lanID => (v, a.2) | wanID => (a.1, v) end) a dhts.

Definition descriptors (i : dhtID) : string := match i with lanID => "lan" | wanID => "wan" end.

Section options.
Context {Obj : Type} {EO : EqDecision Obj}.
(** [namespace.Wrap] with the key of the name. *)
Variable wrapNamespace : Obj → string → Obj.

Record dualConfig := mkDual {
  dc_resumeCycle : bool * bool;
  dc_keystore : option Obj;
  dc_datastores : option Obj * option Obj;
  dc_reprovideInterval : Z * Z;
  dc_maxReprovideDelay : Z * Z;
  dc_offlineDelay : Z * Z;
  dc_connectivityCheckOnlineInterval : Z * Z;
  dc_connectivityCheckOfflineInterval : Z * Z;
  dc_maxWorkers : Z * Z;
  dc_dedicatedPeriodicWorkers : Z * Z;
  dc_dedicatedBurstWorkers : Z * Z;
  dc_maxProvideConnsPerWorker : Z * Z;
  dc_msgSenders : option Obj * option Obj;
  dc_loggerNames : string * string;
}.

Definition DualOption := dualConfig → option dualConfig.

Definition withResumeCycle (resume : bool) (dhts : list dhtID) : DualOption := λ cfg,
  Some (mkDual (setAt (dc_resumeCycle cfg) dhts resume) (dc_keystore cfg) (dc_datastores cfg) (dc_reprovideInterval cfg) (dc_maxReprovideDelay cfg) (dc_offlineDelay cfg) (dc_connectivityCheckOnlineInterval cfg) (dc_connectivityCheckOfflineInterval cfg) (dc_maxWorkers cfg) (dc_dedicatedPeriodicWorkers cfg) (dc_dedicatedBurstWorkers cfg) (dc_maxProvideConnsPerWorker cfg) (dc_msgSenders cfg) (dc_loggerNames cfg)).
Definition WithResumeCycle (resume : bool) : DualOption := withResumeCycle resume [lanID; wanID].
Definition WithResumeCycleLAN (resume : bool) : DualOption := withResumeCycle resume [lanID].
Definition WithResumeCycleWAN (resume : bool) : DualOption := withResumeCycle resume [wanID].

Definition WithKeystore (ks : option Obj) : DualOption := λ cfg,
  match ks with None => None | Some _ => Some (mkDual (dc_resumeCycle cfg) ks (dc_datastores cfg) (dc_reprovideInterval cfg) (dc_maxReprovideDelay cfg) (dc_offlineDelay cfg) (dc_connectivityCheckOnlineInterval cfg) (dc_connectivityCheckOfflineInterval cfg) (dc_maxWorkers cfg) (dc_dedicatedPeriodicWorkers cfg) (dc_dedicatedBurstWorkers cfg) (dc_maxProvideConnsPerWorker cfg) (dc_msgSenders cfg) (dc_loggerNames cfg)) end.

(** The datastore of both is used under their names. *)
Definition withDatastore (ds : option Obj) (dhts : list dhtID) : DualOption := λ cfg,
  match ds with
  | None => None
  | Some ds =>
      match dhts with
      | [i] => Some (mkDual (dc_resumeCycle cfg) (dc_keystore cfg) (setAt (dc_datastores cfg) [i] (Some ds)) (dc_reprovideInterval cfg) (dc_maxReprovideDelay cfg) (dc_offlineDelay cfg) (dc_connectivityCheckOnlineInterval cfg) (dc_connectivityCheckOfflineInterval cfg) (dc_maxWorkers cfg) (dc_dedicatedPeriodicWorkers cfg) (dc_dedicatedBurstWorkers cfg) (dc_maxProvideConnsPerWorker cfg) (dc_msgSenders cfg) (dc_loggerNames cfg))
      | [i; j] => Some (mkDual (dc_resumeCycle cfg) (dc_keystore cfg) (setAt (setAt (dc_datastores cfg) [i] (Some (wrapNamespace ds (descriptors i)))) [j] (Some (wrapNamespace ds (descriptors j)))) (dc_reprovideInterval cfg) (dc_maxReprovideDelay cfg) (dc_offlineDelay cfg) (dc_connectivityCheckOnlineInterval cfg) (dc_connectivityCheckOfflineInterval cfg) (dc_maxWorkers cfg) (dc_dedicatedPeriodicWorkers cfg) (dc_dedicatedBurstWorkers cfg) (dc_maxProvideConnsPerWorker cfg) (dc_msgSenders cfg) (dc_loggerNames cfg))
      | _ => None
      end
  end.
Definition WithDatastore (ds : option Obj) : DualOption := withDatastore ds [lanID; wanID].
Definition WithDatastoreLAN (ds : option Obj) : DualOption := withDatastore ds [lanID].
Definition WithDatastoreWAN (ds : option Obj) : DualOption := withDatastore ds [wanID].

Definition withReprovideInterval (v : Z) (dhts : list dhtID) : DualOption := λ cfg,
  if decide (v ≤ 0)%Z then None else Some (mkDual (dc_resumeCycle cfg) (dc_keystore cfg) (dc_datastores cfg) (setAt (dc_reprovideInterval cfg) dhts v) (dc_maxReprovideDelay cfg) (dc_offlineDelay cfg) (dc_connectivityCheckOnlineInterval cfg) (dc_connectivityCheckOfflineInterval cfg) (dc_maxWorkers cfg) (dc_dedicatedPeriodicWorkers cfg) (dc_dedicatedBurstWorkers cfg) (dc_maxProvideConnsPerWorker cfg) (dc_msgSenders cfg) (dc_loggerNames cfg)).
Definition WithReprovideInterval (v : Z) : DualOption := withReprovideInterval v [lanID; wanID].
Definition WithReprovideIntervalLAN (v : Z) : DualOption := withReprovideInterval v [lanID].
Definition WithReprovideIntervalWAN (v : Z) : DualOption := withReprovideInterval v [wanID].

Definition withMaxReprovideDelay (v : Z) (dhts : list dhtID) : DualOption := λ cfg,
  if decide (v ≤ 0)%Z then None else Some (mkDual (dc_resumeCycle cfg) (dc_keystore cfg) (dc_datastores cfg) (dc_reprovideInterval cfg) (setAt (dc_maxReprovideDelay cfg) dhts v) (dc_offlineDelay cfg) (dc_connectivityCheckOnlineInterval cfg) (dc_connectivityCheckOfflineInterval cfg) (dc_maxWorkers cfg) (dc_dedicatedPeriodicWorkers cfg) (dc_dedicatedBurstWorkers cfg) (dc_maxProvideConnsPerWorker cfg) (dc_msgSenders cfg) (dc_loggerNames cfg)).
Definition WithMaxReprovideDelay (v : Z) : DualOption := withMaxReprovideDelay v [lanID; wanID].
Definition WithMaxReprovideDelayLAN (v : Z) : DualOption := withMaxReprovideDelay v [lanID].
Definition WithMaxReprovideDelayWAN (v : Z) : DualOption := withMaxReprovideDelay v [wanID].

Definition withOfflineDelay (v : Z) (dhts : list dhtID) : DualOption := λ cfg,
  if decide (v < 0)%Z then None else Some (mkDual (dc_resumeCycle cfg) (dc_keystore cfg) (dc_datastores cfg) (dc_reprovideInterval cfg) (dc_maxReprovideDelay cfg) (setAt (dc_offlineDelay cfg) dhts v) (dc_connectivityCheckOnlineInterval cfg) (dc_connectivityCheckOfflineInterval cfg) (dc_maxWorkers cfg) (dc_dedicatedPeriodicWorkers cfg) (dc_dedicatedBurstWorkers cfg) (dc_maxProvideConnsPerWorker cfg) (dc_msgSenders cfg) (dc_loggerNames cfg)).
Definition WithOfflineDelay (v : Z) : DualOption := withOfflineDelay v [lanID; wanID].
Definition WithOfflineDelayLAN (v : Z) : DualOption := withOfflineDelay v [lanID].
Definition WithOfflineDelayWAN (v : Z) : DualOption := withOfflineDelay v [wanID].

Definition withConnectivityCheckOnlineInterval (v : Z) (dhts : list dhtID) : DualOption := λ cfg,
  if decide (v ≤ 0)%Z then None else Some (mkDual (dc_resumeCycle cfg) (dc_keystore cfg) (dc_datastores cfg) (dc_reprovideInterval cfg) (dc_maxReprovideDelay cfg) (dc_offlineDelay cfg) (setAt (dc_connectivityCheckOnlineInterval cfg) dhts v) (dc_connectivityCheckOfflineInterval cfg) (dc_maxWorkers cfg) (dc_dedicatedPeriodicWorkers cfg) (dc_dedicatedBurstWorkers cfg) (dc_maxProvideConnsPerWorker cfg) (dc_msgSenders cfg) (dc_loggerNames cfg)).
Definition WithConnectivityCheckOnlineInterval (v : Z) : DualOption := withConnectivityCheckOnlineInterval v [lanID; wanID].
Definition WithConnectivityCheckOnlineIntervalLAN (v : Z) : DualOption := withConnectivityCheckOnlineInterval v [lanID].
Definition WithConnectivityCheckOnlineIntervalWAN (v : Z) : DualOption := withConnectivityCheckOnlineInterval v [wanID].

Definition withConnectivityCheckOfflineInterval (v : Z) (dhts : list dhtID) : DualOption := λ cfg,
  if decide (v ≤ 0)%Z then None else Some (mkDual (dc_resumeCycle cfg) (dc_keystore cfg) (dc_datastores cfg) (dc_reprovideInterval cfg) (dc_maxReprovideDelay cfg) (dc_offlineDelay cfg) (dc_connectivityCheckOnlineInterval cfg) (setAt (dc_connectivityCheckOfflineInterval cfg) dhts v) (dc_maxWorkers cfg) (dc_dedicatedPeriodicWorkers cfg) (dc_dedicatedBurstWorkers cfg) (dc_maxProvideConnsPerWorker cfg) (dc_msgSenders cfg) (dc_loggerNames cfg)).
Definition WithConnectivityCheckOfflineInterval (v : Z) : DualOption := withConnectivityCheckOfflineInterval v [lanID; wanID].
Definition WithConnectivityCheckOfflineIntervalLAN (v : Z) : DualOption := withConnectivityCheckOfflineInterval v [lanID].
Definition WithConnectivityCheckOfflineIntervalWAN (v : Z) : DualOption := withConnectivityCheckOfflineInterval v [wanID].

Definition withMaxWorkers (v : Z) (dhts : list dhtID) : DualOption := λ cfg,
  if decide (v ≤ 0)%Z then None else Some (mkDual (dc_resumeCycle cfg) (dc_keystore cfg) (dc_datastores cfg) (dc_reprovideInterval cfg) (dc_maxReprovideDelay cfg) (dc_offlineDelay cfg) (dc_connectivityCheckOnlineInterval cfg) (dc_connectivityCheckOfflineInterval cfg) (setAt (dc_maxWorkers cfg) dhts v) (dc_dedicatedPeriodicWorkers cfg) (dc_dedicatedBurstWorkers cfg) (dc_maxProvideConnsPerWorker cfg) (dc_msgSenders cfg) (dc_loggerNames cfg)).
Definition WithMaxWorkers (v : Z) : DualOption := withMaxWorkers v [lanID; wanID].
Definition WithMaxWorkersLAN (v : Z) : DualOption := withMaxWorkers v [lanID].
Definition WithMaxWorkersWAN (v : Z) : DualOption := withMaxWorkers v [wanID].

Definition withDedicatedPeriodicWorkers (v : Z) (dhts : list dhtID) : DualOption := λ cfg,
  if decide (v < 0)%Z then None else Some (mkDual (dc_resumeCycle cfg) (dc_keystore cfg) (dc_datastores cfg) (dc_reprovideInterval cfg) (dc_maxReprovideDelay cfg) (dc_offlineDelay cfg) (dc_connectivityCheckOnlineInterval cfg) (dc_connectivityCheckOfflineInterval cfg) (dc_maxWorkers cfg) (setAt (dc_dedicatedPeriodicWorkers cfg) dhts v) (dc_dedicatedBurstWorkers cfg) (dc_maxProvideConnsPerWorker cfg) (dc_msgSenders cfg) (dc_loggerNames cfg)).
Definition WithDedicatedPeriodicWorkers (v : Z) : DualOption := withDedicatedPeriodicWorkers v [lanID; wanID].
Definition WithDedicatedPeriodicWorkersLAN (v : Z) : DualOption := withDedicatedPeriodicWorkers v [lanID].
Definition WithDedicatedPeriodicWorkersWAN (v : Z) : DualOption := withDedicatedPeriodicWorkers v [wanID].

Definition withDedicatedBurstWorkers (v : Z) (dhts : list dhtID) : DualOption := λ cfg,
  if decide (v < 0)%Z then None else Some (mkDual (dc_resumeCycle cfg) (dc_keystore cfg) (dc_datastores cfg) (dc_reprovideInterval cfg) (dc_maxReprovideDelay cfg) (dc_offlineDelay cfg) (dc_connectivityCheckOnlineInterval cfg) (dc_connectivityCheckOfflineInterval cfg) (dc_maxWorkers cfg) (dc_dedicatedPeriodicWorkers cfg) (setAt (dc_dedicatedBurstWorkers cfg) dhts v) (dc_maxProvideConnsPerWorker cfg) (dc_msgSenders cfg) (dc_loggerNames cfg)).
Definition WithDedicatedBurstWorkers (v : Z) : DualOption := withDedicatedBurstWorkers v [lanID; wanID].
Definition WithDedicatedBurstWorkersLAN (v : Z) : DualOption := withDedicatedBurstWorkers v [lanID].
Definition WithDedicatedBurstWorkersWAN (v : Z) : DualOption := withDedicatedBurstWorkers v [wanID].

Definition withMaxProvideConnsPerWorker (v : Z) (dhts : list dhtID) : DualOption := λ cfg,
  if decide (v ≤ 0)%Z then None else Some (mkDual (dc_resumeCycle cfg) (dc_keystore cfg) (dc_datastores cfg) (dc_reprovideInterval cfg) (dc_maxReprovideDelay cfg) (dc_offlineDelay cfg) (dc_connectivityCheckOnlineInterval cfg) (dc_connectivityCheckOfflineInterval cfg) (dc_maxWorkers cfg) (dc_dedicatedPeriodicWorkers cfg) (dc_dedicatedBurstWorkers cfg) (setAt (dc_maxProvideConnsPerWorker cfg) dhts v) (dc_msgSenders cfg) (dc_loggerNames cfg)).
Definition WithMaxProvideConnsPerWorker (v : Z) : DualOption := withMaxProvideConnsPerWorker v [lanID; wanID].
Definition WithMaxProvideConnsPerWorkerLAN (v : Z) : DualOption := withMaxProvideConnsPerWorker v [lanID].
Definition WithMaxProvideConnsPerWorkerWAN (v : Z) : DualOption := withMaxProvideConnsPerWorker v [wanID].

Definition withMessageSender (m : option Obj) (dhts : list dhtID) : DualOption := λ cfg,
  match m with None => None | Some _ => Some (mkDual (dc_resumeCycle cfg) (dc_keystore cfg) (dc_datastores cfg) (dc_reprovideInterval cfg) (dc_maxReprovideDelay cfg) (dc_offlineDelay cfg) (dc_connectivityCheckOnlineInterval cfg) (dc_connectivityCheckOfflineInterval cfg) (dc_maxWorkers cfg) (dc_dedicatedPeriodicWorkers cfg) (dc_dedicatedBurstWorkers cfg) (dc_maxProvideConnsPerWorker cfg) (setAt (dc_msgSenders cfg) dhts m) (dc_loggerNames cfg)) end.
Definition WithMessageSenderLAN (m : option Obj) : DualOption := withMessageSender m [lanID].
Definition WithMessageSenderWAN (m : option Obj) : DualOption := withMessageSender m [wanID].

Definition withLoggerName (name : string) (dhts : list dhtID) : DualOption := λ cfg,
  if decide (name = EmptyString) then Some cfg
  else
    match dhts with
    | [i] => Some (mkDual (dc_resumeCycle cfg) (dc_keystore cfg) (dc_datastores cfg) (dc_reprovideInterval cfg) (dc_maxReprovideDelay cfg) (dc_offlineDelay cfg) (dc_connectivityCheckOnlineInterval cfg) (dc_connectivityCheckOfflineInterval cfg) (dc_maxWorkers cfg) (dc_dedicatedPeriodicWorkers cfg) (dc_dedicatedBurstWorkers cfg) (dc_maxProvideConnsPerWorker cfg) (dc_msgSenders cfg) (setAt (dc_loggerNames cfg) [i] name))
    | [_; _] => Some (mkDual (dc_resumeCycle cfg) (dc_keystore cfg) (dc_datastores cfg) (dc_reprovideInterval cfg) (dc_maxReprovideDelay cfg) (dc_offlineDelay cfg) (dc_connectivityCheckOnlineInterval cfg) (dc_connectivityCheckOfflineInterval cfg) (dc_maxWorkers cfg) (dc_dedicatedPeriodicWorkers cfg) (dc_dedicatedBurstWorkers cfg) (dc_maxProvideConnsPerWorker cfg) (dc_msgSenders cfg) (name +:+ "/" +:+ descriptors lanID, name))
    | _ => None
    end.
Definition WithLoggerName (name : string) : DualOption := withLoggerName name [lanID; wanID].
Definition WithLoggerNameLAN (name : string) : DualOption := withLoggerName name [lanID].
Definition WithLoggerNameWAN (name : string) : DualOption := withLoggerName name [wanID].

Definition DefaultLoggerNameWAN : string := DefaultLoggerName.
Definition DefaultLoggerNameLAN : string := DefaultLoggerName +:+ "/" +:+ descriptors lanID.

(** The configuration [getOpts] starts with. *)
Definition defaultDual : dualConfig :=
  mkDual (true, true) None (None, None) (22 * Hour, 22 * Hour)%Z (1 * Hour, 1 * Hour)%Z (2 * Hour, 2 * Hour)%Z (1 * Minute, 1 * Minute)%Z
    (0, 0)%Z (4, 4)%Z (2, 2)%Z (1, 1)%Z (20, 20)%Z (None, None) (DefaultLoggerNameLAN, DefaultLoggerNameWAN).

(** The loop of [getOpts]. *)
Fixpoint applyDual (opts : list DualOption) (cfg : dualConfig) : option dualConfig :=
  match opts with
  | [] => Some cfg
  | opt :: opts => cfg ← opt cfg; applyDual opts cfg
  end.

(** [getOpts] after the options; the message senders of the two DHTs are the
    default ones. *)
Definition resolveDual (lanSender wanSender : Obj) (cfg : dualConfig) : option dualConfig :=
  let sender (m : option Obj) (d : Obj) := match m with None => Some d | Some _ => m end in
  let cfg := mkDual (dc_resumeCycle cfg) (dc_keystore cfg) (dc_datastores cfg) (dc_reprovideInterval cfg) (dc_maxReprovideDelay cfg) (dc_offlineDelay cfg) (dc_connectivityCheckOnlineInterval cfg) (dc_connectivityCheckOfflineInterval cfg) (dc_maxWorkers cfg) (dc_dedicatedPeriodicWorkers cfg) (dc_dedicatedBurstWorkers cfg) (dc_maxProvideConnsPerWorker cfg) (sender (dc_msgSenders cfg).1 lanSender, sender (dc_msgSenders cfg).2 wanSender) (dc_loggerNames cfg) in
  let tooMany i := (wrap64 (at_ (dc_dedicatedPeriodicWorkers cfg) i + at_ (dc_dedicatedBurstWorkers cfg) i) > at_ (dc_maxWorkers cfg) i)%Z in
  if decide (tooMany lanID) then None
  else if decide (tooMany wanID) then None
  else if decide ((dc_datastores cfg).1 ≠ None ∧ (dc_datastores cfg).1 = (dc_datastores cfg).2) then None
  else Some cfg.

Definition getDualOpts (opts : list DualOption) (lanSender wanSender : Obj) : option dualConfig :=
  cfg ← applyDual opts defaultDual; resolveDual lanSender wanSender cfg.

(** What [New] reads from a DHT. *)
Record dhtView := mkView { v_Host : Obj; v_BucketSize : Z; v_FilteredAddrs : Obj; v_DHT : Obj; v_Provide : Obj }.

(** The options that [New] passes to a provider. *)
Definition dhtOpts (cfg : dualConfig) (dht : dhtView) (i : dhtID) : list (@Option Obj) :=
  [WithHost (Some (v_Host dht)); WithReplicationFactor (v_BucketSize dht); WithSelfAddrs (Some (v_FilteredAddrs dht));
   WithRouter (Some (v_DHT dht)); WithAddLocalRecord (Some (v_Provide dht));
   ProviderOptions.WithResumeCycle (at_ (dc_resumeCycle cfg) i); WithMessageSender (at_ (dc_msgSenders cfg) i);
   ProviderOptions.WithReprovideInterval (at_ (dc_reprovideInterval cfg) i); ProviderOptions.WithMaxReprovideDelay (at_ (dc_maxReprovideDelay cfg) i);
   ProviderOptions.WithOfflineDelay (at_ (dc_offlineDelay cfg) i);
   ProviderOptions.WithConnectivityCheckOnlineInterval (at_ (dc_connectivityCheckOnlineInterval cfg) i);
   ProviderOptions.WithMaxWorkers (at_ (dc_maxWorkers cfg) i);
   ProviderOptions.WithDedicatedPeriodicWorkers (at_ (dc_dedicatedPeriodicWorkers cfg) i);
   ProviderOptions.WithDedicatedBurstWorkers (at_ (dc_dedicatedBurstWorkers cfg) i);
   ProviderOptions.WithMaxProvideConnsPerWorker (at_ (dc_maxProvideConnsPerWorker cfg) i);
   ProviderOptions.WithLoggerName (at_ (dc_loggerNames cfg) i); WithDhtType (descriptors i)] ++
  (match dc_keystore cfg with Some ks => [ProviderOptions.WithKeystore (Some ks)] | None => [] end) ++
  (match at_ (dc_datastores cfg) i with Some ds => [ProviderOptions.WithDatastore (Some ds)] | None => [] end).

(** ** The providers that are created *)

(** The options of the package, for any of the DHTs. *)
Inductive isDualOption : DualOption → Prop :=
| dResumeCycle b dhts : isDualOption (withResumeCycle b dhts)
| dKeystore o : isDualOption (WithKeystore o)
| dDatastore o dhts : isDualOption (withDatastore o dhts)
| dReprovideInterval v dhts : isDualOption (withReprovideInterval v dhts)
| dMaxReprovideDelay v dhts : isDualOption (withMaxReprovideDelay v dhts)
| dOfflineDelay v dhts : isDualOption (withOfflineDelay v dhts)
| dOnlineInterval v dhts : isDualOption (withConnectivityCheckOnlineInterval v dhts)
| dOfflineInterval v dhts : isDualOption (withConnectivityCheckOfflineInterval v dhts)
| dMaxWorkers v dhts : isDualOption (withMaxWorkers v dhts)
| dPeriodicWorkers v dhts : isDualOption (withDedicatedPeriodicWorkers v dhts)
| dBurstWorkers v dhts : isDualOption (withDedicatedBurstWorkers v dhts)
| dConns v dhts : isDualOption (withMaxProvideConnsPerWorker v dhts)
| dMessageSender o dhts : isDualOption (withMessageSender o dhts)
| dLoggerName s dhts : isDualOption (withLoggerName s dhts).

Definition dualInRange (cfg : dualConfig) : Prop :=
  ∀ i, (0 < at_ (dc_reprovideInterval cfg) i ∧ 0 < at_ (dc_maxReprovideDelay cfg) i ∧ 0 ≤ at_ (dc_offlineDelay cfg) i ∧
    0 < at_ (dc_maxWorkers cfg) i ∧ 0 ≤ at_ (dc_dedicatedPeriodicWorkers cfg) i ∧ 0 ≤ at_ (dc_dedicatedBurstWorkers cfg) i ∧
    0 < at_ (dc_maxProvideConnsPerWorker cfg) i)%Z.

Lemma setAt_forall {A} (P : A → Prop) a dhts v : P v → (∀ i, P (at_ a i)) → ∀ i, P (at_ (setAt a dhts v) i).
Proof.
  intros Hv. revert a. induction dhts as [|j dhts IH]; intros a Ha; [done|]. apply IH. intros i. specialize (Ha i). by destruct i, j.
Qed.

Lemma dualOption_inRange opt cfg cfg' : isDualOption opt → opt cfg = Some cfg' → dualInRange cfg → dualInRange cfg'.
Proof.
  intros Hopt Heq Hr. unfold dualInRange in *.
  destruct Hopt; cbv beta delta [withResumeCycle WithKeystore withDatastore withReprovideInterval withMaxReprovideDelay withOfflineDelay
    withConnectivityCheckOnlineInterval withConnectivityCheckOfflineInterval withMaxWorkers withDedicatedPeriodicWorkers withDedicatedBurstWorkers
    withMaxProvideConnsPerWorker withMessageSender withLoggerName] in Heq; repeat case_decide; repeat case_match; simplify_eq; try done;
    cbn [dc_reprovideInterval dc_maxReprovideDelay dc_offlineDelay dc_maxWorkers dc_dedicatedPeriodicWorkers dc_dedicatedBurstWorkers
      dc_maxProvideConnsPerWorker]; intros i; pose proof (Hr i); split_and!; try lia.
  all: match goal with |- (0 < at_ (setAt _ _ _) _)%Z => apply (setAt_forall (λ z, 0 < z)%Z); [lia|]
                     | |- (0 ≤ at_ (setAt _ _ _) _)%Z => apply (setAt_forall (λ z, 0 ≤ z)%Z); [lia|] end;
    intros j; specialize (Hr j); lia.
Qed.

Lemma applyDual_inRange opts cfg cfg' : Forall isDualOption opts → applyDual opts cfg = Some cfg' → dualInRange cfg → dualInRange cfg'.
Proof.
  intros Hopts. revert cfg. induction Hopts as [|opt opts Ho _ IH]; intros cfg; cbn [applyDual]; [by intros [= <-]|].
  destruct (opt cfg) as [cfg1|] eqn:E; [|done]. cbn. intros Ha Hr. apply (IH cfg1 Ha). by apply (dualOption_inRange opt cfg).
Qed.

Lemma resolveDual_spec ls ws cfg cfg' :
  resolveDual ls ws cfg = Some cfg' → (dualInRange cfg → dualInRange cfg') ∧
  ((dc_datastores cfg').1 = None ∨ (dc_datastores cfg').1 ≠ (dc_datastores cfg').2) ∧
  ∀ i, is_Some (at_ (dc_msgSenders cfg') i) ∧
    (wrap64 (at_ (dc_dedicatedPeriodicWorkers cfg') i + at_ (dc_dedicatedBurstWorkers cfg') i) ≤ at_ (dc_maxWorkers cfg') i)%Z.
Proof.
  unfold resolveDual. repeat case_decide; try done. intros [= <-]. cbn in *. split; [done|]. split.
  - destruct (decide ((dc_datastores cfg).1 = None)); [by left|right]. tauto.
  - intros [|]; cbn; (split; [case_match; by eexists|lia]).
Qed.

Variables (HostID : Obj → peerID) (noLocalRecord : Obj).

Lemma applyOpts_cons (opt : @Option Obj) opts c c' : opt c = Some c' → applyOpts (opt :: opts) c = applyOpts opts c'.
Proof. intros H. cbn. by rewrite H. Qed.

(** One option that is accepted. *)
Local Ltac optStep :=
  erewrite applyOpts_cons;
    [|cbv beta delta [WithHost WithReplicationFactor WithSelfAddrs WithRouter WithAddLocalRecord ProviderOptions.WithResumeCycle WithMessageSender
        ProviderOptions.WithReprovideInterval ProviderOptions.WithMaxReprovideDelay ProviderOptions.WithOfflineDelay
        ProviderOptions.WithConnectivityCheckOnlineInterval ProviderOptions.WithMaxWorkers ProviderOptions.WithDedicatedPeriodicWorkers
        ProviderOptions.WithDedicatedBurstWorkers ProviderOptions.WithMaxProvideConnsPerWorker ProviderOptions.WithKeystore
        ProviderOptions.WithDatastore ProviderOptions.WithLoggerName WithDhtType];
      rewrite ?decide_False by (assumption || lia); rewrite ?decide_True by assumption; cbn [pc_replicationFactor pc_reprovideInterval pc_maxReprovideDelay pc_offlineDelay
        pc_connectivityCheckOnlineInterval pc_connectivityCallbacks pc_peerid pc_host pc_router pc_keystore pc_datastore pc_msgSender pc_selfAddrs
        pc_addLocalRecord pc_maxWorkers pc_dedicatedPeriodicWorkers pc_dedicatedBurstWorkers pc_maxProvideConnsPerWorker pc_resumeCycle
        pc_skipBootstrapReprovide pc_loggerName pc_metricsDhtType]; reflexivity].

(** The options of the dual provider are accepted by its two providers.
    If the configuration is accepted, then the provider of each DHT with a
    positive bucket size accepts the options it is created with, and works with
    the values of its DHT; the two never share a datastore. *)
Theorem getDualOpts_accepted opts ls ws cfg i dht :
  Forall isDualOption opts → getDualOpts opts ls ws = Some cfg → (0 < v_BucketSize dht)%Z →
  ((dc_datastores cfg).1 = None ∨ (dc_datastores cfg).1 ≠ (dc_datastores cfg).2) ∧
  ∃ c, getOpts HostID noLocalRecord (dhtOpts cfg dht i) = Some c ∧
    pc_replicationFactor c = v_BucketSize dht ∧ pc_peerid c = HostID (v_Host dht) ∧
    pc_reprovideInterval c = at_ (dc_reprovideInterval cfg) i ∧ pc_maxReprovideDelay c = at_ (dc_maxReprovideDelay cfg) i ∧
    pc_maxWorkers c = at_ (dc_maxWorkers cfg) i ∧ pc_msgSender c = at_ (dc_msgSenders cfg) i ∧
    pc_datastore c = at_ (dc_datastores cfg) i ∧ pc_keystore c = dc_keystore cfg ∧ pc_resumeCycle c = at_ (dc_resumeCycle cfg) i.
Proof.
  intros Hopts Hget Hb. unfold getDualOpts in Hget. destruct (applyDual opts defaultDual) as [cfg1|] eqn:Ha; [|done]. cbn in Hget.
  destruct (resolveDual_spec ls ws cfg1 cfg Hget) as (Hr & Hds & Hs).
  assert (dualInRange cfg) as Hrange.
  { apply Hr, (applyDual_inRange opts defaultDual); [done|done|]. intros []; cbn; by split_and!. }
  clear Hr Ha Hget Hopts cfg1. split; [done|]. specialize (Hrange i). destruct (Hs i) as [[m Hm] Hw]. clear Hs.
  unfold getOpts, dhtOpts, defaultConfig. rewrite Hm. cbn [app]. do 15 optStep.
  assert (descriptors i ≠ EmptyString) as Hdesc by (by destruct i).
  destruct (decide (at_ (dc_loggerNames cfg) i = EmptyString)) as [Hl|Hl]; do 2 optStep;
    destruct (dc_keystore cfg) as [ks|], (at_ (dc_datastores cfg) i) as [ds|]; cbn [app]; repeat optStep; cbn [applyOpts mbind option_bind];
    unfold validate; cbn [pc_peerid pc_host]; rewrite decide_True by done; cbn [mbind option_bind pc_router pc_msgSender pc_selfAddrs
      pc_dedicatedPeriodicWorkers pc_dedicatedBurstWorkers pc_maxWorkers]; rewrite !decide_False by (done || lia); by eexists.
Qed.
End options.

(** ** Example *)

(** Datastores and objects are numbers. *)
Definition demoWrap (d : nat) (s : string) : nat := if decide (s = "lan"%string) then 10 * d else 10 * d + 1.

Definition demoDualOpts : list DualOption := [WithDatastore demoWrap (Some 3); WithMaxWorkersLAN 8; WithReprovideIntervalWAN Hour].
Definition demoView : dhtView := mkView 1 20%Z 2 3 4.

Lemma getDualOpts_accepted_witness :
  ∃ cfg c, getDualOpts demoDualOpts 5 6 = Some cfg ∧ getOpts (λ _, [1%Z]) 0 (dhtOpts cfg demoView lanID) = Some c ∧
    pc_reprovideInterval c = at_ (dc_reprovideInterval cfg) lanID.
Proof.
  destruct (getDualOpts demoDualOpts 5 6) as [cfg|] eqn:E; [|by vm_compute in E].
  destruct (getDualOpts_accepted demoWrap (λ _, [1%Z]) 0 demoDualOpts 5 6 cfg lanID demoView) as (_ & c & H1 & _ & _ & H2 & _); [|exact E|reflexivity|].
  - unfold demoDualOpts. clear E. repeat constructor.
  - exists cfg, c. split; [reflexivity|]. split; [exact H1|exact H2].
Defined.
