(* ===== verification/Dual.v ===== *)
(** * The dual DHT

    [dual/dual.go]: the operations of a node that is part of a WAN and a LAN
    DHT, from the results of the two, and [provider/dual/provider.go]: the
    operations of the provider for both.  The two sub-providers and the
    keystore are parameters, given by the classes [SubProvider] and
    [KeystoreLib]. *)

From S2P Require Import Prelude Datastore Message.

(** ** Errors *)

(** [ErrLookupFailure], other errors, and the combination of two. *)
Inductive dError := ELookupFailure | EOther (n : nat) | EBoth (a b : dError).

#[export] Instance dError_eq_dec : EqDecision dError.
Proof. solve_decision. Defined.

(** [multierr.Append] and [errors.Join] *)
Definition joinErrors (a b : option dError) : option dError :=
  match a, b with
  | None, _ => b
  | _, None => a
  | Some a, Some b => Some (EBoth a b)
  end.

(** [combineErrors] *)
Definition combineErrors (erra errb : option dError) : option dError :=
  if decide (erra = errb) then erra
  else if decide (erra = Some ELookupFailure) then errb
  else if decide (errb = Some ELookupFailure) then erra
  else joinErrors erra errb.

Section dual.
Context {ML : MaLib}.
Implicit Types (pi : AddrInfo) (p : peerID).

(** ** Values *)

(** [GetValue], from the results of the two. *)
Definition dual_GetValue (wan lan : bytes * option dError) : bytes * option dError :=
  match wan.2 with
  | None => (wan.1, None)
  | Some _ =>
      match lan.2 with
      | None => (lan.1, None)
      | Some _ => ([], combineErrors wan.2 lan.2)
      end
  end.

(** [WANActive], and the DHT that [PutValue] and [Provide] use. *)
Definition WANActive (wanSize : nat) : bool := bool_decide (0 < wanSize).

Definition dual_PutValue {W L R} (wanSize : nat) (w : W) (l : L) (putW : W → W * R) (putL : L → L * R) : W * L * R :=
  if WANActive wanSize then let '(w, r) := putW w in (w, l, r) else let '(l, r) := putL l in (w, l, r).

(** [Provide] *)
Definition dual_Provide {W L R} (wanSize : nat) (w : W) (l : L) (provideW : W → W * R) (provideL : L → L * R) : W * L * R :=
  if WANActive wanSize then let '(w, r) := provideW w in (w, l, r) else let '(l, r) := provideL l in (w, l, r).

(** [GetRoutingTableDiversityStats] *)
Definition dual_DiversityStats {R} (wanSize : nat) (stats : option R) : option R := if WANActive wanSize then stats else None.

(** [Bootstrap] and [Close]: both DHTs, whatever the error of the first. *)
Definition dual_Bootstrap {W L} (w : W) (l : L) (bootW : W → W * option dError) (bootL : L → L * option dError) : W * L * option dError :=
  let '(w, erra) := bootW w in
  let '(l, errb) := bootL l in
  (w, l, combineErrors erra errb).
Definition dual_Close {W L} (w : W) (l : L) (closeW : W → W * option dError) (closeL : L → L * option dError) : W * L * option dError :=
  let '(w, erra) := closeW w in
  let '(l, errb) := closeL l in
  (w, l, combineErrors erra errb).

(** No error is reported if none occurred, or only one DHT failed, for want of peers. *)
Lemma combineErrors_None erra errb :
  combineErrors erra errb = None ↔
    erra = None ∧ errb = None ∨ erra = None ∧ errb = Some ELookupFailure ∨ erra = Some ELookupFailure ∧ errb = None.
Proof using Type.
  unfold combineErrors, joinErrors. destruct erra as [a|], errb as [b|]; repeat case_decide; simplify_eq; split; intros; destruct_or?; destruct_and?; simplify_eq; auto.
Qed.

(** ** Finding peers *)

(** The loop over the addresses of [FindPeer]. *)
Definition dedup (m : gmap bytes MA) (addrs : list MA) : gmap bytes MA := foldl (λ m a, <[ma_Bytes a := a]> m) m addrs.

(** [FindPeer]; the order of a map is not specified. *)
Definition dual_FindPeer (pid : peerID) (wan lan : AddrInfo * option dError) : AddrInfo * option dError :=
  let wanAddrs := ai_Addrs wan.1 in
  let lanAddrs := ai_Addrs lan.1 in
  let addrs :=
    if decide (length wanAddrs = 0) then lanAddrs
    else if decide (length lanAddrs = 0) then wanAddrs
    else (map_to_list (dedup (dedup ∅ wanAddrs) lanAddrs)).*2 in
  let ai := mkAddrInfo pid addrs in
  match wan.2, lan.2 with
  | Some _, Some _ => (ai, combineErrors wan.2 lan.2)
  | _, _ => (ai, None)
  end.

(** ** Finding providers *)

(** What the goroutine of [FindProvidersAsync] receives: a provider, with the
    choice between sending it on and the end of the context, or the end of a
    channel. *)
Inductive dualEvent := DProvider (pi : AddrInfo) (sent : bool) | DWanClosed | DLanClosed.

(** The loop, over the merged channels: what it sends. *)
Fixpoint dualFind (zeroCount : bool) (count : Z) (found : gset peerID) (wanOpen lanOpen : bool) (evs : list dualEvent) : list AddrInfo :=
  if (zeroCount || bool_decide (0 < count)%Z) && (wanOpen || lanOpen) then
    match evs with
    | [] => []
    | DWanClosed :: evs => dualFind zeroCount count found false lanOpen evs
    | DLanClosed :: evs => dualFind zeroCount count found wanOpen false evs
    | DProvider pi sent :: evs =>
        if decide (ai_ID pi ∈ found) then dualFind zeroCount count found wanOpen lanOpen evs
        else if sent then pi :: dualFind zeroCount (count - 1) ({[ai_ID pi]} ∪ found) wanOpen lanOpen evs
        else []
    end
  else [].

(** [FindProvidersAsync] *)
Definition dual_FindProvidersAsync (count : Z) (evs : list dualEvent) : list AddrInfo :=
  dualFind (bool_decide (count = 0%Z)) count ∅ true true evs.

Lemma dualFind_spec zc count found w l evs :
  let r := dualFind zc count found w l evs in
  NoDup (ai_ID <$> r) ∧ (∀ pi, pi ∈ r → ai_ID pi ∉ found) ∧ (zc = false → (Z.of_nat (length r) ≤ Z.max 0 count)%Z) ∧
  ∀ pi, pi ∈ r → DProvider pi true ∈ evs.
Proof.
  cbv zeta. revert count found w l. induction evs as [|ev evs IH]; intros count found w l; cbn [dualFind];
    (destruct ((zc || bool_decide (0 < count)%Z) && (w || l)) eqn:Hgo;
      [cbv iota|split_and!; [constructor|intros ? Hp; by apply not_elem_of_nil in Hp|cbn; lia|intros ? Hp; by apply not_elem_of_nil in Hp]]).
  { split_and!; [constructor|intros ? Hp; by apply not_elem_of_nil in Hp|cbn; lia|intros ? Hp; by apply not_elem_of_nil in Hp]. }
  destruct ev as [pi sent| | ].
  - destruct (decide (ai_ID pi ∈ found)) as [Hf|Hf].
    { destruct (IH count found w l) as (I1 & I2 & I3 & I4). split_and!; [done|done|done|]. intros x Hx. right. auto. }
    destruct sent.
    + destruct (IH (count - 1)%Z ({[ai_ID pi]} ∪ found) w l) as (I1 & I2 & I3 & I4). split_and!.
      * rewrite fmap_cons. apply NoDup_cons. split; [|done]. intros (x & Hx & Hin)%list_elem_of_fmap. apply (I2 x Hin). set_solver.
      * intros x [->|Hx]%elem_of_cons; [done|]. specialize (I2 x Hx). set_solver.
      * intros Hz. specialize (I3 Hz). rewrite Hz in Hgo. cbn in Hgo. apply andb_true_iff in Hgo as [Hc%bool_decide_eq_true _]. cbn [length]. lia.
      * intros x [->|Hx]%elem_of_cons; [left|right; auto].
    + split_and!; [constructor|intros ? Hp; by apply not_elem_of_nil in Hp|cbn; lia|intros ? Hp; by apply not_elem_of_nil in Hp].
  - destruct (IH count found false l) as (I1 & I2 & I3 & I4). split_and!; [done|done|done|]. intros x Hx. right. auto.
  - destruct (IH count found w false) as (I1 & I2 & I3 & I4). split_and!; [done|done|done|]. intros x Hx. right. auto.
Qed.

Lemma dualFind_all count found w l evs pi :
  (∀ pi sent, DProvider pi sent ∈ evs → sent = true) → w = true ∨ l = true →
  (∀ evs1 evs2, evs = evs1 ++ evs2 → (DWanClosed ∈ evs1 ∨ w = false) → (DLanClosed ∈ evs1 ∨ l = false) → ∀ pi sent, DProvider pi sent ∉ evs2) →
  DProvider pi true ∈ evs → ai_ID pi ∈ found ∨ ai_ID pi ∈ ai_ID <$> dualFind true count found w l evs.
Proof.
  revert count found w l. induction evs as [|ev evs IH]; intros count found w l Hsent Hopen Hcl Hin; [by apply not_elem_of_nil in Hin|].
  assert (∀ pi sent, DProvider pi sent ∈ evs → sent = true) as Hsent' by (intros ? ? ?; eapply Hsent; by right).
  cbn [dualFind orb]. replace (w || l) with true by (by destruct Hopen as [-> | ->]; [|rewrite orb_true_r]). cbn [andb].
  apply elem_of_cons in Hin. destruct ev as [pi' sent| | ].
  - assert (∀ evs1 evs2, evs = evs1 ++ evs2 → (DWanClosed ∈ evs1 ∨ w = false) → (DLanClosed ∈ evs1 ∨ l = false) →
      ∀ pi sent, DProvider pi sent ∉ evs2) as Hcl'.
    { intros evs1 evs2 -> Hw Hl. apply (Hcl (DProvider pi' sent :: evs1) evs2); [done|destruct Hw; [left; by right|by right]|destruct Hl; [left; by right|by right]]. }
    assert (sent = true) as -> by (eapply Hsent; left). case_decide as Hf.
    + destruct Hin as [[= <-]|Hin]; [by left|]. by apply IH.
    + rewrite fmap_cons. destruct Hin as [[= <-]|Hin]; [right; left|].
      destruct (IH (count - 1)%Z ({[ai_ID pi']} ∪ found) w l Hsent' Hopen Hcl' Hin) as [Hx|Hx]; [|right; by right].
      apply elem_of_union in Hx as [->%elem_of_singleton|?]; [right; left|by left].
  - destruct Hin as [?|Hin]; [done|]. destruct l; [|exfalso; eapply (Hcl [DWanClosed] evs); [done|left; left|by right|done]].
    apply IH; [done|by right| |done]. intros evs1 evs2 -> _ Hl. apply (Hcl (DWanClosed :: evs1) evs2); [done|left; left|].
    destruct Hl; [left; by right|by right].
  - destruct Hin as [?|Hin]; [done|]. destruct w; [|exfalso; eapply (Hcl [DLanClosed] evs); [done|by right|left; left|done]].
    apply IH; [done|by left| |done]. intros evs1 evs2 -> Hw _. apply (Hcl (DLanClosed :: evs1) evs2); [done| |left; left].
    destruct Hw; [left; by right|by right].
Qed.

(** Merging the providers of two DHTs.  Every provider is sent at most
    once, at most [count] of them if [count] is positive, and only ones that a
    DHT returned; with [count] 0 and a context that is not done, every provider
    that a DHT returned is sent. *)
Theorem dual_FindProvidersAsync_correct count evs :
  let r := dual_FindProvidersAsync count evs in
  NoDup (ai_ID <$> r) ∧ ((0 < count)%Z → (Z.of_nat (length r) ≤ count)%Z) ∧ (∀ pi, pi ∈ r → DProvider pi true ∈ evs) ∧
  (count = 0%Z → (∀ pi sent, DProvider pi sent ∈ evs → sent = true) →
   (∀ evs1 evs2, evs = evs1 ++ evs2 → DWanClosed ∈ evs1 → DLanClosed ∈ evs1 → ∀ pi sent, DProvider pi sent ∉ evs2) →
   ∀ pi, DProvider pi true ∈ evs → ai_ID pi ∈ ai_ID <$> r).
Proof.
  cbv zeta. unfold dual_FindProvidersAsync.
  destruct (dualFind_spec (bool_decide (count = 0%Z)) count ∅ true true evs) as (H1 & _ & H3 & H4). split_and!; [done| |done|].
  - intros Hc. rewrite bool_decide_eq_false_2 in * by lia. specialize (H3 eq_refl). lia.
  - intros -> Hs Hcl pi Hpi. destruct (dualFind_all 0 ∅ true true evs pi Hs) as [Hn|?]; [by left| |done|by apply not_elem_of_empty in Hn|done].
    intros evs1 evs2 He [?|?] [?|?]; try done. by apply (Hcl evs1).
Qed.
End dual.

Section find_peer.
Context {ML : MaLib} {MW : MaLaws}.

Lemma elem_of_dedup m addrs (a : MA) :
  (∀ b x, m !! b = Some x → ma_Bytes x = b) →
  (∀ b x, dedup m addrs !! b = Some x → ma_Bytes x = b) ∧ (dedup m addrs !! ma_Bytes a = Some a ↔ a ∈ addrs ∨ m !! ma_Bytes a = Some a).
Proof.
  unfold dedup. revert m. induction addrs as [|x addrs IH]; intros m Hm; cbn [foldl].
  { split; [done|]. split; [by right|]. intros [Hn|?]; [by apply not_elem_of_nil in Hn|done]. }
  assert (∀ b y, <[ma_Bytes x := x]> m !! b = Some y → ma_Bytes y = b) as Hm'.
  { intros b y. destruct (decide (b = ma_Bytes x)) as [->|Hb]; [rewrite lookup_insert_eq; by intros [= <-]|].
    rewrite lookup_insert_ne by done. apply Hm. }
  assert (∀ y z, ma_Bytes y = ma_Bytes z → y = z) as Hinj.
  { intros y z He. apply (inj Some). by rewrite <-(ma_roundtrip y), <-(ma_roundtrip z), He. }
  destruct (IH _ Hm') as [I1 I2]. split; [done|]. rewrite I2, elem_of_cons. destruct (decide (ma_Bytes a = ma_Bytes x)) as [->%Hinj|Ha].
  - rewrite lookup_insert_eq. naive_solver.
  - rewrite lookup_insert_ne by done. naive_solver.
Qed.

(** [FindPeer] of the dual DHT returns the addresses of both DHTs, and an error
    only if both fail. *)
Theorem dual_FindPeer_correct pid wan lan :
  let '(ai, err) := dual_FindPeer pid wan lan in
  ai_ID ai = pid ∧ (∀ a, a ∈ ai_Addrs ai ↔ a ∈ ai_Addrs wan.1 ∨ a ∈ ai_Addrs lan.1) ∧
  (wan.2 = None ∨ lan.2 = None → err = None) ∧
  (∀ e e', wan.2 = Some e → lan.2 = Some e' → is_Some err).
Proof.
  unfold dual_FindPeer. set (addrs := if decide (length (ai_Addrs wan.1) = 0) then _ else _).
  assert (∀ a, a ∈ addrs ↔ a ∈ ai_Addrs wan.1 ∨ a ∈ ai_Addrs lan.1) as Ha.
  { intros a. unfold addrs. case_decide as Hw; [apply nil_length_inv in Hw as ->; split; [by right|]; intros [Hn|?]; [by apply not_elem_of_nil in Hn|done]|].
    case_decide as Hl; [apply nil_length_inv in Hl as ->; split; [by left|]; intros [?|Hn]; [done|by apply not_elem_of_nil in Hn]|].
    destruct (elem_of_dedup ∅ (ai_Addrs wan.1) a) as [E1 E2]; [intros b x Hx; by rewrite lookup_empty in Hx|].
    destruct (elem_of_dedup (dedup ∅ (ai_Addrs wan.1)) (ai_Addrs lan.1) a E1) as [E3 E4]. rewrite list_elem_of_fmap. split.
    - intros ([b x] & -> & Hx%elem_of_map_to_list). cbn. rewrite <-(E3 _ _ Hx) in Hx. revert Hx.
      destruct (elem_of_dedup ∅ (ai_Addrs wan.1) x) as [_ F2]; [intros ? ? Hy; by rewrite lookup_empty in Hy|].
      destruct (elem_of_dedup (dedup ∅ (ai_Addrs wan.1)) (ai_Addrs lan.1) x E1) as [_ F4]. rewrite F4, F2, lookup_empty. naive_solver.
    - intros Hin. exists (ma_Bytes a, a). split; [done|]. apply elem_of_map_to_list. apply E4. rewrite E2. naive_solver. }
  assert (∀ e e', wan.2 = Some e → lan.2 = Some e' → is_Some (combineErrors wan.2 lan.2)) as Hc.
  { intros e e' -> ->. unfold combineErrors. repeat case_decide; cbn; by eexists. }
  destruct (wan.2), (lan.2); split_and!; try done; cbn; try (intros [? | ?]; done); eauto.
Qed.
End find_peer.

(** Both DHTs return a provider again when its addresses become known; the dual
    DHT drops the second one, and with it the addresses. *)
Example dual_FindProvidersAsync_no_addrs :
  let ML := {| MA := Z; ma_Bytes z := [z]; NewMultiaddrBytes b := head b |} in
  dual_FindProvidersAsync (ML := ML) 5 [DProvider (ML := ML) (mkAddrInfo [1%Z] []) true; DProvider (ML := ML) (mkAddrInfo [1%Z] [7%Z]) true]
    = [mkAddrInfo (ML := ML) [1%Z] []].
Proof. by vm_compute. Qed.

(** ** The dual provider *)

Class SubProvider (mh : Type) := {
  SP : Type;
  sp_ProvideOnce : SP → list mh → SP * option dError;
  sp_AddToSchedule : SP → list mh → SP * option dError;
  sp_RefreshSchedule : SP → SP * option dError;
  sp_Clear : SP → SP * Z;
  sp_Close : SP → SP * option dError;
}.

Class KeystoreLib (mh : Type) := {
  KSD : Type;
  ksd_Put : KSD → list mh → KSD * (dError + list mh);
  ksd_Delete : KSD → list mh → KSD * option dError;
}.

Section provider.
Context {mh : Type} {SPL : SubProvider mh} {KL : KeystoreLib mh}.

(** The state: the providers of the LAN and the WAN, and the keystore. *)
Record dualProvider := mkDP { dp_LAN : SP; dp_WAN : SP; dp_keystore : KSD }.
Implicit Types s : dualProvider.

(** [runOnBoth] *)
Definition runOnBoth (f : SP → SP * option dError) s : dualProvider * option dError :=
  let '(lan, lanErr) := f (dp_LAN s) in
  let '(wan, err) := f (dp_WAN s) in
  (mkDP lan wan (dp_keystore s), joinErrors lanErr err).

Definition dp_ProvideOnce (keys : list mh) s : dualProvider * option dError := runOnBoth (λ p, sp_ProvideOnce p keys) s.

(** [StartProviding]; the errors of [AddToSchedule] are dropped. *)
Definition dp_StartProviding (force : bool) (keys : list mh) s : dualProvider * option dError :=
  let '(ks, r) := ksd_Put (dp_keystore s) keys in
  let s := mkDP (dp_LAN s) (dp_WAN s) ks in
  match r with
  | inl err => (s, Some err)
  | inr newKeys =>
      let '(s, _) := runOnBoth (λ p, sp_AddToSchedule p newKeys) s in
      dp_ProvideOnce (if force then keys else newKeys) s
  end.

Definition dp_StopProviding (keys : list mh) s : dualProvider * option dError :=
  let '(ks, err) := ksd_Delete (dp_keystore s) keys in (mkDP (dp_LAN s) (dp_WAN s) ks, err).

Definition dp_Clear s : dualProvider * Z :=
  let '(lan, n) := sp_Clear (dp_LAN s) in
  let '(wan, m) := sp_Clear (dp_WAN s) in
  (mkDP lan wan (dp_keystore s), n + m)%Z.

Definition dp_RefreshSchedule s : dualProvider * option dError := runOnBoth sp_RefreshSchedule s.

(** [Close]: the clean-up functions, of which the last one is called first, and
    their errors. *)
Definition cleanupErrors (cleanup : list (option dError)) : list dError := omap id (reverse cleanup).

Definition dp_Close (cleanup : list (option dError)) s : dualProvider * option dError :=
  let '(s, err) := runOnBoth sp_Close s in
  let errs := cleanupErrors cleanup in
  (s, if decide (errs = []) then err else foldl (λ acc e, joinErrors acc (Some e)) None (errs ++ match err with Some e => [e] | None => [] end)).

Lemma joinErrors_None a b : joinErrors a b = None ↔ a = None ∧ b = None.
Proof. destruct a, b; naive_solver. Qed.

(** An operation on both succeeds exactly if it succeeds on each, and each is
    run whatever happens to the other. *)
Lemma runOnBoth_spec f s :
  let '(s', err) := runOnBoth f s in
  dp_LAN s' = (f (dp_LAN s)).1 ∧ dp_WAN s' = (f (dp_WAN s)).1 ∧ dp_keystore s' = dp_keystore s ∧
  (err = None ↔ (f (dp_LAN s)).2 = None ∧ (f (dp_WAN s)).2 = None).
Proof.
  unfold runOnBoth. destruct (f (dp_LAN s)) as [lan e1], (f (dp_WAN s)) as [wan e2]. split_and!; try done. apply joinErrors_None.
Qed.

Lemma joinErrors_foldl acc errs : foldl (λ acc e, joinErrors acc (Some e)) acc errs = None ↔ acc = None ∧ errs = [].
Proof. revert acc. induction errs as [|e errs IH]; intros acc; cbn [foldl]; [naive_solver|]. rewrite IH, joinErrors_None. naive_solver. Qed.

(** [Close] closes both providers, and returns no error exactly if nothing
    failed. *)
Theorem dp_Close_correct cleanup s :
  let '(s', err) := dp_Close cleanup s in
  dp_LAN s' = (sp_Close (dp_LAN s)).1 ∧ dp_WAN s' = (sp_Close (dp_WAN s)).1 ∧
  (err = None ↔ (sp_Close (dp_LAN s)).2 = None ∧ (sp_Close (dp_WAN s)).2 = None ∧ cleanupErrors cleanup = []).
Proof.
  unfold dp_Close. pose proof (runOnBoth_spec sp_Close s) as Hr. destruct (runOnBoth sp_Close s) as [s' err].
  destruct Hr as (H1 & H2 & _ & H4). split_and!; [done|done|]. case_decide as Hc; [rewrite H4; tauto|].
  rewrite joinErrors_foldl. split; [intros [_ Hn]; by apply app_eq_nil in Hn as [??]|tauto].
Qed.
End provider.
