(* ===== verification/FullRT.v ===== *)
(** * The full routing table client

    [fullrt/dht.go]: the client that crawls the network and keeps all peers of
    the DHT.  The closest peers with the limit of peers per IP group, the
    execution of requests on many peers, the bulk operations and their division
    into chunks, and the checks of peers.

    The trie of the routing table is given by the list of its keys in the order
    of their distance to the target; the IP group of an address is a parameter.
    [None] is a panic. *)

From S2P Require Import Prelude GoTime Message.

(** ** Closest peers *)

Section closest.
Context {K A G : Type} `{Countable K, Countable G}.
Variables (bucketSize ipDiversityFilterLimit : nat).
(** [kademlia.ClosestN], and the number of keys of the routing table. *)
Variables (ClosestN : nat → list K) (rtSize : nat).
Variables (keyToPeerMap : gmap K peerID) (peerAddrs : gmap peerID (list A)).
(** [IPGroupKey] of [ToIP], if the address has an IP and a group. *)
Variable ipGroup : A → option G.
Implicit Types (counts : gmap G (gset peerID)) (p : peerID) (peers : list peerID).

Abbreviation limit := ipDiversityFilterLimit.

(** The loop over the addresses of a peer: whether the peer is skipped. *)
Fixpoint rtGroupLoop counts p (addrs : list A) : gmap G (gset peerID) * bool :=
  match addrs with
  | [] => (counts, false)
  | addr :: addrs =>
      match ipGroup addr with
      | None => rtGroupLoop counts p addrs
      | Some g =>
          let group := default ∅ (counts !! g) in
          if decide (limit ≤ size group) then (<[g := group]> counts, true)
          else rtGroupLoop (<[g := {[p]} ∪ group]> counts) p addrs
      end
  end.

(** The loop over the keys of a step: whether there are enough peers. *)
Fixpoint peersLoop counts peers (closestKeys : list K) : gmap G (gset peerID) * list peerID * bool :=
  match closestKeys with
  | [] => (counts, peers, false)
  | k :: closestKeys =>
      match keyToPeerMap !! k with
      | None => peersLoop counts peers closestKeys
      | Some p =>
          let addrs := default [] (peerAddrs !! p) in
          let '(counts, skip) := if decide (0 < limit) then rtGroupLoop counts p addrs else (counts, false) in
          if skip : bool then peersLoop counts peers closestKeys
          else
            let peers := peers ++ [p] in
            if decide (length peers = bucketSize) then (counts, peers, true) else peersLoop counts peers closestKeys
      end
  end.

(** The loop over the steps, with [fuel]. *)
Fixpoint closestSteps (fuel nClosest : nat) counts peers : option (list peerID) :=
  match fuel with
  | 0 => None
  | S fuel =>
      let step := bucketSize + 2 * limit in
      if decide (nClosest < rtSize) then
        let closestKeys := drop nClosest (ClosestN (nClosest + step)) in
        let '(counts, peers, enough) := peersLoop counts peers closestKeys in
        if enough : bool then Some peers else closestSteps fuel (nClosest + step) counts peers
      else Some peers
  end.

(** [GetClosestPeers] *)
Definition fullrt_GetClosestPeers (fuel : nat) : option (list peerID) := closestSteps fuel 0 ∅ [].

(** *** All steps are one pass *)

Variable sorted : list K.
Hypothesis ClosestN_take : ∀ n, ClosestN n = take n sorted.
Hypothesis rtSize_length : rtSize = length sorted.

Lemma peersLoop_app counts peers l l' :
  peersLoop counts peers (l ++ l') =
    let '(counts, peers, enough) := peersLoop counts peers l in
    if enough : bool then (counts, peers, true) else peersLoop counts peers l'.
Proof.
  revert counts peers. induction l as [|k l IH]; intros counts peers; cbn [app peersLoop]; [done|].
  destruct (keyToPeerMap !! k) as [p|]; [|apply IH].
  destruct (if decide (0 < limit) then rtGroupLoop counts p (default [] (peerAddrs !! p)) else (counts, false)) as [counts' []]; [apply IH|].
  case_decide; [done|apply IH].
Qed.

Lemma closestSteps_pass fuel nClosest counts peers :
  0 < bucketSize + 2 * limit → length sorted - nClosest < fuel →
  closestSteps fuel nClosest counts peers = Some (peersLoop counts peers (drop nClosest sorted)).1.2.
Proof using ClosestN_take rtSize_length.
  intros Hstep. revert nClosest counts peers. induction fuel as [|fuel IH]; intros nClosest counts peers Hf; [lia|].
  cbn [closestSteps]. rewrite rtSize_length. case_decide as Hn; [|by rewrite drop_ge by lia].
  rewrite ClosestN_take, <-take_drop_commute. set (step := bucketSize + 2 * limit) in *.
  rewrite <-(take_drop step (drop nClosest sorted)) at 2. rewrite peersLoop_app.
  destruct (peersLoop counts peers (take step (drop nClosest sorted))) as [[counts' peers'] []]; [done|].
  rewrite IH by lia. by rewrite drop_drop.
Qed.

(** *** What is returned *)

Lemma peersLoop_sublist counts peers l :
  sublist (peersLoop counts peers l).1.2 (peers ++ omap (keyToPeerMap !!.) l) ∧ (length peers < bucketSize →
  length (peersLoop counts peers l).1.2 ≤ bucketSize).
Proof.
  revert counts peers. induction l as [|k l IH]; intros counts peers; cbn [peersLoop].
  { cbn. rewrite app_nil_r. split; [done|lia]. }
  cbn [omap list_omap]. destruct (keyToPeerMap !! k) as [p|]; [|apply IH].
  destruct (if decide (0 < limit) then rtGroupLoop counts p (default [] (peerAddrs !! p)) else (counts, false)) as [counts' []].
  - destruct (IH counts' peers) as [I1 I2]. split; [|done]. etrans; [exact I1|]. apply sublist_app; [done|by apply sublist_cons].
  - case_decide as Hl; cbn [fst snd].
    + split; [|lia]. change (p :: omap (keyToPeerMap !!.) l) with ([p] ++ omap (keyToPeerMap !!.) l). rewrite app_assoc.
      apply sublist_inserts_r. done.
    + destruct (IH counts' (peers ++ [p])) as [I1 I2]. rewrite <-app_assoc in I1. split; [done|]. intros Hlt. apply I2.
      rewrite length_app in *. cbn in *. lia.
Qed.

(** Without a limit no peer is skipped. *)
Lemma peersLoop_all counts peers l :
  limit = 0 → length peers < bucketSize → (peersLoop counts peers l).1.2 = take bucketSize (peers ++ omap (keyToPeerMap !!.) l).
Proof.
  intros Hlim. revert counts peers. induction l as [|k l IH]; intros counts peers Hlen; cbn [peersLoop].
  { cbn. rewrite app_nil_r, take_ge by lia. done. }
  cbn [omap list_omap]. destruct (keyToPeerMap !! k) as [p|]; [|by apply IH]. rewrite decide_False by lia.
  change (p :: omap (keyToPeerMap !!.) l) with ([p] ++ omap (keyToPeerMap !!.) l). rewrite app_assoc. case_decide as Hl; cbn [fst snd].
  - rewrite take_app_le by lia. rewrite take_ge by lia. done.
  - apply IH. rewrite length_app in *. cbn in *. lia.
Qed.

(** The groups of a peer. *)
Definition inIPGroup (g : G) p : Prop := ∃ a, a ∈ default [] (peerAddrs !! p) ∧ ipGroup a = Some g.

Definition countsOk counts : Prop := ∀ g, size (default ∅ (counts !! g)) ≤ limit.

Lemma rtGroupLoop_spec counts p addrs :
  countsOk counts →
  let '(counts', skip) := rtGroupLoop counts p addrs in
  countsOk counts' ∧ (∀ g, default ∅ (counts !! g) ⊆ default ∅ (counts' !! g)) ∧
  (skip = false → ∀ a g, a ∈ addrs → ipGroup a = Some g → p ∈ default ∅ (counts' !! g)).
Proof.
  revert counts. induction addrs as [|a addrs IH]; intros counts Hok; cbn [rtGroupLoop].
  { split_and!; [done|done|]. intros _ a g Ha. by apply not_elem_of_nil in Ha. }
  destruct (ipGroup a) as [g|] eqn:Hg.
  - case_decide as Hl.
    { split_and!; [intros g'|intros g'|done]; (destruct (decide (g' = g)) as [->|Hne]; [rewrite lookup_insert_eq; cbn|rewrite lookup_insert_ne by done]); auto. }
    set (group := default ∅ (counts !! g)) in *.
    assert (countsOk (<[g := {[p]} ∪ group]> counts)) as Hok'.
    { intros g'. destruct (decide (g' = g)) as [->|Hne]; [rewrite lookup_insert_eq; cbn|by rewrite lookup_insert_ne].
      rewrite size_union_alt, size_singleton. assert (size (group ∖ {[p]}) ≤ size group) by (apply subseteq_size; set_solver). lia. }
    specialize (IH _ Hok'). destruct (rtGroupLoop _ p addrs) as [counts' skip]. destruct IH as (I1 & I2 & I3). split_and!; [done| |].
    + intros g'. etrans; [|apply I2]. destruct (decide (g' = g)) as [->|Hne]; [rewrite lookup_insert_eq; cbn; set_solver|by rewrite lookup_insert_ne].
    + intros Hs b g' [->|Hb]%elem_of_cons Hbg; [|by apply (I3 Hs b)]. rewrite Hg in Hbg. injection Hbg as <-.
      apply (I2 g). rewrite lookup_insert_eq. cbn. set_solver.
  - specialize (IH counts Hok). destruct (rtGroupLoop counts p addrs) as [counts' skip]. destruct IH as (I1 & I2 & I3). split_and!; [done|done|].
    intros Hs b g' [->|Hb]%elem_of_cons Hbg; [congruence|by apply (I3 Hs b)].
Qed.

Lemma peersLoop_groups counts peers l :
  0 < limit → countsOk counts → (∀ p g, p ∈ peers → inIPGroup g p → p ∈ default ∅ (counts !! g)) →
  let '(counts', peers', _) := peersLoop counts peers l in
  countsOk counts' ∧ ∀ p g, p ∈ peers' → inIPGroup g p → p ∈ default ∅ (counts' !! g).
Proof.
  intros Hlim. revert counts peers. induction l as [|k l IH]; intros counts peers Hok Hin; cbn [peersLoop]; [done|].
  destruct (keyToPeerMap !! k) as [p|]; [|by apply IH]. rewrite decide_True by done.
  pose proof (rtGroupLoop_spec counts p (default [] (peerAddrs !! p)) Hok) as Hg. destruct (rtGroupLoop _ _ _) as [counts' skip].
  destruct Hg as (G1 & G2 & G3).
  assert (∀ q g, q ∈ peers → inIPGroup g q → q ∈ default ∅ (counts' !! g)) as Hin' by (intros q g Hq Hqg; by apply G2, Hin).
  destruct skip; [by apply IH|].
  assert (∀ q g, q ∈ peers ++ [p] → inIPGroup g q → q ∈ default ∅ (counts' !! g)) as Hin2.
  { intros q g [Hq| ->%list_elem_of_singleton]%elem_of_app Hqg; [by apply Hin'|]. destruct Hqg as (a & Ha & Hag). by apply (G3 eq_refl a). }
  case_decide; [done|by apply IH].
Qed.

(** C29: The closest peers of the full routing table.  With more than as many
    steps as there are keys, [GetClosestPeers] ends and returns at most
    [bucketSize] peers, in the order of their distances.  Without a limit they
    are the closest ones; with a limit no IP group has more than [limit] of
    them. *)
Theorem fullrt_GetClosestPeers_correct fuel :
  0 < bucketSize → length sorted < fuel →
  ∃ peers, fullrt_GetClosestPeers fuel = Some peers ∧
    sublist peers (omap (keyToPeerMap !!.) sorted) ∧ length peers ≤ bucketSize ∧
    (limit = 0 → peers = take bucketSize (omap (keyToPeerMap !!.) sorted)) ∧
    (0 < limit → ∀ g (l : list peerID), NoDup l → (∀ p, p ∈ l → p ∈ peers ∧ inIPGroup g p) → length l ≤ limit).
Proof using ClosestN_take rtSize_length.
  intros Hb Hf. unfold fullrt_GetClosestPeers. rewrite closestSteps_pass by lia. rewrite drop_0.
  destruct (peersLoop_sublist ∅ [] sorted) as [H1 H2]. pose proof (peersLoop_all ∅ [] sorted) as H3.
  pose proof (peersLoop_groups ∅ [] sorted) as H4. destruct (peersLoop ∅ [] sorted) as [[counts peers] enough]. cbn [fst snd app] in *.
  exists peers. split; [done|]. split; [done|]. split; [apply H2; cbn; lia|]. split; [intros Hl; apply H3; [done|cbn; lia]|].
  intros Hlim g l Hnd Hl. destruct H4 as [H4 H5]; [done| | |].
  - intros g'. rewrite lookup_empty. cbn. rewrite size_empty. lia.
  - intros p g' Hp. by apply not_elem_of_nil in Hp.
  - etrans; [|apply (H4 g)]. rewrite <-(size_list_to_set (C := gset peerID)) by done. apply subseteq_size. intros p.
    rewrite elem_of_list_to_set. intros [Hp Hg]%Hl. by apply H5.
Qed.
End closest.

(** ** Chunks *)

(** The loop of [divideByChunkSize]. *)
Fixpoint chunkLoop {X} (chunkSize chunkProgress : nat) (nextChunk : list X) (keyChunks : list (list X)) (keys : list X) : list (list X) :=
  match keys with
  | [] => if decide (chunkProgress ≠ 0) then keyChunks ++ [nextChunk] else keyChunks
  | k :: keys =>
      let nextChunk := nextChunk ++ [k] in
      let chunkProgress := chunkProgress + 1 in
      if decide (chunkProgress = chunkSize) then chunkLoop chunkSize 0 [] (keyChunks ++ [nextChunk]) keys
      else chunkLoop chunkSize chunkProgress nextChunk keyChunks keys
  end.

Definition divideByChunkSize {X} (keys : list X) (chunkSize : nat) : option (list (list X)) :=
  if decide (length keys = 0) then Some []
  else if decide (chunkSize < 1) then None
  else Some (chunkLoop chunkSize 0 [] [] keys).

(** The size of the chunks of a bulk operation; a division by 0 panics. *)
Definition bulkChunkSize (nKeys bucketSize numPeers : nat) : option nat :=
  if decide (numPeers = 0) then None
  else
    let chunkSize := nKeys * bucketSize * 2 / numPeers in
    Some (if decide (chunkSize = 0) then 1 else chunkSize).

Lemma chunkLoop_spec {X} size next chunks (keys : list X) :
  0 < size → length next < size → Forall (λ c, 0 < length c ≤ size) chunks →
  concat (chunkLoop size (length next) next chunks keys) = concat chunks ++ next ++ keys ∧
  Forall (λ c, 0 < length c ≤ size) (chunkLoop size (length next) next chunks keys).
Proof.
  intros Hs. revert next chunks. induction keys as [|k keys IH]; intros next chunks Hn Hc; cbn [chunkLoop].
  - case_decide as Hl.
    + rewrite concat_app. cbn. rewrite !app_nil_r. split; [done|]. apply Forall_app. split; [done|]. apply Forall_singleton. lia.
    + assert (next = []) as -> by (destruct next; [done|cbn in Hl; lia]). by rewrite app_nil_r.
  - replace (length next + 1) with (length (next ++ [k])) by (rewrite length_app; cbn; lia). case_decide as Hl.
    + destruct (IH [] (chunks ++ [next ++ [k]])) as [I1 I2]; [cbn; lia| |].
      { apply Forall_app. split; [done|]. apply Forall_singleton. rewrite length_app in *. cbn in *. lia. }
      cbn in I1, I2. split; [|done]. rewrite I1, concat_app. cbn. rewrite app_nil_r, <-!app_assoc. done.
    + destruct (IH (next ++ [k]) chunks) as [I1 I2]; [rewrite length_app in *; cbn in *; lia|done|]. split; [|done].
      rewrite I1, <-!app_assoc. done.
Qed.

Lemma divideByChunkSize_spec {X} (keys : list X) size :
  0 < size → ∃ chunks, divideByChunkSize keys size = Some chunks ∧ concat chunks = keys ∧ Forall (λ c, 0 < length c ≤ size) chunks.
Proof.
  intros Hs. unfold divideByChunkSize. case_decide as Hl; [apply nil_length_inv in Hl as ->; by exists []|]. rewrite decide_False by lia.
  destruct (chunkLoop_spec size [] [] keys Hs) as [H1 H2]; [cbn; lia|done|]. by eexists.
Qed.

(** ** Bulk messages *)

Section bulk.
Variable closest : peerID → list peerID.   (* [GetClosestPeers] *)
Implicit Types (k p : peerID).

(** The map of the keys of a group by their peers. *)
Definition addKey (k : peerID) (m : gmap peerID (list peerID)) (p : peerID) : gmap peerID (list peerID) :=
  <[p := default [] (m !! p) ++ [k]]> m.

Definition keysPerPeer (g : list peerID) : gmap peerID (list peerID) :=
  foldl (λ m k, foldl (addKey k) m (closest k)) ∅ g.

(** The messages for the workers: those of the groups one after the other. *)
Definition bulkWork (groups : list (list peerID)) : list (peerID * list peerID) :=
  g ← groups; map_to_list (keysPerPeer g).

(** [bulkMessageSend] up to the work of its goroutines: [sorted] are the keys
    without duplicates. *)
Definition bulkMessageSend (sorted : list peerID) (bucketSize numPeers : nat) : option (list (peerID * list peerID)) :=
  if decide (length sorted = 0) then Some []
  else
    chunkSize ← bulkChunkSize (length sorted) bucketSize numPeers;
    groups ← divideByChunkSize sorted chunkSize;
    Some (bulkWork groups).

(** How often a key is sent to a peer. *)
Definition timesSent k p (work : list (peerID * list peerID)) : nat :=
  length (filter (λ x, x = k) (w ← work; if decide (w.1 = p) then w.2 else [])).

Definition occ k (l : list peerID) : nat := length (filter (λ x, x = k) l).

Lemma occ_app k l l' : occ k (l ++ l') = occ k l + occ k l'.
Proof. unfold occ. by rewrite filter_app, length_app. Qed.

Lemma occ_NoDup k l : NoDup l → occ k l = if decide (k ∈ l) then 1 else 0.
Proof.
  induction 1 as [|x l Hx Hnd IH]; [by rewrite decide_False by apply not_elem_of_nil|]. unfold occ in *. rewrite filter_cons.
  destruct (decide (x = k)) as [->|Hne].
  - cbn [length]. rewrite IH. rewrite decide_False by done. rewrite decide_True by left. done.
  - rewrite IH. destruct (decide (k ∈ l)); [rewrite decide_True by (by right)|rewrite decide_False]; [done|done|].
    intros [?|?]%elem_of_cons; congruence.
Qed.

Lemma addKeys_lookup k m ps p :
  default [] (foldl (addKey k) m ps !! p) = default [] (m !! p) ++ replicate (occ p ps) k.
Proof.
  revert m. induction ps as [|q ps IH]; intros m; cbn [foldl]; [by rewrite app_nil_r|]. rewrite IH. unfold addKey, occ. rewrite filter_cons.
  destruct (decide (q = p)) as [->|Hne].
  - rewrite lookup_insert_eq. cbn. by rewrite <-app_assoc.
  - by rewrite lookup_insert_ne.
Qed.

Lemma occ_replicate k k' n : occ k (replicate n k') = if decide (k = k') then n else 0.
Proof.
  unfold occ. induction n as [|n IH]; cbn [replicate]; [by case_decide|]. rewrite filter_cons. destruct (decide (k' = k)) as [->|Hne].
  - rewrite decide_True in * by done. cbn [length]. by rewrite IH.
  - rewrite decide_False in * by done. done.
Qed.

Lemma keysPerPeer_occ g k p :
  NoDup g → (∀ k, NoDup (closest k)) → occ k (default [] (keysPerPeer g !! p)) = if decide (k ∈ g ∧ p ∈ closest k) then 1 else 0.
Proof.
  intros Hg Hc. unfold keysPerPeer.
  assert (∀ m, occ k (default [] (foldl (λ m k, foldl (addKey k) m (closest k)) m g !! p)) =
    occ k (default [] (m !! p)) + if decide (k ∈ g ∧ p ∈ closest k) then 1 else 0) as Hgen.
  { induction Hg as [|k' g Hk' Hg IH]; intros m; cbn [foldl].
    - rewrite decide_False; [lia|]. intros [Hn _]. by apply not_elem_of_nil in Hn.
    - rewrite IH, addKeys_lookup, occ_app, occ_replicate, (occ_NoDup p (closest k')) by done.
      destruct (decide (k = k')) as [->|Hne].
      + rewrite (decide_False (P := k' ∈ g ∧ _)) by (intros []; done).
        destruct (decide (p ∈ closest k')); [rewrite decide_True; [lia|split; [left|done]]|rewrite decide_False; [lia|intros []; done]].
      + rewrite Nat.add_0_r. f_equal. destruct (decide (k ∈ g ∧ p ∈ closest k)) as [[? ?]|Hn].
        * rewrite decide_True; [done|]. split; [by right|done].
        * rewrite decide_False; [done|]. intros [[?|?]%elem_of_cons ?]; [done|]. by apply Hn. }
  rewrite Hgen, lookup_empty. done.
Qed.

(** The entries of a map for a peer. *)
Lemma map_entries (m : gmap peerID (list peerID)) p :
  (w ← map_to_list m; if decide (w.1 = p) then w.2 else []) ≡ₚ default [] (m !! p).
Proof.
  induction m as [|q ks m Hq IH] using map_ind; [by rewrite map_to_list_empty, lookup_empty|].
  rewrite map_to_list_insert by done. cbn [mbind list_bind fst snd]. rewrite IH. destruct (decide (q = p)) as [->|Hne].
  - rewrite Hq, lookup_insert_eq. cbn. by rewrite app_nil_r.
  - by rewrite lookup_insert_ne.
Qed.

Lemma timesSent_work groups k p :
  timesSent k p (bulkWork groups) = sum_list ((λ g, occ k (default [] (keysPerPeer g !! p))) <$> groups).
Proof.
  unfold timesSent. change (length (filter (λ x, x = k) ?l)) with (occ k l).
  induction groups as [|g groups IH]; [done|]. unfold bulkWork in *. cbn [mbind list_bind]. rewrite bind_app, occ_app, IH. cbn. f_equal.
  unfold occ. apply Permutation_length. by rewrite map_entries.
Qed.

(** Bulk messages go to the closest peers.  If the routing table is not
    empty, the work of a bulk operation has each of its keys exactly once for
    each of the closest peers of the key, and for no other peer. *)
Theorem bulkMessageSend_correct sorted bucketSize numPeers k p :
  NoDup sorted → (∀ k, NoDup (closest k)) → 0 < numPeers →
  ∃ work, bulkMessageSend sorted bucketSize numPeers = Some work ∧
    timesSent k p work = if decide (k ∈ sorted ∧ p ∈ closest k) then 1 else 0.
Proof.
  intros Hs Hc Hn. unfold bulkMessageSend. case_decide as Hl.
  { apply nil_length_inv in Hl as ->. exists []. split; [done|]. rewrite decide_False; [done|]. intros [Hk _]. by apply not_elem_of_nil in Hk. }
  unfold bulkChunkSize. rewrite decide_False by lia. cbn [mbind option_bind].
  destruct (divideByChunkSize_spec sorted (if decide (length sorted * bucketSize * 2 / numPeers = 0) then 1 else length sorted * bucketSize * 2 / numPeers))
    as (groups & -> & Hcat & _); [case_decide; lia|]. cbn [mbind option_bind]. eexists. split; [done|]. rewrite timesSent_work. subst sorted. clear Hl.
  induction groups as [|g groups IH]; cbn [fmap list_fmap sum_list concat].
  { rewrite decide_False; [done|]. intros [Hk _]. by apply not_elem_of_nil in Hk. }
  cbn [concat] in Hs. apply NoDup_app in Hs as (Hg & Hd & Hs). change (sum_list (?x :: ?l)) with (x + sum_list l).
  rewrite (IH Hs), keysPerPeer_occ by done.
  destruct (decide (k ∈ g ∧ p ∈ closest k)) as [[Hkg Hp]|H1].
  - rewrite decide_False by (intros []; by eapply Hd). rewrite decide_True; [done|]. split; [apply elem_of_app; by left|done].
  - destruct (decide (k ∈ concat groups ∧ p ∈ closest k)) as [[Hkg Hp]|H2].
    + rewrite decide_True; [done|]. split; [apply elem_of_app; by right|done].
    + rewrite decide_False; [done|]. intros [[?|?]%elem_of_app ?]; [by apply H1|by apply H2].
Qed.
End bulk.

(** A bulk operation on an empty routing table, as before the first crawl,
    divides by zero. *)
Lemma bulkMessageSend_empty_table closest sorted bucketSize : sorted ≠ [] → bulkMessageSend closest sorted bucketSize 0 = None.
Proof. intros Hs. unfold bulkMessageSend. rewrite decide_False by (intros Hl; by apply nil_length_inv in Hl). done. Qed.

(** ** The goroutines of a bulk operation *)

(** The report of a key. *)
Record report := mkReport { r_successes : nat; r_failures : nat; r_lastSuccess : Z }.

(** The reports, the calls of [fn] that run and all calls that were made, by
    their key. *)
Record bulkState := mkBulk { bu_reports : gmap peerID report; bu_running : list peerID; bu_calls : list peerID }.

Section workers.
Variable numSuccessfulToWaitFor : nat.
Implicit Types (k : peerID).

(** The reports at the start; their [lastSuccess] is the zero time. *)
Definition bulkStart (zeroTime : Z) (keys : list peerID) : bulkState :=
  mkBulk (list_to_map ((λ k, (k, mkReport 0 0 zeroTime)) <$> keys)) [] [].

(** Whether the message for a key is sent, before [fn] is called. *)
Definition bulkCheck (r : report) (now : Z) : bool :=
  if decide (numSuccessfulToWaitFor ≤ r_successes r) then bool_decide (now - r_lastSuccess r ≤ 500 * 1000000)%Z else true.

(** The report after [fn]. *)
Definition bulkDone (r : report) (ok : bool) (now : Z) : report :=
  if ok then
    let n := r_successes r + 1 in
    mkReport n (r_failures r) (if decide (numSuccessfulToWaitFor ≤ n) then now else r_lastSuccess r)
  else mkReport (r_successes r) (r_failures r + 1) (r_lastSuccess r).

(** A goroutine comes to a key; a call of [fn] returns.  The steps of all
    goroutines are interleaved.  [None] is a panic, for a key without a report. *)
Inductive bulkEvent := BuKey (k : peerID) (now : Z) | BuDone (i : nat) (ok : bool) (now : Z).

Definition bulkStep (s : bulkState) (ev : bulkEvent) : option bulkState :=
  match ev with
  | BuKey k now =>
      r ← bu_reports s !! k;
      Some (if bulkCheck r now then mkBulk (bu_reports s) (k :: bu_running s) (k :: bu_calls s) else s)
  | BuDone i ok now =>
      match bu_running s !! i with
      | None => Some s
      | Some k =>
          r ← bu_reports s !! k;
          Some (mkBulk (<[k := bulkDone r ok now]> (bu_reports s)) (delete i (bu_running s)) (bu_calls s))
      end
  end.

Fixpoint bulkRun (s : bulkState) (evs : list bulkEvent) : option bulkState :=
  match evs with
  | [] => Some s
  | ev :: evs => s ← bulkStep s ev; bulkRun s evs
  end.

(** The end of [bulkMessageSend]: whether it fails. *)
Definition bulkFailed (s : bulkState) : bool :=
  bool_decide (length (filter (λ e, 0 < r_successes e.2) (map_to_list (bu_reports s))) = 0).

(** Every call is counted once, or runs. *)
Definition bulkInv (keys : list peerID) (s : bulkState) : Prop :=
  (∀ k, is_Some (bu_reports s !! k) ↔ k ∈ keys) ∧ (∀ k, k ∈ bu_running s → k ∈ keys) ∧
  ∀ k r, bu_reports s !! k = Some r → r_successes r + r_failures r + occ k (bu_running s) = occ k (bu_calls s).

Lemma bulkStart_inv zero keys : bulkInv keys (bulkStart zero keys).
Proof.
  assert (∀ k r, bu_reports (bulkStart zero keys) !! k = Some r → r = mkReport 0 0 zero) as Hr.
  { intros k r Hk. cbn in Hk. apply elem_of_list_to_map_2, list_elem_of_fmap in Hk as (? & [= -> ->] & _). done. }
  split_and!.
  - intros k. cbn. split.
    + intros [r Hk]. apply elem_of_list_to_map_2, list_elem_of_fmap in Hk as (? & [= -> ->] & ?). done.
    + intros Hk. apply not_eq_None_Some. intros Hn. apply not_elem_of_list_to_map in Hn. apply Hn.
      rewrite <-list_fmap_compose. apply list_elem_of_fmap. by exists k.
  - cbn. intros k Hk. by apply not_elem_of_nil in Hk.
  - intros k r ->%Hr. done.
Qed.

Lemma occ_delete k (l : list peerID) i x : l !! i = Some x → occ k l = occ k (delete i l) + if decide (x = k) then 1 else 0.
Proof.
  intros Hi. unfold occ. rewrite (Permutation_length (filter_Permutation _ _ _ (delete_Permutation l i x Hi))).
  rewrite filter_cons. case_decide; cbn; lia.
Qed.

Lemma bulkStep_inv keys s ev :
  bulkInv keys s → (∀ k now, ev = BuKey k now → k ∈ keys) → ∃ s', bulkStep s ev = Some s' ∧ bulkInv keys s'.
Proof.
  intros (H1 & H2 & H3) Hev. destruct ev as [k now|i ok now]; cbn [bulkStep].
  - destruct (proj2 (H1 k)) as [r Hr]; [by eapply Hev|]. rewrite Hr. cbn. eexists. split; [done|]. destruct (bulkCheck r now); [|done].
    split_and!; cbn [bu_reports bu_running bu_calls]; [done| |].
    + intros k' [->|?]%elem_of_cons; [by eapply Hev|auto].
    + intros k' r' Hr'. specialize (H3 k' r' Hr'). unfold occ in *. rewrite !filter_cons. case_decide; cbn; lia.
  - destruct (bu_running s !! i) as [k|] eqn:Hi; [|by exists s]. assert (k ∈ keys) as Hk by (by eapply H2, list_elem_of_lookup_2).
    destruct (proj2 (H1 k) Hk) as [r Hr]. rewrite Hr. cbn. eexists. split; [done|]. split_and!; cbn [bu_reports bu_running bu_calls].
    + intros k'. destruct (decide (k = k')) as [->|]; [rewrite lookup_insert_eq; split; [done|by eexists]|by rewrite lookup_insert_ne].
    + intros k' Hk'. apply H2. eapply elem_of_submseteq; [done|apply submseteq_delete].
    + intros k' r' [[<- <-]|[Hne Hr']]%lookup_insert_Some.
      * specialize (H3 k r Hr). rewrite (occ_delete k _ i k Hi), decide_True in H3 by done. rewrite <-H3. unfold bulkDone. destruct ok; cbn; lia.
      * specialize (H3 k' r' Hr'). by rewrite (occ_delete k' _ i k Hi), decide_False, Nat.add_0_r in H3 by done.
Qed.

Lemma bulkFailed_spec keys s :
  bulkInv keys s → bulkFailed s = true ↔ ∀ k r, bu_reports s !! k = Some r → r_successes r = 0.
Proof.
  intros _. unfold bulkFailed. rewrite bool_decide_eq_true. split.
  - intros Hl k r Hk. apply nil_length_inv in Hl. destruct (decide (0 < r_successes r)); [|lia].
    exfalso. apply (not_elem_of_nil (k, r)). rewrite <-Hl. apply list_elem_of_filter. split; [done|by apply elem_of_map_to_list].
  - intros Hall. assert (filter (λ e : peerID * report, 0 < r_successes e.2) (map_to_list (bu_reports s)) = []) as ->; [|done].
    apply elem_of_nil_inv. intros [k r] [Hp Hk%elem_of_map_to_list]%list_elem_of_filter. apply Hall in Hk. cbn in Hp. lia.
Qed.

(** the goroutines of a bulk operation, for every interleaving: no key is
    without a report, every call of [fn] is counted once as a success or a
    failure when it has returned, and when all have returned the operation
    fails exactly if no call succeeded. *)
Theorem bulkRun_counts zero keys evs :
  (∀ k now, BuKey k now ∈ evs → k ∈ keys) →
  ∃ s, bulkRun (bulkStart zero keys) evs = Some s ∧
    (∀ k, k ∈ keys → ∃ r, bu_reports s !! k = Some r ∧ r_successes r + r_failures r + occ k (bu_running s) = occ k (bu_calls s)) ∧
    (bulkFailed s = true ↔ ∀ k r, bu_reports s !! k = Some r → r_successes r = 0).
Proof.
  intros Hev. assert (∃ s, bulkRun (bulkStart zero keys) evs = Some s ∧ bulkInv keys s) as (s & -> & Hs).
  { pose proof (bulkStart_inv zero keys) as Hs. revert Hs. generalize (bulkStart zero keys).
    induction evs as [|ev evs IH]; intros s Hs; [by exists s|]. cbn.
    destruct (bulkStep_inv keys s ev Hs) as (s1 & -> & Hs1); [intros k now ->; eapply Hev; left|]. apply IH; [|done].
    intros k now Hk. eapply Hev. right. exact Hk. }
  exists s. split; [done|]. split; [|by eapply bulkFailed_spec]. destruct Hs as (H1 & _ & H3).
  intros k Hk. destruct (proj2 (H1 k) Hk) as [r Hr]. eauto.
Qed.
End workers.

(** If no success is waited for, as with a bucket size of 2 and the default
    fraction, [lastSuccess] of a key is still the zero time when it is first
    checked: nothing is sent, and the operation fails. *)
Example bulkRun_no_sends :
  option_map (λ s, (bu_calls s, bulkFailed s)) (bulkRun 0 (bulkStart 0 [[7%Z]]) [BuKey [7%Z] (10 ^ 18); BuKey [7%Z] (10 ^ 18)]) = Some ([], true).
Proof. by vm_compute. Qed.

(** ** Requests to many peers *)

(** What the loop of [execOnMany] receives: the result of a request, or a tick. *)
Inductive execEvent := ExecDone (ok : bool) | ExecTick.

Record execState := mkExec { numDone : nat; numSuccess : nat; successSinceLastTick : nat; ticker : bool }.

Section exec.
Variables (nPeers numSuccessfulToWaitFor : nat) (sloppyExit : bool).

(** One event: the state, and whether the function returns. *)
Definition execStep (s : execState) (ev : execEvent) : execState * bool :=
  match ev with
  | ExecDone false => (mkExec (numDone s + 1) (numSuccess s) (successSinceLastTick s) (ticker s), false)
  | ExecDone true =>
      let numDone := numDone s + 1 in
      let numSuccess := numSuccess s + 1 in
      let start := bool_decide (numSuccessfulToWaitFor ≤ numSuccess) && negb (ticker s) in
      let s := mkExec numDone numSuccess (if start then numSuccess else successSinceLastTick s) (start || ticker s) in
      (s, bool_decide (nPeers ≤ numSuccess + numDone) && sloppyExit)
  | ExecTick =>
      if ticker s then
        if decide (successSinceLastTick s < numSuccess s) then (mkExec (numDone s) (numSuccess s) (numSuccess s) true, false)
        else (s, sloppyExit)
      else (s, false)
  end.

Fixpoint execLoop (s : execState) (evs : list execEvent) : option nat :=
  if decide (numDone s < nPeers) then
    match evs with
    | [] => None
    | ev :: evs => let '(s, ret) := execStep s ev in if ret : bool then Some (numSuccess s) else execLoop s evs
    end
  else Some (numSuccess s).

(** [execOnMany]: the number of successes; [None] if it still waits. *)
Definition execOnMany (evs : list execEvent) : option nat :=
  if decide (nPeers = 0) then Some 0 else execLoop (mkExec 0 0 0 false) evs.

(** The results and the successes among the events. *)
Fixpoint dones (evs : list execEvent) : nat :=
  match evs with [] => 0 | ExecDone _ :: evs => S (dones evs) | ExecTick :: evs => dones evs end.

Fixpoint oks (evs : list execEvent) : nat :=
  match evs with [] => 0 | ExecDone true :: evs => S (oks evs) | _ :: evs => oks evs end.

Lemma execLoop_spec s evs :
  numDone s + dones evs = nPeers → (ticker s = true → 0 < numSuccess s) →
  ∃ r, execLoop s evs = Some r ∧ numSuccess s ≤ r ≤ numSuccess s + oks evs ∧ (sloppyExit = false → r = numSuccess s + oks evs) ∧
    (r = 0 → numSuccess s + oks evs = 0).
Proof.
  revert s. induction evs as [|ev evs IH]; intros s Hd Ht; cbn [execLoop].
  { cbn in Hd. rewrite decide_False by lia. eexists. split; [done|]. cbn. lia. }
  assert (dones (ev :: evs) = 0 → oks (ev :: evs) = 0) as Hoks.
  { clear. cut (∀ l, dones l = 0 → oks l = 0); [auto|]. intros l. induction l as [|[[]|] l IH]; cbn; [done|done|done|auto]. }
  case_decide as Hn; [|eexists; split; [done|]; rewrite Hoks by lia; lia].
  destruct ev as [[|]|]; cbn [execStep dones oks] in *.
  - destruct (bool_decide (nPeers ≤ numSuccess s + 1 + (numDone s + 1)) && sloppyExit) eqn:Hret.
    + apply andb_true_iff in Hret as [_ Hs]. eexists. split; [done|]. cbn. split; [lia|]. split; [congruence|lia].
    + set (s' := mkExec _ _ _ _). destruct (IH s') as (r & -> & H1 & H2 & H3); [unfold s'; cbn; lia|unfold s'; cbn; lia|].
      unfold s' in *. cbn in *. eexists. split; [done|]. split; [lia|]. split; [intros Hs; rewrite H2 by done; lia|lia].
  - set (s' := mkExec _ _ _ _). destruct (IH s') as (r & -> & H1 & H2 & H3); [unfold s'; cbn; lia|unfold s'; cbn; auto|].
    unfold s' in *. cbn in *. eexists. split; [done|]. auto.
  - destruct (ticker s) eqn:Etick; [|apply IH; [done|by rewrite Etick]]. specialize (Ht eq_refl). case_decide as Hm.
    + destruct (IH (mkExec (numDone s) (numSuccess s) (numSuccess s) true)) as (r & -> & H1 & H2 & H3); [done|done|]. cbn in *. by eexists.
    + destruct sloppyExit eqn:Es.
      * eexists. split; [done|]. split; [lia|]. split; [done|lia].
      * apply IH; [done|by rewrite Etick].
Qed.

(** Executing requests on many peers.  Once all requests have a result,
    however they interleave with the ticks, [execOnMany] returns; the number it
    returns is at most the number of successes, all of them if it does not exit
    early, and 0 only if no request succeeded. *)
Theorem execOnMany_correct evs :
  dones evs = nPeers →
  ∃ r, execOnMany evs = Some r ∧ r ≤ oks evs ∧ (sloppyExit = false → r = oks evs) ∧ (r = 0 ↔ oks evs = 0).
Proof.
  intros Hd. unfold execOnMany. case_decide as Hn.
  - exists 0. assert (oks evs = 0) as ->; [|by split_and!].
    rewrite Hn in Hd. clear -Hd. induction evs as [|[[]|] evs IH]; cbn in *; [done|done|done|auto].
  - destruct (execLoop_spec (mkExec 0 0 0 false) evs) as (r & -> & H1 & H2 & H3); [done|done|]. cbn in *. exists r.
    split; [done|]. split; [lia|]. split; [done|]. lia.
Qed.
End exec.

(** The end of [PutValue], and of [Provide], after the requests. *)
Definition putManyError (successes : nat) : bool := bool_decide (successes = 0).

(** ** Checking peers *)

(** [workers]: the inputs that are left, the jobs that run with their outcome,
    the successes, and the result of [CheckPeers] if it has returned. *)
Record checkState := mkCheck { ck_inputs : list bool; ck_jobs : list bool; ck_success : nat; ck_result : option (nat * nat) }.

Inductive checkEvent := CkHand | CkFinish (i : nat) | CkReturn.

(** A job is handed to an idle worker; a worker finishes; when all inputs are
    handed over, [workers] returns, and [CheckPeers] reads the counter. *)
Definition checkStep (numWorkers total : nat) (s : checkState) (ev : checkEvent) : option checkState :=
  match ev with
  | CkHand =>
      match ck_inputs s, ck_result s with
      | reachable :: inputs, None =>
          if decide (length (ck_jobs s) < numWorkers) then Some (mkCheck inputs (ck_jobs s ++ [reachable]) (ck_success s) None) else None
      | _, _ => None
      end
  | CkFinish i =>
      reachable ← ck_jobs s !! i;
      Some (mkCheck (ck_inputs s) (take i (ck_jobs s) ++ drop (S i) (ck_jobs s)) (ck_success s + if reachable : bool then 1 else 0) (ck_result s))
  | CkReturn =>
      match ck_inputs s, ck_result s with
      | [], None => Some (mkCheck [] (ck_jobs s) (ck_success s) (Some (ck_success s, total)))
      | _, _ => None
      end
  end.

Fixpoint checkRun (numWorkers total : nat) (s : checkState) (evs : list checkEvent) : option checkState :=
  match evs with
  | [] => Some s
  | ev :: evs => s ← checkStep numWorkers total s ev; checkRun numWorkers total s evs
  end.

(** [CheckPeers] does not wait for the dials that are running when the last one
    has started: one reachable peer can be reported as none of one. *)
Example CheckPeers_early_return :
  ck_result <$> checkRun 100 1 (mkCheck [true] [] 0 None) [CkHand; CkReturn; CkFinish 0] = Some (Some (0, 1)).
Proof. by vm_compute. Qed.

(** ** Readiness *)

(** [Ready]: the last crawl is recent and found more than the bootstrap peers. *)
Definition Ready (now lastCrawlTime crawlerInterval : Z) (rtPeers bootstrapPeers : nat) : bool :=
  if decide (time_Sub now lastCrawlTime > crawlerInterval)%Z then false else bool_decide (bootstrapPeers + 1 < rtPeers).

(** ** Finding a peer *)

(** The goroutine of [FindPeer] that collects the addresses of the replies. *)
Fixpoint newAddrsLoop {ML : MaLib} (newAddrs : list MA) (addrsSoFar : gset (list Z)) (addrs : list MA) : list MA :=
  match addrs with
  | [] => newAddrs
  | a :: addrs =>
      if decide (ma_Bytes a ∈ addrsSoFar) then newAddrsLoop newAddrs addrsSoFar addrs
      else newAddrsLoop (newAddrs ++ [a]) ({[ma_Bytes a]} ∪ addrsSoFar) addrs
  end.

(** The entry of a reply that is sent to this goroutine. *)
Definition findReply {ML : MaLib} (id : peerID) (peers : list AddrInfo) : option AddrInfo :=
  head (filter (λ a, ai_ID a = id) peers).

(** ** The tables of a crawl *)

(** The end of [runCrawler]: the addresses, the peers by their keys and the
    keys of the routing table. *)
Definition crawlTables {K A : Type} `{Countable K} (kadKey : peerID → K) (foundPeers : gmap peerID (list A)) :
    gmap peerID (list A) * gmap K peerID * list K :=
  (foundPeers, list_to_map ((λ e, (kadKey e.1, e.1)) <$> map_to_list foundPeers), (λ e, kadKey e.1) <$> map_to_list foundPeers).

(** After a crawl every key of the routing table has its peer, and every peer
    that was found a key. *)
Lemma crawlTables_consistent {K A : Type} `{Countable K} (kadKey : peerID → K) (foundPeers : gmap peerID (list A)) :
  Inj (=) (=) kadKey →
  let '(addrs, m, keys) := crawlTables kadKey foundPeers in
  NoDup keys ∧ (∀ k p, m !! k = Some p ↔ k = kadKey p ∧ is_Some (addrs !! p)) ∧ ∀ k, k ∈ keys ↔ is_Some (m !! k).
Proof.
  intros Hinj. unfold crawlTables.
  assert (NoDup ((λ e : peerID * list A, kadKey e.1) <$> map_to_list foundPeers)) as Hnd.
  { change (λ e : peerID * list A, kadKey e.1) with (kadKey ∘ (fst : peerID * list A → peerID)).
    rewrite list_fmap_compose. apply NoDup_fmap_2; [done|]. apply NoDup_fst_map_to_list. }
  assert (∀ k p, (list_to_map ((λ e : peerID * list A, (kadKey e.1, e.1)) <$> map_to_list foundPeers) : gmap K peerID) !! k = Some p
    ↔ k = kadKey p ∧ is_Some (foundPeers !! p)) as Hm.
  { intros k p. rewrite <-elem_of_list_to_map.
    - rewrite list_elem_of_fmap. split.
      + intros ([q l] & [= -> ->] & Hq%elem_of_map_to_list). split; [done|by eexists].
      + intros [-> [l Hl]]. exists (p, l). split; [done|]. by apply elem_of_map_to_list.
    - rewrite <-list_fmap_compose. exact Hnd. }
  split_and!; [done|done|]. intros k. rewrite list_elem_of_fmap. split.
  - intros ([q l] & -> & Hq%elem_of_map_to_list). exists q. apply Hm. split; [done|by eexists].
  - intros [p [-> [l Hl]]%Hm]. exists (p, l). split; [done|]. by apply elem_of_map_to_list.
Qed.

(** ** Examples *)

(** Keys are numbers, the IP group of an address is its tens. *)
Definition demoTable : gmap nat peerID := <[1 := [1%Z]]> (<[2 := [2%Z]]> (<[3 := [3%Z]]> ∅)).
Definition demoPeerAddrs : gmap peerID (list nat) := <[[1%Z] := [11]]> (<[[2%Z] := [12]]> (<[[3%Z] := [23]]> ∅)).
Definition demoGroup (a : nat) : option nat := Some (a / 10).

(** The two closest peers are in the same group, of which one is allowed. *)
Lemma fullrt_GetClosestPeers_correct_witness :
  ∃ peers, fullrt_GetClosestPeers 2 1 (λ n, take n [1; 2; 3]) 3 demoTable demoPeerAddrs demoGroup 4 = Some peers ∧
    sublist peers [[1]; [2]; [3]]%Z ∧
    ∀ g l, NoDup l → (∀ p, p ∈ l → p ∈ peers ∧ inIPGroup demoPeerAddrs demoGroup g p) → length l ≤ 1.
Proof.
  destruct (fullrt_GetClosestPeers_correct 2 1 (λ n, take n [1; 2; 3]) 3 demoTable demoPeerAddrs demoGroup [1; 2; 3] (λ _, eq_refl) eq_refl 4)
    as (peers & H1 & H2 & _ & _ & H3); [lia|cbn; lia|].
  exists peers. split; [exact H1|]. split; [exact H2|]. apply H3. lia.
Defined.

(** A peer counts against the limit of its own group for its second address:
    with a limit of 1, a peer with two addresses of one IP is skipped. *)
Example fullrt_GetClosestPeers_two_addrs :
  fullrt_GetClosestPeers 2 1 (λ n, take n [1]) 1 demoTable (<[[1%Z] := [11; 12]]> (∅ : gmap peerID (list nat))) demoGroup 2 = Some [].
Proof. by vm_compute. Qed.

Lemma bulkMessageSend_correct_witness :
  ∃ work, bulkMessageSend (λ _, [[7]; [8]]%Z) [[1]; [2]; [3]]%Z 2 5 = Some work ∧ timesSent [2%Z] [8%Z] work = 1.
Proof.
  destruct (bulkMessageSend_correct (λ _, [[7]; [8]]%Z) [[1]; [2]; [3]]%Z 2 5 [2%Z] [8%Z]) as (work & H1 & H2);
    [by_compute|intros _; by_compute|lia|].
  exists work. split; [exact H1|]. rewrite H2. by rewrite decide_True by by_compute.
Defined.

Lemma execOnMany_correct_witness :
  ∃ r, execOnMany 4 1 true [ExecDone false; ExecDone true; ExecTick; ExecTick; ExecDone true; ExecDone false] = Some r ∧ r ≤ 2 ∧ (r = 0 ↔ 2 = 0).
Proof.
  destruct (execOnMany_correct 4 1 true [ExecDone false; ExecDone true; ExecTick; ExecTick; ExecDone true; ExecDone false]) as (r & H1 & H2 & _ & H3);
    [reflexivity|]. by exists r.
Defined.

Lemma bulkRun_counts_witness :
  ∃ s, bulkRun 1 (bulkStart 0 [[7%Z]]) [BuKey [7%Z] 5; BuDone 0 false 6] = Some s ∧
    (∀ k, k ∈ [[7%Z]] → ∃ r, bu_reports s !! k = Some r ∧ r_successes r + r_failures r + occ k (bu_running s) = occ k (bu_calls s)) ∧
    (bulkFailed s = true ↔ ∀ k r, bu_reports s !! k = Some r → r_successes r = 0).
Proof.
  apply (bulkRun_counts 1 0 [[7%Z]] [BuKey [7%Z] 5; BuDone 0 false 6]).
  intros k now [Hk|[Hk|Hk%not_elem_of_nil]%elem_of_cons]%elem_of_cons; [|done|done]. injection Hk as -> _. left.
Defined.
