(* ===== verification/Crawler.v ===== *)
(** * The crawler

    [crawler/crawler.go]: the loop of [Run] with the workers that query peers,
    and the addresses it keeps for the peers that are still to be queried.  The
    answer of a peer is an argument of the step in which it is handled; an
    empty answer is a failure.  The answers are lists in the order in which the
    map of the code is iterated. *)

From S2P Require Import Prelude Message.

Section crawler.
Context {ML : MaLib}.
Implicit Types (p : peerID) (ai : AddrInfo).

(** [peerAddrs] *)
Abbreviation addrBook := (gmap peerID (gmap (list Z) MA)).

(** [addPeerAddrsNoLock] *)
Definition addPeerAddrsNoLock (ps : addrBook) (p : peerID) (addrs : list MA) : addrBook :=
  <[p := foldl (λ m a, <[ma_Bytes a := a]> m) (default ∅ (ps !! p)) addrs]> ps.

(** [addAddrsNoLock] and [RemoveSourceAndAddPeers] *)
Definition addAddrsNoLock (ps : addrBook) (peers : list (peerID * list MA)) : addrBook :=
  foldl (λ ps e, addPeerAddrsNoLock ps e.1 e.2) ps peers.

Definition RemoveSourceAndAddPeers (ps : addrBook) (source : peerID) (peers : list (peerID * list MA)) : addrBook :=
  addAddrsNoLock (delete source ps) peers.

(** [PeerInfo] *)
Definition crawl_PeerInfo (ps : addrBook) (p : peerID) : AddrInfo :=
  mkAddrInfo p (map_to_list (default ∅ (ps !! p))).*2.

(** The state of [Run]: the jobs that were started, oldest first, are a ghost
    field. *)
Record crawlState := mkCrawl {
  c_toDial : list peerID;
  c_peersSeen : gset peerID;
  c_peersQueried : gset peerID;
  c_outstanding : list peerID;
  c_peerAddrs : addrBook;
  c_started : list peerID;
}.
Implicit Types s : crawlState.

(** The loop over the starting peers; [stored] are the addresses of the
    peerstore. *)
Fixpoint crawlStart (stored : peerID → list MA) (startingPeers : list AddrInfo) s : crawlState :=
  match startingPeers with
  | [] => s
  | ai :: startingPeers =>
      let extendAddrs := stored (ai_ID ai) ++ ai_Addrs ai in
      if decide (length extendAddrs = 0) then crawlStart stored startingPeers s
      else
        crawlStart stored startingPeers
          (mkCrawl (c_toDial s ++ [ai_ID ai]) ({[ai_ID ai]} ∪ c_peersSeen s) (c_peersQueried s) (c_outstanding s)
            (addPeerAddrsNoLock (c_peerAddrs s) (ai_ID ai) extendAddrs) (c_started s))
  end.

Definition crawlInit (stored : peerID → list MA) (startingPeers : list AddrInfo) : crawlState :=
  crawlStart stored startingPeers (mkCrawl [] ∅ ∅ [] ∅ []).

(** The loop over the peers of an answer. *)
Fixpoint crawlData (queried : gset peerID) (data : list AddrInfo) (seen : gset peerID) (toDial : list peerID) (upd : list (peerID * list MA)) :
    gset peerID * list peerID * list (peerID * list MA) :=
  match data with
  | [] => (seen, toDial, upd)
  | ai :: data =>
      let p := ai_ID ai in
      let upd := if decide (p ∉ queried) then upd ++ [(p, ai_Addrs ai)] else upd in
      if decide (p ∉ seen) then crawlData queried data ({[p]} ∪ seen) (toDial ++ [p]) upd
      else crawlData queried data seen toDial upd
  end.

(** One of the outstanding jobs has ended. *)
Fixpoint removeOne (p : peerID) (l : list peerID) : list peerID :=
  match l with [] => [] | q :: l => if decide (q = p) then l else q :: removeOne p l end.

(** The iterations of [Run]: a job is started, or the answer of a peer is
    handled. *)
Inductive crawlEvent := CrawlJob | CrawlResult (p : peerID) (data : list AddrInfo).

Definition crawlStep s (ev : crawlEvent) : option crawlState :=
  match ev with
  | CrawlJob =>
      match c_toDial s with
      | [] => None
      | p :: toDial => Some (mkCrawl toDial (c_peersSeen s) (c_peersQueried s) (p :: c_outstanding s) (c_peerAddrs s) (c_started s ++ [p]))
      end
  | CrawlResult p data =>
      if decide (p ∈ c_outstanding s) then
        let outstanding := removeOne p (c_outstanding s) in
        if decide (0 < length data) then
          let '(seen, toDial, upd) := crawlData (c_peersQueried s) data (c_peersSeen s) (c_toDial s) [] in
          Some (mkCrawl toDial seen ({[p]} ∪ c_peersQueried s) outstanding (RemoveSourceAndAddPeers (c_peerAddrs s) p upd) (c_started s))
        else Some (mkCrawl (c_toDial s) (c_peersSeen s) (c_peersQueried s) outstanding (c_peerAddrs s) (c_started s))
      else None
  end.

(** The loop ends. *)
Definition crawlDone s : Prop := c_toDial s = [] ∧ c_outstanding s = [].

(** *** Invariant *)

(** Every peer that was seen is waiting, started or queried, once; the ones that
    wait or are being queried have an entry of addresses. *)
Definition crawlInv s : Prop :=
  NoDup (c_started s ++ c_toDial s) ∧ (∀ p, p ∈ c_peersSeen s ↔ p ∈ c_started s ++ c_toDial s) ∧
  NoDup (c_outstanding s) ∧ (∀ p, p ∈ c_outstanding s → p ∈ c_started s ∧ p ∉ c_peersQueried s) ∧
  (∀ p, p ∈ c_peersQueried s → p ∈ c_started s) ∧
  (∀ p, p ∈ c_toDial s ++ c_outstanding s → is_Some (c_peerAddrs s !! p)).

Lemma addAddrs_lookup ps peers q : is_Some (addAddrsNoLock ps peers !! q) ↔ is_Some (ps !! q) ∨ q ∈ peers.*1.
Proof.
  unfold addAddrsNoLock. revert ps. induction peers as [|[p addrs] peers IH]; intros ps; cbn [foldl].
  { split; [by left|]. intros [?|Hn]; [done|by apply not_elem_of_nil in Hn]. }
  rewrite IH. unfold addPeerAddrsNoLock. cbn [fst snd fmap list_fmap]. rewrite elem_of_cons. destruct (decide (q = p)) as [->|Hne].
  - rewrite lookup_insert_eq. split; [by right; left|]. intros _. left. by eexists.
  - rewrite lookup_insert_ne by done. tauto.
Qed.

Lemma crawlData_spec queried data seen toDial upd started :
  NoDup (started ++ toDial) → (∀ p, p ∈ seen ↔ p ∈ started ++ toDial) → (∀ p, p ∈ queried → p ∈ started) →
  let '(seen', toDial', upd') := crawlData queried data seen toDial upd in
  NoDup (started ++ toDial') ∧ (∀ p, p ∈ seen' ↔ p ∈ started ++ toDial') ∧ (∀ p, p ∈ seen → p ∈ seen') ∧
  (∀ ai, ai ∈ data → ai_ID ai ∈ seen') ∧ (∀ p, p ∈ upd.*1 → p ∈ upd'.*1) ∧ (∀ p, p ∈ toDial' → p ∈ toDial ∨ p ∈ upd'.*1) ∧
  (∀ p, p ∈ seen' → p ∈ seen ∨ p ∈ ai_ID <$> data).
Proof.
  revert seen toDial upd. induction data as [|ai data IH]; intros seen toDial upd Hnd Hseen Hq; cbn [crawlData].
  { split_and!; auto. intros ai Ha. by apply not_elem_of_nil in Ha. }
  set (upd1 := if decide (ai_ID ai ∉ queried) then upd ++ [(ai_ID ai, ai_Addrs ai)] else upd).
  assert (∀ p, p ∈ upd.*1 → p ∈ upd1.*1) as Hupd.
  { intros p Hp. unfold upd1. case_decide; [rewrite fmap_app; apply elem_of_app; by left|done]. }
  case_decide as Hs.
  - assert (ai_ID ai ∉ started ++ toDial) as Hnew by (by intros Hin%Hseen).
    assert (ai_ID ai ∈ upd1.*1) as Hin.
    { unfold upd1. rewrite decide_True; [rewrite fmap_app; apply elem_of_app; right; left|]. intros Hqd%Hq. apply Hnew, elem_of_app. by left. }
    specialize (IH ({[ai_ID ai]} ∪ seen) (toDial ++ [ai_ID ai]) upd1). rewrite app_assoc in IH.
    destruct (crawlData queried data _ _ _) as [[seen' toDial'] upd']. destruct IH as (I1 & I2 & I3 & I4 & I5 & I6 & I7).
    { apply NoDup_app. split_and!; [done| |apply NoDup_singleton]. intros x Hx ->%list_elem_of_singleton. done. }
    { intros p. rewrite elem_of_union, elem_of_singleton, elem_of_app, list_elem_of_singleton, Hseen. tauto. }
    { done. }
    split_and!; [done|done|intros p Hp; apply I3; set_solver| |auto| |].
    + intros a [->|Ha]%elem_of_cons; [apply I3; set_solver|auto].
    + intros p Hp. destruct (I6 p Hp) as [[?| ->%list_elem_of_singleton]%elem_of_app|?]; auto.
    + intros p Hp. rewrite fmap_cons, elem_of_cons. destruct (I7 p Hp) as [[->%elem_of_singleton|?]%elem_of_union|?]; auto.
  - specialize (IH seen toDial upd1 Hnd Hseen Hq). destruct (crawlData queried data _ _ _) as [[seen' toDial'] upd'].
    destruct IH as (I1 & I2 & I3 & I4 & I5 & I6 & I7). split_and!; [done|done|done| |auto|done|].
    + intros a [->|Ha]%elem_of_cons; auto.
    + intros p Hp. rewrite fmap_cons, elem_of_cons. destruct (I7 p Hp); auto.
Qed.

Lemma removeOne_spec (l : list peerID) p :
  NoDup l → NoDup (removeOne p l) ∧ ∀ q, q ∈ removeOne p l ↔ q ∈ l ∧ q ≠ p.
Proof.
  induction 1 as [|x l Hx Hnd [IH1 IH2]]; cbn [removeOne]; [split; [constructor|]; intros q; split; [intros Hn; by apply not_elem_of_nil in Hn|by intros []]|].
  case_decide as He.
  - subst x. split; [done|]. intros q. rewrite elem_of_cons. split; [intros Hq; split; [by right|]; by intros ->|]. intros [[->|?] ?]; done.
  - split; [apply NoDup_cons; split; [by intros [? _]%IH2|done]|]. intros q. rewrite !elem_of_cons, IH2. naive_solver.
Qed.

Lemma elem_of_remove_one (l : list peerID) p q : NoDup l → q ∈ removeOne p l ↔ q ∈ l ∧ q ≠ p.
Proof. intros Hnd. by apply removeOne_spec. Qed.

Lemma crawlStep_inv s ev s' : crawlInv s → crawlStep s ev = Some s' → crawlInv s'.
Proof.
  intros (H1 & H2 & H3 & H4 & H5 & H6). destruct ev as [|p data]; cbn [crawlStep].
  - destruct (c_toDial s) as [|p toDial] eqn:Ed; [done|]. intros [= <-]. unfold crawlInv. cbn.
    assert (p ∉ c_started s ∧ p ∉ toDial) as [Hp1 Hp2].
    { apply NoDup_app in H1 as (_ & Hd & Hn). apply NoDup_cons in Hn as [? _]. split; [|done]. intros Hp. apply (Hd p Hp). left. }
    rewrite <-app_assoc. cbn. split_and!.
    + done.
    + intros q. rewrite H2. done.
    + apply NoDup_cons. split; [|done]. intros Ho. by apply Hp1, H4.
    + intros q [->|Hq]%elem_of_cons; [split; [apply elem_of_app; right; left|by intros ?%H5]|].
      destruct (H4 q Hq). split; [apply elem_of_app; by left|done].
    + intros q Hq. apply elem_of_app. left. auto.
    + intros q Hq. apply H6. set_solver.
  - case_decide as Hp; [|done].
    assert (NoDup (removeOne p (c_outstanding s))) as Hnd by (by apply removeOne_spec).
    case_decide as Hd.
    + pose proof (crawlData_spec (c_peersQueried s) data (c_peersSeen s) (c_toDial s) [] (c_started s) H1 H2 H5) as Hc.
      destruct (crawlData _ _ _ _ _) as [[seen toDial] upd]. destruct Hc as (C1 & C2 & C3 & C4 & _ & C6 & _).
      intros [= <-]. unfold crawlInv. cbn. split_and!; [done|done|done| | |].
      * intros q [Hq Hne]%elem_of_remove_one; [|done]. destruct (H4 q Hq). split; [done|]. set_solver.
      * intros q [->%elem_of_singleton|?]%elem_of_union; [by apply H4|auto].
      * intros q Hq. unfold RemoveSourceAndAddPeers. rewrite addAddrs_lookup.
        assert (q ≠ p) as Hne.
        { intros ->. apply elem_of_app in Hq as [Hq|[_ ?]%elem_of_remove_one]; [|done|done]. destruct (H4 p Hp) as [Hst _].
          apply NoDup_app in C1 as (_ & Cd & _). by apply (Cd p). }
        rewrite lookup_delete_ne by done. apply elem_of_app in Hq as [Hq|[Hq _]%elem_of_remove_one]; [|left; apply H6; set_solver|done].
        destruct (C6 q Hq); [left; apply H6; set_solver|by right].
    + intros [= <-]. unfold crawlInv. cbn. split_and!; [done|done|done| |done|].
      * intros q [Hq Hne]%elem_of_remove_one; [|done]. by apply H4.
      * intros q [Hq|[Hq _]%elem_of_remove_one]%elem_of_app; [apply H6; set_solver|apply H6; set_solver|done].
Qed.

Lemma crawlStart_inv stored l s :
  NoDup (ai_ID <$> l) → (∀ ai, ai ∈ l → ai_ID ai ∉ c_peersSeen s) → c_outstanding s = [] → c_peersQueried s = ∅ → c_started s = [] →
  crawlInv s → crawlInv (crawlStart stored l s) ∧ c_started (crawlStart stored l s) = [] ∧
  (∀ p, p ∈ c_peersSeen s → p ∈ c_peersSeen (crawlStart stored l s)) ∧
  (∀ ai, ai ∈ l → stored (ai_ID ai) ++ ai_Addrs ai ≠ [] → ai_ID ai ∈ c_peersSeen (crawlStart stored l s)) ∧
  (∀ p, p ∈ c_peersSeen (crawlStart stored l s) → p ∈ c_peersSeen s ∨ p ∈ ai_ID <$> l).
Proof.
  revert s. induction l as [|ai l IH]; intros s Hnd Hnew Ho Hq Hst Hinv; cbn [crawlStart].
  { split_and!; [done|done|done| |auto]. intros ai Hai. by apply not_elem_of_nil in Hai. }
  apply NoDup_cons in Hnd as [Hni Hnd]. case_decide as Hl.
  - destruct (IH s Hnd) as (I1 & I2 & I3 & I4 & I5); [intros a Ha; apply Hnew; by right|done..|]. split_and!; [done|done|done| |].
    + intros a [->|Ha]%elem_of_cons Hne; [|auto]. apply nil_length_inv in Hl. done.
    + intros p Hp. rewrite fmap_cons, elem_of_cons. destruct (I5 p Hp); auto.
  - set (s1 := mkCrawl _ _ _ _ _ _). destruct Hinv as (H1 & H2 & H3 & H4 & H5 & H6).
    assert (ai_ID ai ∉ c_toDial s) as Hnd'.
    { intros Hin. apply (Hnew ai); [left|]. apply H2, elem_of_app. by right. }
    assert (crawlInv s1) as Hs1.
    { unfold crawlInv, s1. cbn. rewrite Ho, Hq, Hst in *. cbn in *. split_and!.
      - apply NoDup_app. split_and!; [done| |apply NoDup_singleton]. intros x Hx ->%list_elem_of_singleton. done.
      - intros p. rewrite elem_of_union, elem_of_singleton, elem_of_app, list_elem_of_singleton, H2. tauto.
      - constructor.
      - intros p Hp. by apply not_elem_of_nil in Hp.
      - set_solver.
      - intros p. rewrite app_nil_r, elem_of_app, list_elem_of_singleton. unfold addPeerAddrsNoLock.
        destruct (decide (p = ai_ID ai)) as [->|Hne]; [rewrite lookup_insert_eq; by eexists|]. rewrite lookup_insert_ne by done.
        intros [Hp|?]; [apply H6; rewrite app_nil_r; done|done]. }
    destruct (IH s1 Hnd) as (I1 & I2 & I3 & I4 & I5); [|done|done|done|done|].
    { intros a Ha [Heq%elem_of_singleton|Hin]%elem_of_union; [|apply (Hnew a); [by right|done]].
      apply Hni. rewrite <-Heq. apply list_elem_of_fmap. by exists a. }
    split_and!; [done|done|intros p Hp; apply I3; cbn; set_solver| |].
    + intros a [->|Ha]%elem_of_cons Hne; [apply I3; cbn; set_solver|auto].
    + intros p Hp. rewrite fmap_cons, elem_of_cons. destruct (I5 p Hp) as [[->%elem_of_singleton|?]%elem_of_union|?]; auto.
Qed.

Fixpoint crawlRun s (evs : list crawlEvent) : option crawlState :=
  match evs with
  | [] => Some s
  | ev :: evs => s ← crawlStep s ev; crawlRun s evs
  end.

(** The peers that the starting peers and the answers name. *)
Definition named (evs : list crawlEvent) p : Prop := ∃ q data ai, CrawlResult q data ∈ evs ∧ ai ∈ data ∧ ai_ID ai = p.

Lemma crawlStep_seen s ev s' :
  crawlInv s → crawlStep s ev = Some s' →
  (∀ p, p ∈ c_peersSeen s → p ∈ c_peersSeen s') ∧ (∀ p, p ∈ c_peersSeen s' → p ∈ c_peersSeen s ∨ named [ev] p) ∧
  (∀ p, named [ev] p → p ∈ c_peersSeen s') ∧ 1 + length (c_outstanding s') + 2 * length (c_started s) = length (c_outstanding s) + 2 * length (c_started s').
Proof.
  intros (H1 & H2 & H3 & H4 & H5 & H6). unfold named. destruct ev as [|p data]; cbn [crawlStep].
  - destruct (c_toDial s) as [|p toDial]; [done|]. intros [= <-]. cbn. split_and!; [done|auto| |rewrite length_app; cbn; lia].
    intros q (? & ? & ? & Hn & _). by apply list_elem_of_singleton in Hn.
  - case_decide as Hp; [|done].
    assert (1 + length (removeOne p (c_outstanding s)) = length (c_outstanding s)) as Hlen.
    { clear -Hp. induction (c_outstanding s) as [|q l IH]; [by apply not_elem_of_nil in Hp|]. cbn. case_decide; [done|].
      apply elem_of_cons in Hp as [->|Hp]; [done|]. cbn. rewrite <-IH by done. lia. }
    case_decide as Hd.
    + pose proof (crawlData_spec (c_peersQueried s) data (c_peersSeen s) (c_toDial s) [] (c_started s) H1 H2 H5) as Hc.
      destruct (crawlData _ _ _ _ _) as [[seen toDial] upd]. destruct Hc as (_ & _ & C3 & C4 & _ & _ & C7).
      intros [= <-]. cbn. split_and!; [done| | |lia].
      * intros q Hq. destruct (C7 q Hq) as [?|(ai & -> & Hai)%list_elem_of_fmap]; [by left|]. right. exists p, data, ai. split; [left|done].
      * intros q (? & ? & ai & [= -> ->]%list_elem_of_singleton & Hai & <-). auto.
    + intros [= <-]. cbn. split_and!; [done|auto| |lia]. intros q (? & ? & ai & [= -> ->]%list_elem_of_singleton & Hai & _).
      destruct data; [by apply not_elem_of_nil in Hai|cbn in Hd; lia].
Qed.

Lemma crawlRun_spec s evs s' :
  crawlInv s → crawlRun s evs = Some s' →
  crawlInv s' ∧ (∀ p, p ∈ c_peersSeen s → p ∈ c_peersSeen s') ∧ (∀ p, p ∈ c_peersSeen s' → p ∈ c_peersSeen s ∨ named evs p) ∧
  (∀ p, named evs p → p ∈ c_peersSeen s') ∧ length evs + length (c_outstanding s') + 2 * length (c_started s) = length (c_outstanding s) + 2 * length (c_started s').
Proof.
  revert s. induction evs as [|ev evs IH]; intros s Hinv; cbn [crawlRun].
  { intros [= <-]. split_and!; [done|done|auto| |cbn; lia]. intros p (? & ? & ? & Hn & _). by apply not_elem_of_nil in Hn. }
  destruct (crawlStep s ev) as [s1|] eqn:E; [|done]. cbn. intros Hr.
  destruct (crawlStep_seen s ev s1 Hinv E) as (S1 & S2 & S3 & S4).
  destruct (IH s1 (crawlStep_inv s ev s1 Hinv E) Hr) as (I1 & I2 & I3 & I4 & I5).
  assert (∀ p, named (ev :: evs) p ↔ named [ev] p ∨ named evs p) as Hnamed.
  { intros p. unfold named. split.
    - intros (q & data & ai & Hin & Hr'). apply elem_of_cons in Hin as [<-|Hin]; [left|right]; exists q, data, ai; split; [left|done|done|done].
    - intros [(q & data & ai & <-%list_elem_of_singleton & Hr')|(q & data & ai & Hin & Hr')]; exists q, data, ai; (split; [|done]); [left|by right]. }
  split_and!; [done|auto| | |lia].
  - intros p Hp. rewrite Hnamed. destruct (I3 p Hp) as [Hp1|?]; [|auto]. destruct (S2 p Hp1); auto.
  - intros p [?|?]%Hnamed; auto.
Qed.

End crawler.

(** ** Example *)

#[local] Instance demoMaC : MaLib := { MA := Z; ma_Bytes z := [z]; NewMultiaddrBytes b := head b }.

Definition demoAI (p : Z) : AddrInfo := mkAddrInfo [p] [7%Z].

(** Peer 1 names 2 and 3, which name each other. *)
Definition demoEvs : list crawlEvent :=
  [CrawlJob; CrawlResult [1%Z] [demoAI 2; demoAI 3]; CrawlJob; CrawlJob; CrawlResult [3%Z] [demoAI 2; demoAI 3]; CrawlResult [2%Z] []].


(** The loop over the starting peers does not check whether a peer was seen: a
    peer that is listed twice is queried twice. *)
Example crawl_starting_twice :
  c_started <$> crawlRun (crawlInit (λ _, []) [demoAI 1; demoAI 1]) [CrawlJob; CrawlJob] = Some [[1]; [1]]%Z.
Proof. by vm_compute. Qed.
