(* ===== verification/MessageManager.v ===== *)
(** * The message manager

    [internal/net/message_manager.go]: sending messages to a peer over a stream
    that is reused, and the map of the senders.  What the network does is an
    argument: whether a stream can be opened, a message written and an answer
    read.  Streams are numbered; the ones that are open and the writes to them
    are ghost fields.  [None] is a panic: the use of a [nil] stream. *)

From S2P Require Import Prelude Message.

(** [streamReuseTries] *)
Definition streamReuseTries : Z := 3.

(** [peerMessageSender], with the open streams, the next stream and the number
    of writes. *)
Record peerMessageSender := mkPMS {
  ms_s : option nat;
  ms_invalid : bool;
  ms_singleMes : Z;
  ms_open : list nat;
  ms_fresh : nat;
  ms_writes : nat;
}.
Implicit Types ms : peerMessageSender.

(** What happens in an iteration of the loops: the stream is opened, the
    message is written, the answer is read. *)
Inductive readResult := ReadOk (m : Message) | ReadCanceled | ReadFailed.
Record netOutcome := mkOutcome { o_open : bool; o_write : bool; o_read : readResult; o_close : bool }.

Inductive msError := MsLock | MsInvalid | MsOpen | MsWrite | MsRead | MsClose.

(** [s.Reset()] or [s.Close()], and [ms.s = nil] *)
Definition dropStream ms : peerMessageSender :=
  mkPMS None (ms_invalid ms) (ms_singleMes ms) (match ms_s ms with Some i => filter (λ j, j ≠ i) (ms_open ms) | None => ms_open ms end)
    (ms_fresh ms) (ms_writes ms).

(** [invalidate] *)
Definition invalidate ms : peerMessageSender :=
  let ms := mkPMS (ms_s ms) true (ms_singleMes ms) (ms_open ms) (ms_fresh ms) (ms_writes ms) in
  match ms_s ms with Some _ => dropStream ms | None => ms end.

(** [prep] *)
Definition prep ms (open : bool) : peerMessageSender * option msError :=
  if ms_invalid ms then (ms, Some MsInvalid)
  else
    match ms_s ms with
    | Some _ => (ms, None)
    | None =>
        if open then (mkPMS (Some (ms_fresh ms)) (ms_invalid ms) (ms_singleMes ms) (ms_fresh ms :: ms_open ms) (S (ms_fresh ms)) (ms_writes ms), None)
        else (ms, Some MsOpen)
    end.

(** [prepOrInvalidate]; [locked] says whether the lock was obtained. *)
Definition prepOrInvalidate ms (locked open : bool) : peerMessageSender * option msError :=
  if locked then
    let '(ms, err) := prep ms open in
    match err with Some e => (invalidate ms, Some e) | None => (ms, None) end
  else (ms, Some MsLock).

(** [writeMsg] on the current stream. *)
Definition writeMsg ms : option peerMessageSender :=
  _ ← ms_s ms; Some (mkPMS (ms_s ms) (ms_invalid ms) (ms_singleMes ms) (ms_open ms) (ms_fresh ms) (S (ms_writes ms))).

(** The end of a successful iteration. *)
Definition finishMsg ms (retry close : bool) : peerMessageSender * option msError :=
  if decide (ms_singleMes ms > streamReuseTries)%Z then (dropStream ms, if close then None else Some MsClose)
  else if retry then (mkPMS (ms_s ms) (ms_invalid ms) (ms_singleMes ms + 1) (ms_open ms) (ms_fresh ms) (ms_writes ms), None)
  else (ms, None).

(** The loop of [SendMessage], given the outcomes of its iterations; [None] too
    when there are too few. *)
Fixpoint sendMessageLoop ms (retry : bool) (outs : list netOutcome) : option (peerMessageSender * option msError) :=
  match outs with
  | [] => None
  | o :: outs =>
      match prep ms (o_open o) with
      | (ms, Some err) => Some (ms, Some err)
      | (ms, None) =>
          ms ← writeMsg ms;
          if o_write o then Some (finishMsg ms retry (o_close o))
          else
            let ms := dropStream ms in
            if retry then Some (ms, Some MsWrite) else sendMessageLoop ms true outs
      end
  end.

Definition ms_SendMessage ms (locked : bool) (o1 o2 : netOutcome) : option (peerMessageSender * option msError) :=
  if locked then sendMessageLoop ms false [o1; o2] else Some (ms, Some MsLock).

(** The loop of [SendRequest]. *)
Fixpoint sendRequestLoop ms (retry : bool) (outs : list netOutcome) : option (peerMessageSender * (option Message * option msError)) :=
  match outs with
  | [] => None
  | o :: outs =>
      match prep ms (o_open o) with
      | (ms, Some err) => Some (ms, (None, Some err))
      | (ms, None) =>
          ms ← writeMsg ms;
          if o_write o then
            match o_read o with
            | ReadOk mes =>
                let '(ms, err) := finishMsg ms retry (o_close o) in
                Some (ms, (Some mes, err))
            | ReadCanceled => Some (dropStream ms, (None, Some MsRead))
            | ReadFailed =>
                let ms := dropStream ms in
                if retry then Some (ms, (None, Some MsRead)) else sendRequestLoop ms true outs
            end
          else
            let ms := dropStream ms in
            if retry then Some (ms, (None, Some MsWrite)) else sendRequestLoop ms true outs
      end
  end.

Definition ms_SendRequest ms (locked : bool) (o1 o2 : netOutcome) : option (peerMessageSender * (option Message * option msError)) :=
  if locked then sendRequestLoop ms false [o1; o2] else Some (ms, (None, Some MsLock)).

(** ** Streams are not leaked *)

(** The only open stream is the current one; none of an invalid sender. *)
Definition msOk ms : Prop :=
  ms_open ms = option_list (ms_s ms) ∧ (ms_invalid ms = true → ms_s ms = None).

Lemma filter_single (i : nat) : filter (λ j, j ≠ i) [i] = [].
Proof. rewrite filter_cons, decide_False by (intros Hn; by apply Hn). done. Qed.

Lemma dropStream_ok ms :
  msOk ms → msOk (dropStream ms) ∧ ms_writes (dropStream ms) = ms_writes ms ∧ ms_invalid (dropStream ms) = ms_invalid ms.
Proof.
  intros [H1 H2]. unfold msOk, dropStream. cbn [ms_s ms_open ms_invalid ms_writes]. rewrite H1.
  destruct (ms_s ms) as [i|]; [|done]. cbn [option_list]. by rewrite filter_single.
Qed.

Lemma prep_ok ms open :
  msOk ms → let '(ms', err) := prep ms open in
  msOk ms' ∧ ms_writes ms' = ms_writes ms ∧ ms_invalid ms' = ms_invalid ms ∧
  (err = None → is_Some (ms_s ms') ∧ ms_invalid ms' = false).
Proof.
  intros [H1 H2]. unfold prep, msOk. destruct (ms_invalid ms) eqn:Hi; [by split_and!; rewrite ?Hi|]. destruct (ms_s ms) as [i|] eqn:Hs.
  - rewrite Hs, Hi. split_and!; try done.
  - destruct open; cbn; rewrite ?Hs, ?Hi; split_and!; try done. by rewrite H1.
Qed.

Lemma invalidate_ok ms : msOk ms → msOk (invalidate ms) ∧ ms_invalid (invalidate ms) = true.
Proof.
  intros [H1 H2]. unfold invalidate. cbn [ms_s]. destruct (ms_s ms) as [i|] eqn:Hs; [|unfold msOk; cbn; rewrite ?Hs; done].
  unfold msOk, dropStream. cbn [ms_s ms_open ms_invalid]. rewrite H1. cbn [option_list]. by rewrite filter_single.
Qed.

Lemma finishMsg_ok ms retry close :
  msOk ms → let ms' := (finishMsg ms retry close).1 in msOk ms' ∧ ms_writes ms' = ms_writes ms ∧ ms_invalid ms' = ms_invalid ms.
Proof.
  intros Hok. unfold finishMsg. case_decide; [cbn [fst]; by apply dropStream_ok|]. destruct retry; [|done]. by destruct Hok.
Qed.

(** The sender after at most [n] writes, when no stream was left open. *)
Definition msAfter ms ms' (n : nat) : Prop :=
  msOk ms' ∧ ms_invalid ms' = ms_invalid ms ∧ ms_writes ms' ≤ ms_writes ms + n.

Lemma msAfter_trans ms1 ms2 ms3 n m : msAfter ms1 ms2 n → msAfter ms2 ms3 m → msAfter ms1 ms3 (n + m).
Proof. intros (H1 & H2 & H3) (H4 & H5 & H6). split_and!; [done|congruence|lia]. Qed.

Lemma msAfter_le ms1 ms2 n m : msAfter ms1 ms2 n → n ≤ m → msAfter ms1 ms2 m.
Proof. intros (H1 & H2 & H3) ?. split_and!; [done|done|lia]. Qed.

Lemma msAfter_drop ms1 ms2 n : msAfter ms1 ms2 n → msAfter ms1 (dropStream ms2) n.
Proof. intros (H1 & H2 & H3). destruct (dropStream_ok ms2 H1) as (? & ? & ?). split_and!; [done|congruence|lia]. Qed.

Lemma msAfter_finish ms1 ms2 n retry close : msAfter ms1 ms2 n → msAfter ms1 (finishMsg ms2 retry close).1 n.
Proof. intros (H1 & H2 & H3). destruct (finishMsg_ok ms2 retry close H1) as (? & ? & ?). split_and!; [done|congruence|lia]. Qed.

(** After [prep] there is a stream to write to. *)
Lemma prep_writeMsg ms open :
  msOk ms → match prep ms open with
            | (ms', Some _) => msAfter ms ms' 0
            | (ms', None) => ∃ ms2, writeMsg ms' = Some ms2 ∧ msAfter ms ms2 1
            end.
Proof.
  intros Hok. pose proof (prep_ok ms open Hok) as Hp. destruct (prep ms open) as [ms1 [err|]]; destruct Hp as ([P1 P1'] & P2 & P3 & P4).
  { split_and!; [done|done|lia]. }
  destruct (P4 eq_refl) as [[i Hi] Hinv]. unfold writeMsg. rewrite Hi. eexists. split; [done|].
  split_and!; cbn; [|done|lia]. unfold msOk. cbn. rewrite P1, Hi. split; [done|congruence].
Qed.
#[local] Hint Resolve msAfter_drop msAfter_finish : core.

Lemma sendMessageLoop_ok ms (retry : bool) outs :
  msOk ms → length outs = (if retry then 1 else 2) →
  ∃ ms' err, sendMessageLoop ms retry outs = Some (ms', err) ∧ msAfter ms ms' (length outs) ∧
    (err = None → ∃ o, o ∈ outs ∧ o_write o = true).
Proof.
  revert ms retry. induction outs as [|o outs IH]; intros ms retry Hok Hl; [by destruct retry|]. cbn [sendMessageLoop].
  pose proof (prep_writeMsg ms (o_open o) Hok) as Hp. destruct (prep ms (o_open o)) as [ms1 [err|]].
  { eexists _, _. split; [done|]. split; [eapply msAfter_le; [done|lia]|done]. }
  destruct Hp as (ms2 & -> & Ha). cbn [mbind option_bind]. destruct (o_write o) eqn:Hw.
  - destruct (finishMsg ms2 retry (o_close o)) as [ms3 err] eqn:Hf. eexists _, _. split; [done|]. split.
    + replace ms3 with (finishMsg ms2 retry (o_close o)).1 by (by rewrite Hf). eapply msAfter_le; [eauto|cbn; lia].
    + intros _. exists o. split; [left|done].
  - destruct retry; [eexists _, _; split; [done|]; split; [eapply msAfter_le; [eauto|cbn; lia]|done]|].
    cbn in Hl. destruct (IH (dropStream ms2) true) as (ms' & err & I1 & I2 & I3); [by apply msAfter_drop in Ha; destruct Ha|lia|].
    exists ms', err. split; [done|]. split; [eapply (msAfter_trans _ _ _ 1); [by apply msAfter_drop|done]|].
    intros He. destruct (I3 He) as (o' & ? & ?). exists o'. split; [by right|done].
Qed.

Lemma sendRequestLoop_ok ms (retry : bool) outs :
  msOk ms → length outs = (if retry then 1 else 2) →
  ∃ ms' res err, sendRequestLoop ms retry outs = Some (ms', (res, err)) ∧ msAfter ms ms' (length outs) ∧ (res = None → is_Some err) ∧
    (∀ m, res = Some m → ∃ o, o ∈ outs ∧ o_read o = ReadOk m ∧ o_write o = true).
Proof.
  revert ms retry. induction outs as [|o outs IH]; intros ms retry Hok Hl; [by destruct retry|]. cbn [sendRequestLoop].
  pose proof (prep_writeMsg ms (o_open o) Hok) as Hp. destruct (prep ms (o_open o)) as [ms1 [err|]].
  { eexists _, _, _. split; [done|]. split; [eapply msAfter_le; [done|lia]|done]. }
  destruct Hp as (ms2 & -> & Ha). cbn [mbind option_bind].
  assert (∀ (err : msError), ∃ ms' res err', (if retry then Some (dropStream ms2, (None : option Message, Some err)) else sendRequestLoop (dropStream ms2) true outs) = Some (ms', (res, err')) ∧
    msAfter ms ms' (length (o :: outs)) ∧ (res = None → is_Some err') ∧
    (∀ m, res = Some m → ∃ o', o' ∈ o :: outs ∧ o_read o' = ReadOk m ∧ o_write o' = true)) as Hretry.
  { intros err. destruct retry; [eexists _, _, _; split; [done|]; split; [eapply msAfter_le; [eauto|cbn; lia]|done]|].
    cbn in Hl. destruct (IH (dropStream ms2) true) as (ms' & res & err' & I1 & I2 & I3 & I4); [by apply msAfter_drop in Ha; destruct Ha|lia|].
    exists ms', res, err'. split; [done|]. split; [eapply (msAfter_trans _ _ _ 1); [by apply msAfter_drop|done]|].
    split; [done|]. intros m Hm. destruct (I4 m Hm) as (o' & ? & ?). exists o'. split; [by right|done]. }
  destruct (o_write o) eqn:Hw; [|apply Hretry]. destruct (o_read o) as [m| | ] eqn:Hr; [| |apply Hretry].
  - destruct (finishMsg ms2 retry (o_close o)) as [ms3 err] eqn:Hf. eexists _, _, _. split; [done|]. split_and!.
    + replace ms3 with (finishMsg ms2 retry (o_close o)).1 by (by rewrite Hf). eapply msAfter_le; [eauto|cbn; lia].
    + done.
    + intros m' [= <-]. exists o. split; [left|done].
  - eexists _, _, _. split; [done|]. split; [eapply msAfter_le; [eauto|cbn; lia]|done].
Qed.

(** ** The senders of all peers

    [messageSenderImpl]: the map of the senders, the senders that were ever
    allocated (with their peer), the calls of [messageSenderForPeer] that are
    before [prepOrInvalidate] and after its failure, and the goroutines that
    [OnDisconnect] started.  The critical sections of [smlk] and of a sender's
    lock are the steps; callers may hold any sender. *)
Record messageSenderImpl := mkMM {
  mm_strmap : gmap peerID nat;
  mm_senders : list (peerID * peerMessageSender);
  mm_preparing : list nat;
  mm_failed : list nat;
  mm_invalidating : list nat;
}.
Implicit Types s : messageSenderImpl.

(** [NewMessageSenderImpl] *)
Definition NewMessageSenderImpl : messageSenderImpl := mkMM ∅ [] [] [] [].

(** The first part of [messageSenderForPeer]: the sender of the map, or a new
    one that is to be prepared. *)
Definition getSender s (p : peerID) : messageSenderImpl * nat :=
  match mm_strmap s !! p with
  | Some i => (s, i)
  | None =>
      let i := length (mm_senders s) in
      (mkMM (<[p := i]> (mm_strmap s)) (mm_senders s ++ [(p, mkPMS None false 0 [] 0 0)])
         (i :: mm_preparing s) (mm_failed s) (mm_invalidating s), i)
  end.

(** Its last part, after the failure to prepare sender [i]: the sender of the
    map if it is another one. *)
Definition failedSender s (p : peerID) (i : nat) : messageSenderImpl * option nat :=
  match mm_strmap s !! p with
  | Some cur =>
      if decide (i ≠ cur) then (s, Some cur)
      else (mkMM (delete p (mm_strmap s)) (mm_senders s) (mm_preparing s) (mm_failed s) (mm_invalidating s), None)
  | None => (s, None)
  end.

(** [OnDisconnect], before its goroutine. *)
Definition OnDisconnect s (p : peerID) : messageSenderImpl :=
  match mm_strmap s !! p with
  | None => s
  | Some i => mkMM (delete p (mm_strmap s)) (mm_senders s) (mm_preparing s) (mm_failed s) (i :: mm_invalidating s)
  end.

Definition setSender s (i : nat) (p : peerID) ms : messageSenderImpl :=
  mkMM (mm_strmap s) (<[i := (p, ms)]> (mm_senders s)) (mm_preparing s) (mm_failed s) (mm_invalidating s).

(** The steps; [k] is the position of a call or of a goroutine, [i] a sender,
    [locked] says whether the sender's lock is obtained before the context
    ends. *)
Inductive mmEvent :=
| EvGet (p : peerID)
| EvPrep (k : nat) (locked open : bool)
| EvFailed (k : nat)
| EvDisconnect (p : peerID)
| EvInvalidate (k : nat) (locked : bool)
| EvSendMessage (i : nat) (locked : bool) (o1 o2 : netOutcome)
| EvSendRequest (i : nat) (locked : bool) (o1 o2 : netOutcome).

Definition mmStep s (e : mmEvent) : option messageSenderImpl :=
  match e with
  | EvGet p => Some (getSender s p).1
  | EvPrep k locked open =>
      match mm_preparing s !! k with
      | None => Some s
      | Some i =>
          '(p, ms) ← mm_senders s !! i;
          let '(ms, err) := prepOrInvalidate ms locked open in
          let s := setSender s i p ms in
          Some (mkMM (mm_strmap s) (mm_senders s) (delete k (mm_preparing s))
                  (match err with Some _ => i :: mm_failed s | None => mm_failed s end) (mm_invalidating s))
      end
  | EvFailed k =>
      match mm_failed s !! k with
      | None => Some s
      | Some i =>
          '(p, _) ← mm_senders s !! i;
          let s := (failedSender s p i).1 in
          Some (mkMM (mm_strmap s) (mm_senders s) (mm_preparing s) (delete k (mm_failed s)) (mm_invalidating s))
      end
  | EvDisconnect p => Some (OnDisconnect s p)
  | EvInvalidate k locked =>
      match mm_invalidating s !! k with
      | None => Some s
      | Some i =>
          '(p, ms) ← mm_senders s !! i;
          let s := setSender s i p (if locked then invalidate ms else ms) in
          Some (mkMM (mm_strmap s) (mm_senders s) (mm_preparing s) (mm_failed s) (delete k (mm_invalidating s)))
      end
  | EvSendMessage i locked o1 o2 =>
      match mm_senders s !! i with
      | None => Some s
      | Some (p, ms) => '(ms, _) ← ms_SendMessage ms locked o1 o2; Some (setSender s i p ms)
      end
  | EvSendRequest i locked o1 o2 =>
      match mm_senders s !! i with
      | None => Some s
      | Some (p, ms) => '(ms, _) ← ms_SendRequest ms locked o1 o2; Some (setSender s i p ms)
      end
  end.

Fixpoint mmRun s (evs : list mmEvent) : option messageSenderImpl :=
  match evs with
  | [] => Some s
  | e :: evs => s ← mmStep s e; mmRun s evs
  end.

(** The creator of a sender and the goroutine of a disconnect obtain its lock. *)
Definition evLocked (e : mmEvent) : Prop :=
  match e with EvPrep _ locked _ | EvInvalidate _ locked => locked = true | _ => True end.

(** The senders with an open stream. *)
Definition openSenders s : list nat :=
  filter (λ i, from_option (λ x, ms_open x.2) [] (mm_senders s !! i) ≠ []) (seq 0 (length (mm_senders s))).

(** ** No stream is forgotten *)

Record mmInv s : Prop := {
  mi_ok : ∀ i p ms, mm_senders s !! i = Some (p, ms) → msOk ms;
  mi_kept : ∀ i p ms, mm_senders s !! i = Some (p, ms) → ms_invalid ms = true ∨ mm_strmap s !! p = Some i ∨ i ∈ mm_invalidating s;
  mi_map : ∀ p i, mm_strmap s !! p = Some i → ∃ ms, mm_senders s !! i = Some (p, ms) ∧ (ms_invalid ms = true → i ∈ mm_failed s);
  mi_failed : ∀ i, i ∈ mm_failed s → ∃ p ms, mm_senders s !! i = Some (p, ms) ∧ ms_invalid ms = true;
  mi_invalidating : ∀ i, i ∈ mm_invalidating s → ∃ p ms, mm_senders s !! i = Some (p, ms) ∧ mm_strmap s !! p ≠ Some i;
  mi_preparing : ∀ i, i ∈ mm_preparing s → i < length (mm_senders s);
}.

Lemma mmInv_new : mmInv NewMessageSenderImpl.
Proof. split; intros *; cbn; rewrite ?lookup_empty, ?elem_of_nil; done. Qed.

(** A sender is changed under its lock, and stays valid or invalid. *)
Lemma mmInv_setSender s i p ms ms' :
  mmInv s → mm_senders s !! i = Some (p, ms) → msOk ms' → ms_invalid ms' = ms_invalid ms → mmInv (setSender s i p ms').
Proof.
  intros [I1 I2 I3 I4 I5 I6] Hi Hok Hinv. assert (i < length (mm_senders s)) as Hlt by (by eapply lookup_lt_Some).
  assert (∀ j q m, <[i:=(p, ms')]> (mm_senders s) !! j = Some (q, m) →
    msOk m ∧ ∃ m0, mm_senders s !! j = Some (q, m0) ∧ ms_invalid m = ms_invalid m0) as Hback.
  { intros j q m [(-> & [= -> ->] & _)|[? Hj]]%list_lookup_insert_Some; [eauto|]. split; [by eapply I1|eauto]. }
  assert (∀ j q m, mm_senders s !! j = Some (q, m) →
    ∃ m', <[i:=(p, ms')]> (mm_senders s) !! j = Some (q, m') ∧ ms_invalid m' = ms_invalid m) as Hfwd.
  { intros j q m Hj. destruct (decide (i = j)) as [->|]; [rewrite list_lookup_insert_eq by done|rewrite list_lookup_insert_ne by done; eauto].
    exists ms'. rewrite Hi in Hj. injection Hj as -> ->. done. }
  split; cbn.
  - intros j q m Hj. by apply (Hback j q m).
  - intros j q m Hj. destruct (Hback j q m Hj) as (_ & m0 & Hj0 & ->). by apply (I2 j q m0).
  - intros q j Hq. destruct (I3 q j Hq) as (m & Hj & Hf). destruct (Hfwd j q m Hj) as (m' & ? & He). exists m'. by rewrite He.
  - intros j (q & m & Hj & Hf)%I4. destruct (Hfwd j q m Hj) as (m' & ? & He). exists q, m'. by rewrite He.
  - intros j (q & m & Hj & Hf)%I5. destruct (Hfwd j q m Hj) as (m' & ? & He). eauto.
  - intros j Hj. rewrite length_insert. auto.
Qed.

Lemma mmInv_get s p : mmInv s → mmInv (getSender s p).1.
Proof.
  intros [I1 I2 I3 I4 I5 I6]. unfold getSender. destruct (mm_strmap s !! p) as [i|] eqn:Hp; [by split|].
  assert (∀ j q m, mm_senders s !! j = Some (q, m) → ∀ l, (mm_senders s ++ l) !! j = Some (q, m)) as Hext
    by (intros; by apply lookup_app_l_Some).
  assert (∀ j q m, mm_senders s !! j = Some (q, m) → j ≠ length (mm_senders s)) as Hne
    by (intros j q m Hj%lookup_lt_Some; lia).
  split; cbn [fst mm_strmap mm_senders mm_preparing mm_failed mm_invalidating].
  - intros j q m [Hj|[_ Hj]]%lookup_app_Some; [by eapply I1|]. apply list_lookup_singleton_Some in Hj as [_ [= <- <-]]. done.
  - intros j q m [Hj|[Hl Hj]]%lookup_app_Some.
    + destruct (I2 j q m Hj) as [?|[?|?]]; [by left| |by right; right]. right; left. rewrite lookup_insert_ne; [done|]. by intros ->; congruence.
    + apply list_lookup_singleton_Some in Hj as [Hj [= <- <-]]. right; left. rewrite lookup_insert_eq. f_equal. lia.
  - intros q j [[<- <-]|[? Hq]]%lookup_insert_Some.
    { eexists. split; [by apply list_lookup_middle|done]. }
    destruct (I3 q j Hq) as (m & Hj & Hf). eauto.
  - intros j (q & m & Hj & ?)%I4. eauto.
  - intros j (q & m & Hj & Hq)%I5. exists q, m. split; [auto|]. intros [[-> <-]|[? ?]]%lookup_insert_Some; [|done]. by eapply Hne.
  - rewrite length_app; cbn. intros j [->|Hj]%elem_of_cons; [lia|]. specialize (I6 j Hj). lia.
Qed.

Lemma mmInv_disconnect s p : mmInv s → mmInv (OnDisconnect s p).
Proof.
  intros [I1 I2 I3 I4 I5 I6]. unfold OnDisconnect. destruct (mm_strmap s !! p) as [i|] eqn:Hp; [|by split].
  split; cbn [mm_strmap mm_senders mm_preparing mm_failed mm_invalidating]; [done| | |done| |done].
  - intros j q m Hj. destruct (I2 j q m Hj) as [?|[Hq|?]]; [by left| |by right; right; right].
    destruct (decide (p = q)) as [->|]; [|right; left; by rewrite lookup_delete_ne]. right; right. replace j with i by congruence. left.
  - intros q j [_ Hq]%lookup_delete_Some. eauto.
  - intros j [->|Hj]%elem_of_cons.
    + destruct (I3 p i Hp) as (m & Hi & _). exists p, m. split; [done|]. by rewrite lookup_delete_eq.
    + destruct (I5 j Hj) as (q & m & ? & ?). exists q, m. split; [done|]. by intros [_ ?]%lookup_delete_Some.
Qed.

Lemma elem_of_delete_at (l : list nat) k i : l !! k = Some i → ∀ j, j ∈ l ↔ j = i ∨ j ∈ delete k l.
Proof. intros Hk j. rewrite (delete_Permutation l k i Hk) at 1. apply elem_of_cons. Qed.

Lemma mmInv_failed s k i p ms :
  mmInv s → mm_failed s !! k = Some i → mm_senders s !! i = Some (p, ms) →
  let s1 := (failedSender s p i).1 in
  mmInv (mkMM (mm_strmap s1) (mm_senders s1) (mm_preparing s1) (delete k (mm_failed s1)) (mm_invalidating s1)).
Proof.
  intros [I1 I2 I3 I4 I5 I6] Hk Hi. pose proof (elem_of_delete_at _ _ _ Hk) as Hel.
  assert (ms_invalid ms = true) as Hinv by (destruct (I4 i) as (? & ? & ? & ?); [apply Hel; by left|congruence]).
  assert (∃ m', failedSender s p i = (mkMM m' (mm_senders s) (mm_preparing s) (mm_failed s) (mm_invalidating s), (failedSender s p i).2) ∧
    m' !! p ≠ Some i ∧ (∀ q j, m' !! q = Some j → mm_strmap s !! q = Some j) ∧ (∀ q j, mm_strmap s !! q = Some j → j ≠ i → m' !! q = Some j)) as (m' & -> & M1 & M2 & M3).
  { unfold failedSender. destruct (mm_strmap s !! p) as [c|] eqn:Hp; [|exists (mm_strmap s); split_and!; [by destruct s|congruence|done..]].
    case_decide; cbn [snd]; [exists (mm_strmap s); split_and!; [by destruct s|congruence|done..]|]. exists (delete p (mm_strmap s)).
    split; [done|]. rewrite lookup_delete_eq. split; [done|]. split; [by intros q j [_ ?]%lookup_delete_Some|].
    intros q j Hq Hne. rewrite lookup_delete_ne; [done|]. intros ->. congruence. }
  split; cbn [fst mm_strmap mm_senders mm_preparing mm_failed mm_invalidating]; [done| | | | |done].
  - intros j q m Hj. destruct (I2 j q m Hj) as [?|[Hq|?]]; [by left| |by right; right].
    destruct (decide (j = i)) as [->|]; [left; congruence|right; left; auto].
  - intros q j Hq. destruct (I3 q j) as (m & Hj & Hf); [auto|]. exists m. split; [done|]. intros Hm.
    apply Hel in Hf as [->|]; [|done|done]. congruence.
  - intros j Hj. apply I4, Hel. by right.
  - intros j (q & m & Hj & Hq)%I5. exists q, m. split; [done|]. by intros ?%M2.
Qed.

(** A sender is invalidated: its creator fails, or it is not in the map. *)
Lemma mmInv_setInvalid s i p ms ms' pr fl iv :
  mmInv s → mm_senders s !! i = Some (p, ms) → msOk ms' → ms_invalid ms' = true →
  (∀ j, j ∈ pr → j ∈ mm_preparing s) → (∀ j, j ∈ fl ↔ j ∈ mm_failed s ∨ j = i ∧ j ∈ fl) → (mm_strmap s !! p = Some i → i ∈ fl) →
  (∀ j, j ∈ iv → j ∈ mm_invalidating s) → (∀ j, j ∈ mm_invalidating s → j ≠ i → j ∈ iv) →
  mmInv (mkMM (mm_strmap s) (<[i := (p, ms')]> (mm_senders s)) pr fl iv).
Proof.
  intros [I1 I2 I3 I4 I5 I6] Hi Hok Hinv Hpr Hfl Hp Hiv1 Hiv2. assert (i < length (mm_senders s)) as Hlt by (by eapply lookup_lt_Some).
  assert (∀ j q m, mm_senders s !! j = Some (q, m) → ∃ m', <[i:=(p, ms')]> (mm_senders s) !! j = Some (q, m') ∧
    (j = i ∧ ms_invalid m' = true ∨ j ≠ i ∧ m' = m)) as Hfwd.
  { intros j q m Hj. destruct (decide (i = j)) as [->|]; [rewrite list_lookup_insert_eq by done|rewrite list_lookup_insert_ne by done; eauto].
    exists ms'. rewrite Hi in Hj. injection Hj as -> ->. auto. }
  split; cbn [fst mm_strmap mm_senders mm_preparing mm_failed mm_invalidating].
  - intros j q m [(-> & [= -> ->] & _)|[? Hj]]%list_lookup_insert_Some; [done|by eapply I1].
  - intros j q m [(-> & [= -> ->] & _)|[? Hj]]%list_lookup_insert_Some; [by left|].
    destruct (I2 j q m Hj) as [?|[?|?]]; [by left|by right; left|right; right; auto].
  - intros q j Hq. destruct (I3 q j Hq) as (m & Hj & Hf). destruct (Hfwd j q m Hj) as (m' & ? & Hm). exists m'. split; [done|].
    destruct Hm as [[-> _]|[? ->]]; [intros _; apply Hp; by simplify_eq|]. intros Hm. apply Hfl. auto.
  - intros j [Hj|[-> _]]%Hfl; [|destruct (Hfwd i p ms Hi) as (m' & ? & [[_ ?]|[? _]]); [eauto|done]].
    destruct (I4 j Hj) as (q & m & Hjm & Hm). destruct (Hfwd j q m Hjm) as (m' & ? & [[_ ?]|[_ ->]]); eauto.
  - intros j (q & m & Hj & Hq)%Hiv1%I5. destruct (Hfwd j q m Hj) as (m' & ? & _). eauto.
  - intros j Hj. rewrite length_insert. auto.
Qed.

Lemma delete_elem (l : list nat) k j : j ∈ delete k l → j ∈ l.
Proof. intros Hj. eapply elem_of_submseteq; [done|apply submseteq_delete]. Qed.

Lemma mmInv_prep s k i p ms open :
  mmInv s → mm_preparing s !! k = Some i → mm_senders s !! i = Some (p, ms) →
  let '(ms', err) := prepOrInvalidate ms true open in
  mmInv (mkMM (mm_strmap s) (<[i := (p, ms')]> (mm_senders s)) (delete k (mm_preparing s))
           (match err with Some _ => i :: mm_failed s | None => mm_failed s end) (mm_invalidating s)).
Proof.
  intros Hs Hk Hi. pose proof (mi_ok s Hs i p ms Hi) as Hok. pose proof (prep_ok ms open Hok) as Hp. cbn [prepOrInvalidate].
  destruct (prep ms open) as [ms1 [err|]]; destruct Hp as (P1 & _ & P3 & _).
  - destruct (invalidate_ok ms1 P1) as [V1 V2]. eapply mmInv_setInvalid; try done; try set_solver. intros j. apply delete_elem.
  - destruct (mmInv_setSender s i p ms ms1 Hs Hi P1 P3) as [I1 I2 I3 I4 I5 I6]. split; cbn in *; try done. intros j Hj%delete_elem. auto.
Qed.

Lemma mmInv_invalidate s k i p ms :
  mmInv s → mm_invalidating s !! k = Some i → mm_senders s !! i = Some (p, ms) →
  mmInv (mkMM (mm_strmap s) (<[i := (p, invalidate ms)]> (mm_senders s)) (mm_preparing s) (mm_failed s) (delete k (mm_invalidating s))).
Proof.
  intros Hs Hk Hi. pose proof (mi_ok s Hs i p ms Hi) as Hok. destruct (invalidate_ok ms Hok) as [V1 V2].
  pose proof (elem_of_delete_at _ _ _ Hk) as Hel. eapply mmInv_setInvalid; try done; try set_solver.
  destruct (mi_invalidating s Hs i) as (q & m & Hq & ?); [apply Hel; by left|]. by simplify_eq.
Qed.

Lemma ms_SendMessage_ok ms locked o1 o2 :
  msOk ms → ∃ ms' err, ms_SendMessage ms locked o1 o2 = Some (ms', err) ∧ msAfter ms ms' 2 ∧
    (err = None → ∃ o, o ∈ [o1; o2] ∧ o_write o = true).
Proof.
  intros Hok. unfold ms_SendMessage. destruct locked; [by apply sendMessageLoop_ok|].
  eexists _, _. split; [done|]. split; [split_and!; [done|done|lia]|done].
Qed.

Lemma ms_SendRequest_ok ms locked o1 o2 :
  msOk ms → ∃ ms' res err, ms_SendRequest ms locked o1 o2 = Some (ms', (res, err)) ∧ msAfter ms ms' 2 ∧ (res = None → is_Some err) ∧
    (∀ m, res = Some m → ∃ o, o ∈ [o1; o2] ∧ o_read o = ReadOk m ∧ o_write o = true).
Proof.
  intros Hok. unfold ms_SendRequest. destruct locked; [by apply sendRequestLoop_ok|].
  eexists _, _, _. split; [done|]. split; [split_and!; [done|done|lia]|done].
Qed.

Lemma mmStep_inv s e : mmInv s → evLocked e → ∃ s', mmStep s e = Some s' ∧ mmInv s'.
Proof.
  intros Hs He. destruct e as [p|k locked open|k|p|k locked|i locked o1 o2|i locked o1 o2]; cbn [mmStep evLocked] in *.
  - eexists. split; [done|]. by apply mmInv_get.
  - subst locked. destruct (mm_preparing s !! k) as [i|] eqn:Hk; [|eauto].
    destruct (lookup_lt_is_Some_2 (mm_senders s) i) as [[p ms] Hi]; [by eapply mi_preparing, list_elem_of_lookup_2|]. rewrite Hi. cbn [mbind option_bind].
    pose proof (mmInv_prep s k i p ms open Hs Hk Hi) as Hp. destruct (prepOrInvalidate ms true open) as [ms' err]. eauto.
  - destruct (mm_failed s !! k) as [i|] eqn:Hk; [|eauto]. destruct (mi_failed s Hs i) as (p & ms & Hi & _); [by eapply list_elem_of_lookup_2|].
    rewrite Hi. eexists. split; [done|]. by eapply mmInv_failed.
  - eexists. split; [done|]. by apply mmInv_disconnect.
  - subst locked. destruct (mm_invalidating s !! k) as [i|] eqn:Hk; [|eauto].
    destruct (mi_invalidating s Hs i) as (p & ms & Hi & _); [by eapply list_elem_of_lookup_2|]. rewrite Hi. eexists. split; [done|]. by apply (mmInv_invalidate s k i p ms).
  - destruct (mm_senders s !! i) as [[p ms]|] eqn:Hi; [|eauto].
    destruct (ms_SendMessage_ok ms locked o1 o2 (mi_ok s Hs i p ms Hi)) as (ms' & err & -> & (A1 & A2 & _) & _). eexists. split; [done|]. by eapply mmInv_setSender.
  - destruct (mm_senders s !! i) as [[p ms]|] eqn:Hi; [|eauto].
    destruct (ms_SendRequest_ok ms locked o1 o2 (mi_ok s Hs i p ms Hi)) as (ms' & res & err & -> & (A1 & A2 & _) & _). eexists. split; [done|]. by eapply mmInv_setSender.
Qed.

Lemma mmRun_inv s evs : mmInv s → Forall evLocked evs → ∃ s', mmRun s evs = Some s' ∧ mmInv s'.
Proof.
  intros Hs Hl. revert s Hs. induction Hl as [|e evs He _ IH]; intros s Hs; [by exists s|]. cbn.
  destruct (mmStep_inv s e Hs He) as (s1 & -> & Hs1). by apply IH.
Qed.

Lemma openSenders_spec s i :
  mmInv s → i ∈ openSenders s → i ∈ (map_to_list (mm_strmap s)).*2 ++ mm_invalidating s.
Proof.
  intros Hs [Ho _]%list_elem_of_filter. destruct (mm_senders s !! i) as [[p ms]|] eqn:Hi; [|done]. cbn in Ho.
  destruct (mi_ok s Hs i p ms Hi) as [O1 O2]. apply elem_of_app. destruct (mi_kept s Hs i p ms Hi) as [Hinv|[Hp|?]]; [|left|by right].
  - by rewrite O1, O2 in Ho.
  - apply list_elem_of_fmap. exists (p, i). split; [done|]. by apply elem_of_map_to_list.
Qed.

Lemma openSenders_le s : mmInv s → length (openSenders s) ≤ size (mm_strmap s) + length (mm_invalidating s).
Proof.
  intros Hs. rewrite <-length_map_to_list, <-(length_fmap snd (map_to_list (mm_strmap s))), <-length_app. apply submseteq_length, NoDup_submseteq.
  - apply NoDup_filter, NoDup_seq.
  - intros i. by apply openSenders_spec.
Qed.

(** [peerMessageSender.SendRequest], whatever the network does: it never
    uses a stream that it has not, it writes the request twice at most, it
    leaves no stream open but the sender's own, it never brings an invalid
    sender back, and it returns an error or an answer that was read after the
    request was written. *)
Theorem SendRequest_correct ms (locked : bool) (o1 o2 : netOutcome) :
  msOk ms →
  ∃ ms' res err, ms_SendRequest ms locked o1 o2 = Some (ms', (res, err)) ∧ msOk ms' ∧
    ms_invalid ms' = ms_invalid ms ∧ ms_writes ms' ≤ ms_writes ms + 2 ∧ (res = None → is_Some err) ∧
    (∀ m, res = Some m → ∃ o, o ∈ [o1; o2] ∧ o_read o = ReadOk m ∧ o_write o = true).
Proof.
  intros Hok. destruct (ms_SendRequest_ok ms locked o1 o2 Hok) as (ms' & res & err & H & (? & ? & ?) & ? & ?). exists ms', res, err. done.
Qed.

(** C27: the senders of all peers, for every interleaving of lookups,
    disconnects, requests and messages in which the creators of senders and the
    goroutines of [OnDisconnect] obtain the lock they wait for: nothing panics;
    a stream that is open belongs to the sender of a peer in the map or to one
    that a disconnect is about to invalidate, so that there are no more open
    streams than these; and a sender of the map that is invalid is about to be
    removed by the call that made it. *)
Theorem messageSenders_no_leak (evs : list mmEvent) :
  Forall evLocked evs →
  ∃ s, mmRun NewMessageSenderImpl evs = Some s ∧
    (∀ i, i ∈ openSenders s → i ∈ (map_to_list (mm_strmap s)).*2 ∨ i ∈ mm_invalidating s) ∧
    length (openSenders s) ≤ size (mm_strmap s) + length (mm_invalidating s) ∧
    (∀ p i, mm_strmap s !! p = Some i → ∃ ms, mm_senders s !! i = Some (p, ms) ∧ msOk ms ∧ (ms_invalid ms = true → i ∈ mm_failed s)).
Proof.
  intros Hl. destruct (mmRun_inv NewMessageSenderImpl evs mmInv_new Hl) as (s & -> & Hs). exists s. split; [done|].
  split; [intros i Hi; by apply elem_of_app, openSenders_spec|]. split; [by apply openSenders_le|].
  intros p i Hp. destruct (mi_map s Hs p i Hp) as (ms & Hi & Hf). exists ms. split; [done|]. split; [by eapply mi_ok|done].
Qed.

Definition mmOk : netOutcome := mkOutcome true true (ReadOk (NewMessage PING [] 0)) true.
Definition mmBad : netOutcome := mkOutcome true true ReadFailed true.

Lemma SendRequest_correct_witness :
  ∃ ms' res err, ms_SendRequest (mkPMS None false 0 [] 0 0) true mmBad mmOk = Some (ms', (res, err)) ∧ msOk ms' ∧
    ms_invalid ms' = false ∧ ms_writes ms' ≤ 2 ∧ (res = None → is_Some err) ∧
    (∀ m, res = Some m → ∃ o, o ∈ [mmBad; mmOk] ∧ o_read o = ReadOk m ∧ o_write o = true).
Proof. apply (SendRequest_correct (mkPMS None false 0 [] 0 0) true mmBad mmOk). done. Defined.

(** A peer is looked up and prepared, a request is sent, the peer disconnects
    and the sender is invalidated. *)
Definition mmEvents : list mmEvent :=
  [EvGet [1%Z]; EvPrep 0 true true; EvSendRequest 0 true mmBad mmOk; EvDisconnect [1%Z]; EvGet [1%Z]; EvInvalidate 0 true; EvPrep 0 true false; EvFailed 0].

Lemma messageSenders_no_leak_witness :
  ∃ s, mmRun NewMessageSenderImpl mmEvents = Some s ∧
    (∀ i, i ∈ openSenders s → i ∈ (map_to_list (mm_strmap s)).*2 ∨ i ∈ mm_invalidating s) ∧
    length (openSenders s) ≤ size (mm_strmap s) + length (mm_invalidating s) ∧
    (∀ p i, mm_strmap s !! p = Some i → ∃ ms, mm_senders s !! i = Some (p, ms) ∧ msOk ms ∧ (ms_invalid ms = true → i ∈ mm_failed s)).
Proof. apply (messageSenders_no_leak mmEvents). repeat constructor. Defined.

(** When the creator's context ends while another caller holds the lock of the
    sender it made, the sender leaves the map with its stream open, and nothing
    will close it. *)
Example messageSenders_lock_leak :
  option_map (λ s, (openSenders s, size (mm_strmap s), mm_preparing s, mm_failed s, mm_invalidating s))
    (mmRun NewMessageSenderImpl [EvGet [1%Z]; EvSendRequest 0 true mmOk mmOk; EvPrep 0 false true; EvFailed 0])
  = Some ([0], 0, [], [], []).
Proof. by vm_compute. Qed.
