(* ===== verification/Refresh.v ===== *)
(** * The refresh of the routing table

    [rtrefresh/rt_refresh_manager.go].  The routing table
    ([go-libp2p-kbucket]), the host and the queries, with the clock, are the
    parameters of the class [RefreshLib]: a state [W] and the calls that the
    manager makes.  The attempts to refresh a common prefix length are recorded
    in the results. *)

From S2P Require Import Prelude Datastore Message.

(** How a call of [refreshQueryFnc] ends: its error may be the deadline, and the
    deadline of the query's context may have passed. *)
Inductive queryEnd := QueryOk | QueryDeadline (expired : bool) | QueryError.

Class RefreshLib := {
  W : Type;
  now : W → Z;
  GetPeerInfos : W → list (peerID * Z);
  RemovePeer : W → peerID → W;
  NPeersForCpl : W → nat → Z;
  GetTrackedCplsForRefresh : W → list Z;
  refreshKeyGenFnc : W → nat → W * option bytes;
  refreshQueryFnc : W → bytes → W * queryEnd;
  Connect : W → peerID → bool;
  refreshPingFnc : W → peerID → bool;
}.

(** What the manager relies on: the table has a peer once; a removed peer is
    gone, the others stay, and still answer as they did. *)
Class RefreshLaws `{RefreshLib} : Prop := {
  GetPeerInfos_nodup w : NoDup (GetPeerInfos w).*1;
  RemovePeer_infos w p x : x ∈ GetPeerInfos (RemovePeer w p) ↔ x ∈ GetPeerInfos w ∧ x.1 ≠ p;
  RemovePeer_connect w p q : Connect (RemovePeer w p) q = Connect w q;
  RemovePeer_ping w p q : refreshPingFnc (RemovePeer w p) q = refreshPingFnc w q;
}.

Inductive refreshErr := ErrSelf | ErrKey (cpl : nat) | ErrQuery (cpl : nat).
#[export] Instance refreshErr_eq_dec : EqDecision refreshErr.
Proof. solve_decision. Defined.

(** An attempt to refresh a length: whether it was run, its error, and the peers
    the table had for the length after it. *)
Record attempt := mkAttempt { at_cpl : nat; at_ran : bool; at_err : option refreshErr; at_peers : Z }.

Section refresh.
Context {RL : RefreshLib}.
Context (dhtPeerId : bytes) (refreshInterval successfulOutboundQueryGracePeriod : Z).

(** [runRefreshDHTQuery]; [true] is an error. *)
Definition runRefreshDHTQuery (w : W) (key : bytes) : W * bool :=
  let '(w, e) := refreshQueryFnc w key in
  (w, match e with QueryOk => false | QueryDeadline expired => negb expired | QueryError => true end).

(** [queryForSelf] *)
Definition queryForSelf (w : W) : W * option refreshErr :=
  let '(w, failed) := runRefreshDHTQuery w dhtPeerId in (w, if failed then Some ErrSelf else None).

(** [refreshCpl] *)
Definition refreshCpl (w : W) (cpl : nat) : W * option refreshErr :=
  match refreshKeyGenFnc w cpl with
  | (w, None) => (w, Some (ErrKey cpl))
  | (w, Some key) => let '(w, failed) := runRefreshDHTQuery w key in (w, if failed then Some (ErrQuery cpl) else None)
  end.

(** [refreshCplIfEligible] *)
Definition refreshCplIfEligible (w : W) (cpl : nat) (lastRefreshedAt : Z) : W * option refreshErr :=
  if decide (now w - lastRefreshedAt ≤ refreshInterval)%Z then (w, None) else refreshCpl w cpl.

(** [rfnc]; the attempt records whether a query was run. *)
Definition rfnc (forceRefresh : bool) (refreshCpls : list Z) (w : W) (cpl : nat) : W * attempt :=
  let last := refreshCpls !!! cpl in
  let '(w', err) := if forceRefresh then refreshCpl w cpl else refreshCplIfEligible w cpl last in
  (w', mkAttempt cpl (forceRefresh || bool_decide (now w - last > refreshInterval)%Z) err (NPeersForCpl w' cpl)).

(** The inner loop: refresh the given lengths. *)
Fixpoint refreshMany (forceRefresh : bool) (refreshCpls : list Z) (w : W) (cpls : list nat) : W * list attempt :=
  match cpls with
  | [] => (w, [])
  | c :: cpls =>
      let '(w, a) := rfnc forceRefresh refreshCpls w c in
      let '(w, rest) := refreshMany forceRefresh refreshCpls w cpls in
      (w, a :: rest)
  end.

(** [lastCpl] for a gap at [c]. *)
Definition lastCpl (refreshCpls : list Z) (c : nat) : nat := Nat.min (2 * (c + 1)) (length refreshCpls - 1).

(** The loop over the lengths; [true] when it returned at a gap. *)
Fixpoint refreshLoop (forceRefresh : bool) (refreshCpls : list Z) (w : W) (cpls : list nat) : W * list attempt * bool :=
  match cpls with
  | [] => (w, [], false)
  | c :: cpls =>
      let '(w, a) := rfnc forceRefresh refreshCpls w c in
      match at_err a with
      | None =>
          if decide (at_peers a = 0%Z) then
            let '(w, rest) := refreshMany forceRefresh refreshCpls w (seq (c + 1) (lastCpl refreshCpls c + 1 - (c + 1))) in
            (w, a :: rest, true)
          else
            let '(w, rest, gap) := refreshLoop forceRefresh refreshCpls w cpls in (w, a :: rest, gap)
      | Some _ => let '(w, rest, gap) := refreshLoop forceRefresh refreshCpls w cpls in (w, a :: rest, gap)
      end
  end.

(** What [doRefresh] returns: the errors, or the context's error; and whether
    [refreshDoneCh] was written. *)
Inductive refreshResult := RefErrs (errs : list refreshErr) | RefCtx.

(** [doRefresh]; [ctxDone] says that the context ends before [refreshDoneCh] is
    read. *)
Definition doRefresh (w : W) (forceRefresh ctxDone : bool) : W * list attempt * refreshResult * bool :=
  let '(w, serr) := queryForSelf w in
  let refreshCpls := GetTrackedCplsForRefresh w in
  let '(w, attempts, gap) := refreshLoop forceRefresh refreshCpls w (seq 0 (length refreshCpls)) in
  let merr := option_list serr ++ omap at_err attempts in
  if gap then (w, attempts, RefErrs merr, false)
  else if ctxDone then (w, attempts, RefCtx, false)
  else (w, attempts, RefErrs merr, true).

(** A goroutine of [pingAndEvictPeers] *)
Definition pingWorker (w : W) (p : peerID) : W :=
  if Connect w p then if refreshPingFnc w p then w else RemovePeer w p else RemovePeer w p.

(** The peers that [pingAndEvictPeers] checks. *)
Definition peersToCheck (w : W) : list peerID :=
  (filter (λ ps, ¬ (now w - ps.2 ≤ successfulOutboundQueryGracePeriod)%Z) (GetPeerInfos w)).*1.

(** [pingAndEvictPeers]; [order] is the order in which the goroutines act. *)
Definition pingAndEvictPeers (order : list peerID → list peerID) (w : W) : W :=
  foldl pingWorker w (order (peersToCheck w)).

(** [triggerRefreshReq], its channel being a number. *)
Record triggerRefreshReq := mkReq { respCh : option nat; forceCplRefresh : bool }.

Definition batchReq (x : list nat * bool) (r : triggerRefreshReq) : list nat * bool :=
  (x.1 ++ option_list (respCh r), x.2 || forceCplRefresh r).

(** An iteration of [loop]: the tick ([None]) or the request that starts it, the
    requests that wait at that time, and the answers that it sends. *)
Definition refreshIteration (order : list peerID → list peerID) (w : W) (first : option triggerRefreshReq) (more : list triggerRefreshReq) (ctxDone : bool) :
  W * list attempt * list (nat * refreshResult) :=
  let start := match first with None => ([], false) | Some r => batchReq ([], false) r end in
  let '(waiting, forced) := foldl batchReq start more in
  let w := pingAndEvictPeers order w in
  let '(w, attempts, err, _) := doRefresh w forced ctxDone in
  (w, attempts, (λ ch, (ch, err)) <$> waiting).

(** ** [doRefresh] *)

(** Where the loop returns early: no error, and no peer. *)
Definition isGap (a : attempt) : Prop := at_err a = None ∧ at_peers a = 0%Z.
#[global] Instance isGap_dec a : Decision (isGap a).
Proof. unfold isGap. apply _. Defined.

Lemma rfnc_spec f cpls w c w' a :
  rfnc f cpls w c = (w', a) → at_cpl a = c ∧ (at_ran a = false → at_err a = None).
Proof.
  unfold rfnc. intros H. destruct f; cbn in H.
  - destruct (refreshCpl w c) as [w1 err]. by injection H as <- <-.
  - unfold refreshCplIfEligible in H. destruct (decide _) as [Hd|Hd].
    + by injection H as <- <-.
    + destruct (refreshCpl w c) as [w1 err]. injection H as <- <-. split; [done|]. cbn. rewrite bool_decide_eq_false. lia.
Qed.

Lemma refreshMany_spec f cpls w l w' acc :
  refreshMany f cpls w l = (w', acc) → at_cpl <$> acc = l.
Proof.
  revert w w' acc. induction l as [|c l IH]; intros w w' acc H; cbn in H; [by injection H as <- <-|].
  destruct (rfnc f cpls w c) as [w1 a] eqn:Ha. destruct (refreshMany f cpls w1 l) as [w2 rest] eqn:Hr. injection H as <- <-.
  cbn. f_equal; [by apply rfnc_spec in Ha as [-> _]|by eapply IH].
Qed.

Lemma lastCpl_ge cpls c : c < length cpls → c ≤ lastCpl cpls c.
Proof. unfold lastCpl. lia. Qed.

Lemma refreshLoop_spec f cpls w c k w' acc gap :
  refreshLoop f cpls w (seq c k) = (w', acc, gap) → c + k = length cpls →
  if gap then ∃ pre a post, acc = pre ++ a :: post ∧ Forall (λ b, ¬ isGap b) pre ∧ isGap a ∧ c ≤ at_cpl a < length cpls ∧
      at_cpl <$> acc = seq c (lastCpl cpls (at_cpl a) + 1 - c)
  else at_cpl <$> acc = seq c k ∧ Forall (λ b, ¬ isGap b) acc.
Proof.
  revert w c w' acc gap. induction k as [|k IH]; intros w c w' acc gap H Hl; cbn [seq refreshLoop] in H; [by injection H as <- <- <-|].
  destruct (rfnc f cpls w c) as [w1 a] eqn:Ha. apply rfnc_spec in Ha as [Hc _].
  assert (¬ isGap a → (let '(w, rest, gap) := refreshLoop f cpls w1 (seq (S c) k) in (w, a :: rest, gap)) = (w', acc, gap) →
    if gap then ∃ pre a post, acc = pre ++ a :: post ∧ Forall (λ b, ¬ isGap b) pre ∧ isGap a ∧ c ≤ at_cpl a < length cpls ∧
      at_cpl <$> acc = seq c (lastCpl cpls (at_cpl a) + 1 - c)
    else at_cpl <$> acc = seq c (S k) ∧ Forall (λ b, ¬ isGap b) acc) as Hrest.
  { intros Hng He. destruct (refreshLoop f cpls w1 (seq (S c) k)) as [[w2 rest] g] eqn:Hr. injection He as <- <- <-.
    specialize (IH w1 (S c) w2 rest g Hr ltac:(lia)). destruct g; [|destruct IH; split; [cbn; by f_equal|by constructor]].
    destruct IH as (pre & b & post & -> & ? & ? & ? & He). exists (a :: pre), b, post. split_and!; [done|by constructor|done|lia|lia|].
    change ((a :: pre) ++ b :: post) with (a :: (pre ++ b :: post)). rewrite fmap_cons, Hc, He. pose proof (lastCpl_ge cpls (at_cpl b) ltac:(lia)).
    replace (lastCpl cpls (at_cpl b) + 1 - c) with (S (lastCpl cpls (at_cpl b) + 1 - S c)) by lia. done. }
  destruct (at_err a) eqn:He; [apply Hrest; [by intros [? _]; congruence|done]|].
  destruct (decide (at_peers a = 0%Z)) as [Hz|Hz]; [|apply Hrest; [intros [_ ?]; congruence|done]].
  destruct (refreshMany _ _ _ _) as [w2 rest] eqn:Hr. injection H as <- <- <-. apply refreshMany_spec in Hr.
  exists [], a, rest. split_and!; [done|constructor|done|lia|lia|]. rewrite fmap_cons, Hr, Hc. pose proof (lastCpl_ge cpls c ltac:(lia)).
  replace (lastCpl cpls c + 1 - c) with (S (lastCpl cpls c + 1 - (c + 1))) by lia. by rewrite Nat.add_1_r.
Qed.

(** ** The loop *)

Lemma foldl_batchReq x reqs :
  foldl batchReq x reqs = (x.1 ++ omap respCh reqs, x.2 || existsb forceCplRefresh reqs).
Proof.
  revert x. induction reqs as [|r reqs IH]; intros [l b]; cbn [foldl]; [cbn; by rewrite app_nil_r, orb_false_r|].
  rewrite IH. unfold batchReq. cbn. rewrite <-app_assoc, <-orb_assoc. by destruct (respCh r).
Qed.

(** What holds of every attempt. *)
Lemma refreshMany_Forall (P : attempt → Prop) f cpls w l w' acc :
  (∀ w c w' a, rfnc f cpls w c = (w', a) → P a) → refreshMany f cpls w l = (w', acc) → Forall P acc.
Proof.
  intros HP. revert w w' acc. induction l as [|c l IH]; intros w w' acc H; cbn [refreshMany] in H; [injection H as <- <-; constructor|].
  destruct (rfnc f cpls w c) as [w1 a] eqn:Ha. destruct (refreshMany f cpls w1 l) as [w2 rest] eqn:Hr. injection H as <- <-.
  constructor; [by eapply HP|by eapply IH].
Qed.

Lemma refreshLoop_Forall (P : attempt → Prop) f cpls w l w' acc gap :
  (∀ w c w' a, rfnc f cpls w c = (w', a) → P a) → refreshLoop f cpls w l = (w', acc, gap) → Forall P acc.
Proof.
  intros HP. revert w w' acc gap. induction l as [|c l IH]; intros w w' acc gap H; cbn [refreshLoop] in H; [injection H as <- <- <-; constructor|].
  destruct (rfnc f cpls w c) as [w1 a] eqn:Ha. apply HP in Ha.
  assert ((let '(w, rest, gap) := refreshLoop f cpls w1 l in (w, a :: rest, gap)) = (w', acc, gap) → Forall P acc) as Hrest.
  { destruct (refreshLoop f cpls w1 l) as [[w2 rest] g] eqn:Hr. intros [= <- <- <-]. constructor; [done|by eapply IH]. }
  destruct (at_err a); [by apply Hrest|]. destruct (decide _); [|by apply Hrest].
  destruct (refreshMany _ _ _ _) as [w2 rest] eqn:Hr. injection H as <- <- <-. constructor; [done|by eapply refreshMany_Forall].
Qed.

Lemma rfnc_forced cpls w c w' a : rfnc true cpls w c = (w', a) → at_ran a = true.
Proof. unfold rfnc. destruct (refreshCpl w c). by intros [= <- <-]. Qed.

Lemma pingWorkers_spec `{!RefreshLaws} ps w :
  (∀ q, Connect (foldl pingWorker w ps) q = Connect w q ∧ refreshPingFnc (foldl pingWorker w ps) q = refreshPingFnc w q) ∧
  (∀ x, x ∈ GetPeerInfos (foldl pingWorker w ps) ↔ x ∈ GetPeerInfos w ∧ (x.1 ∈ ps → Connect w x.1 = true ∧ refreshPingFnc w x.1 = true)).
Proof.
  revert w. induction ps as [|p ps IH]; intros w; cbn [foldl]; [split; [done|]; intros x; split; [|by intros []]; intros ?; split; [done|]; by intros ?%elem_of_nil|].
  assert (pingWorker w p = w ∧ Connect w p = true ∧ refreshPingFnc w p = true ∨
    pingWorker w p = RemovePeer w p ∧ ¬ (Connect w p = true ∧ refreshPingFnc w p = true)) as Hw.
  { unfold pingWorker. destruct (Connect w p), (refreshPingFnc w p); auto; right; split; try done; by intros []. }
  destruct (IH (pingWorker w p)) as [IH1 IH2]. destruct Hw as [(He & Hc & Hp)|[He Hd]]; rewrite He in *.
  - split; [done|]. intros x. rewrite IH2. split; intros [H1 H2]; (split; [done|]).
    + by intros [->|Hx]%elem_of_cons; [|apply H2].
    + intros Hx. apply H2. by right.
  - split; [intros q; destruct (IH1 q) as [-> ->]; by rewrite RemovePeer_connect, RemovePeer_ping|].
    intros x. rewrite IH2, RemovePeer_infos, RemovePeer_connect, RemovePeer_ping. split.
    + intros [[H1 H2] H3]. split; [done|]. by intros [?|Hx]%elem_of_cons; [|apply H3].
    + intros [H1 H2]. split; [split; [done|]|intros Hx; apply H2; by right]. intros <-. apply Hd, H2. by left.
Qed.

Lemma peersToCheck_spec `{!RefreshLaws} w x :
  x ∈ GetPeerInfos w → x.1 ∈ peersToCheck w ↔ (now w - x.2 > successfulOutboundQueryGracePeriod)%Z.
Proof.
  intros Hx. unfold peersToCheck. rewrite list_elem_of_fmap. split.
  - intros (y & He & [Hy1 Hy2]%list_elem_of_filter). replace x with y; [lia|].
    apply list_elem_of_lookup in Hx as [i Hi], Hy2 as [j Hj]. pose proof (GetPeerInfos_nodup w) as Hnd.
    replace j with i in Hj; [congruence|]. eapply NoDup_lookup; [done| |]; rewrite list_lookup_fmap; [by rewrite Hi|by rewrite Hj; cbn; f_equal].
  - intros Ht. exists x. split; [done|]. apply list_elem_of_filter. split; [lia|done].
Qed.

(** [doRefresh]: the peer queries for itself and then refreshes the common
    prefix lengths in order, from 0.  Without a gap all the tracked lengths are
    refreshed and the end of the refresh is signalled, unless the context ends.
    At the first gap, a length that was refreshed without an error and for which
    the table has no peer, the lengths up to the smaller of twice the next
    length and the last one are refreshed, and the end is not signalled.  The
    errors of all attempts are returned, in order; a length is queried only if
    the refresh is forced or the length was not refreshed in the interval. *)
Theorem doRefresh_correct w forceRefresh ctxDone w' attempts res done :
  doRefresh w forceRefresh ctxDone = (w', attempts, res, done) →
  let '(w1, serr) := queryForSelf w in
  let cpls := GetTrackedCplsForRefresh w1 in
  let n := length cpls in
  Forall (λ a, at_ran a = false → at_err a = None) attempts ∧
  ((at_cpl <$> attempts = seq 0 n ∧ Forall (λ a, ¬ isGap a) attempts ∧ done = negb ctxDone ∧
    res = if ctxDone then RefCtx else RefErrs (option_list serr ++ omap at_err attempts)) ∨
   (∃ pre a post, attempts = pre ++ a :: post ∧ Forall (λ b, ¬ isGap b) pre ∧ isGap a ∧ at_cpl a < n ∧
    at_cpl <$> attempts = seq 0 (Nat.min (2 * (at_cpl a + 1)) (n - 1) + 1) ∧ done = false ∧
    res = RefErrs (option_list serr ++ omap at_err attempts))).
Proof.
  unfold doRefresh. destruct (queryForSelf w) as [w1 serr]. cbn zeta.
  destruct (refreshLoop _ _ _ _) as [[w2 acc] gap] eqn:Hl. intros H.
  assert (acc = attempts) as -> by (destruct gap; [|destruct ctxDone]; by injection H).
  split; [eapply refreshLoop_Forall; [|done]; by intros ???? [_ ?]%rfnc_spec|]. apply refreshLoop_spec in Hl; [|done]. destruct gap.
  - injection H as <- <- <-. right. destruct Hl as (pre & a & post & ? & ? & ? & [_ ?] & Hs). exists pre, a, post.
    rewrite Nat.sub_0_r in Hs. done.
  - left. destruct Hl as [? ?]. destruct ctxDone; by injection H as <- <- <-.
Qed.

(** an iteration of [loop]: for every order in which the goroutines act, the
    peers that were not heard of in the grace period and do not answer are
    evicted and all others stay, before the table is refreshed; the refresh is
    forced if a request of the batch asks for it, and then no length is skipped;
    every request of the batch that waits for an answer gets one, the result of
    this refresh, and there are no other answers. *)
Theorem refreshIteration_correct `{!RefreshLaws} order w first more ctxDone w' attempts answers :
  (∀ l, order l ≡ₚ l) →
  refreshIteration order w first more ctxDone = (w', attempts, answers) →
  let reqs := option_list first ++ more in
  let forced := existsb forceCplRefresh reqs in
  ∃ w1 res sent, doRefresh w1 forced ctxDone = (w', attempts, res, sent) ∧
    (∀ x, x ∈ GetPeerInfos w1 ↔ x ∈ GetPeerInfos w ∧
       ((now w - x.2 ≤ successfulOutboundQueryGracePeriod)%Z ∨ Connect w x.1 = true ∧ refreshPingFnc w x.1 = true)) ∧
    (forced = true → Forall (λ a, at_ran a = true) attempts) ∧
    answers = (λ ch, (ch, res)) <$> omap respCh reqs.
Proof.
  intros Ho. unfold refreshIteration.
  assert (foldl batchReq (match first with None => ([], false) | Some r => batchReq ([], false) r end) more
    = (omap respCh (option_list first ++ more), existsb forceCplRefresh (option_list first ++ more))) as ->.
  { rewrite foldl_batchReq. destruct first as [r|]; [|done]. cbn. by destruct (respCh r). }
  cbn zeta. intros Heq. set (w1 := pingAndEvictPeers order w) in *. exists w1.
  destruct (doRefresh w1 _ ctxDone) as [[[w2 acc] res] sent] eqn:Hd. injection Heq as <- <- <-. exists res, sent. split; [done|]. split; [|split; [|done]].
  - intros x. unfold w1, pingAndEvictPeers. destruct (pingWorkers_spec (order (peersToCheck w)) w) as [_ ->]. rewrite Ho.
    split; intros [Hx Ha]; (split; [done|]); rewrite (peersToCheck_spec w x Hx) in *; destruct (decide (now w - x.2 ≤ successfulOutboundQueryGracePeriod)%Z).
    + by left.
    + right. apply Ha. lia.
    + lia.
    + by destruct Ha.
  - intros Hf. rewrite Hf in Hd. unfold doRefresh in Hd. destruct (queryForSelf w1) as [w3 serr]. cbn zeta in Hd.
    destruct (refreshLoop _ _ _ _) as [[w4 acc'] gap] eqn:Hl. assert (acc' = acc) as -> by (destruct gap; [|destruct ctxDone]; by injection Hd).
    eapply refreshLoop_Forall; [|done]. intros ????. apply rfnc_forced.
Qed.
End refresh.

(** ** Witnesses *)

(** A table of three lengths in which nobody has a peer at length 0; the query
    for length 1 fails; the second peer does not answer. *)
Definition demoRefreshLib : RefreshLib := {|
  W := gmap peerID Z;
  now _ := 100%Z;
  GetPeerInfos w := map_to_list w;
  RemovePeer w p := delete p w;
  NPeersForCpl w c := if decide (c = 0) then 0%Z else 1%Z;
  GetTrackedCplsForRefresh w := [0; 0; 99; 0]%Z;
  refreshKeyGenFnc w c := (w, Some [Z.of_nat c]);
  refreshQueryFnc w k := (w, if decide (k = [1%Z]) then QueryError else QueryOk);
  Connect w p := bool_decide (p ≠ [8%Z]);
  refreshPingFnc w p := true;
|}.

#[local] Instance demoRefreshLaws : RefreshLaws (H := demoRefreshLib).
Proof.
  split; [|intros w p [q t]|done..]; cbn.
  - intros w. apply NoDup_fst_map_to_list.
  - rewrite !elem_of_map_to_list, lookup_delete_Some. cbn. naive_solver.
Qed.

Definition demoPeers : gmap peerID Z := {[ [7%Z] := 95%Z; [8%Z] := 0%Z; [9%Z] := 0%Z ]}.

Definition demoAttempts : list attempt := [mkAttempt 0 true None 0; mkAttempt 1 true (Some (ErrQuery 1)) 1; mkAttempt 2 false None 1].

Lemma doRefresh_correct_witness :
  Forall (λ a, at_ran a = false → at_err a = None) demoAttempts ∧
  ((at_cpl <$> demoAttempts = seq 0 4 ∧ Forall (λ a, ¬ isGap a) demoAttempts ∧ false = true ∧ RefErrs [ErrQuery 1] = RefErrs (omap at_err demoAttempts)) ∨
   (∃ pre a post, demoAttempts = pre ++ a :: post ∧ Forall (λ b, ¬ isGap b) pre ∧ isGap a ∧ at_cpl a < 4 ∧
    at_cpl <$> demoAttempts = seq 0 (Nat.min (2 * (at_cpl a + 1)) 3 + 1) ∧ false = false ∧ RefErrs [ErrQuery 1] = RefErrs (omap at_err demoAttempts))).
Proof.
  apply (doRefresh_correct (RL := demoRefreshLib) [5%Z] 10 demoPeers false false demoPeers demoAttempts (RefErrs [ErrQuery 1]) false).
  reflexivity.
Defined.

Lemma refreshIteration_correct_witness :
  ∃ w1 res sent, doRefresh (RL := demoRefreshLib) [5%Z] 10 w1 true false =
    (delete [8%Z] demoPeers, [mkAttempt 0 true None 0; mkAttempt 1 true (Some (ErrQuery 1)) 1; mkAttempt 2 true None 1], res, sent) ∧
    (∀ x, x ∈ map_to_list w1 ↔ x ∈ map_to_list demoPeers ∧ ((100 - x.2 ≤ 20)%Z ∨ bool_decide (x.1 ≠ [8%Z]) = true ∧ true = true)) ∧
    (true = true → Forall (λ a, at_ran a = true) [mkAttempt 0 true None 0; mkAttempt 1 true (Some (ErrQuery 1)) 1; mkAttempt 2 true None 1]) ∧
    [(3, RefErrs [ErrQuery 1]); (4, RefErrs [ErrQuery 1])] = (λ ch, (ch, res)) <$> [3; 4].
Proof.
  apply (refreshIteration_correct (RL := demoRefreshLib) [5%Z] 10 20 (@reverse peerID) demoPeers
    (Some (mkReq (Some 3) false)) [mkReq None true; mkReq (Some 4) false] false).
  - intros l. apply reverse_Permutation.
  - reflexivity.
Defined.
