(* ===== verification/Node.v ===== *)
(** * The node: its routing table, its mode and its bootstrap

    The parts of [dht.go] and [subscriber_notifee.go] that keep the state of a
    node: which peers enter the routing table ([peerFound], [lookupCheck],
    [rtPeerLoop]), the switch between client and server mode, and the bootstrap
    ([fixLowPeers]).  The routing table ([go-libp2p-kbucket]) and the peerstore
    are the class [NodeLib].  The goroutines (the subscriber, the lookup checks,
    the loop of the routing table and the loop that fixes it) and the queries
    are interleaved steps; [n_verified], the peers that have answered, and
    [n_refreshes], the calls of [RefreshNoWait], are ghost fields. *)

From S2P Require Import Prelude Datastore Message.

Class NodeLib := {
  RT : Type;
  rt_Size : RT → Z;
  rt_peers : RT → list peerID;
  UsefulNewPeer : RT → peerID → bool;
  (** The table, [newlyAdded] or an error, and whether a peer was evicted. *)
  TryAddPeer : RT → peerID → bool → bool → RT * option bool * bool;
  rt_RemovePeer : RT → peerID → RT * bool;
  MarkAllPeersIrreplaceable : RT → RT;
  UpdateLastSuccessfulOutboundQueryAt : RT → peerID → RT;
  PSTORE : Type;
  (** [None] is an error, the empty string no protocol. *)
  FirstSupportedProtocol : PSTORE → peerID → list string → option string;
}.

(** What the node relies on: a call adds only its peer. *)
Class NodeLaws `{NodeLib} : Prop := {
  TryAddPeer_peers rt p q r x : x ∈ rt_peers (TryAddPeer rt p q r).1.1 → x ∈ rt_peers rt ∨ x = p;
  rt_RemovePeer_peers rt p x : x ∈ rt_peers (rt_RemovePeer rt p).1 → x ∈ rt_peers rt ∧ x ≠ p;
  MarkAll_peers rt x : x ∈ rt_peers (MarkAllPeersIrreplaceable rt) → x ∈ rt_peers rt;
  UpdateLast_peers rt p x : x ∈ rt_peers (UpdateLastSuccessfulOutboundQueryAt rt p) → x ∈ rt_peers rt;
}.

(** [mode], [ModeOpt] and [network.Reachability] *)
Inductive mode := modeServer | modeClient.
Inductive ModeOpt := ModeAuto | ModeClient | ModeServer | ModeAutoServer.
Inductive Reachability := ReachabilityUnknown | ReachabilityPublic | ReachabilityPrivate.

#[export] Instance mode_eq_dec : EqDecision mode.
Proof. solve_decision. Defined.
#[export] Instance ModeOpt_eq_dec : EqDecision ModeOpt.
Proof. solve_decision. Defined.

(** A stream: its protocol, and whether it is inbound. *)
Record stream := mkStream { s_Protocol : string; s_Inbound : bool }.

Section node.
Context {NL : NodeLib}.
Context (bucketSize : Z) (protocols serverProtocols : list string) (auto : ModeOpt) (autoRefresh : bool).
(** [routingTablePeerFilter], if it is set. *)
Context (routingTablePeerFilter : option (peerID → bool)).

(** The state of [IpfsDHT]; [n_checks] are the lookup checks that run and
    [n_adding] the goroutines that wait for [rtPeerLoop] in [validPeerFound]. *)
Record node := mkNode {
  n_rt : RT;
  n_ps : PSTORE;
  n_checks : list peerID;
  n_capacity : Z;
  n_adding : list peerID;
  n_bootstrapCount : Z;
  n_isBootstrapping : bool;
  n_timer : bool;
  n_fix : bool;
  n_mode : mode;
  n_handlers : gset string;
  n_streams : list stream;
  n_verified : list peerID;
  n_refreshes : nat;
}.
Implicit Types (n : node) (p : peerID).

Definition setRT n (rt : RT) (fix_ : bool) : node :=
  mkNode rt (n_ps n) (n_checks n) (n_capacity n) (n_adding n) (n_bootstrapCount n) (n_isBootstrapping n) (n_timer n) (n_fix n || fix_)
    (n_mode n) (n_handlers n) (n_streams n) (n_verified n) (n_refreshes n).

(** [fixRTIfNeeded], a send to a channel with one place. *)
Definition fixRTIfNeeded n : node := setRT n (n_rt n) true.

(** [RefreshNoWait] *)
Definition refreshNoWait n : node :=
  mkNode (n_rt n) (n_ps n) (n_checks n) (n_capacity n) (n_adding n) (n_bootstrapCount n) (n_isBootstrapping n) (n_timer n) (n_fix n)
    (n_mode n) (n_handlers n) (n_streams n) (n_verified n) (S (n_refreshes n)).

(** ** Adding peers *)

(** [validRTPeer] *)
Definition validRTPeer n p : option bool :=
  match FirstSupportedProtocol (n_ps n) p protocols with
  | None => None
  | Some b =>
      if decide (String.length b = 0) then Some false
      else Some (match routingTablePeerFilter with None => true | Some f => f p end)
  end.

(** [peerFound]: a lookup check is started. *)
Definition peerFound n p : node :=
  if UsefulNewPeer (n_rt n) p then
    match validRTPeer n p with
    | Some true =>
        if decide (n_capacity n = 0%Z) then n
        else mkNode (n_rt n) (n_ps n) (p :: n_checks n) (n_capacity n - 1) (n_adding n) (n_bootstrapCount n) (n_isBootstrapping n) (n_timer n) (n_fix n)
               (n_mode n) (n_handlers n) (n_streams n) (n_verified n) (n_refreshes n)
    | _ => n
    end
  else n.

(** [lookupCheck], given the number of peers of the answer, if there is one;
    [true] is a success. *)
Definition lookupCheck n (answer : option nat) : bool :=
  match answer with
  | None => false
  | Some peerids => negb (bool_decide (peerids = 0 ∧ (bucketSize ≤ rt_Size (n_rt n))%Z))
  end.

(** [validPeerFound]: the goroutine waits for the loop of the routing table. *)
Definition validPeerFound n p : node :=
  mkNode (n_rt n) (n_ps n) (n_checks n) (n_capacity n) (p :: n_adding n) (n_bootstrapCount n) (n_isBootstrapping n) (n_timer n) (n_fix n)
    (n_mode n) (n_handlers n) (n_streams n) (p :: n_verified n) (n_refreshes n).

(** The end of the goroutine of [peerFound], the [i]-th that runs. *)
Definition checkDone n (i : nat) p (answer : option nat) : node :=
  let ok := lookupCheck n answer in
  let n := mkNode (n_rt n) (n_ps n) (delete i (n_checks n)) (n_capacity n + 1) (n_adding n) (n_bootstrapCount n) (n_isBootstrapping n) (n_timer n) (n_fix n)
             (n_mode n) (n_handlers n) (n_streams n) (n_verified n) (n_refreshes n) in
  if ok then validPeerFound n p else n.

(** [peerStoppedDHT]; a removal calls [PeerRemoved]. *)
Definition peerStoppedDHT n p : node := let '(rt, removed) := rt_RemovePeer (n_rt n) p in setRT n rt removed.

(** [handlePeerChangeEvent] *)
Definition handlePeerChangeEvent n p : node :=
  match validRTPeer n p with
  | None => n
  | Some true => peerFound n p
  | Some false => peerStoppedDHT n p
  end.

(** ** The loop of the routing table *)

(** [rtPeerLoop] receives a peer, from the [i]-th goroutine that waits. *)
Definition rtPeerAdd n (i : nat) p : node :=
  let empty := bool_decide (rt_Size (n_rt n) = 0%Z) in
  let boot := empty || n_isBootstrapping n in
  let n := mkNode (n_rt n) (n_ps n) (n_checks n) (n_capacity n) (delete i (n_adding n)) (if empty then 0 else n_bootstrapCount n) boot
             (if empty then false else n_timer n) (n_fix n) (n_mode n) (n_handlers n) (n_streams n) (n_verified n) (n_refreshes n) in
  let '(rt, res, evicted) := TryAddPeer (n_rt n) p true boot in
  let n := setRT n rt evicted in
  match res with
  | None => n
  | Some true => fixRTIfNeeded n
  | Some false => setRT n (UpdateLastSuccessfulOutboundQueryAt (n_rt n) p) false
  end.

(** It receives from [refreshFinishedCh]. *)
Definition rtRefreshFinished n : node :=
  let count := (n_bootstrapCount n + 1)%Z in
  let old := n_isBootstrapping n in
  let n := mkNode (n_rt n) (n_ps n) (n_checks n) (n_capacity n) (n_adding n) count false (if decide (count = 2%Z) then true else n_timer n) (n_fix n)
             (n_mode n) (n_handlers n) (n_streams n) (n_verified n) (n_refreshes n) in
  if old then refreshNoWait n else n.

(** The timer fires. *)
Definition rtTimer n : node :=
  mkNode (MarkAllPeersIrreplaceable (n_rt n)) (n_ps n) (n_checks n) (n_capacity n) (n_adding n) (n_bootstrapCount n) (n_isBootstrapping n) false (n_fix n)
    (n_mode n) (n_handlers n) (n_streams n) (n_verified n) (n_refreshes n).

(** ** The mode *)

(** [moveToServerMode] *)
Definition moveToServerMode n : node :=
  mkNode (n_rt n) (n_ps n) (n_checks n) (n_capacity n) (n_adding n) (n_bootstrapCount n) (n_isBootstrapping n) (n_timer n) (n_fix n)
    modeServer (list_to_set serverProtocols ∪ n_handlers n) (n_streams n) (n_verified n) (n_refreshes n).

(** [moveToClientMode] *)
Definition moveToClientMode n : node :=
  mkNode (n_rt n) (n_ps n) (n_checks n) (n_capacity n) (n_adding n) (n_bootstrapCount n) (n_isBootstrapping n) (n_timer n) (n_fix n)
    modeClient (n_handlers n ∖ list_to_set serverProtocols)
    (filter (λ s, ¬ (s_Protocol s ∈ serverProtocols ∧ s_Inbound s = true)) (n_streams n)) (n_verified n) (n_refreshes n).

(** [setMode] *)
Definition setMode n (m : mode) : node :=
  if decide (m = n_mode n) then n else match m with modeServer => moveToServerMode n | modeClient => moveToClientMode n end.

(** The target of [handleLocalReachabilityChangedEvent], and the event; the
    node has subscribed to it only in the automatic modes. *)
Definition targetMode (r : Reachability) : mode :=
  match r with
  | ReachabilityPrivate => modeClient
  | ReachabilityUnknown => if decide (auto = ModeAutoServer) then modeServer else modeClient
  | ReachabilityPublic => modeServer
  end.

Definition handleLocalReachabilityChangedEvent n (r : Reachability) : node :=
  if decide (auto = ModeAuto ∨ auto = ModeAutoServer) then setMode n (targetMode r) else n.

(** ** The bootstrap *)

Definition minRTRefreshThreshold : Z := 10.
Definition maxNBoostrappers : nat := 2.

(** The loop over the bootstrap peers, in their random order, with the result of
    each connection: the peers that are dialled. *)
Fixpoint bootstrapLoop (found : nat) (bootstrapPeers : list (peerID * bool)) : list peerID :=
  match bootstrapPeers with
  | [] => []
  | (p, ok) :: bootstrapPeers =>
      let found := if ok : bool then S found else found in
      p :: (if decide (found = maxNBoostrappers) then [] else bootstrapLoop found bootstrapPeers)
  end.

(** [fixLowPeers]; [sizes] are the sizes of the routing table when they are read
    again: peers are added meanwhile. *)
Definition fixLowPeers n (connected : list peerID) (sizes : Z * Z) (bootstrapPeers : option (list (peerID * bool))) : node * list peerID :=
  if decide (rt_Size (n_rt n) > minRTRefreshThreshold)%Z then (n, [])
  else
    let n := foldl peerFound n connected in
    match (if decide (sizes.1 = 0%Z) then bootstrapPeers else None) with
    | Some [] => (n, [])
    | bp =>
        let dialled := match bp with Some l => bootstrapLoop 0 l | None => [] end in
        if decide (sizes.2 = 0%Z) then (n, dialled) else (if autoRefresh then refreshNoWait n else n, dialled)
    end.

(** ** Steps *)

Inductive nodeEvent :=
| NePeerstore (ps : PSTORE)
| NePeerChange (p : peerID)
| NeReachability (r : Reachability)
| NeCheckDone (i : nat) (answer : option nat)
| NeQueried (p : peerID)
| NeUnreachable (p : peerID)
| NeAdd (i : nat)
| NeRefreshFinished
| NeTimer
| NeAddresses
| NeStream (s : stream)
| NeFix (connected : list peerID) (sizes : Z * Z) (bootstrapPeers : option (list (peerID * bool))).

(** Steps that cannot happen change nothing.  A query that succeeds calls
    [validPeerFound], one that fails [peerStoppedDHT]; an inbound stream needs a
    handler for its protocol. *)
Definition nodeStep n (e : nodeEvent) : node :=
  match e with
  | NePeerstore ps =>
      mkNode (n_rt n) ps (n_checks n) (n_capacity n) (n_adding n) (n_bootstrapCount n) (n_isBootstrapping n) (n_timer n) (n_fix n)
        (n_mode n) (n_handlers n) (n_streams n) (n_verified n) (n_refreshes n)
  | NePeerChange p => handlePeerChangeEvent n p
  | NeReachability r => handleLocalReachabilityChangedEvent n r
  | NeCheckDone i answer => match n_checks n !! i with Some p => checkDone n i p answer | None => n end
  | NeQueried p => validPeerFound n p
  | NeUnreachable p => peerStoppedDHT n p
  | NeAdd i => match n_adding n !! i with Some p => rtPeerAdd n i p | None => n end
  | NeRefreshFinished => rtRefreshFinished n
  | NeTimer => if n_timer n then rtTimer n else n
  | NeAddresses => if autoRefresh then refreshNoWait n else n
  | NeStream s =>
      if decide (s_Inbound s = true ∧ s_Protocol s ∉ n_handlers n) then n
      else mkNode (n_rt n) (n_ps n) (n_checks n) (n_capacity n) (n_adding n) (n_bootstrapCount n) (n_isBootstrapping n) (n_timer n) (n_fix n)
             (n_mode n) (n_handlers n) (s :: n_streams n) (n_verified n) (n_refreshes n)
  | NeFix connected sizes bootstrapPeers =>
      let n := mkNode (n_rt n) (n_ps n) (n_checks n) (n_capacity n) (n_adding n) (n_bootstrapCount n) (n_isBootstrapping n) (n_timer n) false
             (n_mode n) (n_handlers n) (n_streams n) (n_verified n) (n_refreshes n) in
      (fixLowPeers n connected sizes bootstrapPeers).1
  end.

(** The start of [New]: the mode and its handlers, then the connected peers. *)
Definition newNode (rt : RT) (ps : PSTORE) (capacity : Z) (connected : list peerID) : node :=
  let n := mkNode rt ps [] capacity [] 0 false false false modeClient ∅ [] [] 0 in
  let n := match auto with ModeAuto | ModeClient => n | ModeAutoServer | ModeServer => moveToServerMode n end in
  foldl peerFound n connected.

Definition nodeRun n (evs : list nodeEvent) : node := foldl nodeStep n evs.

(** ** The invariant *)

Definition automatic : bool := bool_decide (auto = ModeAuto ∨ auto = ModeAutoServer).

(** The mode that the events ask for. *)
Definition nextMode (m : mode) (e : nodeEvent) : mode :=
  match e with NeReachability r => if automatic then targetMode r else m | _ => m end.

Definition initialMode : mode := match auto with ModeAuto | ModeClient => modeClient | ModeAutoServer | ModeServer => modeServer end.

(** [cap] is the number of lookup checks that may run, [start] the peers of the
    routing table at the start. *)
Record nodeInv (cap : Z) (start : list peerID) (m : mode) n : Prop := {
  ni_capacity : (n_capacity n + Z.of_nat (length (n_checks n)) = cap)%Z;
  ni_nonneg : (0 ≤ n_capacity n)%Z;
  ni_peers : ∀ p, p ∈ rt_peers (n_rt n) → p ∈ start ∨ p ∈ n_verified n;
  ni_adding : ∀ p, p ∈ n_adding n → p ∈ n_verified n;
  ni_mode : n_mode n = m;
  ni_handlers : ∀ pr, pr ∈ serverProtocols → (pr ∈ n_handlers n ↔ n_mode n = modeServer);
  ni_streams : n_mode n = modeClient → ∀ s, s ∈ n_streams n → s_Inbound s = true → s_Protocol s ∉ serverProtocols;
  ni_count : (0 ≤ n_bootstrapCount n)%Z;
  ni_timer : n_timer n = true → (2 ≤ n_bootstrapCount n)%Z;
}.

(** [peerFound] starts at most one check, and changes nothing else. *)
Lemma peerFound_spec n p :
  ∃ checks cap, peerFound n p = mkNode (n_rt n) (n_ps n) checks cap (n_adding n) (n_bootstrapCount n) (n_isBootstrapping n) (n_timer n) (n_fix n)
      (n_mode n) (n_handlers n) (n_streams n) (n_verified n) (n_refreshes n) ∧
    (cap + Z.of_nat (length checks) = n_capacity n + Z.of_nat (length (n_checks n)))%Z ∧ (0 ≤ n_capacity n → 0 ≤ cap)%Z ∧
    (∀ q, q ∈ checks → q ∈ n_checks n ∨ q = p ∧ validRTPeer n p = Some true).
Proof.
  unfold peerFound. destruct (UsefulNewPeer (n_rt n) p); [|exists (n_checks n), (n_capacity n); split_and!; [by destruct n|done|done|by left]].
  destruct (validRTPeer n p) as [[]|] eqn:Hv; try (exists (n_checks n), (n_capacity n); split_and!; [by destruct n|done|done|by left]).
  case_decide; [exists (n_checks n), (n_capacity n); split_and!; [by destruct n|done|done|by left]|].
  eexists _, _. split; [done|]. split; [cbn; lia|]. split; [lia|]. intros q [->|?]%elem_of_cons; auto.
Qed.

Lemma peerFound_inv cap start m n p : nodeInv cap start m n → nodeInv cap start m (peerFound n p).
Proof.
  intros []. destruct (peerFound_spec n p) as (checks & c & -> & Hc & Hn & _). split; cbn; [lia|auto|done..].
Qed.

Lemma peersFound_inv cap start m n ps : nodeInv cap start m n → nodeInv cap start m (foldl peerFound n ps).
Proof. revert n. induction ps as [|p ps IH]; intros n Hn; cbn; [done|]. by apply IH, peerFound_inv. Qed.

Lemma setRT_inv cap start m n rt b :
  nodeInv cap start m n → (∀ p, p ∈ rt_peers rt → p ∈ start ∨ p ∈ n_verified n) → nodeInv cap start m (setRT n rt b).
Proof. intros [] Hrt. by split. Qed.

Lemma refreshNoWait_inv cap start m n : nodeInv cap start m n → nodeInv cap start m (refreshNoWait n).
Proof. intros []. by split. Qed.

Lemma validPeerFound_inv cap start m n p : nodeInv cap start m n → nodeInv cap start m (validPeerFound n p).
Proof.
  intros []. split; try done; cbn.
  - intros q Hq. destruct (ni_peers0 q Hq); [by left|right; by right].
  - intros q [->|?]%elem_of_cons; [left|right; auto].
Qed.

Lemma checkDone_inv cap start m n i p answer :
  nodeInv cap start m n → n_checks n !! i = Some p → nodeInv cap start m (checkDone n i p answer).
Proof.
  intros [] Hi. unfold checkDone.
  match goal with |- context [if _ then validPeerFound ?n' p else _] => assert (nodeInv cap start m n') as Hn' end.
  { split; cbn; try done; [|lia]. pose proof (lookup_lt_Some _ _ _ Hi). rewrite length_delete by (by eexists). lia. }
  destruct (lookupCheck n answer); [by apply validPeerFound_inv|done].
Qed.

Lemma moveMode_inv cap start m m' n : nodeInv cap start m n → nodeInv cap start m' (setMode n m').
Proof.
  intros []. unfold setMode. case_decide as Hm; [split; try done|]. destruct m'.
  - unfold moveToServerMode. split; cbn; try done. intros pr Hpr. split; [done|]. intros _. apply elem_of_union_l. by apply elem_of_list_to_set.
  - unfold moveToClientMode. split; cbn; try done.
    + intros pr Hpr. split; [|done]. rewrite elem_of_difference, elem_of_list_to_set. tauto.
    + intros _ st [Hst _]%list_elem_of_filter Hin Hpr. by apply Hst.
Qed.

Lemma peerStoppedDHT_inv `{!NodeLaws} cap start m n p : nodeInv cap start m n → nodeInv cap start m (peerStoppedDHT n p).
Proof.
  intros Hn. unfold peerStoppedDHT. pose proof (rt_RemovePeer_peers (n_rt n) p) as Hr. destruct (rt_RemovePeer (n_rt n) p) as [rt removed].
  apply setRT_inv; [done|]. intros q [Hq _]%Hr. by eapply ni_peers.
Qed.

Lemma rtPeerAdd_inv `{!NodeLaws} cap start m n i p :
  nodeInv cap start m n → n_adding n !! i = Some p → nodeInv cap start m (rtPeerAdd n i p).
Proof.
  intros [] Hi. assert (p ∈ n_verified n) as Hp by (by eapply ni_adding0, list_elem_of_lookup_2). unfold rtPeerAdd. cbv zeta.
  match goal with |- context [TryAddPeer (n_rt ?n') p true] => assert (nodeInv cap start m n') as Hn'; [|set (n1 := n') in *] end.
  { split; cbn; try done.
    - intros q Hq. apply ni_adding0. eapply elem_of_submseteq; [done|apply submseteq_delete].
    - case_bool_decide; lia.
    - case_bool_decide; done. }
  assert (p ∈ n_verified n1) as Hp1 by done. clearbody n1. pose proof (TryAddPeer_peers (n_rt n1) p true) as Ht.
  set (boot := bool_decide _ || _). specialize (Ht boot). destruct (TryAddPeer (n_rt n1) p true boot) as [[rt res] evicted]. cbn [fst] in Ht.
  assert (nodeInv cap start m (setRT n1 rt evicted)) as Hn2.
  { apply setRT_inv; [done|]. intros q [Hq| ->]%Ht; [by eapply ni_peers|by right]. }
  destruct res as [[]|]; [| |done]; apply setRT_inv; try done; intros q Hq; [|apply UpdateLast_peers in Hq]; by eapply (ni_peers _ _ _ _ Hn2).
Qed.

Lemma rtRefreshFinished_inv cap start m n : nodeInv cap start m n → nodeInv cap start m (rtRefreshFinished n).
Proof.
  intros []. unfold rtRefreshFinished.
  match goal with |- context [if _ then refreshNoWait ?n' else _] => assert (nodeInv cap start m n') as Hn' end.
  { split; cbn; try done; [lia|]. case_decide; [lia|]. intros ?%ni_timer0. lia. }
  destruct (n_isBootstrapping n); [by apply refreshNoWait_inv|done].
Qed.

Lemma fixLowPeers_inv cap start m n connected sizes bp :
  nodeInv cap start m n → nodeInv cap start m (fixLowPeers n connected sizes bp).1.
Proof.
  intros Hn. unfold fixLowPeers. case_decide; [done|]. pose proof (peersFound_inv cap start m n connected Hn) as Hf.
  set (n1 := foldl peerFound n connected) in *. clearbody n1.
  destruct (if decide (sizes.1 = 0%Z) then bp else None) as [[|x l]|]; [done| |];
    (case_decide; [done|]; destruct autoRefresh; [by apply refreshNoWait_inv|done]).
Qed.

Lemma nodeStep_inv `{!NodeLaws} cap start m n e : nodeInv cap start m n → nodeInv cap start (nextMode m e) (nodeStep n e).
Proof.
  intros Hn. destruct e as [ps|p|r|i answer|p|p|i| | | |st|connected sizes bp]; cbn [nodeStep nextMode].
  - destruct Hn. by split.
  - unfold handlePeerChangeEvent. destruct (validRTPeer n p) as [[]|]; [by apply peerFound_inv|by apply peerStoppedDHT_inv|done].
  - unfold handleLocalReachabilityChangedEvent, automatic. case_decide as Ha.
    + rewrite bool_decide_eq_true_2 by done. by eapply moveMode_inv.
    + by rewrite bool_decide_eq_false_2.
  - destruct (n_checks n !! i) as [p|] eqn:Hi; [by apply checkDone_inv|done].
  - by apply validPeerFound_inv.
  - by apply peerStoppedDHT_inv.
  - destruct (n_adding n !! i) as [p|] eqn:Hi; [by apply rtPeerAdd_inv|done].
  - by apply rtRefreshFinished_inv.
  - destruct (n_timer n) eqn:Ht; [|done]. destruct Hn. split; try done; cbn. intros p ?%MarkAll_peers. auto.
  - destruct autoRefresh; [by apply refreshNoWait_inv|done].
  - case_decide as Hs; [done|]. destruct Hn. split; try done; cbn. intros Hc st' [->|?]%elem_of_cons Hin Hpr; [|by eapply ni_streams0].
    apply Hs. split; [done|]. intros ?%ni_handlers0; [|done]. congruence.
  - apply fixLowPeers_inv. destruct Hn. by split.
Qed.

Lemma newNode_inv rt ps cap connected : (0 ≤ cap)%Z → nodeInv cap (rt_peers rt) initialMode (newNode rt ps cap connected).
Proof.
  intros Hc. unfold newNode, initialMode. apply peersFound_inv. destruct auto; split; cbn; try done; try lia; try set_solver; intros p ?; auto.
Qed.

Lemma nodeRun_inv `{!NodeLaws} cap start m n evs : nodeInv cap start m n → nodeInv cap start (foldl nextMode m evs) (nodeRun n evs).
Proof.
  revert m n. induction evs as [|e evs IH]; intros m n Hn; [done|]. cbn. by apply IH, nodeStep_inv.
Qed.

(** ** Who is verified *)

Lemma peersFound_verified n ps : n_verified (foldl peerFound n ps) = n_verified n.
Proof.
  revert n. induction ps as [|p ps IH]; intros n; cbn; [done|]. rewrite IH. destruct (peerFound_spec n p) as (? & ? & -> & _). done.
Qed.

Lemma nodeStep_verified n e p :
  p ∈ n_verified (nodeStep n e) →
  p ∈ n_verified n ∨ e = NeQueried p ∨ ∃ i k, e = NeCheckDone i (Some k) ∧ n_checks n !! i = Some p ∧ lookupCheck n (Some k) = true.
Proof.
  destruct e as [ps|q|r|i answer|q|q|i| | | |st|connected sizes bp]; cbn [nodeStep]; intros Hp.
  - by left.
  - left. unfold handlePeerChangeEvent, peerStoppedDHT in Hp. destruct (validRTPeer n q) as [[]|]; [|by destruct (rt_RemovePeer _ _)|done].
    by destruct (peerFound_spec n q) as (? & ? & He & _); rewrite He in Hp.
  - left. unfold handleLocalReachabilityChangedEvent, setMode in Hp. case_decide; [|done]. case_decide; [done|]. by destruct (targetMode r).
  - destruct (n_checks n !! i) as [q|] eqn:Hi; [|by left]. unfold checkDone in Hp. destruct (lookupCheck n answer) eqn:Hc; [|by left].
    apply elem_of_cons in Hp as [->|Hp]; [|by left]. right; right. destruct answer as [k|]; [|done]. by exists i, k.
  - apply elem_of_cons in Hp as [->|Hp]; [right; by left|by left].
  - left. unfold peerStoppedDHT in Hp. by destruct (rt_RemovePeer _ _).
  - left. destruct (n_adding n !! i) as [q|]; [|done]. unfold rtPeerAdd in Hp. destruct (TryAddPeer _ _ _ _) as [[rt [[]|]] ev]; done.
  - left. unfold rtRefreshFinished in Hp. by destruct (n_isBootstrapping n).
  - left. by destruct (n_timer n).
  - left. by destruct autoRefresh.
  - left. by case_decide.
  - left. unfold fixLowPeers in Hp. case_decide; [done|].
    destruct (if decide (sizes.1 = 0%Z) then bp else None) as [[|x l]|]; [cbn [fst] in Hp; by rewrite peersFound_verified in Hp| |];
      (case_decide; [|destruct autoRefresh]; cbn [fst refreshNoWait n_verified] in Hp; by rewrite peersFound_verified in Hp).
Qed.

Lemma nodeRun_verified n evs p :
  p ∈ n_verified (nodeRun n evs) →
  p ∈ n_verified n ∨ NeQueried p ∈ evs ∨
  ∃ evs1 evs2 i k, evs = evs1 ++ NeCheckDone i (Some k) :: evs2 ∧ n_checks (nodeRun n evs1) !! i = Some p ∧ lookupCheck (nodeRun n evs1) (Some k) = true.
Proof.
  induction evs as [|e evs IH] using rev_ind; [by left|]. unfold nodeRun. rewrite foldl_app. cbn.
  intros [Hp|[->|(i & k & -> & Hi & Hc)]]%nodeStep_verified.
  - destruct (IH Hp) as [?|[?|(evs1 & evs2 & i & k & -> & Hi)]]; [by left|right; left; apply elem_of_app; by left|].
    right; right. exists evs1, (evs2 ++ [e]), i, k. by rewrite <-app_assoc.
  - right; left. apply elem_of_app. right. left.
  - right; right. by exists evs, [], i, k.
Qed.

(** The bootstrap peers are dialled in order until two connections succeed. *)
Lemma bootstrapLoop_spec found l :
  found < maxNBoostrappers →
  ∃ rest, l.*1 = bootstrapLoop found l ++ rest ∧
    let ok := length (filter (λ x, x.2 = true) (take (length (bootstrapLoop found l)) l)) in
    found + ok ≤ maxNBoostrappers ∧ (rest ≠ [] → found + ok = maxNBoostrappers).
Proof.
  assert (maxNBoostrappers = 2) as Hm by done.
  revert found. induction l as [|[p ok] l IH]; intros found Hf; cbn [bootstrapLoop]; [exists []; split; [done|]; cbn; split; [lia|done]|].
  case_decide as Hd.
  - exists l.*1. split; [done|]. cbn [length take]. rewrite filter_cons. destruct ok; [|lia]. rewrite decide_True by done.
    cbn [length]. change (take 0 l) with (@nil (peerID * bool)). change (length (filter ?P [])) with 0. split; [lia|]. intros _. lia.
  - destruct (IH (if ok then S found else found)) as (rest & Hl & H1 & H2); [destruct ok; lia|]. exists rest. split; [by rewrite fmap_cons, Hl|].
    cbn [length take]. rewrite filter_cons. destruct ok; [rewrite decide_True by done|rewrite decide_False by done]; cbn [length];
      (split; [lia|]; intros Hr; specialize (H2 Hr); lia).
Qed.

(** C30: the state of a node, for every interleaving of its goroutines, its
    queries and the events of its host.  No more lookup checks run than allowed,
    and their number and the remaining capacity always add up; a peer is in the
    routing table only if it was there at the start, answered a query, or passed
    its lookup check; the mode is that of the last change of reachability, or
    the initial one; the protocols have handlers exactly in server mode, and in
    client mode no inbound stream of them is left; and the peers of the table
    are only made irreplaceable after two refreshes. *)
Theorem node_correct `{!NodeLaws} rt ps cap connected evs :
  (0 ≤ cap)%Z →
  let n0 := newNode rt ps cap connected in
  let n := nodeRun n0 evs in
  (n_capacity n + Z.of_nat (length (n_checks n)) = cap ∧ Z.of_nat (length (n_checks n)) ≤ cap)%Z ∧
  (∀ p, p ∈ rt_peers (n_rt n) → p ∈ rt_peers rt ∨ NeQueried p ∈ evs ∨
     ∃ evs1 evs2 i k, evs = evs1 ++ NeCheckDone i (Some k) :: evs2 ∧ n_checks (nodeRun n0 evs1) !! i = Some p ∧ lookupCheck (nodeRun n0 evs1) (Some k) = true) ∧
  n_mode n = foldl nextMode initialMode evs ∧
  (∀ pr, pr ∈ serverProtocols → (pr ∈ n_handlers n ↔ n_mode n = modeServer)) ∧
  (n_mode n = modeClient → ∀ s, s ∈ n_streams n → s_Inbound s = true → s_Protocol s ∉ serverProtocols) ∧
  (n_timer n = true → (2 ≤ n_bootstrapCount n)%Z).
Proof.
  intros Hc n0 n. destruct (nodeRun_inv cap (rt_peers rt) initialMode n0 evs (newNode_inv rt ps cap connected Hc)).
  split_and!; try done; [fold n in ni_capacity0, ni_nonneg0; lia|]. intros p Hp. destruct (ni_peers0 p Hp) as [?|Hv]; [by left|right].
  apply nodeRun_verified in Hv as [Hv|Hv]; [|done]. unfold n0, newNode in Hv. rewrite peersFound_verified in Hv.
  by destruct auto; apply elem_of_nil in Hv.
Qed.
End node.

(** ** Witness *)

(** Tables are lists without duplicates; every peer has a protocol. *)
Definition demoNodeLib : NodeLib := {|
  RT := list peerID;
  rt_Size rt := Z.of_nat (length rt);
  rt_peers rt := rt;
  UsefulNewPeer rt p := bool_decide (p ∉ rt);
  TryAddPeer rt p _ _ := if decide (p ∈ rt) then (rt, Some false, false) else (p :: rt, Some true, false);
  rt_RemovePeer rt p := (filter (λ q, q ≠ p) rt, bool_decide (p ∈ rt));
  MarkAllPeersIrreplaceable rt := rt;
  UpdateLastSuccessfulOutboundQueryAt rt _ := rt;
  PSTORE := unit;
  FirstSupportedProtocol _ _ protos := Some (default ""%string (head protos));
|}.

#[local] Instance demoNodeLaws : NodeLaws (H := demoNodeLib).
Proof.
  split; cbn; try done.
  - intros rt p _ _ x. case_decide; [by left|]. intros [->|?]%elem_of_cons; auto.
  - intros rt p x [??]%list_elem_of_filter. done.
Qed.

(** A peer is found, checked and added, the node becomes a server, gets a stream
    and becomes a client again. *)
Definition demoNodeEvents : list (@nodeEvent demoNodeLib) :=
  [NePeerChange (NL := demoNodeLib) [7%Z]; NeCheckDone (NL := demoNodeLib) 0 (Some 3); NeAdd (NL := demoNodeLib) 0;
   NeReachability (NL := demoNodeLib) ReachabilityPublic; NeStream (NL := demoNodeLib) (mkStream "/kad" true);
   NeRefreshFinished (NL := demoNodeLib); NeReachability (NL := demoNodeLib) ReachabilityPrivate].

Definition demoRun := nodeRun (NL := demoNodeLib) 20 ["/kad"%string] ["/kad"%string] ModeAuto true None.
Definition demoNode := newNode (NL := demoNodeLib) ["/kad"%string] ["/kad"%string] ModeAuto None [] tt 5 [].

Lemma node_correct_witness :
  (n_rt (demoRun demoNode demoNodeEvents) = [[7%Z]] ∧ n_streams (demoRun demoNode demoNodeEvents) = [] ∧ n_refreshes (demoRun demoNode demoNodeEvents) = 1) ∧
  (n_capacity (demoRun demoNode demoNodeEvents) + Z.of_nat (length (n_checks (demoRun demoNode demoNodeEvents))) = 5 ∧
   Z.of_nat (length (n_checks (demoRun demoNode demoNodeEvents))) ≤ 5)%Z.
Proof.
  split; [by vm_compute|].
  exact (proj1 (node_correct (NL := demoNodeLib) 20 ["/kad"%string] ["/kad"%string] ModeAuto true None [] tt 5 [] demoNodeEvents ltac:(lia))).
Defined.
