(* ===== verification/Shutdown.v ===== *)
(** * The shutdown of the sweeping provider

    [Close] of [provider/provider.go] and what it waits for: the goroutines that
    [handleReprovide], [handleProvide], [catchupPendingWork], [provideLoop] and
    [reprovideLateRegions] start, with the wait group, the lock [wgLk] that
    keeps [wg.Add] from racing with [Close], the locks of the two loops and the
    pool of workers.  What the goroutines do with regions and keys is in
    [Provider]; here only their life is modelled: the contents of the queues and
    the connectivity are answers given to a step.

    The worker pool ([reservedpool]) is a parameter: [canAcquire] says whether a
    worker of a type is free, given the workers in use.  [None] is a step that
    cannot happen now, [Some None] a panic: a negative wait group counter. *)

From S2P Require Import Prelude.

Inductive workerType := periodicWorker | burstWorker.

(** Where a loop is: before its lock, at its condition, waiting for a worker,
    or with a worker and before the queue. *)
Inductive loopState := LStart | LHead | LAcquire | LGot.

(** The goroutines: [run]; a periodic reprovide that waits for a worker, and
    with one; [reprovideLateRegions] followed by [provideLoop] ([GLoop true]);
    [provideLoop]; and the workers that the loops start. *)
Inductive goroutine := GRun | GPeriodic | GPeriodicWork | GLoop (late : bool) (l : loopState) | GWork.

(** How far [Close] is: it waits for the goroutines, for the measurement of the
    prefix length, and then runs the cleanup functions that are left. *)
Inductive closePhase := COpen | CWaiting | CApprox | CCleaning (rest : list nat) | CClosed.

Record sdState := mkSd {
  sd_done : bool;
  sd_wg : nat;
  sd_usedP : nat;
  sd_usedB : nat;
  sd_late : bool;        (* [lateReprovideRunning] *)
  sd_provide : bool;     (* [provideRunning] *)
  sd_online : nat;       (* callbacks [onOnline] that have checked [closed] *)
  sd_approx : bool;      (* [approxPrefixLenRunning] *)
  sd_gs : list goroutine;
  sd_phase : closePhase;
  sd_cleaned : list nat; (* the cleanup functions that have run *)
}.
Implicit Types (s : sdState) (g : goroutine) (gs : list goroutine).

(** What a loop sees: its queue is empty, the node is online, and the queue
    still has an entry. *)
Record loopAnswer := mkAnswer { a_empty : bool; a_online : bool; a_dequeued : bool }.

Section shutdown.
Variable canAcquire : nat → nat → workerType → bool.
Variable nCleanup : nat.   (* the number of cleanup functions *)

Definition setGs s gs : sdState :=
  mkSd (sd_done s) (sd_wg s) (sd_usedP s) (sd_usedB s) (sd_late s) (sd_provide s) (sd_online s) (sd_approx s) gs (sd_phase s) (sd_cleaned s).

(** [wgLk.RLock], the check of [closed], [wg.Add] and [wgLk.RUnlock], and the
    goroutine. *)
Definition addGoroutine s (n : nat) g : sdState :=
  if sd_done s then s
  else mkSd (sd_done s) (sd_wg s + n) (sd_usedP s) (sd_usedB s) (sd_late s) (sd_provide s) (sd_online s) (sd_approx s) (sd_gs s ++ [g]) (sd_phase s) (sd_cleaned s).

(** [wg.Done] *)
Definition wgDone s : option sdState :=
  match sd_wg s with
  | 0 => None
  | S n => Some (mkSd (sd_done s) n (sd_usedP s) (sd_usedB s) (sd_late s) (sd_provide s) (sd_online s) (sd_approx s) (sd_gs s) (sd_phase s) (sd_cleaned s))
  end.

(** [Acquire] and [Release] *)
Definition acquire s (t : workerType) : option sdState :=
  if canAcquire (sd_usedP s) (sd_usedB s) t then
    let '(p, b) := match t with periodicWorker => (S (sd_usedP s), sd_usedB s) | burstWorker => (sd_usedP s, S (sd_usedB s)) end in
    Some (mkSd (sd_done s) (sd_wg s) p b (sd_late s) (sd_provide s) (sd_online s) (sd_approx s) (sd_gs s) (sd_phase s) (sd_cleaned s))
  else None.

Definition release s (t : workerType) : sdState :=
  let '(p, b) := match t with periodicWorker => (sd_usedP s - 1, sd_usedB s) | burstWorker => (sd_usedP s, sd_usedB s - 1) end in
  mkSd (sd_done s) (sd_wg s) p b (sd_late s) (sd_provide s) (sd_online s) (sd_approx s) (sd_gs s) (sd_phase s) (sd_cleaned s).

Definition setLocks s (late provide : bool) : sdState :=
  mkSd (sd_done s) (sd_wg s) (sd_usedP s) (sd_usedB s) late provide (sd_online s) (sd_approx s) (sd_gs s) (sd_phase s) (sd_cleaned s).

(** The end of a loop of goroutine [i]: [reprovideLateRegions] is followed by
    [provideLoop]. *)
Definition loopEnd s (i : nat) (late : bool) : option sdState :=
  if late then wgDone (setLocks (setGs s (<[i := GLoop false LStart]> (sd_gs s))) false (sd_provide s))
  else wgDone (setLocks (setGs s (delete i (sd_gs s))) (sd_late s) false).

(** A step of goroutine [i]. *)
Definition goStep s (i : nat) g (a : loopAnswer) : option (option sdState) :=
  let finish s := Some (wgDone (setGs s (delete i (sd_gs s)))) in
  let become s g := Some (Some (setGs s (<[i := g]> (sd_gs s)))) in
  match g with
  | GRun => if sd_done s then finish s else None
  | GPeriodic => s ← acquire s periodicWorker; become s GPeriodicWork
  | GPeriodicWork => finish (release s periodicWorker)
  | GLoop late LStart =>
      if sd_provide s then finish s else become (setLocks s (sd_late s) true) (GLoop late LHead)
  | GLoop late LHead =>
      if a_empty a || sd_done s || negb (a_online a) then Some (loopEnd s i late) else become s (GLoop late LAcquire)
  | GLoop late LAcquire => s ← acquire s burstWorker; become s (GLoop late LGot)
  | GLoop late LGot =>
      if a_dequeued a then
        if sd_done s then Some (loopEnd (release s burstWorker) i late)
        else Some (Some (addGoroutine (setGs s (<[i := GLoop late LHead]> (sd_gs s))) 1 GWork))
      else become (release s burstWorker) (GLoop late LHead)
  | GWork => finish (release s burstWorker)
  end.

(** [catchupPendingWork] *)
Definition catchup s : sdState :=
  if sd_late s then s
  else if sd_done s then s
  else setLocks (addGoroutine s 2 (GLoop true LHead)) true (sd_provide s).

Definition setPhase s (ph : closePhase) (cleaned : list nat) : sdState :=
  mkSd (sd_done s) (sd_wg s) (sd_usedP s) (sd_usedB s) (sd_late s) (sd_provide s) (sd_online s) (sd_approx s) (sd_gs s) ph cleaned.

Definition setOnline s (online : nat) (approx : bool) : sdState :=
  mkSd (sd_done s) (sd_wg s) (sd_usedP s) (sd_usedB s) (sd_late s) (sd_provide s) online approx (sd_gs s) (sd_phase s) (sd_cleaned s).

(** The first part of [Close]: [done] is closed under the write lock of [wgLk].
    Later calls of [Close] wait for the first one. *)
Definition closeStart s : sdState :=
  mkSd true (sd_wg s) (sd_usedP s) (sd_usedB s) (sd_late s) (sd_provide s) (sd_online s) (sd_approx s) (sd_gs s) CWaiting (sd_cleaned s).

(** The other parts of [Close], and [cleanup]: the last function is run first. *)
Definition closeStep s : option sdState :=
  match sd_phase s with
  | COpen | CClosed => None
  | CWaiting => if decide (sd_wg s = 0) then Some (setPhase s CApprox (sd_cleaned s)) else None
  | CApprox => if sd_approx s then None else Some (setPhase s (CCleaning (reverse (seq 0 nCleanup))) (sd_cleaned s))
  | CCleaning [] => Some (setPhase s CClosed (sd_cleaned s))
  | CCleaning (f :: rest) => Some (setPhase s (CCleaning rest) (sd_cleaned s ++ [f]))
  end.

Inductive sdEvent :=
| PvReprovide | PvProvide | PvCatchup   (* goroutines are started *)
| PvOnlineCheck | PvOnlineLock | PvOnlineUnlock   (* [onOnline] *)
| PvGo (i : nat) (a : loopAnswer)
| PvClose | PvCloseStep.

Definition sdStep s (e : sdEvent) : option (option sdState) :=
  match e with
  | PvReprovide => Some (Some (addGoroutine s 1 GPeriodic))
  | PvProvide => Some (Some (addGoroutine s 1 (GLoop false LStart)))
  | PvCatchup => Some (Some (catchup s))
  | PvOnlineCheck => Some (Some (if sd_done s then s else setOnline s (S (sd_online s)) (sd_approx s)))
  | PvOnlineLock => match sd_online s with 0 => None | S n => Some (Some (setOnline s n true)) end
  | PvOnlineUnlock => if sd_approx s then Some (Some (setOnline s (sd_online s) false)) else None
  | PvGo i a => g ← sd_gs s !! i; goStep s i g a
  | PvClose => match sd_phase s with COpen => Some (Some (closeStart s)) | _ => None end
  | PvCloseStep => s ← closeStep s; Some (Some s)
  end.

(** The provider when [New] has started [run]. *)
Definition sdInit : sdState := mkSd false 1 0 0 false false 0 false [GRun] COpen [].

(** ** Counting goroutines *)

Definition sumf (f : goroutine → nat) gs : nat := sum_list_with f gs.
#[local] Arguments sumf : simpl never.

(** The [wg.Done] calls that a goroutine owes, the workers and the locks it
    holds. *)
Definition owes g : nat := match g with GLoop true _ => 2 | _ => 1 end.
Definition holdsP g : nat := match g with GPeriodicWork => 1 | _ => 0 end.
Definition holdsB g : nat := match g with GWork | GLoop _ LGot => 1 | _ => 0 end.
Definition holdsLate g : nat := match g with GLoop true _ => 1 | _ => 0 end.
Definition holdsProvide g : nat := match g with GLoop false (LHead | LAcquire | LGot) => 1 | GLoop true LStart => 2 | _ => 0 end.

Lemma sumf_app f gs1 gs2 : sumf f (gs1 ++ gs2) = sumf f gs1 + sumf f gs2.
Proof. apply sum_list_with_app. Qed.

Lemma sumf_single f g : sumf f [g] = f g.
Proof. unfold sumf. cbn. lia. Qed.

Lemma sumf_delete f gs i g : gs !! i = Some g → sumf f gs = f g + sumf f (delete i gs).
Proof.
  unfold sumf. revert i. induction gs as [|g' gs IH]; intros [|i] Hi; try done; [by injection Hi as ->|].
  change (delete (S i) (g' :: gs)) with (g' :: delete i gs). cbn [sum_list_with]. specialize (IH i Hi). lia.
Qed.

Lemma sumf_insert f gs i g g' : gs !! i = Some g → sumf f (<[i := g']> gs) + f g = sumf f gs + f g'.
Proof.
  unfold sumf. revert i. induction gs as [|g0 gs IH]; intros [|i] Hi; try done; [injection Hi as ->; cbn; lia|].
  change (<[S i:=g']> (g0 :: gs)) with (g0 :: <[i:=g']> gs). cbn [sum_list_with]. specialize (IH i Hi). lia.
Qed.

(** ** The invariant *)

Definition afterWait (ph : closePhase) : bool := match ph with COpen | CWaiting => false | _ => true end.

(** The cleanup functions are run in reverse order. *)
Definition cleanedOk s : Prop :=
  match sd_phase s with
  | COpen | CWaiting | CApprox => sd_cleaned s = []
  | CCleaning rest => sd_cleaned s ++ rest = reverse (seq 0 nCleanup)
  | CClosed => sd_cleaned s = reverse (seq 0 nCleanup)
  end.

Definition sdInv s : Prop :=
  sd_wg s = sumf owes (sd_gs s) ∧ sd_usedP s = sumf holdsP (sd_gs s) ∧ sd_usedB s = sumf holdsB (sd_gs s) ∧
  Nat.b2n (sd_late s) = sumf holdsLate (sd_gs s) ∧ Nat.b2n (sd_provide s) = sumf holdsProvide (sd_gs s) ∧
  (sd_done s = false ↔ sd_phase s = COpen) ∧ (afterWait (sd_phase s) = true → sd_gs s = []) ∧ cleanedOk s.

Lemma sdInit_inv : sdInv sdInit.
Proof. unfold sdInv. cbn. split_and!; done. Qed.

(** Use the counts of a list in which goroutine [i] was replaced or removed. *)
Ltac count_insert Hi g' :=
  pose proof (sumf_insert owes _ _ _ g' Hi); pose proof (sumf_insert holdsP _ _ _ g' Hi); pose proof (sumf_insert holdsB _ _ _ g' Hi);
  pose proof (sumf_insert holdsLate _ _ _ g' Hi); pose proof (sumf_insert holdsProvide _ _ _ g' Hi).
Ltac count_delete Hi :=
  pose proof (sumf_delete owes _ _ _ Hi); pose proof (sumf_delete holdsP _ _ _ Hi); pose proof (sumf_delete holdsB _ _ _ Hi);
  pose proof (sumf_delete holdsLate _ _ _ Hi); pose proof (sumf_delete holdsProvide _ _ _ Hi).

(** The invariant but for the wait group, of which [n] calls are missing. *)
Definition sdInvBut s (n : nat) : Prop :=
  sd_wg s = n + sumf owes (sd_gs s) ∧ sd_usedP s = sumf holdsP (sd_gs s) ∧ sd_usedB s = sumf holdsB (sd_gs s) ∧
  Nat.b2n (sd_late s) = sumf holdsLate (sd_gs s) ∧ Nat.b2n (sd_provide s) = sumf holdsProvide (sd_gs s) ∧
  (sd_done s = false ↔ sd_phase s = COpen) ∧ afterWait (sd_phase s) = false ∧ cleanedOk s.

Lemma wgDone_inv s : sdInvBut s 1 → ∃ s', wgDone s = Some s' ∧ sdInv s'.
Proof.
  intros (H1 & H2 & H3 & H4 & H5 & H6 & H7 & H8). unfold wgDone. destruct (sd_wg s) as [|n]; [lia|]. eexists. split; [done|].
  unfold sdInv. cbn. split_and!; try done; [lia|congruence].
Qed.

Lemma sdInvBut_0 s : sdInvBut s 0 → sdInv s.
Proof. intros (H1 & H2 & H3 & H4 & H5 & H6 & H7 & H8). unfold sdInv. split_and!; try done. congruence. Qed.

Lemma addGoroutine_inv s n g :
  sdInv s → owes g = n → holdsP g = 0 → holdsB g = 0 → holdsLate g = 0 → holdsProvide g = 0 → sdInv (addGoroutine s n g).
Proof.
  intros Hs Hn HP HB HL HV. unfold addGoroutine. destruct (sd_done s) eqn:Hd; [done|]. destruct Hs as (H1 & H2 & H3 & H4 & H5 & H6 & H7 & H8).
  apply sdInvBut_0. unfold sdInvBut. cbn. rewrite !sumf_app, !sumf_single.
  pose proof (proj1 H6 Hd) as Hph. unfold cleanedOk in *. cbn. rewrite Hph in *. split_and!; try lia; done.
Qed.

(** A goroutine goes on as another one. *)
Lemma become_inv s i g s1 g' :
  sdInv s → sd_gs s !! i = Some g → sd_gs s1 = sd_gs s → sd_wg s1 = sd_wg s → sd_done s1 = sd_done s → sd_phase s1 = sd_phase s →
  sd_cleaned s1 = sd_cleaned s → owes g' = owes g →
  sd_usedP s1 + holdsP g = sd_usedP s + holdsP g' → sd_usedB s1 + holdsB g = sd_usedB s + holdsB g' →
  Nat.b2n (sd_late s1) + holdsLate g = Nat.b2n (sd_late s) + holdsLate g' →
  Nat.b2n (sd_provide s1) + holdsProvide g = Nat.b2n (sd_provide s) + holdsProvide g' →
  sdInv (setGs s1 (<[i := g']> (sd_gs s1))).
Proof.
  intros (H1 & H2 & H3 & H4 & H5 & H6 & H7 & H8) Hi E1 E2 E3 E4 E5 Ho EP EB EL EV.
  assert (afterWait (sd_phase s) = false) as Haw by (destruct (afterWait (sd_phase s)); [rewrite (H7 eq_refl) in Hi; done|done]).
  rewrite E1. count_insert Hi g'. apply sdInvBut_0. unfold sdInvBut, cleanedOk. cbn. rewrite E2, E3, E4, E5. split_and!; try done; lia.
Qed.

(** A goroutine ends. *)
Lemma finish_inv s i g s1 :
  sdInv s → sd_gs s !! i = Some g → sd_gs s1 = sd_gs s → sd_wg s1 = sd_wg s → sd_done s1 = sd_done s → sd_phase s1 = sd_phase s →
  sd_cleaned s1 = sd_cleaned s → owes g = 1 →
  sd_usedP s1 + holdsP g = sd_usedP s → sd_usedB s1 + holdsB g = sd_usedB s →
  Nat.b2n (sd_late s1) + holdsLate g = Nat.b2n (sd_late s) → Nat.b2n (sd_provide s1) + holdsProvide g = Nat.b2n (sd_provide s) →
  ∃ s', wgDone (setGs s1 (delete i (sd_gs s1))) = Some s' ∧ sdInv s'.
Proof.
  intros (H1 & H2 & H3 & H4 & H5 & H6 & H7 & H8) Hi E1 E2 E3 E4 E5 Ho EP EB EL EV. apply wgDone_inv.
  assert (afterWait (sd_phase s) = false) as Haw by (destruct (afterWait (sd_phase s)); [rewrite (H7 eq_refl) in Hi; done|done]).
  rewrite E1. count_delete Hi. unfold sdInvBut, cleanedOk. cbn. rewrite E2, E3, E4, E5. split_and!; try done; lia.
Qed.

Lemma b2n_sum_le f gs i g (b : bool) : Nat.b2n b = sumf f gs → gs !! i = Some g → f g = 1 → b = true.
Proof. intros Hb Hi Hf. rewrite (sumf_delete f _ _ _ Hi) in Hb. destruct b; cbn in *; [done|lia]. Qed.

(** The loop of goroutine [i] ends, with [s1] after the worker was released. *)
Lemma loopEnd_inv s i late l s1 :
  sdInv s → sd_gs s !! i = Some (GLoop late l) → l ≠ LStart → sd_gs s1 = sd_gs s → sd_wg s1 = sd_wg s → sd_done s1 = sd_done s →
  sd_phase s1 = sd_phase s → sd_cleaned s1 = sd_cleaned s → sd_late s1 = sd_late s → sd_provide s1 = sd_provide s →
  sd_usedP s1 = sd_usedP s → sd_usedB s1 + holdsB (GLoop late l) = sd_usedB s →
  ∃ s', loopEnd s1 i late = Some s' ∧ sdInv s'.
Proof.
  intros Hs Hi Hl E1 E2 E3 E4 E5 E6 E7 EP EB. unfold loopEnd. destruct late.
  - apply wgDone_inv. destruct Hs as (H1 & H2 & H3 & H4 & H5 & H6 & H7 & H8).
    assert (afterWait (sd_phase s) = false) as Haw by (destruct (afterWait (sd_phase s)); [rewrite (H7 eq_refl) in Hi; done|done]).
    assert (sd_late s = true) as Hlate by (eapply b2n_sum_le; [done|done|done]). rewrite Hlate in H4.
    rewrite E1. count_insert Hi (GLoop false LStart). destruct l; [done|..]; cbn in *; unfold sdInvBut, cleanedOk; cbn;
      rewrite E2, E3, E4, E5, E7; split_and!; try done; lia.
  - assert (sd_provide s = true) as Hp by (destruct Hs as (_ & _ & _ & _ & H5 & _); eapply b2n_sum_le; [done|done|by destruct l]).
    apply (finish_inv s i (GLoop false l) (setLocks s1 (sd_late s1) false)); try done; cbn; rewrite ?E6, ?Hp; (destruct l; [done|..]); cbn in *; lia.
Qed.

Lemma acquire_spec s t s1 :
  acquire s t = Some s1 →
  sd_gs s1 = sd_gs s ∧ sd_wg s1 = sd_wg s ∧ sd_done s1 = sd_done s ∧ sd_phase s1 = sd_phase s ∧ sd_cleaned s1 = sd_cleaned s ∧
  sd_late s1 = sd_late s ∧ sd_provide s1 = sd_provide s ∧
  sd_usedP s1 = sd_usedP s + (if t then 1 else 0) ∧ sd_usedB s1 = sd_usedB s + (if t then 0 else 1).
Proof.
  unfold acquire. destruct (canAcquire _ _ _); [|done]. destruct t; intros [= <-]; cbn; split_and!; try done; lia.
Qed.

(** A loop starts a worker and goes on. *)
Lemma gotWork_inv s i late :
  sdInv s → sd_gs s !! i = Some (GLoop late LGot) → sd_done s = false →
  sdInv (addGoroutine (setGs s (<[i := GLoop late LHead]> (sd_gs s))) 1 GWork).
Proof.
  intros (H1 & H2 & H3 & H4 & H5 & H6 & H7 & H8) Hi Hd. pose proof (proj1 H6 Hd) as Hph. unfold addGoroutine. cbn. rewrite Hd. apply sdInvBut_0.
  count_insert Hi (GLoop late LHead). unfold sdInvBut, cleanedOk in *. cbn. rewrite !sumf_app, !sumf_single, Hph in *.
  destruct late; cbn in *; split_and!; try lia; done.
Qed.

Lemma goStep_inv s i g a r :
  sdInv s → sd_gs s !! i = Some g → goStep s i g a = Some r → ∃ s', r = Some s' ∧ sdInv s'.
Proof.
  intros Hs Hi. pose proof Hs as (H1 & H2 & H3 & H4 & H5 & H6 & H7 & H8).
  destruct g as [| | |late l|]; cbn [goStep].
  - destruct (sd_done s) eqn:Hd; [|done]. intros [= <-]. by apply (finish_inv s i GRun s); try done; cbn; lia.
  - destruct (acquire s periodicWorker) as [s1|] eqn:Ha; [|done]. intros [= <-]. apply acquire_spec in Ha as (? & ? & ? & ? & ? & HL & HV & HP & HB).
    eexists. split; [done|]. apply (become_inv s i GPeriodic); try done; cbn; rewrite ?HL, ?HV; lia.
  - intros [= <-]. rewrite (sumf_delete holdsP _ _ _ Hi) in H2. cbn [holdsP] in H2.
    apply (finish_inv s i GPeriodicWork (release s periodicWorker)); try done; cbn; lia.
  - destruct l.
    + destruct (sd_provide s) eqn:Hp; intros [= <-].
      * destruct late; [rewrite (sumf_delete holdsProvide _ _ _ Hi) in H5; cbn in H5; lia|].
        apply (finish_inv s i (GLoop false LStart) s); try done; cbn; lia.
      * destruct late; [rewrite (sumf_delete holdsProvide _ _ _ Hi) in H5; cbn in H5; lia|].
        eexists. split; [done|]. apply (become_inv s i (GLoop false LStart) (setLocks s (sd_late s) true)); try done. cbn. by rewrite Hp.
    + destruct (_ || _); intros [= <-]; [by apply (loopEnd_inv s i late LHead s); try done; cbn; lia|].
      eexists. split; [done|]. by apply (become_inv s i (GLoop late LHead) s); destruct late; try done; cbn; lia.
    + destruct (acquire s burstWorker) as [s1|] eqn:Ha; [|done]. intros [= <-]. apply acquire_spec in Ha as (? & ? & ? & ? & ? & HL & HV & HP & HB).
      eexists. split; [done|]. apply (become_inv s i (GLoop late LAcquire)); destruct late; try done; cbn; rewrite ?HL, ?HV; lia.
    + rewrite (sumf_delete holdsB _ _ _ Hi) in H3. cbn [holdsB] in H3. destruct (a_dequeued a); [destruct (sd_done s) eqn:Hd|]; intros [= <-].
      * apply (loopEnd_inv s i late LGot (release s burstWorker)); try done; cbn; lia.
      * eexists. split; [done|]. apply gotWork_inv with (late := late); done.
      * eexists. split; [done|]. apply (become_inv s i (GLoop late LGot) (release s burstWorker)); destruct late; try done; cbn; lia.
  - intros [= <-]. rewrite (sumf_delete holdsB _ _ _ Hi) in H3. cbn [holdsB] in H3.
    apply (finish_inv s i GWork (release s burstWorker)); try done; cbn; lia.
Qed.

Lemma catchup_inv s : sdInv s → sdInv (catchup s).
Proof.
  intros Hs. unfold catchup. destruct (sd_late s) eqn:HL; [done|]. destruct (sd_done s) eqn:Hd; [done|].
  destruct Hs as (H1 & H2 & H3 & H4 & H5 & H6 & H7 & H8). pose proof (proj1 H6 Hd) as Hph. unfold addGoroutine. rewrite Hd. apply sdInvBut_0.
  unfold sdInvBut, cleanedOk in *. cbn. rewrite !sumf_app, !sumf_single, Hph in *. cbn. rewrite HL in H4. cbn in H4. split_and!; try lia; done.
Qed.

Lemma closeStart_inv s : sdInv s → sd_phase s = COpen → sdInv (closeStart s).
Proof.
  intros (H1 & H2 & H3 & H4 & H5 & H6 & H7 & H8) Hph. apply sdInvBut_0. unfold sdInvBut, cleanedOk in *. cbn. rewrite Hph in H8.
  split_and!; done.
Qed.

Lemma sumf_owes_0 gs : sumf owes gs = 0 → gs = [].
Proof. destruct gs as [|g gs]; [done|]. unfold sumf. cbn. destruct g as [| | |[]|]; cbn; lia. Qed.

Lemma closeStep_inv s s' : sdInv s → closeStep s = Some s' → sdInv s'.
Proof.
  intros (H1 & H2 & H3 & H4 & H5 & H6 & H7 & H8). unfold closeStep, cleanedOk in *. destruct (sd_phase s) as [| | |[|f rest]|] eqn:Hph; try done.
  - case_decide as Hw; [|done]. intros [= <-]. rewrite Hw in H1. symmetry in H1. apply sumf_owes_0 in H1 as Hgs.
    unfold sdInv, cleanedOk. cbn. rewrite Hgs in *. split_and!; try done. rewrite H6. done.
  - destruct (sd_approx s); [done|]. intros [= <-]. unfold sdInv, cleanedOk. cbn. rewrite H8. split_and!; try done. by rewrite H6.
  - intros [= <-]. unfold sdInv, cleanedOk. cbn. rewrite app_nil_r in H8. split_and!; try done. by rewrite H6.
  - intros [= <-]. unfold sdInv, cleanedOk. cbn. rewrite <-app_assoc. split_and!; try done. by rewrite H6.
Qed.

Lemma sdStep_inv s e r : sdInv s → sdStep s e = Some r → ∃ s', r = Some s' ∧ sdInv s'.
Proof.
  intros Hs. destruct e as [| | | | | |i a| |]; cbn [sdStep].
  - intros [= <-]. eexists. split; [done|]. by apply addGoroutine_inv.
  - intros [= <-]. eexists. split; [done|]. by apply addGoroutine_inv.
  - intros [= <-]. eexists. split; [done|]. by apply catchup_inv.
  - intros [= <-]. eexists. split; [done|]. by destruct (sd_done s).
  - destruct (sd_online s); [done|]. intros [= <-]. by eexists.
  - destruct (sd_approx s); [|done]. intros [= <-]. by eexists.
  - destruct (sd_gs s !! i) as [g|] eqn:Hi; [|done]. by apply goStep_inv.
  - destruct (sd_phase s) eqn:Hph; try done. intros [= <-]. eexists. split; [done|]. by apply closeStart_inv.
  - destruct (closeStep s) as [s'|] eqn:Hc; [|done]. intros [= <-]. eexists. split; [done|]. by eapply closeStep_inv.
Qed.

(** ** [Close] returns *)

Definition sdRel s s' : Prop := ∃ e, sdStep s e = Some (Some s').

(** The steps that need no call from outside. *)
Definition own (e : sdEvent) : Prop :=
  match e with PvGo _ _ | PvCloseStep | PvOnlineLock | PvOnlineUnlock => True | _ => False end.

Definition sdOwn s s' : Prop := ∃ e, own e ∧ sdStep s e = Some (Some s').

Lemma sdRel_inv s s' : sdInv s → rtc sdRel s s' → sdInv s'.
Proof.
  intros Hs Hr. induction Hr as [|s1 s2 s3 [e He] _ IH]; [done|]. apply IH. by destruct (sdStep_inv s1 e _ Hs He) as (? & [= <-] & ?).
Qed.

Definition loopRank (l : loopState) : nat := match l with LStart => 2 | LHead => 1 | LAcquire => 3 | LGot => 2 end.
Definition rank g : nat :=
  match g with GRun | GPeriodicWork | GWork => 1 | GPeriodic => 2 | GLoop late l => loopRank l + if late then 2 else 0 end.

Definition phaseRank (ph : closePhase) : nat :=
  match ph with COpen | CClosed => 0 | CWaiting => nCleanup + 3 | CApprox => nCleanup + 2 | CCleaning rest => S (length rest) end.

Definition closeMeasure s : nat := sumf rank (sd_gs s) + 2 * sd_online s + Nat.b2n (sd_approx s) + phaseRank (sd_phase s).

Lemma wgDone_measure s s' : wgDone s = Some s' → closeMeasure s' = closeMeasure s.
Proof. unfold wgDone. destruct (sd_wg s); [done|]. by intros [= <-]. Qed.

Lemma acquire_measure s t s' : acquire s t = Some s' → closeMeasure s' = closeMeasure s ∧ sd_gs s' = sd_gs s.
Proof. unfold acquire. destruct (canAcquire _ _ _); [|done]. by destruct t; intros [= <-]. Qed.

Lemma setGs_measure s gs : closeMeasure (setGs s gs) + sumf rank (sd_gs s) = closeMeasure s + sumf rank gs.
Proof. unfold closeMeasure. cbn. lia. Qed.

(** Replacing or removing a goroutine makes the measure smaller. *)
Lemma become_measure s i g g' : sd_gs s !! i = Some g → rank g' < rank g → closeMeasure (setGs s (<[i := g']> (sd_gs s))) < closeMeasure s.
Proof. intros Hi Hr. pose proof (setGs_measure s (<[i := g']> (sd_gs s))). pose proof (sumf_insert rank _ _ _ g' Hi). lia. Qed.

Lemma remove_measure s i g : sd_gs s !! i = Some g → closeMeasure (setGs s (delete i (sd_gs s))) < closeMeasure s.
Proof.
  intros Hi. pose proof (setGs_measure s (delete i (sd_gs s))). pose proof (sumf_delete rank _ _ _ Hi).
  assert (0 < rank g) by (destruct g as [| | |? []|]; cbn; lia). lia.
Qed.

Lemma loopEnd_measure s i late l s' :
  sd_gs s !! i = Some (GLoop late l) → l ≠ LStart → loopEnd s i late = Some s' → closeMeasure s' < closeMeasure s.
Proof.
  intros Hi Hl. unfold loopEnd. destruct late; intros ->%wgDone_measure.
  - apply (become_measure s i (GLoop true l)); [done|]. destruct l; cbn; [done|lia..].
  - by apply (remove_measure s i (GLoop false l)).
Qed.

Lemma goStep_measure s i g a s' :
  sd_done s = true → sd_gs s !! i = Some g → goStep s i g a = Some (Some s') → closeMeasure s' < closeMeasure s.
Proof.
  intros Hd Hi. destruct g as [| | |late l|]; cbn [goStep]; rewrite ?Hd.
  - intros [= ->%wgDone_measure]. by eapply remove_measure.
  - destruct (acquire s periodicWorker) as [s1|] eqn:Ha; [|done]. apply acquire_measure in Ha as [<- Hg]. intros [= <-].
    rewrite <-Hg in Hi. eapply become_measure; [done|cbn; lia].
  - intros [= ->%wgDone_measure]. by apply (remove_measure (release s periodicWorker) i GPeriodicWork).
  - destruct l.
    + destruct (sd_provide s); [intros [= ->%wgDone_measure]; by eapply remove_measure|]. intros [= <-].
      by apply (become_measure (setLocks s (sd_late s) true) i (GLoop late LStart)); [|destruct late; cbn; lia].
    + rewrite orb_true_r. cbn [orb]. intros [= He]. by eapply loopEnd_measure.
    + destruct (acquire s burstWorker) as [s1|] eqn:Ha; [|done]. apply acquire_measure in Ha as [<- Hg]. intros [= <-].
      rewrite <-Hg in Hi. eapply become_measure; [done|]. destruct late; cbn; lia.
    + destruct (a_dequeued a); [intros [= He]; by eapply (loopEnd_measure (release s burstWorker))|]. intros [= <-].
      apply (become_measure (release s burstWorker) i (GLoop late LGot)); [done|]. destruct late; cbn; lia.
  - intros [= ->%wgDone_measure]. by apply (remove_measure (release s burstWorker) i GWork).
Qed.

Lemma closeStep_measure s s' : closeStep s = Some s' → closeMeasure s' < closeMeasure s.
Proof.
  unfold closeStep, closeMeasure. destruct (sd_phase s) as [| | |[|f rest]|]; try done.
  - case_decide; [|done]. intros [= <-]. cbn. lia.
  - destruct (sd_approx s) eqn:Ha; [done|]. intros [= <-]. cbn [sd_gs sd_online sd_approx sd_phase setPhase phaseRank].
    rewrite Ha, length_reverse, length_seq. lia.
  - intros [= <-]. cbn. lia.
  - intros [= <-]. cbn. lia.
Qed.

Lemma sdOwn_measure s s' : sd_done s = true → sdOwn s s' → closeMeasure s' < closeMeasure s.
Proof.
  intros Hd (e & Ho & He). destruct e as [| | | | | |i a| |]; try done; cbn [sdStep] in He.
  - destruct (sd_online s) eqn:Hn; [done|]. injection He as <-. unfold closeMeasure. cbn. rewrite Hn. destruct (sd_approx s); cbn; lia.
  - destruct (sd_approx s) eqn:Ha; [|done]. injection He as <-. unfold closeMeasure. cbn. rewrite Ha. cbn. lia.
  - destruct (sd_gs s !! i) as [g|] eqn:Hi; [|done]. by eapply goStep_measure.
  - destruct (closeStep s) as [s1|] eqn:Hc; [|done]. injection He as <-. by apply closeStep_measure.
Qed.

Lemma goStep_done s i g a s' : goStep s i g a = Some (Some s') → sd_done s' = sd_done s.
Proof.
  assert (∀ s1 s2, wgDone s1 = Some s2 → sd_done s2 = sd_done s1) as Hw by (intros s1 s2; unfold wgDone; destruct (sd_wg s1); [done|by intros [= <-]]).
  assert (∀ s1 late s2, loopEnd s1 i late = Some s2 → sd_done s2 = sd_done s1) as Hl by (intros s1 [] s2 He; unfold loopEnd in He; by apply Hw in He).
  destruct g as [| | |late []|]; cbn [goStep].
  - destruct (sd_done s) eqn:Hd; [|done]. intros [= ->%Hw]. done.
  - destruct (acquire s periodicWorker) as [s1|] eqn:Ha; [|done]. intros [= <-]. by apply acquire_spec in Ha as (_ & _ & Ha & _).
  - intros [= ->%Hw]. done.
  - destruct (sd_provide s); intros [= He]; [by rewrite (Hw _ _ He)|by rewrite <-He].
  - destruct (_ || _); intros [= He]; [by rewrite (Hl _ _ _ He)|by rewrite <-He].
  - destruct (acquire s burstWorker) as [s1|] eqn:Ha; [|done]. intros [= <-]. by apply acquire_spec in Ha as (_ & _ & Ha & _).
  - destruct (a_dequeued a); [|by intros [= <-]]. destruct (sd_done s) eqn:Hd; intros [= He]; [by rewrite (Hl _ _ _ He)|].
    rewrite <-He. unfold addGoroutine. cbn. by rewrite Hd.
  - intros [= ->%Hw]. done.
Qed.

Lemma sdStep_done s e s' : sd_done s = true → own e → sdStep s e = Some (Some s') → sd_done s' = true.
Proof.
  intros Hd Ho. destruct e as [| | | | | |i a| |]; try done; cbn [sdStep].
  - destruct (sd_online s); [done|]. by intros [= <-].
  - destruct (sd_approx s); [|done]. by intros [= <-].
  - destruct (sd_gs s !! i) as [g|]; [|done]. intros Hg. by rewrite (goStep_done _ _ _ _ _ Hg).
  - unfold closeStep. destruct (sd_phase s) as [| | |[|f rest]|]; try done; [case_decide; [|done]|destruct (sd_approx s); [done|]|..]; by intros [= <-].
Qed.

(** [Close] does not go back. *)
Lemma afterWait_step s e s' : sdInv s → afterWait (sd_phase s) = true → sdStep s e = Some (Some s') → afterWait (sd_phase s') = true.
Proof.
  intros (_ & _ & _ & _ & _ & H6 & H7 & _) Ha. assert (sd_done s = true) as Hd.
  { destruct (sd_done s) eqn:Hd; [done|]. by rewrite (proj1 H6 eq_refl) in Ha. }
  unfold sdStep, addGoroutine, catchup. rewrite Hd, (H7 Ha). destruct e as [| | | | | |i a| |]; try (by intros [= <-]).
  - destruct (sd_late s); by intros [= <-].
  - destruct (sd_online s); [done|]. by intros [= <-].
  - destruct (sd_approx s); [|done]. by intros [= <-].
  - by destruct (sd_phase s).
  - unfold closeStep. destruct (sd_phase s) as [| | |[|f rest]|]; try done; [destruct (sd_approx s); [done|]|..]; by intros [= <-].
Qed.

(** A goroutine that waits for a worker. *)
Definition acquiring g : bool := match g with GPeriodic | GLoop _ LAcquire => true | _ => false end.

Definition anyAnswer : loopAnswer := mkAnswer true true true.

Lemma goStep_enabled s i g : sd_done s = true → acquiring g = false → goStep s i g anyAnswer ≠ None.
Proof.
  intros Hd Ha. destruct g as [| | |late []|]; try done; cbn [goStep]; rewrite ?Hd; cbn; try done. by destruct (sd_provide s).
Qed.

Lemma acquiring_unused gs : Forall (λ g, acquiring g = true) gs → sumf holdsP gs = 0 ∧ sumf holdsB gs = 0.
Proof. unfold sumf. induction 1 as [|g gs Hg _ [IH1 IH2]]; [done|]. cbn. rewrite IH1, IH2. by destruct g as [| | |? []|]. Qed.

(** While [Close] has not returned, some step is possible, if an unused pool has
    a worker of each type. *)
Lemma close_progress s :
  (∀ t, canAcquire 0 0 t = true) → sdInv s → sd_done s = true → sd_phase s ≠ CClosed → ∃ s', sdOwn s s'.
Proof.
  intros Hpool Hs Hd Hph.
  assert (∀ e r, own e → sdStep s e = Some r → ∃ s', sdOwn s s') as Hown.
  { intros e r Ho He. destruct (sdStep_inv s e r Hs He) as (s' & -> & _). exists s', e. done. }
  pose proof Hs as (H1 & H2 & H3 & _ & _ & H6 & _).
  destruct (sd_phase s) as [| | |[|f rest]|] eqn:Hp; try done; [by rewrite (proj2 H6 eq_refl) in Hd| | | |].
  - destruct (sd_gs s) as [|g0 gs] eqn:Hgs; [eapply (Hown PvCloseStep); [done|]; cbn; unfold closeStep; rewrite Hp, H1; cbn; done|].
    destruct (decide (Forall (λ g, acquiring g = true) (g0 :: gs))) as [Hall|Hn].
    + apply acquiring_unused in Hall as Hu. destruct Hu as [HP HB]. rewrite HP in H2. rewrite HB in H3.
      apply Forall_inv in Hall. destruct g0 as [| | |late []|]; try done; (eapply (Hown (PvGo 0 anyAnswer)); [done|]; cbn [sdStep]; rewrite Hgs;
        cbn [lookup list_lookup mbind option_bind goStep]; unfold acquire; rewrite H2, H3, Hpool; reflexivity).
    + apply not_Forall_Exists in Hn; [|apply _]. apply Exists_exists in Hn as (g & [i Hi]%list_elem_of_lookup & Hg).
      assert (acquiring g = false) as Hna by (destruct (acquiring g) eqn:E; [by destruct (Hg E)|done]).
      destruct (goStep s i g anyAnswer) as [r|] eqn:Hst; [|by destruct (goStep_enabled s i g Hd Hna)].
      eapply (Hown (PvGo i anyAnswer)); [done|]. cbn [sdStep]. rewrite Hgs, Hi. done.
  - destruct (sd_approx s) eqn:Ha; [eapply (Hown PvOnlineUnlock); [done|]; cbn; by rewrite Ha|].
    eapply (Hown PvCloseStep); [done|]. cbn. unfold closeStep. by rewrite Hp, Ha.
  - eapply (Hown PvCloseStep); [done|]. cbn. unfold closeStep. by rewrite Hp.
  - eapply (Hown PvCloseStep); [done|]. cbn. unfold closeStep. by rewrite Hp.
Qed.


(** C32: [Close] returns.  If an unused pool has a worker of each type, then once
    [Close] is called the goroutines, the callbacks and [Close] make a bounded
    number of steps, whatever the queues hold, and when none is possible any
    more [Close] has run all cleanup functions and returned. *)
Theorem Close_returns s :
  (∀ t, canAcquire 0 0 t = true) → rtc sdRel sdInit s → sd_done s = true →
  (∀ n s', nsteps sdOwn n s s' → n ≤ closeMeasure s) ∧
  ((∀ s', ¬ sdOwn s s') → sd_phase s = CClosed ∧ sd_cleaned s = reverse (seq 0 nCleanup)).
Proof.
  intros Hpool Hr Hd. pose proof (sdRel_inv _ _ sdInit_inv Hr) as Hs. split.
  - intros n s' Hn. clear Hr Hs. revert Hd. induction Hn as [s|n s1 s2 s3 Hown _ IH]; intros Hd; [lia|].
    pose proof (sdOwn_measure _ _ Hd Hown). destruct Hown as (e & Ho & He). specialize (IH (sdStep_done _ _ _ Hd Ho He)). lia.
  - intros Hstuck. assert (sd_phase s = CClosed) as Hp.
    { destruct (sd_phase s) eqn:Hp; [..|done]; exfalso; (destruct (close_progress s Hpool Hs Hd) as [s' Hs']; [by rewrite Hp|by eapply Hstuck]). }
    split; [done|]. destruct Hs as (_ & _ & _ & _ & _ & _ & _ & Hc). unfold cleanedOk in Hc. by rewrite Hp in Hc.
Qed.
End shutdown.

(** ** Examples *)

(** [reservedpool]: [max] workers, of which some are reserved for a type; the
    others are shared. *)
Definition reservedPool (max reservedP reservedB usedP usedB : nat) (t : workerType) : bool :=
  let shared := bool_decide ((usedP - reservedP) + (usedB - reservedB) < max - (reservedP + reservedB)) in
  match t with
  | periodicWorker => bool_decide (usedP < reservedP) || shared
  | burstWorker => bool_decide (usedB < reservedB) || shared
  end.

(** Run a list of events, skipping those that cannot happen. *)
Definition sdRun (pool : nat → nat → workerType → bool) (nCleanup : nat) s (evs : list sdEvent) : option sdState :=
  foldl (λ r e, s ← r; default (Some s) (sdStep pool nCleanup s e)) (Some s) evs.

Lemma sdRun_rel pool nCleanup evs s s1 s' :
  rtc (sdRel pool nCleanup) s s1 → sdRun pool nCleanup s1 evs = Some s' → rtc (sdRel pool nCleanup) s s'.
Proof.
  unfold sdRun. revert s1. induction evs as [|e evs IH]; intros s1 Hr He; [by injection He as <-|]. cbn in He.
  destruct (sdStep pool nCleanup s1 e) as [[s2|]|] eqn:Hst; cbn in He.
  - apply (IH s2); [|done]. eapply rtc_r; [done|by exists e].
  - exfalso. clear -He. induction evs as [|e evs IH]; cbn in He; [done|auto].
  - by apply (IH s1).
Qed.

(** Keys are provided while the provider is closed. *)
Definition demoShutdown : list sdEvent := [PvProvide; PvGo 1 (mkAnswer false true true); PvGo 1 (mkAnswer false true true); PvReprovide; PvClose].
Definition demoShut : sdState := mkSd true 3 0 0 false true 0 false [GRun; GLoop false LAcquire; GPeriodic] CWaiting [].

Lemma demoShut_reachable : rtc (sdRel (reservedPool 4 2 1) 5) sdInit demoShut.
Proof. eapply (sdRun_rel _ _ demoShutdown); [apply rtc_refl|reflexivity]. Qed.


Lemma Close_returns_witness :
  closeMeasure 5 demoShut = 14 ∧ ∀ n s', nsteps (sdOwn (reservedPool 4 2 1) 5) n demoShut s' → n ≤ 14.
Proof.
  split; [reflexivity|]. apply (Close_returns (reservedPool 4 2 1) 5 demoShut); [intros []; reflexivity|apply demoShut_reachable|reflexivity].
Defined.

(** Two workers that are both reserved for periodic work are an accepted
    configuration: [provideLoop] waits for a burst worker, [Close] waits for
    [provideLoop], and the pool is only closed after that.  Nothing can happen
    any more. *)
Lemma Close_hangs :
  rtc (sdRel (reservedPool 2 2 0) 5) sdInit (mkSd true 1 0 0 false true 0 false [GLoop false LAcquire] CWaiting []) ∧
  ∀ s', ¬ sdOwn (reservedPool 2 2 0) 5 (mkSd true 1 0 0 false true 0 false [GLoop false LAcquire] CWaiting []) s'.
Proof.
  split.
  - eapply (sdRun_rel _ _ [PvProvide; PvGo 1 (mkAnswer false true true); PvGo 1 (mkAnswer false true true); PvClose; PvGo 0 anyAnswer]); [apply rtc_refl|reflexivity].
  - intros s' (e & Ho & He). destruct e as [| | | | | |[|i] a| |]; try done; cbn in He; done.
Qed.
