(* ===== verification/Config.v ===== *)
(** * The configuration of a DHT node

    [internal/config/config.go], the options of [dht_options.go], the defaults of
    [amino/defaults.go], and the constructor [New] of [dht.go] with [makeDHT] and
    [makeRoutingTable].

    A [record.NamespacedValidator] is a Go map, which configurations can share
    with each other and with the caller: maps live in a [heap] and a namespaced
    validator is the location of its map, or [None] for the [nil] map.  An option
    is a function on configurations that reads and writes the heap and can fail
    or panic.  [int]s and durations are integers; objects that options only store
    are of an abstract type [Obj], and [None] is [nil].  The libraries (the
    diversity filter, the routing table, the peerstore) are parameters; the
    threshold that [makeDHT] computes with floating-point numbers is one too. *)

From S2P Require Import Prelude GoTime Message Records Node.

Local Open Scope Z_scope.

(** ** Errors, and the monad of options *)

Inductive cfgErr :=
| ErrOption (i : nat) (e : cfgErr) | ErrNotNamespaced | ErrNotMarkedChanged
| ErrBucketSize | ErrProviders | ErrValues | ErrMustBeNamespaced | ErrTwoValidators
| ErrPkMissing | ErrPkType | ErrIpnsMissing | ErrIpnsType
| ErrDiversityFilter | ErrRoutingTable | ErrMode.

Inductive res (A : Type) := Ok (a : A) | Err (e : cfgErr) | Panic.
Arguments Ok {A} _.
Arguments Err {A} _.
Arguments Panic {A}.

Section config.
Context {Obj AI : Type}.

(** [record.Validator]: the public key validator, the IPNS validator with its key
    book, a namespaced validator, or one of the caller's. *)
Inductive validator :=
| PublicKeyValidator
| IpnsValidator (keyBook : Obj)
| Namespaced (m : option N)
| OtherValidator (o : Obj).

(** The maps of namespaced validators, by location. *)
Record heap := mkHeap { h_next : N; h_maps : gmap N (gmap string (option validator)) }.

Definition cfgM (A : Type) : Type := heap → res A * heap.

#[global] Instance cfgM_ret : MRet cfgM := λ A a h, (Ok a, h).
#[global] Instance cfgM_bind : MBind cfgM := λ A B f m h,
  match m h with
  | (Ok a, h) => f a h
  | (Err e, h) => (Err e, h)
  | (Panic, h) => (Panic, h)
  end.

Definition throw {A} (e : cfgErr) : cfgM A := λ h, (Err e, h).
Definition panic {A} : cfgM A := λ h, (Panic, h).

(** [record.NamespacedValidator{}] *)
Definition newMap : cfgM N := λ h, (Ok (h_next h), mkHeap (h_next h + 1) (<[h_next h := ∅]> (h_maps h))).

(** Reading a map; the [nil] map is empty. *)
Definition getMap (m : option N) : cfgM (gmap string (option validator)) := λ h,
  (Ok (match m with Some l => default ∅ (h_maps h !! l) | None => ∅ end), h).

(** [m[k] = v], which panics for the [nil] map. *)
Definition mapAssign (m : option N) (k : string) (v : option validator) : cfgM () := λ h,
  match m with
  | None => (Panic, h)
  | Some l => (Ok tt, mkHeap (h_next h) (<[l := <[k := v]> (default ∅ (h_maps h !! l))]> (h_maps h)))
  end.

(** ** The configuration *)

Definition QueryFilterFunc := Obj → AI → bool.
Definition RouteTableFilterFunc := Obj → peerID → bool.
Definition EmptyQueryFilter : QueryFilterFunc := λ _ _, true.
Definition EmptyRTFilter : RouteTableFilterFunc := λ _ _, true.

(** The function of [BootstrapPeers], or the caller's. *)
Inductive bootstrapFn := ConstPeers (bootstrappers : list AI) | FuncPeers (o : Obj).

Record rtConfig := mkRtCfg {
  rt_RefreshQueryTimeout : Z;
  rt_RefreshInterval : Z;
  rt_AutoRefresh : bool;
  rt_LatencyTolerance : Z;
  rt_CheckInterval : Z;
  rt_PeerFilter : option RouteTableFilterFunc;
  rt_DiversityFilter : option Obj;
}.

Record Config := mkCfg {
  c_Datastore : option Obj;
  c_Validator : option validator;
  c_ValidatorChanged : bool;
  c_Mode : Z;
  c_ProtocolPrefix : string;
  c_V1ProtocolOverride : string;
  c_BucketSize : Z;
  c_Concurrency : Z;
  c_Resiliency : Z;
  c_MaxRecordAge : Z;
  c_EnableProviders : bool;
  c_EnableValues : bool;
  c_ProviderStore : option Obj;
  c_QueryPeerFilter : option QueryFilterFunc;
  c_LookupCheckConcurrency : Z;
  c_MsgSenderBuilder : option Obj;
  c_RoutingTable : rtConfig;
  c_BootstrapPeers : option bootstrapFn;
  c_AddressFilter : option Obj;
  c_OnRequestHook : option Obj;
  c_DisableFixLowPeers : bool;
  c_TestAddressUpdateProcessing : bool;
  c_EnableOptimisticProvide : bool;
  c_OptimisticProvideJobsPoolSize : Z;
}.

(** [Option] *)
Definition Option := Config → cfgM Config.

Definition ProtocolPrefix_ : string := "/ipfs".
Definition DefaultPrefix : string := ProtocolPrefix_.
Definition ProtocolID : string := "/ipfs/kad/1.0.0".
Definition DefaultBucketSize : Z := 20.
Definition DefaultConcurrency : Z := 10.
Definition DefaultResiliency : Z := 3.

(** The constructors of the default datastore and of the default message sender. *)
Variables (newMapDatastore NewMessageSenderImpl : Obj).

(** ** The options *)

Definition ProviderStore (ps : option Obj) : Option := λ c, mret (mkCfg (c_Datastore c) (c_Validator c) (c_ValidatorChanged c) (c_Mode c) (c_ProtocolPrefix c) (c_V1ProtocolOverride c) (c_BucketSize c) (c_Concurrency c) (c_Resiliency c) (c_MaxRecordAge c) (c_EnableProviders c) (c_EnableValues c) ps (c_QueryPeerFilter c) (c_LookupCheckConcurrency c) (c_MsgSenderBuilder c) (c_RoutingTable c) (c_BootstrapPeers c) (c_AddressFilter c) (c_OnRequestHook c) (c_DisableFixLowPeers c) (c_TestAddressUpdateProcessing c) (c_EnableOptimisticProvide c) (c_OptimisticProvideJobsPoolSize c)).

Definition RoutingTableLatencyTolerance (latency : Z) : Option := λ c, mret (mkCfg (c_Datastore c) (c_Validator c) (c_ValidatorChanged c) (c_Mode c) (c_ProtocolPrefix c) (c_V1ProtocolOverride c) (c_BucketSize c) (c_Concurrency c) (c_Resiliency c) (c_MaxRecordAge c) (c_EnableProviders c) (c_EnableValues c) (c_ProviderStore c) (c_QueryPeerFilter c) (c_LookupCheckConcurrency c) (c_MsgSenderBuilder c) (mkRtCfg (rt_RefreshQueryTimeout (c_RoutingTable c)) (rt_RefreshInterval (c_RoutingTable c)) (rt_AutoRefresh (c_RoutingTable c)) latency (rt_CheckInterval (c_RoutingTable c)) (rt_PeerFilter (c_RoutingTable c)) (rt_DiversityFilter (c_RoutingTable c))) (c_BootstrapPeers c) (c_AddressFilter c) (c_OnRequestHook c) (c_DisableFixLowPeers c) (c_TestAddressUpdateProcessing c) (c_EnableOptimisticProvide c) (c_OptimisticProvideJobsPoolSize c)).

Definition RoutingTableRefreshQueryTimeout (timeout : Z) : Option := λ c, mret (mkCfg (c_Datastore c) (c_Validator c) (c_ValidatorChanged c) (c_Mode c) (c_ProtocolPrefix c) (c_V1ProtocolOverride c) (c_BucketSize c) (c_Concurrency c) (c_Resiliency c) (c_MaxRecordAge c) (c_EnableProviders c) (c_EnableValues c) (c_ProviderStore c) (c_QueryPeerFilter c) (c_LookupCheckConcurrency c) (c_MsgSenderBuilder c) (mkRtCfg timeout (rt_RefreshInterval (c_RoutingTable c)) (rt_AutoRefresh (c_RoutingTable c)) (rt_LatencyTolerance (c_RoutingTable c)) (rt_CheckInterval (c_RoutingTable c)) (rt_PeerFilter (c_RoutingTable c)) (rt_DiversityFilter (c_RoutingTable c))) (c_BootstrapPeers c) (c_AddressFilter c) (c_OnRequestHook c) (c_DisableFixLowPeers c) (c_TestAddressUpdateProcessing c) (c_EnableOptimisticProvide c) (c_OptimisticProvideJobsPoolSize c)).

Definition RoutingTableRefreshPeriod (period : Z) : Option := λ c, mret (mkCfg (c_Datastore c) (c_Validator c) (c_ValidatorChanged c) (c_Mode c) (c_ProtocolPrefix c) (c_V1ProtocolOverride c) (c_BucketSize c) (c_Concurrency c) (c_Resiliency c) (c_MaxRecordAge c) (c_EnableProviders c) (c_EnableValues c) (c_ProviderStore c) (c_QueryPeerFilter c) (c_LookupCheckConcurrency c) (c_MsgSenderBuilder c) (mkRtCfg (rt_RefreshQueryTimeout (c_RoutingTable c)) period (rt_AutoRefresh (c_RoutingTable c)) (rt_LatencyTolerance (c_RoutingTable c)) (rt_CheckInterval (c_RoutingTable c)) (rt_PeerFilter (c_RoutingTable c)) (rt_DiversityFilter (c_RoutingTable c))) (c_BootstrapPeers c) (c_AddressFilter c) (c_OnRequestHook c) (c_DisableFixLowPeers c) (c_TestAddressUpdateProcessing c) (c_EnableOptimisticProvide c) (c_OptimisticProvideJobsPoolSize c)).

Definition Datastore (ds : option Obj) : Option := λ c, mret (mkCfg ds (c_Validator c) (c_ValidatorChanged c) (c_Mode c) (c_ProtocolPrefix c) (c_V1ProtocolOverride c) (c_BucketSize c) (c_Concurrency c) (c_Resiliency c) (c_MaxRecordAge c) (c_EnableProviders c) (c_EnableValues c) (c_ProviderStore c) (c_QueryPeerFilter c) (c_LookupCheckConcurrency c) (c_MsgSenderBuilder c) (c_RoutingTable c) (c_BootstrapPeers c) (c_AddressFilter c) (c_OnRequestHook c) (c_DisableFixLowPeers c) (c_TestAddressUpdateProcessing c) (c_EnableOptimisticProvide c) (c_OptimisticProvideJobsPoolSize c)).

Definition Mode (m : Z) : Option := λ c, mret (mkCfg (c_Datastore c) (c_Validator c) (c_ValidatorChanged c) m (c_ProtocolPrefix c) (c_V1ProtocolOverride c) (c_BucketSize c) (c_Concurrency c) (c_Resiliency c) (c_MaxRecordAge c) (c_EnableProviders c) (c_EnableValues c) (c_ProviderStore c) (c_QueryPeerFilter c) (c_LookupCheckConcurrency c) (c_MsgSenderBuilder c) (c_RoutingTable c) (c_BootstrapPeers c) (c_AddressFilter c) (c_OnRequestHook c) (c_DisableFixLowPeers c) (c_TestAddressUpdateProcessing c) (c_EnableOptimisticProvide c) (c_OptimisticProvideJobsPoolSize c)).

Definition Validator (v : option validator) : Option := λ c, mret (mkCfg (c_Datastore c) v true (c_Mode c) (c_ProtocolPrefix c) (c_V1ProtocolOverride c) (c_BucketSize c) (c_Concurrency c) (c_Resiliency c) (c_MaxRecordAge c) (c_EnableProviders c) (c_EnableValues c) (c_ProviderStore c) (c_QueryPeerFilter c) (c_LookupCheckConcurrency c) (c_MsgSenderBuilder c) (c_RoutingTable c) (c_BootstrapPeers c) (c_AddressFilter c) (c_OnRequestHook c) (c_DisableFixLowPeers c) (c_TestAddressUpdateProcessing c) (c_EnableOptimisticProvide c) (c_OptimisticProvideJobsPoolSize c)).

(** An assignment to the map, which other configurations may share. *)
Definition NamespacedValidator (ns : string) (v : option validator) : Option := λ c,
  match c_Validator c with
  | Some (Namespaced l) => mapAssign l ns v ;; mret c
  | _ => throw ErrNotNamespaced
  end.

Definition ProtocolPrefix (prefix : string) : Option := λ c, mret (mkCfg (c_Datastore c) (c_Validator c) (c_ValidatorChanged c) (c_Mode c) prefix (c_V1ProtocolOverride c) (c_BucketSize c) (c_Concurrency c) (c_Resiliency c) (c_MaxRecordAge c) (c_EnableProviders c) (c_EnableValues c) (c_ProviderStore c) (c_QueryPeerFilter c) (c_LookupCheckConcurrency c) (c_MsgSenderBuilder c) (c_RoutingTable c) (c_BootstrapPeers c) (c_AddressFilter c) (c_OnRequestHook c) (c_DisableFixLowPeers c) (c_TestAddressUpdateProcessing c) (c_EnableOptimisticProvide c) (c_OptimisticProvideJobsPoolSize c)).

Definition ProtocolExtension (ext : string) : Option := λ c, mret (mkCfg (c_Datastore c) (c_Validator c) (c_ValidatorChanged c) (c_Mode c) (c_ProtocolPrefix c +:+ ext) (c_V1ProtocolOverride c) (c_BucketSize c) (c_Concurrency c) (c_Resiliency c) (c_MaxRecordAge c) (c_EnableProviders c) (c_EnableValues c) (c_ProviderStore c) (c_QueryPeerFilter c) (c_LookupCheckConcurrency c) (c_MsgSenderBuilder c) (c_RoutingTable c) (c_BootstrapPeers c) (c_AddressFilter c) (c_OnRequestHook c) (c_DisableFixLowPeers c) (c_TestAddressUpdateProcessing c) (c_EnableOptimisticProvide c) (c_OptimisticProvideJobsPoolSize c)).

Definition V1ProtocolOverride (proto : string) : Option := λ c, mret (mkCfg (c_Datastore c) (c_Validator c) (c_ValidatorChanged c) (c_Mode c) (c_ProtocolPrefix c) proto (c_BucketSize c) (c_Concurrency c) (c_Resiliency c) (c_MaxRecordAge c) (c_EnableProviders c) (c_EnableValues c) (c_ProviderStore c) (c_QueryPeerFilter c) (c_LookupCheckConcurrency c) (c_MsgSenderBuilder c) (c_RoutingTable c) (c_BootstrapPeers c) (c_AddressFilter c) (c_OnRequestHook c) (c_DisableFixLowPeers c) (c_TestAddressUpdateProcessing c) (c_EnableOptimisticProvide c) (c_OptimisticProvideJobsPoolSize c)).

Definition BucketSize (bucketSize : Z) : Option := λ c, mret (mkCfg (c_Datastore c) (c_Validator c) (c_ValidatorChanged c) (c_Mode c) (c_ProtocolPrefix c) (c_V1ProtocolOverride c) bucketSize (c_Concurrency c) (c_Resiliency c) (c_MaxRecordAge c) (c_EnableProviders c) (c_EnableValues c) (c_ProviderStore c) (c_QueryPeerFilter c) (c_LookupCheckConcurrency c) (c_MsgSenderBuilder c) (c_RoutingTable c) (c_BootstrapPeers c) (c_AddressFilter c) (c_OnRequestHook c) (c_DisableFixLowPeers c) (c_TestAddressUpdateProcessing c) (c_EnableOptimisticProvide c) (c_OptimisticProvideJobsPoolSize c)).

Definition Concurrency (alpha : Z) : Option := λ c, mret (mkCfg (c_Datastore c) (c_Validator c) (c_ValidatorChanged c) (c_Mode c) (c_ProtocolPrefix c) (c_V1ProtocolOverride c) (c_BucketSize c) alpha (c_Resiliency c) (c_MaxRecordAge c) (c_EnableProviders c) (c_EnableValues c) (c_ProviderStore c) (c_QueryPeerFilter c) (c_LookupCheckConcurrency c) (c_MsgSenderBuilder c) (c_RoutingTable c) (c_BootstrapPeers c) (c_AddressFilter c) (c_OnRequestHook c) (c_DisableFixLowPeers c) (c_TestAddressUpdateProcessing c) (c_EnableOptimisticProvide c) (c_OptimisticProvideJobsPoolSize c)).

Definition Resiliency (beta : Z) : Option := λ c, mret (mkCfg (c_Datastore c) (c_Validator c) (c_ValidatorChanged c) (c_Mode c) (c_ProtocolPrefix c) (c_V1ProtocolOverride c) (c_BucketSize c) (c_Concurrency c) beta (c_MaxRecordAge c) (c_EnableProviders c) (c_EnableValues c) (c_ProviderStore c) (c_QueryPeerFilter c) (c_LookupCheckConcurrency c) (c_MsgSenderBuilder c) (c_RoutingTable c) (c_BootstrapPeers c) (c_AddressFilter c) (c_OnRequestHook c) (c_DisableFixLowPeers c) (c_TestAddressUpdateProcessing c) (c_EnableOptimisticProvide c) (c_OptimisticProvideJobsPoolSize c)).

Definition LookupCheckConcurrency (n : Z) : Option := λ c, mret (mkCfg (c_Datastore c) (c_Validator c) (c_ValidatorChanged c) (c_Mode c) (c_ProtocolPrefix c) (c_V1ProtocolOverride c) (c_BucketSize c) (c_Concurrency c) (c_Resiliency c) (c_MaxRecordAge c) (c_EnableProviders c) (c_EnableValues c) (c_ProviderStore c) (c_QueryPeerFilter c) n (c_MsgSenderBuilder c) (c_RoutingTable c) (c_BootstrapPeers c) (c_AddressFilter c) (c_OnRequestHook c) (c_DisableFixLowPeers c) (c_TestAddressUpdateProcessing c) (c_EnableOptimisticProvide c) (c_OptimisticProvideJobsPoolSize c)).

Definition MaxRecordAge (maxAge : Z) : Option := λ c, mret (mkCfg (c_Datastore c) (c_Validator c) (c_ValidatorChanged c) (c_Mode c) (c_ProtocolPrefix c) (c_V1ProtocolOverride c) (c_BucketSize c) (c_Concurrency c) (c_Resiliency c) maxAge (c_EnableProviders c) (c_EnableValues c) (c_ProviderStore c) (c_QueryPeerFilter c) (c_LookupCheckConcurrency c) (c_MsgSenderBuilder c) (c_RoutingTable c) (c_BootstrapPeers c) (c_AddressFilter c) (c_OnRequestHook c) (c_DisableFixLowPeers c) (c_TestAddressUpdateProcessing c) (c_EnableOptimisticProvide c) (c_OptimisticProvideJobsPoolSize c)).

Definition DisableAutoRefresh : Option := λ c, mret (mkCfg (c_Datastore c) (c_Validator c) (c_ValidatorChanged c) (c_Mode c) (c_ProtocolPrefix c) (c_V1ProtocolOverride c) (c_BucketSize c) (c_Concurrency c) (c_Resiliency c) (c_MaxRecordAge c) (c_EnableProviders c) (c_EnableValues c) (c_ProviderStore c) (c_QueryPeerFilter c) (c_LookupCheckConcurrency c) (c_MsgSenderBuilder c) (mkRtCfg (rt_RefreshQueryTimeout (c_RoutingTable c)) (rt_RefreshInterval (c_RoutingTable c)) false (rt_LatencyTolerance (c_RoutingTable c)) (rt_CheckInterval (c_RoutingTable c)) (rt_PeerFilter (c_RoutingTable c)) (rt_DiversityFilter (c_RoutingTable c))) (c_BootstrapPeers c) (c_AddressFilter c) (c_OnRequestHook c) (c_DisableFixLowPeers c) (c_TestAddressUpdateProcessing c) (c_EnableOptimisticProvide c) (c_OptimisticProvideJobsPoolSize c)).

Definition DisableProviders : Option := λ c, mret (mkCfg (c_Datastore c) (c_Validator c) (c_ValidatorChanged c) (c_Mode c) (c_ProtocolPrefix c) (c_V1ProtocolOverride c) (c_BucketSize c) (c_Concurrency c) (c_Resiliency c) (c_MaxRecordAge c) false (c_EnableValues c) (c_ProviderStore c) (c_QueryPeerFilter c) (c_LookupCheckConcurrency c) (c_MsgSenderBuilder c) (c_RoutingTable c) (c_BootstrapPeers c) (c_AddressFilter c) (c_OnRequestHook c) (c_DisableFixLowPeers c) (c_TestAddressUpdateProcessing c) (c_EnableOptimisticProvide c) (c_OptimisticProvideJobsPoolSize c)).

Definition DisableValues : Option := λ c, mret (mkCfg (c_Datastore c) (c_Validator c) (c_ValidatorChanged c) (c_Mode c) (c_ProtocolPrefix c) (c_V1ProtocolOverride c) (c_BucketSize c) (c_Concurrency c) (c_Resiliency c) (c_MaxRecordAge c) (c_EnableProviders c) false (c_ProviderStore c) (c_QueryPeerFilter c) (c_LookupCheckConcurrency c) (c_MsgSenderBuilder c) (c_RoutingTable c) (c_BootstrapPeers c) (c_AddressFilter c) (c_OnRequestHook c) (c_DisableFixLowPeers c) (c_TestAddressUpdateProcessing c) (c_EnableOptimisticProvide c) (c_OptimisticProvideJobsPoolSize c)).

Definition QueryFilter (filter : option QueryFilterFunc) : Option := λ c, mret (mkCfg (c_Datastore c) (c_Validator c) (c_ValidatorChanged c) (c_Mode c) (c_ProtocolPrefix c) (c_V1ProtocolOverride c) (c_BucketSize c) (c_Concurrency c) (c_Resiliency c) (c_MaxRecordAge c) (c_EnableProviders c) (c_EnableValues c) (c_ProviderStore c) filter (c_LookupCheckConcurrency c) (c_MsgSenderBuilder c) (c_RoutingTable c) (c_BootstrapPeers c) (c_AddressFilter c) (c_OnRequestHook c) (c_DisableFixLowPeers c) (c_TestAddressUpdateProcessing c) (c_EnableOptimisticProvide c) (c_OptimisticProvideJobsPoolSize c)).

Definition RoutingTableFilter (filter : option RouteTableFilterFunc) : Option := λ c, mret (mkCfg (c_Datastore c) (c_Validator c) (c_ValidatorChanged c) (c_Mode c) (c_ProtocolPrefix c) (c_V1ProtocolOverride c) (c_BucketSize c) (c_Concurrency c) (c_Resiliency c) (c_MaxRecordAge c) (c_EnableProviders c) (c_EnableValues c) (c_ProviderStore c) (c_QueryPeerFilter c) (c_LookupCheckConcurrency c) (c_MsgSenderBuilder c) (mkRtCfg (rt_RefreshQueryTimeout (c_RoutingTable c)) (rt_RefreshInterval (c_RoutingTable c)) (rt_AutoRefresh (c_RoutingTable c)) (rt_LatencyTolerance (c_RoutingTable c)) (rt_CheckInterval (c_RoutingTable c)) filter (rt_DiversityFilter (c_RoutingTable c))) (c_BootstrapPeers c) (c_AddressFilter c) (c_OnRequestHook c) (c_DisableFixLowPeers c) (c_TestAddressUpdateProcessing c) (c_EnableOptimisticProvide c) (c_OptimisticProvideJobsPoolSize c)).

Definition BootstrapPeers (bootstrappers : list AI) : Option := λ c, mret (mkCfg (c_Datastore c) (c_Validator c) (c_ValidatorChanged c) (c_Mode c) (c_ProtocolPrefix c) (c_V1ProtocolOverride c) (c_BucketSize c) (c_Concurrency c) (c_Resiliency c) (c_MaxRecordAge c) (c_EnableProviders c) (c_EnableValues c) (c_ProviderStore c) (c_QueryPeerFilter c) (c_LookupCheckConcurrency c) (c_MsgSenderBuilder c) (c_RoutingTable c) (Some (ConstPeers bootstrappers)) (c_AddressFilter c) (c_OnRequestHook c) (c_DisableFixLowPeers c) (c_TestAddressUpdateProcessing c) (c_EnableOptimisticProvide c) (c_OptimisticProvideJobsPoolSize c)).

Definition BootstrapPeersFunc (getBootstrapPeers : option Obj) : Option := λ c, mret (mkCfg (c_Datastore c) (c_Validator c) (c_ValidatorChanged c) (c_Mode c) (c_ProtocolPrefix c) (c_V1ProtocolOverride c) (c_BucketSize c) (c_Concurrency c) (c_Resiliency c) (c_MaxRecordAge c) (c_EnableProviders c) (c_EnableValues c) (c_ProviderStore c) (c_QueryPeerFilter c) (c_LookupCheckConcurrency c) (c_MsgSenderBuilder c) (c_RoutingTable c) (FuncPeers <$> getBootstrapPeers) (c_AddressFilter c) (c_OnRequestHook c) (c_DisableFixLowPeers c) (c_TestAddressUpdateProcessing c) (c_EnableOptimisticProvide c) (c_OptimisticProvideJobsPoolSize c)).

Definition RoutingTablePeerDiversityFilter (pg : option Obj) : Option := λ c, mret (mkCfg (c_Datastore c) (c_Validator c) (c_ValidatorChanged c) (c_Mode c) (c_ProtocolPrefix c) (c_V1ProtocolOverride c) (c_BucketSize c) (c_Concurrency c) (c_Resiliency c) (c_MaxRecordAge c) (c_EnableProviders c) (c_EnableValues c) (c_ProviderStore c) (c_QueryPeerFilter c) (c_LookupCheckConcurrency c) (c_MsgSenderBuilder c) (mkRtCfg (rt_RefreshQueryTimeout (c_RoutingTable c)) (rt_RefreshInterval (c_RoutingTable c)) (rt_AutoRefresh (c_RoutingTable c)) (rt_LatencyTolerance (c_RoutingTable c)) (rt_CheckInterval (c_RoutingTable c)) (rt_PeerFilter (c_RoutingTable c)) pg) (c_BootstrapPeers c) (c_AddressFilter c) (c_OnRequestHook c) (c_DisableFixLowPeers c) (c_TestAddressUpdateProcessing c) (c_EnableOptimisticProvide c) (c_OptimisticProvideJobsPoolSize c)).

Definition disableFixLowPeersRoutine : Option := λ c, mret (mkCfg (c_Datastore c) (c_Validator c) (c_ValidatorChanged c) (c_Mode c) (c_ProtocolPrefix c) (c_V1ProtocolOverride c) (c_BucketSize c) (c_Concurrency c) (c_Resiliency c) (c_MaxRecordAge c) (c_EnableProviders c) (c_EnableValues c) (c_ProviderStore c) (c_QueryPeerFilter c) (c_LookupCheckConcurrency c) (c_MsgSenderBuilder c) (c_RoutingTable c) (c_BootstrapPeers c) (c_AddressFilter c) (c_OnRequestHook c) true (c_TestAddressUpdateProcessing c) (c_EnableOptimisticProvide c) (c_OptimisticProvideJobsPoolSize c)).

Definition forceAddressUpdateProcessing : Option := λ c, mret (mkCfg (c_Datastore c) (c_Validator c) (c_ValidatorChanged c) (c_Mode c) (c_ProtocolPrefix c) (c_V1ProtocolOverride c) (c_BucketSize c) (c_Concurrency c) (c_Resiliency c) (c_MaxRecordAge c) (c_EnableProviders c) (c_EnableValues c) (c_ProviderStore c) (c_QueryPeerFilter c) (c_LookupCheckConcurrency c) (c_MsgSenderBuilder c) (c_RoutingTable c) (c_BootstrapPeers c) (c_AddressFilter c) (c_OnRequestHook c) (c_DisableFixLowPeers c) true (c_EnableOptimisticProvide c) (c_OptimisticProvideJobsPoolSize c)).

Definition EnableOptimisticProvide : Option := λ c, mret (mkCfg (c_Datastore c) (c_Validator c) (c_ValidatorChanged c) (c_Mode c) (c_ProtocolPrefix c) (c_V1ProtocolOverride c) (c_BucketSize c) (c_Concurrency c) (c_Resiliency c) (c_MaxRecordAge c) (c_EnableProviders c) (c_EnableValues c) (c_ProviderStore c) (c_QueryPeerFilter c) (c_LookupCheckConcurrency c) (c_MsgSenderBuilder c) (c_RoutingTable c) (c_BootstrapPeers c) (c_AddressFilter c) (c_OnRequestHook c) (c_DisableFixLowPeers c) (c_TestAddressUpdateProcessing c) true (c_OptimisticProvideJobsPoolSize c)).

Definition OptimisticProvideJobsPoolSize (size : Z) : Option := λ c, mret (mkCfg (c_Datastore c) (c_Validator c) (c_ValidatorChanged c) (c_Mode c) (c_ProtocolPrefix c) (c_V1ProtocolOverride c) (c_BucketSize c) (c_Concurrency c) (c_Resiliency c) (c_MaxRecordAge c) (c_EnableProviders c) (c_EnableValues c) (c_ProviderStore c) (c_QueryPeerFilter c) (c_LookupCheckConcurrency c) (c_MsgSenderBuilder c) (c_RoutingTable c) (c_BootstrapPeers c) (c_AddressFilter c) (c_OnRequestHook c) (c_DisableFixLowPeers c) (c_TestAddressUpdateProcessing c) (c_EnableOptimisticProvide c) size).

Definition AddressFilter (f : option Obj) : Option := λ c, mret (mkCfg (c_Datastore c) (c_Validator c) (c_ValidatorChanged c) (c_Mode c) (c_ProtocolPrefix c) (c_V1ProtocolOverride c) (c_BucketSize c) (c_Concurrency c) (c_Resiliency c) (c_MaxRecordAge c) (c_EnableProviders c) (c_EnableValues c) (c_ProviderStore c) (c_QueryPeerFilter c) (c_LookupCheckConcurrency c) (c_MsgSenderBuilder c) (c_RoutingTable c) (c_BootstrapPeers c) f (c_OnRequestHook c) (c_DisableFixLowPeers c) (c_TestAddressUpdateProcessing c) (c_EnableOptimisticProvide c) (c_OptimisticProvideJobsPoolSize c)).

Definition WithCustomMessageSender (messageSenderBuilder : option Obj) : Option := λ c, mret (mkCfg (c_Datastore c) (c_Validator c) (c_ValidatorChanged c) (c_Mode c) (c_ProtocolPrefix c) (c_V1ProtocolOverride c) (c_BucketSize c) (c_Concurrency c) (c_Resiliency c) (c_MaxRecordAge c) (c_EnableProviders c) (c_EnableValues c) (c_ProviderStore c) (c_QueryPeerFilter c) (c_LookupCheckConcurrency c) messageSenderBuilder (c_RoutingTable c) (c_BootstrapPeers c) (c_AddressFilter c) (c_OnRequestHook c) (c_DisableFixLowPeers c) (c_TestAddressUpdateProcessing c) (c_EnableOptimisticProvide c) (c_OptimisticProvideJobsPoolSize c)).

Definition OnRequestHook (f : option Obj) : Option := λ c, mret (mkCfg (c_Datastore c) (c_Validator c) (c_ValidatorChanged c) (c_Mode c) (c_ProtocolPrefix c) (c_V1ProtocolOverride c) (c_BucketSize c) (c_Concurrency c) (c_Resiliency c) (c_MaxRecordAge c) (c_EnableProviders c) (c_EnableValues c) (c_ProviderStore c) (c_QueryPeerFilter c) (c_LookupCheckConcurrency c) (c_MsgSenderBuilder c) (c_RoutingTable c) (c_BootstrapPeers c) (c_AddressFilter c) f (c_DisableFixLowPeers c) (c_TestAddressUpdateProcessing c) (c_EnableOptimisticProvide c) (c_OptimisticProvideJobsPoolSize c)).

(** The option that [New] applies first. *)
Definition Defaults : Option := λ c,
  l ← newMap;
  mret (mkCfg (Some newMapDatastore) (Some (Namespaced (Some l))) (c_ValidatorChanged c) (c_Mode c) DefaultPrefix (c_V1ProtocolOverride c) DefaultBucketSize DefaultConcurrency DefaultResiliency ProvideValidity true true (c_ProviderStore c) (Some EmptyQueryFilter) 256 (Some NewMessageSenderImpl) (mkRtCfg (10 * Second) (10 * Minute) true (10 * Second) (rt_CheckInterval (c_RoutingTable c)) (Some EmptyRTFilter) (rt_DiversityFilter (c_RoutingTable c))) (c_BootstrapPeers c) (c_AddressFilter c) (c_OnRequestHook c) (c_DisableFixLowPeers c) (c_TestAddressUpdateProcessing c) (c_EnableOptimisticProvide c) 60).

(** The zero [Config]. *)
Definition zeroConfig : Config :=
  mkCfg None None false 0 EmptyString EmptyString 0 0 0 0 false false None None 0 None (mkRtCfg 0 0 false 0 0 None None) None None None false false false 0.

(** [Apply]: the number of the option that fails is part of the error. *)
Fixpoint applyFrom (i : nat) (opts : list Option) (c : Config) : cfgM Config :=
  match opts with
  | [] => mret c
  | opt :: opts => λ h,
      match opt c h with
      | (Ok c, h) => applyFrom (S i) opts c h
      | (Err e, h) => (Err (ErrOption i e), h)
      | (Panic, h) => (Panic, h)
      end
  end.
Definition Apply (c : Config) (opts : list Option) : cfgM Config := applyFrom 0 opts c.

(** [ApplyFallbacks]; [peerstore] is the key book of the host. *)
Definition ApplyFallbacks (peerstore : Obj) (c : Config) : cfgM () :=
  if c_ValidatorChanged c then mret tt
  else
    match c_Validator c with
    | Some (Namespaced m) =>
        nsval ← getMap m;
        match nsval !! "pk" with Some _ => mret tt | None => mapAssign m "pk" (Some PublicKeyValidator) end ;;
        nsval ← getMap m;
        match nsval !! "ipns" with Some _ => mret tt | None => mapAssign m "ipns" (Some (IpnsValidator peerstore)) end
    | _ => throw ErrNotMarkedChanged
    end.

(** [Validate] *)
Definition Validate (c : Config) : cfgM () :=
  if decide (c_ProtocolPrefix c ≠ DefaultPrefix) then mret tt
  else if decide (c_BucketSize c ≠ DefaultBucketSize) then throw ErrBucketSize
  else if negb (c_EnableProviders c) then throw ErrProviders
  else if negb (c_EnableValues c) then throw ErrValues
  else
    match c_Validator c with
    | Some (Namespaced m) =>
        nsval ← getMap m;
        if decide (size nsval ≠ 2%nat) then throw ErrTwoValidators
        else
          match nsval !! "pk" with
          | None => throw ErrPkMissing
          | Some (Some PublicKeyValidator) =>
              match nsval !! "ipns" with
              | None => throw ErrIpnsMissing
              | Some (Some (IpnsValidator _)) => mret tt
              | Some _ => throw ErrIpnsType
              end
          | Some _ => throw ErrPkType
          end
    | _ => throw ErrMustBeNamespaced
    end.

(** The first part of [New]: the configuration. *)
Definition getConfig (peerstore : Obj) (options : list Option) : cfgM Config :=
  cfg ← Apply zeroConfig (Defaults :: options);
  ApplyFallbacks peerstore cfg ;;
  Validate cfg ;;
  mret cfg.

(** ** What the options ask for *)

(** The options of [dht_options.go] with their arguments. *)
Inductive dhtOption :=
| O_ProviderStore (ps : option Obj)
| O_RoutingTableLatencyTolerance (latency : Z)
| O_RoutingTableRefreshQueryTimeout (timeout : Z)
| O_RoutingTableRefreshPeriod (period : Z)
| O_Datastore (ds : option Obj)
| O_Mode (m : Z)
| O_Validator (v : option validator)
| O_NamespacedValidator (ns : string) (v : option validator)
| O_ProtocolPrefix (prefix : string)
| O_ProtocolExtension (ext : string)
| O_V1ProtocolOverride (proto : string)
| O_BucketSize (bucketSize : Z)
| O_Concurrency (alpha : Z)
| O_Resiliency (beta : Z)
| O_LookupCheckConcurrency (n : Z)
| O_MaxRecordAge (maxAge : Z)
| O_DisableAutoRefresh
| O_DisableProviders
| O_DisableValues
| O_QueryFilter (filter : option QueryFilterFunc)
| O_RoutingTableFilter (filter : option RouteTableFilterFunc)
| O_BootstrapPeers (bootstrappers : list AI)
| O_BootstrapPeersFunc (getBootstrapPeers : option Obj)
| O_RoutingTablePeerDiversityFilter (pg : option Obj)
| O_disableFixLowPeersRoutine
| O_forceAddressUpdateProcessing
| O_EnableOptimisticProvide
| O_OptimisticProvideJobsPoolSize (size : Z)
| O_AddressFilter (f : option Obj)
| O_WithCustomMessageSender (messageSenderBuilder : option Obj)
| O_OnRequestHook (f : option Obj).

Definition denote (o : dhtOption) : Option :=
  match o with
  | O_ProviderStore ps => ProviderStore ps
  | O_RoutingTableLatencyTolerance latency => RoutingTableLatencyTolerance latency
  | O_RoutingTableRefreshQueryTimeout timeout => RoutingTableRefreshQueryTimeout timeout
  | O_RoutingTableRefreshPeriod period => RoutingTableRefreshPeriod period
  | O_Datastore ds => Datastore ds
  | O_Mode m => Mode m
  | O_Validator v => Validator v
  | O_NamespacedValidator ns v => NamespacedValidator ns v
  | O_ProtocolPrefix prefix => ProtocolPrefix prefix
  | O_ProtocolExtension ext => ProtocolExtension ext
  | O_V1ProtocolOverride proto => V1ProtocolOverride proto
  | O_BucketSize bucketSize => BucketSize bucketSize
  | O_Concurrency alpha => Concurrency alpha
  | O_Resiliency beta => Resiliency beta
  | O_LookupCheckConcurrency n => LookupCheckConcurrency n
  | O_MaxRecordAge maxAge => MaxRecordAge maxAge
  | O_DisableAutoRefresh => DisableAutoRefresh
  | O_DisableProviders => DisableProviders
  | O_DisableValues => DisableValues
  | O_QueryFilter filter => QueryFilter filter
  | O_RoutingTableFilter filter => RoutingTableFilter filter
  | O_BootstrapPeers bootstrappers => BootstrapPeers bootstrappers
  | O_BootstrapPeersFunc getBootstrapPeers => BootstrapPeersFunc getBootstrapPeers
  | O_RoutingTablePeerDiversityFilter pg => RoutingTablePeerDiversityFilter pg
  | O_disableFixLowPeersRoutine => disableFixLowPeersRoutine
  | O_forceAddressUpdateProcessing => forceAddressUpdateProcessing
  | O_EnableOptimisticProvide => EnableOptimisticProvide
  | O_OptimisticProvideJobsPoolSize size => OptimisticProvideJobsPoolSize size
  | O_AddressFilter f => AddressFilter f
  | O_WithCustomMessageSender messageSenderBuilder => WithCustomMessageSender messageSenderBuilder
  | O_OnRequestHook f => OnRequestHook f
  end.

(** The value of the last option that sets it, or the default. *)
Definition lastOf {A} (f : dhtOption → option A) (d : A) (opts : list dhtOption) : A := foldl (λ a o, default a (f o)) d opts.

Definition prefixStep (p : string) (o : dhtOption) : string :=
  match o with O_ProtocolPrefix q => q | O_ProtocolExtension e => p +:+ e | _ => p end.
Definition prefixOf (opts : list dhtOption) : string := foldl prefixStep DefaultPrefix opts.
Definition overrideOf : list dhtOption → string := lastOf (λ o, match o with O_V1ProtocolOverride p => Some p | _ => None end) EmptyString.
Definition bucketSizeOf : list dhtOption → Z := lastOf (λ o, match o with O_BucketSize k => Some k | _ => None end) 20.
Definition alphaOf : list dhtOption → Z := lastOf (λ o, match o with O_Concurrency k => Some k | _ => None end) 10.
Definition betaOf : list dhtOption → Z := lastOf (λ o, match o with O_Resiliency k => Some k | _ => None end) 3.
Definition lookupChecksOf : list dhtOption → Z := lastOf (λ o, match o with O_LookupCheckConcurrency k => Some k | _ => None end) 256.
Definition modeOf : list dhtOption → Z := lastOf (λ o, match o with O_Mode m => Some m | _ => None end) 0.
Definition maxRecordAgeOf : list dhtOption → Z := lastOf (λ o, match o with O_MaxRecordAge a => Some a | _ => None end) (48 * Hour).

Definition queryFilterOf : list dhtOption → option QueryFilterFunc :=
  lastOf (λ o, match o with O_QueryFilter f => Some f | _ => None end) (Some EmptyQueryFilter).
Definition rtFilterOf : list dhtOption → option RouteTableFilterFunc :=
  lastOf (λ o, match o with O_RoutingTableFilter f => Some f | _ => None end) (Some EmptyRTFilter).
Definition addressFilterOf : list dhtOption → option Obj := lastOf (λ o, match o with O_AddressFilter f => Some f | _ => None end) None.

(** The protocol of the node. *)
Definition protocolOf (opts : list dhtOption) : string :=
  if decide (overrideOf opts = EmptyString) then prefixOf opts +:+ "/kad/1.0.0" else overrideOf opts.

(** The configuration is the one that the options ask for. *)
Record asksFor (opts : list dhtOption) (c : Config) : Prop := {
  af_prefix : c_ProtocolPrefix c = prefixOf opts;
  af_override : c_V1ProtocolOverride c = overrideOf opts;
  af_bucketSize : c_BucketSize c = bucketSizeOf opts;
  af_alpha : c_Concurrency c = alphaOf opts;
  af_beta : c_Resiliency c = betaOf opts;
  af_lookupChecks : c_LookupCheckConcurrency c = lookupChecksOf opts;
  af_mode : c_Mode c = modeOf opts;
  af_maxRecordAge : c_MaxRecordAge c = maxRecordAgeOf opts;
  af_queryFilter : c_QueryPeerFilter c = queryFilterOf opts;
  af_rtFilter : rt_PeerFilter (c_RoutingTable c) = rtFilterOf opts;
  af_addressFilter : c_AddressFilter c = addressFilterOf opts;
  af_providers : c_EnableProviders c = true ↔ O_DisableProviders ∉ opts;
  af_values : c_EnableValues c = true ↔ O_DisableValues ∉ opts;
  af_refresh : rt_AutoRefresh (c_RoutingTable c) = true ↔ O_DisableAutoRefresh ∉ opts;
}.

(** The namespaces that the options ask for, and those that [New] adds. *)
Definition nsStep (m : gmap string (option validator)) (o : dhtOption) : gmap string (option validator) :=
  match o with O_NamespacedValidator ns v => <[ns := v]> m | _ => m end.
Definition namespacesOf (opts : list dhtOption) : gmap string (option validator) := foldl nsStep ∅ opts.

Definition aminoValidators (keyBook : Obj) : gmap string (option validator) :=
  <["pk" := Some PublicKeyValidator]> {["ipns" := Some (IpnsValidator keyBook)]}.

(** What an Amino node must use. *)
Definition aminoOk (opts : list dhtOption) (validators : gmap string (option validator)) : Prop :=
  bucketSizeOf opts = 20 ∧ O_DisableProviders ∉ opts ∧ O_DisableValues ∉ opts ∧ ∃ keyBook, validators = aminoValidators keyBook.

Definition isValidatorOption (o : dhtOption) : Prop := match o with O_Validator _ => True | _ => False end.

(** ** Proofs *)

(** A field of the configuration that every option changes by [step]. *)
Lemma applyFrom_field {A} (proj : Config → A) (step : A → dhtOption → A) :
  (∀ o c h c' h', denote o c h = (Ok c', h') → proj c' = step (proj c) o) →
  ∀ opts i c h c' h', applyFrom i (denote <$> opts) c h = (Ok c', h') → proj c' = foldl step (proj c) opts.
Proof.
  intros Hstep opts. induction opts as [|o opts IH]; intros i c h c' h' Ha; cbn in Ha.
  - by injection Ha as <- _.
  - destruct (denote o c h) as [[c1|e|] h1] eqn:Ho; try done. cbn. rewrite <-(Hstep _ _ _ _ _ Ho). by eapply IH.
Qed.

(** Options other than [NamespacedValidator] do not touch the heap. *)
Lemma denote_ok o c h c' h' :
  denote o c h = (Ok c', h') → (∃ ns v m h1, o = O_NamespacedValidator ns v ∧ c_Validator c = Some (Namespaced m) ∧ mapAssign m ns v h = (Ok tt, h1) ∧ c' = c ∧ h' = h1) ∨ h' = h.
Proof.
  destruct o as [| | | | | | |ns v| | | | | | | | | | | | | | | | | | | | | | |]; try (intros [= _ <-]; by right). cbn. unfold NamespacedValidator.
  destruct (c_Validator c) as [[| |m|]|]; try done. unfold mbind, cfgM_bind. destruct (mapAssign m ns v h) as [[[]|e|] h1] eqn:Hm; try done.
  intros [= <- <-]. left. by exists ns, v, m, h1.
Qed.

(** Case analysis on an option that succeeded. *)
Ltac option_cases :=
  intros o c h c' h' Ho;
  destruct (denote_ok _ _ _ _ _ Ho) as [(ns & v & m & h1 & -> & _ & _ & -> & _)| ->]; [done|];
  destruct o; try (injection Ho as <-; done);
  cbn in Ho; unfold NamespacedValidator in Ho; destruct (c_Validator c) as [[| |m|]|]; try done;
  unfold mbind, cfgM_bind in Ho; destruct (mapAssign _ _ _ h) as [[[]|e|] h1]; try done; by injection Ho as <- _.

(** A flag that one option turns off. *)
Definition flagStep (off : dhtOption → bool) (b : bool) (o : dhtOption) : bool := if off o then false else b.
Lemma flagStep_false off opts : foldl (flagStep off) false opts = false.
Proof. induction opts as [|o opts IH]; [done|]. cbn. unfold flagStep at 2. by destruct (off o). Qed.
Lemma flagStep_spec off x opts :
  (∀ o, off o = true ↔ o = x) → foldl (flagStep off) true opts = true ↔ x ∉ opts.
Proof.
  intros Hoff. induction opts as [|o opts IH]; cbn [foldl].
  - split; [intros _ []%elem_of_nil|done].
  - change (flagStep off true o) with (if off o then false else true). destruct (off o) eqn:Ho.
    + rewrite flagStep_false. apply Hoff in Ho as ->. split; [done|]. intros Hx. destruct Hx. by left.
    + rewrite IH, not_elem_of_cons. assert (o ≠ x) by (intros Hx%Hoff; congruence). naive_solver.
Qed.

Lemma applyFrom_last {A} (proj : Config → A) (f : dhtOption → option A) d opts i c h c' h' :
  (∀ o c h c' h', denote o c h = (Ok c', h') → proj c' = default (proj c) (f o)) →
  proj c = d → applyFrom i (denote <$> opts) c h = (Ok c', h') → proj c' = lastOf f d opts.
Proof. intros Hstep <- Ha. exact (applyFrom_field proj _ Hstep _ _ _ _ _ _ Ha). Qed.

Lemma applyFrom_flag (proj : Config → bool) (off : dhtOption → bool) x opts i c h c' h' :
  (∀ o c h c' h', denote o c h = (Ok c', h') → proj c' = flagStep off (proj c) o) → (∀ o, off o = true ↔ o = x) →
  proj c = true → applyFrom i (denote <$> opts) c h = (Ok c', h') → proj c' = true ↔ x ∉ opts.
Proof. intros Hstep Hoff Hc Ha. rewrite (applyFrom_field proj _ Hstep _ _ _ _ _ _ Ha), Hc. by apply flagStep_spec. Qed.

Lemma applyFrom_asksFor opts i c h c' h' :
  applyFrom i (denote <$> opts) c h = (Ok c', h') → asksFor [] c → asksFor opts c'.
Proof.
  intros Ha []. split; unfold prefixOf;
    try (eapply applyFrom_last; [clear; option_cases|done|exact Ha]);
    try (eapply (applyFrom_last (λ c, rt_PeerFilter (c_RoutingTable c))); [clear; option_cases|done|exact Ha]).
  - rewrite (applyFrom_field c_ProtocolPrefix prefixStep) with (h := h) (h' := h') (c := c) (i := i) (opts := opts); [by rewrite af_prefix0|clear; option_cases|done].
  - eapply (applyFrom_flag c_EnableProviders (λ o, match o with O_DisableProviders => true | _ => false end));
      [clear; option_cases|by intros []|apply af_providers0, not_elem_of_nil|exact Ha].
  - eapply (applyFrom_flag c_EnableValues (λ o, match o with O_DisableValues => true | _ => false end));
      [clear; option_cases|by intros []|apply af_values0, not_elem_of_nil|exact Ha].
  - eapply (applyFrom_flag (λ c, rt_AutoRefresh (c_RoutingTable c)) (λ o, match o with O_DisableAutoRefresh => true | _ => false end));
      [clear; option_cases|by intros []|apply af_refresh0, not_elem_of_nil|exact Ha].
Qed.

(** Options that leave the validator alone write only to its map. *)
Lemma applyFrom_namespaces opts i c h l m :
  Forall (λ o, ¬ isValidatorOption o) opts → c_Validator c = Some (Namespaced (Some l)) → h_maps h !! l = Some m →
  ∃ c', applyFrom i (denote <$> opts) c h = (Ok c', mkHeap (h_next h) (<[l := foldl nsStep m opts]> (h_maps h))) ∧
    c_Validator c' = Some (Namespaced (Some l)) ∧ c_ValidatorChanged c' = c_ValidatorChanged c.
Proof.
  intros Hopts. revert i c h m. induction Hopts as [|o opts Ho _ IH]; intros i c h m Hc Hm; cbn [fmap list_fmap applyFrom foldl].
  - exists c. rewrite insert_id by done. by destruct h.
  - assert (∃ c1, denote o c h = (Ok c1, mkHeap (h_next h) (<[l := nsStep m o]> (h_maps h))) ∧
      c_Validator c1 = Some (Namespaced (Some l)) ∧ c_ValidatorChanged c1 = c_ValidatorChanged c) as (c1 & -> & Hv & <-).
    { destruct o as [| | | | | | |ns v| | | | | | | | | | | | | | | | | | | | | | |];
        try (by destruct Ho); try (eexists; cbn [nsStep]; rewrite insert_id by done; destruct h; split; [reflexivity|done]).
      exists c. cbn. unfold NamespacedValidator. rewrite Hc. unfold mbind, cfgM_bind, mapAssign. by rewrite Hm. }
    destruct (IH (S i) c1 (mkHeap (h_next h) (<[l := nsStep m o]> (h_maps h))) (nsStep m o)) as (c' & Ha & Hv' & Hch); [done|apply lookup_insert_eq|].
    exists c'. rewrite Ha. cbn. by rewrite insert_insert_eq.
Qed.

Lemma ApplyFallbacks_namespaces ks c h l m :
  c_Validator c = Some (Namespaced (Some l)) → c_ValidatorChanged c = false → h_maps h !! l = Some m →
  ApplyFallbacks ks c h = (Ok tt, mkHeap (h_next h) (<[l := m ∪ aminoValidators ks]> (h_maps h))).
Proof.
  intros Hc Hch Hm. unfold ApplyFallbacks. rewrite Hch, Hc. unfold mbind, cfgM_bind, getMap. cbn. rewrite Hm. cbn.
  assert (m ∪ aminoValidators ks =
    (if m !! "ipns" then λ m, m else <["ipns" := Some (IpnsValidator ks)]>) ((if m !! "pk" then λ m, m else <["pk" := Some PublicKeyValidator]>) m)) as ->.
  { apply map_eq. intros k. rewrite lookup_union. unfold aminoValidators.
    destruct (decide (k = "ipns")) as [->|Hi]; [|destruct (decide (k = "pk")) as [->|Hp]].
    - rewrite lookup_insert_ne, lookup_singleton_eq by done. destruct (m !! "ipns") as [x|] eqn:Ei; destruct (m !! "pk") as [y|] eqn:Ep; simplify_map_eq; done.
    - rewrite lookup_insert_eq. destruct (m !! "ipns") as [x|] eqn:Ei; destruct (m !! "pk") as [y|] eqn:Ep; simplify_map_eq; done.
    - rewrite lookup_insert_ne, lookup_singleton_ne by done. destruct (m !! "ipns") as [x|] eqn:Ei; destruct (m !! "pk") as [y|] eqn:Ep; simplify_map_eq; by destruct (m !! k). }
  destruct (m !! "pk") as [y|] eqn:Ep; cbn; rewrite ?lookup_insert_eq, ?Hm; cbn; rewrite ?lookup_insert_ne by done;
    destruct (m !! "ipns") as [x|] eqn:Ei; cbn; rewrite ?insert_insert_eq, ?lookup_insert_eq; cbn; try done; try (rewrite Hm; done).
  rewrite insert_id by done. by destruct h.
Qed.

(** Two namespaces, of which these are the values. *)
Lemma two_namespaces (m : gmap string (option validator)) x y :
  size m = 2%nat → m !! "pk" = Some x → m !! "ipns" = Some y → m = <["pk" := x]> {["ipns" := y]}.
Proof.
  intros Hs Hp Hi. symmetry. apply map_subseteq_size_eq.
  - apply insert_subseteq_l; [done|]. by apply map_singleton_subseteq_l.
  - rewrite Hs, map_size_insert_None by done. by rewrite map_size_singleton.
Qed.

(** The contents of a namespaced validator. *)
Definition mapAt (h : heap) (m : option N) : gmap string (option validator) :=
  match m with Some l => default ∅ (h_maps h !! l) | None => ∅ end.

Definition validConfig (c : Config) (h : heap) : Prop :=
  c_BucketSize c = 20 ∧ c_EnableProviders c = true ∧ c_EnableValues c = true ∧
  ∃ m keyBook, c_Validator c = Some (Namespaced m) ∧ mapAt h m = aminoValidators keyBook.

Lemma Validate_spec c h :
  (Validate c h = (Ok tt, h) ∧ (c_ProtocolPrefix c = DefaultPrefix → validConfig c h)) ∨
  (∃ e, Validate c h = (Err e, h) ∧ c_ProtocolPrefix c = DefaultPrefix ∧ ¬ validConfig c h).
Proof.
  unfold Validate, validConfig. case_decide as Hp; [by left|].
  case_decide as Hb; [right; eexists; split; [done|]; split; [done|]; intros (? & _); done|].
  destruct (c_EnableProviders c); [|right; eexists; split; [done|]; split; [done|]; intros (_ & ? & _); done].
  destruct (c_EnableValues c); [|right; eexists; split; [done|]; split; [done|]; intros (_ & _ & ? & _); done]. cbn [negb].
  destruct (c_Validator c) as [[| |m|]|]; try (right; eexists; split; [done|]; split; [done|]; intros (_ & _ & _ & ? & ? & ? & _); done).
  unfold mbind, cfgM_bind, getMap. fold (mapAt h m).
  assert (∀ e, (∀ kb, mapAt h m ≠ aminoValidators kb) → ∃ e', (@Err () e, h) = (Err e', h) ∧ c_ProtocolPrefix c = DefaultPrefix ∧
    ¬ (c_BucketSize c = 20 ∧ true = true ∧ true = true ∧ ∃ m0 kb, Some (Namespaced m) = Some (Namespaced m0) ∧ mapAt h m0 = aminoValidators kb)) as Hno.
  { intros e Hne. exists e. split; [done|]. split; [done|]. intros (_ & _ & _ & m0 & kb & [= <-] & Hm). by eapply Hne. }
  case_decide as Hs; [right; apply Hno; intros kb Hm; rewrite Hm in Hs; destruct Hs; reflexivity|].
  destruct (mapAt h m !! "pk") as [x|] eqn:Ep; [|right; apply Hno; intros kb Hm; by rewrite Hm in Ep].
  destruct x as [[]|]; try (right; apply Hno; intros kb Hm; by rewrite Hm in Ep).
  destruct (mapAt h m !! "ipns") as [y|] eqn:Ei; [|right; apply Hno; intros kb Hm; by rewrite Hm in Ei].
  destruct y as [[|kb| |]|]; try (right; apply Hno; intros kb' Hm; by rewrite Hm in Ei).
  left. split; [done|]. intros _. split_and!; try done. exists m, kb. split; [done|]. by apply two_namespaces.
Qed.

Lemma Defaults_spec h : ∃ c, Defaults zeroConfig h = (Ok c, mkHeap (h_next h + 1) (<[h_next h := ∅]> (h_maps h))) ∧
  asksFor [] c ∧ c_Validator c = Some (Namespaced (Some (h_next h))) ∧ c_ValidatorChanged c = false.
Proof. eexists. split; [reflexivity|]. split; [|done]. split; try done; (split; [intros _; apply not_elem_of_nil|done]). Qed.


Lemma getConfig_ok ks opts h c h' :
  getConfig ks (denote <$> opts) h = (Ok c, h') → asksFor opts c ∧ (prefixOf opts = DefaultPrefix → validConfig c h').
Proof.
  unfold getConfig, Apply, mbind, cfgM_bind. cbn [applyFrom]. destruct (Defaults_spec h) as (c0 & -> & Hasks & _).
  destruct (applyFrom 1 (denote <$> opts) c0 _) as [[c1|e|] h1] eqn:Ha; try done. pose proof (applyFrom_asksFor _ _ _ _ _ _ Ha Hasks) as Hc.
  destruct (ApplyFallbacks ks c1 h1) as [[[]|e|] h2]; try done.
  destruct (Validate_spec c1 h2) as [[-> Hval]|(e & -> & _)]; [|done]. intros [= <- <-]. split; [done|]. by rewrite <-(af_prefix _ _ Hc).
Qed.

End config.

(** ** The constructor of a node *)

Section constructor.
Context {Obj AI : Type} (newMapDatastore NewMessageSenderImpl : Obj).
#[local] Notation Config := (@Config Obj AI).
#[local] Notation Option := (@Option Obj AI).
#[local] Notation cfgM := (@cfgM Obj).
#[local] Notation getConfig := (getConfig newMapDatastore NewMessageSenderImpl).
Context {NL : NodeLib}.
(** [peerdiversity.NewFilter], and [kb.NewRoutingTable] given the bucket size, the
    threshold for replacing peers and the filter; [None] is an error.  The
    threshold [l1 / l2 * interval] of [makeDHT], given the concurrency, the
    bucket size and the refresh interval. *)
Variables (NewFilter : Obj → option Obj) (NewRoutingTable : Z → Z → option Obj → option RT) (outboundThreshold : Z → Z → Z → Z).
(** A call of the message sender builder, and the node as an [interface{}]. *)
Variables (buildSender : Obj → list string → Obj) (selfDht : Obj).

(** The provider store of the caller, or a [records.ProviderManager] on a
    datastore: it is made without options, so that it cannot fail. *)
Inductive providerStore := CustomStore (o : Obj) | ManagerStore (ds : option Obj).

(** The fields of [IpfsDHT] that the constructor sets, with the state of [Node]. *)
Record IpfsDHT := mkDHT {
  d_datastore : option Obj;
  d_protocols : list string;
  d_serverProtocols : list string;
  d_bucketSize : Z;
  d_alpha : Z;
  d_beta : Z;
  d_lookupCheckCapacity : Z;
  d_queryPeerFilter : option (@QueryFilterFunc Obj AI);
  d_routingTablePeerFilter : option (@RouteTableFilterFunc Obj);
  d_addrFilter : option Obj;
  d_onRequestHook : option Obj;
  d_optProvJobsPool : option Z;
  d_routingTable : RT;
  d_bootstrapPeers : option (@bootstrapFn Obj AI);
  d_lookupCheckTimeout : Z;
  d_gracePeriod : Z;   (* of [rtRefreshManager] *)
  d_providerStore : providerStore;
}.

Definition kad1 : string := "/kad/1.0.0".

(** [makeRoutingTable] *)
Definition makeRoutingTable (c : Config) (maxLastSuccessfulOutboundThreshold : Z) : cfgM RT :=
  filter ← match rt_DiversityFilter (c_RoutingTable c) with
           | None => mret None
           | Some pg => match NewFilter pg with None => throw ErrDiversityFilter | Some df => mret (Some df) end
           end;
  match NewRoutingTable (c_BucketSize c) maxLastSuccessfulOutboundThreshold filter with
  | None => throw ErrRoutingTable
  | Some rt => mret rt
  end.

(** The protocol: the override, or the prefix with the suffix. *)
Definition nodeProtocol (c : Config) : string :=
  if decide (c_V1ProtocolOverride c = EmptyString) then c_ProtocolPrefix c +:+ kad1 else c_V1ProtocolOverride c.

(** [makeDHT]; a channel of negative capacity panics. *)
Definition makeDHT (c : Config) : cfgM IpfsDHT :=
  let v1proto := nodeProtocol c in
  let threshold :=
    if decide (c_Concurrency c < c_BucketSize c)%Z then outboundThreshold (c_Concurrency c) (c_BucketSize c) (rt_RefreshInterval (c_RoutingTable c))
    else rt_RefreshInterval (c_RoutingTable c) in
  rt ← makeRoutingTable c (wrap64 (2 * threshold));
  pool ← if c_EnableOptimisticProvide c then
           if decide (c_OptimisticProvideJobsPoolSize c < 0)%Z then panic else mret (Some (c_OptimisticProvideJobsPoolSize c))
         else mret None;
  let ps := match c_ProviderStore c with Some o => CustomStore o | None => ManagerStore (c_Datastore c) end in
  mret (mkDHT (c_Datastore c) [v1proto] [v1proto] (c_BucketSize c) (c_Concurrency c) (c_Resiliency c) (c_LookupCheckConcurrency c)
          (c_QueryPeerFilter c) (rt_PeerFilter (c_RoutingTable c)) (c_AddressFilter c) (c_OnRequestHook c) pool rt (c_BootstrapPeers c)
          (rt_RefreshQueryTimeout (c_RoutingTable c)) threshold ps).

(** [ModeOpt] of an [int] *)
Definition modeOpt (m : Z) : option ModeOpt :=
  match m with
  | 0 => Some ModeAuto
  | 1 => Some ModeClient
  | 2 => Some ModeServer
  | 3 => Some ModeAutoServer
  | _ => None
  end%Z.

(** A node that [New] has made: the fields that [New] sets itself, the mode and
    the state of its routing table and its handlers. *)
Record dhtNode := mkDhtNode {
  dn_dht : IpfsDHT;
  dn_autoRefresh : bool;
  dn_maxRecordAge : Z;
  dn_enableProviders : bool;
  dn_enableValues : bool;
  dn_disableFixLowPeers : bool;
  dn_Validator : option (@validator Obj);
  dn_msgSender : Obj;
  dn_testAddressUpdateProcessing : bool;
  dn_auto : ModeOpt;
  dn_node : node;
}.

(** [New], with the key book and the addresses of the peerstore of the host and
    the peers it is connected to. *)
Definition New (peerstore : Obj) (pst : PSTORE) (connected : list peerID) (options : list Option) : cfgM dhtNode :=
  cfg ← getConfig peerstore options;
  dht ← makeDHT cfg;
  msgSender ← match c_MsgSenderBuilder cfg with None => panic | Some b => mret (buildSender b (d_protocols dht)) end;
  match modeOpt (c_Mode cfg) with
  | None => throw ErrMode
  | Some auto =>
      let filter := (λ f, f selfDht) <$> d_routingTablePeerFilter dht in
      mret (mkDhtNode dht (rt_AutoRefresh (c_RoutingTable cfg)) (c_MaxRecordAge cfg) (c_EnableProviders cfg) (c_EnableValues cfg)
              (c_DisableFixLowPeers cfg) (c_Validator cfg) msgSender (c_TestAddressUpdateProcessing cfg) auto
              (newNode (d_protocols dht) (d_serverProtocols dht) auto filter (d_routingTable dht) pst (d_lookupCheckCapacity dht) connected))
  end.

Lemma peersFound_mode protocols filter (n : node) ps :
  n_mode (foldl (peerFound protocols filter) n ps) = n_mode n ∧ n_handlers (foldl (peerFound protocols filter) n ps) = n_handlers n ∧
  (n_capacity (foldl (peerFound protocols filter) n ps) + Z.of_nat (length (n_checks (foldl (peerFound protocols filter) n ps)))
   = n_capacity n + Z.of_nat (length (n_checks n))).
Proof.
  revert n. induction ps as [|p ps IH]; intros n; cbn [foldl]; [done|]. destruct (IH (peerFound protocols filter n p)) as (-> & -> & ->).
  by destruct (peerFound_spec protocols filter n p) as (checks & cap & -> & Hc & _).
Qed.

Lemma newNode_start protocols serverProtocols auto filter rt pst cap connected :
  let n := newNode protocols serverProtocols auto filter rt pst cap connected in
  n_mode n = initialMode auto ∧ (∀ pr, pr ∈ serverProtocols → (pr ∈ n_handlers n ↔ initialMode auto = modeServer)) ∧
  n_capacity n + Z.of_nat (length (n_checks n)) = cap.
Proof.
  unfold newNode. match goal with |- context [foldl _ ?n0 connected] => destruct (peersFound_mode protocols filter n0 connected) as (-> & -> & ->) end.
  destruct auto; cbn; (split_and!; [done| |lia]); intros pr Hpr; set_solver.
Qed.

Lemma makeDHT_spec c h dht h' :
  makeDHT c h = (Ok dht, h') →
  h' = h ∧ d_protocols dht = [nodeProtocol c] ∧ d_serverProtocols dht = [nodeProtocol c] ∧ d_bucketSize dht = c_BucketSize c ∧
  d_alpha dht = c_Concurrency c ∧ d_beta dht = c_Resiliency c ∧ d_lookupCheckCapacity dht = c_LookupCheckConcurrency c ∧
  d_queryPeerFilter dht = c_QueryPeerFilter c ∧ d_routingTablePeerFilter dht = rt_PeerFilter (c_RoutingTable c) ∧ d_addrFilter dht = c_AddressFilter c.
Proof.
  unfold makeDHT, makeRoutingTable, mbind, cfgM_bind. destruct (rt_DiversityFilter _) as [pg|]; [destruct (NewFilter pg) as [df|]|]; cbn; try done;
    destruct (NewRoutingTable _ _ _) as [rt|]; cbn; try done; destruct (c_EnableOptimisticProvide c); try (case_decide; [done|]); cbn; by intros [= <- <-].
Qed.

(** A node that [New] accepts. *)
Lemma New_accepted ks pst connected opts h d h' :
  New ks pst connected (denote <$> opts) h = (Ok d, h') →
  (prefixOf opts = DefaultPrefix →
     d_bucketSize (dn_dht d) = 20 ∧ dn_enableProviders d = true ∧ dn_enableValues d = true ∧
     ∃ m keyBook, dn_Validator d = Some (Namespaced m) ∧ mapAt h' m = aminoValidators keyBook) ∧
  d_protocols (dn_dht d) = [protocolOf opts] ∧ d_serverProtocols (dn_dht d) = [protocolOf opts] ∧
  d_alpha (dn_dht d) = alphaOf opts ∧ d_beta (dn_dht d) = betaOf opts ∧ d_bucketSize (dn_dht d) = bucketSizeOf opts ∧
  modeOpt (modeOf opts) = Some (dn_auto d) ∧
  (n_mode (dn_node d) = modeServer ↔ dn_auto d = ModeServer ∨ dn_auto d = ModeAutoServer) ∧
  (protocolOf opts ∈ n_handlers (dn_node d) ↔ n_mode (dn_node d) = modeServer) ∧
  n_capacity (dn_node d) + Z.of_nat (length (n_checks (dn_node d))) = lookupChecksOf opts ∧
  d_queryPeerFilter (dn_dht d) = queryFilterOf opts ∧ d_routingTablePeerFilter (dn_dht d) = rtFilterOf opts ∧ d_addrFilter (dn_dht d) = addressFilterOf opts.
Proof.
  unfold New. unfold mbind at 1, cfgM_bind at 1. destruct (getConfig ks _ h) as [[c|e|] h1] eqn:Hg; try done.
  destruct (getConfig_ok _ _ _ _ _ _ _ Hg) as [Hc Hval]. unfold mbind at 1, cfgM_bind at 1.
  destruct (makeDHT c h1) as [[dht|e|] h2] eqn:Hm; try done. destruct (makeDHT_spec c h1 dht h2 Hm) as (-> & Hdp & Hds & Hb & Hal & Hbe & Hcap & Hqf & Hrf & Haf).
  unfold mbind, cfgM_bind. destruct (c_MsgSenderBuilder c) as [b|]; [|done]. cbn [mret cfgM_ret].
  rewrite (af_mode _ _ Hc). destruct (modeOpt (modeOf opts)) as [auto|] eqn:Hmode; [|done]. intros [= <- <-]. cbn [dn_dht dn_enableProviders dn_enableValues dn_Validator dn_auto dn_node].
  rewrite Hdp, Hds, Hb, Hal, Hbe, Hcap, Hqf, Hrf, Haf, (af_queryFilter _ _ Hc), (af_rtFilter _ _ Hc), (af_addressFilter _ _ Hc), (af_alpha _ _ Hc), (af_beta _ _ Hc), (af_lookupChecks _ _ Hc).
  assert (nodeProtocol c = protocolOf opts) as Hpr by (unfold nodeProtocol, protocolOf; by rewrite (af_override _ _ Hc), (af_prefix _ _ Hc)).
  rewrite Hpr. match goal with |- context [newNode ?a ?b ?e ?f ?g ?i ?j ?k] => destruct (newNode_start a b e f g i j k) as (Hn1 & Hn2 & Hn3) end.
  split_and!; try done; [by apply (af_bucketSize _ _ Hc)|rewrite Hn1; destruct auto; cbn; naive_solver|rewrite Hn1; apply Hn2; left].
Qed.

(** C34: a node that [New] accepts.  Whatever the options: if the protocol prefix
    is that of the Amino DHT, the bucket size is 20, providers and values are
    enabled and the validators are exactly those for [pk] and [ipns]; the node
    speaks one protocol, the one the options ask for; its mode is valid, it
    starts as a server exactly in the modes server and auto-server, and then
    handles its protocol; and the lookup checks of the peers it is connected to
    are counted. *)
Theorem New_correct ks pst connected opts h d h' :
  New ks pst connected (denote <$> opts) h = (Ok d, h') →
  (prefixOf opts = DefaultPrefix →
     d_bucketSize (dn_dht d) = 20 ∧ dn_enableProviders d = true ∧ dn_enableValues d = true ∧
     ∃ m keyBook, dn_Validator d = Some (Namespaced m) ∧ mapAt h' m = aminoValidators keyBook) ∧
  d_protocols (dn_dht d) = [protocolOf opts] ∧ d_serverProtocols (dn_dht d) = [protocolOf opts] ∧
  d_alpha (dn_dht d) = alphaOf opts ∧ d_beta (dn_dht d) = betaOf opts ∧ d_bucketSize (dn_dht d) = bucketSizeOf opts ∧
  modeOpt (modeOf opts) = Some (dn_auto d) ∧
  (n_mode (dn_node d) = modeServer ↔ dn_auto d = ModeServer ∨ dn_auto d = ModeAutoServer) ∧
  (protocolOf opts ∈ n_handlers (dn_node d) ↔ n_mode (dn_node d) = modeServer) ∧
  n_capacity (dn_node d) + Z.of_nat (length (n_checks (dn_node d))) = lookupChecksOf opts.
Proof. intros (? & ? & ? & ? & ? & ? & ? & ? & ? & ? & _)%New_accepted. split_and!; done. Qed.

End constructor.

(** ** Connection tags *)

(** The peers that are protected and those that are tagged with a score, for the
    tag [kbucketTag]. *)
Record connTags := mkTags { ct_protected : gset peerID; ct_tagged : gmap peerID Z }.

Definition protectedBuckets : Z := 2.
Definition baseConnMgrScore : Z := 5.

(** The callbacks of the routing table for a peer whose key shares a prefix of
    the given length with that of the node. *)
Definition PeerAdded (cpl : Z) (p : peerID) (t : connTags) : connTags :=
  if decide (cpl < protectedBuckets) then mkTags ({[p]} ∪ ct_protected t) (ct_tagged t)
  else mkTags (ct_protected t) (<[p := baseConnMgrScore]> (ct_tagged t)).

Definition PeerRemoved (p : peerID) (t : connTags) : connTags :=
  mkTags (ct_protected t ∖ {[p]}) (delete p (ct_tagged t)).

(** The callbacks for a sequence of changes of the table; [true] is an addition. *)
Definition tagChanges (cpl : peerID → Z) (l : list (bool * peerID)) (t : connTags) : connTags :=
  foldl (λ t '(add, p), if add : bool then PeerAdded (cpl p) p t else PeerRemoved p t) t l.

Definition tableChanges (l : list (bool * peerID)) : gset peerID :=
  foldl (λ s '(add, p), if add : bool then {[p]} ∪ s else s ∖ {[p]}) ∅ l.

(** The peers of the table [s] are the ones that are protected, for the two
    buckets that are farthest away, or tagged, for the others. *)
Definition tagsOk (cpl : peerID → Z) (t : connTags) (s : gset peerID) : Prop :=
  ∀ p, (p ∈ ct_protected t ↔ p ∈ s ∧ cpl p < 2) ∧ (ct_tagged t !! p = if decide (p ∈ s ∧ 2 ≤ cpl p) then Some 5 else None).

Lemma PeerAdded_tags cpl t s q : tagsOk cpl t s → tagsOk cpl (PeerAdded (cpl q) q t) ({[q]} ∪ s).
Proof.
  intros Ht p. destruct (Ht p) as [H1 H2]. unfold PeerAdded, protectedBuckets, baseConnMgrScore.
  destruct (decide (cpl q < 2)) as [Hq|Hq], (decide (q = p)) as [->|Hne]; cbn [ct_protected ct_tagged].
  - split; [rewrite !elem_of_union, elem_of_singleton, H1; tauto|]. rewrite H2, !decide_False; [done|lia|lia].
  - assert (p ∈ {[q]} ∪ s ↔ p ∈ s) as Hs by set_solver. split; [|rewrite H2; apply decide_ext; by rewrite Hs].
    rewrite Hs, elem_of_union, elem_of_singleton, H1. naive_solver.
  - split; [split; [intros [_ ?]%H1; lia|intros [_ ?]; lia]|]. rewrite lookup_insert_eq, decide_True; [done|]. split; [set_solver|lia].
  - assert (p ∈ {[q]} ∪ s ↔ p ∈ s) as Hs by set_solver. split; [by rewrite Hs|]. rewrite lookup_insert_ne, H2 by done. apply decide_ext. by rewrite Hs.
Qed.

Lemma PeerRemoved_tags cpl t s q : tagsOk cpl t s → tagsOk cpl (PeerRemoved q t) (s ∖ {[q]}).
Proof.
  intros Ht p. destruct (Ht p) as [H1 H2]. cbn. split; [set_solver|].
  destruct (decide (q = p)) as [->|Hne].
  - rewrite lookup_delete_eq, decide_False; [done|set_solver].
  - rewrite lookup_delete_ne, H2 by done. apply decide_ext. set_solver.
Qed.

Lemma tagChanges_correct cpl l : tagsOk cpl (tagChanges cpl l (mkTags ∅ ∅)) (tableChanges l).
Proof.
  induction l as [|[[] q] l IH] using rev_ind; unfold tagChanges, tableChanges in *; rewrite ?foldl_app; cbn [foldl].
  - intros p. split; [set_solver|]. rewrite decide_False; [done|set_solver].
  - by apply PeerAdded_tags.
  - by apply PeerRemoved_tags.
Qed.

(** ** Examples *)

#[local] Notation demoOption := (@dhtOption nat nat).
Definition emptyHeap : @heap nat := mkHeap 0 ∅.
Definition demoGetConfig (opts : list demoOption) (h : @heap nat) : res (@Config nat nat) * @heap nat := getConfig 100%nat 101%nat 7%nat (denote <$> opts) h.
#[local] Notation demoNew opts :=
  (New (AI := nat) 100%nat 101%nat (NL := demoNodeLib) (λ pg, Some pg) (λ _ _ _, Some ([] : RT (NodeLib := demoNodeLib))) (λ _ _ i, i) (λ b _, b) 102%nat 7%nat tt
     [[1%Z]; [2%Z]] (denote <$> (opts : list demoOption)) emptyHeap).

(** A private network with a validator of its own. *)
Definition privateOptions : list demoOption :=
  [O_ProtocolPrefix "/my"; O_BucketSize 8; O_ProtocolExtension "/lan"; O_NamespacedValidator "x" (Some (OtherValidator 3%nat)); O_Mode 2; O_BucketSize 10].


Lemma New_correct_witness :
  match demoNew privateOptions with
  | (Ok d, h') => d_protocols (dn_dht d) = ["/my/lan/kad/1.0.0"] ∧ ("/my/lan/kad/1.0.0" ∈ n_handlers (dn_node d) ↔ n_mode (dn_node d) = modeServer)
  | _ => False
  end.
Proof.
  destruct (demoNew privateOptions) as [[d|e|] h'] eqn:E; [|vm_compute in E; discriminate E|vm_compute in E; discriminate E].
  destruct (New_correct _ _ _ _ _ _ _ _ _ _ _ _ _ _ E) as (_ & H1 & _ & _ & _ & _ & _ & _ & H2 & _).
  exact (conj H1 H2).
Defined.

(** Without options the node is an Amino node; a smaller bucket size is refused. *)
Example New_default : match demoNew [] with (Ok d, _) => d_protocols (dn_dht d) = [ProtocolID] ∧ dn_auto d = ModeAuto | _ => False end.
Proof. vm_compute. done. Qed.

Example New_small_bucket : (demoNew [O_BucketSize 10]).1 = Err ErrBucketSize.
Proof. vm_compute. reflexivity. Qed.

(** The namespaces [pk] and [ipns] can be overridden without a new [Validator]. *)
Lemma NamespacedValidator_overrides :
  let r := demoGetConfig [O_ProtocolPrefix "/my"; O_NamespacedValidator "pk" (Some (OtherValidator 3%nat))] emptyHeap in
  (∃ c, r.1 = Ok c) ∧ mapAt r.2 (Some 0%N) !! "pk" = Some (Some (OtherValidator 3%nat)).
Proof. split; [eexists; vm_compute; reflexivity|vm_compute; reflexivity]. Qed.

(** The validation looks at the prefix and not at the protocol: a node that speaks
    the protocol of the Amino DHT is not validated, and one that does not is. *)
Lemma V1ProtocolOverride_validation :
  match demoNew [O_ProtocolPrefix "/my"; O_V1ProtocolOverride ProtocolID; O_BucketSize 1; O_DisableValues] with
  | (Ok d, _) => d_protocols (dn_dht d) = [ProtocolID] ∧ d_bucketSize (dn_dht d) = 1
  | _ => False
  end ∧ (demoNew [O_V1ProtocolOverride "/my/dht"; O_BucketSize 10]).1 = Err ErrBucketSize.
Proof. vm_compute. done. Qed.

(** A pool of negative size, or an entry of the [nil] map, is a panic. *)
Lemma New_panics :
  (demoNew [O_EnableOptimisticProvide; O_OptimisticProvideJobsPoolSize (-1)]).1 = Panic ∧
  (demoNew [O_Validator (Some (Namespaced None)); O_NamespacedValidator "x" None]).1 = Panic.
Proof. vm_compute. done. Qed.

(** With a negative concurrency of the lookup checks every check is started. *)
Lemma LookupCheckConcurrency_negative :
  match demoNew [O_LookupCheckConcurrency (-1)] with (Ok d, _) => n_checks (dn_node d) = [[2]; [1]] | _ => False end.
Proof. vm_compute. done. Qed.
