(* ===== verification/Filters.v ===== *)
(** * Address filters

    [dht_filters.go]: which peers the DHTs of the public and of the local network
    query and keep.  An IP address is the [net.IP] of Go, a list of bytes; what
    the code uses of the package [net] is defined here.  The parsing of
    multiaddresses, the special address ranges of [manet], the connections of the
    host and the routing table of the operating system are parameters. *)

From S2P Require Import Prelude GoTime Message.

Local Open Scope Z_scope.

(** ** The package net *)

Abbreviation IP := (list Z).

(** [IP.To4]: a 4-byte address, also from its 16-byte form. *)
Definition To4 (ip : IP) : option IP :=
  if decide (length ip = 4%nat) then Some ip
  else if decide (length ip = 16%nat ∧ take 12 ip = replicate 10 0 ++ [255; 255]) then Some (drop 12 ip)
  else None.

(** [IP.Equal] *)
Definition IP_Equal (ip x : IP) : bool :=
  let mapped ip4 ip16 := bool_decide (take 12 ip16 = replicate 10 0 ++ [255; 255] ∧ ip4 = drop 12 ip16) in
  if decide (length ip = length x) then bool_decide (ip = x)
  else if decide (length ip = 4%nat ∧ length x = 16%nat) then mapped ip x
  else if decide (length ip = 16%nat ∧ length x = 4%nat) then mapped x ip
  else false.

Record IPNet := mkIPNet { net_IP : IP; net_Mask : list Z }.

(** [networkNumberAndMask]; [nil] is the empty list. *)
Definition networkNumberAndMask (n : IPNet) : IP * list Z :=
  let ip := default (net_IP n) (To4 (net_IP n)) in
  let m := net_Mask n in
  if decide (To4 (net_IP n) = None ∧ length (net_IP n) ≠ 16%nat) then ([], [])
  else if decide (length m = 4%nat) then if decide (length ip = 4%nat) then (ip, m) else ([], [])
  else if decide (length m = 16%nat) then (ip, if decide (length ip = 4%nat) then drop 12 m else m)
  else ([], []).

(** [IPNet.Contains] *)
Definition Contains (n : IPNet) (ip : IP) : bool :=
  let '(nn, m) := networkNumberAndMask n in
  let ip := default ip (To4 ip) in
  bool_decide (length ip = length nn) && forallb (λ '(a, (b, c)), Z.land a c =? Z.land b c) (zip nn (zip ip m)).

(** [2000::/3] *)
Definition public6 : IPNet := mkIPNet (32 :: replicate 15 0) (224 :: replicate 15 0).

Section filters.
Context {ML : MaLib}.
(** [manet.ToIP], the protocol codes of a multiaddress with the code of relays,
    and the ranges of [manet]. *)
Context (ToIP : MA → option IP) (protocolCodes : MA → list Z) (P_CIRCUIT : Z).
Context (Private4 Unroutable4 Unroutable6 : list IPNet).
Implicit Types (a : MA) (ip : IP).

(** ** Addresses *)

Definition inAddrRange ip (ipnets : list IPNet) : bool := existsb (λ ipnet, Contains ipnet ip) ipnets.

Definition isPublicAddr a : bool :=
  match ToIP a with
  | None => false
  | Some ip =>
      match To4 ip with
      | Some _ => negb (inAddrRange ip Private4) && negb (inAddrRange ip Unroutable4)
      | None => Contains public6 ip
      end
  end.

Definition isPrivateAddr a : bool :=
  match ToIP a with
  | None => false
  | Some ip =>
      match To4 ip with
      | Some _ => inAddrRange ip Private4
      | None => negb (Contains public6 ip) && negb (inAddrRange ip Unroutable6)
      end
  end.

(** [ma.ForEach] stops at the first component for which the function is false. *)
Fixpoint relayLoop (found : bool) (codes : list Z) : bool :=
  match codes with
  | [] => found
  | c :: codes => let found := bool_decide (c = P_CIRCUIT) in if found then found else relayLoop found codes
  end.
Definition isRelayAddr a : bool := relayLoop false (protocolCodes a).

Definition isEUI ip : bool := bool_decide (length ip = 16%nat ∧ ip !! 11%nat = Some 255 ∧ ip !! 12%nat = Some 254).
Definition sameV6Net (ip1 ip2 : IP) : bool := bool_decide (length ip1 = 16%nat ∧ length ip2 = 16%nat ∧ take 8 ip1 = take 8 ip2).

Definition hasValidConnectedness (c : Connectedness_) : bool := match c with Connected | Limited => true | _ => false end.

(** ** The filters of the public DHT *)

Definition PublicQueryFilter (ai : AddrInfo) : bool :=
  if decide (length (ai_Addrs ai) = 0%nat) then false
  else foldl (λ hasPublicAddr a, if negb (isRelayAddr a) && isPublicAddr a then true else hasPublicAddr) false (ai_Addrs ai).

(** Given the remote peers of the connections, and the addresses of a peer. *)
Definition PublicRoutingTableFilter (conns : list peerID) (known : peerID → list MA) : bool :=
  match conns with
  | [] => false
  | id :: _ => existsb (λ a, negb (isRelayAddr a) && isPublicAddr a) (known id)
  end.

(** ** The filters of the local DHT *)

Definition PrivateQueryFilter (ai : AddrInfo) : bool := bool_decide (0 < length (ai_Addrs ai))%nat.

(** The routes of the operating system: [None] is an error, [Some None] a route
    without a gateway. *)
Context {Router : Type} (Route : Router → IP → option (option IP)).

(** [routerCache] *)
Record routerCache := mkRouterCache { rc_router : option Router; rc_expires : Z }.
Definition routerCacheTime : Z := 2 * Minute.

(** [getCachedRouter]: the cache when it is read and when it is locked for
    writing, the time then and the router that [netroute.New] returns. *)
Definition getCachedRouter (read locked : routerCache) (now1 now2 : Z) (new : option Router) : option Router * routerCache :=
  let router := rc_router read in
  if decide (now1 < rc_expires read) then (router, locked)
  else if decide (now2 < rc_expires locked) then (router, locked)
  else (router, mkRouterCache new (time_Add now2 routerCacheTime)).

(** The public addresses that the host advertises. *)
Definition myAdvertisedIPs (hostAddrs : list MA) : list IP :=
  foldl (λ ips a, if isPublicAddr a && negb (isRelayAddr a) then match ToIP a with Some ip => ips ++ [ip] | None => ips end else ips) [] hostAddrs.

(** The loop over the advertised addresses. *)
Definition sameNetwork ip (ips : list IP) : bool :=
  existsb (λ i, IP_Equal i ip || match To4 ip with Some _ => false | None => bool_decide (To4 i = None) && isEUI ip && sameV6Net i ip end) ips.

Definition directRoute (router : option Router) ip : bool :=
  match router with
  | None => false
  | Some r => match Route r ip with Some None => true | _ => false end
  end.

(** The loop of [privRTFilter] over the remote addresses of the connections. *)
Fixpoint privLoop (router : option Router) (ips : list IP) (conns : list MA) : bool :=
  match conns with
  | [] => false
  | ra :: conns =>
      if isPrivateAddr ra && negb (isRelayAddr ra) then true
      else if isPublicAddr ra then
        match ToIP ra with
        | None => privLoop router ips conns
        | Some ip => if sameNetwork ip ips then true else if directRoute router ip then true else privLoop router ips conns
        end
      else privLoop router ips conns
  end.

Definition privRTFilter (router : option Router) (hostAddrs conns : list MA) : bool := privLoop router (myAdvertisedIPs hostAddrs) conns.

(** [PrivateRoutingTableFilter], with the cache of the router. *)
Definition PrivateRoutingTableFilter (cache : routerCache) (now1 now2 : Z) (new : option Router) (hostAddrs conns : list MA) : bool * routerCache :=
  let '(router, cache) := getCachedRouter cache cache now1 now2 new in
  (privRTFilter router hostAddrs conns, cache).

(** ** Proofs *)

(** The first byte of the addresses in [2000::/3]. *)
Lemma land_224 b : 0 ≤ b < 256 → Z.land 32 224 =? Z.land b 224 = bool_decide (32 ≤ b < 64).
Proof.
  intros Hb. assert (forallb (λ b, Bool.eqb (Z.land 32 224 =? Z.land b 224) (bool_decide (32 ≤ b < 64))) (seqZ 0 256) = true) as Hall by (by vm_compute).
  rewrite forallb_forall in Hall. apply eqb_prop, Hall, list_elem_of_In, elem_of_seqZ. lia.
Qed.

Lemma Contains_public6 b ip :
  To4 (b :: ip) = None → length (b :: ip) = 16%nat → 0 ≤ b < 256 → Contains public6 (b :: ip) = bool_decide (32 ≤ b < 64).
Proof.
  intros H4 Hlen Hb. unfold Contains. rewrite H4. change (networkNumberAndMask public6) with (net_IP public6, net_Mask public6).
  cbn [default]. rewrite bool_decide_true by done. cbn [andb net_IP net_Mask public6].
  do 15 (destruct ip as [|? ip]; [done|]). destruct ip; [|done]. cbn [zip zip_with forallb replicate].
  rewrite land_224 by done. rewrite !Z.land_0_r. cbn. by rewrite andb_true_r.
Qed.

(** A 6-byte prefix and a 4-byte address are different lengths, so that the
    16-byte form of a 4-byte address is in the same ranges. *)
Lemma Contains_mapped n ip : length ip = 4%nat → Contains n (replicate 10 0 ++ [255; 255] ++ ip) = Contains n ip.
Proof.
  intros Hlen. unfold Contains. assert (To4 ip = Some ip) as -> by (unfold To4; by rewrite decide_True).
  assert (To4 (replicate 10 0 ++ [255; 255] ++ ip) = Some ip) as ->; [|done].
  do 4 (destruct ip as [|? ip]; [done|]). destruct ip; [|done]. unfold To4. cbn. done.
Qed.

Lemma relayLoop_spec found codes : relayLoop found codes = true ↔ P_CIRCUIT ∈ codes ∨ (codes = [] ∧ found = true).
Proof.
  revert found. induction codes as [|c codes IH]; intros found; cbn.
  - split; [by right|]. by intros [[]%elem_of_nil|[_ ?]].
  - case_bool_decide as Hc; [subst; split; [left; by left|done]|]. rewrite IH, elem_of_cons. naive_solver.
Qed.

Lemma foldl_or {A} (f : A → bool) b l : foldl (λ h x, if f x then true else h) b l = true ↔ b = true ∨ ∃ x, x ∈ l ∧ f x = true.
Proof.
  revert b. induction l as [|x l IH]; intros b; cbn.
  - split; [by left|]. intros [?|(? & []%elem_of_nil & _)]. done.
  - rewrite IH. setoid_rewrite elem_of_cons. destruct (f x) eqn:Hx; split.
    + intros _. right. exists x. auto.
    + by left.
    + intros [?|(y & ? & ?)]; [by left|right; exists y; auto].
    + intros [?|(y & [->|?] & ?)]; [by left|congruence|right; exists y; auto].
Qed.

Lemma exists_elem_of_snoc {A} (P : A → Prop) l x : (∃ y, y ∈ l ++ [x] ∧ P y) ↔ (∃ y, y ∈ l ∧ P y) ∨ P x.
Proof.
  setoid_rewrite elem_of_app. setoid_rewrite list_elem_of_singleton. split.
  - intros (y & [?| ->] & ?); [left; by exists y|by right].
  - intros [(y & ? & ?)|?]; [exists y; auto|exists x; auto].
Qed.

Lemma elem_of_myAdvertisedIPs ip hostAddrs :
  ip ∈ myAdvertisedIPs hostAddrs ↔ ∃ a, a ∈ hostAddrs ∧ isPublicAddr a = true ∧ isRelayAddr a = false ∧ ToIP a = Some ip.
Proof.
  unfold myAdvertisedIPs. induction hostAddrs as [|a l IH] using rev_ind; [split; [intros []%elem_of_nil|intros (a & []%elem_of_nil & _)]|].
  rewrite foldl_app, exists_elem_of_snoc, <-IH. cbn. clear IH.
  destruct (isPublicAddr a), (isRelayAddr a), (ToIP a) as [ip'|]; cbn; rewrite ?elem_of_app, ?list_elem_of_singleton; intuition congruence.
Qed.

(** A connection to [ra] is local. *)
Definition localConn (router : option Router) (hostAddrs : list MA) (ra : MA) : Prop :=
  (isPrivateAddr ra = true ∧ isRelayAddr ra = false) ∨
  (isPublicAddr ra = true ∧ ∃ ip, ToIP ra = Some ip ∧
     ((∃ a i, a ∈ hostAddrs ∧ isPublicAddr a = true ∧ isRelayAddr a = false ∧ ToIP a = Some i ∧
         (IP_Equal i ip = true ∨ To4 ip = None ∧ To4 i = None ∧ isEUI ip = true ∧ sameV6Net i ip = true)) ∨
      ∃ r, router = Some r ∧ Route r ip = Some None)).

Lemma sameNetwork_spec ip ips :
  sameNetwork ip ips = true ↔ ∃ i, i ∈ ips ∧ (IP_Equal i ip = true ∨ To4 ip = None ∧ To4 i = None ∧ isEUI ip = true ∧ sameV6Net i ip = true).
Proof.
  unfold sameNetwork. rewrite existsb_exists. setoid_rewrite <-list_elem_of_In. apply exist_proper. intros i.
  rewrite orb_true_iff. destruct (To4 ip) as [x|]; [naive_solver|]. rewrite !andb_true_iff, bool_decide_eq_true. naive_solver.
Qed.

Lemma directRoute_spec router ip : directRoute router ip = true ↔ ∃ r, router = Some r ∧ Route r ip = Some None.
Proof. unfold directRoute. destruct router as [r|]; [|naive_solver]. destruct (Route r ip) as [[g|]|] eqn:Hr; naive_solver. Qed.

(** The test of one connection. *)
Definition localConnb (router : option Router) (ips : list IP) (ra : MA) : bool :=
  (isPrivateAddr ra && negb (isRelayAddr ra)) ||
  (isPublicAddr ra && match ToIP ra with None => false | Some ip => sameNetwork ip ips || directRoute router ip end).

Lemma privLoop_localConnb router ips conns : privLoop router ips conns = existsb (localConnb router ips) conns.
Proof.
  induction conns as [|ra conns IH]; [done|]. cbn [privLoop existsb]. rewrite IH. clear IH. unfold localConnb.
  destruct (isPrivateAddr ra && negb (isRelayAddr ra)); [done|]. destruct (isPublicAddr ra); [|done]. destruct (ToIP ra) as [ip|]; [|done].
  by destruct (sameNetwork ip ips), (directRoute router ip).
Qed.

Lemma localConnb_spec router hostAddrs ra : localConnb router (myAdvertisedIPs hostAddrs) ra = true ↔ localConn router hostAddrs ra.
Proof.
  unfold localConnb, localConn. rewrite orb_true_iff, !andb_true_iff, negb_true_iff. apply or_iff_compat_l, and_iff_compat_l.
  destruct (ToIP ra) as [ip|]; [|split; [done|by intros (? & ? & _)]]. rewrite orb_true_iff, sameNetwork_spec, directRoute_spec.
  setoid_rewrite elem_of_myAdvertisedIPs. split.
  - intros [(i & (a & Ha) & Hi)|Hr]; exists ip; (split; [done|]); [left|by right]. exists a, i. tauto.
  - intros (ip' & [= <-] & [(a & i & ? & ? & ? & ? & Hi)|Hr]); [left|by right]. exists i. split; [by exists a|done].
Qed.

Lemma privRTFilter_spec router hostAddrs conns :
  privRTFilter router hostAddrs conns = true ↔ ∃ ra, ra ∈ conns ∧ localConn router hostAddrs ra.
Proof.
  unfold privRTFilter. rewrite privLoop_localConnb, existsb_exists. setoid_rewrite <-list_elem_of_In. by setoid_rewrite localConnb_spec.
Qed.

(** The filters of the public and of the local DHT.  An address with an IPv6
    address is public exactly if its first byte is between 0x20 and 0x3f, and no
    address is public and private; the public DHT queries the peers with a
    public address that is not one of a relay, and the local one those with an
    address; and the local DHT keeps a peer exactly if one of its connections
    is to a private address that is not one of a relay, to an address of the
    host itself or of its network, or to one that has a direct route. *)
Theorem filters_correct router hostAddrs conns ai a :
  (∀ b ip, ToIP a = Some (b :: ip) → To4 (b :: ip) = None → length (b :: ip) = 16%nat → 0 ≤ b < 256 → isPublicAddr a = bool_decide (32 ≤ b < 64)) ∧
  (isPublicAddr a = true → isPrivateAddr a = false) ∧
  (PublicQueryFilter ai = true ↔ ∃ a, a ∈ ai_Addrs ai ∧ isPublicAddr a = true ∧ P_CIRCUIT ∉ protocolCodes a) ∧
  (PrivateQueryFilter ai = true ↔ ai_Addrs ai ≠ []) ∧
  (privRTFilter router hostAddrs conns = true ↔ ∃ ra, ra ∈ conns ∧ localConn router hostAddrs ra).
Proof.
  split_and!.
  - intros b ip Ha H4 Hlen Hb. unfold isPublicAddr. rewrite Ha, H4. by apply Contains_public6.
  - unfold isPublicAddr, isPrivateAddr. destruct (ToIP a) as [ip|]; [|done]. destruct (To4 ip).
    + intros [H _]%andb_true_iff. by apply negb_true_iff.
    + by intros ->.
  - unfold PublicQueryFilter. destruct (ai_Addrs ai) as [|a0 l] eqn:Hl; [split; [done|intros (? & []%elem_of_nil & _)]|]. rewrite decide_False by done.
    rewrite (foldl_or (λ a, negb (isRelayAddr a) && isPublicAddr a)). setoid_rewrite andb_true_iff. setoid_rewrite negb_true_iff.
    assert (∀ a, isRelayAddr a = false ↔ P_CIRCUIT ∉ protocolCodes a) as Hr; [|setoid_rewrite Hr; naive_solver].
    intros x. unfold isRelayAddr. pose proof (relayLoop_spec false (protocolCodes x)). destruct (relayLoop false (protocolCodes x)); naive_solver.
  - unfold PrivateQueryFilter. rewrite bool_decide_eq_true. destruct (ai_Addrs ai); cbn; [naive_solver lia|]. split; [done|lia].
  - apply privRTFilter_spec.
Qed.

(** The router that is used is always the one that was cached before the call: a
    new one is stored and not returned, so that the first call, and every call
    that finds the cache expired, works with the old router, or none. *)
Lemma getCachedRouter_stale read locked now1 now2 new : (getCachedRouter read locked now1 now2 new).1 = rc_router read.
Proof. unfold getCachedRouter. by repeat case_decide. Qed.
End filters.

(** A connection to a public address with a direct route: the local DHT keeps the
    peer, but not at the first call. *)
Lemma PrivateRoutingTableFilter_first_call :
  let ml := {| MA := IP; ma_Bytes := id; NewMultiaddrBytes := λ b, Some b |} in
  let f c t := PrivateRoutingTableFilter (ML := ml) (λ a, Some a) (λ _, []) 290 [] [] [] (Router := ()) (λ _ _, Some None) c t t (Some ()) [] [[8; 8; 8; 8]] in
  let r1 := f (mkRouterCache None 0) 1 in
  r1.1 = false ∧ (f r1.2 2).1 = true.
Proof. vm_compute. done. Qed.
