(* ===== verification/DualNew.v ===== *)
(** * The constructor of the dual DHT

    [New] of [dual/dual.go] with its options: the options of the two DHTs, and
    the nodes that [Config] makes of them.  The filters for routing tables and
    addresses, which read the connections of the host, are only stored here;
    they are parameters. *)

From S2P Require Import Prelude GoTime Message Node Config Filters.

Section dual.
Context {ML : MaLib} {NL : NodeLib} {Obj : Type}.
Context (ToIP : MA → option IP) (protocolCodes : MA → list Z) (P_CIRCUIT : Z) (Private4 Unroutable4 : list IPNet).
(** The arguments of the constructor of a node. *)
Context (newMapDatastore NewMessageSenderImpl : Obj) (NewFilter : Obj → option Obj) (NewRoutingTable : Z → Z → option Obj → option RT)
  (outboundThreshold : Z → Z → Z → Z) (buildSender : Obj → list string → Obj) (selfDht : Obj).
(** [PublicRoutingTableFilter] and [PrivateRoutingTableFilter], the diversity
    filter for the host, and the filters for public addresses and for those
    that are not loopback addresses. *)
Context (publicRTFilter privateRTFilter : @RouteTableFilterFunc Obj) (diversityFilter publicAddrs noLoopback : Obj).

#[local] Notation Option := (@Option Obj AddrInfo).
#[local] Notation dhtOption := (@dhtOption Obj AddrInfo).
#[local] Notation heap := (@heap Obj).

Definition LanExtension : string := "/lan".

(** [config] of the dual DHT *)
Record dualDhtConfig := mkDualCfg { cfg_wan : list Option; cfg_lan : list Option }.

Definition dualDhtOption := dualDhtConfig → dualDhtConfig.

Definition WanDHTOption (opts : list Option) : dualDhtOption := λ c, mkDualCfg (cfg_wan c ++ opts) (cfg_lan c).
Definition LanDHTOption (opts : list Option) : dualDhtOption := λ c, mkDualCfg (cfg_wan c) (cfg_lan c ++ opts).
Definition DHTOption (opts : list Option) : dualDhtOption := λ c, mkDualCfg (cfg_wan c ++ opts) (cfg_lan c ++ opts).

(** [apply]; none of the options fails. *)
Definition dualApply (c : dualDhtConfig) (opts : list dualDhtOption) : dualDhtConfig := foldl (λ c o, o c) c opts.

Definition queryFilterWan : @QueryFilterFunc Obj AddrInfo := λ _ ai, PublicQueryFilter ToIP protocolCodes P_CIRCUIT Private4 Unroutable4 ai.
Definition queryFilterLan : @QueryFilterFunc Obj AddrInfo := λ _ ai, PrivateQueryFilter ai.

#[local] Notation New := (New newMapDatastore NewMessageSenderImpl NewFilter NewRoutingTable outboundThreshold buildSender selfDht).

(** [New] of the dual DHT: the WAN and the LAN node. *)
Definition dual_New (peerstore : Obj) (pst : PSTORE) (connected : list peerID) (options : list dualDhtOption) : cfgM (dhtNode * dhtNode) :=
  let cfg := dualApply (mkDualCfg [] [])
    [WanDHTOption [QueryFilter (Some queryFilterWan); RoutingTableFilter (Some publicRTFilter); RoutingTablePeerDiversityFilter (Some diversityFilter);
       AddressFilter (Some publicAddrs)]] in
  let cfg := dualApply cfg
    [LanDHTOption [ProtocolExtension LanExtension; QueryFilter (Some queryFilterLan); RoutingTableFilter (Some privateRTFilter); AddressFilter (Some noLoopback)]] in
  let cfg := dualApply cfg options in
  wan ← New peerstore pst connected (cfg_wan cfg);
  let lanOpts := if decide (dn_auto wan ≠ ModeClient) then cfg_lan cfg ++ [Mode 2] else cfg_lan cfg in
  lan ← New peerstore pst connected lanOpts;
  mret (wan, lan).

(** ** The options of the two nodes *)

Inductive dualArg := ArgWan (opts : list dhtOption) | ArgLan (opts : list dhtOption) | ArgBoth (opts : list dhtOption).

Definition denoteDual (a : dualArg) : dualDhtOption :=
  match a with
  | ArgWan opts => WanDHTOption (denote <$> opts)
  | ArgLan opts => LanDHTOption (denote <$> opts)
  | ArgBoth opts => DHTOption (denote <$> opts)
  end.

(** The options of the caller for each node, after those of the constructor. *)
Definition userWan (args : list dualArg) : list dhtOption := args ≫= λ a, match a with ArgWan o | ArgBoth o => o | ArgLan _ => [] end.
Definition userLan (args : list dualArg) : list dhtOption := args ≫= λ a, match a with ArgLan o | ArgBoth o => o | ArgWan _ => [] end.

Definition baseWan : list dhtOption :=
  [O_QueryFilter (Some queryFilterWan); O_RoutingTableFilter (Some publicRTFilter); O_RoutingTablePeerDiversityFilter (Some diversityFilter); O_AddressFilter (Some publicAddrs)].
Definition baseLan : list dhtOption :=
  [O_ProtocolExtension LanExtension; O_QueryFilter (Some queryFilterLan); O_RoutingTableFilter (Some privateRTFilter); O_AddressFilter (Some noLoopback)].

Lemma dualApply_denote c args :
  dualApply c (denoteDual <$> args) = mkDualCfg (cfg_wan c ++ (denote <$> userWan args)) (cfg_lan c ++ (denote <$> userLan args)).
Proof.
  unfold dualApply, userWan, userLan. revert c. induction args as [|a args IH]; intros c; cbn [fmap list_fmap foldl mbind list_bind].
  - rewrite !app_nil_r. by destruct c.
  - rewrite IH. rewrite !fmap_app. destruct a; cbn [denoteDual WanDHTOption LanDHTOption DHTOption cfg_wan cfg_lan fmap list_fmap app]; by rewrite <-?app_assoc.
Qed.

Definition protocolOption (o : dhtOption) : Prop :=
  match o with O_ProtocolPrefix _ | O_ProtocolExtension _ | O_V1ProtocolOverride _ => True | _ => False end.
Definition filterOption (o : dhtOption) : Prop :=
  match o with O_QueryFilter _ | O_RoutingTableFilter _ | O_AddressFilter _ => True | _ => False end.

(** Options that do not concern a setting leave it alone. *)
Lemma lastOf_other {A} (f : dhtOption → option A) d opts1 opts2 :
  Forall (λ o, f o = None) opts2 → lastOf f d (opts1 ++ opts2) = lastOf f d opts1.
Proof.
  unfold lastOf. rewrite foldl_app. generalize (foldl (λ a o, default a (f o)) d opts1). intros a Hf. revert a.
  induction Hf as [|o opts Ho _ IH]; intros a; [done|]. cbn. by rewrite Ho.
Qed.

Lemma protocolOf_other opts1 opts2 : Forall (λ o, ¬ protocolOption o) opts2 → protocolOf (opts1 ++ opts2) = protocolOf opts1.
Proof.
  intros Ho. unfold protocolOf, overrideOf. rewrite lastOf_other by (eapply Forall_impl; [done|by intros []]).
  assert (prefixOf (opts1 ++ opts2) = prefixOf opts1) as ->; [|done]. unfold prefixOf. rewrite foldl_app.
  generalize (foldl prefixStep DefaultPrefix opts1). intros p. revert p. induction Ho as [|o opts Hno _ IH]; intros p; [done|]. cbn. rewrite IH. by destruct o.
Qed.

Lemma filters_other opts1 opts2 :
  Forall (λ o, ¬ filterOption o) opts2 →
  queryFilterOf (opts1 ++ opts2) = queryFilterOf opts1 ∧ rtFilterOf (opts1 ++ opts2) = rtFilterOf opts1 ∧ addressFilterOf (opts1 ++ opts2) = addressFilterOf opts1.
Proof.
  intros Ho. unfold queryFilterOf, rtFilterOf, addressFilterOf. rewrite !lastOf_other; [done|eapply Forall_impl; [done|by intros []]..].
Qed.

(** the nodes of the dual DHT.  Without options for protocols the WAN node
    speaks the protocol of the Amino DHT and the LAN node that of the local
    network; without options for filters the WAN node queries only public
    peers and the LAN node any peer with addresses, each with its filters for
    routing tables and addresses; and the LAN node is a server unless the WAN
    node is in client mode, whatever its options ask for. *)
Theorem dual_New_correct ks pst connected args h w l h' :
  dual_New ks pst connected (denoteDual <$> args) h = (Ok (w, l), h') →
  (Forall (λ o, ¬ protocolOption o) (userWan args ++ userLan args) →
     d_protocols (dn_dht w) = ["/ipfs/kad/1.0.0"%string] ∧ d_protocols (dn_dht l) = ["/ipfs/lan/kad/1.0.0"%string]) ∧
  (Forall (λ o, ¬ filterOption o) (userWan args ++ userLan args) →
     d_queryPeerFilter (dn_dht w) = Some queryFilterWan ∧ d_queryPeerFilter (dn_dht l) = Some queryFilterLan ∧
     d_routingTablePeerFilter (dn_dht w) = Some publicRTFilter ∧ d_routingTablePeerFilter (dn_dht l) = Some privateRTFilter ∧
     d_addrFilter (dn_dht w) = Some publicAddrs ∧ d_addrFilter (dn_dht l) = Some noLoopback) ∧
  modeOpt (modeOf (baseWan ++ userWan args)) = Some (dn_auto w) ∧
  (if decide (dn_auto w = ModeClient) then modeOpt (modeOf (baseLan ++ userLan args)) = Some (dn_auto l)
   else dn_auto l = ModeServer ∧ n_mode (dn_node l) = modeServer).
Proof.
  unfold dual_New. cbv zeta. rewrite dualApply_denote.
  change (cfg_wan _ ++ (denote <$> userWan args)) with ((denote <$> baseWan) ++ (denote <$> userWan args)).
  change (cfg_lan _ ++ (denote <$> userLan args)) with ((denote <$> baseLan) ++ (denote <$> userLan args)). rewrite <-!fmap_app. cbn [cfg_wan cfg_lan].
  unfold mbind, cfgM_bind. destruct (New ks pst connected (denote <$> baseWan ++ userWan args) h) as [[w1|e|] h1] eqn:Hw; try done.
  set (lanArgs := (baseLan ++ userLan args) ++ if decide (dn_auto w1 ≠ ModeClient) then [O_Mode 2] else []).
  assert ((if decide (dn_auto w1 ≠ ModeClient) then (denote <$> baseLan ++ userLan args) ++ [Mode 2] else denote <$> baseLan ++ userLan args) = denote <$> lanArgs) as ->.
  { unfold lanArgs. rewrite (fmap_app _ (baseLan ++ userLan args)). case_decide; [done|]. by rewrite app_nil_r. }
  destruct (New ks pst connected (denote <$> lanArgs) h1) as [[l1|e|] h2] eqn:Hl; try done. intros [= <- <- <-].
  apply New_accepted in Hw as (_ & Hwp & _ & _ & _ & _ & Hwm & _ & _ & _ & Hwq & Hwr & Hwa).
  apply New_accepted in Hl as (_ & Hlp & _ & _ & _ & _ & Hlm & Hls & _ & _ & Hlq & Hlr & Hla).
  split_and!; [| |done|].
  - intros [Hu1 Hu2]%Forall_app. rewrite Hwp, Hlp, protocolOf_other by done. split; [done|]. unfold lanArgs. rewrite <-app_assoc, protocolOf_other; [done|].
    apply Forall_app. split; [done|]. case_decide; repeat constructor. by intros [].
  - intros [Hu1 Hu2]%Forall_app. destruct (filters_other baseWan (userWan args) Hu1) as (Hq1 & Hr1 & Ha1).
    destruct (filters_other baseLan (userLan args ++ if decide (dn_auto w1 ≠ ModeClient) then [O_Mode 2] else [])) as (Hq2 & Hr2 & Ha2).
    { apply Forall_app. split; [done|]. case_decide; repeat constructor. by intros []. }
    unfold lanArgs in *. rewrite <-app_assoc in Hlq, Hlr, Hla. rewrite Hwq, Hwr, Hwa, Hlq, Hlr, Hla, Hq1, Hr1, Ha1, Hq2, Hr2, Ha2. done.
  - unfold lanArgs in Hlm. destruct (decide (dn_auto w1 = ModeClient)) as [Hc|Hc].
    + destruct (decide (dn_auto w1 ≠ ModeClient)); [done|]. by rewrite app_nil_r in Hlm.
    + destruct (decide (dn_auto w1 ≠ ModeClient)); [|done]. unfold modeOf, lastOf in Hlm. rewrite foldl_app in Hlm. cbn in Hlm. injection Hlm as Hlm.
      split; [done|]. apply Hls. by left.
Qed.
End dual.

(** ** Examples *)

Definition dualMa : MaLib := {| MA := list Z; ma_Bytes := id; NewMultiaddrBytes := λ b, Some b |}.

#[local] Notation demoDual args :=
  (dual_New (ML := dualMa) (NL := demoNodeLib) (Obj := nat) (λ a, Some a) (λ _, []) 290%Z [] [] 100 101 (λ pg, Some pg) (λ _ _ _, Some ([] : RT (NodeLib := demoNodeLib)))
     (λ _ _ i, i) (λ b _, b) 102 (λ _ _, true) (λ _ _, false) 103 104 105 7 tt [] (denoteDual <$> (args : list (@dualArg dualMa nat))) (mkHeap 0 ∅)).

(** The caller asks for a LAN node that is a client: it is a server. *)
Definition clientLan : list (@dualArg dualMa nat) := [ArgLan [O_Mode 1]; ArgBoth [O_Concurrency 5]].

Lemma dual_New_correct_witness :
  match demoDual clientLan with
  | (Ok (w, l), _) => modeOpt (modeOf (userLan clientLan)) = Some ModeClient ∧ dn_auto w = ModeAuto ∧ dn_auto l = ModeServer ∧
      d_protocols (dn_dht l) = ["/ipfs/lan/kad/1.0.0"%string]
  | _ => False
  end.
Proof.
  destruct (demoDual clientLan) as [[[w l]|e|] h'] eqn:E; [|vm_compute in E; discriminate E|vm_compute in E; discriminate E].
  destruct (dual_New_correct _ _ _ _ _ _ _ _ _ _ _ _ _ _ _ _ _ _ _ _ _ _ _ _ _ E) as (Hp & _ & Hw & Hl).
  destruct Hp as [_ Hp]; [repeat constructor; intros []|].
  assert (Some (dn_auto w) = Some ModeAuto) as Ha by (rewrite <-Hw; vm_compute; reflexivity). injection Ha as Ha. rewrite Ha in Hl. cbn in Hl. destruct Hl as [Hl _].
  split; [reflexivity|]. split; [done|]. split; [done|done].
Defined.

(** A prefix for both nodes removes the extension of the LAN node: they speak the
    same protocol. *)
Lemma dual_New_same_protocol :
  match demoDual [ArgBoth [O_ProtocolPrefix "/my"%string]] with
  | (Ok (w, l), _) => d_protocols (dn_dht w) = ["/my/kad/1.0.0"%string] ∧ d_protocols (dn_dht l) = ["/my/kad/1.0.0"%string]
  | _ => False
  end.
Proof. vm_compute. done. Qed.
