(* ===== verification/FullRTValues.v ===== *)
(** * Values and providers of the full routing table client

    The operations of [fullrt/dht.go] on values and providers.  They repeat
    those of [routing.go] on top of the client's own closest peers and of
    [execOnMany]; that they are equivalent to them is proved here.  The closest
    peers, the replies of the peers in the order of their arrival and the events
    of [execOnMany] are arguments. *)

From S2P Require Import Prelude GoTime Datastore DsKey Message Handlers Values Providing FullRT.

(** Errors: those of the DHT, and no success of a request. *)
Inductive fvError := FvErr (e : rError) | FvNoPut.

Section values.
Context {ML : MaLib} {DL : DsLib} {MS : MessageSender}.
Variables (self : peerID) (enableValues : bool).
Variable enc32 : bytes → string.
Variables (Marshal : Record_ → option bytes) (Unmarshal : bytes → option Record_).
Variables (Validate : bytes → bytes → bool) (Select : bytes → list bytes → option nat).
(** [int(float64(n) * waitFrac)] *)
Variable waitFor : nat → nat.
Abbreviation reply := (pmError + option Record_ * list AddrInfo)%type.

(** ** The local store *)

Definition fullrt_mkDsKey (s : bytes) : string := NewKey (enc32 s).

Definition fullrt_getRecordFromDatastore (d : DS) (dskey : string) : DS * (hError + option Record_) :=
  let '(d, r) := ds_Get d dskey in
  match r with
  | Some None => (d, inr None)
  | None => (d, inl ErrDatastore)
  | Some (Some buf) =>
      match Unmarshal buf with
      | None => (d, inr None)
      | Some rec => if Validate (rec_Key rec) (rec_Value rec) then (d, inr (Some rec)) else (d, inr None)
      end
  end.

Definition fullrt_getLocal (d : DS) (key : bytes) : DS * (hError + option Record_) :=
  let '(d, r) := fullrt_getRecordFromDatastore d (fullrt_mkDsKey key) in
  match r with
  | inl err => (d, inl err)
  | inr None => (d, inr None)
  | inr (Some rec) => if decide (rec_Key rec ≠ key) then (d, inr None) else (d, inr (Some rec))
  end.

Definition fullrt_putLocal (d : DS) (key : bytes) (rec : Record_) : DS * option hError :=
  match Marshal rec with
  | None => (d, Some ErrMarshal)
  | Some data => let '(d, ok) := ds_Put d (fullrt_mkDsKey key) data in (d, if ok : bool then None else Some ErrDatastore)
  end.

(** ** Searching for a value *)

(** What the loop of [processValues] does with a value: it is the best one, with
    its peers, and whether it is new; [None] skips it. *)
Definition fullrt_selectBest (key best : bytes) (peersWithBest : gset peerID) (v : recvdVal) : option (bytes * gset peerID * bool) :=
  if decide (best = []) then Some (Val v, {[From v]}, true)
  else if decide (best = Val v) then Some (best, {[From v]} ∪ peersWithBest, false)
  else
    sel ← Select key [best; Val v];
    Some (if decide (sel = 1) then (Val v, {[From v]}, true) else (best, peersWithBest, false)).

Fixpoint fullrt_processValues {S} (newVal : S → recvdVal → bool → bool → S * bool) (key : bytes) (st : S)
    (best : bytes) (peersWithBest : gset peerID) (evs : list pvEvent) : S * bytes * gset peerID * bool :=
  match evs with
  | [] | PvDone :: _ => (st, best, peersWithBest, false)
  | PvVal v sent :: evs =>
      match fullrt_selectBest key best peersWithBest v with
      | None => fullrt_processValues newVal key st best peersWithBest evs
      | Some (best, peersWithBest, better) =>
          let '(st, aborted) := newVal st v better sent in
          if aborted : bool then (st, best, peersWithBest, true) else fullrt_processValues newVal key st best peersWithBest evs
      end
  end.

(** The closure of [searchValueQuorum]. *)
Definition fullrt_newVal (nvals : Z) (st : quorumState) (v : recvdVal) (better sent : bool) : quorumState * bool :=
  let numResponses := (numResponses st + 1)%Z in
  if better && negb sent then (mkQuorum numResponses (out st) (stopCh st), false)
  else
    let out := if better then out st ++ [Val v] else out st in
    if decide (0 < nvals)%Z then
      if decide (nvals < numResponses)%Z then (mkQuorum numResponses out true, true) else (mkQuorum numResponses out (stopCh st), false)
    else (mkQuorum numResponses out (stopCh st), false).

Definition fullrt_searchValueQuorum (key : bytes) (nvals : Z) (evs : list pvEvent) : quorumState * bytes * gset peerID * bool :=
  fullrt_processValues (fullrt_newVal nvals) key (mkQuorum 0 [] false) [] ∅ evs.

(** The request of [getValues] to a peer: what is sent on the channel. *)
Definition fullrt_queryFn (key : bytes) (p : peerID) (r : reply) : option recvdVal :=
  match r with
  | inl _ => None
  | inr (rec, _) =>
      rec ← rec;
      let val := rec_Value rec in
      if decide (val = []) then None else if Validate key val then Some (mkRecvd val p) else None
  end.

(** [getValues]: the values, and the peers of the result of the lookup, given the
    closest peers ([None] is an error) and the replies in the order of their
    arrival. *)
Definition fullrt_getValues (d : DS) (key : bytes) (closest : option (list peerID)) (replies : list (peerID * reply)) :
    DS * list recvdVal * list peerID :=
  let '(d, r) := fullrt_getLocal d key in
  let loc := match r with inr (Some rec) => [mkRecvd (rec_Value rec) self] | _ => [] end in
  match closest with
  | None => (d, loc, [])
  | Some peers => (d, loc ++ omap (λ '(p, r), fullrt_queryFn key p r) replies, peers)
  end.

(** [SearchValue]; [ctxDone] says that the context ends before the result of the
    lookup is received. *)
Definition fullrt_SearchValue (d : DS) (key : bytes) (offline : bool) (quorum : Z) (closest : option (list peerID))
    (replies : list (peerID * reply)) (cut : option nat) (ctxDone : bool) : DS * (rError + list bytes * bytes * list peerID) :=
  if negb enableValues then (d, inl NotSupported)
  else
    let responsesNeeded := if offline then 0%Z else quorum in
    let '(d, vals, lookupRes) := fullrt_getValues d key closest replies in
    let '(st, best, peersWithBest, aborted) := fullrt_searchValueQuorum key responsesNeeded (valEvents vals cut) in
    let updatePeers :=
      if decide (best = [] ∨ aborted = true) then []
      else if ctxDone then [] else filter (λ p, p ∉ peersWithBest) lookupRes in
    (d, inr (out st, best, updatePeers)).

(** [GetValue] *)
Definition fullrt_GetValue (d : DS) (key : bytes) (offline : bool) (quorum : Z) (closest : option (list peerID))
    (replies : list (peerID * reply)) (cut : option nat) (ctxDone ctxErr : bool) : DS * (bytes * option rError) :=
  if negb enableValues then (d, ([], Some NotSupported))
  else
    let '(d, r) := fullrt_SearchValue d key offline quorum closest replies cut ctxDone in
    match r with
    | inl err => (d, ([], Some err))
    | inr (responses, _, _) =>
        let best := default [] (last responses) in
        if ctxErr then (d, (best, Some CtxErr)) else if decide (best = []) then (d, ([], Some NotFound)) else (d, (best, None))
    end.

(** [updatePeerValues] starts a goroutine per peer and returns; [SearchValue] then
    cancels their context.  [early] are the peers whose request is sent before. *)
Fixpoint fullrt_updatePeerValues (d : DS) (n : NET) (key val : bytes) (early : peerID → bool) (peers : list peerID) : option (DS * NET) :=
  match peers with
  | [] => Some (d, n)
  | p :: peers =>
      let fixupRec := mkRecord key val None in
      if decide (p = self) then fullrt_updatePeerValues (fullrt_putLocal d key fixupRec).1 n key val early peers
      else if early p then '(n, _) ← pm_PutValue n p fixupRec; fullrt_updatePeerValues d n key val early peers
      else fullrt_updatePeerValues d n key val early peers
  end.

(** ** Putting a value *)

(** [PutValue] up to the requests: an error, or the record. *)
Definition fullrt_PutValue_local (d : DS) (key value : bytes) (now : Z) : DS * (rError + Record_) :=
  if negb enableValues then (d, inl NotSupported)
  else if negb (Validate key value) then (d, inl Invalid)
  else
    let '(d, r) := fullrt_getLocal d key in
    match r with
    | inl err => (d, inl (HandlerErr err))
    | inr old =>
        let replace :=
          match old with
          | Some old =>
              if decide (rec_Value old = value) then None
              else
                match Select key [value; rec_Value old] with
                | None => Some (HandlerErr ErrSelect)
                | Some i => if decide (i = 0) then None else Some OlderValue
                end
          | None => None
          end in
        match replace with
        | Some err => (d, inl err)
        | None =>
            let rec := mkRecord key value (Some now) in
            let '(d, err) := fullrt_putLocal d key rec in
            (d, match err with Some err => inl (HandlerErr err) | None => inr rec end)
        end
    end.

(** [PutValue]: the requests that are started, and the error; [None] if it still
    waits for results. *)
Definition fullrt_PutValue (d : DS) (key value : bytes) (now : Z) (closest : option (list peerID)) (evs : list execEvent) :
    option (DS * list (peerID * Record_) * option fvError) :=
  let '(d, r) := fullrt_PutValue_local d key value now in
  match r with
  | inl err => Some (d, [], Some (FvErr err))
  | inr rec =>
      match closest with
      | None => Some (d, [], Some (FvErr LookupErr))
      | Some peers =>
          successes ← execOnMany (length peers) (waitFor (length peers)) true evs;
          Some (d, (λ p, (p, rec)) <$> peers, if putManyError successes then Some FvNoPut else None)
      end
  end.

(** [PutMany] up to the work of [bulkMessageSend]: the records by key. *)
Definition fullrt_PutMany (keys values : list bytes) : fvError + gmap bytes Record_ :=
  if negb enableValues then inl (FvErr NotSupported)
  else if decide (length keys ≠ length values) then inl (FvErr Invalid)
  else
    let keyRecMap := foldl (λ m '(k, v), <[k := v]> m) (∅ : gmap bytes bytes) (zip keys values) in
    if decide (length keys ≠ size keyRecMap) then inl (FvErr Invalid)
    else inr (map_imap (λ k v, Some (mkRecord k v None)) keyRecMap).

(** ** Equivalence with the operations of the DHT *)

Lemma fullrt_getLocal_eq d key : fullrt_getLocal d key = getLocal enc32 Unmarshal Validate d key.
Proof.
  unfold fullrt_getLocal, getLocal, fullrt_getRecordFromDatastore, getRecordFromDatastore, fullrt_mkDsKey, convertToDsKey.
  destruct (ds_Get d _) as [d' [[buf|]|]]; try done. destruct (Unmarshal buf) as [rec|]; [|done].
  destruct (Validate _ _); [|done]. by case_decide.
Qed.

Lemma fullrt_putLocal_eq d key rec : fullrt_putLocal d key rec = putLocal enc32 Marshal d key rec.
Proof. done. Qed.

Lemma fullrt_processValues_eq {S} (newVal newVal' : S → recvdVal → bool → bool → S * bool) key st best peers evs :
  (∀ st v better sent, newVal st v better sent = newVal' st v better sent) →
  fullrt_processValues newVal key st best peers evs = processValues Select newVal' key st best peers evs.
Proof.
  intros Hnew. revert st best peers. induction evs as [|[v sent|] evs IH]; intros st best peers; [done| |done].
  cbn [fullrt_processValues processValues]. unfold fullrt_selectBest.
  destruct (decide (best = [])) as [->|Hb]; [rewrite decide_False by tauto|rewrite (decide_True (P := best ≠ [])) by done].
  - rewrite Hnew. destruct (newVal' st v true sent) as [st' []]; [done|apply IH].
  - destruct (decide (best = Val v)).
    + rewrite Hnew. destruct (newVal' st v false sent) as [st' []]; [done|apply IH].
    + destruct (Select key [best; Val v]) as [sel|]; cbn; [|apply IH].
      destruct (decide (sel = 1)); [rewrite decide_False by tauto|rewrite decide_True by done]; rewrite Hnew;
        (destruct (newVal' st v _ sent) as [st' []]; [done|apply IH]).
Qed.

Lemma fullrt_newVal_eq nvals st v better sent : fullrt_newVal nvals st v better sent = quorumNewVal nvals st v better sent.
Proof.
  unfold fullrt_newVal, quorumNewVal. destruct (better && negb sent); [done|]. destruct (decide (0 < nvals)%Z) as [H1|H1].
  - destruct (decide (nvals < numResponses st + 1)%Z); [by rewrite decide_True|by rewrite decide_False by tauto].
  - by rewrite decide_False by tauto.
Qed.

Lemma fullrt_getValues_eq d key closest replies :
  fullrt_getValues d key closest replies =
  (getValues self enc32 Unmarshal Validate d key (if closest then replies else []), default [] closest).
Proof.
  unfold fullrt_getValues, getValues. rewrite fullrt_getLocal_eq. destruct (getLocal _ _ _ _ _) as [d' r]. destruct closest as [peers|].
  - do 3 f_equal. apply list_omap_ext. apply Forall_Forall2_diag, Forall_forall. intros [p [e|[[rec|] ps]]] _; try done. cbn.
    case_decide; [done|]. by destruct (Validate key (rec_Value rec)).
  - by rewrite app_nil_r.
Qed.

(** The result of the lookup that [SearchValue] of the DHT receives. *)
Definition lookupOf (closest : option (list peerID)) (ctxDone : bool) : option (list peerID) :=
  if ctxDone then None else Some (default [] closest).

(** The search for values of the full routing table client is that of the
    DHT.  For all replies, interleavings and ends of the context, its
    [SearchValue] sends the same values, finds the same best one and corrects
    the same peers as that of the DHT on a lookup with the same replies, with
    none if the closest peers are not known; and [GetValue] returns the same. *)
Theorem fullrt_SearchValue_equiv d key offline quorum (closest : option (list peerID)) (replies : list (peerID * reply)) cut ctxDone ctxErr :
  let replies' := if closest then replies else [] in
  fullrt_SearchValue d key offline quorum closest replies cut ctxDone =
    SearchValue self enableValues enc32 Unmarshal Validate Select d key offline quorum replies' cut (lookupOf closest ctxDone) ∧
  fullrt_GetValue d key offline quorum closest replies cut ctxDone ctxErr =
    GetValue self enableValues enc32 Unmarshal Validate Select d key offline quorum replies' cut (lookupOf closest ctxDone) ctxErr.
Proof.
  intros replies'.
  assert (fullrt_SearchValue d key offline quorum closest replies cut ctxDone =
    SearchValue self enableValues enc32 Unmarshal Validate Select d key offline quorum replies' cut (lookupOf closest ctxDone)) as Hs.
  { unfold fullrt_SearchValue, SearchValue, fullrt_searchValueQuorum, searchValueQuorum. destruct (negb enableValues); [done|].
    rewrite fullrt_getValues_eq. fold replies'. destruct (getValues _ _ _ _ _ _ _) as [d' vals].
    rewrite (fullrt_processValues_eq _ (quorumNewVal (if offline then 0%Z else quorum))) by (intros; apply fullrt_newVal_eq).
    destruct (processValues _ _ _ _ _ _ _) as [[[st best] pwb] aborted]. do 3 f_equal. unfold searchUpdatePeers, lookupOf.
    destruct (decide (best = [])); [by rewrite decide_True by tauto|]. destruct aborted; [by rewrite decide_True by tauto|].
    rewrite decide_False by naive_solver. by destruct ctxDone. }
  split; [done|]. unfold fullrt_GetValue, GetValue. destruct (negb enableValues); [done|]. rewrite Hs.
  destruct (SearchValue _ _ _ _ _ _ _ _ _ _ _ _ _) as [d' [e|[[outs best] upd]]]; [done|]. destruct ctxErr; [done|]. by case_decide.
Qed.

(** No correction is sent if the goroutines are not faster than the cancellation
    of their context. *)
Lemma fullrt_updatePeerValues_cancelled d n key val peers :
  self ∉ peers → fullrt_updatePeerValues d n key val (λ _, false) peers = Some (d, n).
Proof.
  induction peers as [|p peers IH]; intros Hs; [done|]. apply not_elem_of_cons in Hs as [Hp Hs]. cbn. rewrite decide_False by done. auto.
Qed.

Lemma fullrt_PutValue_local_eq d key value now :
  fullrt_PutValue_local d key value now = PutValue_local enableValues enc32 Marshal Unmarshal Validate Select d key value now.
Proof.
  unfold fullrt_PutValue_local, PutValue_local. destruct (negb enableValues); [done|]. destruct (negb (Validate key value)); [done|].
  rewrite fullrt_getLocal_eq. destruct (getLocal _ _ _ _ _) as [d' [e|[old|]]]; [done| |done].
  destruct (decide (rec_Value old = value)) as [He|He]; [rewrite decide_False by (intros Hn; exact (Hn He)); done|].
  rewrite (decide_True (P := rec_Value old ≠ value)) by done.
  destruct (Select _ _) as [i|]; [|done]. destruct (decide (i = 0)); [rewrite decide_False by lia|rewrite decide_True by done]; done.
Qed.

(** Putting a value with the full routing table client.  Once every request
    has a result, [PutValue] returns, whatever the order of the results and of
    the ticks.  It fails before any request exactly as [PutValue] of the DHT
    does; otherwise the record is stored locally and sent to the closest peers,
    and the result is an error exactly if no request succeeded. *)
Theorem fullrt_PutValue_correct d key value now closest evs :
  (∀ peers, closest = Some peers → dones evs = length peers) →
  let '(d', r) := PutValue_local enableValues enc32 Marshal Unmarshal Validate Select d key value now in
  match r, closest with
  | inl e, _ => fullrt_PutValue d key value now closest evs = Some (d', [], Some (FvErr e))
  | inr _, None => fullrt_PutValue d key value now closest evs = Some (d', [], Some (FvErr LookupErr))
  | inr rec, Some peers =>
      ∃ err, fullrt_PutValue d key value now closest evs = Some (d', (λ p, (p, rec)) <$> peers, err) ∧
        rec = mkRecord key value (Some now) ∧ (err = None ↔ 0 < oks evs)
  end.
Proof.
  intros Hd. unfold fullrt_PutValue. rewrite fullrt_PutValue_local_eq.
  destruct (PutValue_local _ _ _ _ _ _ _ _ _ _) as [d' r] eqn:Hp. destruct r as [e|rec]; [done|]. destruct closest as [peers|]; [|done].
  assert (rec = mkRecord key value (Some now)) as ->.
  { revert Hp. unfold PutValue_local. destruct (negb enableValues); [done|]. destruct (negb _); [done|].
    destruct (getLocal _ _ _ _ _) as [d1 [e|old]]; [done|]. unfold putLocal.
    destruct old as [old|]; [case_decide; [destruct (Select _ _) as [i|]; [case_decide; [done|]|done]|]|];
      (destruct (Marshal _); [|done]; destruct (ds_Put _ _ _) as [d2 []]; [|done]; by intros [= _ <-]). }
  destruct (execOnMany_correct (length peers) (waitFor (length peers)) true evs) as (r & -> & Hr & _ & H0); [by apply Hd|].
  cbn. eexists. split; [done|]. split; [done|]. unfold putManyError. case_bool_decide as He; [split; [done|]; intros ?; lia|].
  split; [intros _; lia|done].
Qed.

(** The records of [PutMany] are those of the keys with their values, if there are
    no duplicates. *)
Lemma fullrt_PutMany_spec keys values :
  enableValues = true →
  match fullrt_PutMany keys values with
  | inl _ => length keys ≠ length values ∨ ¬ NoDup keys
  | inr recs => length keys = length values ∧ NoDup keys ∧
      ∀ i k v, keys !! i = Some k → values !! i = Some v → recs !! k = Some (mkRecord k v None)
  end.
Proof.
  intros Hen. unfold fullrt_PutMany. rewrite Hen. cbn [negb]. case_decide as Hl; [by left|].
  set (m := foldl _ _ _). assert (m = list_to_map (reverse (zip keys values))) as Hm.
  { unfold m. clear. rewrite <-(reverse_involutive (zip keys values)) at 1. induction (reverse (zip keys values)) as [|[k v] l IH]; [done|].
    rewrite reverse_cons, foldl_app, IH. done. }
  assert (dom m ≡@{gset bytes} list_to_set keys) as Hdom.
  { rewrite Hm, dom_list_to_map. intros k. rewrite !elem_of_list_to_set, fmap_reverse, elem_of_reverse. by rewrite fst_zip by lia. }
  assert (NoDup keys ↔ length keys = size m) as Hnd.
  { rewrite <-size_dom. setoid_rewrite Hdom. split; [intros Hn; by rewrite size_list_to_set|]. clear -keys. intros Hs.
    induction keys as [|k keys IH]; [constructor|]. cbn in Hs. rewrite size_union_alt, size_singleton in Hs.
    assert (∀ l : list bytes, size (list_to_set l : gset bytes) ≤ length l) as Hle.
    { intros l. induction l as [|x l IHl]; [done|]. cbn. rewrite size_union_alt, size_singleton.
      pose proof (subseteq_size (C := gset bytes) (list_to_set l ∖ {[x]}) (list_to_set l) ltac:(set_solver)). lia. }
    destruct (decide (k ∈ keys)) as [Hk|Hk].
    - exfalso. assert (size (list_to_set keys ∖ {[k]} : gset bytes) < size (list_to_set keys : gset bytes)).
      { apply subset_size. split; [set_solver|]. intros Hsub. assert (k ∈ (list_to_set keys ∖ {[k]} : gset bytes)); [|set_solver]. apply Hsub. by apply elem_of_list_to_set. }
      pose proof (Hle keys). lia.
    - constructor; [done|]. apply IH. rewrite difference_disjoint_L in Hs by (apply disjoint_singleton_r; by rewrite elem_of_list_to_set). lia. }
  case_decide as Hs; [right; by rewrite Hnd|]. split; [done|]. split; [by apply Hnd|]. intros i k v Hk Hv.
  rewrite map_lookup_imap. assert (m !! k = Some v) as ->; [|done]. rewrite Hm. apply elem_of_list_to_map_1.
  - rewrite fmap_reverse, reverse_Permutation, fst_zip by lia. by apply Hnd.
  - rewrite elem_of_reverse. apply list_elem_of_lookup. exists i. by rewrite lookup_zip_with, Hk, Hv.
Qed.
End values.

(** ** Providing *)

Inductive fpError := FpErr (e : provError) | FpNoAddrs | FpNoProvide.

Section providing.
Context {ML : MaLib} {PS : ProviderStore}.
Variables (self : peerID) (addrs : list MA) (enableProviders : bool) (waitFor : nat → nat).

(** [Provide]: the provider store, the peers that get a request and the error;
    [None] if it still waits for results.  [closest] is the result of
    [GetClosestPeers], [ctxErr1] and [ctxErr2] are the errors of the context
    when it returns and at the end. *)
Definition fullrt_Provide (st : PST) (key : option bytes) (brdcst : bool) (deadline : option Z) (now : Z)
    (closest : list peerID * option provError) (ctxErr1 ctxErr2 : option ctxError) (evs : list execEvent) :
    option (PST * list peerID * option fpError) :=
  if negb enableProviders then Some (st, [], Some (FpErr ProvNotSupported))
  else
    match key with
    | None => Some (st, [], Some (FpErr ProvUndefined))
    | Some keyMH =>
        let st := (store_AddProvider st keyMH (mkAddrInfo self [])).1 in
        if negb brdcst then Some (st, [], None)
        else
          let put peers exceededDeadline :=
            successes ← execOnMany (length peers) (waitFor (length peers)) true evs;
            Some (st, peers,
              if exceededDeadline : bool then Some (FpErr (ProvCtx DeadlineExceeded))
              else if decide (successes = 0) then Some FpNoProvide
              else (λ e, FpErr (ProvCtx e)) <$> ctxErr2) in
          match deadline ≫= λ d, Some (closerDeadline d now) with
          | Some None => Some (st, [], Some (FpErr (ProvCtx DeadlineExceeded)))
          | _ =>
              match closest with
              | (peers, Some (ProvCtx DeadlineExceeded)) =>
                  match ctxErr1 with
                  | Some e => Some (st, [], Some (FpErr (ProvCtx e)))
                  | None => put peers true
                  end
              | (peers, None) => put peers false
              | (_, Some err) => Some (st, [], Some (FpErr err))
              end
          end
    end.

(** [ProvideMany] up to [bulkMessageSend]: the message for a key. *)
Definition fullrt_ProvideMany : fpError + (bytes → Message) :=
  if negb enableProviders then inl (FpErr ProvNotSupported)
  else
    let pi := mkAddrInfo self addrs in
    let pbPeers := RawPeerInfosToPBPeers [pi] in
    if decide (length (ai_Addrs pi) < 1) then inl FpNoAddrs
    else inr (λ k, let pmes := NewMessage ADD_PROVIDER k 0 in
           mkMessage (m_Type pmes) (m_ClusterLevelRaw pmes) (m_Key pmes) (m_Record pmes) (m_CloserPeers pmes) pbPeers).

(** A key that is broadcast: once every request has a result, [Provide] returns,
    without error exactly if a request succeeded and neither the context nor
    the deadline of the lookup has ended. *)
Lemma fullrt_Provide_spec st key deadline now peers err ctxErr1 ctxErr2 evs :
  enableProviders = true → dones evs = length peers →
  let st' := (store_AddProvider st key (mkAddrInfo self [])).1 in
  ∃ reqs e, fullrt_Provide st (Some key) true deadline now (peers, err) ctxErr1 ctxErr2 evs = Some (st', reqs, e) ∧ (reqs = peers ∨ reqs = []) ∧
    (e = None ↔ err = None ∧ 0 < oks evs ∧ ctxErr2 = None ∧ ∀ d, deadline = Some d → is_Some (closerDeadline d now)) ∧
    (e = None → reqs = peers).
Proof.
  intros Hen Hd st'. unfold fullrt_Provide. rewrite Hen. cbn [negb]. fold st'.
  destruct (execOnMany_correct (length peers) (waitFor (length peers)) true evs Hd) as (r & Hex & _ & _ & H0).
  destruct deadline as [d|]; cbn [mbind option_bind]; [destruct (closerDeadline d now) as [inner|] eqn:Hc|].
  2:{ eexists [], _. split; [done|]. split; [by right|]. split; [|done]. split; [done|]. intros (_ & _ & _ & Hx). specialize (Hx d eq_refl). rewrite Hc in Hx. by destruct Hx. }
  all: destruct err as [[| |[|]| |]|]; try (eexists [], _; split; [done|]; split; [by right|]; split; [|done]; by split; [|intros (? & _)]).
  all: try (destruct ctxErr1 as [e1|]; [eexists [], _; split; [done|]; split; [by right|]; split; [|done]; by split; [|intros (? & _)]|]).
  all: rewrite Hex; cbn [mbind option_bind]; eexists _, _; (split; [done|]); (split; [by left|]); (split; [|done]).
  all: try (by split; [|intros (? & _)]).
  all: case_decide as Hr; [split; [done|intros (_ & ? & _); lia]|]; destruct ctxErr2 as [e2|]; [by split; [|intros (_ & _ & ? & _)]|];
    (split; [|done]; intros _; split_and!; [done|lia|done|]); intros d' Hd'; by simplify_eq.
Qed.
End providing.

(** ** Finding providers *)

Section find.
Context {ML : MaLib}.
Variables (count nPeers numSuccessfulToWaitFor : nat) (sloppyExit : bool).
Implicit Types (ai : AddrInfo) (ids : gset peerID) (outs : list AddrInfo).

(** [psTryAdd]: a provider is only added once. *)
Definition fullrt_psTryAdd ids (p : peerID) : gset peerID * bool :=
  if decide (p ∉ ids ∧ (size ids < count ∨ count = 0)) then ({[p]} ∪ ids, true) else (ids, false).

Definition fullrt_enough ids : bool := bool_decide (count ≠ 0 ∧ count ≤ size ids).

(** One iteration of a loop over providers, as in the DHT: [None] ends it by the
    context, otherwise the result says whether it goes on. *)
Definition fullrt_findOne ids outs ai (sent : bool) : gset peerID * list AddrInfo * option bool :=
  let '(ids, ok) := fullrt_psTryAdd ids (ai_ID ai) in
  if ok && negb sent then (ids, outs, None)
  else (ids, if ok then ai :: outs else outs, Some (negb (fullrt_enough ids))).

(** The loop over the providers of the store: whether the peers are asked. *)
Fixpoint fullrt_findLocal ids outs (provs : list AddrInfo) (sent : nat → bool) : gset peerID * list AddrInfo * bool :=
  match provs with
  | [] => (ids, outs, true)
  | p :: provs =>
      match fullrt_findOne ids outs p (sent (length provs)) with
      | (ids, outs, Some true) => fullrt_findLocal ids outs provs sent
      | (ids, outs, _) => (ids, outs, false)
      end
  end.

(** A goroutine of [execOnMany]: it waits for the reply, handles the providers of
    the reply, or has sent its result. *)
Inductive ffThread := TQuery | TProvs (provs : list AddrInfo) | TResult (ok : bool).

(** The state: the providers that were added, what was sent on the channel (the
    last one first), whether the channel is closed, the goroutines and the loop
    of [execOnMany], and all providers that the store and the replies named. *)
Record ffState := mkFf {
  ff_ids : gset peerID;
  ff_out : list AddrInfo;
  ff_closed : bool;
  ff_threads : list ffThread;
  ff_exec : execState;
  ff_seen : list AddrInfo;
}.
Implicit Type s : ffState.

Inductive ffEvent := FfReply (i : nat) (reply : option (list AddrInfo)) | FfOne (i : nat) (sent : bool) | FfRecv (i : nat) | FfTick.

(** The loop of [execOnMany] after an event: the channel is closed when it has all
    results or returns. *)
Definition ffExec s (threads : list ffThread) (ev : execEvent) : ffState :=
  let '(e, ret) := execStep nPeers numSuccessfulToWaitFor sloppyExit (ff_exec s) ev in
  mkFf (ff_ids s) (ff_out s) (ff_closed s || ret || bool_decide (nPeers ≤ numDone e)) threads e (ff_seen s).

(** [None]: the step is not possible; [Some None]: a panic, the channel is closed
    when a provider is sent. *)
Definition ffStep s (ev : ffEvent) : option (option ffState) :=
  let become i t s := mkFf (ff_ids s) (ff_out s) (ff_closed s) (<[i := t]> (ff_threads s)) (ff_exec s) (ff_seen s) in
  match ev with
  | FfReply i reply =>
      match ff_threads s !! i, reply with
      | Some TQuery, None => Some (Some (become i (TResult false) s))
      | Some TQuery, Some provs =>
          Some (Some (mkFf (ff_ids s) (ff_out s) (ff_closed s) (<[i := TProvs provs]> (ff_threads s)) (ff_exec s) (provs ++ ff_seen s)))
      | _, _ => None
      end
  | FfOne i sent =>
      match ff_threads s !! i with
      | Some (TProvs []) => Some (Some (become i (TResult true) s))
      | Some (TProvs (ai :: provs)) =>
          let '(ids, outs, r) := fullrt_findOne (ff_ids s) (ff_out s) ai sent in
          if decide (ff_closed s = true ∧ length (ff_out s) < length outs) then Some None
          else
            let t := match r with None => TResult false | Some true => TProvs provs | Some false => TResult true end in
            Some (Some (become i t (mkFf ids outs (ff_closed s) (ff_threads s) (ff_exec s) (ff_seen s))))
      | _ => None
      end
  | FfRecv i =>
      if ff_closed s then None
      else
        match ff_threads s !! i with
        | Some (TResult ok) => Some (Some (ffExec s (delete i (ff_threads s)) (ExecDone ok)))
        | _ => None
        end
  | FfTick => if ff_closed s then None else Some (Some (ffExec s (ff_threads s) ExecTick))
  end.

(** [findProvidersAsyncRoutine] up to the requests, with the providers of the
    store; [peersOk] says that the closest peers are known. *)
Definition ffStart (provs : list AddrInfo) (sent : nat → bool) (peersOk : bool) : ffState :=
  let '(ids, outs, ask) := fullrt_findLocal ∅ [] provs sent in
  if ask && peersOk then mkFf ids outs (bool_decide (nPeers = 0)) (replicate nPeers TQuery) (mkExec 0 0 0 false) provs
  else mkFf ids outs true [] (mkExec 0 0 0 false) provs.

(** [FindProvidersAsync]: without providers or with an undefined key the channel is
    closed at once. *)
Definition fullrt_FindProvidersAsync (enableProviders : bool) (key : option bytes) (provs : list AddrInfo) (sent : nat → bool) (peersOk : bool) : ffState :=
  match key with
  | Some _ => if enableProviders then ffStart provs sent peersOk else mkFf ∅ [] true [] (mkExec 0 0 0 false) []
  | None => mkFf ∅ [] true [] (mkExec 0 0 0 false) []
  end.

(** [FindProviders]: the providers of a state in which the channel is closed. *)
Definition fullrt_FindProviders (enableProviders : bool) (key : option bytes) s : provError + list AddrInfo :=
  if negb enableProviders then inl ProvNotSupported
  else match key with None => inl ProvUndefined | Some _ => inr (reverse (ff_out s)) end.

Definition ffRel s s' : Prop := ∃ ev, ffStep s ev = Some (Some s').

(** *** What is sent *)

Definition outOk ids outs (seen : list AddrInfo) : Prop :=
  NoDup (ai_ID <$> outs) ∧ (∀ ai, ai ∈ outs → ai_ID ai ∈ ids ∧ ai ∈ seen) ∧ (count ≠ 0 → size ids ≤ count).

Lemma findOne_outOk ids outs seen ai sent ids' outs' r :
  outOk ids outs seen → ai ∈ seen → fullrt_findOne ids outs ai sent = (ids', outs', r) →
  outOk ids' outs' seen ∧ ids ⊆ ids' ∧ (outs' = outs ∨ outs' = ai :: outs ∧ sent = true).
Proof.
  intros (H1 & H2 & H3) Hs. unfold fullrt_findOne, fullrt_psTryAdd. destruct (decide (_ ∧ _)) as [[Hn Hc]|Hd]; cbn [andb].
  - assert (count ≠ 0 → size ({[ai_ID ai]} ∪ ids) ≤ count) as H3'.
    { intros Hz. rewrite size_union by set_solver. rewrite size_singleton. lia. }
    destruct sent; cbn [negb]; intros [= <- <- <-]; (split; [|split; [set_solver|auto]]).
    + split_and!; [|intros a [->|Ha]%elem_of_cons; [set_solver|destruct (H2 a Ha); set_solver]|done].
      rewrite fmap_cons. constructor; [|done]. intros (b & He & Hb)%list_elem_of_fmap. apply Hn. rewrite He. by apply H2.
    + split_and!; [done|intros a Ha; destruct (H2 a Ha); set_solver|done].
  - intros [= <- <- <-]. split; [done|]. split; [done|by left].
Qed.

Lemma findLocal_outOk ids outs seen provs sent ids' outs' ask :
  outOk ids outs seen → (∀ ai, ai ∈ provs → ai ∈ seen) → fullrt_findLocal ids outs provs sent = (ids', outs', ask) → outOk ids' outs' seen.
Proof.
  revert ids outs. induction provs as [|ai provs IH]; intros ids outs Hok Hs; cbn [fullrt_findLocal]; [by intros [= <- <- _]|].
  destruct (fullrt_findOne ids outs ai _) as [[ids1 outs1] r] eqn:Ho.
  destruct (findOne_outOk _ _ _ _ _ _ _ _ Hok (Hs ai ltac:(left)) Ho) as [Hok1 _].
  destruct r as [[]|]; [|by intros [= <- <- _]..]. apply IH; [done|]. intros a Ha. apply Hs. by right.
Qed.

Lemma outOk_seen ids outs seen seen' : outOk ids outs seen → (∀ a, a ∈ seen → a ∈ seen') → outOk ids outs seen'.
Proof. intros (H1 & H2 & H3) Hs. split_and!; [done| |done]. intros a Ha. destruct (H2 a Ha). auto. Qed.

(** The providers that goroutines still handle were named, and the channel is only
    closed when there are no goroutines. *)
Definition ffInv s : Prop :=
  outOk (ff_ids s) (ff_out s) (ff_seen s) ∧ (∀ provs ai, TProvs provs ∈ ff_threads s → ai ∈ provs → ai ∈ ff_seen s) ∧
  (ff_closed s = true → ff_threads s = []) ∧ (ff_closed s = false → numDone (ff_exec s) + length (ff_threads s) = nPeers ∧ 0 < nPeers).

Lemma ffStart_inv provs sent peersOk : ffInv (ffStart provs sent peersOk).
Proof.
  unfold ffStart. destruct (fullrt_findLocal ∅ [] provs sent) as [[ids outs] ask] eqn:Hl.
  assert (outOk ids outs provs) as Hok.
  { apply (findLocal_outOk ∅ [] provs provs sent ids outs ask); [|done|done]. split_and!; [constructor|intros ? Ha; by apply not_elem_of_nil in Ha|].
    intros _. rewrite size_empty. lia. }
  destruct (ask && peersOk); unfold ffInv; cbn; (split_and!; [done| | |]); try done.
  - intros ps ai Ht. by apply elem_of_replicate in Ht as [? _].
  - case_bool_decide as Hn; [by rewrite Hn|done].
  - case_bool_decide; [done|]. intros _. rewrite length_replicate. lia.
  - intros ps ai Ht. by apply not_elem_of_nil in Ht.
Qed.

Lemma elem_of_insert_thread (l : list ffThread) i t x : x ∈ <[i := t]> l → x = t ∨ x ∈ l.
Proof. intros [j Hj]%list_elem_of_lookup. apply list_lookup_insert_Some in Hj as [(_ & -> & _)|(_ & Hj)]; [by left|right; by eapply list_elem_of_lookup_2]. Qed.

Lemma ffExec_inv s threads ev :
  sloppyExit = false → ffInv s → ff_closed s = false → (∀ t, t ∈ threads → t ∈ ff_threads s) →
  numDone (execStep nPeers numSuccessfulToWaitFor sloppyExit (ff_exec s) ev).1 + length threads = nPeers → ffInv (ffExec s threads ev).
Proof.
  intros Hsl (H1 & H2 & H3 & H4) Hc Hsub Hn. unfold ffExec.
  assert ((execStep nPeers numSuccessfulToWaitFor sloppyExit (ff_exec s) ev).2 = false) as Hret.
  { rewrite Hsl. destruct ev as [[]|]; cbn; rewrite ?andb_false_r; try done. destruct (ticker (ff_exec s)); [|done]. by case_decide. }
  destruct (execStep _ _ _ _ _) as [e ret]. cbn in Hret, Hn. subst ret. unfold ffInv. cbn. rewrite Hc. cbn. split_and!; [done| | |].
  - intros ps ai Ht. apply H2. auto.
  - case_bool_decide as Hd; [|done]. intros _. apply nil_length_inv. lia.
  - case_bool_decide; [done|]. intros _. destruct (H4 Hc). lia.
Qed.

Lemma ffStep_inv s ev r : sloppyExit = false → ffInv s → ffStep s ev = Some r → ∃ s', r = Some s' ∧ ffInv s'.
Proof.
  intros Hsl Hs. pose proof Hs as (H1 & H2 & H3 & H4). destruct ev as [i reply|i sent|i|]; cbn [ffStep].
  - destruct (ff_threads s !! i) as [[| |]|] eqn:Hi; try done. destruct (ff_closed s) eqn:Hc; [by rewrite H3 in Hi|].
    destruct reply as [provs|]; intros [= <-]; (eexists; split; [done|]); unfold ffInv; cbn; rewrite ?Hc, ?length_insert; (split; [|split; [|split]]; try done).
    + eapply outOk_seen; [done|]. intros a Ha. apply elem_of_app. by right.
    + intros ps ai [[= ->]|Ht]%elem_of_insert_thread Hai; apply elem_of_app; [by left|right; eauto].
    + intros ps ai [?|Ht]%elem_of_insert_thread Hai; [done|eauto].
  - destruct (ff_threads s !! i) as [[|[|ai provs]|]|] eqn:Hi; try done; (destruct (ff_closed s) eqn:Hc; [by rewrite H3 in Hi|]).
    + intros [= <-]. eexists. split; [done|]. unfold ffInv. cbn. rewrite ?Hc, ?length_insert. split; [|split; [|split]]; try done.
      intros ps a [?|Ht]%elem_of_insert_thread Ha; [done|eauto].
    + destruct (fullrt_findOne (ff_ids s) (ff_out s) ai sent) as [[ids outs] r'] eqn:Ho. rewrite decide_False by (by intros []).
      intros [= <-]. eexists. split; [done|]. apply list_elem_of_lookup_2 in Hi.
      destruct (findOne_outOk _ _ _ _ _ _ _ _ H1 (H2 _ ai Hi ltac:(left)) Ho) as [Hok _].
      unfold ffInv. cbn. rewrite ?Hc, ?length_insert. split; [|split; [|split]]; try done.
      intros ps a [Hp|Ht]%elem_of_insert_thread Ha; [|eauto]. destruct r' as [[]|]; try done. injection Hp as ->. eapply H2; [done|by right].
  - destruct (ff_closed s) eqn:Hc; [done|]. destruct (ff_threads s !! i) as [[| |ok]|] eqn:Hi; try done. intros [= <-]. eexists. split; [done|].
    apply ffExec_inv; try done; [intros t Ht; eapply elem_of_submseteq; [done|apply submseteq_delete]|]. rewrite length_delete by (by eexists).
    pose proof (lookup_lt_Some _ _ _ Hi). destruct (H4 eq_refl). destruct ok; cbn; lia.
  - destruct (ff_closed s) eqn:Hc; [done|]. intros [= <-]. eexists. split; [done|]. apply ffExec_inv; try done.
    destruct (H4 eq_refl). cbn. destruct (ticker (ff_exec s)); [|done]. by case_decide.
Qed.
(** *** All providers *)

(** Steps in which the context does not end. *)
Definition ffLive s s' : Prop := ∃ ev, (∀ i sent, ev = FfOne i sent → sent = true) ∧ ffStep s ev = Some (Some s').

(** Every provider that was named was sent, is still handled, or there are enough. *)
Definition allInv s : Prop :=
  ff_ids s = list_to_set (ai_ID <$> ff_out s) ∧
  ∀ ai, ai ∈ ff_seen s → ai_ID ai ∈ ff_ids s ∨ fullrt_enough (ff_ids s) = true ∨ ∃ provs, TProvs provs ∈ ff_threads s ∧ ai ∈ provs.

Lemma frtFindOne_all ids outs ai ids' outs' r :
  ids = list_to_set (ai_ID <$> outs) → fullrt_findOne ids outs ai true = (ids', outs', r) →
  ids' = list_to_set (ai_ID <$> outs') ∧ ids ⊆ ids' ∧ (ai_ID ai ∈ ids' ∨ fullrt_enough ids' = true) ∧ r = Some (negb (fullrt_enough ids')).
Proof.
  intros Hids. unfold fullrt_findOne, fullrt_psTryAdd. destruct (decide (_ ∧ _)) as [Hd|Hd]; cbn; intros [= <- <- <-].
  - split_and!; [by rewrite Hids|set_solver|left; set_solver|done].
  - split_and!; [done|done| |done]. destruct (decide (ai_ID ai ∈ ids)); [by left|right]. unfold fullrt_enough. rewrite bool_decide_eq_true.
    destruct (decide (size ids < count ∨ count = 0)); [tauto|lia].
Qed.

Lemma enough_mono ids ids' : ids ⊆ ids' → fullrt_enough ids = true → fullrt_enough ids' = true.
Proof. unfold fullrt_enough. rewrite !bool_decide_eq_true. intros ?%subseteq_size ?. lia. Qed.

Lemma frtFindLocal_all ids outs provs ids' outs' ask :
  ids = list_to_set (ai_ID <$> outs) → fullrt_findLocal ids outs provs (λ _, true) = (ids', outs', ask) →
  ids' = list_to_set (ai_ID <$> outs') ∧ ids ⊆ ids' ∧ ∀ ai, ai ∈ provs → ai_ID ai ∈ ids' ∨ fullrt_enough ids' = true.
Proof.
  revert ids outs. induction provs as [|p provs IH]; intros ids outs Hids; cbn [fullrt_findLocal].
  { intros [= <- <- _]. split_and!; [done|done|]. intros ? Ha. by apply not_elem_of_nil in Ha. }
  destruct (fullrt_findOne ids outs p true) as [[ids1 outs1] r] eqn:Ho. destruct (frtFindOne_all _ _ _ _ _ _ Hids Ho) as (H1 & H2 & H3 & ->).
  destruct (fullrt_enough ids1) eqn:He; cbn [negb].
  - intros [= <- <- _]. split_and!; [done|done|]. by right.
  - intros Hl. destruct (IH _ _ H1 Hl) as (I1 & I2 & I3). split_and!; [done|set_solver|]. intros ai [->|Ha]%elem_of_cons; [|auto].
    destruct H3 as [H3|?]; [left; set_solver|done].
Qed.

Lemma ffStart_all provs peersOk : allInv (ffStart provs (λ _, true) peersOk).
Proof.
  unfold ffStart. destruct (fullrt_findLocal ∅ [] provs _) as [[ids outs] ask] eqn:Hl. destruct (frtFindLocal_all ∅ [] provs ids outs ask eq_refl Hl) as (H1 & _ & H3).
  destruct (ask && peersOk); (split; [done|]); cbn; intros ai Ha; destruct (H3 ai Ha); auto.
Qed.

Lemma elem_of_delete_other (l : list ffThread) i x y : l !! i = Some y → x ∈ l → x ≠ y → x ∈ delete i l.
Proof. intros Hi Hx Hne. rewrite (delete_Permutation l i y Hi) in Hx. by apply elem_of_cons in Hx as [?|?]. Qed.

(** Goroutine [i] goes on as [t]; its providers are those of [t] or handled. *)
Lemma insert_all (ids : gset peerID) (seen : list AddrInfo) (l : list ffThread) i y t :
  l !! i = Some y → (∀ provs ai, y = TProvs provs → ai ∈ provs → ai_ID ai ∈ ids ∨ fullrt_enough ids = true ∨ ∃ provs', t = TProvs provs' ∧ ai ∈ provs') →
  (∀ ai, ai ∈ seen → ai_ID ai ∈ ids ∨ fullrt_enough ids = true ∨ ∃ provs, TProvs provs ∈ l ∧ ai ∈ provs) →
  ∀ ai, ai ∈ seen → ai_ID ai ∈ ids ∨ fullrt_enough ids = true ∨ ∃ provs, TProvs provs ∈ <[i := t]> l ∧ ai ∈ provs.
Proof.
  intros Hi Hy Hall ai Ha. pose proof (lookup_lt_Some _ _ _ Hi) as Hlt. destruct (Hall ai Ha) as [?|[?|(provs & [j Hj]%list_elem_of_lookup & Hai)]]; [auto|auto|].
  destruct (decide (i = j)) as [<-|Hne].
  - rewrite Hi in Hj. injection Hj as ->. destruct (Hy provs ai eq_refl Hai) as [?|[?|(provs' & -> & Hai')]]; [auto|auto|]. right. right. exists provs'.
    split; [|done]. apply list_elem_of_lookup. exists i. by apply list_lookup_insert_eq.
  - right. right. exists provs. split; [|done]. apply list_elem_of_lookup. exists j. by rewrite list_lookup_insert_ne.
Qed.

Lemma ffStep_all s s' : ffLive s s' → allInv s → allInv s'.
Proof.
  intros (ev & Hev & Hst) [H1 H2]. unfold allInv. destruct ev as [i reply|i sent|i|]; cbn [ffStep] in Hst.
  - destruct (ff_threads s !! i) as [[| |]|] eqn:Hi; try done. destruct reply as [provs|]; injection Hst as <-; cbn; (split; [done|]).
    + intros ai [Ha|Ha]%elem_of_app; [|by eapply insert_all; [done|done|exact H2|done]]. right. right. exists provs. split; [|done].
      apply list_elem_of_lookup. exists i. apply list_lookup_insert_eq. by eapply lookup_lt_Some.
    + by eapply insert_all.
  - specialize (Hev i sent eq_refl) as ->. destruct (ff_threads s !! i) as [[|[|p provs]|]|] eqn:Hi; try done.
    + injection Hst as <-. cbn. split; [done|]. eapply insert_all; [done| |done]. intros ? ai [= <-] Hai. by apply not_elem_of_nil in Hai.
    + destruct (fullrt_findOne _ _ p true) as [[ids outs] r] eqn:Ho. case_decide; [done|]. injection Hst as <-. cbn.
      destruct (frtFindOne_all _ _ _ _ _ _ H1 Ho) as (I1 & I2 & I3 & ->). split; [done|]. eapply insert_all; [done| |].
      * intros ? ai [= <-] [->|Hai]%elem_of_cons; [tauto|]. destruct (fullrt_enough ids); [auto|]. right. right. by exists provs.
      * intros ai Ha. destruct (H2 ai Ha) as [?|[?%(enough_mono _ _ I2)|?]]; [left; set_solver|auto|auto].
  - destruct (ff_closed s); [done|]. destruct (ff_threads s !! i) as [[| |ok]|] eqn:Hi; try done. injection Hst as <-.
    unfold ffExec. destruct (execStep _ _ _ _ _) as [e ret]. cbn. split; [done|]. intros ai Ha.
    destruct (H2 ai Ha) as [?|[?|(provs & Hp & Hai)]]; [auto|auto|]. right. right. exists provs. split; [|done]. by eapply elem_of_delete_other.
  - destruct (ff_closed s); [done|]. injection Hst as <-. unfold ffExec. by destruct (execStep _ _ _ _ _).
Qed.

Lemma ffRel_inv s s' : sloppyExit = false → ffInv s → rtc ffRel s s' → ffInv s'.
Proof.
  intros Hsl Hs Hr. induction Hr as [|s1 s2 s3 [ev Hev] _ IH]; [done|]. apply IH. by destruct (ffStep_inv s1 ev _ Hsl Hs Hev) as (? & [= <-] & ?).
Qed.

End find.

(** ** Finding a peer *)

Section peer.
Context {ML : MaLib}.
Variables (self : peerID) (connected : peerID → bool) (PeerInfo : peerID → AddrInfo).

Definition fullrt_FindLocal (id : peerID) : AddrInfo := if connected id then PeerInfo id else mkAddrInfo [] [].

(** [maybeAddAddrs] on the addresses of the peerstore. *)
Definition fullrt_maybeAddAddrs (ps : gmap peerID (list MA)) (p : peerID) (addrs : list MA) : gmap peerID (list MA) :=
  if bool_decide (p = self) || connected p then ps else <[p := default [] (ps !! p) ++ addrs]> ps.

(** The addresses that the goroutine of [FindPeer] collects of the replies. *)
Definition replyAddrs (id : peerID) (replies : list (option (list AddrInfo))) : list MA :=
  newAddrsLoop [] ∅ (replies ≫= λ r, match r ≫= findReply id with Some ai => ai_Addrs ai | None => [] end).

(** [FindPeer]: the addresses that are dialled, if any, and the result, for the
    replies and the connectedness at the end. *)
Definition fullrt_FindPeer (id : peerID) (closest : option (list peerID)) (replies : list (option (list AddrInfo))) (connectedAfter : bool) :
    option (list MA) * (findError + AddrInfo) :=
  if decide (length id = 0) then (None, inl BadId)
  else
    let pi := fullrt_FindLocal id in
    if decide (ai_ID pi ≠ []) then (None, inr pi)
    else
      match closest with
      | None => (None, inl LookupFailed)
      | Some _ =>
          let newAddrs := replyAddrs id replies in
          (if decide (0 < length newAddrs) then Some newAddrs else None, if connectedAfter then inr (PeerInfo id) else inl PeerNotFound)
      end.

Lemma newAddrsLoop_spec (new : list MA) (seen : gset (list Z)) (addrs : list MA) :
  list_to_set (ma_Bytes <$> new) = seen → NoDup (ma_Bytes <$> new) →
  NoDup (ma_Bytes <$> newAddrsLoop new seen addrs) ∧
  ∀ b, b ∈ ma_Bytes <$> newAddrsLoop new seen addrs ↔ b ∈ ma_Bytes <$> new ∨ b ∈ ma_Bytes <$> addrs.
Proof.
  revert new seen. induction addrs as [|a addrs IH]; intros new seen Hs Hnd; cbn [newAddrsLoop].
  - split; [done|]. intros b. split; [by left|]. intros [?|Hb]; [done|]. by apply not_elem_of_nil in Hb.
  - case_decide as Ha.
    + destruct (IH new seen Hs Hnd) as [I1 I2]. split; [done|]. intros b. rewrite I2, fmap_cons, elem_of_cons.
      subst seen. apply elem_of_list_to_set in Ha. split; [tauto|]. intros [?|[->|?]]; auto.
    + destruct (IH (new ++ [a]) ({[ma_Bytes a]} ∪ seen)) as [I1 I2].
      * rewrite fmap_app, list_to_set_app_L, Hs. cbn. set_solver.
      * rewrite fmap_app. apply NoDup_app. split_and!; [done| |apply NoDup_singleton]. intros b Hb ->%list_elem_of_singleton. apply Ha. subst seen.
        by apply elem_of_list_to_set.
      * split; [done|]. intros b. rewrite I2, fmap_app, !fmap_cons, elem_of_app, !elem_of_cons, elem_of_nil. tauto.
Qed.

(** A peer that is not connected is dialled with the addresses that the replies
    name for it, each once. *)
Lemma fullrt_FindPeer_spec id peers replies connectedAfter :
  id ≠ [] → connected id = false →
  let '(dial, r) := fullrt_FindPeer id (Some peers) replies connectedAfter in
  r = (if connectedAfter then inr (PeerInfo id) else inl PeerNotFound) ∧ NoDup (ma_Bytes <$> default [] dial) ∧
  ∀ b, b ∈ ma_Bytes <$> default [] dial ↔ ∃ reply ai a, Some reply ∈ replies ∧ findReply id reply = Some ai ∧ a ∈ ai_Addrs ai ∧ ma_Bytes a = b.
Proof.
  intros Hid Hc. unfold fullrt_FindPeer, fullrt_FindLocal. rewrite Hc. rewrite decide_False by (by destruct id). cbn [ai_ID]. rewrite decide_False by (by intros []).
  split; [done|]. destruct (newAddrsLoop_spec [] ∅ (replies ≫= λ r, match r ≫= findReply id with Some ai => ai_Addrs ai | None => [] end) eq_refl (NoDup_nil_2)) as [H1 H2].
  fold (replyAddrs id replies) in H1, H2.
  assert (default [] (if decide (0 < length (replyAddrs id replies)) then Some (replyAddrs id replies) else None) = replyAddrs id replies) as ->.
  { case_decide; [done|]. symmetry. apply nil_length_inv. cbn. lia. }
  split; [done|]. intros b. rewrite H2. split.
  - intros [Hb|(a & -> & Ha)%list_elem_of_fmap]; [by apply not_elem_of_nil in Hb|]. apply list_elem_of_bind in Ha as ([reply|] & Ha & Hr); cbn in Ha; [|by apply not_elem_of_nil in Ha].
    destruct (findReply id reply) as [ai|] eqn:Hf; [|by apply not_elem_of_nil in Ha]. by exists reply, ai, a.
  - intros (reply & ai & a & Hr & Hf & Ha & <-). right. apply list_elem_of_fmap. exists a. split; [done|]. apply list_elem_of_bind. exists (Some reply). cbn. by rewrite Hf.
Qed.
End peer.

(** ** Examples *)

#[local] Existing Instances okDs okDs_laws demoMa.

(** Three peers are asked; one fails. *)
Definition demoExec : list execEvent := [ExecDone true; ExecTick; ExecDone false; ExecDone true].
Definition demoPutFull := fullrt_PutValue (DL := okDs) true demoEnc32 demoMarshal demoUnmarshal demoValidate demoSelect (λ n, n / 3) demoLocal [9%Z] [4%Z] 5 (Some [[1%Z]; [2%Z]; [3%Z]]) demoExec.

Lemma fullrt_PutValue_correct_witness :
  ∃ d' rec err, demoPutFull = Some (d', (λ p, (p, rec)) <$> [[1%Z]; [2%Z]; [3%Z]], err) ∧ rec = mkRecord [9%Z] [4%Z] (Some 5%Z) ∧ (err = None ↔ 0 < oks demoExec).
Proof.
  pose proof (fullrt_PutValue_correct (DL := okDs) true demoEnc32 demoMarshal demoUnmarshal demoValidate demoSelect (λ n, n / 3) demoLocal [9%Z] [4%Z] 5
    (Some [[1%Z]; [2%Z]; [3%Z]]) demoExec ltac:(by intros ? [= <-])) as H.
  assert (∃ rec, (PutValue_local true demoEnc32 demoMarshal demoUnmarshal demoValidate demoSelect demoLocal [9%Z] [4%Z] 5).2 = inr rec) as [rec0 Hr].
  { eexists. vm_compute. reflexivity. }
  destruct (PutValue_local true demoEnc32 demoMarshal demoUnmarshal demoValidate demoSelect demoLocal [9%Z] [4%Z] 5) as [d' r]. cbn in Hr. subst r.
  destruct H as (err & H1 & H2 & H3). exists d', rec0, err. exact (conj H1 (conj H2 H3)).
Defined.

(** One provider in the store, and two peers: the first names two providers. *)
Definition demoProvs : list AddrInfo := [mkAddrInfo [1%Z] []].
Definition demoFf0 : ffState := ffStart 2 2 demoProvs (λ _, true) true.
Definition ffRun (count nPeers wait : nat) (sloppy : bool) (s : ffState) (evs : list ffEvent) : option ffState :=
  foldl (λ r e, s ← r; default (Some s) (ffStep count nPeers wait sloppy s e)) (Some s) evs.
Definition demoFfEvents : list ffEvent :=
  [FfReply 0 (Some [mkAddrInfo [1%Z] [7%Z]; mkAddrInfo [2%Z] []]); FfOne 0 true; FfOne 0 true; FfReply 1 None; FfRecv 1; FfRecv 0].
Definition demoFfEnd : ffState := mkFf {[[1%Z]; [2%Z]]} [mkAddrInfo [2%Z] []; mkAddrInfo [1%Z] []] true [] (mkExec 2 1 1 true)
  [mkAddrInfo [1%Z] [7%Z]; mkAddrInfo [2%Z] []; mkAddrInfo [1%Z] []].

Lemma ffRun_live count nPeers wait sloppy evs s s1 s' :
  Forall (λ e, ∀ i sent, e = FfOne i sent → sent = true) evs →
  rtc (ffLive count nPeers wait sloppy) s s1 → ffRun count nPeers wait sloppy s1 evs = Some s' → rtc (ffLive count nPeers wait sloppy) s s'.
Proof.
  unfold ffRun. intros Hevs. revert s1. induction Hevs as [|e evs He _ IH]; intros s1 Hr Hs; [by injection Hs as <-|]. cbn in Hs.
  destruct (ffStep count nPeers wait sloppy s1 e) as [[s2|]|] eqn:Hst; cbn in Hs.
  - apply (IH s2); [|done]. eapply rtc_r; [done|by exists e].
  - exfalso. clear -Hs. induction evs as [|e' evs IH]; cbn in Hs; [done|auto].
  - by apply (IH s1).
Qed.

Lemma demoFf_reach : rtc (ffLive 2 2 1 false) demoFf0 demoFfEnd.
Proof.
  eapply (ffRun_live _ _ _ _ demoFfEvents); [|apply rtc_refl|vm_compute; reflexivity]. unfold demoFfEvents.
  repeat (apply Forall_cons; split; [by intros ? ? [=]|]). apply Forall_nil. done.
Qed.


(** With an early exit the channel would be closed while a goroutine sends. *)
Lemma ffStep_sloppy_panics :
  ∃ s, ffRun 0 2 1 true (ffStart 0 2 [] (λ _, true) true) [FfReply 0 (Some []); FfReply 1 (Some demoProvs); FfOne 0 true; FfRecv 0] = Some s ∧
    ffStep 0 2 1 true s (FfOne 0 true) = Some None.
Proof. eexists. split; vm_compute; reflexivity. Qed.
