(* ===== verification/NetSize.v ===== *)
(** * The estimate of the network size

    [netsize/netsize.go]: the measurements that an [Estimator] keeps of the
    distances of the closest peers, their age and number, the regression and the
    cache of its result.

    Floating-point numbers are the class [GoFloat] of the operations that the
    code uses: Go may fuse operations, so that their rounding is not fixed; the
    instance [binary64] has the operations of IEEE 754.  The routing table and
    the hash of keys are parameters.  A [time.Time] is an integer; a mutex makes
    every method one step. *)

From S2P Require Import Prelude GoTime Datastore Message.
From Stdlib Require Import SpecFloat.

Local Open Scope Z_scope.

Class GoFloat := {
  F64 : Type;
  f_ofZ : Z → F64;
  f_add : F64 → F64 → F64;
  f_sub : F64 → F64 → F64;
  f_mul : F64 → F64 → F64;
  f_div : F64 → F64 → F64;
  f_sqrt : F64 → F64;
  f_pow2 : Z → F64;        (* [math.Pow(2, n)] *)
  f_quo : Z → Z → F64;     (* [big.Float.Quo] and [Float64] *)
  f_int32 : F64 → Z;
  f_int64 : F64 → Z;
}.

(** ** [sort.Search] *)

Fixpoint searchLoop (fuel : nat) (f : nat → bool) (i j : nat) : nat :=
  match fuel with
  | O => i
  | S fuel =>
      if decide (i < j)%nat then
        let h := Nat.div2 (i + j) in
        if f h then searchLoop fuel f i h else searchLoop fuel f (S h) j
      else i
  end.
Definition sort_Search (n : nat) (f : nat → bool) : nat := searchLoop n f 0 n.

Lemma searchLoop_spec fuel f i j :
  (i ≤ j)%nat → (j - i ≤ fuel)%nat → (∀ a b, (a ≤ b)%nat → f a = true → f b = true) →
  let r := searchLoop fuel f i j in
  (i ≤ r ≤ j)%nat ∧ (∀ a, (i ≤ a < r)%nat → f a = false) ∧ (∀ a, (r ≤ a < j)%nat → f a = true).
Proof.
  revert i j. induction fuel as [|fuel IH]; intros i j Hij Hf Hmono; cbn [searchLoop].
  { split; [lia|]. split; [lia|]. lia. }
  case_decide as Hlt; [|split; [lia|]; split; lia].
  pose proof (Nat.div2_odd (i + j)). pose proof (Nat.b2n (Nat.odd (i + j))) as b.
  assert (i ≤ Nat.div2 (i + j) < j)%nat as Hh by (destruct (Nat.odd (i + j)); cbn in *; lia).
  set (h := Nat.div2 (i + j)) in *. clearbody h. destruct (f h) eqn:Hfh.
  - destruct (IH i h) as (H1 & H2 & H3); [lia|lia|done|]. split; [lia|]. split; [done|]. intros a Ha.
    destruct (decide (a < h)%nat); [apply H3; lia|]. apply (Hmono h a); [lia|done].
  - destruct (IH (S h) j) as (H1 & H2 & H3); [lia|lia|done|]. split; [lia|]. split; [|done]. intros a Ha.
    destruct (decide (S h ≤ a)%nat); [apply H2; lia|]. destruct (f a) eqn:Hfa; [|done]. rewrite (Hmono a h) in Hfh; [done|lia|done].
Qed.

(** The last [n] entries. *)
Definition lastN {A} (n : nat) (l : list A) : list A := drop (length l - n) l.

Lemma lastN_app {A} n (l1 l2 : list A) : (length l2 ≤ n)%nat → lastN n (l1 ++ l2) = lastN (n - length l2) l1 ++ l2.
Proof.
  intros Hl. unfold lastN. rewrite length_app, drop_app. replace (length l1 + length l2 - n - length l1)%nat with 0%nat by lia.
  rewrite drop_0. do 2 f_equal. lia.
Qed.

(** In a sorted list the entries above a bound are a suffix. *)
Lemma sorted_split (c : Z) l :
  StronglySorted Z.le l → ∃ d, l = d ++ filter (λ t, c < t) l ∧ Forall (λ t, t ≤ c) d.
Proof.
  induction 1 as [|x l Hs (d & Hl & Hd) Hx]; [by exists []|]. destruct (decide (c < x)) as [Hc|Hc].
  - exists []. split; [|done]. rewrite list_filter_all; [done|]. apply Forall_forall. constructor; [done|]. eapply Forall_impl; [done|]. cbn. lia.
  - exists (x :: d). rewrite filter_cons_False by done. split; [cbn; by rewrite <-Hl|]. constructor; [lia|done].
Qed.

Section estimator.
Context {GF : GoFloat}.
(** The common prefix length of a key with that of the node, the number of peers
    of the routing table for a length, and the hash of a key. *)
Context (cplKey : bytes → Z) (cplPeer : peerID → Z) (NPeersForCpl : Z → Z) (ksKey : bytes → Z).
Context (bucketSize : nat).

Definition invalidEstimate : Z := -1.
Definition MaxMeasurementAge : Z := 2 * Hour.
Definition MinMeasurementsThreshold : nat := 5.
Definition MaxMeasurementsThreshold : nat := 150.

Record measurement := mkMeasurement { distance : F64; weight : F64; timestamp : Z }.

(** The measurements of the closest peer, the second closest one and so on. *)
Record Estimator := mkEstimator { measurements : list (list measurement); netSizeCache : Z }.
Implicit Types (e : Estimator) (ms : list measurement).

Definition NewEstimator : Estimator := mkEstimator (replicate bucketSize []) invalidEstimate.

Definition NormedDistance (p : peerID) (k : Z) : F64 := f_quo (Z.lxor (ksKey p) k) (2 ^ 256 - 1).

(** [calcWeight] *)
Definition calcWeight (key : bytes) (peers : list peerID) : F64 :=
  let cpl := cplKey key in
  let bucketLevel := NPeersForCpl cpl in
  let peerLevel := Z.of_nat (length (filter (λ p, cpl = cplPeer p) peers)) in
  if decide (bucketLevel < Z.of_nat bucketSize ∧ bucketLevel < peerLevel) then f_pow2 (peerLevel - Z.of_nat bucketSize)
  else f_pow2 (bucketLevel - Z.of_nat bucketSize).

(** The first measurement that is not too old. *)
Definition firstRecent (maxAgeTs : Z) ms : nat :=
  sort_Search (length ms) (λ j, match ms !! j with Some m => bool_decide (maxAgeTs < timestamp m) | None => true end).

(** The body of the loop of [Track]. *)
Definition trackOne (now : Z) (weight : F64) (ksKey : Z) (p : peerID) ms : list measurement :=
  let m := mkMeasurement (NormedDistance p ksKey) weight now in
  let measurements := ms ++ [m] in
  let n := length measurements in
  let idx := firstRecent (time_Add now (- MaxMeasurementAge)) measurements in
  let measurements := if decide (idx ≠ 0%nat) then drop idx measurements else measurements in
  if decide (MaxMeasurementsThreshold < length measurements)%nat
  then drop (length measurements - MaxMeasurementsThreshold) measurements else measurements.

(** [Track]; [None] is [ErrWrongNumOfPeers]. *)
Definition Track (now : Z) (key : bytes) (peers : list peerID) e : option Estimator :=
  if decide (length peers ≠ bucketSize) then None
  else Some (mkEstimator (zip_with (trackOne now (calcWeight key peers) (ksKey key)) peers (measurements e)) invalidEstimate).

(** The body of the loop of [garbageCollect]. *)
Definition gcOne (now : Z) ms : list measurement :=
  let idx := firstRecent (time_Add now (- MaxMeasurementAge)) ms in
  if decide (idx = length ms) then [] else if decide (idx ≠ 0%nat) then drop idx ms else ms.

Definition garbageCollect (now : Z) e : Estimator := mkEstimator (gcOne now <$> measurements e) (netSizeCache e).

(** The averages of the distances and their deviations. *)
Definition averages ms : F64 * F64 :=
  let '(sumDistances, sumWeights) :=
    foldl (λ '(d, w) m, (f_add d (f_mul (weight m) (distance m)), f_add w (weight m))) (f_ofZ 0, f_ofZ 0) ms in
  let distanceAvg := f_div sumDistances sumWeights in
  let sumWeightedDiffs := foldl (λ s m, let diff := f_sub (distance m) distanceAvg in f_add s (f_mul (f_mul (weight m) diff) diff)) (f_ofZ 0) ms in
  let observationCount := Z.of_nat (length ms) in
  let variance := f_div sumWeightedDiffs (f_mul (f_div (f_ofZ (observationCount - 1)) (f_ofZ observationCount)) sumWeights) in
  (distanceAvg, f_sqrt variance).

(** The regression through the origin; [i] counts from 1. *)
Fixpoint regression (i : Z) (data : list (F64 * F64)) (sums : F64 * F64) : F64 * F64 :=
  match data with
  | [] => sums
  | (yi, yerr) :: data =>
      let xi := f_ofZ i in
      regression (i + 1) data (f_add sums.1 (f_mul (f_mul yerr xi) yi), f_add sums.2 (f_mul (f_mul yerr xi) xi))
  end.

Definition estimate (mss : list (list measurement)) : Z :=
  let '(xySum, x2Sum) := regression 1 (averages <$> mss) (f_ofZ 0, f_ofZ 0) in
  f_int32 (f_sub (f_div (f_ofZ 1) (f_div xySum x2Sum)) (f_ofZ 1)).

(** [NetworkSize]; [None] is [ErrNotEnoughData]. *)
Definition NetworkSize (now : Z) e : option Z * Estimator :=
  if decide (netSizeCache e ≠ invalidEstimate) then (Some (netSizeCache e), e)
  else
    let e := garbageCollect now e in
    if existsb (λ ms, bool_decide (length ms < MinMeasurementsThreshold)%nat) (measurements e) then (None, e)
    else
      let netSize := estimate (measurements e) in
      (Some netSize, mkEstimator (measurements e) netSize).

(** ** The measurements that are kept *)

Abbreviation recent now := (λ t : Z, now - MaxMeasurementAge < t).

(** Times in ascending order: the recent ones are a suffix. *)
Lemma firstRecent_spec maxAgeTs ms :
  StronglySorted Z.le (timestamp <$> ms) → drop (firstRecent maxAgeTs ms) ms = filter (λ m, maxAgeTs < timestamp m) ms.
Proof.
  intros Hs. unfold firstRecent, sort_Search.
  match goal with |- context [searchLoop _ ?f _ _] => set (g := f) end.
  destruct (searchLoop_spec (length ms) g 0 (length ms)) as (H1 & H2 & H3); [lia|lia| |].
  - intros a b Hab. unfold g. destruct (ms !! b) as [mb|] eqn:Hb; [|done]. destruct (ms !! a) as [ma|] eqn:Ha.
    2:{ apply lookup_lt_Some in Hb. apply lookup_ge_None in Ha. lia. }
    rewrite !bool_decide_eq_true. assert (timestamp ma ≤ timestamp mb); [|lia].
    destruct (decide (a = b)) as [->|Hne]; [rewrite Ha in Hb; by injection Hb as ->|].
    apply (StronglySorted_app_1_elem_of Z.le (take b (timestamp <$> ms)) (drop b (timestamp <$> ms))); [by rewrite take_drop| |].
    + apply list_elem_of_lookup. exists a. rewrite lookup_take_lt by lia. by rewrite list_lookup_fmap, Ha.
    + apply list_elem_of_lookup. exists 0%nat. rewrite lookup_drop, Nat.add_0_r. by rewrite list_lookup_fmap, Hb.
  - set (r := searchLoop (length ms) g 0 (length ms)) in *. clearbody r.
    rewrite <-(take_drop r ms) at 2. rewrite filter_app. rewrite (list_filter_none _ (take r ms)), (list_filter_all _ (drop r ms)); [done| |].
    + apply Forall_forall, Forall_lookup. intros a m Hm. rewrite lookup_drop in Hm. pose proof (lookup_lt_Some _ _ _ Hm).
      assert (g (r + a)%nat = true) as Hg by (apply H3; lia). unfold g in Hg. rewrite Hm in Hg. by apply bool_decide_eq_true in Hg.
    + apply Forall_forall, Forall_lookup. intros a m Hm. apply lookup_take_Some in Hm as [Hm Ha].
      assert (g a = false) as Hg by (apply H2; lia). unfold g in Hg. rewrite Hm in Hg. by apply bool_decide_eq_false in Hg.
Qed.

Lemma trackOne_spec now w k p ms :
  StronglySorted Z.le (timestamp <$> ms) → Forall (λ t, t ≤ now) (timestamp <$> ms) →
  trackOne now w k p ms = lastN 150 (filter (λ m, recent now (timestamp m)) (ms ++ [mkMeasurement (NormedDistance p k) w now])).
Proof.
  intros Hs Hle. unfold trackOne. set (l := ms ++ _).
  assert (StronglySorted Z.le (timestamp <$> l)) as Hl.
  { unfold l. rewrite fmap_app. apply StronglySorted_app. split_and!; [|done|repeat constructor].
    intros x y Hx ->%list_elem_of_singleton. cbn. rewrite Forall_forall in Hle. by apply Hle. }
  replace (if decide (_ ≠ 0%nat) then drop _ l else l) with (drop (firstRecent (time_Add now (- MaxMeasurementAge)) l) l).
  2:{ case_decide as Hd; [done|]. by rewrite Hd. }
  rewrite (firstRecent_spec _ _ Hl). unfold lastN, MaxMeasurementsThreshold. change (time_Add now (- MaxMeasurementAge)) with (now - MaxMeasurementAge).
  case_decide; [done|]. replace (length _ - 150)%nat with 0%nat by lia. done.
Qed.

Lemma gcOne_spec now ms : StronglySorted Z.le (timestamp <$> ms) → gcOne now ms = filter (λ m, recent now (timestamp m)) ms.
Proof.
  intros Hs. etrans; [|exact (firstRecent_spec (now - MaxMeasurementAge) ms Hs)]. unfold gcOne. change (time_Add now (- MaxMeasurementAge)) with (now - MaxMeasurementAge).
  case_decide as He; [by rewrite He, drop_all|]. case_decide as H0; [done|]. by rewrite H0.
Qed.

Lemma fmap_filter_timestamp (P : Z → Prop) `{!∀ x, Decision (P x)} ms : timestamp <$> filter (λ m, P (timestamp m)) ms = filter P (timestamp <$> ms).
Proof. induction ms as [|m ms IH]; [done|]. rewrite fmap_cons, !filter_cons. case_decide; cbn; by rewrite IH. Qed.

Lemma trackOne_times now w k p ms :
  StronglySorted Z.le (timestamp <$> ms) → Forall (λ t, t ≤ now) (timestamp <$> ms) →
  timestamp <$> trackOne now w k p ms = lastN 150 (filter (recent now) ((timestamp <$> ms) ++ [now])).
Proof.
  intros Hs Hle. rewrite trackOne_spec by done. unfold lastN. rewrite fmap_drop, (fmap_filter_timestamp (recent now)), fmap_app.
  by rewrite <-(length_fmap timestamp), (fmap_filter_timestamp (recent now)), fmap_app.
Qed.

(** ** The invariant *)

Inductive esEvent := EsTrack (now : Z) (key : bytes) (peers : list peerID) | EsSize (now : Z).

Definition esTime (ev : esEvent) : Z := match ev with EsTrack now _ _ | EsSize now => now end.
Definition esStep e (ev : esEvent) : Estimator :=
  match ev with
  | EsTrack now key peers => default e (Track now key peers e)
  | EsSize now => (NetworkSize now e).2
  end.
Definition esRun e (evs : list esEvent) : Estimator := foldl esStep e evs.

(** The times of the calls of [Track] that were accepted. *)
Definition tracked (evs : list esEvent) : list Z :=
  omap (λ ev, match ev with EsTrack now _ peers => if decide (length peers = bucketSize) then Some now else None | EsSize _ => None end) evs.

(** [acc] are the times of the accepted calls and [ts] those of the measurements:
    the last of them, unless all others are too old. *)
Definition timesOk (clock : Z) (acc ts : list Z) : Prop :=
  ∃ old, acc = old ++ ts ∧ (length ts ≤ 150)%nat ∧ ((length ts < 150)%nat → Forall (λ t, t ≤ clock - MaxMeasurementAge) old) ∧
    StronglySorted Z.le acc ∧ Forall (λ t, t ≤ clock) acc.

Definition esInv (clock : Z) (acc : list Z) e : Prop :=
  length (measurements e) = bucketSize ∧ (∃ ts, timesOk clock acc ts ∧ Forall (λ ms, timestamp <$> ms = ts) (measurements e)) ∧
  (netSizeCache e ≠ invalidEstimate → netSizeCache e = estimate (measurements e) ∧
     Forall (λ ms, MinMeasurementsThreshold ≤ length ms)%nat (measurements e)).

Lemma timesOk_mono clock clock' acc ts : timesOk clock acc ts → clock ≤ clock' → timesOk clock' acc ts.
Proof.
  intros (old & H1 & H2 & H3 & H4 & H5) Hc. exists old. split_and!; try done.
  - intros Hl. eapply Forall_impl; [by apply H3|]. cbn. lia.
  - eapply Forall_impl; [done|]. cbn. lia.
Qed.

(** What is above the bound in the measurements is what is above it in the last
    150 calls. *)
Lemma timesOk_recent clock acc ts : timesOk clock acc ts → filter (recent clock) ts = filter (recent clock) (lastN 150 acc).
Proof.
  intros (old & -> & H2 & H3 & _). rewrite lastN_app, filter_app by done. destruct (decide (length ts < 150)%nat) as [Hl|Hl].
  - rewrite (list_filter_none _ (lastN _ old)); [done|]. intros t Ht Hr. specialize (H3 Hl). rewrite Forall_forall in H3.
    unfold lastN in Ht. assert (t ∈ old) as Ho by (rewrite <-(take_drop (length old - (150 - length ts)) old); apply elem_of_app; by right). specialize (H3 t Ho). cbn in *. lia.
  - replace (150 - length ts)%nat with 0%nat by lia. unfold lastN. rewrite Nat.sub_0_r, drop_all. done.
Qed.

(** Removing times that are too old. *)
Lemma timesOk_filter clock acc ts : timesOk clock acc ts → timesOk clock acc (filter (recent clock) ts).
Proof.
  intros (old & -> & H2 & H3 & H4 & H5). pose proof H4 as (Ho & Hs1 & Hs2)%StronglySorted_app.
  destruct (sorted_split (clock - MaxMeasurementAge) ts Hs2) as (d & Hts & Hd). exists (old ++ d). split_and!; [by rewrite <-app_assoc, <-Hts| | |done|done].
  - pose proof (length_filter (recent clock) ts). lia.
  - intros Hl. apply Forall_app. split; [|done]. destruct d as [|t d]; [rewrite Hts in H3; by apply H3|].
    apply Forall_cons in Hd as [Ht _]. apply Forall_forall. intros x Hx. assert (x ≤ t); [|lia]. apply Ho; [done|]. rewrite Hts. left.
Qed.

(** A new time, and the limit. *)
Lemma timesOk_track clock acc ts : timesOk clock acc ts → timesOk clock (acc ++ [clock]) (lastN 150 (filter (recent clock) (ts ++ [clock]))).
Proof.
  intros (old & -> & H2 & H3 & H4 & H5). pose proof H4 as (Ho & _ & Hs)%StronglySorted_app.
  assert (StronglySorted Z.le ((old ++ ts) ++ [clock])) as Hacc.
  { apply StronglySorted_app. split_and!; [|done|repeat constructor]. intros x y Hx ->%list_elem_of_singleton. rewrite Forall_forall in H5. by apply H5. }
  pose proof Hacc as Hs1. rewrite <-app_assoc in Hs1. apply StronglySorted_app in Hs1 as (Ho1 & _ & Hs1).
  destruct (sorted_split (clock - MaxMeasurementAge) (ts ++ [clock]) Hs1) as (d & Hts & Hd). set (l := filter (recent clock) (ts ++ [clock])) in *.
  assert (length ts + 1 = length d + length l)%nat as Hlen by (apply (f_equal length) in Hts; rewrite !length_app in Hts; cbn in Hts; lia).
  exists (old ++ d ++ take (length l - 150) l). split_and!.
  - unfold lastN. rewrite <-!app_assoc, take_drop, <-Hts. by rewrite app_assoc.
  - unfold lastN. rewrite length_drop. lia.
  - unfold lastN. rewrite length_drop. intros Hl. replace (length l - 150)%nat with 0%nat by lia. rewrite take_0, app_nil_r. apply Forall_app. split; [|done].
    destruct (decide (length ts < 150)%nat); [by apply H3|]. destruct d as [|t d]; [cbn in Hlen; lia|].
    apply Forall_cons in Hd as [Ht _]. apply Forall_forall. intros x Hx. assert (x ≤ t); [|lia]. apply Ho1; [done|]. rewrite Hts. left.
  - done.
  - apply Forall_app. split; [done|]. by rewrite Forall_singleton.
Qed.

Lemma NewEstimator_inv clock : esInv clock [] NewEstimator.
Proof.
  split_and!; [apply length_replicate| |done]. exists []. split; [|by apply Forall_replicate]. exists []. split_and!; [done|cbn; lia|done|constructor|done].
Qed.

Lemma timesOk_parts clock acc ts : timesOk clock acc ts → StronglySorted Z.le ts ∧ Forall (λ t, t ≤ clock) ts.
Proof. intros (old & -> & _ & _ & Hs & Hf). apply StronglySorted_app in Hs as (_ & _ & ?). by apply Forall_app in Hf as [_ ?]. Qed.

Lemma Track_inv now key peers e acc :
  esInv now acc e → length peers = bucketSize →
  ∃ e', Track now key peers e = Some e' ∧ esInv now (acc ++ [now]) e' ∧ netSizeCache e' = invalidEstimate.
Proof.
  intros (H1 & (ts & Hok & Hts) & _) Hp. unfold Track. rewrite decide_False by (by intros ?). eexists. split; [done|]. split; [|done].
  destruct (timesOk_parts _ _ _ Hok) as [Hs Hle]. split_and!; [cbn; rewrite length_zip_with; lia| |done].
  exists (lastN 150 (filter (recent now) (ts ++ [now]))). split; [by apply timesOk_track|]. cbn. apply Forall_lookup. intros i ms Hi.
  apply lookup_zip_with_Some in Hi as (p & ms0 & -> & _ & Hms). rewrite Forall_lookup in Hts. specialize (Hts i ms0 Hms).
  rewrite trackOne_times; by rewrite Hts.
Qed.

Lemma garbageCollect_times now e ts :
  StronglySorted Z.le ts → Forall (λ ms, timestamp <$> ms = ts) (measurements e) →
  measurements (garbageCollect now e) = filter (λ m, recent now (timestamp m)) <$> measurements e ∧
  Forall (λ ms, timestamp <$> ms = filter (recent now) ts) (measurements (garbageCollect now e)).
Proof.
  intros Hs Hts. assert (measurements (garbageCollect now e) = filter (λ m, recent now (timestamp m)) <$> measurements e) as Hg.
  { cbn. apply list_fmap_ext. intros i ms Hi. rewrite Forall_lookup in Hts. apply gcOne_spec. by rewrite (Hts i ms Hi). }
  split; [done|]. rewrite Hg. apply Forall_fmap. eapply Forall_impl; [done|]. intros ms Hms. cbn. by rewrite (fmap_filter_timestamp (recent now)), Hms.
Qed.

(** The result of [NetworkSize] when nothing is cached: the recent ones of the last
    150 measurements. *)
Lemma NetworkSize_inv now e acc :
  esInv now acc e → (0 < bucketSize)%nat →
  let '(r, e') := NetworkSize now e in
  esInv now acc e' ∧
  r = if decide (netSizeCache e ≠ invalidEstimate) then Some (estimate (measurements e))
      else if decide (length (filter (recent now) (lastN 150 acc)) < 5)%nat then None
      else Some (estimate (filter (λ m, recent now (timestamp m)) <$> measurements e)).
Proof.
  intros He Hb. pose proof He as (H1 & (ts & Hok & Hts) & Hc). unfold NetworkSize. case_decide as Hv; [destruct (Hc Hv) as [<- _]; done|].
  destruct (timesOk_parts _ _ _ Hok) as [Hs _]. destruct (garbageCollect_times now e ts Hs Hts) as [Hg Hgt].
  rewrite <-(timesOk_recent _ _ _ Hok). set (ts' := filter (recent now) ts) in *.
  assert (∀ ms, ms ∈ measurements (garbageCollect now e) → length ms = length ts') as Hlen.
  { intros ms Hms. rewrite Forall_forall in Hgt. by rewrite <-(Hgt ms Hms), length_fmap. }
  assert (length (measurements (garbageCollect now e)) = bucketSize) as Hn by (by rewrite Hg, length_fmap).
  assert (timesOk now acc ts') as Hok' by (by apply timesOk_filter).
  destruct (existsb _ _) eqn:Hex.
  - apply existsb_exists in Hex as (ms & Hms%list_elem_of_In & Hl). apply bool_decide_eq_true in Hl. rewrite (Hlen ms Hms) in Hl.
    split; [|by rewrite decide_True]. split_and!; [done|by exists ts'|]. cbn. by intros [].
  - assert (∀ ms, ms ∈ measurements (garbageCollect now e) → (5 ≤ length ms)%nat) as Hge.
    { intros ms Hms. destruct (decide (5 ≤ length ms)%nat); [done|]. exfalso. rewrite <-not_true_iff_false in Hex. apply Hex, existsb_exists. exists ms.
      split; [by apply list_elem_of_In|]. apply bool_decide_eq_true. unfold MinMeasurementsThreshold. lia. }
    split; [split_and!; [done|by exists ts'|]; intros _; split; [done|]; by apply Forall_forall|].
    rewrite decide_False; [by rewrite <-Hg|]. destruct (measurements (garbageCollect now e)) as [|ms l] eqn:Em; [cbn in Hn; lia|].
    rewrite <-(Hlen ms) by left. specialize (Hge ms ltac:(left)). lia.
Qed.

Lemma esStep_inv clock acc e ev :
  esInv clock acc e → clock ≤ esTime ev → (0 < bucketSize)%nat → esInv (esTime ev) (acc ++ tracked [ev]) (esStep e ev).
Proof.
  intros (H1 & (ts & Hok & Hts) & Hc) Ht Hb.
  assert (esInv (esTime ev) acc e) as He by (split_and!; [done|exists ts; split; [by eapply timesOk_mono|done]|done]).
  destruct ev as [now key peers|now]; cbn [esTime esStep] in *.
  - destruct (decide (length peers = bucketSize)) as [Hp|Hp].
    + destruct (Track_inv now key peers e acc He Hp) as (e' & -> & Hi & _). unfold tracked. cbn. by rewrite decide_True.
    + unfold tracked, Track. cbn. rewrite decide_False, decide_True by done. cbn. by rewrite app_nil_r.
  - unfold tracked. cbn. rewrite app_nil_r. pose proof (NetworkSize_inv now e acc He Hb) as Hn. by destruct (NetworkSize now e) as [r e'], Hn.
Qed.

Lemma esRun_inv evs clock :
  (0 < bucketSize)%nat → StronglySorted Z.le ((esTime <$> evs) ++ [clock]) → esInv clock (tracked evs) (esRun NewEstimator evs).
Proof.
  intros Hb. revert clock. induction evs as [|ev evs IH] using rev_ind; intros clock Hs; [apply NewEstimator_inv|].
  rewrite fmap_app in Hs. apply StronglySorted_app in Hs as (Hle & Hs & _). specialize (IH (esTime ev) Hs).
  pose proof (esStep_inv _ _ _ ev IH (Z.le_refl _) Hb) as (I1 & (ts & I2 & I3) & I4). unfold esRun. rewrite foldl_app. unfold tracked. rewrite omap_app.
  assert (esTime ev ≤ clock) as Hc by (apply Hle; [apply elem_of_app; right; left|left]).
  split_and!; [done|exists ts; split; [by eapply timesOk_mono|done]|done].
Qed.

(** C36: the estimate of the network size.  For every sequence of calls at
    ascending times: there are at most 150 measurements for each of the closest
    peers; a cached estimate is that of the measurements that are kept; without
    one, [NetworkSize] fails exactly if fewer than 5 of the last 150 calls of
    [Track] with enough peers are from the last two hours, and otherwise
    returns the estimate of exactly the measurements of these; and a call of
    [Track] invalidates the cache. *)
Theorem NetworkSize_correct evs now :
  (0 < bucketSize)%nat → StronglySorted Z.le ((esTime <$> evs) ++ [now]) →
  let e := esRun NewEstimator evs in
  Forall (λ ms, length ms ≤ 150)%nat (measurements e) ∧
  (NetworkSize now e).1 =
    (if decide (netSizeCache e ≠ invalidEstimate) then Some (estimate (measurements e))
     else if decide (length (filter (recent now) (lastN 150 (tracked evs))) < 5)%nat then None
     else Some (estimate (filter (λ m, recent now (timestamp m)) <$> measurements e))) ∧
  (netSizeCache e = invalidEstimate → Forall (λ ms, timestamp <$> filter (λ m, recent now (timestamp m)) ms = filter (recent now) (lastN 150 (tracked evs))) (measurements e)) ∧
  (∀ key peers e', Track now key peers e = Some e' → netSizeCache e' = invalidEstimate).
Proof.
  intros Hb Hs e. pose proof (esRun_inv evs now Hb Hs) as He. fold e in He. pose proof He as (H1 & (ts & Hok & Hts) & _). split_and!.
  - eapply Forall_impl; [done|]. intros ms Hms. rewrite <-(length_fmap timestamp), Hms. by destruct Hok as (? & _ & ? & _).
  - pose proof (NetworkSize_inv now e _ He Hb) as Hn. by destruct (NetworkSize now e) as [r e'], Hn.
  - intros _. eapply Forall_impl; [done|]. intros ms Hms. cbn. rewrite (fmap_filter_timestamp (recent now)), Hms. by apply timesOk_recent.
  - intros key peers e'. unfold Track. case_decide; [done|]. by intros [= <-].
Qed.
End estimator.

(** ** Examples *)

(** The integer part; 0 for a number that is not finite. *)
Definition truncF (x : spec_float) : Z :=
  match x with
  | S754_finite s m e => let z := if decide (0 ≤ e) then Z.pos m * 2 ^ e else Z.pos m / 2 ^ (- e) in if s then - z else z
  | _ => 0
  end.

(** The operations of IEEE 754 on 64 bits, rounding to the nearest; the quotient of
    two integers rounds the integers first, and numbers that are not finite are
    converted to 0. *)
Definition binary64 : GoFloat := {|
  F64 := spec_float;
  f_ofZ z := binary_normalize 53 1024 z 0 false;
  f_add := SFadd 53 1024;
  f_sub := SFsub 53 1024;
  f_mul := SFmul 53 1024;
  f_div := SFdiv 53 1024;
  f_sqrt := SFsqrt 53 1024;
  f_pow2 n := SFldexp 53 1024 (SFone 53 1024) n;
  f_quo a b := SFdiv 53 1024 (binary_normalize 53 1024 a 0 false) (binary_normalize 53 1024 b 0 false);
  f_int32 := truncF;
  f_int64 := truncF;
|}.
#[local] Existing Instance binary64.

(** The first byte of a key is that of its hash; a full bucket. *)
Definition demoHash (b : bytes) : Z := default 0 (head b) * 2 ^ 248.
#[local] Notation demoEst := (Estimator (GF := binary64)).
Definition demoEsRun (evs : list esEvent) : demoEst := esRun (λ _, 0) (λ _, 0) (λ _, 2) demoHash 2 (NewEstimator 2) evs.

(** Five lookups in a network of about ten nodes. *)
Definition demoTracks : list esEvent :=
  [EsTrack 1 [0] [[23]; [46]]; EsTrack 2 [0] [[24]; [47]]; EsTrack 3 [0] [[22]]; EsTrack 3 [0] [[22]; [45]]; EsTrack 4 [0] [[23]; [48]]; EsTrack 5 [0] [[24]; [46]]].

Example NetworkSize_ten : (NetworkSize 6 (demoEsRun demoTracks)).1 = Some 10.
Proof. vm_compute. reflexivity. Qed.

Lemma NetworkSize_correct_witness :
  tracked 2 demoTracks = [1; 2; 3; 4; 5] ∧ Forall (λ ms, length ms ≤ 150)%nat (measurements (demoEsRun demoTracks)).
Proof.
  split; [reflexivity|].
  destruct (NetworkSize_correct (λ _, 0) (λ _, 0) (λ _, 2) demoHash 2 demoTracks 6) as [H _]; [lia| |exact H].
  cbn. repeat first [apply SSorted_nil|apply SSorted_cons|apply Forall_nil_2|apply Forall_cons_2]; lia.
Defined.

(** A cached estimate is returned at any later time, although all measurements are
    too old by then. *)
Lemma NetworkSize_stale :
  let e := demoEsRun (demoTracks ++ [EsSize 6]) in
  (NetworkSize (100 * Hour) e).1 = Some 10 ∧ (NetworkSize (100 * Hour) (mkEstimator (measurements e) invalidEstimate)).1 = None.
Proof. vm_compute. done. Qed.
