(* ===== verification/QueuePersist.v ===== *)
(** * The provide queue in the datastore

    [Persist] and [DrainDatastore] of [provider/internal/queue/provide.go].
    The datastore is the class [DsLib]; multihashes are turned into bytes and
    back by the class [MhBytes].  Errors are the boolean of the result (false
    is an error), [None] is a panic.

    Persisting a queue and draining it into an empty one gives the queue
    back, unless the empty prefix is queued: its key loses the last slash and
    [DrainDatastore] skips it. *)

From S2P Require Import Prelude Key Trie TrieImpl Deque PrefixQueue ProvideQueue GoTime Datastore.
From Stdlib Require Import Ascii.

(** The encoding of multihashes: [[]byte(h)] and [mh.MHFromBytes], which
    returns the number of bytes it consumed. *)
Class MhBytes (mh : Type) := {
  mhBytes : mh → bytes;
  MHFromBytes : bytes → option (nat * mh);
}.

Class MhBytesLaws (mh : Type) `{MhBytes mh} : Prop := {
  mhBytes_nonempty : ∀ h, mhBytes h ≠ [];
  MHFromBytes_app : ∀ h rest, MHFromBytes (mhBytes h ++ rest) = Some (length (mhBytes h), h);
}.

Section persist.
Context {TL : TrieLib} {DL : DequeLib} {DSL : DsLib} {mh : Type} {MB : MhBytes mh}.
Variable MhToBit256 : mh → key.

(** The key of the queue position [i]: [ds.NewKey(Sprintf("%012x/%s", i, p))];
    [NewKey] cleans the path, which drops a slash at the end. *)
Definition queueKey (i : nat) (p : key) : string :=
  "/" +:+ hexDigits (Nat.max 12 (hexLength (Z.of_nat i))) (Z.of_nat i) +:+
    match p with [] => "" | _ => "/" +:+ bitString p end.

(** [commitBatchIfFull]: the next batch, unless there was an error; panics
    when the batch size is 0. *)
Definition commitBatchIfFull (batchSize : nat) (d : DS) (b : list batchOp) (size : nat)
    : option (DS * option (list batchOp)) :=
  if decide (batchSize = 0) then None
  else if decide (size mod batchSize = 0) then
    let '(d, ok) := ds_Commit d b in
    if negb ok then Some (d, None)
    else
      let '(d, ok) := ds_Batch d in
      Some (d, if ok : bool then Some [] else None)
  else Some (d, Some b).

(** [finalCommit] *)
Definition finalCommit (batchSize : nat) (d : DS) (b : list batchOp) (size : nat) : option (DS * bool) :=
  if decide (batchSize = 0) then None
  else if decide (size mod batchSize = 0) then Some (d, true)
  else Some (ds_Commit d b).

(** Adds the operations to batches, one after the other: each is counted,
    and committed with its batch when the batch is full. *)
Fixpoint batchLoop (batchSize : nat) (ops : list (list batchOp)) (d : DS) (b : list batchOp) (i : nat)
    : option (DS * option (list batchOp * nat)) :=
  match ops with
  | [] => Some (d, Some (b, i))
  | op :: ops =>
      '(d, r) ← commitBatchIfFull batchSize d (b ++ op) (S i);
      match r with
      | None => Some (d, None)
      | Some b => batchLoop batchSize ops d b (S i)
      end
  end.

(** The entry of the queue position [i], if the prefix has keys. *)
Definition queueEntry (q : @ProvideQueue DL mh) (i : nat) (p : key) : option (list batchOp) :=
  let '(subtrie, ok) := FindSubtrie (pvq_keys q) p in
  if ok : bool then
    hs ← ValuesIter subtrie zeroKey;
    Some [BPut (queueKey i p) (concat (mhBytes <$> hs))]
  else Some [].

(** The entries of all positions from [i] on. *)
Fixpoint queueEntries (q : @ProvideQueue DL mh) (i : nat) (ps : list key) : option (list (list batchOp)) :=
  match ps with
  | [] => Some []
  | p :: ps =>
      e ← queueEntry q i p;
      es ← queueEntries q (S i) ps;
      Some (e :: es)
  end.

(** A phase of [Persist]: the operations in batches, then the last commit. *)
Definition runBatches (batchSize : nat) (d : DS) (ops : list (list batchOp)) : option (DS * bool) :=
  '(d, r) ← batchLoop batchSize ops d [] 0;
  match r with
  | None => Some (d, false)
  | Some (b, i) => finalCommit batchSize d b i
  end.

(** [Persist] *)
Definition Persist (q : @ProvideQueue DL mh) (d : DS) (batchSize : nat) : option (DS * bool) :=
  let '(d, ok) := ds_Batch d in
  if negb ok then Some (d, false)
  else
    let '(d, r) := ds_Query d "/" in
    match r with
    | None => Some (d, false)
    | Some (l, failed) =>
        let deletes := (λ e, [BDelete e.1]) <$> l in
        if failed : bool then
          '(d, _) ← batchLoop batchSize deletes d [] 0;
          Some (d, false)
        else
          '(d, ok) ← runBatches batchSize d deletes;
          if negb ok then Some (d, false)
          else
            let '(d, ok) := ds_Batch d in
            if negb ok then Some (d, false)
            else
              es ← queueEntries q 0 (dq_Iter (queue (pvq_queue q)));
              runBatches batchSize d es
    end.

(** [decodeMultihashes]; every step consumes a byte, so that [length data]
    steps are enough. *)
Fixpoint decodeLoop (n : nat) (data : bytes) : option (list mh) :=
  match data, n with
  | [], _ => Some []
  | _, O => None
  | _, S n =>
      '(consumed, h) ← MHFromBytes data;
      hs ← decodeLoop n (drop consumed data);
      Some (h :: hs)
  end.

Definition decodeMultihashes (data : bytes) : option (list mh) := decodeLoop (length data) data.

(** [strings.TrimPrefix(s, "/")] *)
Definition trimSlash (s : string) : string :=
  match s with String "/" s => s | _ => s end.

(** The loop of [DrainDatastore]: the queue, the batch of deletions and
    whether there was no error. *)
Fixpoint drainLoop (l : list (string * bytes)) (q : @ProvideQueue DL mh) (b : list batchOp)
    : option (@ProvideQueue DL mh * list batchOp * bool) :=
  match l with
  | [] => Some (q, b, true)
  | (k, v) :: l =>
      match splitSlash (trimSlash k) with
      | [_; prefix] =>
          match decodeMultihashes v with
          | None => Some (q, b, false)
          | Some [] => drainLoop l q b
          | Some hs =>
              q ← enqueueNoLock MhToBit256 q (bitstr prefix) hs;
              drainLoop l q (b ++ [BDelete k])
          end
      | _ => drainLoop l q b
      end
  end.

(** [DrainDatastore] *)
Definition DrainDatastore (q : @ProvideQueue DL mh) (d : DS) : option (@ProvideQueue DL mh * DS * bool) :=
  let '(d, r) := ds_QueryByKey d "/" in
  match r with
  | None => Some (q, d, false)
  | Some (l, failed) =>
      let '(d, ok) := ds_Batch d in
      if negb ok then Some (q, d, false)
      else
        '(q, b, ok) ← drainLoop l q [];
        if negb ok || failed then Some (q, d, false)
        else
          let '(d, ok) := ds_Commit d b in
          Some (q, d, ok)
  end.
End persist.

(** ** Batches *)

Section batches.
Context {DSL : DsLib} {DSW : DsLaws}.
Implicit Types (d : DS) (b : list batchOp) (ops : list (list batchOp)).

Lemma commitBatchIfFull_view n d b size d' b' :
  commitBatchIfFull n d b size = Some (d', Some b') →
  applyOps (ds_view d') b' = applyOps (ds_view d) b ∧ (size mod n = 0 → b' = []).
Proof.
  unfold commitBatchIfFull. case_decide; [done|]. case_decide as Hm; [|by intros [= <- <-]].
  pose proof (Commit_view d b) as Hc. destruct (ds_Commit d b) as [d1 ok]. destruct ok; cbn; [|done].
  pose proof (Batch_view d1) as Hb. destruct (ds_Batch d1) as [d2 ok]. intros [= <- Hr].
  destruct ok; [|done]. injection Hr as <-. cbn in *. by rewrite Hb, Hc.
Qed.

Lemma batchLoop_view n ops d b i d' b' i' :
  (i mod n = 0 → b = []) → batchLoop n ops d b i = Some (d', Some (b', i')) →
  applyOps (ds_view d') b' = applyOps (applyOps (ds_view d) b) (concat ops) ∧ (i' mod n = 0 → b' = []).
Proof.
  revert d b i. induction ops as [|op ops IH]; intros d b i Hb; cbn [batchLoop].
  { intros [= <- <- <-]. done. }
  destruct (commitBatchIfFull n d (b ++ op) (S i)) as [[d1 [b1|]]|] eqn:Hc; cbn; [|done|done].
  apply commitBatchIfFull_view in Hc as [Hv Hm]. intros Hl. apply IH in Hl as [Hv' Hm']; [|done].
  split; [|done]. by rewrite Hv', Hv, !applyOps_app.
Qed.

(** What a phase of [Persist] does if it succeeds. *)
Lemma runBatches_view n ops d d' :
  runBatches n d ops = Some (d', true) → ds_view d' = applyOps (ds_view d) (concat ops).
Proof.
  unfold runBatches. destruct (batchLoop n ops d [] 0) as [[d1 [[b i]|]]|] eqn:Hl; cbn; [|done|done].
  apply batchLoop_view in Hl as [Hv Hm]; [|done]. unfold finalCommit. case_decide; [done|]. case_decide as Hi.
  - intros [= ->]. rewrite (Hm Hi) in Hv. exact Hv.
  - intros [= Hc]. pose proof (Commit_view d1 b) as Hcv. rewrite Hc in Hcv. cbn in Hcv.
    by rewrite Hcv, Hv by done.
Qed.

(** A phase does not panic. *)
Lemma runBatches_total n ops d : n ≠ 0 → is_Some (runBatches n d ops).
Proof.
  intros Hn. unfold runBatches.
  assert (∀ d b i, is_Some (batchLoop n ops d b i)) as Hl.
  { induction ops as [|op ops IH]; intros d0 b i; cbn [batchLoop]; [done|].
    unfold commitBatchIfFull. rewrite decide_False by done. case_decide; [|cbn; apply IH].
    destruct (ds_Commit d0 (b ++ op)) as [d1 []]; cbn; [|done]. destruct (ds_Batch d1) as [d2 []]; cbn; [apply IH|done]. }
  destruct (Hl d [] 0) as [[d1 [[b i]|]] ->]; cbn; [|done]. unfold finalCommit. rewrite decide_False by done.
  case_decide; done.
Qed.


Lemma deletes_lookup m (l : list (string * bytes)) k :
  applyOps m (concat ((λ e, [BDelete e.1]) <$> l)) !! k = if decide (k ∈ l.*1) then None else m !! k.
Proof.
  revert m. induction l as [|[k' v] l IH]; intros m.
  { cbn. by rewrite decide_False by apply not_elem_of_nil. }
  rewrite fmap_cons. cbn [concat]. rewrite applyOps_app, IH. cbn [applyOps foldl applyOp fst].
  rewrite fmap_cons. cbn [fst]. destruct (decide (k ∈ l.*1)) as [Hk|Hk].
  - by rewrite decide_True by (by right).
  - destruct (decide (k = k')) as [->|Hne].
    + rewrite decide_True by (by left). apply lookup_delete_eq.
    + rewrite decide_False by (by intros [?|?]%elem_of_cons). by apply lookup_delete_ne.
Qed.

Lemma queryEntries_root m : queryEntries m "/" = map_to_list m.
Proof.
  unfold queryEntries. f_equal. apply map_filter_id. by intros k v _.
Qed.

(** Deleting all results of a complete query empties the datastore. *)
Lemma deletes_all m l :
  l ≡ₚ queryEntries m "/" → applyOps m (concat ((λ e, [BDelete e.1]) <$> l)) = ∅.
Proof.
  rewrite queryEntries_root. intros Hl. apply map_eq. intros k. rewrite deletes_lookup, lookup_empty.
  case_decide as Hk; [done|]. destruct (m !! k) as [v|] eqn:Hm; [|done]. destruct Hk. rewrite Hl.
  apply elem_of_map_to_list in Hm. apply list_elem_of_fmap. by exists (k, v).
Qed.
End batches.

(** ** Round trip *)

Section roundtrip.
Context {TL : TrieLib} {TLW : TrieLaws} {DL : DequeLib} {DLW : DequeLaws} {DSL : DsLib} {DSW : DsLaws}.
Context {mh : Type} {MB : MhBytes mh} {MBW : MhBytesLaws mh}.
Variable MhToBit256 : mh → key.
Hypothesis MhToBit256_length : ∀ h, length (MhToBit256 h) = KeyLen.
Hypothesis MhToBit256_inj : ∀ h h', MhToBit256 h = MhToBit256 h' → h = h'.
Implicit Types (q : @ProvideQueue DL mh) (p : key) (h : mh) (hs : list mh) (hss : list (list mh)).

Abbreviation stored := (stored MhToBit256).
Abbreviation pvqInv := (pvqInv MhToBit256).

Lemma decodeLoop_encode n hs :
  length (concat (mhBytes <$> hs)) ≤ n → decodeLoop n (concat (mhBytes <$> hs)) = Some hs.
Proof.
  revert n. induction hs as [|h hs IH]; intros n Hn; [by destruct n|].
  rewrite fmap_cons in *. cbn [concat] in *. rewrite length_app in Hn.
  assert (0 < length (mhBytes h)) as Hpos.
  { pose proof (mhBytes_nonempty h). destruct (mhBytes h); [done|]. cbn. lia. }
  pose proof (MHFromBytes_app h (concat (mhBytes <$> hs))) as Hdec.
  assert (drop (length (mhBytes h)) (mhBytes h ++ concat (mhBytes <$> hs)) = concat (mhBytes <$> hs)) as Hdrop
    by apply drop_app_length.
  destruct (mhBytes h ++ concat (mhBytes <$> hs)) as [|x l] eqn:E.
  { apply (f_equal length) in E. rewrite length_app in E. cbn in E. lia. }
  destruct n as [|n]; [lia|]. cbn [decodeLoop]. rewrite Hdec.
  cbn [mbind option_bind]. rewrite Hdrop, IH; [done|lia].
Qed.

Lemma decodeMultihashes_encode hs : decodeMultihashes (concat (mhBytes <$> hs)) = Some hs.
Proof. by apply decodeLoop_encode. Qed.

(** *** The keys *)

Abbreviation maxPositions := (16 ^ 12)%Z.

Lemma queueKey_hex (i : nat) p :
  (Z.of_nat i < maxPositions)%Z → queueKey i p = "/" +:+ hexDigits 12 (Z.of_nat i) +:+
    match p with [] => "" | _ => "/" +:+ bitString p end.
Proof.
  intros Hi. unfold queueKey. do 2 f_equal. f_equal. apply Nat.max_l. unfold hexLength.
  destruct (Z.eqb_spec (Z.of_nat i) 0) as [|Hne]; [lia|].
  assert (Z.log2 (Z.of_nat i) < 48)%Z as Hlog by (apply Z.log2_lt_pow2; [lia|]; exact Hi).
  assert (Z.log2 (Z.of_nat i) / 4 < 12)%Z by (apply Z.div_lt_upper_bound; lia).
  pose proof (Z.log2_nonneg (Z.of_nat i)). assert (0 ≤ Z.log2 (Z.of_nat i) / 4)%Z by (apply Z.div_pos; lia). lia.
Qed.

Lemma queueKey_lt (i j : nat) p p' :
  i < j → (Z.of_nat j < maxPositions)%Z → String.compare (queueKey i p) (queueKey j p') = Lt.
Proof.
  intros Hij Hj. rewrite !queueKey_hex by lia. apply (compare_hexDigits 12); lia.
Qed.

Lemma queueKey_split (i : nat) p :
  p ≠ [] → splitSlash (trimSlash (queueKey i p)) =
    [hexDigits (Nat.max 12 (hexLength (Z.of_nat i))) (Z.of_nat i); bitString p].
Proof.
  intros Hp. unfold queueKey. destruct p as [|b p]; [done|]. cbn [trimSlash].
  change ("/" +:+ ?x +:+ "/" +:+ ?y) with (String "/" (x +:+ String "/" y)). cbn [trimSlash].
  rewrite splitSlash_app by apply noSlash_hexDigits. by rewrite splitSlash_whole by apply noSlash_bitString.
Qed.

(** *** The entries *)

(** The keys of a queued prefix. *)
Definition keysOf q p hs : Prop :=
  NoDup hs ∧ hs ≠ [] ∧ ∀ h, h ∈ hs ↔ stored (pvq_keys q) h ∧ p ≼ MhToBit256 h.

Fixpoint entryList (i : nat) (ps : list key) hss : list (string * bytes) :=
  match ps, hss with
  | p :: ps, hs :: hss => (queueKey i p, concat (mhBytes <$> hs)) :: entryList (S i) ps hss
  | _, _ => []
  end.

Lemma queueEntry_spec q i p :
  pvqInv q → p ∈ contents (pvq_queue q) →
  ∃ hs, queueEntry q i p = Some [BPut (queueKey i p) (concat (mhBytes <$> hs))] ∧ keysOf q p hs.
Proof.
  intros (_ & Hok & Hhas & _) Hp. unfold queueEntry. destruct (FindSubtrie (pvq_keys q) p) as [sub ok] eqn:Hf.
  assert (ok = true) as ->.
  { replace ok with (FindSubtrie (pvq_keys q) p).2 by (by rewrite Hf).
    apply (FindSubtrie_hasKey MhToBit256 MhToBit256_length); auto. }
  destruct (subtrie_values MhToBit256 MhToBit256_length MhToBit256_inj _ _ _ Hok Hf) as (hs & Hhs & Hnd & Hne & Hin).
  exists hs. split; [|by split_and!]. pose proof Hok as [Hw _].
  pose proof (keysOk_bounded MhToBit256 MhToBit256_length _ Hok) as Hb.
  apply FindSubtrie_true in Hf as (Hs & _ & r & Hws); [|done].
  pose proof (bounded_below _ _ _ _ Hs Hb) as Hbs.
  rewrite (AllValues_zeroKey r) in Hhs by done. injection Hhs as <-.
  unfold ValuesIter. by rewrite (trieIter_zeroKey r) by done.
Qed.

Lemma queueEntries_spec q i ps :
  pvqInv q → (∀ p, p ∈ ps → p ∈ contents (pvq_queue q)) →
  ∃ hss, queueEntries q i ps = Some ((λ e, [BPut e.1 e.2]) <$> entryList i ps hss) ∧ Forall2 (keysOf q) ps hss.
Proof.
  intros Hq. revert i. induction ps as [|p ps IH]; intros i Hps; cbn [queueEntries].
  { exists []. by split. }
  destruct (queueEntry_spec q i p Hq) as (hs & -> & Hk); [apply Hps; by left|].
  destruct (IH (S i)) as (hss & -> & Hf); [intros; apply Hps; by right|].
  exists (hs :: hss). split; [done|by constructor].
Qed.

Lemma entryList_elem i ps hss k :
  k ∈ (entryList i ps hss).*1 → ∃ j p, i ≤ j < i + length ps ∧ k = queueKey j p.
Proof.
  revert i hss. induction ps as [|p ps IH]; intros i [|hs hss]; cbn; try by intros ?%not_elem_of_nil.
  intros [->|Hk]%elem_of_cons; [exists i, p; split; [lia|done]|].
  destruct (IH _ _ Hk) as (j & p' & Hj & ->). exists j, p'. split; [lia|done].
Qed.

Lemma entryList_sorted i ps hss :
  (Z.of_nat (i + length ps) ≤ maxPositions)%Z →
  StronglySorted (λ a b : string * bytes, String.compare a.1 b.1 = Lt) (entryList i ps hss).
Proof.
  revert i hss. induction ps as [|p ps IH]; intros i [|hs hss] Hl; cbn; try by constructor.
  cbn in Hl. constructor; [apply IH; lia|]. apply Forall_forall. intros [k v] He.
  destruct (entryList_elem (S i) ps hss k) as (j & p' & Hj & ->).
  { apply list_elem_of_fmap. by exists (k, v). }
  apply queueKey_lt; lia.
Qed.

Lemma compare_refl_str (s : string) : String.compare s s = Eq.
Proof. induction s as [|c s IH]; cbn; [done|]. unfold Ascii.compare. by rewrite N.compare_refl. Qed.

Lemma sorted_NoDup (l : list (string * bytes)) :
  StronglySorted (λ a b, String.compare a.1 b.1 = Lt) l → NoDup l.*1.
Proof.
  induction 1 as [|e l _ IH Hall]; [constructor|]. rewrite fmap_cons. apply NoDup_cons. split; [|done].
  intros (e' & He & Hin)%list_elem_of_fmap. rewrite Forall_forall in Hall. specialize (Hall e' Hin).
  by rewrite He, compare_refl_str in Hall.
Qed.

(** The order of [OrderByKey] determines the list of results. *)
Lemma sorted_results l l' :
  StronglySorted (λ a b : string * bytes, String.compare a.1 b.1 = Lt) l →
  StronglySorted keyLe l' → l' ≡ₚ l → l' = l.
Proof.
  intros Hs Hs' Hp. pose proof (sorted_NoDup l Hs) as Hnd.
  apply (StronglySorted_unique_strong keyLe); [|done| |done].
  - intros e e' He He' H1 H2. rewrite Hp in He. unfold keyLe in *.
    rewrite (String.compare_antisym e'.1 e.1) in H2.
    assert (e.1 = e'.1) as Heq.
    { destruct (String.compare e.1 e'.1) eqn:E; [by apply String.compare_eq_iff|done|done]. }
    apply list_elem_of_lookup in He as [a Ha], He' as [b Hb].
    assert (a = b) as <-; [|congruence]. eapply (NoDup_lookup _ _ _ e.1 Hnd).
    + by rewrite list_lookup_fmap, Ha.
    + by rewrite list_lookup_fmap, Hb, Heq.
  - clear -Hs. induction Hs as [|e l _ IH Hall]; [constructor|]. constructor; [done|].
    eapply Forall_impl; [exact Hall|]. intros a Ha. unfold keyLe. by rewrite Ha.
Qed.

Lemma puts_list m (l : list (string * bytes)) :
  NoDup l.*1 → (∀ k, k ∈ l.*1 → m !! k = None) →
  map_to_list (applyOps m (concat ((λ e, [BPut e.1 e.2]) <$> l))) ≡ₚ l ++ map_to_list m.
Proof.
  revert m. induction l as [|[k v] l IH]; intros m Hnd Hm; [done|].
  rewrite fmap_cons in *. apply NoDup_cons in Hnd as [Hk Hnd]. cbn [concat fst snd] in *.
  rewrite applyOps_app. cbn [applyOps foldl applyOp]. fold (applyOps (<[k:=v]> m)).
  rewrite IH; [|done|].
  - rewrite map_to_list_insert by (apply Hm; by left). symmetry. apply Permutation_middle.
  - intros k' Hk'. rewrite lookup_insert_ne; [apply Hm; by right|]. by intros ->.
Qed.

Lemma pushSpec_new (l : list key) p : (∀ x, x ∈ l → ¬ overlap x p) → pushSpec l p = l ++ [p].
Proof.
  intros Hno. unfold pushSpec. destruct (list_find _ l) as [[i x]|] eqn:Hf.
  - apply list_find_Some in Hf as (Hi & Hp & _). apply list_elem_of_lookup_2 in Hi.
    by destruct (Hno x Hi); right.
  - rewrite decide_False; [done|]. intros (x & Hx & Hp)%Exists_exists. by destruct (Hno x Hx); left.
Qed.

(** Draining the entries of non-overlapping prefixes appends them. *)
Lemma drainLoop_spec q0 i ps hss q b :
  pvqInv q → Forall2 (keysOf q0) ps hss → [] ∉ ps →
  (∀ x p, x ∈ contents (pvq_queue q) → p ∈ ps → ¬ overlap x p) →
  antichain ps → NoDup ps →
  ∃ q', drainLoop MhToBit256 (entryList i ps hss) q b =
      Some (q', b ++ ((BDelete ∘ fst) <$> entryList i ps hss), true) ∧
    pvqInv q' ∧ contents (pvq_queue q') = contents (pvq_queue q) ++ ps ∧
    ∀ h, stored (pvq_keys q') h ↔ stored (pvq_keys q) h ∨ h ∈ concat hss.
Proof.
  intros Hq Hf. revert i q b Hq. induction Hf as [|p hs ps hss (_ & Hne & Hin) Hf IH]; intros i q b Hq Hnil Hno Ha Hnd.
  { cbn. exists q. rewrite !app_nil_r. split_and!; [done|done|done|]. intros h. rewrite elem_of_nil. tauto. }
  apply NoDup_cons in Hnd as [Hp Hnd]. cbn [entryList drainLoop].
  rewrite queueKey_split by set_solver. rewrite decodeMultihashes_encode.
  destruct (enqueueNoLock_spec MhToBit256 MhToBit256_length MhToBit256_inj q p hs) as (q1 & Hq1 & Hinv & Hc & Hst).
  { done. } { done. } { apply Forall_forall. intros h Hh. by apply Hin. }
  destruct hs as [|h0 hs0] eqn:Ehs; [done|]. rewrite <-Ehs in *. clear Ehs h0 hs0.
  rewrite bitstr_bitString, Hq1. cbn [mbind option_bind].
  rewrite pushSpec_new in Hc by (intros x Hx; apply Hno; [done|by left]).
  destruct (IH (S i) q1 (b ++ [BDelete (queueKey i p)])) as (q2 & Hd & Hinv2 & Hc2 & Hst2); [done|set_solver| | |done|].
  - intros x p' Hx Hp'. rewrite Hc in Hx. apply elem_of_app in Hx as [Hx|Hx%list_elem_of_singleton]; [|subst x].
    + apply Hno; [done|by right].
    + intros Ho. apply Hp. replace p with p'; [done|]. symmetry. apply Ha; [by left|by right|done].
  - intros x y Hx Hy. apply Ha; by right.
  - exists q2. rewrite Hd, <-app_assoc. split_and!; [done|done|by rewrite Hc2, Hc, <-app_assoc|].
    intros h. rewrite Hst2, Hst. cbn [concat]. rewrite elem_of_app. tauto.
Qed.

Lemma deletes_entries m (l : list (string * bytes)) :
  applyOps m ((BDelete ∘ fst) <$> l) = applyOps m (concat ((λ e, [BDelete e.1]) <$> l)).
Proof. f_equal. induction l as [|e l IH]; [done|]. rewrite !fmap_cons. cbn. by f_equal. Qed.

(** The results of a query that ends early are still entries. *)
Definition entryGood q0 (e : string * bytes) : Prop :=
  ∃ i p hs, e = (queueKey i p, concat (mhBytes <$> hs)) ∧ p ≠ [] ∧ keysOf q0 p hs.

Lemma entryList_good q0 i ps hss e :
  Forall2 (keysOf q0) ps hss → [] ∉ ps → e ∈ entryList i ps hss → entryGood q0 e.
Proof.
  intros Hf. revert i. induction Hf as [|p hs ps hss Hk Hf IH]; intros i Hnil; cbn [entryList].
  { by intros ?%not_elem_of_nil. }
  intros [->|He]%elem_of_cons; [|apply (IH (S i)); [set_solver|done]].
  exists i, p, hs. split_and!; [done|set_solver|done].
Qed.

Lemma drainLoop_total q0 l q b :
  Forall (entryGood q0) l → pvqInv q → is_Some (drainLoop MhToBit256 l q b).
Proof.
  intros Hl. revert q b. induction Hl as [|e l (i & p & hs & -> & Hp & _ & Hne & Hin) _ IH]; intros q b Hq; [done|].
  cbn [drainLoop]. rewrite queueKey_split, decodeMultihashes_encode by done.
  destruct (enqueueNoLock_spec MhToBit256 MhToBit256_length MhToBit256_inj q p hs) as (q1 & Hq1 & Hinv & _).
  { done. } { done. } { apply Forall_forall. intros h Hh. by apply Hin. }
  destruct hs; [done|]. rewrite bitstr_bitString, Hq1. cbn [mbind option_bind]. by apply IH.
Qed.

(** Draining what was persisted. *)
Lemma DrainDatastore_spec q hss d :
  pvqInv q → Forall2 (keysOf q) (contents (pvq_queue q)) hss → [] ∉ contents (pvq_queue q) →
  (Z.of_nat (length (contents (pvq_queue q))) ≤ maxPositions)%Z →
  map_to_list (ds_view d) ≡ₚ entryList 0 (contents (pvq_queue q)) hss →
  ∃ q2 d2 ok2, DrainDatastore MhToBit256 NewProvideQueue d = Some (q2, d2, ok2) ∧
    (ok2 = true → pvqInv q2 ∧ contents (pvq_queue q2) = contents (pvq_queue q) ∧
      (∀ h, stored (pvq_keys q2) h ↔ stored (pvq_keys q) h) ∧ ds_view d2 = ∅).
Proof.
  intros Hq Hf Hnil Hlen Hl. pose proof Hq as (Hpq & _ & _ & Hcov). unfold DrainDatastore.
  pose proof (entryList_sorted 0 (contents (pvq_queue q)) hss Hlen) as Hsort.
  set (E := entryList 0 (contents (pvq_queue q)) hss) in *.
  pose proof (QueryByKey_result d "/") as Hr. pose proof (QueryByKey_view d "/") as Hqv.
  destruct (ds_QueryByKey d "/") as [d2 [[l failed]|]]; cbn [fst snd] in *; [|by eexists _, _, _].
  pose proof (Batch_view d2) as Hbv. destruct (ds_Batch d2) as [d3 ok]. cbn [fst] in Hbv.
  destruct ok; cbn [negb]; [|by eexists _, _, _]. destruct (Hr l failed eq_refl) as [Hs Hperm].
  rewrite queryEntries_root in Hperm. destruct (NewReprovideQueue_inv) as [_ Hnew]. destruct failed.
  { destruct (drainLoop_total q l NewProvideQueue []) as [[[q2 b2] ok2] ->].
    - apply Forall_forall. intros e He. eapply elem_of_submseteq in He; [|exact Hperm]. rewrite Hl in He.
      by eapply entryList_good.
    - by apply NewProvideQueue_inv.
    - cbn. rewrite orb_true_r. by eexists _, _, _. }
  rewrite Hl in Hperm. apply (sorted_results E l Hsort Hs) in Hperm as ->.
  destruct (drainLoop_spec q 0 (contents (pvq_queue q)) hss NewProvideQueue []) as (q2 & Hd & Hinv & Hc & Hst).
  { by apply NewProvideQueue_inv. } { done. } { done. }
  { intros x p Hx. cbn in Hnew, Hx. rewrite Hnew in Hx. by apply not_elem_of_nil in Hx. }
  { by apply pqInv_antichain. } { apply Hpq. }
  fold E in Hd. rewrite Hd. cbn [mbind option_bind negb orb].
  pose proof (Commit_view d3 ([] ++ ((BDelete ∘ fst) <$> E))) as Hcv.
  destruct (ds_Commit d3 _) as [d4 ok]. cbn [fst snd] in Hcv.
  eexists _, _, _. split; [done|]. intros ->. split_and!; [done| | |].
  - rewrite Hc. cbn in Hnew |- *. by rewrite Hnew.
  - intros h. rewrite Hst. split.
    + intros [Hh|(hs & Hhs & Hh)%elem_of_concat]; [by apply not_elem_of_nil in Hh|].
      apply list_elem_of_lookup in Hhs as [i Hi]. destruct (Forall2_lookup_r _ _ _ _ _ Hf Hi) as (p & _ & _ & _ & Hin).
      by apply Hin.
    + intros Hh. right. destruct (Hcov _ Hh) as (p & Hp & Hph). apply list_elem_of_lookup in Hp as [i Hi].
      destruct (Forall2_lookup_l _ _ _ _ _ Hf Hi) as (hs & Hhs & _ & _ & Hin).
      apply elem_of_concat. exists hs. split; [by eapply list_elem_of_lookup_2|]. by apply Hin.
  - rewrite Hcv by done. rewrite Hbv, Hqv. cbn [app]. rewrite deletes_entries. apply deletes_all.
    by rewrite queryEntries_root, Hl.
Qed.

(** C10: The provide queue survives a restart.  Persisting it never panics;
    if that succeeds, draining the datastore into a new queue restores the
    prefixes in their order and all keys, and if that reports no error the
    datastore is left empty.  This holds for a queue without the empty
    prefix of less than 2^48 regions. *)
Theorem Persist_DrainDatastore q d batchSize :
  pvqInv q → batchSize ≠ 0 → [] ∉ contents (pvq_queue q) →
  (Z.of_nat (length (contents (pvq_queue q))) ≤ 16 ^ 12)%Z →
  ∃ d1 ok, Persist q d batchSize = Some (d1, ok) ∧
    (ok = true → ∃ q2 d2 ok2, DrainDatastore MhToBit256 NewProvideQueue d1 = Some (q2, d2, ok2) ∧
      (ok2 = true → pvqInv q2 ∧ contents (pvq_queue q2) = contents (pvq_queue q) ∧
        (∀ h, stored (pvq_keys q2) h ↔ stored (pvq_keys q) h) ∧ ds_view d2 = ∅)).
Proof.
  intros Hq Hn Hnil Hlen.
  destruct (queueEntries_spec q 0 (contents (pvq_queue q)) Hq) as (hss & Hes & Hf); [done|].
  pose proof (sorted_NoDup _ (entryList_sorted 0 (contents (pvq_queue q)) hss Hlen)) as Hnd.
  unfold Persist. destruct (ds_Batch d) as [d0 []]; cbn [negb]; [|by eexists _, _].
  pose proof (Query_result d0 "/") as Hr. pose proof (Query_view d0 "/") as Hqv.
  destruct (ds_Query d0 "/") as [d1 [[l failed]|]]; cbn [fst snd] in *; [|by eexists _, _].
  specialize (Hr l failed eq_refl). destruct failed.
  { destruct (runBatches_total batchSize ((λ e, [BDelete e.1]) <$> l) d1 Hn) as [[d2 ok] Hb]. unfold runBatches in Hb.
    destruct (batchLoop _ _ d1 [] 0) as [[d3 r]|]; [|done]. cbn. by eexists _, _. }
  destruct (runBatches_total batchSize ((λ e, [BDelete e.1]) <$> l) d1 Hn) as [[d2 ok] Hdel]. rewrite Hdel.
  cbn [mbind option_bind]. destruct ok; cbn [negb]; [|by eexists _, _].
  apply runBatches_view in Hdel. rewrite Hqv, deletes_all in Hdel by done.
  pose proof (Batch_view d2) as Hbv. destruct (ds_Batch d2) as [d3 []]; cbn [negb fst] in *; [|by eexists _, _].
  unfold contents in Hes. rewrite Hes. cbn [mbind option_bind].
  destruct (runBatches_total batchSize ((λ e, [BPut e.1 e.2]) <$> entryList 0 (contents (pvq_queue q)) hss) d3 Hn)
    as [[d4 ok] Hput].
  exists d4, ok. split; [exact Hput|]. intros ->. apply runBatches_view in Hput.
  apply (DrainDatastore_spec q hss); [done..|]. rewrite Hput, Hbv, Hdel, puts_list; [by rewrite map_to_list_empty, app_nil_r|done|].
  intros k _. apply lookup_empty.
Qed.
End roundtrip.

(** ** Concrete runs *)

(** Multihashes of two bits in one byte. *)
#[export] Instance demoBytes : MhBytes (bool * bool) := {
  mhBytes h := [2 * Z.b2z h.1 + Z.b2z h.2]%Z;
  MHFromBytes data := match data with [] => None | x :: _ => Some (1, (Z.testbit x 1, Z.testbit x 0)) end;
}.

#[export] Instance demoBytes_laws : MhBytesLaws (bool * bool).
Proof. split; [done|]. by intros [[] []] rest. Qed.

Lemma Persist_DrainDatastore_witness :
  ∃ d1 ok, Persist demoQueue (mkMemStore ∅ []) 2 = Some (d1, ok) ∧
    (ok = true → ∃ q2 d2 ok2, DrainDatastore demoMh NewProvideQueue d1 = Some (q2, d2, ok2) ∧
      (ok2 = true → pvqInv demoMh q2 ∧ contents (pvq_queue q2) = contents (pvq_queue demoQueue) ∧
        (∀ h, stored demoMh (pvq_keys q2) h ↔ stored demoMh (pvq_keys demoQueue) h) ∧ ds_view d2 = ∅)).
Proof.
  apply (Persist_DrainDatastore (DSL := memDs) demoMh demoMh_length demoMh_inj demoQueue (mkMemStore ∅ []) 2);
    try by apply (bool_decide_unpack _); vm_compute.
Defined.

(** A queue that holds the empty prefix does not survive a restart: the
    entry of the empty prefix is stored, and [DrainDatastore] reports no error
    but neither restores nor deletes it. *)
Theorem Persist_loses_empty_prefix :
  match Enqueue demoMh NewProvideQueue [] [(true, false); (false, true)] with
  | Some q =>
      match Persist q (mkMemStore ∅ []) 100 with
      | Some (d1, ok) => ok = true ∧
          match DrainDatastore demoMh NewProvideQueue d1 with
          | Some (q2, d2, ok2) => ok2 = true ∧ PVQ_IsEmpty q2 = true ∧ size (ds_view d2) = 1
          | None => False
          end
      | None => False
      end
  | None => False
  end.
Proof. by vm_compute. Qed.
