(* ===== verification/Base64.v ===== *)
(** * Base64

    [base64.URLEncoding] of the standard library, which the keystore uses for
    the keys of the datastore: encoding, decoding, and the round trip. *)

From S2P Require Import Prelude GoTime.
From Stdlib Require Import Ascii.

Local Open Scope Z_scope.

(** The alphabet "A-Za-z0-9-_". *)
Definition encode6 (n : Z) : ascii :=
  ascii_of_nat (Z.to_nat (
    if n <? 26 then 65 + n
    else if n <? 52 then 71 + n
    else if n <? 62 then n - 4
    else if n =? 62 then 45 else 95)).

Definition decode6 (c : ascii) : option Z :=
  let n := Z.of_nat (nat_of_ascii c) in
  if (65 <=? n) && (n <=? 90) then Some (n - 65)
  else if (97 <=? n) && (n <=? 122) then Some (n - 71)
  else if (48 <=? n) && (n <=? 57) then Some (n + 4)
  else if n =? 45 then Some 62
  else if n =? 95 then Some 63
  else None.

(** [EncodeToString], with padding. *)
Fixpoint encode64 (bs : list Z) : string :=
  match bs with
  | [] => ""
  | [a] =>
      String (encode6 (a / 4)) (String (encode6 (a mod 4 * 16)) "==")
  | [a; b] =>
      String (encode6 (a / 4)) (String (encode6 (a mod 4 * 16 + b / 16))
        (String (encode6 (b mod 16 * 4)) "="))
  | a :: b :: c :: bs =>
      String (encode6 (a / 4)) (String (encode6 (a mod 4 * 16 + b / 16))
        (String (encode6 (b mod 16 * 4 + c / 64)) (String (encode6 (c mod 64)) (encode64 bs))))
  end.

(** Characters that [DecodeString] skips. *)
Fixpoint skipNewlines (s : string) : string :=
  match s with
  | EmptyString => EmptyString
  | String c s =>
      if (Ascii.eqb c "010" || Ascii.eqb c "013")%char then skipNewlines s else String c (skipNewlines s)
  end.

(** Groups of four characters; only the last one may be padded, and the bits
    that are left over are not checked. *)
Fixpoint decodeQuads (s : string) : option (list Z) :=
  match s with
  | EmptyString => Some []
  | String a (String b (String c (String d s))) =>
      a ← decode6 a;
      b ← decode6 b;
      if Ascii.eqb c "="%char then
        if Ascii.eqb d "="%char then
          match s with EmptyString => Some [a * 4 + b / 16] | _ => None end
        else None
      else
        c ← decode6 c;
        if Ascii.eqb d "="%char then
          match s with
          | EmptyString => Some [a * 4 + b / 16; b mod 16 * 16 + c / 4]
          | _ => None
          end
        else
          d ← decode6 d;
          bs ← decodeQuads s;
          Some (a * 4 + b / 16 :: b mod 16 * 16 + c / 4 :: c mod 4 * 64 + d :: bs)
  | _ => None
  end.

(** [DecodeString] *)
Definition decode64 (s : string) : option (list Z) := decodeQuads (skipNewlines s).

(** ** Round trip *)

Lemma encode6_facts n :
  0 ≤ n < 64 →
  decode6 (encode6 n) = Some n ∧ encode6 n ≠ "="%char ∧ encode6 n ≠ "/"%char ∧
  (Ascii.eqb (encode6 n) "010" || Ascii.eqb (encode6 n) "013")%char = false.
Proof.
  intros Hn. assert (n ∈ seqZ 0 64) as Hin by (apply elem_of_seqZ; lia). clear Hn. revert n Hin.
  apply Forall_forall. apply (bool_decide_unpack _). by vm_compute.
Qed.

Lemma encode6_pad n : 0 ≤ n < 64 → Ascii.eqb (encode6 n) "="%char = false.
Proof. intros Hn. apply Ascii.eqb_neq. by apply encode6_facts. Qed.

Lemma decode6_encode n : 0 ≤ n < 64 → decode6 (encode6 n) = Some n.
Proof. intros Hn. by apply encode6_facts. Qed.

(** The pieces of bytes, six bits each. *)
Lemma six_hi a : 0 ≤ a < 256 → 0 ≤ a / 4 < 64.
Proof. intros ?. split; [apply Z.div_pos; lia|apply Z.div_lt_upper_bound; lia]. Qed.

Lemma six_mid a b : 0 ≤ a < 256 → 0 ≤ b < 256 → 0 ≤ a mod 4 * 16 + b / 16 < 64.
Proof.
  intros ? ?. pose proof (Z.mod_pos_bound a 4). assert (0 ≤ b / 16 < 16); [|lia].
  split; [apply Z.div_pos; lia|apply Z.div_lt_upper_bound; lia].
Qed.

Lemma six_lo b c : 0 ≤ b < 256 → 0 ≤ c < 256 → 0 ≤ b mod 16 * 4 + c / 64 < 64.
Proof.
  intros ? ?. pose proof (Z.mod_pos_bound b 16). assert (0 ≤ c / 64 < 4); [|lia].
  split; [apply Z.div_pos; lia|apply Z.div_lt_upper_bound; lia].
Qed.

Lemma divmod_join x y k : 0 < k → 0 ≤ y < k → (x * k + y) / k = x ∧ (x * k + y) mod k = y.
Proof.
  intros Hk Hy. rewrite Z.div_add_l, (Z.div_small y k), Z.add_0_r by lia. split; [done|].
  rewrite Z.add_comm, Z.mod_add by lia. by apply Z.mod_small.
Qed.

Lemma join_byte a b : 0 ≤ a < 256 → 0 ≤ b < 256 → a / 4 * 4 + (a mod 4 * 16 + b / 16) / 16 = a.
Proof.
  intros ? ?. assert (0 ≤ b / 16 < 16) by (split; [apply Z.div_pos; lia|apply Z.div_lt_upper_bound; lia]).
  destruct (divmod_join (a mod 4) (b / 16) 16) as [-> _]; [lia|done|]. pose proof (Z.div_mod a 4). lia.
Qed.

Lemma join_byte2 a b c :
  0 ≤ b < 256 → 0 ≤ c < 256 →
  (a mod 4 * 16 + b / 16) mod 16 * 16 + (b mod 16 * 4 + c / 64) / 4 = b.
Proof.
  intros ? ?. assert (0 ≤ b / 16 < 16) by (split; [apply Z.div_pos; lia|apply Z.div_lt_upper_bound; lia]).
  assert (0 ≤ c / 64 < 4) by (split; [apply Z.div_pos; lia|apply Z.div_lt_upper_bound; lia]).
  destruct (divmod_join (a mod 4) (b / 16) 16) as [_ ->]; [lia|done|].
  destruct (divmod_join (b mod 16) (c / 64) 4) as [-> _]; [lia|done|]. pose proof (Z.div_mod b 16). lia.
Qed.

Lemma join_byte3 b c : 0 ≤ c < 256 → (b mod 16 * 4 + c / 64) mod 4 * 64 + c mod 64 = c.
Proof.
  intros ?. assert (0 ≤ c / 64 < 4) by (split; [apply Z.div_pos; lia|apply Z.div_lt_upper_bound; lia]).
  destruct (divmod_join (b mod 16) (c / 64) 4) as [_ ->]; [lia|done|]. pose proof (Z.div_mod c 64). lia.
Qed.

(** Induction by groups of three bytes. *)
Lemma triples_ind (P : list Z → Prop) :
  P [] → (∀ a, P [a]) → (∀ a b, P [a; b]) → (∀ a b c l, P l → P (a :: b :: c :: l)) → ∀ l, P l.
Proof.
  intros H0 H1 H2 H3 l. enough (P l ∧ (∀ a, P (a :: l)) ∧ ∀ a b, P (a :: b :: l)) as [? _] by done.
  induction l as [|x l (IH0 & IH1 & IH2)]; [done|]. split_and!; auto.
Qed.

Lemma skipNewlines_encode bs : Forall (λ z, 0 ≤ z < 256) bs → skipNewlines (encode64 bs) = encode64 bs.
Proof.
  assert (∀ n s, 0 ≤ n < 64 → skipNewlines (String (encode6 n) s) = String (encode6 n) (skipNewlines s)) as Hc.
  { intros n s Hn. cbn [skipNewlines]. destruct (encode6_facts n Hn) as (_ & _ & _ & ->). done. }
  pose proof six_hi. pose proof six_mid. pose proof six_lo.
  induction bs as [|a|a b|a b c l IH] using triples_ind; intros Hf; [done|..].
  - apply Forall_cons in Hf as [Ha _]. cbn [encode64]. pose proof (six_mid a 0 Ha). rewrite Z.add_0_r in *.
    rewrite !Hc; auto. lia.
  - apply Forall_cons in Hf as [Ha Hf]. apply Forall_cons in Hf as [Hb _]. cbn [encode64].
    pose proof (six_lo b 0 Hb). rewrite Z.add_0_r in *. rewrite !Hc; auto. lia.
  - apply Forall_cons in Hf as [Ha Hf]. apply Forall_cons in Hf as [Hb Hf]. apply Forall_cons in Hf as [Hd Hf].
    cbn [encode64]. rewrite !Hc by (auto; apply Z.mod_pos_bound; lia). by rewrite IH.
Qed.

Lemma decodeQuads_encode bs : Forall (λ z, 0 ≤ z < 256) bs → decodeQuads (encode64 bs) = Some bs.
Proof.
  induction bs as [|a|a b|a b c l IH] using triples_ind; intros Hf; [done|..].
  - apply Forall_cons in Hf as [Ha _]. cbn [encode64 decodeQuads].
    pose proof (six_mid a 0 Ha ltac:(lia)) as Hm. pose proof (join_byte a 0 Ha ltac:(lia)) as Hj.
    change (0 / 16) with 0 in *. rewrite Z.add_0_r in *.
    rewrite !decode6_encode by (done || by apply six_hi). cbn. by rewrite Hj.
  - apply Forall_cons in Hf as [Ha Hf]. apply Forall_cons in Hf as [Hb _]. cbn [encode64 decodeQuads].
    pose proof (six_lo b 0 Hb ltac:(lia)) as Hm. pose proof (join_byte2 a b 0 Hb ltac:(lia)) as Hj.
    change (0 / 64) with 0 in *. rewrite Z.add_0_r in *.
    rewrite !decode6_encode by (done || by apply six_hi || by apply six_mid). cbn [mbind option_bind].
    rewrite encode6_pad by done. cbn [mbind option_bind]. cbn. by rewrite Hj, join_byte.
  - apply Forall_cons in Hf as [Ha Hf]. apply Forall_cons in Hf as [Hb Hf]. apply Forall_cons in Hf as [Hc Hf].
    cbn [encode64 decodeQuads]. pose proof (Z.mod_pos_bound c 64 ltac:(lia)).
    rewrite !decode6_encode by (done || by apply six_hi || by apply six_mid || by apply six_lo).
    cbn [mbind option_bind]. rewrite !encode6_pad by (done || by apply six_lo). cbn [mbind option_bind].
    rewrite IH by done. cbn [mbind option_bind]. by rewrite join_byte, join_byte2, join_byte3.
Qed.

Lemma decode64_encode bs : Forall (λ z, 0 ≤ z < 256) bs → decode64 (encode64 bs) = Some bs.
Proof. intros Hf. unfold decode64. rewrite skipNewlines_encode by done. by apply decodeQuads_encode. Qed.

Lemma noSlash_encode64 bs : Forall (λ z, 0 ≤ z < 256) bs → noSlash (encode64 bs).
Proof.
  assert (∀ n, 0 ≤ n < 64 → encode6 n ≠ "/"%char) as Hc by (intros n Hn; by apply encode6_facts).
  induction bs as [|a|a b|a b c l IH] using triples_ind; intros Hf; [done|..].
  - apply Forall_cons in Hf as [Ha _]. pose proof (six_mid a 0 Ha ltac:(lia)) as Hm.
    change (0 / 16) with 0 in Hm. rewrite Z.add_0_r in Hm. repeat split; try done; apply Hc; [by apply six_hi|done].
  - apply Forall_cons in Hf as [Ha Hf]. apply Forall_cons in Hf as [Hb _]. pose proof (six_lo b 0 Hb ltac:(lia)) as Hm.
    change (0 / 64) with 0 in Hm. rewrite Z.add_0_r in Hm.
    repeat split; try done; apply Hc; [by apply six_hi|by apply six_mid|done].
  - apply Forall_cons in Hf as [Ha Hf]. apply Forall_cons in Hf as [Hb Hf]. apply Forall_cons in Hf as [Hd Hf].
    pose proof (Z.mod_pos_bound c 64 ltac:(lia)).
    repeat split; try (by apply IH); apply Hc; [by apply six_hi|by apply six_mid|by apply six_lo|done].
Qed.
