(* ===== verification/Keystore.v ===== *)
(** * The keystore

    [provider/keystore/keystore.go]: a persistent set of multihashes, indexed
    by their Kademlia identifiers.  A multihash is a byte string; the entry of
    [h] has the key [dsKey (MhToBit256 h)] and the value [h].

    The worker goroutine serves one request at a time: [workerStep] is one
    iteration of its loop.  [None] is a panic; errors are values of [ksError].
    [represents] relates a datastore to the set of multihashes it holds, and
    the theorems state every operation on that set. *)

From S2P Require Import Prelude Key GoTime Datastore Base64.
From Stdlib Require Import Ascii.

(** ** Iterating over query results *)

(** [ds.QueryIter]: the entries, then a [None] if the query failed. *)
Definition QueryIter `{DsLib} (d : DS) (prefix : string) : DS * list (option (string * bytes)) :=
  let '(d, r) := ds_Query d prefix in
  (d, match r with
      | None => [None]
      | Some (l, failed) => (Some <$> l) ++ if failed : bool then [None] else []
      end).

(** ** Datastore keys *)

(** [ds.NewKey] of a path without "." and ".." components: [path.Clean] drops
    empty components. *)
Fixpoint joinSlash (l : list string) : string :=
  match l with
  | [] => ""
  | s :: l => (if decide (s = ""%string) then "" else "/" +:+ s) +:+ joinSlash l
  end.

Definition NewKey (s : string) : string :=
  let c := joinSlash (splitSlash s) in
  if decide (c = ""%string) then "/" else c.

(** [sizeKey] *)
Definition sizeKey : string := NewKey "size".

(** Every bit followed by a slash. *)
Fixpoint pathBits (k : key) : string :=
  match k with
  | [] => ""
  | b :: k => String (if b : bool then "1" else "0") (String "/" (pathBits k))
  end.

(** [dsKey] *)
Definition dsKey (k : key) (prefixBits : nat) : option string :=
  let l := length k in
  let path := pathBits (take (Nat.min prefixBits l) k) in
  suffix ← (if decide (l = KeyLen) then
              bs ← KeyToBytes k;
              if decide (prefixBits / 8 ≤ length bs) then Some (encode64 (drop (prefixBits / 8) bs))
              else None
            else Some ""%string);
  Some (NewKey (path +:+ suffix)).

(** The number of bytes of a [bit256.Key]. *)
Definition keyBytes : nat := 32.

(** The bit at the path component [i]: [dsk[2*i+1] == '1'], which is stored
    in the byte [i/8]. *)
Definition decodeBit (dsk : string) (i : nat) : option bool :=
  c ← String.get (2 * i + 1) dsk;
  if Ascii.eqb c "1"%char then if decide (i / 8 < keyBytes) then Some true else None
  else Some false.

(** [decodeKey]: panics if the string is too short; the inner [None] is an
    error. *)
Definition decodeKey (prefixBits : nat) (dsk : string) : option (option key) :=
  bits ← mapM (decodeBit dsk) (seq 0 prefixBits);
  if decide (2 * prefixBits + 1 ≤ String.length dsk) then
    match decode64 (String.substring (2 * prefixBits + 1) (String.length dsk - (2 * prefixBits + 1)) dsk) with
    | None => Some None
    | Some decoded =>
        if decide (length decoded = keyBytes - prefixBits / 8) then
          Some (Some (take (8 * (prefixBits / 8)) bits ++ unpack decoded))
        else Some None
    end
  else None.

(** ** State and operations *)

Inductive ksError := ErrDatastore | ErrContext | ErrDecode | ErrClosed | ErrResetInProgress.

Section keystore.
Context {DSL : DsLib}.
Variable MhToBit256 : bytes → key.

Record keystore := mkKeystore {
  ks_ds : DS;
  ks_size : Z;
  ks_prefixBits : nat;
  ks_batchSize : nat;
  ks_closed : bool;
}.

Definition ks_setDs (s : keystore) (d : DS) : keystore :=
  mkKeystore d (ks_size s) (ks_prefixBits s) (ks_batchSize s) (ks_closed s).

Definition ks_setSize (s : keystore) (n : Z) : keystore :=
  mkKeystore (ks_ds s) n (ks_prefixBits s) (ks_batchSize s) (ks_closed s).

(** A range loop over [keys] that skips identifiers it has seen and asks the
    datastore for the others; [wanted] says whether the ones it holds or the
    ones it does not hold are collected for the batch. *)
Fixpoint hasLoop (prefixBits : nat) (wanted : bool) (keys : list bytes) (seen : gset key) (d : DS)
    (acc : list (string * bytes)) : option (DS * option (list (string * bytes))) :=
  match keys with
  | [] => Some (d, Some acc)
  | h :: keys =>
      let k := MhToBit256 h in
      if decide (k ∈ seen) then hasLoop prefixBits wanted keys seen d acc
      else
        dsk ← dsKey k prefixBits;
        let '(d, r) := ds_Has d dsk in
        match r with
        | None => Some (d, None)
        | Some ok =>
            hasLoop prefixBits wanted keys ({[k]} ∪ seen) d
              (if Bool.eqb ok wanted then acc ++ [(dsk, h)] else acc)
        end
  end.

(** [put]: the new keys, or an error. *)
Definition put (s : keystore) (keys : list bytes) : option (keystore * (list bytes + ksError)) :=
  let '(d, ok) := ds_Batch (ks_ds s) in
  if negb ok then Some (ks_setDs s d, inr ErrDatastore)
  else
    '(d, r) ← hasLoop (ks_prefixBits s) false keys ∅ d [];
    match r with
    | None => Some (ks_setDs s d, inr ErrDatastore)
    | Some new =>
        let '(d, ok) := ds_Commit d ((λ e, BPut e.1 e.2) <$> new) in
        if negb ok then Some (ks_setDs s d, inr ErrDatastore)
        else
          let newKeys := new.*2 in
          let '(d, _) := ds_Sync d in
          Some (ks_setSize (ks_setDs s d) (ks_size s + Z.of_nat (length newKeys)), inl newKeys)
    end.

(** The loop of [get]. *)
Fixpoint getLoop (prefixBits : nat) (prefix : key) (results : list (option (string * bytes)))
    (out : list bytes) : option (list bytes + ksError) :=
  match results with
  | [] => Some (inl out)
  | None :: _ => Some (inr ErrDatastore)
  | Some (k, v) :: results =>
      if decide (prefixBits < length prefix) then
        r ← decodeKey prefixBits k;
        match r with
        | None => Some (inr ErrDecode)
        | Some k =>
            if IsPrefix prefix k then getLoop prefixBits prefix results (out ++ [v])
            else getLoop prefixBits prefix results out
        end
      else getLoop prefixBits prefix results (out ++ [v])
  end.

(** [get] *)
Definition get (s : keystore) (prefix : key) : option (keystore * (list bytes + ksError)) :=
  dsk ← dsKey prefix (ks_prefixBits s);
  let '(d, results) := QueryIter (ks_ds s) dsk in
  r ← getLoop (ks_prefixBits s) prefix results [];
  Some (ks_setDs s d, r).

(** The loop of [containsPrefix]; without the filter the first result decides
    (the query has the limit 1). *)
Fixpoint containsLoop (prefixBits : nat) (prefix : key) (results : list (option (string * bytes)))
    : option (bool + ksError) :=
  match results with
  | [] => Some (inl false)
  | None :: _ => Some (inr ErrDatastore)
  | Some (k, v) :: results =>
      if decide (prefixBits < length prefix) then
        r ← decodeKey prefixBits k;
        match r with
        | None => Some (inr ErrDecode)
        | Some k => if IsPrefix prefix k then Some (inl true) else containsLoop prefixBits prefix results
        end
      else Some (inl true)
  end.

(** [containsPrefix] *)
Definition containsPrefix (s : keystore) (prefix : key) : option (keystore * (bool + ksError)) :=
  dsk ← dsKey prefix (ks_prefixBits s);
  let '(d, results) := QueryIter (ks_ds s) dsk in
  r ← containsLoop (ks_prefixBits s) prefix results;
  Some (ks_setDs s d, r).

(** The loop of [empty]: the datastore, and the batch with its size unless
    there was an error.  [ctx] is the iteration at which the context is found
    cancelled.  The error of the query is checked after the batch was
    committed, which overwrites it; the entry is then the zero value, whose
    key is "/". *)
Fixpoint emptyLoop (batchSize : nat) (ctx : option nat) (results : list (option (string * bytes)))
    (d : DS) (batch : list batchOp) (writeCount : nat) : DS * (list batchOp * nat + ksError) :=
  match results with
  | [] => (d, inl (batch, writeCount))
  | res :: results =>
      if decide (ctx = Some 0) then (d, inr ErrContext)
      else
        let ctx := pred <$> ctx in
        if decide (batchSize ≤ writeCount) then
          let '(d, ok) := ds_Commit d batch in
          if negb ok then (d, inr ErrDatastore)
          else
            let '(d, ok) := ds_Batch d in
            if negb ok then (d, inr ErrDatastore)
            else
              let k := NewKey (match res with Some e => e.1 | None => ""%string end) in
              emptyLoop batchSize ctx results d [BDelete k] 1
        else
          match res with
          | None => (d, inr ErrDatastore)
          | Some e => emptyLoop batchSize ctx results d (batch ++ [BDelete (NewKey e.1)]) (S writeCount)
          end
  end.

(** [empty] *)
Definition empty (batchSize : nat) (ctx : option nat) (d : DS) : DS * option ksError :=
  let '(d, ok) := ds_Batch d in
  if negb ok then (d, Some ErrDatastore)
  else
    let '(d, results) := QueryIter d "/" in
    let '(d, r) := emptyLoop batchSize ctx results d [] 0 in
    match r with
    | inr e => (d, Some e)
    | inl (batch, writeCount) =>
        let '(d, ok) := if decide (0 < writeCount) then ds_Commit d batch else (d, true) in
        if negb ok then (d, Some ErrDatastore)
        else let '(d, _) := ds_Sync d in (d, None)
    end.

(** [delete] *)
Definition delete (s : keystore) (keys : list bytes) : option (keystore * option ksError) :=
  let '(d, ok) := ds_Batch (ks_ds s) in
  if negb ok then Some (ks_setDs s d, Some ErrDatastore)
  else
    '(d, r) ← hasLoop (ks_prefixBits s) true keys ∅ d [];
    match r with
    | None => Some (ks_setDs s d, Some ErrDatastore)
    | Some old =>
        let '(d, ok) := ds_Commit d ((λ e, BDelete e.1) <$> old) in
        if negb ok then Some (ks_setDs s d, Some ErrDatastore)
        else
          let removedCount := length old in
          let '(d, _) := ds_Sync d in
          Some (ks_setSize (ks_setDs s d) (ks_size s - Z.of_nat removedCount), None)
    end.

(** The loop of [refreshSize]; [None] is an error. *)
Fixpoint countLoop (results : list (option (string * bytes))) (size : Z) : option Z :=
  match results with
  | [] => Some size
  | None :: _ => None
  | Some _ :: results => countLoop results (size + 1)
  end.

(** [refreshSize] *)
Definition refreshSize (d : DS) : DS * option Z :=
  let '(d, results) := QueryIter d "/" in (d, countLoop results 0).

(** [s.size = size] if the size could be refreshed, and whether it could. *)
Definition refresh (s : keystore) : keystore * bool :=
  let '(d, r) := refreshSize (ks_ds s) in
  match r with
  | Some n => (ks_setSize (ks_setDs s d) n, true)
  | None => (ks_setDs s d, false)
  end.

(** Big-endian bytes of an unsigned 64-bit integer, and back. *)
Definition PutUint64 (z : Z) : bytes :=
  (λ i, (z / 2 ^ (8 * i)) mod 256)%Z <$> [7; 6; 5; 4; 3; 2; 1; 0]%Z.

Definition Uint64 (bs : bytes) : Z := foldl (λ n b, n * 256 + b)%Z 0%Z bs.

(** [loadSize] *)
Definition loadSize (s : keystore) : keystore * bool :=
  let '(d, r) := ds_Get (ks_ds s) sizeKey in
  let '(d', ok) := ds_Delete d sizeKey in
  match r with
  | Some (Some sizeBytes) =>
      if decide (length sizeBytes = 8) then
        (ks_setSize (ks_setDs s d') (wrap64 (Uint64 sizeBytes)), true)
      else refresh (ks_setDs s d')
  | _ => refresh (ks_setDs s d')
  end.

(** [persistSize] *)
Definition persistSize (s : keystore) : keystore * bool :=
  let '(d, ok) := ds_Put (ks_ds s) sizeKey (PutUint64 (ks_size s mod 2 ^ 64)) in
  (ks_setDs s d, ok).

(** ** The worker *)

Inductive operation :=
| opPut (keys : list bytes)
| opGet (prefix : key)
| opContainsPrefix (prefix : key)
| opDelete (keys : list bytes)
| opEmpty (ctx : option nat)
| opSize.

Record operationResponse := mkResponse {
  resp_multihashes : list bytes;
  resp_found : bool;
  resp_size : Z;
  resp_err : option ksError;
}.

(** [s.size] after an operation: it is refreshed if there was an error.  The
    boolean is false if an error is logged. *)
Definition refreshOnError (s : keystore) (err : option ksError) : keystore * bool :=
  match err with Some _ => refresh s | None => (s, true) end.

(** The answers of [put], [get] and [containsPrefix]. *)
Definition keysResponse (r : list bytes + ksError) : operationResponse :=
  match r with
  | inl keys => mkResponse keys false 0 None
  | inr e => mkResponse [] false 0 (Some e)
  end.

Definition foundResponse (r : bool + ksError) : operationResponse :=
  match r with
  | inl found => mkResponse [] found 0 None
  | inr e => mkResponse [] false 0 (Some e)
  end.

(** One iteration of the loop of [worker]: the response, and false if
    refreshing the size failed, which is logged. *)
Definition workerStep (s : keystore) (op : operation) : option (keystore * operationResponse * bool) :=
  match op with
  | opPut keys =>
      '(s, r) ← put s keys;
      let resp := keysResponse r in
      let '(s, ok) := refreshOnError s (resp_err resp) in
      Some (s, resp, ok)
  | opGet prefix =>
      '(s, r) ← get s prefix;
      Some (s, keysResponse r, true)
  | opContainsPrefix prefix =>
      '(s, r) ← containsPrefix s prefix;
      Some (s, foundResponse r, true)
  | opDelete keys =>
      '(s, err) ← delete s keys;
      let '(s, ok) := refreshOnError s err in
      Some (s, mkResponse [] false 0 err, ok)
  | opEmpty ctx =>
      let '(d, err) := empty (ks_batchSize s) ctx (ks_ds s) in
      let s := ks_setDs s d in
      let '(s, ok) := match err with None => (ks_setSize s 0, true) | Some _ => refresh s end in
      Some (s, mkResponse [] false 0 err, ok)
  | opSize => Some (s, mkResponse [] false (ks_size s) None, true)
  end.

(** ** The exported methods *)

(** What happens to a request: the context is cancelled or the keystore closed
    before the worker takes it, or the worker serves it and the caller gets
    the response or is cancelled while it waits. *)
Inductive delivery := Cancelled | Closing | Served | ServedCancelled.

Definition failure (e : ksError) : operationResponse := mkResponse [] false 0 (Some e).

(** [executeOperation]; a closed keystore has no worker. *)
Definition executeOperation (s : keystore) (how : delivery) (op : operation)
    : option (keystore * operationResponse) :=
  match how with
  | Cancelled => Some (s, failure ErrContext)
  | Closing => Some (s, failure ErrClosed)
  | Served =>
      if ks_closed s then Some (s, failure ErrClosed)
      else '(s, resp, _) ← workerStep s op; Some (s, resp)
  | ServedCancelled =>
      if ks_closed s then Some (s, failure ErrClosed)
      else '(s, _, _) ← workerStep s op; Some (s, failure ErrContext)
  end.

(** [Put], [Get], [ContainsPrefix], [Empty], [Delete], [Size], [BatchSize] *)
Definition Put (s : keystore) (how : delivery) (keys : list bytes)
    : option (keystore * list bytes * option ksError) :=
  if decide (keys = []) then Some (s, [], None)
  else
    '(s, r) ← executeOperation s how (opPut keys);
    Some (s, resp_multihashes r, resp_err r).

Definition Get (s : keystore) (how : delivery) (prefix : key)
    : option (keystore * list bytes * option ksError) :=
  '(s, r) ← executeOperation s how (opGet prefix);
  Some (s, resp_multihashes r, resp_err r).

Definition ContainsPrefix (s : keystore) (how : delivery) (prefix : key)
    : option (keystore * bool * option ksError) :=
  '(s, r) ← executeOperation s how (opContainsPrefix prefix);
  Some (s, resp_found r, resp_err r).

Definition Empty (s : keystore) (how : delivery) (ctx : option nat) : option (keystore * option ksError) :=
  '(s, r) ← executeOperation s how (opEmpty ctx);
  Some (s, resp_err r).

Definition Delete (s : keystore) (how : delivery) (keys : list bytes) : option (keystore * option ksError) :=
  if decide (keys = []) then Some (s, None)
  else
    '(s, r) ← executeOperation s how (opDelete keys);
    Some (s, resp_err r).

Definition Size (s : keystore) (how : delivery) : option (keystore * Z * option ksError) :=
  '(s, r) ← executeOperation s how opSize;
  Some (s, resp_size r, resp_err r).

Definition BatchSize (s : keystore) : nat := ks_batchSize s.

(** [Close], once the worker has stopped. *)
Definition Close (s : keystore) : keystore * option ksError :=
  if ks_closed s then (s, None)
  else
    let s := mkKeystore (ks_ds s) (ks_size s) (ks_prefixBits s) (ks_batchSize s) true in
    let '(s, ok) := persistSize s in
    if negb ok then (s, Some ErrDatastore)
    else
      let '(d, ok) := ds_Sync (ks_ds s) in
      (ks_setDs s d, if ok : bool then None else Some ErrDatastore).

(** [WithPrefixBits] and [WithBatchSize]: what the options accept. *)
Definition WithPrefixBits (n : Z) : bool := (0 <=? n)%Z && (n <=? 256)%Z && (n mod 8 =? 0)%Z.
Definition WithBatchSize (n : Z) : bool := (0 <? n)%Z.

(** [NewKeystore] on the datastore of its namespace, with the start of the
    worker. *)
Definition NewKeystore (d : DS) (prefixBits batchSize : Z) : option (keystore * bool) :=
  if WithPrefixBits prefixBits && WithBatchSize batchSize then
    Some (loadSize (mkKeystore d 0 (Z.to_nat prefixBits) (Z.to_nat batchSize) false))
  else None.
End keystore.

(** ** Datastore keys *)

(** Every bit after a slash. *)
Fixpoint slashBits (k : key) : string :=
  match k with
  | [] => ""
  | b :: k => String "/" (String (if b : bool then "1" else "0") (slashBits k))
  end.

(** The number of bits the options accept. *)
Definition bitsOk (prefixBits : nat) : Prop := prefixBits ≤ KeyLen ∧ prefixBits mod 8 = 0.

(** The component of the remaining bytes. *)
Definition tail64 (bs : bytes) : string := match bs with [] => "" | _ => "/" +:+ encode64 bs end.

Lemma bitsOk_div pb : bitsOk pb → 8 * (pb / 8) = pb ∧ pb / 8 ≤ keyBytes.
Proof.
  intros [Hl Hm]. pose proof (Nat.div_mod_eq pb 8). split; [lia|]. unfold keyBytes, KeyLen in *. lia.
Qed.

Lemma joinSlash_path k s : noSlash s →
  joinSlash (splitSlash (pathBits k +:+ s)) = slashBits k +:+ (if decide (s = ""%string) then "" else "/" +:+ s).
Proof.
  intros Hs. induction k as [|b k IH]; cbn [pathBits slashBits].
  - change ("" +:+ s) with s. rewrite splitSlash_whole by done. cbn [joinSlash]. by rewrite string_app_nil_r.
  - rewrite !append_cons. destruct b; cbn [splitSlash ascii_dec]; cbn; by rewrite IH.
Qed.

Lemma NewKey_path k s : noSlash s → (k ≠ [] ∨ s ≠ ""%string) →
  NewKey (pathBits k +:+ s) = slashBits k +:+ (if decide (s = ""%string) then "" else "/" +:+ s).
Proof.
  intros Hs Hne. unfold NewKey. rewrite joinSlash_path by done. rewrite decide_False; [done|].
  destruct k; [|done]. cbn. case_decide; [by destruct Hne|done].
Qed.

Lemma encode64_nonempty bs : bs ≠ [] → encode64 bs ≠ ""%string.
Proof. by destruct bs as [|a [|b [|c bs]]]. Qed.

Lemma dsKey_full k pb : length k = KeyLen → bitsOk pb →
  ∃ bs, dsKey k pb = Some (slashBits (take pb k) +:+ tail64 bs) ∧
    length bs = keyBytes - pb / 8 ∧ Forall (λ z, 0 ≤ z < 256)%Z bs ∧ unpack bs = drop pb k.
Proof.
  intros Hk Hp. destruct (bitsOk_div pb Hp) as [Hd Hle].
  destruct (KeyToBytes_correct k) as (b & Hb & Hl & Hf & Hu). unfold dsKey.
  rewrite Hk, decide_True, Hb by done. cbn [mbind option_bind]. rewrite Hk in Hl, Hu. change (_ / 8)%nat with keyBytes in Hl, Hu at 1.
  rewrite decide_True by lia. cbn [mbind option_bind]. exists (drop (pb / 8) b).
  rewrite app_nil_r in Hu.
  assert (Forall (λ z, 0 ≤ z < 256)%Z (drop (pb / 8) b)) as Hf' by (by apply Forall_drop).
  split_and!; [|by rewrite length_drop, Hl|done|].
  - rewrite Nat.min_l by apply Hp. f_equal.
    destruct (decide (drop (pb / 8) b = [])) as [He|He].
    + rewrite NewKey_path, He; [done|by apply noSlash_encode64|]. left. intros Ht%(f_equal length).
      rewrite length_take, Hk in Ht. apply (f_equal length) in He. rewrite length_drop, Hl in He. cbn in *.
      unfold KeyLen, keyBytes in *. lia.
    + pose proof (encode64_nonempty _ He). rewrite NewKey_path; [|by apply noSlash_encode64|by right].
      rewrite decide_False by done. by destruct (drop (pb / 8) b).
  - rewrite <-Hu. rewrite <-(take_drop (pb / 8) b) at 2. rewrite unpack_app.
    assert (∀ l, length (unpack l) = 8 * length l) as Hul.
    { induction l as [|x l IH]; [done|]. cbn [unpack mbind list_bind length]. fold (unpack l). rewrite length_app, IH. cbn. lia. }
    rewrite drop_app_ge; rewrite Hul, length_take, Hl, Nat.min_l by lia; [|lia]. by rewrite Hd, Nat.sub_diag, drop_0.
Qed.

(** The key of a query for the bits [c]. *)
Definition queryPath (c : key) : string := match c with [] => "/" | _ => slashBits c end.

Lemma dsKey_prefix p pb : length p < KeyLen →
  dsKey p pb = Some (queryPath (take pb p)).
Proof.
  intros Hp. unfold dsKey. rewrite decide_False by lia. cbn [mbind option_bind]. f_equal.
  assert (take (Nat.min pb (length p)) p = take pb p) as -> by (rewrite <-take_take; by rewrite firstn_all).
  destruct (take pb p) as [|b c] eqn:Ht; [done|].
  rewrite NewKey_path by (done || by left). by rewrite string_app_nil_r.
Qed.

Lemma slashBits_inj a b s t : length a = length b → slashBits a +:+ s = slashBits b +:+ t → a = b ∧ s = t.
Proof.
  revert b. induction a as [|x a IH]; intros [|y b]; try done. cbn [slashBits length]. rewrite !append_cons. intros [= Hl] [= Hc He].
  apply IH in He as [-> ->]; [|done]. by destruct x, y.
Qed.

Lemma tail64_inj b b' : Forall (λ z, 0 ≤ z < 256)%Z b → Forall (λ z, 0 ≤ z < 256)%Z b' → tail64 b = tail64 b' → b = b'.
Proof.
  intros Hb Hb' He. apply (inj Some). rewrite <-!decode64_encode by done. f_equal.
  destruct b, b'; cbn [tail64] in He; try done. by injection He.
Qed.

Lemma dsKey_inj k k' pb dk : length k = KeyLen → length k' = KeyLen → bitsOk pb →
  dsKey k pb = Some dk → dsKey k' pb = Some dk → k = k'.
Proof.
  intros Hk Hk' Hp H1 H2. destruct (dsKey_full k pb Hk Hp) as (b & E1 & _ & Hf1 & Hu1).
  destruct (dsKey_full k' pb Hk' Hp) as (b' & E2 & _ & Hf2 & Hu2). rewrite H1 in E1. rewrite H2 in E2.
  injection E1 as ->. injection E2 as He. apply slashBits_inj in He as [Ht He%tail64_inj]; [|done..|].
  - by rewrite <-(take_drop pb k), <-(take_drop pb k'), <-Hu1, <-Hu2, Ht, He.
  - by rewrite !length_take, Hk, Hk'.
Qed.

Lemma prefix_slashBits c k s :
  length c ≤ length k →
  String.prefix (slashBits c +:+ "/") (slashBits k +:+ s) = true ↔
  c ≼ k ∧ (length c < length k ∨ String.prefix "/" s = true).
Proof.
  revert k. induction c as [|x c IH]; intros [|y k] Hl; cbn [length] in *; try lia.
  - cbn [slashBits]. split; [intros H|intros [_ [H|H]]]; [split; [done|by right]|lia|done].
  - split; [|done]. intros _. split; [apply prefix_nil|lia].
  - specialize (IH k ltac:(lia)).
    assert (String.prefix (slashBits (x :: c) +:+ "/") (slashBits (y :: k) +:+ s) = true ↔
      x = y ∧ String.prefix (slashBits c +:+ "/") (slashBits k +:+ s) = true) as ->.
    { cbn [slashBits]. rewrite !append_cons. cbn [String.prefix]. destruct x, y; cbn; tauto || (split; [done|by intros [? _]]). }
    rewrite IH. split.
    + intros (-> & Hp & H). split; [by apply prefix_cons|]. destruct H; [left; lia|by right].
    + intros [Hp H]. split; [by apply prefix_cons_inv_1 in Hp|]. apply prefix_cons_inv_2 in Hp. split; [done|].
      destruct H; [left; lia|by right].
Qed.

(** A query for a prefix that is not a whole identifier returns the
    identifiers that agree with its first [pb] bits. *)
Lemma belowKey_spec p k pb a b :
  bitsOk pb → length p < KeyLen → length k = KeyLen →
  dsKey p pb = Some a → dsKey k pb = Some b → belowKey a b = true ↔ take pb p ≼ k.
Proof.
  intros Hpb Hp Hk. rewrite dsKey_prefix by done. destruct (dsKey_full k pb Hk Hpb) as (bs & -> & Hl & _ & _).
  intros <-%(inj Some) <-%(inj Some). unfold belowKey. destruct (take pb p) as [|x c] eqn:Ht.
  { rewrite bool_decide_eq_true_2 by done. split; [intros; apply prefix_nil|done]. }
  rewrite bool_decide_eq_false_2 by (by destruct x). cbn [orb].
  change (queryPath (x :: c)) with (slashBits (x :: c)). rewrite <-Ht.
  rewrite prefix_slashBits by (rewrite !length_take; lia). split.
  - intros [H _]. etrans; [exact H|apply prefix_take].
  - intros H. split.
    + apply prefix_take_eq. rewrite !length_take. split; [apply prefix_length in H; rewrite length_take in H; lia|]. apply prefix_take_eq in H as [_ H].
      rewrite length_take in H. rewrite take_take. rewrite H at 1. f_equal. lia.
    + destruct Hpb as [Hle Hm]. rewrite !length_take, Hk. destruct (decide (pb ≤ length p)); [right|left; lia].
      destruct bs; [|unfold tail64; rewrite append_cons; cbn -[encode64]; by destruct (encode64 _)].
      destruct (bitsOk_div pb (conj Hle Hm)). cbn [length] in Hl. unfold keyBytes, KeyLen in *. exfalso. lia.
Qed.

(** *** Decoding *)

Lemma slashBits_length k : String.length (slashBits k) = 2 * length k.
Proof. induction k as [|b k IH]; [done|]. cbn [slashBits String.length length]. lia. Qed.

Lemma slashBits_get k s i : i < length k →
  String.get (2 * i + 1) (slashBits k +:+ s) = (λ b : bool, if b then "1"%char else "0"%char) <$> k !! i.
Proof.
  revert i. induction k as [|b k IH]; intros i Hi; cbn [length] in *; [lia|]. destruct i as [|i]; [done|].
  replace (2 * S i + 1) with (S (S (2 * i + 1))) by lia. cbn [slashBits]. rewrite !append_cons. cbn [String.get lookup list_lookup].
  apply IH. lia.
Qed.

Lemma substring_app a b : String.substring (String.length a) (String.length (a +:+ b) - String.length a) (a +:+ b) = b.
Proof.
  induction a as [|c a IH]; [|rewrite append_cons]; cbn [String.length].
  - change ("" +:+ b) with b. rewrite Nat.sub_0_r. induction b as [|x b IH]; [done|]. cbn [String.length String.substring]. by rewrite IH.
  - cbn [Nat.sub]. exact IH.
Qed.

Lemma string_length_app a b : String.length (a +:+ b) = String.length a + String.length b.
Proof. induction a as [|c a IH]; [done|]. rewrite append_cons. cbn [String.length]. by rewrite IH. Qed.

Lemma decodeBits_spec k s : length k ≤ KeyLen →
  mapM (decodeBit (slashBits k +:+ s)) (seq 0 (length k)) = Some k.
Proof.
  intros Hk. apply mapM_Some. apply Forall2_same_length_lookup_2; [by rewrite length_seq|].
  intros i j b Hj Hb. apply lookup_seq in Hj as [-> Hi]. cbn. unfold decodeBit.
  rewrite slashBits_get, Hb by done. cbn [fmap option_fmap option_map mbind option_bind].
  destruct b; [|done]. cbn [Ascii.eqb Bool.eqb]. rewrite decide_True; [done|].
  apply Nat.Div0.div_lt_upper_bound. unfold keyBytes, KeyLen in *. lia.
Qed.

Lemma decodeKey_dsKey k pb : length k = KeyLen → bitsOk pb → pb < KeyLen →
  (dsKey k pb ≫= decodeKey pb) = Some (Some k).
Proof.
  intros Hk Hpb Hlt. destruct (bitsOk_div pb Hpb) as [Hd Hle].
  destruct (dsKey_full k pb Hk Hpb) as (bs & -> & Hl & Hf & Hu). cbn [mbind option_bind].
  assert (length (take pb k) = pb) as Ht by (rewrite length_take; lia).
  assert (tail64 bs = "/" +:+ encode64 bs) as ->.
  { destruct bs; [|done]. cbn [length] in Hl. unfold keyBytes, KeyLen in *. exfalso. lia. }
  unfold decodeKey. pose proof (decodeBits_spec (take pb k) ("/" +:+ encode64 bs) ltac:(lia)) as Hb.
  rewrite Ht in Hb. rewrite Hb. cbn [mbind option_bind].
  rewrite <-string_app_assoc. set (pre := slashBits (take pb k) +:+ "/").
  assert (String.length pre = 2 * pb + 1) as <-.
  { unfold pre. rewrite string_length_app, slashBits_length, Ht. done. }
  rewrite substring_app, decode64_encode by done. rewrite decide_True by (rewrite string_length_app; lia).
  rewrite decide_True by done. by rewrite Hd, Hu, take_take, Nat.min_id, take_drop.
Qed.

(** The key of the size is none of a multihash. *)
Lemma dsKey_sizeKey k pb : length k = KeyLen → bitsOk pb → dsKey k pb ≠ Some sizeKey.
Proof.
  intros Hk Hpb. destruct (dsKey_full k pb Hk Hpb) as (bs & -> & Hl & Hf & Hu). intros [= He].
  destruct (take pb k) as [|[] c] eqn:Ht; [|done..].
  assert (pb = 0) as ->. { apply (f_equal length) in Ht. rewrite length_take, Hk in Ht. cbn in Ht. unfold KeyLen in *. lia. }
  pose proof (decode64_encode bs Hf) as Hdec. assert (bs ≠ []) as Hne by (by intros ->).
  assert (String "/" (encode64 bs) = String "/" "size") as Hs by (by destruct bs).
  remember (encode64 bs) as e. injection Hs as ->. vm_compute in Hdec. injection Hdec as <-. done.
Qed.

(** ** The set of multihashes *)

Lemma sublist_fmap_inv {A B} (f : A → B) l k : sublist l (f <$> k) → ∃ k', l = f <$> k' ∧ sublist k' k.
Proof.
  revert l. induction k as [|x k IH]; intros l Hl.
  - apply sublist_nil_r in Hl as ->. by exists [].
  - rewrite fmap_cons in Hl. apply sublist_cons_r in Hl as [Hl|(l' & -> & Hl)].
    + destruct (IH _ Hl) as (k' & -> & Hk). exists k'. split; [done|by apply sublist_cons].
    + destruct (IH _ Hl) as (k' & -> & Hk). exists (x :: k'). split; [done|by apply sublist_skip].
Qed.

Lemma joinSlash_slash r : joinSlash (splitSlash (String "/" r)) = joinSlash (splitSlash r).
Proof. done. Qed.

(** [NewKey] does not change the keys of entries. *)
Lemma joinSlash_slashBits k t :
  (t = ""%string ∨ ∃ r, t = String "/" r) → joinSlash (splitSlash t) = t →
  joinSlash (splitSlash (slashBits k +:+ t)) = slashBits k +:+ t ∧
  (slashBits k +:+ t = ""%string ∨ ∃ r, slashBits k +:+ t = String "/" r).
Proof.
  intros Ht Hj. induction k as [|b k [IH IHs]]; [done|]. cbn [slashBits]. rewrite !append_cons.
  split; [|right; by eexists]. rewrite joinSlash_slash. destruct IHs as [He|[r He]]; rewrite He in *.
  - by destruct b.
  - rewrite joinSlash_slash in IH. destruct b; cbn -[joinSlash]; cbn [joinSlash]; rewrite IH; done.
Qed.

Lemma NewKey_dsKey k pb dk : length k = KeyLen → bitsOk pb → dsKey k pb = Some dk → NewKey dk = dk.
Proof.
  intros Hk Hpb. destruct (dsKey_full k pb Hk Hpb) as (bs & -> & Hl & Hf & _). intros [= <-].
  unfold NewKey. destruct (joinSlash_slashBits (take pb k) (tail64 bs)) as [-> _].
  - destruct bs; [by left|right; by eexists].
  - destruct bs as [|x bs]; [done|]. unfold tail64. rewrite append_cons, joinSlash_slash.
    rewrite splitSlash_whole by (by apply noSlash_encode64). cbn [joinSlash].
    rewrite decide_False by (by apply encode64_nonempty). by rewrite string_app_nil_r.
  - rewrite decide_False; [done|]. intros He. destruct (take pb k) as [|[] c] eqn:Ht; [|done..].
    destruct bs; [|done]. apply (f_equal length) in Ht. rewrite length_take in Ht. cbn [length] in *.
    destruct (bitsOk_div pb Hpb). unfold keyBytes, KeyLen in *. lia.
Qed.

Section laws.
Context {DSL : DsLib} {DSW : DsLaws}.
Variable MhToBit256 : bytes → key.
Hypothesis MhToBit256_length : ∀ h, length (MhToBit256 h) = KeyLen.
Implicit Types (d : DS) (X : gset bytes) (h : bytes) (m : gmap string bytes).

(** The identifier of some multihash of the set. *)
Definition idIn (k : key) X : Prop := ∃ h, h ∈ X ∧ MhToBit256 h = k.

(** The entries of a map are those of the multihashes of [X]. *)
Definition repMap (pb : nat) m X : Prop :=
  ∀ dk h, m !! dk = Some h ↔ h ∈ X ∧ dsKey (MhToBit256 h) pb = Some dk.

Definition represents (s : keystore) X : Prop := repMap (ks_prefixBits s) (ds_view (ks_ds s)) X.

(** The configuration that the options allow. *)
Definition ksOk (s : keystore) : Prop := bitsOk (ks_prefixBits s) ∧ 0 < ks_batchSize s.

Section fixedBits.
Variable pb : nat.
Hypothesis Hpb : bitsOk pb.

(** [dsk] is the key of the multihash. *)
Definition keyed (e : string * bytes) : Prop := dsKey (MhToBit256 e.2) pb = Some e.1.

Lemma dsKey_total h : is_Some (dsKey (MhToBit256 h) pb).
Proof. destruct (dsKey_full (MhToBit256 h) pb (MhToBit256_length h) Hpb) as (? & -> & _). done. Qed.

Lemma keyed_inj e e' : keyed e → keyed e' → MhToBit256 e.2 = MhToBit256 e'.2 ↔ e.1 = e'.1.
Proof.
  unfold keyed. intros H H'. split; intros E; [congruence|].
  eapply (dsKey_inj _ _ pb); [by apply MhToBit256_length..|done|done|congruence].
Qed.

(** Identifiers are unique in a set that is represented. *)
Lemma repMap_inj m X h h' :
  repMap pb m X → h ∈ X → h' ∈ X → MhToBit256 h = MhToBit256 h' → h = h'.
Proof.
  intros Hm Hh Hh' He. destruct (dsKey_total h) as [dk Hd].
  assert (m !! dk = Some h) as H1 by (by apply Hm). assert (m !! dk = Some h') as H2 by (apply Hm; by rewrite <-He).
  congruence.
Qed.

Lemma repMap_has m X e : repMap pb m X → keyed e → is_Some (m !! e.1) ↔ idIn (MhToBit256 e.2) X.
Proof.
  intros Hm He. split.
  - intros [h Hh]. pose proof Hh as Hh'. apply Hm in Hh as [Hin Hd]. exists h. split; [done|].
    apply (keyed_inj (e.1, h) e); done.
  - intros (h & Hin & Hid). exists h. apply Hm. split; [done|]. rewrite Hid. exact He.
Qed.

(** *** Collecting the keys of a batch *)

Lemma hasLoop_spec wanted keys seen d acc m X :
  repMap pb m X → ds_view d = m →
  (∀ k, k ∈ seen → ∃ h, MhToBit256 h = k) →
  ∃ d' r, hasLoop MhToBit256 pb wanted keys seen d acc = Some (d', r) ∧ ds_view d' = m ∧
    ∀ l, r = Some l → ∃ l', l = acc ++ l' ∧ Forall keyed l' ∧ sublist l'.*2 keys ∧
      NoDup (MhToBit256 <$> l'.*2) ∧
      (∀ h, h ∈ l'.*2 → MhToBit256 h ∉ seen ∧ (idIn (MhToBit256 h) X ↔ wanted = true)) ∧
      (∀ h, h ∈ keys → MhToBit256 h ∉ seen → (idIn (MhToBit256 h) X ↔ wanted = true) →
        MhToBit256 h ∈ MhToBit256 <$> l'.*2).
Proof.
  intros Hm. revert seen d acc. induction keys as [|h keys IH]; intros seen d acc Hd Hs; cbn [hasLoop].
  { eexists _, _. split; [done|]. split; [done|]. intros l [= <-]. exists []. rewrite app_nil_r.
    split_and!; [done|done|done|constructor| |]; by intros ? ?%not_elem_of_nil. }
  case_decide as Hin.
  { destruct (IH seen d acc Hd Hs) as (d' & r & -> & Hv & Hr). eexists _, _. split; [done|]. split; [done|].
    intros l Hl. destruct (Hr l Hl) as (l' & -> & Hk & Hsub & Hnd & H1 & H2). exists l'.
    split_and!; [done|done|by apply sublist_cons|done|done|]. intros h' [->|Hh']%elem_of_cons; [done|by apply H2]. }
  destruct (dsKey_total h) as [dsk Hdsk]. rewrite Hdsk. cbn [mbind option_bind].
  pose proof (Has_view d dsk) as Hv. pose proof (Has_result d dsk) as Hr.
  destruct (ds_Has d dsk) as [d1 [ok|]]; cbn [fst snd] in *; [|by eexists _, _; split_and!; [done|by rewrite Hv|]].
  specialize (Hr ok eq_refl). rewrite Hd in Hr, Hv.
  assert (ok = true ↔ idIn (MhToBit256 h) X) as Hok.
  { rewrite Hr, bool_decide_eq_true. by apply (repMap_has m X (dsk, h)). }
  destruct (IH ({[MhToBit256 h]} ∪ seen) d1 (if Bool.eqb ok wanted then acc ++ [(dsk, h)] else acc))
    as (d' & r & -> & Hv' & Hr'); [done|set_solver|].
  eexists _, _. split; [done|]. split; [done|]. intros l Hl.
  destruct (Hr' l Hl) as (l' & -> & Hk & Hsub & Hnd & H1 & H2). destruct (Bool.eqb ok wanted) eqn:Heq.
  - apply Bool.eqb_prop in Heq. subst wanted. exists ((dsk, h) :: l'). rewrite !fmap_cons. cbn [snd].
    split_and!; [by rewrite <-app_assoc|by constructor|by apply sublist_skip| | |].
    + apply NoDup_cons. split; [|done]. intros (h' & He & Hh')%list_elem_of_fmap.
      destruct (H1 h' Hh') as [Hn _]. set_solver.
    + intros h' [->|Hh']%elem_of_cons; [by rewrite Hok|]. destruct (H1 h' Hh') as [Hn Hw]. split; [set_solver|done].
    + intros h' [->|Hh']%elem_of_cons Hns Hw; [by left|]. destruct (decide (MhToBit256 h' = MhToBit256 h)) as [->|Hne];
        [by left|right]. apply H2; [done|set_solver|done].
  - exists l'. split_and!; [done|done|by apply sublist_cons|done| |].
    + intros h' Hh'. destruct (H1 h' Hh') as [Hn Hw]. split; [set_solver|done].
    + intros h' Hh' Hns Hw. destruct (decide (MhToBit256 h' = MhToBit256 h)) as [He|Hne].
      * exfalso. rewrite He, <-Hok in Hw. destruct ok, wanted; cbn in Heq; naive_solver.
      * apply elem_of_cons in Hh' as [->|Hh']; [done|]. apply H2; [done|set_solver|done].
Qed.

(** *** Batches *)

Lemma repMap_puts m X (l : list (string * bytes)) :
  repMap pb m X → Forall keyed l → NoDup (MhToBit256 <$> l.*2) → (∀ h, h ∈ l.*2 → ¬ idIn (MhToBit256 h) X) →
  repMap pb (applyOps m ((λ e, BPut e.1 e.2) <$> l)) (X ∪ list_to_set l.*2).
Proof.
  revert m X. induction l as [|[dk h] l IH]; intros m X Hm Hk Hnd Hno; cbn [fmap list_fmap].
  { intros dk h. rewrite (Hm dk h). set_solver. }
  rewrite fmap_cons in Hnd. apply NoDup_cons in Hnd as [Hh Hnd]. apply Forall_cons in Hk as [Hk1 Hk].
  rewrite applyOps_cons. cbn [applyOp fst snd].
  assert (repMap pb (<[dk:=h]> m) ({[h]} ∪ X)) as Hm'.
  { intros dk' h'. rewrite lookup_insert_Some, (Hm dk' h'). split.
    - intros [[<- <-]|[Hne [? ?]]]; [split; [set_solver|done]|split; [set_solver|done]].
    - intros [[->%elem_of_singleton|Hin]%elem_of_union Hd].
      + left. split; [|done]. unfold keyed in Hk1. cbn in Hk1. congruence.
      + right. split; [|done]. intros ->. apply (Hno h); [by left|]. exists h'. split; [done|].
        by apply (keyed_inj (dk', h') (dk', h)). }
  assert (X ∪ list_to_set (h :: l.*2) = ({[h]} ∪ X) ∪ list_to_set l.*2) as -> by set_solver.
  apply IH; [done|done|done|]. intros h' Hh' (x & [->%elem_of_singleton|Hx]%elem_of_union & He).
  - apply Hh. apply list_elem_of_fmap. exists h'. split; [|done]. exact He.
  - apply (Hno h'); [by right|]. by exists x.
Qed.

Lemma applyOps_deletes m (ks : list string) dk :
  applyOps m (BDelete <$> ks) !! dk = if decide (dk ∈ ks) then None else m !! dk.
Proof.
  revert m. induction ks as [|k ks IH]; intros m; cbn [fmap list_fmap].
  { by rewrite decide_False by apply not_elem_of_nil. }
  rewrite applyOps_cons, IH. cbn [applyOp]. destruct (decide (dk ∈ ks)) as [H|H].
  - by rewrite decide_True by (by right).
  - destruct (decide (dk = k)) as [->|Hne].
    + rewrite decide_True by (by left). apply lookup_delete_eq.
    + rewrite decide_False by (by intros [?|?]%elem_of_cons). by apply lookup_delete_ne.
Qed.

(** Deleting keys, whatever they are, removes multihashes. *)
Lemma repMap_deletes m X (ks : list string) :
  repMap pb m X →
  repMap pb (applyOps m (BDelete <$> ks)) (filter (λ h, dsKey (MhToBit256 h) pb ∉ Some <$> ks) X).
Proof.
  intros Hm dk h. rewrite applyOps_deletes, elem_of_filter.
  assert (dsKey (MhToBit256 h) pb = Some dk → (dsKey (MhToBit256 h) pb ∈ Some <$> ks ↔ dk ∈ ks)) as Hd.
  { intros ->. rewrite list_elem_of_fmap. split; [by intros (? & [= ->] & ?)|by exists dk]. }
  case_decide as Hin; [|rewrite (Hm dk h)]; naive_solver.
Qed.

(** *** Query results *)

Lemma repMap_entries m X a (P : bytes → Prop) `{∀ h, Decision (P h)} :
  repMap pb m X → (∀ h dk, dsKey (MhToBit256 h) pb = Some dk → belowKey a dk = true ↔ P h) →
  (queryEntries m a).*2 ≡ₚ elements (filter P X) ∧ Forall keyed (queryEntries m a).
Proof.
  intros Hm HP. assert (∀ dk h, (dk, h) ∈ queryEntries m a ↔ (h ∈ X ∧ dsKey (MhToBit256 h) pb = Some dk) ∧ P h) as Hq.
  { intros dk h. unfold queryEntries. rewrite elem_of_map_to_list, map_lookup_filter_Some. cbn [fst].
    rewrite (Hm dk h). naive_solver. }
  split.
  - apply NoDup_Permutation; [|apply NoDup_elements|].
    + apply NoDup_fmap_2_strong; [|apply NoDup_map_to_list].
      intros [dk h] [dk' h'] H1 H2 E. cbn in E. subst h'. apply Hq in H1 as [[_ H1] _], H2 as [[_ H2] _]. congruence.
    + intros h. rewrite elem_of_elements, elem_of_filter, list_elem_of_fmap. split.
      * intros ([dk h'] & -> & He). apply Hq in He as [[? ?] ?]. done.
      * intros [Hp Hin]. destruct (dsKey_total h) as [dk Hdk]. exists (dk, h). split; [done|]. apply Hq. done.
  - apply Forall_forall. intros [dk h] He. apply Hq in He as [[_ ?] _]. done.
Qed.

Lemma repMap_all m X : repMap pb m X → (map_to_list m).*2 ≡ₚ elements X ∧ Forall keyed (map_to_list m).
Proof.
  intros Hm. destruct (repMap_entries m X "/" (λ _, True) Hm) as [H1 H2]; [done|].
  assert (queryEntries m "/" = map_to_list m) as E by (unfold queryEntries; f_equal; apply map_filter_id; by intros ? ? ?).
  rewrite E in H1, H2. split; [|done]. rewrite H1. f_equiv. intros h. rewrite elem_of_filter. tauto.
Qed.

(** The results of [QueryIter]. *)
Lemma QueryIter_spec d m X a (P : bytes → Prop) `{∀ h, Decision (P h)} :
  repMap pb m X → ds_view d = m → (∀ h dk, dsKey (MhToBit256 h) pb = Some dk → belowKey a dk = true ↔ P h) →
  ∃ d' l (failed : bool), QueryIter d a = (d', (Some <$> l) ++ if failed then [None] else []) ∧
    ds_view d' = m ∧ Forall keyed l ∧
    (failed = false → l.*2 ≡ₚ elements (filter P X)) ∧ (∀ h, h ∈ l.*2 → h ∈ X ∧ P h) ∧
    (failed = true → l ≠ [] → ∃ l', (ds_Query d a).2 = Some (l', true)).
Proof.
  intros Hm Hd HP. destruct (repMap_entries m X a P Hm HP) as [He Hf]. unfold QueryIter.
  pose proof (Query_view d a) as Hv. pose proof (Query_result d a) as Hr. rewrite Hd in Hv.
  destruct (ds_Query d a) as [d1 [[l failed]|]]; cbn [fst snd] in *.
  - specialize (Hr l failed eq_refl). rewrite Hd in Hr. exists d1, l, failed.
    assert (l ⊆+ queryEntries m a) as Hs by (destruct failed; [done|by rewrite Hr]).
    split_and!; [done|done| | | |].
    + apply Forall_forall. intros e Hin. eapply elem_of_submseteq in Hin; [|exact Hs]. by rewrite Forall_forall in Hf; apply Hf.
    + intros ->. by rewrite Hr.
    + intros h (e & -> & Hin)%list_elem_of_fmap. eapply elem_of_submseteq in Hin; [|exact Hs].
      assert (e.2 ∈ (queryEntries m a).*2) as Hin2 by (apply list_elem_of_fmap; by exists e).
      rewrite He, elem_of_elements, elem_of_filter in Hin2. tauto.
    + intros -> _. by eexists.
  - exists d1, [], true. split_and!; [done|done|done|done|by intros ? ?%not_elem_of_nil|done].
Qed.
End fixedBits.
(** ** The operations *)

(** Only the datastore and the size may differ. *)
Definition sameConf (s s' : keystore) : Prop :=
  ks_prefixBits s' = ks_prefixBits s ∧ ks_batchSize s' = ks_batchSize s ∧ ks_closed s' = ks_closed s.

Ltac conf := solve [repeat split].

(** [new] are the multihashes of [keys] with a new identifier, one for each
    identifier. *)
Definition newOf X (keys new : list bytes) : Prop :=
  sublist new keys ∧ NoDup (MhToBit256 <$> new) ∧ (∀ h, h ∈ new → ¬ idIn (MhToBit256 h) X) ∧
  (∀ h, h ∈ keys → idIn (MhToBit256 h) (X ∪ list_to_set new)).

(** The multihashes with none of the identifiers of [keys]. *)
Definition without X (keys : list bytes) : gset bytes :=
  filter (λ h, MhToBit256 h ∉ MhToBit256 <$> keys) X.

Lemma newOf_size X keys new : newOf X keys new → size (X ∪ list_to_set new) = size X + length new.
Proof.
  intros (_ & Hnd & Hno & _). rewrite size_union.
  - rewrite size_list_to_set; [done|]. by eapply NoDup_fmap_1.
  - intros h Hx Hn%elem_of_list_to_set. apply (Hno h Hn). by exists h.
Qed.

(** The entries that [put] collects. *)
Lemma collect_new pb keys d m X :
  bitsOk pb → repMap pb m X → ds_view d = m →
  ∃ d' r, hasLoop MhToBit256 pb false keys ∅ d [] = Some (d', r) ∧ ds_view d' = m ∧
    ∀ l, r = Some l → Forall (keyed pb) l ∧ newOf X keys l.*2.
Proof.
  intros Hpb Hm Hv. destruct (hasLoop_spec pb Hpb false keys ∅ d [] _ X Hm Hv) as (d1 & r & -> & Hv1 & Hr); [set_solver|].
  eexists _, _. split; [done|]. split; [done|]. intros new ->.
  destruct (Hr new eq_refl) as (l & -> & Hk & Hs & Hnd & H1 & H2). cbn [app]. split; [done|].
  split_and!; [done|done|intros h Hh Hi; destruct (H1 h Hh) as [_ Hw]; by apply Hw in Hi|]. intros h Hh.
  destruct (decide (MhToBit256 h ∈ MhToBit256 <$> l.*2)) as [Hin|Hin].
  - apply list_elem_of_fmap in Hin as (h' & He & Hin). exists h'. split; [set_solver|done].
  - destruct (decide (Exists (λ x, MhToBit256 x = MhToBit256 h) (elements X))) as [Hex|Hex].
    + apply Exists_exists in Hex as (x & Hx & He). exists x. set_solver.
    + destruct Hin. apply H2; [done|set_solver|]. split; [|done]. intros (x & Hx & He). destruct Hex.
      apply Exists_exists. exists x. by rewrite elem_of_elements.
Qed.

(** After a commit, which may apply only some of the puts. *)
Lemma commit_puts pb d m X keys (l : list (string * bytes)) d' ok :
  bitsOk pb → repMap pb m X → ds_view d = m → Forall (keyed pb) l → newOf X keys l.*2 →
  ds_Commit d ((λ e, BPut e.1 e.2) <$> l) = (d', ok) →
  ∃ X', X ⊆ X' ∧ X' ⊆ X ∪ list_to_set keys ∧ (ok = true → X' = X ∪ list_to_set l.*2) ∧ repMap pb (ds_view d') X'.
Proof.
  intros Hpb Hm Hd Hk (Hsub & Hnd & Hno & _) Hc.
  enough (∃ l', sublist l' l.*2 ∧ (ok = true → l' = l.*2) ∧ repMap pb (ds_view d') (X ∪ list_to_set l')) as (l' & Hl' & He & Hr).
  { exists (X ∪ list_to_set l'). split_and!; [set_solver| |by intros H; rewrite (He H)|done].
    intros h [?|Hh%elem_of_list_to_set]%elem_of_union; [set_solver|]. apply elem_of_union_r, elem_of_list_to_set.
    eapply elem_of_sublist; [done|]. by etrans. }
  destruct ok.
  - pose proof (Commit_view d ((λ e, BPut e.1 e.2) <$> l)) as Hv. rewrite Hc in Hv. cbn in Hv.
    exists l.*2. split_and!; [done|done|]. rewrite Hv, Hd by done. by apply repMap_puts.
  - pose proof (Commit_view_failed d ((λ e, BPut e.1 e.2) <$> l)) as Hv. rewrite Hc in Hv.
    destruct Hv as (ops & Hs & Hv); [done|]. apply sublist_fmap_inv in Hs as (l' & -> & Hs).
    cbn in Hv. rewrite Hv, Hd. exists l'.*2. split_and!; [by apply fmap_sublist|done|].
    pose proof (fmap_sublist snd _ _ Hs) as Hs2. apply repMap_puts; [done|done| | |].
    + rewrite Forall_forall in Hk |- *. intros e He. apply Hk. by eapply elem_of_sublist.
    + eapply sublist_NoDup; [exact Hnd|]. by apply fmap_sublist.
    + intros h Hh. apply Hno. by eapply elem_of_sublist.
Qed.

Lemma commit_deletes d m ks d' ok :
  ds_view d = m → ds_Commit d (BDelete <$> ks) = (d', ok) →
  ∃ ks', sublist ks' ks ∧ (ok = true → ks' = ks) ∧ ds_view d' = applyOps m (BDelete <$> ks').
Proof.
  intros Hd Hc. destruct ok.
  - pose proof (Commit_view d (BDelete <$> ks)) as Hv. rewrite Hc in Hv. exists ks. split_and!; [done|done|].
    cbn in Hv. by rewrite Hv, Hd.
  - pose proof (Commit_view_failed d (BDelete <$> ks)) as Hv. rewrite Hc in Hv.
    destruct Hv as (ops & Hs & Hv); [done|]. apply sublist_fmap_inv in Hs as (l' & -> & Hs). exists l'.
    split_and!; [done|done|]. cbn in Hv. by rewrite Hv, Hd.
Qed.

Lemma put_spec s keys X :
  ksOk s → represents s X →
  ∃ s' r X', put MhToBit256 s keys = Some (s', r) ∧ represents s' X' ∧ sameConf s s' ∧
    match r with
    | inl new => newOf X keys new ∧ X' = X ∪ list_to_set new ∧ ks_size s' = (ks_size s + Z.of_nat (length new))%Z
    | inr e => X ⊆ X' ∧ X' ⊆ X ∪ list_to_set keys
    end.
Proof.
  intros [Hpb _] Hm. unfold put, represents in *. pose proof (Batch_view (ks_ds s)) as Hv.
  destruct (ds_Batch (ks_ds s)) as [d []]; cbn [negb fst] in *.
  2: { eexists _, _, X. split; [done|]. cbn. rewrite Hv. split_and!; [exact Hm|conf|done|set_solver]. }
  destruct (collect_new (ks_prefixBits s) keys d _ X Hpb Hm Hv) as (d1 & r & -> & Hv1 & Hr).
  cbn [mbind option_bind]. destruct r as [l|].
  2: { eexists _, _, X. split; [done|]. cbn. rewrite Hv1. split_and!; [exact Hm|conf|done|set_solver]. }
  destruct (Hr l eq_refl) as [Hk Hnew]. destruct (ds_Commit d1 _) as [d2 ok] eqn:Hc.
  destruct (commit_puts _ _ _ X keys l _ _ Hpb Hm Hv1 Hk Hnew Hc) as (X' & H1 & H2 & Hok & Hrep).
  destruct ok; cbn [negb].
  - rewrite Hok in Hrep by done. pose proof (Sync_view d2) as Hsv. destruct (ds_Sync d2) as [d3 o]. cbn [fst] in Hsv.
    eexists _, _, _. split; [done|]. cbn. rewrite Hsv. split_and!; [exact Hrep|conf|apply Hnew..|done|done].
  - eexists _, _, X'. split; [done|]. cbn. split_and!; [exact Hrep|conf|done|done].
Qed.

Lemma without_entries pb X l keys :
  bitsOk pb → Forall (keyed pb) l → (∀ h, h ∈ l.*2 → h ∈ keys) →
  (∀ h, h ∈ keys → idIn (MhToBit256 h) X → MhToBit256 h ∈ MhToBit256 <$> l.*2) →
  filter (λ h, dsKey (MhToBit256 h) pb ∉ Some <$> l.*1) X = without X keys.
Proof.
  intros Hpb Hk Hl Hall. unfold without. apply set_eq. intros h. rewrite !elem_of_filter. rewrite Forall_forall in Hk.
  split; intros [Hn Hx]; (split; [|done]); intros Hin; apply Hn.
  - apply list_elem_of_fmap in Hin as (h' & He & Hh'). destruct (list_elem_of_fmap MhToBit256 l.*2 (MhToBit256 h)) as [Hf _].
    destruct Hf as (h2 & He2 & Hh2).
    { rewrite He. apply Hall; [done|]. exists h. done. }
    apply list_elem_of_fmap in Hh2 as (e & -> & Hein). rewrite He2. pose proof (Hk e Hein) as Hke. unfold keyed in Hke.
    rewrite Hke. apply list_elem_of_fmap_2. by apply list_elem_of_fmap_2.
  - apply list_elem_of_fmap in Hin as (dk & Hd & (e & -> & Hein)%list_elem_of_fmap). pose proof (Hk e Hein) as Hke.
    apply list_elem_of_fmap. exists e.2. split.
    + by apply (keyed_inj pb Hpb (e.1, h) e).
    + apply Hl. by apply list_elem_of_fmap_2.
Qed.

(** The removed multihashes are as many as there are entries. *)
Lemma without_size pb m X l keys :
  bitsOk pb → repMap pb m X → NoDup (MhToBit256 <$> l) → (∀ h, h ∈ l → h ∈ keys ∧ idIn (MhToBit256 h) X) →
  (∀ h, h ∈ keys → idIn (MhToBit256 h) X → MhToBit256 h ∈ MhToBit256 <$> l) →
  size (without X keys) + length l = size X.
Proof.
  intros Hpb Hm Hnd Hl Hall. set (R := filter (λ h, MhToBit256 h ∈ MhToBit256 <$> keys) X).
  assert (X = without X keys ∪ R) as HX.
  { unfold without, R. apply set_eq. intros h. rewrite elem_of_union, !elem_of_filter.
    destruct (decide (MhToBit256 h ∈ MhToBit256 <$> keys)); tauto. }
  rewrite HX at 2. rewrite size_union.
  2: { intros h [? _]%elem_of_filter [? _]%elem_of_filter. done. }
  f_equal. unfold size, set_size. cbn. rewrite <-(length_fmap MhToBit256 l), <-(length_fmap MhToBit256 (elements R)).
  apply Permutation_length, NoDup_Permutation; [done| |].
  - apply NoDup_fmap_2_strong; [|apply NoDup_elements]. intros h h' Hh Hh'.
    rewrite elem_of_elements in Hh, Hh'. apply elem_of_filter in Hh as [_ ?], Hh' as [_ ?]. by apply (repMap_inj pb Hpb m X).
  - intros k. rewrite !list_elem_of_fmap. split.
    + intros (h & -> & Hh). destruct (Hl h Hh) as [Hk (x & Hx & He)]. exists x. split; [done|].
      rewrite elem_of_elements. apply elem_of_filter. split; [|done]. rewrite He. by apply list_elem_of_fmap_2.
    + intros (x & -> & Hx%elem_of_elements). apply elem_of_filter in Hx as [(h & He & Hh)%list_elem_of_fmap Hx].
      rewrite He. apply list_elem_of_fmap. apply Hall; [done|]. by exists x.
Qed.

Lemma delete_spec s keys X :
  ksOk s → represents s X →
  ∃ s' err X', delete MhToBit256 s keys = Some (s', err) ∧ represents s' X' ∧ sameConf s s' ∧
    match err with
    | None => X' = without X keys ∧ (ks_size s' = ks_size s + Z.of_nat (size X') - Z.of_nat (size X))%Z
    | Some _ => without X keys ⊆ X' ∧ X' ⊆ X
    end.
Proof.
  intros [Hpb _] Hm. unfold delete, represents in *. pose proof (Batch_view (ks_ds s)) as Hv.
  assert (without X keys ⊆ X) as Hw by (intros h [_ ?]%elem_of_filter; done).
  destruct (ds_Batch (ks_ds s)) as [d []]; cbn [negb fst] in *.
  2: { eexists _, _, X. split; [done|]. cbn. rewrite Hv. split_and!; [exact Hm|conf|done|done]. }
  destruct (hasLoop_spec (ks_prefixBits s) Hpb true keys ∅ d [] _ X Hm Hv) as (d1 & r & -> & Hv1 & Hr); [set_solver|].
  cbn [mbind option_bind]. destruct r as [old|].
  2: { eexists _, _, X. split; [done|]. cbn. rewrite Hv1. split_and!; [exact Hm|conf|done|done]. }
  destruct (Hr old eq_refl) as (l & -> & Hk & Hs & Hnd & H1 & H2). cbn [app].
  assert (((λ e, BDelete e.1) <$> l) = BDelete <$> l.*1) as -> by (by rewrite <-list_fmap_compose).
  destruct (ds_Commit d1 _) as [d2 ok] eqn:Hc.
  destruct (commit_deletes _ _ l.*1 _ _ Hv1 Hc) as (ks & Hks & Hok & Hrep).
  pose proof (repMap_deletes _ _ X ks Hm) as Hdel. rewrite <-Hrep in Hdel.
  assert (∀ h, h ∈ l.*2 → h ∈ keys) as Hlk by (intros h Hh; by eapply elem_of_sublist).
  assert (∀ h, h ∈ keys → idIn (MhToBit256 h) X → MhToBit256 h ∈ MhToBit256 <$> l.*2) as Hall
    by (intros h Hh Hi; apply H2; [done|set_solver|done]).
  pose proof (without_entries _ X l keys Hpb Hk Hlk Hall) as Hwe. destruct ok; cbn [negb].
  - rewrite Hok in Hdel by done. rewrite Hwe in Hdel. pose proof (Sync_view d2) as Hsv.
    destruct (ds_Sync d2) as [d3 o]. cbn [fst] in Hsv. eexists _, _, _. split; [done|]. cbn. rewrite Hsv.
    split_and!; [exact Hdel|conf|done|].
    rewrite <-(without_size _ _ X l.*2 keys Hpb Hm); [rewrite length_fmap; lia|done| |done].
    intros h Hh. split; [by apply Hlk|]. by apply H1.
  - eexists _, _, _. split; [done|]. cbn. split_and!; [exact Hdel|conf| |].
    + rewrite <-Hwe. intros h [Hn Hx]%elem_of_filter. apply elem_of_filter. split; [|done]. intros Hin. apply Hn.
      eapply elem_of_sublist; [exact Hin|]. by apply fmap_sublist.
    + by intros h [_ ?]%elem_of_filter.
Qed.

(** *** Reading *)

(** The query for a prefix, then the filter for a longer one. *)
Definition filtered (pb : nat) (p : key) (h : bytes) : Prop := pb < length p → p ≼ MhToBit256 h.

#[local] Instance filtered_dec pb p h : Decision (filtered pb p h).
Proof. unfold filtered. apply _. Defined.

Lemma filtered_prefix pb p h : p ≼ MhToBit256 h ↔ filtered pb p h ∧ take pb p ≼ MhToBit256 h.
Proof.
  unfold filtered. destruct (decide (pb < length p)) as [Hl|Hl].
  - split; [|naive_solver]. intros Hp. split; [done|]. etrans; [apply prefix_take|done].
  - rewrite take_ge by lia. naive_solver.
Qed.

Lemma decodeKey_keyed pb e : bitsOk pb → pb < KeyLen → keyed pb e → decodeKey pb e.1 = Some (Some (MhToBit256 e.2)).
Proof.
  intros Hpb Hlt He. pose proof (decodeKey_dsKey (MhToBit256 e.2) pb (MhToBit256_length _) Hpb Hlt) as Hd.
  unfold keyed in He. by rewrite He in Hd.
Qed.

Lemma getLoop_spec pb p l (failed : bool) out :
  bitsOk pb → length p < KeyLen → Forall (keyed pb) l →
  getLoop pb p ((Some <$> l) ++ if failed then [None] else []) out =
    Some (if failed then inr ErrDatastore else inl (out ++ filter (filtered pb p) l.*2)).
Proof.
  intros Hpb Hp Hl. revert out. induction Hl as [|[k v] l He _ IH]; intros out.
  { destruct failed; cbn; [done|]. by rewrite app_nil_r. }
  rewrite !fmap_cons. cbn [app getLoop snd]. case_decide as Hd.
  - pose proof (decodeKey_keyed pb (k, v) Hpb ltac:(lia) He) as Hdec. cbn [fst snd] in Hdec. rewrite Hdec.
    cbn [mbind option_bind]. rewrite IsPrefix_decide, filter_cons. case_bool_decide as Hpre.
    + rewrite decide_True by (by intros _). by rewrite IH, <-app_assoc.
    + rewrite decide_False by (intros H; by apply Hpre, H). apply IH.
  - rewrite filter_cons, decide_True by (by intros ?). by rewrite IH, <-app_assoc.
Qed.

Lemma containsLoop_spec pb p l (failed : bool) :
  bitsOk pb → length p < KeyLen → Forall (keyed pb) l →
  containsLoop pb p ((Some <$> l) ++ if failed then [None] else []) =
    Some (if decide (filter (filtered pb p) l.*2 = []) then if failed then inr ErrDatastore else inl false
          else inl true).
Proof.
  intros Hpb Hp Hl. induction Hl as [|[k v] l He _ IH].
  { by destruct failed. }
  rewrite !fmap_cons. cbn [app containsLoop snd]. rewrite filter_cons. destruct (decide (pb < length p)) as [Hd|Hd].
  - pose proof (decodeKey_keyed pb (k, v) Hpb ltac:(lia) He) as Hdec. cbn [fst snd] in Hdec. rewrite Hdec.
    cbn [mbind option_bind]. rewrite IsPrefix_decide. case_bool_decide as Hpre.
    + by rewrite (decide_True (P := filtered _ _ _)) by (by intros _).
    + rewrite (decide_False (P := filtered _ _ _)) by (intros H; by apply Hpre, H). apply IH.
  - by rewrite (decide_True (P := filtered _ _ _)) by (by intros ?).
Qed.

(** The query of [get] and [containsPrefix]. *)
Lemma query_spec s p X :
  ksOk s → represents s X → length p < KeyLen →
  ∃ dsk d' l (failed : bool), dsKey p (ks_prefixBits s) = Some dsk ∧
    QueryIter (ks_ds s) dsk = (d', (Some <$> l) ++ if failed then [None] else []) ∧
    represents (ks_setDs s d') X ∧ Forall (keyed (ks_prefixBits s)) l ∧
    (failed = false → filter (filtered (ks_prefixBits s) p) l.*2 ≡ₚ elements (filter (λ h, p ≼ MhToBit256 h) X)) ∧
    (∀ h, h ∈ filter (filtered (ks_prefixBits s) p) l.*2 → h ∈ X ∧ p ≼ MhToBit256 h).
Proof.
  intros [Hpb _] Hm Hp. rewrite dsKey_prefix by done.
  destruct (QueryIter_spec (ks_prefixBits s) Hpb (ks_ds s) _ X (queryPath (take (ks_prefixBits s) p))
    (λ h, take (ks_prefixBits s) p ≼ MhToBit256 h) Hm eq_refl) as (d' & l & failed & Hq & Hv & Hk & Hl & Hin & _).
  { intros h dk Hdk. eapply (belowKey_spec p _ (ks_prefixBits s)); [done|done|apply MhToBit256_length| |done].
    by rewrite dsKey_prefix. }
  eexists _, d', l, failed. rewrite Hq. split_and!; [done|done|by unfold represents; cbn; rewrite Hv|done| |].
  - intros Hf. rewrite (Hl Hf). apply NoDup_Permutation; [apply NoDup_filter, NoDup_elements|apply NoDup_elements|].
    intros h. rewrite list_elem_of_filter, !elem_of_elements, !elem_of_filter, (filtered_prefix (ks_prefixBits s) p h). tauto.
  - intros h. rewrite list_elem_of_filter. intros [Hf Hh]. destruct (Hin h Hh). split; [done|].
    by apply (filtered_prefix (ks_prefixBits s)).
Qed.

Lemma get_spec s p X :
  ksOk s → represents s X → length p < KeyLen →
  ∃ s' r, get s p = Some (s', r) ∧ represents s' X ∧ sameConf s s' ∧ ks_size s' = ks_size s ∧
    match r with
    | inl l => l ≡ₚ elements (filter (λ h, p ≼ MhToBit256 h) X)
    | inr e => e = ErrDatastore
    end.
Proof.
  intros Hok Hm Hp. unfold get. destruct (query_spec s p X Hok Hm Hp) as (dsk & d' & l & failed & -> & Hq & Hrep & Hk & Hl & _).
  cbn [mbind option_bind]. rewrite Hq, getLoop_spec by (done || apply Hok). cbn [mbind option_bind].
  eexists _, _. split; [done|]. split_and!; [done|conf|done|]. destruct failed; [done|]. by apply Hl.
Qed.

Lemma containsPrefix_spec s p X :
  ksOk s → represents s X → length p < KeyLen →
  ∃ s' r, containsPrefix s p = Some (s', r) ∧ represents s' X ∧ sameConf s s' ∧ ks_size s' = ks_size s ∧
    match r with
    | inl b => b = true ↔ ∃ h, h ∈ X ∧ p ≼ MhToBit256 h
    | inr e => e = ErrDatastore
    end.
Proof.
  intros Hok Hm Hp. unfold containsPrefix.
  destruct (query_spec s p X Hok Hm Hp) as (dsk & d' & l & failed & -> & Hq & Hrep & Hk & Hl & Hin).
  cbn [mbind option_bind]. rewrite Hq, containsLoop_spec by (done || apply Hok). cbn [mbind option_bind].
  eexists _, _. split; [done|]. split_and!; [done|conf|done|]. case_decide as Hd.
  - destruct failed; [done|]. split; [done|]. intros (h & Hh & Hpre). exfalso. specialize (Hl eq_refl). rewrite Hd in Hl.
    apply Permutation_nil_l in Hl. assert (h ∈ elements (filter (λ h, p ≼ MhToBit256 h) X)) as Hx.
    { rewrite elem_of_elements. by apply elem_of_filter. } rewrite <-Hl in Hx. by apply not_elem_of_nil in Hx.
  - split; [|done]. intros _. destruct (filter _ l.*2) as [|h l']; [done|]. exists h. apply Hin. by left.
Qed.

(** *** Counting *)

Lemma countLoop_spec (l : list (string * bytes)) (failed : bool) n :
  countLoop ((Some <$> l) ++ if failed then [None] else []) n =
    if failed then None else Some (n + Z.of_nat (length l))%Z.
Proof.
  revert n. induction l as [|e l IH]; intros n; cbn [fmap list_fmap app countLoop length].
  - destruct failed; cbn; [done|]. f_equal. lia.
  - rewrite IH. destruct failed; [done|]. f_equal. lia.
Qed.

Lemma refreshSize_spec pb d X : bitsOk pb → repMap pb (ds_view d) X →
  ∃ d' r, refreshSize d = (d', r) ∧ ds_view d' = ds_view d ∧ ∀ n, r = Some n → n = Z.of_nat (size X).
Proof.
  intros Hpb Hm. unfold refreshSize.
  destruct (QueryIter_spec pb Hpb d _ X "/" (λ _, True) Hm eq_refl) as (d' & l & failed & -> & Hv & Hk & Hl & _); [done|].
  eexists _, _. split; [done|]. split; [done|]. intros n. rewrite countLoop_spec. destruct failed; [done|].
  intros [= <-]. specialize (Hl eq_refl). rewrite <-(length_fmap snd l), Hl. unfold size, set_size. cbn.
  assert (filter (λ _, True) X = X) as -> by (apply set_eq; intros h; rewrite elem_of_filter; tauto). done.
Qed.

Lemma refresh_spec s X : ksOk s → represents s X →
  ∃ s' ok, refresh s = (s', ok) ∧ represents s' X ∧ sameConf s s' ∧
    if ok : bool then ks_size s' = Z.of_nat (size X) else ks_size s' = ks_size s.
Proof.
  intros [Hpb _] Hm. unfold refresh. destruct (refreshSize_spec _ _ X Hpb Hm) as (d' & r & -> & Hv & Hr).
  destruct r as [n|]; eexists _, _; (split; [done|]); unfold represents; cbn; rewrite Hv; (split; [exact Hm|]); (split; [conf|]); [by apply Hr|done].
Qed.

(** *** Emptying *)

(** The loop ends with a batch of deletions; all results are deleted unless
    there was an error. *)
Lemma emptyLoop_spec pb bs l (failed : bool) ctx d ks wc :
  bitsOk pb → 0 < bs → Forall (keyed pb) l → (wc = 0 → ks = []) →
  ∃ d' r, emptyLoop bs ctx ((Some <$> l) ++ if failed then [None] else []) d (BDelete <$> ks) wc = (d', r) ∧
    ∃ ks1, ds_view d' = applyOps (ds_view d) (BDelete <$> ks1) ∧
    match r with
    | inl (b, n) => ∃ ks2, b = BDelete <$> ks2 ∧ (n = 0 → ks2 = []) ∧ (∀ k, k ∈ l.*1 ∨ k ∈ ks → k ∈ ks1 ∨ k ∈ ks2) ∧
        (failed = true → 0 < wc + length l)
    | inr _ => True
    end.
Proof.
  intros Hpb Hbs Hl. revert ctx d ks wc. induction Hl as [|e l He Hl IH]; intros ctx d ks wc Hwc.
  - cbn [fmap list_fmap app]. destruct failed; cbn [emptyLoop].
    2: { eexists _, _. split; [done|]. exists []. split; [done|]. exists ks. split_and!; [done|done| |done].
         intros k [Hk|Hk]; [by apply not_elem_of_nil in Hk|by right]. }
    destruct (decide (ctx = Some 0)) as [?|_]; [eexists _, _; split; [done|]; by exists []|]. case_decide as Hw.
    2: { eexists _, _; split; [done|]; by exists []. }
    destruct (ds_Commit d (BDelete <$> ks)) as [d1 ok] eqn:Hc.
    destruct (commit_deletes d _ ks d1 ok eq_refl Hc) as (ks1 & _ & Hok & Hv). destruct ok; cbn [negb].
    2: { eexists _, _; split; [done|]. by exists ks1. }
    pose proof (Batch_view d1) as Hb. destruct (ds_Batch d1) as [d2 []]; cbn [negb fst] in *.
    2: { eexists _, _; split; [done|]. exists ks1. by rewrite Hb. }
    eexists _, _; split; [done|]. exists ks1. rewrite Hb. split; [done|]. rewrite Hok by done. exists [NewKey ""].
    split_and!; [done|done| |intros _; lia]. intros k [Hk|Hk]; [by apply not_elem_of_nil in Hk|by left].
  - rewrite fmap_cons. cbn [app emptyLoop]. destruct (decide (ctx = Some 0)) as [?|_]; [eexists _, _; split; [done|]; by exists []|].
    rewrite (NewKey_dsKey _ pb e.1 (MhToBit256_length e.2) Hpb He). rewrite fmap_cons. case_decide as Hw.
    + destruct (ds_Commit d (BDelete <$> ks)) as [d1 ok] eqn:Hc.
      destruct (commit_deletes d _ ks d1 ok eq_refl Hc) as (ks1 & _ & Hok & Hv). destruct ok; cbn [negb].
      2: { eexists _, _; split; [done|]. by exists ks1. }
      pose proof (Batch_view d1) as Hb. destruct (ds_Batch d1) as [d2 []]; cbn [negb fst] in *.
      2: { eexists _, _; split; [done|]. exists ks1. by rewrite Hb. }
      rewrite Hok in Hv by done. destruct (IH (pred <$> ctx) d2 [e.1] 1) as (d' & r & Hr & ks2 & Hv2 & Hres); [done|].
      eexists _, _. split; [exact Hr|]. exists (ks ++ ks2). rewrite Hv2, Hb, Hv, fmap_app, applyOps_app. split; [done|].
      destruct r as [[b n]|]; [|done]. destruct Hres as (ks3 & -> & Hn & Hall & Hf). exists ks3.
      split_and!; [done|done| |cbn [length] in *; lia]. intros k Hk. specialize (Hall k). rewrite elem_of_cons in Hk.
      rewrite list_elem_of_singleton in Hall. rewrite elem_of_app. naive_solver.
    + destruct (IH (pred <$> ctx) d (ks ++ [e.1]) (S wc)) as (d' & r & Hr & ks2 & Hv2 & Hres); [done|].
      rewrite fmap_app in Hr. eexists _, _. split; [exact Hr|]. exists ks2. split; [done|].
      destruct r as [[b n]|]; [|done]. destruct Hres as (ks3 & -> & Hn & Hall & Hf). exists ks3.
      split_and!; [done|done| |cbn [length] in *; lia]. intros k Hk. specialize (Hall k). rewrite elem_of_cons in Hk.
      rewrite elem_of_app, list_elem_of_singleton in Hall. naive_solver.
Qed.

(** The query of [empty] returned results and then failed. *)
Definition queryFailed d : Prop := ∃ l, (ds_Query (ds_Batch d).1 "/").2 = Some (l, true).

Lemma empty_spec pb bs ctx d X :
  bitsOk pb → 0 < bs → repMap pb (ds_view d) X →
  ∃ d' err X', empty bs ctx d = (d', err) ∧ repMap pb (ds_view d') X' ∧ X' ⊆ X ∧
    (err = None → X' = ∅ ∨ queryFailed d).
Proof.
  intros Hpb Hbs Hm. unfold empty, queryFailed. pose proof (Batch_view d) as Hb.
  destruct (ds_Batch d) as [d1 []]; cbn [negb fst] in *.
  2: { eexists _, _, X. rewrite Hb. by split_and!. }
  rewrite <-Hb in Hm.
  destruct (QueryIter_spec pb Hpb d1 _ X "/" (λ _, True) Hm eq_refl) as (d2 & l & failed & -> & Hv & Hk & Hl & _ & Hf); [done|].
  destruct (emptyLoop_spec pb bs l failed ctx d2 [] 0 Hpb Hbs Hk) as (d3 & r & Hr & ks1 & Hv1 & Hres); [done|].
  cbn [fmap list_fmap] in Hr. rewrite Hr. rewrite Hv in Hv1. pose proof (repMap_deletes pb _ X ks1 Hm) as Hd1.
  rewrite <-Hv1 in Hd1. destruct r as [[b n]|e].
  2: { eexists _, _, _. split; [done|]. split; [exact Hd1|]. split; [by intros h [_ ?]%elem_of_filter|done]. }
  destruct Hres as (ks2 & -> & Hn & Hall & Hlen).
  assert (∃ d4 ok ks3, (if decide (0 < n) then ds_Commit d3 (BDelete <$> ks2) else (d3, true)) = (d4, ok) ∧
    ds_view d4 = applyOps (ds_view d1) (BDelete <$> (ks1 ++ ks3)) ∧ (ok = true → ks3 = ks2)) as (d4 & ok & ks3 & -> & Hv4 & Hok).
  { case_decide.
    - destruct (ds_Commit d3 (BDelete <$> ks2)) as [d4 ok] eqn:Hc.
      destruct (commit_deletes d3 _ ks2 d4 ok eq_refl Hc) as (ks3 & _ & Hok & Hv4). exists d4, ok, ks3.
      split_and!; [done| |done]. by rewrite Hv4, Hv1, fmap_app, applyOps_app.
    - exists d3, true, []. rewrite app_nil_r. split_and!; [done|done|]. intros _. symmetry. apply Hn. lia. }
  pose proof (repMap_deletes pb _ X (ks1 ++ ks3) Hm) as Hd4. rewrite <-Hv4 in Hd4. destruct ok; cbn [negb].
  2: { eexists _, _, _. split; [done|]. split; [exact Hd4|]. split; [by intros h [_ ?]%elem_of_filter|done]. }
  pose proof (Sync_view d4) as Hs. destruct (ds_Sync d4) as [d5 o]. cbn [fst] in Hs. rewrite <-Hs in Hd4.
  eexists _, _, _. split; [done|]. split; [exact Hd4|]. split; [by intros h [_ ?]%elem_of_filter|]. intros _.
  destruct failed; [right|left].
  - apply Hf; [done|]. intros ->. cbn in Hlen. specialize (Hlen eq_refl). lia.
  - apply set_eq. intros h. split; [|by intros ?%elem_of_empty]. intros [Hn' Hx]%elem_of_filter. destruct Hn'.
    assert (h ∈ l.*2) as Hh. { rewrite (Hl eq_refl), elem_of_elements. by apply elem_of_filter. }
    apply list_elem_of_fmap in Hh as (e & -> & He). rewrite Forall_forall in Hk. pose proof (Hk e He) as Hke.
    unfold keyed in Hke. rewrite Hke. apply list_elem_of_fmap_2. rewrite (Hok eq_refl), elem_of_app. apply Hall. left.
    by apply list_elem_of_fmap_2.
Qed.

(** ** The worker *)

(** The requests that are served as documented: a prefix is shorter than an
    identifier. *)
Definition opOk (op : operation) : Prop :=
  match op with opGet p | opContainsPrefix p => length p < KeyLen | _ => True end.

(** What a response says about the set before and after the request. *)
Definition opSpec (d : DS) (op : operation) X X' (size : Z) (r : operationResponse) : Prop :=
  match op, resp_err r with
  | opPut keys, None => newOf X keys (resp_multihashes r) ∧ X' = X ∪ list_to_set (resp_multihashes r)
  | opPut keys, Some _ => X ⊆ X' ∧ X' ⊆ X ∪ list_to_set keys
  | opGet p, None => X' = X ∧ resp_multihashes r ≡ₚ elements (filter (λ h, p ≼ MhToBit256 h) X)
  | opContainsPrefix p, None => X' = X ∧ (resp_found r = true ↔ ∃ h, h ∈ X ∧ p ≼ MhToBit256 h)
  | opDelete keys, None => X' = without X keys
  | opDelete keys, Some _ => without X keys ⊆ X' ∧ X' ⊆ X
  | opEmpty _, None => X' = ∅ ∨ queryFailed d ∧ X' ⊆ X
  | opEmpty _, Some _ => X' ⊆ X
  | opSize, e => X' = X ∧ e = None ∧ resp_size r = size
  | _, Some e => X' = X ∧ e = ErrDatastore
  end.

(** The size is exact, unless a refresh failed or [empty] missed an error. *)
Definition sizeKept (s s' : keystore) op X X' (ok : bool) : Prop :=
  ks_size s = Z.of_nat (size X) → ok = true →
  (match op with opEmpty _ => queryFailed (ks_ds s) → False | _ => True end) → ks_size s' = Z.of_nat (size X').

Lemma represents_refresh s0 s X (e : option ksError) :
  ksOk s → sameConf s0 s → represents s X →
  ∃ s' ok, refreshOnError s e = (s', ok) ∧ represents s' X ∧ sameConf s0 s' ∧
    match e with
    | None => s' = s
    | Some _ => ok = true → ks_size s' = Z.of_nat (size X)
    end.
Proof.
  intros Hok (H1 & H2 & H3) Hm. destruct e as [e|]; cbn [refreshOnError].
  - destruct (refresh_spec s X Hok Hm) as (s' & ok & -> & Hm' & (H4 & H5 & H6) & Hs). exists s', ok.
    split_and!; [done|done|repeat split; congruence|]. by intros ->.
  - by exists s, true.
Qed.

Lemma ksOk_same s s' : sameConf s s' → ksOk s → ksOk s'.
Proof. intros (H1 & H2 & _) [H3 H4]. split; congruence. Qed.

Lemma workerStep_spec s op X :
  ksOk s → represents s X → opOk op →
  ∃ s' r ok X', workerStep MhToBit256 s op = Some (s', r, ok) ∧ represents s' X' ∧ sameConf s s' ∧
    opSpec (ks_ds s) op X X' (ks_size s) r ∧ sizeKept s s' op X X' ok.
Proof.
  intros Hok Hm Hop. unfold sizeKept. destruct op as [keys|p|p|keys|ctx|]; cbn [workerStep].
  - destruct (put_spec s keys X Hok Hm) as (s1 & r & X1 & -> & Hm1 & Hc & Hr). cbn [mbind option_bind].
    destruct (represents_refresh s s1 X1 (resp_err (keysResponse r)) (ksOk_same _ _ Hc Hok) Hc Hm1) as (s2 & ok & -> & Hm2 & Hc2 & Hs).
    eexists _, _, _, X1. split; [done|]. split_and!; [done|done| |]; destruct r as [new|e]; cbn in Hs |- *; subst; try tauto.
    intros Hs0 _ _. destruct Hr as (Hnew & -> & ->). rewrite (newOf_size _ _ _ Hnew). lia.
  - destruct (get_spec s p X Hok Hm Hop) as (s1 & r & -> & Hm1 & Hc & Hs & Hr). cbn [mbind option_bind].
    eexists _, _, _, X. split; [done|]. split_and!; [done|done| |]; [|intros ? _ _; congruence].
    destruct r; cbn; done.
  - destruct (containsPrefix_spec s p X Hok Hm Hop) as (s1 & r & -> & Hm1 & Hc & Hs & Hr). cbn [mbind option_bind].
    eexists _, _, _, X. split; [done|]. split_and!; [done|done| |]; [|intros ? _ _; congruence].
    destruct r; cbn; done.
  - destruct (delete_spec s keys X Hok Hm) as (s1 & r & X1 & -> & Hm1 & Hc & Hr). cbn [mbind option_bind].
    destruct (represents_refresh s s1 X1 r (ksOk_same _ _ Hc Hok) Hc Hm1) as (s2 & ok & -> & Hm2 & Hc2 & Hs).
    eexists _, _, _, X1. split; [done|]. split_and!; [done|done| |]; destruct r as [e|]; cbn in Hs |- *; subst; try tauto.
    intros Hs0 _ _. destruct Hr as [-> ->]. lia.
  - destruct Hok as [Hpb Hbs]. destruct (empty_spec _ _ ctx (ks_ds s) X Hpb Hbs Hm) as (d' & err & X1 & -> & Hm1 & Hsub & He).
    destruct err as [e|].
    + destruct (refresh_spec (ks_setDs s d') X1) as (s2 & ok & -> & Hm2 & Hc & Hs); [by split|done|].
      eexists _, _, _, X1. split; [done|]. split_and!; [done|done|done|]. intros _ -> _. done.
    + eexists _, _, _, X1. split; [done|]. split_and!; [done|conf| |].
      * cbn. destruct (He eq_refl); tauto.
      * intros _ _ Hq. destruct (He eq_refl) as [->|]; [|done]. by rewrite size_empty.
  - eexists _, _, _, X. split; [done|]. split_and!; [done|conf|done|]. by intros.
Qed.


(** ** Restarting *)

Lemma Uint64_Put z : (0 ≤ z < 2 ^ 64)%Z → Uint64 (PutUint64 z) = z.
Proof.
  intros Hz. unfold Uint64, PutUint64. cbn [fmap list_fmap foldl].
  assert (∀ i, (0 ≤ i)%Z → (z / 2 ^ (8 * (i + 1)) = z / 2 ^ (8 * i) / 256)%Z) as Hd.
  { intros i Hi. rewrite Z.div_div by lia. f_equal. replace (8 * (i + 1))%Z with (8 * i + 8)%Z by lia.
    by rewrite Z.pow_add_r by lia. }
  assert (∀ i, (0 ≤ i)%Z → ((z / 2 ^ (8 * i)) mod 256 = z / 2 ^ (8 * i) - 256 * (z / 2 ^ (8 * (i + 1))))%Z) as Hm.
  { intros i Hi. rewrite Hd by done. pose proof (Z.div_mod (z / 2 ^ (8 * i)) 256). lia. }
  rewrite !Hm by lia. change (7 + 1)%Z with 8%Z; change (6 + 1)%Z with 7%Z; change (5 + 1)%Z with 6%Z; change (4 + 1)%Z with 5%Z;
    change (3 + 1)%Z with 4%Z; change (2 + 1)%Z with 3%Z; change (1 + 1)%Z with 2%Z; change (0 + 1)%Z with 1%Z.
  rewrite (Z.div_small z (2 ^ (8 * 8))) by (cbn; lia).
  change (2 ^ (8 * 0))%Z with 1%Z. rewrite Z.div_1_r. ring.
Qed.

(** The datastore holds the entries of [X], and perhaps the size. *)
Definition stored_at (pb : nat) d X : Prop := repMap pb (base.delete sizeKey (ds_view d)) X.

Lemma repMap_sizeKey pb m X : bitsOk pb → repMap pb m X → m !! sizeKey = None.
Proof.
  intros Hpb Hm. destruct (m !! sizeKey) as [h|] eqn:E; [|done]. apply Hm in E as [_ E].
  by apply (dsKey_sizeKey _ pb (MhToBit256_length h) Hpb) in E.
Qed.

Lemma loadSize_spec s X :
  ksOk s → stored_at (ks_prefixBits s) (ks_ds s) X → (ds_Delete (ds_Get (ks_ds s) sizeKey).1 sizeKey).2 = true →
  (∀ v, ds_view (ks_ds s) !! sizeKey = Some v → length v = 8 → wrap64 (Uint64 v) = Z.of_nat (size X)) →
  ∃ s' ok, loadSize s = (s', ok) ∧ represents s' X ∧ sameConf s s' ∧ (ok = true → ks_size s' = Z.of_nat (size X)).
Proof.
  intros Hok Hm Hdel Hsize. unfold loadSize. pose proof (Get_view (ks_ds s) sizeKey) as Hv.
  pose proof (Get_result (ks_ds s) sizeKey) as Hr. destruct (ds_Get (ks_ds s) sizeKey) as [d r]. cbn [fst snd] in *.
  pose proof (Delete_view d sizeKey Hdel) as Hdv. destruct (ds_Delete d sizeKey) as [d' ok]. cbn [fst] in Hdv. clear ok Hdel.
  rewrite Hv in Hdv.
  assert (represents (ks_setDs s d') X) as Hm' by (unfold represents; cbn; rewrite Hdv; exact Hm).
  assert (∃ s' ok, refresh (ks_setDs s d') = (s', ok) ∧ represents s' X ∧ sameConf s s' ∧
    (ok = true → ks_size s' = Z.of_nat (size X))) as Href.
  { destruct (refresh_spec (ks_setDs s d') X) as (s' & ok & -> & Hm2 & Hc & Hs); [by apply (ksOk_same s); [conf|]|done|].
    exists s', ok. split_and!; [done|done|done|]. by intros ->. }
  destruct r as [[v|]|]; [|done|done]. case_decide as Hl; [|done]. eexists _, _. split; [done|].
  split_and!; [done|conf|]. intros _. cbn. apply Hsize; [symmetry; by apply Hr|done].
Qed.

Lemma Close_spec s X s1 :
  ksOk s → represents s X → ks_closed s = false → Close s = (s1, None) →
  stored_at (ks_prefixBits s) (ks_ds s1) X ∧ ks_closed s1 = true ∧
  ds_view (ks_ds s1) !! sizeKey = Some (PutUint64 (ks_size s mod 2 ^ 64)).
Proof.
  intros [Hpb _] Hm Hcl. unfold Close, persistSize. rewrite Hcl. cbn [ks_ds ks_size].
  pose proof (Put_view (ks_ds s) sizeKey (PutUint64 (ks_size s mod 2 ^ 64))) as Hv.
  destruct (ds_Put (ks_ds s) sizeKey _) as [d ok]. cbn [fst snd] in Hv. destruct ok; cbn [negb]; [|by intros [= ?]].
  cbn [ks_ds ks_setDs]. pose proof (Sync_view d) as Hs. destruct (ds_Sync d) as [d2 ok]. cbn [fst] in Hs.
  intros [= <- _]. cbn. unfold stored_at. rewrite Hs, Hv by done. split_and!; [|done|apply lookup_insert_eq].
  rewrite delete_insert_eq, delete_id; [exact Hm|]. by eapply repMap_sizeKey.
Qed.

End laws.

(** The datastore keys are an encoding of the identifiers: the key of an
    identifier is built without a panic, is already in the form [ds.NewKey]
    gives it, differs from the key of the size, and is decoded to the
    identifier, for every number of path components that the options allow
    except the maximum. *)
Theorem dsKey_roundtrip k pb :
  length k = KeyLen → bitsOk pb → pb < KeyLen →
  ∃ dk, dsKey k pb = Some dk ∧ NewKey dk = dk ∧ dk ≠ sizeKey ∧ decodeKey pb dk = Some (Some k).
Proof.
  intros Hk Hpb Hlt. pose proof (decodeKey_dsKey k pb Hk Hpb Hlt) as Hd.
  destruct (dsKey k pb) as [dk|] eqn:E; [|done]. exists dk. split_and!; [done|by eapply NewKey_dsKey| |done].
  intros ->. by apply (dsKey_sizeKey k pb Hk Hpb).
Qed.

(** ** Concrete runs *)

(** Identifiers made of the bits of the multihash. *)
Definition demoId (h : bytes) : key := resize KeyLen false (unpack h).

Lemma demoId_length h : length (demoId h) = KeyLen.
Proof. apply length_resize. Qed.

Definition demoKeystore : keystore := mkKeystore (mkMemStore ∅ []) 0 8 2 false.

Lemma demoKeystore_empty : represents demoId demoKeystore ∅.
Proof. intros dk h. cbn. rewrite lookup_empty. set_solver. Qed.



Lemma dsKey_roundtrip_witness :
  ∃ dk, dsKey (demoId [5; 7]%Z) 16 = Some dk ∧ NewKey dk = dk ∧ dk ≠ sizeKey ∧
    decodeKey 16 dk = Some (Some (demoId [5; 7]%Z)).
Proof. apply (dsKey_roundtrip (demoId [5; 7]%Z) 16); by apply (bool_decide_unpack _); vm_compute. Defined.

(** The keys of a response. *)
Definition answer (r : option (keystore * operationResponse * bool)) : option (list bytes * bool * option ksError) :=
  (λ r, (resp_multihashes r.1.2, resp_found r.1.2, resp_err r.1.2)) <$> r.

(** A prefix that is a whole identifier is not found: the multihash with
    this identifier is stored, but neither [Get] nor [ContainsPrefix] sees it,
    because the query only returns keys strictly below the key of the
    prefix. *)
Theorem Get_full_identifier :
  match workerStep demoId demoKeystore (opPut [[1]]%Z) with
  | Some (s, r, _) =>
      resp_multihashes r = [[1]]%Z ∧
      answer (workerStep demoId s (opGet [])) = Some ([[1]]%Z, false, None) ∧
      answer (workerStep demoId s (opGet (demoId [1]%Z))) = Some ([], false, None) ∧
      answer (workerStep demoId s (opContainsPrefix (demoId [1]%Z))) = Some ([], false, None)
  | None => False
  end.
Proof. vm_compute. done. Qed.

(** A datastore whose queries fail after [n] results. *)
#[local] Instance shortDs (n : nat) : DsLib := {
  DS := memStore;
  ds_Get := @ds_Get memDs; ds_Has := @ds_Has memDs; ds_Put := @ds_Put memDs; ds_Delete := @ds_Delete memDs;
  ds_Query d p := (d, Some (take n (queryEntries (ms_map d) p), true));
  ds_QueryByKey := @ds_QueryByKey memDs; ds_Batch := @ds_Batch memDs; ds_Commit := @ds_Commit memDs;
  ds_Sync := @ds_Sync memDs; ds_view := ms_map;
}.

Lemma shortDs_laws n : DsLaws (H := shortDs n).
Proof.
  pose proof memDs_laws as []. split; try done.
  cbn. intros d p l failed [= <- <-]. apply sublist_submseteq, sublist_take.
Qed.

(** [empty] can miss an error of the datastore.  When the query fails
    after a number of results that fills a batch, committing the batch
    overwrites the error: here one of two multihashes is deleted, no error is
    returned and the size is set to 0. *)
Theorem empty_misses_error :
  let two := applyOps ∅ [BPut "/0/a" [1]; BPut "/0/b" [2]]%Z in
  match @workerStep (shortDs 1) demoId (@mkKeystore (shortDs 1) (mkMemStore two []) 2 8 1 false) (opEmpty None) with
  | Some (s, r, ok) =>
      resp_err r = None ∧ ok = true ∧ ks_size s = 0%Z ∧ base.size (ds_view (ks_ds s)) = 1
  | None => False
  end.
Proof. vm_compute. done. Qed.
