(* ===== verification/KeystoreReset.v ===== *)
(** * The resettable keystore

    [provider/keystore/resettable_keystore.go]: a keystore with a second
    datastore.  [ResetCids] fills the second one while the worker serves
    requests from the first, then the two are swapped.

    The datastores are the three namespaces that [namespace.Wrap] makes of the
    one the keystore is created on: their entries are disjoint.

    The goroutines are the worker and the calls to [ResetCids].  [rkStep] is a
    step of the whole: the worker serves a request, or a call receives a key,
    ends or is cancelled.  A call to [altPut] is one step. *)

From S2P Require Import Prelude Key GoTime Datastore Base64 Keystore.

(** [activeNamespaceKey] *)
Definition activeNamespaceKey : string := NewKey "active".

(** The requests of [resetOps]. *)
Inductive resetOp := opStart | opCleanup (success : bool).

Section reset.
Context {DSL : DsLib}.
Variable MhToBit256 : bytes → key.

Record ResettableKeystore := mkResettable {
  rk_ks : keystore;             (* keystore *)
  rk_baseDs : DS;               (* baseDs *)
  rk_altDs : DS;                (* altDs *)
  rk_altSize : Z;               (* altSize *)
  rk_resetInProgress : bool;    (* resetInProgress *)
  rk_activeNamespace : Z;       (* activeNamespace *)
  rk_altPutSem : bool;          (* altPutSem holds its token *)
  rk_stuck : bool;              (* the worker waits for a receiver that is gone *)
}.

Definition rk_setKs (s : ResettableKeystore) (k : keystore) : ResettableKeystore :=
  mkResettable k (rk_baseDs s) (rk_altDs s) (rk_altSize s) (rk_resetInProgress s)
    (rk_activeNamespace s) (rk_altPutSem s) (rk_stuck s).

Definition rk_setAlt (s : ResettableKeystore) (d : DS) (n : Z) : ResettableKeystore :=
  mkResettable (rk_ks s) (rk_baseDs s) d n (rk_resetInProgress s)
    (rk_activeNamespace s) (rk_altPutSem s) (rk_stuck s).

Definition rk_setReset (s : ResettableKeystore) (b : bool) : ResettableKeystore :=
  mkResettable (rk_ks s) (rk_baseDs s) (rk_altDs s) (rk_altSize s) b
    (rk_activeNamespace s) (rk_altPutSem s) (rk_stuck s).

(** [NewResettableKeystore] on the base namespace and the two others; the
    worker starts with [loadSize].  [None] is a panic (a marker above 1),
    [inr] an error. *)
Definition NewResettableKeystore (baseDs ds0 ds1 : DS) (prefixBits batchSize : Z)
    : option (ResettableKeystore + ksError) :=
  if WithPrefixBits prefixBits && WithBatchSize batchSize then
    let '(baseDs, r) := ds_Get baseDs activeNamespaceKey in
    let make primaryDs altDs activeIdx :=
      let '(ks, _) := loadSize (mkKeystore primaryDs 0 (Z.to_nat prefixBits) (Z.to_nat batchSize) false) in
      Some (inl (mkResettable ks baseDs altDs 0 false activeIdx true false)) in
    match r with
    | None => Some (inr ErrDatastore)
    | Some None => make ds0 ds1 0%Z
    | Some (Some [activeIdx]) =>
        if decide (activeIdx = 0%Z) then make ds0 ds1 0%Z
        else if decide (activeIdx = 1%Z) then make ds1 ds0 1%Z
        else None
    | Some (Some _) => Some (inr ErrDatastore)
    end
  else Some (inr ErrDatastore).

(** The first part of [altPut]: the entries that are missing. *)
Definition altPutCollect (s : ResettableKeystore) (keys : list bytes)
    : option (ResettableKeystore * option (list (string * bytes))) :=
  let '(d, ok) := ds_Batch (rk_altDs s) in
  if negb ok then Some (rk_setAlt s d (rk_altSize s), None)
  else
    '(d, r) ← hasLoop MhToBit256 (ks_prefixBits (rk_ks s)) false keys ∅ d [];
    Some (rk_setAlt s d (rk_altSize s), r).

(** The second part: they are counted and committed, and the primary
    datastore is synced. *)
Definition altPutCommit (s : ResettableKeystore) (new : list (string * bytes))
    : ResettableKeystore * option ksError :=
  let added := Z.of_nat (length new) in
  let '(d, ok) := ds_Commit (rk_altDs s) ((λ e, BPut e.1 e.2) <$> new) in
  let s := rk_setAlt s d (rk_altSize s + added) in
  if negb ok then (s, Some ErrDatastore)
  else
    let '(d, _) := ds_Sync (ks_ds (rk_ks s)) in
    (rk_setKs s (ks_setDs (rk_ks s) d), None).

(** [altPut] *)
Definition altPut (s : ResettableKeystore) (keys : list bytes)
    : option (ResettableKeystore * option ksError) :=
  '(s, r) ← altPutCollect s keys;
  match r with
  | None => Some (s, Some ErrDatastore)
  | Some new => Some (altPutCommit s new)
  end.

(** [refreshSize] of the alternate datastore. *)
Definition refreshAlt (s : ResettableKeystore) : ResettableKeystore :=
  let '(d, r) := refreshSize (rk_altDs s) in
  rk_setAlt s d (default (rk_altSize s) r).

(** [put]: also false if the keys could not be written to the alternate
    datastore, which is not reported. *)
Definition rput (s : ResettableKeystore) (keys : list bytes)
    : option (ResettableKeystore * (list bytes + ksError) * bool) :=
  '(s, altOk) ←
    (if rk_resetInProgress s then
       '(s, err) ← altPut s keys;
       match err with
       | None => Some (s, true)
       | Some _ => Some (refreshAlt s, false)
       end
     else Some (s, true));
  '(ks, r) ← put MhToBit256 (rk_ks s) keys;
  Some (rk_setKs s ks, r, altOk).

(** One iteration of the loop of [worker] for a request. *)
Definition rworkerStep (s : ResettableKeystore) (op : operation)
    : option (ResettableKeystore * operationResponse * bool) :=
  match op with
  | opPut keys =>
      '(s, r, altOk) ← rput s keys;
      let resp := keysResponse r in
      let '(ks, _) := refreshOnError (rk_ks s) (resp_err resp) in
      Some (rk_setKs s ks, resp, altOk)
  | _ =>
      '(ks, resp, _) ← workerStep MhToBit256 (rk_ks s) op;
      Some (rk_setKs s ks, resp, true)
  end.

(** [tryAltPut]: the token is back when it returns. *)
Definition tryAltPut (s : ResettableKeystore) (keys : list bytes)
    : option (ResettableKeystore * option ksError) :=
  if rk_altPutSem s then altPut s keys else Some (s, Some ErrClosed).

(** [s.empty(ctx, s.altDs)] *)
Definition emptyAlt (s : ResettableKeystore) : ResettableKeystore * option ksError :=
  let '(d, err) := empty (ks_batchSize (rk_ks s)) None (rk_altDs s) in
  (rk_setAlt s d (rk_altSize s), err).

(** The swap of a successful cleanup. *)
Definition swap (s : ResettableKeystore) : ResettableKeystore :=
  let ks := ks_setSize (ks_setDs (rk_ks s) (rk_altDs s)) (rk_altSize s) in
  let active := (1 - rk_activeNamespace s)%Z in
  let '(b, _) := ds_Put (rk_baseDs s) activeNamespaceKey [active] in
  let '(b, _) := ds_Sync b in
  mkResettable ks b (ks_ds (rk_ks s)) (rk_altSize s) (rk_resetInProgress s)
    active (rk_altPutSem s) (rk_stuck s).

(** [handleResetOp]: the error that is sent back. *)
Definition handleResetOp (s : ResettableKeystore) (op : resetOp) : ResettableKeystore * option ksError :=
  match op with
  | opStart =>
      if rk_resetInProgress s then (s, Some ErrResetInProgress)
      else
        let '(s, err) := emptyAlt (rk_setAlt s (rk_altDs s) 0) in
        match err with
        | Some e => (s, Some e)
        | None => (rk_setReset s true, None)
        end
  | opCleanup success =>
      let s := if success then swap s else s in
      emptyAlt (rk_setReset s false)
  end.

(** [Close], once the worker and [tryAltPut] have stopped. *)
Definition rClose (s : ResettableKeystore) : ResettableKeystore * option ksError :=
  let '(ks, err) := Close (rk_ks s) in
  (mkResettable ks (rk_baseDs s) (rk_altDs s) (rk_altSize s) (rk_resetInProgress s)
     (rk_activeNamespace s) false (rk_stuck s), err).

(** ** The goroutines together *)

(** The keystore, and the keys that a running [ResetCids] has not written. *)
Record rkState := mkRkState {
  st_rk : ResettableKeystore;
  st_keys : option (list bytes);
}.

Inductive rkEvent :=
| EvOp (op : operation)          (* the worker serves a request *)
| EvResetCids                    (* [ResetCids] is called *)
| EvResetCancelled               (* ... and cancelled before the answer to its request *)
| EvKey (h : bytes)              (* it receives a key *)
| EvEnd                          (* its channel is closed *)
| EvCancel                       (* its context is cancelled *)
| EvClose.                       (* [Close] *)

Inductive rkOutcome :=
| OServed (r : operationResponse) (altOk : bool)
| OReset (err : option ksError)  (* [ResetCids] returns *)
| OClosed (err : option ksError)
| OBlocked                       (* the caller waits *)
| ONone.

(** The worker takes requests. *)
Definition serving (s : ResettableKeystore) : bool := negb (ks_closed (rk_ks s)) && negb (rk_stuck s).

(** The deferred cleanup of [ResetCids], which then returns [err].  It is
    skipped when the worker has stopped, and waits for a worker that is
    stuck. *)
Definition finishReset (s : ResettableKeystore) (success : bool) (err : option ksError) : rkState * rkOutcome :=
  if ks_closed (rk_ks s) then (mkRkState s None, OReset err)
  else if rk_stuck s then (mkRkState s None, OBlocked)
  else
    let '(s, _) := handleResetOp s (opCleanup success) in
    (mkRkState s None, OReset err).

(** A step; [None] is a panic.  Steps that cannot happen change nothing. *)
Definition rkStep (st : rkState) (ev : rkEvent) : option (rkState * rkOutcome) :=
  let s := st_rk st in
  match ev with
  | EvOp op =>
      if serving s then
        '(s, r, altOk) ← rworkerStep s op;
        Some (mkRkState s (st_keys st), OServed r altOk)
      else if ks_closed (rk_ks s) then Some (st, OServed (failure ErrClosed) true)
      else Some (st, OBlocked)
  | EvResetCids =>
      if serving s then
        let '(s, err) := handleResetOp s opStart in
        match err with
        | Some e => Some (mkRkState s (st_keys st), OReset (Some e))
        | None => Some (mkRkState s (Some []), ONone)
        end
      else if ks_closed (rk_ks s) then Some (st, OReset (Some ErrClosed))
      else Some (st, OBlocked)
  | EvResetCancelled =>
      if serving s then
        let '(s, _) := handleResetOp s opStart in
        Some (mkRkState (mkResettable (rk_ks s) (rk_baseDs s) (rk_altDs s) (rk_altSize s) (rk_resetInProgress s)
          (rk_activeNamespace s) (rk_altPutSem s) true) (st_keys st), OReset (Some ErrContext))
      else Some (st, ONone)
  | EvKey h =>
      match st_keys st with
      | None => Some (st, ONone)
      | Some keys =>
          let keys := keys ++ [h] in
          if decide (ks_batchSize (rk_ks s) ≤ length keys) then
            '(s, err) ← tryAltPut s keys;
            match err with
            | Some e => Some (finishReset s false (Some e))
            | None => Some (mkRkState s (Some []), ONone)
            end
          else Some (mkRkState s (Some keys), ONone)
      end
  | EvEnd =>
      match st_keys st with
      | None => Some (st, ONone)
      | Some keys =>
          '(s, err) ← tryAltPut s keys;
          match err with
          | Some e => Some (finishReset s false (Some e))
          | None => Some (finishReset s true None)
          end
      end
  | EvCancel =>
      match st_keys st with
      | None => Some (st, ONone)
      | Some _ => Some (finishReset s false (Some ErrContext))
      end
  | EvClose =>
      if rk_stuck s then Some (st, OBlocked)
      else let '(s, err) := rClose s in Some (mkRkState s (st_keys st), OClosed err)
  end.

(** The steps of a list of events, with their outcomes. *)
Fixpoint rkRun (st : rkState) (evs : list rkEvent) : option (rkState * list (rkEvent * rkOutcome)) :=
  match evs with
  | [] => Some (st, [])
  | ev :: evs =>
      '(st, out) ← rkStep st ev;
      '(st, outs) ← rkRun st evs;
      Some (st, (ev, out) :: outs)
  end.
End reset.

(** ** Invariant and steps *)

Section laws.
Context {DSL : DsLib} {DSW : DsLaws}.
Variable MhToBit256 : bytes → key.
Hypothesis MhToBit256_length : ∀ h, length (MhToBit256 h) = KeyLen.
Implicit Types (s : ResettableKeystore) (X Y : gset bytes).

Notation idIn := (idIn MhToBit256).

(** The primary datastore holds [X], the alternate one [Y]. *)
Definition holds s X Y : Prop :=
  ksOk (rk_ks s) ∧ represents MhToBit256 (rk_ks s) X ∧
  repMap MhToBit256 (ks_prefixBits (rk_ks s)) (ds_view (rk_altDs s)) Y.

(** What the requests and [altPut] leave as it is. *)
Definition frame s s' : Prop :=
  sameConf (rk_ks s) (rk_ks s') ∧ rk_resetInProgress s' = rk_resetInProgress s ∧
  rk_activeNamespace s' = rk_activeNamespace s ∧ rk_altPutSem s' = rk_altPutSem s ∧ rk_stuck s' = rk_stuck s.

Lemma sameConf_trans k1 k2 k3 : sameConf k1 k2 → sameConf k2 k3 → sameConf k1 k3.
Proof. intros (? & ? & ?) (? & ? & ?). repeat split; congruence. Qed.

Lemma frame_trans s1 s2 s3 : frame s1 s2 → frame s2 s3 → frame s1 s3.
Proof.
  intros (C & ? & ? & ? & ?) (C' & ? & ? & ? & ?). split; [by eapply sameConf_trans|]. split_and!; congruence.
Qed.

Ltac framed := solve [split; [repeat split|split_and!; done]].

(** The number of keys of the alternate datastore is [altSize]. *)
Definition altCounted s Y : Prop := rk_altSize s = Z.of_nat (size Y).

Lemma altPut_spec s keys X Y :
  holds s X Y →
  ∃ s' err Y', altPut MhToBit256 s keys = Some (s', err) ∧ holds s' X Y' ∧ frame s s' ∧
    ks_size (rk_ks s') = ks_size (rk_ks s) ∧ Y ⊆ Y' ∧ Y' ⊆ Y ∪ list_to_set keys ∧
    (err = None → (∀ h, h ∈ keys → idIn (MhToBit256 h) Y') ∧ (altCounted s Y → altCounted s' Y')) ∧
    (∀ e, err = Some e → e = ErrDatastore).
Proof.
  intros (Hok & HX & HY). pose proof Hok as [Hpb _]. unfold altPut, altPutCollect, altCounted.
  pose proof (Batch_view (rk_altDs s)) as Hv. destruct (ds_Batch (rk_altDs s)) as [d []]; cbn [negb fst] in *.
  2: { eexists _, _, Y. split; [done|]. split; [split; [exact Hok|split; [exact HX|by cbn; rewrite Hv]]|].
       split_and!; [framed|done|done|set_solver|done|by intros ? [= <-]]. }
  destruct (collect_new MhToBit256 MhToBit256_length _ keys d _ Y Hpb HY Hv) as (d1 & r & -> & Hv1 & Hr).
  cbn [mbind option_bind]. destruct r as [l|].
  2: { eexists _, _, Y. split; [done|]. split; [split; [exact Hok|split; [exact HX|by cbn; rewrite Hv1]]|].
       split_and!; [framed|done|done|set_solver|done|by intros ? [= <-]]. }
  destruct (Hr l eq_refl) as [Hk Hnew]. unfold altPutCommit. cbn [rk_altDs rk_setAlt].
  destruct (ds_Commit d1 _) as [d2 ok] eqn:Hc.
  destruct (commit_puts MhToBit256 MhToBit256_length _ _ _ Y keys l _ _ Hpb HY Hv1 Hk Hnew Hc) as (Y' & H1 & H2 & Hc' & Hrep).
  destruct ok; cbn [negb].
  2: { eexists _, _, Y'. split; [done|]. split; [split; [exact Hok|split; [exact HX|exact Hrep]]|].
       split_and!; [framed|done|done|done|done|by intros ? [= <-]]. }
  cbn [rk_ks rk_setAlt rk_altSize]. pose proof (Sync_view (ks_ds (rk_ks s))) as Hsv.
  destruct (ds_Sync (ks_ds (rk_ks s))) as [d3 o]. cbn [fst] in Hsv.
  eexists _, _, Y'. split; [done|].
  split; [split; [exact Hok|split; [by unfold represents; cbn; rewrite Hsv|exact Hrep]]|].
  split_and!; [framed|done|done|done| |done]. intros _. rewrite (Hc' eq_refl). split; [apply Hnew|].
  cbn. intros ->. rewrite (newOf_size _ _ _ _ Hnew), length_fmap. lia.
Qed.

Lemma refreshAlt_spec s X Y : holds s X Y → holds (refreshAlt s) X Y ∧ frame s (refreshAlt s).
Proof.
  intros (Hok & HX & HY). pose proof Hok as [Hpb _]. unfold refreshAlt.
  destruct (refreshSize_spec MhToBit256 MhToBit256_length _ _ Y Hpb HY) as (d & r & -> & Hv & _).
  split; [|framed]. split; [exact Hok|]. split; [exact HX|]. cbn. by rewrite Hv.
Qed.

(** The multihashes that a request asks to add. *)
Definition opKeys (op : operation) : list bytes := match op with opPut keys => keys | _ => [] end.

(** A request changes the primary set as it should; during a reset the keys of
    a put are also in the alternate set, unless writing them failed. *)
Lemma rworkerStep_spec s op X Y :
  holds s X Y → opOk op →
  ∃ s' r altOk X' Y', rworkerStep MhToBit256 s op = Some (s', r, altOk) ∧ holds s' X' Y' ∧ frame s s' ∧
    opSpec MhToBit256 (ks_ds (rk_ks s)) op X X' (ks_size (rk_ks s)) r ∧
    Y ⊆ Y' ∧ Y' ⊆ Y ∪ list_to_set (opKeys op) ∧
    (altOk = true → (rk_resetInProgress s = true → ∀ h, h ∈ opKeys op → idIn (MhToBit256 h) Y') ∧
       (altCounted s Y → altCounted s' Y')).
Proof.
  intros Hh Hop. assert (∀ s1 op, opOk op → holds s1 X Y →
    ∃ ks' r ok X', workerStep MhToBit256 (rk_ks s1) op = Some (ks', r, ok) ∧ holds (rk_setKs s1 ks') X' Y ∧
      frame s1 (rk_setKs s1 ks') ∧ opSpec MhToBit256 (ks_ds (rk_ks s1)) op X X' (ks_size (rk_ks s1)) r) as Hother.
  { intros s1 op1 Hop1 (Hok & HX & HY).
    destruct (workerStep_spec MhToBit256 MhToBit256_length (rk_ks s1) op1 X Hok HX Hop1) as (ks' & r & ok & X' & -> & HX' & Hc & Hs & _).
    eexists _, _, _, X'. split; [done|]. split_and!; [|split; [exact Hc|split_and!; done]|done].
    split; [by apply (ksOk_same (rk_ks s1))|]. split; [exact HX'|]. destruct Hc as (Hc & _). cbn. by rewrite Hc. }
  destruct op as [keys|p|p|keys|ctx|]; cbn [rworkerStep];
    try (destruct (Hother s _ Hop Hh) as (ks' & r & ok & X' & -> & H1 & H2 & H3);
         cbn [mbind option_bind]; eexists _, _, _, X', Y; split; [done|];
         (split; [exact H1|]); (split; [exact H2|]); (split; [exact H3|]); (split; [done|]); (split; [set_solver|]);
         intros _; split; [by intros _ ? ?%not_elem_of_nil|done]).
  unfold rput.
  assert (∃ s1 altOk Y', (if rk_resetInProgress s then
       '(s, err) ← altPut MhToBit256 s keys;
       match err with None => Some (s, true) | Some _ => Some (refreshAlt s, false) end
     else Some (s, true)) = Some (s1, altOk) ∧ holds s1 X Y' ∧ frame s s1 ∧ Y ⊆ Y' ∧ Y' ⊆ Y ∪ list_to_set keys ∧
     (altOk = true → (rk_resetInProgress s = true → ∀ h, h ∈ keys → idIn (MhToBit256 h) Y') ∧
       (altCounted s Y → altCounted s1 Y'))) as (s1 & altOk & Y' & -> & Hh1 & Hf1 & H1 & H2 & H3).
  { destruct (rk_resetInProgress s) eqn:Hr.
    - destruct (altPut_spec s keys X Y Hh) as (s1 & err & Y' & -> & Hh1 & Hf1 & _ & H1 & H2 & H3 & _). cbn [mbind option_bind].
      destruct err as [e|].
      + destruct (refreshAlt_spec s1 X Y' Hh1) as [Hh2 Hf2]. eexists _, _, Y'. split; [done|].
        split_and!; try done. by eapply frame_trans.
      + eexists _, _, Y'. split; [done|]. split_and!; try done. intros _. split; [intros _; apply H3; done|by apply H3].
    - eexists _, _, Y. split; [done|]. split_and!; [done|framed|done|set_solver|]. by intros _. }
  cbn [mbind option_bind]. destruct Hh1 as (Hok & HX & HY).
  destruct (put_spec MhToBit256 MhToBit256_length (rk_ks s1) keys X Hok HX) as (ks1 & r & X' & -> & HX' & Hc & Hr).
  cbn [mbind option_bind rk_ks rk_setKs].
  destruct (represents_refresh MhToBit256 MhToBit256_length (rk_ks s1) ks1 X' (resp_err (keysResponse r)) (ksOk_same _ _ Hc Hok) Hc HX')
    as (ks2 & ok & -> & HX2 & Hc2 & _).
  eexists _, _, _, X', Y'. split; [done|]. split_and!.
  - split; [by apply (ksOk_same (rk_ks s1))|]. split; [done|]. destruct Hc2 as (Hc2 & _). cbn. by rewrite Hc2.
  - apply (frame_trans _ s1); [done|]. split; [exact Hc2|]. split_and!; done.
  - cbn. destruct r; cbn; tauto.
  - done.
  - done.
  - done.
Qed.

Lemma emptyAlt_spec s X Y :
  holds s X Y →
  ∃ s' err Y', emptyAlt s = (s', err) ∧ holds s' X Y' ∧ frame s s' ∧ rk_ks s' = rk_ks s ∧ Y' ⊆ Y ∧
    rk_altSize s' = rk_altSize s ∧ (err = None → Y' = ∅ ∨ queryFailed (rk_altDs s)).
Proof.
  intros (Hok & HX & HY). pose proof Hok as [Hpb Hbs]. unfold emptyAlt.
  destruct (empty_spec MhToBit256 MhToBit256_length _ _ None (rk_altDs s) Y Hpb Hbs HY) as (d & err & Y' & -> & HY' & H1 & H2).
  eexists _, _, Y'. split; [done|]. split_and!; [|framed|done|done|done|done].
  split; [exact Hok|]. split; [exact HX|exact HY'].
Qed.

(** The swap exchanges the sets. *)
Lemma swap_spec s X Y :
  holds s X Y →
  holds (swap s) Y X ∧ sameConf (rk_ks s) (rk_ks (swap s)) ∧ ks_size (rk_ks (swap s)) = rk_altSize s ∧
  rk_activeNamespace (swap s) = (1 - rk_activeNamespace s)%Z ∧ rk_altPutSem (swap s) = rk_altPutSem s ∧
  rk_stuck (swap s) = rk_stuck s.
Proof.
  intros (Hok & HX & HY). unfold swap. destruct (ds_Put (rk_baseDs s) _ _) as [b o]. destruct (ds_Sync b) as [b' o'].
  split; [split; [exact Hok|split; [exact HY|exact HX]]|]. cbn. split_and!; [repeat split|done..].
Qed.

Lemma handleResetOp_cleanup s X Y success :
  holds s X Y →
  ∃ s' err Y', handleResetOp s (opCleanup success) = (s', err) ∧ holds s' (if success then Y else X) Y' ∧
    sameConf (rk_ks s) (rk_ks s') ∧ rk_resetInProgress s' = false ∧ rk_altPutSem s' = rk_altPutSem s ∧
    rk_stuck s' = rk_stuck s ∧
    rk_activeNamespace s' = (if success then 1 - rk_activeNamespace s else rk_activeNamespace s)%Z ∧
    (success = true → ks_size (rk_ks s') = rk_altSize s).
Proof.
  intros Hh. cbn [handleResetOp]. set (s1 := if success then swap s else s).
  assert (holds s1 (if success then Y else X) (if success then X else Y) ∧ sameConf (rk_ks s) (rk_ks s1) ∧
    rk_altPutSem s1 = rk_altPutSem s ∧ rk_stuck s1 = rk_stuck s ∧
    rk_activeNamespace s1 = (if success then 1 - rk_activeNamespace s else rk_activeNamespace s)%Z ∧
    (success = true → ks_size (rk_ks s1) = rk_altSize s)) as (Hh1 & Hc & H1 & H2 & H3 & H4).
  { subst s1. destruct success.
    - destruct (swap_spec s X Y Hh) as (? & ? & ? & ? & ? & ?). by split_and!.
    - split_and!; [done|repeat split|done..]. }
  destruct (emptyAlt_spec (rk_setReset s1 false) _ _ Hh1) as (s2 & err & Y' & -> & Hh2 & (Hc2 & H5 & H6 & H7 & H8) & Hk & _).
  eexists _, _, Y'. split; [done|]. rewrite Hk. cbn in *. split_and!; [done|done|done|congruence|congruence|congruence|done].
Qed.

Lemma handleResetOp_start s X Y :
  holds s X Y →
  ∃ s' err Y', handleResetOp s opStart = (s', err) ∧ holds s' X Y' ∧ sameConf (rk_ks s) (rk_ks s') ∧
    rk_ks s' = rk_ks s ∧ rk_altPutSem s' = rk_altPutSem s ∧ rk_stuck s' = rk_stuck s ∧
    rk_activeNamespace s' = rk_activeNamespace s ∧
    (err = None → rk_resetInProgress s' = true ∧ rk_altSize s' = 0%Z ∧ (Y' = ∅ ∨ queryFailed (rk_altDs s))).
Proof.
  intros Hh. cbn [handleResetOp]. destruct (rk_resetInProgress s) eqn:Hr.
  { eexists _, _, Y. split; [done|]. split_and!; [done|repeat split|done..]. }
  destruct (emptyAlt_spec (rk_setAlt s (rk_altDs s) 0) X Y) as (s2 & err & Y' & -> & Hh2 & (Hc2 & H5 & H6 & H7 & H8) & Hk & _ & H9 & H10).
  { exact Hh. }
  destruct err as [e|]; eexists _, _, Y'; (split; [done|]); cbn in *; split_and!; try done; try exact Hh2.
  all: try (rewrite Hk; repeat split). intros _. split_and!; [done|done|by apply H10].
Qed.

(** ** Steps of the whole *)

Notation rkStep := (rkStep MhToBit256).
Notation rkRun := (rkRun MhToBit256).

(** Not closed. *)
Definition isOpen s : Prop := ks_closed (rk_ks s) = false ∧ rk_altPutSem s = true.

Lemma isOpen_frame s s' : frame s s' → isOpen s → isOpen s'.
Proof. intros ((_ & _ & H1) & _ & _ & H2 & _) [H3 H4]. split; congruence. Qed.

Definition evOk (ev : rkEvent) : Prop := match ev with EvOp op => opOk op | _ => True end.

Lemma finishReset_spec s X Y success err :
  holds s X Y → isOpen s → rk_stuck s = false →
  ∃ s' Y', finishReset s success err = (mkRkState s' None, OReset err) ∧
    holds s' (if success then Y else X) Y' ∧ isOpen s' ∧ rk_stuck s' = false ∧ rk_resetInProgress s' = false ∧
    rk_activeNamespace s' = (if success then 1 - rk_activeNamespace s else rk_activeNamespace s)%Z ∧
    (success = true → ks_size (rk_ks s') = rk_altSize s).
Proof.
  intros Hh [Hc Hsem] Hst. unfold finishReset. rewrite Hc, Hst.
  destruct (handleResetOp_cleanup s X Y success Hh) as (s' & e & Y' & -> & Hh' & (_ & _ & Hc') & H1 & H2 & H3 & H4 & H5).
  exists s', Y'. split; [done|]. split_and!; [done| |congruence|done|done|done]. split; congruence.
Qed.

Lemma tryAltPut_open s keys : isOpen s → tryAltPut MhToBit256 s keys = altPut MhToBit256 s keys.
Proof. intros [_ H]. unfold tryAltPut. by rewrite H. Qed.

Lemma serving_open s : isOpen s → rk_stuck s = false → serving s = true.
Proof. intros [H _] Hs. unfold serving. by rewrite H, Hs. Qed.

(** *** During a reset *)

Definition during (ev : rkEvent) : Prop := match ev with EvOp op => opOk op | EvKey _ => True | _ => False end.

(** The keys that [ResetCids] receives, and those of the puts. *)
Definition evKeys (ev : rkEvent) : list bytes := match ev with EvKey h => [h] | _ => [] end.
Definition evPuts (ev : rkEvent) : list bytes := match ev with EvOp op => opKeys op | _ => [] end.

(** Of the keys received, [R] were written; [P] are the keys of the puts. *)
Definition resetting (st : rkState) X Y (R keys P : list bytes) : Prop :=
  holds (st_rk st) X Y ∧ isOpen (st_rk st) ∧ rk_stuck (st_rk st) = false ∧
  rk_resetInProgress (st_rk st) = true ∧ st_keys st = Some keys ∧
  (∀ h, h ∈ R → idIn (MhToBit256 h) Y) ∧ (∀ h, h ∈ Y → h ∈ R ∨ h ∈ P).

(** No reset runs. *)
Definition idle (st : rkState) : Prop :=
  (∃ X Y, holds (st_rk st) X Y) ∧ isOpen (st_rk st) ∧ rk_stuck (st_rk st) = false ∧ st_keys st = None.

Lemma idIn_mono k Y Y' : Y ⊆ Y' → idIn k Y → idIn k Y'.
Proof. intros Hs (h & Hh & He). exists h. split; [by apply Hs|done]. Qed.

Lemma during_key st h X Y R keys P :
  resetting st X Y R keys P →
  ∃ st' out, rkStep st (EvKey h) = Some (st', out) ∧
    (idle st' ∨ ∃ Y' R' keys', resetting st' X Y' R' keys' P ∧ R' ++ keys' = (R ++ keys) ++ [h] ∧ Y ⊆ Y' ∧
      (altCounted (st_rk st) Y → altCounted (st_rk st') Y') ∧
      rk_activeNamespace (st_rk st') = rk_activeNamespace (st_rk st)) ∧
    (∀ r b, out ≠ OServed r b).
Proof.
  intros (Hh & Ho & Hst & Hr & Hk & HR & HY). cbn [rkStep]. rewrite Hk. case_decide as Hb.
  - rewrite tryAltPut_open by done.
    destruct (altPut_spec (st_rk st) (keys ++ [h]) X Y Hh) as (s' & err & Y' & -> & Hh' & Hf & _ & H1 & H2 & H3 & _).
    cbn [mbind option_bind]. pose proof Hf as (_ & Hf1 & Hf2 & Hf3 & Hf4). destruct err as [e|].
    + destruct (finishReset_spec s' X Y' false (Some e) Hh') as (s2 & Y2 & -> & Hh2 & Ho2 & Hst2 & _);
        [by eapply isOpen_frame|congruence|].
      eexists _, _. split; [done|]. split; [|done]. left. split_and!; [by exists X, Y2|apply Ho2..|done|done].
    + eexists _, _. split; [done|]. split; [|done]. right. exists Y', (R ++ keys ++ [h]), [].
      split_and!; [|by rewrite app_nil_r, !app_assoc|done|by apply H3|done].
      split; [done|]. split; [by eapply isOpen_frame|]. cbn. split_and!; [congruence|congruence|done| |].
      * intros x [Hx|Hx]%elem_of_app; [eapply idIn_mono; [done|by apply HR]|by apply H3].
      * intros x Hx. apply H2, elem_of_union in Hx as [Hx|Hx%elem_of_list_to_set];
          [destruct (HY x Hx); [left|by right]|left]; apply elem_of_app; [by left|by right].
  - eexists _, _. split; [done|]. split; [|done]. right. exists Y, R, (keys ++ [h]).
    split_and!; [|by rewrite app_assoc|done|done|done]. split; [done|]. split; [done|]. by split_and!.
Qed.

Lemma during_op st op X Y R keys P :
  resetting st X Y R keys P → opOk op →
  ∃ st' r altOk X' Y', rkStep st (EvOp op) = Some (st', OServed r altOk) ∧
    resetting st' X' Y' R keys (P ++ opKeys op) ∧ Y ⊆ Y' ∧
    rk_activeNamespace (st_rk st') = rk_activeNamespace (st_rk st) ∧
    (altOk = true → (∀ h, h ∈ opKeys op → idIn (MhToBit256 h) Y') ∧
      (altCounted (st_rk st) Y → altCounted (st_rk st') Y')).
Proof.
  intros (Hh & Ho & Hst & Hr & Hk & HR & HY) Hop. cbn [rkStep]. rewrite serving_open by done.
  destruct (rworkerStep_spec (st_rk st) op X Y Hh Hop) as (s' & r & altOk & X' & Y' & -> & Hh' & Hf & _ & H1 & H2 & H3).
  cbn [mbind option_bind]. pose proof Hf as (_ & Hf1 & Hf2 & Hf3 & Hf4). eexists _, _, _, X', Y'. split; [done|].
  split_and!; [|done|done|].
  - split; [done|]. split; [by eapply isOpen_frame|]. cbn. split_and!; [congruence|congruence|done| |].
    + intros x Hx. eapply idIn_mono; [done|by apply HR].
    + intros x Hx. rewrite elem_of_app. apply H2, elem_of_union in Hx as [Hx|Hx%elem_of_list_to_set]; [|tauto].
      destruct (HY x Hx); tauto.
  - intros Hal. destruct (H3 Hal) as [H4 H5]. split; [by apply H4|done].
Qed.

(** A step outside of a reset. *)
Lemma idle_step st ev : idle st → during ev →
  ∃ st' out, rkStep st ev = Some (st', out) ∧ idle st'.
Proof.
  intros ((X & Y & Hh) & Ho & Hst & Hk) Hd. destruct ev as [op| | |h| | |]; cbn in Hd; try done; cbn [rkStep].
  - rewrite serving_open by done.
    destruct (rworkerStep_spec (st_rk st) op X Y Hh Hd) as (s' & r & altOk & X' & Y' & -> & Hh' & Hf & _).
    cbn [mbind option_bind]. eexists _, _. split; [done|]. pose proof Hf as (_ & _ & _ & _ & Hf4).
    split; [by exists X', Y'|]. split; [by eapply isOpen_frame|]. cbn. split; [congruence|done].
  - rewrite Hk. eexists _, _. split; [done|]. split; [by exists X, Y|]. by split_and!.
Qed.

Lemma idle_run st evs : idle st → Forall during evs →
  ∃ st' outs, rkRun st evs = Some (st', outs) ∧ idle st'.
Proof.
  intros Hi Hevs. revert st Hi. induction Hevs as [|ev evs Hev _ IH]; intros st Hi; cbn [rkRun].
  { by eexists _, _. }
  destruct (idle_step st ev Hi Hev) as (st1 & out & -> & Hi1). cbn [mbind option_bind].
  destruct (IH st1 Hi1) as (st2 & outs & -> & Hi2). cbn [mbind option_bind]. by eexists _, _.
Qed.

(** The puts whose keys were also written to the alternate datastore, and
    whether all were. *)
Definition putIn (outs : list (rkEvent * rkOutcome)) h : Prop :=
  ∃ keys r, (EvOp (opPut keys), OServed r true) ∈ outs ∧ h ∈ keys.
Definition allAltOk (outs : list (rkEvent * rkOutcome)) : Prop := ∀ ev r, (ev, OServed r false) ∉ outs.

(** What holds of the alternate set after the steps of a reset. *)
Definition resetResult st Y R keys P evs outs st' : Prop :=
  ∃ X' Y' R' keys', resetting st' X' Y' R' keys' (P ++ (evs ≫= evPuts)) ∧
    R' ++ keys' = (R ++ keys) ++ (evs ≫= evKeys) ∧ Y ⊆ Y' ∧
    rk_activeNamespace (st_rk st') = rk_activeNamespace (st_rk st) ∧
    (∀ h, putIn outs h → idIn (MhToBit256 h) Y') ∧
    (allAltOk outs → altCounted (st_rk st) Y → altCounted (st_rk st') Y').

Lemma during_run st evs X Y R keys P :
  resetting st X Y R keys P → Forall during evs →
  ∃ st' outs, rkRun st evs = Some (st', outs) ∧ (idle st' ∨ resetResult st Y R keys P evs outs st').
Proof.
  intros Hr Hevs. revert st X Y R keys P Hr. induction Hevs as [|ev evs Hev Hevs IH]; intros st X Y R keys P Hr; cbn [rkRun].
  { eexists _, _. split; [done|]. right. exists X, Y, R, keys. cbn. rewrite !app_nil_r.
    split_and!; [done|done|done|done| |done]. intros h (? & ? & ?%not_elem_of_nil & _). done. }
  destruct ev as [op| | |h| | |]; cbn in Hev; try done.
  - destruct (during_op st op X Y R keys P Hr Hev) as (st1 & r & altOk & X1 & Y1 & -> & Hr1 & Hs1 & Ha1 & Hal).
    cbn [mbind option_bind]. destruct (IH st1 X1 Y1 R keys _ Hr1) as (st2 & outs & -> & Hres). cbn [mbind option_bind].
    eexists _, _. split; [done|]. destruct Hres as [Hi|(X' & Y' & R' & keys' & H1 & H2 & H3 & H4 & H5 & H6)]; [by left|right].
    exists X', Y', R', keys'. cbn [mbind list_bind evKeys evPuts app] in *. rewrite <-app_assoc in H1.
    split_and!; [done|done|set_solver|congruence| |].
    + intros x (ks & r' & [Heq|Hin]%elem_of_cons & Hx); [|apply H5; by exists ks, r'].
      injection Heq as <- <- <-. eapply idIn_mono; [done|]. by apply Hal.
    + intros Hall Hc. apply H6; [intros e r' Hin; apply (Hall e r'); by right|]. destruct altOk; [by apply Hal|].
      destruct (Hall (EvOp op) r). by left.
  - destruct (during_key st h X Y R keys P Hr) as (st1 & out & -> & Hres & Hno). cbn [mbind option_bind].
    destruct Hres as [Hi|(Y1 & R1 & keys1 & Hr1 & He1 & Hs1 & Hc1 & Ha1)].
    { destruct (idle_run st1 evs Hi Hevs) as (st2 & outs & -> & Hi2). cbn [mbind option_bind]. eexists _, _. split; [done|by left]. }
    destruct (IH st1 X Y1 R1 keys1 P Hr1) as (st2 & outs & -> & Hres). cbn [mbind option_bind].
    eexists _, _. split; [done|]. destruct Hres as [Hi|(X' & Y' & R' & keys' & H1 & H2 & H3 & H4 & H5 & H6)]; [by left|right].
    exists X', Y', R', keys'. cbn [mbind list_bind evKeys evPuts app] in *. rewrite He1, <-!app_assoc in H2. cbn [app] in H2.
    split_and!; [done|by rewrite <-!app_assoc|set_solver|congruence| |].
    + intros x (ks & r' & [Heq|Hin]%elem_of_cons & Hx); [done|]. apply H5; by exists ks, r'.
    + intros Hall Hc. apply H6; [intros e r' Hin; apply (Hall e r'); by right|]. by apply Hc1.
Qed.

Lemma rkRun_app st evs1 evs2 :
  rkRun st (evs1 ++ evs2) = ('(st1, outs1) ← rkRun st evs1; '(st2, outs2) ← rkRun st1 evs2; Some (st2, outs1 ++ outs2)).
Proof.
  revert st. induction evs1 as [|ev evs1 IH]; intros st; cbn [app rkRun].
  { cbn. by destruct (rkRun st evs2) as [[]|]. }
  destruct (rkStep st ev) as [[st1 out]|]; [|done]. cbn [mbind option_bind]. rewrite IH.
  destruct (rkRun st1 evs1) as [[st2 outs1]|]; [|done]. cbn [mbind option_bind].
  by destruct (rkRun st2 evs2) as [[st3 outs2]|].
Qed.

(** The end of a reset. *)
Lemma end_spec st X Y R keys P :
  resetting st X Y R keys P →
  ∃ st' out, rkStep st EvEnd = Some (st', out) ∧
    (out = OReset None → ∃ Y' Z, holds (st_rk st') Y' Z ∧ st_keys st' = None ∧
      rk_resetInProgress (st_rk st') = false ∧
      rk_activeNamespace (st_rk st') = (1 - rk_activeNamespace (st_rk st))%Z ∧ Y ⊆ Y' ∧
      (∀ h, h ∈ R ++ keys → idIn (MhToBit256 h) Y') ∧ (∀ h, h ∈ Y' → h ∈ R ++ keys ∨ h ∈ P) ∧
      (altCounted (st_rk st) Y → ks_size (rk_ks (st_rk st')) = Z.of_nat (size Y'))).
Proof.
  intros (Hh & Ho & Hst & Hr & Hk & HR & HY). cbn [rkStep]. rewrite Hk, tryAltPut_open by done.
  destruct (altPut_spec (st_rk st) keys X Y Hh) as (s' & err & Y' & -> & Hh' & Hf & _ & H1 & H2 & H3 & _).
  cbn [mbind option_bind]. pose proof Hf as (_ & Hf1 & Hf2 & Hf3 & Hf4). destruct err as [e|].
  - destruct (finishReset_spec s' X Y' false (Some e) Hh') as (s2 & Y2 & -> & _); [by eapply isOpen_frame|congruence|].
    by eexists _, _.
  - destruct (finishReset_spec s' X Y' true None Hh') as (s2 & Z & -> & Hh2 & Ho2 & Hst2 & Hr2 & Ha2 & Hsz);
      [by eapply isOpen_frame|congruence|].
    eexists _, _. split; [done|]. intros _. exists Y', Z. cbn. destruct (H3 eq_refl) as [H4 H5].
    split_and!; [done|done|done|congruence|done| | |].
    + intros h [Hx|Hx]%elem_of_app; [eapply idIn_mono; [done|by apply HR]|by apply H4].
    + intros h Hx. rewrite elem_of_app. apply H2, elem_of_union in Hx as [Hx|Hx%elem_of_list_to_set]; [|tauto].
      destruct (HY h Hx); tauto.
    + intros Hc. rewrite Hsz by done. by apply H5.
Qed.

Lemma start_spec st X Y :
  holds (st_rk st) X Y → isOpen (st_rk st) → rk_stuck (st_rk st) = false → st_keys st = None →
  ∃ st' out, rkStep st EvResetCids = Some (st', out) ∧
    (idle st' ∨ ∃ Y', resetting st' X Y' [] [] (elements Y') ∧ (Y' = ∅ ∨ queryFailed (rk_altDs (st_rk st))) ∧
      rk_altSize (st_rk st') = 0%Z ∧ rk_activeNamespace (st_rk st') = rk_activeNamespace (st_rk st)) ∧
    (∀ r b, out ≠ OServed r b).
Proof.
  intros Hh Ho Hst Hk. cbn [rkStep]. rewrite serving_open by done.
  destruct (handleResetOp_start (st_rk st) X Y Hh) as (s' & err & Y' & -> & Hh' & (_ & _ & Hc) & _ & H1 & H2 & H3 & H4).
  assert (isOpen s') as Ho' by (destruct Ho; split; congruence). destruct err as [e|].
  - eexists _, _. split; [done|]. split; [|done]. left. split; [by exists X, Y'|]. cbn. split; [done|]. split; [congruence|done].
  - destruct (H4 eq_refl) as (H5 & H6 & H7). eexists _, _. split; [done|]. split; [|done]. right. exists Y'. cbn.
    split_and!; [|done|done|done]. split; [done|]. split; [done|]. cbn. split_and!; [congruence|done|done| |].
    + by intros h ?%not_elem_of_nil.
    + intros h Hh2. right. by apply elem_of_elements.
Qed.


(** The cleanup, also by a worker that is stuck. *)
Lemma finishReset_any s X Y success err :
  holds s X Y → isOpen s →
  ∃ st', finishReset s success err = st' ∧ isOpen (st_rk st'.1) ∧
    ∃ X' Y', holds (st_rk st'.1) X' Y' ∧ (success = false → X' = X) ∧
      (st'.2 = OBlocked ∧ X' = X ∨ st'.2 = OReset err).
Proof.
  intros Hh Ho. eexists. split; [done|]. destruct (rk_stuck s) eqn:Hst.
  - unfold finishReset. destruct Ho as [Hc ?]. rewrite Hc, Hst. cbn. split; [done|]. exists X, Y. split; [done|]. by split; [|left].
  - destruct (finishReset_spec s X Y success err Hh Ho Hst) as (s2 & Y3 & -> & Hh2 & Ho2 & _). cbn. split; [done|].
    exists (if success then Y else X), Y3. split; [done|]. split; [by intros ->|by right].
Qed.

(** What a step may do to the primary set. *)
Definition evSpec st (ev : rkEvent) (out : rkOutcome) X X' : Prop :=
  match ev, out with
  | EvOp op, OServed r _ => opSpec MhToBit256 (ks_ds (rk_ks (st_rk st))) op X X' (ks_size (rk_ks (st_rk st))) r
  | EvEnd, OReset None => True
  | _, _ => X' = X
  end.

(** Until the swap a reset is invisible.  No step panics, and as long as
    the keystore is open the set that requests see changes only by requests
    that are served, each as [workerStep] promises, and by the successful end
    of [ResetCids]: not when it starts, receives keys, fails or is
    cancelled. *)
Theorem rkStep_isolated st ev X Y :
  holds (st_rk st) X Y → isOpen (st_rk st) → evOk ev →
  ∃ st' out, rkStep st ev = Some (st', out) ∧
    (ks_closed (rk_ks (st_rk st')) = false →
     isOpen (st_rk st') ∧ ∃ X' Y', holds (st_rk st') X' Y' ∧ evSpec st ev out X X').
Proof.
  intros Hh Ho Hev. assert (isOpen (st_rk st) ∧ ∃ X' Y', holds (st_rk st) X' Y' ∧ X' = X) as Hsame by (split; [done|by exists X, Y]).
  pose proof Ho as [Hcl _].
  destruct ev as [op| | |h| | |]; cbn [rkStep].
  - destruct (serving (st_rk st)).
    + destruct (rworkerStep_spec (st_rk st) op X Y Hh Hev) as (s' & r & altOk & X' & Y' & -> & Hh' & Hf & Hs & _).
      cbn [mbind option_bind]. eexists _, _. split; [done|]. intros _. split; [by eapply isOpen_frame|]. by exists X', Y'.
    + rewrite Hcl. by eexists _, _.
  - destruct (serving (st_rk st)); [|rewrite Hcl; by eexists _, _].
    destruct (handleResetOp_start (st_rk st) X Y Hh) as (s' & err & Y' & -> & Hh' & (_ & _ & Hc) & _ & H1 & _).
    assert (isOpen s') as Ho' by (destruct Ho; split; congruence).
    destruct err; eexists _, _; (split; [done|]); intros _; (split; [done|]); by exists X, Y'.
  - destruct (serving (st_rk st)); [|by eexists _, _].
    destruct (handleResetOp_start (st_rk st) X Y Hh) as (s' & err & Y' & -> & Hh' & (_ & _ & Hc) & _ & H1 & _).
    assert (isOpen s') as Ho' by (destruct Ho; split; congruence).
    eexists _, _. split; [done|]. intros _. split; [done|]. exists X, Y'. split; [exact Hh'|done].
  - destruct (st_keys st) as [keys|]; [|by eexists _, _]. case_decide as Hb.
    2: { eexists _, _. split; [done|]. intros _. exact Hsame. }
    rewrite tryAltPut_open by done.
    destruct (altPut_spec (st_rk st) (keys ++ [h]) X Y Hh) as (s' & err & Y' & -> & Hh' & Hf & _).
    cbn [mbind option_bind]. pose proof (isOpen_frame _ _ Hf Ho) as Ho'. destruct err as [e|].
    + destruct (finishReset_any s' X Y' false (Some e) Hh' Ho') as ([st' out] & -> & Ho2 & X' & Y2 & Hh2 & Hx & _).
      eexists _, _. split; [done|]. intros _. split; [done|]. exists X', Y2. split; [done|]. by apply Hx.
    + eexists _, _. split; [done|]. intros _. split; [done|]. by exists X, Y'.
  - destruct (st_keys st) as [keys|]; [|by eexists _, _]. rewrite tryAltPut_open by done.
    destruct (altPut_spec (st_rk st) keys X Y Hh) as (s' & err & Y' & -> & Hh' & Hf & _).
    cbn [mbind option_bind]. pose proof (isOpen_frame _ _ Hf Ho) as Ho'. destruct err as [e|].
    + destruct (finishReset_any s' X Y' false (Some e) Hh' Ho') as ([st' out] & -> & Ho2 & X' & Y2 & Hh2 & Hx & Hout).
      eexists _, _. split; [done|]. intros _. split; [done|]. exists X', Y2. split; [done|].
      cbn in *. destruct Hout as [[-> ?]| ->]; by apply Hx.
    + destruct (finishReset_any s' X Y' true None Hh' Ho') as ([st' out] & -> & Ho2 & X' & Y2 & Hh2 & _ & Hout).
      eexists _, _. split; [done|]. intros _. split; [done|]. exists X', Y2. split; [done|].
      cbn in *. by destruct Hout as [[-> ->]| ->].
  - destruct (st_keys st) as [keys|]; [|by eexists _, _].
    destruct (finishReset_any (st_rk st) X Y false (Some ErrContext) Hh Ho) as ([st' out] & -> & Ho2 & X' & Y2 & Hh2 & Hx & _).
    eexists _, _. split; [done|]. intros _. split; [done|]. exists X', Y2. split; [done|]. by apply Hx.
  - destruct (rk_stuck (st_rk st)); [by eexists _, _|]. unfold rClose, Close. rewrite Hcl.
    destruct (persistSize _) as [k ok] eqn:Hp. assert (ks_closed k = true) as Hk.
    { unfold persistSize in Hp. destruct (ds_Put _ _ _) in Hp. by injection Hp as <- _. }
    destruct ok; cbn [negb]; [destruct (ds_Sync (ks_ds k)) as [d2 o]|]; (eexists _, _; split; [done|]); cbn; congruence.
Qed.

(** *** A worker that is stuck *)

Definition stuckState st : Prop := rk_stuck (st_rk st) = true ∧ ks_closed (rk_ks (st_rk st)) = false.

Lemma altPut_frame s keys s' err : altPut MhToBit256 s keys = Some (s', err) →
  rk_stuck s' = rk_stuck s ∧ ks_closed (rk_ks s') = ks_closed (rk_ks s).
Proof.
  unfold altPut, altPutCollect. destruct (ds_Batch (rk_altDs s)) as [d []]; cbn [negb mbind option_bind].
  2: { by intros [= <- <-]. }
  destruct (hasLoop _ _ _ _ _ d _) as [[d1 [l|]]|]; cbn [mbind option_bind]; [|by intros [= <- <-]|done].
  unfold altPutCommit. destruct (ds_Commit _ _) as [d2 []]; cbn [negb]; [|by intros [= <- <-]].
  destruct (ds_Sync _) as [d3 o]. by intros [= <- <-].
Qed.

Lemma stuck_step st ev st' out : stuckState st → rkStep st ev = Some (st', out) →
  stuckState st' ∧ ∀ r b, out ≠ OServed r b.
Proof.
  intros [Hst Hc]. assert (serving (st_rk st) = false) as Hs by (unfold serving; by rewrite Hst, andb_false_r).
  assert (∀ s success err, rk_stuck s = true → ks_closed (rk_ks s) = false →
    finishReset s success err = (mkRkState s None, OBlocked)) as Hf by (intros s success err H1 H2; unfold finishReset; by rewrite H1, H2).
  destruct ev as [op| | |h| | |]; cbn [rkStep]; rewrite ?Hs, ?Hc, ?Hst.
  - by intros [= <- <-].
  - by intros [= <- <-].
  - by intros [= <- <-].
  - destruct (st_keys st) as [keys|]; [|by intros [= <- <-]]. case_decide; [|by intros [= <- <-]].
    unfold tryAltPut. destruct (rk_altPutSem (st_rk st)).
    + destruct (altPut _ _ _) as [[s' err]|] eqn:Ha; [|done]. apply altPut_frame in Ha as [H1 H2]. rewrite Hst in H1. rewrite Hc in H2.
      cbn [mbind option_bind]. destruct err; rewrite ?Hf by done; by intros [= <- <-].
    + cbn [mbind option_bind]. rewrite Hf by done. by intros [= <- <-].
  - destruct (st_keys st) as [keys|]; [|by intros [= <- <-]].
    unfold tryAltPut. destruct (rk_altPutSem (st_rk st)).
    + destruct (altPut _ _ _) as [[s' err]|] eqn:Ha; [|done]. apply altPut_frame in Ha as [H1 H2]. rewrite Hst in H1. rewrite Hc in H2.
      cbn [mbind option_bind]. destruct err; rewrite ?Hf by done; by intros [= <- <-].
    + cbn [mbind option_bind]. rewrite Hf by done. by intros [= <- <-].
  - destruct (st_keys st) as [keys|]; [|by intros [= <- <-]]. rewrite Hf by done. by intros [= <- <-].
  - by intros [= <- <-].
Qed.

(** Cancelling [ResetCids] while the worker starts the reset blocks the
    keystore for ever: the worker answers on a channel that nobody reads, so
    that no later request is served, and [Close] does not return. *)
Theorem ResetCids_cancel_blocks st evs st1 out1 st2 outs :
  serving (st_rk st) = true → rkStep st EvResetCancelled = Some (st1, out1) → rkRun st1 evs = Some (st2, outs) →
  (∀ op r altOk, (EvOp op, OServed r altOk) ∉ outs) ∧ (∃ st3, rkStep st2 EvClose = Some (st3, OBlocked)).
Proof.
  intros Hs H1 H2. assert (stuckState st1) as Hst.
  { cbn [rkStep] in H1. rewrite Hs in H1. unfold serving in Hs. apply andb_true_iff in Hs as [Hc%negb_true_iff _].
    destruct (handleResetOp (st_rk st) opStart) as [s e] eqn:Hh. injection H1 as <- _. split; [done|]. cbn.
    cbn [handleResetOp] in Hh. destruct (rk_resetInProgress (st_rk st)); [by injection Hh as <- _|].
    unfold emptyAlt in Hh. destruct (empty _ _ _) as [d [err|]] in Hh; by injection Hh as <- _. }
  clear Hs H1 out1 st. revert st1 outs H2 Hst. induction evs as [|ev evs IH]; intros st1 outs H2 Hst; cbn [rkRun] in H2.
  { injection H2 as <- <-. split; [by intros ? ? ? ?%not_elem_of_nil|]. exists st1. cbn [rkStep]. by rewrite (proj1 Hst). }
  destruct (rkStep st1 ev) as [[st3 out]|] eqn:Hs; [|done]. cbn [mbind option_bind] in H2.
  apply stuck_step in Hs as [Hst3 Hno]; [|done]. destruct (rkRun st3 evs) as [[st4 outs4]|] eqn:Hr; [|done].
  cbn [mbind option_bind] in H2. injection H2 as <- <-. destruct (IH st3 outs4 Hr Hst3) as [H1 H2]. split; [|done].
  intros op r altOk [Heq|Hin]%elem_of_cons; [|by eapply H1]. injection Heq as _ Heq. by destruct (Hno r altOk).
Qed.
End laws.

(** ** Concrete runs *)

Definition demoReset : rkState :=
  mkRkState (mkResettable demoKeystore (mkMemStore ∅ []) (mkMemStore ∅ []) 0 false 0 true false) None.

Lemma demoReset_holds : holds demoId (st_rk demoReset) ∅ ∅.
Proof.
  split; [by apply (bool_decide_unpack _); vm_compute|]. split; [apply demoKeystore_empty|].
  intros dk h. cbn. rewrite lookup_empty. set_solver.
Qed.

Definition demoEvents : list rkEvent := [EvKey [1]; EvOp (opPut [[2]]); EvKey [3]; EvOp (opGet [])]%Z.


Lemma rkStep_isolated_witness :
  ∃ st' out, rkStep demoId demoReset EvResetCids = Some (st', out) ∧
    (ks_closed (rk_ks (st_rk st')) = false →
     isOpen (st_rk st') ∧ ∃ X' Y', holds demoId (st_rk st') X' Y' ∧ evSpec demoId demoReset EvResetCids out ∅ X').
Proof. by apply (rkStep_isolated demoId demoId_length demoReset EvResetCids ∅ ∅ demoReset_holds). Defined.

Lemma ResetCids_cancel_blocks_witness :
  ∃ st1 out1 st2 outs, rkStep demoId demoReset EvResetCancelled = Some (st1, out1) ∧
    rkRun demoId st1 demoEvents = Some (st2, outs) ∧
    (∀ op r altOk, (EvOp op, OServed r altOk) ∉ outs) ∧ (∃ st3, rkStep demoId st2 EvClose = Some (st3, OBlocked)).
Proof.
  assert (bool_decide (is_Some ('(st1, _) ← rkStep demoId demoReset EvResetCancelled; rkRun demoId st1 demoEvents)) = true)
    as Hb by (by vm_compute). apply bool_decide_eq_true in Hb.
  destruct (rkStep demoId demoReset EvResetCancelled) as [[st1 out1]|] eqn:H1; [|by destruct Hb]. cbn [mbind option_bind] in Hb.
  destruct (rkRun demoId st1 demoEvents) as [[st2 outs]|] eqn:H2; [|by destruct Hb].
  exists st1, out1, st2, outs. split; [done|]. split; [done|].
  by apply (ResetCids_cancel_blocks demoId demoReset demoEvents st1 out1).
Defined.

(** What [Get] of the empty prefix answers after a run, with the errors of the
    requests and of [ResetCids]. *)
Definition outError (o : rkEvent * rkOutcome) : option (option ksError) :=
  match o.2 with OServed r _ => Some (resp_err r) | OReset e => Some e | _ => None end.

Definition contentsAfter (st : rkState) (evs : list rkEvent) : option (list bytes * list (option ksError)) :=
  match rkRun demoId st evs with
  | Some (st, outs) =>
      match get (rk_ks (st_rk st)) [] with
      | Some (_, inl l) => Some (l, omap outError outs)
      | _ => None
      end
  | None => None
  end.

(** A datastore for the reset whose commit of the first [altPut] fails. *)
Definition faultyReset : rkState :=
  mkRkState (mkResettable demoKeystore (mkMemStore ∅ [])
    (mkMemStore ∅ [false; false; false; false; false; true]) 0 false 0 true false) None.

(** A reset can lose the updates that are served while it runs.  A key
    that is put and deleted, both without an error, is in the keystore after
    the swap, because deletions are not applied to the alternate datastore.
    If writing a key of a put to the alternate datastore fails, the put and
    the reset still succeed and the key is gone. *)
Theorem ResetCids_loses_updates :
  contentsAfter demoReset [EvResetCids; EvOp (opPut [[1]]); EvOp (opDelete [[1]]); EvEnd]%Z =
    Some ([[1]]%Z, [None; None; None]) ∧
  contentsAfter faultyReset [EvResetCids; EvOp (opPut [[1]]); EvEnd]%Z = Some ([], [None; None]).
Proof. by vm_compute. Qed.

(** [altPut] is not safe for concurrent use: when the worker runs it for a
    put between the two parts of the one of [ResetCids] with the same key, the
    key is counted twice in [altSize], which becomes the size after the
    swap. *)
Theorem altPut_counts_twice :
  match altPutCollect demoId (st_rk demoReset) [[1]]%Z with
  | Some (s, Some new) =>
      match altPut demoId s [[1]]%Z with
      | Some (s, None) =>
          let '(s, err) := altPutCommit s new in
          err = None ∧ rk_altSize s = 2%Z ∧ base.size (ds_view (rk_altDs s)) = 1
      | _ => False
      end
  | _ => False
  end.
Proof. vm_compute. done. Qed.
