(* ===== verification/Connectivity.v ===== *)
(** * The connectivity checker

    [provider/internal/connectivity/connectivity.go]: the state machine that
    probes the network and calls [onOnline], [onDisconnected] and [onOffline].

    The mutex is held by at most one goroutine; [task] is what its holder
    does next.  [ckStep] is one step of a caller or of that goroutine, and
    returns the callbacks that it runs ([None]: the step is not possible now).
    The answer of [checkFunc] and the time are part of the step.

    The theorems show that the callbacks follow the state machine of the
    documentation, and that none runs after [Close]. *)

From S2P Require Import Prelude GoTime.

Local Open Scope Z_scope.

Definition Millisecond : Z := 1000000.

Definition initialBackoffDelay : Z := 100 * Millisecond.
Definition maxBackoffDelay : Z := Minute.

(** The options: [startDisconnected], [onlineCheckInterval], [offlineDelay]. *)
Record ckConfig := mkCkConfig {
  startDisconnected : bool;
  onlineCheckInterval : Z;
  offlineDelay : Z;
}.

(** [getOpts] without options. *)
Definition defaultCkConfig : ckConfig := mkCkConfig false Minute (2 * Hour).

(** [WithOnlineCheckInterval] and [WithOfflineDelay]: the values they accept. *)
Definition WithOnlineCheckInterval (d : Z) (cfg : ckConfig) : option ckConfig :=
  if decide (d ≤ 0) then None else Some (mkCkConfig (startDisconnected cfg) d (offlineDelay cfg)).
Definition WithOfflineDelay (d : Z) (cfg : ckConfig) : option ckConfig :=
  if decide (d < 0) then None else Some (mkCkConfig (startDisconnected cfg) (onlineCheckInterval cfg) d).
Definition WithStartDisconnected (cfg : ckConfig) : ckConfig :=
  mkCkConfig true (onlineCheckInterval cfg) (offlineDelay cfg).

(** The goroutine that holds the mutex. *)
Inductive ckTask :=
| Idle                                      (* the mutex is free *)
| Starting                                  (* [Start], before its probe *)
| Checking                                  (* [TriggerCheck], before its check *)
| Probing (delay : Z) (offlineC : bool).    (* [probeLoop]: whether the offline timer runs *)

Record ConnectivityChecker := mkChecker {
  ck_cfg : ckConfig;
  ck_done : bool;              (* done is closed *)
  ck_closed : bool;            (* closed *)
  ck_online : bool;            (* online *)
  ck_lastCheck : Z;            (* lastCheck *)
  ck_lastStateChange : Z;      (* lastStateChange *)
  ck_task : ckTask;
}.

Inductive callback := OnOnline | OnDisconnected | OnOffline.

(** [New] *)
Definition NewChecker (cfg : ckConfig) : ConnectivityChecker :=
  mkChecker cfg false false false zeroTime zeroTime Idle.

Definition setTask (c : ConnectivityChecker) (t : ckTask) : ConnectivityChecker :=
  mkChecker (ck_cfg c) (ck_done c) (ck_closed c) (ck_online c) (ck_lastCheck c) (ck_lastStateChange c) t.

(** [stateChanged] *)
Definition stateChanged (c : ConnectivityChecker) (now : Z) : ConnectivityChecker :=
  mkChecker (ck_cfg c) (ck_done c) (ck_closed c) (ck_online c) (ck_lastCheck c) now (ck_task c).

Definition setOnline (c : ConnectivityChecker) (b : bool) : ConnectivityChecker :=
  mkChecker (ck_cfg c) (ck_done c) (ck_closed c) b (ck_lastCheck c) (ck_lastStateChange c) (ck_task c).

Definition setLastCheck (c : ConnectivityChecker) (now : Z) : ConnectivityChecker :=
  mkChecker (ck_cfg c) (ck_done c) (ck_closed c) (ck_online c) now (ck_lastStateChange c) (ck_task c).

(** [probe] with the answer of [checkFunc]: its result, the state and the
    callbacks. *)
Definition probe (c : ConnectivityChecker) (up : bool) (now : Z) : bool * ConnectivityChecker * list callback :=
  if up then
    if ck_done c then (true, c, [])
    else (true, stateChanged (setLastCheck (setOnline c true) now) now, [OnOnline])
  else (false, c, []).

(** [probeLoop] up to its first wait. *)
Definition probeLoop (c : ConnectivityChecker) (disconnected : bool) (now : Z) : ConnectivityChecker * list callback :=
  if disconnected then
    if decide (offlineDelay (ck_cfg c) = 0) then
      (setTask (stateChanged c now) (Probing initialBackoffDelay false), [OnOffline])
    else (setTask c (Probing initialBackoffDelay true), [])
  else (setTask c (Probing initialBackoffDelay false), []).

(** An iteration of the loop of [probeLoop] in which the timer fires. *)
Definition probeTimer (c : ConnectivityChecker) (delay : Z) (offlineC up : bool) (now : Z)
    : ConnectivityChecker * list callback :=
  let '(ok, c, cbs) := probe c up now in
  if ok then (setTask c Idle, cbs)
  else (setTask c (Probing (Z.min (2 * delay) maxBackoffDelay) offlineC), cbs).

Inductive ckEvent :=
| CkStart                           (* [Start] is called *)
| CkTrigger (now : Z)               (* [TriggerCheck] is called *)
| CkClose                           (* [Close] is called: [close(c.done)] *)
| CkCloseLocked                     (* ... and has the mutex *)
| CkRun (up : bool) (now : Z)       (* the goroutine of [Start] or [TriggerCheck] runs *)
| CkTimer (up : bool) (now : Z)     (* the probe timer fires *)
| CkOfflineTimer (now : Z)          (* the offline timer fires *)
| CkDone.                           (* [probeLoop] sees that [done] is closed *)

(** [TriggerCheck] *)
Definition TriggerCheck (c : ConnectivityChecker) (now : Z) : ConnectivityChecker :=
  match ck_task c with
  | Idle =>
      if ck_closed c then c
      else if ck_online c && bool_decide (time_Sub now (ck_lastCheck c) < onlineCheckInterval (ck_cfg c)) then c
      else setTask c Checking
  | _ => c
  end.

Definition ckStep (c : ConnectivityChecker) (ev : ckEvent) : option (ConnectivityChecker * list callback) :=
  match ev, ck_task c with
  | CkStart, Idle => Some (setTask c Starting, [])
  | CkTrigger now, _ => Some (TriggerCheck c now, [])
  | CkClose, t =>
      Some (mkChecker (ck_cfg c) true (ck_closed c) (ck_online c) (ck_lastCheck c) (ck_lastStateChange c) t, [])
  | CkCloseLocked, Idle =>
      if ck_done c then
        Some (mkChecker (ck_cfg c) true true (ck_online c) (ck_lastCheck c) (ck_lastStateChange c) Idle, [])
      else None
  | CkRun up now, Starting =>
      let '(ok, c, cbs) := probe c up now in
      if ok then Some (setTask c Idle, cbs)
      else
        let '(c, cbs') := probeLoop c (startDisconnected (ck_cfg c)) now in
        Some (c, cbs ++ cbs')
  | CkRun up now, Checking =>
      if up then Some (setTask (setLastCheck c now) Idle, [])
      else
        let c := setOnline (stateChanged c now) false in
        let '(c, cbs) := probeLoop c true now in
        Some (c, OnDisconnected :: cbs)
  | CkTimer up now, Probing delay offlineC => Some (probeTimer c delay offlineC up now)
  | CkOfflineTimer now, Probing delay true => Some (setTask (stateChanged c now) (Probing delay false), [OnOffline])
  | CkDone, Probing _ _ => if ck_done c then Some (setTask c Idle, []) else None
  | _, _ => None
  end.

(** [IsOnline] and [LastStateChange] *)
Definition IsOnline (c : ConnectivityChecker) : bool := ck_online c.
Definition LastStateChange (c : ConnectivityChecker) : Z := ck_lastStateChange c.

(** ** The documented state machine *)

Inductive conn := Offline | Disconnected | Online.

#[export] Instance conn_eq_dec : EqDecision conn.
Proof. solve_decision. Defined.

Definition connStep (a : conn) (cb : callback) : option conn :=
  match a, cb with
  | Offline, OnOnline | Disconnected, OnOnline => Some Online
  | Online, OnDisconnected => Some Disconnected
  | Disconnected, OnOffline => Some Offline
  | _, _ => None
  end.

(** Where [Start] begins. *)
Definition connInit (cfg : ckConfig) : conn := if startDisconnected cfg then Disconnected else Offline.

(** The states of a checker that was started once, with the callbacks so far;
    [TriggerCheck] is not called once [Close] has been. *)
Inductive ckReach (cfg : ckConfig) : ConnectivityChecker → list callback → Prop :=
| ckReach_start c cbs : ckStep (NewChecker cfg) CkStart = Some (c, cbs) → ckReach cfg c cbs
| ckReach_step c cbs ev c' cbs' :
    ckReach cfg c cbs → ev ≠ CkStart → (∀ now, ev = CkTrigger now → ck_done c = false) →
    ckStep c ev = Some (c', cbs') → ckReach cfg c' (cbs ++ cbs').

(** ** Invariant *)

(** The waiting times of the exponential backoff. *)
Definition backoff (delay : Z) : Prop := ∃ n : nat, delay = Z.min (initialBackoffDelay * 2 ^ Z.of_nat n) maxBackoffDelay.

Definition ckInv (cfg : ckConfig) (c : ConnectivityChecker) (a : conn) : Prop :=
  ck_cfg c = cfg ∧ (ck_online c = true ↔ a = Online) ∧ (ck_closed c = true → ck_done c = true ∧ ck_task c = Idle) ∧
  match ck_task c with
  | Idle => ck_done c = true ∨ a = Online
  | Starting => a = connInit cfg
  | Checking => a = Online
  | Probing delay offlineC => a = (if offlineC then Disconnected else Offline) ∧ backoff delay
  end.

Lemma backoff_initial : backoff initialBackoffDelay.
Proof. exists 0%nat. done. Qed.

Lemma backoff_next delay : backoff delay → backoff (Z.min (2 * delay) maxBackoffDelay).
Proof.
  intros [n ->]. exists (S n). rewrite Nat2Z.inj_succ, Z.pow_succ_r by lia. unfold maxBackoffDelay, Minute, Second. lia.
Qed.

#[local] Hint Resolve backoff_initial backoff_next : core.

(** The parts of the invariant that follow by computation. *)
Ltac ck_inv := split_and!; cbn; try done; try congruence; auto.

Lemma probe_spec cfg c a up now ok c' cbs :
  ckInv cfg c a → ck_task c ≠ Idle → a ≠ Online → probe c up now = (ok, c', cbs) →
  ok = up ∧ ck_cfg c' = cfg ∧ ck_done c' = ck_done c ∧ ck_closed c' = false ∧ ck_task c' = ck_task c ∧
  (if up then if ck_done c then c' = c ∧ cbs = [] else ck_online c' = true ∧ cbs = [OnOnline]
   else c' = c ∧ cbs = []).
Proof.
  intros (Hc & _ & Hcl & _) Ht _ Hp. assert (ck_closed c = false) as Hcl' by (destruct (ck_closed c); [by destruct Hcl|done]).
  unfold probe in Hp. destruct up; [destruct (ck_done c) eqn:Hd|]; simplify_eq/=; split_and!; done.
Qed.

Lemma probeLoop_spec cfg c disconnected now c' cbs :
  ck_cfg c = cfg → ck_online c = false → ck_closed c = false → probeLoop c disconnected now = (c', cbs) →
  ∃ a, foldM connStep (if disconnected then Disconnected else Offline) cbs = Some a ∧ ckInv cfg c' a.
Proof.
  intros Hc Ho Hcl Hp. unfold probeLoop in Hp. destruct disconnected; [case_decide|]; simplify_eq/=.
  - exists Offline. split; [done|]. ck_inv. by rewrite Ho.
  - exists Disconnected. split; [done|]. ck_inv. by rewrite Ho.
  - exists Offline. split; [done|]. ck_inv. by rewrite Ho.
Qed.

(** The end of a goroutine whose probe was successful. *)
Lemma probe_idle cfg c a up now c' cbs :
  ckInv cfg c a → ck_task c ≠ Idle → a ≠ Online → probe c up now = (true, c', cbs) →
  ∃ a', foldM connStep a cbs = Some a' ∧ ckInv cfg (setTask c' Idle) a'.
Proof.
  intros Hi Ht Ha Hp. destruct (probe_spec _ _ _ _ _ _ _ _ Hi Ht Ha Hp) as (<- & H1 & H2 & H3 & H4 & H5).
  pose proof Hi as (_ & Hon & _). destruct (ck_done c) eqn:Hd; destruct H5 as [H5 ->].
  - subst c'. exists a. split; [done|]. ck_inv.
  - exists Online. split; [by destruct a|]. ck_inv.
Qed.

Lemma ckStep_spec cfg c a ev c' cbs :
  ckInv cfg c a → ev ≠ CkStart → (∀ now, ev = CkTrigger now → ck_done c = false) →
  ckStep c ev = Some (c', cbs) → ∃ a', foldM connStep a cbs = Some a' ∧ ckInv cfg c' a'.
Proof.
  intros Hi Hns Htr Hs. pose proof Hi as (Hc & Hon & Hcl & Ht). destruct ev as [|now| | |up now|up now|now|]; [done|..].
  - cbn in Hs. injection Hs as <- <-. exists a. split; [done|]. unfold TriggerCheck. destruct (ck_task c) eqn:Et; try done.
    specialize (Htr now eq_refl). destruct (ck_closed c) eqn:Ecl; [done|]. case_match; [done|].
    ck_inv. destruct Ht as [Ht| ->]; [congruence|done].
  - cbn in Hs. injection Hs as <- <-. exists a. split; [done|]. ck_inv; [by intros; split; [|apply Hcl]|].
    destruct (ck_task c); auto.
  - destruct (ck_task c) eqn:Et; cbn -[probe probeLoop] in Hs; rewrite Et in Hs; try done. destruct (ck_done c); [|done].
    injection Hs as <- <-. exists a. split; [done|]. ck_inv.
  - destruct (ck_task c) eqn:Et; cbn -[probe probeLoop] in Hs; rewrite Et in Hs; try done.
    + assert (a ≠ Online) as Ha by (rewrite Ht; unfold connInit; by destruct (startDisconnected cfg)).
      assert (ck_task c ≠ Idle) as Hti by (by rewrite Et).
      destruct (probe c up now) as [[ok c1] cbs1] eqn:Hp. destruct ok.
      * injection Hs as <- <-. by eapply probe_idle.
      * destruct (probe_spec _ _ _ _ _ _ _ _ Hi Hti Ha Hp) as (<- & _ & _ & H3 & _ & -> & ->).
        destruct (probeLoop c _ now) as [c2 cbs2] eqn:Hl. injection Hs as <- <-. cbn [app].
        rewrite Ht, <-Hc in *. eapply (probeLoop_spec (ck_cfg c)); [done| |done|exact Hl].
        destruct (ck_online c); [|done]. exfalso. by apply Ha, Hon.
    + subst a. assert (ck_closed c = false) as Hcl' by (destruct (ck_closed c); [by destruct Hcl|done]). destruct up.
      * injection Hs as <- <-. exists Online. split; [done|]. ck_inv.
      * destruct (probeLoop _ true now) as [c2 cbs2] eqn:Hl. injection Hs as <- <-. cbn [foldM connStep mbind option_bind].
        by eapply (probeLoop_spec cfg _ true) in Hl.
  - destruct (ck_task c) as [| | |delay offC] eqn:Et; cbn -[probe probeLoop] in Hs; rewrite Et in Hs; try done. injection Hs as Hs. destruct Ht as [Ha Hb].
    assert (a ≠ Online) as Hao by (rewrite Ha; by destruct offC). assert (ck_task c ≠ Idle) as Hti by (by rewrite Et).
    unfold probeTimer in Hs. destruct (probe c up now) as [[ok c1] cbs1] eqn:Hp. destruct ok.
    + injection Hs as <- <-. by eapply probe_idle.
    + destruct (probe_spec _ _ _ _ _ _ _ _ Hi Hti Hao Hp) as (<- & _ & _ & H3 & _ & -> & ->). injection Hs as <- <-.
      exists a. split; [done|]. ck_inv.
  - destruct (ck_task c) as [| | |delay [|]] eqn:Et; cbn -[probe probeLoop] in Hs; rewrite Et in Hs; try done. injection Hs as <- <-.
    destruct Ht as [-> Hb]. exists Offline. split; [done|]. ck_inv.
    + split; [|done]. intros Ho. by apply Hon in Ho.
    + intros Ho. by destruct (Hcl Ho).
  - destruct (ck_task c) as [| | |delay offC] eqn:Et; cbn -[probe probeLoop] in Hs; rewrite Et in Hs; try done. destruct (ck_done c) eqn:Hd; [|done].
    injection Hs as <- <-. exists a. split; [done|]. ck_inv.
Qed.

Lemma ckReach_inv cfg c cbs : ckReach cfg c cbs → ∃ a, foldM connStep (connInit cfg) cbs = Some a ∧ ckInv cfg c a.
Proof.
  induction 1 as [c cbs Hs|c cbs ev c' cbs' Hr (a & Ha & Hi) Hns Htr Hs].
  - cbn in Hs. injection Hs as <- <-. exists (connInit cfg). split; [done|]. ck_inv.
    unfold connInit. by destruct (startDisconnected cfg).
  - destruct (ckStep_spec cfg c a ev c' cbs' Hi Hns Htr Hs) as (a' & Ha' & Hi'). exists a'. split; [|done].
    by rewrite foldM_app, Ha.
Qed.


(** The steps of [Close] and of the goroutine it waits for. *)
Lemma probeLoop_task c disconnected now :
  ∃ delay offlineC, ck_task (probeLoop c disconnected now).1 = Probing delay offlineC ∧
    ck_done (probeLoop c disconnected now).1 = ck_done c.
Proof. unfold probeLoop. destruct disconnected; [case_decide|]; by eexists _, _. Qed.

Lemma closing_steps c :
  ck_done c = true → (∃ delay offlineC, ck_task c = Probing delay offlineC) →
  ∃ c', foldM (λ c ev, fst <$> ckStep c ev) c [CkDone; CkCloseLocked] = Some c' ∧ ck_closed c' = true.
Proof. intros Hd (delay & offC & Et). cbn. rewrite Et, Hd. cbn. rewrite Hd. cbn. by eexists. Qed.

(** [Close] returns and stops the checker.  Once it has been called, the
    goroutine that holds the mutex ends after at most one check and one more
    step, [Close] then gets the mutex, and from then on no step runs a
    callback or starts a check. *)
Theorem ConnectivityChecker_Close cfg c cbs up now :
  ckReach cfg c cbs → ck_done c = true →
  (∃ evs c', (length evs ≤ 3)%nat ∧ foldM (λ c ev, fst <$> ckStep c ev) c evs = Some c' ∧ ck_closed c' = true ∧
     (∀ ev, ev ∈ evs → ev = CkRun up now ∨ ev = CkDone ∨ ev = CkCloseLocked)) ∧
  (ck_closed c = true → ∀ ev c' cbs', ev ≠ CkStart → ckStep c ev = Some (c', cbs') →
     cbs' = [] ∧ ck_closed c' = true ∧ ck_task c' = Idle).
Proof.
  intros Hr Hd. destruct (ckReach_inv cfg c cbs Hr) as (a & _ & (_ & _ & Hcl & _)). split.
  - destruct (ck_task c) as [| | |delay offC] eqn:Et.
    + exists [CkCloseLocked]. cbn. rewrite Et, Hd. cbn. eexists. split_and!; [lia|done|done|set_solver].
    + destruct up.
      * exists [CkRun true now; CkCloseLocked]. cbn. rewrite Et, Hd. cbn. rewrite Hd. cbn.
        eexists. split_and!; [lia|done|done|set_solver].
      * exists [CkRun false now; CkDone; CkCloseLocked]. destruct (probeLoop_task c (startDisconnected (ck_cfg c)) now) as (dl & oc & Ht & Hd').
        destruct (closing_steps (probeLoop c (startDisconnected (ck_cfg c)) now).1) as (c' & Hc' & Hcl'); [by rewrite Hd'|by eexists _, _|].
        exists c'. split; [cbn; lia|]. split_and!; [|done|set_solver]. cbn -[probeLoop]. rewrite Et. cbn -[probeLoop].
        destruct (probeLoop c _ now) as [c1 cbs1]. exact Hc'.
    + destruct up.
      * exists [CkRun true now; CkCloseLocked]. cbn. rewrite Et. cbn. rewrite Hd. cbn.
        eexists. split_and!; [lia|done|done|set_solver].
      * exists [CkRun false now; CkDone; CkCloseLocked]. set (c0 := setOnline (stateChanged c now) false).
        destruct (probeLoop_task c0 true now) as (dl & oc & Ht & Hd').
        destruct (closing_steps (probeLoop c0 true now).1) as (c' & Hc' & Hcl'); [by rewrite Hd'|by eexists _, _|].
        exists c'. split; [cbn; lia|]. split_and!; [|done|set_solver]. cbn -[probeLoop]. rewrite Et. cbn -[probeLoop]. fold c0.
        destruct (probeLoop c0 true now) as [c1 cbs1]. exact Hc'.
    + destruct (closing_steps c Hd) as (c' & Hc' & Hcl'); [by eexists _, _|]. exists [CkDone; CkCloseLocked], c'.
      split_and!; [cbn; lia|done|done|set_solver].
  - intros Hc ev c' cbs' Hns Hs. destruct (Hcl Hc) as [_ Et].
    destruct ev; cbn in Hs; rewrite ?Et, ?Hd in Hs; try done; injection Hs as <- <-; try done.
    unfold TriggerCheck. by rewrite Et, Hc.
Qed.

(** ** Concrete runs *)

(** The callbacks of a list of steps. *)
Definition runChecks (c : ConnectivityChecker) (evs : list ckEvent) : option (ConnectivityChecker * list callback) :=
  foldM (λ '(c, cbs) ev, '(c, cbs') ← ckStep c ev; Some (c, cbs ++ cbs')) (c, []) evs.

(** The node goes online, is found disconnected, and offline after the delay;
    checks that come too early and calls during a check do nothing. *)
Example demoChecks :
  snd <$> runChecks (NewChecker defaultCkConfig)
    [CkStart; CkTrigger 0; CkRun false 1; CkTimer false 2; CkTimer true 3; CkTrigger 4; CkTrigger (3 + Minute);
     CkRun false (4 + Minute); CkOfflineTimer (5 + 3 * Hour); CkTimer true (6 + 3 * Hour)] =
  Some [OnOnline; OnDisconnected; OnOffline; OnOnline].
Proof. by vm_compute. Qed.

(** While [Close] waits for the mutex a check can still be triggered, and runs
    [onDisconnected] although the node was not online. *)
Example Close_race :
  snd <$> runChecks (NewChecker defaultCkConfig)
    [CkStart; CkClose; CkRun true 1; CkTrigger 2; CkRun false 3; CkDone; CkCloseLocked] =
  Some [OnDisconnected].
Proof. by vm_compute. Qed.

(** The checker after a first successful probe, and after [Close]. *)
Definition demoOnline : ConnectivityChecker :=
  setTask (stateChanged (setLastCheck (setOnline (setTask (NewChecker defaultCkConfig) Starting) true) 5) 5) Idle.

Lemma demoOnline_reach : ckReach defaultCkConfig demoOnline ([] ++ [OnOnline]).
Proof. eapply (ckReach_step _ _ _ (CkRun true 5)); [by apply ckReach_start|done|done|done]. Defined.


Definition demoClosing : ConnectivityChecker :=
  mkChecker defaultCkConfig true false true 5 5 Idle.

Lemma ConnectivityChecker_Close_witness :
  (∃ evs c', (length evs ≤ 3)%nat ∧ foldM (λ c ev, fst <$> ckStep c ev) demoClosing evs = Some c' ∧ ck_closed c' = true ∧
     (∀ ev, ev ∈ evs → ev = CkRun true 7 ∨ ev = CkDone ∨ ev = CkCloseLocked)) ∧
  (ck_closed demoClosing = true → ∀ ev c' cbs', ev ≠ CkStart → ckStep demoClosing ev = Some (c', cbs') →
     cbs' = [] ∧ ck_closed c' = true ∧ ck_task c' = Idle).
Proof.
  apply (ConnectivityChecker_Close defaultCkConfig demoClosing (([] ++ [OnOnline]) ++ []) true 7); [|done].
  eapply (ckReach_step _ _ _ CkClose); [apply demoOnline_reach|done|done|done].
Defined.
