(* ===== verification/Buffered.v ===== *)
(** * The buffered provider

    [provider/buffered/provider.go]: operations are written to a persistent
    queue and a worker executes them in batches on the provider behind it.

    The provider is the class [ProviderIface] (the interface [internal.Provider]
    of the source), the queue [dsqueue] the class [QueueLib].  [None] is a
    panic.  [bufStep] is one step of a caller or of the worker.

    The theorems show that the batches have the effect of the operations one by
    one, that the worker does not sleep while operations wait, and that it
    executes all of them. *)

From S2P Require Import Prelude GoTime Datastore.

(** ** Interfaces *)

(** [internal.Provider]; the boolean is false for an error.  [prov_keys] are
    the keys that are reprovided. *)
Class ProviderIface (mh : Type) `{Countable mh} := {
  PROV : Type;
  prov_StartProviding : PROV → bool → list mh → PROV * bool;
  prov_StopProviding : PROV → list mh → PROV * bool;
  prov_ProvideOnce : PROV → list mh → PROV * bool;
  prov_Clear : PROV → PROV * nat;
  prov_RefreshSchedule : PROV → PROV * bool;
  prov_Close : PROV → PROV * bool;
  prov_keys : PROV → gset mh;
}.

Class ProviderLaws (mh : Type) `{ProviderIface mh} : Prop := {
  StartProviding_keys : ∀ p f l, (prov_StartProviding p f l).2 = true →
    prov_keys (prov_StartProviding p f l).1 = prov_keys p ∪ list_to_set l;
  StopProviding_keys : ∀ p l, (prov_StopProviding p l).2 = true →
    prov_keys (prov_StopProviding p l).1 = prov_keys p ∖ list_to_set l;
  ProvideOnce_keys : ∀ p l, prov_keys (prov_ProvideOnce p l).1 = prov_keys p;
}.

(** The provider accepts the keys. *)
Definition provSucceeds (mh : Type) `{ProviderIface mh} : Prop :=
  (∀ p f l, (prov_StartProviding p f l).2 = true) ∧ ∀ p l, (prov_StopProviding p l).2 = true.

(** [dsqueue.DSQueue]: a persistent queue of byte strings. *)
Class QueueLib := {
  QUEUE : Type;
  q_Put : QUEUE → bytes → QUEUE * bool;
  q_GetN : QUEUE → nat → QUEUE * option (list bytes);
  q_Close : QUEUE → QUEUE * bool;
  q_items : QUEUE → list bytes;
}.

Class QueueLaws `{QueueLib} : Prop := {
  q_Put_items : ∀ q x, q_items (q_Put q x).1 = if (q_Put q x).2 then q_items q ++ [x] else q_items q;
  q_GetN_items : ∀ q n l, (q_GetN q n).2 = Some l →
    l = take n (q_items q) ∧ q_items (q_GetN q n).1 = drop n (q_items q);
  q_GetN_failed : ∀ q n, (q_GetN q n).2 = None → q_items (q_GetN q n).1 = q_items q;
  q_Close_items : ∀ q, q_items (q_Close q).1 = q_items q;
}.

(** ** Operations *)

Definition provideOnceOp : Z := 0.
Definition startProvidingOp : Z := 1.
Definition forceStartProvidingOp : Z := 2.
Definition stopProvidingOp : Z := 3.

Section buffered.
Context {mh : Type} `{Countable mh} {PI : ProviderIface mh} {QL : QueueLib}.
Variables (mhBytes : mh → bytes) (mhCast : bytes → option mh).
(** The order in which a Go map is iterated. *)
Variable mapOrder : gset mh → list mh.

(** [toBytes] *)
Definition toBytes (op : Z) (h : mh) : bytes := op :: mhBytes h.

(** [fromBytes]: panics on an empty item; the inner [None] is an error. *)
Definition fromBytes (data : bytes) : option (option (Z * mh)) :=
  match data with
  | [] => None
  | op :: rest => Some ((λ h, (op, h)) <$> mhCast rest)
  end.

(** The variables of [getOperations]: the three lists of [ops], and
    [stopProv]. *)
Record operations := mkOperations {
  op_provideOnce : list mh;
  op_start : list mh;
  op_forceStart : list mh;
  op_stop : gset mh;
}.

(** One iteration of its loop. *)
Definition addOperation (o : operations) (op : Z) (h : mh) : operations :=
  if decide (op = provideOnceOp) then
    mkOperations (op_provideOnce o ++ [h]) (op_start o) (op_forceStart o) (op_stop o)
  else if decide (op = startProvidingOp) then
    mkOperations (op_provideOnce o) (op_start o ++ [h]) (op_forceStart o) (op_stop o ∖ {[h]})
  else if decide (op = forceStartProvidingOp) then
    mkOperations (op_provideOnce o) (op_start o) (op_forceStart o ++ [h]) (op_stop o ∖ {[h]})
  else if decide (op = stopProvidingOp) then
    mkOperations (op_provideOnce o) (op_start o) (op_forceStart o) ({[h]} ∪ op_stop o)
  else o.

Fixpoint operationsLoop (dequeued : list bytes) (o : operations) : option (option operations) :=
  match dequeued with
  | [] => Some (Some o)
  | bs :: dequeued =>
      r ← fromBytes bs;
      match r with
      | None => Some None
      | Some (op, h) => operationsLoop dequeued (addOperation o op h)
      end
  end.

(** [getOperations] *)
Definition getOperations (dequeued : list bytes) : option (option operations) :=
  operationsLoop dequeued (mkOperations [] [] [] ∅).

(** [executeOperation]: errors are logged. *)
Definition executeOp (f : PROV → list mh → PROV * bool) (p : PROV) (keys : list mh) : PROV :=
  match keys with [] => p | _ => (f p keys).1 end.

(** The operations of a batch, in the order of [worker]. *)
Definition executeOperations (p : PROV) (o : operations) : PROV :=
  let p := executeOp (λ p, prov_StartProviding p true) p (op_forceStart o) in
  let p := executeOp (λ p, prov_StartProviding p false) p (op_start o) in
  let p := executeOp prov_ProvideOnce p (op_provideOnce o) in
  executeOp prov_StopProviding p (mapOrder (op_stop o)).

(** ** The worker and the callers *)

(** Where the worker is. *)
Inductive bufPhase := AtSelect | AtGet | Exited.

(** An [enqueue] that has not returned: its operation and the keys that it has
    not put. *)
Record bufCall := mkCall { call_op : Z; call_keys : list mh }.

Record SweepingProvider := mkBuffered {
  b_closed : bool;               (* closed *)
  b_newItems : bool;             (* newItems holds its token *)
  b_prov : PROV;                 (* Provider *)
  b_queue : QUEUE;               (* queue *)
  b_batchSize : nat;             (* batchSize *)
  b_emptyQueue : bool;           (* emptyQueue of worker *)
  b_phase : bufPhase;
  b_calls : list bufCall;
}.

(** [New] *)
Definition NewBuffered (p : PROV) (q : QUEUE) (batchSize : nat) : SweepingProvider :=
  mkBuffered false false p q batchSize false AtSelect [].

(** The part of an iteration of [worker] after the [select]. *)
Definition workerGet (s : SweepingProvider) : option SweepingProvider :=
  let '(q, r) := q_GetN (b_queue s) (b_batchSize s) in
  match r with
  | None => Some (mkBuffered (b_closed s) (b_newItems s) (b_prov s) q (b_batchSize s) (b_emptyQueue s) AtSelect (b_calls s))
  | Some res =>
      let emptyQueue := if decide (length res < b_batchSize s) then true else b_emptyQueue s in
      o ← getOperations res;
      let p := match o with None => b_prov s | Some o => executeOperations (b_prov s) o end in
      Some (mkBuffered (b_closed s) (b_newItems s) p q (b_batchSize s) emptyQueue AtSelect (b_calls s))
  end.

Inductive bufEvent :=
| BufEnqueue (op : Z) (keys : list mh)   (* [enqueue] is called *)
| BufPut (i : nat)                       (* the call [i] puts its next key *)
| BufSignal (i : nat)                    (* the call [i] has put all and returns *)
| BufNewItems                            (* the worker receives from [newItems] *)
| BufDefault                             (* the worker takes the [default] case *)
| BufClosed                              (* the worker sees that [closed] is closed *)
| BufGet                                 (* the worker processes a batch *)
| BufClose                               (* [Close]: [close(s.closed)] *)
| BufCloseAll                            (* ... then the queue and the provider are closed *)
| BufClear                               (* [Clear] *)
| BufRefreshSchedule.                    (* [RefreshSchedule] *)

(** One step; [None] is a panic, the inner [None] a step that is not possible. *)
Definition bufStep (s : SweepingProvider) (ev : bufEvent) : option (option SweepingProvider) :=
  let set_worker newItems emptyQueue phase :=
    mkBuffered (b_closed s) newItems (b_prov s) (b_queue s) (b_batchSize s) emptyQueue phase (b_calls s) in
  let set_calls newItems q calls :=
    mkBuffered (b_closed s) newItems (b_prov s) q (b_batchSize s) (b_emptyQueue s) (b_phase s) calls in
  let set_prov p :=
    mkBuffered (b_closed s) (b_newItems s) p (b_queue s) (b_batchSize s) (b_emptyQueue s) (b_phase s) (b_calls s) in
  match ev with
  | BufEnqueue op keys => Some (Some (set_calls (b_newItems s) (b_queue s) (b_calls s ++ [mkCall op keys])))
  | BufPut i =>
      match b_calls s !! i with
      | Some (mkCall op (h :: keys)) =>
          let '(q, ok) := q_Put (b_queue s) (toBytes op h) in
          if ok : bool then Some (Some (set_calls (b_newItems s) q (<[i := mkCall op keys]> (b_calls s))))
          else Some (Some (set_calls (b_newItems s) q (delete i (b_calls s))))
      | _ => Some None
      end
  | BufSignal i =>
      match b_calls s !! i with
      | Some (mkCall _ []) => Some (Some (set_calls true (b_queue s) (delete i (b_calls s))))
      | _ => Some None
      end
  | BufNewItems =>
      match b_phase s with
      | AtSelect => Some (if b_newItems s then Some (set_worker false false AtGet) else None)
      | _ => Some None
      end
  | BufDefault =>
      match b_phase s with
      | AtSelect =>
          Some (if b_emptyQueue s || b_closed s || b_newItems s then None
                else Some (set_worker (b_newItems s) false AtGet))
      | _ => Some None
      end
  | BufClosed =>
      match b_phase s with
      | AtSelect => Some (if b_closed s then Some (set_worker (b_newItems s) (b_emptyQueue s) Exited) else None)
      | _ => Some None
      end
  | BufGet => match b_phase s with AtGet => Some <$> workerGet s | _ => Some None end
  | BufClose =>
      Some (Some (mkBuffered true (b_newItems s) (b_prov s) (b_queue s) (b_batchSize s)
        (b_emptyQueue s) (b_phase s) (b_calls s)))
  | BufCloseAll =>
      if b_closed s then
        let '(q, _) := q_Close (b_queue s) in
        let '(p, _) := prov_Close (b_prov s) in
        Some (Some (mkBuffered true (b_newItems s) p q (b_batchSize s) (b_emptyQueue s) (b_phase s) (b_calls s)))
      else Some None
  | BufClear => Some (Some (set_prov (prov_Clear (b_prov s)).1))
  | BufRefreshSchedule => Some (Some (set_prov (prov_RefreshSchedule (b_prov s)).1))
  end.

(** [ProvideOnce], [StartProviding] and [StopProviding]: the calls of
    [enqueue]. *)
Definition bufProvideOnce (keys : list mh) : bufEvent := BufEnqueue provideOnceOp keys.
Definition bufStartProviding (force : bool) (keys : list mh) : bufEvent :=
  BufEnqueue (if force then forceStartProvidingOp else startProvidingOp) keys.
Definition bufStopProviding (keys : list mh) : bufEvent := BufEnqueue stopProvidingOp keys.

(** ** Operations one by one *)

(** The effect of a queued item on the keys that are reprovided. *)
Definition itemKeys (X : gset mh) (item : Z * mh) : gset mh :=
  if decide (item.1 = startProvidingOp ∨ item.1 = forceStartProvidingOp) then X ∪ {[item.2]}
  else if decide (item.1 = stopProvidingOp) then X ∖ {[item.2]}
  else X.
End buffered.

(** ** Batches *)

Section laws.
Context {mh : Type} `{Countable mh} {PI : ProviderIface mh} {PL : ProviderLaws mh} {QL : QueueLib} {QW : QueueLaws}.
Variables (mhBytes : mh → bytes) (mhCast : bytes → option mh).
Hypothesis mhCast_bytes : ∀ h, mhCast (mhBytes h) = Some h.
Variable mapOrder : gset mh → list mh.
Hypothesis mapOrder_perm : ∀ X, mapOrder X ≡ₚ elements X.
Implicit Types (items : list (Z * mh)) (X : gset mh).

Notation bufStep := (bufStep mhBytes mhCast mapOrder).

(** The items of the queue. *)
Definition itemBytes (item : Z * mh) : bytes := toBytes mhBytes item.1 item.2.

(** The keys after a batch. *)
Definition batchKeys X (o : operations) : gset mh :=
  (X ∪ list_to_set (op_forceStart o) ∪ list_to_set (op_start o)) ∖ op_stop o.

Lemma addOperation_keys X o op (h : mh) : batchKeys X (addOperation o op h) = itemKeys (batchKeys X o) (op, h).
Proof.
  unfold addOperation, itemKeys, batchKeys, startProvidingOp, forceStartProvidingOp, stopProvidingOp, provideOnceOp. cbn [fst snd].
  destruct (decide (op = 0%Z)) as [->|H0]; [by rewrite !decide_False by lia|].
  destruct (decide (op = 1%Z)) as [->|H1].
  { rewrite decide_True by lia. cbn. rewrite list_to_set_app_L. cbn. apply set_eq. intros x. destruct (decide (x = h)); set_solver. }
  destruct (decide (op = 2%Z)) as [->|H2].
  { rewrite decide_True by lia. cbn. rewrite list_to_set_app_L. cbn. apply set_eq. intros x. destruct (decide (x = h)); set_solver. }
  rewrite (decide_False (P := _ ∨ _)) by lia. destruct (decide (op = 3%Z)); [|done]. cbn. set_solver.
Qed.

Lemma addOperation_once o op (h : mh) :
  op_provideOnce (addOperation o op h) = op_provideOnce o ++ (if decide (op = provideOnceOp) then [h] else []).
Proof. unfold addOperation. repeat case_decide; cbn; by rewrite ?app_nil_r. Qed.

Lemma operationsLoop_spec items o :
  ∃ o', operationsLoop mhCast (itemBytes <$> items) o = Some (Some o') ∧
    (∀ X, batchKeys X o' = foldl itemKeys (batchKeys X o) items) ∧
    op_provideOnce o' = op_provideOnce o ++ (filter (λ i, i.1 = provideOnceOp) items).*2.
Proof.
  revert o. induction items as [|[op h] items IH]; intros o.
  { exists o. cbn. by rewrite app_nil_r. }
  rewrite fmap_cons. cbn [operationsLoop itemBytes toBytes fromBytes fst snd mbind option_bind]. rewrite mhCast_bytes.
  cbn [fmap option_fmap option_map]. destruct (IH (addOperation o op h)) as (o' & -> & Hk & Ho). exists o'. split_and!; [done| |].
  - intros X. cbn [foldl]. by rewrite Hk, addOperation_keys.
  - rewrite Ho, addOperation_once, filter_cons. cbn [fst]. case_decide; cbn; by rewrite <-app_assoc.
Qed.

Lemma executeOp_keys (f : PROV → list mh → PROV * bool) (g : gset mh → gset mh → gset mh) p l :
  (∀ p l, prov_keys (f p l).1 = g (prov_keys p) (list_to_set l)) → (∀ X, g X ∅ = X) →
  prov_keys (executeOp f p l) = g (prov_keys p) (list_to_set l).
Proof. intros Hf Hg. destruct l; cbn [executeOp]; [by rewrite Hg|by rewrite Hf]. Qed.

Lemma executeOperations_keys p o :
  provSucceeds mh → prov_keys (executeOperations mapOrder p o) = batchKeys (prov_keys p) o.
Proof.
  intros [Hstart Hstop]. unfold executeOperations, batchKeys.
  rewrite (executeOp_keys _ (λ X Y, X ∖ Y)) by (intros; (by apply StopProviding_keys) || set_solver).
  rewrite (executeOp_keys _ (λ X Y, X)) by (done || apply ProvideOnce_keys).
  rewrite (executeOp_keys _ (λ X Y, X ∪ Y)) by (intros; (by apply StartProviding_keys) || set_solver).
  rewrite (executeOp_keys _ (λ X Y, X ∪ Y)) by (intros; (by apply StartProviding_keys) || set_solver).
  f_equal. apply set_eq. intros x. by rewrite elem_of_list_to_set, mapOrder_perm, elem_of_elements.
Qed.

Lemma getOperations_spec items :
  ∃ o, getOperations mhCast (itemBytes <$> items) = Some (Some o) ∧
    (provSucceeds mh → ∀ p, prov_keys (executeOperations mapOrder p o) = foldl itemKeys (prov_keys p) items) ∧
    op_provideOnce o = (filter (λ i, i.1 = provideOnceOp) items).*2.
Proof.
  destruct (operationsLoop_spec items (mkOperations [] [] [] ∅)) as (o & Ho & Hk & Hp). exists o. split_and!; [done| |done].
  intros Hp' p. rewrite executeOperations_keys, Hk by done. f_equal. unfold batchKeys. cbn. set_solver.
Qed.

(** C19: A batch has the effect of its operations one by one.  Whatever
    operations are in the batch and in whatever order, [getOperations] parses
    them, and with a provider that accepts the keys the four calls that the worker makes leave exactly the keys
    reprovided that the operations leave one by one in their order; the keys to
    provide once are those of the batch, in order. *)
Theorem getOperations_sequential items p :
  provSucceeds mh →
  ∃ o, getOperations mhCast (itemBytes <$> items) = Some (Some o) ∧
    prov_keys (executeOperations mapOrder p o) = foldl itemKeys (prov_keys p) items ∧
    op_provideOnce o = (filter (λ i, i.1 = provideOnceOp) items).*2.
Proof. intros Hs. destruct (getOperations_spec items) as (o & H1 & H2 & H3). exists o. split_and!; auto. Qed.

(** ** The worker *)

(** The states that can be reached on a queue that holds items of an earlier
    run. *)
Inductive bufReach (p : PROV) (q : QUEUE) (n : nat) : SweepingProvider → Prop :=
| bufReach_new : bufReach p q n (NewBuffered p q n)
| bufReach_step s ev s' : bufReach p q n s → bufStep s ev = Some (Some s') → bufReach p q n s'.

(** The worker waits until [newItems] or [closed]. *)
Definition asleep (s : SweepingProvider) : Prop :=
  b_phase s = AtSelect ∧ b_emptyQueue s = true ∧ b_newItems s = false.

Definition bufInv (n : nat) (s : SweepingProvider) : Prop :=
  b_batchSize s = n ∧ (b_phase s = AtGet → b_emptyQueue s = false) ∧
  (∃ items, q_items (b_queue s) = itemBytes <$> items) ∧
  (asleep s → q_items (b_queue s) = [] ∨ b_calls s ≠ []).

Lemma workerGet_spec n s :
  bufInv n s → b_phase s = AtGet →
  ∃ s', workerGet mhCast mapOrder s = Some s' ∧ bufInv n s' ∧
    ∀ items l, provSucceeds mh → q_items (b_queue s) = itemBytes <$> items → (q_GetN (b_queue s) n).2 = Some l →
      q_items (b_queue s') = itemBytes <$> drop n items ∧
      prov_keys (b_prov s') = foldl itemKeys (prov_keys (b_prov s)) (take n items) ∧
      b_phase s' = AtSelect ∧ b_closed s' = b_closed s ∧ (b_emptyQueue s' = false ∨ drop n items = []).
Proof.
  intros (Hn & Hg & (items & Hi) & _) Hp. unfold workerGet. rewrite Hn.
  pose proof (q_GetN_items (b_queue s) n) as Hq. pose proof (q_GetN_failed (b_queue s) n) as Hf.
  destruct (q_GetN (b_queue s) n) as [q [res|]]; cbn [fst snd] in *.
  - destruct (Hq res eq_refl) as [Hres Hqi]. rewrite Hi in Hres, Hqi. rewrite <-fmap_take in Hres. rewrite <-fmap_drop in Hqi.
    subst res. destruct (getOperations_spec (take n items)) as (o & -> & Hk & _). cbn [mbind option_bind].
    assert ((if decide (length (itemBytes <$> take n items) < n) then true else b_emptyQueue s) = false ∨ drop n items = []) as He.
    { case_decide as Hl; [right|left; by apply Hg]. rewrite length_fmap, length_take in Hl. apply drop_ge. lia. }
    eexists. split; [done|]. split.
    + split_and!; cbn; [done|done|by eexists|]. intros (_ & He' & _). cbn in He'. left.
      destruct He as [He|He]; [congruence|]. by rewrite Hqi, He.
    + intros items' l Hok Hi' _. cbn. rewrite Hi in Hi'.
      assert (items' = items) as ->.
      { apply (list_fmap_eq_inj itemBytes); [|done]. intros [o1 h1] [o2 h2] [= -> Hb].
        f_equal. apply (inj Some). rewrite <-!mhCast_bytes. by rewrite Hb. }
      split_and!; auto.
  - eexists. split; [done|]. split; [|done]. split_and!; cbn; [done|done|exists items; by rewrite Hf|].
    intros (_ & He & _). cbn in He. rewrite Hg in He; done.
Qed.

Lemma bufStep_inv n s ev :
  (∀ q x, (q_Put q x).2 = true) → bufInv n s →
  ∃ r, bufStep s ev = Some r ∧ ∀ s', r = Some s' → bufInv n s'.
Proof.
  intros Hput Hinv. pose proof Hinv as (Hn & Hg & (items & Hi) & Hs). destruct ev as [op keys|i|i| | | | | | | |]; cbn [bufStep].
  - eexists. split; [done|]. intros s' [= <-]. split_and!; [done|done|by exists items|]. intros _. right. cbn. by destruct (b_calls s).
  - destruct (b_calls s !! i) as [[op [|h keys]]|] eqn:Hc; [by eexists|..|by eexists].
    pose proof (q_Put_items (b_queue s) (toBytes mhBytes op h)) as Hq. rewrite Hput in Hq. specialize (Hput (b_queue s) (toBytes mhBytes op h)).
    destruct (q_Put _ _) as [q ok]. cbn in *. subst ok. eexists. split; [done|]. intros s' [= <-].
    split_and!; [done|done|exists (items ++ [(op, h)]); by rewrite fmap_app, <-Hi|]. intros _. right. cbn.
    intros He%(f_equal length). rewrite length_insert in He. apply lookup_lt_Some in Hc. cbn in He. lia.
  - destruct (b_calls s !! i) as [[op [|h keys]]|] eqn:Hc; [|by eexists..]. eexists. split; [done|]. intros s' [= <-].
    split_and!; [done|done|by exists items|]. by intros (_ & _ & He).
  - destruct (b_phase s) eqn:Hp; [|by eexists..]. eexists. split; [done|]. intros s'. destruct (b_newItems s); [|done]. intros [= <-].
    split_and!; [done|done|by exists items|]. by intros (He & _ & _).
  - destruct (b_phase s) eqn:Hp; [|by eexists..]. eexists. split; [done|]. intros s'. destruct (_ || _); [done|]. intros [= <-].
    split_and!; [done|done|by exists items|]. by intros (He & _ & _).
  - destruct (b_phase s) eqn:Hp; [|by eexists..]. eexists. split; [done|]. intros s'. destruct (b_closed s); [|done]. intros [= <-].
    split_and!; [done|done|by exists items|]. by intros (He & _ & _).
  - destruct (b_phase s) eqn:Hp; [by eexists| |by eexists]. destruct (workerGet_spec n s Hinv Hp) as (s' & -> & Hinv' & _).
    eexists. split; [done|]. by intros ? [= <-].
  - eexists. split; [done|]. intros s' [= <-]. by split_and!; [..|exists items|].
  - destruct (b_closed s); [|by eexists]. pose proof (q_Close_items (b_queue s)) as Hq. destruct (q_Close _) as [q ok].
    destruct (prov_Close _) as [p' ok']. cbn in Hq. eexists. split; [done|]. intros s' [= <-].
    split_and!; [done|done|exists items; by rewrite <-Hi|]. intros Ha. cbn. rewrite Hq. by apply Hs.
  - eexists. split; [done|]. intros s' [= <-]. by split_and!; [..|exists items|].
  - eexists. split; [done|]. intros s' [= <-]. by split_and!; [..|exists items|].
Qed.

Lemma bufReach_inv p q n items s :
  (∀ q x, (q_Put q x).2 = true) → q_items q = itemBytes <$> items → bufReach p q n s → bufInv n s.
Proof.
  intros Hput Hq. induction 1 as [|s ev s' _ IH Hs].
  - split_and!; [done|done|by exists items|]. by intros (_ & He & _).
  - destruct (bufStep_inv n s ev Hput IH) as (r & Hr & Hinv). rewrite Hs in Hr. injection Hr as <-. by apply Hinv.
Qed.

(** No operation is forgotten.  On a queue that holds operations of an
    earlier run and accepts all puts, no interleaving of callers and worker
    panics, and whenever the worker waits for new items the queue is empty or
    some call to [enqueue] has not returned and will signal it. *)
Theorem buffered_no_lost_wakeup p q n items s ev :
  (∀ q x, (q_Put q x).2 = true) → q_items q = itemBytes <$> items → bufReach p q n s →
  is_Some (bufStep s ev) ∧ (asleep s → q_items (b_queue s) = [] ∨ b_calls s ≠ []).
Proof.
  intros Hput Hq Hr. pose proof (bufReach_inv p q n items s Hput Hq Hr) as Hinv. split; [|apply Hinv].
  destruct (bufStep_inv n s ev Hput Hinv) as (r & -> & _). done.
Qed.

(** The steps of the worker. *)
Definition workerEvent (ev : bufEvent (mh := mh)) : Prop := ev = BufNewItems ∨ ev = BufDefault ∨ ev = BufGet.

Definition bufRun (s : SweepingProvider) (evs : list (bufEvent (mh := mh))) : option SweepingProvider :=
  foldM (λ s ev, r ← bufStep s ev; r) s evs.

(** An iteration of the worker. *)
Lemma worker_iteration n s items :
  provSucceeds mh → bufInv n s → b_phase s = AtSelect → b_closed s = false → b_emptyQueue s = false →
  q_items (b_queue s) = itemBytes <$> items → is_Some (q_GetN (b_queue s) n).2 →
  ∃ evs s', bufRun s evs = Some s' ∧ length evs = 2 ∧ Forall workerEvent evs ∧ bufInv n s' ∧ b_phase s' = AtSelect ∧
    b_closed s' = false ∧ q_items (b_queue s') = itemBytes <$> drop n items ∧
    prov_keys (b_prov s') = foldl itemKeys (prov_keys (b_prov s)) (take n items) ∧
    (b_emptyQueue s' = false ∨ drop n items = []).
Proof.
  intros Hok Hinv Hp Hc He Hi [l Hl]. pose proof Hinv as (Hn & _ & Hex & _).
  set (s1 := mkBuffered (b_closed s) false (b_prov s) (b_queue s) (b_batchSize s) false AtGet (b_calls s)).
  assert (bufInv n s1) as Hinv1 by (split_and!; [done|done|done|by intros (? & _)]).
  destruct (workerGet_spec n s1 Hinv1 eq_refl) as (s2 & Hg & Hinv2 & Hs2).
  destruct (Hs2 items l Hok Hi Hl) as (H1 & H2 & H3 & H4 & H5).
  exists [if b_newItems s then BufNewItems else BufDefault; BufGet], s2. split_and!; try done.
  - unfold bufRun. cbn [foldM mbind option_bind].
    assert (bufStep s (if b_newItems s then BufNewItems else BufDefault) = Some (Some s1)) as ->.
    { unfold s1. destruct (b_newItems s) eqn:Hni; cbn [bufStep]; rewrite Hp, ?Hni, ?Hc, ?He; cbn; rewrite ?Hni; done. }
    cbn [mbind option_bind bufStep b_phase s1]. fold s1. rewrite Hg. done.
  - constructor; [|constructor; [right; by right|constructor]]. destruct (b_newItems s); [by left|right; by left].
  - by rewrite H4.
Qed.

(** The worker executes everything.  If the queue can be read and
    the provider accepts the keys, the worker
    of an open provider that is not waiting empties the queue in two steps for
    each batch, and the keys that are then reprovided are those that all the
    queued operations leave one by one. *)
Theorem buffered_drains p q n items0 s items :
  provSucceeds mh → (∀ q x, (q_Put q x).2 = true) → q_items q = itemBytes <$> items0 → bufReach p q n s → 0 < n →
  (∀ q, is_Some (q_GetN q n).2) →
  b_phase s = AtSelect → b_closed s = false → b_emptyQueue s = false → q_items (b_queue s) = itemBytes <$> items →
  ∃ evs s', bufRun s evs = Some s' ∧ Forall workerEvent evs ∧ length evs ≤ 2 * S (length items / n) ∧
    q_items (b_queue s') = [] ∧ prov_keys (b_prov s') = foldl itemKeys (prov_keys (b_prov s)) items.
Proof.
  intros Hok Hput Hq Hr Hn Hget. pose proof (bufReach_inv p q n items0 s Hput Hq Hr) as Hinv. clear Hr.
  remember (length items) as k eqn:Hk. revert s items Hk Hinv.
  induction (lt_wf k) as [k _ IH]; intros s items Hk Hinv Hp Hc He Hi. destruct (decide (items = [])) as [->|Hne].
  { exists [], s. split_and!; [done|constructor|cbn; lia|done|done]. }
  destruct (worker_iteration n s items Hok Hinv Hp Hc He Hi (Hget _)) as (evs & s1 & Hrun & Hlen & Hev & Hinv1 & Hp1 & Hc1 & Hi1 & Hk1 & He1).
  assert (0 < length items) as Hpos by (destruct items; [done|cbn; lia]).
  destruct (decide (drop n items = [])) as [Hd|Hd].
  { exists evs, s1. split_and!; [done|done|lia|by rewrite Hi1, Hd|]. rewrite Hk1. f_equal.
    rewrite <-(take_drop n items) at 2. by rewrite Hd, app_nil_r. }
  destruct He1 as [He1|]; [|done]. assert (n < length items) as Hlt by (destruct (decide (length items ≤ n)); [by rewrite drop_ge in Hd|lia]).
  destruct (IH (length (drop n items))) with (s := s1) (items := drop n items) as (evs2 & s2 & Hrun2 & Hev2 & Hlen2 & Hq2 & Hk2); try done.
  { rewrite length_drop. lia. }
  exists (evs ++ evs2), s2. split_and!; [|by apply Forall_app| |done|].
  - unfold bufRun in *. rewrite foldM_app, Hrun. exact Hrun2.
  - rewrite length_app, Hlen. rewrite length_drop in Hlen2.
    replace (length items) with (length items - n + 1 * n) in Hk by lia. rewrite Hk, Nat.div_add by lia. lia.
  - rewrite Hk2, Hk1, <-foldl_app, take_drop. done.
Qed.
End laws.

(** ** Concrete runs *)

(** A provider that is the set of its keys, and a queue that fails as a list of
    booleans says. *)
#[local] Instance setProvider : ProviderIface (bool * bool) := {
  PROV := gset (bool * bool);
  prov_StartProviding p _ l := (p ∪ list_to_set l, true);
  prov_StopProviding p l := (p ∖ list_to_set l, true);
  prov_ProvideOnce p _ := (p, true);
  prov_Clear p := (p, 0);
  prov_RefreshSchedule p := (p, true);
  prov_Close p := (p, true);
  prov_keys p := p;
}.

#[local] Instance setProvider_laws : ProviderLaws (bool * bool).
Proof. by split. Qed.

#[local] Instance listQueue (fails : bool) : QueueLib := {
  QUEUE := list bytes;
  q_Put q x := if fails && bool_decide (length q = 1) then (q, false) else (q ++ [x], true);
  q_GetN q n := (drop n q, Some (take n q));
  q_Close q := (q, true);
  q_items q := q;
}.

#[local] Instance listQueue_laws fails : QueueLaws (H := listQueue fails).
Proof. split; cbn; [intros; by destruct (_ && _)|by intros q n l [= <-]|done|done]. Qed.

Definition demoBytes2 (h : bool * bool) : bytes := [Z.b2z h.1; Z.b2z h.2].
Definition demoCast (bs : bytes) : option (bool * bool) :=
  match bs with [a; b] => Some (Z.eqb a 1, Z.eqb b 1) | _ => None end.

Lemma demoCast_bytes h : demoCast (demoBytes2 h) = Some h.
Proof. by destruct h as [[] []]. Qed.

Definition demoBuffered (fails : bool) : SweepingProvider (PI := setProvider) (QL := listQueue fails) :=
  NewBuffered (PI := setProvider) (QL := listQueue fails) (∅ : gset (bool * bool)) ([] : list bytes) 2.

Lemma elements_order (X : gset (bool * bool)) : elements X ≡ₚ elements X.
Proof. done. Qed.

Lemma buffered_no_lost_wakeup_witness :
  is_Some (bufStep demoBytes2 demoCast elements (demoBuffered false) BufDefault) ∧
  (asleep (demoBuffered false) → q_items (b_queue (demoBuffered false)) = [] ∨ b_calls (demoBuffered false) ≠ []).
Proof.
  apply (buffered_no_lost_wakeup (PI := setProvider) (QL := listQueue false) demoBytes2 demoCast demoCast_bytes elements elements_order
    (∅ : gset (bool * bool)) ([] : list bytes) 2 []); [done|done|constructor].
Defined.

(** Three operations of an earlier run, taken in batches of two. *)
Definition demoItems : list (Z * (bool * bool)) := [(1, (true, true)); (3, (true, true)); (2, (false, true))]%Z.

Definition demoRestart : SweepingProvider (PI := setProvider) (QL := listQueue false) :=
  NewBuffered (PI := setProvider) (QL := listQueue false) (∅ : gset (bool * bool)) (itemBytes demoBytes2 <$> demoItems) 2.

Lemma buffered_drains_witness :
  ∃ evs s', bufRun demoBytes2 demoCast elements demoRestart evs = Some s' ∧ Forall workerEvent evs ∧
    length evs ≤ 2 * S (length demoItems / 2) ∧ q_items (b_queue s') = [] ∧
    prov_keys (b_prov s') = foldl itemKeys (prov_keys (b_prov demoRestart)) demoItems.
Proof.
  apply (buffered_drains (PI := setProvider) (QL := listQueue false) demoBytes2 demoCast demoCast_bytes elements elements_order
    (∅ : gset (bool * bool)) (itemBytes demoBytes2 <$> demoItems) 2 demoItems); [done|done|done|constructor|lia|by eexists|done..].
Defined.

Lemma getOperations_sequential_witness :
  ∃ o, getOperations demoCast (itemBytes demoBytes2 <$> [(1, (true, true)); (3, (true, true)); (0, (false, true))]%Z) = Some (Some o) ∧
    prov_keys (executeOperations (PI := setProvider) elements (∅ : gset (bool * bool)) o) =
      foldl itemKeys (∅ : gset (bool * bool)) [(1, (true, true)); (3, (true, true)); (0, (false, true))]%Z ∧
    op_provideOnce o = (filter (λ i, i.1 = provideOnceOp) [(1, (true, true)); (3, (true, true)); (0, (false, true))]%Z).*2.
Proof.
  apply (getOperations_sequential (PI := setProvider) (QL := listQueue false) demoBytes2 demoCast demoCast_bytes elements elements_order _
    (∅ : gset (bool * bool))). done.
Defined.

(** When a put fails, [enqueue] returns without a signal: the keys before it
    are in the queue, the worker waits and no call is pending. *)
Theorem enqueue_error_no_signal :
  match bufRun demoBytes2 demoCast elements (demoBuffered true)
    [BufDefault; BufGet; BufEnqueue 1 [(true, false); (false, true)]; BufPut 0; BufPut 0] with
  | Some s => asleep s ∧ length (q_items (b_queue s)) = 1 ∧ b_calls s = []
  | None => False
  end.
Proof. by vm_compute. Qed.

(** An item that cannot be parsed makes the worker drop its whole batch. *)
Theorem getOperations_drops_batch :
  getOperations demoCast [toBytes demoBytes2 startProvidingOp (true, true); [1; 7]%Z] = Some None.
Proof. by vm_compute. Qed.
