(* ===== verification/TimeSeries.v ===== *)
(** * Time series

    [provider/internal/timeseries]: [TimeSeries] on [int64] values
    ([series.go]) and [CycleStats] ([cycle_stats.go]), the statistics of the
    regions of a reprovide cycle.  The time is an argument of the operations.
    [None] is a panic.

    An average is the pair of its numerator and denominator, [None] for the 0
    of an empty series; the division of floating-point numbers is left out. *)

From S2P Require Import Prelude Key Trie TrieImpl TrieSet Deque GoTime.

(** ** TimeSeries *)

Record timeEntry := mkTimeEntry { te_timestamp : Z; te_value : Z; te_weight : Z }.

Section series.
Context {DL : DequeLib}.
Local Open Scope Z_scope.

Record TimeSeries := mkTimeSeries {
  ts_data : Deque timeEntry;
  ts_retention : Z;
  ts_weighted : bool;
}.

(** [NewTimeSeries] and [NewWeightedTimeSeries] *)
Definition NewTimeSeries (retention : Z) : TimeSeries := mkTimeSeries dq_zero retention false.
Definition NewWeightedTimeSeries (retention : Z) : TimeSeries := mkTimeSeries dq_zero retention true.

(** The loop of [gc], at most one iteration for each entry. *)
Fixpoint gcLoop (n : nat) (data : Deque timeEntry) (cutoff : Z) : Deque timeEntry :=
  match n with
  | O => data
  | S n =>
      match dq_PopFront data with
      | None => data
      | Some (front, data') => if decide (te_timestamp front < cutoff) then gcLoop n data' cutoff else data
      end
  end.

(** [gc] *)
Definition gc (t : TimeSeries) (now : Z) : TimeSeries :=
  mkTimeSeries (gcLoop (dq_Len (ts_data t)) (ts_data t) (time_Add now (- ts_retention t)))
    (ts_retention t) (ts_weighted t).

(** [AddWeighted] and [Add] *)
Definition AddWeighted (t : TimeSeries) (value weight now : Z) : TimeSeries :=
  let weight := if ts_weighted t then weight else 1 in
  gc (mkTimeSeries (dq_PushBack (ts_data t) (mkTimeEntry now value weight)) (ts_retention t) (ts_weighted t)) now.

Definition ts_Add (t : TimeSeries) (value now : Z) : TimeSeries := AddWeighted t value 1 now.

(** One iteration of the loop of [sumUnlocked]. *)
Definition sumStep (weighted : bool) (sum : Z) (e : timeEntry) : Z :=
  wrap64 (sum + (if weighted then wrap64 (te_value e * te_weight e) else te_value e)).

(** [sumUnlocked] and [Sum] *)
Definition sumUnlocked (t : TimeSeries) (now : Z) : TimeSeries * Z :=
  let t := gc t now in
  (t, foldl (sumStep (ts_weighted t)) 0 (dq_Iter (ts_data t))).

Definition ts_Sum (t : TimeSeries) (now : Z) : TimeSeries * Z := sumUnlocked t now.

(** [Avg]; it reads the clock a second time in [sumUnlocked]. *)
Definition ts_Avg (t : TimeSeries) (now now' : Z) : TimeSeries * option (Z * Z) :=
  let t := gc t now in
  let length := Z.of_nat (dq_Len (ts_data t)) in
  if decide (length = 0) then (t, None)
  else if ts_weighted t then
    let weightedSum := foldl (sumStep true) 0 (dq_Iter (ts_data t)) in
    let totalWeight := foldl (λ w e, wrap64 (w + te_weight e)) 0 (dq_Iter (ts_data t)) in
    if decide (totalWeight = 0) then (t, None) else (t, Some (weightedSum, totalWeight))
  else
    let '(t, sum) := sumUnlocked t now' in (t, Some (sum, length)).

(** [Count] *)
Definition ts_Count (t : TimeSeries) (now : Z) : TimeSeries * nat :=
  let t := gc t now in (t, dq_Len (ts_data t)).
End series.

(** ** CycleStats *)

Record csEntry := mkCsEntry { ce_time : Z; ce_val : Z }.

Record CycleStats := mkCycleStats {
  cs_trie : trie csEntry;
  cs_queue : trie csEntry;
  cs_maxDelay : Z;
}.

Section cycle.
Context {TL : TrieLib}.

(** [NewCycleStats] *)
Definition NewCycleStats (maxDelay : Z) : CycleStats := mkCycleStats Empty Empty maxDelay.

(** The entries of a list are added one by one. *)
Definition addEntries (t : trie csEntry) (es : list (key * csEntry)) : trie csEntry :=
  foldl (λ t e, trie_Add t e.1 e.2) t es.

(** One iteration of the loop of [Cleanup]. *)
Definition cleanupStep (queue : trie csEntry) (deadline now : Z) (t : trie csEntry) (e : key * csEntry)
    : option (trie csEntry) :=
  if decide (time_Add (ce_time e.2) deadline < now)%Z then
    let t := trie_Remove t e.1 in
    let '(subtrie, ok) := FindSubtrie queue e.1 in
    if ok : bool then
      qes ← EntriesIter subtrie zeroKey;
      Some (addEntries t qes)
    else Some t
  else Some t.

(** [Cleanup] *)
Definition Cleanup (s : CycleStats) (deadline now : Z) : option CycleStats :=
  es ← AllEntries (cs_trie s) zeroKey;
  t ← foldM (cleanupStep (cs_queue s) deadline now) (cs_trie s) es;
  Some (mkCycleStats t (cs_queue s) (cs_maxDelay s)).

(** The queue part of [Add]: the queue with the new entry, or [None] if a
    recent entry covers it. *)
Definition queueAdd (s : CycleStats) (prefix : key) (e : csEntry) (now : Z) : option (option (trie csEntry)) :=
  '(queuePrefix, ok) ← FindPrefixOfKey (cs_queue s) prefix;
  if ok : bool then
    let old := default (mkCsEntry zeroTime 0) (trie_Find (cs_queue s) queuePrefix) in
    if decide (time_Sub now (ce_time old) < cs_maxDelay s)%Z then Some None
    else
      q ← PruneSubtrie (cs_queue s) queuePrefix;
      Some (Some (trie_Add q prefix e))
  else
    q ← PruneSubtrie (cs_queue s) prefix;
    Some (Some (trie_Add q prefix e)).

(** [Add] *)
Definition cs_Add (s : CycleStats) (prefix : key) (val now : Z) : option CycleStats :=
  let e := mkCsEntry now val in
  let '(_, ok) := FindSubtrie (cs_trie s) prefix in
  if ok : bool then
    t ← PruneSubtrie (cs_trie s) prefix;
    Some (mkCycleStats (trie_Add t prefix e) (cs_queue s) (cs_maxDelay s))
  else
    '(target, ok) ← FindPrefixOfKey (cs_trie s) prefix;
    if negb ok then Some (mkCycleStats (trie_Add (cs_trie s) prefix e) (cs_queue s) (cs_maxDelay s))
    else
      q ← queueAdd s prefix e now;
      match q with
      | None => Some s
      | Some queue =>
          let s := mkCycleStats (cs_trie s) queue (cs_maxDelay s) in
          let '(subtrie, ok) := FindSubtrie queue target in
          if negb ok then Some s
          else
            covered ← KeyspaceCovered subtrie;
            if negb covered then Some s
            else
              t ← PruneSubtrie (cs_trie s) target;
              es ← EntriesIter subtrie zeroKey;
              Some (mkCycleStats (addEntries t es) queue (cs_maxDelay s))
      end.

(** [Sum], [Avg], [Count], [FullyCovered] *)
Definition cs_Sum (s : CycleStats) : option Z :=
  vs ← ValuesIter (cs_trie s) zeroKey;
  Some (foldl (λ sum v, wrap64 (sum + ce_val v)) 0%Z vs).

Definition cs_Avg (s : CycleStats) : option (option (Z * Z)) :=
  if IsEmptyLeaf (cs_trie s) then Some None
  else
    vs ← ValuesIter (cs_trie s) zeroKey;
    Some (Some (foldl (λ sum v, wrap64 (sum + ce_val v)) 0%Z vs, Z.of_nat (length vs))).

Definition cs_Count (s : CycleStats) : nat := trie_Size (cs_trie s).

Definition FullyCovered (s : CycleStats) : option bool := KeyspaceCovered (cs_trie s).
End cycle.

(** ** Time series: the window *)

Section seriesLaws.
Context {DL : DequeLib} {DW : DequeLaws}.
Local Open Scope Z_scope.
Implicit Types (t : TimeSeries).

(** The entries are in the order of their times, as a monotonic clock gives. *)
Definition ts_sorted t : Prop := StronglySorted (λ a b, te_timestamp a ≤ te_timestamp b) (dq_Iter (ts_data t)).

(** The entries of the retention window. *)
Definition window t (now : Z) : list timeEntry :=
  filter (λ e, now - ts_retention t ≤ te_timestamp e) (dq_Iter (ts_data t)).

Lemma gcLoop_spec n (data : Deque timeEntry) cutoff :
  StronglySorted (λ a b, te_timestamp a ≤ te_timestamp b) (dq_Iter data) → (length (dq_Iter data) ≤ n)%nat →
  dq_Iter (gcLoop n data cutoff) = filter (λ e, cutoff ≤ te_timestamp e) (dq_Iter data).
Proof.
  revert data. induction n as [|n IH]; intros data Hs Hn; cbn [gcLoop].
  { destruct (dq_Iter data); [done|cbn in Hn; lia]. }
  pose proof (PopFront_Iter _ data) as Hp. destruct (dq_Iter data) as [|x l] eqn:E; [by rewrite Hp, E|].
  destruct Hp as (d' & -> & Hd'). apply StronglySorted_inv in Hs as [Hs Hx]. rewrite filter_cons. case_decide as Hc.
  - rewrite decide_False by lia. rewrite IH, Hd'; [done|by rewrite Hd'|rewrite Hd'; cbn in Hn; lia].
  - rewrite decide_True, E by lia. f_equal. symmetry. apply list_filter_all. rewrite Forall_forall in Hx.
    intros y Hy. specialize (Hx y Hy). lia.
Qed.

Lemma gc_spec t now : ts_sorted t → dq_Iter (ts_data (gc t now)) = window t now.
Proof.
  intros Hs. unfold gc, window. cbn. rewrite gcLoop_spec; [|done|by rewrite Len_Iter].
  apply list_filter_ext. intros e _. unfold time_Add. lia.
Qed.

Lemma StronglySorted_filter (l : list timeEntry) (P : timeEntry → Prop) `{∀ e, Decision (P e)} :
  StronglySorted (λ a b, te_timestamp a ≤ te_timestamp b) l →
  StronglySorted (λ a b, te_timestamp a ≤ te_timestamp b) (filter P l).
Proof.
  induction 1 as [|e l Hs IH He]; [constructor|]. rewrite filter_cons. case_decide; [|done].
  constructor; [done|]. rewrite Forall_forall in *. intros e'. rewrite list_elem_of_filter. naive_solver.
Qed.

(** What the window adds up to, modulo the width of [int64]. *)
Definition windowSum (weighted : bool) (l : list timeEntry) : Z :=
  foldr (λ e sum, (if weighted then te_value e * te_weight e else te_value e) + sum) 0 l.

Lemma wrap64_wrap a b : wrap64 (wrap64 a + b) = wrap64 (a + b).
Proof.
  unfold wrap64. f_equal. replace ((a + 2 ^ 63) `mod` 2 ^ 64 - 2 ^ 63 + b + 2 ^ 63) with ((a + 2 ^ 63) `mod` 2 ^ 64 + b) by lia.
  rewrite Zplus_mod_idemp_l. f_equal. lia.
Qed.

Lemma sum_spec weighted l acc : foldl (sumStep weighted) (wrap64 acc) l = wrap64 (acc + windowSum weighted l).
Proof.
  revert acc. induction l as [|e l IH]; intros acc; cbn [foldl windowSum foldr]; [by rewrite Z.add_0_r|].
  fold (windowSum weighted l). unfold sumStep at 2. rewrite wrap64_wrap. destruct weighted.
  - rewrite (Z.add_comm acc (wrap64 _)), wrap64_wrap, IH. f_equal. lia.
  - rewrite IH. f_equal. lia.
Qed.

(** The operations of a series see exactly its retention window: with a
    monotonic clock, [Sum] is the sum of the values not older than the
    retention period (modulo 2^64), [Count] their number, and the entries stay
    sorted. *)
Theorem TimeSeries_window t now :
  ts_sorted t →
  (ts_Sum t now).2 = wrap64 (windowSum (ts_weighted t) (window t now)) ∧
  (ts_Count t now).2 = length (window t now) ∧
  ts_sorted (gc t now) ∧
  (∀ v w, (∀ e, e ∈ dq_Iter (ts_data t) → te_timestamp e ≤ now) → ts_sorted (AddWeighted t v w now)).
Proof.
  intros Hs. pose proof (gc_spec t now Hs) as Hg.
  assert (∀ t, ts_sorted t → ts_sorted (gc t now)) as Hgs.
  { intros t' Hs'. unfold ts_sorted. rewrite gc_spec by done. by apply StronglySorted_filter. }
  split_and!.
  - unfold ts_Sum, sumUnlocked. cbn [snd]. rewrite Hg. change 0 with (wrap64 0). rewrite sum_spec. done.
  - unfold ts_Count. cbn [snd]. by rewrite Len_Iter, Hg.
  - by apply Hgs.
  - intros v w Hle. unfold AddWeighted. apply Hgs. unfold ts_sorted. cbn. rewrite Iter_PushBack.
    apply StronglySorted_app_2; [|done|by repeat constructor]. intros x y Hx ->%list_elem_of_singleton. by apply Hle.
Qed.
End seriesLaws.

(** ** CycleStats: the invariant and the two operations *)

Section cycleLaws.
Context {TL : TrieLib} {TLW : TrieLaws}.
Implicit Types (s : CycleStats) (t q : trie csEntry) (k x prefix : key) (e : key * csEntry).

(** The trie and the queue are well-formed tries of prefixes of identifiers. *)
Definition csInv s : Prop :=
  wf (cs_trie s) ∧ bounded KeyLen (cs_trie s) ∧ wf (cs_queue s) ∧ bounded KeyLen (cs_queue s).

#[export] Instance csInv_dec s : Decision (csInv s).
Proof. unfold csInv. apply _. Defined.

Lemma key_entry t k : k ∈ keys t → ∃ d, (k, d) ∈ entries t.
Proof. intros ([k' d] & -> & Hin)%list_elem_of_fmap. eauto. Qed.

Lemma entry_key t e : e ∈ entries t → e.1 ∈ keys t.
Proof. apply list_elem_of_fmap_2. Qed.

(** Pruning below [r] and storing a key below [r]. *)
Lemma replace_spec t r prefix d :
  wf t → bounded KeyLen t → length prefix ≤ KeyLen → r ≼ prefix →
  (∀ k, k ∈ keys t → ¬ r ≼ k → ¬ overlap prefix k) →
  ∃ t', PruneSubtrie t r = Some t' ∧ wf (trie_Add t' prefix d) ∧ bounded KeyLen (trie_Add t' prefix d) ∧
    ∀ e, e ∈ entries (trie_Add t' prefix d) ↔ (e ∈ entries t ∧ ¬ r ≼ e.1) ∨ e = (prefix, d).
Proof.
  intros Hw Hb Hl Hr Hs. destruct (PruneSubtrie_spec t r Hw) as (t' & Hp & Hw' & He). exists t'. split; [done|].
  assert (∀ e, e ∈ entries t' ↔ e ∈ entries t ∧ ¬ r ≼ e.1) as He' by (intros e; rewrite He, elem_of_notBelow; tauto).
  assert (∀ k, k ∈ keys t' → ¬ overlap prefix k) as Ho.
  { intros k (d' & [Hin Hn]%He')%key_entry. apply Hs; [by apply (entry_key _ (k, d'))|done]. }
  destruct (Add_extends t' prefix d Hw') as [Hwa Hea].
  { intros k x ->%list_elem_of_singleton Hx. by apply Ho. }
  split; [done|]. split.
  - apply bounded_Add; [done| |by eapply bounded_notBelow|done]. intros k Hk Hov. by destruct (Ho k).
  - intros e. rewrite Hea, He'. tauto.
Qed.

Lemma addEntries_spec t (es : list (key * csEntry)) :
  wf t → antichain es.*1 → NoDup es.*1 → (∀ k x, k ∈ es.*1 → x ∈ keys t → ¬ overlap k x) →
  wf (addEntries t es) ∧ ∀ e, e ∈ entries (addEntries t es) ↔ e ∈ entries t ∨ e ∈ es.
Proof.
  revert t. induction es as [|[k d] es IH]; intros t Hw Ha Hnd Hs.
  { split; [done|]. intros e. rewrite elem_of_nil. tauto. }
  cbn [fmap list_fmap fst] in *. apply NoDup_cons in Hnd as [Hk Hnd].
  destruct (Add_extends t k d Hw) as [Hw' He'].
  { intros k' x ->%list_elem_of_singleton Hx. apply Hs; [left|done]. }
  destruct (IH (trie_Add t k d)) as [Hwf He]; [done| |done| |].
  - intros k1 k2 H1 H2. apply Ha; by right.
  - intros k1 x H1 (d' & [Hx|Hx]%He')%key_entry Ho; [apply (Hs k1 x); [by right|by apply (entry_key _ (x, d'))|done]|].
    injection Hx as -> ->. apply Hk. rewrite <-(Ha k1 k); [done|by right|left|done].
  - split; [done|]. intros e. change (addEntries t ((k, d) :: es)) with (addEntries (trie_Add t k d) es).
    rewrite He, He', elem_of_cons. tauto.
Qed.

(** The entries of a subtrie of the queue replace a key of the trie. *)
Lemma addSubtrie_spec t u k :
  wf t → bounded KeyLen t → wf_at k u → bounded KeyLen u → (∀ x, x ∈ keys t → ¬ overlap k x) →
  EntriesIter u zeroKey = Some (entries u) ∧ wf (addEntries t (entries u)) ∧
  bounded KeyLen (addEntries t (entries u)) ∧
  ∀ e, e ∈ entries (addEntries t (entries u)) ↔ e ∈ entries t ∨ e ∈ entries u.
Proof.
  intros Hw Hb Hu Hbu Hs. split.
  { unfold EntriesIter. rewrite (trieIter_zeroKey k) by done. by rewrite list_fmap_id. }
  destruct (addEntries_spec t (entries u)) as [Hw' He']; [done| | | |].
  - intros k1 k2. by apply (wf_at_antichain k).
  - by eapply wf_at_NoDup.
  - intros k1 x H1 Hx Ho. apply (Hs x Hx). eapply overlap_prefix_l; [|done]. by eapply wf_at_prefix.
  - split; [done|]. split; [|done]. unfold bounded in *. rewrite Forall_forall in *.
    intros x (d & [Hx|Hx]%He')%key_entry; [apply Hb|apply Hbu]; by apply (entry_key _ (x, d)).
Qed.

(** *** Cleanup *)

(** The entry is older than the deadline. *)
Definition expired (deadline now : Z) e : Prop := (time_Add (ce_time e.2) deadline < now)%Z.

#[export] Instance expired_dec deadline now e : Decision (expired deadline now e).
Proof. unfold expired. apply _. Defined.

(** The trie of [Cleanup] when the entries of [l] are still to be visited. *)
Definition cleaned s deadline now (l : list (key * csEntry)) t : Prop :=
  wf t ∧ bounded KeyLen t ∧
  ∀ e, e ∈ entries t ↔
    (e ∈ entries (cs_trie s) ∧ (expired deadline now e → e ∈ l)) ∨
    (e ∈ entries (cs_queue s) ∧ ∃ e0, e0 ∈ entries (cs_trie s) ∧ expired deadline now e0 ∧ e0 ∉ l ∧ e0.1 ≼ e.1).

Lemma entry_unique t e1 e2 : wf t → e1 ∈ entries t → e2 ∈ entries t → overlap e1.1 e2.1 → e1 = e2.
Proof.
  intros Hw H1 H2 Ho. assert (e1.1 = e2.1) as Heq.
  { apply (wf_at_antichain [] t); [done|by apply entry_key..|done]. }
  pose proof (wf_at_NoDup [] t Hw) as Hnd.
  apply list_elem_of_lookup in H1 as [i Hi]. apply list_elem_of_lookup in H2 as [j Hj].
  assert (i = j) as <-; [|congruence].
  apply (NoDup_lookup (keys t) i j e1.1); [done|by rewrite list_lookup_fmap, Hi|by rewrite list_lookup_fmap, Hj, Heq].
Qed.

(** An entry still to be visited overlaps no other one. *)
Lemma cleaned_alone s deadline now l t e0 e :
  wf (cs_trie s) → cleaned s deadline now l t → e0 ∈ l → e0 ∈ entries (cs_trie s) →
  e ∈ entries t → overlap e0.1 e.1 → e = e0.
Proof.
  intros Hw (_ & _ & He) Hl H0 [[Hin _]|(_ & e1 & H1 & _ & Hn & Hp)]%He Ho.
  - symmetry. by apply (entry_unique (cs_trie s)).
  - assert (e1 = e0) as ->; [|done]. apply (entry_unique (cs_trie s)); [done..|].
    eapply overlap_prefix_l; [done|]. by apply overlap_sym.
Qed.

Lemma cleanupStep_spec s deadline now l t e0 :
  csInv s → NoDup (e0 :: l) → e0 ∈ entries (cs_trie s) → cleaned s deadline now (e0 :: l) t →
  ∃ t', cleanupStep (cs_queue s) deadline now t e0 = Some t' ∧ cleaned s deadline now l t'.
Proof.
  intros (Hw & Hb & Hwq & Hbq) [Hni _]%NoDup_cons H0 Hc. unfold cleanupStep. case_decide as Hd.
  2:{ exists t. split; [done|]. destruct Hc as (Hwt & Hbt & He). split_and!; [done..|]. intros e. rewrite He.
      assert (∀ e', expired deadline now e' → e' ≠ e0) as Hne by (by intros ? ? ->).
      setoid_rewrite not_elem_of_cons. setoid_rewrite elem_of_cons. naive_solver. }
  assert (∀ e, e ∈ entries t → overlap e0.1 e.1 → e = e0) as Halone.
  { intros e. apply (cleaned_alone s deadline now (e0 :: l) t); [done|done|by left|done]. }
  destruct Hc as (Hwt & Hbt & He).
  assert (admissible t e0.1) as Hadm.
  { intros k (d & Hk)%key_entry Ho. by rewrite <-(Halone (k, d) Hk Ho). }
  set (t1 := trie_Remove t e0.1). assert (wf t1) as Hw1 by (by apply Remove_wf).
  assert (bounded KeyLen t1) as Hb1 by (by apply bounded_Remove).
  assert (∀ e, e ∈ entries t1 ↔ e ∈ entries t ∧ e ≠ e0) as He1.
  { intros e. unfold t1. rewrite Remove_entries, list_elem_of_filter by done. split; [intros [Hn ?]; split; [done|by intros ->]|].
    intros [Hin Hn]. split; [|done]. intros Heq. apply Hn, Halone; [done|]. rewrite Heq. apply overlap_refl. }
  assert (∀ x, x ∈ keys t1 → ¬ overlap e0.1 x) as Hsep.
  { intros x (d & [Hx Hn]%He1)%key_entry Ho. by apply Hn, Halone. }
  destruct (FindSubtrie (cs_queue s) e0.1) as [u ok] eqn:Hf.
  assert (∀ t2, wf t2 → bounded KeyLen t2 →
    (∀ e, e ∈ entries t2 ↔ e ∈ entries t1 ∨ (e ∈ entries (cs_queue s) ∧ e0.1 ≼ e.1)) →
    cleaned s deadline now l t2) as Hdone.
  { intros t2 Hw2 Hb2 He2. split_and!; [done..|]. intros e. rewrite He2, He1, He. setoid_rewrite not_elem_of_cons.
    setoid_rewrite elem_of_cons. split.
    - intros [[[[H1 H2]|(H1 & e1 & H2 & H3 & [H4 H5] & H6)] Hn]|[H1 H2]]; [left|right|right]; [naive_solver|naive_solver|].
      split; [done|]. by exists e0.
    - intros [[H1 H2]|(H1 & e1 & H2 & H3 & H4 & H5)]; [left; split; [left; tauto|naive_solver]|].
      destruct (decide (e1.1 = e0.1)) as [Heq|Hne]; [right; by rewrite <-Heq|]. left.
      assert (e1 ≠ e0) by (by intros ->). split; [right; naive_solver|]. intros ->.
      apply Hne. f_equal. apply (entry_unique (cs_trie s)); [done..|by left]. }
  destruct ok; [|exists t1; split; [done|]].
  - destruct (FindSubtrie_true _ _ _ Hwq Hf) as (Hu & _).
    destruct (addSubtrie_spec t1 u e0.1) as (-> & Hw2 & Hb2 & He2); [done..|by apply (FindSubtrie_at (cs_queue s))|by eapply bounded_below|done|].
    exists (addEntries t1 (entries u)). split; [done|]. apply Hdone; [done..|].
    intros e. rewrite He2, Hu, elem_of_below. tauto.
  - apply Hdone; [done..|]. intros e. split; [auto|]. intros [?|[Hin Hp]]; [done|].
    by destruct (FindSubtrie_false _ _ _ Hwq Hf e.1 (entry_key _ _ Hin)).
Qed.

Lemma Cleanup_spec s deadline now :
  csInv s → ∃ t, Cleanup s deadline now = Some (mkCycleStats t (cs_queue s) (cs_maxDelay s)) ∧
    cleaned s deadline now [] t.
Proof.
  intros Hi. pose proof Hi as (Hw & Hb & _ & _). unfold Cleanup. rewrite (AllEntries_zeroKey []) by done.
  cbn [mbind option_bind].
  destruct (foldM_ind (cleanupStep (cs_queue s) deadline now)
    (λ t l, NoDup l ∧ (∀ e, e ∈ l → e ∈ entries (cs_trie s)) ∧ cleaned s deadline now l t)
    (cs_trie s) (entries (cs_trie s))) as (t & -> & _ & _ & Hc).
  - split_and!; [by eapply NoDup_fmap_1, wf_at_NoDup|done|]. split_and!; [done..|]. intros e. naive_solver.
  - intros t e l (Hnd & Hin & Hc). destruct (cleanupStep_spec s deadline now l t e) as (t' & -> & Hc'); [done..| |done|].
    { apply Hin. left. }
    exists t'. split; [done|]. apply NoDup_cons in Hnd as [_ Hnd]. split_and!; [done| |done].
    intros e' He'. apply Hin. by right.
  - exists t. done.
Qed.

(** *** Add *)

(** The queue part of [Add] puts the prefix in the place of everything that
    overlaps it. *)
Lemma queueAdd_spec s prefix d now :
  csInv s → length prefix ≤ KeyLen →
  ∃ r, queueAdd s prefix d now = Some r ∧
    ∀ q, r = Some q → wf q ∧ bounded KeyLen q ∧
      ∀ e, e ∈ entries q ↔ (e ∈ entries (cs_queue s) ∧ ¬ overlap prefix e.1) ∨ e = (prefix, d).
Proof.
  intros (_ & _ & Hw & Hb) Hl. unfold queueAdd.
  destruct (FindPrefixOfKey_spec (cs_queue s) prefix Hw) as [(r & -> & Hr & Hp)|(r & -> & Hn)]; cbn [mbind option_bind].
  - case_decide; [by eexists|].
    assert (∀ k, k ∈ keys (cs_queue s) → overlap prefix k → r = k) as Hk.
    { intros k Hk Ho. apply (wf_at_antichain [] (cs_queue s)); [done..|]. by eapply overlap_prefix_l. }
    destruct (replace_spec (cs_queue s) r prefix d) as (t' & -> & Hw' & Hb' & He'); [done..| |].
    { intros k Hin Hnr Ho. apply Hnr. by rewrite (Hk k). }
    eexists. split; [done|]. intros q [= <-]. split_and!; [done..|]. intros e. rewrite He'.
    split; [|intros [[H1 H2]|]; [left; split; [done|]|auto]].
    + intros [[H1 H2]|]; [left|auto]. split; [done|]. intros Ho. apply H2.
      by rewrite (Hk e.1) by (done || by apply entry_key).
    + intros H3. apply H2. assert (r = e.1) as <-; [|by right].
      apply (wf_at_antichain [] (cs_queue s)); [done|done|by apply entry_key|by left].
  - destruct (replace_spec (cs_queue s) prefix prefix d) as (t' & -> & Hw' & Hb' & He'); [done..| |].
    { intros k Hin Hnp [Ho|Ho]; [done|]. by apply (Hn k). }
    eexists. split; [done|]. intros q [= <-]. split_and!; [done..|]. intros e. rewrite He'.
    assert (e ∈ entries (cs_queue s) → ¬ e.1 ≼ prefix) by (intros ?; by apply Hn, entry_key). unfold overlap. tauto.
Qed.

(** The split of the target by the entries of the queue is tried on the
    subtrie below the target. *)
Lemma cs_Add_split s target :
  csInv s → target ∈ keys (cs_trie s) →
  ∃ s',
    (let '(subtrie, ok) := FindSubtrie (cs_queue s) target in
     if negb ok then Some s
     else
       covered ← KeyspaceCovered subtrie;
       if negb covered then Some s
       else
         t ← PruneSubtrie (cs_trie s) target;
         es ← EntriesIter subtrie zeroKey;
         Some (mkCycleStats (addEntries t es) (cs_queue s) (cs_maxDelay s))) = Some s' ∧
    csInv s' ∧ (∀ x, length x = KeyLen → covered x (cs_trie s') ↔ covered x (cs_trie s)) ∧
    (target ≠ [] → s' = s).
Proof.
  intros Hi Ht. pose proof Hi as (Hw & Hb & Hwq & Hbq). destruct (FindSubtrie (cs_queue s) target) as [u ok] eqn:Hf.
  destruct ok; cbn [negb]; [|by exists s].
  destruct (FindSubtrie_true _ _ _ Hwq Hf) as (Hu & _). apply (FindSubtrie_at (cs_queue s)) in Hf; [|done].
  assert (bounded KeyLen u) as Hbu by (by eapply bounded_below).
  destruct (decide (target = [])) as [->|Hne].
  2:{ rewrite (KeyspaceCovered_subtrie target u) by done. cbn. by exists s. }
  destruct (KeyspaceCovered_spec u Hf Hbu) as (b & -> & Hcov). cbn [mbind option_bind].
  destruct b; cbn [negb]; [|by exists s].
  destruct (PruneSubtrie_spec (cs_trie s) [] Hw) as (t & -> & Hwt & Het). cbn [mbind option_bind].
  rewrite notBelow_none in Het by (intros; apply prefix_nil). apply (wf_at_empty []) in Het as ->; [|done].
  destruct (addSubtrie_spec Empty u []) as (-> & Hw' & Hb' & He'); [done|constructor|done|done| |].
  { intros x Hx. by apply not_elem_of_nil in Hx. }
  cbn [mbind option_bind]. eexists. split; [done|]. split; [done|]. split; [|done].
  intros x Hx. split; intros _.
  - exists []. split; [done|apply prefix_nil].
  - destruct (proj1 Hcov eq_refl x Hx) as (k & (d & Hk)%key_entry & Hkx). exists k. split; [|done].
    apply (entry_key _ (k, d)), He'. by right.
Qed.

(** Storing the prefix in the trie in the place of the keys below it. *)
Definition stored t prefix d t' : Prop :=
  wf t' ∧ bounded KeyLen t' ∧ ∀ e, e ∈ entries t' ↔ (e ∈ entries t ∧ ¬ prefix ≼ e.1) ∨ e = (prefix, d).

Lemma stored_covered t prefix d t' x : stored t prefix d t' → covered x t' ↔ covered x t ∨ prefix ≼ x.
Proof.
  intros (_ & _ & He). split.
  - intros (k & (d' & [[Hk _]|[= -> ->]]%He)%key_entry & Hp); [|by right].
    left. exists k. split; [by apply (entry_key _ (k, d'))|done].
  - intros [(k & (d' & Hk)%key_entry & Hp)|Hp].
    + destruct (decide (prefix ≼ k)) as [Hpk|Hpk].
      * exists prefix. split; [|by trans k]. apply (entry_key _ (prefix, d)), He. by right.
      * exists k. split; [|done]. apply (entry_key _ (k, d')), He. by left.
    + exists prefix. split; [|done]. apply (entry_key _ (prefix, d)), He. by right.
Qed.

Lemma cs_Add_spec s prefix val now :
  csInv s → length prefix ≤ KeyLen →
  ∃ s', cs_Add s prefix val now = Some s' ∧ csInv s' ∧
    ((∀ k, k ∈ keys (cs_trie s) → k ≼ prefix → k = prefix) ∧
      stored (cs_trie s) prefix (mkCsEntry now val) (cs_trie s') ∧ cs_queue s' = cs_queue s ∨
     ∃ k, k ∈ keys (cs_trie s) ∧ k ≼ prefix ∧ k ≠ prefix ∧
      (∀ x, length x = KeyLen → covered x (cs_trie s') ↔ covered x (cs_trie s)) ∧
      (k ≠ [] → cs_trie s' = cs_trie s)).
Proof.
  intros Hi Hl. pose proof Hi as (Hw & Hb & Hwq & Hbq). unfold cs_Add.
  destruct (FindSubtrie (cs_trie s) prefix) as [u ok] eqn:Hf. destruct ok.
  - destruct (FindSubtrie_true _ _ _ Hw Hf) as (Hu & Hne & _).
    destruct (entries u) as [|e0 l] eqn:Eu; [done|]. assert (e0 ∈ below prefix (entries (cs_trie s))) as He0 by (rewrite <-Hu; left).
    apply elem_of_below in He0 as [Hp0 He0]. apply entry_key in He0.
    assert (∀ k, k ∈ keys (cs_trie s) → k ≼ prefix → k = prefix) as Hk.
    { intros k Hk Hkp. assert (k = e0.1) as -> by (apply (wf_at_antichain [] (cs_trie s)); [done..|left; by trans prefix]).
      by apply prefix_length_eq; [|by apply prefix_length]. }
    destruct (replace_spec (cs_trie s) prefix prefix (mkCsEntry now val)) as (t' & -> & Hs'); [done..| |].
    { intros k Hin Hn [Ho|Ho]; [done|]. apply Hn. by rewrite (Hk k). }
    eexists. split; [done|]. pose proof Hs' as (? & ? & _). split; [done|]. by left.
  - pose proof (FindSubtrie_false _ _ _ Hw Hf) as Hno. clear Hf.
    destruct (FindPrefixOfKey_spec (cs_trie s) prefix Hw) as [(k & -> & Hk & Hkp)|(k & -> & Hn)]; cbn [mbind option_bind negb].
    + assert (k ≠ prefix) as Hkne by (intros ->; by apply (Hno prefix)).
      destruct (queueAdd_spec s prefix (mkCsEntry now val) now Hi Hl) as (r & -> & Hq). cbn [mbind option_bind].
      destruct r as [q|]; [destruct (Hq q eq_refl) as (Hwq' & Hbq' & _)|].
      * set (s1 := mkCycleStats (cs_trie s) q (cs_maxDelay s)).
        destruct (cs_Add_split s1 k) as (s' & Hs' & Hi' & Hc & Hne); [done|done|]. exists s'. split; [exact Hs'|].
        split; [done|]. right. exists k. split_and!; [done..|]. intros Hk0. by rewrite (Hne Hk0).
      * exists s. split; [done|]. split; [done|]. right. by exists k.
    + destruct (Add_extends (cs_trie s) prefix (mkCsEntry now val) Hw) as [Hw' He'].
      { intros k' x ->%list_elem_of_singleton Hx [Ho|Ho]; [by apply (Hno x)|by apply (Hn x)]. }
      assert (bounded KeyLen (trie_Add (cs_trie s) prefix (mkCsEntry now val))).
      { apply bounded_Add; [done| |done|done]. intros x Hx [Ho|Ho]; [by destruct (Hno x)|by destruct (Hn x)]. }
      eexists. split; [done|]. split; [done|]. left. split; [intros x Hx Hxp; by destruct (Hn x)|]. split; [|done].
      split_and!; [done|done|]. intros e. cbn. rewrite He'.
      assert (e ∈ entries (cs_trie s) → ¬ prefix ≼ e.1) by (intros ?; by apply Hno, entry_key). tauto.
Qed.

(** *** The properties *)

(** [Add] of the cycle statistics never panics and keeps the invariant;
    the keyspace the trie covers afterwards is the one it covered before and
    the prefix; when no proper prefix of it is in the trie, the new entry
    replaces exactly the entries below it. *)
Theorem cs_Add_correct s prefix val now :
  csInv s → length prefix ≤ KeyLen →
  ∃ s', cs_Add s prefix val now = Some s' ∧ csInv s' ∧
    (∀ x, length x = KeyLen → covered x (cs_trie s') ↔ covered x (cs_trie s) ∨ prefix ≼ x) ∧
    ((∀ k, k ∈ keys (cs_trie s) → k ≼ prefix → k = prefix) →
      ∀ e, e ∈ entries (cs_trie s') ↔
        (e ∈ entries (cs_trie s) ∧ ¬ prefix ≼ e.1) ∨ e = (prefix, mkCsEntry now val)).
Proof.
  intros Hi Hl. destruct (cs_Add_spec s prefix val now Hi Hl) as (s' & Hs' & Hi' & Hc). exists s'. split; [done|].
  split; [done|]. destruct Hc as [(_ & Hst & _)|(k & Hk & Hkp & Hkn & Hc & _)].
  - split; [intros x _; by eapply stored_covered|]. intros _. by apply Hst.
  - split; [|intros Hall; by destruct Hkn; apply Hall]. intros x Hx. rewrite Hc by done. split; [auto|].
    intros [?|Hp]; [done|]. exists k. split; [done|]. by trans prefix.
Qed.

(** A region that was split is never tracked again by its parts: with a
    non-empty proper prefix of it in the trie, [Add] leaves the trie as it is,
    whatever is queued, since [KeyspaceCovered] is asked about a subtrie. *)
Theorem cs_Add_no_split s prefix val now k :
  csInv s → length prefix ≤ KeyLen → k ∈ keys (cs_trie s) → k ≼ prefix → k ≠ prefix → k ≠ [] →
  ∃ s', cs_Add s prefix val now = Some s' ∧ cs_trie s' = cs_trie s.
Proof.
  intros Hi Hl Hk Hkp Hkn Hk0. destruct (cs_Add_spec s prefix val now Hi Hl) as (s' & Hs' & Hi' & Hc). exists s'.
  split; [done|]. destruct Hc as [(Hall & _)|(k' & Hk' & Hkp' & _ & _ & Heq)]; [by destruct Hkn; apply Hall|].
  apply Heq. assert (k' = k) as ->; [|done]. pose proof Hi as (Hw & _). apply (wf_at_antichain [] (cs_trie s)); [done..|].
  destruct (prefix_weak_total k' k prefix) as [?|?]; [done..|by left|by right].
Qed.

(** [Cleanup] of the cycle statistics never panics and keeps the
    invariant; what remains in the trie are the entries that are not older
    than the deadline, and the queued entries below an entry that is. *)
Theorem Cleanup_correct s deadline now :
  csInv s →
  ∃ s', Cleanup s deadline now = Some s' ∧ csInv s' ∧ cs_queue s' = cs_queue s ∧
    ∀ e, e ∈ entries (cs_trie s') ↔
      (e ∈ entries (cs_trie s) ∧ ¬ expired deadline now e) ∨
      (e ∈ entries (cs_queue s) ∧ ∃ e0, e0 ∈ entries (cs_trie s) ∧ expired deadline now e0 ∧ e0.1 ≼ e.1).
Proof.
  intros Hi. pose proof Hi as (_ & _ & Hwq & Hbq). destruct (Cleanup_spec s deadline now Hi) as (t & -> & Hw & Hb & He).
  eexists. split; [done|]. split; [done|]. split; [done|]. intros e. cbn. rewrite He. setoid_rewrite elem_of_nil. naive_solver.
Qed.

(** Entries never leave the queue, so an expired entry whose key is queued
    comes back with the queued time, at this and at every later cleanup. *)
Theorem Cleanup_brings_back s deadline now k d d' :
  csInv s → (k, d) ∈ entries (cs_trie s) → (k, d') ∈ entries (cs_queue s) → expired deadline now (k, d) →
  ∃ s', Cleanup s deadline now = Some s' ∧ (k, d') ∈ entries (cs_trie s') ∧ cs_queue s' = cs_queue s.
Proof.
  intros Hi Hk Hq Hx. destruct (Cleanup_spec s deadline now Hi) as (t & -> & Hw & Hb & He).
  eexists. split; [done|]. split; [|done]. cbn. rewrite He. right. split; [done|]. exists (k, d). split_and!; [done..|apply not_elem_of_nil|done].
Qed.
End cycleLaws.

(** ** Examples *)

Definition demoStats : CycleStats :=
  mkCycleStats (mkTrie [(bitstr "0", mkCsEntry 5 10); (bitstr "1", mkCsEntry 90 20)])
    (mkTrie [(bitstr "00", mkCsEntry 30 3)]) 40.

Lemma cs_Add_correct_witness :
  ∃ s', cs_Add demoStats (bitstr "") 7 100 = Some s' ∧ csInv s' ∧
    (∀ x, length x = KeyLen → covered x (cs_trie s') ↔ covered x (cs_trie demoStats) ∨ bitstr "" ≼ x) ∧
    ((∀ k, k ∈ keys (cs_trie demoStats) → k ≼ bitstr "" → k = bitstr "") →
      ∀ e, e ∈ entries (cs_trie s') ↔
        (e ∈ entries (cs_trie demoStats) ∧ ¬ bitstr "" ≼ e.1) ∨ e = (bitstr "", mkCsEntry 100 7)).
Proof. apply cs_Add_correct; by_compute. Defined.

Lemma Cleanup_correct_witness :
  ∃ s', Cleanup demoStats 50 100 = Some s' ∧ csInv s' ∧ cs_queue s' = cs_queue demoStats ∧
    ∀ e, e ∈ entries (cs_trie s') ↔
      (e ∈ entries (cs_trie demoStats) ∧ ¬ expired 50 100 e) ∨
      (e ∈ entries (cs_queue demoStats) ∧ ∃ e0, e0 ∈ entries (cs_trie demoStats) ∧ expired 50 100 e0 ∧ e0.1 ≼ e.1).
Proof. apply Cleanup_correct; by_compute. Defined.

(** Two old entries and two in the window of 60. *)
Definition demoSeries : TimeSeries :=
  mkTimeSeries (foldl dq_PushBack dq_zero
    [mkTimeEntry 1 7 1; mkTimeEntry 20 9 2; mkTimeEntry 60 4 3; mkTimeEntry 95 5 1]) 60 true.

Lemma TimeSeries_window_witness :
  (ts_Sum demoSeries 100).2 = wrap64 (windowSum (ts_weighted demoSeries) (window demoSeries 100)) ∧
  (ts_Count demoSeries 100).2 = length (window demoSeries 100) ∧
  ts_sorted (gc demoSeries 100) ∧
  (∀ v w, (∀ e, e ∈ dq_Iter (ts_data demoSeries) → te_timestamp e ≤ 100)%Z → ts_sorted (AddWeighted demoSeries v w 100)).
Proof. apply TimeSeries_window. repeat constructor; cbn; lia. Defined.

(** "0" is added, then its halves "00" and "01": the trie keeps "0", though
    the queue covers it.  After the deadline the halves take its place; they
    are still there at every later cleanup, at any time. *)
Example demoCycle :
  (s ← cs_Add (NewCycleStats 40) (bitstr "0") 10 1;
   s ← cs_Add s (bitstr "00") 4 2;
   s ← cs_Add s (bitstr "01") 6 3;
   s1 ← Cleanup s 50 100;
   s2 ← Cleanup s1 50 1000000;
   v ← cs_Sum s2;
   Some (keys (cs_trie s), keys (cs_trie s1), keys (cs_trie s2), v, cs_Count s2)) =
  Some ([bitstr "0"], [bitstr "00"; bitstr "01"], [bitstr "00"; bitstr "01"], 10%Z, 2).
Proof. vm_compute. reflexivity. Qed.
