(* ===== verification/GoMonad.v ===== *)
(** * Stateful Go code

    The monad of functions that read and write a state and may panic, with a
    total-correctness predicate transformer: [wp m Q s] says that [m] started
    in [s] does not panic and ends in a result and a state in [Q]. *)

From S2P Require Import Prelude.

Definition GoM (S A : Type) : Type := S → option (A * S).

Section monad.
Context {S : Type}.

#[export] Instance GoM_ret : MRet (GoM S) := λ A a s, Some (a, s).
#[export] Instance GoM_bind : MBind (GoM S) := λ A B f m s,
  match m s with Some (a, s') => f a s' | None => None end.

(** Reads the state. *)
Definition gets {A} (f : S → A) : GoM S A := λ s, Some (f s, s).

(** Changes the state. *)
Definition modify (f : S → S) : GoM S () := λ s, Some (tt, f s).

(** A computation that may panic. *)
Definition liftO {A} (o : option A) : GoM S A := λ s, match o with Some a => Some (a, s) | None => None end.

(** [if c { m }] *)
Definition whenM (c : bool) (m : GoM S ()) : GoM S () := if c then m else mret tt.

(** [for _, x := range l { f(x) }] *)
Fixpoint forM {A} (l : list A) (f : A → GoM S ()) : GoM S () :=
  match l with
  | [] => mret tt
  | x :: l => f x ;; forM l f
  end.

(** ** Total correctness *)

Definition wp {A} (m : GoM S A) (Q : A → S → Prop) (s : S) : Prop :=
  ∃ a s', m s = Some (a, s') ∧ Q a s'.

Lemma wp_ret {A} (a : A) Q s : Q a s → wp (mret a) Q s.
Proof. intros H. by exists a, s. Qed.

Lemma wp_bind {A B} (f : A → GoM S B) (m : GoM S A) Q s :
  wp m (λ a s', wp (f a) Q s') s → wp (m ≫= f) Q s.
Proof.
  intros (a & s' & Hm & b & s'' & Hf & HQ). exists b, s''. split; [|done].
  unfold mbind, GoM_bind. by rewrite Hm.
Qed.

Lemma wp_gets {A} (f : S → A) Q s : Q (f s) s → wp (gets f) Q s.
Proof. intros H. by exists (f s), s. Qed.

Lemma wp_modify f Q s : Q tt (f s) → wp (modify f) Q s.
Proof. intros H. by exists tt, (f s). Qed.

Lemma wp_lift {A} (o : option A) a Q s : o = Some a → Q a s → wp (liftO o) Q s.
Proof. intros -> H. by exists a, s. Qed.

Lemma wp_mono {A} (m : GoM S A) (Q Q' : A → S → Prop) s :
  wp m Q s → (∀ a s', Q a s' → Q' a s') → wp m Q' s.
Proof. intros (a & s' & Hm & HQ) H. exists a, s'. eauto. Qed.

Lemma wp_conj {A} (m : GoM S A) (Q Q' : A → S → Prop) s :
  wp m Q s → wp m Q' s → wp m (λ a s', Q a s' ∧ Q' a s') s.
Proof. intros (a & s' & Hm & HQ) (a' & s'' & Hm' & HQ'). simplify_eq. exists a, s'. eauto. Qed.

Lemma wp_when (c : bool) m Q s :
  (c = true → wp m Q s) → (c = false → Q tt s) → wp (whenM c m) Q s.
Proof. intros H1 H2. destruct c; [by apply H1|apply wp_ret; by apply H2]. Qed.

(** A loop invariant that depends on what remains to be processed. *)
Lemma wp_forM {A} (I : list A → S → Prop) (l : list A) f s Q :
  I l s → (∀ x l s, I (x :: l) s → wp (f x) (λ _ s', I l s') s) → (∀ s, I [] s → Q tt s) →
  wp (forM l f) Q s.
Proof.
  intros H0 Hstep HQ. revert s H0. induction l as [|x l IH]; intros s H0; cbn [forM].
  - apply wp_ret. auto.
  - apply wp_bind. eapply wp_mono; [by apply Hstep|]. intros u s' H'. exact (IH s' H').
Qed.

Lemma wp_elim {A} (m : GoM S A) Q s a s' : wp m Q s → m s = Some (a, s') → Q a s'.
Proof. intros (a' & s'' & Hm & HQ) Heq. by simplify_eq. Qed.
End monad.

#[export] Typeclasses Opaque GoM.

(** Reduces the matches of the program on known values. *)
Ltac wp_red :=
  lazymatch goal with
  | |- wp ?m ?Q ?s => let m' := eval cbv beta match in m in progress change (wp m' Q s)
  end.

(** One step of symbolic execution. *)
Ltac wp_step :=
  lazymatch goal with
  | |- wp (mret _) _ _ => apply wp_ret
  | |- wp (mbind _ _) _ _ => apply wp_bind
  | |- wp (gets _) _ _ => apply wp_gets
  | |- wp (modify _) _ _ => apply wp_modify
  | |- wp _ _ _ => wp_red
  end.
