(* ===== verification/Provider.v ===== *)
(** * The sweeping provider: state and operations

    Models [provider/provider.go].  [SweepingProvider] is the record of the
    fields that change; the fields fixed at start-up are the class [Config].
    Everything outside of the file is the class [World]: hashes, the clock,
    the network, the connectivity checker, the worker pool and the keystore.
    Each call to the world takes its answer from a function of the number of
    calls made before ([calls]), so two calls may get different answers; what
    the provider does to the world is recorded in [events], latest last.
    Goroutines that are started are recorded in [tasks], and [runTask] is the
    body of each.  Mutexes taken with [TryLock] are booleans of the state.

    The operations are programs of the monad [GoM]: they read and write the
    state and may panic. *)

From S2P Require Import Prelude Key Trie TrieSet Allocate Regions Deque PrefixQueue ProvideQueue.
From S2P Require Import GoTime Datastore GoMonad.
From Stdlib Require Import Ascii.

Local Open Scope Z_scope.

(** ** Constants *)

Definition maxPrefixSize : nat := 24.
Definition individualProvideThreshold : Z := 2.
Definition maxExplorationPrefixSearches : nat := 64.
Definition maxConsecutiveNoFreshPeers : Z := 2.
Definition maxConsecutiveProvideFailuresAllowed : Z := 2.
Definition approxPrefixLenGCPCount : nat := 4.
Definition maxTime : Z := time_Unix (2 ^ 63 - 1) 999999999.
Definition reprovideHistoryKeyPrefix : string := "/history".
Definition reprovideCycleStartKey : string := "/cycle_start".
Definition avgPrefixLenDatastoreKey : string := "/avg_prefix_len".

(** ** Configuration and world *)

(** The fields of [SweepingProvider] that are set once. *)
Class Config := {
  order : key;
  cycleStart : Z;
  reprovideInterval : Z;
  maxReprovideDelay : Z;
  replicationFactor : Z;
  avgPrefixLenValidity : Z;
  skipBootstrapReprovide : bool;
  hasHost : bool;
  resettableKeystore : bool;
}.

(** The argument of [GetClosestPeers], a string. *)
Inductive target (peerID mh : Type) := TMh (h : mh) | TPeer (p : peerID).
Arguments TMh {peerID mh}.
Arguments TPeer {peerID mh}.

Class World (peerID mh addr : Type) := {
  PeerIDToBit256 : peerID → key;
  MhToBit256 : mh → key;
  SortClosestPeers : list peerID → list Z → list peerID;
  GenRandPeerIDWithCPL : nat → list Z → peerID;
  w_Now : nat → Z;
  w_closed : nat → bool;
  w_IsOnline : nat → bool;
  w_GetClosestPeers : nat → target peerID mh → option (list peerID);
  w_SendMessage : nat → peerID → mh → bool;
  w_getSelfAddrs : nat → list addr;
  w_Acquire : nat → bool;
  w_randomMh : nat → mh;
  w_ksPut : nat → list mh → option (list mh);
  w_ksGet : nat → key → option (list mh);
  w_ksContainsPrefix : nat → key → bool;
  w_ksDelete : nat → list mh → bool;
}.

(** What the provider does to the world. *)
Inductive event (peerID mh addr : Type) :=
  | EvAddLocalRecord (h : mh)
  | EvSendMessage (p : peerID) (h : mh) (provider : list addr) (sent : bool)
  | EvTriggerCheck
  | EvSetAddrs (p : peerID) | EvUpdateAddrs (p : peerID) | EvClearAddrs (p : peerID)
  | EvProtect (p : peerID) | EvUnprotect (p : peerID)
  | EvRegionSize (n : Z)
  | EvAvgHolders (holdersSum nKeys : Z) | EvCompletedKeys (successes failures : Z)
  | EvProvidedRecords (n : Z) | EvProvideCounter (n : Z)
  | EvReprovideStats (prefix : key) (peers reachable keys : Z) | EvKeysPerProvide (n : Z)
  | EvProvideStart (n : Z) | EvProvideAddKeys (n : Z) | EvProvideFinish (n : Z)
  | EvReprovideStart (n : Z) | EvReprovideAddKeys (n : Z) | EvReprovideFinish (n : Z)
  | EvReleaseWorker.
Arguments EvAddLocalRecord {peerID mh addr}.
Arguments EvSendMessage {peerID mh addr}.
Arguments EvTriggerCheck {peerID mh addr}.
Arguments EvSetAddrs {peerID mh addr}.
Arguments EvUpdateAddrs {peerID mh addr}.
Arguments EvClearAddrs {peerID mh addr}.
Arguments EvProtect {peerID mh addr}.
Arguments EvUnprotect {peerID mh addr}.
Arguments EvRegionSize {peerID mh addr}.
Arguments EvAvgHolders {peerID mh addr}.
Arguments EvCompletedKeys {peerID mh addr}.
Arguments EvProvidedRecords {peerID mh addr}.
Arguments EvProvideCounter {peerID mh addr}.
Arguments EvReprovideStats {peerID mh addr}.
Arguments EvKeysPerProvide {peerID mh addr}.
Arguments EvProvideStart {peerID mh addr}.
Arguments EvProvideAddKeys {peerID mh addr}.
Arguments EvProvideFinish {peerID mh addr}.
Arguments EvReprovideStart {peerID mh addr}.
Arguments EvReprovideAddKeys {peerID mh addr}.
Arguments EvReprovideFinish {peerID mh addr}.
Arguments EvReleaseWorker {peerID mh addr}.

(** The goroutines of the provider. *)
Inductive task (mh : Type) :=
  | TaskReprovide (prefix : key)
  | TaskBurstReprovide (prefix : key)
  | TaskBatchProvide (prefix : key) (keys : list mh)
  | TaskProvideLoop
  | TaskCatchup.
Arguments TaskReprovide {mh}.
Arguments TaskBurstReprovide {mh}.
Arguments TaskBatchProvide {mh}.
Arguments TaskProvideLoop {mh}.
Arguments TaskCatchup {mh}.

Section provider.
Context {TL : TrieLib} {DL : DequeLib} {DSL : DsLib}.
Context {peerID mh addr : Type} {EP : EqDecision peerID} {CP : Countable peerID}.
Context {EM : EqDecision mh} {CM : Countable mh}.
Context {CFG : Config} {W : World peerID mh addr}.

(** The fields of [SweepingProvider] that change. *)
Record SweepingProvider := mkProvider {
  schedule : trie Z;
  scheduleCursor : key;
  (** The duration the timer was armed with, until it fires. *)
  scheduleTimer : option Z;
  scheduleTimerStartedAt : Z;
  activeReprovides : trie ();
  provideQueue : @ProvideQueue DL mh;
  reprovideQueue : @ReprovideQueue DL;
  provideRunning : bool;
  lateReprovideRunning : bool;
  approxPrefixLenRunning : bool;
  cachedAvgPrefixLen : Z;
  lastAvgPrefixLen : Z;
  bootstrapped : bool;
  lastReprovideHistoryGC : Z;
  datastore : DS;
  calls : nat;
  events : list (event peerID mh addr);
  tasks : list (task mh);
}.

Abbreviation M := (GoM SweepingProvider).

(** *** Field updates *)

Definition set_schedule t s := mkProvider t (scheduleCursor s) (scheduleTimer s)
  (scheduleTimerStartedAt s) (activeReprovides s) (provideQueue s) (reprovideQueue s)
  (provideRunning s) (lateReprovideRunning s) (approxPrefixLenRunning s) (cachedAvgPrefixLen s)
  (lastAvgPrefixLen s) (bootstrapped s) (lastReprovideHistoryGC s) (datastore s) (calls s)
  (events s) (tasks s).
Definition set_cursor c timer started s := mkProvider (schedule s) c timer
  started (activeReprovides s) (provideQueue s) (reprovideQueue s)
  (provideRunning s) (lateReprovideRunning s) (approxPrefixLenRunning s) (cachedAvgPrefixLen s)
  (lastAvgPrefixLen s) (bootstrapped s) (lastReprovideHistoryGC s) (datastore s) (calls s)
  (events s) (tasks s).
Definition set_timer timer s := set_cursor (scheduleCursor s) timer (scheduleTimerStartedAt s) s.
Definition set_active t s := mkProvider (schedule s) (scheduleCursor s) (scheduleTimer s)
  (scheduleTimerStartedAt s) t (provideQueue s) (reprovideQueue s)
  (provideRunning s) (lateReprovideRunning s) (approxPrefixLenRunning s) (cachedAvgPrefixLen s)
  (lastAvgPrefixLen s) (bootstrapped s) (lastReprovideHistoryGC s) (datastore s) (calls s)
  (events s) (tasks s).
Definition set_queues pq rq s := mkProvider (schedule s) (scheduleCursor s) (scheduleTimer s)
  (scheduleTimerStartedAt s) (activeReprovides s) pq rq
  (provideRunning s) (lateReprovideRunning s) (approxPrefixLenRunning s) (cachedAvgPrefixLen s)
  (lastAvgPrefixLen s) (bootstrapped s) (lastReprovideHistoryGC s) (datastore s) (calls s)
  (events s) (tasks s).
Definition set_locks pr lr ar s := mkProvider (schedule s) (scheduleCursor s) (scheduleTimer s)
  (scheduleTimerStartedAt s) (activeReprovides s) (provideQueue s) (reprovideQueue s)
  pr lr ar (cachedAvgPrefixLen s)
  (lastAvgPrefixLen s) (bootstrapped s) (lastReprovideHistoryGC s) (datastore s) (calls s)
  (events s) (tasks s).
Definition set_avg len t s := mkProvider (schedule s) (scheduleCursor s) (scheduleTimer s)
  (scheduleTimerStartedAt s) (activeReprovides s) (provideQueue s) (reprovideQueue s)
  (provideRunning s) (lateReprovideRunning s) (approxPrefixLenRunning s) len
  t (bootstrapped s) (lastReprovideHistoryGC s) (datastore s) (calls s)
  (events s) (tasks s).
Definition set_boot b s := mkProvider (schedule s) (scheduleCursor s) (scheduleTimer s)
  (scheduleTimerStartedAt s) (activeReprovides s) (provideQueue s) (reprovideQueue s)
  (provideRunning s) (lateReprovideRunning s) (approxPrefixLenRunning s) (cachedAvgPrefixLen s)
  (lastAvgPrefixLen s) b (lastReprovideHistoryGC s) (datastore s) (calls s)
  (events s) (tasks s).
Definition set_ds gc d s := mkProvider (schedule s) (scheduleCursor s) (scheduleTimer s)
  (scheduleTimerStartedAt s) (activeReprovides s) (provideQueue s) (reprovideQueue s)
  (provideRunning s) (lateReprovideRunning s) (approxPrefixLenRunning s) (cachedAvgPrefixLen s)
  (lastAvgPrefixLen s) (bootstrapped s) gc d (calls s)
  (events s) (tasks s).
Definition set_log n ev ts s := mkProvider (schedule s) (scheduleCursor s) (scheduleTimer s)
  (scheduleTimerStartedAt s) (activeReprovides s) (provideQueue s) (reprovideQueue s)
  (provideRunning s) (lateReprovideRunning s) (approxPrefixLenRunning s) (cachedAvgPrefixLen s)
  (lastAvgPrefixLen s) (bootstrapped s) (lastReprovideHistoryGC s) (datastore s) n ev ts.

(** *** Calls to the world *)

(** The answer to the next call. *)
Definition ask {A} (f : nat → A) : M A :=
  i ← gets calls;
  modify (λ s, set_log (S (calls s)) (events s) (tasks s) s) ;;
  mret (f i).

Definition emit (e : event peerID mh addr) : M () :=
  modify (λ s, set_log (calls s) (events s ++ [e]) (tasks s) s).

(** [go f()] *)
Definition spawn (t : task mh) : M () :=
  modify (λ s, set_log (calls s) (events s) (tasks s ++ [t]) s).

Definition Now : M Z := ask w_Now.
Definition closed : M bool := ask w_closed.
Definition IsOnline : M bool := ask w_IsOnline.

(** [s.reprovideQueue.Enqueue], [Dequeue] and [Remove]. *)
Definition enqueueReprovide (ps : list key) : M () :=
  s ← gets id;
  q ← liftO (RQ_Enqueue (reprovideQueue s) ps);
  modify (λ s, set_queues (provideQueue s) q s).

Definition removeReprovide (p : key) : M () :=
  s ← gets id;
  '(q, _) ← liftO (RQ_Remove (reprovideQueue s) p);
  modify (λ s, set_queues (provideQueue s) q s).

(** [s.provideQueue.Enqueue] and [DequeueMatching]. *)
Definition enqueueProvide (p : key) (hs : list mh) : M () :=
  s ← gets id;
  q ← liftO (Enqueue MhToBit256 (provideQueue s) p hs);
  modify (λ s, set_queues q (reprovideQueue s) s).

Definition dequeueMatching (p : key) : M (list mh) :=
  s ← gets id;
  '(q, hs) ← liftO (DequeueMatching (provideQueue s) p);
  modify (λ s, set_queues q (reprovideQueue s) s) ;;
  mret hs.

(** ** Times of the reprovide cycle *)

(** [timeOffset] *)
Definition timeOffset (t : Z) : Z := Z.rem (time_Sub t cycleStart) reprovideInterval.

(** [currentTimeOffset] *)
Definition currentTimeOffset : M Z :=
  t ← Now;
  mret (timeOffset t).

(** [timeBetween] *)
Definition timeBetween (from to : Z) : Z :=
  Z.rem (wrap64 (to - from + reprovideInterval - 1)) reprovideInterval + 1.

(** [timeUntil] *)
Definition timeUntil (d : Z) : M Z :=
  from ← currentTimeOffset;
  mret (timeBetween from d).

(** [reprovideTimeForPrefix]; [None] when the order key is too short. *)
Definition reprovideTimeForPrefix (prefix : key) : option Z :=
  if decide (length prefix = 0%nat) then Some 0
  else
    let prefix := if decide (maxPrefixSize < length prefix)%nat then take maxPrefixSize prefix
                  else prefix in
    let maxInt := 2 ^ Z.of_nat (length prefix) in
    if decide (length order < length prefix)%nat then None
    else
      let k := zip_with xorb prefix (take (length prefix) order) in
      let val := bitsZ k in
      Some (Z.quot (wrap64 (reprovideInterval * val)) maxInt).

(** ** The schedule *)

(** [scheduleNextReprovideNoLock] *)
Definition scheduleNextReprovideNoLock (prefix : key) (timeUntilReprovide : Z) : M () :=
  now ← Now;
  modify (set_cursor prefix (Some timeUntilReprovide) now).

(** [unscheduleSubsumedPrefixesNoLock] *)
Definition unscheduleSubsumedPrefixesNoLock (prefix : key) : M () :=
  s ← gets id;
  t ← liftO (PruneSubtrie (schedule s) prefix);
  modify (set_schedule t) ;;
  if IsBitstrPrefix prefix (scheduleCursor s) then
    next ← liftO (NextNonEmptyLeaf t (scheduleCursor s) order);
    match next with
    | None => scheduleNextReprovideNoLock prefix reprovideInterval
    | Some (k, d) =>
        timeUntilReprovide ← timeUntil d;
        scheduleNextReprovideNoLock k timeUntilReprovide
    end
  else mret tt.

(** [schedulePrefixNoLock] *)
Definition schedulePrefixNoLock (prefix : key) (justReprovided : bool) : M () :=
  next ← liftO (reprovideTimeForPrefix prefix);
  nextReprovideTime ←
    (if justReprovided then
       off ← currentTimeOffset;
       mret (Z.min next (wrap64 (off + reprovideInterval + maxReprovideDelay)))
     else mret next);
  s ← gets id;
  '(_, ok) ← liftO (FindPrefixOfKey (schedule s) prefix);
  if ok : bool then mret tt
  else
    unscheduleSubsumedPrefixesNoLock prefix ;;
    modify (λ s, set_schedule (trie_Add (schedule s) prefix nextReprovideTime) s) ;;
    s ← gets id;
    if IsNonEmptyLeaf (schedule s) then
      timeUntilPrefixReprovide ← timeUntil nextReprovideTime;
      scheduleNextReprovideNoLock prefix timeUntilPrefixReprovide
    else
      following ← liftO (NextNonEmptyLeaf (schedule s) prefix order);
      '(followingKey, _) ← liftO following;
      if decide (followingKey = scheduleCursor s) then
        timeUntilPrefixReprovide ← timeUntil nextReprovideTime;
        let scheduledAlarm := default 0 (trie_Find (schedule s) (scheduleCursor s)) in
        untilAlarm ← timeUntil scheduledAlarm;
        if decide (timeUntilPrefixReprovide < Z.rem untilAlarm reprovideInterval)
        then scheduleNextReprovideNoLock prefix timeUntilPrefixReprovide
        else mret tt
      else mret tt.

(** [reschedulePrefix] *)
Definition reschedulePrefix (prefix : key) : M () := schedulePrefixNoLock prefix true.

(** ** Average prefix length *)

(** [getAvgPrefixLenNoLock] *)
Definition getAvgPrefixLenNoLock : M Z :=
  s ← gets id;
  if decide (cachedAvgPrefixLen s = -1) then mret (-1)
  else
    now ← Now;
    if decide (now < time_Add (lastAvgPrefixLen s) avgPrefixLenValidity) then
      mret (cachedAvgPrefixLen s)
    else if IsEmptyLeaf (schedule s) then mret (cachedAvgPrefixLen s)
    else
      ks ← liftO (KeysIter (schedule s) order);
      let prefixLenSum := foldl (λ n k, n + Z.of_nat (length k)) 0 ks in
      let avg := Z.quot prefixLenSum (Z.of_nat (length ks)) in
      now ← Now;
      modify (set_avg avg now) ;;
      mret avg.

(** [isOffline] *)
Definition isOffline : M bool := gets (λ s, bool_decide (cachedAvgPrefixLen s = -1)).

(** One sample of [approxPrefixLen]: the retries end when the provider is
    closed or offline, or with an answer; [n] bounds their number. *)
Fixpoint approxSample (n : nat) (h : mh) : M (option Z) :=
  match n with
  | O => mret None
  | S n =>
      c ← closed;
      online ← (if c : bool then mret false else IsOnline);
      if c || negb online then mret None
      else
        r ← ask (λ i, w_GetClosestPeers i (TMh h));
        match r with
        | Some peers =>
            match peers with
            | first :: second :: others =>
                let cpl := foldl (λ cpl p, Z.min cpl
                  (Z.of_nat (CommonPrefixLength (PeerIDToBit256 first) (PeerIDToBit256 p))))
                  (Z.of_nat KeyLen) (second :: others) in
                mret (Some cpl)
            | _ => mret None
            end
        | None => emit EvTriggerCheck ;; approxSample n h
        end
  end.

(** [approxPrefixLen]: the samples one after the other. *)
Fixpoint approxSamples (m n : nat) (cplSum cplSamples : Z) : M (Z * Z) :=
  match m with
  | O => mret (cplSum, cplSamples)
  | S m =>
      h ← ask w_randomMh;
      r ← approxSample n h;
      match r with
      | Some cpl => approxSamples m n (cplSum + cpl) (cplSamples + 1)
      | None => approxSamples m n cplSum cplSamples
      end
  end.

Definition approxPrefixLen (retries : nat) : M () :=
  '(cplSum, nSamples) ← approxSamples approxPrefixLenGCPCount retries 0 0;
  now ← Now;
  modify (set_avg (if decide (nSamples = 0) then 0 else Z.quot cplSum nSamples) now).

(** [persistAvgPrefixLen]: [false] is an error. *)
Definition persistAvgPrefixLen : M bool :=
  l ← getAvgPrefixLenNoLock;
  if decide (l < 0) then mret true
  else if decide (Z.of_nat KeyLen ≤ l) then mret false
  else
    s ← gets id;
    let '(d, ok) := ds_Put (datastore s) avgPrefixLenDatastoreKey [l `mod` 256] in
    modify (set_ds (lastReprovideHistoryGC s) d) ;;
    mret ok.

(** [loadAvgPrefixLen]: the length and whether there was an error. *)
Definition loadAvgPrefixLen (d : DS) : DS * (Z * bool) :=
  let '(d, r) := ds_Get d avgPrefixLenDatastoreKey in
  (d, match r with
      | None => (-1, true)
      | Some None => (-1, false)
      | Some (Some [l]) => if decide (Z.of_nat KeyLen ≤ l) then (-1, true) else (l, false)
      | Some (Some _) => (-1, true)
      end).

(** [setCycleStart], which runs before the provider is used: the datastore
    after it, and the start of the cycle. *)
Definition readCycleStart (d : DS) : DS * option Z :=
  let '(d, r) := ds_Get d reprovideCycleStartKey in
  (d, match r with
      | None => None
      | Some None => Some zeroTime
      | Some (Some v) => parseTimestampHex (String.string_of_list_ascii (ascii_of_nat ∘ Z.to_nat <$> v))
      end).

Definition writeCycleStart (d : DS) (t : Z) : DS * bool :=
  ds_Put d reprovideCycleStartKey
    (Z.of_nat ∘ nat_of_ascii <$> String.list_ascii_of_string (formatTimestampHex t)).

Definition setCycleStart (now : Z) (resume : bool) (d : DS) : DS * Z :=
  let '(d, start) :=
    if resume then
      let '(d, stored) := readCycleStart d in
      (d, match stored with
          | Some t => if decide (t = zeroTime) then now else t
          | None => now
          end)
    else (d, now) in
  if decide (start = now) then ((writeCycleStart d now).1, start) else (d, start).

(** ** Exploring the swarm *)

(** The errors of the provider. *)
Inductive provErr := ErrClosed | ErrOther.

(** [closestPeersToKey] *)
Definition closestPeersToKey (k : key) : M (option (list peerID)) :=
  bs ← liftO (KeyToBytes k);
  p ← ask (λ i, GenRandPeerIDWithCPL i bs);
  ask (λ i, w_GetClosestPeers i (TPeer p)).

(** The inner loop of [closestPeersToPrefix]: shortens the prefix until it
    has gaps. *)
Fixpoint shortenPrefix (n : nat) (coverage : trie ()) (prefix : key) (gaps : list key)
    : option (key * list key) :=
  match gaps, n with
  | [], S n =>
      let prefix := take (length prefix - 1) prefix in
      gaps ← TrieGaps coverage prefix order;
      shortenPrefix n coverage prefix gaps
  | _, _ => Some (prefix, gaps)
  end.

(** The loop of [closestPeersToPrefix] with [n] iterations left. *)
Fixpoint closestPeersLoop (n : nat) (prefix nextPrefix : key) (all : gset peerID)
    (coverage : trie ()) (noFresh : Z) : M (provErr + gset peerID) :=
  match n with
  | O => mret (inr all)
  | S n =>
      c ← closed;
      if c : bool then mret (inl ErrClosed)
      else
        online ← IsOnline;
        if negb online then mret (inl ErrOther)
        else
          fullKey ← liftO (FirstFullKeyWithPrefix nextPrefix order);
          r ← closestPeersToKey fullKey;
          match r with
          | None | Some [] => mret (inl ErrOther)
          | Some closestPeers =>
              '(coveredPrefix, coveredPeers) ←
                liftO (ShortestCoveredPrefix PeerIDToBit256 SortClosestPeers fullKey closestPeers);
              let all' := all ∪ list_to_set coveredPeers in
              let noFresh := if decide (size all' ≤ size all)%nat then noFresh + 1 else 0 in
              if decide ((size all' ≤ size all)%nat ∧ maxConsecutiveNoFreshPeers ≤ noFresh)
              then mret (inr all')
              else
                '(_, ok) ← liftO (FindPrefixOfKey coverage coveredPrefix);
                coverage ←
                  (if ok : bool then mret coverage
                   else
                     t ← liftO (PruneSubtrie coverage coveredPrefix);
                     mret (trie_Add t coveredPrefix tt));
                gaps ← liftO (TrieGaps coverage prefix order);
                if decide (gaps = []) then
                  if decide (replicationFactor ≤ Z.of_nat (size all')) then mret (inr all')
                  else
                    '(prefix, gaps) ← liftO (shortenPrefix (length prefix) coverage prefix gaps);
                    match gaps with
                    | [] => mret (inr all')
                    | g :: _ => closestPeersLoop n prefix g all' coverage noFresh
                    end
                else
                  match gaps with
                  | [] => mret (inr all')
                  | g :: _ => closestPeersLoop n prefix g all' coverage noFresh
                  end
          end
  end.

(** [closestPeersToPrefix] *)
Definition closestPeersToPrefix (prefix : key) : M (provErr + list peerID) :=
  r ← closestPeersLoop maxExplorationPrefixSearches prefix prefix ∅ Empty 0;
  mret (match r with inl e => inl e | inr all => inr (elements all) end).

(** [exploreSwarm]; [None] is an error. *)
Definition exploreSwarm (prefix : key) : M (option (list (Region peerID mh) * key)) :=
  r ← closestPeersToPrefix prefix;
  match r with
  | inl _ | inr [] => mret None
  | inr peers =>
      '(regions, coveredPrefix) ← liftO (RegionsFromPeers PeerIDToBit256 peers replicationFactor order);
      forM regions (λ r, emit (EvRegionSize (Z.of_nat (trie_Size (Regions.Peers r))))) ;;
      mret (Some (regions, coveredPrefix))
  end.

(** ** Sending provider records *)

(** The loop of [provideKeysToPeer] over a batch, [lastBatch] telling whether
    it is the last one: the counters [sentKeys], [errCount], [errStreak], or
    an error. *)
Fixpoint provideBatch (p : peerID) (addrs : list addr) (lastBatch : bool) (batch : list mh)
    (sentKeys errCount errStreak : Z) : M (provErr + Z * Z * Z) :=
  match batch with
  | [] => mret (inr (sentKeys, errCount, errStreak))
  | h :: batch =>
      c ← closed;
      if c : bool then mret (inl ErrClosed)
      else
        ok ← ask (λ i, w_SendMessage i p h);
        emit (EvSendMessage p h addrs ok) ;;
        let sentKeys := sentKeys + 1 in
        if negb ok then
          let errStreak := errStreak + 1 in
          let errCount := errCount + 1 in
          if decide (maxConsecutiveProvideFailuresAllowed < errStreak ∨
                     errStreak = sentKeys ∧ lastBatch = true ∧ length batch = 0%nat) then
            emit (EvProvidedRecords (sentKeys - errCount)) ;;
            mret (inl ErrOther)
          else provideBatch p addrs lastBatch batch sentKeys errCount errStreak
        else provideBatch p addrs lastBatch batch sentKeys errCount 0
  end.

(** The loop of [provideKeysToPeer] over the batches. *)
Fixpoint provideBatches (p : peerID) (addrs : list addr) (batches : list (list mh))
    (sentKeys errCount errStreak : Z) : M (option provErr) :=
  match batches with
  | [] =>
      emit (EvProvidedRecords (sentKeys - errCount)) ;;
      mret None
  | batch :: batches =>
      r ← provideBatch p addrs (bool_decide (length batches = 0%nat)) batch sentKeys errCount errStreak;
      match r with
      | inl e => mret (Some e)
      | inr (sentKeys, errCount, errStreak) => provideBatches p addrs batches sentKeys errCount errStreak
      end
  end.

(** [provideKeysToPeer]: the error if any. *)
Definition provideKeysToPeer (p : peerID) (batches : list (list mh)) (addrs : list addr)
    : M (option provErr) :=
  whenM hasHost (emit (EvProtect p)) ;;
  r ← provideBatches p addrs batches 0 0 0;
  whenM hasHost (emit (EvUnprotect p)) ;;
  mret r.

(** The jobs of [sendProviderRecords], one after the other: the failures of
    each key and the number of peers that failed.  A closed provider drops
    the remaining jobs. *)
Fixpoint sendJobs (jobs : list (peerID * list (list mh))) (addrs : list addr)
    (failedKeysCount : gmap mh Z) (errCount : Z) : M (gmap mh Z * Z) :=
  match jobs with
  | [] => mret (failedKeysCount, errCount)
  | (p, batches) :: jobs =>
      c ← closed;
      if c : bool then mret (failedKeysCount, errCount)
      else
        err ← provideKeysToPeer p batches addrs;
        match err with
        | None => sendJobs jobs addrs failedKeysCount errCount
        | Some _ =>
            whenM hasHost (emit (EvClearAddrs p)) ;;
            sendJobs jobs addrs
              (foldl (λ m h, <[h := default 0 (m !! h) + 1]> m) failedKeysCount (concat batches))
              (errCount + 1)
        end
  end.

(** [float32(n) * (1 - minimalRegionReachablePeersRatio)] as an [int]: the
    factor is the float32 number 13421773 / 2^24, the product is rounded to
    24 significant bits, ties to even. *)
Definition roundBits (m e : Z) : Z :=
  let q := m / 2 ^ e in
  let r := m mod 2 ^ e in
  if decide (2 * r < 2 ^ e) then q
  else if decide (2 ^ e < 2 * r) then q + 1
  else if Z.even q then q else q + 1.

Definition unreachableThreshold (n : Z) : Z :=
  let m := n * 13421773 in
  let e := Z.max 0 (Z.log2 m - 23) in
  roundBits m e * 2 ^ e / 2 ^ 24.

(** [sendProviderRecords]: the number of reachable peers and whether too few
    peers could be reached. *)
Definition sendProviderRecords (keysAllocations : gmap peerID (list (list mh)))
    (addrs : list addr) (nKeys : Z) : M (Z * bool) :=
  let nPeers := Z.of_nat (size keysAllocations) in
  if decide (nPeers = 0) then mret (0, false)
  else
    let jobs := map_to_list keysAllocations in
    whenM hasHost (forM jobs (λ '(p, _), emit (EvSetAddrs p))) ;;
    '(failedKeysCount, errCount) ← sendJobs jobs addrs ∅ 0;
    let counts := (map_to_list failedKeysCount).*2 in
    let holdersSum := foldl Z.sub (replicationFactor * nKeys) counts in
    let failedKeys := Z.of_nat (length (filter (λ c, c = replicationFactor) counts)) in
    let successfulKeys := nKeys - failedKeys in
    emit (EvAvgHolders holdersSum nKeys) ;;
    emit (EvCompletedKeys successfulKeys failedKeys) ;;
    emit (EvProvideCounter successfulKeys) ;;
    whenM hasHost (forM jobs (λ '(p, _), emit (EvUpdateAddrs p))) ;;
    mret (nPeers - errCount,
          bool_decide (errCount = nPeers ∨ unreachableThreshold nPeers < errCount)).

(** ** Reprovide history *)

(** [gcReprovideHistoryIfNeeded], the loop over the query results: deletes
    until the first entry that is still recent. *)
Fixpoint gcLoop (deadline : Z) (l : list (string * bytes)) (d : DS) : DS :=
  match l with
  | [] => d
  | (k, _) :: l =>
      if match parseReprovideHistoryKey k with Some (t, _) => bool_decide (deadline < t) | None => false end
      then d
      else gcLoop deadline l (ds_Delete d k).1
  end.

(** Whether the loop met a recent entry, and so did not see what follows. *)
Definition gcStopped (deadline : Z) (l : list (string * bytes)) : bool :=
  existsb (λ '(k, _), match parseReprovideHistoryKey k with
                      | Some (t, _) => bool_decide (deadline < t)
                      | None => false
                      end) l.

(** [gcReprovideHistoryIfNeeded] *)
Definition gcReprovideHistoryIfNeeded (now : Z) : M () :=
  c ← closed;
  if c : bool then mret tt
  else
    s ← gets id;
    let lastGC := time_Unix (lastReprovideHistoryGC s) 0 in
    if decide (time_Sub now lastGC < reprovideInterval) then mret tt
    else
      let deadline := time_Add now (- reprovideInterval) in
      let '(d, r) := ds_QueryByKey (datastore s) reprovideHistoryKeyPrefix in
      match r with
      | None => modify (set_ds (lastReprovideHistoryGC s) d)
      | Some (l, failed) =>
          let d := gcLoop deadline l d in
          modify (set_ds (if failed && negb (gcStopped deadline l)
                          then lastReprovideHistoryGC s else unixSeconds now) d)
      end.

(** [persistSuccessfulReprovide] *)
Definition persistSuccessfulReprovide (prefix : key) : M () :=
  c ← closed;
  if c : bool then mret tt
  else
    now ← Now;
    modify (λ s, set_ds (lastReprovideHistoryGC s)
                   (ds_Put (datastore s) (historyKey now prefix) []).1 s) ;;
    gcReprovideHistoryIfNeeded now.

(** The loop of [loadRecentlyReprovidedRegions]: the regions without
    overlaps; keys that cannot be parsed are deleted. *)
Fixpoint loadRegions (l : list (string * bytes)) (regions : trie ()) : M (trie ()) :=
  match l with
  | [] => mret regions
  | (k, _) :: l =>
      match parseReprovideHistoryKey k with
      | None =>
          modify (λ s, set_ds (lastReprovideHistoryGC s) (ds_Delete (datastore s) k).1 s) ;;
          loadRegions l regions
      | Some (_, p) =>
          let p := bitstr p in
          '(_, ok) ← liftO (FindPrefixOfKey regions p);
          if ok : bool then loadRegions l regions
          else
            t ← liftO (PruneSubtrie regions p);
            loadRegions l (trie_Add t p tt)
      end
  end.

(** [loadRecentlyReprovidedRegions]; [None] is an error. *)
Definition loadRecentlyReprovidedRegions (now : Z) : M (option (trie ())) :=
  c ← closed;
  if c : bool then mret (Some Empty)
  else
    gcReprovideHistoryIfNeeded now ;;
    s ← gets id;
    let '(d, r) := ds_QueryByKey (datastore s) reprovideHistoryKeyPrefix in
    modify (set_ds (lastReprovideHistoryGC s) d) ;;
    match r with
    | None => mret None
    | Some (l, failed) =>
        regions ← loadRegions l Empty;
        mret (if failed : bool then None else Some regions)
    end.

(** [enqueueExpiredRegionsNoLock] *)
Definition enqueueExpiredRegionsNoLock (recentlyReprovided : trie ()) : M () :=
  s ← gets id;
  toReprovideTrie ← liftO (SubtractTrie (schedule s) (CoalesceTrie recentlyReprovided));
  ks ← liftO (AllKeys toReprovideTrie order);
  enqueueReprovide ks.

(** ** Failures and claims *)

(** [failedProvide], [failedReprovide] *)
Definition failedProvide (prefix : key) (hs : list mh) : M () :=
  enqueueProvide prefix hs ;;
  emit EvTriggerCheck.

Definition failedReprovide (prefix : key) : M () :=
  enqueueReprovide [prefix] ;;
  emit EvTriggerCheck.

(** [selfAddrInfo]: the addresses, if there are any. *)
Definition selfAddrInfo : M (option (list addr)) :=
  addrs ← ask w_getSelfAddrs;
  match addrs with
  | [] => emit EvTriggerCheck ;; mret None
  | _ => mret (Some addrs)
  end.

(** One iteration of [claimRegionReprovide]. *)
Definition claimRegion (active : trie ()) (r : Region peerID mh) : option (trie () * bool) :=
  if IsEmptyLeaf (Regions.Peers r) then Some (active, false)
  else
    '(_, ok) ← FindPrefixOfKey active (Regions.Prefix r);
    if ok : bool then Some (active, false)
    else
      t ← PruneSubtrie active (Regions.Prefix r);
      Some (trie_Add t (Regions.Prefix r) tt, true).

Fixpoint claimRegions (active : trie ()) (regions : list (Region peerID mh))
    : option (trie () * list (Region peerID mh)) :=
  match regions with
  | [] => Some (active, [])
  | r :: regions =>
      '(active, claimed) ← claimRegion active r;
      '(active, out) ← claimRegions active regions;
      Some (active, if claimed : bool then r :: out else out)
  end.

(** [claimRegionReprovide] *)
Definition claimRegionReprovide (regions : list (Region peerID mh)) : M (list (Region peerID mh)) :=
  s ← gets id;
  '(t, out) ← liftO (claimRegions (activeReprovides s) regions);
  modify (set_active t) ;;
  mret out.

(** [releaseRegionReprovide] *)
Definition releaseRegionReprovide (prefix : key) : M () :=
  s ← gets id;
  t ← liftO (PruneSubtrie (activeReprovides s) prefix);
  modify (set_active t).

(** ** Providing *)

(** [vanillaProvide]: the covered prefix and whether there was an error. *)
Definition vanillaProvide (h : mh) (reprovide : bool) : M (key * bool) :=
  emit (EvAddLocalRecord h) ;;
  r ← ask (λ i, w_GetClosestPeers i (TMh h));
  match r with
  | None => mret ([], true)
  | Some peers =>
      '(coveredPrefix, _) ←
        liftO (ShortestCoveredPrefix PeerIDToBit256 SortClosestPeers (MhToBit256 h) peers);
      addrs ← ask w_getSelfAddrs;
      let keysAllocations : gmap peerID (list (list mh)) :=
        foldl (λ m p, <[p := [[h]]]> m) ∅ peers in
      '(reachablePeers, err) ← sendProviderRecords keysAllocations addrs 1;
      emit (if reprovide
            then EvReprovideStats coveredPrefix (Z.of_nat (size keysAllocations)) reachablePeers 1
            else EvKeysPerProvide 1) ;;
      mret (coveredPrefix, err)
  end.

(** The goroutines of [individualProvide], one after the other: whether one
    provide succeeded. *)
Fixpoint provideEach (prefix : key) (hs : list mh) (reprovide success : bool) : M bool :=
  match hs with
  | [] => mret success
  | h :: hs =>
      '(_, err) ← vanillaProvide h reprovide;
      whenM (err && negb reprovide) (failedProvide prefix [h]) ;;
      provideEach prefix hs reprovide (success || negb err)
  end.

(** [individualProvide] *)
Definition individualProvide (prefix : key) (hs : list mh) (reprovide : bool) : M () :=
  match hs with
  | [] => mret tt
  | _ =>
      '(prefix, err) ←
        match hs with
        | [h] =>
            '(coveredPrefix, err) ← vanillaProvide h reprovide;
            whenM (err && negb reprovide) (failedProvide prefix hs) ;;
            mret (if reprovide && negb err then coveredPrefix else prefix, err)
        | _ =>
            success ← provideEach prefix hs reprovide false;
            mret (prefix, negb success)
        end;
      whenM reprovide
        (reschedulePrefix prefix ;;
         if err : bool then failedReprovide prefix else persistSuccessfulReprovide prefix)
  end.

(** One region of [provideRegions]: whether it failed. *)
Definition provideRegion (r : Region peerID mh) (addrs : list addr) (reprovide : bool) : M bool :=
  match Regions.Keys r with
  | None | Some Empty =>
      whenM reprovide (releaseRegionReprovide (Regions.Prefix r)) ;;
      mret false
  | Some ks =>
      hs ← liftO (ValuesIter ks order);
      forM hs (λ h, emit (EvAddLocalRecord h)) ;;
      let nKeys := Z.of_nat (length hs) in
      keysAllocations ← liftO (AllocateToKClosest ks (Regions.Peers r) replicationFactor);
      '(reachablePeers, err) ← sendProviderRecords keysAllocations addrs nKeys;
      (if reprovide then
         emit (EvReprovideStats (Regions.Prefix r) (Z.of_nat (size keysAllocations)) reachablePeers nKeys) ;;
         releaseRegionReprovide (Regions.Prefix r) ;;
         reschedulePrefix (Regions.Prefix r)
       else emit (EvKeysPerProvide nKeys)) ;;
      if err : bool then
        (if reprovide then failedReprovide (Regions.Prefix r) else failedProvide (Regions.Prefix r) hs) ;;
        mret true
      else emit (EvProvideCounter nKeys) ;; mret false
  end.

(** The loop of [provideRegions]: the number of regions that failed. *)
Fixpoint provideRegionsLoop (regions : list (Region peerID mh)) (addrs : list addr)
    (reprovide : bool) (errCount : Z) : M Z :=
  match regions with
  | [] => mret errCount
  | r :: regions =>
      failed ← provideRegion r addrs reprovide;
      provideRegionsLoop regions addrs reprovide (if failed : bool then errCount + 1 else errCount)
  end.

(** [provideRegions] *)
Definition provideRegions (regions : list (Region peerID mh)) (addrs : list addr)
    (reprovide : bool) : M bool :=
  errCount ← provideRegionsLoop regions addrs reprovide 0;
  mret (bool_decide (errCount < Z.of_nat (length regions))).

(** [batchProvide] *)
Definition batchProvide (prefix : key) (hs : list mh) : M () :=
  let keyCount := Z.of_nat (length hs) in
  if decide (keyCount = 0) then mret tt
  else
    self ← selfAddrInfo;
    match self with
    | None => mret tt
    | Some addrs =>
        emit (EvProvideStart keyCount) ;;
        if decide (keyCount ≤ individualProvideThreshold) then
          individualProvide prefix hs false ;;
          emit (EvProvideFinish keyCount)
        else
          r ← exploreSwarm prefix;
          match r with
          | None =>
              failedProvide prefix hs ;;
              emit (EvProvideFinish keyCount)
          | Some (regions, coveredPrefix) =>
              extraKeys ← dequeueMatching coveredPrefix;
              whenM (bool_decide (extraKeys ≠ [])) (emit (EvProvideAddKeys (Z.of_nat (length extraKeys)))) ;;
              let hs := hs ++ extraKeys in
              provideRegions (AssignKeysToRegions MhToBit256 regions hs) addrs false ;;
              emit (EvProvideFinish (Z.of_nat (length hs)))
          end
    end.

(** [batchReprovide] *)
Definition batchReprovide (prefix : key) : M () :=
  c ← closed;
  if c : bool then mret tt
  else
    self ← selfAddrInfo;
    match self with
    | None => mret tt
    | Some addrs =>
        r ← ask (λ i, w_ksGet i prefix);
        match r with
        | None => failedReprovide prefix ;; reschedulePrefix prefix
        | Some [] => mret tt
        | Some hs =>
            let keyCount := Z.of_nat (length hs) in
            emit (EvReprovideStart keyCount) ;;
            if decide (keyCount ≤ individualProvideThreshold) then
              individualProvide prefix hs true ;;
              emit (EvReprovideFinish keyCount)
            else
              r ← exploreSwarm prefix;
              match r with
              | None =>
                  failedReprovide prefix ;;
                  reschedulePrefix prefix ;;
                  emit (EvReprovideFinish keyCount)
              | Some (regions, coveredPrefix) =>
                  regions ← claimRegionReprovide regions;
                  r ← (if decide (length coveredPrefix < length prefix)%nat then
                         r ← ask (λ i, w_ksGet i coveredPrefix);
                         match r with
                         | None =>
                             failedReprovide prefix ;;
                             reschedulePrefix prefix ;;
                             emit (EvReprovideFinish 0) ;;
                             mret None
                         | Some hs' =>
                             emit (EvReprovideAddKeys (Z.of_nat (length hs') - keyCount)) ;;
                             mret (Some (coveredPrefix, hs'))
                         end
                       else mret (Some (prefix, hs)));
                  match r with
                  | None => mret tt
                  | Some (prefix, hs) =>
                      dequeueMatching prefix ;;
                      removeReprovide prefix ;;
                      unscheduleSubsumedPrefixesNoLock prefix ;;
                      ok ← provideRegions (AssignKeysToRegions MhToBit256 regions hs) addrs true;
                      whenM ok (persistSuccessfulReprovide prefix) ;;
                      emit (EvReprovideFinish (Z.of_nat (length hs)))
                  end
              end
        end
    end.

(** ** The scheduler *)

(** The loop of [handleReprovide] over all entries after a long block: the
    next entry is the first one after the current offset, or the first. *)
Definition nextAfterBlock (l : list (key * Z)) (currentTimeOffset : Z) : option (key * Z) :=
  match list_find (λ e, currentTimeOffset < e.2) l with
  | Some (_, e) => Some e
  | None => head l
  end.

(** The loop of [handleReprovide] over the regions whose time has passed:
    [n] is the number of iterations left, the result the next region. *)
Fixpoint enqueueLate (n : nat) (startedOffset timeSinceTimerRunning : Z) (next : key * Z) : M (key * Z) :=
  match n with
  | O => mret next
  | S n =>
      if decide (timeBetween startedOffset next.2 < timeSinceTimerRunning) then
        enqueueReprovide [next.1] ;;
        s ← gets id;
        r ← liftO (NextNonEmptyLeaf (schedule s) next.1 order);
        next ← liftO r;
        enqueueLate n startedOffset timeSinceTimerRunning next
      else mret next
  end.

(** The locked part of [handleReprovide]: whether the region at the cursor is
    to be reprovided now. *)
Definition advanceSchedule : M (option key) :=
  s ← gets id;
  let currentPrefix := scheduleCursor s in
  r ← liftO (NextNonEmptyLeaf (schedule s) currentPrefix order);
  match r with
  | None => mret None
  | Some next =>
      if decide (next.1 = currentPrefix) then
        t ← liftO (reprovideTimeForPrefix currentPrefix);
        timeUntilNextReprovide ← timeUntil t;
        scheduleNextReprovideNoLock currentPrefix timeUntilNextReprovide ;;
        mret (Some currentPrefix)
      else
        currentOffset ← currentTimeOffset;
        let startedOffset := timeOffset (scheduleTimerStartedAt s) in
        let timeSinceTimerRunning := timeBetween startedOffset currentOffset in
        now ← Now;
        if decide (time_Add (scheduleTimerStartedAt s) reprovideInterval < now) then
          l ← liftO (EntriesIter (schedule s) order);
          forM l (λ e, enqueueReprovide [e.1]) ;;
          next ← liftO (nextAfterBlock l currentOffset);
          timeUntilNext ← timeUntil next.2;
          scheduleNextReprovideNoLock next.1 timeUntilNext ;;
          mret None
        else
          next ← enqueueLate (trie_Size (schedule s)) startedOffset timeSinceTimerRunning next;
          timeUntilNextReprovide ← timeUntil next.2;
          scheduleNextReprovideNoLock next.1 timeUntilNextReprovide ;;
          mret (Some currentPrefix)
  end.

(** [handleReprovide] *)
Definition handleReprovide : M () :=
  r ← advanceSchedule;
  match r with
  | None => mret tt
  | Some currentPrefix =>
      online ← IsOnline;
      if negb online then enqueueReprovide [currentPrefix]
      else
        removeReprovide currentPrefix ;;
        c ← closed;
        if c : bool then mret tt else spawn (TaskReprovide currentPrefix)
  end.

(** ** Grouping keys by region *)

(** The state of the loop of [groupAndScheduleKeysByPrefix]. *)
Record groupState := mkGroup {
  g_seen : gset key;
  g_prefixTrie : trie ();
  g_prefixes : gmap key (list mh);
  g_avgPrefixLen : Z;
}.

(** The prefix under which [h] goes: the scheduled one, or the bits of the
    average length, which are scheduled first. *)
Definition choosePrefix (k : key) (sched : bool) (avgPrefixLen : Z) : M (option (key * Z)) :=
  s ← gets id;
  '(prefix, inSchedule) ← liftO (FindPrefixOfKey (schedule s) k);
  if inSchedule : bool then mret (Some (prefix, avgPrefixLen))
  else
    avgPrefixLen ← (if decide (avgPrefixLen = -1) then getAvgPrefixLenNoLock else mret avgPrefixLen);
    if decide (avgPrefixLen = -1) then mret None
    else if decide (avgPrefixLen < 0 ∨ Z.of_nat (length k) < avgPrefixLen) then liftO None
    else
      let prefix := take (Z.to_nat avgPrefixLen) k in
      whenM sched (schedulePrefixNoLock prefix false) ;;
      mret (Some (prefix, avgPrefixLen)).

(** The keys below [prefix] are consolidated under it. *)
Definition consolidate (prefix : key) (h : mh) (g : groupState) : option groupState :=
  let '(subtrie, ok) := FindSubtrie (g_prefixTrie g) prefix in
  '(mhs, prefixes, t) ←
    (if ok : bool then
       ks ← KeysIter subtrie order;
       let '(mhs, prefixes) :=
         foldl (λ '(mhs, m) k, (mhs ++ default [] (m !! k), delete k m)) ([h], g_prefixes g) ks in
       t ← PruneSubtrie (g_prefixTrie g) prefix;
       Some (mhs, prefixes, t)
     else Some ([h], g_prefixes g, g_prefixTrie g));
  Some (mkGroup (g_seen g) (trie_Add t prefix tt) (<[prefix := mhs]> prefixes) (g_avgPrefixLen g)).

(** The loop of [groupAndScheduleKeysByPrefix]; [None] when the average
    prefix length is unknown. *)
Fixpoint groupLoop (hs : list mh) (sched : bool) (g : groupState) : M (option groupState) :=
  match hs with
  | [] => mret (Some g)
  | h :: hs =>
      let k := MhToBit256 h in
      if decide (k ∈ g_seen g) then groupLoop hs sched g
      else
        let g := mkGroup ({[k]} ∪ g_seen g) (g_prefixTrie g) (g_prefixes g) (g_avgPrefixLen g) in
        '(prefix, ok) ← liftO (FindPrefixOfKey (g_prefixTrie g) k);
        if ok : bool then
          groupLoop hs sched
            (mkGroup (g_seen g) (g_prefixTrie g)
               (<[prefix := default [] (g_prefixes g !! prefix) ++ [h]]> (g_prefixes g)) (g_avgPrefixLen g))
        else
          r ← choosePrefix k sched (g_avgPrefixLen g);
          match r with
          | None => mret None
          | Some (prefix, avg) =>
              g ← liftO (consolidate prefix h
                    (mkGroup (g_seen g) (g_prefixTrie g) (g_prefixes g) avg));
              groupLoop hs sched g
          end
  end.

(** [groupAndScheduleKeysByPrefix] *)
Definition groupAndScheduleKeysByPrefix (hs : list mh) (sched : bool) : M (gmap key (list mh)) :=
  r ← groupLoop hs sched (mkGroup ∅ Empty ∅ (-1));
  mret (match r with Some g => g_prefixes g | None => ∅ end).

(** ** Entry points *)

(** [catchupPendingWork] *)
Definition catchupPendingWork : M () :=
  s ← gets id;
  if lateReprovideRunning s then mret tt
  else
    c ← closed;
    if c : bool then mret tt
    else
      modify (λ s, set_locks (provideRunning s) true (approxPrefixLenRunning s) s) ;;
      spawn TaskCatchup.

(** The loop of [provideLoop]: [n] bounds the number of iterations. *)
Fixpoint provideLoopIter (n : nat) : M () :=
  match n with
  | O => mret tt
  | S n =>
      s ← gets id;
      if PVQ_IsEmpty (provideQueue s) then mret tt
      else
        c ← closed;
        if c : bool then mret tt
        else
          online ← IsOnline;
          if negb online then mret tt
          else
            ok ← ask w_Acquire;
            if negb ok then mret tt
            else
              s ← gets id;
              '(q, (prefix, hs, ok)) ← liftO (Dequeue (provideQueue s));
              modify (λ s, set_queues q (reprovideQueue s) s) ;;
              if ok : bool then
                c ← closed;
                if c : bool then emit EvReleaseWorker
                else
                  spawn (TaskBatchProvide prefix hs) ;;
                  provideLoopIter n
              else
                emit EvReleaseWorker ;;
                provideLoopIter n
  end.

(** [provideLoop] *)
Definition provideLoop (n : nat) : M () :=
  s ← gets id;
  if provideRunning s then mret tt
  else
    modify (λ s, set_locks true (lateReprovideRunning s) (approxPrefixLenRunning s) s) ;;
    provideLoopIter n ;;
    modify (λ s, set_locks false (lateReprovideRunning s) (approxPrefixLenRunning s) s).

(** [reprovideLateRegions]: [n] bounds the number of iterations. *)
Fixpoint reprovideLateRegions (n : nat) : M () :=
  match n with
  | O => mret tt
  | S n =>
      s ← gets id;
      if RQ_IsEmpty (reprovideQueue s) then mret tt
      else
        c ← closed;
        if c : bool then mret tt
        else
          online ← IsOnline;
          if negb online then mret tt
          else
            ok ← ask w_Acquire;
            if negb ok then mret tt
            else
              s ← gets id;
              '(q, (prefix, ok)) ← liftO (RQ_Dequeue (reprovideQueue s));
              modify (λ s, set_queues (provideQueue s) q s) ;;
              if ok : bool then
                c ← closed;
                if c : bool then emit EvReleaseWorker
                else
                  spawn (TaskBurstReprovide prefix) ;;
                  reprovideLateRegions n
              else
                emit EvReleaseWorker ;;
                reprovideLateRegions n
  end.

(** The bodies of the goroutines. *)
Definition runTask (n : nat) (t : task mh) : M () :=
  match t with
  | TaskReprovide prefix =>
      ok ← ask w_Acquire;
      whenM ok (batchReprovide prefix ;; emit EvReleaseWorker)
  | TaskBurstReprovide prefix => batchReprovide prefix ;; emit EvReleaseWorker
  | TaskBatchProvide prefix hs => batchProvide prefix hs ;; emit EvReleaseWorker
  | TaskProvideLoop => provideLoop n
  | TaskCatchup =>
      reprovideLateRegions n ;;
      modify (λ s, set_locks (provideRunning s) false (approxPrefixLenRunning s) s) ;;
      provideLoop n
  end.

(** [handleProvide] *)
Definition handleProvide (force reprovide : bool) (hs : list mh) : M () :=
  match hs with
  | [] => mret tt
  | _ =>
      r ← (if reprovide then
             r ← ask (λ i, w_ksPut i hs);
             mret (match r with
                   | None => None
                   | Some newKeys => Some (if force then hs else newKeys)
                   end)
           else mret (Some hs));
      match r with
      | None => mret tt
      | Some hs =>
          offline ← isOffline;
          if offline : bool then mret tt
          else
            prefixes ← groupAndScheduleKeysByPrefix hs reprovide;
            if decide (prefixes = ∅) then mret tt
            else
              forM (SortPrefixesBySize (Some <$> prefixes))
                (λ pk, enqueueProvide (Key.Prefix pk) (Key.Keys pk)) ;;
              c ← closed;
              if c : bool then mret tt else spawn TaskProvideLoop
      end
  end.

(** [ProvideOnce], [StartProviding]: [false] is [ErrClosed]. *)
Definition ProvideOnce (hs : list mh) : M bool :=
  c ← closed;
  if c : bool then mret false else handleProvide true false hs ;; mret true.

Definition StartProviding (force : bool) (hs : list mh) : M bool :=
  c ← closed;
  if c : bool then mret false else handleProvide force true hs ;; mret true.

(** [StopProviding]: [false] is an error. *)
Definition StopProviding (hs : list mh) : M bool :=
  c ← closed;
  if c : bool then mret false
  else
    ok ← ask (λ i, w_ksDelete i hs);
    s ← gets id;
    q ← liftO (PVQ_Remove MhToBit256 (provideQueue s) hs);
    modify (λ s, set_queues q (reprovideQueue s) s) ;;
    mret ok.

(** [Clear] *)
Definition SP_Clear : M Z :=
  c ← closed;
  if c : bool then mret 0
  else
    s ← gets id;
    let '(q, n) := PVQ_Clear (provideQueue s) in
    modify (λ s, set_queues q (reprovideQueue s) s) ;;
    mret (Z.of_nat n).

(** [AddToSchedule] *)
Definition AddToSchedule (hs : list mh) : M bool :=
  c ← closed;
  if c : bool then mret false
  else
    offline ← isOffline;
    whenM (negb offline) (groupAndScheduleKeysByPrefix hs true ;; mret tt) ;;
    mret true.

(** The prefixes of [RefreshSchedule] that have keys in the keystore. *)
Fixpoint withKeys (missing : list key) : M (list key) :=
  match missing with
  | [] => mret []
  | p :: missing =>
      ok ← ask (λ i, w_ksContainsPrefix i p);
      l ← withKeys missing;
      mret (if ok : bool then p :: l else l)
  end.

(** [RefreshSchedule]: [false] is [ErrClosed]. *)
Definition RefreshSchedule : M bool :=
  c ← closed;
  if c : bool then mret false
  else
    prefixLen ← getAvgPrefixLenNoLock;
    if decide (prefixLen < 0) then mret true
    else
      s ← gets id;
      gaps ← liftO (TrieGaps (schedule s) [] order);
      let missing := gaps ≫= λ p, if decide (prefixLen ≤ Z.of_nat (length p)) then [p]
                                  else ExtendBinaryPrefix p prefixLen in
      toInsert ← withKeys missing;
      match toInsert with
      | [] => mret true
      | _ =>
          s ← gets id;
          let reprovideAll := bootstrapped s && resettableKeystore &&
            bool_decide (trie_Size (schedule s) < length toInsert)%nat in
          forM toInsert (λ p, schedulePrefixNoLock p false) ;;
          whenM reprovideAll
            (s ← gets id;
             ks ← liftO (AllKeys (schedule s) order);
             enqueueReprovide ks ;;
             catchupPendingWork) ;;
          mret true
      end.

(** [onOffline] *)
Definition onOffline : M () :=
  modify (λ s, set_queues (PVQ_Clear (provideQueue s)).1 (reprovideQueue s) s) ;;
  modify (λ s, set_avg (-1) (lastAvgPrefixLen s) s).

(** [onOnline]; [retries] bounds those of [approxPrefixLen]. *)
Definition onOnline (retries : nat) : M () :=
  c ← closed;
  if c : bool then mret tt
  else
    s ← gets id;
    let wasOffline := bool_decide (cachedAvgPrefixLen s = -1) in
    let boot := bootstrapped s in
    if (wasOffline || negb boot) && approxPrefixLenRunning s then mret tt
    else
      whenM (wasOffline || negb boot) (approxPrefixLen retries ;; RefreshSchedule ;; mret tt) ;;
      whenM (negb boot)
        ((if negb skipBootstrapReprovide then
            now ← Now;
            r ← loadRecentlyReprovidedRegions now;
            match r with
            | Some recentlyReprovided => enqueueExpiredRegionsNoLock recentlyReprovided
            | None => mret tt
            end
          else
            s ← gets id;
            l ← liftO (EntriesIter (schedule s) order);
            match l with
            | [] => mret tt
            | e :: _ =>
                t ← timeUntil e.2;
                scheduleNextReprovideNoLock e.1 t
            end) ;;
         modify (set_boot true)) ;;
      catchupPendingWork.

(** One event of the loop of [run]: the retry ticker or the schedule timer. *)
Inductive runEvent := RetryTick | ScheduleTimer.

Definition runOnce (ev : runEvent) : M () :=
  match ev with
  | RetryTick =>
      online ← IsOnline;
      whenM online catchupPendingWork
  | ScheduleTimer =>
      modify (set_timer None) ;;
      handleReprovide
  end.
End provider.
