(* ===== verification/Schedule.v ===== *)
(** * The schedule of the sweeping provider

    Proofs about the times of the reprovide cycle and the schedule of
    [provider/provider.go] (see [Provider]): the time of a region, the cursor
    and its timer, and the advance of the schedule. *)

From S2P Require Import Prelude Key Trie TrieSet Allocate Regions Deque PrefixQueue ProvideQueue.
From S2P Require Import GoTime Datastore GoMonad Provider TrieImpl.

Local Open Scope Z_scope.

(** ** Times of the cycle *)

Section times.
Context {CFG : Config}.

(** The interval is positive and far from the bounds of [int64]; the order
    key is a full key. *)
Class ConfigOk : Prop := {
  interval_pos : 0 < reprovideInterval;
  interval_small : reprovideInterval < 2 ^ 61;
  order_length : length order = KeyLen;
}.

(** An offset of the cycle. *)
Definition offset (d : Z) : Prop := 0 ≤ d < reprovideInterval.

Context {COK : ConfigOk}.

Lemma timeBetween_spec from to :
  offset from → offset to →
  0 < timeBetween from to ≤ reprovideInterval ∧
  timeBetween from to = if decide (from < to) then to - from else to - from + reprovideInterval.
Proof.
  intros Hf Ht. unfold offset in *. pose proof interval_pos. pose proof interval_small.
  unfold timeBetween. rewrite wrap64_id by (unfold in_int64; lia).
  case_decide.
  - replace (to - from + reprovideInterval - 1) with (to - from - 1 + 1 * reprovideInterval) by lia.
    rewrite Z.rem_mod_nonneg, Z.mod_add, Z.mod_small by lia. lia.
  - rewrite Z.rem_small by lia. lia.
Qed.

Lemma timeOffset_spec t :
  cycleStart ≤ t → in_int64 (t - cycleStart) → offset (timeOffset t).
Proof.
  intros Ht Hi. unfold timeOffset, offset. rewrite time_Sub_id by done.
  apply Z.rem_bound_pos; [lia|]. apply interval_pos.
Qed.

(** *** The time of a region *)

(** The position of a prefix in the order: the number of prefixes of the same
    length that come before it. *)
Definition position (o p : key) : Z := bitsZ (zip_with xorb p (take (length p) o)).

Lemma position_length o p : (length p ≤ length o)%nat → length (zip_with xorb p (take (length p) o)) = length p.
Proof. intros Hl. rewrite length_zip_with, length_take. lia. Qed.

Lemma position_bound o p : (length p ≤ length o)%nat → 0 ≤ position o p < 2 ^ Z.of_nat (length p).
Proof.
  intros Hl. pose proof (bitsZ_bound (zip_with xorb p (take (length p) o))) as Hb.
  by rewrite position_length in Hb.
Qed.

Lemma position_cons c o x p :
  (length p ≤ length o)%nat →
  position (c :: o) (x :: p) = Z.b2z (xorb x c) * 2 ^ Z.of_nat (length p) + position o p.
Proof.
  intros Hl. unfold position. cbn [length take zip_with]. rewrite bitsZ_cons.
  by rewrite position_length by done.
Qed.

(** The regions follow each other in the order of the cycle. *)
Lemma position_before o p q :
  (length p ≤ length o)%nat → (length q ≤ length o)%nat → before o p q = true →
  position o p * 2 ^ Z.of_nat (length q) < position o q * 2 ^ Z.of_nat (length p).
Proof.
  revert p q. induction o as [|c o IH]; intros [|x p] [|y q] Hp Hq; simpl in Hp, Hq; try lia; try done.
  simpl. intros Hb. rewrite !position_cons by lia.
  pose proof (position_bound o p ltac:(lia)). pose proof (position_bound o q ltac:(lia)).
  assert (0 < 2 ^ Z.of_nat (length p) ∧ 0 < 2 ^ Z.of_nat (length q)) as [Hpp Hpq]
    by (split; apply Z.pow_pos_nonneg; lia).
  destruct (eqb_spec x y) as [<-|Hne]; cbn [length];
    rewrite !Nat2Z.inj_succ, !Z.pow_succ_r by lia.
  - specialize (IH p q ltac:(lia) ltac:(lia) Hb). nia.
  - assert (xorb x c = false ∧ xorb y c = true) as [-> ->] by (by destruct x, y, c).
    cbn [Z.b2z]. nia.
Qed.

Lemma reprovideTimeForPrefix_eq prefix :
  (length prefix ≤ maxPrefixSize)%nat → reprovideInterval * 2 ^ Z.of_nat (length prefix) ≤ 2 ^ 63 →
  reprovideTimeForPrefix prefix =
    Some (reprovideInterval * position order prefix / 2 ^ Z.of_nat (length prefix)).
Proof.
  intros Hl Hb. pose proof interval_pos. unfold reprovideTimeForPrefix.
  assert (length prefix ≤ length order)%nat as Ho by (rewrite order_length; unfold maxPrefixSize, KeyLen in *; lia).
  case_decide as He.
  { destruct prefix; [|done]. cbn. by rewrite Z.mul_0_r. }
  cbv zeta. rewrite (decide_False (P := (maxPrefixSize < length prefix)%nat)) by lia.
  rewrite decide_False by lia. f_equal.
  fold (position order prefix). pose proof (position_bound order prefix Ho) as Hp.
  rewrite wrap64_id by (unfold in_int64; nia). apply Z.quot_div_nonneg; [nia|]. apply Z.pow_pos_nonneg; lia.
Qed.

(** C6: When the interval times the number of regions fits in 64 bits,
    [reprovideTimeForPrefix] is an offset of the cycle, the fraction of the
    interval that the position of the region in the XOR order to the node's
    key is of all regions of its size, and regions that follow each other in
    that order have times that do not decrease. *)
Theorem reprovideTimeForPrefix_correct p q :
  (length p ≤ maxPrefixSize)%nat → (length q ≤ maxPrefixSize)%nat →
  reprovideInterval * 2 ^ Z.of_nat (length p) ≤ 2 ^ 63 →
  reprovideInterval * 2 ^ Z.of_nat (length q) ≤ 2 ^ 63 →
  ∃ tp tq, reprovideTimeForPrefix p = Some tp ∧ reprovideTimeForPrefix q = Some tq ∧
    offset tp ∧ tp = reprovideInterval * position order p / 2 ^ Z.of_nat (length p) ∧
    (before order p q = true → tp ≤ tq).
Proof.
  intros Hp Hq Hbp Hbq. eexists _, _. split_and!.
  - by apply reprovideTimeForPrefix_eq.
  - by apply reprovideTimeForPrefix_eq.
  - pose proof interval_pos. pose proof (position_bound order p) as Hpb.
    rewrite order_length in Hpb. specialize (Hpb ltac:(unfold maxPrefixSize, KeyLen in *; lia)).
    split; [apply Z.div_pos; nia|]. apply Z.div_lt_upper_bound; nia.
  - done.
  - intros Hb. pose proof (position_before order p q) as Hpq. rewrite order_length in Hpq.
    specialize (Hpq ltac:(unfold maxPrefixSize, KeyLen in *; lia) ltac:(unfold maxPrefixSize, KeyLen in *; lia) Hb).
    pose proof interval_pos.
    assert (0 < 2 ^ Z.of_nat (length p) ∧ 0 < 2 ^ Z.of_nat (length q)) as [Hpp Hqq]
      by (split; apply Z.pow_pos_nonneg; lia).
    apply Z.div_le_lower_bound; [done|].
    pose proof (Z.mul_div_le (reprovideInterval * position order p) _ Hpp) as Hd.
    apply Z.nlt_ge. intros Hlt.
    apply (Z.mul_lt_mono_pos_l (2 ^ Z.of_nat (length p))) in Hlt; [|done].
    assert (reprovideInterval * (position order p * 2 ^ Z.of_nat (length q)) <
      reprovideInterval * (position order q * 2 ^ Z.of_nat (length p))) by (by apply Z.mul_lt_mono_pos_l).
    apply (Z.mul_le_mono_nonneg_r _ _ (2 ^ Z.of_nat (length q))) in Hd; [|lia]. nia.
Qed.
End times.
