(* ===== verification/ProviderInv.v ===== *)
(** * The invariant of the sweeping provider

    Every operation of [Provider], started in a state that satisfies
    [provInv], does not panic and ends in such a state, whatever the world
    answers. *)

From S2P Require Import Prelude Key Trie TrieSet Allocate Regions Deque PrefixQueue ProvideQueue.
From S2P Require Import GoTime Datastore GoMonad Provider Schedule.

Local Open Scope Z_scope.

(** What is known of the hashes and of the sorting of peers. *)
Class WorldOk {peerID mh addr} (W : World peerID mh addr) : Prop := {
  PeerIDToBit256_length : ∀ p, length (PeerIDToBit256 p) = KeyLen;
  PeerIDToBit256_inj : ∀ p q, PeerIDToBit256 p = PeerIDToBit256 q → p = q;
  MhToBit256_length : ∀ h, length (MhToBit256 h) = KeyLen;
  MhToBit256_inj : ∀ h h', MhToBit256 h = MhToBit256 h' → h = h';
}.

Section invariant.
Context {TL : TrieLib} {TLW : TrieLaws} {DL : DequeLib} {DLW : DequeLaws} {DSL : DsLib}.
Context {peerID mh addr : Type} {EP : EqDecision peerID} {CP : Countable peerID}.
Context {EM : EqDecision mh} {CM : Countable mh}.
Context {CFG : Config} {COK : ConfigOk} {W : World peerID mh addr} {WOK : WorldOk W}.

Abbreviation state := (@SweepingProvider DL DSL peerID mh addr).
Abbreviation M := (GoM state).
Implicit Types (s : state) (p k : key) (hs : list mh).

Definition taskOk (t : task mh) : Prop :=
  match t with
  | TaskReprovide p | TaskBurstReprovide p => (length p ≤ KeyLen)%nat
  | TaskBatchProvide p hs => Forall (λ h, p ≼ MhToBit256 h) hs
  | _ => True
  end.

(** The schedule holds the cursor. *)
Definition cursorOk s : Prop := schedule s ≠ Empty → scheduleCursor s ∈ keys (schedule s).

(** The timer is armed while there is a region to reprovide. *)
Definition armed s : Prop := schedule s ≠ Empty → is_Some (scheduleTimer s).

Record baseInv s : Prop := {
  inv_schedule : wf (schedule s);
  inv_bounded : bounded KeyLen (schedule s);
  inv_cursor : cursorOk s;
  inv_active : wf (activeReprovides s);
  inv_rq : pqInv (rq_queue (reprovideQueue s));
  inv_pq : pvqInv MhToBit256 (provideQueue s);
  inv_avg : -1 ≤ cachedAvgPrefixLen s ≤ Z.of_nat KeyLen;
  inv_tasks : Forall taskOk (tasks s);
}.

Definition provInv s : Prop := baseInv s ∧ armed s.

(** [m] keeps the invariant and its result is in [P]. *)
Definition safe {A} (P : A → Prop) (m : M A) : Prop :=
  ∀ s, provInv s → wp m (λ a s', provInv s' ∧ P a) s.

Abbreviation safe_ := (safe (λ _, True)).

(** ** Composition *)

Lemma safe_ret {A} (P : A → Prop) a : P a → safe P (mret a).
Proof. intros HP s Hs. by apply wp_ret. Qed.

Lemma safe_bind {A B} (P : A → Prop) (Q : B → Prop) (m : M A) (f : A → M B) :
  safe P m → (∀ a, P a → safe Q (f a)) → safe Q (m ≫= f).
Proof.
  intros Hm Hf s Hs. apply wp_bind. eapply wp_mono; [by apply Hm|].
  intros a s' [Hs' HP]. by apply Hf.
Qed.

Lemma safe_seq {A B} (Q : B → Prop) (m : M A) (m' : M B) : safe_ m → safe Q m' → safe Q (m ;; m').
Proof. intros Hm Hm'. eapply safe_bind; [exact Hm|]. by intros _ _. Qed.

Lemma safe_mono {A} (P Q : A → Prop) (m : M A) : safe P m → (∀ a, P a → Q a) → safe Q m.
Proof. intros Hm H s Hs. eapply wp_mono; [by apply Hm|]. intros a s' [? ?]. auto. Qed.

Lemma safe_when c (m : M ()) : (c = true → safe_ m) → safe_ (whenM c m).
Proof. intros H. destruct c; [by apply H|by apply safe_ret]. Qed.

(** Reading the state gives its invariant. *)
Lemma safe_state {B} (Q : B → Prop) (f : state → M B) :
  (∀ s, provInv s → wp (f s) (λ a s', provInv s' ∧ Q a) s) → safe Q (s ← gets id; f s).
Proof. intros H s Hs. apply wp_bind, wp_gets. by apply H. Qed.

Lemma safe_forM {A} (l : list A) (f : A → M ()) : (∀ x, x ∈ l → safe_ (f x)) → safe_ (forM l f).
Proof.
  intros Hf. induction l as [|x l IH]; cbn [forM]; [by apply safe_ret|].
  apply safe_seq; [apply Hf; set_solver|]. apply IH. intros y Hy. apply Hf. set_solver.
Qed.

Lemma safe_modify (f : state → state) : (∀ s, provInv s → provInv (f s)) → safe_ (modify f).
Proof. intros H s Hs. apply wp_modify. auto. Qed.

(** Fields that the invariant does not mention. *)
Lemma provInv_log n ev ts s : provInv s → Forall taskOk ts → provInv (set_log n ev ts s).
Proof. intros [[] ?] Hts. split; [by constructor|done]. Qed.

Lemma safe_ask {A} (f : nat → A) : safe (λ a, ∃ i, a = f i) (ask f).
Proof.
  intros s Hs. unfold ask. repeat wp_step. split; [|eauto].
  apply provInv_log; [done|]. apply Hs.
Qed.

Lemma safe_emit e : safe_ (emit e).
Proof. apply safe_modify. intros s Hs. apply provInv_log; [done|]. apply Hs. Qed.

Lemma safe_spawn t : taskOk t → safe_ (spawn t).
Proof.
  intros Ht. apply safe_modify. intros s Hs. apply provInv_log; [done|].
  apply Forall_app. split; [apply Hs|]. by apply Forall_singleton.
Qed.

Lemma provInv_ds gc d s : provInv s → provInv (set_ds gc d s).
Proof. intros [[] ?]. split; [by constructor|done]. Qed.

Lemma provInv_locks a b c s : provInv s → provInv (set_locks a b c s).
Proof. intros [[] ?]. split; [by constructor|done]. Qed.

Lemma provInv_boot b s : provInv s → provInv (set_boot b s).
Proof. intros [[] ?]. split; [by constructor|done]. Qed.

Lemma provInv_avg len t s : provInv s → -1 ≤ len ≤ Z.of_nat KeyLen → provInv (set_avg len t s).
Proof. intros [[] ?] ?. split; [by constructor|done]. Qed.

Lemma provInv_active t s : provInv s → wf t → provInv (set_active t s).
Proof. intros [[] ?] ?. split; [by constructor|done]. Qed.

Lemma provInv_queues pq rq s :
  provInv s → pvqInv MhToBit256 pq → pqInv (rq_queue rq) → provInv (set_queues pq rq s).
Proof. intros [[] ?] ? ?. split; [by constructor|done]. Qed.

(** ** Queues *)

Lemma safe_enqueueReprovide ps :
  Forall (λ p, (length p ≤ KeyLen)%nat) ps → safe_ (enqueueReprovide ps).
Proof.
  intros Hps. apply safe_state. intros s Hs.
  destruct (Push_spec (rq_queue (reprovideQueue s)) ps) as (q & Hq & Hinv & _); [apply Hs|done|].
  apply wp_bind. eapply wp_lift; [unfold RQ_Enqueue; by rewrite Hq|].
  apply wp_modify. split; [|done]. by apply provInv_queues; [|apply Hs|].
Qed.

Lemma safe_removeReprovide p : safe_ (removeReprovide p).
Proof.
  apply safe_state. intros s Hs.
  destruct (Remove_spec (rq_queue (reprovideQueue s)) p) as (q & Hq & Hinv & _); [apply Hs|].
  apply wp_bind. eapply wp_lift; [unfold RQ_Remove; by rewrite Hq|].
  apply wp_modify. split; [|done]. by apply provInv_queues; [|apply Hs|].
Qed.

Lemma safe_enqueueProvide p hs :
  Forall (λ h, p ≼ MhToBit256 h) hs → safe_ (enqueueProvide p hs).
Proof.
  intros Hhs. apply safe_state. intros s Hs.
  destruct (Enqueue_spec MhToBit256 MhToBit256_length MhToBit256_inj (provideQueue s) p hs)
    as (q & Hq & Hinv & _); [apply Hs|done|].
  apply wp_bind. eapply wp_lift; [exact Hq|]. apply wp_modify. split; [|done].
  by apply provInv_queues; [| |apply Hs].
Qed.

Lemma safe_dequeueMatching p :
  safe (λ hs, Forall (λ h, p ≼ MhToBit256 h) hs) (dequeueMatching p).
Proof.
  apply safe_state. intros s Hs.
  destruct (DequeueMatching_spec MhToBit256 MhToBit256_length MhToBit256_inj (provideQueue s) p)
    as (q & hs & Hq & _ & Hin & Hinv & _); [apply Hs|].
  apply wp_bind. eapply wp_lift; [exact Hq|]. repeat wp_step. split.
  - by apply provInv_queues; [| |apply Hs].
  - apply Forall_forall. intros h Hh. by apply Hin.
Qed.

(** ** The schedule *)

(** Only the schedule, its cursor and its timer change. *)
Definition resched t c timer started n s : state :=
  set_schedule t (set_cursor c timer started (set_log n (events s) (tasks s) s)).

Lemma resched_log n s : set_log n (events s) (tasks s) s =
  resched (schedule s) (scheduleCursor s) (scheduleTimer s) (scheduleTimerStartedAt s) n s.
Proof. by destruct s. Qed.

(** What a change of the schedule has to keep. *)
Definition scheduleOk (t : trie Z) c (timer : option Z) : Prop :=
  wf t ∧ bounded KeyLen t ∧ (t ≠ Empty → c ∈ keys t ∧ is_Some timer).

Lemma provInv_scheduleOk s :
  provInv s → scheduleOk (schedule s) (scheduleCursor s) (scheduleTimer s).
Proof. intros [[] ?]. by repeat split; auto. Qed.

Lemma provInv_resched t c timer started n s :
  provInv s → scheduleOk t c timer → provInv (resched t c timer started n s).
Proof. intros [[] ?] (? & ? & Hc). split; [constructor; try done|]; intros ?; by apply Hc. Qed.

(** Calls to the clock. *)
Lemma wp_ask {A} (f : nat → A) Q s :
  (∀ a, Q a (set_log (S (calls s)) (events s) (tasks s) s)) → wp (ask f) Q s.
Proof. intros H. unfold ask. repeat wp_step. apply H. Qed.

Lemma wp_timeUntil d Q s :
  (∀ a, Q a (set_log (S (calls s)) (events s) (tasks s) s)) → wp (timeUntil d) Q s.
Proof.
  intros H. unfold timeUntil, currentTimeOffset. do 2 apply wp_bind. apply wp_ask. intros a.
  repeat wp_step. apply H.
Qed.

Lemma wp_scheduleNext p d Q s :
  (∀ started, Q tt (resched (schedule s) p (Some d) started (S (calls s)) s)) →
  wp (scheduleNextReprovideNoLock p d) Q s.
Proof. intros H. apply wp_bind, wp_ask. intros a. apply wp_modify. apply (H a). Qed.

(** A key none of the others overlaps stays admissible in a smaller trie. *)
Lemma admissible_notBelow {D} (t t' : trie D) p c :
  wf t → entries t' = notBelow p (entries t) → (t ≠ Empty → c ∈ keys t) → admissible t' c.
Proof.
  intros Hw He Hc k' Hk' Ho. rewrite He in Hk'.
  apply list_elem_of_fmap in Hk' as (e & -> & Hk'). apply elem_of_notBelow in Hk' as [_ Hk'].
  assert (e.1 ∈ keys t) as Hin by (by apply list_elem_of_fmap_2).
  eapply (wf_at_antichain []); [done|done| |by apply overlap_sym].
  apply Hc. intros ->. by apply not_elem_of_nil in Hk'.
Qed.

Lemma bounded_order {D} (t : trie D) : bounded KeyLen t → bounded (length order) t.
Proof. by rewrite order_length. Qed.

(** The next leaf is in the trie, and there is one unless it is empty. *)
Lemma NextNonEmptyLeaf_in {D} (t : trie D) k :
  wf t → bounded KeyLen t → admissible t k →
  ∃ r, NextNonEmptyLeaf t k order = Some r ∧
    match r with Some e => e ∈ entries t | None => t = Empty end.
Proof.
  intros Hw Hb Ha. eexists. split; [apply NextNonEmptyLeaf_spec; [done|by apply bounded_order|done]|].
  destruct (after _ _ _ ++ _) as [|e l] eqn:E; cbn [head].
  - apply app_nil in E as [_ E]. apply (wf_at_empty []); [done|].
    pose proof (ordered_Permutation order 0 t) as Hp. rewrite E in Hp. by apply Permutation_nil_l in Hp.
  - assert (e ∈ after order k (ordered order 0 t) ++ ordered order 0 t) as Hin by (rewrite E; set_solver).
    apply elem_of_app in Hin as [Hin|Hin]; [apply list_elem_of_filter in Hin as [_ Hin]|];
      by apply elem_of_ordered in Hin.
Qed.

Lemma IsBitstrPrefix_prefix p k : IsBitstrPrefix p k = true ↔ p ≼ k.
Proof.
  unfold IsBitstrPrefix. rewrite andb_true_iff, !bool_decide_eq_true. symmetry. apply prefix_take_eq.
Qed.

Lemma unschedule_spec p s :
  provInv s →
  wp (unscheduleSubsumedPrefixesNoLock p) (λ _ s', ∃ t c timer started n,
    s' = resched t c timer started n s ∧ scheduleOk t c timer ∧
    entries t = notBelow p (entries (schedule s))) s.
Proof.
  intros Hs. pose proof (provInv_scheduleOk s Hs) as (Hw & Hb & Hc).
  unfold unscheduleSubsumedPrefixesNoLock. apply wp_bind, wp_gets. cbn [id].
  destruct (PruneSubtrie_spec (schedule s) p Hw) as (t & Ht & Hwt & He).
  apply wp_bind. eapply wp_lift; [exact Ht|]. apply wp_bind, wp_modify.
  pose proof (bounded_notBelow _ _ _ _ He Hb) as Hbt.
  assert (t ≠ Empty → schedule s ≠ Empty) as Hne.
  { intros Hn Hs0. rewrite Hs0 in He. by apply (wf_at_empty []) in He. }
  destruct (IsBitstrPrefix p (scheduleCursor s)) eqn:Hpre.
  - destruct (NextNonEmptyLeaf_in t (scheduleCursor s)) as (r & Hr & Hin); [done|done| |].
    { eapply admissible_notBelow; [exact Hw|exact He|]. intros Hn. by apply Hc. }
    apply wp_bind. eapply wp_lift; [exact Hr|]. destruct r as [[k d]|].
    + apply wp_bind, wp_timeUntil. intros a. apply wp_scheduleNext. intros started.
      eexists t, k, _, _, _. split; [reflexivity|]. split_and!; [|done]. repeat split; [done|done| |done].
      by apply (list_elem_of_fmap_2 fst) in Hin.
    + apply wp_scheduleNext. intros started.
      eexists t, p, _, _, _. split; [reflexivity|]. split; [|done]. by repeat split.
  - apply wp_ret. eexists t, (scheduleCursor s), (scheduleTimer s), (scheduleTimerStartedAt s), (calls s).
    split; [by destruct s|]. split; [|done]. split_and!; [done|done|]. intros Hn.
    destruct (Hc (Hne Hn)) as [Hin Htm]. split; [|done]. rewrite He.
    apply list_elem_of_fmap in Hin as (e & Hce & Hin). apply list_elem_of_fmap. exists e. split; [done|].
    apply elem_of_notBelow. split; [|done]. rewrite <-Hce. intros Hp.
    apply IsBitstrPrefix_prefix in Hp. congruence.
Qed.

Lemma reprovideTimeForPrefix_some p :
  (length p ≤ KeyLen)%nat → is_Some (reprovideTimeForPrefix p).
Proof.
  intros Hl. unfold reprovideTimeForPrefix. case_decide; [done|]. cbv zeta.
  rewrite decide_False; [done|]. rewrite order_length. case_decide; [rewrite length_take|]; lia.
Qed.

(** [t'] is the schedule [t] with the region [p]: unchanged if a scheduled
    region covers [p]; otherwise [p] replaces the regions below it. *)
Definition scheduledIn p (d : Z) (t t' : trie Z) : Prop :=
  (∃ q, q ∈ keys t ∧ q ≼ p ∧ t' = t) ∨
  ((∀ q, q ∈ keys t → ¬ q ≼ p) ∧ entries t' ≡ₚ (p, d) :: notBelow p (entries t)).

Lemma admissible_new {D} (t t' : trie D) p :
  entries t' = notBelow p (entries t) → (∀ q, q ∈ keys t → ¬ q ≼ p) → admissible t' p ∧ p ∉ keys t'.
Proof.
  intros He Hno.
  assert (∀ q, q ∈ keys t' → ¬ overlap p q) as Hn.
  { intros q Hq. rewrite He in Hq. apply list_elem_of_fmap in Hq as (e & -> & [Hp Hin]%elem_of_notBelow).
    intros [?|?]; [done|]. by apply (Hno e.1); [apply list_elem_of_fmap_2|]. }
  split; [intros q Hq Ho; by destruct (Hn q Hq)|]. intros Hp. by apply (Hn p Hp), overlap_refl.
Qed.

(** The time at which the region [p] is scheduled. *)
Definition timeFor p (justReprovided : bool) (d : Z) : Prop :=
  ∃ next i, reprovideTimeForPrefix p = Some next ∧
    d = if justReprovided
        then Z.min next (wrap64 (timeOffset (w_Now i) + reprovideInterval + maxReprovideDelay)) else next.

Lemma schedulePrefix_spec p b s :
  provInv s → (length p ≤ KeyLen)%nat →
  wp (schedulePrefixNoLock p b) (λ _ s', ∃ t c timer started n d,
    s' = resched t c timer started n s ∧ scheduleOk t c timer ∧ scheduledIn p d (schedule s) t ∧
    timeFor p b d) s.
Proof.
  intros Hs Hl. destruct (reprovideTimeForPrefix_some p Hl) as [next Hnext].
  unfold schedulePrefixNoLock. apply wp_bind. eapply wp_lift; [exact Hnext|]. apply wp_bind.
  assert (∀ Q, (∀ d n, timeFor p b d → Q d (set_log n (events s) (tasks s) s)) →
    wp (if b then off ← currentTimeOffset;
          mret (Z.min next (wrap64 (off + reprovideInterval + maxReprovideDelay)))
        else mret next) Q s) as Htime.
  { intros Q HQ. destruct b.
    - unfold currentTimeOffset, Now, ask. repeat wp_step. apply HQ. exists next, (calls s). done.
    - apply wp_ret. replace s with (set_log (calls s) (events s) (tasks s) s) by (by destruct s).
      apply HQ. by exists next, 0%nat. }
  apply Htime. clear Htime. intros d n Hd.
  set (s1 := set_log n (events s) (tasks s) s).
  assert (provInv s1) as Hs1 by (apply provInv_log; [done|apply Hs]).
  pose proof (provInv_scheduleOk s1 Hs1) as Hok. pose proof Hok as (Hw & Hb & Hc).
  apply wp_bind, wp_gets. cbn [id]. apply wp_bind.
  destruct (FindPrefixOfKey_spec (schedule s1) p Hw) as [(r & Hr & Hin & Hpre)|(r & Hr & Hno)];
    (eapply wp_lift; [exact Hr|]; wp_red).
  { apply wp_ret. eexists _, _, _, _, _, d. split; [apply resched_log|]. split_and!; [done| |done].
    left. by exists r. }
  apply wp_bind. eapply wp_mono; [by apply unschedule_spec|].
  intros [] s2 (t & c & timer & started & n2 & -> & (Hwt & Hbt & Hct) & He). cbn [schedule s1 resched set_log] in He.
  apply wp_bind, wp_modify. apply wp_bind, wp_gets. cbn [id].
  destruct (admissible_new _ t p He Hno) as [Ha Hp].
  assert (wf (trie_Add t p d)) as Hwa by (by apply Add_wf).
  assert (bounded KeyLen (trie_Add t p d)) as Hba by (by apply bounded_Add).
  assert (entries (trie_Add t p d) ≡ₚ (p, d) :: notBelow p (entries (schedule s))) as Hea
    by (by rewrite Add_new, He).
  assert (p ∈ keys (trie_Add t p d)) as Hpa.
  { rewrite Hea. apply list_elem_of_fmap. exists (p, d). split; [done|set_solver]. }
  assert (scheduledIn p d (schedule s) (trie_Add t p d)) as Hin by (by right).
  set (s3 := set_schedule _ _). change (schedule s3) with (trie_Add t p d).
  destruct (IsNonEmptyLeaf (trie_Add t p d)) eqn:Hleaf.
  { apply wp_bind, wp_timeUntil. intros a. apply wp_scheduleNext. intros st.
    eexists (trie_Add t p d), p, _, st, _, d. split; [reflexivity|]. split_and!; [|done|done].
    repeat split; [done|done|done|done]. }
  destruct (NextNonEmptyLeaf_in (trie_Add t p d) p Hwa Hba) as (nx & Hnx & Hnin).
  { by eapply admissible_present. }
  apply wp_bind. eapply wp_lift; [exact Hnx|]. destruct nx as [[fk fd]|]; [|by rewrite Hnin in Hpa; apply not_elem_of_nil in Hpa].
  apply wp_bind. eapply wp_lift; [reflexivity|]. wp_red.
  change (scheduleCursor s3) with c.
  assert (t ≠ Empty → scheduleOk (trie_Add t p d) c timer) as Hold.
  { intros Hn. split_and!; [done|done|]. intros _. destruct (Hct Hn) as [Hc1 Hc2]. split; [|done].
    apply Add_keys; [done|done|]. by right. }
  assert (t ≠ Empty) as Htn.
  { intros ->. rewrite Add_empty in Hleaf. done. }
  assert (∃ t0 c0 timer0 started0 n0 d0, s3 = resched t0 c0 timer0 started0 n0 s ∧
      scheduleOk t0 c0 timer0 ∧ scheduledIn p d0 (schedule s) t0 ∧
      timeFor p b d0) as Hkeep.
  { eexists (trie_Add t p d), c, timer, started, n2, d. split; [reflexivity|]. split_and!; [by apply Hold|done|done]. }
  case_decide as Hfk; [|by apply wp_ret].
  apply wp_bind, wp_timeUntil. intros a. cbv zeta. apply wp_bind, wp_timeUntil. intros a'. case_decide.
  - apply wp_scheduleNext. intros st.
    eexists (trie_Add t p d), p, _, st, _, d. split; [reflexivity|]. split_and!; [|done|done].
    repeat split; [done|done|done|done].
  - apply wp_ret. eexists (trie_Add t p d), c, timer, started, _, d. split; [reflexivity|].
    split_and!; [by apply Hold|done|done].
Qed.

Lemma safe_schedulePrefix p b : (length p ≤ KeyLen)%nat → safe_ (schedulePrefixNoLock p b).
Proof.
  intros Hl s Hs. eapply wp_mono; [by apply schedulePrefix_spec|].
  intros [] s' (t & c & timer & started & n & d & -> & Hok & _). split; [|done]. by apply provInv_resched.
Qed.

Lemma safe_unschedule p : safe_ (unscheduleSubsumedPrefixesNoLock p).
Proof.
  intros s Hs. eapply wp_mono; [by apply unschedule_spec|].
  intros [] s' (t & c & timer & started & n & -> & Hok & _). split; [|done]. by apply provInv_resched.
Qed.

(** ** The advance of the schedule *)

Lemma wp_enqueueReprovide ps (Q : () → state → Prop) s :
  pqInv (rq_queue (reprovideQueue s)) → Forall (λ p, (length p ≤ KeyLen)%nat) ps →
  (∀ q, pqInv (rq_queue q) →
    contents (rq_queue q) = foldl pushSpec (contents (rq_queue (reprovideQueue s))) ps →
    Q tt (set_queues (provideQueue s) q s)) →
  wp (enqueueReprovide ps) Q s.
Proof.
  intros Hrq Hps HQ. unfold enqueueReprovide. apply wp_bind, wp_gets. cbn [id].
  destruct (Push_spec _ ps Hrq Hps) as (q & Hq & Hinv & Hc).
  apply wp_bind. eapply wp_lift; [unfold RQ_Enqueue; by rewrite Hq|]. apply wp_modify. by apply HQ.
Qed.

Lemma keys_bounded (t : trie Z) (e : key * Z) : bounded KeyLen t → e ∈ entries t → (length e.1 ≤ KeyLen)%nat.
Proof. intros Hb He. apply (bounded_elem _ _ _ Hb). by apply list_elem_of_fmap_2. Qed.

(** The loop over the late regions from [next]: the regions enqueued are the
    [late] ones, each the successor of the previous one; the loop ends at the
    first region that is not late, or when all were visited. *)
Lemma enqueueLate_spec n startedOff running next s :
  wf (schedule s) → bounded KeyLen (schedule s) → pqInv (rq_queue (reprovideQueue s)) →
  next ∈ entries (schedule s) →
  wp (enqueueLate n startedOff running next) (λ next' s', ∃ q late,
    s' = set_queues (provideQueue s) q s ∧ pqInv (rq_queue q) ∧
    contents (rq_queue q) = foldl pushSpec (contents (rq_queue (reprovideQueue s))) late.*1 ∧
    next' ∈ entries (schedule s) ∧ (length late ≤ n)%nat ∧
    Forall (λ e, e ∈ entries (schedule s) ∧ timeBetween startedOff e.2 < running) late ∧
    head (late ++ [next']) = Some next ∧
    (∀ i e e', (late ++ [next']) !! i = Some e → (late ++ [next']) !! S i = Some e' →
      NextNonEmptyLeaf (schedule s) e.1 order = Some (Some e')) ∧
    ((length late < n)%nat → ¬ timeBetween startedOff next'.2 < running)) s.
Proof.
  intros Hw Hb. revert next s Hw Hb. induction n as [|n IH]; intros next s Hw Hb Hrq Hin; cbn [enqueueLate].
  - apply wp_ret. exists (reprovideQueue s), []. split_and!; [by destruct s|done|done|done|done|constructor|done| |cbn; lia].
    by intros [|i] e e' H1 H2.
  - case_decide as Hlate.
    2: { apply wp_ret. exists (reprovideQueue s), []. split_and!; [by destruct s|done|done|done|cbn; lia|constructor|done| |done].
         by intros [|i] e e' H1 H2. }
    apply wp_bind, wp_enqueueReprovide; [done|apply Forall_singleton; by eapply keys_bounded|].
    intros q Hq Hc. apply wp_bind, wp_gets. cbn [id]. cbn [schedule set_queues].
    destruct (NextNonEmptyLeaf_in (schedule s) next.1 Hw Hb) as (r & Hr & Hrin).
    { eapply admissible_present; [done|]. by apply list_elem_of_fmap_2. }
    apply wp_bind. eapply wp_lift; [exact Hr|]. destruct r as [nx|]; [|by rewrite Hrin in Hin; apply not_elem_of_nil in Hin].
    apply wp_bind. eapply wp_lift; [reflexivity|].
    eapply wp_mono; [apply IH; done|].
    intros next' s' (q' & late & -> & Hq' & Hc' & Hn' & Hln & Hall & Hhd & Hsucc & Hend).
    cbn [schedule reprovideQueue provideQueue set_queues] in *.
    exists q', (next :: late). split_and!; try done.
    + rewrite Hc', Hc. done.
    + cbn [length]. lia.
    + constructor; [done|]. done.
    + intros i e e' H1 H2. destruct i as [|i]; [|by eapply (Hsucc i)].
      cbn in H1. injection H1 as <-. rewrite Hr. f_equal.
      destruct (late ++ [next']) as [|x l] eqn:E; [by destruct late|]. cbn in Hhd, H2. rewrite E in H2. cbn in H2. congruence.
    + cbn [length]. intros ?. apply Hend. lia.
Qed.

(** The region of [k] waits in the reprovide queue. *)
Definition queued s k : Prop := ∃ x, x ∈ contents (rq_queue (reprovideQueue s)) ∧ x ≼ k.

Lemma pushSpec_fold l ps k :
  (∃ x, x ∈ foldl pushSpec l ps ∧ x ≼ k) ↔ (∃ p, p ∈ ps ∧ p ≼ k) ∨ ∃ x, x ∈ l ∧ x ≼ k.
Proof.
  revert l. induction ps as [|p ps IH]; intros l; cbn [foldl].
  - split; [by right|]. intros [(p & Hp & _)|?]; [by apply not_elem_of_nil in Hp|done].
  - rewrite IH, pushSpec_covers. setoid_rewrite elem_of_cons. naive_solver.
Qed.

(** The regions met from the successor of [c] on, each the successor of the
    previous one, up to [next]. *)
Definition passed (t : trie Z) c (late : list (key * Z)) (next : key * Z) : Prop :=
  (∃ first, NextNonEmptyLeaf t c order = Some (Some first) ∧ head (late ++ [next]) = Some first) ∧
  ∀ i e e', (late ++ [next]) !! i = Some e → (late ++ [next]) !! S i = Some e' →
    NextNonEmptyLeaf t e.1 order = Some (Some e').

Lemma forM_enqueue_spec (l : list (key * Z)) s :
  pqInv (rq_queue (reprovideQueue s)) → Forall (λ e, (length e.1 ≤ KeyLen)%nat) l →
  wp (forM l (λ e, enqueueReprovide [e.1])) (λ _ s', ∃ q, s' = set_queues (provideQueue s) q s ∧
    pqInv (rq_queue q) ∧
    contents (rq_queue q) = foldl pushSpec (contents (rq_queue (reprovideQueue s))) l.*1) s.
Proof.
  revert s. induction l as [|e l IH]; intros s Hrq Hl; cbn [forM].
  - apply wp_ret. exists (reprovideQueue s). by destruct s.
  - apply Forall_cons in Hl as [He Hl]. apply wp_bind, wp_enqueueReprovide; [done|by apply Forall_singleton|].
    intros q Hq Hc. eapply wp_mono; [apply IH; done|]. intros [] s' (q' & -> & Hq' & Hc').
    exists q'. cbn in Hc'. rewrite Hc in Hc'. done.
Qed.

Lemma baseInv_queue s q : baseInv s → pqInv (rq_queue q) → baseInv (set_queues (provideQueue s) q s).
Proof. intros [] ?. by constructor. Qed.

Lemma baseInv_log n s : baseInv s → baseInv (set_log n (events s) (tasks s) s).
Proof. intros []. by constructor. Qed.

(** Moving the cursor to a scheduled region and arming the timer. *)
Lemma baseInv_arm s e timer started n :
  baseInv s → e ∈ entries (schedule s) →
  provInv (resched (schedule s) e.1 (Some timer) started n s).
Proof.
  intros [] He. split; [constructor; try done|by intros _]. intros _. cbn. by apply list_elem_of_fmap_2.
Qed.

Lemma nextAfterBlock_in l off : l ≠ [] → ∃ e, nextAfterBlock l off = Some e ∧ e ∈ l.
Proof.
  intros Hl. unfold nextAfterBlock. destruct (list_find _ l) as [[i e]|] eqn:E.
  - exists e. split; [done|]. apply list_find_Some in E as (Hi & _). by eapply list_elem_of_lookup_2.
  - destruct l as [|e l]; [done|]. exists e. split; [done|set_solver].
Qed.

Lemma advanceSchedule_spec s :
  baseInv s →
  wp advanceSchedule (λ r s', provInv s' ∧ schedule s' = schedule s ∧ tasks s' = tasks s ∧
    (∀ k, queued s k → queued s' k) ∧
    match r with
    | None => ∀ k, k ∈ keys (schedule s) → queued s' k
    | Some c => c = scheduleCursor s ∧ c ∈ keys (schedule s) ∧ ∃ late next,
        passed (schedule s) c late next ∧ scheduleCursor s' = next.1 ∧
        ∀ e, e ∈ late → e ∈ entries (schedule s) ∧ queued s' e.1
    end) s.
Proof.
  intros Hs. pose proof Hs as [Hw Hb Hc _ Hrq _ _ _]. unfold advanceSchedule.
  apply wp_bind, wp_gets. cbn [id].
  destruct (NextNonEmptyLeaf_in (schedule s) (scheduleCursor s) Hw Hb) as (r & Hr & Hin).
  { intros k' Hk' Ho. eapply (wf_at_antichain []); [done|done| |by apply overlap_sym].
    apply Hc. intros He. rewrite He in Hk'. by apply not_elem_of_nil in Hk'. }
  apply wp_bind. eapply wp_lift; [exact Hr|]. destruct r as [next|].
  2: { apply wp_ret. split; [split; [done|by intros ?]|]. split_and!; [done|done|done|]. rewrite Hin. by intros k ?%not_elem_of_nil. }
  assert (schedule s ≠ Empty) as Hne by (intros He; rewrite He in Hin; by apply not_elem_of_nil in Hin).
  pose proof (Hc Hne) as Hcur.
  assert (∀ late nx, head (late ++ [nx]) = Some next →
    (∀ i e e', (late ++ [nx]) !! i = Some e → (late ++ [nx]) !! S i = Some e' →
      NextNonEmptyLeaf (schedule s) e.1 order = Some (Some e')) →
    passed (schedule s) (scheduleCursor s) late nx) as Hpassed by (intros late nx Hh Hch; split; eauto).
  case_decide as Hsame.
  { destruct (reprovideTimeForPrefix_some (scheduleCursor s)) as [t Ht].
    { by apply (bounded_elem _ _ _ Hb). }
    apply wp_bind. eapply wp_lift; [exact Ht|]. apply wp_bind, wp_timeUntil. intros a.
    apply wp_bind, wp_scheduleNext. intros st. apply wp_ret. rewrite <-Hsame.
    split; [by apply (baseInv_arm _ next), Hin; apply baseInv_log|]. split_and!; [done|done|done|done|by rewrite Hsame|].
    exists [], next. split_and!; [|done|by intros e ?%not_elem_of_nil]. rewrite Hsame. apply Hpassed; [done|].
    by intros [|i] e e' H1 H2. }
  unfold currentTimeOffset. do 2 apply wp_bind. apply wp_ask. intros off. apply wp_ret. cbv zeta.
  apply wp_bind, wp_ask. intros now. set (s1 := set_log _ _ _ (set_log _ _ _ s)).
  assert (baseInv s1) as Hs1 by (by do 2 apply baseInv_log). case_decide as Hblock.
  - pose proof (trieIter_ordered order (schedule s) (λ e, e) Hw (bounded_order _ Hb)) as Hiter.
    rewrite list_fmap_id in Hiter. apply wp_bind. eapply wp_lift; [exact Hiter|].
    apply wp_bind. eapply wp_mono; [apply forM_enqueue_spec; [done|]|].
    { apply Forall_forall. intros e He%elem_of_ordered. by eapply keys_bounded. }
    intros [] s2 (q & -> & Hq & Hcq).
    destruct (nextAfterBlock_in (ordered order 0 (schedule s)) (timeOffset off)) as (e & He & Hein).
    { intros Hn. apply (elem_of_ordered order 0 (schedule s) next) in Hin. rewrite Hn in Hin. by apply not_elem_of_nil in Hin. }
    apply elem_of_ordered in Hein. apply wp_bind. eapply wp_lift; [exact He|].
    apply wp_bind, wp_timeUntil. intros a. apply wp_bind, wp_scheduleNext. intros st. apply wp_ret.
    split; [by apply (baseInv_arm _ e), Hein; apply baseInv_log, baseInv_queue|].
    assert (∀ k, (∃ x, x ∈ contents (rq_queue q) ∧ x ≼ k) ↔
      (∃ p, p ∈ (ordered order 0 (schedule s)).*1 ∧ p ≼ k) ∨ queued s k) as Hcov.
    { intros k. rewrite Hcq. apply pushSpec_fold. }
    split_and!; [done|done| |].
    + intros k Hk. apply Hcov. by right.
    + intros k Hk. apply Hcov. left. exists k. split; [|done]. by rewrite ordered_Permutation.
  - apply wp_bind. eapply wp_mono; [apply (enqueueLate_spec _ _ _ next s1); done|].
    intros nx s2 (q & late & -> & Hq & Hcq & Hnx & _ & Hall & Hhd & Hch & _). rewrite Forall_forall in Hall.
    apply wp_bind, wp_timeUntil. intros a. apply wp_bind, wp_scheduleNext. intros st. apply wp_ret.
    split; [by apply (baseInv_arm _ nx), Hnx; apply baseInv_log, baseInv_queue|].
    assert (∀ k, (∃ x, x ∈ contents (rq_queue q) ∧ x ≼ k) ↔
      (∃ p, p ∈ late.*1 ∧ p ≼ k) ∨ queued s k) as Hcov.
    { intros k. rewrite Hcq. apply pushSpec_fold. }
    split_and!; [done|done| |done|done|].
    + intros k Hk. apply Hcov. by right.
    + exists late, nx. split_and!; [by apply Hpassed|done|]. intros e He. split; [by apply Hall|]. apply Hcov. left.
      exists e.1. split; [|done]. by apply list_elem_of_fmap_2.
Qed.

(** ** Average prefix length *)

Lemma prefixLenSum_bound (ks : list key) n :
  Forall (λ k, (length k ≤ KeyLen)%nat) ks →
  n ≤ foldl (λ n k, n + Z.of_nat (length k)) n ks ≤ n + Z.of_nat KeyLen * Z.of_nat (length ks).
Proof.
  revert n. induction ks as [|k ks IH]; intros n Hks; cbn [foldl length]; [lia|].
  apply Forall_cons in Hks as [Hk Hks]. specialize (IH (n + Z.of_nat (length k)) Hks). lia.
Qed.

Lemma quot_avg a n m : 0 < n → 0 ≤ a ≤ m * n → 0 ≤ Z.quot a n ≤ m.
Proof.
  intros Hn Ha. rewrite Z.quot_div_nonneg by lia. split; [apply Z.div_pos; lia|].
  apply Z.div_le_upper_bound; lia.
Qed.

Lemma safe_getAvgPrefixLen : safe (λ l, -1 ≤ l ≤ Z.of_nat KeyLen) getAvgPrefixLenNoLock.
Proof.
  apply safe_state. intros s Hs. pose proof Hs as [[Hw Hb _ _ _ _ Havg _] _]. case_decide.
  { apply wp_ret. split; [done|lia]. }
  assert (∀ n, provInv (set_log n (events s) (tasks s) s)) as Hlog by (intros n; by apply provInv_log; [|apply Hs]).
  apply wp_bind, wp_ask. intros now. case_decide; [apply wp_ret; by split|].
  destruct (IsEmptyLeaf (schedule s)) eqn:He; [apply wp_ret; by split|].
  apply IsEmptyLeaf_false in He.
  apply wp_bind. eapply wp_lift; [apply (trieIter_ordered order (schedule s) fst Hw (bounded_order _ Hb))|].
  cbv zeta. apply wp_bind, wp_ask. intros now'. apply wp_bind, wp_modify. apply wp_ret.
  set (ks := fst <$> ordered order 0 (schedule s)).
  assert (0 ≤ Z.quot (foldl (λ n k, n + Z.of_nat (length k)) 0 ks) (Z.of_nat (length ks)) ≤ Z.of_nat KeyLen) as Hq.
  { assert (Forall (λ k, (length k ≤ KeyLen)%nat) ks) as Hks.
    { unfold ks. apply Forall_forall. intros k Hk. rewrite ordered_Permutation in Hk. by apply (bounded_elem _ _ _ Hb). }
    apply quot_avg; [|pose proof (prefixLenSum_bound ks 0 Hks); lia].
    destruct (wf_at_nonempty [] _ Hw He) as [k Hk]. unfold ks. rewrite length_fmap, ordered_Permutation.
    destruct (entries (schedule s)); [by apply not_elem_of_nil in Hk|]. simpl. lia. }
  split; [|lia]. apply provInv_avg; [|lia]. apply provInv_log; [apply Hlog|apply Hs].
Qed.

Lemma safe_approxSample n h : safe (λ r, ∀ c, r = Some c → 0 ≤ c ≤ Z.of_nat KeyLen) (approxSample n h).
Proof.
  induction n as [|n IH]; cbn [approxSample]; [by apply safe_ret|].
  eapply safe_bind; [apply safe_ask|]. intros c _.
  eapply (safe_bind (λ _, True)); [destruct c; [by apply safe_ret|eapply safe_mono; [apply safe_ask|done]]|].
  intros online _. destruct (c || negb online); [by apply safe_ret|].
  eapply safe_bind; [apply safe_ask|]. intros [peers|] _.
  - destruct peers as [|p0 [|p1 peers]]; [by apply safe_ret..|]. apply safe_ret. intros c' [= <-].
    assert (∀ l m, 0 ≤ m ≤ Z.of_nat KeyLen → 0 ≤ foldl (λ cpl q, Z.min cpl
      (Z.of_nat (CommonPrefixLength (PeerIDToBit256 p0) (PeerIDToBit256 q)))) m l ≤ Z.of_nat KeyLen) as Hf.
    { induction l as [|q l IHl]; intros m Hm; cbn [foldl]; [done|]. apply IHl. lia. }
    apply Hf. unfold KeyLen. lia.
  - apply safe_seq; [apply safe_emit|]. exact IH.
Qed.

Lemma safe_approxSamples m n cplSum nSamples :
  0 ≤ nSamples → 0 ≤ cplSum ≤ Z.of_nat KeyLen * nSamples →
  safe (λ '(c, k), 0 ≤ k ∧ 0 ≤ c ≤ Z.of_nat KeyLen * k) (approxSamples m n cplSum nSamples).
Proof.
  revert cplSum nSamples. induction m as [|m IH]; intros cplSum nSamples Hn Hc; cbn [approxSamples].
  - by apply safe_ret.
  - eapply safe_bind; [apply safe_ask|]. intros h _. eapply safe_bind; [apply safe_approxSample|].
    intros [cpl|] Hr; [|by apply IH]. specialize (Hr cpl eq_refl). apply IH; lia.
Qed.

Lemma safe_approxPrefixLen n : safe_ (approxPrefixLen n).
Proof.
  eapply safe_bind; [apply (safe_approxSamples approxPrefixLenGCPCount n 0 0); lia|].
  intros [cplSum nSamples] [Hn Hc]. eapply safe_bind; [apply safe_ask|]. intros now _.
  apply safe_modify. intros s Hs. apply provInv_avg; [done|]. case_decide; [lia|].
  pose proof (quot_avg cplSum nSamples (Z.of_nat KeyLen)). lia.
Qed.

(** ** Exploring the swarm *)

(** Adding a region to a set of regions that do not overlap. *)
Lemma addRegion_spec (t : trie ()) p :
  wf t →
  ∃ r ok, FindPrefixOfKey t p = Some (r, ok) ∧
    if ok : bool then ∃ q, q ∈ keys t ∧ q ≼ p
    else (∀ q, q ∈ keys t → ¬ q ≼ p) ∧
      ∃ t', PruneSubtrie t p = Some t' ∧ wf (trie_Add t' p tt) ∧
        ∀ k, k ∈ keys (trie_Add t' p tt) ↔ k = p ∨ k ∈ keys t ∧ ¬ p ≼ k.
Proof.
  intros Hw. destruct (FindPrefixOfKey_spec t p Hw) as [(r & Hr & Hin & Hp)|(r & Hr & Hno)].
  { exists r, true. split; [done|]. eauto. }
  exists r, false. split; [done|]. split; [done|].
  destruct (PruneSubtrie_spec t p Hw) as (t' & Ht & Hwt & He).
  destruct (admissible_new t t' p He Hno) as [Ha Hp].
  exists t'. split_and!; [done|by apply Add_wf|]. intros k. rewrite Add_keys by done. rewrite He.
  rewrite list_elem_of_fmap. setoid_rewrite elem_of_notBelow. split.
  - intros [?|(e & -> & ? & ?)]; [by left|right]. split; [by apply list_elem_of_fmap_2|done].
  - intros [?|[(e & -> & ?)%list_elem_of_fmap ?]]; [by left|right]. eauto.
Qed.

Lemma bounded_addRegion (t t' : trie ()) p :
  bounded KeyLen t → (length p ≤ KeyLen)%nat →
  (∀ k, k ∈ keys t' ↔ k = p ∨ k ∈ keys t ∧ ¬ p ≼ k) → bounded KeyLen t'.
Proof.
  intros Hb Hp Hk. apply Forall_forall. intros k [->|[Hin _]]%Hk; [done|]. by apply (bounded_elem _ _ _ Hb).
Qed.

Lemma FirstFullKeyWithPrefix_some k :
  ∃ f, FirstFullKeyWithPrefix k order = Some f ∧ length f = KeyLen.
Proof.
  unfold FirstFullKeyWithPrefix. cbv zeta. rewrite order_length. case_decide.
  - eexists. split; [done|]. rewrite length_take. lia.
  - rewrite decide_True by lia. eexists. split; [done|]. rewrite length_app, length_drop, order_length. lia.
Qed.

Lemma ShortestCoveredPrefix_some k (peers : list peerID) :
  ∃ cp l, ShortestCoveredPrefix PeerIDToBit256 SortClosestPeers k peers = Some (cp, l) ∧
    (length cp ≤ length k)%nat.
Proof.
  unfold ShortestCoveredPrefix. destruct peers as [|p peers]; [by eauto|].
  destruct (KeyToBytes_correct k) as (bs & -> & _). cbn [mbind option_bind].
  destruct (coveredLoop _ _ _ _ _ _ _) as [c l]. eexists _, _. split; [done|]. rewrite length_take. lia.
Qed.

Lemma shortenPrefix_some n (t : trie ()) p gaps :
  wf t → bounded KeyLen t → is_Some (shortenPrefix n t p gaps).
Proof.
  intros Hw Hb. revert p gaps. induction n as [|n IH]; intros p gaps; cbn [shortenPrefix]; [by destruct gaps|].
  destruct gaps; [|done].
  destruct (TrieGaps_spec t (take (length p - 1) p) order Hw (bounded_order _ Hb)) as (gs & -> & _).
  cbn [mbind option_bind]. apply IH.
Qed.

Lemma safe_lift {A} (P : A → Prop) (o : option A) : (∃ a, o = Some a ∧ P a) → safe P (liftO o).
Proof. intros (a & -> & Ha) s Hs. eapply wp_lift; [done|]. by split. Qed.

Lemma safe_closestPeersLoop n prefix next all coverage noFresh :
  wf coverage → bounded KeyLen coverage →
  safe_ (closestPeersLoop n prefix next all coverage noFresh).
Proof.
  revert prefix next all coverage noFresh.
  induction n as [|n IH]; intros prefix next all coverage noFresh Hw Hb; cbn [closestPeersLoop]; [by apply safe_ret|].
  eapply safe_bind; [apply safe_ask|]. intros [] _; [by apply safe_ret|].
  eapply safe_bind; [apply safe_ask|]. intros online _. destruct (negb online); [by apply safe_ret|].
  eapply safe_bind; [apply safe_lift, FirstFullKeyWithPrefix_some|]. intros fullKey Hf.
  eapply (safe_bind (λ _, True)).
  { unfold closestPeersToKey. destruct (KeyToBytes_correct fullKey) as (bs & Hbs & _).
    eapply (safe_bind (λ _, True)); [apply safe_lift; eauto|]. intros bs' _.
    eapply safe_bind; [apply safe_ask|]. intros p _. eapply safe_mono; [apply safe_ask|done]. }
  intros [[|p0 peers]|] _; [by apply safe_ret| |by apply safe_ret].
  eapply (safe_bind (λ '(cp, _), (length cp ≤ KeyLen)%nat)).
  { apply safe_lift. destruct (ShortestCoveredPrefix_some fullKey (p0 :: peers)) as (cp & l & Hs & Hl).
    exists (cp, l). split; [done|]. rewrite <-Hf. exact Hl. }
  intros [cp covered] Hcp. cbv zeta. destruct (decide (_ ∧ _)); [by apply safe_ret|].
  destruct (addRegion_spec coverage cp Hw) as (r & ok & Hfind & Hok).
  eapply (safe_bind (λ a, a = (r, ok))); [apply safe_lift; eauto|]. intros [r' ok'] [= -> ->].
  eapply (safe_bind (λ t, wf t ∧ bounded KeyLen t)).
  { destruct ok; [by apply safe_ret|]. destruct Hok as (_ & t' & Ht & Hwa & Hk).
    eapply (safe_bind (λ a, a = t')); [apply safe_lift; eauto|]. intros a ->. apply safe_ret.
    split; [done|]. by eapply bounded_addRegion. }
  intros cov [Hwc Hbc].
  destruct (TrieGaps_spec cov prefix order Hwc (bounded_order _ Hbc)) as (gs & Hgs & _).
  eapply (safe_bind (λ _, True)); [apply safe_lift; eauto|]. intros gaps _.
  destruct (decide (gaps = [])); [|by destruct gaps; [apply safe_ret|apply IH]].
  destruct (decide (replicationFactor ≤ _)); [by apply safe_ret|].
  eapply (safe_bind (λ _, True)).
  { apply safe_lift. destruct (shortenPrefix_some (length prefix) cov prefix gaps Hwc Hbc) as [a Ha]. eauto. }
  intros [prefix' gaps'] _. by destruct gaps'; [apply safe_ret|apply IH].
Qed.

(** Regions that do not overlap, each with its peers. *)
Definition regionGood (r : Region peerID mh) : Prop :=
  wf_at (Regions.Prefix r) (Regions.Peers r) ∧ fullKeys (Regions.Peers r) ∧
  (length (Regions.Prefix r) ≤ KeyLen)%nat.

Definition regionsGood (rs : list (Region peerID mh)) : Prop :=
  antichain (Regions.Prefix <$> rs) ∧ Forall regionGood rs.

(** The keys assigned to a region are below it. *)
Definition keysGood (r : Region peerID mh) : Prop :=
  ∀ kt, Regions.Keys r = Some kt → wf kt ∧
    Forall (λ e, e.1 = MhToBit256 e.2 ∧ Regions.Prefix r ≼ e.1) (entries kt).

Lemma regionsFromPeers_good (peers : list peerID) :
  peers ≠ [] → NoDup peers →
  ∃ rs cp, RegionsFromPeers (mh := mh) PeerIDToBit256 peers replicationFactor order = Some (rs, cp) ∧
    regionsGood rs ∧ (length cp ≤ KeyLen)%nat.
Proof.
  intros Hne Hnd.
  destruct (RegionsFromPeers_spec (mh := mh) PeerIDToBit256 PeerIDToBit256_length peers replicationFactor order)
    as (rs & cp & Hr & Hcp & Hsort & Hok & Hent & _); [apply order_length|done| |].
  { apply NoDup_fmap_2; [|done]. intros p q. apply PeerIDToBit256_inj. }
  exists rs, cp. split; [done|]. split.
  - split.
    + intros k1 k2 (r1 & -> & H1)%list_elem_of_fmap (r2 & -> & H2)%list_elem_of_fmap Ho.
      apply list_elem_of_lookup in H1 as [i1 H1], H2 as [i2 H2].
      destruct (lt_eq_lt_dec i1 i2) as [[Hlt| ->]|Hlt]; [|congruence|].
      * pose proof (StronglySorted_lookup_lt _ _ _ _ _ _ Hsort H1 H2 Hlt) as Hb.
        by apply before_overlap in Hb.
      * pose proof (StronglySorted_lookup_lt _ _ _ _ _ _ Hsort H2 H1 Hlt) as Hb.
        apply before_overlap in Hb. by apply overlap_sym in Ho.
    + rewrite Forall_forall in Hok |- *. intros r Hin. destruct (Hok r Hin) as (Hw & Hn & _).
      assert (∀ e, e ∈ entries (Regions.Peers r) → length e.1 = KeyLen) as Hfull.
      { intros e He. apply (Hent r e Hin) in He as (q & _ & -> & _). apply PeerIDToBit256_length. }
      split_and!; [done| |].
      * apply Forall_forall. intros k (e & -> & He)%list_elem_of_fmap. auto.
      * destruct (wf_at_nonempty _ _ Hw Hn) as [k Hk]. pose proof (wf_at_prefix _ _ _ Hw Hk) as Hp.
        apply prefix_length in Hp. apply list_elem_of_fmap in Hk as (e & -> & He). rewrite (Hfull e He) in Hp. done.
  - destruct peers as [|p peers]; [done|]. rewrite <-(PeerIDToBit256_length p). apply prefix_length, Hcp; [done|set_solver].
Qed.

Lemma safe_exploreSwarm p :
  safe (λ r, ∀ rs cp, r = Some (rs, cp) → regionsGood rs ∧ (length cp ≤ KeyLen)%nat) (exploreSwarm p).
Proof.
  eapply (safe_bind (λ r, ∀ l, r = inr l → NoDup l)).
  { eapply safe_bind; [by apply safe_closestPeersLoop; [|constructor]|]. intros r _. apply safe_ret.
    intros l Hl. destruct r as [|all]; simplify_eq. apply NoDup_elements. }
  intros [|[|p0 peers]] Hnd; [by apply safe_ret..|].
  destruct (regionsFromPeers_good (p0 :: peers)) as (rs & cp & Hr & Hgood); [done|by apply Hnd|].
  eapply (safe_bind (λ a, a = (rs, cp))); [apply safe_lift; eauto|]. intros [rs' cp'] [= -> ->].
  apply safe_seq; [apply safe_forM; intros; apply safe_emit|]. apply safe_ret. by intros ? ? [= <- <-].
Qed.

Lemma assign_good rs hs :
  regionsGood rs →
  regionsGood (AssignKeysToRegions MhToBit256 rs hs) ∧
  Forall keysGood (AssignKeysToRegions MhToBit256 rs hs).
Proof.
  intros [Ha Hg].
  pose proof (AssignKeysToRegions_spec (peerID := peerID) MhToBit256 MhToBit256_length rs hs Ha) as Hspec.
  specialize (Hspec (λ (h h' : mh) _ _, MhToBit256_inj h h')).
  assert (Regions.Prefix <$> AssignKeysToRegions MhToBit256 rs hs = Regions.Prefix <$> rs) as Hp.
  { clear Ha Hg. induction Hspec as [|r r' l l' (Hr & _) _ IH]; [done|]. by rewrite !fmap_cons, Hr, IH. }
  split; [split; [by rewrite Hp|]|].
  - apply Forall_forall. intros r' Hr'. apply list_elem_of_lookup in Hr' as [i Hi].
    destruct (Forall2_lookup_r _ _ _ _ _ Hspec Hi) as (r & Hri & Hpr & Hpe & _).
    apply list_elem_of_lookup_2 in Hri. rewrite Forall_forall in Hg.
    destruct (Hg r Hri) as (? & ? & ?). unfold regionGood. by rewrite Hpr, Hpe.
  - apply Forall_forall. intros r' Hr' kt Hkt. apply list_elem_of_lookup in Hr' as [i Hi].
    destruct (Forall2_lookup_r _ _ _ _ _ Hspec Hi) as (r & _ & Hpr & _ & kt' & Hkt' & Hw & He).
    rewrite Hkt' in Hkt. injection Hkt as <-. split; [done|]. apply Forall_forall. intros e.
    rewrite He, Hpr. by intros (k & _ & -> & Hk).
Qed.

(** ** Sending records *)

Lemma safe_provideBatch (p : peerID) addrs b hs a1 a2 a3 : safe_ (provideBatch p addrs b hs a1 a2 a3).
Proof.
  revert a1 a2 a3. induction hs as [|h hs IH]; intros a1 a2 a3; cbn [provideBatch]; [by apply safe_ret|].
  eapply safe_bind; [apply safe_ask|]. intros [] _; [by apply safe_ret|].
  eapply safe_bind; [apply safe_ask|]. intros ok _. apply safe_seq; [apply safe_emit|]. cbv zeta.
  destruct (negb ok); [|apply IH]. case_decide; [|apply IH].
  apply safe_seq; [apply safe_emit|by apply safe_ret].
Qed.

Lemma safe_provideBatches (p : peerID) addrs bs a1 a2 a3 : safe_ (provideBatches p addrs bs a1 a2 a3).
Proof.
  revert a1 a2 a3. induction bs as [|b bs IH]; intros a1 a2 a3; cbn [provideBatches].
  - apply safe_seq; [apply safe_emit|by apply safe_ret].
  - eapply safe_bind; [apply safe_provideBatch|]. intros [|[[? ?] ?]] _; [by apply safe_ret|apply IH].
Qed.

Lemma safe_sendJobs jobs addrs m n : safe_ (sendJobs jobs addrs m n).
Proof.
  revert m n. induction jobs as [|[p bs] jobs IH]; intros m n; cbn [sendJobs]; [by apply safe_ret|].
  eapply safe_bind; [apply safe_ask|]. intros [] _; [by apply safe_ret|].
  eapply (safe_bind (λ _, True)).
  { apply safe_seq; [apply safe_when; intros; apply safe_emit|].
    eapply safe_bind; [apply safe_provideBatches|]. intros r _.
    apply safe_seq; [apply safe_when; intros; apply safe_emit|by apply safe_ret]. }
  intros [e|] _; [|apply IH]. apply safe_seq; [apply safe_when; intros; apply safe_emit|apply IH].
Qed.

Lemma safe_sendProviderRecords alloc addrs n : safe_ (sendProviderRecords alloc addrs n).
Proof.
  unfold sendProviderRecords. cbv zeta. case_decide; [by apply safe_ret|].
  assert (∀ (f : peerID → event peerID mh addr) (l : list (peerID * list (list mh))),
    safe_ (forM l (λ '(p, _), emit (f p)))) as Hfor.
  { intros f l. apply safe_forM. intros [q b] _. apply safe_emit. }
  apply safe_seq; [apply safe_when; intros; apply Hfor|].
  eapply safe_bind; [apply safe_sendJobs|]. intros [m e] _.
  do 3 (apply safe_seq; [apply safe_emit|]).
  apply safe_seq; [apply safe_when; intros; apply Hfor|by apply safe_ret].
Qed.
End invariant.

#[export] Hint Resolve safe_ret safe_emit safe_ask : kad.
