(* ===== verification/ProviderSafe.v ===== *)
(** * Safety of the operations of the sweeping provider

    The operations of [Provider] that provide, reprovide and group keys keep
    the invariant of [ProviderInv] and do not panic. *)

From S2P Require Import Prelude Key Trie TrieSet Allocate Regions Deque PrefixQueue ProvideQueue.
From S2P Require Import GoTime Datastore GoMonad Provider Schedule ProviderInv.

Local Open Scope Z_scope.

Section safety.
Context {TL : TrieLib} {TLW : TrieLaws} {DL : DequeLib} {DLW : DequeLaws} {DSL : DsLib}.
Context {peerID mh addr : Type} {EP : EqDecision peerID} {CP : Countable peerID}.
Context {EM : EqDecision mh} {CM : Countable mh}.
Context {CFG : Config} {COK : ConfigOk} {W : World peerID mh addr} {WOK : WorldOk W}.

Abbreviation state := (@SweepingProvider DL DSL peerID mh addr).
Abbreviation M := (GoM state).
Abbreviation safe_ := (safe (λ _, True)).
Implicit Types (s : state) (p k : key) (hs : list mh).

(** The rest of the program keeps the invariant from any state. *)
Lemma safe_gets {B} (Q : B → Prop) (f : state → M B) :
  (∀ s, provInv s → safe Q (f s)) → safe Q (gets id ≫= f).
Proof. intros H s Hs. apply wp_bind, wp_gets. by apply H. Qed.

Lemma wp_safe {A} (Q : A → Prop) (m : M A) s :
  safe Q m → provInv s → wp m (λ a s', provInv s' ∧ Q a) s.
Proof. intros H. apply H. Qed.

(** ** Reprovide history *)

Lemma safe_gc now : safe_ (gcReprovideHistoryIfNeeded now).
Proof.
  eapply safe_bind; [apply safe_ask|]. intros [] _; [by apply safe_ret|].
  apply safe_state. intros s Hs. cbv zeta. case_decide; [by apply wp_ret|].
  destruct (ds_QueryByKey _ _) as [d [[l failed]|]]; apply wp_modify; (split; [by apply provInv_ds|done]).
Qed.

Lemma safe_persist p : safe_ (persistSuccessfulReprovide p).
Proof.
  eapply safe_bind; [apply safe_ask|]. intros [] _; [by apply safe_ret|].
  eapply safe_bind; [apply safe_ask|]. intros now _.
  apply safe_seq; [apply safe_modify; intros s Hs; by apply provInv_ds|apply safe_gc].
Qed.

Lemma safe_loadRegions l (t : trie ()) : wf t → safe (λ t' : trie (), wf t') (loadRegions l t).
Proof.
  revert t. induction l as [|[k v] l IH]; intros t Hw; cbn [loadRegions]; [by apply safe_ret|].
  destruct (parseReprovideHistoryKey k) as [[tm p]|].
  - cbv zeta. destruct (addRegion_spec t (bitstr p) Hw) as (r & ok & Hfind & Hok).
    eapply (safe_bind (λ a, a = (r, ok))); [apply safe_lift; eauto|]. intros [r' ok'] [= -> ->].
    destruct ok; [by apply IH|]. destruct Hok as (_ & t' & Ht & Hwa & _).
    eapply (safe_bind (λ a, a = t')); [apply safe_lift; eauto|]. intros a ->. by apply IH.
  - apply safe_seq; [apply safe_modify; intros s Hs; by apply provInv_ds|]. by apply IH.
Qed.

Lemma safe_loadRecently now :
  safe (λ r : option (trie ()), ∀ t, r = Some t → wf t) (loadRecentlyReprovidedRegions now).
Proof.
  eapply safe_bind; [apply safe_ask|]. intros [] _; [apply safe_ret; by intros ? [= <-]|].
  apply safe_seq; [apply safe_gc|]. apply safe_state. intros s Hs.
  destruct (ds_QueryByKey _ _) as [d r]. apply wp_bind, wp_modify.
  assert (provInv (set_ds (lastReprovideHistoryGC s) d s)) as Hs' by (by apply provInv_ds).
  destruct r as [[l failed]|]; [|by apply wp_ret].
  apply wp_bind. eapply wp_mono; [by apply (safe_loadRegions l Empty)|].
  intros t s' [Hi Hw]. apply wp_ret. split; [done|]. destruct failed; [done|]. by intros ? [= <-].
Qed.

Lemma safe_enqueueExpired (t : trie ()) : wf t → safe_ (enqueueExpiredRegionsNoLock t).
Proof.
  intros Hw. apply safe_state. intros s Hs. pose proof Hs as [[Hws Hbs _ _ _ _ _ _] _].
  destruct (CoalesceTrie_spec [] t Hw) as (Hwc & _).
  destruct (SubtractTrie_spec (schedule s) (CoalesceTrie t) Hws Hwc Hbs) as (r & Hr & Hwr & Her).
  apply wp_bind. eapply wp_lift; [exact Hr|].
  assert (Forall (λ k, (length k ≤ KeyLen)%nat) (keys r)) as Hbr.
  { apply Forall_forall. intros k (e & -> & He)%list_elem_of_fmap. apply Her in He as [He _]. by eapply keys_bounded. }
  apply wp_bind. eapply wp_lift; [apply AllKeys_ordered; [done|by apply bounded_order]|].
  apply safe_enqueueReprovide; [|done]. by rewrite ordered_Permutation.
Qed.

(** ** Failures and claims *)

Lemma safe_failedProvide p hs :
  Forall (λ h, p ≼ MhToBit256 h) hs → safe_ (failedProvide p hs).
Proof. intros H. apply safe_seq; [by apply safe_enqueueProvide|apply safe_emit]. Qed.

Lemma safe_failedReprovide p : (length p ≤ KeyLen)%nat → safe_ (failedReprovide p).
Proof. intros H. apply safe_seq; [|apply safe_emit]. apply safe_enqueueReprovide. by apply Forall_singleton. Qed.

Lemma safe_selfAddrInfo : safe_ selfAddrInfo.
Proof.
  eapply safe_bind; [apply safe_ask|]. intros [|a addrs] _; [|by apply safe_ret].
  apply safe_seq; [apply safe_emit|by apply safe_ret].
Qed.

(** Claiming regions: the claimed ones are among the given ones, and the
    active regions stay free of overlaps. *)
Lemma claimRegions_spec (active : trie ()) (rs : list (Region peerID mh)) :
  wf active → ∃ t out, claimRegions active rs = Some (t, out) ∧ wf t ∧ out `sublist_of` rs.
Proof.
  revert active. induction rs as [|r rs IH]; intros active Hw; cbn [claimRegions]; [by exists active, []|].
  assert (∃ t b, claimRegion active r = Some (t, b) ∧ wf t) as (t & b & Ht & Hwt).
  { unfold claimRegion. destruct (IsEmptyLeaf _); [by exists active, false|].
    destruct (addRegion_spec active (Regions.Prefix r) Hw) as (q & ok & Hfind & Hok). rewrite Hfind.
    cbn [mbind option_bind]. destruct ok; [by exists active, false|]. destruct Hok as (_ & t' & Ht & Hwa & _).
    rewrite Ht. cbn. eexists _, true. split; [done|done]. }
  rewrite Ht. cbn [mbind option_bind]. destruct (IH t Hwt) as (t2 & out & H2 & Hw2 & Hsub). rewrite H2.
  cbn [mbind option_bind]. exists t2, (if b then r :: out else out). split_and!; [done|done|].
  destruct b; by constructor.
Qed.

Lemma regionsGood_sublist (rs out : list (Region peerID mh)) :
  out `sublist_of` rs → regionsGood rs → regionsGood out.
Proof.
  intros Hsub [Ha Hg]. assert (∀ r, r ∈ out → r ∈ rs) as Hin.
  { intros r Hr. eapply elem_of_submseteq; [done|]. by apply sublist_submseteq. }
  split.
  - intros k1 k2 (r1 & -> & H1)%list_elem_of_fmap (r2 & -> & H2)%list_elem_of_fmap.
    apply Ha; apply list_elem_of_fmap_2; auto.
  - rewrite Forall_forall in Hg |- *. auto.
Qed.

Lemma safe_claim (rs : list (Region peerID mh)) :
  regionsGood rs → safe regionsGood (claimRegionReprovide rs).
Proof.
  intros Hg. apply safe_state. intros s Hs.
  destruct (claimRegions_spec (activeReprovides s) rs) as (t & out & Hc & Hw & Hsub); [apply Hs|].
  apply wp_bind. eapply wp_lift; [exact Hc|]. repeat wp_step. split; [by apply provInv_active|].
  by eapply regionsGood_sublist.
Qed.

Lemma safe_release p : safe_ (releaseRegionReprovide p).
Proof.
  apply safe_state. intros s Hs.
  destruct (PruneSubtrie_spec (activeReprovides s) p) as (t & Ht & Hw & _); [apply Hs|].
  apply wp_bind. eapply wp_lift; [exact Ht|]. apply wp_modify. split; [by apply provInv_active|done].
Qed.

(** ** Providing *)

Lemma safe_vanillaProvide (h : mh) b :
  safe (λ r, (length r.1 ≤ KeyLen)%nat) (vanillaProvide h b).
Proof.
  apply safe_seq; [apply safe_emit|]. eapply safe_bind; [apply safe_ask|].
  intros [peers|] _; [|apply safe_ret; cbn; lia].
  destruct (ShortestCoveredPrefix_some (MhToBit256 h) peers) as (cp & l & Hs & Hl).
  rewrite MhToBit256_length in Hl.
  eapply (safe_bind (λ a, a = (cp, l))); [apply safe_lift; eauto|]. intros [cp' l'] [= -> ->].
  eapply safe_bind; [apply safe_ask|]. intros addrs _. cbv zeta.
  eapply safe_bind; [apply safe_sendProviderRecords|]. intros [n err] _.
  apply safe_seq; [apply safe_emit|]. by apply safe_ret.
Qed.

Lemma safe_provideEach p hs b ok :
  (b = false → Forall (λ h, p ≼ MhToBit256 h) hs) → safe_ (provideEach p hs b ok).
Proof.
  revert ok. induction hs as [|h hs IH]; intros ok Hhs; cbn [provideEach]; [by apply safe_ret|].
  eapply safe_bind; [apply safe_vanillaProvide|]. intros [cp err] _. apply safe_seq.
  - apply safe_when. intros [_ Hb%negb_true_iff]%andb_true_iff. apply safe_failedProvide.
    specialize (Hhs Hb). apply Forall_cons in Hhs as [Hh _]. by apply Forall_singleton.
  - apply IH. intros Hb. specialize (Hhs Hb). by apply Forall_cons in Hhs as [_ ?].
Qed.

Lemma safe_individualProvide p hs b :
  (length p ≤ KeyLen)%nat → (b = false → Forall (λ h, p ≼ MhToBit256 h) hs) →
  safe_ (individualProvide p hs b).
Proof.
  intros Hp Hhs. destruct hs as [|h hs]; [by apply safe_ret|].
  eapply (safe_bind (λ r, (length r.1 ≤ KeyLen)%nat)).
  - destruct hs as [|h' hs].
    + eapply safe_bind; [apply safe_vanillaProvide|]. intros [cp err] Hcp. apply safe_seq.
      { apply safe_when. intros [_ Hb%negb_true_iff]%andb_true_iff. by apply safe_failedProvide, Hhs. }
      apply safe_ret. by destruct (b && negb err).
    + eapply safe_bind; [by apply safe_provideEach|]. intros ok _. by apply safe_ret.
  - intros [p' err] Hp'. apply safe_when. intros _. apply safe_seq; [by apply safe_schedulePrefix|].
    destruct err; [by apply safe_failedReprovide|apply safe_persist].
Qed.

Lemma safe_provideRegion (r : Region peerID mh) addrs b :
  regionGood r → keysGood r → safe_ (provideRegion r addrs b).
Proof.
  intros (Hw & Hf & Hl) Hk. unfold provideRegion.
  assert (safe_ (whenM b (releaseRegionReprovide (Regions.Prefix r)) ;; mret false)) as Hskip.
  { apply safe_seq; [apply safe_when; intros _; apply safe_release|by apply safe_ret]. }
  destruct (Regions.Keys r) as [ks|] eqn:Hks; [|exact Hskip].
  assert (ks = Empty ∨ ks ≠ Empty) as [->|Hne] by (destruct ks; auto); [exact Hskip|].
  destruct (Hk ks Hks) as [Hwk Hent]. rewrite Forall_forall in Hent.
  assert (fullKeys ks) as Hfk.
  { apply Forall_forall. intros k (e & -> & He)%list_elem_of_fmap. destruct (Hent e He) as [-> _]. apply MhToBit256_length. }
  assert (bounded (length order) ks) as Hbk.
  { apply bounded_order, Forall_forall. intros k Hin. unfold fullKeys in Hfk. rewrite Forall_forall in Hfk.
    by rewrite (Hfk k Hin). }
  assert (safe_ (
    hs ← liftO (ValuesIter ks order);
    forM hs (λ h, emit (EvAddLocalRecord h)) ;;
    let nKeys := Z.of_nat (length hs) in
    keysAllocations ← liftO (AllocateToKClosest ks (Regions.Peers r) replicationFactor);
    '(reachablePeers, err) ← sendProviderRecords keysAllocations addrs nKeys;
    (if b then
       emit (EvReprovideStats (Regions.Prefix r) (Z.of_nat (size keysAllocations)) reachablePeers nKeys) ;;
       releaseRegionReprovide (Regions.Prefix r) ;;
       reschedulePrefix (Regions.Prefix r)
     else emit (EvKeysPerProvide nKeys)) ;;
    if err : bool then
      (if b then failedReprovide (Regions.Prefix r) else failedProvide (Regions.Prefix r) hs) ;;
      mret true
    else emit (EvProvideCounter nKeys) ;; mret false)) as Hmain; [|by destruct ks].
  eapply (safe_bind (λ hs, Forall (λ h, Regions.Prefix r ≼ MhToBit256 h) hs)).
  { apply safe_lift. eexists. split; [by apply trieIter_ordered|]. apply Forall_forall.
    intros h (e & -> & He%elem_of_ordered)%list_elem_of_fmap. destruct (Hent e He) as [<- ?]. done. }
  intros hs Hhs. apply safe_seq; [apply safe_forM; intros; apply safe_emit|]. cbv zeta.
  eapply (safe_bind (λ _, True)).
  { apply safe_lift. destruct (AllocateToKClosest_total (Regions.Prefix r) ks (Regions.Peers r) replicationFactor)
      as [a Ha]; eauto. }
  intros alloc _. eapply safe_bind; [apply safe_sendProviderRecords|]. intros [n err] _. apply safe_seq.
  - destruct b; [|apply safe_emit]. apply safe_seq; [apply safe_emit|].
    apply safe_seq; [apply safe_release|by apply safe_schedulePrefix].
  - destruct err; [|apply safe_seq; [apply safe_emit|by apply safe_ret]].
    apply safe_seq; [|by apply safe_ret]. destruct b; [by apply safe_failedReprovide|by apply safe_failedProvide].
Qed.
Lemma safe_provideRegionsLoop (rs : list (Region peerID mh)) addrs b n :
  Forall regionGood rs → Forall keysGood rs → safe_ (provideRegionsLoop rs addrs b n).
Proof.
  revert n. induction rs as [|r rs IH]; intros n Hg Hk; cbn [provideRegionsLoop]; [by apply safe_ret|].
  apply Forall_cons in Hg as [Hr Hg], Hk as [Hkr Hk].
  eapply safe_bind; [by apply safe_provideRegion|]. intros failed _. by apply IH.
Qed.

Lemma safe_provideRegions (rs : list (Region peerID mh)) hs addrs b :
  regionsGood rs → safe_ (provideRegions (AssignKeysToRegions MhToBit256 rs hs) addrs b).
Proof.
  intros Hg. destruct (assign_good rs hs Hg) as [[_ Hr] Hk].
  eapply safe_bind; [by apply safe_provideRegionsLoop|]. intros n _. by apply safe_ret.
Qed.

Lemma safe_batchProvide p hs :
  Forall (λ h, p ≼ MhToBit256 h) hs → safe_ (batchProvide p hs).
Proof.
  intros Hhs. unfold batchProvide. cbv zeta. case_decide as Hn; [by apply safe_ret|].
  assert (length p ≤ KeyLen)%nat as Hp.
  { destruct hs as [|h hs]; [done|]. apply Forall_cons in Hhs as [Hh _]. apply prefix_length in Hh.
    by rewrite MhToBit256_length in Hh. }
  eapply safe_bind; [apply safe_selfAddrInfo|]. intros [addrs|] _; [|by apply safe_ret].
  apply safe_seq; [apply safe_emit|]. case_decide.
  { apply safe_seq; [by apply safe_individualProvide|apply safe_emit]. }
  eapply safe_bind; [apply safe_exploreSwarm|]. intros [[rs cp]|] Hr.
  - destruct (Hr rs cp eq_refl) as [Hg Hcp].
    eapply safe_bind; [apply safe_dequeueMatching|]. intros extra _.
    apply safe_seq; [apply safe_when; intros; apply safe_emit|].
    apply safe_seq; [by apply safe_provideRegions|apply safe_emit].
  - apply safe_seq; [by apply safe_failedProvide|apply safe_emit].
Qed.

Lemma safe_failReschedule p (m : M ()) :
  (length p ≤ KeyLen)%nat → safe_ m → safe_ (failedReprovide p ;; reschedulePrefix p ;; m).
Proof.
  intros Hp Hm. apply safe_seq; [by apply safe_failedReprovide|].
  apply safe_seq; [by apply safe_schedulePrefix|done].
Qed.

Lemma safe_batchReprovide p : (length p ≤ KeyLen)%nat → safe_ (batchReprovide p).
Proof.
  intros Hp. eapply safe_bind; [apply safe_ask|]. intros [] _; [by apply safe_ret|].
  eapply safe_bind; [apply safe_selfAddrInfo|]. intros [addrs|] _; [|by apply safe_ret].
  eapply safe_bind; [apply safe_ask|]. intros [hs|] _.
  2: { apply safe_seq; [by apply safe_failedReprovide|by apply safe_schedulePrefix]. }
  destruct hs as [|h0 hs0]; [by apply safe_ret|]. set (hs := h0 :: hs0). cbv zeta.
  apply safe_seq; [apply safe_emit|]. case_decide.
  { apply safe_seq; [by apply safe_individualProvide|apply safe_emit]. }
  eapply safe_bind; [apply safe_exploreSwarm|]. intros [[rs cp]|] Hr.
  2: { apply safe_failReschedule; [done|apply safe_emit]. }
  destruct (Hr rs cp eq_refl) as [Hg Hcp].
  eapply safe_bind; [by apply safe_claim|]. intros rs' Hg'.
  eapply (safe_bind (λ r, ∀ q l, r = Some (q, l) → (length q ≤ KeyLen)%nat)).
  - case_decide; [|apply safe_ret; by intros ? ? [= <- <-]].
    eapply safe_bind; [apply safe_ask|]. intros [hs'|] _.
    + apply safe_seq; [apply safe_emit|]. apply safe_ret. by intros ? ? [= <- <-].
    + apply safe_seq; [by apply safe_failedReprovide|]. apply safe_seq; [by apply safe_schedulePrefix|].
      apply safe_seq; [apply safe_emit|]. by apply safe_ret.
  - intros [[q l]|] Hq; [|by apply safe_ret].
    eapply safe_bind; [apply safe_dequeueMatching|]. intros _ _.
    apply safe_seq; [apply safe_removeReprovide|]. apply safe_seq; [apply safe_unschedule|].
    eapply safe_bind; [by apply safe_provideRegions|]. intros ok _.
    apply safe_seq; [|apply safe_emit]. apply safe_when. intros _. apply safe_persist.
Qed.

(** ** The loops *)

Lemma safe_catchup : safe_ catchupPendingWork.
Proof.
  apply safe_gets. intros s0 _. destruct (lateReprovideRunning s0); [by apply safe_ret|].
  eapply safe_bind; [apply safe_ask|]. intros [] _; [by apply safe_ret|].
  apply safe_seq; [apply safe_modify; intros s' Hs'; by apply provInv_locks|by apply safe_spawn].
Qed.

Lemma safe_provideLoopIter n : safe_ (provideLoopIter n).
Proof.
  induction n as [|n IH]; cbn [provideLoopIter]; [by apply safe_ret|].
  apply safe_gets. intros s0 _. destruct (PVQ_IsEmpty _); [by apply safe_ret|].
  eapply safe_bind; [apply safe_ask|]. intros [] _; [by apply safe_ret|].
  eapply safe_bind; [apply safe_ask|]. intros online _. destruct (negb online); [by apply safe_ret|].
  eapply safe_bind; [apply safe_ask|]. intros acq _. destruct (negb acq); [by apply safe_ret|].
  apply safe_state. intros s Hs.
  assert (∃ q p hs ok, Dequeue (provideQueue s) = Some (q, (p, hs, ok)) ∧
    pvqInv MhToBit256 q ∧ (ok = true → Forall (λ h, p ≼ MhToBit256 h) hs)) as (q & p & hs & ok & Hd & Hq & Hok).
  { pose proof (Dequeue_spec MhToBit256 MhToBit256_length MhToBit256_inj (provideQueue s)) as Hspec.
    destruct (contents _) as [|p l]; [rewrite Hspec by apply Hs|].
    - eexists _, _, _, _. split; [done|]. split; [apply Hs|done].
    - destruct Hspec as (q' & hs & Hd & _ & _ & Hin & [Hinv _] & _); [apply Hs|]. rewrite Hd.
      eexists _, _, _, _. split; [done|]. split; [done|]. intros _. apply Forall_forall. intros h Hh. by apply Hin. }
  apply wp_bind. eapply wp_lift; [exact Hd|]. apply wp_bind, wp_modify.
  apply wp_safe; [|apply provInv_queues; [done|done|apply Hs]].
  destruct ok; [|by apply safe_seq; [apply safe_emit|]].
  eapply safe_bind; [apply safe_ask|]. intros [] _; [apply safe_emit|].
  apply safe_seq; [apply safe_spawn; by apply Hok|done].
Qed.
End safety.
