(* ===== verification/ProviderGroup.v ===== *)
(** * Grouping keys by region

    [groupAndScheduleKeysByPrefix] puts every key under exactly one prefix,
    the prefixes do not overlap, and the schedule covers each of them. *)

From S2P Require Import Prelude Key Trie TrieSet Allocate Regions Deque PrefixQueue ProvideQueue.
From S2P Require Import GoTime Datastore GoMonad Provider Schedule ProviderInv ProviderSafe.

Local Open Scope Z_scope.

Section group.
Context {TL : TrieLib} {TLW : TrieLaws} {DL : DequeLib} {DLW : DequeLaws} {DSL : DsLib}.
Context {peerID mh addr : Type} {EP : EqDecision peerID} {CP : Countable peerID}.
Context {EM : EqDecision mh} {CM : Countable mh}.
Context {CFG : Config} {COK : ConfigOk} {W : World peerID mh addr} {WOK : WorldOk W}.

Abbreviation state := (@SweepingProvider DL DSL peerID mh addr).
Abbreviation M := (GoM state).
Abbreviation safe_ := (safe (λ _, True)).
Implicit Types (s : state) (p k : key) (h : mh) (hs : list mh).
Implicit Types (t : trie ()) (m : gmap key (list mh)) (done : gset mh).

(** ** Consolidation of the prefixes below a new one *)

Lemma consolidate_fold acc m ks :
  NoDup ks →
  ∃ m', foldl (λ '(mhs, m) k, (mhs ++ default [] (m !! k), delete k m)) (acc, m) ks =
      (acc ++ concat ((λ k, default [] (m !! k)) <$> ks), m') ∧
    ∀ q, m' !! q = if decide (q ∈ ks) then None else m !! q.
Proof.
  revert acc m. induction ks as [|k ks IH]; intros acc m Hnd; cbn [foldl].
  - exists m. split; [cbn; by rewrite app_nil_r|]. intros q. by rewrite decide_False by apply not_elem_of_nil.
  - apply NoDup_cons in Hnd as [Hk Hnd].
    destruct (IH (acc ++ default [] (m !! k)) (delete k m) Hnd) as (m' & Hf & Hm'). exists m'. split.
    + rewrite Hf, fmap_cons. cbn [concat]. rewrite <-app_assoc. do 3 f_equal. f_equal.
      apply list_fmap_ext. intros i x Hx. rewrite lookup_delete_ne; [done|]. intros ->.
      by apply Hk, list_elem_of_lookup_2 with i.
    + intros q. rewrite Hm'. destruct (decide (q ∈ ks)), (decide (q ∈ k :: ks)); try set_solver.
      * assert (q = k) as -> by set_solver. apply lookup_delete_eq.
      * apply lookup_delete_ne. set_solver.
Qed.

(** The lists of the prefixes hold, each once, the keys below them. *)
Definition listsOk done m : Prop :=
  ∀ p l, m !! p = Some l → l ≠ [] ∧ NoDup l ∧ ∀ h, h ∈ l ↔ h ∈ done ∧ p ≼ MhToBit256 h.

Lemma listsOk_concat done m ks :
  listsOk done m → antichain ks → NoDup ks → (∀ k, k ∈ ks → is_Some (m !! k)) →
  NoDup (concat ((λ k, default [] (m !! k)) <$> ks)) ∧
  ∀ h, h ∈ concat ((λ k, default [] (m !! k)) <$> ks) ↔ h ∈ done ∧ ∃ k, k ∈ ks ∧ k ≼ MhToBit256 h.
Proof.
  intros Hm. induction ks as [|k ks IH]; intros Ha Hnd Hin.
  { cbn. split; [constructor|]. intros h. split; [by intros ?%not_elem_of_nil|].
    by intros (_ & k & ?%not_elem_of_nil & _). }
  apply NoDup_cons in Hnd as [Hk Hnd].
  destruct IH as [IHn IHm]; [intros a b Ha' Hb'; by apply Ha; right|done|intros; apply Hin; by right|].
  rewrite fmap_cons. cbn [concat]. destruct (Hin k) as [l Hl]; [by left|]. rewrite Hl. cbn [default].
  destruct (Hm k l Hl) as (_ & Hndl & Hel). split.
  - apply NoDup_app. split_and!; [done| |done]. intros h [Hh Hp]%Hel [_ (k' & Hk' & Hp')]%IHm.
    apply Hk. replace k with k'; [done|]. apply Ha; [by right|by left|]. by destruct (prefix_weak_total k' k (MhToBit256 h)); [| |left|right].
  - intros h. rewrite elem_of_app, Hel, IHm. split.
    + intros [[? ?]|[? (k' & ? & ?)]]; (split; [done|]); [exists k|exists k']; set_solver.
    + intros [? (k' & [->|?]%elem_of_cons & ?)]; [by left|right]. eauto.
Qed.

(** The trie of the prefixes and the map agree. *)
Definition mapsOk t m : Prop := ∀ p, is_Some (m !! p) ↔ p ∈ keys t.

Lemma consolidate_spec p h done g :
  wf (g_prefixTrie g) → bounded KeyLen (g_prefixTrie g) → listsOk done (g_prefixes g) →
  mapsOk (g_prefixTrie g) (g_prefixes g) → h ∉ done → p ≼ MhToBit256 h →
  (∀ q, q ∈ keys (g_prefixTrie g) → ¬ q ≼ MhToBit256 h) →
  (∀ h', h' ∈ done → covered (MhToBit256 h') (g_prefixTrie g)) →
  ∃ t m, consolidate p h g = Some (mkGroup (g_seen g) t m (g_avgPrefixLen g)) ∧
    wf t ∧ bounded KeyLen t ∧ listsOk ({[h]} ∪ done) m ∧ mapsOk t m ∧
    ∀ k, k ∈ keys t ↔ k = p ∨ k ∈ keys (g_prefixTrie g) ∧ ¬ p ≼ k.
Proof.
  destruct g as [seen t m avg]. cbn [g_seen g_prefixTrie g_prefixes g_avgPrefixLen].
  intros Hw Hb Hl Hm Hh Hp Hno Hcov.
  assert (∀ q, q ∈ keys t → ¬ q ≼ p) as Hnop by (intros q Hq Hqp; apply (Hno q Hq); by etrans).
  set (ks := (below p (entries t)).*1).
  assert (∀ k, k ∈ ks ↔ k ∈ keys t ∧ p ≼ k) as Hks.
  { intros k. unfold ks. rewrite !list_elem_of_fmap. setoid_rewrite elem_of_below. naive_solver. }
  assert (NoDup ks) as Hnd by (apply NoDup_fmap_filter; by eapply wf_at_NoDup).
  assert (antichain ks) as Hanti.
  { intros a b [Ha1 _]%Hks [Hb1 _]%Hks. by eapply (wf_at_antichain []). }
  assert (∃ t' L m', consolidate p h (mkGroup seen t m avg) =
      Some (mkGroup seen (trie_Add t' p tt) (<[p := h :: L]> m') avg) ∧
    wf t' ∧ entries t' = notBelow p (entries t) ∧
    L ≡ₚ concat ((λ k, default [] (m !! k)) <$> ks) ∧
    ∀ q, m' !! q = if decide (q ∈ ks) then None else m !! q) as (t' & L & m' & -> & Hwt & He & HL & Hm').
  { clear Hcov Hl Hm Hh Hno Hanti. unfold consolidate. cbn [g_seen g_prefixTrie g_prefixes g_avgPrefixLen].
    destruct (FindSubtrie t p) as [sub ok] eqn:Hf. pose proof (FindSubtrie_spec t p sub ok Hw Hf) as Hs.
    destruct ok; cbn in Hs.
    - destruct Hs as (Hs & Hne & q & Hwq). pose proof (bounded_below _ _ _ _ Hs Hb) as Hbs.
      assert (KeysIter sub order = Some (fst <$> ordered order 0 sub)) as ->.
      { apply trieIterAtDepth_ordered. pose proof (wf_at_height _ _ _ Hwq Hbs Hne). rewrite order_length. lia. }
      cbn [mbind option_bind].
      assert (fst <$> ordered order 0 sub ≡ₚ ks) as Hperm by (by rewrite ordered_Permutation, Hs).
      destruct (consolidate_fold [h] m (fst <$> ordered order 0 sub)) as (m' & -> & Hm'); [by rewrite Hperm|].
      destruct (PruneSubtrie_spec t p Hw) as (t' & Ht & Hwt & He). rewrite Ht. cbn [mbind option_bind].
      eexists t', _, m'. split; [done|]. split_and!; [done|done|by rewrite Hperm|].
      intros q'. rewrite Hm'. apply decide_ext. by rewrite Hperm.
    - eexists t, [], m. assert (ks = []) as -> by (unfold ks; by rewrite Hs). split_and!; [done|done| |done|].
      + symmetry. apply notBelow_all. intros e Hin Hpe.
        assert (e ∈ below p (entries t)) as Hbel by (by apply elem_of_below). rewrite Hs in Hbel.
        by apply not_elem_of_nil in Hbel.
      + intros q. by rewrite decide_False by apply not_elem_of_nil. }
  destruct (admissible_new t t' p He Hnop) as [Ha Hpt].
  destruct (listsOk_concat done m ks Hl Hanti Hnd) as [HLn HLm]; [intros k [Hk _]%Hks; by apply Hm|].
  assert (∀ k, k ∈ keys (trie_Add t' p tt) ↔ k = p ∨ k ∈ keys t ∧ ¬ p ≼ k) as Hkeys.
  { intros k. rewrite Add_keys by done. rewrite He, !list_elem_of_fmap. setoid_rewrite elem_of_notBelow. naive_solver. }
  assert (length p ≤ KeyLen)%nat as Hlen by (apply prefix_length in Hp; by rewrite MhToBit256_length in Hp).
  eexists _, _. split; [done|]. split_and!; [by apply Add_wf| | | |done].
  - apply bounded_Add; [done|done|by eapply bounded_notBelow|done].
  - intros q l. destruct (decide (q = p)) as [->|Hqp].
    + rewrite lookup_insert_eq. intros [= <-]. split; [done|]. split.
      * apply NoDup_cons. rewrite HL. split; [|done]. by intros [? _]%HLm.
      * intros h'. rewrite elem_of_cons, HL, HLm. split.
        -- intros [->|[Hd (k & [_ Hk]%Hks & Hkh)]]; [set_solver|]. split; [set_solver|by etrans].
        -- intros [[->%elem_of_singleton|Hd]%elem_of_union Hph]; [by left|right]. split; [done|].
           destruct (Hcov h' Hd) as (k & Hk & Hkh). exists k. split; [|done]. apply Hks. split; [done|].
           destruct (prefix_weak_total p k (MhToBit256 h')) as [?|?]; [done..|]. by destruct (Hnop k Hk).
    + rewrite lookup_insert_ne, Hm' by done. case_decide as Hq; [done|]. intros Hql.
      destruct (Hl q l Hql) as (Hne & Hndl & Hel). split_and!; [done|done|]. intros h'. rewrite Hel.
      assert (¬ q ≼ MhToBit256 h) by (apply Hno, Hm; eauto). split; [set_solver|].
      intros [[->%elem_of_singleton|Hd]%elem_of_union Hqh]; done.
  - intros q. rewrite Hkeys. destruct (decide (q = p)) as [->|Hqp].
    + rewrite lookup_insert_eq. naive_solver.
    + rewrite lookup_insert_ne, Hm' by done. pose proof (Hm q) as Hmq. case_decide as Hq.
      * apply Hks in Hq. split; [by intros [? ?]|naive_solver].
      * rewrite Hmq. split; [intros Hin; right; split; [done|]|naive_solver]. intros Hpq. by apply Hq, Hks.
Qed.
(** ** The prefix of a key *)

(** The average prefix length is known: the provider is not offline. *)
Definition known s : Prop := cachedAvgPrefixLen s ≠ -1.

Lemma quot_nonneg a b : 0 ≤ a → 0 ≤ b → 0 ≤ Z.quot a b.
Proof.
  intros Ha Hb. destruct (decide (b = 0)) as [->|?]; [by destruct a|]. apply Z.quot_pos; lia.
Qed.

Lemma getAvgPrefixLen_known s :
  provInv s → wp getAvgPrefixLenNoLock (λ l s', schedule s' = schedule s ∧ (known s → known s' ∧ l ≠ -1)) s.
Proof.
  intros [[Hw Hb _ _ _ _ _ _] _]. apply wp_bind, wp_gets. cbn [id]. case_decide; [by apply wp_ret|].
  apply wp_bind, wp_ask. intros now. case_decide; [by apply wp_ret|].
  destruct (IsEmptyLeaf (schedule s)); [by apply wp_ret|].
  apply wp_bind. eapply wp_lift; [apply (trieIter_ordered order (schedule s) fst Hw (bounded_order _ Hb))|].
  cbv zeta. apply wp_bind, wp_ask. intros now'. repeat wp_step. split; [done|]. intros _. unfold known. cbn.
  set (avg := Z.quot _ _). assert (0 ≤ avg) by (apply quot_nonneg; [|lia];
    generalize (fst <$> ordered order 0 (schedule s)); intros ks;
    assert (∀ n, 0 ≤ n → 0 ≤ foldl (λ n k, n + Z.of_nat (length k)) n ks) as Hf
      by (induction ks as [|k ks IH]; intros n Hn; cbn; [done|apply IH; lia]); by apply Hf).
  lia.
Qed.

(** The schedule of [s'] covers what that of [s] covers. *)
Definition coversMore s s' : Prop := ∀ x, covered x (schedule s) → covered x (schedule s').

Lemma scheduledIn_covers p d (t t' : trie Z) :
  scheduledIn p d t t' → covered p t' ∧ ∀ x, covered x t → covered x t'.
Proof.
  intros [(q & Hq & Hp & ->)|[_ He]]; [split; [by exists q|done]|].
  assert (p ∈ keys t') as Hin by (rewrite He; by left). split; [by exists p|].
  intros x (k & Hk & Hx). destruct (decide (p ≼ k)) as [Hpk|Hpk]; [exists p; split; [done|by etrans]|].
  exists k. split; [|done]. rewrite He. right. apply list_elem_of_fmap in Hk as (e & -> & Hk).
  apply list_elem_of_fmap_2. by apply elem_of_notBelow.
Qed.

Lemma choosePrefix_spec k sched avg s :
  provInv s → -1 ≤ avg ≤ Z.of_nat KeyLen → length k = KeyLen →
  wp (choosePrefix k sched avg) (λ r s', provInv s' ∧ coversMore s s' ∧
    (known s → known s' ∧ r ≠ None) ∧
    ∀ p avg', r = Some (p, avg') → p ≼ k ∧ -1 ≤ avg' ≤ Z.of_nat KeyLen ∧
      (sched = true → covered p (schedule s'))) s.
Proof.
  intros Hs Havg Hk. apply wp_bind, wp_gets. cbn [id].
  destruct (FindPrefixOfKey_spec (schedule s) k) as [(r & Hr & Hin & Hp)|(r & Hr & Hno)]; [apply Hs| |];
    (apply wp_bind; eapply wp_lift; [exact Hr|]; wp_red).
  { apply wp_ret. split_and!; [done|by intros x|done|]. intros p avg' [= <- <-]. split_and!; [done|lia|lia|].
    intros _. by exists r. }
  assert (∀ P : Z → state → Prop, (∀ l s', provInv s' → schedule s' = schedule s →
      -1 ≤ l ≤ Z.of_nat KeyLen → (known s → known s' ∧ l ≠ -1) → P l s') →
    wp (if decide (avg = -1) then getAvgPrefixLenNoLock else mret avg) P s) as Havg'.
  { intros P HP. case_decide; [|by apply wp_ret, HP].
    eapply wp_mono; [apply wp_conj; [by apply safe_getAvgPrefixLen|by apply getAvgPrefixLen_known]|].
    intros l s' [[Hs' Hl] [Hsch Hkn]]. by apply HP. }
  apply wp_bind, Havg'. clear Havg'. intros l s' Hs' Hsch Hl Hkn.
  assert (coversMore s s') as Hcm by (intros x; by rewrite Hsch).
  case_decide; [apply wp_ret; split_and!; [done|done| |done]; by intros [_ ?]%Hkn|].
  rewrite decide_False by lia. cbv zeta.
  set (p := take (Z.to_nat l) k). assert (p ≼ k) as Hp by apply prefix_take.
  apply wp_bind, wp_when.
  - intros _. eapply wp_mono; [apply schedulePrefix_spec; [done|]|].
    { apply prefix_length in Hp. lia. }
    intros [] s'' (t & c & timer & started & n & d & -> & Hok & Hsched & _).
    destruct (scheduledIn_covers _ _ _ _ Hsched) as [Hcov Hmore]. apply wp_ret.
    split_and!; [by apply provInv_resched| |by intros [? _]%Hkn|].
    + intros x Hx. by apply Hmore, Hcm.
    + intros p' avg' [= <- <-]. by split_and!; [|lia|lia|].
  - intros ->. apply wp_ret. split_and!; [done|done|by intros [? _]%Hkn|]. intros p' avg' [= <- <-]. by split_and!; [|lia|lia|].
Qed.

(** ** The loop *)

(** The keys [done] are grouped. *)
Record groupInv (sched : bool) done g s : Prop := {
  gi_wf : wf (g_prefixTrie g);
  gi_bounded : bounded KeyLen (g_prefixTrie g);
  gi_seen : ∀ k, k ∈ g_seen g ↔ ∃ h, h ∈ done ∧ k = MhToBit256 h;
  gi_lists : listsOk done (g_prefixes g);
  gi_maps : mapsOk (g_prefixTrie g) (g_prefixes g);
  gi_covered : ∀ h, h ∈ done → covered (MhToBit256 h) (g_prefixTrie g);
  gi_avg : -1 ≤ g_avgPrefixLen g ≤ Z.of_nat KeyLen;
  gi_sched : sched = true → ∀ p, p ∈ keys (g_prefixTrie g) → covered p (schedule s);
}.

(** A key joins the list of a prefix. *)
Lemma groupInv_join sched done g s p h :
  groupInv sched done g s → h ∉ done → p ∈ keys (g_prefixTrie g) → p ≼ MhToBit256 h →
  groupInv sched ({[h]} ∪ done)
    (mkGroup ({[MhToBit256 h]} ∪ g_seen g) (g_prefixTrie g)
       (<[p := default [] (g_prefixes g !! p) ++ [h]]> (g_prefixes g)) (g_avgPrefixLen g)) s.
Proof.
  intros [Hw Hb Hseen Hl Hm Hcov Havg Hsched] Hh Hp Hph. constructor; cbn; try done.
  - intros k. rewrite elem_of_union, elem_of_singleton, Hseen. set_solver.
  - intros q l. destruct (decide (q = p)) as [->|Hqp].
    + apply Hm in Hp as [l0 Hl0]. rewrite lookup_insert_eq, Hl0. intros [= <-]. cbn.
      destruct (Hl p l0 Hl0) as (_ & Hnd & Hel). split_and!; [by destruct l0| |].
      * apply NoDup_app. split_and!; [done| |apply NoDup_singleton]. intros x Hx ->%list_elem_of_singleton.
        by apply Hel in Hx as [? _].
      * intros x. rewrite elem_of_app, Hel, list_elem_of_singleton. set_solver.
    + rewrite lookup_insert_ne by done. intros Hql. destruct (Hl q l Hql) as (Hne & Hnd & Hel).
      split_and!; [done|done|]. intros x. rewrite Hel. split; [set_solver|].
      intros [[->%elem_of_singleton|Hd]%elem_of_union Hqh]; [|done]. destruct Hqp.
      eapply (wf_at_antichain [] _ q p Hw); [apply Hm; eauto|done|].
      by destruct (prefix_weak_total q p (MhToBit256 h)); [| |left|right].
  - intros q. destruct (decide (q = p)) as [->|Hqp]; [rewrite lookup_insert_eq; naive_solver|].
    rewrite lookup_insert_ne by done. apply Hm.
  - intros x [->%elem_of_singleton|Hd]%elem_of_union; [by exists p|auto].
Qed.

(** Before a key opens a new prefix, the state may have changed. *)
Lemma groupInv_more sched done g s s' :
  groupInv sched done g s → coversMore s s' → groupInv sched done g s'.
Proof. intros [] Hc. constructor; auto. Qed.

Lemma groupInv_open sched done g s p h avg :
  groupInv sched done g s → h ∉ done → p ≼ MhToBit256 h → -1 ≤ avg ≤ Z.of_nat KeyLen →
  (∀ q, q ∈ keys (g_prefixTrie g) → ¬ q ≼ MhToBit256 h) → (sched = true → covered p (schedule s)) →
  ∃ g', consolidate p h (mkGroup ({[MhToBit256 h]} ∪ g_seen g) (g_prefixTrie g) (g_prefixes g) avg) = Some g' ∧
    groupInv sched ({[h]} ∪ done) g' s.
Proof.
  intros [Hw Hb Hseen Hl Hm Hcov Havg Hsched] Hh Hp Havg' Hno Hps.
  destruct (consolidate_spec p h done (mkGroup ({[MhToBit256 h]} ∪ g_seen g) (g_prefixTrie g) (g_prefixes g) avg))
    as (t & m & -> & Hwt & Hbt & Hlt & Hmt & Hk); [done..|]. cbn in Hk.
  eexists. split; [done|]. constructor; cbn; try done.
  - intros k. rewrite elem_of_union, elem_of_singleton, Hseen. set_solver.
  - intros x [->%elem_of_singleton|Hd]%elem_of_union; [exists p; split; [apply Hk; by left|done]|].
    destruct (Hcov x Hd) as (k & Hin & Hx). destruct (decide (p ≼ k)) as [Hpk|Hpk].
    + exists p. split; [apply Hk; by left|by etrans].
    + exists k. split; [apply Hk; by right|done].
  - intros Hs q [->|[Hq _]]%Hk; auto.
Qed.

Lemma groupLoop_spec hs sched done g s :
  provInv s → groupInv sched done g s →
  wp (groupLoop hs sched g) (λ r s', provInv s' ∧ coversMore s s' ∧ (known s → known s' ∧ r ≠ None) ∧
    ∀ g', r = Some g' → groupInv sched (list_to_set hs ∪ done) g' s') s.
Proof.
  revert done g s. induction hs as [|h hs IH]; intros done g s Hs Hg; cbn [groupLoop].
  { apply wp_ret. split_and!; [done|by intros x|done|]. intros g' [= <-]. by rewrite list_to_set_nil, (left_id_L ∅ (∪)). }
  rewrite list_to_set_cons. cbv zeta. case_decide as Hin.
  { apply (gi_seen _ _ _ _ Hg) in Hin as (h' & Hd & ->%MhToBit256_inj).
    replace ({[h']} ∪ list_to_set hs ∪ done) with (list_to_set hs ∪ done : gset mh) by set_solver. by apply IH. }
  assert (h ∉ done) as Hh by (intros Hd; apply Hin, (gi_seen _ _ _ _ Hg); eauto).
  replace ({[h]} ∪ list_to_set hs ∪ done) with (list_to_set hs ∪ ({[h]} ∪ done) : gset mh) by set_solver.
  cbn [g_seen g_prefixTrie g_prefixes g_avgPrefixLen].
  destruct (FindPrefixOfKey_spec (g_prefixTrie g) (MhToBit256 h)) as [(p & Hr & Hk & Hp)|(p & Hr & Hno)];
    [apply Hg| |]; (apply wp_bind; eapply wp_lift; [exact Hr|]; wp_red).
  { apply IH; [done|]. by apply groupInv_join. }
  apply wp_bind. eapply wp_mono; [apply choosePrefix_spec; [done|apply Hg|apply MhToBit256_length]|].
  intros [[q avg]|] s' (Hs' & Hmore & Hkn & Hr').
  2: { apply wp_ret. split_and!; [done|done| |done]. by intros [_ ?]%Hkn. }
  destruct (Hr' q avg eq_refl) as (Hq & Havg & Hcov).
  destruct (groupInv_open sched done g s' q h avg) as (g' & Hc & Hg'); try done; [by eapply groupInv_more|].
  apply wp_bind. eapply wp_lift; [exact Hc|].
  eapply wp_mono; [by apply (IH ({[h]} ∪ done))|]. intros r s'' (Hs'' & Hmore' & Hkn' & Hfin).
  split_and!; [done| | |done].
  - intros x Hx. by apply Hmore', Hmore.
  - intros [? _]%Hkn. by apply Hkn'.
Qed.

(** The keys of [hs] grouped by prefixes. *)
Definition grouping hs m : Prop :=
  antichain (elements (dom m)) ∧ listsOk (list_to_set hs) m ∧
  ∀ h, h ∈ hs → ∃ p l, m !! p = Some l ∧ h ∈ l.

Lemma group_spec hs sched s :
  provInv s →
  wp (groupAndScheduleKeysByPrefix hs sched) (λ m s', provInv s' ∧ coversMore s s' ∧
    (¬ known s ∧ m = ∅ ∨ grouping hs m ∧ (sched = true → ∀ p, p ∈ dom m → covered p (schedule s')))) s.
Proof.
  intros Hs. apply wp_bind. eapply wp_mono; [apply (groupLoop_spec hs sched ∅); [done|]|].
  { constructor; cbn; try done; try set_solver; try lia; try by constructor.
    intros p. rewrite lookup_empty. split; [by intros [? ?]|by intros ?%not_elem_of_nil]. }
  intros [g|] s' (Hs' & Hmore & Hkn & Hg); apply wp_ret; (split_and!; [done|done|]); [right|].
  2: { left. split; [|done]. by intros [_ ?]%Hkn. }
  destruct (Hg g eq_refl) as [Hw Hb _ Hl Hm Hcov _ Hsched].
  rewrite (right_id_L ∅ (∪)) in Hl, Hcov.
  assert (∀ p, p ∈ dom (g_prefixes g) → p ∈ keys (g_prefixTrie g)) as Hdom by (intros p Hp; by apply Hm, elem_of_dom).
  split; [|by auto]. split_and!; [|done|].
  - intros a b Ha%elem_of_elements Hb'%elem_of_elements. apply (wf_at_antichain [] _ _ _ Hw); auto.
  - intros h Hh. destruct (Hcov h) as (p & Hp & Hph); [set_solver|]. apply Hm in Hp as [l Hpl].
    exists p, l. split; [done|]. destruct (Hl p l Hpl) as (_ & _ & Hel). apply Hel. split; [set_solver|done].
Qed.
End group.
