(* ===== verification/ProviderSteps.v ===== *)
(** * Every execution of the sweeping provider is safe

    The entry points, the events of the run loop and the goroutines as a
    transition system; the invariant holds in every reachable state and no
    step panics. *)

From S2P Require Import Prelude Key Trie TrieSet Allocate Regions Deque PrefixQueue ProvideQueue.
From S2P Require Import GoTime Datastore GoMonad Provider Schedule ProviderInv ProviderSafe ProviderGroup.

Local Open Scope Z_scope.

Section steps.
Context {TL : TrieLib} {TLW : TrieLaws} {DL : DequeLib} {DLW : DequeLaws} {DSL : DsLib}.
Context {peerID mh addr : Type} {EP : EqDecision peerID} {CP : Countable peerID}.
Context {EM : EqDecision mh} {CM : Countable mh}.
Context {CFG : Config} {COK : ConfigOk} {W : World peerID mh addr} {WOK : WorldOk W}.

Abbreviation state := (@SweepingProvider DL DSL peerID mh addr).
Abbreviation M := (GoM state).
Abbreviation safe_ := (safe (λ _, True)).
Implicit Types (s : state) (p k : key) (hs : list mh).

(** ** The loops *)

Lemma safe_setLocks (f g h : state → bool) : safe_ (modify (λ s, set_locks (f s) (g s) (h s) s)).
Proof. apply safe_modify. intros s Hs. by apply provInv_locks. Qed.

Lemma safe_provideLoop n : safe_ (provideLoop n).
Proof.
  apply safe_gets. intros s _. destruct (provideRunning s); [by apply safe_ret|].
  apply safe_seq; [apply safe_setLocks|]. apply safe_seq; [apply safe_provideLoopIter|apply safe_setLocks].
Qed.

Lemma safe_reprovideLate n : safe_ (reprovideLateRegions n).
Proof.
  induction n as [|n IH]; cbn [reprovideLateRegions]; [by apply safe_ret|].
  apply safe_gets. intros s0 _. destruct (RQ_IsEmpty _); [by apply safe_ret|].
  eapply safe_bind; [apply safe_ask|]. intros [] _; [by apply safe_ret|].
  eapply safe_bind; [apply safe_ask|]. intros online _. destruct (negb online); [by apply safe_ret|].
  eapply safe_bind; [apply safe_ask|]. intros acq _. destruct (negb acq); [by apply safe_ret|].
  apply safe_state. intros s Hs.
  assert (∃ q p ok, RQ_Dequeue (reprovideQueue s) = Some (q, (p, ok)) ∧
    pqInv (rq_queue q) ∧ (ok = true → (length p ≤ KeyLen)%nat)) as (q & p & ok & Hd & Hq & Hok).
  { pose proof (Pop_spec (rq_queue (reprovideQueue s))) as Hspec. unfold RQ_Dequeue.
    assert (pqInv (rq_queue (reprovideQueue s))) as Hrq by apply Hs.
    destruct (contents _) as [|p l] eqn:Hc; [rewrite Hspec by done|].
    - eexists _, _, _. split; [done|]. by split.
    - destruct Hspec as (q' & -> & Hinv & _); [done|]. eexists _, _, _. split; [done|]. split; [done|].
      intros _. apply (pqInv_length _ _ Hrq). rewrite Hc. by left. }
  apply wp_bind. eapply wp_lift; [exact Hd|]. apply wp_bind, wp_modify.
  apply wp_safe; [|apply provInv_queues; [done|apply Hs|done]].
  destruct ok; [|by apply safe_seq; [apply safe_emit|]].
  eapply safe_bind; [apply safe_ask|]. intros [] _; [apply safe_emit|].
  apply safe_seq; [apply safe_spawn; by apply Hok|done].
Qed.

Lemma safe_runTask n t : taskOk t → safe_ (runTask n t).
Proof.
  destruct t as [p|p|p hs| |]; cbn [taskOk runTask]; intros Ht.
  - eapply safe_bind; [apply safe_ask|]. intros ok _. apply safe_when. intros _.
    apply safe_seq; [by apply safe_batchReprovide|apply safe_emit].
  - apply safe_seq; [by apply safe_batchReprovide|apply safe_emit].
  - apply safe_seq; [by apply safe_batchProvide|apply safe_emit].
  - apply safe_provideLoop.
  - apply safe_seq; [apply safe_reprovideLate|].
    apply safe_seq; [apply safe_setLocks|apply safe_provideLoop].
Qed.

(** ** The entry points *)

Lemma safe_group hs sched :
  safe (λ m, m = ∅ ∨ grouping hs m) (groupAndScheduleKeysByPrefix hs sched).
Proof.
  intros s Hs. eapply wp_mono; [by apply group_spec|]. intros m s' (Hs' & _ & [[_ ?]|[? _]]); auto.
Qed.

Lemma safe_isOffline : safe_ isOffline.
Proof. intros s Hs. by apply wp_gets. Qed.

Lemma safe_handleProvide force reprovide hs : safe_ (handleProvide force reprovide hs).
Proof.
  destruct hs as [|h0 hs0]; [by apply safe_ret|]. set (hs := h0 :: hs0).
  eapply (safe_bind (λ _, True)).
  { destruct reprovide; [|by apply safe_ret]. eapply safe_bind; [apply safe_ask|]. intros r _. by apply safe_ret. }
  intros [l|] _; [|by apply safe_ret].
  eapply safe_bind; [apply safe_isOffline|]. intros [] _; [by apply safe_ret|].
  eapply safe_bind; [apply safe_group|]. intros m Hm. case_decide as Hne; [by apply safe_ret|].
  destruct Hm as [?|(_ & Hl & _)]; [done|]. apply safe_seq.
  - apply safe_forM. intros [p l'] Hin. apply SortPrefixesBySize_correct in Hin.
    rewrite lookup_fmap in Hin. destruct (m !! p) as [l0|] eqn:Hp; [|done]. injection Hin as ->.
    apply safe_enqueueProvide. apply Forall_forall. intros h Hh. by apply (Hl p l' Hp) in Hh as [_ ?].
  - eapply safe_bind; [apply safe_ask|]. intros [] _; [by apply safe_ret|by apply safe_spawn].
Qed.

Lemma safe_ProvideOnce hs : safe_ (ProvideOnce hs).
Proof.
  eapply safe_bind; [apply safe_ask|]. intros [] _; [by apply safe_ret|].
  apply safe_seq; [apply safe_handleProvide|by apply safe_ret].
Qed.

Lemma safe_StartProviding force hs : safe_ (StartProviding force hs).
Proof.
  eapply safe_bind; [apply safe_ask|]. intros [] _; [by apply safe_ret|].
  apply safe_seq; [apply safe_handleProvide|by apply safe_ret].
Qed.

Lemma safe_StopProviding hs : safe_ (StopProviding hs).
Proof.
  eapply safe_bind; [apply safe_ask|]. intros [] _; [by apply safe_ret|].
  eapply safe_bind; [apply safe_ask|]. intros ok _. apply safe_state. intros s Hs.
  destruct (PVQ_Remove_spec MhToBit256 MhToBit256_length MhToBit256_inj (provideQueue s) hs)
    as (q & Hq & Hinv & _); [apply Hs|].
  apply wp_bind. eapply wp_lift; [exact Hq|]. repeat wp_step. split; [|done].
  by apply provInv_queues; [| |apply Hs].
Qed.

Lemma pvqInv_clear (q : @ProvideQueue DL mh) : pvqInv MhToBit256 (PVQ_Clear q).1.
Proof.
  pose proof (Clear_spec (pvq_queue q)) as Hc. unfold PVQ_Clear. destruct (Clear (pvq_queue q)) as [q' n].
  destruct Hc as (Hinv & Hcont & _). split_and!; [done|by split; [|constructor]| |].
  - cbn [fst pvq_queue]. rewrite Hcont. by intros p ?%not_elem_of_nil.
  - by intros k ?%not_elem_of_nil.
Qed.

Lemma safe_Clear : safe_ SP_Clear.
Proof.
  eapply safe_bind; [apply safe_ask|]. intros [] _; [by apply safe_ret|]. apply safe_state. intros s Hs.
  pose proof (pvqInv_clear (provideQueue s)) as Hc. destruct (PVQ_Clear _) as [q n]. repeat wp_step.
  split; [|done]. by apply provInv_queues; [| |apply Hs].
Qed.

Lemma safe_AddToSchedule hs : safe_ (AddToSchedule hs).
Proof.
  eapply safe_bind; [apply safe_ask|]. intros [] _; [by apply safe_ret|].
  eapply safe_bind; [apply safe_isOffline|]. intros off _. apply safe_seq; [|by apply safe_ret].
  apply safe_when. intros _. eapply safe_bind; [apply safe_group|]. intros; by apply safe_ret.
Qed.

Lemma safe_withKeys l :
  safe (λ l', ∀ p, p ∈ l' → p ∈ l) (withKeys l).
Proof.
  induction l as [|p l IH]; cbn [withKeys]; [by apply safe_ret|].
  eapply safe_bind; [apply safe_ask|]. intros ok _. eapply safe_bind; [exact IH|]. intros l' Hl'.
  apply safe_ret. destruct ok; set_solver.
Qed.

Lemma safe_enqueueSchedule : safe_ (s ← gets id; ks ← liftO (AllKeys (schedule s) order); enqueueReprovide ks ;; catchupPendingWork).
Proof.
  apply safe_state. intros s Hs. pose proof Hs as [[Hw Hb _ _ _ _ _ _] _].
  apply wp_bind. eapply wp_lift; [apply AllKeys_ordered; [done|by apply bounded_order]|].
  apply wp_safe; [|done]. apply safe_seq; [|apply safe_catchup]. apply safe_enqueueReprovide.
  rewrite ordered_Permutation. apply Forall_forall. intros k Hk. by apply (bounded_elem _ _ _ Hb).
Qed.

Lemma safe_RefreshSchedule : safe_ RefreshSchedule.
Proof.
  eapply safe_bind; [apply safe_ask|]. intros [] _; [by apply safe_ret|].
  eapply safe_bind; [apply safe_getAvgPrefixLen|]. intros len Hlen. case_decide; [by apply safe_ret|].
  apply safe_state. intros s Hs. pose proof Hs as [[Hw Hb _ _ _ _ _ _] _].
  destruct (TrieGaps_spec (schedule s) [] order Hw (bounded_order _ Hb)) as (gs & Hgs & _).
  apply wp_bind. eapply wp_lift; [exact Hgs|]. cbv zeta. set (missing := gs ≫= _).
  assert (∀ p, p ∈ missing → (length p ≤ KeyLen)%nat) as Hmiss.
  { intros p (g & Hp & Hg)%list_elem_of_bind. case_decide.
    - apply list_elem_of_singleton in Hp as ->.
      eapply (TrieGaps_length (schedule s) KeyLen []); [done|done|cbn; lia|done|done].
    - apply ExtendBinaryPrefix_correct in Hp as [_ Hp]. cbn beta in Hlen. lia. }
  apply wp_safe; [|done]. eapply safe_bind; [apply safe_withKeys|]. intros ins Hins.
  destruct ins as [|i0 ins0]; [by apply safe_ret|]. set (ins := i0 :: ins0) in *.
  apply safe_gets. intros s' _. apply safe_seq; [apply safe_forM; intros p Hp; apply safe_schedulePrefix; auto|].
  apply safe_seq; [|by apply safe_ret]. apply safe_when. intros _. apply safe_enqueueSchedule.
Qed.

Lemma safe_onOffline : safe_ onOffline.
Proof.
  apply safe_seq; apply safe_modify; intros s Hs.
  - apply provInv_queues; [done|apply pvqInv_clear|apply Hs].
  - apply provInv_avg; [done|lia].
Qed.
Lemma safe_bootstrapCursor :
  safe_ (s ← gets id;
         l ← liftO (EntriesIter (schedule s) order);
         match l with
         | [] => mret tt
         | e :: _ => t ← timeUntil e.2; scheduleNextReprovideNoLock e.1 t
         end).
Proof.
  apply safe_state. intros s Hs. pose proof Hs as [Hbase _]. pose proof Hbase as [Hw Hb _ _ _ _ _ _].
  apply wp_bind. eapply wp_lift; [apply (trieIter_ordered order (schedule s) (λ e, e) Hw (bounded_order _ Hb))|].
  rewrite list_fmap_id. destruct (ordered order 0 (schedule s)) as [|e l] eqn:E; [by apply wp_ret|].
  apply wp_bind, wp_timeUntil. intros a. apply wp_scheduleNext. intros st. split; [|done].
  apply (baseInv_arm _ e); [by apply baseInv_log|].
  apply (elem_of_ordered order 0). cbn. rewrite E. by left.
Qed.

Lemma safe_onOnline n : safe_ (onOnline n).
Proof.
  eapply safe_bind; [apply safe_ask|]. intros [] _; [by apply safe_ret|].
  apply safe_gets. intros s0 _. cbv zeta. destruct (_ && _); [by apply safe_ret|].
  apply safe_seq.
  { apply safe_when. intros _. apply safe_seq; [apply safe_approxPrefixLen|].
    eapply safe_bind; [apply safe_RefreshSchedule|]. intros; by apply safe_ret. }
  apply safe_seq; [|apply safe_catchup]. apply safe_when. intros _. apply safe_seq.
  - destruct (negb skipBootstrapReprovide); [|apply safe_bootstrapCursor].
    eapply safe_bind; [apply safe_ask|]. intros now _.
    eapply safe_bind; [apply safe_loadRecently|]. intros [t|] Ht; [|by apply safe_ret].
    apply safe_enqueueExpired. by apply Ht.
  - apply safe_modify. intros s Hs. by apply provInv_boot.
Qed.

(** ** The scheduler *)

(** The region [k] is taken care of: it waits in the queue or a goroutine is
    started for it. *)
Definition handled s k : Prop := queued s k ∨ TaskReprovide k ∈ tasks s.

Lemma removeReprovide_spec p s :
  provInv s →
  wp (removeReprovide p) (λ _ s', provInv s' ∧ tasks s' = tasks s ∧ schedule s' = schedule s ∧
    scheduleCursor s' = scheduleCursor s ∧ ∀ k, queued s k → queued s' k ∨ p ≼ k) s.
Proof.
  intros Hs. apply wp_bind, wp_gets. cbn [id].
  destruct (Remove_spec (rq_queue (reprovideQueue s)) p) as (q & Hq & Hinv & Hc); [apply Hs|].
  apply wp_bind. eapply wp_lift; [unfold RQ_Remove; by rewrite Hq|]. apply wp_modify.
  split_and!; [by apply provInv_queues; [|apply Hs|]|done..|].
  intros k (x & Hx & Hxk). destruct (decide (p ≼ x)) as [Hp|Hp]; [right; by etrans|left].
  exists x. split; [|done]. cbn. rewrite Hc. by apply list_elem_of_filter.
Qed.
Lemma handleReprovide_spec s :
  baseInv s →
  wp handleReprovide (λ _ s', provInv s' ∧ schedule s' = schedule s ∧
    (∀ k, queued s k → queued s' k ∨ scheduleCursor s ≼ k) ∧
    ((∀ i, w_closed i = false) → schedule s ≠ Empty →
      (∀ k, k ∈ keys (schedule s) → handled s' k) ∨
      ∃ late next, passed (schedule s) (scheduleCursor s) late next ∧
        scheduleCursor s' = next.1 ∧ handled s' (scheduleCursor s) ∧
        ∀ e, e ∈ late → handled s' e.1)) s.
Proof.
  intros Hs. apply wp_bind. eapply wp_mono; [by apply advanceSchedule_spec|].
  intros [c|] s1 (Hs1 & Hsch & Hts & Hq & Hr).
  2: { apply wp_ret. split_and!; [done|done|auto|]. intros _ _. left. intros k Hk. left. auto. }
  destruct Hr as (-> & Hc & late & next & Hpass & Hcur & Hlate). set (c := scheduleCursor s) in *.
  assert ((length c ≤ KeyLen)%nat) as Hl by (apply (bounded_elem _ _ _ (inv_bounded _ Hs)), Hc).
  apply wp_bind, wp_ask. intros online. set (s2 := set_log _ _ _ s1).
  assert (provInv s2) as Hs2 by (apply provInv_log; [done|apply Hs1]).
  destruct (negb online).
  - apply wp_enqueueReprovide; [apply Hs2|by apply Forall_singleton|]. intros q Hq' Hcont.
    assert (∀ k, queued (set_queues (provideQueue s2) q s2) k ↔ c ≼ k ∨ queued s1 k) as Hqd.
    { intros k. unfold queued. cbn. rewrite Hcont, pushSpec_fold. set_solver. }
    split_and!; [by apply provInv_queues; [|apply Hs2|]|done| |].
    + intros k Hk. left. apply Hqd. auto.
    + intros _ _. right. exists late, next. split_and!; [done|done| |].
      * left. apply Hqd. by left.
      * intros e He. left. apply Hqd. right. by apply Hlate.
  - apply wp_bind. eapply wp_mono; [by apply removeReprovide_spec|].
    intros [] s3 (Hs3 & Hts3 & Hsch3 & Hcur3 & Hq3). apply wp_bind.
    unfold closed, ask. do 2 (apply wp_bind; wp_step). apply wp_ret.
    destruct (w_closed (calls s3)) eqn:Hcl.
    + apply wp_ret. split_and!; [by apply provInv_log; [|apply Hs3]|exact (eq_trans Hsch3 Hsch)| |].
      * intros k Hk. by apply Hq3, Hq.
      * intros Hno. by rewrite Hno in Hcl.
    + apply wp_modify.
      assert (Forall taskOk (tasks s3)) as Htk by apply Hs3.
      split_and!; [apply provInv_log; [by apply provInv_log|]|exact (eq_trans Hsch3 Hsch)| |].
      * apply Forall_app. split; [done|]. by apply Forall_singleton.
      * intros k Hk. by apply Hq3, Hq.
      * intros _ _. right. exists late, next. split_and!; [done|exact (eq_trans Hcur3 Hcur)| |].
        -- right. cbn. set_solver.
        -- intros e He. destruct (Hq3 e.1) as [Hqe|Hce]; [by apply Hlate|by left|].
           right. cbn. replace e.1 with c; [set_solver|].
           apply (wf_at_antichain [] _ _ _ (inv_schedule _ Hs)); [done| |by left].
           by apply list_elem_of_fmap_2, Hlate.
Qed.
Lemma safe_runOnce ev : safe_ (runOnce ev).
Proof.
  destruct ev; cbn [runOnce].
  - eapply safe_bind; [apply safe_ask|]. intros b _. apply safe_when. intros _. apply safe_catchup.
  - intros s [Hs _]. apply wp_bind, wp_modify.
    eapply wp_mono; [apply handleReprovide_spec; destruct Hs; by constructor|]. intros [] s' [? _]. done.
Qed.

(** ** The transition system *)

(** What may happen to the provider: a call to one of its methods, a callback
    of the connectivity checker, an event of [run], or a goroutine that runs.
    Each is one step; [fuel] bounds the loops of the step. *)
Inductive provOp :=
  | OpProvideOnce (hs : list mh)
  | OpStartProviding (force : bool) (hs : list mh)
  | OpStopProviding (hs : list mh)
  | OpClear
  | OpAddToSchedule (hs : list mh)
  | OpRefreshSchedule
  | OpOnline (fuel : nat)
  | OpOffline
  | OpRun (ev : runEvent)
  | OpTask (i fuel : nat).

(** The goroutine [i] of those that were started. *)
Definition runPending (i fuel : nat) : M () :=
  s ← gets id;
  match tasks s !! i with
  | None => mret tt
  | Some t =>
      modify (λ s, set_log (calls s) (events s) (delete i (tasks s)) s) ;;
      runTask fuel t
  end.

Definition execOp (op : provOp) : M () :=
  match op with
  | OpProvideOnce hs => ProvideOnce hs ;; mret tt
  | OpStartProviding force hs => StartProviding force hs ;; mret tt
  | OpStopProviding hs => StopProviding hs ;; mret tt
  | OpClear => SP_Clear ;; mret tt
  | OpAddToSchedule hs => AddToSchedule hs ;; mret tt
  | OpRefreshSchedule => RefreshSchedule ;; mret tt
  | OpOnline fuel => onOnline fuel
  | OpOffline => onOffline
  | OpRun ev => runOnce ev
  | OpTask i fuel => runPending i fuel
  end.

(** [New] without the options: the state a provider starts with.  [restored]
    is the provide queue loaded from the datastore; the start of the cycle,
    which [setCycleStart] returns, is [cycleStart] of the configuration. *)
Definition New (resume : bool) (now : Z) (d : DS) (restored : @ProvideQueue DL mh) : option state :=
  let '(d, cached) :=
    if resume then
      let '(d, (l, failed)) := loadAvgPrefixLen d in
      (d, if failed : bool then -1 else if decide (0 ≤ l) then l else -1)
    else (d, -1) in
  let '(d, _) := setCycleStart now resume d in
  let s := mkProvider Empty [] None zeroTime Empty NewProvideQueue NewReprovideQueue false false false
             cached zeroTime false 0 d 0 [] [] in
  if resume then Some (set_queues restored (reprovideQueue s) s)
  else snd <$> gcReprovideHistoryIfNeeded maxTime s.

Lemma safe_run {A} (m : M A) : safe_ m → safe_ (m ;; mret tt).
Proof. intros Hm. by apply safe_seq; [|apply safe_ret]. Qed.

Lemma safe_execOp op : safe_ (execOp op).
Proof.
  destruct op; cbn [execOp].
  - apply safe_run, safe_ProvideOnce.
  - apply safe_run, safe_StartProviding.
  - apply safe_run, safe_StopProviding.
  - apply safe_run, safe_Clear.
  - apply safe_run, safe_AddToSchedule.
  - apply safe_run, safe_RefreshSchedule.
  - apply safe_onOnline.
  - apply safe_onOffline.
  - apply safe_runOnce.
  - apply safe_state. intros s Hs. destruct (tasks s !! i) as [t|] eqn:Ht; [|by apply wp_ret].
    assert (Forall taskOk (tasks s)) as Hts by apply Hs. apply wp_bind, wp_modify. apply wp_safe.
    + apply safe_runTask. by eapply (proj1 (Forall_lookup _ _) Hts).
    + apply provInv_log; [done|]. by apply Forall_delete.
Qed.

Lemma New_spec resume now d (restored : @ProvideQueue DL mh) :
  pvqInv MhToBit256 restored →
  ∃ s, New resume now d restored = Some s ∧ provInv s ∧ schedule s = Empty.
Proof.
  intros Hq. unfold New.
  set (cached := if resume then _ else _).
  assert (-1 ≤ cached.2 ≤ Z.of_nat KeyLen) as Hc.
  { unfold cached. destruct resume; [|cbn; lia]. unfold loadAvgPrefixLen.
    destruct (ds_Get d _) as [d' [[[|l [|l' ls]]|]|]]; cbn; repeat case_decide; cbn in *; lia. }
  destruct cached as [d1 c]. cbn in Hc. destruct (setCycleStart now resume d1) as [d2 start].
  set (s := mkProvider _ _ _ _ _ _ _ _ _ _ _ _ _ _ _ _ _ _).
  assert (provInv s) as Hs.
  { split; [|by intros ?]. constructor; try done.
    - by constructor.
    - by intros ?.
    - apply NewReprovideQueue_inv.
    - apply NewProvideQueue_inv. }
  destruct resume.
  - eexists. split; [done|]. split; [|done]. by apply provInv_queues; [| |apply Hs].
  - destruct (safe_gc maxTime s Hs) as ([] & s' & Hgc & Hs' & _). rewrite Hgc. eexists. split; [done|].
    split; [done|]. revert Hgc. unfold gcReprovideHistoryIfNeeded, closed, ask.
    unfold mbind, GoM_bind, gets, modify, mret, GoM_ret, id.
    repeat case_match; intros; simplify_eq; done.
Qed.


(** C2: The timer of the schedule never skips a region.  When it fires on a
    running provider, the region at the cursor is reprovided or queued, and
    so is every region between it and the new cursor in the cyclic order of
    the schedule - after a block of more than one cycle, all regions; what
    was queued before stays queued, unless it is the region at the cursor. *)
Theorem handleReprovide_no_skip s :
  baseInv s → (∀ i, w_closed i = false) → schedule s ≠ Empty →
  wp handleReprovide (λ _ s', provInv s' ∧ schedule s' = schedule s ∧
    (∀ k, queued s k → queued s' k ∨ scheduleCursor s ≼ k) ∧
    ((∀ k, k ∈ keys (schedule s) → handled s' k) ∨
     ∃ late next, passed (schedule s) (scheduleCursor s) late next ∧
       scheduleCursor s' = next.1 ∧ handled s' (scheduleCursor s) ∧
       ∀ e, e ∈ late → handled s' e.1)) s.
Proof.
  intros Hs Hc Hne. eapply wp_mono; [by apply handleReprovide_spec|].
  intros [] s' (Hs' & Hsch & Hq & Hr). by split_and!; [| | |apply Hr].
Qed.
End steps.
