(* ===== verification/ProviderFacts.v ===== *)
(** * What the operations of the sweeping provider achieve

    Functional properties of [Provider]: scheduling, claims, sending records,
    the provide loop, the refresh of the schedule and the reprovide history. *)

From S2P Require Import Prelude Key Trie TrieSet Allocate Regions Deque PrefixQueue ProvideQueue.
From S2P Require Import GoTime Datastore GoMonad Provider Schedule ProviderInv ProviderSafe ProviderGroup.
From S2P Require Import ProviderSteps.

Local Open Scope Z_scope.

Section facts.
Context {TL : TrieLib} {TLW : TrieLaws} {DL : DequeLib} {DLW : DequeLaws} {DSL : DsLib}.
Context {peerID mh addr : Type} {EP : EqDecision peerID} {CP : Countable peerID}.
Context {EM : EqDecision mh} {CM : Countable mh}.
Context {CFG : Config} {COK : ConfigOk} {W : World peerID mh addr} {WOK : WorldOk W}.

Abbreviation state := (@SweepingProvider DL DSL peerID mh addr).
Abbreviation M := (GoM state).
Implicit Types (s : state) (p k : key) (hs : list mh).

(** The answer to a call. *)
Lemma wp_ask_eq {A} (f : nat → A) Q s :
  Q (f (calls s)) (set_log (S (calls s)) (events s) (tasks s) s) → wp (ask f) Q s.
Proof. intros H. unfold ask. repeat wp_step. exact H. Qed.

(** ** Scheduling *)

(** [maxReprovideDelay] has no effect.  Whether a region was just
    reprovided or not, it is scheduled at [reprovideTimeForPrefix], as long as
    the clock is past the start of the cycle and the time of the region does
    not overflow. *)
Theorem schedulePrefix_ignores_delay p b s :
  provInv s → (length p ≤ maxPrefixSize)%nat → reprovideInterval * 2 ^ Z.of_nat (length p) ≤ 2 ^ 63 →
  0 ≤ maxReprovideDelay < 2 ^ 62 → (∀ i, cycleStart ≤ w_Now i) →
  wp (schedulePrefixNoLock p b) (λ _ s', provInv s' ∧ ∃ d,
    reprovideTimeForPrefix p = Some d ∧ scheduledIn p d (schedule s) (schedule s')) s.
Proof.
  intros Hs Hl Hfit Hdelay Hnow. pose proof interval_pos. pose proof interval_small.
  eapply wp_mono; [apply schedulePrefix_spec; [done|unfold maxPrefixSize, KeyLen in *; lia]|].
  intros [] s' (t & c & timer & started & n & d & -> & Hok & Hsch & next & i & Hnext & Hd).
  split; [by apply provInv_resched|]. exists next. split; [done|]. cbn. replace next with d; [done|].
  rewrite Hd. destruct b; [|done]. rewrite reprovideTimeForPrefix_eq in Hnext by done. injection Hnext as <-.
  pose proof (position_bound order p) as Hpb. rewrite order_length in Hpb.
  specialize (Hpb ltac:(unfold maxPrefixSize, KeyLen in *; lia)).
  assert (0 ≤ timeOffset (w_Now i) < reprovideInterval) as Hoff.
  { unfold timeOffset, time_Sub. apply Z.rem_bound_pos; [|done]. specialize (Hnow i). lia. }
  rewrite wrap64_id by (unfold in_int64; lia). apply Z.min_l.
  assert (reprovideInterval * position order p / 2 ^ Z.of_nat (length p) < reprovideInterval);
    [apply Z.div_lt_upper_bound; nia|lia].
Qed.

(** C4: Grouping keys: unless the provider is offline, every key is under
    exactly one prefix, prefixes do not overlap, each list holds without
    duplicates the given keys below its prefix; with [schedule] every prefix
    is covered by the schedule, and no region is lost from it. *)
Theorem groupAndScheduleKeysByPrefix_correct hs sched s :
  provInv s → known s →
  wp (groupAndScheduleKeysByPrefix hs sched) (λ m s', provInv s' ∧ coversMore s s' ∧
    antichain (elements (dom m)) ∧ (∀ h, h ∈ hs → ∃ p l, m !! p = Some l ∧ h ∈ l) ∧
    (∀ p l, m !! p = Some l → l ≠ [] ∧ NoDup l ∧ ∀ h, h ∈ l ↔ h ∈ hs ∧ p ≼ MhToBit256 h) ∧
    (sched = true → ∀ p, p ∈ dom m → covered p (schedule s'))) s.
Proof.
  intros Hs Hk. eapply wp_mono; [by apply group_spec|].
  intros m s' (Hs' & Hmore & [[? _]|[(Ha & Hl & Hin) Hsched]]); [done|].
  split_and!; [done..| |done]. intros p l Hpl. destruct (Hl p l Hpl) as (Hne & Hnd & Hel).
  split_and!; [done|done|]. intros h. by rewrite Hel, elem_of_list_to_set.
Qed.

(** ** Offline *)

(** When the node is offline, [ProvideOnce] returns no error, queues no
    key and starts no goroutine: the keys are dropped without notice. *)
Theorem ProvideOnce_offline hs s :
  cachedAvgPrefixLen s = -1 → (∀ i, w_closed i = false) →
  ∃ s', ProvideOnce hs s = Some (true, s') ∧ provideQueue s' = provideQueue s ∧ tasks s' = tasks s.
Proof.
  intros Hoff Hc. unfold ProvideOnce, handleProvide, isOffline, closed, ask.
  unfold mbind, GoM_bind, gets, modify, mret, GoM_ret. cbv beta iota. rewrite Hc.
  destruct hs as [|h hs]; [by eexists|]. cbn. rewrite (bool_decide_eq_true_2 _ Hoff). by eexists.
Qed.

(** ** Claims of regions *)

(** Claiming one region does not change whether a region that does not
    overlap it is covered. *)
Lemma covered_claim (active t : trie ()) p q :
  ¬ overlap p q → (∀ k, k ∈ keys t ↔ k = p ∨ k ∈ keys active ∧ ¬ p ≼ k) →
  covered q t ↔ covered q active.
Proof.
  intros Ho Hk. split.
  - intros (k & [->|[Hin _]]%Hk & Hq); [by destruct Ho; left|by exists k].
  - intros (k & Hin & Hq). exists k. split; [|done]. apply Hk. right. split; [done|].
    intros Hp. apply Ho. left. by etrans.
Qed.

Lemma claimRegions_claims (active : trie ()) (rs : list (Region peerID mh)) :
  wf active → antichain (Regions.Prefix <$> rs) → NoDup (Regions.Prefix <$> rs) →
  ∃ t out, claimRegions active rs = Some (t, out) ∧ wf t ∧ out `sublist_of` rs ∧
    (∀ r, r ∈ rs → r ∈ out ↔ Regions.Peers r ≠ Empty ∧ ¬ covered (Regions.Prefix r) active) ∧
    (∀ x, covered x t ↔ covered x active ∨ ∃ r, r ∈ out ∧ Regions.Prefix r ≼ x).
Proof.
  revert active. induction rs as [|r rs IH]; intros active Hw Ha Hnd; cbn [claimRegions].
  { exists active, []. split_and!; [done|done|done|by intros r ?%not_elem_of_nil|].
    intros x. split; [by left|]. intros [?|(r & ?%not_elem_of_nil & _)]; done. }
  rewrite fmap_cons in Ha, Hnd. apply NoDup_cons in Hnd as [Hr Hnd].
  assert (antichain (Regions.Prefix <$> rs)) as Ha' by (intros a b Ha1 Hb1; by apply Ha; right).
  assert (∀ r', r' ∈ rs → ¬ overlap (Regions.Prefix r) (Regions.Prefix r')) as Hno.
  { intros r' Hr' Ho. apply Hr. rewrite (Ha (Regions.Prefix r) (Regions.Prefix r')); [|by left|right|done];
      by apply list_elem_of_fmap_2. }
  assert (r ∉ rs) as Hrs by (intros Hin; by apply Hr, list_elem_of_fmap_2).
  assert (claimRegion active r = Some (active, false) ∧ ¬ (Regions.Peers r ≠ Empty ∧ ¬ covered (Regions.Prefix r) active) ∨
    ∃ t, claimRegion active r = Some (t, true) ∧ wf t ∧ Regions.Peers r ≠ Empty ∧
      ¬ covered (Regions.Prefix r) active ∧
      ∀ k, k ∈ keys t ↔ k = Regions.Prefix r ∨ k ∈ keys active ∧ ¬ Regions.Prefix r ≼ k) as [[Hc Hskip]|(t1 & Hc & Hw1 & Hne & Hnc & Hk)].
  { unfold claimRegion. destruct (IsEmptyLeaf (Regions.Peers r)) eqn:He.
    { apply IsEmptyLeaf_true in He. left. split; [done|]. by intros [? _]. }
    apply IsEmptyLeaf_false in He.
    destruct (addRegion_spec active (Regions.Prefix r) Hw) as (q & ok & -> & Hok). cbn [mbind option_bind].
    destruct ok; [left; split; [done|]; by intros [_ ?]|right].
    destruct Hok as (Hq & t' & -> & Hwa & Hk). cbn [mbind option_bind]. eexists. split_and!; [done|done|done| |done].
    intros (k & Hin & Hp). by apply (Hq k). }
  - rewrite Hc. cbn [mbind option_bind]. destruct (IH active Hw Ha' Hnd) as (t & out & -> & Hwt & Hsub & Hout & Hcov).
    cbn [mbind option_bind]. exists t, out. split_and!; [done|done|by constructor| |done].
    intros r' [->|Hr']%elem_of_cons; [|by apply Hout]. split; [|done]. intros Hin. destruct Hrs.
    eapply elem_of_submseteq; [done|]. by apply sublist_submseteq.
  - rewrite Hc. cbn [mbind option_bind]. destruct (IH t1 Hw1 Ha' Hnd) as (t & out & -> & Hwt & Hsub & Hout & Hcov).
    cbn [mbind option_bind]. exists t, (r :: out). split_and!; [done|done|by constructor| |].
    + intros r' [->|Hr']%elem_of_cons; [split; [done|by left]|].
      rewrite elem_of_cons, Hout, (covered_claim active t1 _ _ (Hno r' Hr') Hk) by done.
      split; [|by right]. intros [->|?]; done.
    + intros x. rewrite Hcov. setoid_rewrite elem_of_cons.
      assert (covered x t1 ↔ covered x active ∨ Regions.Prefix r ≼ x) as Hx; [|rewrite Hx; naive_solver].
      split.
      * intros (k & [->|[Hin _]]%Hk & Hkx); [by right|left; by exists k].
      * intros [(k & Hin & Hkx)|Hrx]; [|exists (Regions.Prefix r); split; [apply Hk; by left|done]].
        destruct (decide (Regions.Prefix r ≼ k)) as [Hrk|Hrk].
        -- exists (Regions.Prefix r). split; [apply Hk; by left|by etrans].
        -- exists k. split; [apply Hk; by right|done].
Qed.

(** A region is claimed by one goroutine at a time: [claimRegionReprovide]
    returns exactly the regions with peers that no active region covers, and
    marks their part of the keyspace, and no other, as active; so a second
    claim of the same regions returns none of them until they are released. *)
Theorem claimRegionReprovide_exclusive (rs : list (Region peerID mh)) s :
  wf (activeReprovides s) → antichain (Regions.Prefix <$> rs) → NoDup (Regions.Prefix <$> rs) →
  wp (claimRegionReprovide rs) (λ out s', wf (activeReprovides s') ∧
    (∀ r, r ∈ out ↔ r ∈ rs ∧ Regions.Peers r ≠ Empty ∧ ¬ covered (Regions.Prefix r) (activeReprovides s)) ∧
    (∀ x, covered x (activeReprovides s') ↔
      covered x (activeReprovides s) ∨ ∃ r, r ∈ out ∧ Regions.Prefix r ≼ x) ∧
    wp (claimRegionReprovide rs) (λ again _, again = []) s') s.
Proof.
  intros Hw Ha Hnd. destruct (claimRegions_claims _ rs Hw Ha Hnd) as (t & out & Hc & Hwt & Hsub & Hout & Hcov).
  assert (∀ r, r ∈ out → r ∈ rs) as Hin.
  { intros r Hr. eapply elem_of_submseteq; [done|]. by apply sublist_submseteq. }
  apply wp_bind, wp_gets. apply wp_bind. eapply wp_lift; [exact Hc|]. repeat wp_step.
  split_and!; [done| |done|].
  - intros r. split; [intros Hr; split; [auto|]|intros [Hr ?]]; apply Hout; auto.
  - destruct (claimRegions_claims t rs Hwt Ha Hnd) as (t2 & out2 & Hc2 & _ & Hsub2 & Hout2 & _).
    apply wp_bind, wp_gets. apply wp_bind. eapply wp_lift; [exact Hc2|]. repeat wp_step.
    destruct out2 as [|r out2]; [done|].
    assert (r ∈ rs) as Hr.
    { eapply elem_of_submseteq; [by left|]. by apply sublist_submseteq. }
    destruct (proj1 (Hout2 r Hr)) as [Hne Hnc]; [by left|]. destruct Hnc. apply Hcov.
    destruct (decide (covered (Regions.Prefix r) (activeReprovides s))) as [Hca|Hca]; [by left|right].
    exists r. split; [by apply Hout|done].
Qed.
(** ** Sending records to one peer *)

(** The failures at the end of the outcomes, and all failures. *)
Definition streak (oks : list bool) : Z := foldl (λ n (ok : bool), if ok then 0 else n + 1) 0 oks.
Definition failures (oks : list bool) : Z := foldl (λ n (ok : bool), if ok then n else n + 1) 0 oks.

(** No run of more than the allowed failures, except possibly at the end. *)
Definition patient (oks : list bool) : Prop :=
  ∀ l ok l', oks = l ++ ok :: l' → streak l ≤ maxConsecutiveProvideFailuresAllowed.

(** The messages of the keys [hs] with their outcomes. *)
Definition sends (p : peerID) (addrs : list addr) hs (oks : list bool) : list (event peerID mh addr) :=
  zip_with (λ h ok, EvSendMessage p h addrs ok) hs oks.

Lemma streak_snoc l ok : streak (l ++ [ok]) = if ok then 0 else streak l + 1.
Proof. unfold streak. by rewrite foldl_app. Qed.

Lemma failures_snoc l ok : failures (l ++ [ok]) = if ok then failures l else failures l + 1.
Proof. unfold failures. by rewrite foldl_app. Qed.

Lemma streak_nonneg l : 0 ≤ streak l.
Proof. induction l as [|ok l IH] using rev_ind; [done|]. rewrite streak_snoc. destruct ok; lia. Qed.

Lemma patient_snoc l ok :
  patient l → streak l ≤ maxConsecutiveProvideFailuresAllowed → patient (l ++ [ok]).
Proof.
  intros Hp Hs l1 x l2 He. destruct l2 as [|y l2] using rev_ind.
  - apply app_inj_tail in He as [-> _]. done.
  - clear IHl2. rewrite app_comm_cons, app_assoc in He. apply app_inj_tail in He as [-> _]. by eapply Hp.
Qed.

(** The outcome of the loops: [oks] are the outcomes of the messages sent for
    the keys [hs], after those of [pre]; [last] tells that no key follows. *)
Definition outcome (pre : list bool) hs (oks : list bool) (last failed : bool) : Prop :=
  patient (pre ++ oks) ∧
  if failed then
    (length oks ≤ length hs)%nat ∧ oks ≠ [] ∧
    (maxConsecutiveProvideFailuresAllowed < streak (pre ++ oks) ∨
     last = true ∧ length oks = length hs ∧ streak (pre ++ oks) = Z.of_nat (length (pre ++ oks)))
  else
    length oks = length hs ∧ streak (pre ++ oks) ≤ maxConsecutiveProvideFailuresAllowed ∧
    (last = true → hs ≠ [] → streak (pre ++ oks) < Z.of_nat (length (pre ++ oks))).

Lemma streak_length l : streak l ≤ Z.of_nat (length l).
Proof.
  induction l as [|ok l IH] using rev_ind; [done|]. rewrite streak_snoc, length_app. cbn. destruct ok; lia.
Qed.

Lemma provideBatch_spec (Hopen : ∀ i, w_closed i = false) (p : peerID) addrs last hs pre s :
  patient pre → streak pre ≤ maxConsecutiveProvideFailuresAllowed →
  wp (provideBatch p addrs last hs (Z.of_nat (length pre)) (failures pre) (streak pre)) (λ r s', ∃ oks,
    match r with
    | inl e => e = ErrOther ∧ outcome pre hs oks last true ∧
        events s' = events s ++ sends p addrs hs oks ++
          [EvProvidedRecords (Z.of_nat (length (pre ++ oks)) - failures (pre ++ oks))]
    | inr (sentKeys, errCount, errStreak) => outcome pre hs oks last false ∧
        events s' = events s ++ sends p addrs hs oks ∧
        sentKeys = Z.of_nat (length (pre ++ oks)) ∧ errCount = failures (pre ++ oks) ∧
        errStreak = streak (pre ++ oks)
    end) s.
Proof.
  revert pre s. induction hs as [|h hs IH]; intros pre s Hpat Hstr; cbn [provideBatch].
  { apply wp_ret. exists []. unfold outcome, sends. rewrite !app_nil_r. split_and!; try done. }
  apply wp_bind, wp_ask_eq. rewrite Hopen. apply wp_bind, wp_ask_eq.
  set (ok := w_SendMessage _ p h). apply wp_bind, wp_modify. cbv zeta.
  set (s1 := set_log _ _ _ _).
  assert (events s1 = events s ++ [EvSendMessage p h addrs ok]) as Hev by done.
  assert (Z.of_nat (length pre) + 1 = Z.of_nat (length (pre ++ [ok]))) as Hlen by (rewrite length_app; cbn; lia).
  pose proof (patient_snoc pre ok Hpat Hstr) as Hpat'.
  pose proof (failures_snoc pre ok) as Hf. pose proof (streak_snoc pre ok) as Hst.
  assert (∀ oks, (pre ++ [ok]) ++ oks = pre ++ ok :: oks) as Happ by (intros; by rewrite <-app_assoc).
  assert (∀ Q, streak (pre ++ [ok]) ≤ maxConsecutiveProvideFailuresAllowed →
    (last = true → hs = [] → streak (pre ++ [ok]) < Z.of_nat (length (pre ++ [ok]))) →
    (∀ r s', (∃ oks, match r with
      | inl e => e = ErrOther ∧ outcome pre (h :: hs) oks last true ∧
          events s' = events s ++ sends p addrs (h :: hs) oks ++
            [EvProvidedRecords (Z.of_nat (length (pre ++ oks)) - failures (pre ++ oks))]
      | inr (a, b, c) => outcome pre (h :: hs) oks last false ∧
          events s' = events s ++ sends p addrs (h :: hs) oks ∧
          a = Z.of_nat (length (pre ++ oks)) ∧ b = failures (pre ++ oks) ∧ c = streak (pre ++ oks)
      end) → Q r s') →
    wp (provideBatch p addrs last hs (Z.of_nat (length (pre ++ [ok]))) (failures (pre ++ [ok]))
      (streak (pre ++ [ok]))) Q s1) as Hgo.
  { intros Q Hle Hlast HQ. eapply wp_mono; [by apply IH|]. intros r s' (oks & Hr). apply HQ. exists (ok :: oks).
    unfold outcome in *. rewrite !Happ in Hr. destruct r as [e|[[a b] c]].
    - destruct Hr as (-> & (Hp & Hlo & Hne & Hd) & He). split_and!; [done|done|cbn; lia|done| |].
      + destruct Hd as [?|(? & ? & ?)]; [by left|right]. split_and!; [done|cbn; lia|done].
      + rewrite He, Hev, <-app_assoc. done.
    - destruct Hr as ((Hp & Hlo & Hst' & Hd) & He & -> & -> & ->).
      split_and!; [done|cbn; lia|done| |by rewrite He, Hev, <-app_assoc|done..].
      intros Hl _. destruct hs as [|h' hs]; [|by apply Hd].
      destruct oks; [|done]. rewrite <-(app_nil_r (pre ++ [ok])), Happ in Hlast. by apply Hlast. }
  pose proof (streak_length pre) as Hsl. destruct ok eqn:Hok; cbn [negb].
  - rewrite Hlen, <-Hf. rewrite <-Hst at 1. apply Hgo; [rewrite Hst; done| |intros r s' Hr; exact Hr].
    intros _ _. rewrite Hst, length_app. cbn. lia.
  - rewrite <-Hst, <-Hf, Hlen. case_decide as Hd.
    + apply wp_bind, wp_modify. apply wp_ret. exists [false]. unfold outcome. split_and!; [done|done|cbn; lia|done| |].
      * destruct Hd as [?|(? & ? & ?)]; [by left|right]. split_and!; [done|cbn; lia|done].
      * cbn. rewrite <-app_assoc. by destruct hs.
    + apply Hgo; [lia| |intros r s' Hr; exact Hr]. intros Hl ->. apply Z.le_neq. split; [apply streak_length|].
      intros He. apply Hd. by right.
Qed.
Lemma sends_app (p : peerID) addrs hs1 hs2 oks1 oks2 :
  length oks1 = length hs1 →
  sends p addrs (hs1 ++ hs2) (oks1 ++ oks2) = sends p addrs hs1 oks1 ++ sends p addrs hs2 oks2.
Proof. intros Hl. unfold sends. by rewrite zip_with_app by done. Qed.

Lemma sends_short (p : peerID) addrs hs1 hs2 oks :
  (length oks ≤ length hs1)%nat → sends p addrs (hs1 ++ hs2) oks = sends p addrs hs1 oks.
Proof.
  intros Hl. unfold sends. by rewrite zip_with_app_l, take_ge, drop_ge, zip_with_nil_r, app_nil_r by done.
Qed.

Lemma provideBatches_spec (Hopen : ∀ i, w_closed i = false) (p : peerID) addrs batches pre s :
  Forall (λ b, b ≠ []) batches → patient pre → streak pre ≤ maxConsecutiveProvideFailuresAllowed →
  (batches = [] → streak pre < Z.of_nat (length pre)) →
  wp (provideBatches p addrs batches (Z.of_nat (length pre)) (failures pre) (streak pre)) (λ r s', ∃ oks,
    outcome pre (concat batches) oks true (bool_decide (r ≠ None)) ∧ r ≠ Some ErrClosed ∧
    events s' = events s ++ sends p addrs (concat batches) oks ++
      [EvProvidedRecords (Z.of_nat (length (pre ++ oks)) - failures (pre ++ oks))]) s.
Proof.
  revert pre s. induction batches as [|b bs IH]; intros pre s Hne Hpat Hstr Hend; cbn [provideBatches concat].
  { apply wp_bind, wp_modify. apply wp_ret. exists []. rewrite bool_decide_eq_false_2 by (by intros ?).
    unfold outcome, sends. rewrite !app_nil_r. split_and!; try done. }
  apply Forall_cons in Hne as [Hb Hne]. apply wp_bind.
  eapply wp_mono; [by apply provideBatch_spec|]. intros r s' (oks & Hr). destruct r as [e|[[a c] d]].
  - destruct Hr as (-> & (Hp & Hl & Hn & Hd) & Hev). apply wp_ret. exists oks.
    rewrite bool_decide_eq_true_2 by done. unfold outcome. rewrite length_app. split_and!; [done|lia|done| |done|].
    + destruct Hd as [?|(Hlast & Hlo & Hs)]; [by left|right]. apply bool_decide_eq_true, nil_length_inv in Hlast as ->.
      cbn. by split_and!; [|lia|].
    + by rewrite Hev, sends_short.
  - destruct Hr as ((Hp & Hl & Hs & Hd) & Hev & -> & -> & ->).
    eapply wp_mono; [apply (IH (pre ++ oks)); [done|done|done|]|].
    { intros ->. by apply Hd. }
    intros r s'' (oks' & (Hp' & Ho) & Hr & Hev'). exists (oks ++ oks'). unfold outcome.
    rewrite <-app_assoc in Hp', Ho, Hev'. split_and!; [done| |done|].
    + rewrite !length_app in *. destruct (bool_decide (r ≠ None)).
      * destruct Ho as (Hlo & Hn & Hx). split_and!; [lia|by destruct oks|].
        destruct Hx as [?|(? & ? & ?)]; [by left|right]. split_and!; [done|lia|done].
      * destruct Ho as (Hlo & Hst & Hx). split_and!; [lia|done|]. intros _ _.
        destruct bs as [|b' bs]; [|apply Hx; [done|]].
        -- cbn in Hlo. apply nil_length_inv in Hlo as ->. rewrite app_nil_r. specialize (Hd eq_refl Hb).
           cbn [length]. lia.
        -- apply Forall_cons in Hne as [Hb' _]. by destruct b'.
    + by rewrite Hev', Hev, sends_app, <-!app_assoc.
Qed.

(** C5: [provideKeysToPeer] on an open provider sends the keys in order and
    reports the successes.  It gives up only after more than two failures in
    a row, or when all keys were sent and every message failed; otherwise all
    keys were sent, some successfully, and it reports no error.  The peer is
    protected meanwhile. *)
Theorem provideKeysToPeer_correct (p : peerID) addrs batches s :
  (∀ i, w_closed i = false) → batches ≠ [] → Forall (λ b, b ≠ []) batches →
  wp (provideKeysToPeer p batches addrs) (λ r s', ∃ oks,
    patient oks ∧ (length oks ≤ length (concat batches))%nat ∧
    events s' = events s ++ (if hasHost then [EvProtect p] else []) ++
      sends p addrs (concat batches) oks ++
      [EvProvidedRecords (Z.of_nat (length oks) - failures oks)] ++
      (if hasHost then [EvUnprotect p] else []) ∧
    match r with
    | Some e => e = ErrOther ∧ (maxConsecutiveProvideFailuresAllowed < streak oks ∨
        length oks = length (concat batches) ∧ streak oks = Z.of_nat (length oks))
    | None => length oks = length (concat batches) ∧ streak oks ≤ maxConsecutiveProvideFailuresAllowed ∧
        streak oks < Z.of_nat (length oks)
    end) s.
Proof.
  intros Hopen Hbs Hne. unfold provideKeysToPeer. apply wp_bind.
  assert (∀ e (Q : () → state → Prop) s0, Q tt (set_log (calls s0) (events s0 ++ (if hasHost then [e] else [])) (tasks s0) s0) →
    wp (whenM hasHost (emit e)) Q s0) as Hemit.
  { intros e Q s0 HQ. destruct hasHost; [by apply wp_modify|]. apply wp_ret.
    by destruct s0; unfold set_log in HQ; cbn in HQ; rewrite app_nil_r in HQ. }
  apply Hemit. apply wp_bind. eapply wp_mono; [apply (provideBatches_spec Hopen p addrs batches []); [done|by intros [] ? ?|done|done]|].
  intros r s1 (oks & [Hp Ho] & Hr & Hev). apply wp_bind, Hemit. apply wp_ret. exists oks. cbn [app] in *.
  assert (concat batches ≠ []) as Hc.
  { destruct batches as [|b bs]; [done|]. apply Forall_cons in Hne as [Hb _]. by destruct b. }
  split_and!; [done| | |].
  - destruct (bool_decide (r ≠ None)); [by apply Ho|]. destruct Ho as [-> _]. done.
  - cbn [events set_log] in *. by rewrite Hev, <-!app_assoc.
  - destruct r as [[]|]; [done| |].
    + rewrite bool_decide_eq_true_2 in Ho by done. split; [done|]. destruct Ho as (_ & _ & [?|(_ & ? & ?)]); auto.
    + rewrite bool_decide_eq_false_2 in Ho by (by intros ?). destruct Ho as (? & ? & Hx). split_and!; auto.
Qed.
(** ** The provide loop *)

Lemma pvqInv_empty (q : @ProvideQueue DL mh) :
  pvqInv MhToBit256 q → (PVQ_IsEmpty q = true ↔ contents (pvq_queue q) = []).
Proof.
  intros (_ & [Hw _] & Hhas & Hcov). unfold PVQ_IsEmpty. rewrite IsEmptyLeaf_true. split.
  - intros He. destruct (contents (pvq_queue q)) as [|p l]; [done|].
    destruct (proj1 (Exists_exists _ _) (Hhas p ltac:(by left))) as (k & Hk & _). rewrite He in Hk. by apply not_elem_of_nil in Hk.
  - intros Hc. destruct (decide (pvq_keys q = Empty)) as [?|Hne]; [done|].
    destruct (wf_at_nonempty [] _ Hw Hne) as [k Hk]. destruct (Hcov k Hk) as (p & Hp & _).
    rewrite Hc in Hp. by apply not_elem_of_nil in Hp.
Qed.

(** The provider is open, online and has workers. *)
Record running : Prop := {
  run_open : ∀ i, w_closed i = false;
  run_online : ∀ i, w_IsOnline i = true;
  run_worker : ∀ i, w_Acquire i = true;
}.

Lemma provideLoopIter_drains n s :
  running → pvqInv MhToBit256 (provideQueue s) →
  (length (contents (pvq_queue (provideQueue s))) ≤ n)%nat →
  wp (provideLoopIter n) (λ _ s', PVQ_IsEmpty (provideQueue s') = true ∧ ∃ lists,
    tasks s' = tasks s ++ zip_with TaskBatchProvide (contents (pvq_queue (provideQueue s))) lists ∧
    length lists = length (contents (pvq_queue (provideQueue s))) ∧
    ∀ h, stored MhToBit256 (pvq_keys (provideQueue s)) h → h ∈ concat lists) s.
Proof.
  intros [Hopen Honline Hworker]. revert s. induction n as [|n IH]; intros s Hq Hl.
  { assert (contents (pvq_queue (provideQueue s)) = []) as Hc by (apply nil_length_inv; lia).
    apply wp_ret. split; [by apply pvqInv_empty|]. exists []. rewrite Hc, app_nil_r. split_and!; [done|done|].
    intros h Hh. destruct Hq as (_ & _ & _ & Hcov). destruct (Hcov _ Hh) as (p & Hp & _).
    rewrite Hc in Hp. by apply not_elem_of_nil in Hp. }
  cbn [provideLoopIter]. apply wp_bind, wp_gets. cbn [id].
  pose proof (Dequeue_spec MhToBit256 MhToBit256_length MhToBit256_inj (provideQueue s) Hq) as Hd.
  pose proof (pvqInv_empty _ Hq) as Hemp.
  destruct (contents (pvq_queue (provideQueue s))) as [|p l] eqn:Hc.
  { rewrite (proj2 Hemp eq_refl). apply wp_ret. split; [by apply Hemp|]. exists []. rewrite app_nil_r.
    split_and!; [done|done|]. intros h Hh. destruct Hq as (_ & _ & _ & Hcov). destruct (Hcov _ Hh) as (p & Hp & _).
    rewrite Hc in Hp. by apply not_elem_of_nil in Hp. }
  destruct (PVQ_IsEmpty (provideQueue s)); [by discriminate (proj1 Hemp eq_refl)|].
  destruct Hd as (q' & hs & Hdq & _ & _ & Hhs & (Hq' & Hst & _) & Hl').
  apply wp_bind, wp_ask_eq. rewrite Hopen. apply wp_bind, wp_ask_eq. rewrite Honline. cbn [negb].
  apply wp_bind, wp_ask_eq. rewrite Hworker. cbn [negb]. apply wp_bind, wp_gets. cbn [id provideQueue set_log].
  apply wp_bind. eapply wp_lift; [exact Hdq|]. apply wp_bind, wp_modify.
  apply wp_bind, wp_ask_eq. rewrite Hopen. apply wp_bind, wp_modify.
  eapply wp_mono; [apply IH; [done|cbn; rewrite Hl'; cbn in Hl; lia]|].
  cbn [provideQueue tasks set_log set_queues]. rewrite Hl'.
  intros [] s' (He & lists & Ht & Hlen & Hall). split; [done|]. exists (hs :: lists).
  split_and!; [by rewrite Ht, <-app_assoc|cbn; lia|]. intros h Hh. cbn [concat]. apply elem_of_app.
  destruct (decide (p ≼ MhToBit256 h)) as [Hp|Hp]; [left; by apply Hhs|right]. apply Hall, Hst. done.
Qed.

(** On an open, online provider with workers, the provide loop empties
    the provide queue: it starts one goroutine for each queued region, in the
    order of the queue, and every queued key is given to one of them.  As
    many iterations as there are regions are enough. *)
Theorem provideLoop_drains n s :
  running → provInv s → provideRunning s = false →
  (length (contents (pvq_queue (provideQueue s))) ≤ n)%nat →
  wp (provideLoop n) (λ _ s', PVQ_IsEmpty (provideQueue s') = true ∧ provideRunning s' = false ∧ ∃ lists,
    tasks s' = tasks s ++ zip_with TaskBatchProvide (contents (pvq_queue (provideQueue s))) lists ∧
    length lists = length (contents (pvq_queue (provideQueue s))) ∧
    ∀ h, stored MhToBit256 (pvq_keys (provideQueue s)) h → h ∈ concat lists) s.
Proof.
  intros Hrun Hs Hpr Hn. apply wp_bind, wp_gets. cbn [id]. rewrite Hpr. apply wp_bind, wp_modify.
  apply wp_bind. eapply wp_mono; [apply provideLoopIter_drains; [done|apply Hs|done]|].
  cbn [provideQueue tasks set_locks]. intros [] s' (He & lists & Ht & Hlen & Hall). apply wp_modify.
  split_and!; [done|done|]. by exists lists.
Qed.
(** ** The refresh of the schedule *)

Lemma withKeys_spec (inStore : mh → Prop) missing s :
  (∀ i h p, inStore h → p ≼ MhToBit256 h → w_ksContainsPrefix i p = true) → provInv s →
  wp (withKeys missing) (λ l s', provInv s' ∧ schedule s' = schedule s ∧ (∀ p, p ∈ l → p ∈ missing) ∧
    ∀ h p, inStore h → p ≼ MhToBit256 h → p ∈ missing → p ∈ l) s.
Proof.
  intros Hks. revert s. induction missing as [|p ps IH]; intros s Hs; cbn [withKeys].
  { apply wp_ret. split_and!; [done|done|done|]. by intros h p _ _ ?%not_elem_of_nil. }
  apply wp_bind, wp_ask_eq. set (ok := w_ksContainsPrefix _ p) in *.
  apply wp_bind. eapply wp_mono; [apply IH, provInv_log; [done|apply Hs]|].
  intros l s' (Hs' & Hsch & Hsub & Hall). apply wp_ret. split_and!; [done|done| |].
  - destruct ok; set_solver.
  - intros h q Hh Hq [->|Hin]%elem_of_cons.
    + unfold ok. rewrite (Hks _ h p Hh Hq). by left.
    + specialize (Hall h q Hh Hq Hin). destruct ok; set_solver.
Qed.

Lemma forM_schedule ps s :
  provInv s → Forall (λ p, (length p ≤ KeyLen)%nat) ps →
  wp (forM ps (λ p, schedulePrefixNoLock p false)) (λ _ s', provInv s' ∧ coversMore s s' ∧
    ∀ p, p ∈ ps → covered p (schedule s')) s.
Proof.
  revert s. induction ps as [|p ps IH]; intros s Hs Hps; cbn [forM].
  { apply wp_ret. split_and!; [done|by intros x|]. by intros p ?%not_elem_of_nil. }
  apply Forall_cons in Hps as [Hp Hps]. apply wp_bind. eapply wp_mono; [by apply schedulePrefix_spec|].
  intros [] s1 (t & c & timer & started & n & d & -> & Hok & Hsch & _).
  destruct (scheduledIn_covers _ _ _ _ Hsch) as [Hcov Hmore].
  eapply wp_mono; [apply IH; [by apply provInv_resched|done]|]. intros [] s' (Hs' & Hm & Hall).
  split_and!; [done| |].
  - intros x Hx. apply Hm. cbn. by apply Hmore.
  - intros q [->|Hq]%elem_of_cons; [|by apply Hall]. apply Hm. exact Hcov.
Qed.

Lemma enqueueSchedule_keeps s :
  provInv s →
  wp (s ← gets id; ks ← liftO (AllKeys (schedule s) order); enqueueReprovide ks ;; catchupPendingWork)
    (λ _ s', schedule s' = schedule s) s.
Proof.
  intros [[Hw Hb _ _ Hrq _ _ _] _]. apply wp_bind, wp_gets. cbn [id].
  apply wp_bind. eapply wp_lift; [apply AllKeys_ordered; [done|by apply bounded_order]|].
  apply wp_bind, wp_enqueueReprovide; [done| |].
  { rewrite ordered_Permutation. apply Forall_forall. intros k Hk. by apply (bounded_elem _ _ _ Hb). }
  intros q _ _. apply wp_bind, wp_gets. cbn [id]. destruct (lateReprovideRunning _); [by apply wp_ret|].
  apply wp_bind, wp_ask. intros []; [by apply wp_ret|]. apply wp_bind, wp_modify. by apply wp_modify.
Qed.

(** The prefixes [RefreshSchedule] asks the keystore about. *)
Definition missingPrefixes (gaps : list key) (prefixLen : Z) : list key :=
  gaps ≫= λ p, if decide (prefixLen ≤ Z.of_nat (length p)) then [p] else ExtendBinaryPrefix p prefixLen.

Lemma missingPrefixes_cover gaps prefixLen g x :
  g ∈ gaps → g ≼ x → 0 ≤ prefixLen ≤ Z.of_nat (length x) →
  ∃ p, p ∈ missingPrefixes gaps prefixLen ∧ p ≼ x.
Proof.
  intros Hg Hx Hl. unfold missingPrefixes. setoid_rewrite list_elem_of_bind.
  destruct (decide (prefixLen ≤ Z.of_nat (length g))) as [Hd|Hd].
  - exists g. split; [|done]. exists g. split; [|done]. rewrite decide_True by done. by left.
  - exists (take (Z.to_nat prefixLen) x). split; [|apply prefix_take]. exists g. split; [|done].
    rewrite decide_False by done. apply ExtendBinaryPrefix_correct. rewrite length_take. split; [|lia].
    apply (prefix_shorter _ _ x); [done|apply prefix_take|]. rewrite length_take. lia.
Qed.

Lemma missingPrefixes_length gaps prefixLen n p :
  (∀ g, g ∈ gaps → (length g ≤ n)%nat) → prefixLen ≤ Z.of_nat n →
  p ∈ missingPrefixes gaps prefixLen → (length p ≤ n)%nat.
Proof.
  intros Hg Hl (g & Hp & Hin)%list_elem_of_bind. case_decide.
  - apply list_elem_of_singleton in Hp as ->. auto.
  - apply ExtendBinaryPrefix_correct in Hp as [_ Hp]. lia.
Qed.


(** ** A fresh start *)

Lemma gc_maxTime s : lastReprovideHistoryGC s = 0 → snd <$> gcReprovideHistoryIfNeeded maxTime s =
  Some (set_log (S (calls s)) (events s) (tasks s) s).
Proof.
  intros Hgc. pose proof interval_pos.
  unfold gcReprovideHistoryIfNeeded, closed, ask, mbind, GoM_bind, gets, modify, mret, GoM_ret, id. cbv beta iota.
  destruct (w_closed (calls s)); [done|]. cbn [lastReprovideHistoryGC set_log]. rewrite Hgc.
  rewrite decide_True; [done|]. assert (time_Sub maxTime (time_Unix 0 0) < 0) by (by vm_compute). lia.
Qed.

(** Starting without [resumeCycle] does not clear the reprovide history:
    [maxTime] is before every time, so the garbage collection that is meant
    to clear it returns at once, and the datastore is the one [setCycleStart]
    leaves. *)
Theorem New_keeps_history now d (restored : @ProvideQueue DL mh) :
  ∃ s, New false now d restored = Some s ∧ datastore s = (setCycleStart now false d).1.
Proof.
  unfold New. destruct (setCycleStart now false d) as [d' start]. cbn [fst].
  set (s := mkProvider _ _ _ _ _ _ _ _ _ _ _ _ _ _ _ _ _ _).
  pose proof (gc_maxTime s eq_refl) as Hgc.
  destruct (gcReprovideHistoryIfNeeded maxTime s) as [[u s']|]; cbn in Hgc; [|done]. injection Hgc as ->.
  by eexists.
Qed.
End facts.
