(* ===== verification/ProviderDemo.v ===== *)
(** * Concrete runs of the sweeping provider

    A small network in which the hypotheses of the theorems hold and the
    operations of [Provider] are evaluated: the witnesses of the theorems on
    the provider, and runs that show where the code departs from its
    documentation. *)

From S2P Require Import Prelude Key Trie TrieImpl TrieSet Allocate Regions Deque PrefixQueue ProvideQueue.
From S2P Require Import GoTime Datastore GoMonad Provider Schedule ProviderInv ProviderSafe ProviderGroup.
From S2P Require Import ProviderSteps ProviderFacts.

Local Open Scope Z_scope.

(** ** The network *)

(** Peers and multihashes with identifiers of four significant bits. *)
Definition node : Type := bool * bool * bool * bool.

Definition nodeKey (n : node) : key :=
  let '(a, b, c, d) := n in a :: b :: c :: d :: replicate (KeyLen - 4) false.

Definition keyNode (k : key) : node :=
  let b i := default false (k !! i) in (b 0%nat, b 1%nat, b 2%nat, b 3%nat).

(** The node of a number below 16. *)
Definition nodeOf (n : Z) : node := (Z.testbit n 3, Z.testbit n 2, Z.testbit n 1, Z.testbit n 0).

Lemma nodeKey_length n : length (nodeKey n) = KeyLen.
Proof. by destruct n as [[[a b] c] d]. Qed.

Lemma nodeKey_inj m n : nodeKey m = nodeKey n → m = n.
Proof. destruct m as [[[? ?] ?] ?], n as [[[? ?] ?] ?]. by intros [= -> -> -> ->]. Qed.

Definition closer (target : key) (p q : node) : Prop :=
  xorDist target (nodeKey p) ≤ xorDist target (nodeKey q).

#[export] Instance closer_dec target p q : Decision (closer target p q).
Proof. unfold closer. apply _. Defined.

Definition sortNodes (target : key) (ps : list node) : list node := merge_sort (closer target) ps.

(** A swarm [net], a keystore that answers [ks i p] to the call [i], and a
    clock; messages reach everyone and the node is online. *)
Definition demoWorld (net : list node) (ks : nat → key → option (list node)) (clock : nat → Z)
    : World node node nat := {|
  PeerIDToBit256 := nodeKey;
  MhToBit256 := nodeKey;
  SortClosestPeers ps bs := sortNodes (unpack bs) ps;
  GenRandPeerIDWithCPL _ bs := keyNode (unpack bs);
  w_Now := clock;
  w_closed _ := false;
  w_IsOnline _ := true;
  w_GetClosestPeers _ t :=
    Some (sortNodes (nodeKey (match t with TMh h => h | TPeer p => p end)) net);
  w_SendMessage _ _ _ := true;
  w_getSelfAddrs _ := [0%nat];
  w_Acquire _ := true;
  w_randomMh _ := nodeOf 0;
  w_ksPut _ hs := Some hs;
  w_ksGet := ks;
  w_ksContainsPrefix _ _ := true;
  w_ksDelete _ _ := true;
|}.

Lemma demoWorld_ok net ks clock : WorldOk (demoWorld net ks clock).
Proof. split; intros *; [apply nodeKey_length|apply nodeKey_inj|apply nodeKey_length|apply nodeKey_inj]. Qed.

(** The default interval of 22 hours and a replication factor. *)
Definition demoConfig (repl : Z) : Config := {|
  order := zeroKey;
  cycleStart := time_Unix 1700000000 0;
  reprovideInterval := 22 * Hour;
  maxReprovideDelay := Hour;
  replicationFactor := repl;
  avgPrefixLenValidity := 5 * Minute;
  skipBootstrapReprovide := false;
  hasHost := true;
  resettableKeystore := false;
|}.

Lemma demoConfig_ok repl : ConfigOk (CFG := demoConfig repl).
Proof. by split. Qed.

(** An hour into the cycle. *)
Definition demoClock (_ : nat) : Z := time_Unix 1700003600 0.

#[local] Existing Instance demoConfig_ok.
#[local] Existing Instance demoWorld_ok.

Abbreviation demoState := (@SweepingProvider listDeque memDs node node nat).

(** A provider in the middle of its work. *)
Definition demoProvider (sched : trie Z) (cursor : key) (timer : option Z) (now : Z) : demoState :=
  mkProvider sched cursor timer now Empty NewProvideQueue NewReprovideQueue false false false
    0 now true 0 (mkMemStore ∅ []) 0 [] [].

Lemma demoProvider_base net ks clock sched cursor timer now :
  wf sched → bounded KeyLen sched → cursor ∈ keys sched →
  baseInv (W := demoWorld net ks clock) (demoProvider sched cursor timer now).
Proof.
  intros Hw Hb Hc. constructor; try done.
  - by intros ?.
  - apply NewReprovideQueue_inv.
  - apply NewProvideQueue_inv.
Qed.

(** ** Witnesses *)


Definition demoSchedule : trie Z :=
  trie_AddMany Empty [(bitstr "00", 0); (bitstr "01", 11 * Hour / 2); (bitstr "1", 11 * Hour)].

(** Seven hours late, the regions "01" is queued and "00" reprovided. *)
Lemma handleReprovide_no_skip_witness :
  let CFG := demoConfig 2 in
  let W := demoWorld [] (λ _ _, None) (λ _, time_Unix 1700025200 0) in
  let s := demoProvider demoSchedule (bitstr "00") None (time_Unix 1699999000 0) in
  wp handleReprovide (λ _ s', provInv s' ∧ schedule s' = demoSchedule ∧
    (∀ k, queued s k → queued s' k ∨ bitstr "00" ≼ k) ∧
    ((∀ k, k ∈ keys demoSchedule → handled s' k) ∨
     ∃ late next, passed demoSchedule (bitstr "00") late next ∧
       scheduleCursor s' = next.1 ∧ handled s' (bitstr "00") ∧ ∀ e, e ∈ late → handled s' e.1)) s.
Proof.
  apply (handleReprovide_no_skip (CFG := demoConfig 2) (W := demoWorld [] (λ _ _, None) (λ _, time_Unix 1700025200 0))).
  - apply demoProvider_base; apply (bool_decide_unpack _); by vm_compute.
  - done.
  - by vm_compute.
Defined.

Lemma reprovideTimeForPrefix_correct_witness :
  let CFG := demoConfig 2 in
  ∃ tp tq, reprovideTimeForPrefix (bitstr "01") = Some tp ∧ reprovideTimeForPrefix (bitstr "100") = Some tq ∧
    offset tp ∧ tp = 22 * Hour * position zeroKey (bitstr "01") / 2 ^ Z.of_nat 2 ∧
    (before zeroKey (bitstr "01") (bitstr "100") = true → tp ≤ tq).
Proof.
  apply (reprovideTimeForPrefix_correct (CFG := demoConfig 2) (bitstr "01") (bitstr "100"));
    by apply (bool_decide_unpack _); vm_compute.
Defined.

(** A provider whose schedule is [demoSchedule], with its timer armed. *)
Definition demoRunning : demoState :=
  demoProvider demoSchedule (bitstr "00") (Some Hour) (time_Unix 1700000000 0).

Lemma demoRunning_inv net ks clock : provInv (W := demoWorld net ks clock) demoRunning.
Proof.
  split; [|by intros _]. apply demoProvider_base; apply (bool_decide_unpack _); by vm_compute.
Qed.

(** Before the cycle starts, the clock of the demo stands at its start. *)
Lemma schedulePrefix_ignores_delay_witness :
  let CFG := demoConfig 2 in
  let W := demoWorld [] (λ _ _, None) demoClock in
  wp (schedulePrefixNoLock (bitstr "0") true) (λ _ s', provInv s' ∧ ∃ d,
    reprovideTimeForPrefix (bitstr "0") = Some d ∧ scheduledIn (bitstr "0") d demoSchedule (schedule s')) demoRunning.
Proof.
  apply (schedulePrefix_ignores_delay (CFG := demoConfig 2) (W := demoWorld [] (λ _ _, None) demoClock)).
  - apply demoRunning_inv.
  - cbn. unfold maxPrefixSize. lia.
  - by vm_compute.
  - by split; vm_compute.
  - intros i. by vm_compute.
Defined.

Lemma groupAndScheduleKeysByPrefix_correct_witness :
  let CFG := demoConfig 2 in
  let W := demoWorld [] (λ _ _, None) demoClock in
  let hs := [nodeOf 1; nodeOf 6; nodeOf 1; nodeOf 12] in
  wp (groupAndScheduleKeysByPrefix hs true) (λ m s', provInv s' ∧ coversMore demoRunning s' ∧
    antichain (elements (dom m)) ∧ (∀ h, h ∈ hs → ∃ p l, m !! p = Some l ∧ h ∈ l) ∧
    (∀ p l, m !! p = Some l → l ≠ [] ∧ NoDup l ∧ ∀ h, h ∈ l ↔ h ∈ hs ∧ p ≼ nodeKey h) ∧
    (true = true → ∀ p, p ∈ dom m → covered p (schedule s'))) demoRunning.
Proof.
  apply (groupAndScheduleKeysByPrefix_correct (CFG := demoConfig 2) (W := demoWorld [] (λ _ _, None) demoClock)).
  - apply demoRunning_inv.
  - done.
Defined.

Lemma ProvideOnce_offline_witness :
  let W := demoWorld [] (λ _ _, None) demoClock in
  let CFG := demoConfig 2 in
  let s := set_avg (-1) 0 demoRunning in
  ∃ s', ProvideOnce [nodeOf 3] s = Some (true, s') ∧ provideQueue s' = provideQueue s ∧ tasks s' = tasks s.
Proof.
  by apply (ProvideOnce_offline (CFG := demoConfig 2) (W := demoWorld [] (λ _ _, None) demoClock)
    [nodeOf 3] (set_avg (-1) 0 demoRunning)).
Defined.

Definition demoRegions : list (Region node node) :=
  [mkRegion (bitstr "0") (trie_Add Empty (nodeKey (nodeOf 1)) (nodeOf 1)) None;
   mkRegion (bitstr "1") (trie_Add Empty (nodeKey (nodeOf 9)) (nodeOf 9)) None].

Lemma claimRegionReprovide_exclusive_witness :
  wp (claimRegionReprovide demoRegions) (λ out s', wf (activeReprovides s') ∧
    (∀ r, r ∈ out ↔ r ∈ demoRegions ∧ Regions.Peers r ≠ Empty ∧
      ¬ covered (Regions.Prefix r) (activeReprovides demoRunning)) ∧
    (∀ x, covered x (activeReprovides s') ↔
      covered x (activeReprovides demoRunning) ∨ ∃ r, r ∈ out ∧ Regions.Prefix r ≼ x) ∧
    wp (claimRegionReprovide demoRegions) (λ again _, again = []) s') demoRunning.
Proof.
  apply (claimRegionReprovide_exclusive demoRegions demoRunning).
  - done.
  - apply antichain_alt, (bool_decide_unpack _). by vm_compute.
  - apply (bool_decide_unpack _). by vm_compute.
Defined.

Lemma provideKeysToPeer_correct_witness :
  let W := demoWorld [] (λ _ _, None) demoClock in
  let CFG := demoConfig 2 in
  let batches := [[nodeOf 3; nodeOf 5]; [nodeOf 6]] in
  wp (provideKeysToPeer (nodeOf 1) batches [0%nat]) (λ r s', ∃ oks,
    patient oks ∧ (length oks ≤ length (concat batches))%nat ∧
    events s' = events demoRunning ++ [EvProtect (nodeOf 1)] ++
      sends (nodeOf 1) [0%nat] (concat batches) oks ++
      [EvProvidedRecords (Z.of_nat (length oks) - failures oks)] ++ [EvUnprotect (nodeOf 1)] ∧
    match r with
    | Some e => e = ErrOther ∧ (maxConsecutiveProvideFailuresAllowed < streak oks ∨
        length oks = length (concat batches) ∧ streak oks = Z.of_nat (length oks))
    | None => length oks = length (concat batches) ∧ streak oks ≤ maxConsecutiveProvideFailuresAllowed ∧
        streak oks < Z.of_nat (length oks)
    end) demoRunning.
Proof.
  apply (provideKeysToPeer_correct (CFG := demoConfig 2) (W := demoWorld [] (λ _ _, None) demoClock)
    (nodeOf 1) [0%nat] [[nodeOf 3; nodeOf 5]; [nodeOf 6]] demoRunning).
  - done.
  - done.
  - by repeat constructor.
Defined.

(** A queue of two regions. *)
Definition demoQueued : demoState :=
  set_queues (default NewProvideQueue (q ← Enqueue nodeKey NewProvideQueue (bitstr "0") [nodeOf 3; nodeOf 5];
    Enqueue nodeKey q (bitstr "11") [nodeOf 13])) NewReprovideQueue demoRunning.

Lemma demoQueued_inv net ks clock : provInv (W := demoWorld net ks clock) demoQueued.
Proof.
  apply provInv_queues; [apply demoRunning_inv| |apply NewReprovideQueue_inv].
  apply (bool_decide_unpack _). by vm_compute.
Qed.

Lemma provideLoop_drains_witness :
  let W := demoWorld [] (λ _ _, None) demoClock in
  wp (provideLoop 2) (λ _ s', PVQ_IsEmpty (provideQueue s') = true ∧ provideRunning s' = false ∧ ∃ lists,
    tasks s' = tasks demoQueued ++
      zip_with TaskBatchProvide (contents (pvq_queue (provideQueue demoQueued))) lists ∧
    length lists = length (contents (pvq_queue (provideQueue demoQueued))) ∧
    ∀ h, stored nodeKey (pvq_keys (provideQueue demoQueued)) h → h ∈ concat lists) demoQueued.
Proof.
  apply (provideLoop_drains (W := demoWorld [] (λ _ _, None) demoClock) 2 demoQueued).
  - by split.
  - apply demoQueued_inv.
  - done.
  - by apply (bool_decide_unpack _); vm_compute.
Defined.


(** A datastore with an entry of the reprovide history. *)
Definition demoStore : memStore := mkMemStore {["/history/6553f100/01" := []]} [].

Lemma New_keeps_history_witness :
  let CFG := demoConfig 2 in
  let W := demoWorld [] (λ _ _, None) demoClock in
  ∃ s : demoState, New false (demoClock 0) demoStore NewProvideQueue = Some s ∧
    datastore s = (setCycleStart (demoClock 0) false demoStore).1.
Proof.
  apply (New_keeps_history (CFG := demoConfig 2) (W := demoWorld [] (λ _ _, None) demoClock)).
Defined.

(** ** Runs that depart from the documentation *)

(** The messages that were sent: receiver and key. *)
Definition sentTo (e : event node node nat) : list (node * node) :=
  match e with EvSendMessage p h _ true => [(p, h)] | _ => [] end.

(** With the default interval of 22 hours the time of a region of 17 bits
    overflows: the last of these regions is scheduled at a negative offset,
    before the first one. *)
Theorem reprovideTimeForPrefix_overflow :
  let CFG := demoConfig 20 in
  reprovideTimeForPrefix (replicate 17 true) = Some (-61538092603374) ∧
  reprovideTimeForPrefix (replicate 17 false) = Some 0.
Proof. by vm_compute. Qed.

(** Keys outside of the common prefix of the peers that were found are
    dropped.  In a swarm of three peers that all start with the bit 0, a batch
    of three keys that start with the bit 1 is given up: no message is sent
    and no key goes back to the provide queue. *)
Theorem batchProvide_drops_keys :
  let CFG := demoConfig 3 in
  let W := demoWorld [nodeOf 0; nodeOf 3; nodeOf 5] (λ _ _, None) demoClock in
  match batchProvide [] [nodeOf 8; nodeOf 13; nodeOf 14] demoRunning with
  | Some (_, s) => (events s ≫= sentTo) = [] ∧ PVQ_IsEmpty (provideQueue s) = true
  | None => False
  end.
Proof. by vm_compute. Qed.

(** In a region below the root, records go to the wrong peers.  The
    region "0" has the peers 0000, 0010 and 0100; of the key 0110 the two
    closest are 0100 and 0010, but it is sent to 0010 and 0000: the peers of
    a region are a subtrie at the depth of its prefix, its keys a trie from
    the root, and the allocation walks both from depth 0. *)
Theorem batchProvide_wrong_peers :
  let CFG := demoConfig 2 in
  let net := [nodeOf 0; nodeOf 2; nodeOf 4; nodeOf 8; nodeOf 12] in
  let W := demoWorld net (λ _ _, None) demoClock in
  take 2 (sortNodes (nodeKey (nodeOf 6)) net) = [nodeOf 4; nodeOf 2] ∧
  match batchProvide [] [nodeOf 6; nodeOf 7; nodeOf 13] demoRunning with
  | Some (_, s) =>
      filter (λ e, e.2 = nodeOf 6) (events s ≫= sentTo) = [(nodeOf 2, nodeOf 6); (nodeOf 0, nodeOf 6)]
  | None => False
  end.
Proof. by vm_compute. Qed.

(** A keystore that fails from the call [n] on. *)
Definition failingStore (n : nat) (hs : list node) (i : nat) (_ : key) : option (list node) :=
  if decide (i < n)%nat then Some hs else None.

(** A failure of the keystore leaks claimed regions.  When the second
    call of [batchReprovide] to the keystore fails, the region stays marked
    as being reprovided: from then on, [batchReprovide] sends nothing for it,
    even when nothing fails.  Without the failure it sends the six records
    and releases the region. *)
Theorem batchReprovide_leaks_claim :
  let CFG := demoConfig 2 in
  let hs := [nodeOf 8; nodeOf 9; nodeOf 10] in
  let net := [nodeOf 8; nodeOf 12] in
  match batchReprovide (W := demoWorld net (λ _ _, Some hs) demoClock) (bitstr "10") demoRunning with
  | Some (_, s) => length (events s ≫= sentTo) = 6%nat ∧ keys (activeReprovides s) = []
  | None => False
  end ∧
  match batchReprovide (W := demoWorld net (failingStore 5 hs) demoClock) (bitstr "10") demoRunning with
  | Some (_, s) =>
      keys (activeReprovides s) = [bitstr "1"] ∧ (events s ≫= sentTo) = [] ∧
      match batchReprovide (W := demoWorld net (λ _ _, Some hs) demoClock) (bitstr "10") s with
      | Some (_, s') => (events s' ≫= sentTo) = [] ∧ keys (activeReprovides s') = [bitstr "1"]
      | None => False
      end
  | None => False
  end.
Proof. by vm_compute. Qed.
