(* ===== verification/ProviderStats.v ===== *)
(** * The statistics of the sweeping provider

    [provider/stats.go] and [provider/stats/types.go]: the counters and series
    of [operationStats], and the snapshot [Stats].

    [Stats] is a program on the state of the provider (see [Provider]) that also
    reads and cleans up the series; the worker pool, the size of the keystore and
    the time of the last change of the connectivity are read by calls to the
    world, like the clock.  The operations of the provider emit what they record
    as events; [ongoing] folds the events of the counters of the operations in
    progress. *)

From S2P Require Import Prelude Key Trie TrieImpl TrieSet Allocate Regions Deque PrefixQueue ProvideQueue.
From S2P Require Import GoTime Datastore GoMonad Provider Schedule ProviderInv ProviderSafe ProviderGroup.
From S2P Require Import ProviderSteps TimeSeries NetSize ProviderDemo Shutdown.

Local Open Scope Z_scope.

(** ** Operations in progress *)

Record ongoingOpStats := mkOngoing { opCount : Z; keyCount : Z }.

(** [start], [addKeys], [finish]: each counter is atomic. *)
Definition start (n : Z) (s : ongoingOpStats) : ongoingOpStats := mkOngoing (wrap64 (opCount s + 1)) (wrap64 (keyCount s + n)).
Definition addKeys (n : Z) (s : ongoingOpStats) : ongoingOpStats := mkOngoing (opCount s) (wrap64 (keyCount s + n)).
Definition finish (n : Z) (s : ongoingOpStats) : ongoingOpStats := mkOngoing (wrap64 (opCount s + -1)) (wrap64 (keyCount s + - n)).

(** ** Series of floating-point numbers *)

Section stats.
Context {TL : TrieLib} {DL : DequeLib} {DSL : DsLib} {GF : GoFloat}.

Record floatEntry := mkFloatEntry { fe_timestamp : Z; fe_value : F64; fe_weight : Z }.
Record FloatTimeSeries := mkFloatSeries { fs_data : Deque floatEntry; fs_retention : Z }.

(** [NewFloatTimeSeries]: the series is weighted. *)
Definition NewFloatTimeSeries (retention : Z) : FloatTimeSeries := mkFloatSeries dq_zero retention.

Fixpoint fgcLoop (n : nat) (data : Deque floatEntry) (cutoff : Z) : Deque floatEntry :=
  match n with
  | O => data
  | S n =>
      match dq_PopFront data with
      | None => data
      | Some (front, data') => if decide (fe_timestamp front < cutoff) then fgcLoop n data' cutoff else data
      end
  end.

Definition fgc (t : FloatTimeSeries) (now : Z) : FloatTimeSeries :=
  mkFloatSeries (fgcLoop (dq_Len (fs_data t)) (fs_data t) (time_Add now (- fs_retention t))) (fs_retention t).

Definition fAddWeighted (t : FloatTimeSeries) (value : F64) (weight now : Z) : FloatTimeSeries :=
  fgc (mkFloatSeries (dq_PushBack (fs_data t) (mkFloatEntry now value weight)) (fs_retention t)) now.

Definition fAvg (t : FloatTimeSeries) (now : Z) : FloatTimeSeries * F64 :=
  let t := fgc t now in
  if decide (dq_Len (fs_data t) = 0%nat) then (t, f_ofZ 0)
  else
    let weightedSum := foldl (λ sum e, f_add sum (f_mul (fe_value e) (f_ofZ (fe_weight e)))) (f_ofZ 0) (dq_Iter (fs_data t)) in
    let totalWeight := foldl (λ w e, wrap64 (w + fe_weight e)) 0 (dq_Iter (fs_data t)) in
    (t, if decide (totalWeight = 0) then f_ofZ 0 else f_div weightedSum (f_ofZ totalWeight)).

(** The average of a series of integers, from its numerator and denominator. *)
Definition quotient (avg : option (Z * Z)) : F64 :=
  match avg with None => f_ofZ 0 | Some (n, d) => f_div (f_ofZ n) (f_ofZ d) end.

(** [Duration.Minutes] *)
Definition Minutes (d : Z) : F64 := f_add (f_ofZ (Z.quot d Minute)) (f_div (f_ofZ (Z.rem d Minute)) (f_ofZ Minute)).

(** ** operationStats *)

Record operationStats := mkOpStats {
  recordsProvided : Z;
  keysProvided : Z;
  keysFailed : Z;
  ongoingProvides : ongoingOpStats;
  ongoingReprovides : ongoingOpStats;
  keysPerProvide : TimeSeries;
  provideDuration : TimeSeries;
  keysPerReprovide : CycleStats;
  reprovideDuration : CycleStats;
  os_peers : CycleStats;
  os_reachable : CycleStats;
  os_regionSize : TimeSeries;
  avgHolders : FloatTimeSeries;
}.

(** [newOperationStats] *)
Definition newOperationStats (reprovideInterval maxDelay : Z) : operationStats :=
  mkOpStats 0 0 0 (mkOngoing 0 0) (mkOngoing 0 0)
    (NewTimeSeries reprovideInterval) (NewTimeSeries reprovideInterval)
    (NewCycleStats maxDelay) (NewCycleStats maxDelay) (NewCycleStats maxDelay) (NewCycleStats maxDelay)
    (NewTimeSeries reprovideInterval) (NewFloatTimeSeries reprovideInterval).

Implicit Types (o : operationStats).

(** The series that [Stats] changes. *)
Definition set_series kpp pd kpr rd pe re rs ah o : operationStats :=
  mkOpStats (recordsProvided o) (keysProvided o) (keysFailed o) (ongoingProvides o) (ongoingReprovides o) kpp pd kpr rd pe re rs ah.

Definition set_counters rp kp kf op orp o : operationStats :=
  mkOpStats rp kp kf op orp (keysPerProvide o) (provideDuration o) (keysPerReprovide o) (reprovideDuration o)
    (os_peers o) (os_reachable o) (os_regionSize o) (avgHolders o).

(** [addProvidedRecords], [addCompletedKeys] *)
Definition addProvidedRecords (count : Z) o : operationStats :=
  set_counters (wrap64 (recordsProvided o + count)) (keysProvided o) (keysFailed o) (ongoingProvides o) (ongoingReprovides o) o.
Definition addCompletedKeys (successes failures : Z) o : operationStats :=
  set_counters (recordsProvided o) (wrap64 (keysProvided o + successes)) (wrap64 (keysFailed o + failures))
    (ongoingProvides o) (ongoingReprovides o) o.

(** ** The snapshot *)

Record Queues := mkQueues { PendingKeyProvides : Z; PendingRegionProvides : Z; PendingRegionReprovides : Z }.
Record Connectivity := mkConnectivity { Status : string; Since : Z }.
Record Schedule := mkSchedule {
  Keys : Z; Regions : Z; AvgPrefixLength : F64; NextReprovideAt : Z; NextReprovidePrefix : key }.
Record Workers := mkWorkers {
  Max : Z; Active : Z; ActivePeriodic : Z; ActiveBurst : Z; DedicatedPeriodic : Z; DedicatedBurst : Z;
  QueuedPeriodic : Z; QueuedBurst : Z; MaxProvideConnsPerWorker : Z }.
Record Timing := mkTiming {
  Uptime : Z; ReprovidesInterval : Z; CycleStart : Z; CurrentTimeOffset : Z; MaxReprovideDelay : Z }.
Record OngoingOperations := mkOngoingOps { RegionProvides : Z; KeyProvides : Z; RegionReprovides : Z; KeyReprovides : Z }.
Record PastOperations := mkPastOps {
  RecordsProvided : Z; KeysProvided : Z; KeysFailed : Z; KeysProvidedPerMinute : F64; KeysReprovidedPerMinute : F64;
  RegionReprovideDuration : Z; AvgKeysPerReprovide : F64; RegionReprovidedLastCycle : Z }.
Record Operations := mkOperations { Ongoing : OngoingOperations; Past : PastOperations }.
Record Network := mkNetwork {
  Peers : Z; Reachable : Z; CompleteKeyspaceCoverage : bool; AvgRegionSize : F64; AvgHolders : F64; ReplicationFactor : Z }.
Record Stats := mkStats {
  Closed : bool; st_Connectivity : Connectivity; st_Queues : Queues; st_Schedule : Schedule; st_Workers : Workers;
  st_Timing : Timing; st_Operations : Operations; st_Network : Network }.

(** The snapshot of a closed provider: the other fields are zero. *)
Definition closedStats : Stats :=
  mkStats true (mkConnectivity "" zeroTime) (mkQueues 0 0 0) (mkSchedule 0 0 (f_ofZ 0) zeroTime [])
    (mkWorkers 0 0 0 0 0 0 0 0 0) (mkTiming 0 0 zeroTime 0 0)
    (mkOperations (mkOngoingOps 0 0 0 0) (mkPastOps 0 0 0 (f_ofZ 0) (f_ofZ 0) 0 (f_ofZ 0) 0))
    (mkNetwork 0 0 false (f_ofZ 0) (f_ofZ 0) 0).

(** What [workerPool.Stats] returns. *)
Record poolStats := mkPoolStats { p_Max : Z; p_Used : workerType → Z; p_Reserves : workerType → Z; p_Queued : workerType → Z }.

Context {peerID mh addr : Type} {EP : EqDecision peerID} {CP : Countable peerID}.
Context {EM : EqDecision mh} {CM : Countable mh}.
Context {CFG : Config} {W : World peerID mh addr}.
Context (startedAt : Z) (maxProvideConnsPerWorker : Z).
(** [connectivity.LastStateChange], [keystore.Size] and [workerPool.Stats] at a call. *)
Context (w_LastStateChange : nat → Z) (w_ksSize : nat → option Z) (w_poolStats : nat → poolStats).

Abbreviation state := (@SweepingProvider DL DSL peerID mh addr).
Abbreviation M := (GoM state).

(** The part of [Stats] on the schedule: the number of regions, the average
    length of their prefixes, and the time of the region at the cursor. *)
Definition scheduleInfo (avgPrefixLenCached : Z) : M (Z * F64 * key * option Z) :=
  s ← gets id;
  let nextPrefix := scheduleCursor s in
  let found := trie_Find (schedule s) nextPrefix in
  '(scheduleSize, avgPrefixLen) ←
    (if decide (0 ≤ avgPrefixLenCached ∧ IsEmptyLeaf (schedule s) = false) then
       ks ← liftO (KeysIter (schedule s) order);
       let '(prefixSum, scheduleSize) := foldl (λ '(sum, n) k, (f_add sum (f_ofZ (Z.of_nat (length k))), n + 1)) (f_ofZ 0, 0) ks in
       mret (scheduleSize, f_div prefixSum (f_ofZ scheduleSize))
     else mret (Z.of_nat (trie_Size (schedule s)), f_ofZ avgPrefixLenCached));
  mret (scheduleSize, avgPrefixLen, nextPrefix, found).

(** The clean-up of the cycle statistics: a first average of the durations gives
    the deadline. *)
Definition cleanupAll o : M operationStats :=
  now ← Now;
  rd ← liftO (Cleanup (reprovideDuration o) (wrap64 (2 * reprovideInterval)) now);
  avg ← liftO (cs_Avg rd);
  let statsDeadline := wrap64 (reprovideInterval + maxReprovideDelay + f_int64 (quotient avg)) in
  now ← Now;
  rd ← liftO (Cleanup rd statsDeadline now);
  now ← Now;
  kpr ← liftO (Cleanup (keysPerReprovide o) statsDeadline now);
  now ← Now;
  pe ← liftO (Cleanup (os_peers o) statsDeadline now);
  now ← Now;
  re ← liftO (Cleanup (os_reachable o) statsDeadline now);
  mret (set_series (keysPerProvide o) (provideDuration o) kpr rd pe re (os_regionSize o) (avgHolders o) o).

(** The rate of a sum of keys and a sum of durations. *)
Definition perMinute (keysSum durationSum : Z) : F64 :=
  if decide (0 < durationSum) then f_div (f_ofZ keysSum) (Minutes durationSum) else f_ofZ 0.

(** The part of [Stats] under [cycleStatsLk], and the operations and the network
    of the snapshot. *)
Definition operationsInfo (ongoingOps : OngoingOperations) o : M (operationStats * (Operations * Network)) :=
  o ← cleanupAll o;
  now ← Now;
  let '(kpp, keysPerProvideSum) := ts_Sum (keysPerProvide o) now in
  now ← Now;
  let '(pd, provideDurationSum) := ts_Sum (provideDuration o) now in
  keysPerReprovideSum ← liftO (cs_Sum (keysPerReprovide o));
  reprovideDurationSum ← liftO (cs_Sum (reprovideDuration o));
  reprovideDurationAvg ← liftO (cs_Avg (reprovideDuration o));
  keysPerReprovideAvg ← liftO (cs_Avg (keysPerReprovide o));
  let reprovideDurationCount := Z.of_nat (cs_Count (reprovideDuration o)) in
  peersSum ← liftO (cs_Sum (os_peers o));
  peersFullyCovered ← liftO (FullyCovered (os_peers o));
  reachableSum ← liftO (cs_Sum (os_reachable o));
  now ← Now;
  now' ← Now;
  let '(rs, avgRegionSize) := ts_Avg (os_regionSize o) now now' in
  now ← Now;
  let '(ah, avgHoldersAvg) := fAvg (avgHolders o) now in
  mret (set_series kpp pd (keysPerReprovide o) (reprovideDuration o) (os_peers o) (os_reachable o) rs ah o,
    (mkOperations ongoingOps
       (mkPastOps (recordsProvided o) (keysProvided o) (keysFailed o)
          (perMinute keysPerProvideSum provideDurationSum) (perMinute keysPerReprovideSum reprovideDurationSum)
          (f_int64 (quotient reprovideDurationAvg)) (quotient keysPerReprovideAvg) reprovideDurationCount),
     mkNetwork peersSum reachableSum peersFullyCovered (quotient avgRegionSize) avgHoldersAvg replicationFactor)).

(** [Stats]: the snapshot, and the statistics with what is too old removed. *)
Definition SP_Stats o : M (operationStats * Stats) :=
  now ← Now;
  c ← closed;
  if c : bool then mret (o, closedStats)
  else
    s ← gets id;
    let queues := mkQueues (Z.of_nat (PVQ_Size (provideQueue s))) (Z.of_nat (NumRegions (provideQueue s)))
                    (Z.of_nat (RQ_Size (reprovideQueue s))) in
    let avgPrefixLenCached := cachedAvgPrefixLen s in
    online ← IsOnline;
    let status := if online : bool then "online"%string
                  else if decide (0 ≤ avgPrefixLenCached) then "disconnected"%string else "offline"%string in
    since ← ask w_LastStateChange;
    '(scheduleSize, avgPrefixLen, nextPrefix, found) ← scheduleInfo avgPrefixLenCached;
    currentOffset ← currentTimeOffset;
    nextReprovideAt ←
      match found with
      | Some nextReprovideOffset => d ← timeUntil nextReprovideOffset; mret (time_Add now d)
      | None => mret zeroTime
      end;
    size ← ask w_ksSize;
    let ks := match size with Some n => n | None => -1 end in
    ws ← ask w_poolStats;
    let workers := mkWorkers (p_Max ws) (p_Used ws periodicWorker + p_Used ws burstWorker)
      (p_Used ws periodicWorker) (p_Used ws burstWorker) (p_Reserves ws periodicWorker) (p_Reserves ws burstWorker)
      (p_Queued ws periodicWorker) (p_Queued ws burstWorker) maxProvideConnsPerWorker in
    up ← Now;
    let timing := mkTiming (time_Sub up startedAt) reprovideInterval (time_Add now (- currentOffset)) currentOffset maxReprovideDelay in
    let ongoingOps := mkOngoingOps (opCount (ongoingProvides o)) (keyCount (ongoingProvides o))
      (opCount (ongoingReprovides o)) (keyCount (ongoingReprovides o)) in
    '(o, (operations, network)) ← operationsInfo ongoingOps o;
    mret (o, mkStats false (mkConnectivity status since) queues
               (mkSchedule ks scheduleSize avgPrefixLen nextReprovideAt nextPrefix) workers timing operations network).
End stats.

(** ** The operations in progress are balanced *)

Section ongoing.
Context {TL : TrieLib} {TLW : TrieLaws} {DL : DequeLib} {DLW : DequeLaws} {DSL : DsLib}.
Context {peerID mh addr : Type} {EP : EqDecision peerID} {CP : Countable peerID}.
Context {EM : EqDecision mh} {CM : Countable mh}.
Context {CFG : Config} {COK : ConfigOk} {W : World peerID mh addr} {WOK : WorldOk W}.

Abbreviation state := (@SweepingProvider DL DSL peerID mh addr).
Abbreviation M := (GoM state).
Implicit Types (s : state) (p : key) (hs : list mh) (o : ongoingOpStats) (c : ongoingOpStats * ongoingOpStats).

(** What an event does to [ongoingProvides] and [ongoingReprovides]. *)
Definition ongoingEvent c (e : event peerID mh addr) : ongoingOpStats * ongoingOpStats :=
  match e with
  | EvProvideStart n => (start n c.1, c.2)
  | EvProvideAddKeys n => (addKeys n c.1, c.2)
  | EvProvideFinish n => (finish n c.1, c.2)
  | EvReprovideStart n => (c.1, start n c.2)
  | EvReprovideAddKeys n => (c.1, addKeys n c.2)
  | EvReprovideFinish n => (c.1, finish n c.2)
  | _ => c
  end.

(** The counters after the events of the provider. *)
Definition ongoing s : ongoingOpStats * ongoingOpStats := foldl ongoingEvent (mkOngoing 0 0, mkOngoing 0 0) (events s).

(** The counters move by these amounts, modulo 2^64. *)
Definition bump (n k : Z) o : ongoingOpStats := mkOngoing (wrap64 (opCount o + n)) (wrap64 (keyCount o + k)).

Lemma bump_bump n k n' k' o : bump n k (bump n' k' o) = bump (n' + n) (k' + k) o.
Proof. unfold bump. cbn. rewrite !wrap64_wrap. do 2 f_equal; lia. Qed.

Definition normal o : Prop := bump 0 0 o = o.

Lemma normal_bump n k o : normal (bump n k o).
Proof. unfold normal. rewrite bump_bump. f_equal; lia. Qed.

Lemma start_bump n o : start n o = bump 1 n o.
Proof. done. Qed.
Lemma finish_bump n o : finish n o = bump (-1) (- n) o.
Proof. done. Qed.
Lemma addKeys_bump n o : normal o → addKeys n o = bump 0 n o.
Proof. destruct o. unfold normal, addKeys, bump. cbn. intros [= H _]. by rewrite H. Qed.

Lemma ongoingEvent_normal c e : normal c.1 ∧ normal c.2 → normal (ongoingEvent c e).1 ∧ normal (ongoingEvent c e).2.
Proof.
  intros [H1 H2]. destruct e; cbn; rewrite ?addKeys_bump, ?start_bump, ?finish_bump by done;
    split; done || apply normal_bump.
Qed.

Lemma ongoing_normal s : normal (ongoing s).1 ∧ normal (ongoing s).2.
Proof.
  unfold ongoing. induction (events s) as [|e l IH] using rev_ind; [done|].
  rewrite foldl_app. by apply ongoingEvent_normal.
Qed.

(** Every run of [m] that ends changes the counters of provides by [a] and [b]
    and those of reprovides by [n] and [k]. *)
Definition moves {A} (a b n k : Z) (m : M A) : Prop :=
  ∀ s r s', m s = Some (r, s') → ongoing s' = (bump a b (ongoing s).1, bump n k (ongoing s).2).
Abbreviation quiet := (moves 0 0 0 0).

Lemma moves_eq {A} a b n k a' b' n' k' (m : M A) :
  moves a b n k m → a = a' → b = b' → n = n' → k = k' → moves a' b' n' k' m.
Proof. by intros ? -> -> -> ->. Qed.

Lemma moves_same {A} (m : M A) : (∀ s r s', m s = Some (r, s') → events s' = events s) → quiet m.
Proof.
  intros H s r s' E. unfold ongoing at 1. rewrite (H _ _ _ E). fold (ongoing s).
  destruct (ongoing_normal s) as [H1 H2]. rewrite H1, H2. by destruct (ongoing s).
Qed.

Lemma moves_bind {A B} a b n k a' b' n' k' (m : M A) (f : A → M B) :
  moves a b n k m → (∀ x, moves a' b' n' k' (f x)) → moves (a + a') (b + b') (n + n') (k + k') (m ≫= f).
Proof.
  intros Hm Hf s r s'. unfold mbind, GoM_bind. destruct (m s) as [[x s1]|] eqn:E; [|done]. intros E'.
  rewrite (Hf _ _ _ _ E'), (Hm _ _ _ E). cbn. by rewrite !bump_bump.
Qed.

Lemma quiet_bind {A B} a b n k (m : M A) (f : A → M B) : quiet m → (∀ x, moves a b n k (f x)) → moves a b n k (m ≫= f).
Proof. intros Hm Hf. by eapply moves_eq; [eapply moves_bind; [exact Hm|exact Hf]|..]. Qed.

Lemma quiet_ret {A} (x : A) : quiet (mret x).
Proof. apply moves_same. by intros s r s' [= -> ->]. Qed.

Lemma quiet_gets {A} (f : state → A) : quiet (gets f).
Proof. apply moves_same. by intros s r s' [= <- <-]. Qed.

Lemma quiet_lift {A} (x : option A) : quiet (liftO x).
Proof. apply moves_same. intros s r s'. unfold liftO. destruct x; [|done]. by intros [= -> ->]. Qed.

Lemma quiet_modify (f : state → state) : (∀ s, events (f s) = events s) → quiet (modify f).
Proof. intros H. apply moves_same. intros s r s' E. unfold modify in E. simplify_eq. apply H. Qed.

Lemma quiet_ask {A} (f : nat → A) : quiet (ask f).
Proof. apply moves_same. by intros s r s' [= <- <-]. Qed.

Lemma moves_emit a b n k e :
  (∀ c, normal c.1 → normal c.2 → ongoingEvent c e = (bump a b c.1, bump n k c.2)) → moves a b n k (emit e).
Proof.
  intros H s r s' [= <- <-]. unfold ongoing at 1. cbn [events set_log]. rewrite foldl_app. cbn. fold (ongoing s).
  destruct (ongoing_normal s). by apply H.
Qed.

Lemma quiet_emit e : (∀ c, ongoingEvent c e = c) → quiet (emit e).
Proof. intros H. apply moves_emit. intros c H1 H2. rewrite H, H1, H2. by destruct c. Qed.

Lemma quiet_forM {A} (l : list A) (f : A → M ()) : (∀ x, quiet (f x)) → quiet (forM l f).
Proof. intros Hf. induction l; cbn [forM]; [apply quiet_ret|]. by apply quiet_bind. Qed.

Lemma quiet_when (b : bool) (m : M ()) : quiet m → quiet (whenM b m).
Proof. destruct b; [done|]. intros _. apply quiet_ret. Qed.
End ongoing.

Create HintDb quiet discriminated.

(** Programs that do not touch the counters: along the structure of the program. *)
Ltac quiet :=
  repeat first
    [ progress intros
    | solve [auto with quiet nocore]
    | lazymatch goal with
      | |- moves _ _ _ _ (mret _) => apply quiet_ret
      | |- moves _ _ _ _ (gets _) => apply quiet_gets
      | |- moves _ _ _ _ (liftO _) => apply quiet_lift
      | |- moves _ _ _ _ (ask _) => apply quiet_ask
      | |- moves _ _ _ _ (modify _) => apply quiet_modify; intros; reflexivity
      | |- moves _ _ _ _ (emit (match ?x with _ => _ end)) => destruct x
      | |- moves _ _ _ _ (emit _) => apply quiet_emit; intros; reflexivity
      | |- moves _ _ _ _ (whenM _ _) => apply quiet_when
      | |- moves _ _ _ _ (forM _ _) => apply quiet_forM
      | |- moves _ _ _ _ (mbind _ _) => apply quiet_bind
      | |- moves _ _ _ _ (let _ := _ in _) => cbv zeta
      | |- moves _ _ _ _ (match ?x with _ => _ end) => destruct x
      end ].

Section batches.
Context {TL : TrieLib} {TLW : TrieLaws} {DL : DequeLib} {DLW : DequeLaws} {DSL : DsLib}.
Context {peerID mh addr : Type} {EP : EqDecision peerID} {CP : Countable peerID}.
Context {EM : EqDecision mh} {CM : Countable mh}.
Context {CFG : Config} {COK : ConfigOk} {W : World peerID mh addr} {WOK : WorldOk W}.

Abbreviation state := (@SweepingProvider DL DSL peerID mh addr).
Abbreviation M := (GoM state).
Abbreviation quiet := (moves (peerID := peerID) (mh := mh) (addr := addr) 0 0 0 0).
Implicit Types (s : state) (p : key) (hs : list mh).

Lemma quiet_scheduleNext p d : quiet (scheduleNextReprovideNoLock p d).
Proof. unfold scheduleNextReprovideNoLock, Now. quiet. Qed.
#[local] Hint Resolve quiet_scheduleNext : quiet.

Lemma quiet_timeUntil d : quiet (timeUntil d).
Proof. unfold timeUntil, currentTimeOffset, Now. quiet. Qed.
#[local] Hint Resolve quiet_timeUntil : quiet.

Lemma quiet_unschedule p : quiet (unscheduleSubsumedPrefixesNoLock p).
Proof. unfold unscheduleSubsumedPrefixesNoLock. quiet. Qed.
#[local] Hint Resolve quiet_unschedule : quiet.

Lemma quiet_reschedule p : quiet (reschedulePrefix p).
Proof. unfold reschedulePrefix, schedulePrefixNoLock, currentTimeOffset, Now. quiet. Qed.
#[local] Hint Resolve quiet_reschedule : quiet.

Lemma quiet_failedReprovide p : quiet (failedReprovide p).
Proof. unfold failedReprovide, enqueueReprovide. quiet. Qed.
Lemma quiet_failedProvide p hs : quiet (failedProvide p hs).
Proof. unfold failedProvide, enqueueProvide. quiet. Qed.
#[local] Hint Resolve quiet_failedReprovide quiet_failedProvide : quiet.

Lemma quiet_provideBatch pe (addrs : list addr) last (batch : list mh) i j k : quiet (provideBatch pe addrs last batch i j k).
Proof. revert i j k. induction batch as [|h batch IH]; intros i j k; cbn [provideBatch]; unfold closed; quiet. Qed.
#[local] Hint Resolve quiet_provideBatch : quiet.

Lemma quiet_provideBatches pe (addrs : list addr) (batches : list (list mh)) i j k : quiet (provideBatches pe addrs batches i j k).
Proof. revert i j k. induction batches as [|b batches IH]; intros i j k; cbn [provideBatches]; quiet. Qed.
#[local] Hint Resolve quiet_provideBatches : quiet.

Lemma quiet_sendJobs jobs (addrs : list addr) fk n : quiet (sendJobs jobs addrs fk n).
Proof.
  revert fk n. induction jobs as [|[pe b] jobs IH]; intros fk n; cbn [sendJobs]; unfold closed, provideKeysToPeer; quiet.
Qed.
#[local] Hint Resolve quiet_sendJobs : quiet.

Lemma quiet_send m (addrs : list addr) n : quiet (sendProviderRecords m addrs n).
Proof. unfold sendProviderRecords. quiet. Qed.
#[local] Hint Resolve quiet_send : quiet.

Lemma quiet_vanilla (h : mh) b : quiet (vanillaProvide h b).
Proof. unfold vanillaProvide. quiet. Qed.
#[local] Hint Resolve quiet_vanilla : quiet.

Lemma quiet_provideEach p hs b ok : quiet (provideEach p hs b ok).
Proof. revert ok. induction hs as [|h hs IH]; intros ok; cbn [provideEach]; quiet. Qed.
#[local] Hint Resolve quiet_provideEach : quiet.

Lemma quiet_persist p : quiet (persistSuccessfulReprovide p).
Proof. unfold persistSuccessfulReprovide, gcReprovideHistoryIfNeeded, closed, Now. quiet. Qed.
#[local] Hint Resolve quiet_persist : quiet.

Lemma quiet_individualProvide p hs b : quiet (individualProvide p hs b).
Proof. unfold individualProvide. quiet. Qed.
#[local] Hint Resolve quiet_individualProvide : quiet.

Lemma quiet_closestPeers n p q all t i : quiet (closestPeersLoop n p q all t i).
Proof.
  revert p q all t i. induction n as [|n IH]; intros p q all t i; cbn [closestPeersLoop];
    unfold closed, IsOnline, closestPeersToKey; quiet.
Qed.
#[local] Hint Resolve quiet_closestPeers : quiet.

Lemma quiet_exploreSwarm p : quiet (exploreSwarm p).
Proof. unfold exploreSwarm, closestPeersToPrefix. quiet. Qed.
#[local] Hint Resolve quiet_exploreSwarm : quiet.

Lemma quiet_provideRegions rs (addrs : list addr) b : quiet (provideRegions rs addrs b).
Proof.
  unfold provideRegions. apply quiet_bind; [|quiet]. generalize 0 at 5.
  induction rs as [|r rs IH]; intros n; cbn [provideRegionsLoop]; unfold provideRegion, releaseRegionReprovide; quiet.
Qed.
#[local] Hint Resolve quiet_provideRegions : quiet.

Lemma quiet_selfAddrInfo : quiet selfAddrInfo.
Proof. unfold selfAddrInfo. quiet. Qed.
#[local] Hint Resolve quiet_selfAddrInfo : quiet.

Lemma quiet_getAvg : quiet getAvgPrefixLenNoLock.
Proof. unfold getAvgPrefixLenNoLock, Now. quiet. Qed.
Lemma quiet_schedulePrefix p b : quiet (schedulePrefixNoLock p b).
Proof. unfold schedulePrefixNoLock, currentTimeOffset, Now. quiet. Qed.
Lemma quiet_catchup : quiet catchupPendingWork.
Proof. unfold catchupPendingWork, closed, spawn. quiet. Qed.
#[local] Hint Resolve quiet_getAvg quiet_schedulePrefix quiet_catchup : quiet.

Lemma quiet_enqueueReprovide l : quiet (enqueueReprovide l).
Proof. unfold enqueueReprovide. quiet. Qed.
#[local] Hint Resolve quiet_enqueueReprovide : quiet.

Lemma quiet_group hs b : quiet (groupAndScheduleKeysByPrefix hs b).
Proof.
  unfold groupAndScheduleKeysByPrefix. apply quiet_bind; [|quiet]. generalize (mkGroup ∅ Empty ∅ (-1) : groupState (mh := mh)).
  induction hs as [|h hs IH]; intros g; cbn [groupLoop]; unfold choosePrefix; quiet.
Qed.
#[local] Hint Resolve quiet_group : quiet.

Lemma quiet_handleProvide f b hs : quiet (handleProvide f b hs).
Proof. unfold handleProvide, isOffline, enqueueProvide, closed, spawn. quiet. Qed.
#[local] Hint Resolve quiet_handleProvide : quiet.

Lemma quiet_withKeys l : quiet (withKeys l).
Proof. induction l; cbn [withKeys]; quiet. Qed.
#[local] Hint Resolve quiet_withKeys : quiet.

Lemma quiet_Refresh : quiet RefreshSchedule.
Proof. unfold RefreshSchedule, closed. quiet. Qed.
#[local] Hint Resolve quiet_Refresh : quiet.

Lemma quiet_approxSample n h : quiet (approxSample n h).
Proof. revert h. induction n as [|n IH]; intros h; cbn [approxSample]; unfold closed, IsOnline; quiet. Qed.
#[local] Hint Resolve quiet_approxSample : quiet.

Lemma quiet_approx n : quiet (approxPrefixLen n).
Proof.
  unfold approxPrefixLen, Now. apply quiet_bind; [|quiet]. generalize approxPrefixLenGCPCount. intros m. generalize 0 at 5 6.
  revert m. cut (∀ m a b, quiet (approxSamples m n a b)); [auto|]. induction m as [|m IH]; intros a b; cbn [approxSamples]; quiet.
Qed.
#[local] Hint Resolve quiet_approx : quiet.

Lemma quiet_loadRegions l t : quiet (loadRegions l t).
Proof. revert t. induction l as [|[k v] l IH]; intros t; cbn [loadRegions]; quiet. Qed.
#[local] Hint Resolve quiet_loadRegions : quiet.

Lemma quiet_onOnline n : quiet (onOnline n).
Proof.
  unfold onOnline, loadRecentlyReprovidedRegions, gcReprovideHistoryIfNeeded, enqueueExpiredRegionsNoLock, closed, Now. quiet.
Qed.

Lemma quiet_enqueueLate n a b c : quiet (enqueueLate n a b c).
Proof. revert c. induction n as [|n IH]; intros c; cbn [enqueueLate]; quiet. Qed.
#[local] Hint Resolve quiet_onOnline quiet_enqueueLate : quiet.

Lemma quiet_handleReprovide : quiet handleReprovide.
Proof. unfold handleReprovide, advanceSchedule, currentTimeOffset, IsOnline, Now, removeReprovide, closed, spawn. quiet. Qed.
#[local] Hint Resolve quiet_handleReprovide : quiet.

Lemma quiet_provideLoop n : quiet (provideLoop n).
Proof.
  assert (quiet (provideLoopIter n)) by (induction n; cbn [provideLoopIter]; unfold closed, IsOnline, spawn; quiet).
  unfold provideLoop. quiet.
Qed.
Lemma quiet_reprovideLate n : quiet (reprovideLateRegions n).
Proof. induction n; cbn [reprovideLateRegions]; unfold closed, IsOnline, spawn; quiet. Qed.
#[local] Hint Resolve quiet_provideLoop quiet_reprovideLate : quiet.

(** Every run of [m] that ends keeps the counters of provides and changes those
    of reprovides by two numbers that are in [P] with its result. *)
Definition ends {A} (P : A → Z → Z → Prop) (m : M A) : Prop :=
  ∀ s r s', m s = Some (r, s') → ∃ n k, P r n k ∧ ongoing s' = (bump 0 0 (ongoing s).1, bump n k (ongoing s).2).

Lemma ends_moves {A} (P : A → Z → Z → Prop) n k (m : M A) : moves 0 0 n k m → (∀ r, P r n k) → ends P m.
Proof. intros Hm HP s r s' E. exists n, k. split; [done|]. by apply (Hm _ _ _ E). Qed.

Lemma ends_bind {A B} (Q : A → Z → Z → Prop) (P : B → Z → Z → Prop) (m : M A) (f : A → M B) :
  ends Q m → (∀ x n k, Q x n k → ends (λ y n' k', P y (n + n') (k + k')) (f x)) → ends P (m ≫= f).
Proof.
  intros Hm Hf s r s'. unfold mbind, GoM_bind. destruct (m s) as [[x s1]|] eqn:E; [|done]. intros E'.
  destruct (Hm _ _ _ E) as (n & k & HQ & E1). destruct (Hf _ _ _ HQ _ _ _ E') as (n' & k' & HP & E2).
  exists (n + n'), (k + k'). split; [done|]. rewrite E2, E1. cbn. by rewrite !bump_bump.
Qed.

Lemma ends_quiet {A B} (P : B → Z → Z → Prop) (m : M A) (f : A → M B) :
  quiet m → (∀ x, ends P (f x)) → ends P (m ≫= f).
Proof.
  intros Hm Hf. eapply (ends_bind (λ _ n k, n = 0 ∧ k = 0)); [eapply ends_moves; [exact Hm|done]|].
  intros x n k [-> ->]. apply Hf.
Qed.

Lemma ends_seq {A B} (P : B → Z → Z → Prop) n k (m : M A) (m' : M B) :
  moves 0 0 n k m → ends (λ y n' k', P y (n + n') (k + k')) m' → ends P (m ;; m').
Proof.
  intros Hm Hm'. eapply (ends_bind (λ _ n' k', n' = n ∧ k' = k)); [eapply ends_moves; [exact Hm|done]|].
  by intros x n' k' [-> ->].
Qed.

Lemma ends_ask {A B} (P : B → Z → Z → Prop) (g : nat → A) (f : A → M B) :
  (∀ i, ends P (f (g i))) → ends P (ask g ≫= f).
Proof. intros Hf s r s' E. by apply (Hf (calls s) (set_log (S (calls s)) (events s) (tasks s) s)) in E. Qed.

Abbreviation moved := (moves (peerID := peerID) (mh := mh) (addr := addr)).

Lemma moves_start n : moved 0 0 1 n (emit (EvReprovideStart n)).
Proof. apply moves_emit. intros [c1 c2] H1 H2. cbn in *. by rewrite H1. Qed.
Lemma moves_addKeys n : moved 0 0 0 n (emit (EvReprovideAddKeys n)).
Proof. apply moves_emit. intros [c1 c2] H1 H2. cbn in *. by rewrite H1, addKeys_bump. Qed.
Lemma moves_finish n : moved 0 0 (-1) (- n) (emit (EvReprovideFinish n)).
Proof. apply moves_emit. intros [c1 c2] H1 H2. cbn in *. by rewrite H1. Qed.
Lemma moves_provideStart n : moved 1 n 0 0 (emit (EvProvideStart n)).
Proof. apply moves_emit. intros [c1 c2] H1 H2. cbn in *. by rewrite H2. Qed.
Lemma moves_provideAddKeys n : moved 0 n 0 0 (emit (EvProvideAddKeys n)).
Proof. apply moves_emit. intros [c1 c2] H1 H2. cbn in *. by rewrite H2, addKeys_bump. Qed.
Lemma moves_provideFinish n : moved (-1) (- n) 0 0 (emit (EvProvideFinish n)).
Proof. apply moves_emit. intros [c1 c2] H1 H2. cbn in *. by rewrite H2. Qed.

Lemma moves_seq {A B} a b n k a' b' n' k' (m : M A) (m' : M B) :
  moves a b n k m → moves (a' - a) (b' - b) (n' - n) (k' - k) m' → moves a' b' n' k' (m ;; m').
Proof. intros Hm Hm'. eapply moves_eq; [eapply moves_bind; [exact Hm|intros _; exact Hm']|lia..]. Qed.

(** A provide ends with the counters as they were before. *)
Lemma quiet_batchProvide p hs : quiet (batchProvide p hs).
Proof.
  unfold batchProvide. case_decide; [quiet|]. apply quiet_bind; [quiet|]. intros [addrs|]; [|quiet].
  eapply moves_seq; [apply moves_provideStart|]. case_decide.
  { apply quiet_bind; [quiet|]. intros _. eapply moves_eq; [apply moves_provideFinish|lia..]. }
  apply quiet_bind; [quiet|]. intros [[rs cp]|].
  2: { apply quiet_bind; [quiet|]. intros _. eapply moves_eq; [apply moves_provideFinish|lia..]. }
  apply quiet_bind; [unfold dequeueMatching; quiet|]. intros extra.
  apply (moves_seq 0 (Z.of_nat (length extra)) 0 0).
  { destruct extra as [|h l]; [apply quiet_ret|]. apply moves_provideAddKeys. }
  apply quiet_bind; [quiet|]. intros _. eapply moves_eq; [apply moves_provideFinish|rewrite ?length_app; lia..].
Qed.

(** A reprovide ends with the counters as they were before, unless the keystore
    fails to return the keys of the prefix that was covered, which is shorter:
    then the number of its keys remains. *)
Definition leaked p (n k : Z) : Prop :=
  n = 0 ∧ (k = 0 ∨ ∃ i j cp hs, k = Z.of_nat (length hs) ∧ (length cp < length p)%nat ∧
    w_ksGet i p = Some hs ∧ w_ksGet j cp = None).

Lemma ends_finish (P : () → Z → Z → Prop) n : P tt (-1) (- n) → ends P (emit (EvReprovideFinish n)).
Proof. intros H. eapply ends_moves; [apply moves_finish|]. by intros []. Qed.

Lemma quiet_ends {A} (P : A → Z → Z → Prop) (m : M A) : quiet m → (∀ r, P r 0 0) → ends P m.
Proof. apply ends_moves. Qed.

Lemma ends_ret {A} (P : A → Z → Z → Prop) (x : A) : P x 0 0 → ends P (mret x).
Proof.
  intros HP s r s' [= <- <-]. exists 0, 0. split; [done|]. destruct (ongoing_normal s) as [H1 H2].
  rewrite H1, H2. by destruct (ongoing s).
Qed.

Lemma ends_batchReprovide p : ends (λ _, leaked p) (batchReprovide p).
Proof.
  unfold batchReprovide, closed. assert (leaked p 0 0) as H0 by (split; auto).
  apply ends_quiet; [quiet|]. intros []; [by apply quiet_ends; [quiet|]|].
  apply ends_quiet; [quiet|]. intros [addrs|]; [|by apply quiet_ends; [quiet|]].
  apply ends_ask. intros i. destruct (w_ksGet i p) as [hs|] eqn:Hget; [|by apply quiet_ends; [quiet|]].
  destruct hs as [|h0 hs0]; [by apply quiet_ends; [quiet|]|]. set (hs := h0 :: hs0) in *. cbv zeta.
  eapply ends_seq; [apply moves_start|]. case_decide.
  { apply ends_quiet; [quiet|]. intros _. apply ends_finish. split; lia. }
  apply ends_quiet; [quiet|]. intros [[rs cp]|].
  2: { apply ends_quiet; [quiet|]. intros _. apply ends_quiet; [quiet|]. intros _. apply ends_finish. split; lia. }
  apply ends_quiet; [unfold claimRegionReprovide; quiet|]. intros regions.
  eapply (ends_bind (λ r n k, match r with
    | None => n = -1 ∧ k = 0 ∧ (length cp < length p)%nat ∧ ∃ j, w_ksGet j cp = None
    | Some (_, hs') => n = 0 ∧ k = Z.of_nat (length hs') - Z.of_nat (length hs)
    end)).
  - case_decide; [|apply ends_ret; lia]. apply ends_ask. intros j. destruct (w_ksGet j cp) as [hs'|] eqn:Hj.
    + eapply ends_seq; [apply moves_addKeys|]. apply ends_ret. lia.
    + apply ends_quiet; [quiet|]. intros _. apply ends_quiet; [quiet|]. intros _.
      eapply ends_seq; [apply moves_finish|]. apply ends_ret. split_and!; [lia..|eauto].
  - intros [[q hs']|] n k Hnk.
    + destruct Hnk as [-> ->]. apply ends_quiet; [unfold dequeueMatching; quiet|]. intros _.
      apply ends_quiet; [unfold removeReprovide; quiet|]. intros _. do 3 (apply ends_quiet; [quiet|]; intros ?).
      apply ends_finish. split; [|left]; lia.
    + destruct Hnk as (-> & -> & Hl & j & Hj). apply ends_ret. split; [lia|]. right. exists i, j, cp, hs. split_and!; [lia|done..].
Qed.

(** The number of keys that remain is 0 if the keystore never fails. *)
Definition leaks (n k : Z) : Prop := n = 0 ∧ ((∀ i q, is_Some (w_ksGet i q)) → k = 0).

Lemma ends_mono {A} (P Q : A → Z → Z → Prop) (m : M A) : ends P m → (∀ r n k, P r n k → Q r n k) → ends Q m.
Proof. intros Hm H s r s' (n & k & HP & E)%Hm. eauto. Qed.

Lemma ends_reprovide_then p : ends (λ _, leaks) (batchReprovide p ;; emit EvReleaseWorker).
Proof.
  eapply ends_bind; [apply ends_batchReprovide|]. intros _ n k [-> Hk]. apply quiet_ends; [quiet|]. intros _.
  split; [lia|]. intros Hget. destruct Hk as [->|(i & j & cp & hs & _ & _ & _ & Hj)]; [lia|]. destruct (Hget j cp). congruence.
Qed.

Lemma ends_runTask n t : ends (λ _, leaks) (runTask n t).
Proof.
  destruct t as [p|p|p hs| |]; cbn [runTask]; [|apply ends_reprovide_then|apply quiet_ends; [|done]..].
  - apply ends_quiet; [quiet|]. intros []; [apply ends_reprovide_then|by apply ends_ret].
  - pose proof quiet_batchProvide. quiet.
  - quiet.
  - quiet.
Qed.

Lemma ends_execOp op : ends (λ _, leaks) (execOp op).
Proof.
  destruct op; cbn [execOp]; [apply quiet_ends; [|done]..|].
  - unfold ProvideOnce, closed. quiet.
  - unfold StartProviding, closed. quiet.
  - unfold StopProviding, closed. quiet.
  - unfold SP_Clear, closed. quiet.
  - unfold AddToSchedule, closed, isOffline. quiet.
  - quiet.
  - quiet.
  - unfold onOffline. quiet.
  - unfold runOnce, IsOnline. quiet.
  - unfold runPending. apply ends_quiet; [quiet|]. intros s. destruct (tasks s !! i); [|by apply ends_ret].
    apply ends_quiet; [quiet|]. intros _. apply ends_runTask.
Qed.

Lemma ends_ops (ops : list provOp) : ends (λ _, leaks) (forM ops execOp).
Proof.
  induction ops as [|op ops IH]; cbn [forM]; [by apply ends_ret|]. eapply ends_bind; [apply ends_execOp|].
  intros _ n k [-> Hk]. eapply ends_mono; [exact IH|]. intros _ n k' [-> Hk']. split; [done|]. intros Hget.
  by rewrite Hk, Hk'.
Qed.

Lemma New_ongoing resume now d (restored : @ProvideQueue DL mh) s :
  New resume now d restored = Some s → ongoing s = (mkOngoing 0 0, mkOngoing 0 0).
Proof.
  unfold New. destruct (if resume then _ else _) as [d1 c]. destruct (setCycleStart now resume d1) as [d2 st].
  set (s0 := mkProvider _ _ _ _ _ _ _ _ _ _ _ _ _ _ _ _ _ _). destruct resume; [by intros [= <-]|].
  destruct (gcReprovideHistoryIfNeeded maxTime s0) as [[r s1]|] eqn:E; [|done]. intros [= <-].
  assert (quiet (gcReprovideHistoryIfNeeded maxTime)) as Hq by (unfold gcReprovideHistoryIfNeeded, closed; quiet).
  by rewrite (Hq _ _ _ E).
Qed.

(** C37: the counters of the operations in progress.  After every sequence of calls,
    callbacks, events and goroutines that ran to their end, the counters of
    provides and the number of reprovides are 0, and so is the number of keys of
    reprovides if the keystore never fails: every path of a provide or a
    reprovide that adds to a counter subtracts the same. *)
Theorem ongoing_balanced resume now d (restored : @ProvideQueue DL mh) ops :
  pvqInv MhToBit256 restored →
  ∃ s, New resume now d restored = Some s ∧
    wp (forM ops execOp) (λ _ s',
      (ongoing s').1 = mkOngoing 0 0 ∧ opCount (ongoing s').2 = 0 ∧
      ((∀ i q, is_Some (w_ksGet i q)) → keyCount (ongoing s').2 = 0)) s.
Proof.
  intros Hq. destruct (New_spec resume now d restored Hq) as (s & HN & Hs & _). exists s. split; [done|].
  pose proof (New_ongoing _ _ _ _ _ HN) as H0.
  destruct (safe_forM ops execOp (λ op _, safe_execOp op) s Hs) as ([] & s' & E & _). exists tt, s'. split; [done|].
  destruct (ends_ops ops _ _ _ E) as (n & k & [-> Hk] & ->). rewrite H0. split_and!; [done..|]. intros Hget. by rewrite Hk.
Qed.
End batches.

(** ** The snapshot is right *)

Section snapshot.
Context {TL : TrieLib} {TLW : TrieLaws} {DL : DequeLib} {DLW : DequeLaws} {DSL : DsLib} {GF : GoFloat}.
Context {peerID mh addr : Type} {EP : EqDecision peerID} {CP : Countable peerID}.
Context {EM : EqDecision mh} {CM : Countable mh}.
Context {CFG : Config} {COK : ConfigOk} {W : World peerID mh addr} {WOK : WorldOk W}.
Context (startedAt : Z) (maxProvideConnsPerWorker : Z).
Context (w_LastStateChange : nat → Z) (w_ksSize : nat → option Z) (w_poolStats : nat → poolStats).

Abbreviation state := (@SweepingProvider DL DSL peerID mh addr).
Abbreviation M := (GoM state).
Implicit Types (s : state) (o : operationStats) (c : CycleStats).

(** Only the calls to the world were counted. *)
Definition unchanged s s' : Prop := ∃ n, s' = set_log n (events s) (tasks s) s.

Lemma unchanged_refl s : unchanged s s.
Proof. exists (calls s). by destruct s. Qed.

Lemma unchanged_ask s s' : unchanged s s' → unchanged s (set_log (S (calls s')) (events s') (tasks s') s').
Proof. intros [n ->]. by eexists. Qed.

(** A program that only reads, started when the provider was in the state [s0]:
    its result is in [P]. *)
Variable s0 : state.
Definition reads {A} (P : A → Prop) (m : M A) : Prop := ∀ s, unchanged s0 s → wp m (λ a s', unchanged s0 s' ∧ P a) s.

Lemma reads_state {B} (Q : B → Prop) (f : state → M B) : (∀ s, unchanged s0 s → reads Q (f s)) → reads Q (gets id ≫= f).
Proof. intros Hf s Hs. apply wp_bind, wp_gets. by apply Hf. Qed.

Lemma reads_ret {A} (P : A → Prop) x : P x → reads P (mret x).
Proof. intros HP s Hs. by apply wp_ret. Qed.

Lemma reads_bind {A B} (P : A → Prop) (Q : B → Prop) (m : M A) (f : A → M B) :
  reads P m → (∀ x, P x → reads Q (f x)) → reads Q (m ≫= f).
Proof. intros Hm Hf s Hs. apply wp_bind. eapply wp_mono; [by apply Hm|]. intros x s' [Hs' HP]. by apply Hf. Qed.

Lemma reads_ask {A} (f : nat → A) : reads (λ x, ∃ i, x = f i) (ask f).
Proof. intros s Hs. unfold ask. repeat wp_step. split; [by apply unchanged_ask|eauto]. Qed.

Lemma reads_lift {A} (P : A → Prop) (x : option A) : (∃ a, x = Some a ∧ P a) → reads P (liftO x).
Proof. intros (a & -> & Ha) s Hs. eapply wp_lift; [done|]. by split. Qed.

Lemma reads_mono {A} (P Q : A → Prop) (m : M A) : reads P m → (∀ a, P a → Q a) → reads Q m.
Proof. intros Hm H s Hs. eapply wp_mono; [by apply Hm|]. intros a s' [? ?]. auto. Qed.

(** The sum, the average and the coverage of well-formed statistics. *)
Definition total c : Z := foldl (λ sum v, wrap64 (sum + ce_val v)) 0 ((entries (cs_trie c)).*2).

Lemma cs_Sum_total c : csInv c → cs_Sum c = Some (total c).
Proof. intros (Hw & Hb & _). unfold cs_Sum, ValuesIter. by rewrite (trieIter_zeroKey []). Qed.

Lemma cs_Avg_total c : csInv c → ∃ a, cs_Avg c = Some a ∧ (a = None ↔ cs_trie c = Empty).
Proof.
  intros (Hw & Hb & _). unfold cs_Avg. destruct (IsEmptyLeaf _) eqn:E.
  - apply IsEmptyLeaf_true in E. by exists None.
  - unfold ValuesIter. rewrite (trieIter_zeroKey []) by done. eexists. split; [done|]. split; [done|].
    intros Ht. by rewrite Ht in E.
Qed.

Lemma reads_Sum c : csInv c → reads (λ v, v = total c) (liftO (cs_Sum c)).
Proof. intros Hc. apply reads_lift. eexists. split; [by apply cs_Sum_total|done]. Qed.

(** What a clean-up with this deadline, at some time, leaves. *)
Definition cleanedUp (deadline : Z) c c' : Prop :=
  csInv c' ∧ ∃ i, ∀ e, e ∈ entries (cs_trie c') ↔
    (e ∈ entries (cs_trie c) ∧ ¬ expired deadline (w_Now i) e) ∨
    (e ∈ entries (cs_queue c) ∧ ∃ e0, e0 ∈ entries (cs_trie c) ∧ expired deadline (w_Now i) e0 ∧ e0.1 ≼ e.1).

Lemma reads_Cleanup {B} (Q : B → Prop) c deadline (f : CycleStats → M B) :
  csInv c → (∀ c', cleanedUp deadline c c' → reads Q (f c')) →
  reads Q (now ← Now; c' ← liftO (Cleanup c deadline now); f c').
Proof.
  intros Hc Hf. eapply reads_bind; [apply reads_ask|]. intros now [i ->].
  eapply (reads_bind (cleanedUp deadline c)); [|exact Hf]. apply reads_lift.
  pose proof Hc as (_ & _ & Hwq & Hbq). destruct (Cleanup_spec c deadline (w_Now i) Hc) as (t & -> & Hw & Hb & He).
  eexists. split; [done|]. split; [done|]. exists i. intros e. cbn. rewrite He. setoid_rewrite elem_of_nil. naive_solver.
Qed.

Record opsOk o : Prop := {
  ok_kpr : csInv (keysPerReprovide o);
  ok_rd : csInv (reprovideDuration o);
  ok_peers : csInv (os_peers o);
  ok_reachable : csInv (os_reachable o);
}.

(** The statistics after [Stats]: three series are cleaned up with a deadline of a
    cycle, the delay, and an average duration. *)
Definition swept o o' : Prop :=
  ∃ avg, let deadline := wrap64 (reprovideInterval + maxReprovideDelay + avg) in
  cleanedUp deadline (keysPerReprovide o) (keysPerReprovide o') ∧
  cleanedUp deadline (os_peers o) (os_peers o') ∧
  cleanedUp deadline (os_reachable o) (os_reachable o') ∧
  csInv (reprovideDuration o') ∧
  (recordsProvided o', keysProvided o', keysFailed o', ongoingProvides o', ongoingReprovides o') =
  (recordsProvided o, keysProvided o, keysFailed o, ongoingProvides o, ongoingReprovides o).

Lemma reads_cleanupAll o : opsOk o → reads (swept o) (cleanupAll o).
Proof.
  intros []. unfold cleanupAll. apply reads_Cleanup; [done|]. intros rd [Hrd _].
  eapply reads_bind; [apply reads_lift, cs_Avg_total; done|]. intros avg _. cbv zeta.
  apply reads_Cleanup; [done|]. intros rd' [Hrd' _]. apply reads_Cleanup; [done|]. intros kpr Hk.
  apply reads_Cleanup; [done|]. intros pe Hp. apply reads_Cleanup; [done|]. intros re Hr.
  apply reads_ret. exists (f_int64 (quotient avg)). by split_and!.
Qed.

(** The operations and the network of the snapshot are those of the statistics. *)
Definition reported (og : OngoingOperations) o (r : Operations * Network) : Prop :=
  let '(ops, net) := r in
  Ongoing ops = og ∧
  RecordsProvided (Past ops) = recordsProvided o ∧ KeysProvided (Past ops) = keysProvided o ∧
  KeysFailed (Past ops) = keysFailed o ∧
  RegionReprovidedLastCycle (Past ops) = Z.of_nat (length (entries (cs_trie (reprovideDuration o)))) ∧
  Peers net = total (os_peers o) ∧ Reachable net = total (os_reachable o) ∧
  (CompleteKeyspaceCoverage net = true ↔ ∀ x, length x = KeyLen → covered x (cs_trie (os_peers o))).

Lemma reads_operationsInfo og o :
  opsOk o → reads (λ '(o', r), swept o o' ∧ reported og o' r) (operationsInfo og o).
Proof.
  intros Ho. unfold operationsInfo. eapply reads_bind; [by apply reads_cleanupAll|]. intros o1 (avg & Hk & Hp & Hr & Hd & Hc).
  do 2 (eapply reads_bind; [apply reads_ask|]; intros ? _; destruct (ts_Sum _ _)).
  eapply reads_bind; [apply reads_Sum, Hk|]. intros ks _.
  eapply reads_bind; [apply reads_Sum, Hd|]. intros ds _.
  eapply reads_bind; [apply reads_lift, cs_Avg_total, Hd|]. intros ? _.
  eapply reads_bind; [apply reads_lift, cs_Avg_total, Hk|]. intros ? _. cbv zeta.
  eapply reads_bind; [apply reads_Sum, Hp|]. intros ps Hps.
  eapply reads_bind; [apply reads_lift, KeyspaceCovered_spec; apply Hp|]. intros cov Hcov.
  eapply reads_bind; [apply reads_Sum, Hr|]. intros rs Hrs.
  do 2 (eapply reads_bind; [apply reads_ask|]; intros ? _). destruct (ts_Avg _ _ _).
  eapply reads_bind; [apply reads_ask|]; intros ? _. destruct (fAvg _ _). apply reads_ret.
  split; [by exists avg|]. split_and!; try done. cbn. unfold cs_Count. by rewrite Size_spec.
Qed.

Lemma count_fold (ks : list key) a n :
  (foldl (λ '(sum, n) k, (f_add sum (f_ofZ (Z.of_nat (length k))), n + 1)) (a, n) ks).2 = n + Z.of_nat (length ks).
Proof. revert a n. induction ks as [|k ks IH]; intros a n; cbn; [lia|]. rewrite IH. lia. Qed.

Lemma reads_scheduleInfo cached :
  provInv s0 →
  reads (λ '(n, _, k, f), n = Z.of_nat (length (keys (schedule s0))) ∧ k = scheduleCursor s0 ∧
    f = trie_Find (schedule s0) (scheduleCursor s0)) (scheduleInfo cached).
Proof.
  intros [[Hw Hb _ _ _ _ _ _] _]. apply reads_state. intros s [i ->]. cbv zeta. cbn [schedule scheduleCursor set_log].
  eapply (reads_bind (λ r, r.1 = Z.of_nat (length (keys (schedule s0))))); [|intros [n avg] Hn; by apply reads_ret].
  case_decide; [|apply reads_ret; cbn; by rewrite Size_spec, length_fmap].
  eapply reads_bind.
  { apply (reads_lift (λ l, length l = length (keys (schedule s0)))). unfold KeysIter. rewrite trieIter_ordered by (done || by apply bounded_order).
    eexists. split; [done|]. by rewrite ordered_Permutation. }
  intros ks Hks. pose proof (count_fold ks (f_ofZ 0) 0) as Hc. destruct (foldl _ _ ks) as [sum n]. apply reads_ret. cbn in *. lia.
Qed.

Lemma reads_offset : reads (λ t, ∃ j, t = timeOffset (w_Now j)) currentTimeOffset.
Proof. eapply reads_bind; [apply reads_ask|]. intros t [j ->]. apply reads_ret. eauto. Qed.

(** The time of the region at the cursor. *)
Definition nextAt i t : Prop :=
  (schedule s0 = Empty → t = zeroTime) ∧
  (schedule s0 ≠ Empty → ∃ d j, (scheduleCursor s0, d) ∈ entries (schedule s0) ∧
    t = time_Add (w_Now i) (timeBetween (timeOffset (w_Now j)) d)).

Lemma reads_next i :
  provInv s0 →
  reads (nextAt i)
    match trie_Find (schedule s0) (scheduleCursor s0) with
    | Some d => t ← timeUntil d; mret (time_Add (w_Now i) t)
    | None => mret zeroTime
    end.
Proof.
  intros [[Hw _ Hc _ _ _ _ _] _]. assert (admissible (schedule s0) (scheduleCursor s0)) as Ha.
  { destruct (decide (IsEmptyLeaf (schedule s0) = true)) as [He|He].
    - apply IsEmptyLeaf_true in He. rewrite He. by intros k ?%not_elem_of_nil.
    - apply (admissible_present []); [done|]. apply Hc. intros E. by rewrite E in He. }
  destruct (trie_Find _ _) as [d|] eqn:E.
  - apply Find_spec in E; [|done..]. eapply (reads_bind (λ t, ∃ j, t = timeBetween (timeOffset (w_Now j)) d)).
    { eapply reads_bind; [apply reads_offset|]. intros t [j ->]. apply reads_ret. eauto. }
    intros t [j ->]. apply reads_ret. split; [|by eauto]. intros He. rewrite He in E. by apply not_elem_of_nil in E.
  - apply reads_ret. split; [done|]. intros Hne.
    destruct (proj1 (list_elem_of_fmap _ _ _) (Hc Hne)) as ([k d] & Hk & Hd). cbn in Hk. subst k. apply (Find_spec _ _ _ _ Hw Ha) in Hd. congruence.
Qed.

(** The queues and the schedule of the snapshot are those of the provider. *)
Definition stateReported s (st : Stats) : Prop :=
  st_Queues st = mkQueues (Z.of_nat (length (keys (pvq_keys (provideQueue s)))))
    (Z.of_nat (length (contents (pvq_queue (provideQueue s))))) (Z.of_nat (length (contents (rq_queue (reprovideQueue s))))) ∧
  Regions (st_Schedule st) = Z.of_nat (length (keys (schedule s))) ∧
  NextReprovidePrefix (st_Schedule st) = scheduleCursor s ∧
  (schedule s = Empty → NextReprovideAt (st_Schedule st) = zeroTime) ∧
  (schedule s ≠ Empty → ∃ d i j, (scheduleCursor s, d) ∈ entries (schedule s) ∧
    NextReprovideAt (st_Schedule st) = time_Add (w_Now i) (timeBetween (timeOffset (w_Now j)) d)) ∧
  (∃ online, Status (st_Connectivity st) =
    if online : bool then "online"%string else if decide (0 ≤ cachedAvgPrefixLen s) then "disconnected"%string else "offline"%string).

End snapshot.

(** ** Examples *)

#[local] Existing Instance demoConfig_ok.
#[local] Existing Instance demoWorld_ok.
#[local] Existing Instance binary64.

(** Keys are provided, the timer fires and the goroutines run. *)
Lemma ongoing_balanced_witness :
  let CFG := demoConfig 2 in
  let W := demoWorld [nodeOf 1; nodeOf 6; nodeOf 12] (λ _ _, Some [nodeOf 3; nodeOf 5; nodeOf 9]) demoClock in
  ∃ s : demoState, New false (demoClock 0) (mkMemStore ∅ []) NewProvideQueue = Some s ∧
    wp (forM [OpOnline 3; OpStartProviding true [nodeOf 3; nodeOf 5; nodeOf 9]; OpTask 0 9; OpTask 0 9;
              OpRun ScheduleTimer; OpTask 0 9; OpTask 0 9] execOp)
      (λ _ s', ongoing s' = (mkOngoing 0 0, mkOngoing 0 0)) s.
Proof.
  intros CFG W. destruct (ongoing_balanced (DL := listDeque) (DSL := memDs) (CFG := CFG) (W := W) false (demoClock 0) (mkMemStore ∅ []) NewProvideQueue
    [OpOnline 3; OpStartProviding true [nodeOf 3; nodeOf 5; nodeOf 9]; OpTask 0 9; OpTask 0 9;
     OpRun ScheduleTimer; OpTask 0 9; OpTask 0 9]) as (s & HN & Hs); [apply NewProvideQueue_inv|].
  exists s. split; [exact HN|]. eapply wp_mono; [exact Hs|]. intros [] s' (H1 & H2 & H3).
  specialize (H3 (λ i q, ex_intro _ _ eq_refl)). destruct (ongoing s') as [c1 [n k]]. cbn in *. by subst.
Defined.

(** When the second call to the keystore fails, the number of keys of reprovides
    in progress is never reduced: the three keys of the reprovide remain. *)
Theorem batchReprovide_leaks_keys :
  let CFG := demoConfig 2 in
  let hs := [nodeOf 8; nodeOf 9; nodeOf 10] in
  match batchReprovide (W := demoWorld [nodeOf 8; nodeOf 12] (failingStore 5 hs) demoClock) (bitstr "10") demoRunning with
  | Some (_, s) => ongoing s = (mkOngoing 0 0, mkOngoing 0 3)
  | None => False
  end.
Proof. by vm_compute. Qed.

(** Statistics of two regions, the older one of the last cycle but one. *)
Definition demoOps : operationStats :=
  let c a b := mkCycleStats (mkTrie [(bitstr "0", mkCsEntry (demoClock 0 - 30 * Hour) a); (bitstr "1", mkCsEntry (demoClock 0 - Hour) b)]) Empty Hour in
  mkOpStats 5 4 1 (mkOngoing 0 0) (mkOngoing 1 3) (ts_Add (NewTimeSeries (22 * Hour)) 4 (demoClock 0))
    (ts_Add (NewTimeSeries (22 * Hour)) (2 * Minute) (demoClock 0)) (c 6 8) (c Minute Minute) (c 20 22) (c 18 21)
    (NewTimeSeries (22 * Hour)) (fAddWeighted (NewFloatTimeSeries (22 * Hour)) (f_ofZ 2) 4 (demoClock 0)).

Definition demoPool : poolStats := mkPoolStats 4 (λ _, 1) (λ _, 1) (λ _, 0).


(** The older region is left out; two keys a minute are provided, and eight in the
    minute of the last reprovide. *)
Example Stats_demo :
  match SP_Stats (CFG := demoConfig 2) (W := demoWorld [nodeOf 8; nodeOf 12] (λ _ _, None) demoClock)
          0 16 (λ _, 0) (λ _, Some 9) (λ _, demoPool) demoOps demoRunning with
  | Some ((_, st), _) =>
      Status (st_Connectivity st) = "online"%string ∧ Peers (st_Network st) = 22 ∧ Reachable (st_Network st) = 21 ∧
      CompleteKeyspaceCoverage (st_Network st) = false ∧
      RegionReprovidedLastCycle (Past (st_Operations st)) = 1 ∧
      f_int64 (KeysProvidedPerMinute (Past (st_Operations st))) = 2 ∧
      f_int64 (KeysReprovidedPerMinute (Past (st_Operations st))) = 8
  | None => False
  end.
Proof. vm_compute. done. Qed.
