(* ===== verification/FullRTNew.v ===== *)
(** * The constructor and the crawl loop of the full routing table client

    [fullrt/options.go], and [NewFullRT], [runCrawler], [runSubscriber], [Ready]
    and [Stat] of [fullrt/dht.go].

    The loop of [runCrawler] is a machine: a trigger starts a crawl, the
    callbacks of the crawler record peers, and the end of a crawl publishes the
    three tables one after the other, each under its own lock, so that readers
    can run between.  What the crawler finds, the filter of routing tables and
    the addresses of the peerstore come with the events.  The configuration of
    the DHT is that of [Config]; the success fraction is a number of IEEE 754. *)

From S2P Require Import Prelude GoTime Message Config FullRT.
From Stdlib Require Import SpecFloat.

Local Open Scope Z_scope.

(** ** Options *)

Inductive frtErr :=
| ErrFrtOption (i : nat) (e : frtErr) | ErrWaitFraction | ErrParallelism
| ErrDht (e : cfgErr) | ErrSubscription | ErrProviderManager.

(** [f <= 0] and [f > 1] *)
Definition f_le0 (f : spec_float) : bool := SFleb f (S754_zero false).
Definition f_gt1 (f : spec_float) : bool := SFltb (S754_finite false 1 0) f.

(** 0.3 *)
Definition defaultWaitFrac : spec_float := S754_finite false 5404319552844595 (-54).
Definition DefaultMaxPeersPerIPGroup : Z := 3.

Section fullrt.
Context {ML : MaLib} {Obj : Type}.
#[local] Abbreviation DhtOption := (@Option Obj AddrInfo).
#[local] Abbreviation DhtConfig := (@Config Obj AddrInfo).
#[local] Abbreviation heap := (@heap Obj).

(** A crawler of the caller, or the default one with its parallelism. *)
Inductive crawlerArg := CustomCrawler (o : Obj) | DefaultCrawler (parallelism : Z).

(** [config] *)
Record frtConfig := mkFrtConfig {
  fc_dhtOpts : list DhtOption;
  fc_crawlInterval : Z;
  fc_waitFrac : spec_float;
  fc_bulkSendParallelism : Z;
  fc_timeoutPerOp : Z;
  fc_crawler : option crawlerArg;
  fc_pmOpts : list Obj;
  fc_ipDiversityFilterLimit : Z;
}.
Implicit Types (c : frtConfig).

Definition frtOption := frtConfig → frtErr + frtConfig.

Definition frt_DHTOption (opts : list DhtOption) : frtOption := λ c, inr (mkFrtConfig (fc_dhtOpts c ++ opts) (fc_crawlInterval c)
  (fc_waitFrac c) (fc_bulkSendParallelism c) (fc_timeoutPerOp c) (fc_crawler c) (fc_pmOpts c) (fc_ipDiversityFilterLimit c)).
Definition WithCrawler (cr : option crawlerArg) : frtOption := λ c, inr (mkFrtConfig (fc_dhtOpts c) (fc_crawlInterval c)
  (fc_waitFrac c) (fc_bulkSendParallelism c) (fc_timeoutPerOp c) cr (fc_pmOpts c) (fc_ipDiversityFilterLimit c)).
Definition WithCrawlInterval (i : Z) : frtOption := λ c, inr (mkFrtConfig (fc_dhtOpts c) i
  (fc_waitFrac c) (fc_bulkSendParallelism c) (fc_timeoutPerOp c) (fc_crawler c) (fc_pmOpts c) (fc_ipDiversityFilterLimit c)).
Definition WithSuccessWaitFraction (f : spec_float) : frtOption := λ c,
  if f_le0 f || f_gt1 f then inl ErrWaitFraction
  else inr (mkFrtConfig (fc_dhtOpts c) (fc_crawlInterval c)
    f (fc_bulkSendParallelism c) (fc_timeoutPerOp c) (fc_crawler c) (fc_pmOpts c) (fc_ipDiversityFilterLimit c)).
Definition WithBulkSendParallelism (b : Z) : frtOption := λ c,
  if decide (b < 1) then inl ErrParallelism
  else inr (mkFrtConfig (fc_dhtOpts c) (fc_crawlInterval c)
    (fc_waitFrac c) b (fc_timeoutPerOp c) (fc_crawler c) (fc_pmOpts c) (fc_ipDiversityFilterLimit c)).
Definition WithTimeoutPerOperation (t : Z) : frtOption := λ c, inr (mkFrtConfig (fc_dhtOpts c) (fc_crawlInterval c)
  (fc_waitFrac c) (fc_bulkSendParallelism c) t (fc_crawler c) (fc_pmOpts c) (fc_ipDiversityFilterLimit c)).
Definition WithProviderManagerOptions (pmOpts : list Obj) : frtOption := λ c, inr (mkFrtConfig (fc_dhtOpts c) (fc_crawlInterval c)
  (fc_waitFrac c) (fc_bulkSendParallelism c) (fc_timeoutPerOp c) (fc_crawler c) pmOpts (fc_ipDiversityFilterLimit c)).
Definition WithIPDiversityFilterLimit (n : Z) : frtOption := λ c, inr (mkFrtConfig (fc_dhtOpts c) (fc_crawlInterval c)
  (fc_waitFrac c) (fc_bulkSendParallelism c) (fc_timeoutPerOp c) (fc_crawler c) (fc_pmOpts c) n).

(** [apply] *)
Fixpoint frtApplyFrom (i : nat) (opts : list frtOption) c : frtErr + frtConfig :=
  match opts with
  | [] => inr c
  | o :: opts => match o c with inl e => inl (ErrFrtOption i e) | inr c => frtApplyFrom (S i) opts c end
  end.
Definition frtApply (opts : list frtOption) c : frtErr + frtConfig := frtApplyFrom 0 opts c.

(** The configuration that [NewFullRT] starts with. *)
Definition frtDefaults : frtConfig := mkFrtConfig [] Hour defaultWaitFrac 20 (5 * Second) None [] DefaultMaxPeersPerIPGroup.

(** ** The constructor *)

(** The constructors of the default datastore and message sender, a call of a
    builder of message senders, the result of a function for bootstrap peers;
    whether the subscription to events and the provider manager succeed. *)
Context (newMapDatastore NewMessageSenderImpl : Obj) (buildSender : Obj → list string → Obj) (callPeers : Obj → list AddrInfo).
Context (subscribe : bool) (newProviderManager : option Obj → list Obj → bool).

(** The configuration of the DHT. *)
Definition frtDhtConfig (peerstore : Obj) (protocolPrefix : string) (dhtOpts : list DhtOption) : cfgM DhtConfig :=
  l ← newMap;
  cfg ← Apply (mkCfg (Some newMapDatastore) (Some (Namespaced (Some l))) false 0 protocolPrefix EmptyString 0 0 0 0 true true None None 0
                 (Some NewMessageSenderImpl) (mkRtCfg 0 0 false 0 0 None None) None None None false false false 0) dhtOpts;
  ApplyFallbacks peerstore cfg ;;
  Validate cfg ;;
  mret cfg.

(** The fields of [FullRT] that the constructor sets; the tables are empty. *)
Record FullRT := mkFullRT {
  f_enableValues : bool;
  f_enableProviders : bool;
  f_Validator : option (@validator Obj);
  f_datastore : option Obj;
  f_crawler : crawlerArg;
  f_messageSender : Obj;
  f_bucketSize : Z;
  f_bootstrapPeers : list AddrInfo;
  f_waitFrac : spec_float;
  f_timeoutPerOp : Z;
  f_crawlerInterval : Z;
  f_bulkSendParallelism : Z;
  f_ipDiversityFilterLimit : Z;
}.

Inductive frtRes := FrtOk (d : FullRT) | FrtErr (e : frtErr) | FrtPanic.

(** [NewFullRT]: also whether a subscription is open when it returns.  The field
    [ipDiversityFilterLimit] is not set. *)
Definition NewFullRT (peerstore : Obj) (protocolPrefix : string) (options : list frtOption) (h : heap) : frtRes * bool * heap :=
  match frtApply options frtDefaults with
  | inl e => (FrtErr e, false, h)
  | inr fullrtcfg =>
      match frtDhtConfig peerstore protocolPrefix (fc_dhtOpts fullrtcfg) h with
      | (Err e, h) => (FrtErr (ErrDht e), false, h)
      | (Panic, h) => (FrtPanic, false, h)
      | (Ok dhtcfg, h) =>
          match c_MsgSenderBuilder dhtcfg with
          | None => (FrtPanic, false, h)
          | Some b =>
              let ms := buildSender b [ProtocolID] in
              let crawler := match fc_crawler fullrtcfg with Some cr => cr | None => DefaultCrawler 200 end in
              if negb subscribe then (FrtErr ErrSubscription, false, h)
              else if negb (newProviderManager (c_Datastore dhtcfg) (fc_pmOpts fullrtcfg)) then (FrtErr ErrProviderManager, true, h)
              else
                match c_BootstrapPeers dhtcfg with
                | None => (FrtPanic, true, h)
                | Some f =>
                    let bsPeers := match f with ConstPeers l => l | FuncPeers o => callPeers o end in
                    (FrtOk (mkFullRT (c_EnableValues dhtcfg) (c_EnableProviders dhtcfg) (c_Validator dhtcfg) (c_Datastore dhtcfg) crawler ms
                              (c_BucketSize dhtcfg) bsPeers (fc_waitFrac fullrtcfg) (fc_timeoutPerOp fullrtcfg) (fc_crawlInterval fullrtcfg)
                              (fc_bulkSendParallelism fullrtcfg) 0), true, h)
                end
          end
      end
  end.

(** ** The constructor is right *)

(** The options with their arguments. *)
Inductive frtArg :=
| A_DHTOption (opts : list DhtOption) | A_Crawler (cr : option crawlerArg) | A_CrawlInterval (i : Z) | A_WaitFraction (f : spec_float)
| A_Parallelism (b : Z) | A_Timeout (t : Z) | A_PMOptions (l : list Obj) | A_Limit (n : Z).

Definition frtDenote (a : frtArg) : frtOption :=
  match a with
  | A_DHTOption opts => frt_DHTOption opts
  | A_Crawler cr => WithCrawler cr
  | A_CrawlInterval i => WithCrawlInterval i
  | A_WaitFraction f => WithSuccessWaitFraction f
  | A_Parallelism b => WithBulkSendParallelism b
  | A_Timeout t => WithTimeoutPerOperation t
  | A_PMOptions l => WithProviderManagerOptions l
  | A_Limit n => WithIPDiversityFilterLimit n
  end.

(** The options that fail. *)
Definition badArg (a : frtArg) : option frtErr :=
  match a with
  | A_WaitFraction f => if f_le0 f || f_gt1 f then Some ErrWaitFraction else None
  | A_Parallelism b => if decide (b < 1) then Some ErrParallelism else None
  | _ => None
  end.

(** The last value that an option gives. *)
Definition lastArg {A} (f : frtArg → option A) (d : A) (l : list frtArg) : A := foldl (λ x a, default x (f a)) d l.

(** The configuration after the options: every field has the last value that an
    option gives, and the options for the DHT are concatenated. *)
Definition configured (l : list frtArg) c : frtConfig := mkFrtConfig
  (fc_dhtOpts c ++ (l ≫= λ a, match a with A_DHTOption opts => opts | _ => [] end))
  (lastArg (λ a, match a with A_CrawlInterval i => Some i | _ => None end) (fc_crawlInterval c) l)
  (lastArg (λ a, match a with A_WaitFraction f => Some f | _ => None end) (fc_waitFrac c) l)
  (lastArg (λ a, match a with A_Parallelism b => Some b | _ => None end) (fc_bulkSendParallelism c) l)
  (lastArg (λ a, match a with A_Timeout t => Some t | _ => None end) (fc_timeoutPerOp c) l)
  (lastArg (λ a, match a with A_Crawler cr => Some cr | _ => None end) (fc_crawler c) l)
  (lastArg (λ a, match a with A_PMOptions o => Some o | _ => None end) (fc_pmOpts c) l)
  (lastArg (λ a, match a with A_Limit n => Some n | _ => None end) (fc_ipDiversityFilterLimit c) l).

Lemma frtDenote_spec a c : frtDenote a c = match badArg a with Some e => inl e | None => inr (configured [a] c) end.
Proof. destruct a; cbn; unfold configured, lastArg, WithSuccessWaitFraction, WithBulkSendParallelism; cbn; rewrite ?app_nil_r; repeat case_match; done. Qed.

Lemma configured_cons a l c : configured l (configured [a] c) = configured (a :: l) c.
Proof. unfold configured, lastArg. cbn. by rewrite app_nil_r, <-app_assoc. Qed.

Lemma frtApplyFrom_spec i l c :
  match frtApplyFrom i (frtDenote <$> l) c with
  | inl e => ∃ l1 a l2 e', l = l1 ++ a :: l2 ∧ Forall (λ x, badArg x = None) l1 ∧ badArg a = Some e' ∧ e = ErrFrtOption (i + length l1) e'
  | inr c' => Forall (λ x, badArg x = None) l ∧ c' = configured l c
  end.
Proof.
  revert i c. induction l as [|a l IH]; intros i c; cbn [frtApplyFrom fmap list_fmap].
  { split; [done|]. destruct c. unfold configured, lastArg. cbn. by rewrite app_nil_r. }
  rewrite frtDenote_spec. destruct (badArg a) as [e|] eqn:Ha.
  - exists [], a, l, e. split_and!; [done..|]. f_equal. cbn. lia.
  - specialize (IH (S i) (configured [a] c)). destruct (frtApplyFrom _ _ _) as [e|c'].
    + destruct IH as (l1 & x & l2 & e' & -> & H1 & H2 & ->). exists (a :: l1), x, l2, e'. split_and!; [done|by constructor|done|].
      f_equal. cbn. lia.
    + destruct IH as [H1 ->]. split; [by constructor|]. apply configured_cons.
Qed.

Lemma frtDhtConfig_valid ks prefix opts h cfg h' :
  frtDhtConfig ks prefix opts h = (Ok cfg, h') → c_ProtocolPrefix cfg = DefaultPrefix → validConfig cfg h'.
Proof.
  unfold frtDhtConfig. unfold mbind at 1, cfgM_bind at 1. cbn [newMap]. unfold mbind at 1, cfgM_bind at 1.
  destruct (Apply _ opts _) as [[c|e|] h1]; try done. unfold mbind at 1, cfgM_bind at 1.
  destruct (ApplyFallbacks ks c h1) as [[[]|e|] h2]; try done. unfold mbind at 1, cfgM_bind at 1.
  destruct (Validate_spec c h2) as [[-> Hv]|(e & -> & _)]; [|done]. by intros [= <- <-].
Qed.

Lemma lastArg_bound l d :
  Forall (λ x, badArg x = None) l → 1 ≤ d → 1 ≤ lastArg (λ a, match a with A_Parallelism b => Some b | _ => None end) d l.
Proof.
  intros Hl. revert d. induction Hl as [|a l Ha Hl IH]; intros d Hd; [done|]. apply IH. destruct a; cbn in *; try done.
  case_decide; [done|lia].
Qed.

(** The constructor of the full routing table client.  It fails at the first option
    with an argument that is not allowed, or with the configuration of the DHT;
    otherwise the settings are the last that the options give, with a
    parallelism of at least 1, and a client with the prefix of the Amino DHT has
    its bucket size, providers, values and validators.  The messages use the
    Amino protocol whatever the prefix, and the limit of peers per IP group is 0
    whatever the options. *)
Theorem NewFullRT_correct ks prefix l h :
  let c := configured l frtDefaults in
  match NewFullRT ks prefix (frtDenote <$> l) h with
  | (FrtOk d, sub, h') =>
      sub = true ∧ Forall (λ x, badArg x = None) l ∧
      f_waitFrac d = fc_waitFrac c ∧ f_timeoutPerOp d = fc_timeoutPerOp c ∧ f_crawlerInterval d = fc_crawlInterval c ∧
      f_bulkSendParallelism d = fc_bulkSendParallelism c ∧ 1 ≤ f_bulkSendParallelism d ∧
      f_crawler d = default (DefaultCrawler 200) (fc_crawler c) ∧
      (∃ b, f_messageSender d = buildSender b [ProtocolID]) ∧ f_ipDiversityFilterLimit d = 0 ∧
      ∃ cfg, frtDhtConfig ks prefix (fc_dhtOpts c) h = (Ok cfg, h') ∧ f_bucketSize d = c_BucketSize cfg ∧
        (c_ProtocolPrefix cfg = DefaultPrefix →
          f_bucketSize d = 20 ∧ f_enableProviders d = true ∧ f_enableValues d = true ∧
          ∃ m keyBook, f_Validator d = Some (Namespaced m) ∧ mapAt h' m = aminoValidators keyBook)
  | (FrtErr (ErrFrtOption i e), sub, h') =>
      sub = false ∧ h' = h ∧ ∃ a, l !! i = Some a ∧ badArg a = Some e ∧ Forall (λ x, badArg x = None) (take i l)
  | (FrtErr e, sub, h') => Forall (λ x, badArg x = None) l ∧ (sub = true ↔ e = ErrProviderManager)
  | (FrtPanic, _, _) => Forall (λ x, badArg x = None) l
  end.
Proof.
  intros c. unfold NewFullRT, frtApply. pose proof (frtApplyFrom_spec 0 l frtDefaults) as Hsp.
  destruct (frtApplyFrom 0 _ _) as [e|c'].
  { destruct Hsp as (l1 & a & l2 & e' & -> & H1 & H2 & ->). split_and!; [done..|]. exists a. cbn.
    rewrite lookup_app_r, Nat.sub_diag, take_app_length by lia. done. }
  destruct Hsp as [Hok ->]. fold c. destruct (frtDhtConfig ks prefix (fc_dhtOpts c) h) as [[cfg|e|] h1] eqn:Hd; [|by split|done].
  destruct (c_MsgSenderBuilder cfg) as [b|]; [|done]. destruct subscribe; cbn [negb]; [|by split].
  destruct (newProviderManager _ _); cbn [negb]; [|by split]. destruct (c_BootstrapPeers cfg) as [f|]; [|done].
  split_and!; cbn [f_waitFrac f_timeoutPerOp f_crawlerInterval f_bulkSendParallelism f_crawler f_messageSender]; try done.
  - apply lastArg_bound; [done|cbn; lia].
  - eauto.
  - exists cfg. split; [done|]. split; [done|]. intros Hp. by apply (frtDhtConfig_valid _ _ _ _ _ _ Hd).
Qed.
End fullrt.

(** ** The crawl loop *)

Section crawl.
Context {K A : Type} `{Countable K}.
(** The key of a peer in the routing table, and the bootstrap peers. *)
Context (kadKey : peerID → K) (bootstrapPeers : list peerID).

(** Where the goroutine of [runCrawler] is. *)
Inductive loopPhase := CrWaiting | CrCrawling | CrAddrs | CrKeys | CrTable | CrStopped.

Record frtLoop := mkFrtLoop {
  cr_phase : loopPhase;
  cr_initial : bool;                          (* the token of [initialTrigger] *)
  cr_seeds : list peerID;                     (* the starting peers of the last crawl *)
  foundPeers : gmap peerID (list A);
  cr_peerAddrs : gmap peerID (list A);
  cr_keyToPeerMap : gmap K peerID;
  cr_rt : list K;
  cr_lastCrawlTime : Z;
}.
Implicit Types (s : frtLoop).

Definition loopInit : frtLoop := mkFrtLoop CrWaiting true [] ∅ ∅ ∅ [] zeroTime.

(** The events of the loop: the ticker or [TriggerRefresh], the initial trigger, a
    peer that answered with the answers of the filter and the peerstore, one that
    failed, the end of the crawl, the three tables and the end of the context. *)
Inductive frtEvent :=
| EvTrigger | EvInitial | EvSuccess (p : peerID) (keep : bool) (addrs : list A) | EvFail (p : peerID) | EvCrawlDone
| EvAddrs | EvKeys | EvTable (now : Z) | EvDone.

(** The start of a crawl. *)
Definition startCrawl s (initial : bool) : frtLoop :=
  mkFrtLoop CrCrawling initial ((map_to_list (foundPeers s)).*1 ++ bootstrapPeers) ∅
    (cr_peerAddrs s) (cr_keyToPeerMap s) (cr_rt s) (cr_lastCrawlTime s).

Definition set_phase ph s : frtLoop :=
  mkFrtLoop ph (cr_initial s) (cr_seeds s) (foundPeers s) (cr_peerAddrs s) (cr_keyToPeerMap s) (cr_rt s) (cr_lastCrawlTime s).

(** One step of [runCrawler]; [None] if it is not possible. *)
Definition loopStep s (ev : frtEvent) : option frtLoop :=
  let '(addrs, m, keys) := crawlTables kadKey (foundPeers s) in
  match cr_phase s, ev with
  | CrWaiting, EvTrigger => Some (startCrawl s (cr_initial s))
  | CrWaiting, EvInitial => if cr_initial s then Some (startCrawl s false) else None
  | CrWaiting, EvDone => Some (set_phase CrStopped s)
  | CrCrawling, EvSuccess p keep a =>
      if keep : bool then
        Some (mkFrtLoop CrCrawling (cr_initial s) (cr_seeds s) (<[p := a]> (foundPeers s)) (cr_peerAddrs s) (cr_keyToPeerMap s) (cr_rt s) (cr_lastCrawlTime s))
      else Some s
  | CrCrawling, EvFail _ => Some s
  | CrCrawling, EvCrawlDone => Some (set_phase CrAddrs s)
  | CrAddrs, EvAddrs =>
      Some (mkFrtLoop CrKeys (cr_initial s) (cr_seeds s) (foundPeers s) addrs (cr_keyToPeerMap s) (cr_rt s) (cr_lastCrawlTime s))
  | CrKeys, EvKeys =>
      Some (mkFrtLoop CrTable (cr_initial s) (cr_seeds s) (foundPeers s) (cr_peerAddrs s) m (cr_rt s) (cr_lastCrawlTime s))
  | CrTable, EvTable now =>
      Some (mkFrtLoop CrWaiting (cr_initial s) (cr_seeds s) (foundPeers s) (cr_peerAddrs s) (cr_keyToPeerMap s) keys now)
  | _, _ => None
  end.

Fixpoint loopRun s (evs : list frtEvent) : option frtLoop :=
  match evs with
  | [] => Some s
  | ev :: evs => s ← loopStep s ev; loopRun s evs
  end.

(** [Ready] and [Stat] *)
Definition frtReady (now crawlerInterval : Z) s : bool :=
  Ready now (cr_lastCrawlTime s) crawlerInterval (size (cr_keyToPeerMap s)) (length bootstrapPeers).
Definition Stat s : gmap K peerID := cr_keyToPeerMap s.

(** [runSubscriber]: the peers of which the message sender is told, if it wants to
    know; an event is a peer and whether it is connected, or of another type. *)
Definition runSubscriber (withDisconnect : bool) (evs : list (option (peerID * bool))) : list peerID :=
  if withDisconnect then omap (λ e, match e with Some (p, false) => Some p | _ => None end) evs else [].

(** *** The tables are those of the last crawl *)

(** The peers of each crawl that has ended, and those of the current one. *)
Definition keptStep (c : list (gmap peerID (list A)) * gmap peerID (list A)) (ev : frtEvent) :=
  match ev with
  | EvTrigger | EvInitial => (c.1, ∅)
  | EvSuccess p true a => (c.1, <[p := a]> c.2)
  | EvTable _ => (c.1 ++ [c.2], c.2)
  | _ => c
  end.
Definition kept (evs : list frtEvent) := foldl keptStep ([], ∅) evs.
Definition lastCrawl (crawls : list (gmap peerID (list A))) : gmap peerID (list A) := default ∅ (last crawls).

(** Which of the tables are those of the current crawl already. *)
Definition tablesAt (prev cur : gmap peerID (list A)) (ph : loopPhase) : gmap peerID (list A) * gmap K peerID * list K :=
  let '(a, m, r) := crawlTables kadKey prev in
  let '(a', m', r') := crawlTables kadKey cur in
  match ph with CrKeys => (a', m, r) | CrTable => (a', m', r) | _ => (a, m, r) end.

Definition loopInv (c : list (gmap peerID (list A)) * gmap peerID (list A)) s : Prop :=
  let prev := lastCrawl c.1 in
  foundPeers s = c.2 ∧
  (cr_peerAddrs s, cr_keyToPeerMap s, cr_rt s) = tablesAt prev c.2 (cr_phase s) ∧
  match cr_phase s with
  | CrWaiting | CrStopped => c.2 = prev
  | _ => cr_seeds s = (map_to_list prev).*1 ++ bootstrapPeers
  end.

Lemma lastCrawl_snoc l x : lastCrawl (l ++ [x]) = x.
Proof. unfold lastCrawl. by rewrite last_snoc. Qed.

Lemma loopStep_inv c s ev s' : loopInv c s → loopStep s ev = Some s' → loopInv (keptStep c ev) s'.
Proof.
  destruct c as [crawls cur]. unfold loopInv. cbn [fst snd]. intros (Hf & Ht & Hp). unfold loopStep. rewrite Hf. unfold tablesAt in *.
  destruct (crawlTables kadKey cur) as [[a' m'] r'] eqn:Ec. destruct (crawlTables kadKey (lastCrawl crawls)) as [[a m] r] eqn:El.
  destruct (cr_phase s) eqn:Hph, ev as [| |p keep addrs|p| | | |now|]; try done; try (destruct (cr_initial s); [|done]);
    try (destruct keep); intros [= <-]; cbn [keptStep fst snd startCrawl set_phase foundPeers cr_peerAddrs cr_keyToPeerMap cr_rt cr_phase cr_seeds];
    injection Ht as Ha Hm Hr; rewrite ?Hph, ?lastCrawl_snoc, ?El, ?Ec, ?Ha, ?Hm, ?Hr, ?Hf, ?Hp; try done.
Qed.

Lemma loopRun_inv c s evs s' : loopInv c s → loopRun s evs = Some s' → loopInv (foldl keptStep c evs) s'.
Proof.
  revert c s. induction evs as [|ev evs IH]; intros c s Hi; cbn [loopRun foldl]; [by intros [= <-]|].
  destruct (loopStep s ev) as [s1|] eqn:E; [|done]. apply IH. by eapply loopStep_inv.
Qed.

(** C39: the routing table of the full routing table client.  In every state of the
    loop of crawls: unless it is publishing the tables of a crawl, these are
    exactly those of the last crawl, that is the peers that answered and passed
    the filter, with the addresses that were found, and every key of the routing
    table has its peer and every peer its key and addresses; while it publishes,
    the addresses are never older than the peers, nor these than the routing
    table, and each is of the last crawl or of the one before; and a crawl starts
    from the peers of the last one and the bootstrap peers. *)
Theorem runCrawler_correct evs s :
  Inj (=) (=) kadKey → loopRun loopInit evs = Some s →
  let prev := lastCrawl (kept evs).1 in
  (cr_peerAddrs s, cr_keyToPeerMap s, cr_rt s) = tablesAt prev (kept evs).2 (cr_phase s) ∧
  (cr_phase s ≠ CrKeys → cr_phase s ≠ CrTable →
    cr_peerAddrs s = prev ∧ NoDup (cr_rt s) ∧ (∀ k, k ∈ cr_rt s ↔ is_Some (cr_keyToPeerMap s !! k)) ∧
    ∀ k p, cr_keyToPeerMap s !! k = Some p ↔ k = kadKey p ∧ is_Some (prev !! p)) ∧
  (cr_phase s = CrCrawling → cr_seeds s = (map_to_list prev).*1 ++ bootstrapPeers).
Proof.
  intros Hinj Hrun prev. assert (loopInv ([], ∅) loopInit) as H0 by (split_and!; done).
  destruct (loopRun_inv _ _ _ _ H0 Hrun) as (_ & Ht & Hp). fold (kept evs) prev in Ht, Hp. split_and!; [done| |].
  - intros H1 H2. pose proof (crawlTables_consistent kadKey prev Hinj) as Hc. unfold tablesAt in Ht.
    destruct (crawlTables kadKey prev) as [[a m] r] eqn:Ep, (crawlTables kadKey (kept evs).2) as [[a' m'] r'].
    assert ((cr_peerAddrs s, cr_keyToPeerMap s, cr_rt s) = (a, m, r)) as [= -> -> ->] by (by destruct (cr_phase s)).
    destruct Hc as (Hc1 & Hc2 & Hc3). injection Ep as <- _ _. by split_and!.
  - intros Hph. by rewrite Hph in Hp.
Qed.
End crawl.

(** ** Examples *)

(** Two crawls: the second starts from the peer that the first kept. *)
Definition demoCrawls : list (@frtEvent nat) :=
  [EvInitial; EvSuccess [1%Z] true [10%nat]; EvSuccess [2%Z] false [20%nat]; EvFail [3%Z]; EvCrawlDone; EvAddrs; EvKeys; EvTable 50;
   EvTrigger; EvSuccess [4%Z] true [40%nat]; EvCrawlDone; EvAddrs].

Lemma runCrawler_correct_witness :
  ∃ s, loopRun id [[9%Z]] (loopInit (K := peerID)) demoCrawls = Some s ∧ cr_seeds s = [[1]; [9]]%Z ∧
    (cr_peerAddrs s, cr_keyToPeerMap s, cr_rt s) = tablesAt id {[ [1%Z] := [10%nat] ]} {[ [4%Z] := [40%nat] ]} CrKeys.
Proof.
  destruct (loopRun id [[9%Z]] (loopInit (K := peerID)) demoCrawls) as [s|] eqn:E; [|by vm_compute in E]. exists s. split; [done|].
  destruct (runCrawler_correct id [[9%Z]] demoCrawls s _ E) as [Ht _].
  vm_compute in E. injection E as <-. split; [by vm_compute|]. exact Ht.
Defined.

Definition frtMa : MaLib := {| MA := list Z; ma_Bytes := id; NewMultiaddrBytes := λ b, Some b |}.

(** A fraction that is not a number is accepted. *)
Lemma WithSuccessWaitFraction_nan : badArg (ML := frtMa) (Obj := nat) (A_WaitFraction S754_nan) = None.
Proof. reflexivity. Qed.

(** Without bootstrap peers the constructor panics. *)
Lemma NewFullRT_panics :
  let h := mkHeap 0 ∅ in
  (NewFullRT (ML := frtMa) (Obj := nat) 1%nat 2%nat (λ _ _, 3%nat) (λ _, []) true (λ _ _, true) 4%nat "/test" [] h).1.1 = FrtPanic.
Proof. vm_compute. reflexivity. Qed.

(** With an option for a limit of 2 peers per IP group, the client has none. *)
Lemma NewFullRT_no_limit :
  let h := mkHeap 0 ∅ in
  match (NewFullRT (ML := frtMa) (Obj := nat) 1%nat 2%nat (λ _ _, 3%nat) (λ _, []) true (λ _ _, true) 4%nat "/test"
           [WithIPDiversityFilterLimit 2; frt_DHTOption [BootstrapPeers []]] h).1.1 with
  | FrtOk d => f_ipDiversityFilterLimit d = 0
  | _ => False
  end.
Proof. vm_compute. reflexivity. Qed.

(** A client whose provider manager cannot be made leaves its subscription open. *)
Lemma NewFullRT_leaks_subscription :
  let h := mkHeap 0 ∅ in
  (NewFullRT (ML := frtMa) (Obj := nat) 1%nat 2%nat (λ _ _, 3%nat) (λ _, []) true (λ _ _, false) 4%nat "/test" [] h).1
    = (FrtErr ErrProviderManager, true).
Proof. vm_compute. reflexivity. Qed.
