(* ===== verification/OptimisticProvide.v ===== *)
(** * The whole of an optimistic provide

    [newOptimisticState], [optimisticProvide] and the distances of [stopFn] of
    [lookup_optim.go]: the estimate of the network size ([NetSize]) gives the
    thresholds, the lookup calls [stopFn] ([Optimistic]), the remaining peers get
    their requests, and a lookup that completed is a new measurement.

    The lookup comes as the list of its events and its result.  The inverse of
    the incomplete gamma function and the order of floating-point numbers are
    parameters; the concurrent part, [waitForRPCs], is in [Optimistic]. *)

From S2P Require Import Prelude GoTime Datastore Message Optimistic NetSize.
From Stdlib Require Import SpecFloat.

Section provide.
Context {GF : GoFloat}.
Context (GammaIncRegInv : F64 → F64 → F64) (f_ltb : F64 → F64 → bool).
Context (cplKey : bytes → Z) (cplPeer : peerID → Z) (NPeersForCpl : Z → Z) (ksKey : bytes → Z).
Context (bucketSize : nat).
Implicit Types (e : Estimator) (ps : gmap peerID addProviderRPCState).

(** 0.1, and 0.9 *)
Definition oneTenth : F64 := f_div (f_ofZ 1) (f_ofZ 10).
Definition nineTenths : F64 := f_div (f_ofZ 9) (f_ofZ 10).

(** [optimisticState]; its map of peers is that of [Optimistic]. *)
Record optimisticState := mkOptState {
  networkSize : Z;
  os_ksKey : Z;
  individualThreshold : F64;
  setThreshold : F64;
  os_returnThreshold : nat;
}.

(** [newOptimisticState]; the return threshold is the bucket size times 0.75,
    rounded up. *)
Definition newOptimisticState (now : Z) (key : bytes) e : option optimisticState * Estimator :=
  let '(r, e) := NetworkSize now e in
  match r with
  | None => (None, e)
  | Some networkSize =>
      let b := f_ofZ (Z.of_nat bucketSize) in
      (Some (mkOptState networkSize (ksKey key)
         (f_div (GammaIncRegInv b oneTenth) (f_ofZ networkSize))
         (f_div (GammaIncRegInv (f_add (f_div b (f_ofZ 2)) (f_ofZ 1)) nineTenths) (f_ofZ networkSize))
         ((3 * bucketSize + 3) / 4)), e)
  end.

(** The comparison of a peer with the threshold. *)
Definition closeEnough (os : optimisticState) (p : peerID) : bool :=
  negb (f_ltb (individualThreshold os) (NormedDistance ksKey p (os_ksKey os))).

(** The distances: a slice of the bucket size, zero where there is no peer. *)
Definition distances (os : optimisticState) (closest : list peerID) : list F64 :=
  let ds := (λ p, NormedDistance ksKey p (os_ksKey os)) <$> closest in
  ds ++ replicate (bucketSize - length ds) (f_ofZ 0).

Definition avgBelow (os : optimisticState) (closest : list peerID) : bool :=
  let sum := foldl f_add (f_ofZ 0) (distances os closest) in
  f_ltb (f_div sum (f_ofZ (Z.of_nat (length (distances os closest))))) (setThreshold os).

Inductive optErr := ErrEmptyKey | ErrNetworkSize | ErrLookup | ErrContext.

(** What a provide has done: its error, the estimator, the peers with a request,
    the number of requests that it waited for, and whether it has reset the
    refresh time of the key. *)
Record optResult := mkOptResult {
  or_err : option optErr;
  or_estimator : Estimator;
  or_started : list peerID;
  or_waited : option nat;
  or_reset : bool;
}.

(** The events of a lookup: calls of [stopFn] and requests that end. *)
Definition isLookupEvent (ev : optEvent) : bool := match ev with OeLookupDone _ => false | _ => true end.

(** [optimisticProvide]; [None] if the events are not those of a lookup. *)
Definition optimisticProvide (now : Z) (keyMH : bytes) (evs : list optEvent) (lookupRes : option (list peerID * list peerID * bool))
    (outerErr : bool) (now' : Z) e : option optResult :=
  if decide (keyMH = []) then Some (mkOptResult (Some ErrEmptyKey) e [] None false)
  else
    let '(r, e) := newOptimisticState now keyMH e in
    match r with
    | None => Some (mkOptResult (Some ErrNetworkSize) e [] None false)
    | Some es =>
        '(ps, started) ← (if forallb isLookupEvent evs then lookupRun bucketSize (closeEnough es) (avgBelow es) (∅, []) evs else None);
        match lookupRes with
        | None => Some (mkOptResult (Some ErrLookup) e started None false)
        | Some (peers, closest, completed) =>
            let '(ps, new) := scheduleRemaining ps peers in
            let started := started ++ new in
            let rpcCount := size ps in
            let waited := threshold rpcCount (os_returnThreshold es) in
            if outerErr then Some (mkOptResult (Some ErrContext) e started (Some waited) false)
            else if negb completed then Some (mkOptResult None e started (Some waited) false)
            else
              let e := default e (Track cplKey cplPeer NPeersForCpl ksKey bucketSize now' keyMH closest e) in
              Some (mkOptResult None (NetworkSize now' e).2 started (Some waited) true)
        end
    end.

(** ** What a provide does *)

Lemma lookupRun_ok close avg (evs : list optEvent) s s' :
  startedOk s → lookupRun bucketSize close avg s evs = Some s' → startedOk s'.
Proof.
  revert s. induction evs as [|ev evs IH]; intros s Hok; cbn [lookupRun]; [by intros [= <-]|].
  destruct (lookupStep _ _ _ s ev) as [s1|] eqn:E; [|done]. apply IH. by eapply lookupStep_ok.
Qed.

Lemma startedOk_size ps started : startedOk (ps, started) → size ps = length started.
Proof.
  intros [Hnd Hdom]. cbn in *. rewrite <-size_dom. replace (dom ps) with (list_to_set started : gset peerID).
  - by rewrite size_list_to_set.
  - apply set_eq. intros p. by rewrite elem_of_list_to_set, Hdom, elem_of_dom.
Qed.

(** The estimator after a provide: the cache may be filled, and a lookup that
    completed with enough peers is measured. *)
Definition measured (now now' : Z) (keyMH : bytes) (closest : list peerID) e : Estimator :=
  let e := (NetworkSize now e).2 in
  (NetworkSize now' (default e (Track cplKey cplPeer NPeersForCpl ksKey bucketSize now' keyMH closest e))).2.

(** an optimistic provide.  Without an estimate of the network size no request
    is sent and it fails.  Otherwise no peer gets two requests, and with the
    result of the lookup every peer of it gets one; the provide waits for the
    number of requests that is three quarters of the bucket size, rounded up, or
    for all if there are fewer; and it measures the closest peers and resets the
    refresh time of the key exactly if the lookup completed and the context of
    the caller has not ended. *)
Theorem optimisticProvide_correct now keyMH evs res outerErr now' e r :
  optimisticProvide now keyMH evs res outerErr now' e = Some r → keyMH ≠ [] →
  NoDup (or_started r) ∧
  match (NetworkSize now e).1, res with
  | None, _ => or_err r = Some ErrNetworkSize ∧ or_started r = [] ∧ or_waited r = None ∧ or_reset r = false
  | Some _, None => or_err r = Some ErrLookup ∧ or_waited r = None ∧ or_reset r = false ∧ or_estimator r = (NetworkSize now e).2
  | Some _, Some (peers, closest, completed) =>
      (∀ p, p ∈ peers → p ∈ or_started r) ∧
      or_waited r = Some (Nat.min (length (or_started r)) ((3 * bucketSize + 3) / 4)) ∧
      or_err r = (if outerErr then Some ErrContext else None) ∧
      or_reset r = completed && negb outerErr ∧
      or_estimator r = if completed && negb outerErr then measured now now' keyMH closest e else (NetworkSize now e).2
  end.
Proof.
  intros Hr Hk. unfold optimisticProvide in Hr. rewrite decide_False in Hr by done. unfold newOptimisticState in Hr. unfold measured.
  destruct (NetworkSize now e) as [[n|] e1] eqn:En; cbn [fst snd]; [|injection Hr as <-; split_and!; done || constructor].
  set (es := mkOptState _ _ _ _ _) in Hr.
  destruct (forallb isLookupEvent evs); [|done]. destruct (lookupRun _ _ _ _ evs) as [[ps started]|] eqn:El; [|done]. cbn [mbind option_bind] in Hr.
  assert (startedOk (∅, [])) as H0 by (split; [constructor|]; intros p; cbn; rewrite lookup_empty, elem_of_nil; split; [done|by intros []]).
  pose proof (lookupRun_ok _ _ _ _ _ H0 El) as Hok. destruct res as [[[peers closest] completed]|].
  2: { injection Hr as <-. cbn. split; [apply Hok|done]. }
  unfold scheduleRemaining in Hr. pose proof (schedule_spec (λ _, true) ps peers started Hok) as Hs. destruct (schedule_ _ ps peers) as [ps' new].
  destruct Hs as [Hs1 Hs2]. pose proof (startedOk_size _ _ Hs1) as Hsize. rewrite Hsize in Hr.
  assert (threshold (length (started ++ new)) ((3 * bucketSize + 3) / 4) = Nat.min (length (started ++ new)) ((3 * bucketSize + 3) / 4)) as Hth
    by (unfold threshold; case_decide; lia).
  change (os_returnThreshold es) with ((3 * bucketSize + 3) / 4) in Hr. rewrite Hth in Hr.
  destruct outerErr; [|destruct completed]; injection Hr as <-; cbn [or_started or_err or_estimator or_waited or_reset negb andb];
    (split; [apply Hs1|]); rewrite ?andb_false_r; (split; [intros p Hp; by apply Hs2|]); done.
Qed.
End provide.

(** ** Examples *)

#[local] Existing Instance binary64.

(** The network of ten nodes of [NetSize]; the thresholds are 1.5. *)
Definition demoOptimistic : option (@optResult binary64) :=
  optimisticProvide (GF := binary64) (λ _ _, f_ofZ 15) SFltb (λ _, 0%Z) (λ _, 0%Z) (λ _, 2%Z) demoHash 2 6 [0%Z]
    [OeStopFn [[23%Z]]; OeDone [23%Z] true] (Some ([[23%Z]; [46%Z]], [[23%Z]; [46%Z]], true)) false 7 (demoEsRun demoTracks).

Lemma optimisticProvide_correct_witness :
  (or_started <$> demoOptimistic) = Some [[23]; [46]]%Z ∧ (or_waited <$> demoOptimistic) = Some (Some 2) ∧
  (or_reset <$> demoOptimistic) = Some true ∧ ∀ r, demoOptimistic = Some r → NoDup (or_started r).
Proof.
  split; [vm_compute; reflexivity|]. split; [vm_compute; reflexivity|]. split; [vm_compute; reflexivity|].
  unfold demoOptimistic. intros r. generalize (demoEsRun demoTracks). intros e Hr. apply optimisticProvide_correct in Hr; [|discriminate]. exact (proj1 Hr).
Defined.

(** The distances of peers that are not known count as zero: a lookup that knows
    one of twenty peers, at half of the keyspace, ends at once. *)
Lemma stopFn_unknown_peers :
  let os := mkOptState (GF := binary64) 100 0 (f_div (f_ofZ 1) (f_ofZ 10)) (f_div (f_ofZ 15) (f_ofZ 100)) 15 in
  (stopFn 20 (closeEnough (GF := binary64) SFltb demoHash os) (avgBelow (GF := binary64) SFltb demoHash 20 os) ∅ [[128%Z]]).2 = true ∧
  closeEnough (GF := binary64) SFltb demoHash os [128%Z] = false.
Proof. vm_compute. done. Qed.

(** A lookup that fails returns without reading the channel of the requests, which
    has room for as many as the return threshold: of twenty requests that were
    started, five goroutines can never send. *)
Lemma optimisticProvide_leaks :
  let peers := (λ n, [Z.of_nat n]) <$> seq 1 20 in
  match optimisticProvide (GF := binary64) (λ _ _, f_ofZ 500) SFltb (λ _, 0%Z) (λ _, 0%Z) (λ _, 2%Z) demoHash 20 6 [0%Z] [OeStopFn peers] None false 7
          (mkEstimator (GF := binary64) [] 10%Z) with
  | Some r => or_err r = Some ErrLookup ∧ or_waited r = None ∧ length (or_started r) - (3 * 20 + 3) / 4 = 5
  | None => False
  end.
Proof. vm_compute. done. Qed.
