(* ===== verification/RefreshManager.v ===== *)
(** * The goroutines of the refresh manager

    [rtrefresh/rt_refresh_manager.go]: [Start], [Close], [Refresh],
    [RefreshNoWait] and the goroutine of [loop], whose refreshes are those of
    [Refresh].  A request is a number; its channel has room for one answer.  The
    steps of the goroutines interleave; a step that is not possible is [None],
    and [Some None] is a panic, that is a send on a closed channel or a second
    close. *)

From S2P Require Import Prelude Message Refresh.

(** The channel of an answer: open and empty, or closed with its answer. *)
Inductive respState := RespOpen | RespClosed (ok : bool).

(** The goroutine of [loop]: its first refresh, its [select], the loop that gathers
    more requests, the refresh, and the answers to the requests. *)
Inductive rmPhase :=
| RmFirst | RmSelect | RmGather (waiting : list nat) (forced : bool) | RmRefresh (waiting : list nat) (forced : bool)
| RmAnswer (waiting : list nat) (ok : bool) | RmStopped.

(** The manager: whether its context was cancelled, the loop, the goroutines of
    [Refresh] that wait to send their request, and the channels of all requests. *)
Record rmState := mkRm {
  rm_cancelled : bool;
  rm_phase : rmPhase;
  rm_senders : list triggerRefreshReq;
  rm_resps : list respState;
}.
Implicit Types (s : rmState).

(** [NewRtRefreshManager] and [Start] *)
Definition rmInit (autoRefresh : bool) : rmState := mkRm false (if autoRefresh then RmFirst else RmSelect) [] [].

(** The events: a call of [Refresh] or [RefreshNoWait], the start of [Close], the
    end of the first refresh, a tick, a request of a sender that the loop
    receives, the end of gathering, the end of a refresh, an answer, the end of
    answering, the end of the loop, and a sender that sees the end of the context. *)
Inductive rmEvent :=
| RmCall (force : bool) | RmNoWait | RmCancel | RmFirstDone | RmTick | RmRecv (i : nat) | RmGathered | RmRefreshed (ok : bool)
| RmSend | RmAnswered | RmStop | RmSenderDone (i : nat).

(** A send and a close on the channel of a request; [None] is a panic. *)
Definition respond (rs : list respState) (id : nat) (ok : bool) : option (list respState) :=
  match rs !! id with Some RespOpen => Some (<[id := RespClosed ok]> rs) | _ => None end.

Definition set_rm ph senders rs s : rmState := mkRm (rm_cancelled s) ph senders rs.

(** A request that the loop receives: [waiting] and [forced]. *)
Definition gather (ph : rmPhase) (r : triggerRefreshReq) : option rmPhase :=
  match ph with
  | RmSelect => let '(w, f) := batchReq ([], false) r in Some (RmGather w f)
  | RmGather w f => let '(w, f) := batchReq (w, f) r in Some (RmGather w f)
  | _ => None
  end.

Definition rmStep s (ev : rmEvent) : option (option rmState) :=
  let '(senders, rs) := (rm_senders s, rm_resps s) in
  match ev, rm_phase s with
  | RmCall force, ph => Some (Some (set_rm ph (senders ++ [mkReq (Some (length rs)) force]) (rs ++ [RespOpen]) s))
  | RmNoWait, ph =>
      match gather ph (mkReq None false) with
      | Some ph => Some (Some (set_rm ph senders rs s))
      | None => Some (Some s)
      end
  | RmCancel, ph => Some (Some (mkRm true ph senders rs))
  | RmFirstDone, RmFirst => Some (Some (set_rm RmSelect senders rs s))
  | RmTick, RmSelect => Some (Some (set_rm (RmGather [] false) senders rs s))
  | RmRecv i, ph =>
      match senders !! i with
      | Some r => match gather ph r with Some ph => Some (Some (set_rm ph (delete i senders) rs s)) | None => None end
      | None => None
      end
  | RmGathered, RmGather w f => Some (Some (set_rm (RmRefresh w f) senders rs s))
  | RmRefreshed ok, RmRefresh w f => Some (Some (set_rm (RmAnswer w ok) senders rs s))
  | RmSend, RmAnswer (id :: w) ok => Some ((λ rs, set_rm (RmAnswer w ok) senders rs s) <$> respond rs id ok)
  | RmAnswered, RmAnswer [] _ => Some (Some (set_rm RmSelect senders rs s))
  | RmStop, RmSelect => if rm_cancelled s then Some (Some (set_rm RmStopped senders rs s)) else None
  | RmSenderDone i, ph =>
      match rm_cancelled s, senders !! i with
      | true, Some r =>
          match respCh r with
          | Some id => Some ((λ rs, set_rm ph (delete i senders) rs s) <$> respond rs id false)
          | None => Some (Some (set_rm ph (delete i senders) rs s))
          end
      | _, _ => None
      end
  | _, _ => None
  end.

(** ** Every request is answered once *)

Definition waitingOf (ph : rmPhase) : list nat :=
  match ph with RmGather w _ | RmRefresh w _ | RmAnswer w _ => w | _ => [] end.

(** The requests that a goroutine still has to answer. *)
Definition owed s : list nat := waitingOf (rm_phase s) ++ omap respCh (rm_senders s).

Definition rmInv s : Prop := NoDup (owed s) ∧ ∀ id, id ∈ owed s ↔ rm_resps s !! id = Some RespOpen.

Lemma rmInit_inv b : rmInv (rmInit b).
Proof.
  unfold rmInv. replace (owed (rmInit b)) with (@nil nat) by (by destruct b). split; [constructor|]. intros id. cbn.
  rewrite lookup_nil. split; [by intros ?%not_elem_of_nil|done].
Qed.

Lemma delete_omap (l : list triggerRefreshReq) i r :
  l !! i = Some r → omap respCh l ≡ₚ option_list (respCh r) ++ omap respCh (delete i l).
Proof.
  intros Hi. rewrite <-(take_drop_middle l i r Hi) at 1. rewrite delete_take_drop, !omap_app. cbn.
  destruct (respCh r); cbn; [|done]. by rewrite Permutation_middle.
Qed.

(** A channel that is answered leaves the requests that are owed. *)
Lemma respond_inv (l l' : list nat) rs id ok :
  NoDup l → (∀ x, x ∈ l ↔ rs !! x = Some RespOpen) → l ≡ₚ id :: l' →
  ∃ rs', respond rs id ok = Some rs' ∧ NoDup l' ∧ ∀ x, x ∈ l' ↔ rs' !! x = Some RespOpen.
Proof.
  intros Hnd Hin Hp. assert (rs !! id = Some RespOpen) as Hid by (apply Hin; rewrite Hp; left).
  rewrite Hp in Hnd. apply NoDup_cons in Hnd as [Hid' Hnd]. unfold respond. rewrite Hid. eexists. split; [done|]. split; [done|].
  intros x. destruct (decide (x = id)) as [->|Hx].
  - rewrite list_lookup_insert_eq by (by eapply lookup_lt_Some). split; [done|by intros ?].
  - rewrite list_lookup_insert_ne by done. rewrite <-Hin, Hp, elem_of_cons. split; [by right|by intros [?|?]].
Qed.

(** The owed requests are permuted, and the channels stay. *)
Lemma rmInv_perm s s' : rmInv s → owed s' ≡ₚ owed s → rm_resps s' = rm_resps s → rmInv s'.
Proof. intros [H1 H2] Hp Hr. split; [by rewrite Hp|]. intros id. by rewrite Hp, Hr. Qed.

Lemma gather_owed ph ph' r : gather ph r = Some ph' → waitingOf ph' = waitingOf ph ++ option_list (respCh r).
Proof. destruct ph; cbn; try done; by intros [= <-]. Qed.

(** No step panics, and every step keeps the invariant. *)
Lemma rmStep_inv s ev r : rmInv s → rmStep s ev = Some r → ∃ s', r = Some s' ∧ rmInv s'.
Proof.
  intros Hi Hs. pose proof Hi as [Hnd Hin]. destruct s as [c ph sd rs]. unfold rmStep in Hs. cbn [rm_phase rm_senders rm_resps rm_cancelled] in Hs.
  destruct ev as [force| | | | |i| |ok| | | |i].
  - injection Hs as <-. eexists. split; [done|]. unfold rmInv, owed in *. cbn in *. rewrite omap_app, app_assoc. cbn.
    assert (length rs ∉ waitingOf ph ++ omap respCh sd) as Hnew by (rewrite Hin, lookup_ge_None_2 by done; done).
    split.
    + apply NoDup_app. split_and!; [done| |apply NoDup_singleton]. intros x Hx ->%list_elem_of_singleton. done.
    + intros id. rewrite elem_of_app, Hin, list_elem_of_singleton, lookup_snoc_Some. split; [intros [Hl| ->]; [left; split; [by eapply lookup_lt_Some|done]|by right]|].
      intros [[_ ?]|[-> _]]; auto.
  - destruct (gather ph (mkReq None false)) as [ph'|] eqn:Hg; injection Hs as <-; (eexists; split; [done|]); [|done].
    eapply rmInv_perm; [exact Hi| |done]. unfold owed. cbn. by rewrite (gather_owed _ _ _ Hg), app_nil_r.
  - injection Hs as <-. eexists. split; [done|]. by eapply rmInv_perm; [exact Hi| |].
  - destruct ph; try done. injection Hs as <-. eexists. split; [done|]. by eapply rmInv_perm; [exact Hi| |].
  - destruct ph; try done. injection Hs as <-. eexists. split; [done|]. by eapply rmInv_perm; [exact Hi| |].
  - destruct (sd !! i) as [r'|] eqn:Hsd; [|by destruct ph]. assert (∃ ph', gather ph r' = Some ph' ∧ r = Some (set_rm ph' (delete i sd) rs (mkRm c ph sd rs))) as (ph' & Hg & ->).
    { destruct ph; try done; destruct (gather _ r') as [ph'|]; try done; injection Hs as <-; eauto. }
    eexists. split; [done|]. eapply rmInv_perm; [exact Hi| |done]. unfold owed. cbn. rewrite (gather_owed _ _ _ Hg), (delete_omap sd i r' Hsd). by rewrite <-app_assoc.
  - destruct ph; try done. injection Hs as <-. eexists. split; [done|]. by eapply rmInv_perm; [exact Hi| |].
  - destruct ph; try done. injection Hs as <-. eexists. split; [done|]. by eapply rmInv_perm; [exact Hi| |].
  - destruct ph as [| |w f|w f|[|id w] ok|]; try done. destruct (respond_inv _ (w ++ omap respCh sd) _ id ok Hnd Hin) as (rs' & Hr & H1 & H2); [done|].
    cbn in Hr. rewrite Hr in Hs. injection Hs as <-. eexists. split; [done|]. by split.
  - destruct ph as [| |w f|w f|[|id w] ok|]; try done. injection Hs as <-. eexists. split; [done|]. by eapply rmInv_perm; [exact Hi| |].
  - destruct ph; try done. destruct c; [|done]. injection Hs as <-. eexists. split; [done|]. by eapply rmInv_perm; [exact Hi| |].
  - destruct c; [|by destruct ph]. destruct (sd !! i) as [r'|] eqn:Hsd; [|by destruct ph]. destruct (respCh r') as [id|] eqn:Hid.
    + destruct (respond_inv _ (waitingOf ph ++ omap respCh (delete i sd)) _ id false Hnd Hin) as (rs' & Hr & H1 & H2).
      { unfold owed. cbn. rewrite (delete_omap sd i r' Hsd), Hid. cbn. by rewrite Permutation_middle. }
      cbn in Hr. assert (r = Some (set_rm ph (delete i sd) rs' (mkRm true ph sd rs))) as ->; [destruct ph; rewrite Hr in Hs; by injection Hs as <-|].
      eexists. split; [done|]. by split.
    + assert (r = Some (set_rm ph (delete i sd) rs (mkRm true ph sd rs))) as ->; [destruct ph; by injection Hs as <-|].
      eexists. split; [done|]. eapply rmInv_perm; [exact Hi| |done]. unfold owed. cbn. by rewrite (delete_omap sd i r' Hsd), Hid.
Qed.

Fixpoint rmRun s (evs : list rmEvent) : option (option rmState) :=
  match evs with
  | [] => Some (Some s)
  | ev :: evs =>
      match rmStep s ev with
      | None => None
      | Some None => Some None
      | Some (Some s) => rmRun s evs
      end
  end.

Lemma rmRun_inv s evs r : rmInv s → rmRun s evs = Some r → ∃ s', r = Some s' ∧ rmInv s'.
Proof.
  revert s. induction evs as [|ev evs IH]; intros s Hi; cbn [rmRun]; [intros [= <-]; eauto|].
  destruct (rmStep s ev) as [r'|] eqn:E; [|done]. destruct (rmStep_inv s ev r' Hi E) as (s' & -> & Hi'). by apply IH.
Qed.

(** ** Closing *)

(** The steps that the goroutines make on their own when no more calls, requests or
    ticks arrive. *)
Definition closing s s' : Prop :=
  ∃ ev, rmStep s ev = Some (Some s') ∧
    match ev with RmCall _ | RmNoWait | RmCancel | RmTick | RmRecv _ => False | _ => True end.

(** All goroutines have ended, so that [Close] returns. *)
Definition ended s : Prop := rm_phase s = RmStopped ∧ rm_senders s = [].

Definition phaseRank (ph : rmPhase) : nat :=
  match ph with
  | RmStopped => 0
  | RmSelect => 1
  | RmFirst => 2
  | RmAnswer w _ => 2 + length w
  | RmRefresh w _ => 3 + length w
  | RmGather w _ => 4 + length w
  end.
Definition rmMeasure s : nat := phaseRank (rm_phase s) + length (rm_senders s).

Lemma closing_decreases s s' : closing s s' → rmMeasure s' < rmMeasure s ∧ rm_cancelled s' = rm_cancelled s.
Proof.
  intros (ev & Hs & Hev). destruct s as [c ph sd rs]. unfold rmStep in Hs. cbn [rm_phase rm_senders rm_resps rm_cancelled] in Hs.
  assert (∀ i (r : triggerRefreshReq), sd !! i = Some r → length (delete i sd) < length sd) as Hdel.
  { intros i r Hi. pose proof (lookup_lt_Some _ _ _ Hi). rewrite length_delete by done. lia. }
  destruct ev as [force| | | | |i| |ok| | | |i]; try done.
  - destruct ph; try done. simplify_eq. unfold rmMeasure. cbn. split; [lia|done].
  - destruct ph; try done. simplify_eq. unfold rmMeasure. cbn. split; [lia|done].
  - destruct ph; try done. simplify_eq. unfold rmMeasure. cbn. split; [lia|done].
  - destruct ph as [| |w f|w f|[|id w] ok|]; try done. destruct (respond rs id ok); [|done]. cbn in Hs. simplify_eq. unfold rmMeasure. cbn. split; [lia|done].
  - destruct ph as [| |w f|w f|[|id w] ok|]; try done. simplify_eq. unfold rmMeasure. cbn. split; [lia|done].
  - destruct ph; try done. destruct c; [|done]. simplify_eq. unfold rmMeasure. cbn. split; [lia|done].
  - destruct c; [|by destruct ph]. destruct (sd !! i) as [r|] eqn:Hi; [|by destruct ph]. pose proof (Hdel i r Hi).
    assert (∃ rs', s' = set_rm ph (delete i sd) rs' (mkRm true ph sd rs)) as [rs' ->]; [|unfold rmMeasure; cbn; split; [lia|done]].
    destruct (respCh r) as [id|]; [destruct (respond rs id false)|]; destruct ph; cbn in Hs; try done; simplify_eq; eauto.
Qed.

Lemma closing_progress s : rmInv s → rm_cancelled s = true → ended s ∨ ∃ s', closing s s'.
Proof.
  intros Hi Hc. assert (∀ ev, match ev with RmCall _ | RmNoWait | RmCancel | RmTick | RmRecv _ => False | _ => True end →
    rmStep s ev ≠ None → ∃ s', closing s s') as Hstep.
  { intros ev Hev Hne. destruct (rmStep s ev) as [r|] eqn:E; [|done]. destruct (rmStep_inv s ev r Hi E) as (s' & -> & _). exists s', ev. done. }
  destruct s as [c ph sd rs]. cbn in Hc. subst c. destruct sd as [|r sd].
  - destruct ph as [| |w f|w f|[|id w] ok|].
    + right. by apply (Hstep RmFirstDone).
    + right. by apply (Hstep RmStop).
    + right. by apply (Hstep RmGathered).
    + right. by apply (Hstep (RmRefreshed true)).
    + right. by apply (Hstep RmAnswered).
    + right. by apply (Hstep RmSend).
    + by left.
  - right. apply (Hstep (RmSenderDone 0)); [done|]. unfold rmStep. cbn. destruct (respCh r), ph; done.
Qed.


(** ** Examples *)

(** One request is answered by a refresh, one when the manager is closed. *)
Definition demoRm : list rmEvent :=
  [RmFirstDone; RmCall true; RmRecv 0; RmNoWait; RmCall false; RmGathered; RmCancel; RmRefreshed true; RmSend; RmSenderDone 0; RmAnswered; RmStop].

