(* ===== verification/CrawlerQuery.v ===== *)
(** * The queries of the crawler

    [queryPeer] of [crawler/crawler.go] with the message sender of the crawler and
    its options ([crawler/options.go]).  The answers of the network are
    arguments; a message is sent on a stream, and what is done to the stream is
    recorded. *)

From S2P Require Import Prelude GoTime Message Config Crawler.

(** ** Options *)

Section options.
Context {Obj : Type}.

Record crawlerOptions := mkCrawlerOptions {
  co_protocols : list string;
  co_parallelism : Z;
  co_connectTimeout : Z;
  co_perMsgTimeout : Z;
  co_msgSenderBuilder : option Obj;
}.

(** None of the options fails. *)
Definition crawlerOption := crawlerOptions → crawlerOptions.

Definition crawlerDefaults : crawlerOption := λ o,
  mkCrawlerOptions [ProtocolID] 1000 (Second * 5) (Second * 5) (co_msgSenderBuilder o).
Definition WithProtocols (protocols : list string) : crawlerOption := λ o,
  mkCrawlerOptions protocols (co_parallelism o) (co_connectTimeout o) (co_perMsgTimeout o) (co_msgSenderBuilder o).
Definition WithParallelism (parallelism : Z) : crawlerOption := λ o,
  mkCrawlerOptions (co_protocols o) parallelism (co_connectTimeout o) (co_perMsgTimeout o) (co_msgSenderBuilder o).
Definition WithMsgTimeout (timeout : Z) : crawlerOption := λ o,
  mkCrawlerOptions (co_protocols o) (co_parallelism o) (co_connectTimeout o) timeout (co_msgSenderBuilder o).
Definition WithConnectTimeout (timeout : Z) : crawlerOption := λ o,
  mkCrawlerOptions (co_protocols o) (co_parallelism o) timeout (co_perMsgTimeout o) (co_msgSenderBuilder o).
Definition crawl_WithCustomMessageSender (b : option Obj) : crawlerOption := λ o,
  mkCrawlerOptions (co_protocols o) (co_parallelism o) (co_connectTimeout o) (co_perMsgTimeout o) b.

(** The message sender: that of a builder, or the crawler's own. *)
Inductive crawlerSender := BuiltSender (b : Obj) (protocols : list string) | OwnSender (protocols : list string) (timeout : Z).

Record defaultCrawler := mkCrawler { dc_parallelism : Z; dc_connectTimeout : Z; dc_queryTimeout : Z; dc_sender : crawlerSender }.

(** [NewDefaultCrawler] *)
Definition NewDefaultCrawler (opts : list crawlerOption) : defaultCrawler :=
  let o := foldl (λ o f, f o) (crawlerDefaults (mkCrawlerOptions [] 0 0 0 None)) opts in
  mkCrawler (co_parallelism o) (co_connectTimeout o) (wrap64 (3 * co_connectTimeout o))
    (match co_msgSenderBuilder o with
     | Some b => BuiltSender b (co_protocols o)
     | None => OwnSender (co_protocols o) (co_perMsgTimeout o)
     end).
End options.

(** ** Messages *)

(** What is done to a stream. *)
Inductive streamEvent := StreamOpen | StreamWrite | StreamRead | StreamReset | StreamClose.

#[export] Instance streamEvent_eq_dec : EqDecision streamEvent.
Proof. solve_decision. Defined.

(** [ctxReadMsg]: the reader's result if it comes before the context ends; both may
    be ready, and [readFirst] is the choice of [select]. *)
Definition crawl_ctxReadMsg {M} (read : option (option M)) (ctxDone readFirst : bool) : option (option M) :=
  match read with
  | Some r => if ctxDone && negb readFirst then Some None else Some r
  | None => if ctxDone then Some None else None
  end.

(** [SendRequest]: the response, and the events of the stream. *)
Definition crawl_SendRequest {M} (newStream write : bool) (response : option M) : option M * list streamEvent :=
  if negb newStream then (None, [])
  else if negb write then (None, [StreamOpen; StreamWrite])
  else match response with
       | None => (None, [StreamOpen; StreamWrite; StreamRead; StreamReset; StreamClose])
       | Some msg => (Some msg, [StreamOpen; StreamWrite; StreamRead; StreamClose])
       end.

(** [SendMessage] *)
Definition crawl_SendMessage (newStream write : bool) : bool * list streamEvent :=
  if negb newStream then (false, []) else (write, [StreamOpen; StreamWrite; StreamClose]).

(** A stream that was opened is closed, except by [SendRequest] when the request
    cannot be written. *)
Theorem crawl_streams {M} newStream write (response : option M) :
  (StreamOpen ∈ (crawl_SendRequest newStream write response).2 →
    (StreamClose ∈ (crawl_SendRequest newStream write response).2 ↔ write = true)) ∧
  (StreamOpen ∈ (crawl_SendMessage newStream write).2 → StreamClose ∈ (crawl_SendMessage newStream write).2).
Proof. destruct newStream, write, response; cbn; set_solver. Qed.

(** ** Queries *)

Section query.
Context {ML : MaLib}.

(** The loop over the peers of an answer. *)
Definition addLocalPeers (localPeers : gmap peerID AddrInfo) (peers : list AddrInfo) : gmap peerID AddrInfo :=
  foldl (λ m ai, match m !! ai_ID ai with Some _ => m | None => <[ai_ID ai := ai]> m end) localPeers peers.

(** The loop over the common prefix lengths: [genOk] tells whether the library can
    make a key, and [answer] is that of the peer; [None] is a panic and
    [Some None] an error. *)
Fixpoint queryCpls (genOk : nat → bool) (answer : nat → option (list AddrInfo)) (cpls : list nat) (localPeers : gmap peerID AddrInfo)
    : option (option (gmap peerID AddrInfo)) :=
  match cpls with
  | [] => Some (Some localPeers)
  | cpl :: cpls =>
      if negb (genOk cpl) then None
      else match answer cpl with
           | None => Some None
           | Some peers => queryCpls genOk answer cpls (addLocalPeers localPeers peers)
           end
  end.

(** [queryPeer] *)
Definition crawl_queryPeer (newRT connect : bool) (genOk : nat → bool) (answer : nat → option (list AddrInfo))
    : option (option (gmap peerID AddrInfo)) :=
  if negb newRT then Some None
  else if negb connect then Some None
  else queryCpls genOk answer (seq 0 16) ∅.

Lemma addLocalPeers_spec m peers p :
  addLocalPeers m peers !! p = match m !! p with Some ai => Some ai | None => head (filter (λ ai, ai_ID ai = p) peers) end.
Proof.
  revert m. induction peers as [|ai peers IH]; intros m; cbn [addLocalPeers foldl]; [by destruct (m !! p)|].
  fold (addLocalPeers (match m !! ai_ID ai with Some _ => m | None => <[ai_ID ai := ai]> m end) peers). rewrite IH.
  rewrite filter_cons. destruct (decide (ai_ID ai = p)) as [<-|Hne].
  - destruct (m !! ai_ID ai) eqn:E; [by rewrite E|]. by rewrite lookup_insert_eq.
  - destruct (m !! ai_ID ai); [done|]. by rewrite lookup_insert_ne.
Qed.

Lemma queryCpls_spec genOk answer cpls m :
  Forall (λ c, genOk c = true) cpls →
  queryCpls genOk answer cpls m = Some
    (if forallb (λ c, bool_decide (is_Some (answer c))) cpls
     then Some (addLocalPeers m (cpls ≫= λ c, default [] (answer c))) else None).
Proof.
  intros Hg. revert m. induction Hg as [|c cpls Hc Hg IH]; intros m; cbn [queryCpls forallb]; [done|]. rewrite Hc. cbn [negb].
  destruct (answer c) as [peers|] eqn:Ha.
  - rewrite IH, bool_decide_true by done. cbn [andb]. destruct (forallb _ cpls); [|done]. do 2 f_equal. cbn [mbind list_bind]. rewrite Ha. cbn.
    unfold addLocalPeers. by rewrite foldl_app.
  - by rewrite bool_decide_false by (by intros [? ?]).
Qed.

(** A query.  If the library makes keys for the prefix lengths up to 15, [queryPeer]
    does not panic; it succeeds exactly if the connection and all 16 requests do,
    and then returns every peer that was named, with the addresses of the first
    answer that named it, and no other peer. *)
Theorem queryPeer_correct newRT connect genOk answer :
  (∀ c, c ≤ 15 → genOk c = true) →
  ∃ r, crawl_queryPeer newRT connect genOk answer = Some r ∧
    (is_Some r ↔ newRT = true ∧ connect = true ∧ ∀ c, c ≤ 15 → is_Some (answer c)) ∧
    ∀ data p, r = Some data → data !! p = head (filter (λ ai, ai_ID ai = p) (seq 0 16 ≫= λ c, default [] (answer c))).
Proof.
  intros Hg. unfold crawl_queryPeer. destruct newRT; [|eexists; split; [done|]; split; [split; [by intros []|by intros []]|done]].
  destruct connect; [|eexists; split; [done|]; split; [split; [by intros []|by intros (_ & ? & _)]|done]]. cbn [negb].
  rewrite queryCpls_spec.
  2: { apply Forall_forall. intros c Hc%elem_of_seq. apply Hg. lia. }
  eexists. split; [done|]. destruct (forallb _ (seq 0 16)) eqn:Hf.
  - split; [|intros data p [= <-]; by rewrite addLocalPeers_spec, lookup_empty].
    split; [|done]. intros _. split_and!; [done..|]. intros c Hc. rewrite forallb_forall in Hf.
    apply (bool_decide_unpack _). rewrite (Hf c) by (apply in_seq; lia). done.
  - split; [|done]. split; [by intros []|]. intros (_ & _ & Ha). rewrite <-not_true_iff_false, forallb_forall in Hf. destruct Hf.
    intros c Hc%in_seq. apply bool_decide_eq_true, Ha. lia.
Qed.
End query.

(** ** Examples *)

Definition queryMa : MaLib := {| MA := list Z; ma_Bytes := id; NewMultiaddrBytes := λ b, Some b |}.

Lemma queryPeer_correct_witness :
  let ai (p a : Z) := mkAddrInfo (ML := queryMa) [p] ([[a]] : list (list Z)) in
  let answer c := Some (if decide (c = 3) then [ai 1 10; ai 2 20]%Z else if decide (c = 5) then [ai 2 21; ai 3 30]%Z else []) in
  ∃ data, crawl_queryPeer (ML := queryMa) true true (λ _, true) answer = Some (Some data) ∧ data !! [2%Z] = Some (ai 2 20)%Z.
Proof.
  intros ai answer. destruct (queryPeer_correct (ML := queryMa) true true (λ _, true) answer) as (r & Hr & Hs & Hd); [done|].
  destruct r as [data|]; [|destruct (proj2 Hs) as [? ?]; [|done]; split_and!; [done..|]; intros; unfold answer; eauto].
  exists data. split; [exact Hr|]. rewrite (Hd data [2%Z] eq_refl). reflexivity.
Defined.
